(* ===== verification/_CoqProject ===== *)
-Q . S2P
Prelude.v
Bytes.v
Key.v
Ids.v
Store.v
Rocksdb.v
ChangeLog.v
Quota.v
Ttl.v
Expiring.v
Text.v
Fts.v
MailParser.v
Sieve.v
SieveGlob.v
SieveLexer.v
SieveGrammar.v
SieveSound.v
SieveErrors.v
Directory.v
Login.v
DirectoryRep.v
DirectoryWrite.v
DirectoryHistory.v
DirectoryDemo.v
FilterRules.v
FilterRulesSound.v
SieveRegistry.v
QueueModel.v
Blobs.v
MailModel.v
MailMessage.v
MailStore.v
MailRep.v
MailFile.v
MailRemove.v
MailHistory.v
MailCache.v
MailAdmin.v
MailReindex.v
MailDemo.v
Dsn.v
QueueStore.v
QueueDeliver.v
SmtpVerdict.v
SmtpCommands.v
SmtpSubmit.v
Vacation.v
Sanitize.v
SmtpSession.v
SmtpData.v
SmtpSafety.v
SmtpOutcome.v
Pop3Commands.v
Pop3.v
Pop3Safety.v
Pop3Maildrop.v
ManageSieve.v
ManageSieveSafe.v
ManageSieveRun.v
ImapParser.v
ImapSequence.v
ImapDate.v
ImapFetch.v
ImapEnvelope.v
ImapCommands.v
ImapSearch.v
ImapMail.v
ImapExpunge.v
ImapCopy.v
ImapStore.v
ImapSession.v
Footprint.v
ImapSafety.v
ImapTermination.v
ImapDemo.v
DavXml.v
Dav.v
DavSync.v
DavServe.v
