(* ===== verification/Prelude.v ===== *)
(** * IRIXMAIL: a verification development

    IRIXMAIL is a mail server: SMTP in and out, IMAP, POP3, ManageSieve, JMAP,
    CalDAV and CardDAV over one embedded key-value store and one blob store.
    This library models the way mail enters, is filtered, kept, queued, read
    and removed, and who may do so, and proves what makes that correct.  Paths
    below are under src/crates/.

    ** The program and the files that model it

    - core: errors and ids.  [Prelude] has [Error] and [Result] (core/error.rs)
      and the state-passing monad [M] in which every fallible, stateful method
      is written; an error keeps the state reached so far; it also has triples
      and frame relations for [M].  [Bytes] has fixed-width integers with their
      wrap-around, byte strings and their order; [Text] what the sources use of
      std's formatting, parsing and UTF-8.  [Ids] models core/id.rs, the
      compare-and-swap loop of the generator as interleaved steps of any number
      of threads.
    - store: [Key] (store/key.rs), the trait as the class [Store] with the
      contract [StoreSpec] (store/traits_store.rs) in [Store], its
      implementation [Rocksdb] (store/rocksdb_store.rs, rocksdb_write.rs,
      batch.rs) over an optimistic transaction engine, [ChangeLog]
      (store/changelog.rs), [Quota] (store/quota.rs), [Ttl] (store/ttl.rs and
      the two rate limiters of smtp that live in it), [Expiring]
      (store/expiring.rs and smtp/greylist.rs), [Fts] (store/fts.rs), [Blobs]
      (mail/blob_store_msg.rs and purge.rs over the class [BlobStore]).
    - Sieve: [SieveGlob] and [Sieve] (sieve/matching.rs, message.rs,
      runtime.rs and the data types), [SieveLexer] (lexer.rs), [SieveGrammar]
      (grammar.rs, the one-pass compiler), and the theorems on the compiler in
      [SieveSound] and [SieveErrors].
    - the directory: [Directory] (directory/address_index.rs,
      domain_registry.rs, account_registry.rs, credential_registry.rs and
      mail/resolve.rs), [Login] (authenticate.rs, throttle.rs, login.rs); what
      the rows represent in [DirectoryRep], that every operation keeps it in
      [DirectoryWrite], histories and routes in [DirectoryHistory], concrete cases
      in [DirectoryDemo].
    - mail: the parsed message as an interface in [MailParser], the records
      and mailboxes in [MailModel] (mail/message.rs, mailbox.rs, keywords.rs,
      provision.rs), [MailMessage] (metadata.rs), the operations on the store
      in [MailStore] (read.rs, threading.rs, index.rs, deliver.rs), caches in
      [MailCache] (cache.rs), mailboxes and subscriptions in [MailAdmin]
      (mailbox_admin.rs, subscriptions.rs, the backfills).  [MailRep] says what
      the rows of an account represent; [MailFile], [MailRemove],
      [MailHistory] and [MailReindex] prove that the operations refine it;
      [MailDemo] runs them.
    - the outbound queue: [QueueModel] (smtp/queue_model.rs, retry.rs,
      concurrency.rs, queue_lease.rs, the reply classes of deliver_out.rs),
      [QueueStore] (queue_enqueue.rs, queue_manager.rs), [Dsn] (dsn.rs),
      [QueueDeliver] (queue_deliver.rs, queue_local.rs, mx_resolve.rs).
    - the SMTP server: [SmtpVerdict] (spf.rs, dkim_verify.rs, dmarc.rs, arc.rs,
      dnsbl.rs, loop_detect.rs, spam_decision.rs, inbound.rs and
      mail/auth_results.rs), [SmtpCommands] (parser.rs, cmd_*.rs, sub_auth.rs,
      sub_from.rs), [SmtpSubmit] (sub_headers.rs, sub_enqueue.rs,
      deliver_hook.rs), [SmtpSession] (session.rs), and the theorems about the
      session in [SmtpData], [SmtpSafety] and [SmtpOutcome].
    - the POP3 server: [Pop3Commands] (pop3/parser.rs, cmd_*.rs), [Pop3]
      (session.rs), theorems in [Pop3Safety] and [Pop3Maildrop].
    - the IMAP server: [ImapParser] (imap/parser.rs), [ImapSequence],
      [ImapFetch] (cmd_fetch.rs), [ImapDate] (internaldate.rs), [ImapEnvelope]
      (envelope.rs, bodystructure.rs), [ImapCommands] (the other cmd_*.rs),
      [ImapSearch] (a mailbox by uid, cmd_search.rs and
      eval_search), [ImapMail] (what the commands do to the mail), and the
      session itself in [ImapSession] (session.rs).  The theorems are in
      [ImapExpunge], [ImapCopy], [ImapStore], [ImapSearch], [ImapSafety] and
      [ImapTermination]; [Footprint] says which keys of the store each mail
      operation writes; [ImapDemo] runs connections.
    - filter rules and scripts: [FilterRules] (mail/sieve_compile.rs) prints
      the rules of an account as a script, and [FilterRulesSound] shows that the
      lexer, the compiler and the interpreter read it as the rules mean;
      [SieveRegistry] (directory/sieve_registry.rs) keeps scripts, and says
      which changes clients may make to them and what stays true.
    - the ManageSieve server: [ManageSieve] (managesieve/parser.rs, sasl.rs,
      session.rs), theorems in [ManageSieveSafe] and [ManageSieveRun], which also
      has concrete connections.
    - vacation replies: [Vacation] (mail/vacation.rs and respond_vacations of
      smtp/deliver_hook.rs) with their theorems.
    - HTML of messages: [Sanitize] (mail/sanitize.rs), with a reader of HTML by
      the standard as its specification.
    - CalDAV and CardDAV: [DavXml] (dav/proto/: the XML of requests and replies),
      [Dav] (dav/storage.rs and handler/: collections, objects, paths, every
      request), [DavSync] (a machine of numbered changes, a client behind it, and
      what the report makes of the log) and [DavServe] (the rows of the store
      refine the machine, request by request).

    A component's state is a record or the type parameter of a class; one
    definition stands for one function or method and keeps its name where the
    name is free.  A w-bit integer is a [Z] with truncation, wrapping and
    saturation written out; a string is its UTF-8 bytes.  A method that reads
    the clock takes the reading as an argument or from a sequence of readings,
    so that their order is explicit; a method that other threads can interleave
    with is a sequence of steps.  Within a POP3, IMAP or ManageSieve connection no
    other connection runs; what a notification does to IDLE is an input.

    ** Interfaces

    A client is proved against a class and the implementation discharges it:
    [StoreSpec] by [Rocksdb] and by an in-memory store, [BlobSpec] by an
    in-memory blob store, [QueuePromise] (what the SMTP session may expect of
    the queue) by the store-backed queue of [QueueStore].  Code outside the
    repository is a parameter with documented behaviour as named laws: the
    RocksDB engine ([Engine] with [EngineLaws], whose transactions commit only
    if what they read is unchanged), the archive codecs ([Codec],
    [MailCodec] with [MailCodecLaws], round trips), roaring bitmaps ([Bitmap]
    with [BitmapLaws], finite sets), the JSON of records ([MailboxJson],
    [DirectoryJson], [JsonValue] and [JsonWriter], [DavJson] with
    [DavJsonLaws], round trips where a theorem needs them), and without laws
    mail_parser ([MailParser], [MimeView]), Unicode tables ([Unicode],
    [LowerText]), Argon2 ([Argon2]), base64 ([Base64]), mail_auth and the DNS
    resolver ([MailAuth]), smtp_proto ([SmtpProto]), calcard and the content
    hash ([DavLibrary]) and quick-xml ([XmlReader]).  Every property that
    has hypotheses has a witness that instantiates these parameters and
    discharges the hypotheses on concrete data.

    ** What the theorems show

    - Accounts as clients see them: after any history of deliveries, changes,
      copies, deletions and purges the store represents the messages the
      history leaves, with quota, index, threads, uids and references to match
      ([account_history]); delivery, deletion, removal of a mailbox and
      reindexing refine it ([deliver_refines], [delete_refines],
      [delete_mailbox_refines], [reindex_repairs], [flatten_faithful]).
    - IMAP: what a connection can write and when ([imap_session_safe],
      [examine_read_only]), what EXPUNGE, STORE, COPY, MOVE, SEARCH and body
      sections do and tell the client ([expunge_refines], [store_refines],
      [copy_refines], [imap_search_exact], [body_section_exact],
      [sequence_set_roundtrip]), that the loops end ([imap_serves_to_the_end],
      [parse_command_ends]).
    - POP3: [pop3_session_safe], [pop3_serves_inbox], [pop3_quit_refines],
      [retr_roundtrip], [pop3_serves_to_the_end].
    - Directory and login: [directory_history], [login_guesses_bounded].
    - SMTP: no open relay ([no_open_relay]), a positive reply to a submission
      is kept ([submission_kept]), DATA is transparent ([data_roundtrip]), the
      protocol state is consistent ([session_consistent], [standing_is_earned]),
      sessions end ([session_ends]).
    - Sieve: the compiler is correct and total ([sieve_compiler_correct],
      [sieve_compile_total]).
    - Queue: [enqueue_durable], [process_message_accounts], [scan_due_exact].
    - Store: [rocksdb_refines_store], [changes_since_complete],
      [fts_search_exact], [purge_exact], [quota_tracks_ledger],
      [key_encode_unambiguous], [batch_conditional_atomic] and others.
    - Filters: rules do what they say ([filter_rules_correct]); what a
      ManageSieve connection can change ([managesieve_session_safe]); the
      script that was put is the one shown and the one that runs
      ([put_get_deliver]).
    - Vacation replies: at most one a week for each sender and none to a reply
      ([vacation_once_per_period]), and what a reply is
      ([vacation_reply_sent]).
    - HTML: a sanitized message has nothing in it that runs or, by an absolute
      URL, loads by itself ([sanitize_html_safe]).
    - Calendars and contacts: a client that synchronises, however its answers
      are cut and whatever happens in between, has the collection after a whole
      answer ([dav_sync_exact]); a property that was set is the one found
      ([set_property_found]).
    - Where the code does not do what it means to, a theorem shows it:
      [append_contents_run], [tab_never_ends], [uid_given_twice],
      [envelope_line_broken] (IMAP), [rename_to_nothing],
      [literal_runs_as_command] (ManageSieve), [vacation_subject_panics],
      [remote_image_without_scheme], [references_escaped_twice], [double_delete_loses_body],
      [index_race_loses], [late_commit_missed], [queued_body_purged],
      [account_ids_collide], [bare_lf_ends_data].

    ** Bounds and fuel

    The retry loop of the store runs at most sixteen times because the code
    does; numbers print with twenty decimal or sixteen hexadecimal digits,
    which hold every 64-bit number; UTF-8 functions use the length of the text
    as fuel and consume at least a byte per step; alias routing is bounded by
    two hops as in the code.  The loops of the SMTP, POP3, IMAP and ManageSieve
    sessions take one more turn than there are bytes to read (IDLE also one per
    notice), a SASL exchange three turns and the chunk drain one turn per 4096
    bytes; [session_ends], [pop3_serves_to_the_end], [imap_serves_to_the_end]
    and [managesieve_serves_to_the_end] show that larger bounds change nothing.
    The IMAP tokenizer has fuel linear in the line, enough unless the line
    makes it loop, which is the result [Starved]; the HTML tokenizer has the
    length of the text, which is enough ([html_tokens_enough]); the Sieve
    compiler and the flattening of a message take their size as fuel, which is
    proved enough.

    ** What is not modelled

    Sockets, TLS handshakes, task spawning, logging, file I/O, certificates and
    DNS lookups, which are calls to libraries.  Of the repository's own logic:
    JMAP, the HTTP administration, message composition, DNS record texts,
    configuration and start-up. *)

From stdpp Require Import base gmap sets list strings sorting.
From Stdlib Require Import ZArith Lia.

Open Scope Z_scope.

(** ** Errors and results (crates/core/src/error.rs) *)

(** [irixmail_core::Error].  [Io] wraps a [std::io::Error], of which only the
    text matters here. *)
Inductive Error : Type :=
  | Config (detail : string)
  | Io (detail : string)
  | StoreError (detail : string)
  | Serialize (detail : string)
  | NotFound (detail : string)
  | InvalidInput (detail : string)
  | Unauthorized (detail : string)
  | Forbidden (detail : string)
  | Protocol (detail : string)
  | Internal (detail : string).

#[global] Instance Error_eq_dec : EqDecision Error.
Proof. solve_decision. Defined.

(** [Error::is_client_error]. *)
Definition is_client_error (e : Error) : bool :=
  match e with
  | NotFound _ | InvalidInput _ | Unauthorized _ | Forbidden _ | Protocol _ => true
  | _ => false
  end.

(** [Result<T>]. *)
Inductive result (A : Type) : Type :=
  | Ok (a : A)
  | Err (e : Error).
Arguments Ok {A} a.
Arguments Err {A} e.

#[global] Instance result_eq_dec A `{EqDecision A} : EqDecision (result A).
Proof. solve_decision. Defined.

(** The [?] operator is the bind of this monad. *)
#[global] Instance result_ret : MRet result := @Ok.
#[global] Instance result_bind : MBind result := λ A B f r,
  match r with Ok a => f a | Err e => Err e end.
#[global] Instance result_fmap : FMap result := λ A B f r,
  match r with Ok a => Ok (f a) | Err e => Err e end.

Definition is_ok {A} (r : result A) : bool :=
  match r with Ok _ => true | Err _ => false end.

(** [Option::ok_or]. *)
Definition ok_or {A} (o : option A) (e : Error) : result A :=
  match o with Some a => Ok a | None => Err e end.

(** ** State passing

    A method that takes [&self] on an object with interior mutability, or
    [&mut self], is a function from the state before to the result and the
    state after.  The state is returned on the error path too: a call that
    fails half-way leaves behind what it had already written. *)
Definition M (S A : Type) : Type := S → result A * S.

#[global] Instance M_ret {S} : MRet (M S) := λ A a s, (Ok a, s).
#[global] Instance M_bind {S} : MBind (M S) := λ A B f m s,
  match m s with
  | (Ok a, s') => f a s'
  | (Err e, s') => (Err e, s')
  end.

(** A read-only call used inside a state-passing one. *)
Definition reads {S A} (f : S → result A) : M S A := λ s, (f s, s).
Definition lift {S A} (r : result A) : M S A := λ s, (r, s).
Definition throw {S A} (e : Error) : M S A := λ s, (Err e, s).

(** A sequence that succeeds is two calls that succeed. *)
Lemma M_bind_ok {S A B} (m : M S A) (f : A → M S B) s b s' :
  (x ← m; f x) s = (Ok b, s') → ∃ x s1, m s = (Ok x, s1) ∧ f x s1 = (Ok b, s').
Proof.
  unfold mbind, M_bind. destruct (m s) as [[x|e] s1]; [|done]. intros. by exists x, s1.
Qed.

Lemma result_bind_ok {A B} (m : result A) (f : A → result B) b :
  (x ← m; f x) = Ok b → ∃ x, m = Ok x ∧ f x = Ok b.
Proof. destruct m as [x|e]; [|done]. intros. by exists x. Qed.

(** ** Generic list lemmas *)

Section filter_lemmas.
Context {A : Type} (P : A → Prop) `{∀ x, Decision (P x)}.

Lemma filter_none l : Forall (λ x, ¬ P x) l → filter P l = [].
Proof.
  induction 1 as [|x l Hx _ IH]; [done|]. rewrite filter_cons. by rewrite decide_False.
Qed.

Lemma filter_all l : Forall P l → filter P l = l.
Proof.
  induction 1 as [|x l Hx _ IH]; [done|]. rewrite filter_cons. by rewrite decide_True, IH.
Qed.
End filter_lemmas.

(** ** Reasoning about state-passing code

    Partial-correctness triples for the monad [M], and the relations between
    the states before and after a call that hold on the error path too.  The
    rules are in the hint database [hoare]. *)

(** A call that succeeds from [P] ends in [Q]; a call that fails ends the
    computation it is part of. *)
Definition triple {S A} (P : S → Prop) (m : M S A) (Q : A → S → Prop) : Prop :=
  ∀ s a s', P s → m s = (Ok a, s') → Q a s'.

(** Whatever the result, the states are related. *)
Definition keeps {S} (R : S → S → Prop) {A} (m : M S A) : Prop := ∀ s, R s (m s).2.

Section triples.
Context {S : Type}.
Implicit Types (P : S → Prop).

Lemma triple_ret {A} (a : A) (Q : A → S → Prop) : triple (Q a) (mret a) Q.
Proof. intros s a' s' HQ [= <- <-]. done. Qed.

Lemma triple_throw {A} P e (Q : A → S → Prop) : triple P (throw e) Q.
Proof. by intros s a s' _ [=]. Qed.

Lemma triple_bind {A B} P (m : M S A) (k : A → M S B) (Q : A → S → Prop) (R : B → S → Prop) :
  triple P m Q → (∀ a, triple (Q a) (k a) R) → triple P (x ← m; k x) R.
Proof. intros Hm Hk s b s' HP (a & s1 & E1 & E2)%M_bind_ok. eapply Hk; [|done]. by eapply Hm. Qed.

Lemma triple_conseq {A} P P' (m : M S A) (Q Q' : A → S → Prop) :
  triple P' m Q' → (∀ s, P s → P' s) → (∀ a s, Q' a s → Q a s) → triple P m Q.
Proof. intros H H1 H2 s a s' HP E. eapply H2, H; [by apply H1|done]. Qed.

(** What a call keeps, it keeps for a predicate that respects it. *)
Lemma triple_keeps {A} (R : S → S → Prop) P (m : M S A) :
  keeps R m → (∀ s s', R s s' → P s → P s') → triple P m (λ _, P).
Proof. intros Hm HP s a s' Hs E. specialize (Hm s). rewrite E in Hm. by eapply HP. Qed.
End triples.

(** Calls that agree where the first one leads. *)
Lemma bind_ext {S A B} (m : M S A) (k k' : A → M S B) s :
  (∀ a s', m s = (Ok a, s') → k a s' = k' a s') → (x ← m; k x) s = (x ← m; k' x) s.
Proof. unfold mbind, M_bind. destruct (m s) as [[a|e] s1]; eauto. Qed.

Section keeps.
Context {S : Type} (R : S → S → Prop) {po : PreOrder R}.

Lemma keeps_ret {A} (a : A) : keeps R (mret a).
Proof. intros s. reflexivity. Qed.

Lemma keeps_throw {A} e : keeps R (throw (A := A) e).
Proof. intros s. reflexivity. Qed.

Lemma keeps_reads {A} (f : S → result A) : keeps R (reads f).
Proof. intros s. reflexivity. Qed.

Lemma keeps_bind {A B} (m : M S A) (k : A → M S B) :
  keeps R m → (∀ a, keeps R (k a)) → keeps R (x ← m; k x).
Proof.
  intros Hm Hk s. unfold mbind, M_bind. specialize (Hm s). destruct (m s) as [[a|e] s1]; [|done].
  etransitivity; [exact Hm|apply Hk].
Qed.
End keeps.

Create HintDb hoare discriminated.
#[global] Hint Resolve keeps_ret keeps_throw keeps_reads keeps_bind : hoare.
#[global] Hint Resolve triple_throw : hoare.

(** A call that ends in [Q], or fails in a state where [E] holds. *)
Definition ends {S A} (E : S → Prop) (m : M S A) (Q : A → S → Prop) (s : S) : Prop :=
  match m s with (Ok a, s') => Q a s' | (Err _, s') => E s' end.

Section ends.
Context {S : Type} (E : S → Prop).

Lemma ends_bind {A B} (m : M S A) (k : A → M S B) (Q : B → S → Prop) s :
  ends E m (λ a, ends E (k a) Q) s → ends E (x ← m; k x) Q s.
Proof. unfold ends, mbind, M_bind. by destruct (m s) as [[a|e] s1]. Qed.
Lemma ends_mono {A} (m : M S A) (Q Q' : A → S → Prop) s :
  ends E m Q s → (∀ a s', Q a s' → Q' a s') → ends E m Q' s.
Proof. unfold ends. destruct (m s) as [[a|e] s1]; auto. Qed.
Lemma ends_ret {A} (a : A) (Q : A → S → Prop) s : Q a s → ends E (mret a) Q s.
Proof. done. Qed.
End ends.
