(* ===== verification/Bytes.v ===== *)
(** * Machine integers and byte strings

    What the sources use of the standard library: fixed-width integers with
    their wrap-around and saturating operations, the big- and little-endian
    encodings of [to_be_bytes]/[to_le_bytes], and the lexicographic order of
    byte slices.  A byte is an integer in [0, 256); a [Vec<u8>], a [&[u8]] and
    the UTF-8 contents of a [String] are lists of bytes. *)

From S2P Require Import Prelude.
From stdpp Require Import base gmap list strings sorting.
From Stdlib Require Import ZArith Lia.

Open Scope Z_scope.

Abbreviation bytes := (list Z).

(** ** Fixed-width integers *)

Definition U32_MAX : Z := 2 ^ 32 - 1.
Definition U64_MAX : Z := 2 ^ 64 - 1.
Definition I64_MAX : Z := 2 ^ 63 - 1.

Definition is_byte (b : Z) : Prop := 0 ≤ b < 256.
Definition is_u32 (x : Z) : Prop := 0 ≤ x < 2 ^ 32.
Definition is_u64 (x : Z) : Prop := 0 ≤ x < 2 ^ 64.
Definition is_i64 (x : Z) : Prop := - 2 ^ 63 ≤ x < 2 ^ 63.

Create HintDb width discriminated.
#[global] Hint Unfold is_byte is_u32 is_u64 is_i64 U32_MAX U64_MAX I64_MAX : width.

(** Arithmetic goals about widths: unfold the bounds and call [lia]. *)
Ltac width := autounfold with width in *; simpl in *; lia.

(** [x as u32], [x as u64], [x as i64]: truncation modulo the width. *)
Definition as_u32 (x : Z) : Z := x mod 2 ^ 32.
Definition as_u64 (x : Z) : Z := x mod 2 ^ 64.
Definition as_i64 (x : Z) : Z := (x + 2 ^ 63) mod 2 ^ 64 - 2 ^ 63.

(** [i64::wrapping_add]. *)
Definition wrapping_add_i64 (x y : Z) : Z := as_i64 (x + y).

(** [u64::saturating_add] and its relatives. *)
Definition saturating_add_u64 (x y : Z) : Z := Z.min (x + y) U64_MAX.
Definition saturating_add_u32 (x y : Z) : Z := Z.min (x + y) U32_MAX.
Definition saturating_sub (x y : Z) : Z := Z.max (x - y) 0.
Definition saturating_mul_u64 (x y : Z) : Z := Z.min (x * y) U64_MAX.

(** [u64::checked_add]. *)
Definition checked_add_u64 (x y : Z) : option Z :=
  if x + y <=? U64_MAX then Some (x + y) else None.

Lemma as_u32_id x : is_u32 x → as_u32 x = x.
Proof. intros H. apply Z.mod_small. width. Qed.

Lemma as_u32_range x : is_u32 (as_u32 x).
Proof. apply Z.mod_pos_bound. lia. Qed.

Lemma as_i64_id x : is_i64 x → as_i64 x = x.
Proof. unfold as_i64, is_i64. intros H. rewrite Z.mod_small; lia. Qed.

Lemma as_i64_range x : is_i64 (as_i64 x).
Proof.
  unfold as_i64, is_i64.
  pose proof (Z.mod_pos_bound (x + 2 ^ 63) (2 ^ 64) ltac:(lia)). lia.
Qed.

(** Truncation to [u64] and back to [i64] loses nothing. *)
Lemma as_i64_as_u64 x : as_i64 (as_u64 x) = as_i64 x.
Proof.
  unfold as_i64, as_u64. rewrite Zplus_mod_idemp_l. reflexivity.
Qed.

(** Truncating an operand first does not change a wrapped sum. *)
Lemma as_i64_add_r x y : as_i64 (x + as_i64 y) = as_i64 (x + y).
Proof.
  unfold as_i64.
  replace (x + ((y + 2 ^ 63) mod 2 ^ 64 - 2 ^ 63) + 2 ^ 63) with (x + (y + 2 ^ 63) mod 2 ^ 64) by lia.
  rewrite Zplus_mod_idemp_r. do 2 f_equal. lia.
Qed.

Lemma as_i64_add_l x y : as_i64 (as_i64 x + y) = as_i64 (x + y).
Proof. rewrite (Z.add_comm _ y), as_i64_add_r. f_equal. lia. Qed.

Lemma wrapping_add_i64_assoc x y z :
  wrapping_add_i64 (wrapping_add_i64 x y) z = wrapping_add_i64 x (wrapping_add_i64 y z).
Proof. unfold wrapping_add_i64. rewrite as_i64_add_l, as_i64_add_r. f_equal. lia. Qed.

Lemma wrapping_add_i64_id x y : is_i64 (x + y) → wrapping_add_i64 x y = x + y.
Proof. apply as_i64_id. Qed.

#[global] Hint Resolve as_u32_range as_i64_range : width.

(** ** Little- and big-endian encodings *)

Fixpoint le_bytes (n : nat) (x : Z) : bytes :=
  match n with
  | O => []
  | S n => x mod 256 :: le_bytes n (x / 256)
  end.

Fixpoint of_le_bytes (l : bytes) : Z :=
  match l with
  | [] => 0
  | b :: l => b + 256 * of_le_bytes l
  end.

Definition be_bytes (n : nat) (x : Z) : bytes := reverse (le_bytes n x).
Definition of_be_bytes (l : bytes) : Z := of_le_bytes (reverse l).

(** [u32::to_be_bytes], [u64::to_be_bytes] and the inverses; [i64] counters
    are little-endian two's complement. *)
Definition u32_be (x : Z) : bytes := be_bytes 4 x.
Definition u64_be (x : Z) : bytes := be_bytes 8 x.
Definition i64_le (x : Z) : bytes := le_bytes 8 x.
Definition i64_of_le (l : bytes) : Z := as_i64 (of_le_bytes l).


Lemma length_le_bytes n x : length (le_bytes n x) = n.
Proof. revert x. induction n as [|n IH]; intros x; simpl; [done|]. by rewrite IH. Qed.

Lemma length_be_bytes n x : length (be_bytes n x) = n.
Proof. unfold be_bytes. by rewrite length_reverse, length_le_bytes. Qed.

Lemma le_bytes_is_byte n x : Forall is_byte (le_bytes n x).
Proof.
  revert x. induction n as [|n IH]; intros x; simpl; constructor; [|apply IH].
  apply Z.mod_pos_bound. lia.
Qed.

Lemma be_bytes_is_byte n x : Forall is_byte (be_bytes n x).
Proof. apply Forall_reverse, le_bytes_is_byte. Qed.

Lemma of_le_bytes_le_bytes n x : of_le_bytes (le_bytes n x) = x mod 256 ^ Z.of_nat n.
Proof.
  revert x. induction n as [|n IH]; intros x; simpl of_le_bytes.
  { change (256 ^ Z.of_nat 0) with 1. by rewrite Z.mod_1_r. }
  rewrite IH, Nat2Z.inj_succ, Z.pow_succ_r by lia.
  rewrite Z.rem_mul_r by lia. lia.
Qed.

Lemma of_be_bytes_be_bytes n x : of_be_bytes (be_bytes n x) = x mod 256 ^ Z.of_nat n.
Proof. unfold of_be_bytes, be_bytes. by rewrite reverse_involutive, of_le_bytes_le_bytes. Qed.

Lemma of_be_bytes_u32 x : is_u32 x → of_be_bytes (u32_be x) = x.
Proof. intros H. unfold u32_be. rewrite of_be_bytes_be_bytes. apply Z.mod_small. width. Qed.

Lemma of_be_bytes_u64 x : is_u64 x → of_be_bytes (u64_be x) = x.
Proof. intros H. unfold u64_be. rewrite of_be_bytes_be_bytes. apply Z.mod_small. width. Qed.

Lemma i64_of_le_wrap x : i64_of_le (i64_le x) = as_i64 x.
Proof.
  unfold i64_of_le, i64_le. rewrite of_le_bytes_le_bytes.
  change (256 ^ Z.of_nat 8) with (2 ^ 64). fold (as_u64 x). apply as_i64_as_u64.
Qed.

Lemma i64_of_le_i64_le x : is_i64 x → i64_of_le (i64_le x) = x.
Proof. intros H. by rewrite i64_of_le_wrap, as_i64_id. Qed.

Lemma length_u32_be x : length (u32_be x) = 4%nat.
Proof. apply length_be_bytes. Qed.
Lemma length_u64_be x : length (u64_be x) = 8%nat.
Proof. apply length_be_bytes. Qed.
Lemma length_i64_le x : length (i64_le x) = 8%nat.
Proof. apply length_le_bytes. Qed.

Create Rewrite HintDb byte_length.
#[global] Hint Rewrite length_u32_be length_u64_be length_i64_le @length_app : byte_length.

Lemma u32_be_inj x y : is_u32 x → is_u32 y → u32_be x = u32_be y → x = y.
Proof.
  intros Hx Hy E. apply (f_equal of_be_bytes) in E.
  by rewrite !of_be_bytes_u32 in E.
Qed.

Lemma u64_be_inj x y : is_u64 x → is_u64 y → u64_be x = u64_be y → x = y.
Proof.
  intros Hx Hy E. apply (f_equal of_be_bytes) in E.
  by rewrite !of_be_bytes_u64 in E.
Qed.

Lemma le_bytes_of_le_bytes l : Forall is_byte l → le_bytes (length l) (of_le_bytes l) = l.
Proof.
  induction 1 as [|b l Hb Hl IH]; simpl; [done|]. unfold is_byte in Hb.
  rewrite (Z.mul_comm 256), Z.mod_add, Z.mod_small by lia.
  rewrite Z.div_add, Z.div_small by lia. by rewrite Z.add_0_l, IH.
Qed.

Lemma be_bytes_of_be_bytes l : Forall is_byte l → be_bytes (length l) (of_be_bytes l) = l.
Proof.
  intros Hl. unfold be_bytes, of_be_bytes.
  rewrite <-(length_reverse l), le_bytes_of_le_bytes, reverse_involutive; [done|].
  by apply Forall_reverse.
Qed.

Lemma of_be_bytes_range l n :
  Forall is_byte l → length l = n → 0 ≤ of_be_bytes l < 256 ^ Z.of_nat n.
Proof.
  intros Hl <-. assert (of_be_bytes l = of_be_bytes l mod 256 ^ Z.of_nat (length l)) as ->.
  { by rewrite <-of_be_bytes_be_bytes, be_bytes_of_be_bytes. }
  apply Z.mod_pos_bound. lia.
Qed.

(** ** The order of byte slices

    [Ord for [u8]]: lexicographic, a proper prefix being smaller. *)

Fixpoint bytes_cmp (a b : bytes) : comparison :=
  match a, b with
  | [], [] => Eq
  | [], _ :: _ => Lt
  | _ :: _, [] => Gt
  | x :: a, y :: b => match x ?= y with Eq => bytes_cmp a b | c => c end
  end.

Definition bytes_ltb (a b : bytes) : bool := match bytes_cmp a b with Lt => true | _ => false end.
Definition bytes_leb (a b : bytes) : bool := match bytes_cmp a b with Gt => false | _ => true end.
Definition bytes_lt (a b : bytes) : Prop := bytes_cmp a b = Lt.
Definition bytes_le (a b : bytes) : Prop := bytes_cmp a b ≠ Gt.

#[global] Instance bytes_lt_dec a b : Decision (bytes_lt a b).
Proof. unfold bytes_lt. solve_decision. Defined.
#[global] Instance bytes_le_dec a b : Decision (bytes_le a b).
Proof. unfold bytes_le. solve_decision. Defined.

Lemma bytes_cmp_refl a : bytes_cmp a a = Eq.
Proof. induction a as [|x a IH]; simpl; [done|]. by rewrite Z.compare_refl. Qed.

Lemma bytes_cmp_eq a b : bytes_cmp a b = Eq ↔ a = b.
Proof.
  split; [|intros ->; apply bytes_cmp_refl].
  revert b. induction a as [|x a IH]; intros [|y b]; simpl; try done.
  destruct (Z.compare_spec x y); intros ?; try done. subst. f_equal. by apply IH.
Qed.

Lemma bytes_cmp_antisym a b : bytes_cmp b a = CompOpp (bytes_cmp a b).
Proof.
  revert b. induction a as [|x a IH]; intros [|y b]; simpl; try done.
  rewrite (Z.compare_antisym x y). destruct (x ?= y); simpl; auto.
Qed.

Lemma bytes_lt_trans a b c : bytes_lt a b → bytes_lt b c → bytes_lt a c.
Proof.
  unfold bytes_lt. revert b c. induction a as [|x a IH]; intros [|y b] [|z c]; simpl; try done.
  destruct (x ?= y) eqn:E1, (y ?= z) eqn:E2; try done; intros H1 H2;
    rewrite ?Z.compare_eq_iff, ?Z.compare_lt_iff in *; subst.
  - rewrite Z.compare_refl. eauto.
  - apply Z.compare_lt_iff in E2 as ->. done.
  - apply Z.compare_lt_iff in E1 as ->. done.
  - assert ((x ?= z) = Lt) as ->; [apply Z.compare_lt_iff; lia|done].
Qed.

Lemma bytes_le_lteq a b : bytes_le a b ↔ bytes_lt a b ∨ a = b.
Proof.
  unfold bytes_le, bytes_lt. rewrite <-bytes_cmp_eq. destruct (bytes_cmp a b); intuition congruence.
Qed.

Lemma bytes_lt_irrefl a : ¬ bytes_lt a a.
Proof. unfold bytes_lt. by rewrite bytes_cmp_refl. Qed.

Lemma bytes_lt_le a b : bytes_lt a b → bytes_le a b.
Proof. rewrite bytes_le_lteq. auto. Qed.

Lemma bytes_not_lt a b : ¬ bytes_lt a b ↔ bytes_le b a.
Proof.
  unfold bytes_le, bytes_lt. rewrite (bytes_cmp_antisym a b).
  destruct (bytes_cmp a b); simpl; naive_solver.
Qed.

Lemma bytes_le_lt_trans a b c : bytes_le a b → bytes_lt b c → bytes_lt a c.
Proof. rewrite bytes_le_lteq. intros [?| ->]; eauto using bytes_lt_trans. Qed.

Lemma bytes_lt_le_trans a b c : bytes_lt a b → bytes_le b c → bytes_lt a c.
Proof. rewrite bytes_le_lteq. intros ? [?| ->]; eauto using bytes_lt_trans. Qed.

#[global] Instance bytes_le_refl : Reflexive bytes_le.
Proof. intros a. apply bytes_le_lteq. auto. Qed.
#[global] Instance bytes_le_trans : Transitive bytes_le.
Proof.
  intros a b c. rewrite !bytes_le_lteq. intros [?| ->] [?| ->]; eauto using bytes_lt_trans.
Qed.
#[global] Instance bytes_le_antisym : AntiSymm (=) bytes_le.
Proof.
  intros a b. rewrite !bytes_le_lteq. intros [H1| ->] [H2|H2]; try done.
  exfalso. eapply bytes_lt_irrefl. eauto using bytes_lt_trans.
Qed.
#[global] Instance bytes_le_total : Total bytes_le.
Proof.
  intros a b. unfold bytes_le. rewrite (bytes_cmp_antisym a b).
  destruct (bytes_cmp a b); simpl; naive_solver.
Qed.

Lemma bytes_ltb_spec a b : bytes_ltb a b = true ↔ bytes_lt a b.
Proof. unfold bytes_ltb, bytes_lt. destruct (bytes_cmp a b); naive_solver. Qed.
Lemma bytes_leb_spec a b : bytes_leb a b = true ↔ bytes_le a b.
Proof. unfold bytes_leb, bytes_le. destruct (bytes_cmp a b); naive_solver. Qed.

(** A common prefix does not matter. *)
Lemma bytes_cmp_app p a b : bytes_cmp (p ++ a) (p ++ b) = bytes_cmp a b.
Proof. induction p as [|x p IH]; simpl; [done|]. by rewrite Z.compare_refl. Qed.

(** The first difference decides when the heads have the same length. *)
Lemma bytes_cmp_app_length a1 a2 b1 b2 :
  length a1 = length a2 →
  bytes_cmp (a1 ++ b1) (a2 ++ b2) =
    match bytes_cmp a1 a2 with Eq => bytes_cmp b1 b2 | c => c end.
Proof.
  revert a2. induction a1 as [|x a1 IH]; intros [|y a2]; simpl; intros [=]; [done|].
  destruct (x ?= y); auto.
Qed.

Lemma prefix_bytes_le p k : p `prefix_of` k → bytes_le p k.
Proof.
  intros [l ->]. unfold bytes_le. rewrite <-(app_nil_r p) at 1.
  rewrite bytes_cmp_app. by destruct l.
Qed.

(** The keys with a given prefix form an interval of the order: this is what
    lets a scan stop at the first key outside it. *)
Lemma prefix_convex p a b c :
  p `prefix_of` a → p `prefix_of` c → bytes_le a b → bytes_le b c → p `prefix_of` b.
Proof.
  revert a b c. induction p as [|x p IH]; intros a b c; [intros; apply prefix_nil|].
  intros [a' ->] [c' ->]. destruct b as [|y b]; unfold bytes_le; simpl; [naive_solver|].
  rewrite (Z.compare_antisym x y). destruct (x ?= y) eqn:E; simpl; try naive_solver.
  apply Z.compare_eq_iff in E as ->. intros H1 H2. apply prefix_cons.
  eapply (IH (p ++ a') b (p ++ c')); eauto using prefix_app_r.
Qed.

(** The big-endian encoding is monotone: the byte order of encoded integers
    is their numeric order. *)
Lemma be_bytes_S n x :
  be_bytes (S n) x = (x / 256 ^ Z.of_nat n) mod 256 :: be_bytes n x.
Proof.
  unfold be_bytes. assert (∀ n x, le_bytes (S n) x =
    le_bytes n x ++ [(x / 256 ^ Z.of_nat n) mod 256]) as ->.
  { clear. intros n. induction n as [|n IH]; intros x.
    { simpl. change (256 ^ Z.of_nat 0) with 1. by rewrite Z.div_1_r. }
    change (le_bytes (S (S n)) x) with (x mod 256 :: le_bytes (S n) (x / 256)).
    rewrite IH. simpl. rewrite Z.div_div by lia.
    by rewrite <-Z.pow_succ_r, <-Nat2Z.inj_succ by lia. }
  by rewrite reverse_snoc.
Qed.

Lemma be_bytes_mod n x : be_bytes n x = be_bytes n (x mod 256 ^ Z.of_nat n).
Proof.
  pose proof (be_bytes_of_be_bytes (be_bytes n x) (be_bytes_is_byte n x)) as E.
  by rewrite length_be_bytes, of_be_bytes_be_bytes in E.
Qed.

Lemma be_bytes_cmp n x y :
  0 ≤ x < 256 ^ Z.of_nat n → 0 ≤ y < 256 ^ Z.of_nat n →
  bytes_cmp (be_bytes n x) (be_bytes n y) = (x ?= y).
Proof.
  revert x y. induction n as [|n IH]; intros x y.
  { change (256 ^ Z.of_nat 0) with 1. intros. replace x with y by lia. by rewrite Z.compare_refl. }
  rewrite Nat2Z.inj_succ, Z.pow_succ_r by lia. intros Hx Hy.
  rewrite !be_bytes_S. set (q := 256 ^ Z.of_nat n) in *.
  assert (0 < q) by (subst q; lia).
  rewrite (be_bytes_mod n x), (be_bytes_mod n y). fold q. cbn [bytes_cmp].
  rewrite (Z.mod_small (x / q)), (Z.mod_small (y / q));
    [|split; [apply Z.div_pos|apply Z.div_lt_upper_bound]; lia..].
  pose proof (Z.div_mod x q ltac:(lia)). pose proof (Z.div_mod y q ltac:(lia)).
  pose proof (Z.mod_pos_bound x q ltac:(lia)). pose proof (Z.mod_pos_bound y q ltac:(lia)).
  rewrite IH by lia.
  destruct (Z.compare_spec (x / q) (y / q)) as [E|E|E].
  - rewrite E in *. destruct (Z.compare_spec (x mod q) (y mod q)), (Z.compare_spec x y); lia || done.
  - symmetry. apply Z.compare_lt_iff. nia.
  - symmetry. apply Z.compare_gt_iff. nia.
Qed.

Lemma u64_be_cmp x y : is_u64 x → is_u64 y → bytes_cmp (u64_be x) (u64_be y) = (x ?= y).
Proof. intros. apply be_bytes_cmp; width. Qed.
Lemma u32_be_cmp x y : is_u32 x → is_u32 y → bytes_cmp (u32_be x) (u32_be y) = (x ?= y).
Proof. intros. apply be_bytes_cmp; width. Qed.

(** The encodings only unfold under [vm_compute]; proofs go through the lemmas. *)
#[global] Opaque u32_be u64_be i64_le.

(** [slice::starts_with]. *)
Definition starts_with (k p : bytes) : bool := bool_decide (p `prefix_of` k).
Lemma starts_with_self p s : starts_with (p ++ s) p = true.
Proof. apply bool_decide_eq_true. by exists s. Qed.

(** ** Literals and ASCII *)

Definition byte_of_ascii (a : Ascii.ascii) : Z := Z.of_N (Ascii.N_of_ascii a).

(** [b"..."]. *)
Definition bs (s : string) : bytes := byte_of_ascii <$> String.list_ascii_of_string s.

Definition CR : Z := 13.
Definition LF : Z := 10.
Definition CRLF : bytes := [CR; LF].

(** [b"...\r\n"]. *)
Definition line (s : string) : bytes := bs s ++ CRLF.

Definition is_ascii_upper (b : Z) : bool := (65 <=? b) && (b <=? 90).
Definition is_ascii_lower (b : Z) : bool := (97 <=? b) && (b <=? 122).

(** [u8::to_ascii_lowercase], [u8::to_ascii_uppercase] and the slice versions. *)
Definition to_lower (b : Z) : Z := if is_ascii_upper b then b + 32 else b.
Definition to_upper (b : Z) : Z := if is_ascii_lower b then b - 32 else b.
Definition to_ascii_lowercase (s : bytes) : bytes := to_lower <$> s.
Definition to_ascii_uppercase (s : bytes) : bytes := to_upper <$> s.

(** [eq_ignore_ascii_case]. *)
Definition eq_ignore_ascii_case (a b : bytes) : bool :=
  bool_decide (to_ascii_lowercase a = to_ascii_lowercase b).

(** [str::rsplit_once(c)]: split at the last occurrence. *)
Fixpoint rsplit_once (c : Z) (s : bytes) : option (bytes * bytes) :=
  match s with
  | [] => None
  | b :: s =>
      match rsplit_once c s with
      | Some (l, r) => Some (b :: l, r)
      | None => if b =? c then Some ([], s) else None
      end
  end.
