(* ===== verification/Key.v ===== *)
(** * Store keys (crates/store/src/key.rs)

    The typed key of every record: a subspace byte, the account, a collection
    byte, the document and a free suffix.  [encode] is what the store sorts
    on, so its injectivity, its order and which keys a [KeyPrefix] selects are
    what the components above rely on. *)

From S2P Require Import Prelude Bytes.
From stdpp Require Import base gmap list strings.
From Stdlib Require Import ZArith Lia.

Open Scope Z_scope.

(** ** Subspaces and collections *)

Inductive Subspace : Type :=
  | Property | Index | ChangeLog | BlobRef | Queue | Registry | Counter.

#[global] Instance Subspace_eq_dec : EqDecision Subspace.
Proof. solve_decision. Defined.

(** [Subspace::as_byte]: the discriminants [b'p'], [b'i'], ... *)
Definition subspace_as_byte (s : Subspace) : Z :=
  match s with
  | Property => 112 | Index => 105 | ChangeLog => 99 | BlobRef => 98
  | Queue => 113 | Registry => 114 | Counter => 110
  end.

(** [Subspace::from_byte]. *)
Definition subspace_from_byte (b : Z) : option Subspace :=
  match b with
  | 112 => Some Property | 105 => Some Index | 99 => Some ChangeLog | 98 => Some BlobRef
  | 113 => Some Queue | 114 => Some Registry | 110 => Some Counter
  | _ => None
  end.

Inductive Collection : Type :=
  | Mailbox | Email | Thread | Identity | EmailSubmission | SieveScript
  | EmailVanished | PushSubscription | Calendar | CalendarEvent | AddressBook
  | ContactCard.

#[global] Instance Collection_eq_dec : EqDecision Collection.
Proof. solve_decision. Defined.

(** [Collection::as_byte]. *)
Definition collection_as_byte (c : Collection) : Z :=
  match c with
  | Mailbox => 0 | Email => 1 | Thread => 2 | Identity => 3 | EmailSubmission => 4
  | SieveScript => 5 | EmailVanished => 6 | PushSubscription => 7 | Calendar => 8
  | CalendarEvent => 9 | AddressBook => 10 | ContactCard => 11
  end.

(** [Collection::from_byte]. *)
Definition collection_from_byte (b : Z) : option Collection :=
  match b with
  | 0 => Some Mailbox | 1 => Some Email | 2 => Some Thread | 3 => Some Identity
  | 4 => Some EmailSubmission | 5 => Some SieveScript | 6 => Some EmailVanished
  | 7 => Some PushSubscription | 8 => Some Calendar | 9 => Some CalendarEvent
  | 10 => Some AddressBook | 11 => Some ContactCard
  | _ => None
  end.

Lemma subspace_from_as_byte s : subspace_from_byte (subspace_as_byte s) = Some s.
Proof. by destruct s. Qed.

Lemma collection_from_as_byte c : collection_from_byte (collection_as_byte c) = Some c.
Proof. by destruct c. Qed.

#[global] Instance subspace_as_byte_inj : Inj (=) (=) subspace_as_byte.
Proof.
  intros s t E. apply (f_equal subspace_from_byte) in E.
  rewrite !subspace_from_as_byte in E. congruence.
Qed.

#[global] Instance collection_as_byte_inj : Inj (=) (=) collection_as_byte.
Proof.
  intros s t E. apply (f_equal collection_from_byte) in E.
  rewrite !collection_from_as_byte in E. congruence.
Qed.

(** ** Keys *)

Record Key : Type := mkKey {
  key_subspace : Subspace;
  key_account_id : Z;
  key_collection : Collection;
  key_document_id : Z;
  key_suffix : bytes;
}.

(** [Key::new]. *)
Definition key_new (s : Subspace) (account_id : Z) (c : Collection) (document_id : Z) : Key :=
  mkKey s account_id c document_id [].

(** [Key::with_suffix]. *)
Definition with_suffix (k : Key) (suffix : bytes) : Key :=
  mkKey (key_subspace k) (key_account_id k) (key_collection k) (key_document_id k) suffix.

(** [Key::encode]. *)
Definition key_encode (k : Key) : bytes :=
  [subspace_as_byte (key_subspace k)] ++ u32_be (key_account_id k)
    ++ [collection_as_byte (key_collection k)] ++ u32_be (key_document_id k)
    ++ key_suffix k.

(** The invariant the field types give: both ids are [u32]. *)
Definition key_wf (k : Key) : Prop := is_u32 (key_account_id k) ∧ is_u32 (key_document_id k).

(** ** Key prefixes *)

Record KeyPrefix : Type := mkPrefix {
  prefix_subspace : Subspace;
  prefix_account_id : option Z;
  prefix_collection : option Collection;
}.

(** [KeyPrefix::subspace], [KeyPrefix::account], [KeyPrefix::collection]. *)
Definition kp_subspace (s : Subspace) : KeyPrefix := mkPrefix s None None.
Definition kp_account (s : Subspace) (a : Z) : KeyPrefix := mkPrefix s (Some a) None.
Definition kp_collection (s : Subspace) (a : Z) (c : Collection) : KeyPrefix :=
  mkPrefix s (Some a) (Some c).

(** [KeyPrefix::encode]: the collection only counts under an account. *)
Definition prefix_encode (p : KeyPrefix) : bytes :=
  [subspace_as_byte (prefix_subspace p)] ++
    match prefix_account_id p with
    | Some account_id =>
        u32_be account_id ++
          match prefix_collection p with
          | Some c => [collection_as_byte c]
          | None => []
          end
    | None => []
    end.

(** What a prefix is meant to select. *)
Definition prefix_selects (p : KeyPrefix) (k : Key) : Prop :=
  prefix_subspace p = key_subspace k ∧
  match prefix_account_id p with
  | Some a =>
      a = key_account_id k ∧
      match prefix_collection p with
      | Some c => c = key_collection k
      | None => True
      end
  | None => True
  end.

Definition prefix_wf (p : KeyPrefix) : Prop :=
  match prefix_account_id p with Some a => is_u32 a | None => True end.

(** ** Lemmas *)

(** Two encoded keys compare field by field. *)
Lemma key_encode_split k1 k2 :
  key_encode k1 = key_encode k2 →
  subspace_as_byte (key_subspace k1) = subspace_as_byte (key_subspace k2) ∧
  u32_be (key_account_id k1) = u32_be (key_account_id k2) ∧
  collection_as_byte (key_collection k1) = collection_as_byte (key_collection k2) ∧
  u32_be (key_document_id k1) = u32_be (key_document_id k2) ∧
  key_suffix k1 = key_suffix k2.
Proof.
  unfold key_encode. intros E.
  repeat match type of E with
  | _ ++ _ = _ ++ _ => let H := fresh "H" in
      apply app_inj_1 in E as [H E]; [|by rewrite ?length_u32_be]
  end.
  repeat split; congruence.
Qed.

Lemma key_encode_injective k1 k2 :
  key_wf k1 → key_wf k2 → key_encode k1 = key_encode k2 → k1 = k2.
Proof.
  intros [Ha1 Hd1] [Ha2 Hd2] (Es & Ea & Ec & Ed & Ex)%key_encode_split.
  apply (inj subspace_as_byte) in Es. apply (inj collection_as_byte) in Ec.
  apply u32_be_inj in Ea; [|done..]. apply u32_be_inj in Ed; [|done..].
  destruct k1, k2; simpl in *; congruence.
Qed.

Lemma prefix_cons_iff (x y : Z) (l1 l2 : bytes) :
  x :: l1 `prefix_of` y :: l2 ↔ x = y ∧ l1 `prefix_of` l2.
Proof.
  split.
  - intros H. split; [by eapply prefix_cons_inv_1|by eapply prefix_cons_inv_2].
  - intros [-> H]. by apply prefix_cons.
Qed.

Lemma prefix_app_same_length (a b l1 l2 : bytes) :
  length a = length b → a ++ l1 `prefix_of` b ++ l2 ↔ a = b ∧ l1 `prefix_of` l2.
Proof.
  intros HL. split.
  - intros [l E]. rewrite <-app_assoc in E.
    apply app_inj_1 in E as [-> ->]; [|done]. split; [done|]. by exists l.
  - intros [-> H]. by apply prefix_app.
Qed.

Lemma prefix_encode_selects p k :
  prefix_wf p → key_wf k →
  prefix_encode p `prefix_of` key_encode k ↔ prefix_selects p k.
Proof.
  intros Hp [Ha _]. unfold prefix_encode, prefix_selects, key_encode, prefix_wf in *.
  destruct p as [s [a|] c], k as [s' a' c' d x]; simpl in *; rewrite prefix_cons_iff.
  2: { split; [intros [E _]; by apply (inj subspace_as_byte) in E|].
       intros [-> _]. split; [done|apply prefix_nil]. }
  rewrite prefix_app_same_length by (by rewrite !length_u32_be).
  rewrite (inj_iff subspace_as_byte).
  assert (u32_be a = u32_be a' ↔ a = a') as ->.
  { split; [by apply u32_be_inj|by intros ->]. }
  destruct c as [c|]; [rewrite prefix_cons_iff, (inj_iff collection_as_byte)|];
    intuition auto using prefix_nil.
Qed.

(** The byte order of encoded keys is the order of the tuples. *)
Definition then_cmp (c d : comparison) : comparison := match c with Eq => d | c => c end.

Definition key_cmp (k1 k2 : Key) : comparison :=
  then_cmp (subspace_as_byte (key_subspace k1) ?= subspace_as_byte (key_subspace k2))
  (then_cmp (key_account_id k1 ?= key_account_id k2)
  (then_cmp (collection_as_byte (key_collection k1) ?= collection_as_byte (key_collection k2))
  (then_cmp (key_document_id k1 ?= key_document_id k2)
    (bytes_cmp (key_suffix k1) (key_suffix k2))))).

Lemma key_encode_cmp k1 k2 :
  key_wf k1 → key_wf k2 → bytes_cmp (key_encode k1) (key_encode k2) = key_cmp k1 k2.
Proof.
  intros [Ha1 Hd1] [Ha2 Hd2]. unfold key_encode, key_cmp. simpl.
  rewrite bytes_cmp_app_length by (by rewrite !length_u32_be).
  rewrite u32_be_cmp by done. simpl.
  rewrite bytes_cmp_app_length by (by rewrite !length_u32_be).
  rewrite u32_be_cmp by done. unfold then_cmp. repeat case_match; congruence.
Qed.

(** Every encoded key names a known subspace in its first byte. *)
Definition subspace_of (key : bytes) : option Subspace :=
  match key with [] => None | b :: _ => subspace_from_byte b end.

Lemma subspace_of_key_encode k : subspace_of (key_encode k) = Some (key_subspace k).
Proof. unfold subspace_of, key_encode. simpl. apply subspace_from_as_byte. Qed.

Lemma subspace_of_prefix_encode p : subspace_of (prefix_encode p) = Some (prefix_subspace p).
Proof. unfold subspace_of, prefix_encode. simpl. apply subspace_from_as_byte. Qed.

Lemma length_key_encode k : length (key_encode k) = (10 + length (key_suffix k))%nat.
Proof. unfold key_encode. simpl. rewrite !length_app, !length_u32_be. simpl. rewrite length_app, length_u32_be. lia. Qed.

Create HintDb keys discriminated.
#[global] Hint Resolve subspace_of_key_encode subspace_of_prefix_encode : keys.

(** ** Properties *)

(** Encoding a key loses nothing: two well-formed keys (both ids are
    [u32]) with the same encoding are the same key, so records of different
    subspaces, accounts, collections, documents or suffixes never share a
    store entry. *)
Theorem key_encode_unambiguous k1 k2 :
  key_wf k1 → key_wf k2 → key_encode k1 = key_encode k2 → k1 = k2.
Proof. apply key_encode_injective. Qed.

Theorem key_encode_unambiguous_witness :
  ∃ k1 k2, key_wf k1 ∧ key_wf k2 ∧ key_encode k1 = key_encode k2 ∧ k1 = k2.
Proof.
  exists (key_new Property 1 Email 2), (with_suffix (key_new Property 1 Email 2) []).
  assert (key_wf (key_new Property 1 Email 2)) as H by (split; width).
  assert (key_wf (with_suffix (key_new Property 1 Email 2) [])) as H' by (split; width).
  split; [exact H|]. split; [exact H'|]. split; [vm_compute; reflexivity|].
  apply key_encode_unambiguous; [exact H|exact H'|vm_compute; reflexivity].
Defined.

(** Isolation of prefix scans: the encoding of a [KeyPrefix] is a byte
    prefix of the encoding of a key exactly when the key lies in the subspace,
    the account and the collection the prefix names.  A scan of one account
    can therefore not meet a record of another. *)
Theorem key_prefix_isolation p k :
  prefix_wf p → key_wf k →
  starts_with (key_encode k) (prefix_encode p) = true ↔ prefix_selects p k.
Proof. intros. unfold starts_with. rewrite bool_decide_eq_true. by apply prefix_encode_selects. Qed.

Theorem key_prefix_isolation_witness :
  let p := kp_collection Property 7 Email in
  let k := with_suffix (key_new Property 7 Email 3) (bs "m") in
  prefix_wf p ∧ key_wf k ∧ (starts_with (key_encode k) (prefix_encode p) = true ↔ prefix_selects p k).
Proof.
  intros p k. assert (prefix_wf p) as Hp by (unfold p, prefix_wf; width).
  assert (key_wf k) as Hk by (split; unfold k; width).
  split; [exact Hp|]. split; [exact Hk|]. apply key_prefix_isolation; assumption.
Defined.

(** The store visits keys in the order of the tuple (subspace byte,
    account, collection byte, document, suffix): the big-endian encoding makes
    the byte order agree with it on every field. *)
Theorem key_encode_order k1 k2 :
  key_wf k1 → key_wf k2 →
  bytes_cmp (key_encode k1) (key_encode k2) = key_cmp k1 k2.
Proof. apply key_encode_cmp. Qed.

Theorem key_encode_order_witness :
  let k1 := key_new Queue 0 EmailSubmission 255 in
  let k2 := key_new Queue 0 EmailSubmission 256 in
  key_wf k1 ∧ key_wf k2 ∧ bytes_cmp (key_encode k1) (key_encode k2) = key_cmp k1 k2 ∧
  key_cmp k1 k2 = Lt.
Proof.
  intros k1 k2. assert (key_wf k1) as H1 by (split; unfold k1; width).
  assert (key_wf k2) as H2 by (split; unfold k2; width).
  split; [exact H1|]. split; [exact H2|]. split; [|vm_compute; reflexivity].
  apply key_encode_order; assumption.
Defined.
