(* ===== verification/Ids.v ===== *)
(** * Identifier allocation (crates/core/src/id.rs)

    [IdGenerator] hands out 64-bit ids (milliseconds, node, sequence) from one
    atomic word shared by all threads; [DocumentIdAllocator] hands out 32-bit
    document ids.  The compare-and-swap loop is modelled as a step relation
    over the shared word and one register per thread, so that the uniqueness
    of ids is a theorem about every interleaving. *)

From S2P Require Import Prelude Bytes.
From stdpp Require Import base gmap list sorting relations.
From Stdlib Require Import ZArith Lia.

Open Scope Z_scope.

Definition SEQUENCE_BITS : Z := 12.
Definition NODE_BITS : Z := 10.
Definition SEQUENCE_MASK : Z := Z.shiftl 1 SEQUENCE_BITS - 1.
Definition NODE_MASK : Z := Z.shiftl 1 NODE_BITS - 1.
Definition TIMESTAMP_SHIFT : Z := SEQUENCE_BITS + NODE_BITS.
Definition EPOCH_SECONDS : Z := 1704067200.

(** [IdGenerator::new]: the node keeps its low ten bits. *)
Definition new_node (node : Z) : Z := Z.land node NODE_MASK.

(** The body of the loop of [generate]: from the word read and the clock, the
    millisecond and sequence to claim next. *)
Definition next_slot (now_ms previous : Z) : Z * Z :=
  let previous_ms := Z.shiftr previous SEQUENCE_BITS in
  let previous_seq := Z.land previous SEQUENCE_MASK in
  if previous_ms <? now_ms then (now_ms, 0)
  else if previous_seq <? SEQUENCE_MASK then (previous_ms, previous_seq + 1)
  else (previous_ms + 1, 0).

(** The word to swap in: [(next_ms << SEQUENCE_BITS) | next_seq], a [u64]. *)
Definition candidate (now_ms previous : Z) : Z :=
  let '(next_ms, next_seq) := next_slot now_ms previous in
  Z.lor (as_u64 (Z.shiftl next_ms SEQUENCE_BITS)) next_seq.

(** The id returned on success. *)
Definition id_of_slot (node : Z) (slot : Z * Z) : Z :=
  let '(next_ms, next_seq) := slot in
  Z.lor (Z.lor (as_u64 (Z.shiftl next_ms TIMESTAMP_SHIFT)) (Z.shiftl node SEQUENCE_BITS)) next_seq.

(** One call of [generate] run alone: load, claim, return the id and the word. *)
Definition generate (node now_ms last : Z) : Z * Z :=
  (id_of_slot node (next_slot now_ms last), candidate now_ms last).

(** [IdGenerator::timestamp_of]. *)
Definition timestamp_of (id : Z) : Z := Z.shiftr id TIMESTAMP_SHIFT / 1000 + EPOCH_SECONDS.

(** ** Threads *)

(** The shared word, the register [previous] (with the clock reading) of each
    thread inside [generate], and the ids handed out so far. *)
Record gen_state : Type := mkGen {
  gen_last : Z;
  gen_threads : gmap nat (Z * Z);
  gen_log : list Z;
}.

(** Clock readings considered: milliseconds since the 2024 epoch that fit in 41
    bits (until the year 2093), half of what the id layout can hold. *)
Definition CLOCK_LIMIT : Z := 2 ^ 41.

Definition gen_init : gen_state := mkGen 0 ∅ [].

Inductive gen_step (node : Z) : gen_state → gen_state → Prop :=
  (** a thread reads the clock and loads [last] *)
  | gen_load tid now_ms last ths log :
      0 ≤ now_ms < CLOCK_LIMIT → ths !! tid = None →
      gen_step node (mkGen last ths log) (mkGen last (<[tid := (now_ms, last)]> ths) log)
  (** [compare_exchange_weak] succeeds: the word is still the one read *)
  | gen_cas_ok tid now_ms last ths log :
      ths !! tid = Some (now_ms, last) →
      gen_step node (mkGen last ths log)
        (mkGen (candidate now_ms last) (delete tid ths)
               (log ++ [id_of_slot node (next_slot now_ms last)]))
  (** it fails, spuriously or not, and the thread retries with what it observed *)
  | gen_cas_fail tid now_ms previous last ths log :
      ths !! tid = Some (now_ms, previous) →
      gen_step node (mkGen last ths log) (mkGen last (<[tid := (now_ms, last)]> ths) log).

(** ** [DocumentIdAllocator] *)

(** [from_highest]: resume above the highest id in use. *)
Definition from_highest (highest : option Z) : Z :=
  match highest with Some id => saturating_add_u32 id 1 | None => 0 end.

(** [next]: [None] once [u32::MAX] is reached, which is never handed out. *)
Definition doc_next (current : Z) : option Z * Z :=
  if current =? U32_MAX then (None, current) else (Some current, current + 1).

(** [n] calls of [next] in a row. *)
Fixpoint doc_take (n : nat) (current : Z) : list Z * Z :=
  match n with
  | O => ([], current)
  | S n =>
      match doc_next current with
      | (Some id, current') => let '(ids, last) := doc_take n current' in (id :: ids, last)
      | (None, current') => ([], current')
      end
  end.

(** The store keys of an account use [account.id as u32]. *)
Definition store_account_id (account_id : Z) : Z := as_u32 account_id.

(** ** Lemmas: the packed words as numbers *)

Lemma lor_shiftl_add a b n : 0 ≤ n → 0 ≤ b < 2 ^ n → Z.lor (Z.shiftl a n) b = a * 2 ^ n + b.
Proof.
  intros Hn Hb. assert (Z.land (Z.shiftl a n) b = 0) as E.
  { destruct (Z.eq_dec b 0) as [->|]; [apply Z.land_0_r|].
    apply Z.bits_inj'. intros i Hi. rewrite Z.land_spec, Z.bits_0.
    destruct (Z.lt_ge_cases i n).
    - by rewrite Z.shiftl_spec_low.
    - rewrite (Z.bits_above_log2 b i), andb_false_r; [done|apply Hb|].
      apply Z.log2_lt_pow2; [lia|].
      eapply Z.lt_le_trans; [apply Hb|]. apply Z.pow_le_mono_r; lia. }
  rewrite <-Z.lxor_lor, <-Z.add_nocarry_lxor by done. by rewrite Z.shiftl_mul_pow2.
Qed.

Lemma next_slot_arith now last :
  0 ≤ last →
  next_slot now last =
    if last / 4096 <? now then (now, 0)
    else if last mod 4096 <? 4095 then (last / 4096, last mod 4096 + 1)
    else (last / 4096 + 1, 0).
Proof.
  intros. unfold next_slot, SEQUENCE_MASK, SEQUENCE_BITS.
  rewrite Z.shiftr_div_pow2 by lia. change (Z.shiftl 1 12 - 1) with (Z.ones 12).
  rewrite Z.land_ones by lia. done.
Qed.

(** The slot claimed lies strictly after the previous one, and its parts are
    in range. *)
Lemma next_slot_after now last :
  0 ≤ now → 0 ≤ last →
  ∃ ms seq, next_slot now last = (ms, seq) ∧ 0 ≤ ms ∧ 0 ≤ seq < 4096 ∧
            last < ms * 4096 + seq ≤ Z.max (now * 4096) (last + 1) ∧ now ≤ ms.
Proof.
  intros Hn Hl. rewrite next_slot_arith by done.
  pose proof (Z.div_mod last 4096 ltac:(lia)). pose proof (Z.mod_pos_bound last 4096 ltac:(lia)).
  repeat case_match; rewrite ?Z.ltb_lt, ?Z.ltb_ge in *; eexists _, _; split_and!; eauto; lia.
Qed.

Lemma candidate_slot now last ms seq :
  next_slot now last = (ms, seq) → 0 ≤ ms < 2 ^ 52 → 0 ≤ seq < 4096 →
  candidate now last = ms * 4096 + seq.
Proof.
  intros E Hms Hseq. unfold candidate. rewrite E. unfold as_u64, SEQUENCE_BITS.
  rewrite Z.mod_small; [apply lor_shiftl_add; lia|].
  rewrite Z.shiftl_mul_pow2 by lia. lia.
Qed.

Lemma id_of_slot_arith node ms seq :
  0 ≤ node < 1024 → 0 ≤ ms < 2 ^ 42 → 0 ≤ seq < 4096 →
  id_of_slot node (ms, seq) = ms * 2 ^ 22 + node * 4096 + seq.
Proof.
  intros Hn Hms Hseq. unfold id_of_slot, as_u64, TIMESTAMP_SHIFT, SEQUENCE_BITS, NODE_BITS.
  change (12 + 10) with 22. rewrite Z.mod_small by (rewrite Z.shiftl_mul_pow2; lia).
  rewrite <-Z.lor_assoc, (lor_shiftl_add node seq 12), lor_shiftl_add by lia. lia.
Qed.

Lemma new_node_range node : 0 ≤ new_node node < 1024.
Proof.
  unfold new_node, NODE_MASK, NODE_BITS. change (Z.shiftl 1 10 - 1) with (Z.ones 10).
  rewrite Z.land_ones by lia. apply Z.mod_pos_bound. lia.
Qed.

(** The id that a word stands for: every id in the log is at most this. *)
Definition id_of_word (node last : Z) : Z :=
  last / 4096 * 2 ^ 22 + node * 4096 + last mod 4096.

Lemma id_of_word_slot node ms seq :
  0 ≤ seq < 4096 → id_of_word node (ms * 4096 + seq) = ms * 2 ^ 22 + node * 4096 + seq.
Proof.
  intros. unfold id_of_word.
  rewrite Z.div_add_l, Z.div_small by lia.
  rewrite (Z.add_comm (ms * 4096)), Z.mod_add, Z.mod_small by lia. lia.
Qed.

Lemma id_of_word_mono node a b : 0 ≤ a < b → id_of_word node a < id_of_word node b.
Proof.
  intros. unfold id_of_word.
  pose proof (Z.div_mod a 4096 ltac:(lia)). pose proof (Z.mod_pos_bound a 4096 ltac:(lia)).
  pose proof (Z.div_mod b 4096 ltac:(lia)). pose proof (Z.mod_pos_bound b 4096 ltac:(lia)).
  nia.
Qed.

(** ** The invariant of the generator *)

Definition strictly_increasing : list Z → Prop := StronglySorted Z.lt.

Lemma strictly_increasing_snoc l x :
  strictly_increasing l → Forall (λ y, y < x) l → strictly_increasing (l ++ [x]).
Proof.
  induction 1 as [|y l Hl IH Hy]; simpl; intros Hx.
  { repeat constructor. }
  inversion Hx; subst. constructor; [by apply IH|]. apply Forall_app. by repeat constructor.
Qed.

Lemma strictly_increasing_NoDup l : strictly_increasing l → NoDup l.
Proof.
  induction 1 as [|y l Hl IH Hy]; constructor; [|done].
  rewrite Forall_forall in Hy. intros Hin%Hy. lia.
Qed.

Record gen_inv (node : Z) (st : gen_state) : Prop := {
  gi_last : 0 ≤ gen_last st ≤ CLOCK_LIMIT * 4096 + Z.of_nat (length (gen_log st));
  gi_threads : map_Forall (λ _ r, 0 ≤ r.1 < CLOCK_LIMIT) (gen_threads st);
  gi_log : strictly_increasing (gen_log st);
  gi_bound : Forall (λ id, id ≤ id_of_word node (gen_last st)) (gen_log st);
}.

Lemma gen_inv_init node : gen_inv node gen_init.
Proof. split; simpl; [unfold CLOCK_LIMIT; lia|apply map_Forall_empty|constructor|constructor]. Qed.

Lemma Forall_le_lt (l : list Z) (a b : Z) : Forall (λ x, x ≤ a) l → a < b → Forall (λ x, x < b) l.
Proof. intros H ?. eapply Forall_impl; [exact H|]. simpl. lia. Qed.

(** A step keeps the invariant while fewer than 2^53 ids have been handed out. *)
Lemma gen_step_inv node st st' :
  0 ≤ node < 1024 → gen_inv node st → gen_step node st st' →
  Z.of_nat (length (gen_log st')) < 2 ^ 53 → gen_inv node st'.
Proof.
  intros Hnode [Hlast Hths Hlog Hbound] Hstep Hmax. unfold CLOCK_LIMIT in *.
  destruct Hstep as [? ? ? ? ? H|tid now_ms last ths log H|? ? ? ? ? ? H]; simpl in *.
  - split; simpl; auto. apply map_Forall_insert_2; auto.
  - destruct (Hths tid _ H) as [Hn1 Hn2]. rewrite length_app in *. simpl in *.
    destruct (next_slot_after now_ms last) as (ms & seq & E & Hms & Hseq & Hlt & _); [lia..|].
    assert (candidate now_ms last = ms * 4096 + seq) as Ec.
    { apply candidate_slot; [done|lia|lia]. }
    assert (id_of_slot node (ms, seq) = id_of_word node (ms * 4096 + seq)) as Eid.
    { rewrite id_of_word_slot, id_of_slot_arith by lia. done. }
    assert (id_of_word node last < id_of_word node (ms * 4096 + seq)) as Hid.
    { apply id_of_word_mono. lia. }
    rewrite E, Ec, Eid. split; simpl.
    + rewrite length_app. simpl. unfold CLOCK_LIMIT. lia.
    + by apply map_Forall_delete.
    + apply strictly_increasing_snoc; [done|]. by eapply Forall_le_lt.
    + apply Forall_app. split; [|by repeat constructor].
      eapply Forall_impl; [by eapply Forall_le_lt|]. simpl. lia.
  - split; simpl; auto. apply map_Forall_insert_2; [|done]. by apply (Hths tid _ H).
Qed.

Lemma gen_step_log node st st' : gen_step node st st' → (length (gen_log st) ≤ length (gen_log st'))%nat.
Proof. destruct 1; simpl; rewrite ?length_app; lia. Qed.

Lemma gen_reach_inv node st :
  0 ≤ node < 1024 → rtc (gen_step node) gen_init st →
  Z.of_nat (length (gen_log st)) < 2 ^ 53 → gen_inv node st.
Proof.
  intros Hnode. revert st. refine (rtc_ind_r _ _ _ _); [intros _; apply gen_inv_init|].
  intros st st' _ Hstep IH Hmax. pose proof (gen_step_log _ _ _ Hstep).
  eapply gen_step_inv; [done|apply IH; lia|done|done].
Qed.

Lemma doc_take_seq n current ids last :
  0 ≤ current ≤ U32_MAX → doc_take n current = (ids, last) →
  ids = seqZ current (Z.of_nat (length ids)) ∧ last = current + Z.of_nat (length ids) ∧
  last ≤ U32_MAX ∧ (length ids < n → last = U32_MAX)%nat.
Proof.
  revert current ids last. induction n as [|n IH]; intros current ids last Hc; simpl.
  { intros [= <- <-]. simpl. rewrite seqZ_nil by lia. split_and!; lia || done. }
  unfold doc_next. destruct (Z.eqb_spec current U32_MAX) as [->|Hne]; simpl.
  { intros [= <- <-]. simpl. rewrite seqZ_nil by lia. split_and!; lia || done. }
  destruct (doc_take n (current + 1)) as [ids' last'] eqn:E. intros [= <- <-].
  apply IH in E as (E1 & E2 & E3 & E4); [|lia]. simpl length.
  split_and!; [|lia|lia|intros; apply E4; lia].
  rewrite seqZ_cons by lia. f_equal. rewrite E1 at 1. f_equal; lia.
Qed.

(** ** Properties *)

(** Ids are never handed out twice: in every interleaving of any number of
    threads calling [generate] on one generator, whatever the clock does
    (including going backwards) and whichever compare-and-swaps fail
    spuriously, the ids returned are strictly increasing in the order of the
    successful swaps, hence pairwise distinct. *)
Theorem generate_strictly_increasing node st :
  rtc (gen_step (new_node node)) gen_init st →
  Z.of_nat (length (gen_log st)) < 2 ^ 53 →
  strictly_increasing (gen_log st) ∧ NoDup (gen_log st).
Proof.
  intros Hr Hmax. destruct (gen_reach_inv _ _ (new_node_range node) Hr Hmax).
  eauto using strictly_increasing_NoDup.
Qed.

Theorem generate_strictly_increasing_witness :
  let st := mkGen 4097 ∅ [id_of_slot 3 (1, 0); id_of_slot 3 (1, 1)] in
  rtc (gen_step (new_node 3)) gen_init st ∧
  strictly_increasing (gen_log st) ∧ NoDup (gen_log st).
Proof.
  intros st. assert (rtc (gen_step (new_node 3)) gen_init st) as Hr.
  { (* two threads load, the first swaps, the second fails, retries and swaps *)
    eapply rtc_l; [apply (gen_load _ 0 1); [unfold CLOCK_LIMIT; lia|reflexivity]|].
    eapply rtc_l; [apply (gen_load _ 1 1); [unfold CLOCK_LIMIT; lia|reflexivity]|].
    eapply rtc_l; [apply (gen_cas_ok _ 0 1); reflexivity|].
    eapply rtc_l; [apply (gen_cas_fail _ 1 1 0); reflexivity|].
    eapply rtc_l; [apply (gen_cas_ok _ 1 1); reflexivity|].
    vm_compute. apply rtc_refl. }
  split; [exact Hr|]. apply (generate_strictly_increasing 3); [exact Hr|simpl; lia].
Defined.

(** Which accounts share a store account id.  The store keys of an
    account carry [account.id as u32], the low 32 bits of the generated id:
    two ids of one node agree there exactly when their sequence numbers are
    equal and their milliseconds agree modulo 1024.  Accounts created 1024
    milliseconds apart get distinct ids and the same store account id. *)
Theorem account_ids_collide node ms1 seq1 ms2 seq2 :
  0 ≤ ms1 < 2 ^ 42 → 0 ≤ ms2 < 2 ^ 42 → 0 ≤ seq1 < 4096 → 0 ≤ seq2 < 4096 →
  store_account_id (id_of_slot (new_node node) (ms1, seq1)) =
  store_account_id (id_of_slot (new_node node) (ms2, seq2)) ↔
  ms1 mod 1024 = ms2 mod 1024 ∧ seq1 = seq2.
Proof.
  intros. pose proof (new_node_range node). rewrite !id_of_slot_arith by lia.
  unfold store_account_id, as_u32.
  assert (∀ ms seq, 0 ≤ ms → 0 ≤ seq < 4096 →
    (ms * 2 ^ 22 + new_node node * 4096 + seq) mod 2 ^ 32 =
    ms mod 1024 * 2 ^ 22 + new_node node * 4096 + seq) as E.
  { intros ms seq ? ?. pose proof (Z.div_mod ms 1024 ltac:(lia)).
    pose proof (Z.mod_pos_bound ms 1024 ltac:(lia)).
    rewrite <-(Z.mod_unique_pos _ (2 ^ 32) (ms / 1024)
      (ms mod 1024 * 2 ^ 22 + new_node node * 4096 + seq)); lia. }
  rewrite !E by lia.
  pose proof (Z.mod_pos_bound ms1 1024 ltac:(lia)). pose proof (Z.mod_pos_bound ms2 1024 ltac:(lia)).
  split; [intros ?; lia|intros [-> ->]; done].
Qed.

Theorem account_ids_collide_witness :
  id_of_slot (new_node 0) (1000, 0) ≠ id_of_slot (new_node 0) (2024, 0) ∧
  (store_account_id (id_of_slot (new_node 0) (1000, 0)) =
   store_account_id (id_of_slot (new_node 0) (2024, 0)) ↔
   1000 mod 1024 = 2024 mod 1024 ∧ 0 = 0) ∧
  store_account_id (id_of_slot (new_node 0) (1000, 0)) =
  store_account_id (id_of_slot (new_node 0) (2024, 0)).
Proof.
  assert (store_account_id (id_of_slot (new_node 0) (1000, 0)) =
   store_account_id (id_of_slot (new_node 0) (2024, 0)) ↔
   1000 mod 1024 = 2024 mod 1024 ∧ 0 = 0) as H by (apply account_ids_collide; lia).
  split; [vm_compute; discriminate|]. split; [exact H|]. apply H. split; reflexivity.
Defined.

(** Document ids are consecutive and unique: a run of [n] calls of
    [DocumentIdAllocator::next] from [from_highest highest] returns the ids
    after [highest] in order without a gap, stops short of [n] only because
    the counter stands at [u32::MAX], and never hands out [u32::MAX]. *)
Theorem document_ids_consecutive highest n ids last :
  (∀ h, highest = Some h → is_u32 h) →
  doc_take n (from_highest highest) = (ids, last) →
  ids = seqZ (from_highest highest) (Z.of_nat (length ids)) ∧
  (length ids < n → last = U32_MAX)%nat ∧ U32_MAX ∉ ids.
Proof.
  intros Hh E. assert (0 ≤ from_highest highest ≤ U32_MAX).
  { destruct highest as [h|]; simpl; [pose proof (Hh h eq_refl)|];
      unfold saturating_add_u32, is_u32, U32_MAX in *; lia. }
  destruct (doc_take_seq _ _ _ _ H E) as (E1 & E2 & E3 & E4).
  split_and!; [done|done|]. rewrite E1. rewrite elem_of_seqZ. lia.
Qed.

Theorem document_ids_consecutive_witness :
  let h := Some (U32_MAX - 2) in
  (∀ x, h = Some x → is_u32 x) ∧ doc_take 3 (from_highest h) = ([U32_MAX - 1], U32_MAX) ∧
  [U32_MAX - 1] = seqZ (from_highest h) 1 ∧ (1 < 3 → U32_MAX = U32_MAX)%nat ∧
  U32_MAX ∉ [U32_MAX - 1].
Proof.
  intros h. assert (∀ x, h = Some x → is_u32 x) as Hh by (intros x [= <-]; vm_compute; split; discriminate || reflexivity).
  split; [exact Hh|]. split; [vm_compute; reflexivity|].
  apply (document_ids_consecutive h 3 [U32_MAX - 1] U32_MAX Hh). vm_compute; reflexivity.
Defined.
