(* ===== verification/Store.v ===== *)
(** * The store interface (crates/store/src/traits_store.rs, batch.rs)

    [Store] is the trait every component of the server keeps its records
    behind.  Its operations are the class [Store]; what the callers rely on is
    the class [StoreSpec], stated on the logical contents of the store: a
    finite map from keys to values.  The components are verified against
    [StoreSpec] alone; [Rocksdb] discharges it for the RocksDB backend and the
    instance at the end of this file for a map in memory. *)

From S2P Require Import Prelude Bytes Key.
From stdpp Require Import base gmap list strings sorting.
From Stdlib Require Import ZArith Lia.

Open Scope Z_scope.

(** ** Write operations *)

Inductive WriteOp : Type :=
  | WSet (key value : bytes)
  | WDelete (key : bytes)
  | WAdd (key : bytes) (by_ : Z).

(** [WriteOp::key]. *)
Definition op_key (op : WriteOp) : bytes :=
  match op with WSet key _ | WDelete key | WAdd key _ => key end.

Record ValueAssert : Type := mkAssert { assert_key : bytes; assert_expected : option bytes }.

Inductive Flow : Type := Continue | Stop.

(** [BatchBuilder]: an append-only list of operations. *)
Module BatchBuilder.
Definition t : Type := list WriteOp.
Definition new : t := [].
Definition push (b : t) (op : WriteOp) : t := b ++ [op].
Definition set (b : t) (key value : bytes) : t := push b (WSet key value).
Definition delete (b : t) (key : bytes) : t := push b (WDelete key).
Definition add (b : t) (key : bytes) (by_ : Z) : t := push b (WAdd key by_).
Definition extend (b : t) (ops : list WriteOp) : t := b ++ ops.
Definition build (b : t) : list WriteOp := b.
End BatchBuilder.

(** ** Logical contents *)

Abbreviation contents := (gmap bytes bytes).

(** A counter cell: absent is zero, otherwise eight little-endian bytes. *)
Definition counter_value (cell : option bytes) : option Z :=
  match cell with
  | None => Some 0
  | Some b => if (length b =? 8)%nat then Some (i64_of_le b) else None
  end.

(** The effect of one operation; [None] when an [Add] meets a cell that is not
    a counter. *)
Definition apply_op (m : contents) (op : WriteOp) : option contents :=
  match op with
  | WSet k v => Some (<[k := v]> m)
  | WDelete k => Some (base.delete k m)
  | WAdd k by_ =>
      c ← counter_value (m !! k);
      Some (<[k := i64_le (wrapping_add_i64 c by_)]> m)
  end.

Fixpoint apply_ops (m : contents) (ops : list WriteOp) : option contents :=
  match ops with
  | [] => Some m
  | op :: ops => m' ← apply_op m op; apply_ops m' ops
  end.

Definition assert_holds (m : contents) (a : ValueAssert) : bool :=
  bool_decide (m !! assert_key a = assert_expected a).

(** *** Rows in key order *)

Abbreviation row := (bytes * bytes)%type.

Definition row_le (a b : row) : Prop := bytes_le a.1 b.1.
Definition row_lt (a b : row) : Prop := bytes_lt a.1 b.1.

#[global] Instance row_le_dec a b : Decision (row_le a b).
Proof. unfold row_le. apply _. Defined.
#[global] Instance row_le_total : Total row_le.
Proof. intros a b. apply (total bytes_le). Qed.
#[global] Instance row_le_trans : Transitive row_le.
Proof. intros a b c. apply (transitivity (R:=bytes_le)). Qed.

(** The whole store, ordered by key. *)
Definition rows (m : contents) : list row := merge_sort row_le (map_to_list m).

(** The rows a scan of [prefix] from [start] visits. *)
Definition in_range (prefix start : bytes) (r : row) : Prop :=
  prefix `prefix_of` r.1 ∧ bytes_le start r.1.
#[global] Instance in_range_dec p s r : Decision (in_range p s r).
Proof. unfold in_range. apply _. Defined.

Definition rows_from (m : contents) (prefix start : bytes) : list row :=
  filter (in_range prefix start) (rows m).

(** Visit rows until one stops the scan or fails. *)
Fixpoint scan {A} (visit : A → bytes → bytes → result (A * Flow)) (rs : list row) (acc : A)
  : result A :=
  match rs with
  | [] => Ok acc
  | (k, v) :: rs =>
      match visit acc k v with
      | Ok (acc', Continue) => scan visit rs acc'
      | Ok (acc', Stop) => Ok acc'
      | Err e => Err e
      end
  end.

(** ** The trait *)

Class Store (S : Type) : Type := {
  st_get : bytes → S → result (option bytes);
  st_put : bytes → bytes → M S unit;
  st_delete : bytes → M S unit;
  st_iterate : ∀ A, KeyPrefix → (A → bytes → bytes → result (A * Flow)) → A → S → result A;
  st_iterate_from :
    ∀ A, KeyPrefix → bytes → (A → bytes → bytes → result (A * Flow)) → A → S → result A;
  st_batch : list WriteOp → M S unit;
  st_batch_conditional : list ValueAssert → list WriteOp → M S bool;
  st_add_and_get : bytes → Z → M S Z;
  st_counter : bytes → S → result Z;
}.
Arguments st_iterate {S _ A} _ _ _ _.
Arguments st_iterate_from {S _ A} _ _ _ _ _.

(** The default methods of the trait. *)
Section defaults.
Context {S : Type} `{Store S}.

(** [Store::exists]. *)
Definition st_exists (key : bytes) (s : S) : result bool :=
  v ← st_get key s; Ok (bool_decide (is_Some v)).

(** [Store::iterate_from], the fallback: iterate and skip what lies below. *)
Definition default_iterate_from {A} (prefix : KeyPrefix) (start : bytes)
    (visit : A → bytes → bytes → result (A * Flow)) (acc : A) (s : S) : result A :=
  st_iterate prefix (λ acc key value,
    if bytes_ltb key start then Ok (acc, Continue) else visit acc key value) acc s.

(** [Store::batch_conditional], the fallback: check, then write. *)
Fixpoint check_asserts (asserts : list ValueAssert) (s : S) : result bool :=
  match asserts with
  | [] => Ok true
  | a :: asserts =>
      v ← st_get (assert_key a) s;
      if bool_decide (v = assert_expected a) then check_asserts asserts s else Ok false
  end.

Definition default_batch_conditional (asserts : list ValueAssert) (ops : list WriteOp)
  : M S bool :=
  holds ← reads (check_asserts asserts);
  if (holds : bool) then (_ ← st_batch ops; mret true) else mret false.
End defaults.

(** ** The contract *)

(** Keys the backend accepts, and the subspaces whose cells may be added to. *)
Definition known (key : bytes) : Prop := is_Some (subspace_of key).

Definition mergeable (key : bytes) : Prop :=
  subspace_of key = Some Counter ∨ subspace_of key = Some BlobRef.

Definition op_ok (op : WriteOp) : Prop :=
  known (op_key op) ∧ match op with WAdd key _ => mergeable key | _ => True end.

Class StoreSpec (S : Type) `{Store S} : Type := {
  (** the logical contents, and the states in which the device answers *)
  view : S → contents;
  healthy : S → Prop;
  get_spec key s : healthy s → known key → st_get key s = Ok (view s !! key);
  put_spec key value s : healthy s → known key →
    ∃ s', st_put key value s = (Ok tt, s') ∧ healthy s' ∧ view s' = <[key := value]> (view s);
  delete_spec key s : healthy s → known key →
    ∃ s', st_delete key s = (Ok tt, s') ∧ healthy s' ∧ view s' = base.delete key (view s);
  iterate_spec A prefix (visit : A → bytes → bytes → result (A * Flow)) acc s : healthy s →
    st_iterate prefix visit acc s =
      scan visit (rows_from (view s) (prefix_encode prefix) (prefix_encode prefix)) acc;
  iterate_from_spec A prefix start (visit : A → bytes → bytes → result (A * Flow)) acc s :
    healthy s →
    st_iterate_from prefix start visit acc s =
      scan visit (rows_from (view s) (prefix_encode prefix) start) acc;
  batch_spec ops s m' : healthy s → Forall op_ok ops → apply_ops (view s) ops = Some m' →
    ∃ s', st_batch ops s = (Ok tt, s') ∧ healthy s' ∧ view s' = m';
  batch_conditional_spec asserts ops s m' :
    healthy s → Forall (λ a, known (assert_key a)) asserts → Forall op_ok ops →
    apply_ops (view s) ops = Some m' →
    ∃ s', st_batch_conditional asserts ops s = (Ok (forallb (assert_holds (view s)) asserts), s')
      ∧ healthy s'
      ∧ view s' = (if forallb (assert_holds (view s)) asserts then m' else view s);
  add_and_get_spec key by_ s c :
    healthy s → mergeable key → counter_value (view s !! key) = Some c →
    ∃ s', st_add_and_get key by_ s = (Ok (wrapping_add_i64 c by_), s') ∧ healthy s' ∧
      view s' = <[key := i64_le (wrapping_add_i64 c by_)]> (view s);
  counter_spec key s c :
    healthy s → mergeable key → counter_value (view s !! key) = Some c →
    st_counter key s = Ok c;
}.

(** ** Lemmas on rows and scans *)

Lemma mergeable_known key : mergeable key → known key.
Proof. intros [E|E]; by exists (match subspace_of key with Some x => x | None => Counter end); rewrite E. Qed.

Lemma known_key_encode k : known (key_encode k).
Proof. exists (key_subspace k). auto with keys. Qed.

Lemma mergeable_key_encode k :
  key_subspace k = Counter ∨ key_subspace k = BlobRef → mergeable (key_encode k).
Proof. unfold mergeable. rewrite subspace_of_key_encode. intuition congruence. Qed.

#[global] Hint Resolve mergeable_known known_key_encode : keys.

Lemma elem_of_rows m k v : (k, v) ∈ rows m ↔ m !! k = Some v.
Proof. unfold rows. rewrite merge_sort_Permutation. apply elem_of_map_to_list. Qed.

Lemma NoDup_fst_rows m : NoDup (rows m).*1.
Proof. unfold rows. rewrite merge_sort_Permutation. apply NoDup_fst_map_to_list. Qed.

(** A list without repeated keys that is sorted is strictly sorted. *)
Lemma StronglySorted_row_lt (l : list row) :
  StronglySorted row_le l → NoDup l.*1 → StronglySorted row_lt l.
Proof.
  induction 1 as [|r l Hl IH Hr]; simpl; intros Hnd; constructor.
  - inversion Hnd; subst. by apply IH.
  - inversion Hnd as [|? ? Hni ?]; subst. rewrite Forall_forall in *. intros x Hx.
    pose proof (Hr x Hx) as Hle. unfold row_le, row_lt in *.
    apply bytes_le_lteq in Hle as [?|E]; [done|]. exfalso. apply Hni. rewrite E.
    by apply list_elem_of_fmap_2.
Qed.

Lemma rows_sorted m : StronglySorted row_lt (rows m).
Proof.
  apply StronglySorted_row_lt; [|apply NoDup_fst_rows].
  apply StronglySorted_merge_sort; apply _.
Qed.

Lemma StronglySorted_filter {A} (R : A → A → Prop) (P : A → Prop) `{∀ x, Decision (P x)} l :
  StronglySorted R l → StronglySorted R (filter P l).
Proof.
  induction 1 as [|x l Hl IH Hx]; [constructor|]. rewrite filter_cons. case_decide; [|done].
  constructor; [done|]. apply Forall_forall. intros y Hy%list_elem_of_filter.
  rewrite Forall_forall in Hx. naive_solver.
Qed.

Lemma rows_from_sorted m p s : StronglySorted row_lt (rows_from m p s).
Proof. apply StronglySorted_filter, rows_sorted. Qed.

Lemma elem_of_rows_from m p s k v :
  (k, v) ∈ rows_from m p s ↔ m !! k = Some v ∧ p `prefix_of` k ∧ bytes_le s k.
Proof. unfold rows_from, in_range. rewrite list_elem_of_filter, elem_of_rows. naive_solver. Qed.

(** Strictly sorted lists with the same elements are equal. *)
Lemma row_lt_sorted_unique (l1 l2 : list row) :
  StronglySorted row_lt l1 → StronglySorted row_lt l2 → (∀ r, r ∈ l1 ↔ r ∈ l2) → l1 = l2.
Proof.
  assert (∀ x y, row_lt x y → row_lt y x → False) as Hasym.
  { intros x y H1 H2. eapply bytes_lt_irrefl. eapply bytes_lt_trans; eauto. }
  intros H1. revert l2. induction H1 as [|x l1 Hl1 IH Hx]; intros l2 H2 E.
  { destruct l2 as [|y l2]; [done|]. assert (y ∈ []) by (apply E; left). set_solver. }
  destruct H2 as [|y l2 Hl2 Hy]. { assert (x ∈ []) by (apply E; left). set_solver. }
  rewrite Forall_forall in Hx, Hy. setoid_rewrite elem_of_cons in E.
  assert (x = y) as <-.
  { destruct (proj1 (E x) ltac:(by left)) as [?|Hxy]; [done|].
    destruct (proj2 (E y) ltac:(by left)) as [?|Hyx]; [done|]. exfalso. eauto. }
  f_equal. apply IH; [done|]. intros r. split; intros Hr.
  - destruct (proj1 (E r) ltac:(by right)) as [->|?]; [|done].
    exfalso. eauto.
  - destruct (proj2 (E r) ltac:(by right)) as [->|?]; [|done].
    exfalso. eauto.
Qed.

Lemma rows_from_prefix m p : rows_from m p p = filter (λ r, p `prefix_of` r.1) (rows m).
Proof.
  apply list_filter_iff. intros r. unfold in_range.
  split; [naive_solver|]. intros. split; [done|]. by apply prefix_bytes_le.
Qed.

(** A visitor that ignores some rows sees the others only. *)
Lemma scan_skip {A} (visit : A → bytes → bytes → result (A * Flow)) (P : row → Prop)
    `{∀ r, Decision (P r)} rs acc :
  (∀ acc k v, ¬ P (k, v) → visit acc k v = Ok (acc, Continue)) →
  scan visit rs acc = scan visit (filter P rs) acc.
Proof.
  intros Hskip. revert acc. induction rs as [|[k v] rs IH]; intros acc; [done|].
  rewrite filter_cons. simpl. case_decide.
  - simpl. destruct (visit acc k v) as [[acc' []]|]; auto.
  - rewrite Hskip by done. apply IH.
Qed.

Lemma scan_ext {A} (f g : A → bytes → bytes → result (A * Flow)) rs acc :
  (∀ k v acc, (k, v) ∈ rs → f acc k v = g acc k v) → scan f rs acc = scan g rs acc.
Proof.
  revert acc. induction rs as [|[k v] rs IH]; intros acc E; [done|]. simpl.
  rewrite E by left. destruct (g acc k v) as [[acc' []]|]; [|done..].
  apply IH. intros. apply E. by right.
Qed.

(** A visitor that always continues is a fold. *)
Lemma scan_foldl {A} (f : A → bytes → bytes → A) (visit : A → bytes → bytes → result (A * Flow))
    rs acc :
  (∀ k v acc, (k, v) ∈ rs → visit acc k v = Ok (f acc k v, Continue)) →
  scan visit rs acc = Ok (foldl (λ a r, f a r.1 r.2) acc rs).
Proof.
  revert acc. induction rs as [|[k v] rs IH]; intros acc E; [done|]. simpl.
  rewrite E by left. apply IH. intros. apply E. by right.
Qed.

Lemma counter_value_i64_le x : is_i64 x → counter_value (Some (i64_le x)) = Some x.
Proof. intros. unfold counter_value. rewrite length_i64_le. simpl. by rewrite i64_of_le_i64_le. Qed.

Lemma counter_value_range o c : counter_value o = Some c → is_i64 c.
Proof.
  unfold counter_value. destruct o as [b|]; [|intros [= <-]; width].
  case_match; intros [= <-]. apply as_i64_range.
Qed.

Lemma apply_ops_app m ops1 ops2 :
  apply_ops m (ops1 ++ ops2) = (m' ← apply_ops m ops1; apply_ops m' ops2).
Proof.
  revert m. induction ops1 as [|op ops1 IH]; intros m; [done|]. simpl.
  destruct (apply_op m op) as [m'|]; simpl; [apply IH|done].
Qed.

(** Operations on other keys leave a cell alone. *)
Lemma apply_ops_other m ops m' k :
  apply_ops m ops = Some m' → k ∉ op_key <$> ops → m' !! k = m !! k.
Proof.
  revert m. induction ops as [|op ops IH]; simpl; intros m E Hk; [congruence|].
  rewrite not_elem_of_cons in Hk. destruct Hk as [Hk1 Hk2].
  destruct (apply_op m op) as [m1|] eqn:E1; [|done]. simpl in E. rewrite (IH m1 E Hk2).
  destruct op as [k' v|k'|k' by_]; simpl in *; simplify_eq; simplify_map_eq; try done.
  destruct (counter_value (m !! k')) as [c|]; simpl in E1; [|done]. by simplify_map_eq.
Qed.

(** A batch of deletions. *)
Lemma apply_deletes m keys :
  ∃ m', apply_ops m (WDelete <$> keys) = Some m' ∧
        ∀ k, m' !! k = if decide (k ∈ keys) then None else m !! k.
Proof.
  revert m. induction keys as [|key keys IH]; intros m.
  { exists m. split; [done|]. intros k. case_decide as Hk; [by apply not_elem_of_nil in Hk|done]. }
  destruct (IH (base.delete key m)) as (m' & E & Hm'). exists m'. split; [done|]. intros k.
  rewrite Hm', lookup_delete.
  destruct (decide (k ∈ key :: keys)) as [Hk|Hk]; rewrite elem_of_cons in Hk;
    repeat case_decide; naive_solver.
Qed.

Lemma deletes_ok keys : Forall known keys → Forall op_ok (WDelete <$> keys).
Proof. intros Hk. apply Forall_fmap. eapply Forall_impl; [exact Hk|]. by intros key ?. Qed.

(** ** The default methods meet the contract *)

Section default_laws.
Context {S : Type} `{StoreSpec S}.

Lemma default_iterate_from_rows {A} prefix start
    (visit : A → bytes → bytes → result (A * Flow)) acc (s : S) :
  healthy s →
  default_iterate_from prefix start visit acc s =
    scan visit (rows_from (view s) (prefix_encode prefix) start) acc.
Proof.
  intros Hs. unfold default_iterate_from. rewrite iterate_spec by done.
  rewrite (scan_skip _ (λ r, bytes_le start r.1)).
  - transitivity (scan visit
      (filter (λ r, bytes_le start r.1)
         (rows_from (view s) (prefix_encode prefix) (prefix_encode prefix))) acc).
    + apply scan_ext. intros k v a [Hle _]%list_elem_of_filter. simpl in Hle.
      destruct (bytes_ltb k start) eqn:E; [|done].
      apply bytes_ltb_spec, bytes_not_lt in E; [done|]. exact Hle.
    + rewrite rows_from_prefix. unfold rows_from. f_equal.
      rewrite list_filter_filter. apply list_filter_iff. unfold in_range. tauto.
  - simpl. intros a k v Hn. destruct (bytes_ltb k start) eqn:E; [done|].
    exfalso. apply Hn, bytes_not_lt. rewrite <-bytes_ltb_spec. congruence.
Qed.

Lemma check_asserts_spec asserts (s : S) :
  healthy s → Forall (λ a, known (assert_key a)) asserts →
  check_asserts asserts s = Ok (forallb (assert_holds (view s)) asserts).
Proof.
  intros Hs. induction 1 as [|a asserts Ha _ IH]; simpl; [done|].
  rewrite get_spec by done. simpl. unfold assert_holds at 1.
  case_bool_decide; simpl; [apply IH|done].
Qed.
End default_laws.

(** ** A store in memory

    The map-backed store that the tests of the crate use, as a model of the
    contract. *)

Record MemStore : Type := mkMem { mem_map : contents }.

Definition mem_error : Error := StoreError "counter value is not eight bytes".

Definition mem_write (m : option contents) : M MemStore unit := λ s,
  match m with Some m' => (Ok tt, mkMem m') | None => (Err mem_error, s) end.

#[global] Instance MemStore_Store : Store MemStore := {|
  st_get key s := Ok (mem_map s !! key);
  st_put key value s := (Ok tt, mkMem (<[key := value]> (mem_map s)));
  st_delete key s := (Ok tt, mkMem (base.delete key (mem_map s)));
  st_iterate A prefix visit acc s :=
    scan (λ acc key value,
      if starts_with key (prefix_encode prefix) then visit acc key value else Ok (acc, Continue))
      (rows (mem_map s)) acc;
  st_iterate_from A prefix start visit acc s :=
    scan (λ acc key value,
      if starts_with key (prefix_encode prefix) then
        if bytes_ltb key start then Ok (acc, Continue) else visit acc key value
      else Ok (acc, Continue)) (rows (mem_map s)) acc;
  st_batch ops s := mem_write (apply_ops (mem_map s) ops) s;
  st_batch_conditional asserts ops s :=
    if forallb (assert_holds (mem_map s)) asserts
    then match apply_ops (mem_map s) ops with
         | Some m' => (Ok true, mkMem m')
         | None => (Err mem_error, s)
         end
    else (Ok false, s);
  st_add_and_get key by_ s :=
    match counter_value (mem_map s !! key) with
    | Some c => (Ok (wrapping_add_i64 c by_),
                 mkMem (<[key := i64_le (wrapping_add_i64 c by_)]> (mem_map s)))
    | None => (Err mem_error, s)
    end;
  st_counter key s := ok_or (counter_value (mem_map s !! key)) mem_error;
|}.

(** The scan of a range is the scan of everything with the rest ignored. *)
Lemma mem_scan {A} (visit : A → bytes → bytes → result (A * Flow)) m p start acc :
  scan (λ acc key value,
      if starts_with key p then
        if bytes_ltb key start then Ok (acc, Continue) else visit acc key value
      else Ok (acc, Continue)) (rows m) acc =
  scan visit (rows_from m p start) acc.
Proof.
  rewrite (scan_skip _ (in_range p start)).
  - apply scan_ext. intros k v a [[Hp Hs] _]%list_elem_of_filter. unfold starts_with.
    rewrite bool_decide_true by done. destruct (bytes_ltb k start) eqn:E; [|done].
    by apply bytes_ltb_spec, bytes_not_lt in E.
  - intros a k v Hn. unfold starts_with. case_bool_decide as Hp; [|done].
    destruct (bytes_ltb k start) eqn:E; [done|]. exfalso. apply Hn. split; [done|].
    apply bytes_not_lt. rewrite <-bytes_ltb_spec. simpl. congruence.
Qed.

#[global] Program Instance MemStore_Spec : StoreSpec MemStore := {|
  view := mem_map;
  healthy _ := True;
|}.
Solve All Obligations with (intros; simpl; eauto).
Next Obligation.
  intros A prefix visit acc s _. simpl. rewrite <-mem_scan. apply scan_ext. intros k v a _.
  unfold starts_with. case_bool_decide as Hp; [|done].
  destruct (bytes_ltb k (prefix_encode prefix)) eqn:E; [|done].
  apply bytes_ltb_spec, bytes_not_lt in E; [done|]. by apply prefix_bytes_le.
Qed.
Next Obligation. intros A prefix start visit acc s _. apply mem_scan. Qed.
Next Obligation. intros ops s m' _ _ E. simpl. rewrite E. simpl. eauto. Qed.
Next Obligation.
  intros asserts ops s m' _ _ _ E. simpl. rewrite E. case_match; eauto.
Qed.
Next Obligation. intros key by_ s c _ _ E. simpl. rewrite E. eauto. Qed.
Next Obligation. intros key s c _ _ E. simpl. by rewrite E. Qed.
