(* ===== verification/Rocksdb.v ===== *)
(** * The RocksDB backend (crates/store/src/rocksdb_store.rs, rocksdb_write.rs)

    The code of the backend over a transactional key-value engine.  The engine
    itself (the [rocksdb] crate) is the class [Engine]: its operations are
    parameters, and [EngineLaws] states the documented behaviour the backend
    relies on: ordered iterators, atomic commits, and a commit that succeeds
    only if the keys read for update still hold what was read.  Other threads
    appear as an environment that may change the engine's state between any
    two steps of a transaction. *)

From S2P Require Import Prelude Bytes Key Store.
From stdpp Require Import base gmap list strings sorting.
From Stdlib Require Import ZArith Lia.

Open Scope Z_scope.

(** ** The merge operator *)

(** [counter_merge]: fold the operands into the existing counter; [None] when
    any of them is not eight bytes. *)
Fixpoint merge_operands (total : Z) (operands : list bytes) : option Z :=
  match operands with
  | [] => Some total
  | o :: operands =>
      if (length o =? 8)%nat
      then merge_operands (wrapping_add_i64 total (i64_of_le o)) operands
      else None
  end.

Definition counter_merge (existing : option bytes) (operands : list bytes) : option bytes :=
  total ← match existing with
          | Some b => if (length b =? 8)%nat then Some (i64_of_le b) else None
          | None => Some 0
          end;
  i64_le <$> merge_operands total operands.

(** ** The engine *)

Inductive ErrorKind : Type := Busy | TryAgain | MergeInProgress | OtherKind.

Record RocksError : Type := mkRocksError { err_kind : ErrorKind; err_text : string }.

(** A write buffered in a transaction. *)
Inductive TxnOp : Type :=
  | TPut (key value : bytes)
  | TDelete (key : bytes)
  | TMerge (key operand : bytes).

Class Engine (DB : Type) : Type := {
  (** [cf_handle] *)
  db_has_cf : Subspace → DB → bool;
  (** [get_cf], also as [get_pinned_for_update_cf] inside a transaction *)
  db_get : Subspace → bytes → DB → RocksError + option bytes;
  (** [put_cf] and [delete_cf] outside a transaction *)
  db_put : Subspace → bytes → bytes → DB → option RocksError * DB;
  db_delete : Subspace → bytes → DB → option RocksError * DB;
  (** [iterator_cf] from a key, forward *)
  db_iter : Subspace → bytes → DB → list (RocksError + row);
  (** buffering a write in a transaction *)
  db_stage : TxnOp → DB → option RocksError;
  (** [commit], given what was read for update and the buffered writes *)
  db_commit : list (bytes * option bytes) → list TxnOp → DB → option RocksError * DB;
}.

(** The effect of buffered writes on the logical contents. *)
Definition apply_txn_op (m : contents) (op : TxnOp) : option contents :=
  match op with
  | TPut k v => Some (<[k := v]> m)
  | TDelete k => Some (base.delete k m)
  | TMerge k operand => v ← counter_merge (m !! k) [operand]; Some (<[k := v]> m)
  end.

Fixpoint apply_txn (m : contents) (ops : list TxnOp) : option contents :=
  match ops with
  | [] => Some m
  | op :: ops => m' ← apply_txn_op m op; apply_txn m' ops
  end.

Class EngineLaws (DB : Type) `{Engine DB} : Type := {
  (** the logical contents; the states in which no device error occurs and no
      cell is corrupt; the states in which nothing else writes *)
  db_contents : DB → contents;
  db_ok : DB → Prop;
  db_quiet : DB → Prop;
  law_cf cf d : db_ok d → db_has_cf cf d = true;
  law_get cf k d : db_ok d → subspace_of k = Some cf → db_get cf k d = inr (db_contents d !! k);
  law_put cf k v d : db_ok d → subspace_of k = Some cf →
    ∃ d', db_put cf k v d = (None, d') ∧ db_ok d' ∧ db_contents d' = <[k := v]> (db_contents d)
          ∧ (db_quiet d → db_quiet d');
  law_delete cf k d : db_ok d → subspace_of k = Some cf →
    ∃ d', db_delete cf k d = (None, d') ∧ db_ok d' ∧ db_contents d' = base.delete k (db_contents d)
          ∧ (db_quiet d → db_quiet d');
  (** iterators return the rows of the column family from the key on, in order *)
  law_iter cf seek d : db_ok d →
    db_iter cf seek d =
      inr <$> filter (λ r, subspace_of r.1 = Some cf ∧ bytes_le seek r.1) (rows (db_contents d));
  law_stage op d : db_ok d → db_stage op d = None;
  (** a commit is atomic, and validates the keys read for update *)
  law_commit reads_ writes d d' : db_commit reads_ writes d = (None, d') → db_ok d →
    Forall (λ kv, db_contents d !! kv.1 = kv.2) reads_ ∧
    ∀ m', apply_txn (db_contents d) writes = Some m' → db_contents d' = m' ∧ db_ok d';
  law_commit_err reads_ writes d e d' : db_commit reads_ writes d = (Some e, d') → db_ok d →
    db_contents d' = db_contents d ∧ db_ok d';
  (** with no other writer there is nothing to conflict with *)
  law_quiet reads_ writes d : db_quiet d → Forall (λ kv, db_contents d !! kv.1 = kv.2) reads_ →
    ∃ d', db_commit reads_ writes d = (None, d') ∧ db_quiet d';
}.

(** ** The backend *)

Definition COMMIT_RETRY_LIMIT : nat := 16.

Inductive CommitError : Type :=
  | RocksDb (e : RocksError)
  | InternalErr (e : Error).

Definition unknown_subspace : Error := StoreError "key does not begin with a known subspace byte".
Definition missing_cf : Error := StoreError "rocksdb column family is missing".

(** [decode_counter]. *)
Definition decode_counter (b : bytes) : result Z :=
  if (length b =? 8)%nat then Ok (i64_of_le b)
  else Err (StoreError "counter value is not eight bytes").

Definition recoverable (e : RocksError) : bool :=
  match err_kind e with Busy | TryAgain | MergeInProgress => true | OtherKind => false end.

(** The comparison of a value read with the one expected. *)
Definition expected_matches (current expected : option bytes) : bool :=
  match current, expected with
  | Some b, Some expected => bool_decide (b = expected)
  | None, None => true
  | _, _ => false
  end.

Lemma expected_matches_eq current expected :
  expected_matches current expected = bool_decide (current = expected).
Proof.
  destruct current, expected; simpl; repeat case_bool_decide; congruence.
Qed.

Section backend.
Context {DB : Type} `{Engine DB}.

(** Other threads: what happens before step [j] of attempt [i]. *)
Variable env : nat → nat → DB → DB.
(** [start.elapsed() < COMMIT_RETRY_BUDGET], as seen after attempt [i]. *)
Variable in_budget : nat → bool.

(** [RocksdbStore::cf] with [subspace_of], as used for every key. *)
Definition cf_of (key : bytes) (d : DB) : Error + Subspace :=
  match subspace_of key with
  | None => inl unknown_subspace
  | Some sub => if db_has_cf sub d then inr sub else inl missing_cf
  end.

(** [RocksdbStore::get]. *)
Definition rocks_get (key : bytes) (d : DB) : result (option bytes) :=
  match cf_of key d with
  | inl e => Err e
  | inr cf =>
      match db_get cf key d with
      | inl _ => Err (StoreError "rocksdb get failed")
      | inr v => Ok v
      end
  end.

(** [RocksdbStore::put]. *)
Definition rocks_put (key value : bytes) : M DB unit := λ d,
  match cf_of key d with
  | inl e => (Err e, d)
  | inr cf =>
      match db_put cf key value d with
      | (None, d') => (Ok tt, d')
      | (Some _, d') => (Err (StoreError "rocksdb put failed"), d')
      end
  end.

(** [RocksdbStore::delete]. *)
Definition rocks_delete (key : bytes) : M DB unit := λ d,
  match cf_of key d with
  | inl e => (Err e, d)
  | inr cf =>
      match db_delete cf key d with
      | (None, d') => (Ok tt, d')
      | (Some _, d') => (Err (StoreError "rocksdb delete failed"), d')
      end
  end.

(** The loop of [RocksdbStore::iterate_bounded]: stop at the first key that
    does not start with the bound. *)
Fixpoint bounded_rows {A} (bound : bytes) (visit : A → bytes → bytes → result (A * Flow))
    (rs : list (RocksError + row)) (acc : A) : result A :=
  match rs with
  | [] => Ok acc
  | inl _ :: _ => Err (StoreError "rocksdb iterate failed")
  | inr (key, value) :: rs =>
      if negb (starts_with key bound) then Ok acc
      else match visit acc key value with
           | Ok (acc', Continue) => bounded_rows bound visit rs acc'
           | Ok (acc', Stop) => Ok acc'
           | Err e => Err e
           end
  end.

Definition iterate_bounded {A} (bound seek : bytes)
    (visit : A → bytes → bytes → result (A * Flow)) (acc : A) (d : DB) : result A :=
  match cf_of bound d with
  | inl e => Err e
  | inr cf => bounded_rows bound visit (db_iter cf seek d) acc
  end.

(** [RocksdbStore::iterate]. *)
Definition rocks_iterate {A} (prefix : KeyPrefix)
    (visit : A → bytes → bytes → result (A * Flow)) (acc : A) (d : DB) : result A :=
  let bound := prefix_encode prefix in
  iterate_bounded bound bound visit acc d.

(** [RocksdbStore::iterate_from]: seek to whichever is later. *)
Definition rocks_iterate_from {A} (prefix : KeyPrefix) (start : bytes)
    (visit : A → bytes → bytes → result (A * Flow)) (acc : A) (d : DB) : result A :=
  let bound := prefix_encode prefix in
  let seek := if bytes_ltb bound start then start else bound in
  iterate_bounded bound seek visit acc d.

(** [RocksdbStore::with_retry].  [attempt] counts the retries made; the loop
    makes at most [COMMIT_RETRY_LIMIT] of them, so [COMMIT_RETRY_LIMIT] of
    fuel is enough ([retry_loop_fuel]). *)
Fixpoint retry_loop {T} (fuel : nat) (attempt : nat)
    (commit : nat → DB → (CommitError + T) * DB) (d : DB) : result T * DB :=
  match commit attempt d with
  | (inr value, d') => (Ok value, d')
  | (inl (InternalErr e), d') => (Err e, d')
  | (inl (RocksDb e), d') =>
      if recoverable e && (attempt <? COMMIT_RETRY_LIMIT)%nat && in_budget attempt then
        match fuel with
        | O => (Err (Internal "out of fuel"), d')
        | Datatypes.S fuel => retry_loop fuel (attempt + 1) commit d'
        end
      else (Err (StoreError "rocksdb write failed"), d')
  end.

Definition with_retry {T} (commit : nat → DB → (CommitError + T) * DB) : M DB T :=
  retry_loop COMMIT_RETRY_LIMIT 0 commit.

(** Buffer the operations of a batch in a transaction. *)
Definition txn_op (op : WriteOp) : TxnOp :=
  match op with
  | WSet k v => TPut k v
  | WDelete k => TDelete k
  | WAdd k by_ => TMerge k (i64_le by_)
  end.

Fixpoint stage_ops (ops : list WriteOp) (d : DB) : CommitError + list TxnOp :=
  match ops with
  | [] => inr []
  | op :: ops =>
      match cf_of (op_key op) d with
      | inl e => inl (InternalErr e)
      | inr _ =>
          match db_stage (txn_op op) d with
          | Some e => inl (RocksDb e)
          | None =>
              match stage_ops ops d with
              | inl e => inl e
              | inr staged => inr (txn_op op :: staged)
              end
          end
      end
  end.

Definition commit_txn {T} (reads_ : list (bytes * option bytes)) (writes : list TxnOp)
    (value : T) (d : DB) : (CommitError + T) * DB :=
  match db_commit reads_ writes d with
  | (None, d') => (inr value, d')
  | (Some e, d') => (inl (RocksDb e), d')
  end.

(** The closure of [apply_batch]. *)
Definition batch_body (ops : list WriteOp) (i : nat) (d : DB) : (CommitError + unit) * DB :=
  let d := env i 0 d in
  match stage_ops ops d with
  | inl e => (inl e, d)
  | inr writes => commit_txn [] writes tt (env i 1 d)
  end.

Definition apply_batch (ops : list WriteOp) : M DB unit :=
  match ops with
  | [] => λ d, (Ok tt, d)
  | _ => with_retry (batch_body ops)
  end.

(** The assertion loop: read each key for update, stop at the first that
    does not hold what is expected. *)
Fixpoint read_asserts (i j : nat) (asserts : list ValueAssert)
    (reads_ : list (bytes * option bytes)) (d : DB)
  : (CommitError + option (list (bytes * option bytes))) * DB :=
  match asserts with
  | [] => (inr (Some reads_), d)
  | a :: asserts =>
      let d := env i j d in
      match cf_of (assert_key a) d with
      | inl e => (inl (InternalErr e), d)
      | inr cf =>
          match db_get cf (assert_key a) d with
          | inl e => (inl (RocksDb e), d)
          | inr current =>
              if expected_matches current (assert_expected a)
              then read_asserts i (j + 1) asserts (reads_ ++ [(assert_key a, current)]) d
              else (inr None, d)
          end
      end
  end.

(** The closure of [apply_batch_conditional]. *)
Definition conditional_body (asserts : list ValueAssert) (ops : list WriteOp) (i : nat) (d : DB)
  : (CommitError + bool) * DB :=
  match read_asserts i 0 asserts [] d with
  | (inl e, d) => (inl e, d)
  | (inr None, d) => (inr false, d)
  | (inr (Some reads_), d) =>
      match stage_ops ops d with
      | inl e => (inl e, d)
      | inr writes => commit_txn reads_ writes true (env i (length asserts) d)
      end
  end.

Definition apply_batch_conditional (asserts : list ValueAssert) (ops : list WriteOp) : M DB bool :=
  match asserts with
  | [] => _ ← apply_batch ops; mret true
  | _ => with_retry (conditional_body asserts ops)
  end.

(** The closure of [add_counter]. *)
Definition add_counter_body (key : bytes) (by_ : Z) (i : nat) (d : DB)
  : (CommitError + Z) * DB :=
  let d := env i 0 d in
  match cf_of key d with
  | inl e => (inl (InternalErr e), d)
  | inr cf =>
      match db_get cf key d with
      | inl e => (inl (RocksDb e), d)
      | inr current =>
          match match current with Some b => decode_counter b | None => Ok 0 end with
          | Err e => (inl (InternalErr e), d)
          | Ok c =>
              let next := wrapping_add_i64 c by_ in
              match db_stage (TPut key (i64_le next)) d with
              | Some e => (inl (RocksDb e), d)
              | None => commit_txn [(key, current)] [TPut key (i64_le next)] next (env i 1 d)
              end
          end
      end
  end.

Definition add_counter (key : bytes) (by_ : Z) : M DB Z := with_retry (add_counter_body key by_).

(** [read_counter]. *)
Definition read_counter (key : bytes) (d : DB) : result Z :=
  v ← rocks_get key d;
  match v with Some b => decode_counter b | None => Ok 0 end.

(** [check_schema_version], run when the store is opened. *)
Definition schema_version_key : bytes := [subspace_as_byte Registry; 2].
Definition SCHEMA_VERSION : Z := 1.

Definition check_schema_version : M DB unit :=
  stamp ← reads (rocks_get schema_version_key);
  match stamp with
  | None => rocks_put schema_version_key (le_bytes 4 SCHEMA_VERSION)
  | Some b =>
      if negb (length b =? 4)%nat
      then throw (StoreError "corrupt schema version stamp")
      else if of_le_bytes b =? SCHEMA_VERSION then mret tt
      else throw (StoreError "schema version mismatch; refusing to open")
  end.
End backend.

(** ** The merge operator is addition *)

Lemma merge_operands_app t ops1 ops2 :
  merge_operands t (ops1 ++ ops2) = (t' ← merge_operands t ops1; merge_operands t' ops2).
Proof.
  revert t. induction ops1 as [|o ops1 IH]; intros t; simpl; [done|].
  case_match; [apply IH|done].
Qed.

(** The running total can be added last: merging is a homomorphism. *)
Lemma merge_operands_shift t u ops :
  merge_operands (wrapping_add_i64 t u) ops = wrapping_add_i64 t <$> merge_operands u ops.
Proof.
  revert u. induction ops as [|o ops IH]; intros u; simpl; [done|].
  case_match; [|done]. by rewrite wrapping_add_i64_assoc.
Qed.

Lemma merge_operands_range t ops t' :
  is_i64 t → merge_operands t ops = Some t' → is_i64 t'.
Proof.
  revert t. induction ops as [|o ops IH]; intros t Ht; simpl; [by intros [= <-]|].
  case_match; [|done]. apply IH, as_i64_range.
Qed.

Lemma counter_merge_value cell operands :
  counter_merge cell operands =
    (c ← counter_value cell; i64_le <$> merge_operands c operands).
Proof. by destruct cell. Qed.

Lemma counter_merge_add cell c by_ :
  counter_value cell = Some c →
  counter_merge cell [i64_le by_] = Some (i64_le (wrapping_add_i64 c by_)).
Proof.
  intros E. rewrite counter_merge_value, E. simpl. rewrite length_i64_le, i64_of_le_wrap. simpl.
  unfold wrapping_add_i64. by rewrite as_i64_add_r.
Qed.

Lemma counter_merge_fail cell by_ :
  counter_value cell = None → counter_merge cell [i64_le by_] = None.
Proof. intros E. by rewrite counter_merge_value, E. Qed.

(** A batch staged in a transaction has the effect the contract asks for. *)
Lemma apply_txn_ops m ops : apply_txn m (txn_op <$> ops) = apply_ops m ops.
Proof.
  revert m. induction ops as [|op ops IH]; intros m; simpl; [done|].
  assert (apply_txn_op m (txn_op op) = apply_op m op) as ->.
  { destruct op as [| |k by_]; simpl; try done.
    destruct (counter_value (m !! k)) as [c|] eqn:E; simpl.
    - by rewrite (counter_merge_add _ c).
    - by rewrite counter_merge_fail. }
  destruct (apply_op m op); simpl; [apply IH|done].
Qed.

(** ** Scans *)

(** On rows sorted by key, all of them at or after the bound, stopping at the
    first row outside the prefix visits exactly the rows inside it. *)
Lemma bounded_rows_scan {A} bound (visit : A → bytes → bytes → result (A * Flow)) rs acc :
  StronglySorted row_lt rs → Forall (λ r, bytes_le bound r.1) rs →
  bounded_rows bound visit (inr <$> rs) acc =
    scan visit (filter (λ r, bound `prefix_of` r.1) rs) acc.
Proof.
  intros Hs. revert acc. induction Hs as [|[k v] rs Hs IH Hk]; intros acc Hb; [done|].
  apply Forall_cons in Hb as [Hb Hbs]. simpl in Hb. rewrite filter_cons. simpl.
  unfold starts_with. case_bool_decide as Hp; simpl.
  - rewrite decide_True by done. simpl.
    destruct (visit acc k v) as [[acc' []]|]; [by apply IH|done..].
  - rewrite decide_False by done.
    rewrite filter_none; [done|].
    apply Forall_forall. intros [k' v'] Hin Hp'. apply Hp.
    rewrite Forall_forall in Hk. pose proof (Hk _ Hin) as Hlt. unfold row_lt in Hlt. simpl in *.
    eapply (prefix_convex bound bound k k'); [done|done|done|]. by apply bytes_lt_le.
Qed.

Section engine_laws.
Context {DB : Type} `{EngineLaws DB}.

Lemma cf_of_known key (d : DB) sub :
  db_ok d → subspace_of key = Some sub → cf_of key d = inr sub.
Proof. intros Hd E. unfold cf_of. by rewrite E, law_cf. Qed.

Lemma iterate_bounded_rows {A} bound seek (visit : A → bytes → bytes → result (A * Flow)) acc
    (d : DB) sub :
  db_ok d → subspace_of bound = Some sub → bytes_le bound seek →
  iterate_bounded bound seek visit acc d = scan visit (rows_from (db_contents d) bound seek) acc.
Proof.
  intros Hd Hsub Hle. unfold iterate_bounded. rewrite (cf_of_known _ _ sub) by done.
  rewrite law_iter, bounded_rows_scan by
    (try done; try apply StronglySorted_filter, rows_sorted;
     apply Forall_forall; intros r [[_ ?] _]%list_elem_of_filter; by transitivity seek).
  f_equal. rewrite list_filter_filter. unfold rows_from. apply list_filter_iff.
  intros [k v]. unfold in_range. simpl. split; [tauto|]. intros [Hp Hs].
  split_and!; [done| |done]. destruct Hp as [l ->]. destruct bound; [done|]. done.
Qed.

(** ** The retry loop *)

Section retry.
Context (in_budget : nat → bool) {T : Type} (commit : nat → DB → (CommitError + T) * DB).

(** More fuel than the attempts left changes nothing: the loop ends by its
    own bound. *)
Lemma retry_loop_fuel f1 f2 i d :
  (COMMIT_RETRY_LIMIT ≤ f1 + i → COMMIT_RETRY_LIMIT ≤ f2 + i →
  retry_loop in_budget f1 i commit d = retry_loop in_budget f2 i commit d)%nat.
Proof.
  unfold COMMIT_RETRY_LIMIT. revert f2 i d. induction f1 as [|f1 IH]; intros f2 i d H1 H2; simpl.
  - destruct f2; simpl; destruct (commit i d) as [[[]|] ?]; try done.
    assert ((i <? COMMIT_RETRY_LIMIT)%nat = false) as ->
      by (apply Nat.ltb_ge; unfold COMMIT_RETRY_LIMIT; lia).
    by rewrite andb_false_r.
  - destruct f2 as [|f2]; simpl; destruct (commit i d) as [[[]|] ?]; try done.
    + assert ((i <? COMMIT_RETRY_LIMIT)%nat = false) as ->
        by (apply Nat.ltb_ge; unfold COMMIT_RETRY_LIMIT; lia).
      by rewrite andb_false_r.
    + case_match; [|done]. apply IH; lia.
Qed.

(** Whatever the loop returns with [Ok] is the value of one of its
    attempts, run in a state that satisfies any invariant the failed
    attempts keep. *)
Lemma retry_loop_ok (P : DB → Prop) fuel i d v d' :
  (∀ j x e x', P x → commit j x = (inl e, x') → P x') → P d →
  retry_loop in_budget fuel i commit d = (Ok v, d') →
  ∃ j dj, P dj ∧ commit j dj = (inr v, d').
Proof.
  intros HP. revert i d. induction fuel as [|fuel IH]; intros i d Hd; simpl;
    destruct (commit i d) as [[[]|] ?] eqn:E; repeat case_match; intros [=]; subst; eauto.
Qed.

(** Failed attempts that may be retried, as a chain of states. *)
Definition failing (n : nat) (ds : nat → DB) : Prop :=
  ∀ i, (i < n)%nat → ∃ e, commit i (ds i) = (inl (RocksDb e), ds (Datatypes.S i)) ∧
                    recoverable e = true ∧ in_budget i = true.

Lemma retry_loop_skip n ds fuel i :
  (n ≤ COMMIT_RETRY_LIMIT)%nat → failing n ds → (i ≤ n → n ≤ fuel + i)%nat → (i ≤ n)%nat →
  retry_loop in_budget fuel i commit (ds i) = retry_loop in_budget (fuel + i - n) n commit (ds n).
Proof.
  intros Hn Hf. revert i. induction fuel as [|fuel IH]; intros i Hfuel Hi.
  { assert (i = n) as -> by lia. f_equal. lia. }
  destruct (decide (i = n)) as [->|Hne]; [f_equal; lia|].
  destruct (Hf i) as (e & E & Hr & Hb); [lia|]. cbn [retry_loop].
  rewrite E, Hr, Hb.
  assert ((i <? COMMIT_RETRY_LIMIT)%nat = true) as -> by (apply Nat.ltb_lt; lia). simpl.
  rewrite Nat.add_1_r, IH by lia. f_equal. lia.
Qed.
End retry.

(** ** Transactions *)

Lemma stage_ops_ok ops (d : DB) :
  db_ok d → Forall op_ok ops → stage_ops ops d = inr (txn_op <$> ops).
Proof.
  intros Hd. induction 1 as [|op ops [[sub Hk] _] _ IH]; simpl; [done|].
  by rewrite (cf_of_known _ _ sub), law_stage, IH.
Qed.

Lemma stage_ops_inr ops (d : DB) writes :
  stage_ops ops d = inr writes → writes = txn_op <$> ops.
Proof.
  revert writes. induction ops as [|op ops IH]; intros writes; simpl; [by intros [= <-]|].
  repeat case_match; intros [=]; subst. f_equal. by apply IH.
Qed.

Lemma commit_txn_ok {T} reads_ writes (v v' : T) (d d' : DB) :
  commit_txn reads_ writes v d = (inr v', d') →
  v' = v ∧ db_commit reads_ writes d = (None, d').
Proof. unfold commit_txn. repeat case_match; intros [=]; subst; auto. Qed.

(** What the assertion loop has read when it goes through. *)
Lemma read_asserts_some (env : nat → nat → DB → DB) i j asserts reads0 d reads_ d' :
  read_asserts env i j asserts reads0 d = (inr (Some reads_), d') →
  reads_ = reads0 ++ ((λ a, (assert_key a, assert_expected a)) <$> asserts).
Proof.
  revert j reads0 d. induction asserts as [|a asserts IH]; intros j reads0 d; simpl.
  { intros [= <- <-]. by rewrite app_nil_r. }
  destruct (cf_of _ _); [done|]. destruct (db_get _ _ _) as [|current]; [done|].
  rewrite expected_matches_eq. case_bool_decide as Em; [|done]. intros ->%IH.
  rewrite <-app_assoc. simpl. by rewrite Em.
Qed.

(** When it stops, some assertion is false in the state it stops in. *)
Lemma read_asserts_none (env : nat → nat → DB → DB) i j asserts reads0 d d' :
  (∀ i j x, db_ok x → db_ok (env i j x)) → db_ok d →
  read_asserts env i j asserts reads0 d = (inr None, d') →
  db_ok d' ∧ forallb (assert_holds (db_contents d')) asserts = false.
Proof.
  intros Henv. revert j reads0 d. induction asserts as [|a asserts IH]; intros j reads0 d Hd; simpl; [done|].
  unfold cf_of. destruct (subspace_of (assert_key a)) as [sub|] eqn:Es; [|done].
  rewrite law_cf by auto. rewrite law_get by auto. rewrite expected_matches_eq.
  case_bool_decide as Em.
  - intros Hr. apply IH in Hr as [? ->]; [|auto]. split; [done|]. apply andb_false_r.
  - intros [= <-]. split; [auto|]. unfold assert_holds at 1. by rewrite bool_decide_false.
Qed.
End engine_laws.

(** ** The backend meets the store contract *)

Section refinement.
Context {DB : Type} `{EngineLaws DB} (in_budget : nat → bool).

(** No other thread runs. *)
Definition no_env : nat → nat → DB → DB := λ _ _ d, d.

(** [impl Store for RocksdbStore]. *)
Definition rocks_store : Store DB := {|
  st_get := rocks_get;
  st_put := rocks_put;
  st_delete := rocks_delete;
  st_iterate A := rocks_iterate;
  st_iterate_from A := rocks_iterate_from;
  st_batch := apply_batch no_env in_budget;
  st_batch_conditional := apply_batch_conditional no_env in_budget;
  st_add_and_get := add_counter no_env in_budget;
  st_counter := read_counter;
|}.

Definition rocks_healthy (d : DB) : Prop := db_ok d ∧ db_quiet d.

Lemma with_retry_first {T} (commit : nat → DB → (CommitError + T) * DB) d v d' :
  commit 0%nat d = (inr v, d') → with_retry in_budget commit d = (Ok v, d').
Proof. intros E. unfold with_retry, COMMIT_RETRY_LIMIT. simpl. by rewrite E. Qed.

(** A commit of true reads on a quiet engine goes through. *)
Lemma commit_txn_quiet {T} reads_ writes (v : T) (d : DB) m' :
  rocks_healthy d → Forall (λ kv, db_contents d !! kv.1 = kv.2) reads_ →
  apply_txn (db_contents d) writes = Some m' →
  ∃ d', commit_txn reads_ writes v d = (inr v, d') ∧ rocks_healthy d' ∧ db_contents d' = m'.
Proof.
  intros [Hok Hq] Hr Ha. destruct (law_quiet reads_ writes d Hq Hr) as (d' & E & Hq').
  exists d'. unfold commit_txn. rewrite E.
  destruct (law_commit _ _ _ _ E Hok) as [_ Hm]. destruct (Hm m' Ha). done.
Qed.

Lemma rocks_get_spec key (d : DB) :
  rocks_healthy d → known key → rocks_get key d = Ok (db_contents d !! key).
Proof.
  intros [Hok _] [sub Hk]. unfold rocks_get. by rewrite (cf_of_known _ _ sub), law_get.
Qed.

Lemma apply_batch_spec ops (d : DB) m' :
  rocks_healthy d → Forall op_ok ops → apply_ops (db_contents d) ops = Some m' →
  ∃ d', apply_batch no_env in_budget ops d = (Ok tt, d') ∧ rocks_healthy d' ∧ db_contents d' = m'.
Proof.
  intros Hd Hops Ha. destruct ops as [|op ops]; [simpl in *; naive_solver|].
  destruct (commit_txn_quiet [] (txn_op <$> op :: ops) tt d m') as (d' & E & ? & ?);
    [done|done|by rewrite apply_txn_ops|].
  exists d'. split_and!; [|done|done]. unfold apply_batch. apply with_retry_first.
  unfold batch_body, no_env. rewrite stage_ops_ok by (apply Hd || done). exact E.
Qed.

(** The assertion loop without interference decides the assertions. *)
Lemma read_asserts_quiet i j asserts reads0 (d : DB) :
  rocks_healthy d → Forall (λ a, known (assert_key a)) asserts →
  read_asserts no_env i j asserts reads0 d =
    (inr (if forallb (assert_holds (db_contents d)) asserts
          then Some (reads0 ++ ((λ a, (assert_key a, assert_expected a)) <$> asserts))
          else None), d).
Proof.
  intros [Hok Hq] Has. revert j reads0.
  induction Has as [|a asserts [sub Ha] _ IH]; intros j reads0; simpl.
  { by rewrite app_nil_r. }
  change (no_env i j d) with d. rewrite (cf_of_known _ _ sub), law_get by done.
  rewrite expected_matches_eq. unfold assert_holds at 1. case_bool_decide as Em; simpl; [|done].
  rewrite IH, Em. by rewrite <-app_assoc.
Qed.

Lemma apply_batch_conditional_spec asserts ops (d : DB) m' :
  rocks_healthy d → Forall (λ a, known (assert_key a)) asserts → Forall op_ok ops →
  apply_ops (db_contents d) ops = Some m' →
  ∃ d', apply_batch_conditional no_env in_budget asserts ops d =
          (Ok (forallb (assert_holds (db_contents d)) asserts), d') ∧ rocks_healthy d' ∧
        db_contents d' = (if forallb (assert_holds (db_contents d)) asserts
                          then m' else db_contents d).
Proof.
  intros Hd Has Hops Ha. destruct asserts as [|a asserts].
  { destruct (apply_batch_spec ops d m') as (d' & E & ? & ?); [done..|].
    exists d'. simpl. unfold mbind, M_bind. by rewrite E. }
  set (l := a :: asserts) in *.
  assert (with_retry in_budget (conditional_body no_env l ops) d =
          apply_batch_conditional no_env in_budget l ops d) as <- by done.
  destruct (forallb (assert_holds (db_contents d)) l) eqn:Eh.
  - destruct (commit_txn_quiet ((λ a, (assert_key a, assert_expected a)) <$> l) (txn_op <$> ops) true d m')
      as (d' & E & ? & ?); [done| |by rewrite apply_txn_ops|].
    { apply Forall_fmap, Forall_forall. intros x Hx. simpl.
      eapply bool_decide_eq_true, (proj1 (forallb_forall _ _) Eh). by apply list_elem_of_In. }
    exists d'. split_and!; [|done|done]. apply with_retry_first.
    unfold conditional_body. rewrite read_asserts_quiet, Eh by done. simpl app.
    rewrite stage_ops_ok by (apply Hd || done). exact E.
  - exists d. split_and!; [|done|done]. apply with_retry_first.
    unfold conditional_body. by rewrite read_asserts_quiet, Eh.
Qed.

Lemma add_counter_spec key by_ (d : DB) c :
  rocks_healthy d → mergeable key → counter_value (db_contents d !! key) = Some c →
  ∃ d', add_counter no_env in_budget key by_ d = (Ok (wrapping_add_i64 c by_), d') ∧
        rocks_healthy d' ∧
        db_contents d' = <[key := i64_le (wrapping_add_i64 c by_)]> (db_contents d).
Proof.
  intros Hd [sub Hk]%mergeable_known Hc. pose proof Hd as [Hok _].
  destruct (commit_txn_quiet [(key, db_contents d !! key)]
    [TPut key (i64_le (wrapping_add_i64 c by_))] (wrapping_add_i64 c by_) d
    (<[key := i64_le (wrapping_add_i64 c by_)]> (db_contents d))) as (d' & E & ? & ?);
    [done|by repeat constructor|done|].
  exists d'. split_and!; [|done|done]. apply with_retry_first.
  unfold add_counter_body, no_env. rewrite (cf_of_known _ _ sub), law_get by done.
  unfold counter_value in Hc. destruct (db_contents d !! key) as [b|]; simpl.
  - unfold decode_counter. case_match; [|done]. injection Hc as ->. rewrite law_stage by done. exact E.
  - injection Hc as <-. rewrite law_stage by done. exact E.
Qed.

Lemma read_counter_spec key (d : DB) c :
  rocks_healthy d → mergeable key → counter_value (db_contents d !! key) = Some c →
  read_counter key d = Ok c.
Proof.
  intros Hd Hk Hc. unfold read_counter. rewrite rocks_get_spec by auto with keys. simpl.
  unfold counter_value in Hc. destruct (_ !! _) as [b|]; [|congruence].
  unfold decode_counter. case_match; congruence.
Qed.

#[program] Definition rocks_store_spec : @StoreSpec DB rocks_store :=
  @Build_StoreSpec DB rocks_store db_contents rocks_healthy rocks_get_spec _ _ _ _
    apply_batch_spec apply_batch_conditional_spec add_counter_spec read_counter_spec.
Next Obligation.
  intros key value d [Hok Hq] [sub Hk]. simpl. unfold rocks_put.
  rewrite (cf_of_known _ _ sub) by done.
  destruct (law_put sub key value d Hok Hk) as (d' & -> & ? & ? & ?). unfold rocks_healthy. eauto 10.
Qed.
Next Obligation.
  intros key d [Hok Hq] [sub Hk]. simpl. unfold rocks_delete.
  rewrite (cf_of_known _ _ sub) by done.
  destruct (law_delete sub key d Hok Hk) as (d' & -> & ? & ? & ?). unfold rocks_healthy. eauto 10.
Qed.
Next Obligation.
  intros A prefix visit acc d [Hok _]. simpl. unfold rocks_iterate.
  eapply iterate_bounded_rows; [done|apply subspace_of_prefix_encode|reflexivity].
Qed.
Next Obligation.
  intros A prefix start visit acc d [Hok _]. simpl. unfold rocks_iterate_from.
  set (bound := prefix_encode prefix). destruct (bytes_ltb bound start) eqn:E.
  - apply bytes_ltb_spec, bytes_lt_le in E.
    eapply iterate_bounded_rows; [done|apply subspace_of_prefix_encode|done].
  - assert (bytes_le start bound) as Hle.
    { apply bytes_not_lt. rewrite <-bytes_ltb_spec. congruence. }
    erewrite iterate_bounded_rows; [|done|apply subspace_of_prefix_encode|reflexivity].
    f_equal. unfold rows_from. apply list_filter_iff. intros r. unfold in_range.
    split; [|intros [Hp _]; split; [done|by apply prefix_bytes_le]].
    intros [Hp ?]. split; [done|]. by transitivity bound.
Qed.
End refinement.

(** ** An engine in memory

    A model of [EngineLaws]: commits validate their reads against the map. *)

Record MemDb : Type := mkDb { memdb_map : contents }.

Definition busy : RocksError := mkRocksError Busy "Resource busy".

Definition reads_hold (m : contents) (reads_ : list (bytes * option bytes)) : bool :=
  forallb (λ kv, bool_decide (m !! kv.1 = kv.2)) reads_.

#[global] Instance MemDb_Engine : Engine MemDb := {|
  db_has_cf _ _ := true;
  db_get _ k d := inr (memdb_map d !! k);
  db_put _ k v d := (None, mkDb (<[k := v]> (memdb_map d)));
  db_delete _ k d := (None, mkDb (base.delete k (memdb_map d)));
  db_iter cf seek d :=
    inr <$> filter (λ r, subspace_of r.1 = Some cf ∧ bytes_le seek r.1) (rows (memdb_map d));
  db_stage _ _ := None;
  db_commit reads_ writes d :=
    if reads_hold (memdb_map d) reads_ then
      match apply_txn (memdb_map d) writes with
      | Some m' => (None, mkDb m')
      | None => (None, d)
      end
    else (Some busy, d);
|}.

Lemma reads_hold_Forall m reads_ :
  reads_hold m reads_ = true ↔ Forall (λ kv, m !! kv.1 = kv.2) reads_.
Proof.
  unfold reads_hold. rewrite forallb_forall, Forall_forall. setoid_rewrite list_elem_of_In.
  by setoid_rewrite bool_decide_eq_true.
Qed.

#[global] Program Instance MemDb_Laws : EngineLaws MemDb := {|
  db_contents := memdb_map;
  db_ok _ := True;
  db_quiet _ := True;
|}.
Solve All Obligations with (intros; simpl; eauto 10).
Next Obligation.
  intros reads_ writes d d'. simpl. destruct (reads_hold _ _) eqn:E; [|done].
  apply reads_hold_Forall in E. intros Ec _. split; [done|]. intros m' Em. rewrite Em in Ec. by injection Ec as <-.
Qed.
Next Obligation.
  intros reads_ writes d e d'. simpl. repeat case_match; intros [=]; subst; done.
Qed.
Next Obligation.
  intros reads_ writes d _ Hr%reads_hold_Forall. simpl in *. rewrite Hr. case_match; eauto.
Qed.

(** ** Properties *)

(** The merge operator registered with the engine is associative, as
    [set_merge_operator_associative] requires: operands may be folded together
    ahead of time, with or without the existing value, and the result is the
    same; a successful merge is the existing counter plus the sum of the
    operands, wrapped to 64 bits. *)
Theorem counter_merge_associative existing ops1 ops2 partial :
  counter_merge None ops2 = Some partial →
  counter_merge existing (ops1 ++ ops2) =
    (v ← counter_merge existing ops1; counter_merge (Some v) ops2) ∧
  counter_merge existing (ops1 ++ ops2) = counter_merge existing (ops1 ++ [partial]).
Proof.
  rewrite !counter_merge_value. simpl.
  destruct (merge_operands 0 ops2) as [t2|] eqn:E2; simpl; intros [= <-].
  assert (is_i64 t2) as Ht2 by (eapply merge_operands_range; [|exact E2]; width).
  assert (∀ t, is_i64 t → merge_operands t ops2 = Some (wrapping_add_i64 t t2)) as Hops.
  { intros t Ht. assert (t = wrapping_add_i64 t 0) as E0.
    { unfold wrapping_add_i64. by rewrite Z.add_0_r, as_i64_id. }
    rewrite E0 at 1. by rewrite merge_operands_shift, E2. }
  destruct (counter_value existing) as [c|] eqn:Ec; simpl; [|done].
  rewrite !merge_operands_app. destruct (merge_operands c ops1) as [t1|] eqn:E1; simpl; [|done].
  assert (is_i64 t1) as Ht1.
  { eapply merge_operands_range; [|exact E1]. by eapply counter_value_range. }
  rewrite counter_merge_value, counter_value_i64_le, length_i64_le, i64_of_le_wrap by done. simpl.
  by rewrite Hops, as_i64_id.
Qed.

Theorem counter_merge_associative_witness :
  let ops := [i64_le 5; i64_le (- 2)] in
  counter_merge None ops = Some (i64_le 3) ∧
  counter_merge (Some (i64_le 10)) ([i64_le 1] ++ ops) =
    (v ← counter_merge (Some (i64_le 10)) [i64_le 1]; counter_merge (Some v) ops) ∧
  counter_merge (Some (i64_le 10)) ([i64_le 1] ++ ops) =
    counter_merge (Some (i64_le 10)) ([i64_le 1] ++ [i64_le 3]).
Proof.
  intros ops. assert (counter_merge None ops = Some (i64_le 3)) as E by (vm_compute; reflexivity).
  split; [exact E|]. apply counter_merge_associative. exact E.
Defined.

(** C25. The RocksDB backend refines the store contract: over any engine with
    the documented behaviour, in the states where the device answers and no
    other thread writes, every operation of [impl Store for RocksdbStore] does
    to the logical contents exactly what [StoreSpec] states; in particular the
    scans that stop at the first foreign key visit exactly the rows of the
    prefix, in order. *)
Theorem rocksdb_refines_store DB `{EngineLaws DB} in_budget :
  ∃ X : @StoreSpec DB (rocks_store in_budget),
    (∀ d, @view DB _ X d = db_contents d) ∧
    (∀ d, @healthy DB _ X d ↔ db_ok d ∧ db_quiet d).
Proof. exists (rocks_store_spec in_budget). by split. Qed.

Theorem rocksdb_refines_store_witness :
  ∃ X : @StoreSpec MemDb (rocks_store (λ _, true)),
    (∀ d, @view MemDb _ X d = db_contents d) ∧
    (∀ d, @healthy MemDb _ X d ↔ db_ok d ∧ db_quiet d).
Proof. apply (rocksdb_refines_store MemDb (λ _, true)). Defined.

(** *** Transactions among other threads *)

Section interference.
Context {DB : Type} `{EngineLaws DB} (env : nat → nat → DB → DB) (in_budget : nat → bool).
Hypothesis env_ok : ∀ i j d, db_ok d → db_ok (env i j d).

Lemma read_asserts_ok i j asserts reads0 d r d' :
  db_ok d → read_asserts env i j asserts reads0 d = (r, d') → db_ok d'.
Proof.
  revert j reads0 d. induction asserts as [|a asserts IH]; intros j reads0 d Hd; simpl.
  { by intros [= <- <-]. }
  repeat case_match; intros; simplify_eq; eauto.
Qed.

Lemma commit_txn_err {T} reads_ writes (v : T) d e d' :
  db_ok d → commit_txn reads_ writes v d = (inl e, d') → db_ok d'.
Proof.
  intros Hd. unfold commit_txn. destruct (db_commit _ _ _) as [[e'|] d1] eqn:E; intros [= <- <-].
  by destruct (law_commit_err _ _ _ _ _ E Hd).
Qed.

Lemma conditional_body_err asserts ops i d e d' :
  db_ok d → conditional_body env asserts ops i d = (inl e, d') → db_ok d'.
Proof.
  intros Hd. unfold conditional_body.
  destruct (read_asserts _ _ _ _ _ _) as [r d1] eqn:E.
  apply read_asserts_ok in E; [|done].
  repeat case_match; intros; simplify_eq; eauto using commit_txn_err.
Qed.

Lemma add_counter_body_err key by_ i d e d' :
  db_ok d → add_counter_body env key by_ i d = (inl e, d') → db_ok d'.
Proof.
  intros Hd. unfold add_counter_body.
  repeat case_match; intros; simplify_eq; eauto using commit_txn_err.
Qed.

(** The state in which a committed conditional batch took effect. *)
Lemma conditional_body_true asserts ops i d d' :
  db_ok d → conditional_body env asserts ops i d = (inr true, d') →
  ∃ d_now reads_, db_ok d_now ∧ db_commit reads_ (txn_op <$> ops) d_now = (None, d') ∧
    Forall (λ a, db_contents d_now !! assert_key a = assert_expected a) asserts.
Proof.
  intros Hd. unfold conditional_body.
  destruct (read_asserts _ _ _ _ _ _) as [[|[reads_|]] d1] eqn:E; try done.
  pose proof (read_asserts_ok _ _ _ _ _ _ _ Hd E) as Hd1.
  apply read_asserts_some in E. simpl in E. subst reads_.
  destruct (stage_ops ops d1) as [|writes] eqn:Es; [done|]. apply stage_ops_inr in Es as ->.
  intros [_ Ec]%commit_txn_ok. eexists _, _. split_and!; [|exact Ec|]; [by apply env_ok|].
  destruct (law_commit _ _ _ _ Ec) as [Hr _]; [by apply env_ok|]. by rewrite Forall_fmap in Hr.
Qed.

Lemma conditional_body_false asserts ops i d d' :
  db_ok d → conditional_body env asserts ops i d = (inr false, d') →
  ¬ Forall (λ a, db_contents d' !! assert_key a = assert_expected a) asserts.
Proof.
  intros Hd. unfold conditional_body.
  destruct (read_asserts _ _ _ _ _ _) as [[|[reads_|]] d1] eqn:E; try done.
  - repeat case_match; try done. by intros [? _]%commit_txn_ok.
  - intros [= <-]. apply read_asserts_none in E as [_ E]; [|done..]. intros Hall.
    assert (forallb (assert_holds (db_contents d1)) asserts = true); [|congruence].
    apply forallb_forall. intros a Ha%list_elem_of_In. rewrite Forall_forall in Hall.
    by apply bool_decide_eq_true, Hall.
Qed.

(** A conditional batch is an atomic compare-and-swap, whatever other
    threads do in between.  When it returns [true] there was one state of the
    engine, the one its commit applied to, in which every assertion held, and
    the state left is that state with the operations applied.  When it
    returns [false] it has written nothing and some assertion is false in
    the state it returned in. *)
Theorem batch_conditional_atomic asserts ops d b d' :
  db_ok d → asserts ≠ [] →
  apply_batch_conditional env in_budget asserts ops d = (Ok b, d') →
  if b then
    ∃ d_now reads_, db_commit reads_ (txn_op <$> ops) d_now = (None, d') ∧
      Forall (λ a, db_contents d_now !! assert_key a = assert_expected a) asserts ∧
      ∀ m', apply_ops (db_contents d_now) ops = Some m' → db_contents d' = m'
  else ¬ Forall (λ a, db_contents d' !! assert_key a = assert_expected a) asserts.
Proof.
  intros Hd Hne. destruct asserts as [|a asserts]; [done|]. unfold apply_batch_conditional, with_retry.
  intros (j & dj & Hdj & Ec)%(retry_loop_ok _ _ db_ok); [|by eauto using conditional_body_err|done].
  destruct b; [|by eapply conditional_body_false].
  apply conditional_body_true in Ec as (d_now & reads_ & Hok & Ec & Hall); [|done].
  exists d_now, reads_. split_and!; [done|done|]. intros m' Hm. rewrite <-apply_txn_ops in Hm.
  by apply (proj2 (law_commit _ _ _ _ Ec Hok)).
Qed.

(** No lost update: a counter increment that returns [n] took effect on
    one state of the engine; [n] is the counter found there plus the
    increment, wrapped to 64 bits, and the state left is that state with
    [n] stored.  Concurrent increments are therefore never overwritten. *)
Theorem add_counter_atomic key by_ d n d' :
  db_ok d → add_counter env in_budget key by_ d = (Ok n, d') →
  ∃ d_now reads_ c, db_commit reads_ [TPut key (i64_le n)] d_now = (None, d') ∧
    counter_value (db_contents d_now !! key) = Some c ∧ n = wrapping_add_i64 c by_ ∧
    db_contents d' = <[key := i64_le n]> (db_contents d_now).
Proof.
  intros Hd. unfold add_counter, with_retry.
  intros (j & dj & Hdj & Ec)%(retry_loop_ok _ _ db_ok); [|by eauto using add_counter_body_err|done].
  revert Ec. unfold add_counter_body, cf_of.
  destruct (subspace_of key) as [sub|] eqn:Es; [|done]. rewrite law_cf, law_get by auto.
  set (cell := db_contents (env j 0 dj) !! key).
  destruct (match cell with Some b => decode_counter b | None => Ok 0 end) as [c|] eqn:Ecell; [|done].
  rewrite law_stage by auto. intros [-> Ec]%commit_txn_ok. assert (db_ok (env j 1 (env j 0 dj))) as Hok by auto.
  destruct (law_commit _ _ _ _ Ec Hok) as [Hr Hm].
  apply Forall_cons in Hr as [Hr _]. simpl in Hr.
  eexists _, _, c. split_and!; [exact Ec| |done|by apply Hm]. rewrite Hr.
  unfold decode_counter in Ecell. destruct cell; simpl; [|congruence]. case_match; congruence.
Qed.
End interference.

(** Another thread bumps the counter between the read and the commit of the
    first attempt. *)
Definition racing_key : bytes := key_encode (key_new Counter 1 Email 0).
Definition racing_env (i j : nat) (d : MemDb) : MemDb :=
  match i, j with
  | O, Datatypes.S O => mkDb (<[racing_key := i64_le 41]> (memdb_map d))
  | _, _ => d
  end.

Lemma memdb_ok (d : MemDb) : db_ok d.
Proof. exact I. Qed.

Lemma racing_env_ok i j d : db_ok d → db_ok (racing_env i j d).
Proof. intros _. apply memdb_ok. Qed.

Theorem batch_conditional_atomic_witness :
  let asserts := [mkAssert racing_key (Some (i64_le 41))] in
  let ops := [WAdd racing_key 1] in
  let d := mkDb {[ racing_key := i64_le 41 ]} in
  ∃ d', apply_batch_conditional racing_env (λ _, true) asserts ops d = (Ok true, d') ∧
  ∃ d_now reads_, db_commit reads_ (txn_op <$> ops) d_now = (None, d') ∧
    Forall (λ a, db_contents d_now !! assert_key a = assert_expected a) asserts ∧
    ∀ m', apply_ops (db_contents d_now) ops = Some m' → db_contents d' = m'.
Proof.
  intros asserts ops d. eexists. split; [vm_compute; reflexivity|].
  eapply (batch_conditional_atomic racing_env (λ _, true) racing_env_ok asserts ops d true);
    [apply memdb_ok|discriminate|vm_compute; reflexivity].
Defined.

Theorem add_counter_atomic_witness :
  ∃ d', add_counter racing_env (λ _, true) racing_key 1 (mkDb ∅) = (Ok 42, d') ∧
  ∃ d_now reads_ c, db_commit reads_ [TPut racing_key (i64_le 42)] d_now = (None, d') ∧
    counter_value (db_contents d_now !! racing_key) = Some c ∧ 42 = wrapping_add_i64 c 1 ∧
    db_contents d' = <[racing_key := i64_le 42]> (db_contents d_now).
Proof.
  eexists. split; [vm_compute; reflexivity|].
  eapply (add_counter_atomic racing_env (λ _, true) racing_env_ok racing_key 1 (mkDb ∅));
    [apply memdb_ok|vm_compute; reflexivity].
Defined.

(** Bounded retries: [with_retry] absorbs up to sixteen recoverable
    conflicts inside its time budget and returns the first success; the
    seventeenth conflict in a row is reported as an error and no further
    attempt is made. *)
Theorem with_retry_bounded {DB T} `{Engine DB} in_budget
    (commit : nat → DB → (CommitError + T) * DB) n ds :
  failing in_budget commit n ds →
  (n ≤ COMMIT_RETRY_LIMIT → ∀ v d', commit n (ds n) = (inr v, d') →
     with_retry in_budget commit (ds O) = (Ok v, d'))%nat ∧
  (n = COMMIT_RETRY_LIMIT + 1 →
     with_retry in_budget commit (ds O) = (Err (StoreError "rocksdb write failed"), ds n))%nat.
Proof.
  intros Hf. unfold with_retry. split.
  - intros Hn v d' E. rewrite (retry_loop_skip _ _ n) by (done || lia).
    destruct (_ + 0 - n)%nat; simpl; by rewrite E.
  - intros ->. assert (failing in_budget commit COMMIT_RETRY_LIMIT ds) as Hf'.
    { intros i Hi. apply Hf. lia. }
    rewrite (retry_loop_skip _ _ COMMIT_RETRY_LIMIT) by (done || lia).
    destruct (Hf COMMIT_RETRY_LIMIT) as (e & E & Hr & Hb); [lia|].
    replace (COMMIT_RETRY_LIMIT + 0 - COMMIT_RETRY_LIMIT)%nat with O by lia.
    cbn [retry_loop]. rewrite E, Nat.ltb_irrefl, andb_false_r. done.
Qed.

Theorem with_retry_bounded_witness :
  let commit := λ (i : nat) (d : MemDb),
    if (i <? 2)%nat then (inl (RocksDb busy), d) else (inr i, d) in
  let ds := λ _ : nat, mkDb ∅ in
  failing (λ _, true) commit 2 ds ∧
  ((2 ≤ COMMIT_RETRY_LIMIT → ∀ v d', commit 2 (ds 2) = (inr v, d') →
      with_retry (λ _, true) commit (ds O) = (Ok v, d'))%nat ∧
   (2 = COMMIT_RETRY_LIMIT + 1 →
      with_retry (λ _, true) commit (ds O) = (Err (StoreError "rocksdb write failed"), ds 2))%nat).
Proof.
  intros commit ds. assert (failing (λ _, true) commit 2 ds) as Hf.
  { intros i Hi. exists busy. unfold commit. rewrite (proj2 (Nat.ltb_lt i 2) Hi). repeat split. }
  split; [exact Hf|]. apply (with_retry_bounded (λ _, true) commit 2 ds Hf).
Defined.
