(* ===== verification/ChangeLog.v ===== *)
(** * The change log (crates/store/src/changelog.rs)

    Every mutation of a collection appends an entry under an increasing change
    id; clients catch up with [changes_since].  The log of a collection is the
    part of the store under one [KeyPrefix]; a counter allocates the ids and a
    floor remembers how far [prune] has cut.  The operations are written
    against the class [Store] and verified against [StoreSpec]. *)

From S2P Require Import Prelude Bytes Key Store.
From stdpp Require Import base gmap list strings sorting relations.
From Stdlib Require Import ZArith Lia.

Open Scope Z_scope.

Inductive ChangeKind : Type := Insert | Update | Delete.

#[global] Instance ChangeKind_eq_dec : EqDecision ChangeKind.
Proof. solve_decision. Defined.

(** [ChangeKind::as_byte] and [ChangeKind::from_byte]. *)
Definition kind_as_byte (k : ChangeKind) : Z :=
  match k with Insert => 0 | Update => 1 | Delete => 2 end.
Definition kind_from_byte (b : Z) : option ChangeKind :=
  match b with 0 => Some Insert | 1 => Some Update | 2 => Some Delete | _ => None end.

Record ChangeLogEntry : Type := mkEntry {
  change_id : Z;
  document_id : Z;
  kind : ChangeKind;
}.

#[global] Instance ChangeLogEntry_eq_dec : EqDecision ChangeLogEntry.
Proof. solve_decision. Defined.

(** [ChangeLogEntry::encode_value]. *)
Definition encode_value (e : ChangeLogEntry) : bytes :=
  u32_be (document_id e) ++ [kind_as_byte (kind e)].

(** [ChangeLogEntry::decode]. *)
Definition entry_decode (id : Z) (value : bytes) : result ChangeLogEntry :=
  if negb (length value =? 5)%nat
  then Err (StoreError "change-log entry has the wrong length")
  else
    let document_id := of_be_bytes (take 4 value) in
    match kind_from_byte (nth 4 value 0) with
    | Some k => Ok (mkEntry id document_id k)
    | None => Err (StoreError "change-log entry has an unknown change kind")
    end.

Record VanishedEntry : Type := mkVanished {
  vanished_change_id : Z;
  vanished_mailbox_id : Z;
  vanished_uid : Z;
}.

(** ** Keys *)

Definition CHANGE_ID_LEN : nat := 8.
Definition CHANGELOG_DOCUMENT_ID : Z := 0.
Definition FIRST_CHANGE_ID : Z := 1.
Definition ENTRY_KEY_LEN : nat := 18.

Definition counter_key (account_id : Z) (c : Collection) : bytes :=
  key_encode (key_new Counter account_id c CHANGELOG_DOCUMENT_ID).

Definition floor_key (account_id : Z) (c : Collection) : bytes :=
  key_encode (with_suffix (key_new Counter account_id c CHANGELOG_DOCUMENT_ID)
    (bs "changelog-floor")).

Definition entry_key (account_id : Z) (c : Collection) (id : Z) : bytes :=
  key_encode (with_suffix (key_new Key.ChangeLog account_id c CHANGELOG_DOCUMENT_ID) (u64_be id)).

(** [change_id_of]: the last eight bytes. *)
Definition change_id_of (key : bytes) : result Z :=
  if (length key <? CHANGE_ID_LEN)%nat
  then Err (StoreError "change-log key is too short to carry a change id")
  else Ok (of_be_bytes (drop (length key - CHANGE_ID_LEN) key)).

(** [partition_of]: the account and collection of an entry key. *)
Definition partition_of (key : bytes) : option (Z * Collection) :=
  if negb (length key =? ENTRY_KEY_LEN)%nat then None
  else
    c ← collection_from_byte (nth 5 key 0);
    Some (of_be_bytes (take 4 (drop 1 key)), c).

(** ** Operations *)

Section operations.
Context {S : Type} `{Store S}.

(** [allocate_change_id]. *)
Definition allocate_change_id (account_id : Z) (c : Collection) : M S Z :=
  next ← st_add_and_get (counter_key account_id c) 1;
  mret (as_u64 (Z.max next FIRST_CHANGE_ID)).

(** [ChangeLog::record]. *)
Definition record (account_id : Z) (c : Collection) (doc : Z) (k : ChangeKind) : M S Z :=
  id ← allocate_change_id account_id c;
  _ ← st_put (entry_key account_id c id) (encode_value (mkEntry id doc k));
  mret id.

(** [ChangeLog::record_op]: the id now, the write left to the caller's batch. *)
Definition record_op (account_id : Z) (c : Collection) (doc : Z) (k : ChangeKind)
  : M S (Z * WriteOp) :=
  id ← allocate_change_id account_id c;
  mret (id, WSet (entry_key account_id c id) (encode_value (mkEntry id doc k))).

(** [ChangeLog::record_vanished_op]: ids from the Email sequence. *)
Definition record_vanished_op (account_id mailbox_id uid : Z) : M S (Z * WriteOp) :=
  id ← allocate_change_id account_id Email;
  mret (id, WSet (entry_key account_id EmailVanished id) (u32_be mailbox_id ++ u32_be uid)).

(** [ChangeLog::vanished_since]. *)
Definition vanished_visit (since : Z) (acc : list VanishedEntry * option Error)
    (key value : bytes) : result (list VanishedEntry * option Error * Flow) :=
  let '(entries, scan_error) := acc in
  if negb (length key =? ENTRY_KEY_LEN)%nat then Ok (acc, Continue)
  else match change_id_of key with
       | Err e => Ok ((entries, Some e), Stop)
       | Ok id =>
           if id <=? since then Ok (acc, Continue)
           else if negb (length value =? 8)%nat
           then Ok ((entries, Some (StoreError "vanished entry value is malformed")), Stop)
           else
             let e := mkVanished id (of_be_bytes (take 4 value)) (of_be_bytes (drop 4 value)) in
             Ok ((entries ++ [e], scan_error), Continue)
       end.

Definition vanished_since (account_id since : Z) (s : S) : result (list VanishedEntry) :=
  match checked_add_u64 since 1 with
  | None => Ok []
  | Some first =>
      let prefix := kp_collection Key.ChangeLog account_id EmailVanished in
      acc ← st_iterate_from prefix (entry_key account_id EmailVanished first)
              (vanished_visit since) ([], None) s;
      match acc with
      | (_, Some e) => Err e
      | (entries, None) => Ok entries
      end
  end.

(** [ChangeLog::changes_page].  The closure's captured variables are the
    entries so far, [has_more] and [scan_error]. *)
Record page_acc : Type := mkAcc {
  acc_entries : list ChangeLogEntry;
  acc_has_more : bool;
  acc_error : option Error;
}.

Definition page_visit (since max : Z) (acc : page_acc) (key value : bytes)
  : result (page_acc * Flow) :=
  if negb (length key =? ENTRY_KEY_LEN)%nat then Ok (acc, Continue)
  else match change_id_of key with
       | Err e => Ok (mkAcc (acc_entries acc) (acc_has_more acc) (Some e), Stop)
       | Ok id =>
           if id <=? since then Ok (acc, Continue)
           else if Z.of_nat (length (acc_entries acc)) =? max
           then Ok (mkAcc (acc_entries acc) true (acc_error acc), Stop)
           else match entry_decode id value with
                | Ok e => Ok (mkAcc (acc_entries acc ++ [e]) (acc_has_more acc) (acc_error acc), Continue)
                | Err e => Ok (mkAcc (acc_entries acc) (acc_has_more acc) (Some e), Stop)
                end
       end.

Definition changes_page (account_id : Z) (c : Collection) (since max : Z) (s : S)
  : result (list ChangeLogEntry * bool) :=
  match checked_add_u64 since 1 with
  | None => Ok ([], false)
  | Some first =>
      if max =? 0 then Ok ([], true)
      else
        let prefix := kp_collection Key.ChangeLog account_id c in
        acc ← st_iterate_from prefix (entry_key account_id c first)
                (page_visit since max) (mkAcc [] false None) s;
        match acc_error acc with
        | Some e => Err e
        | None => Ok (acc_entries acc, acc_has_more acc)
        end
  end.

(** [ChangeLog::changes_since]: a page without a limit. *)
Definition changes_since (account_id : Z) (c : Collection) (since : Z) (s : S)
  : result (list ChangeLogEntry) :=
  page ← changes_page account_id c since U64_MAX s; Ok page.1.

(** [ChangeLog::latest_change_id]. *)
Definition latest_change_id (account_id : Z) (c : Collection) (s : S) : result Z :=
  n ← st_counter (counter_key account_id c) s; Ok (as_u64 (Z.max n 0)).

(** [ChangeLog::floor]: an absent or malformed floor is zero. *)
Definition floor (account_id : Z) (c : Collection) (s : S) : result Z :=
  v ← st_get (floor_key account_id c) s;
  Ok match v with
     | Some b => if (length b =? 8)%nat then of_be_bytes b else 0
     | None => 0
     end.

(** [ChangeLog::can_calculate]. *)
Definition can_calculate (account_id : Z) (c : Collection) (since : Z) (s : S) : result bool :=
  f ← floor account_id c s; Ok (f <=? since).

(** [ChangeLog::prune]. *)
Definition prune_visit (cutoff : Z) (acc : list WriteOp * option Error) (key value : bytes)
  : result (list WriteOp * option Error * Flow) :=
  let '(ops, scan_error) := acc in
  if negb (length key =? ENTRY_KEY_LEN)%nat then Ok (acc, Continue)
  else match change_id_of key with
       | Ok id => if id <=? cutoff then Ok ((ops ++ [WDelete key], scan_error), Continue)
                  else Ok (acc, Stop)
       | Err e => Ok ((ops, Some e), Stop)
       end.

Definition counter_source (c : Collection) : Collection :=
  match c with EmailVanished => Email | other => other end.

Definition prune (account_id : Z) (c : Collection) (keep_last : Z) : M S nat :=
  let keep_last := Z.max keep_last 1 in
  latest ← reads (latest_change_id account_id (counter_source c));
  let cutoff := saturating_sub latest keep_last in
  if cutoff =? 0 then mret 0%nat
  else
    acc ← reads (st_iterate (kp_collection Key.ChangeLog account_id c)
                   (prune_visit cutoff) ([], None));
    match acc with
    | (_, Some e) => throw e
    | (ops, None) =>
        match ops with
        | [] => mret 0%nat
        | _ =>
            f ← reads (floor account_id c);
            _ ← st_batch (ops ++ [WSet (floor_key account_id c) (u64_be (Z.max f cutoff))]);
            mret (length ops)
        end
    end.

(** [prune_change_logs]: find the partitions, prune each. *)
Definition partitions_visit (acc : list (Z * Collection) * option (Z * Collection))
    (key value : bytes) : result (list (Z * Collection) * option (Z * Collection) * Flow) :=
  let '(partitions, current) := acc in
  match partition_of key with
  | Some p => if bool_decide (current = Some p) then Ok (acc, Continue)
              else Ok ((partitions ++ [p], Some p), Continue)
  | None => Ok (acc, Continue)
  end.

Fixpoint prune_partitions (ps : list (Z * Collection)) (keep_last : Z) (pruned : nat) : M S nat :=
  match ps with
  | [] => mret pruned
  | (a, c) :: ps => n ← prune a c keep_last; prune_partitions ps keep_last (pruned + n)
  end.

Definition prune_change_logs (keep_last : Z) : M S nat :=
  acc ← reads (st_iterate (kp_subspace Key.ChangeLog) partitions_visit ([], None));
  prune_partitions acc.1 keep_last 0.
End operations.

(** ** Encodings *)

Definition entry_wf (e : ChangeLogEntry) : Prop := is_u64 (change_id e) ∧ is_u32 (document_id e).

Lemma kind_from_as_byte k : kind_from_byte (kind_as_byte k) = Some k.
Proof. by destruct k. Qed.

Lemma entry_decode_encode e :
  is_u32 (document_id e) → entry_decode (change_id e) (encode_value e) = Ok e.
Proof.
  intros Hd. unfold entry_decode, encode_value.
  rewrite length_app, length_u32_be. simpl.
  rewrite take_app_length' by (by rewrite length_u32_be).
  rewrite app_nth2, length_u32_be by (rewrite length_u32_be; lia). simpl.
  rewrite kind_from_as_byte, of_be_bytes_u32 by done. by destruct e.
Qed.

Lemma encode_value_inj e1 e2 :
  is_u32 (document_id e1) → is_u32 (document_id e2) → change_id e1 = change_id e2 →
  encode_value e1 = encode_value e2 → e1 = e2.
Proof.
  intros H1 H2 Hid E. apply (f_equal (entry_decode (change_id e1))) in E.
  rewrite entry_decode_encode, Hid, entry_decode_encode in E by done. congruence.
Qed.

Lemma length_entry_key a c id : length (entry_key a c id) = ENTRY_KEY_LEN.
Proof. unfold entry_key. rewrite length_key_encode. simpl. by rewrite length_u64_be. Qed.

(** The partition's prefix followed by the document and the change id. *)
Lemma entry_key_split a c id :
  entry_key a c id = prefix_encode (kp_collection Key.ChangeLog a c) ++
    u32_be CHANGELOG_DOCUMENT_ID ++ u64_be id.
Proof.
  unfold entry_key, key_encode, prefix_encode, kp_collection, with_suffix, key_new. simpl.
  rewrite <-!app_assoc. done.
Qed.

Lemma entry_key_prefix a c id :
  prefix_encode (kp_collection Key.ChangeLog a c) `prefix_of` entry_key a c id.
Proof. rewrite entry_key_split. by eexists. Qed.

Lemma entry_key_cmp a c i j :
  is_u64 i → is_u64 j → bytes_cmp (entry_key a c i) (entry_key a c j) = (i ?= j).
Proof.
  intros. rewrite !entry_key_split, !bytes_cmp_app. by apply u64_be_cmp.
Qed.

Lemma entry_key_le a c i j :
  is_u64 i → is_u64 j → bytes_le (entry_key a c i) (entry_key a c j) ↔ i ≤ j.
Proof. intros. unfold bytes_le. by rewrite entry_key_cmp. Qed.

Lemma entry_key_lt a c i j :
  is_u64 i → is_u64 j → bytes_lt (entry_key a c i) (entry_key a c j) ↔ i < j.
Proof. intros. unfold bytes_lt. by rewrite entry_key_cmp. Qed.

Lemma entry_key_inj a c i j : is_u64 i → is_u64 j → entry_key a c i = entry_key a c j → i = j.
Proof.
  intros Hi Hj E. apply bytes_cmp_eq in E. rewrite entry_key_cmp in E by done.
  by apply Z.compare_eq_iff.
Qed.

Lemma change_id_of_entry_key a c id : is_u64 id → change_id_of (entry_key a c id) = Ok id.
Proof.
  intros Hid. unfold change_id_of. rewrite length_entry_key.
  change (ENTRY_KEY_LEN <? CHANGE_ID_LEN)%nat with false. cbv iota.
  rewrite entry_key_split, app_assoc.
  rewrite drop_app_length'; [by rewrite of_be_bytes_u64|].
  rewrite length_app, length_u32_be. unfold prefix_encode. simpl.
  rewrite length_app, length_u32_be. done.
Qed.

(** The three families of keys never meet. *)
Lemma counter_key_not_entry a c a' c' id : counter_key a c ≠ entry_key a' c' id.
Proof. intros E. apply (f_equal (λ l, nth 0 l 0)) in E. discriminate E. Qed.

Lemma floor_key_not_entry a c a' c' id : floor_key a c ≠ entry_key a' c' id.
Proof. intros E. apply (f_equal (λ l, nth 0 l 0)) in E. discriminate E. Qed.

Lemma floor_key_not_counter a c a' c' : floor_key a c ≠ counter_key a' c'.
Proof.
  intros E. apply (f_equal length) in E. unfold floor_key, counter_key in E.
  by rewrite !length_key_encode in E.
Qed.

Lemma floor_counter_not_in_log a c key :
  key = floor_key a c ∨ key = counter_key a c →
  ¬ prefix_encode (kp_collection Key.ChangeLog a c) `prefix_of` key.
Proof.
  intros [-> | ->] H; unfold floor_key, counter_key, key_encode, prefix_encode in H; simpl in H;
    by apply prefix_cons_inv_1 in H.
Qed.

(** ** A partition as a sorted list of entries *)

Abbreviation log_prefix a c := (prefix_encode (kp_collection Key.ChangeLog a c)).

Definition row_of (a : Z) (c : Collection) (e : ChangeLogEntry) : row :=
  (entry_key a c (change_id e), encode_value e).

(** [e] is in the log. *)
Definition recorded (m : contents) (a : Z) (c : Collection) (e : ChangeLogEntry) : Prop :=
  entry_wf e ∧ m !! entry_key a c (change_id e) = Some (encode_value e).

(** Nothing but entries lives under the prefix of a partition. *)
Definition log_wf (m : contents) (a : Z) (c : Collection) : Prop :=
  ∀ k v, m !! k = Some v → log_prefix a c `prefix_of` k → ∃ e, entry_wf e ∧ (k, v) = row_of a c e.

Definition entries_sorted : list ChangeLogEntry → Prop :=
  StronglySorted (λ e1 e2, change_id e1 < change_id e2).

Lemma recorded_unique m a c e1 e2 :
  recorded m a c e1 → recorded m a c e2 → change_id e1 = change_id e2 → e1 = e2.
Proof.
  intros [[? ?] E1] [[? ?] E2] Hid. rewrite Hid in E1. apply encode_value_inj; congruence.
Qed.

(** The rows of a scan of a well-formed partition are its entries, by id. *)
Lemma log_rows m a c start :
  log_wf m a c →
  ∃ es, rows_from m (log_prefix a c) start = row_of a c <$> es ∧ entries_sorted es ∧
    ∀ e, e ∈ es ↔ recorded m a c e ∧ bytes_le start (entry_key a c (change_id e)).
Proof.
  intros Hwf.
  assert (∃ es, rows_from m (log_prefix a c) start = row_of a c <$> es ∧ Forall entry_wf es)
    as (es & Ees & Hes).
  { assert (Forall (λ r, ∃ e, entry_wf e ∧ r = row_of a c e) (rows_from m (log_prefix a c) start)) as Hall.
    { apply Forall_forall. intros [k v] (Hk & Hp & _)%elem_of_rows_from. by apply Hwf. }
    induction Hall as [|r rs (e & He & ->) _ (es & -> & Hes)]; [by exists []|].
    exists (e :: es). split; [done|by constructor]. }
  exists es. split_and!; [done| |].
  - pose proof (rows_from_sorted m (log_prefix a c) start) as Hs. rewrite Ees in Hs. clear Ees Hwf.
    induction Hes as [|e es He Hes IH]; [constructor|]. rewrite fmap_cons in Hs.
    apply StronglySorted_inv in Hs as [Hs Hlt]. constructor; [by apply IH|].
    apply Forall_forall. rewrite Forall_forall in Hes. rewrite Forall_forall in Hlt. intros e' He'.
    apply (entry_key_lt a c); [apply He|by apply (Hes e')|].
    apply (Hlt (row_of a c e')). by apply list_elem_of_fmap_2.
  - intros e. split.
    + intros He. assert (row_of a c e ∈ rows_from m (log_prefix a c) start) as Hr.
      { rewrite Ees. by apply list_elem_of_fmap_2. }
      unfold row_of in Hr. apply elem_of_rows_from in Hr as (Hk & _ & Hle).
      rewrite Forall_forall in Hes. split; [split; [by apply Hes|done]|done].
    + intros [[Hwe Hk] Hle]. assert (row_of a c e ∈ rows_from m (log_prefix a c) start) as Hr.
      { apply elem_of_rows_from. split_and!; [done|apply entry_key_prefix|done]. }
      rewrite Ees in Hr. apply list_elem_of_fmap_1 in Hr as (e' & E & He').
      pose proof (f_equal fst E) as Ek. pose proof (f_equal snd E) as Ev.
      rewrite Forall_forall in Hes. destruct (Hes e' He') as [? ?]. destruct Hwe as [? ?].
      assert (e = e') as ->; [|done].
      apply encode_value_inj; [done|done| |exact Ev].
      by apply (entry_key_inj a c) in Ek.
Qed.

Lemma log_rows_after m a c first :
  log_wf m a c → is_u64 first →
  ∃ es, rows_from m (log_prefix a c) (entry_key a c first) = row_of a c <$> es ∧
    entries_sorted es ∧ ∀ e, e ∈ es ↔ recorded m a c e ∧ first ≤ change_id e.
Proof.
  intros Hwf Hf. destruct (log_rows m a c (entry_key a c first) Hwf) as (es & ? & ? & Hin).
  exists es. split_and!; [done|done|]. intros e. rewrite Hin.
  split; intros [He Hle]; (split; [done|]); by apply entry_key_le in Hle || apply entry_key_le;
    first [apply He|done].
Qed.

Lemma log_rows_all m a c :
  log_wf m a c →
  ∃ es, rows_from m (log_prefix a c) (log_prefix a c) = row_of a c <$> es ∧
    entries_sorted es ∧ ∀ e, e ∈ es ↔ recorded m a c e.
Proof.
  intros Hwf. destruct (log_rows m a c (log_prefix a c) Hwf) as (es & ? & ? & Hin).
  exists es. split_and!; [done|done|]. intros e. rewrite Hin. split; [tauto|]. intros. split; [done|].
  apply prefix_bytes_le, entry_key_prefix.
Qed.

Lemma recorded_after_rows m a c es first :
  (∀ e, e ∈ es ↔ recorded m a c e ∧ first ≤ change_id e) → Forall entry_wf es.
Proof. intros Hin. apply Forall_forall. intros e [[? _] _]%Hin. done. Qed.

(** ** Scans over a partition *)

(** What [page_visit] does to the rows of well-formed entries after [since]. *)
Lemma scan_page a c since max es acc :
  Forall entry_wf es → Forall (λ e, since < change_id e) es →
  Z.of_nat (length acc) ≤ max →
  scan (page_visit since max) (row_of a c <$> es) (mkAcc acc false None) =
    Ok (mkAcc (acc ++ take (Z.to_nat (max - Z.of_nat (length acc))) es)
              (max <? Z.of_nat (length acc + length es)) None).
Proof.
  intros Hwf. revert acc. induction Hwf as [|e es [He Hd] _ IH]; intros acc Hafter Hmax.
  { simpl. rewrite take_nil, app_nil_r. do 2 f_equal. symmetry. apply Z.ltb_ge. lia. }
  apply Forall_cons in Hafter as [Hlt Hafter]. rewrite fmap_cons. cbn [scan row_of].
  unfold page_visit at 1. rewrite length_entry_key, change_id_of_entry_key by done. simpl negb. cbv iota.
  rewrite (proj2 (Z.leb_gt _ _)) by lia. cbn [acc_entries acc_has_more acc_error].
  destruct (Z.eqb_spec (Z.of_nat (length acc)) max) as [Emax|Hne].
  - rewrite Emax, Z.sub_diag. simpl. rewrite app_nil_r. do 2 f_equal. symmetry.
    apply Z.ltb_lt. lia.
  - rewrite entry_decode_encode by done. rewrite IH; [|done|rewrite length_app; simpl; lia].
    rewrite length_app. simpl length. rewrite <-app_assoc. f_equal. f_equal.
    + f_equal. destruct (Z.to_nat (max - Z.of_nat (length acc))) as [|n] eqn:En; [lia|].
      simpl. do 2 f_equal. lia.
    + f_equal. lia.
Qed.

(** [prune_visit] collects exactly the keys up to the cutoff. *)
Lemma scan_prune a c cutoff es ops :
  Forall entry_wf es → entries_sorted es →
  scan (prune_visit cutoff) (row_of a c <$> es) (ops, None) =
    Ok (ops ++ ((λ e, WDelete (entry_key a c (change_id e))) <$>
                  filter (λ e, change_id e ≤ cutoff) es), None).
Proof.
  intros Hwf. revert ops. induction Hwf as [|e es [He Hd] _ IH]; intros ops Hs.
  { simpl. by rewrite app_nil_r. }
  apply StronglySorted_inv in Hs as [Hs Hlt]. rewrite fmap_cons. cbn [scan row_of].
  unfold prune_visit at 1. rewrite length_entry_key, change_id_of_entry_key by done. simpl negb. cbv iota.
  rewrite filter_cons. destruct (Z.leb_spec (change_id e) cutoff).
  - rewrite IH by done. rewrite decide_True by done. by rewrite <-app_assoc.
  - rewrite decide_False by lia. rewrite filter_none; [by rewrite app_nil_r|].
    eapply Forall_impl; [exact Hlt|]. simpl. lia.
Qed.

(** A sorted list of ids in an interval is no longer than the interval. *)
Lemma entries_sorted_length es lo hi :
  entries_sorted es → Forall (λ e, lo < change_id e < hi) es → lo < hi →
  Z.of_nat (length es) < hi - lo.
Proof.
  intros Hs. revert lo. induction Hs as [|e es Hs IH Hlt]; intros lo Hb Hlh; simpl; [lia|].
  apply Forall_cons in Hb as [He Hb].
  assert (Z.of_nat (length es) < hi - change_id e); [|lia].
  apply IH; [|lia]. rewrite Forall_forall in *. intros e' He'. split; [by apply Hlt|by apply Hb].
Qed.

Lemma entries_sorted_NoDup l : entries_sorted l → NoDup l.
Proof.
  induction 1 as [|e l _ IH He]; constructor; [|done]. rewrite Forall_forall in He.
  intros ?%He. lia.
Qed.

Lemma entries_sorted_unique l1 l2 :
  entries_sorted l1 → entries_sorted l2 → (∀ e, e ∈ l1 ↔ e ∈ l2) → l1 = l2.
Proof.
  intros H1 H2 E. apply (StronglySorted_unique_strong (λ e1 e2, change_id e1 < change_id e2)); [|done..|].
  - intros. lia.
  - apply NoDup_Permutation; [by apply entries_sorted_NoDup..|done].
Qed.

(** What lies after an element of a sorted list. *)
Lemma entries_sorted_after pre e post e' :
  entries_sorted ((pre ++ [e]) ++ post) →
  e' ∈ (pre ++ [e]) ++ post ∧ change_id e < change_id e' ↔ e' ∈ post.
Proof.
  intros Hs. rewrite elem_of_app. split.
  - intros [[Hp|?] Hlt]; [exfalso|done]. apply elem_of_app in Hp as [Hp|Hp%list_elem_of_singleton].
    + apply StronglySorted_app_1_l in Hs. eapply StronglySorted_app_1_elem_of in Hs; [|done|left; done]. lia.
    + subst. lia.
  - intros Hp. split; [by right|].
    eapply StronglySorted_app_1_elem_of in Hs; [exact Hs| |done]. set_solver.
Qed.

(** ** The operations on the logical contents *)

Definition counter_at (m : contents) (a : Z) (c : Collection) (n : Z) : Prop :=
  counter_value (m !! counter_key a c) = Some n.

Definition floor_value (m : contents) (a : Z) (c : Collection) : Z :=
  match m !! floor_key a c with
  | Some b => if (length b =? 8)%nat then of_be_bytes b else 0
  | None => 0
  end.

Lemma counter_key_mergeable a c : mergeable (counter_key a c).
Proof. apply mergeable_key_encode. by left. Qed.
Lemma floor_key_known a c : known (floor_key a c).
Proof. apply known_key_encode. Qed.
Lemma entry_key_known a c id : known (entry_key a c id).
Proof. apply known_key_encode. Qed.

#[global] Hint Resolve counter_key_mergeable floor_key_known entry_key_known : keys.

Section spec.
Context {S : Type} `{StoreSpec S}.
Implicit Types s : S.

Lemma latest_spec a c s n :
  healthy s → counter_at (view s) a c n → 0 ≤ n → latest_change_id a c s = Ok n.
Proof.
  intros Hs Hc Hn. unfold latest_change_id. erewrite counter_spec by eauto with keys. simpl.
  apply counter_value_range in Hc. rewrite Z.max_l by lia. f_equal. apply Z.mod_small. width.
Qed.

Lemma floor_spec a c s : healthy s → floor a c s = Ok (floor_value (view s) a c).
Proof. intros Hs. unfold floor. by rewrite get_spec by auto with keys. Qed.

Lemma can_calculate_spec a c since s :
  healthy s → can_calculate a c since s = Ok (floor_value (view s) a c <=? since).
Proof. intros Hs. unfold can_calculate. by rewrite floor_spec. Qed.

Lemma allocate_spec a c s n :
  healthy s → counter_at (view s) a c n → 0 ≤ n < I64_MAX →
  ∃ s', allocate_change_id a c s = (Ok (n + 1), s') ∧ healthy s' ∧
        view s' = <[counter_key a c := i64_le (n + 1)]> (view s).
Proof.
  intros Hs Hc Hn. destruct (add_and_get_spec (counter_key a c) 1 s n) as (s' & E & Hs' & Hv);
    [done|auto with keys|done|].
  exists s'. unfold allocate_change_id, mbind, M_bind. rewrite E.
  assert (wrapping_add_i64 n 1 = n + 1) as Ew by (apply wrapping_add_i64_id; width).
  rewrite Ew in *. split_and!; [|done|done].
  unfold mret, M_ret, FIRST_CHANGE_ID. rewrite Z.max_l by lia. unfold as_u64.
  rewrite Z.mod_small by width. done.
Qed.

Lemma changes_page_spec a c since max s :
  healthy s → log_wf (view s) a c → is_u64 since → 0 < max →
  ∃ l, entries_sorted l ∧ (∀ e, e ∈ l ↔ recorded (view s) a c e ∧ since < change_id e) ∧
    changes_page a c since max s =
      Ok (take (Z.to_nat max) l, max <? Z.of_nat (length l)).
Proof.
  intros Hs Hwf Hsince Hmax. unfold changes_page, checked_add_u64.
  destruct (Z.leb_spec (since + 1) U64_MAX).
  - destruct (log_rows_after (view s) a c (since + 1)) as (es & Erows & Hsort & Hin); [done|width|].
    exists es. split_and!; [done| |].
    { intros e. rewrite Hin. split; intros [? ?]; split; done || lia. }
    rewrite (proj2 (Z.eqb_neq max 0)) by lia. rewrite iterate_from_spec, Erows by done.
    rewrite scan_page; [|by eapply recorded_after_rows| |simpl; lia].
    + simpl. by rewrite Z.sub_0_r.
    + apply Forall_forall. intros e [_ ?]%Hin. lia.
  - exists []. split_and!; [constructor| |].
    { intros e. split; [by intros ?%not_elem_of_nil|]. intros [[[? _] _] ?]. exfalso. width. }
    rewrite take_nil. simpl. by rewrite (proj2 (Z.ltb_ge _ _)) by lia.
Qed.

Lemma changes_since_spec a c since s :
  healthy s → log_wf (view s) a c → is_u64 since →
  ∃ l, changes_since a c since s = Ok l ∧ entries_sorted l ∧
    ∀ e, e ∈ l ↔ recorded (view s) a c e ∧ since < change_id e.
Proof.
  intros Hs Hwf Hsince.
  destruct (changes_page_spec a c since U64_MAX s) as (l & Hsort & Hin & E); [done..|width|].
  exists l. split_and!; [|done|done]. unfold changes_since. rewrite E. simpl.
  rewrite take_ge; [done|].
  assert (Z.of_nat (length l) < 2 ^ 64 - since) as Hlen; [|width].
  apply (entries_sorted_length l); [done| |width].
  apply Forall_forall. intros e [[[? _] _] ?]%Hin. width.
Qed.

(** What [prune] leaves: the entries above the cutoff, the floor raised if
    anything went, every other record as it was. *)
Definition cutoff_of (n keep_last : Z) : Z := saturating_sub n (Z.max keep_last 1).

(** The batch of [prune]: the keys go and the floor is set. *)
Lemma prune_batch a c s keys f :
  healthy s → Forall known keys →
  ∃ s', st_batch ((WDelete <$> keys) ++ [WSet (floor_key a c) (u64_be f)]) s = (Ok tt, s') ∧ healthy s' ∧
    (∀ k, k ≠ floor_key a c → view s' !! k = if decide (k ∈ keys) then None else view s !! k) ∧
    view s' !! floor_key a c = Some (u64_be f).
Proof.
  intros Hs Hkeys. destruct (apply_deletes (view s) keys) as (m1 & E1 & Hm1).
  assert (apply_ops (view s) ((WDelete <$> keys) ++ [WSet (floor_key a c) (u64_be f)]) =
          Some (<[floor_key a c := u64_be f]> m1)) as Eops by (rewrite apply_ops_app, E1; done).
  destruct (λ Hok, batch_spec _ s _ Hs Hok Eops) as (s' & E & Hs' & Hv').
  { apply Forall_app. split; [|apply Forall_singleton; split; simpl; auto with keys].
    apply Forall_fmap. eapply Forall_impl; [done|]. intros k Hk. split; simpl; auto. }
  exists s'. split_and!; [done..| |].
  - intros k Hk. rewrite Hv', lookup_insert_ne by done. apply Hm1.
  - by rewrite Hv', lookup_insert_eq.
Qed.

(** What remains of the log when the entries up to the cutoff are deleted. *)
Lemma prune_effect a c s s' cutoff (doomed : list ChangeLogEntry) f :
  log_wf (view s) a c → is_u64 f →
  (∀ e, e ∈ doomed ↔ recorded (view s) a c e ∧ change_id e ≤ cutoff) →
  (∀ k, k ≠ floor_key a c →
     view s' !! k = if decide (k ∈ (λ e, entry_key a c (change_id e)) <$> doomed) then None else view s !! k) →
  view s' !! floor_key a c = Some (u64_be f) →
  (∀ k, ¬ log_prefix a c `prefix_of` k → k ≠ floor_key a c → view s' !! k = view s !! k) ∧
  (∀ e, recorded (view s') a c e ↔ recorded (view s) a c e ∧ cutoff < change_id e) ∧
  log_wf (view s') a c ∧ floor_value (view s') a c = f.
Proof.
  intros Hwf Hf Hdoom Hlk Hfl. split_and!.
  - intros k Hk1 Hk2. rewrite Hlk by done. rewrite decide_False; [done|].
    intros (e & -> & _)%list_elem_of_fmap_1. apply Hk1, entry_key_prefix.
  - intros e. unfold recorded. rewrite Hlk by (intros Ek; by eapply floor_key_not_entry).
    case_decide as Hk; split; try done.
    + intros [? ?]. done.
    + intros [[Hwe Hr] Hlt]. exfalso. apply list_elem_of_fmap_1 in Hk as (e' & Ek & He').
      apply Hdoom in He' as [[[? ?] _] ?]. apply entry_key_inj in Ek; [lia|apply Hwe|done].
    + intros He. split; [done|]. destruct (Z.lt_ge_cases cutoff (change_id e)); [done|].
      exfalso. apply Hk, (list_elem_of_fmap_2 (λ e, entry_key a c (change_id e))). by apply Hdoom.
    + tauto.
  - intros k v Hk Hp. rewrite Hlk in Hk.
    + case_decide; [done|]. by apply Hwf.
    + intros ->. eapply (floor_counter_not_in_log a c); [by left|exact Hp].
  - unfold floor_value. rewrite Hfl, length_u64_be. simpl. by rewrite of_be_bytes_u64.
Qed.

Lemma prune_spec a c keep_last s n :
  healthy s → log_wf (view s) a c → counter_at (view s) a (counter_source c) n → 0 ≤ n →
  is_u64 (floor_value (view s) a c) →
  let cutoff := cutoff_of n keep_last in
  ∃ s' pruned, prune a c keep_last s = (Ok pruned, s') ∧ healthy s' ∧
    (∀ k, ¬ log_prefix a c `prefix_of` k → k ≠ floor_key a c → view s' !! k = view s !! k) ∧
    (∀ e, recorded (view s') a c e ↔
          recorded (view s) a c e ∧ (cutoff = 0 ∨ cutoff < change_id e)) ∧
    log_wf (view s') a c ∧
    (floor_value (view s') a c = floor_value (view s) a c ∧ pruned = 0%nat ∧ s' = s ∨
     floor_value (view s') a c = Z.max (floor_value (view s) a c) cutoff ∧ pruned ≠ 0%nat).
Proof.
  intros Hs Hwf Hc Hn Hf cutoff. unfold prune, mbind, M_bind, reads.
  rewrite (latest_spec _ _ _ n) by done. fold (cutoff_of n keep_last). fold cutoff.
  pose proof (counter_value_range _ _ Hc) as Hnr.
  destruct (Z.eqb_spec cutoff 0) as [E0|Hcut].
  { exists s, 0%nat. split_and!; try done; [intros e; tauto|by left]. }
  destruct (log_rows_all (view s) a c Hwf) as (es & Erows & Hsort & Hin).
  assert (Forall entry_wf es) as Hes by (apply Forall_forall; by intros e [? _]%Hin).
  rewrite iterate_spec, Erows, scan_prune by done. simpl app.
  set (doomed := filter (λ e, change_id e ≤ cutoff) es).
  assert (∀ e, e ∈ doomed ↔ recorded (view s) a c e ∧ change_id e ≤ cutoff) as Hdoom.
  { intros e. unfold doomed. rewrite list_elem_of_filter, Hin. tauto. }
  clearbody doomed. set (keys := (λ e, entry_key a c (change_id e)) <$> doomed).
  assert ((λ e, WDelete (entry_key a c (change_id e))) <$> doomed = WDelete <$> keys) as ->.
  { unfold keys. by rewrite <-list_fmap_compose. }
  destruct (WDelete <$> keys) as [|o os] eqn:Eo.
  { exists s, 0%nat. simpl. split_and!; try done; [|by left].
    assert (doomed = []) as -> by (by destruct doomed).
    intros e. split; [|tauto]. intros He. split; [done|right].
    destruct (Z.lt_ge_cases cutoff (change_id e)); [done|].
    by assert (e ∈ []) as ?%not_elem_of_nil by (by apply Hdoom). }
  cbn [app]. rewrite floor_spec by done. set (f' := Z.max (floor_value (view s) a c) cutoff).
  destruct (prune_batch a c s keys f' Hs) as (s' & E & Hs' & Hlk & Hfl).
  { unfold keys. apply Forall_fmap, Forall_forall. intros e _. simpl. auto with keys. }
  destruct (prune_effect a c s s' cutoff doomed f') as (H1 & H2 & H3 & H4); [done| |done..|].
  { subst f' cutoff. unfold cutoff_of, saturating_sub in *. width. }
  rewrite Eo in E. cbn [app] in E. rewrite E.
  exists s', (length (o :: os)). split_and!; [done..| |done|by right].
  intros e. rewrite H2. tauto.
Qed.
End spec.

(** ** Histories

    A history of one partition: the store, the entries whose write has been
    committed, and the entries whose id is allocated and whose write is still
    in a batch some caller holds ([record_op]).  Steps interleave freely. *)

Section history.
Context {S : Type} {store : Store S} {contract : StoreSpec S} (a : Z) (c : Collection).
Implicit Types s : S.

Definition entry_op (e : ChangeLogEntry) : WriteOp :=
  WSet (entry_key a c (change_id e)) (encode_value e).

(** A write that does not touch the partition, its counter or its floor. *)
Definition foreign (op : WriteOp) : Prop :=
  op_ok op ∧ ¬ log_prefix a c `prefix_of` op_key op ∧
  op_key op ≠ counter_key a c ∧ op_key op ≠ floor_key a c.

Record history : Type := mkHistory {
  h_store : S;
  h_committed : list ChangeLogEntry;
  h_pending : list ChangeLogEntry;
}.

Definition can_allocate s : Prop := ∃ n, counter_at (view s) a c n ∧ n < I64_MAX.

Inductive log_step : history → history → Prop :=
  | step_record_op s s' H P doc k id op :
      is_u32 doc → can_allocate s → record_op a c doc k s = (Ok (id, op), s') →
      log_step (mkHistory s H P) (mkHistory s' H (mkEntry id doc k :: P))
  | step_commit s s' H P1 e P2 ops m :
      Forall foreign ops → apply_ops (view s) ops = Some m →
      st_batch (ops ++ [entry_op e]) s = (Ok tt, s') →
      log_step (mkHistory s H (P1 ++ e :: P2)) (mkHistory s' (e :: H) (P1 ++ P2))
  | step_abandon s H P1 e P2 :
      log_step (mkHistory s H (P1 ++ e :: P2)) (mkHistory s H (P1 ++ P2))
  | step_record s s' H P doc k id :
      is_u32 doc → can_allocate s → record a c doc k s = (Ok id, s') →
      log_step (mkHistory s H P) (mkHistory s' (mkEntry id doc k :: H) P)
  | step_bump s s' H P n :
      can_allocate s → st_add_and_get (counter_key a c) 1 s = (Ok n, s') →
      log_step (mkHistory s H P) (mkHistory s' H P)
  | step_foreign s s' H P ops m :
      Forall foreign ops → apply_ops (view s) ops = Some m → st_batch ops s = (Ok tt, s') →
      log_step (mkHistory s H P) (mkHistory s' H P)
  | step_prune s s' H P keep_last pruned :
      prune a c keep_last s = (Ok pruned, s') →
      log_step (mkHistory s H P) (mkHistory s' H P).

(** A partition nothing has been written to. *)
Definition fresh s : Prop :=
  healthy s ∧ view s !! counter_key a c = None ∧ view s !! floor_key a c = None ∧
  ∀ k, log_prefix a c `prefix_of` k → view s !! k = None.

Definition reachable (h : history) : Prop :=
  ∃ s, fresh s ∧ rtc log_step (mkHistory s [] []) h.

Definition has_id_in (n : Z) (e : ChangeLogEntry) : Prop := entry_wf e ∧ 1 ≤ change_id e ≤ n.

Record log_inv (h : history) : Prop := {
  li_healthy : healthy (h_store h);
  li_wf : log_wf (view (h_store h)) a c;
  li_ids : ∃ n, counter_at (view (h_store h)) a c n ∧ 0 ≤ n ∧
    Forall (has_id_in n) (h_committed h ++ h_pending h) ∧
    0 ≤ floor_value (view (h_store h)) a c ≤ n;
  li_nodup : NoDup (change_id <$> h_committed h ++ h_pending h);
  li_sound e : recorded (view (h_store h)) a c e → e ∈ h_committed h;
  li_complete e : e ∈ h_committed h → floor_value (view (h_store h)) a c < change_id e →
    recorded (view (h_store h)) a c e;
}.

(** Stores that agree on the partition and its floor. *)
Definition log_agree (m m' : contents) : Prop :=
  m' !! floor_key a c = m !! floor_key a c ∧
  ∀ k, log_prefix a c `prefix_of` k → m' !! k = m !! k.

Lemma log_agree_wf m m' : log_agree m m' → log_wf m a c → log_wf m' a c.
Proof. intros [_ E] Hwf k v Hk Hp. rewrite E in Hk by done. by apply Hwf. Qed.

Lemma log_agree_floor m m' : log_agree m m' → floor_value m' a c = floor_value m a c.
Proof. intros [E _]. unfold floor_value. by rewrite E. Qed.

Lemma log_agree_recorded m m' e : log_agree m m' → recorded m' a c e ↔ recorded m a c e.
Proof. intros [_ E]. unfold recorded. by rewrite E by apply entry_key_prefix. Qed.

Lemma foreign_agree m ops m' :
  Forall foreign ops → apply_ops m ops = Some m' →
  log_agree m m' ∧ m' !! counter_key a c = m !! counter_key a c.
Proof.
  rewrite Forall_forall. intros Hf E.
  assert (∀ k, (∀ op, foreign op → op_key op ≠ k) → m' !! k = m !! k) as Hk.
  { intros k Hne. apply (apply_ops_other m ops); [done|].
    intros (op & -> & Hop)%list_elem_of_fmap_1. by apply (Hne op); [apply Hf|]. }
  split; [split|]; [| |]; try intros k Hp; apply Hk; intros op (_ & ? & ? & ?); congruence.
Qed.

Lemma counter_agree m n :
  log_agree m (<[counter_key a c := n]> m).
Proof.
  split.
  - apply lookup_insert_ne. intros E. by eapply floor_key_not_counter.
  - intros k Hp. apply lookup_insert_ne. intros <-.
    by eapply (floor_counter_not_in_log a c); [by right|].
Qed.

Lemma recorded_insert m e e' :
  entry_wf e → recorded (<[entry_key a c (change_id e) := encode_value e]> m) a c e' →
  e' = e ∨ recorded m a c e' ∧ change_id e' ≠ change_id e.
Proof.
  intros He [He' E]. destruct (decide (change_id e' = change_id e)) as [Hid|Hid].
  - left. rewrite Hid, lookup_insert_eq in E. destruct He, He'.
    apply encode_value_inj; [done..|]. congruence.
  - right. split; [|done]. split; [done|]. rewrite lookup_insert_ne in E; [done|].
    intros Ek. apply entry_key_inj in Ek; [done|apply He|apply He'].
Qed.

Lemma recorded_insert_2 m e e' :
  entry_wf e → recorded m a c e' ∧ change_id e' ≠ change_id e ∨ e' = e →
  recorded (<[entry_key a c (change_id e) := encode_value e]> m) a c e'.
Proof.
  intros He [[[He' E] Hid]| ->].
  - split; [done|]. rewrite lookup_insert_ne; [done|].
    intros Ek. apply entry_key_inj in Ek; [done|apply He|apply He'].
  - split; [done|]. apply lookup_insert_eq.
Qed.

Lemma log_wf_insert m e :
  entry_wf e → log_wf m a c → log_wf (<[entry_key a c (change_id e) := encode_value e]> m) a c.
Proof.
  intros He Hwf k v [[<- <-]|[? ?]]%lookup_insert_Some Hp; [by exists e|by apply Hwf].
Qed.

(** *** The invariant *)

Lemma log_inv_fresh s : fresh s → log_inv (mkHistory s [] []).
Proof.
  intros (Hs & Hc & Hf & Hlog). assert (floor_value (view s) a c = 0) as Hz
    by (unfold floor_value; by rewrite Hf).
  split; simpl; [done| | |constructor| |by intros e ?%not_elem_of_nil].
  - intros k v Hk Hp. by rewrite Hlog in Hk.
  - exists 0. unfold counter_at. rewrite Hc, Hz. split_and!; [done|lia|constructor|lia|lia].
  - intros e [_ E]. by rewrite Hlog in E by apply entry_key_prefix.
Qed.

(** The store changes outside the partition; the counter may grow. *)
Lemma log_inv_frame s s' H P :
  log_inv (mkHistory s H P) → healthy s' → log_agree (view s) (view s') →
  (∀ n, counter_at (view s) a c n → 0 ≤ n → ∃ n', counter_at (view s') a c n' ∧ n ≤ n') →
  log_inv (mkHistory s' H P).
Proof.
  intros [? Hwf (n & Hn & Hp & Hids & Hf) Hnd Hso Hco] Hs' Hag Hc. simpl in *.
  pose proof (log_agree_floor _ _ Hag) as Ef.
  split; simpl; [done|by eapply log_agree_wf| |done| |].
  - destruct (Hc n) as (n' & ? & ?); [done..|]. exists n'. rewrite Ef.
    split_and!; [done|lia| |lia|lia]. eapply Forall_impl; [exact Hids|].
    intros e [? ?]. split; [done|lia].
  - intros e. rewrite log_agree_recorded by done. apply Hso.
  - intros e ?. rewrite log_agree_recorded, Ef by done. by apply Hco.
Qed.

(** An entry with the id the counter has just given joins the pending ones. *)
Lemma log_inv_alloc s s' H P n e :
  log_inv (mkHistory s H P) → counter_at (view s) a c n → 0 ≤ n < I64_MAX →
  healthy s' → view s' = <[counter_key a c := i64_le (n + 1)]> (view s) →
  entry_wf e → change_id e = n + 1 → log_inv (mkHistory s' H (e :: P)).
Proof.
  intros Hinv Hn Hr Hs' Hv He Hid.
  assert (log_inv (mkHistory s' H P)) as [_ Hwf (n1 & Hn1 & Hp & Hids & Hf) Hnd Hso Hco].
  { apply (log_inv_frame s); [done|done|rewrite Hv; apply counter_agree|].
    intros n' Hn' _. exists (n + 1). unfold counter_at in *.
    rewrite Hv, lookup_insert_eq, counter_value_i64_le by width. split; [done|].
    assert (n' = n) by congruence. lia. }
  destruct Hinv as [_ _ (n2 & Hn2 & _ & Hids2 & _) _ _ _]. simpl in *.
  assert (n2 = n) as -> by (unfold counter_at in *; congruence).
  assert (n1 = n + 1) as ->.
  { unfold counter_at in *. rewrite Hv, lookup_insert_eq, counter_value_i64_le in Hn1 by width.
    congruence. }
  split; simpl; [done|done| | |done|done].
  - exists (n + 1). split_and!; [done|lia| |lia|lia].
    rewrite <-Permutation_middle. constructor; [split; [done|lia]|done].
  - rewrite <-Permutation_middle, fmap_cons. constructor; [|done].
    intros (e' & E & He')%list_elem_of_fmap_1. rewrite Forall_forall in Hids2.
    destruct (Hids2 e' He'). lia.
Qed.

(** A pending entry reaches the store. *)
Lemma log_inv_write s s' H P1 e P2 m :
  log_inv (mkHistory s H (P1 ++ e :: P2)) → log_agree (view s) m →
  m !! counter_key a c = view s !! counter_key a c → healthy s' →
  view s' = <[entry_key a c (change_id e) := encode_value e]> m →
  log_inv (mkHistory s' (e :: H) (P1 ++ P2)).
Proof.
  intros [? Hwf (n & Hn & Hp & Hids & Hf) Hnd Hso Hco] Hag Hc Hs' Hv. simpl in *.
  rewrite <-Permutation_middle in Hids, Hnd.
  assert (H ++ e :: P1 ++ P2 ≡ₚ (e :: H) ++ P1 ++ P2) as Hperm by (by rewrite <-Permutation_middle).
  rewrite Hperm in Hids, Hnd. clear Hperm.
  assert (entry_wf e) as He by (by apply Forall_inv in Hids as [? _]).
  assert (floor_value (view s') a c = floor_value (view s) a c) as Ef.
  { rewrite <-(log_agree_floor _ _ Hag), Hv. unfold floor_value. rewrite lookup_insert_ne; [done|].
    intros E. by eapply floor_key_not_entry. }
  split; simpl; [done| | |done| |]; rewrite ?Ef, ?Hv.
  - apply log_wf_insert; [done|]. by eapply log_agree_wf.
  - exists n. unfold counter_at. rewrite lookup_insert_ne by (intros E; by eapply counter_key_not_entry).
    by rewrite Hc.
  - intros e' [-> |[He' _]]%recorded_insert; [by left|right|done].
    apply Hso. by rewrite <-log_agree_recorded.
  - rewrite <-app_comm_cons, fmap_cons in Hnd. apply NoDup_cons in Hnd as [Hni _].
    intros e' [-> | He']%elem_of_cons Hlt; apply recorded_insert_2; [done|by right|done|left].
    split; [rewrite log_agree_recorded by done; auto|].
    intros E. apply Hni. rewrite <-E. apply list_elem_of_fmap_2, elem_of_app. by left.
Qed.

Lemma log_inv_abandon s H P1 e P2 :
  log_inv (mkHistory s H (P1 ++ e :: P2)) → log_inv (mkHistory s H (P1 ++ P2)).
Proof.
  intros [? ? (n & Hn & Hp & Hids & Hf) Hnd ? ?]. simpl in *.
  rewrite <-Permutation_middle, <-Permutation_middle in Hids, Hnd.
  split; simpl; [done|done| | |done|done].
  - exists n. split_and!; [done|done| |lia|lia]. by apply Forall_inv_tail in Hids.
  - by apply NoDup_cons in Hnd as [_ ?].
Qed.

(** [prune] on a state that meets the invariant. *)
Lemma log_inv_prune s s' H P keep_last pruned :
  counter_source c = c → log_inv (mkHistory s H P) → prune a c keep_last s = (Ok pruned, s') →
  log_inv (mkHistory s' H P).
Proof.
  intros Hsrc [? Hwf (n & Hn & Hp & Hids & Hf) Hnd Hso Hco] Eprune. simpl in *.
  pose proof (counter_value_range _ _ Hn) as Hnr.
  destruct (prune_spec a c keep_last s n) as (s1 & p & E & Hs1 & Hother & Hrec & Hwf1 & Hfl);
    [done|done|by rewrite Hsrc|done|width|].
  rewrite E in Eprune. injection Eprune as <- <-.
  assert (0 ≤ cutoff_of n keep_last ≤ n) as Hcut.
  { unfold cutoff_of, saturating_sub. width. }
  split; simpl; [done|done| |done| |].
  - exists n. split_and!; [|done|done|lia|lia]. unfold counter_at. rewrite Hother; [done| |].
    + apply floor_counter_not_in_log. by right.
    + intros Ek. by eapply floor_key_not_counter.
  - intros e [? _]%Hrec. by apply Hso.
  - intros e He Hlt. apply Hrec. destruct Hfl as [(Ef & _ & ->)|[Ef _]].
    + apply Hrec, Hco; [done|lia].
    + split; [apply Hco; [done|lia]|right; lia].
Qed.

Lemma log_inv_allocated s s' H P id doc k :
  log_inv (mkHistory s H P) → is_u32 doc → can_allocate s →
  allocate_change_id a c s = (Ok id, s') →
  log_inv (mkHistory s' H (mkEntry id doc k :: P)).
Proof.
  intros Hinv Hdoc (n & Hn & Hmax) E. pose proof Hinv as [Hs _ (n' & Hn' & ? & _) _ _ _]. simpl in *.
  assert (n' = n) as -> by (unfold counter_at in *; congruence).
  destruct (allocate_spec a c s n) as (s1 & E1 & Hs1 & Hv1); [done|done|lia|].
  rewrite E1 in E. injection E as <- <-.
  apply (log_inv_alloc s _ _ _ n); [done..|lia|done|done| |done]. split; [width|done].
Qed.

Lemma log_step_inv h h' : counter_source c = c → log_inv h → log_step h h' → log_inv h'.
Proof.
  intros Hsrc Hinv Hstep. destruct Hstep as [s s' H P doc k id op Hdoc Hca E
    |s s' H P1 e P2 ops m Hops Em E|s H P1 e P2|s s' H P doc k id Hdoc Hca E
    |s s' H P n Hca E|s s' H P ops m Hops Em E|s s' H P keep_last pruned E].
  - apply M_bind_ok in E as (id' & s1 & E1 & [= <- <- <-]). by apply (log_inv_allocated s).
  - destruct (foreign_agree _ _ _ Hops Em) as [Hag Hc]. pose proof Hinv as [Hs _ _ _ _ _]. simpl in Hs.
    destruct (λ Hok, batch_spec (ops ++ [entry_op e]) s
      (<[entry_key a c (change_id e) := encode_value e]> m) Hs Hok) as (s1 & E1 & Hs1 & Hv1).
    { apply Forall_app. split; [eapply Forall_impl; [exact Hops|by intros ? []]|].
      apply Forall_singleton. split; simpl; auto with keys. }
    { by rewrite apply_ops_app, Em. }
    rewrite E1 in E. injection E as <-. by eapply log_inv_write.
  - by eapply log_inv_abandon.
  - apply M_bind_ok in E as (id' & s1 & E1 & E).
    apply (log_inv_allocated _ _ _ _ _ doc k Hinv Hdoc Hca) in E1 as Hinv1.
    pose proof Hinv1 as [Hs1 _ _ _ _ _]. simpl in Hs1.
    apply M_bind_ok in E as ([] & s2 & E2 & [= <- <-]).
    destruct (put_spec (entry_key a c id') (encode_value (mkEntry id' doc k)) s1)
      as (s3 & E3 & Hs3 & Hv3); [done|auto with keys|].
    rewrite E3 in E2. injection E2 as <-. by apply (log_inv_write _ _ _ [] _ _ (view s1) Hinv1).
  - destruct Hca as (n0 & Hn0 & Hmax). pose proof Hinv as [Hs _ _ _ _ _]. simpl in Hs.
    destruct (add_and_get_spec (counter_key a c) 1 s n0) as (s1 & E1 & Hs1 & Hv1); [done|auto with keys|done|].
    rewrite E1 in E. injection E as <- <-.
    apply (log_inv_frame s); [done|done|rewrite Hv1; apply counter_agree|].
    intros n' Hn' Hp. assert (n' = n0) as -> by (unfold counter_at in *; congruence).
    exists (n0 + 1). unfold counter_at.
    rewrite Hv1, lookup_insert_eq, wrapping_add_i64_id, counter_value_i64_le by width.
    split; [done|lia].
  - destruct (foreign_agree _ _ _ Hops Em) as [Hag Hc]. pose proof Hinv as [Hs _ _ _ _ _]. simpl in Hs.
    destruct (λ Hok, batch_spec ops s m Hs Hok Em) as (s1 & E1 & Hs1 & <-).
    { eapply Forall_impl; [exact Hops|by intros ? []]. }
    rewrite E1 in E. injection E as <-. apply (log_inv_frame s); [done..|].
    intros n Hn _. exists n. unfold counter_at. rewrite Hc. split; [done|lia].
  - by apply (log_inv_prune s _ _ _ keep_last pruned).
Qed.

Lemma reachable_inv h : counter_source c = c → reachable h → log_inv h.
Proof.
  intros Hsrc (s & Hfresh%log_inv_fresh & Hrun). revert Hfresh.
  remember (mkHistory s [] []) as h0 eqn:E. clear E s.
  induction Hrun as [|h1 h2 h3 Hstep _ IH]; [done|]. intros. apply IH. by eapply log_step_inv.
Qed.

(** C29. No silent loss in the change log.  In every interleaving of id
    allocations, commits, abandoned batches, counter bumps, writes elsewhere
    and prunes, when [can_calculate] accepts a client's state then
    [changes_since] returns exactly the committed entries with a later id, in
    increasing id order: nothing [prune] removed is missing from the answer
    without the client being told to resynchronise. *)
Theorem changes_since_complete h since :
  counter_source c = c → reachable h → is_u64 since →
  can_calculate a c since (h_store h) = Ok true →
  ∃ l, changes_since a c since (h_store h) = Ok l ∧ entries_sorted l ∧
    ∀ e, e ∈ l ↔ e ∈ h_committed h ∧ since < change_id e.
Proof.
  intros Hsrc [Hs Hwf _ _ Hso Hco]%reachable_inv Hsince Hcan; [|done].
  rewrite can_calculate_spec in Hcan by done. injection Hcan as Hf%Z.leb_le.
  destruct (changes_since_spec a c since (h_store h)) as (l & E & Hsort & Hin); [done..|].
  exists l. split_and!; [done..|]. intros e. rewrite Hin.
  split; (intros [He Hlt]; split; [|done]); [by apply Hso|apply Hco; [done|lia]].
Qed.

(** Paging is exact.  For a client whose state [can_calculate] accepts
    and a positive page size, [changes_page] returns the first [max] of the
    committed later entries and [has_more] says whether any are left; asking
    again from the last id of a full page continues where it stopped, so the
    pages tile the answer of [changes_since]. *)
Theorem changes_page_tiles h since max :
  counter_source c = c → reachable h → is_u64 since → 0 < max →
  can_calculate a c since (h_store h) = Ok true →
  ∃ l, changes_since a c since (h_store h) = Ok l ∧
    changes_page a c since max (h_store h) = Ok (take (Z.to_nat max) l, max <? Z.of_nat (length l)) ∧
    (∀ e, last (take (Z.to_nat max) l) = Some e →
       changes_since a c (change_id e) (h_store h) = Ok (drop (Z.to_nat max) l)).
Proof.
  intros Hsrc [Hs Hwf _ _ _ _]%reachable_inv Hsince Hmax Hcan; [|done].
  destruct (changes_since_spec a c since (h_store h)) as (l & E & Hsort & Hin); [done..|].
  destruct (changes_page_spec a c since max (h_store h)) as (l' & Hsort' & Hin' & E'); [done..|].
  assert (l' = l) as -> by (apply entries_sorted_unique; [done..|]; intros e; by rewrite Hin, Hin').
  exists l. split_and!; [done|done|]. intros e He.
  apply last_Some in He as [pre He].
  assert (e ∈ l) as Hel by (rewrite <-(take_drop (Z.to_nat max) l), He; set_solver).
  destruct (proj1 (Hin e) Hel) as [[[? _] _] Hlt].
  destruct (changes_since_spec a c (change_id e) (h_store h)) as (l2 & E2 & Hsort2 & Hin2); [done..|].
  rewrite E2. f_equal. rewrite <-(take_drop (Z.to_nat max) l), He in Hsort.
  assert (entries_sorted (drop (Z.to_nat max) l)) as Hd by (by eapply StronglySorted_app_1_r).
  apply entries_sorted_unique; [done..|]. intros e'. rewrite Hin2.
  assert (recorded (view (h_store h)) a c e' ∧ change_id e < change_id e' ↔
          e' ∈ l ∧ change_id e < change_id e') as ->.
  { rewrite Hin. split; [|tauto]. intros [? ?]. split_and!; done || lia. }
  rewrite <-(take_drop (Z.to_nat max) l) at 1. rewrite He.
  rewrite (entries_sorted_after pre e (drop (Z.to_nat max) l)) by done. tauto.
Qed.
End history.

(** ** Two messages delivered at once

    Both deliveries allocate their change id before either batch is
    committed, and the one with the higher id commits first. *)

Module Demo.
Definition e1 : ChangeLogEntry := mkEntry 1 10 Insert.
Definition e2 : ChangeLogEntry := mkEntry 2 11 Insert.
Definition s0 : MemStore := mkMem ∅.
Definition s1 : MemStore := (record_op 7 Email 10 Insert s0).2.
Definition s2 : MemStore := (record_op 7 Email 11 Insert s1).2.
Definition s3 : MemStore := (st_batch [entry_op 7 Email e2] s2).2.
Definition s4 : MemStore := (st_batch [entry_op 7 Email e1] s3).2.
(** and a later housekeeping pass that keeps one entry *)
Definition s5 : MemStore := (prune 7 Email 1 s4).2.

Definition h3 : history := mkHistory s3 [e2] [e1].
Definition h4 : history := mkHistory s4 [e1; e2] [].
Definition h5 : history := mkHistory s5 [e1; e2] [].

Lemma fresh_s0 : fresh 7 Email s0.
Proof. by split_and!. Qed.

Lemma step_h3_h4 : log_step 7 Email h3 h4.
Proof. by apply (step_commit 7 Email s3 s4 [e2] [] e1 [] [] (view s3)); vm_compute. Qed.

Lemma reachable_h3 : reachable 7 Email h3.
Proof.
  exists s0. split; [exact fresh_s0|].
  apply (rtc_l _ _ (mkHistory s1 [] [e1])).
  { apply (step_record_op 7 Email s0 s1 [] [] 10 Insert 1 (entry_op 7 Email e1)); [width| |by vm_compute].
    exists 0. split; [by vm_compute|width]. }
  apply (rtc_l _ _ (mkHistory s2 [] [e2; e1])).
  { apply (step_record_op 7 Email s1 s2 [] [e1] 11 Insert 2 (entry_op 7 Email e2)); [width| |by vm_compute].
    exists 1. split; [by vm_compute|width]. }
  apply rtc_once. by apply (step_commit 7 Email s2 s3 [] [] e2 [e1] [] (view s2)); vm_compute.
Qed.

Lemma reachable_h4 : reachable 7 Email h4.
Proof.
  destruct reachable_h3 as (s & Hf & Hr). exists s. split; [done|].
  eapply rtc_r; [exact Hr|exact step_h3_h4].
Qed.

Lemma reachable_h5 : reachable 7 Email h5.
Proof.
  destruct reachable_h4 as (s & Hf & Hr). exists s. split; [done|].
  eapply rtc_r; [exact Hr|]. by apply (step_prune 7 Email s4 s5 _ _ 1 1%nat); vm_compute.
Qed.
End Demo.

Lemma changes_since_complete_witness :
  ∃ l, changes_since 7 Email 1 Demo.s5 = Ok l ∧ entries_sorted l ∧
    ∀ e, e ∈ l ↔ e ∈ [Demo.e1; Demo.e2] ∧ 1 < change_id e.
Proof.
  apply (changes_since_complete 7 Email Demo.h5 1);
    [reflexivity|apply Demo.reachable_h5|width|by vm_compute].
Defined.

Lemma changes_page_tiles_witness :
  ∃ l, changes_since 7 Email 0 Demo.s4 = Ok l ∧
    changes_page 7 Email 0 1 Demo.s4 = Ok (take 1 l, 1 <? Z.of_nat (length l)) ∧
    (∀ e, last (take 1 l) = Some e → changes_since 7 Email (change_id e) Demo.s4 = Ok (drop 1 l)).
Proof.
  apply (changes_page_tiles 7 Email Demo.h4 0 1);
    [reflexivity|apply Demo.reachable_h4|width|lia|by vm_compute].
Defined.

(** A change can be lost to a client without any pruning.  Ids are
    allocated by [record_op] before the batch that carries the entry commits,
    so an entry can appear below an id that a client has already been given
    as its state: from a reachable history whose log the client has read in
    full up to its highest id, one commit step adds an entry that
    [changes_since] from that state never returns, although [can_calculate]
    accepts the state. *)
Theorem late_commit_missed :
  ∃ (h h' : history (S := MemStore)) e seen state,
    reachable 7 Email h ∧ log_step 7 Email h h' ∧
    changes_since 7 Email 0 (h_store h) = Ok seen ∧
    state = foldr Z.max 0 (change_id <$> seen) ∧
    e ∉ seen ∧ e ∈ h_committed h' ∧
    can_calculate 7 Email state (h_store h') = Ok true ∧
    changes_since 7 Email state (h_store h') = Ok [].
Proof.
  exists Demo.h3, Demo.h4, Demo.e1, [Demo.e2], 2.
  split_and!; [apply Demo.reachable_h3|apply Demo.step_h3_h4|by vm_compute|done| | |by vm_compute..].
  - intros ?%list_elem_of_singleton. done.
  - left.
Qed.
