(* ===== verification/Quota.v ===== *)
(** * Quota accounting (crates/store/src/quota.rs)

    Two counters per account, bytes and messages, adjusted either at once
    ([adjust]) or inside the batch that files or removes a message
    ([adjust_ops]).  Counters are signed 64-bit and wrap; usage reads a
    negative counter as zero. *)

From S2P Require Import Prelude Bytes Key Store.
From stdpp Require Import base gmap list strings.
From Stdlib Require Import ZArith Lia.

Open Scope Z_scope.

Definition QUOTA_COLLECTION : Collection := Email.
Definition QUOTA_DOCUMENT_ID : Z := 0.
Definition BYTES_SUFFIX : Z := 98.
Definition MESSAGES_SUFFIX : Z := 99.

Record QuotaLimits : Type := mkLimits { limit_bytes : Z; limit_messages : Z }.
Definition UNLIMITED : QuotaLimits := mkLimits 0 0.

(** [QuotaLimits::is_bounded]. *)
Definition is_bounded (l : QuotaLimits) : bool :=
  negb (limit_bytes l =? 0) || negb (limit_messages l =? 0).

Record QuotaUsage : Type := mkUsage { used_bytes : Z; used_messages : Z }.

(** [QuotaUsage::fits]: zero means no limit; the sum saturates. *)
Definition usage_fits (u : QuotaUsage) (limits : QuotaLimits) (bytes messages : Z) : bool :=
  let bytes_ok := (limit_bytes limits =? 0)
    || (saturating_add_u64 (used_bytes u) bytes <=? limit_bytes limits) in
  let messages_ok := (limit_messages limits =? 0)
    || (saturating_add_u64 (used_messages u) messages <=? limit_messages limits) in
  bytes_ok && messages_ok.

Definition bytes_key (account_id : Z) : bytes :=
  key_encode (with_suffix (key_new Counter account_id QUOTA_COLLECTION QUOTA_DOCUMENT_ID)
    [BYTES_SUFFIX]).
Definition messages_key (account_id : Z) : bytes :=
  key_encode (with_suffix (key_new Counter account_id QUOTA_COLLECTION QUOTA_DOCUMENT_ID)
    [MESSAGES_SUFFIX]).

Section operations.
Context {S : Type} `{Store S}.

(** [Quota::usage]. *)
Definition usage (account_id : Z) (s : S) : result QuotaUsage :=
  b ← st_counter (bytes_key account_id) s;
  m ← st_counter (messages_key account_id) s;
  Ok (mkUsage (as_u64 (Z.max b 0)) (as_u64 (Z.max m 0))).

(** [Quota::fits]: an unlimited account is not even read. *)
Definition fits (account_id : Z) (limits : QuotaLimits) (bytes messages : Z) (s : S)
  : result bool :=
  if negb (is_bounded limits) then Ok true
  else u ← usage account_id s; Ok (usage_fits u limits bytes messages).

(** [Quota::adjust]. *)
Definition adjust (account_id bytes_delta messages_delta : Z) : M S QuotaUsage :=
  b ← st_add_and_get (bytes_key account_id) bytes_delta;
  m ← st_add_and_get (messages_key account_id) messages_delta;
  mret (mkUsage (as_u64 (Z.max b 0)) (as_u64 (Z.max m 0))).
End operations.

(** [Quota::adjust_ops]: a zero delta writes nothing. *)
Definition adjust_ops (account_id bytes_delta messages_delta : Z) : list WriteOp :=
  (if negb (bytes_delta =? 0) then [WAdd (bytes_key account_id) bytes_delta] else []) ++
  (if negb (messages_delta =? 0) then [WAdd (messages_key account_id) messages_delta] else []).

(** ** The ledger

    The sum of the deltas ever applied, which the counters are to show. *)

Lemma quota_keys_differ a : bytes_key a ≠ messages_key a.
Proof.
  intros E. apply (f_equal last) in E. unfold bytes_key, messages_key, key_encode in E.
  rewrite !last_app in E. discriminate E.
Qed.

Lemma bytes_key_mergeable a : mergeable (bytes_key a).
Proof. apply mergeable_key_encode. by left. Qed.
Lemma messages_key_mergeable a : mergeable (messages_key a).
Proof. apply mergeable_key_encode. by left. Qed.
#[global] Hint Resolve bytes_key_mergeable messages_key_mergeable : keys.

(** The counters of [a] hold [b] bytes and [m] messages. *)
Definition ledger (c : contents) (a b m : Z) : Prop :=
  counter_value (c !! bytes_key a) = Some b ∧ counter_value (c !! messages_key a) = Some m.

(** One half of [adjust_ops]. *)
Lemma apply_delta c k x d :
  counter_value (c !! k) = Some x → is_i64 (x + d) →
  ∃ c', apply_ops c (if negb (d =? 0) then [WAdd k d] else []) = Some c' ∧
    counter_value (c' !! k) = Some (x + d) ∧ ∀ k', k' ≠ k → c' !! k' = c !! k'.
Proof.
  intros Hx Hr. destruct (Z.eqb_spec d 0) as [->|Hd]; simpl.
  - exists c. by rewrite Z.add_0_r.
  - rewrite Hx. simpl. eexists. split; [done|]. split.
    + by rewrite lookup_insert_eq, wrapping_add_i64_id, counter_value_i64_le.
    + intros k' ?. by rewrite lookup_insert_ne.
Qed.

Lemma ledger_add c a b m db dm :
  ledger c a b m → is_i64 (b + db) → is_i64 (m + dm) →
  ∃ c', apply_ops c (adjust_ops a db dm) = Some c' ∧ ledger c' a (b + db) (m + dm) ∧
    ∀ k, k ≠ bytes_key a → k ≠ messages_key a → c' !! k = c !! k.
Proof.
  intros [Hb Hm] Hb' Hm'. pose proof (quota_keys_differ a) as Hne.
  destruct (apply_delta c (bytes_key a) b db) as (c1 & E1 & Hb1 & Ho1); [done..|].
  destruct (apply_delta c1 (messages_key a) m dm) as (c2 & E2 & Hm2 & Ho2); [by rewrite Ho1|done|].
  exists c2. unfold adjust_ops. rewrite apply_ops_app, E1. split_and!; [done| |].
  - split; [by rewrite Ho2|done].
  - intros k ? ?. by rewrite Ho2, Ho1.
Qed.

Lemma adjust_ops_ok a db dm : Forall op_ok (adjust_ops a db dm).
Proof.
  unfold adjust_ops. apply Forall_app. split; case_match; try constructor; try constructor;
    simpl; auto with keys.
Qed.

Section spec.
Context {S : Type} {store : Store S} {contract : StoreSpec S} (a : Z).
Implicit Types s : S.

Lemma usage_spec s b m :
  healthy s → ledger (view s) a b m → usage a s = Ok (mkUsage (Z.max b 0) (Z.max m 0)).
Proof.
  intros Hs [Hb Hm]. unfold usage.
  rewrite (counter_spec _ _ _ Hs (bytes_key_mergeable a) Hb). simpl.
  rewrite (counter_spec _ _ _ Hs (messages_key_mergeable a) Hm). simpl.
  apply counter_value_range in Hb, Hm. unfold as_u64. by rewrite !Z.mod_small by width.
Qed.

Lemma adjust_spec s b m db dm :
  healthy s → ledger (view s) a b m → is_i64 (b + db) → is_i64 (m + dm) →
  ∃ s', adjust a db dm s = (Ok (mkUsage (Z.max (b + db) 0) (Z.max (m + dm) 0)), s') ∧
    healthy s' ∧ ledger (view s') a (b + db) (m + dm).
Proof.
  intros Hs [Hb Hm] Hb' Hm'. pose proof (quota_keys_differ a) as Hne.
  destruct (add_and_get_spec (bytes_key a) db s b) as (s1 & E1 & Hs1 & Hv1); [auto with keys..|].
  destruct (add_and_get_spec (messages_key a) dm s1 m) as (s2 & E2 & Hs2 & Hv2);
    [auto with keys..|by rewrite Hv1, lookup_insert_ne|].
  rewrite wrapping_add_i64_id in * by done. exists s2. split_and!; [|done|].
  - unfold adjust, mbind, M_bind. rewrite E1, E2. unfold mret, M_ret, as_u64.
    by rewrite !Z.mod_small by width.
  - unfold ledger. rewrite Hv2, lookup_insert_ne, Hv1, !lookup_insert_eq by done.
    by rewrite !counter_value_i64_le.
Qed.

(** What happens to an account's counters: a direct adjustment, a batch that
    carries one among other writes, or writes that do not concern them. *)
Definition quota_foreign (op : WriteOp) : Prop :=
  op_ok op ∧ op_key op ≠ bytes_key a ∧ op_key op ≠ messages_key a.

Inductive charge : S → Z → Z → S → Prop :=
  | charge_adjust s s' db dm u : adjust a db dm s = (Ok u, s') → charge s db dm s'
  | charge_batch s s' pre post db dm m' :
      Forall quota_foreign pre → Forall quota_foreign post →
      apply_ops (view s) (pre ++ adjust_ops a db dm ++ post) = Some m' →
      st_batch (pre ++ adjust_ops a db dm ++ post) s = (Ok tt, s') → charge s db dm s'.

Inductive charges : S → list (Z * Z) → S → Prop :=
  | charges_nil s : charges s [] s
  | charges_cons s1 s2 s3 db dm ds :
      charge s1 db dm s2 → charges s2 ds s3 → charges s1 ((db, dm) :: ds) s3.

Definition total (ds : list Z) : Z := foldr Z.add 0 ds.

(** No prefix of the charges leaves the range of the counter. *)
Fixpoint in_range_from (b : Z) (ds : list Z) : Prop :=
  is_i64 b ∧ match ds with [] => True | d :: ds => in_range_from (b + d) ds end.

Lemma in_range_from_head b ds : in_range_from b ds → is_i64 b.
Proof. destruct ds; by intros []. Qed.

Lemma foreign_ledger m ops m' b n :
  Forall quota_foreign ops → apply_ops m ops = Some m' → ledger m a b n → ledger m' a b n.
Proof.
  rewrite Forall_forall. intros Hf E [? ?]. unfold ledger.
  rewrite !(apply_ops_other m ops m') by
    (done || (intros (op & Ek & (_ & ? & ?)%Hf)%list_elem_of_fmap_1; congruence)). done.
Qed.

Lemma charge_ledger s s' db dm b m :
  healthy s → ledger (view s) a b m → is_i64 (b + db) → is_i64 (m + dm) →
  charge s db dm s' → healthy s' ∧ ledger (view s') a (b + db) (m + dm).
Proof.
  intros Hs Hl Hb Hm Hc. destruct Hc as [s s' db dm u E|s s' pre post db dm m' Hpre Hpost Em E].
  - destruct (adjust_spec s b m db dm) as (s1 & E1 & ? & ?); [done..|].
    rewrite E1 in E. by injection E as _ <-.
  - destruct (λ Hok, batch_spec _ s m' Hs Hok Em) as (s1 & E1 & Hs1 & Hv).
    { assert (∀ ops, Forall quota_foreign ops → Forall op_ok ops) as Hok.
      { intros ops Hops. eapply Forall_impl; [exact Hops|]. by intros op []. }
      rewrite !Forall_app. split_and!; [by apply Hok|apply adjust_ops_ok|by apply Hok]. }
    rewrite E1 in E. injection E as <-. split; [done|]. rewrite Hv.
    rewrite !apply_ops_app in Em. destruct (apply_ops (view s) pre) as [c1|] eqn:Ec1; [|done].
    simpl in Em. rewrite apply_ops_app in Em. apply (foreign_ledger _ _ _ _ _ Hpre Ec1) in Hl.
    destruct (ledger_add c1 a b m db dm Hl Hb Hm) as (c2 & E2 & Hl2 & _).
    rewrite E2 in Em. simpl in Em. by apply (foreign_ledger _ _ _ _ _ Hpost Em).
Qed.

(** The counters are a ledger.  After any sequence of direct adjustments
    and of batches carrying adjustments, with no intermediate total outside
    the signed 64-bit range, [usage] reports the starting value plus all the
    deltas (a negative total reads as zero), and [fits] answers whether the
    new bytes and messages stay within each non-zero limit. *)
Theorem quota_tracks_ledger s s' b m ds limits nb nm :
  healthy s → ledger (view s) a b m → charges s ds s' →
  in_range_from b ds.*1 → in_range_from m ds.*2 →
  0 ≤ nb ≤ U64_MAX → 0 ≤ nm ≤ U64_MAX →
  0 ≤ limit_bytes limits < U64_MAX → 0 ≤ limit_messages limits < U64_MAX →
  usage a s' = Ok (mkUsage (Z.max (b + total ds.*1) 0) (Z.max (m + total ds.*2) 0)) ∧
  fits a limits nb nm s' = Ok (bool_decide (
    (limit_bytes limits ≠ 0 → Z.max (b + total ds.*1) 0 + nb ≤ limit_bytes limits) ∧
    (limit_messages limits ≠ 0 → Z.max (m + total ds.*2) 0 + nm ≤ limit_messages limits))).
Proof.
  intros Hs Hl Hcs Hb Hm Hnb Hnm Hlb Hlm.
  assert (healthy s' ∧ ledger (view s') a (b + total ds.*1) (m + total ds.*2)) as [Hs' Hl'].
  { clear -Hs Hl Hcs Hb Hm. revert b m Hs Hl Hb Hm.
    induction Hcs as [s|s1 s2 s3 db dm ds Hc Hcs IH]; intros b m Hs Hl Hb Hm; simpl in *.
    { by rewrite !Z.add_0_r. }
    destruct Hb as [Hb0 Hb], Hm as [Hm0 Hm].
    destruct (charge_ledger s1 s2 db dm b m) as [Hs2 Hl2]; [done|done| | |done|].
    { by eapply in_range_from_head. } { by eapply in_range_from_head. }
    rewrite !Z.add_assoc. by apply IH. }
  pose proof (usage_spec s' _ _ Hs' Hl') as Hu. split; [done|]. unfold fits. rewrite Hu.
  destruct limits as [lb lm]. unfold is_bounded, usage_fits, saturating_add_u64, U64_MAX in *. simpl in *.
  destruct (Z.eqb_spec lb 0) as [->|], (Z.eqb_spec lm 0) as [->|]; simpl; f_equal;
    symmetry; case_bool_decide as Hd; first [done|lia|symmetry; lia|idtac];
    rewrite ?andb_true_r; (rewrite andb_true_iff || idtac); rewrite ?andb_false_iff, ?Z.leb_le, ?Z.leb_gt; lia.
Qed.
End spec.

Lemma quota_tracks_ledger_witness :
  let s1 := (adjust 7 500 1 (mkMem ∅)).2 in
  let s2 := (st_batch (adjust_ops 7 (-200) 0) s1).2 in
  usage 7 s2 = Ok (mkUsage 300 1) ∧ fits 7 (mkLimits 1000 1) 700 1 s2 = Ok false.
Proof.
  intros s1 s2.
  destruct (quota_tracks_ledger 7 (mkMem ∅) s2 0 0 [(500, 1); (-200, 0)] (mkLimits 1000 1) 700 1)
    as [E1 E2].
  - exact I.
  - by split.
  - apply charges_cons with s1; [by eapply charge_adjust; vm_compute|].
    apply charges_cons with s2; [|constructor].
    by apply (charge_batch 7 s1 s2 [] [] (-200) 0 (view s2)); [constructor|constructor|vm_compute..].
  - simpl. split_and!; width.
  - simpl. split_and!; width.
  - width.
  - width.
  - simpl. width.
  - simpl. width.
  - split; [exact E1|exact E2].
Defined.
