(* ===== verification/Ttl.v ===== *)
(** * The in-memory TTL store and the rate limiters

    [TtlStore] (crates/store/src/ttl.rs) keeps values with a deadline; the
    inbound [RateLimiter] (crates/smtp/src/ratelimit_in.rs) and the outbound
    [OutboundLimiter] (crates/smtp/src/ratelimit_out.rs) count in it, one cell
    per key and clock window.

    A call that reads a clock takes the reading as an argument: [now] is the
    monotonic [Instant] in nanoseconds, [unix] the wall clock in seconds.  A
    [Duration] is a number of nanoseconds. *)

From S2P Require Import Prelude Bytes.
From stdpp Require Import base gmap list strings.
From Stdlib Require Import ZArith Lia.

Open Scope Z_scope.

(** [Duration::as_secs]. *)
Definition as_secs (d : Z) : Z := d / 10 ^ 9.

(** ** TtlStore *)

Record Entry : Type := mkTtlEntry { value : bytes; expires_at : Z }.

(** [Entry::is_expired]. *)
Definition is_expired (e : Entry) (now : Z) : bool := expires_at e <=? now.

Abbreviation TtlStore := (gmap bytes Entry).

(** [TtlStore::set]. *)
Definition ttl_set (key val : bytes) (ttl now : Z) (st : TtlStore) : TtlStore :=
  <[key := mkTtlEntry val (now + ttl)]> st.

(** [TtlStore::get]: an expired entry found on the way is dropped. *)
Definition ttl_get (key : bytes) (now : Z) (st : TtlStore) : option bytes * TtlStore :=
  match st !! key with
  | Some e => if is_expired e now then (None, base.delete key st) else (Some (value e), st)
  | None => (None, st)
  end.

(** [TtlStore::contains]. *)
Definition ttl_contains (key : bytes) (now : Z) (st : TtlStore) : bool :=
  match st !! key with Some e => negb (is_expired e now) | None => false end.

(** [TtlStore::remove]. *)
Definition ttl_remove (key : bytes) (now : Z) (st : TtlStore) : option bytes * TtlStore :=
  (match st !! key with
   | Some e => if negb (is_expired e now) then Some (value e) else None
   | None => None
   end, base.delete key st).

(** [TtlStore::sweep]. *)
Definition ttl_sweep (now : Z) (st : TtlStore) : nat * TtlStore :=
  let kept := filter (λ kv, is_expired kv.2 now = false) st in
  ((size st - size kept)%nat, kept).

(** [TtlStore::len], [is_empty], [clear]. *)
Definition ttl_len (st : TtlStore) : nat := size st.
Definition ttl_is_empty (st : TtlStore) : bool := (size st =? 0)%nat.
Definition ttl_clear (st : TtlStore) : TtlStore := ∅.

(** ** The reference store

    Entries stay until overwritten or removed; only the clock hides them. *)

Inductive ttl_op : Type :=
  | OpSet (key val : bytes) (ttl : Z)
  | OpGet (key : bytes)
  | OpContains (key : bytes)
  | OpRemove (key : bytes)
  | OpSweep
  | OpClear.

Inductive ttl_obs : Type :=
  | ObsUnit | ObsBool (b : bool) | ObsValue (v : option bytes).

Definition ttl_exec (op : ttl_op) (now : Z) (st : TtlStore) : ttl_obs * TtlStore :=
  match op with
  | OpSet k v ttl => (ObsUnit, ttl_set k v ttl now st)
  | OpGet k => let '(v, st') := ttl_get k now st in (ObsValue v, st')
  | OpContains k => (ObsBool (ttl_contains k now st), st)
  | OpRemove k => let '(v, st') := ttl_remove k now st in (ObsValue v, st')
  | OpSweep => (ObsUnit, (ttl_sweep now st).2)
  | OpClear => (ObsUnit, ttl_clear st)
  end.

(** The value a key shows at an instant. *)
Definition live (st : TtlStore) (k : bytes) (now : Z) : option bytes :=
  e ← st !! k; if is_expired e now then None else Some (value e).

Definition ref_exec (op : ttl_op) (now : Z) (st : TtlStore) : ttl_obs * TtlStore :=
  match op with
  | OpSet k v ttl => (ObsUnit, <[k := mkTtlEntry v (now + ttl)]> st)
  | OpGet k => (ObsValue (live st k now), st)
  | OpContains k => (ObsBool (bool_decide (is_Some (live st k now))), st)
  | OpRemove k => (ObsValue (live st k now), base.delete k st)
  | OpSweep => (ObsUnit, st)
  | OpClear => (ObsUnit, ∅)
  end.

Fixpoint ttl_run (exec : ttl_op → Z → TtlStore → ttl_obs * TtlStore)
    (ops : list (Z * ttl_op)) (st : TtlStore) : list ttl_obs :=
  match ops with
  | [] => []
  | (now, op) :: ops => let '(o, st') := exec op now st in o :: ttl_run exec ops st'
  end.

(** Two stores no reader can tell apart from [t] on. *)
Definition ttl_equiv (t : Z) (st1 st2 : TtlStore) : Prop :=
  ∀ k now, t ≤ now → live st1 k now = live st2 k now.

Lemma is_expired_mono e t now : is_expired e t = true → t ≤ now → is_expired e now = true.
Proof. unfold is_expired. lia. Qed.

Lemma live_insert st k v t k' now :
  live (<[k := mkTtlEntry v t]> st) k' now =
    if decide (k = k') then (if t <=? now then None else Some v) else live st k' now.
Proof. unfold live. rewrite lookup_insert. by case_decide. Qed.

Lemma live_delete st k k' now :
  live (base.delete k st) k' now = if decide (k = k') then None else live st k' now.
Proof. unfold live. rewrite lookup_delete. by case_decide. Qed.

(** Dropping what has expired changes nothing from then on. *)
Lemma live_get st k t : ttl_equiv t (ttl_get k t st).2 st.
Proof.
  intros k' now Hle. unfold ttl_get. destruct (st !! k) as [e|] eqn:E; [|done].
  destruct (is_expired e t) eqn:Ee; [|done]. simpl. rewrite live_delete.
  case_decide; [subst|done]. unfold live. rewrite E. simpl. by rewrite (is_expired_mono e t).
Qed.

Lemma live_sweep st t : ttl_equiv t (ttl_sweep t st).2 st.
Proof.
  intros k now Hle. unfold live. simpl. rewrite map_lookup_filter.
  destruct (st !! k) as [e|]; [|done]. simpl. destruct (is_expired e t) eqn:Ee; simpl.
  - by rewrite (is_expired_mono e t).
  - done.
Qed.

Lemma ttl_get_live st k now : (ttl_get k now st).1 = live st k now.
Proof. unfold ttl_get, live. destruct (st !! k) as [e|]; [|done]. simpl. by destruct (is_expired e now). Qed.

Lemma ttl_contains_live st k now : ttl_contains k now st = bool_decide (is_Some (live st k now)).
Proof.
  unfold ttl_contains, live. destruct (st !! k) as [e|]; [|done]. simpl. by destruct (is_expired e now).
Qed.

Lemma ttl_remove_live st k now : (ttl_remove k now st).1 = live st k now.
Proof. unfold ttl_remove, live. simpl. destruct (st !! k) as [e|]; [|done]. simpl. by destruct (is_expired e now). Qed.

(** One operation keeps the two stores equivalent and is observed alike. *)
Lemma ttl_exec_sim op t st1 st2 :
  ttl_equiv t st1 st2 →
  (ttl_exec op t st1).1 = (ref_exec op t st2).1 ∧
  ttl_equiv t (ttl_exec op t st1).2 (ref_exec op t st2).2.
Proof.
  intros Heq. pose proof (λ k, Heq k t (Z.le_refl t)) as Hnow. destruct op as [k v ttl|k|k|k| |]; simpl.
  - split; [done|]. intros k' now Hle. unfold ttl_set. rewrite !live_insert. case_decide; auto.
  - destruct (ttl_get k t st1) as [o st1'] eqn:E. simpl. split.
    + by rewrite <-Hnow, <-ttl_get_live, E.
    + intros k' now Hle. rewrite <-(Heq k' now Hle), <-(live_get st1 k t k' now Hle). by rewrite E.
  - split; [|done]. by rewrite ttl_contains_live, Hnow.
  - split; [by rewrite <-Hnow, <-ttl_remove_live|].
    intros k' now Hle. rewrite !live_delete. case_decide; auto.
  - split; [done|]. intros k now Hle. rewrite <-(Heq k now Hle). by apply live_sweep.
  - done.
Qed.

(** Instants read one after the other. *)
Fixpoint clock_from (t : Z) (ops : list (Z * ttl_op)) : Prop :=
  match ops with [] => True | (now, _) :: ops => t ≤ now ∧ clock_from now ops end.

(** Sweeping is unobservable.  Over every sequence of operations made at
    non-decreasing instants, with sweeps and lazy drops anywhere, each [get],
    [contains] and [remove] on the TTL store answers what the reference store
    answers that never drops anything: a value is seen exactly until its
    deadline. *)
Theorem ttl_store_refines ops t :
  clock_from t ops → ttl_run ttl_exec ops ∅ = ttl_run ref_exec ops ∅.
Proof.
  assert (ttl_equiv t ∅ ∅) as Heq by done. revert Heq. generalize (∅ : TtlStore) at 1 3.
  generalize (∅ : TtlStore). revert t. induction ops as [|[now op] ops IH]; intros t st2 st1 Heq; [done|].
  intros [Hle Hclock]. simpl.
  destruct (ttl_exec_sim op now st1 st2) as [Ho Hs].
  { intros k n ?. apply Heq. lia. }
  destruct (ttl_exec op now st1) as [o1 st1'], (ref_exec op now st2) as [o2 st2']. simpl in *.
  rewrite Ho. f_equal. by apply (IH now).
Qed.

Lemma ttl_store_refines_witness :
  ttl_run ttl_exec [(0, OpSet [1] [9] 10); (5, OpGet [1]); (10, OpSweep); (11, OpContains [1])] ∅ =
    [ObsUnit; ObsValue (Some [9]); ObsUnit; ObsBool false].
Proof.
  rewrite (ttl_store_refines _ 0); [vm_compute; reflexivity|]. simpl. lia.
Defined.

(** ** Counting in windows *)

(** The cell a limiter counts in: four big-endian bytes, anything else is zero. *)
Definition count_of (v : option bytes) : Z :=
  match v with
  | Some b => if (length b =? 4)%nat then of_be_bytes b else 0
  | None => 0
  end.

Lemma count_of_u32 x : is_u32 x → count_of (Some (u32_be x)) = x.
Proof. intros. unfold count_of. rewrite length_u32_be. simpl. by apply of_be_bytes_u32. Qed.

(** The wall clock's window number: [now / window.as_secs().max(1)]. *)
Definition bucket (window unix : Z) : Z := unix / Z.max (as_secs window) 1.

Inductive IpAddr : Type := V4 (octets : bytes) | V6 (octets : bytes).

#[global] Instance IpAddr_eq_dec : EqDecision IpAddr.
Proof. solve_decision. Defined.

(** Four octets or sixteen. *)
Definition ip_wf (ip : IpAddr) : Prop :=
  match ip with V4 o => length o = 4%nat | V6 o => length o = 16%nat end.

Module Inbound.
Definition TOO_MANY_CONNECTIONS : bytes := line "421 4.7.0 Too many connections, try again later".
Definition TOO_MANY_MESSAGES : bytes := line "452 4.7.0 Too many messages, try again later".

Record RateLimits : Type := mkRateLimits {
  max_connections : Z; max_messages : Z; window : Z }.

(** [RateLimits::default]. *)
Definition default_limits : RateLimits := mkRateLimits 30 200 (60 * 10 ^ 9).

Inductive RateDecision : Type := Allow | Deny (reply : bytes).
Definition is_allowed (d : RateDecision) : bool := match d with Allow => true | Deny _ => false end.

Inductive Kind : Type := Connection | Message.
#[global] Instance Kind_eq_dec : EqDecision Kind.
Proof. solve_decision. Defined.

(** [Kind::tag]. *)
Definition tag (k : Kind) : Z := match k with Connection => 99 | Message => 109 end.

(** [window_key]. *)
Definition window_key (k : Kind) (ip : IpAddr) (window unix : Z) : bytes :=
  bs "rl:" ++ [tag k] ++
  match ip with V4 o => 4 :: o | V6 o => 6 :: o end ++ u64_be (bucket window unix).

(** [RateLimiter::hit].  [get] and [set] lock the store separately and each
    reads the monotonic clock. *)
Definition hit (limits : RateLimits) (k : Kind) (ip : IpAddr) (limit : Z) (reply : bytes)
    (unix now_get now_set : Z) (st : TtlStore) : RateDecision * TtlStore :=
  if (limit =? 0) || (window limits =? 0) then (Allow, st)
  else
    let key := window_key k ip (window limits) unix in
    let '(v, st) := ttl_get key now_get st in
    let current := count_of v in
    if limit <=? current then (Deny reply, st)
    else (Allow, ttl_set key (u32_be (current + 1)) (window limits) now_set st).

(** [RateLimiter::on_connect] and [RateLimiter::on_message]. *)
Definition on_connect (limits : RateLimits) (ip : IpAddr)
  : Z → Z → Z → TtlStore → RateDecision * TtlStore :=
  hit limits Connection ip (max_connections limits) TOO_MANY_CONNECTIONS.
Definition on_message (limits : RateLimits) (ip : IpAddr)
  : Z → Z → Z → TtlStore → RateDecision * TtlStore :=
  hit limits Message ip (max_messages limits) TOO_MANY_MESSAGES.

(** One arrival of either kind. *)
Definition arrive (limits : RateLimits) (k : Kind) (ip : IpAddr) :=
  match k with Connection => on_connect limits ip | Message => on_message limits ip end.
Definition limit_of (limits : RateLimits) (k : Kind) : Z :=
  match k with Connection => max_connections limits | Message => max_messages limits end.

Lemma window_key_inj k1 ip1 u1 k2 ip2 u2 w :
  ip_wf ip1 → ip_wf ip2 → bucket w u1 = bucket w u2 →
  window_key k1 ip1 w u1 = window_key k2 ip2 w u2 → k1 = k2 ∧ ip1 = ip2.
Proof.
  intros H1 H2 Hb E. unfold window_key in E. rewrite Hb in E. apply app_inv_head in E.
  rewrite !app_assoc in E. apply app_inv_tail in E.
  destruct k1, k2, ip1, ip2; simpl in E; by simplify_eq.
Qed.

(** A run of arrivals: who, what and when on both clocks. *)
Record arrival : Type := mkArrival { ar_kind : Kind; ar_ip : IpAddr; ar_unix : Z; ar_now : Z; ar_set : Z }.

Fixpoint run (limits : RateLimits) (l : list arrival) (st : TtlStore) : list (arrival * RateDecision) :=
  match l with
  | [] => []
  | a :: l =>
      let '(d, st') := arrive limits (ar_kind a) (ar_ip a) (ar_unix a) (ar_now a) (ar_set a) st in
      (a, d) :: run limits l st'
  end.

(** Arrivals of one wall-clock window, looked up less than a window after its
    start on the monotonic clock. *)
Definition same_window (limits : RateLimits) (unix t : Z) (l : list arrival) : Prop :=
  Forall (λ a, ip_wf (ar_ip a) ∧
    bucket (window limits) (ar_unix a) = bucket (window limits) unix ∧
    t ≤ ar_now a < t + window limits ∧ t ≤ ar_set a) l.

Definition from_source (k : Kind) (ip : IpAddr) (a : arrival) : Prop := ar_kind a = k ∧ ar_ip a = ip.
#[global] Instance from_source_dec k ip a : Decision (from_source k ip a).
Proof. unfold from_source. apply _. Defined.

Definition deny_reply (k : Kind) : bytes :=
  match k with Connection => TOO_MANY_CONNECTIONS | Message => TOO_MANY_MESSAGES end.

Section window.
Context (limits : RateLimits) (k : Kind) (ip : IpAddr) (unix t : Z).
Context (Hip : ip_wf ip) (Hlimit : is_u32 (limit_of limits k)) (Hpos : 0 < limit_of limits k)
        (Hwin : 0 < window limits).

Definition source_key : bytes := window_key k ip (window limits) unix.

(** The counter of the source reads [c] throughout the window. *)
Definition reads_count (st : TtlStore) (c : Z) : Prop :=
  ∀ now, t ≤ now < t + window limits → count_of (live st source_key now) = c.

Lemma arrive_unfold a st :
  arrive limits (ar_kind a) (ar_ip a) (ar_unix a) (ar_now a) (ar_set a) st =
  hit limits (ar_kind a) (ar_ip a) (limit_of limits (ar_kind a)) (deny_reply (ar_kind a))
    (ar_unix a) (ar_now a) (ar_set a) st.
Proof. by destruct (ar_kind a). Qed.

Lemma reads_count_own a st c :
  from_source k ip a → bucket (window limits) (ar_unix a) = bucket (window limits) unix →
  t ≤ ar_now a < t + window limits → t ≤ ar_set a →
  0 ≤ c ≤ limit_of limits k → reads_count st c →
  ∃ st', arrive limits (ar_kind a) (ar_ip a) (ar_unix a) (ar_now a) (ar_set a) st =
      (if c <? limit_of limits k then Allow else Deny (deny_reply k), st') ∧
    reads_count st' (if c <? limit_of limits k then c + 1 else c).
Proof.
  intros [Hk Hi] Hb Hnow Hset Hc Hst. rewrite arrive_unfold. unfold hit. rewrite Hk, Hi.
  assert (window_key k ip (window limits) (ar_unix a) = source_key) as ->
    by (unfold source_key, window_key; by rewrite Hb).
  rewrite (proj2 (Z.eqb_neq _ 0)) by lia. rewrite (proj2 (Z.eqb_neq (window limits) 0)) by lia. simpl.
  pose proof (ttl_get_live st source_key (ar_now a)) as Hget.
  destruct (ttl_get source_key (ar_now a) st) as [v st1] eqn:Eg. simpl in Hget. subst v.
  rewrite (Hst _ Hnow). destruct (Z.ltb_spec c (limit_of limits k)).
  - rewrite (proj2 (Z.leb_gt _ _)) by done. eexists. split; [done|]. intros now Hn.
    unfold ttl_set. rewrite live_insert, decide_True by done.
    rewrite (proj2 (Z.leb_gt _ _)) by lia. apply count_of_u32. width.
  - rewrite (proj2 (Z.leb_le _ _)) by done. eexists. split; [done|]. intros now Hn.
    unfold ttl_get in Eg. specialize (Hst _ Hnow) as Hcur. unfold live in Hcur.
    destruct (st !! source_key) as [e|] eqn:Ee; simpl in Hcur; [|simpl in Hcur; lia].
    destruct (is_expired e (ar_now a)) eqn:Ex; [simpl in Hcur; lia|]. injection Eg as _ <-. by apply Hst.
Qed.

Lemma reads_count_other a st c :
  ¬ from_source k ip a → ip_wf (ar_ip a) →
  bucket (window limits) (ar_unix a) = bucket (window limits) unix → reads_count st c →
  reads_count (arrive limits (ar_kind a) (ar_ip a) (ar_unix a) (ar_now a) (ar_set a) st).2 c.
Proof.
  intros Hne Hwf Hb Hst. rewrite arrive_unfold. unfold hit. case_match; [done|].
  set (key := window_key (ar_kind a) (ar_ip a) (window limits) (ar_unix a)).
  assert (key ≠ source_key) as Hkey by (intros E; apply window_key_inj in E; [done..|]; exact Hb).
  assert (reads_count (ttl_get key (ar_now a) st).2 c) as Hget.
  { intros now Hn. unfold ttl_get. repeat case_match; simpl; try by apply Hst.
    rewrite live_delete, decide_False by done. by apply Hst. }
  destruct (ttl_get key (ar_now a) st) as [v st1]. simpl in *. case_match; [done|]. simpl.
  intros now Hn. unfold ttl_set. rewrite live_insert, decide_False by done. by apply Hget.
Qed.

(** The inbound rate limit is exact.  Among the connections (or the
    messages) of one wall-clock window, interleaved in any order with those of
    other addresses and of the other kind, the first [limit] of one address
    are allowed and every later one is refused with the 421 (or 452) reply. *)
Theorem inbound_limit_exact l st :
  reads_count st 0 → same_window limits unix t l →
  let decisions := (filter (λ r, from_source k ip r.1) (run limits l st)).*2 in
  let allowed := Nat.min (length decisions) (Z.to_nat (limit_of limits k)) in
  decisions = replicate allowed Allow ++
    replicate (length decisions - allowed) (Deny (deny_reply k)).
Proof.
  assert (∀ c, 0 ≤ c ≤ limit_of limits k → reads_count st c → same_window limits unix t l →
    let decisions := (filter (λ r, from_source k ip r.1) (run limits l st)).*2 in
    let allowed := Nat.min (length decisions) (Z.to_nat (limit_of limits k - c)) in
    decisions = replicate allowed Allow ++
      replicate (length decisions - allowed) (Deny (deny_reply k))) as Hgen.
  { revert st. induction l as [|a l IH]; intros st c Hc Hst Hsame; [done|].
    apply Forall_cons in Hsame as [(Hwf & Hb & Hnow & Hset) Hsame]. cbn [run].
    destruct (decide (from_source k ip a)) as [Hsrc|Hsrc].
    - destruct (reads_count_own a st c) as (st' & -> & Hst'); [done..|].
      rewrite filter_cons_True by done. rewrite fmap_cons. cbn [length snd].
      destruct (Z.ltb_spec c (limit_of limits k)).
      + specialize (IH st' (c + 1) ltac:(lia) Hst' Hsame). simpl in IH.
        replace (Z.to_nat (limit_of limits k - c)) with (Datatypes.S (Z.to_nat (limit_of limits k - (c + 1)))) by lia.
        rewrite <-Nat.succ_min_distr. cbn [replicate app Nat.sub]. f_equal. exact IH.
      + specialize (IH st' c Hc Hst' Hsame). simpl in IH.
        replace (Z.to_nat (limit_of limits k - c)) with 0%nat in * by lia.
        rewrite Nat.min_0_r in *. rewrite Nat.sub_0_r in *. cbn [replicate app] in *. f_equal. exact IH.
    - pose proof (reads_count_other a st c Hsrc Hwf Hb Hst) as Hst'.
      destruct (arrive limits (ar_kind a) (ar_ip a) (ar_unix a) (ar_now a) (ar_set a) st) as [d st'].
      rewrite filter_cons_False by done. by apply (IH st' c). }
  intros Hst Hsame. specialize (Hgen 0 ltac:(lia) Hst Hsame). rewrite Z.sub_0_r in Hgen. exact Hgen.
Qed.
End window.

Lemma inbound_limit_exact_witness :
  let limits := mkRateLimits 1 5 (60 * 10 ^ 9) in
  let ip := V4 [192; 0; 2; 1] in let other := V4 [192; 0; 2; 2] in
  let l := [mkArrival Connection ip 120 7 7; mkArrival Connection other 121 8 8;
            mkArrival Message ip 122 9 9; mkArrival Connection ip 179 10 11] in
  (filter (λ r, from_source Connection ip r.1) (run limits l ∅)).*2 =
    [Allow; Deny TOO_MANY_CONNECTIONS].
Proof.
  intros limits ip other l.
  pose proof (inbound_limit_exact limits Connection ip 120 7 ltac:(reflexivity) ltac:(simpl; width)
    ltac:(simpl; lia) ltac:(simpl; lia) l ∅) as H.
  rewrite H; [vm_compute; reflexivity|intros now Hn; reflexivity|].
  repeat constructor; simpl; lia.
Defined.
End Inbound.

Module Outbound.
Record OutboundLimits : Type := mkOutboundLimits {
  max_per_sender : Z; max_per_domain : Z; window : Z }.

(** [OutboundLimits::default]. *)
Definition default_limits : OutboundLimits := mkOutboundLimits 500 2000 (3600 * 10 ^ 9).

(** [OutboundLimits::is_disabled]. *)
Definition is_disabled (l : OutboundLimits) : bool :=
  (window l =? 0) || ((max_per_sender l =? 0) && (max_per_domain l =? 0)).

Inductive Axis : Type := Sender | Domain.
#[global] Instance Axis_eq_dec : EqDecision Axis.
Proof. solve_decision. Defined.
Definition axis_tag (a : Axis) : Z := match a with Sender => 115 | Domain => 100 end.

Inductive OutboundDecision : Type := Allow | Deny (a : Axis).
#[global] Instance OutboundDecision_eq_dec : EqDecision OutboundDecision.
Proof. solve_decision. Defined.

(** [domain_of]: what follows the last at-sign. *)
Definition domain_of (sender : bytes) : bytes :=
  match rsplit_once 64 sender with Some (_, domain) => domain | None => [] end.

(** [window_key]. *)
Definition window_key (a : Axis) (identity : bytes) (window unix : Z) : bytes :=
  bs "ro:" ++ [axis_tag a] ++ u64_be (bucket window unix) ++ identity.

(** [OutboundLimiter::window_end]. *)
Definition window_end (limits : OutboundLimits) (now : Z) : Z :=
  let w := Z.max (as_secs (window limits)) 1 in (now / w + 1) * w.

(** Every call reads the clocks again: reading [i] of a call of [check]. *)
Record reading : Type := mkReading { unix : Z; instant : Z }.

(** [OutboundLimiter::count]. *)
Definition count (limits : OutboundLimits) (a : Axis) (identity : bytes) (r : reading)
    (st : TtlStore) : Z * TtlStore :=
  let '(v, st) := ttl_get (window_key a identity (window limits) (unix r)) (instant r) st in
  (count_of v, st).

(** [OutboundLimiter::is_over]. *)
Definition is_over (limits : OutboundLimits) (a : Axis) (identity : bytes) (limit : Z)
    (r : reading) (st : TtlStore) : bool * TtlStore :=
  if limit =? 0 then (false, st)
  else let '(n, st) := count limits a identity r st in (limit <=? n, st).

(** [OutboundLimiter::record]. *)
Definition record_sent (limits : OutboundLimits) (a : Axis) (identity : bytes) (limit : Z)
    (r1 r2 r3 : reading) (st : TtlStore) : TtlStore :=
  if limit =? 0 then st
  else
    let key := window_key a identity (window limits) (unix r1) in
    let '(n, st) := count limits a identity r2 st in
    ttl_set key (u32_be (n + 1)) (window limits) (instant r3) st.

(** [OutboundLimiter::check]. *)
Definition check (limits : OutboundLimits) (sender : bytes) (clk : nat → reading)
    (st : TtlStore) : OutboundDecision * TtlStore :=
  if is_disabled limits then (Allow, st)
  else
    let sender := to_ascii_lowercase sender in
    let domain := domain_of sender in
    let '(over, st) := is_over limits Sender sender (max_per_sender limits) (clk 0%nat) st in
    if (over : bool) then (Deny Sender, st)
    else
      let '(over, st) := is_over limits Domain domain (max_per_domain limits) (clk 1%nat) st in
      if (over : bool) then (Deny Domain, st)
      else
        let st := record_sent limits Sender sender (max_per_sender limits)
                    (clk 2%nat) (clk 3%nat) (clk 4%nat) st in
        let st := record_sent limits Domain domain (max_per_domain limits)
                    (clk 5%nat) (clk 6%nat) (clk 7%nat) st in
        (Allow, st).

(** *** The specification: decide on what was allowed so far in the window *)

Definition limit_of (limits : OutboundLimits) (a : Axis) : Z :=
  match a with Sender => max_per_sender limits | Domain => max_per_domain limits end.

Definition identity_of (a : Axis) (sender : bytes) : bytes :=
  match a with
  | Sender => to_ascii_lowercase sender
  | Domain => domain_of (to_ascii_lowercase sender)
  end.

(** How many of the senders in [h] count against [identity]. *)
Definition sent (a : Axis) (identity : bytes) (h : list bytes) : Z :=
  Z.of_nat (length (filter (λ s, identity_of a s = identity) h)).

Definition at_limit (limits : OutboundLimits) (a : Axis) (h : list bytes) (sender : bytes) : bool :=
  negb (limit_of limits a =? 0) && (limit_of limits a <=? sent a (identity_of a sender) h).

Definition decide_sent (limits : OutboundLimits) (h : list bytes) (sender : bytes) : OutboundDecision :=
  if at_limit limits Sender h sender then Deny Sender
  else if at_limit limits Domain h sender then Deny Domain
  else Allow.

Fixpoint run (limits : OutboundLimits) (msgs : list (bytes * (nat → reading))) (st : TtlStore)
  : list OutboundDecision :=
  match msgs with
  | [] => []
  | (sender, clk) :: msgs =>
      let '(d, st') := check limits sender clk st in d :: run limits msgs st'
  end.

Fixpoint spec_run (limits : OutboundLimits) (msgs : list (bytes * (nat → reading))) (h : list bytes)
  : list OutboundDecision * list bytes :=
  match msgs with
  | [] => ([], h)
  | (sender, _) :: msgs =>
      let d := decide_sent limits h sender in
      let '(ds, h') := spec_run limits msgs (if decide (d = Allow) then sender :: h else h) in
      (d :: ds, h')
  end.

Section window.
Context (limits : OutboundLimits) (u t : Z).
Context (Hlimits : ∀ a, is_u32 (limit_of limits a)).

Definition in_window (r : reading) : Prop :=
  bucket (window limits) (unix r) = bucket (window limits) u ∧
  t ≤ instant r < t + window limits.

Definition cell (a : Axis) (identity : bytes) : bytes := window_key a identity (window limits) u.

(** Every counter in use reads [f] throughout the window. *)
Definition cells (st : TtlStore) (f : Axis → bytes → Z) : Prop :=
  ∀ a id now, limit_of limits a ≠ 0 → t ≤ now < t + window limits →
    count_of (live st (cell a id) now) = f a id.

Lemma cell_inj a id a' id' : cell a id = cell a' id' → a = a' ∧ id = id'.
Proof.
  unfold cell, window_key. intros E. apply app_inv_head in E.
  assert (a = a') as <-.
  { apply (f_equal (λ l, nth 0 l 0)) in E. by destruct a, a'. }
  by do 2 apply app_inv_head in E.
Qed.

Lemma window_key_cell r a id : in_window r → window_key a id (window limits) (unix r) = cell a id.
Proof. intros [E _]. unfold cell, window_key. by rewrite E. Qed.

(** Looking a counter up, expired or not, leaves every count as it was. *)
Lemma count_spec st f a id r :
  cells st f → in_window r → limit_of limits a ≠ 0 →
  ∃ st', count limits a id r st = (f a id, st') ∧ cells st' f.
Proof.
  intros Hc Hr Hl. unfold count. rewrite window_key_cell by done. destruct Hr as [_ Hi].
  pose proof (Hc a id (instant r) Hl Hi) as Hn.
  pose proof (ttl_get_live st (cell a id) (instant r)) as Hg.
  destruct (ttl_get (cell a id) (instant r) st) as [v st'] eqn:Eg. simpl in Hg. subst v.
  exists st'. cbv beta iota. rewrite Hn. split; [done|].
  unfold ttl_get in Eg. unfold live in Hn, Eg.
  destruct (st !! cell a id) as [e|]; simpl in Hn, Eg; [|by simplify_eq].
  destruct (is_expired e (instant r)); [|by simplify_eq].
  simplify_eq. intros a' id' now Hl' Hn'. rewrite live_delete.
  case_decide as E; [apply cell_inj in E as [<- <-]; simpl in *; lia|by apply Hc].
Qed.

Lemma is_over_spec st h a sender r :
  cells st (λ a id, sent a id h) → in_window r →
  ∃ st', is_over limits a (identity_of a sender) (limit_of limits a) r st = (at_limit limits a h sender, st')
    ∧ cells st' (λ a id, sent a id h).
Proof.
  intros Hc Hr. unfold is_over, at_limit. destruct (Z.eqb_spec (limit_of limits a) 0); [by exists st|].
  destruct (count_spec st _ a (identity_of a sender) r Hc Hr) as (st' & -> & Hc'); [done|].
  by exists st'.
Qed.

(** Adding one to the count of one identity. *)
Definition bump (f : Axis → bytes → Z) (a : Axis) (id : bytes) : Axis → bytes → Z :=
  λ a' id', if decide (a' = a ∧ id' = id) then f a id + 1 else f a' id'.

Lemma record_spec st f a id r1 r2 r3 :
  cells st f → in_window r1 → in_window r2 → in_window r3 → 
  (limit_of limits a ≠ 0 → is_u32 (f a id + 1)) →
  cells (record_sent limits a id (limit_of limits a) r1 r2 r3 st) (bump f a id).
Proof.
  intros Hc H1 H2 [_ H3] Hf. unfold record_sent. destruct (Z.eqb_spec (limit_of limits a) 0).
  { intros a' id' now Hl' Hn'. unfold bump. case_decide; [naive_solver|by apply Hc]. }
  destruct (count_spec st _ a id r2 Hc H2) as (st' & -> & Hc'); [done|].
  rewrite window_key_cell by done. intros a' id' now Hl' Hn'. unfold bump, ttl_set.
  rewrite live_insert. case_decide as E.
  - apply cell_inj in E as [<- <-]. rewrite decide_True by done.
    rewrite (proj2 (Z.leb_gt _ _)) by lia. apply count_of_u32. auto.
  - rewrite decide_False by naive_solver. by apply Hc'.
Qed.

Lemma at_limit_false a h sender :
  at_limit limits a h sender = false → limit_of limits a ≠ 0 →
  0 ≤ sent a (identity_of a sender) h < limit_of limits a.
Proof. unfold at_limit. intros. assert (0 ≤ sent a (identity_of a sender) h) by (unfold sent; lia). lia. Qed.

Lemma sent_cons a id sender h :
  sent a id (sender :: h) = sent a id h + (if decide (identity_of a sender = id) then 1 else 0).
Proof. unfold sent. rewrite filter_cons. case_decide; simpl; lia. Qed.

Lemma check_spec st h sender clk :
  is_disabled limits = false →
  cells st (λ a id, sent a id h) → (∀ i, in_window (clk i)) →
  ∃ st', check limits sender clk st = (decide_sent limits h sender, st') ∧
    cells st' (λ a id, sent a id (if decide (decide_sent limits h sender = Allow) then sender :: h else h)).
Proof.
  intros Hdis Hc Hclk. unfold check, decide_sent. rewrite Hdis.
  destruct (is_over_spec st h Sender sender (clk 0%nat)) as (st1 & E1 & Hc1); [done..|].
  simpl in E1. rewrite E1. destruct (at_limit limits Sender h sender) eqn:Es; [by exists st1|].
  destruct (is_over_spec st1 h Domain sender (clk 1%nat)) as (st2 & E2 & Hc2); [done..|].
  simpl in E2. rewrite E2. destruct (at_limit limits Domain h sender) eqn:Ed; [by exists st2|].
  pose proof (at_limit_false _ _ _ Es) as Hs. pose proof (at_limit_false _ _ _ Ed) as Hd.
  eexists. split; [done|]. rewrite decide_True by done.
  eapply (record_spec _ _ Sender (identity_of Sender sender) (clk 2%nat) (clk 3%nat) (clk 4%nat)) in Hc2;
    [|done..|intros ?; pose proof (Hlimits Sender); specialize (Hs ltac:(done)); width].
  eapply (record_spec _ _ Domain (identity_of Domain sender) (clk 5%nat) (clk 6%nat) (clk 7%nat)) in Hc2;
    [|done..|].
  - intros a id now Hl Hn. etransitivity; [exact (Hc2 a id now Hl Hn)|]. rewrite sent_cons. unfold bump.
    destruct a; repeat case_decide; naive_solver lia.
  - intros ?. pose proof (Hlimits Domain). specialize (Hd ltac:(done)).
    unfold bump. rewrite decide_False by naive_solver. width.
Qed.

(** The outbound limits hold per sender and per domain.  The decisions of
    [check] over the messages of one window are those of the specification
    that looks only at the senders already allowed, and when all is done no
    sender address (folded to lower case) and no sender domain has had more
    messages allowed than its non-zero limit. *)
Theorem outbound_limits_hold msgs :
  is_disabled limits = false → Forall (λ m, ∀ i, in_window (m.2 i)) msgs →
  run limits msgs ∅ = (spec_run limits msgs []).1 ∧
  ∀ a id, limit_of limits a ≠ 0 → sent a id (spec_run limits msgs []).2 ≤ limit_of limits a.
Proof.
  intros Hdis Hin.
  assert (cells ∅ (λ a id, sent a id [])) as Hc by done.
  assert (∀ a id, limit_of limits a ≠ 0 → sent a id [] ≤ limit_of limits a) as Hb.
  { intros a id Hl. unfold sent. simpl. pose proof (Hlimits a). width. }
  revert Hc Hb. generalize (∅ : TtlStore) ([] : list bytes).
  induction Hin as [|[sender clk] msgs Hclk _ IH]; intros st h Hc Hb; [done|]. simpl.
  destruct (check_spec st h sender clk) as (st' & -> & Hc'); [done..|].
  set (h' := if decide (decide_sent limits h sender = Allow) then sender :: h else h) in *.
  destruct (IH st' h' Hc') as [Hr Hb'].
  - intros a id Hl. unfold h'. case_decide as Hd; [|by apply Hb].
    rewrite sent_cons. case_decide as Hid; [|rewrite Z.add_0_r; by apply Hb].
    unfold decide_sent in Hd.
    destruct (at_limit limits Sender h sender) eqn:Es; [done|].
    destruct (at_limit limits Domain h sender) eqn:Ed; [done|]. subst id.
    destruct a; [apply at_limit_false in Es|apply at_limit_false in Ed]; lia.
  - destruct (spec_run limits msgs h') as [ds h'']. simpl in *. rewrite Hr. done.
Qed.
End window.

Lemma outbound_limits_hold_witness :
  let limits := mkOutboundLimits 1 2 (3600 * 10 ^ 9) in
  let clk := λ _ : nat, mkReading 7200 5 in
  run limits [(bs "a@x", clk); (bs "A@X", clk); (bs "b@x", clk); (bs "c@x", clk)] ∅ =
    [Allow; Deny Sender; Allow; Deny Domain].
Proof.
  intros limits clk.
  destruct (outbound_limits_hold limits 7200 5 ltac:(intros []; split; by vm_compute)
    [(bs "a@x", clk); (bs "A@X", clk); (bs "b@x", clk); (bs "c@x", clk)]) as [H _].
  - reflexivity.
  - by repeat constructor.
  - rewrite H. vm_compute. reflexivity.
Defined.
End Outbound.
