(* ===== verification/Expiring.v ===== *)
(** * Persistent keys with a deadline, and greylisting

    [ExpiringStore] (crates/store/src/expiring.rs) keeps expiry times in the
    Registry subspace under the tag 0x40; [Greylist]
    (crates/smtp/src/greylist.rs) remembers there which sender and recipient
    pairs it has turned away once.  The wall clock ([unix_now], in seconds) is
    an argument; durations are in nanoseconds. *)

From S2P Require Import Prelude Bytes Key Store Ttl.
From stdpp Require Import base gmap list strings sorting.
From Stdlib Require Import ZArith Lia.

Open Scope Z_scope.

Definition TAG_EXPIRING : Z := 64.
Definition expiring_prefix : bytes := [subspace_as_byte Registry; TAG_EXPIRING].

(** [full_key]. *)
Definition full_key (key : bytes) : bytes :=
  [subspace_as_byte Registry; TAG_EXPIRING] ++ key.

(** [decode_expiry]. *)
Definition decode_expiry (v : bytes) : option Z :=
  if (length v =? 8)%nat then Some (of_be_bytes v) else None.

(** Is the row dead at [now]?  A value that is not eight bytes is. *)
Definition dead (now : Z) (v : bytes) : bool :=
  match decode_expiry v with Some expiry => expiry <=? now | None => true end.

Section operations.
Context {S : Type} `{Store S}.

(** [ExpiringStore::set_at]. *)
Definition set_at (key : bytes) (ttl now : Z) : M S unit :=
  let expiry := saturating_add_u64 now (as_secs ttl) in
  st_put (full_key key) (u64_be expiry).

(** [ExpiringStore::contains_at]. *)
Definition contains_at (key : bytes) (now : Z) (s : S) : result bool :=
  v ← st_get (full_key key) s;
  match v with
  | Some v => Ok match decode_expiry v with Some expiry => now <? expiry | None => false end
  | None => Ok false
  end.

(** [ExpiringStore::sweep_expired_at]; the captured vector is the accumulator. *)
Definition sweep_visit (now : Z) (expired : list WriteOp) (key value : bytes)
  : result (list WriteOp * Flow) :=
  if (length key <? 2)%nat || negb (nth 1 key 0 =? TAG_EXPIRING)
  then Ok (expired, if bytes_ltb [TAG_EXPIRING] (drop 1 key) then Stop else Continue)
  else if dead now value then Ok (expired ++ [WDelete key], Continue)
  else Ok (expired, Continue).

Definition sweep_expired_at (now : Z) : M S nat :=
  expired ← reads (st_iterate_from (kp_subspace Registry)
    [subspace_as_byte Registry; TAG_EXPIRING] (sweep_visit now) []);
  let removed := length expired in
  if (0 <? removed)%nat then (_ ← st_batch expired; mret removed) else mret removed.
End operations.

(** ** Greylisting *)

Definition GREYLISTED : bytes := line "452 4.2.2 Greylisted, please retry in a few moments".

Record GreylistConfig : Type := mkGreylist { gl_window : Z }.

(** [GreylistConfig::is_disabled]. *)
Definition gl_is_disabled (c : GreylistConfig) : bool := gl_window c =? 0.

Inductive GreylistDecision : Type := GlAllow | GlDefer (reply : bytes).

(** [pair_key]: both addresses folded and length-prefixed. *)
Definition pair_key (from rcpt : bytes) : bytes :=
  let from := to_ascii_lowercase from in
  let rcpt := to_ascii_lowercase rcpt in
  bs "gl:" ++ u32_be (as_u32 (Z.of_nat (length from))) ++ from
           ++ u32_be (as_u32 (Z.of_nat (length rcpt))) ++ rcpt.

Section greylist.
Context {S : Type} `{Store S}.

(** [Greylist::check]; [contains] and [set] each read the clock. *)
Definition gl_check (config : GreylistConfig) (from rcpt : bytes) (authenticated : bool)
    (now_get now_set : Z) : M S GreylistDecision :=
  if authenticated || gl_is_disabled config then mret GlAllow
  else
    let key := pair_key from rcpt in
    known ← reads (contains_at key now_get);
    if (known : bool) then mret GlAllow
    else
      _ ← set_at key (gl_window config) now_set;
      mret (GlDefer GREYLISTED).

(** [Greylist::check_or_allow]: mail flows when the store fails. *)
Definition check_or_allow (config : GreylistConfig) (from rcpt : bytes) (authenticated : bool)
    (now_get now_set : Z) (s : S) : GreylistDecision * S :=
  match gl_check config from rcpt authenticated now_get now_set s with
  | (Ok d, s') => (d, s')
  | (Err _, s') => (GlAllow, s')
  end.
End greylist.

(** ** Lemmas *)

Lemma full_key_known key : known (full_key key).
Proof. by exists Registry. Qed.
#[global] Hint Resolve full_key_known : keys.

Lemma full_key_inj k1 k2 : full_key k1 = full_key k2 → k1 = k2.
Proof. unfold full_key. intros [= ?]. done. Qed.

(** The sweep's visitor keeps to the tag and stops behind it. *)
Lemma scan_sweep now rs ops :
  StronglySorted row_lt rs →
  Forall (λ r, prefix_encode (kp_subspace Registry) `prefix_of` r.1 ∧ bytes_le expiring_prefix r.1) rs →
  scan (sweep_visit now) rs ops =
    Ok (ops ++ (WDelete <$> (filter (λ r, expiring_prefix `prefix_of` r.1 ∧ dead now r.2 = true) rs).*1)).
Proof.
  intros Hs. revert ops. induction Hs as [|[k v] rs Hs IH Hlt]; intros ops Hall.
  { simpl. by rewrite app_nil_r. }
  apply Forall_cons in Hall as [[[k' Hp] Hle] Hall]. simpl in Hp, Hle. subst k.
  cbn [scan]. unfold sweep_visit at 1. unfold prefix_encode, kp_subspace in *. simpl in *.
  destruct k' as [|b k'].
  { exfalso. by apply Hle. }
  simpl. destruct (Z.eqb_spec b TAG_EXPIRING) as [->|Hb]; simpl.
  - destruct (dead now v) eqn:Ed.
    + rewrite IH by done. rewrite filter_cons_True by (split; [by exists k'|done]).
      by rewrite fmap_cons, fmap_cons, <-app_assoc.
    + rewrite IH by done. rewrite filter_cons_False; [done|]. simpl. intros [_ ?]. congruence.
  - assert (bytes_lt [TAG_EXPIRING] (b :: k')) as Hgt.
    { unfold bytes_le, bytes_lt, expiring_prefix in *. cbn [bytes_cmp] in *.
      rewrite Z.compare_refl in Hle.
      destruct (TAG_EXPIRING ?= b) eqn:Ec; [apply Z.compare_eq_iff in Ec; congruence|done|done]. }
    rewrite (proj2 (bytes_ltb_spec _ _) Hgt). rewrite filter_none; [by rewrite app_nil_r|].
    apply Forall_cons. split.
    + intros [[l Hl] _]. simpl in Hl. congruence.
    + rewrite Forall_forall in *. intros [k2 v2] Hr [Hpre _]. simpl in *.
      assert (expiring_prefix `prefix_of` subspace_as_byte Registry :: b :: k') as [l Hl].
      { apply (prefix_convex _ expiring_prefix _ k2); [done|done|done|].
        apply bytes_lt_le. exact (Hlt _ Hr). }
      simpl in Hl. congruence.
Qed.

(** What a key reads at an instant. *)
Definition holds (m : contents) (key : bytes) (now : Z) : bool :=
  match m !! full_key key with Some v => negb (dead now v) | None => false end.

Lemma dead_mono t now v : dead t v = true → t ≤ now → dead now v = true.
Proof. unfold dead. case_match; lia. Qed.

Lemma holds_insert m key expiry key' now :
  is_u64 expiry →
  holds (<[full_key key := u64_be expiry]> m) key' now =
    if decide (key' = key) then now <? expiry else holds m key' now.
Proof.
  intros He. unfold holds. case_decide as E.
  - subst. rewrite lookup_insert_eq. unfold dead, decode_expiry. rewrite length_u64_be. simpl.
    rewrite of_be_bytes_u64 by done. by rewrite <-Z.ltb_antisym.
  - rewrite lookup_insert_ne; [done|]. by intros ?%full_key_inj.
Qed.

Section spec.
Context {S : Type} {store : Store S} {contract : StoreSpec S}.
Implicit Types s : S.

Lemma contains_at_spec key now s : healthy s → contains_at key now s = Ok (holds (view s) key now).
Proof.
  intros Hs. unfold contains_at, holds. rewrite get_spec by auto with keys. simpl.
  destruct (view s !! full_key key) as [v|]; [|done]. unfold dead.
  destruct (decode_expiry v); [|done]. by rewrite <-Z.ltb_antisym.
Qed.

Lemma set_at_spec key ttl now s :
  healthy s → 0 ≤ now → 0 ≤ ttl →
  ∃ s', set_at key ttl now s = (Ok tt, s') ∧ healthy s' ∧ ∀ key' t,
    holds (view s') key' t =
      if decide (key' = key) then t <? saturating_add_u64 now (as_secs ttl) else holds (view s) key' t.
Proof.
  intros Hs Hn Ht. unfold set_at.
  destruct (put_spec (full_key key) (u64_be (saturating_add_u64 now (as_secs ttl))) s)
    as (s' & E & Hs' & Hv); [done|auto with keys|].
  exists s'. split_and!; [done|done|]. intros. rewrite Hv. apply holds_insert.
  assert (0 ≤ as_secs ttl) by (apply Z.div_pos; lia). unfold saturating_add_u64. width.
Qed.

(** Sweeping removes the dead and nothing else.  On a healthy store
    [sweep_expired_at] succeeds; afterwards every key reads, at every instant
    from the sweep on, as it did before; no expired key is left; and no record
    outside the expiring range has changed. *)
Theorem sweep_preserves_live now s :
  healthy s →
  ∃ s' removed, sweep_expired_at now s = (Ok removed, s') ∧ healthy s' ∧
    (∀ key t, now ≤ t → contains_at key t s' = contains_at key t s) ∧
    (∀ key v, view s' !! full_key key = Some v → contains_at key now s' = Ok true) ∧
    (∀ k, ¬ expiring_prefix `prefix_of` k → view s' !! k = view s !! k).
Proof.
  intros Hs. set (rs := rows_from (view s) (prefix_encode (kp_subspace Registry)) expiring_prefix).
  set (keys := (filter (λ r, expiring_prefix `prefix_of` r.1 ∧ dead now r.2 = true) rs).*1).
  assert (∀ k, k ∈ keys ↔ expiring_prefix `prefix_of` k ∧ ∃ v, view s !! k = Some v ∧ dead now v = true)
    as Hkeys.
  { intros k. unfold keys. rewrite list_elem_of_fmap. split.
    - intros ([k' v] & -> & [[? ?] [? _]%elem_of_rows_from]%list_elem_of_filter). eauto.
    - intros (Hp & v & Hk & Hd). exists (k, v). split; [done|]. apply list_elem_of_filter.
      split; [done|]. apply elem_of_rows_from. split_and!; [done| |by apply prefix_bytes_le].
      destruct Hp as [l ->]. by exists (TAG_EXPIRING :: l). }
  destruct (apply_deletes (view s) keys) as (m' & Em & Hm').
  assert (∃ s', sweep_expired_at now s = (Ok (length keys), s') ∧ healthy s' ∧ view s' = m')
    as (s' & E & Hs' & Hv).
  { unfold sweep_expired_at, mbind, M_bind, reads. rewrite iterate_from_spec by done. fold expiring_prefix. fold rs.
    rewrite scan_sweep; [|apply rows_from_sorted|].
    2:{ apply Forall_forall. intros [k v] (_ & ? & ?)%elem_of_rows_from. done. }
    rewrite app_nil_l. fold keys. rewrite length_fmap. case_match eqn:Eb.
    - destruct (λ Hok, batch_spec (WDelete <$> keys) s m' Hs Hok Em) as (s' & -> & ? & ?); [|eauto].
      apply deletes_ok, Forall_forall. intros k [[l ->] _]%Hkeys. by exists Registry.
    - exists s. split_and!; [done..|]. destruct keys; [|done]. simpl in Em. congruence. }
  exists s', (length keys). split_and!; [done|done| | |].
  - intros key t Ht. rewrite !contains_at_spec by done. f_equal. unfold holds. rewrite Hv, Hm'.
    case_decide as Hk; [|done]. apply Hkeys in Hk as (_ & v & -> & Hd). by rewrite (dead_mono now).
  - intros key v. rewrite contains_at_spec by done. unfold holds. rewrite Hv, Hm'.
    case_decide as Hk; [done|]. intros Hl. rewrite Hl. destruct (dead now v) eqn:Ed; [|done].
    destruct Hk. apply Hkeys. split; [by exists key|eauto].
  - intros k Hk. rewrite Hv, Hm'. rewrite decide_False; [done|]. by intros [? _]%Hkeys.
Qed.

Lemma pair_key_inj f1 r1 f2 r2 :
  is_u32 (Z.of_nat (length f1)) → is_u32 (Z.of_nat (length f2)) →
  pair_key f1 r1 = pair_key f2 r2 →
  to_ascii_lowercase f1 = to_ascii_lowercase f2 ∧ to_ascii_lowercase r1 = to_ascii_lowercase r2.
Proof.
  intros H1 H2 E. unfold pair_key, to_ascii_lowercase in *. rewrite !length_fmap in E.
  apply app_inv_head in E. apply app_inj_1 in E as [El E]; [|by rewrite !length_u32_be].
  apply u32_be_inj in El; [|apply as_u32_range..]. rewrite !as_u32_id in El by done.
  apply app_inj_1 in E as [Ef E]; [|rewrite !length_fmap; lia]. split; [done|].
  by apply app_inj_1 in E as [_ ?]; [|by rewrite !length_u32_be].
Qed.

(** Greylisting.  With a window set, an unauthenticated check of a pair
    that is not remembered defers it and remembers it: until [window] seconds
    after the deferral exactly this pair, in whatever letter case, is allowed,
    and every other pair reads as before.  A remembered pair is allowed and
    the store is left alone. *)
Theorem greylist_defers_once config from rcpt now_get now_set s :
  healthy s → 0 < gl_window config → 0 ≤ now_set →
  is_u32 (Z.of_nat (length from)) →
  ∃ s', gl_check config from rcpt false now_get now_set s =
      (Ok (if holds (view s) (pair_key from rcpt) now_get then GlAllow else GlDefer GREYLISTED), s') ∧
    healthy s' ∧
    (holds (view s) (pair_key from rcpt) now_get = true → s' = s) ∧
    (holds (view s) (pair_key from rcpt) now_get = false →
     ∀ from' rcpt' t u, is_u32 (Z.of_nat (length from')) →
       (gl_check config from' rcpt' false t u s').1 =
         Ok (if (if decide (to_ascii_lowercase from' = to_ascii_lowercase from ∧
                            to_ascii_lowercase rcpt' = to_ascii_lowercase rcpt)
                 then t <? saturating_add_u64 now_set (as_secs (gl_window config))
                 else holds (view s) (pair_key from' rcpt') t)
             then GlAllow else GlDefer GREYLISTED)).
Proof.
  intros Hs Hw Hn Hlen.
  assert (gl_is_disabled config = false) as Hd by (unfold gl_is_disabled; lia).
  assert (∀ f r t u s, healthy s →
    (gl_check config f r false t u s).1 = Ok (if holds (view s) (pair_key f r) t then GlAllow else GlDefer GREYLISTED))
    as Hres.
  { intros f r t u s1 Hs1. unfold gl_check. rewrite Hd. simpl. unfold mbind, M_bind, reads.
    rewrite contains_at_spec by done. destruct (holds (view s1) (pair_key f r) t); [done|].
    unfold set_at. destruct (put_spec (full_key (pair_key f r))
      (u64_be (saturating_add_u64 u (as_secs (gl_window config)))) s1) as (s2 & -> & _); [done|auto with keys|done]. }
  unfold gl_check at 1. rewrite Hd. simpl. unfold mbind at 1, M_bind at 1, reads at 1.
  rewrite contains_at_spec by done. destruct (holds (view s) (pair_key from rcpt) now_get) eqn:Eh.
  { exists s. by split_and!. }
  destruct (set_at_spec (pair_key from rcpt) (gl_window config) now_set s) as (s' & E & Hs' & Hh'); [done|lia..|].
  exists s'. unfold mbind, M_bind. rewrite E. split_and!; [done|done|done|].
  intros _ from' rcpt' t u Hlen'. rewrite Hres, Hh' by done. do 2 f_equal.
  destruct (decide (pair_key from' rcpt' = pair_key from rcpt)) as [Ek|Ek].
  - rewrite decide_True; [done|]. by apply pair_key_inj.
  - rewrite decide_False; [done|]. intros [E1 E2]. apply Ek. unfold pair_key. by rewrite E1, E2.
Qed.
End spec.

Lemma sweep_preserves_live_witness :
  let s := (set_at [1] (5 * 10 ^ 9) 100 (set_at [2] (50 * 10 ^ 9) 100 (mkMem ∅)).2).2 in
  ∃ s' removed, sweep_expired_at 105 s = (Ok removed, s') ∧ contains_at [2] 120 s' = Ok true.
Proof.
  intros s. destruct (sweep_preserves_live 105 s ltac:(exact I)) as (s' & n & E & _ & Hc & _).
  exists s', n. split; [exact E|]. rewrite (Hc [2] 120) by lia. vm_compute. reflexivity.
Defined.

Lemma greylist_defers_once_witness :
  let config := mkGreylist (300 * 10 ^ 9) in
  ∃ s', gl_check config (bs "a@x") (bs "b@y") false 10 10 (mkMem ∅) = (Ok (GlDefer GREYLISTED), s') ∧
    (gl_check config (bs "A@x") (bs "b@Y") false 60 60 s').1 = Ok GlAllow.
Proof.
  intros config.
  destruct (greylist_defers_once config (bs "a@x") (bs "b@y") 10 10 (mkMem ∅) ltac:(exact I) eq_refl ltac:(lia))
    as (s' & E & _ & _ & Hnext); [by vm_compute|].
  exists s'. split; [exact E|].
  rewrite (Hnext ltac:(vm_compute; reflexivity) (bs "A@x") (bs "b@Y") 60 60) by (by vm_compute).
  vm_compute. reflexivity.
Defined.
