(* ===== verification/Text.v ===== *)
(** * Text: the standard library's formatting, parsing and searching

    What the sources use of [std::fmt], [str::parse], [str::find] and
    [String::from_utf8_lossy], on the UTF-8 bytes of a string. *)

From S2P Require Import Prelude Bytes.
From stdpp Require Import base list strings.
From Stdlib Require Import ZArith Lia.

Open Scope Z_scope.

(** ** Numbers *)

Definition is_digit (b : Z) : bool := (48 <=? b) && (b <=? 57).

(** The digits of [n] in base ten, most significant first; twenty digits hold
    every 64-bit number. *)
Fixpoint dec_digits (fuel : nat) (n : Z) : bytes :=
  match fuel with
  | O => []
  | S fuel => (if n <? 10 then [] else dec_digits fuel (n / 10)) ++ [48 + n mod 10]
  end.

(** The formats [{}], [{:0w}] and, for hexadecimal, [{:x}] and [{:0wx}]. *)
Definition fmt_dec (n : Z) : bytes := dec_digits 20 n.
Definition pad_left (w : nat) (s : bytes) : bytes := replicate (w - length s) 48 ++ s.
Definition fmt_dec_pad (w : nat) (n : Z) : bytes := pad_left w (fmt_dec n).

Definition hex_char (d : Z) : Z := if d <? 10 then 48 + d else 87 + d.
Fixpoint hex_digits (fuel : nat) (n : Z) : bytes :=
  match fuel with
  | O => []
  | S fuel => (if n <? 16 then [] else hex_digits fuel (n / 16)) ++ [hex_char (n mod 16)]
  end.
Definition fmt_hex (n : Z) : bytes := hex_digits 16 n.
Definition fmt_hex_pad (w : nat) (n : Z) : bytes := pad_left w (fmt_hex n).

(** Unsigned [str::parse] up to [max]: digits, with an optional leading plus
    sign; overflow and anything else is an error. *)
Definition dec_value (s : bytes) : Z := foldl (λ acc b, acc * 10 + (b - 48)) 0 s.
Definition parse_uint (max : Z) (s : bytes) : option Z :=
  let s := match s with 43 :: ((_ :: _) as r) => r | _ => s end in
  match s with
  | [] => None
  | _ => if forallb is_digit s && (dec_value s <=? max) then Some (dec_value s) else None
  end.

Definition parse_u16 : bytes → option Z := parse_uint (2 ^ 16 - 1).
Definition parse_u32 : bytes → option Z := parse_uint U32_MAX.
Definition parse_u64 : bytes → option Z := parse_uint U64_MAX.

(** ** Searching *)

(** [str::find] of a pattern: the offset of its first occurrence. *)
Fixpoint find_sub (pat s : bytes) : option nat :=
  if starts_with s pat then Some 0%nat
  else match s with [] => None | _ :: s => S <$> find_sub pat s end.

(** [Iterator::position] and [str::rfind] of one byte. *)
Fixpoint find_byte (c : Z) (s : bytes) : option nat :=
  match s with
  | [] => None
  | b :: s => if b =? c then Some 0%nat else S <$> find_byte c s
  end.
Fixpoint rfind_byte (c : Z) (s : bytes) : option nat :=
  match s with
  | [] => None
  | b :: s =>
      match rfind_byte c s with
      | Some i => Some (S i)
      | None => if b =? c then Some 0%nat else None
      end
  end.

(** [take_while] and its complement. *)
Fixpoint take_while (p : Z → bool) (s : bytes) : bytes :=
  match s with [] => [] | b :: s => if p b then b :: take_while p s else [] end.
Fixpoint drop_while (p : Z → bool) (s : bytes) : bytes :=
  match s with [] => [] | b :: r => if p b then drop_while p r else s end.

(** [slice::split] at one byte: always at least one piece. *)
Fixpoint split_byte (c : Z) (s : bytes) : list bytes :=
  match s with
  | [] => [[]]
  | b :: s =>
      if b =? c then [] :: split_byte c s
      else match split_byte c s with
           | p :: ps => (b :: p) :: ps
           | [] => [[b]]
           end
  end.

(** [str::split_once]. *)
Fixpoint split_once (c : Z) (s : bytes) : option (bytes * bytes) :=
  match s with
  | [] => None
  | b :: s => if b =? c then Some ([], s)
              else match split_once c s with Some (l, r) => Some (b :: l, r) | None => None end
  end.

(** ASCII white space as [char::is_ascii_whitespace] and [u8::trim_ascii]. *)
Definition is_ascii_whitespace (b : Z) : bool :=
  (b =? 32) || (b =? 9) || (b =? 10) || (b =? 12) || (b =? 13).
Definition trim_start (s : bytes) : bytes := drop_while is_ascii_whitespace s.
Definition trim_end (s : bytes) : bytes := reverse (drop_while is_ascii_whitespace (reverse s)).
Definition trim (s : bytes) : bytes := trim_end (trim_start s).

(** [slice::strip_prefix] and [slice::strip_suffix]. *)
Definition strip_prefix (p s : bytes) : option bytes :=
  if starts_with s p then Some (drop (length p) s) else None.
Definition strip_suffix (p s : bytes) : option bytes :=
  if starts_with (reverse s) (reverse p) then Some (take (length s - length p) s) else None.

(** ** UTF-8 *)

Definition is_cont (b : Z) : bool := (128 <=? b) && (b <=? 191).

(** How many continuation bytes a leading byte asks for, and the range of the
    first of them. *)
Definition utf8_lead (b : Z) : option (nat * Z * Z) :=
  if (194 <=? b) && (b <=? 223) then Some (1%nat, 128, 191)
  else if b =? 224 then Some (2%nat, 160, 191)
  else if (225 <=? b) && (b <=? 236) || (b =? 238) || (b =? 239) then Some (2%nat, 128, 191)
  else if b =? 237 then Some (2%nat, 128, 159)
  else if b =? 240 then Some (3%nat, 144, 191)
  else if (241 <=? b) && (b <=? 243) then Some (3%nat, 128, 191)
  else if b =? 244 then Some (3%nat, 128, 143)
  else None.

(** How many of the next [n] bytes are continuation bytes. *)
Fixpoint count_cont (n : nat) (s : bytes) : nat :=
  match n, s with
  | S n, b :: s => if is_cont b then S (count_cont n s) else 0
  | _, _ => 0
  end.

(** The length of the sequence at the head, and whether it is a character;
    an ill-formed sequence is its longest well-formed beginning. *)
Definition utf8_chunk (b : Z) (s : bytes) : nat * bool :=
  if b <? 128 then (1%nat, true)
  else match utf8_lead b with
       | None => (1%nat, false)
       | Some (n, lo, hi) =>
           match s with
           | c :: s' =>
               if (lo <=? c) && (c <=? hi)
               then let k := count_cont (n - 1) s' in ((2 + k)%nat, (k =? n - 1)%nat)
               else (1%nat, false)
           | [] => (1%nat, false)
           end
       end.

(** The replacement character. *)
Definition REPLACEMENT : bytes := [239; 191; 189].

(** [String::from_utf8_lossy]; the fuel is the length. *)
Fixpoint utf8_lossy_go (fuel : nat) (s : bytes) : bytes :=
  match fuel, s with
  | S fuel, b :: r =>
      let '(n, ok) := utf8_chunk b r in
      (if (ok : bool) then take n s else REPLACEMENT) ++ utf8_lossy_go fuel (drop n s)
  | _, _ => []
  end.
Definition utf8_lossy (s : bytes) : bytes := utf8_lossy_go (length s) s.

(** [String::from_utf8] succeeds. *)
Fixpoint utf8_valid_go (fuel : nat) (s : bytes) : bool :=
  match fuel, s with
  | S fuel, b :: r => let '(n, ok) := utf8_chunk b r in ok && utf8_valid_go fuel (drop n s)
  | _, _ => true
  end.
Definition utf8_valid (s : bytes) : bool := utf8_valid_go (length s) s.

(** The length of the white-space character (Unicode White_Space, in UTF-8) at
    the head, zero when there is none; and the same at the end, on the reversed
    text. *)
Definition is_space3 (a b c : Z) : bool :=
  (a =? 225) && (b =? 154) && (c =? 128) ||
  (a =? 226) && (b =? 128) && ((128 <=? c) && (c <=? 138) || (c =? 168) || (c =? 169) || (c =? 175)) ||
  (a =? 226) && (b =? 129) && (c =? 159) ||
  (a =? 227) && (b =? 128) && (c =? 128).
Definition is_space2 (a b : Z) : bool := (a =? 194) && ((b =? 133) || (b =? 160)).
Definition is_space1 (a : Z) : bool := (9 <=? a) && (a <=? 13) || (a =? 32).
Definition space_head (s : bytes) : nat :=
  match s with
  | a :: r =>
      if is_space1 a then 1 else
      match r with
      | b :: r =>
          if is_space2 a b then 2 else
          match r with c :: _ => if is_space3 a b c then 3 else 0 | [] => 0 end
      | [] => 0
      end
  | [] => 0
  end.
Definition space_last (s : bytes) : nat :=
  match s with
  | a :: r =>
      if is_space1 a then 1 else
      match r with
      | b :: r =>
          if is_space2 b a then 2 else
          match r with c :: _ => if is_space3 c b a then 3 else 0 | [] => 0 end
      | [] => 0
      end
  | [] => 0
  end.
Fixpoint drop_spaces (head : bytes → nat) (fuel : nat) (s : bytes) : bytes :=
  match fuel with
  | O => s
  | S fuel => match head s with O => s | n => drop_spaces head fuel (drop n s) end
  end.

(** [str::trim]; the fuel is the length. *)
Definition str_trim (s : bytes) : bytes :=
  let s := drop_spaces space_head (length s) s in
  reverse (drop_spaces space_last (length s) (reverse s)).

(** ** Errors *)

(** The [Display] of [irixmail_core::Error]. *)
Definition show_error (e : Error) : bytes :=
  match e with
  | Config d => bs "configuration error: " ++ bs d
  | Io d => bs "i/o error: " ++ bs d
  | StoreError d => bs "storage error: " ++ bs d
  | Serialize d => bs "serialization error: " ++ bs d
  | NotFound d => bs "not found: " ++ bs d
  | InvalidInput d => bs "invalid input: " ++ bs d
  | Unauthorized d => bs "unauthorized: " ++ bs d
  | Forbidden d => bs "forbidden: " ++ bs d
  | Protocol d => bs "protocol error: " ++ bs d
  | Internal d => bs "internal error: " ++ bs d
  end.

(** ** Words *)

(** [str::trim_start]. *)
Definition str_trim_start (s : bytes) : bytes := drop_spaces space_head (length s) s.
(** [split_once(char::is_whitespace)]. *)
Fixpoint split_once_space (s : bytes) : option (bytes * bytes) :=
  match s with
  | [] => None
  | b :: s' =>
      match space_head s with
      | O => match split_once_space s' with Some (w, r) => Some (b :: w, r) | None => None end
      | n => Some ([], drop n s)
      end
  end.
(** [split_whitespace]: every word takes a byte, so the length bounds them. *)
Fixpoint split_words (fuel : nat) (s : bytes) : list bytes :=
  match fuel with
  | O => []
  | S fuel =>
      match str_trim_start s with
      | [] => []
      | s => match split_once_space s with Some (w, r) => w :: split_words fuel r | None => [s] end
      end
  end.
Definition split_whitespace (s : bytes) : list bytes := split_words (S (length s)) s.

(** ** Lemmas *)

Lemma dec_digits_digit fuel n : 0 ≤ n → forallb is_digit (dec_digits fuel n) = true.
Proof.
  revert n. induction fuel as [|fuel IH]; intros n Hn; [done|]. simpl. rewrite forallb_app.
  assert (0 ≤ n / 10) by (apply Z.div_pos; lia).
  pose proof (Z.mod_pos_bound n 10 ltac:(lia)).
  apply andb_true_iff. split; [case_match; [done|by apply IH]|]. simpl. unfold is_digit. lia.
Qed.

Lemma dec_value_digits fuel n : 0 ≤ n < 10 ^ Z.of_nat fuel → dec_value (dec_digits fuel n) = n.
Proof.
  revert n. induction fuel as [|fuel IH]; intros n Hn.
  { simpl in *. unfold dec_value. simpl. lia. }
  rewrite Nat2Z.inj_succ, Z.pow_succ_r in Hn by lia. simpl.
  unfold dec_value in *. rewrite foldl_app. simpl. pose proof (Z.div_mod n 10 ltac:(lia)).
  destruct (Z.ltb_spec n 10).
  - simpl. rewrite Z.mod_small; lia.
  - rewrite IH; [lia|]. split; [apply Z.div_pos; lia|]. apply Z.div_lt_upper_bound; lia.
Qed.

Lemma dec_digits_cons fuel n : 0 ≤ n → ∃ d l, dec_digits (S fuel) n = d :: l ∧ is_digit d = true.
Proof.
  intros Hn. pose proof (dec_digits_digit (S fuel) n Hn) as Hd.
  destruct (dec_digits (S fuel) n) as [|d l] eqn:E.
  - simpl in E. apply app_eq_nil in E as [_ ?]. done.
  - exists d, l. simpl in Hd. apply andb_true_iff in Hd as [? _]. done.
Qed.

(** Printing and parsing back. *)
Lemma parse_fmt_dec max n : 0 ≤ n ≤ max → n < 10 ^ 20 → parse_uint max (fmt_dec n) = Some n.
Proof.
  intros Hn Hm. unfold fmt_dec. destruct (dec_digits_cons 19 n) as (d & l & E & Hd); [lia|].
  pose proof (dec_digits_digit 20 n ltac:(lia)) as Hall.
  pose proof (dec_value_digits 20 n ltac:(simpl; lia)) as Hv.
  rewrite E in *. unfold parse_uint.
  assert (match d :: l with 43 :: ((_ :: _) as r) => r | _ => d :: l end = d :: l) as ->.
  { unfold is_digit in Hd. destruct (Z.eq_dec d 43) as [->|]; [done|].
    repeat case_match; congruence. }
  rewrite Hall, Hv. by rewrite (proj2 (Z.leb_le _ _)) by lia.
Qed.

(** *** Trimming *)

(** No white space at either end. *)
Definition trimmed (s : bytes) : Prop := space_head s = 0%nat ∧ space_last (reverse s) = 0%nat.

Lemma space_head_length s : (space_head s ≤ length s)%nat.
Proof. destruct s as [|a [|b [|c s]]]; simpl; repeat case_match; simpl; lia. Qed.
Lemma space_last_length s : (space_last s ≤ length s)%nat.
Proof. destruct s as [|a [|b [|c s]]]; simpl; repeat case_match; simpl; lia. Qed.
Lemma drop_spaces_id head n s : head s = 0%nat → drop_spaces head n s = s.
Proof. intros E. destruct n; simpl; [done|]. by rewrite E. Qed.
Lemma drop_spaces_done head n s :
  (∀ s, head s ≤ length s)%nat → (length s ≤ n)%nat →
  head (drop_spaces head n s) = 0%nat ∧ ∃ k, drop_spaces head n s = drop k s.
Proof.
  intros Hh. revert s. induction n as [|n IH]; intros s Hn; simpl.
  - specialize (Hh s). split; [lia|]. by exists 0%nat.
  - specialize (Hh s). destruct (head s) as [|m] eqn:E; [split; [done|by exists 0%nat]|].
    destruct (IH (drop (S m) s)) as [H0 [k Hk]]; [rewrite length_drop; lia|]. split; [done|].
    exists (S m + k)%nat. by rewrite Hk, drop_drop.
Qed.
Lemma space_head_app p q : space_head (p ++ q) = 0%nat → space_head p = 0%nat.
Proof. destruct p as [|a [|b [|c p]]]; simpl; repeat case_match; simpl; done. Qed.

Lemma str_trim_trimmed s : trimmed (str_trim s).
Proof.
  unfold str_trim, trimmed. rewrite reverse_involutive.
  destruct (drop_spaces_done space_head (length s) s space_head_length) as [H1 _]; [done|].
  set (t := drop_spaces space_head (length s) s) in *.
  destruct (drop_spaces_done space_last (length t) (reverse t) space_last_length) as [H2 [k Hk]]; [by rewrite length_reverse|].
  split; [|done]. rewrite Hk. apply (space_head_app _ (reverse (take k (reverse t)))).
  by rewrite <-reverse_app, take_drop, reverse_involutive.
Qed.
Lemma str_trim_id s : trimmed s → str_trim s = s.
Proof. intros [H1 H2]. unfold str_trim. rewrite (drop_spaces_id space_head) by done. by rewrite drop_spaces_id, reverse_involutive. Qed.

(** A text that begins and ends with plain characters. *)
Lemma space_head_ascii b s : b < 128 → is_space1 b = false → space_head (b :: s) = 0%nat.
Proof.
  intros Hb Hs. simpl. rewrite Hs. destruct s as [|c s]; [done|]. assert (is_space2 b c = false) as -> by (unfold is_space2; lia).
  destruct s as [|d s]; [done|]. by assert (is_space3 b c d = false) as -> by (unfold is_space3; lia).
Qed.
Lemma space_last_ascii b s : b < 128 → is_space1 b = false → space_last (b :: s) = 0%nat.
Proof.
  intros Hb Hs. simpl. rewrite Hs. destruct s as [|c s]; [done|]. assert (is_space2 c b = false) as -> by (unfold is_space2; lia).
  destruct s as [|d s]; [done|]. by assert (is_space3 d c b = false) as -> by (unfold is_space3; lia).
Qed.
Definition plain (b : Z) : bool := (b <? 128) && negb (is_space1 b).
Lemma trimmed_plain p q b c : plain b = true → plain c = true → trimmed (b :: p ++ q ++ [c]) .
Proof.
  unfold plain. intros Hb Hc. split; [apply space_head_ascii; [lia|by destruct (is_space1 b); [lia|]]|].
  rewrite app_assoc, app_comm_cons, reverse_app. apply space_last_ascii; [lia|by destruct (is_space1 c); [lia|]].
Qed.
Lemma trimmed_ends b c q s : s = (b :: q) ++ [c] → plain b = true → plain c = true → trimmed s.
Proof. intros -> Hb Hc. by apply (trimmed_plain q []). Qed.
Lemma trim_plain_ends p q r : p ≠ [] → r ≠ [] → forallb plain p = true → forallb plain r = true → str_trim (p ++ q ++ r) = p ++ q ++ r.
Proof.
  intros Hp Hr Fp Fr. apply str_trim_id. destruct p as [|b p]; [done|]. destruct r as [|c r _] using rev_ind; [done|].
  simpl in Fp. apply andb_true_iff in Fp as [Fb _]. rewrite forallb_app in Fr. apply andb_true_iff in Fr as [_ Fc]. simpl in Fc.
  rewrite andb_true_r in Fc. rewrite !app_assoc, <-(app_assoc ((b :: p) ++ q)). rewrite <-app_assoc. simpl. rewrite app_assoc. apply trimmed_plain; done.
Qed.

Lemma is_space_lower a b c :
  is_space1 (to_lower a) = is_space1 a ∧ is_space2 (to_lower a) (to_lower b) = is_space2 a b ∧
  is_space3 (to_lower a) (to_lower b) (to_lower c) = is_space3 a b c.
Proof.
  assert (∀ x y : Z, 128 ≤ y → (to_lower x =? y) = (x =? y)) as He.
  { intros x y Hy. unfold to_lower, is_ascii_upper. case_match; [lia|done]. }
  assert (∀ x y : Z, 128 ≤ y → (y <=? to_lower x) = (y <=? x) ∧ (to_lower x <=? y) = (x <=? y)) as Hl.
  { intros x y Hy. unfold to_lower, is_ascii_upper. case_match; [lia|done]. }
  unfold is_space1, is_space2, is_space3. split_and!.
  - unfold to_lower, is_ascii_upper. case_match; [lia|done].
  - rewrite !He by lia. done.
  - rewrite !He by lia. destruct (Hl c 128), (Hl c 138); [lia..|]. congruence.
Qed.
Lemma space_head_lower s : space_head (to_ascii_lowercase s) = space_head s.
Proof.
  destruct s as [|a [|b [|c s]]]; simpl; [done|..];
    destruct (is_space_lower a 0 0) as [-> _]; [done|..]; destruct (is_space_lower a b 0) as (_ & -> & _); [done|].
  by destruct (is_space_lower a b c) as (_ & _ & ->).
Qed.
Lemma space_last_lower s : space_last (to_ascii_lowercase s) = space_last s.
Proof.
  destruct s as [|a [|b [|c s]]]; simpl; [done|..];
    destruct (is_space_lower a 0 0) as [-> _]; [done|..]; destruct (is_space_lower b a 0) as (_ & -> & _); [done|].
  by destruct (is_space_lower c b a) as (_ & _ & ->).
Qed.
Lemma trimmed_lower s : trimmed (to_ascii_lowercase s) ↔ trimmed s.
Proof.
  unfold trimmed. rewrite space_head_lower. replace (reverse (to_ascii_lowercase s)) with (to_ascii_lowercase (reverse s)).
  - by rewrite space_last_lower.
  - unfold to_ascii_lowercase. by rewrite fmap_reverse.
Qed.
Lemma to_lower_idem b : to_lower (to_lower b) = to_lower b.
Proof. unfold to_lower, is_ascii_upper. destruct ((65 <=? b) && (b <=? 90)) eqn:E; [|by rewrite E]. case_match; lia. Qed.
Lemma to_ascii_lowercase_idem s : to_ascii_lowercase (to_ascii_lowercase s) = to_ascii_lowercase s.
Proof. unfold to_ascii_lowercase. rewrite <-list_fmap_compose. apply list_fmap_ext. intros. apply to_lower_idem. Qed.

(** Two trimmed words around an ASCII mark that is not a space. *)
Lemma trimmed_around p c q :
  p ≠ [] → q ≠ [] → is_space1 c = false → c < 128 → trimmed p → trimmed q → trimmed (p ++ [c] ++ q).
Proof.
  intros Hp Hq Hc Hlt [H1 _] [_ H2].
  assert (∀ a b, is_space2 a c = false ∧ is_space2 c b = false ∧ is_space3 a b c = false ∧ is_space3 c a b = false ∧ is_space3 a c b = false) as Hno.
  { intros a b. unfold is_space2, is_space3. lia. }
  split.
  - destruct p as [|x [|y [|z p]]]; simpl in *; [done| | |done]; destruct (is_space1 x); try done.
    + destruct (Hno x 0) as (-> & _). destruct q as [|b q]; [done|]. by destruct (Hno x b) as (_ & _ & _ & _ & ->).
    + destruct (is_space2 x y); [done|]. by destruct (Hno x y) as (_ & _ & -> & _).
  - rewrite !reverse_app. revert H2. assert (reverse q ≠ []) as Hq'.
    { intros E. apply (f_equal reverse) in E. rewrite reverse_involutive in E. done. }
    revert Hq'. generalize (reverse q). intros r Hr H2. rewrite <-app_assoc. simpl.
    destruct r as [|x [|y [|z r]]]; simpl in *; [done| | |done]; destruct (is_space1 x); try done.
    + destruct (Hno 0 x) as (_ & -> & _). destruct (reverse p) as [|b l]; [done|]. by destruct (Hno b x) as (_ & _ & _ & _ & ->).
    + destruct (is_space2 y x); [done|]. by destruct (Hno y x) as (_ & _ & _ & -> & _).
Qed.

(** ** Suffixes *)

Lemma strip_suffix_iff p s t : strip_suffix p s = Some t ↔ s = t ++ p.
Proof.
  unfold strip_suffix, starts_with. case_bool_decide as E.
  - destruct E as [k E]. apply (f_equal reverse) in E. rewrite reverse_app, !reverse_involutive in E. subst s.
    rewrite length_app, Nat.add_sub, take_app_length. split; [by intros [= <-]|]. by intros ?%app_inv_tail; subst.
  - split; [done|]. intros ->. destruct E. rewrite reverse_app. by eexists.
Qed.
Lemma strip_suffix_app p s : strip_suffix p (s ++ p) = Some s.
Proof. by apply strip_suffix_iff. Qed.

(** Valid text is kept by the lossy reading. *)
Lemma utf8_chunk_pos b s : (1 ≤ (utf8_chunk b s).1)%nat.
Proof. unfold utf8_chunk. repeat case_match; simpl; lia. Qed.
Lemma utf8_lossy_go_valid fuel s : (length s ≤ fuel)%nat → utf8_valid_go fuel s = true → utf8_lossy_go fuel s = s.
Proof.
  revert s. induction fuel as [|fuel IH]; intros s Hf; [destruct s; simpl in *; [done|lia]|]. destruct s as [|b r]; [done|]. simpl.
  pose proof (utf8_chunk_pos b r) as Hn. destruct (utf8_chunk b r) as [n ok]. destruct ok; [|done]. simpl in *. intros Hv.
  rewrite IH; [apply take_drop| |done]. rewrite length_drop. simpl. lia.
Qed.
Lemma utf8_lossy_valid s : utf8_valid s = true → utf8_lossy s = s.
Proof. by apply utf8_lossy_go_valid. Qed.

(** ** What a client sent *)

(** A piece of the input. *)
Definition sent (inp l : bytes) : Prop := ∃ p q, inp = p ++ l ++ q.
Lemma sent_suffix p inp l : sent inp l → sent (p ++ inp) l.
Proof. intros (x & y & ->). exists (p ++ x), y. by rewrite <-app_assoc. Qed.
