(* ===== verification/Fts.v ===== *)
(** * The full-text index (crates/store/src/fts.rs)

    Text is cut into lower-case terms; every term of every field has a posting
    list, a compressed bitmap of document ids, kept as one row of the Index
    subspace.  Queries combine posting lists with set operations.  The bitmap
    library and the Unicode tables are parameters; what the index promises is
    stated on sets of document ids. *)

From S2P Require Import Prelude Bytes Key Store Text.
From stdpp Require Import base gmap list strings sorting.
From Stdlib Require Import ZArith Lia.

Open Scope Z_scope.

(** ** Characters *)

(** What [char::is_alphanumeric] and [char::to_lowercase] say of the characters
    outside ASCII, given by their UTF-8 bytes. *)
Class Unicode : Type := {
  uni_alphanumeric : bytes → bool;
  uni_lowercase : bytes → bytes;
}.

(** [str::chars]: the UTF-8 sequences of a string. *)
Fixpoint chars_go (fuel : nat) (s : bytes) : list bytes :=
  match fuel, s with
  | S fuel, b :: r => let n := (utf8_chunk b r).1 in take n s :: chars_go fuel (drop n s)
  | _, _ => []
  end.
Definition chars (s : bytes) : list bytes := chars_go (length s) s.

(** ** Ordered sets *)

(** [BTreeSet::insert] on strings of bytes, as an increasing list. *)
Fixpoint btree_insert (x : bytes) (l : list bytes) : list bytes :=
  match l with
  | [] => [x]
  | y :: l' => match bytes_cmp x y with
               | Lt => x :: l
               | Eq => l
               | Gt => y :: btree_insert x l'
               end
  end.
Definition btree_of (l : list bytes) : list bytes := foldl (λ t x, btree_insert x t) [] l.

(** ** Terms *)

Definition MAX_TERM_LENGTH : nat := 64.

(** [push_term]: a term too long to index is dropped; [current] ends empty. *)
Definition push_term (terms : list bytes) (current : bytes) : list bytes :=
  match current with
  | [] => terms
  | _ => if (length current <=? MAX_TERM_LENGTH)%nat then btree_insert current terms else terms
  end.

Section tokenize.
Context `{Unicode}.

Definition is_alphanumeric (c : bytes) : bool :=
  match c with
  | [b] => is_digit b || is_ascii_upper b || is_ascii_lower b
  | _ => uni_alphanumeric c
  end.
Definition lowercase (c : bytes) : bytes :=
  match c with [b] => [to_lower b] | _ => uni_lowercase c end.

(** [tokenize]. *)
Fixpoint tokenize_go (cs : list bytes) (terms : list bytes) (current : bytes) : list bytes :=
  match cs with
  | [] => push_term terms current
  | c :: cs =>
      if is_alphanumeric c then tokenize_go cs terms (current ++ lowercase c)
      else match current with
           | [] => tokenize_go cs terms []
           | _ => tokenize_go cs (push_term terms current) []
           end
  end.
Definition tokenize (text : bytes) : list bytes := tokenize_go (chars text) [] [].
End tokenize.

Inductive Field : Type := Combined | Subject | Body | From | To | Cc | Bcc.
#[global] Instance Field_eq_dec : EqDecision Field.
Proof. solve_decision. Defined.

(** [Field::tag]. *)
Definition field_tag (f : Field) : Z :=
  match f with
  | Combined => 0 | Subject => 1 | Body => 2 | From => 3 | To => 4 | Cc => 5 | Bcc => 6
  end.

Inductive Query : Type :=
  | QTerm (field : Field) (word : bytes)
  | QAnd (queries : list Query)
  | QOr (queries : list Query)
  | QNot (query : Query).

(** [term_key] and [term_keys]. *)
Definition term_key (account_id : Z) (c : Collection) (f : Field) (term : bytes) : bytes :=
  key_encode (with_suffix (key_new Index account_id c (field_tag f)) term).
Definition term_keys `{Unicode} (account_id : Z) (c : Collection) (entries : list (Field * bytes))
  : list bytes :=
  foldl (λ keys ft, foldl (λ keys t, btree_insert (term_key account_id c ft.1 t) keys) keys (tokenize ft.2))
    [] entries.

(** ** Bitmaps *)

(** The operations of [RoaringBitmap] the index uses. *)
Class Bitmap (R : Type) : Type := {
  rb_new : R;
  rb_insert : Z → R → bool * R;
  rb_remove : Z → R → bool * R;
  rb_is_empty : R → bool;
  rb_and : R → R → R;
  rb_or : R → R → R;
  rb_sub : R → R → R;
  rb_iter : R → list Z;
  rb_serialize : R → bytes;
  rb_deserialize : bytes → string + R;
}.

(** The library's documentation: a set of integers, iterated in increasing
    order, with a serialization that reads back. *)
Class BitmapLaws (R : Type) `{Bitmap R} : Type := {
  rb_set : R → gset Z;
  rb_new_spec : rb_set rb_new = ∅;
  rb_insert_spec d r :
    (rb_insert d r).1 = bool_decide (d ∉ rb_set r) ∧ rb_set (rb_insert d r).2 = {[ d ]} ∪ rb_set r;
  rb_remove_spec d r :
    (rb_remove d r).1 = bool_decide (d ∈ rb_set r) ∧ rb_set (rb_remove d r).2 = rb_set r ∖ {[ d ]};
  rb_is_empty_spec r : rb_is_empty r = bool_decide (rb_set r = ∅);
  rb_and_spec r1 r2 : rb_set (rb_and r1 r2) = rb_set r1 ∩ rb_set r2;
  rb_or_spec r1 r2 : rb_set (rb_or r1 r2) = rb_set r1 ∪ rb_set r2;
  rb_sub_spec r1 r2 : rb_set (rb_sub r1 r2) = rb_set r1 ∖ rb_set r2;
  rb_iter_elem d r : d ∈ rb_iter r ↔ d ∈ rb_set r;
  rb_iter_sorted r : StronglySorted Z.lt (rb_iter r);
  rb_deserialize_serialize r :
    ∃ r', rb_deserialize (rb_serialize r) = inr r' ∧ rb_set r' = rb_set r;
}.

(** ** Operations *)

Section operations.
Context {S R : Type} `{Unicode} `{Store S} `{Bitmap R}.

(** [deserialize_bitmap] and [FtsIndex::read_bitmap]. *)
Definition deserialize_bitmap (b : bytes) : result R :=
  match rb_deserialize b with
  | inr r => Ok r
  | inl e => Err (StoreError ("corrupt search posting list: " +:+ e))
  end.
Definition read_bitmap (key : bytes) (s : S) : result R :=
  v ← st_get key s;
  match v with Some b => deserialize_bitmap b | None => Ok rb_new end.

(** [FtsIndex::index_ops] and [FtsIndex::remove_ops]: read every posting list,
    write the ones that change. *)
Definition insert_op (d : Z) (key : bytes) (r : R) : list WriteOp :=
  let '(added, r) := rb_insert d r in
  if (added : bool) then [WSet key (rb_serialize r)] else [].
Definition remove_op (d : Z) (key : bytes) (r : R) : list WriteOp :=
  let '(removed, r) := rb_remove d r in
  if (removed : bool) then [if rb_is_empty r then WDelete key else WSet key (rb_serialize r)] else [].
Fixpoint ops_for (op : bytes → R → list WriteOp) (keys : list bytes) (s : S) : result (list WriteOp) :=
  match keys with
  | [] => Ok []
  | key :: keys => r ← read_bitmap key s; rest ← ops_for op keys s; Ok (op key r ++ rest)
  end.
Definition index_ops (account_id : Z) (c : Collection) (d : Z) (entries : list (Field * bytes)) (s : S)
  : result (list WriteOp) := ops_for (insert_op d) (term_keys account_id c entries) s.
Definition remove_ops (account_id : Z) (c : Collection) (d : Z) (entries : list (Field * bytes)) (s : S)
  : result (list WriteOp) := ops_for (remove_op d) (term_keys account_id c entries) s.

(** [FtsIndex::apply], [FtsIndex::index] and [FtsIndex::remove]. *)
Fixpoint fts_apply (ops : list WriteOp) : M S unit :=
  match ops with
  | [] => mret tt
  | op :: ops =>
      _ ← match op return M S unit with
          | WSet key value => st_put key value
          | WDelete key => st_delete key
          | WAdd _ _ => throw (StoreError "the search index does not use counters")
          end;
      fts_apply ops
  end.
Definition fts_index (account_id : Z) (c : Collection) (d : Z) (f : Field) (text : bytes) : M S unit :=
  ops ← reads (index_ops account_id c d [(f, text)]); fts_apply ops.
Definition fts_remove (account_id : Z) (c : Collection) (d : Z) (f : Field) (text : bytes) : M S unit :=
  ops ← reads (remove_ops account_id c d [(f, text)]); fts_apply ops.

(** [FtsIndex::posting_list]. *)
Definition posting_list (account_id : Z) (c : Collection) (f : Field) (term : bytes) (s : S) : result R :=
  read_bitmap (term_key account_id c f term) s.

(** [FtsIndex::evaluate]. *)
Fixpoint and_terms (account_id : Z) (c : Collection) (f : Field) (tokens : list bytes) (matched : R) (s : S)
  : result R :=
  match tokens with
  | [] => Ok matched
  | t :: tokens =>
      p ← posting_list account_id c f t s;
      and_terms account_id c f tokens (rb_and matched p) s
  end.
(** The loops over the children of a conjunction, which stops once nothing is
    left, and of a disjunction. *)
Section children.
Context (eval : Query → result R).
Fixpoint and_children (children : list Query) (matched : R) : result R :=
  match children with
  | [] => Ok matched
  | child :: children =>
      if rb_is_empty matched then Ok matched
      else r ← eval child; and_children children (rb_and matched r)
  end.
Fixpoint or_children (children : list Query) (matched : R) : result R :=
  match children with
  | [] => Ok matched
  | child :: children => r ← eval child; or_children children (rb_or matched r)
  end.
End children.

Fixpoint evaluate (account_id : Z) (c : Collection) (universe : R) (s : S) (q : Query) : result R :=
  match q with
  | QTerm f word =>
      match tokenize word with
      | [] => Ok rb_new
      | first :: tokens =>
          matched ← posting_list account_id c f first s;
          and_terms account_id c f tokens matched s
      end
  | QAnd [] => Ok universe
  | QAnd (first :: children) =>
      matched ← evaluate account_id c universe s first;
      and_children (evaluate account_id c universe s) children matched
  | QOr children => or_children (evaluate account_id c universe s) children rb_new
  | QNot inner => matched ← evaluate account_id c universe s inner; Ok (rb_sub universe matched)
  end.

(** [FtsIndex::search]. *)
Definition universe_of (candidates : list Z) : R := foldl (λ r d, (rb_insert d r).2) rb_new candidates.
Definition search (account_id : Z) (c : Collection) (q : Query) (candidates : list Z) (s : S)
  : result (list Z) :=
  matched ← evaluate account_id c (universe_of candidates) s q;
  Ok (rb_iter (rb_and matched (universe_of candidates))).

(** [term_of] and [indexed_terms]. *)
Definition term_of (key : bytes) (prefix_len : nat) : result bytes :=
  let suffix_start := (prefix_len + 4)%nat in
  if (length key <? suffix_start)%nat then Err (StoreError "index key is too short to carry a term")
  else
    let suffix := drop suffix_start key in
    if utf8_valid suffix then Ok suffix else Err (StoreError "index key term is not valid utf-8").
Definition terms_visit (prefix_len : nat) (acc : list bytes * option Error) (key value : bytes)
  : result (list bytes * option Error * Flow) :=
  match term_of key prefix_len with
  | Ok t => Ok ((acc.1 ++ [t], acc.2), Continue)
  | Err e => Ok ((acc.1, Some e), Stop)
  end.
Definition indexed_terms (account_id : Z) (c : Collection) (s : S) : result (list bytes) :=
  let prefix := kp_collection Index account_id c in
  acc ← st_iterate prefix (terms_visit (length (prefix_encode prefix))) ([], None) s;
  match acc with (_, Some e) => Err e | (terms, None) => Ok terms end.
End operations.

(** ** Lemmas: ordered sets and terms *)

Lemma elem_of_btree_insert x y l : y ∈ btree_insert x l ↔ y = x ∨ y ∈ l.
Proof.
  induction l as [|z l IH]; simpl; [set_solver|].
  destruct (bytes_cmp x z) eqn:E; [apply bytes_cmp_eq in E as ->| |]; set_solver.
Qed.

Lemma btree_insert_sorted x l :
  StronglySorted bytes_lt l → StronglySorted bytes_lt (btree_insert x l).
Proof.
  induction 1 as [|y l Hl IH Hy]; simpl; [by repeat constructor|].
  destruct (bytes_cmp x y) eqn:E.
  - by constructor.
  - constructor; [by constructor|]. constructor; [done|]. eapply Forall_impl; [exact Hy|].
    intros z Hz. by eapply bytes_lt_trans.
  - constructor; [done|]. rewrite Forall_forall in *. intros z [->|Hz]%elem_of_btree_insert; [|by apply Hy].
    unfold bytes_lt. by rewrite bytes_cmp_antisym, E.
Qed.

Lemma bytes_sorted_NoDup l : StronglySorted bytes_lt l → NoDup l.
Proof.
  induction 1 as [|x l Hl IH Hx]; constructor; [|done]. rewrite Forall_forall in Hx.
  intros Hin. by eapply bytes_lt_irrefl, Hx.
Qed.

Lemma field_tag_inj f g : field_tag f = field_tag g → f = g.
Proof. by destruct f, g. Qed.

Lemma field_tag_u32 f : is_u32 (field_tag f).
Proof. destruct f; width. Qed.

Lemma term_key_inj a c f t f' t' :
  is_u32 a → term_key a c f t = term_key a c f' t' → f = f' ∧ t = t'.
Proof.
  intros Ha E. pose proof (field_tag_u32 f). pose proof (field_tag_u32 f').
  apply key_encode_injective in E; [|by split..]. injection E as E ->. by apply field_tag_inj in E.
Qed.

Lemma term_key_known a c f t : known (term_key a c f t).
Proof. apply known_key_encode. Qed.
#[global] Hint Resolve term_key_known : keys.

(** A term of one of the texts. *)
Definition entry_term `{Unicode} (entries : list (Field * bytes)) (f : Field) (t : bytes) : Prop :=
  ∃ text, (f, text) ∈ entries ∧ t ∈ tokenize text.

Section term_keys.
Context `{Unicode} (a : Z) (c : Collection).

Lemma inner_keys f ts keys :
  let keys' := foldl (λ keys t, btree_insert (term_key a c f t) keys) keys ts in
  (∀ k, k ∈ keys' ↔ k ∈ keys ∨ ∃ t, t ∈ ts ∧ k = term_key a c f t) ∧
  (StronglySorted bytes_lt keys → StronglySorted bytes_lt keys').
Proof.
  revert keys. induction ts as [|t ts IH]; intros keys; cbn [foldl].
  { set_solver. }
  destruct (IH (btree_insert (term_key a c f t) keys)) as [Hin Hs].
  split; [|eauto using btree_insert_sorted].
  intros k. rewrite Hin, elem_of_btree_insert. set_solver.
Qed.

Lemma outer_keys entries keys :
  let keys' := foldl (λ keys ft, foldl (λ keys t, btree_insert (term_key a c ft.1 t) keys) keys (tokenize ft.2))
                 keys entries in
  (∀ k, k ∈ keys' ↔ k ∈ keys ∨ ∃ f t, entry_term entries f t ∧ k = term_key a c f t) ∧
  (StronglySorted bytes_lt keys → StronglySorted bytes_lt keys').
Proof.
  unfold entry_term. revert keys. induction entries as [|[f text] entries IH]; intros keys; cbn [foldl].
  { split; [|done]. intros k. set_solver. }
  destruct (inner_keys f (tokenize text) keys) as [Hin Hs].
  match goal with |- context [foldl ?g ?k0 entries] => destruct (IH k0) as [Hin' Hs'] end.
  split; [|cbn [fst snd] in *; eauto]. intros k. rewrite Hin'. cbn [fst snd]. rewrite Hin.
  split.
  - intros [[?|(t & ? & ->)]|(f' & t & (x & ? & ?) & ->)]; [by left|right..].
    + exists f, t. split; [|done]. exists text. split; [left|done].
    + exists f', t. split; [|done]. exists x. split; [by right|done].
  - intros [?|(f' & t & (x & [[= -> ->]|?]%elem_of_cons & ?) & ->)]; [by left; left|left; right|right]; eauto 10.
Qed.

Lemma elem_of_term_keys entries k :
  k ∈ term_keys a c entries ↔ ∃ f t, entry_term entries f t ∧ k = term_key a c f t.
Proof. unfold term_keys. rewrite (proj1 (outer_keys entries [])). set_solver. Qed.

Lemma NoDup_term_keys entries : NoDup (term_keys a c entries).
Proof. apply bytes_sorted_NoDup, (outer_keys entries []). constructor. Qed.
End term_keys.

(** ** Lemmas: posting lists *)

Section postings.
Context {S R : Type} `{Unicode} {store : Store S} {contract : StoreSpec S}.
Context {bitmap : Bitmap R} {blaws : BitmapLaws R}.
Implicit Types (s : S) (m : contents).

(** The documents a cell lists; [None] when it cannot be read. *)
Definition posting_of (cell : option bytes) : option (gset Z) :=
  match cell with
  | None => Some ∅
  | Some b => match rb_deserialize b with inr r => Some (rb_set r) | inl _ => None end
  end.

Lemma read_bitmap_spec k s X :
  healthy s → known k → posting_of (view s !! k) = Some X →
  ∃ r, read_bitmap k s = Ok r ∧ rb_set r = X.
Proof.
  intros Hs Hk. unfold read_bitmap. rewrite get_spec by done. simpl. unfold posting_of, deserialize_bitmap.
  destruct (view s !! k) as [b|]; simpl.
  - destruct (rb_deserialize b); [done|]. intros [= <-]. eauto.
  - intros [= <-]. exists rb_new. split; [done|apply rb_new_spec].
Qed.

Lemma posting_of_serialize r : posting_of (Some (rb_serialize r)) = Some (rb_set r).
Proof. destruct (rb_deserialize_serialize r) as (r' & E & Hr). simpl. by rewrite E, Hr. Qed.

(** An update of one cell, and what it does to the set. *)
Definition cell_update (op : bytes → R → list WriteOp) (upd : gset Z → gset Z) : Prop :=
  ∀ k r m, known k → posting_of (m !! k) = Some (rb_set r) →
    ∃ m', apply_ops m (op k r) = Some m' ∧ posting_of (m' !! k) = Some (upd (rb_set r)) ∧
      (∀ k', k' ≠ k → m' !! k' = m !! k') ∧ Forall (λ o, op_ok o ∧ op_key o = k) (op k r).

Lemma insert_op_update d : cell_update (insert_op d) ({[ d ]} ∪.).
Proof.
  intros k r m Hk Hp. unfold insert_op. destruct (rb_insert_spec d r) as [E1 E2].
  destruct (rb_insert d r) as [added r']. simpl in *. subst added. case_bool_decide as Hd.
  - eexists. split; [done|]. rewrite lookup_insert_eq, posting_of_serialize, E2. split_and!; [done| |by repeat constructor].
    intros k' ?. by rewrite lookup_insert_ne.
  - exists m. split_and!; [done| |done|done]. rewrite Hp. f_equal. set_solver.
Qed.

Lemma remove_op_update d : cell_update (remove_op d) (.∖ {[ d ]}).
Proof.
  intros k r m Hk Hp. unfold remove_op. destruct (rb_remove_spec d r) as [E1 E2].
  destruct (rb_remove d r) as [removed r']. simpl in *. subst removed. case_bool_decide as Hd.
  - rewrite rb_is_empty_spec. case_bool_decide as He; simpl; eexists; (split; [done|]).
    + rewrite lookup_delete_eq. split_and!; [by rewrite <-E2, He| |by repeat constructor].
      intros k' ?. by rewrite lookup_delete_ne.
    + rewrite lookup_insert_eq, posting_of_serialize, E2. split_and!; [done| |by repeat constructor].
      intros k' ?. by rewrite lookup_insert_ne.
  - exists m. split_and!; [done| |done|done]. rewrite Hp. f_equal. set_solver.
Qed.

(** All reads are of the store before, each key is written once. *)
Lemma ops_for_spec op upd keys s m :
  cell_update op upd → healthy s → NoDup keys → Forall known keys →
  (∀ k, k ∈ keys → m !! k = view s !! k ∧ is_Some (posting_of (view s !! k))) →
  ∃ ops m', ops_for op keys s = Ok ops ∧ apply_ops m ops = Some m' ∧
    (∀ k, k ∈ keys → posting_of (m' !! k) = upd <$> posting_of (view s !! k)) ∧
    (∀ k, k ∉ keys → m' !! k = m !! k) ∧ Forall (λ o, op_ok o ∧ op_key o ∈ keys) ops.
Proof.
  intros Hop Hs. revert m. induction keys as [|k keys IH]; intros m Hnd Hk Hread.
  { exists [], m. split_and!; [done|done|set_solver|done|constructor]. }
  inversion Hnd; inversion Hk; subst.
  destruct (Hread k ltac:(left)) as [Em [X HX]].
  destruct (read_bitmap_spec k s X) as (r & Er & HrX); [done..|].
  destruct (Hop k r m) as (m1 & E1 & Hm1 & Ho1 & Hf1); [done|by rewrite Em, HX, HrX|].
  destruct (IH m1) as (ops & m2 & E2 & E3 & Hin & Hout & Hf2); [done|done| |].
  { intros k' Hk'. rewrite Ho1 by congruence. apply Hread. by right. }
  exists (op k r ++ ops), m2. cbn [ops_for]. rewrite Er. simpl. rewrite E2. simpl.
  rewrite apply_ops_app, E1. simpl. split_and!; [done|done| | |].
  - intros k' [->|Hk']%elem_of_cons; [|by apply Hin]. rewrite Hout by done. by rewrite Hm1, HX, HrX.
  - intros k' [? ?]%not_elem_of_cons. rewrite Hout by done. by apply Ho1.
  - apply Forall_app. split; (eapply Forall_impl; [eassumption|]); simpl; intros o [? ?]; split; set_solver.
Qed.
End postings.

(** ** What a query means *)

Section query_ind.
Context (P : Query → Prop).
Context (Hterm : ∀ f w, P (QTerm f w)).
Context (Hand : ∀ qs, Forall P qs → P (QAnd qs)).
Context (Hor : ∀ qs, Forall P qs → P (QOr qs)).
Context (Hnot : ∀ q, P q → P (QNot q)).

(** Induction that reaches into the lists of subqueries. *)
Fixpoint Query_nested_ind (q : Query) : P q :=
  let all := fix go (qs : list Query) : Forall P qs :=
    match qs with
    | [] => Forall_nil_2 P
    | q :: qs => Forall_cons_2 P q qs (Query_nested_ind q) (go qs)
    end in
  match q with
  | QTerm f w => Hterm f w
  | QAnd qs => Hand qs (all qs)
  | QOr qs => Hor qs (all qs)
  | QNot q => Hnot q (Query_nested_ind q)
  end.
End query_ind.

(** A document, known by the terms each of its fields has, satisfies a query:
    a word that cuts into several terms asks for all of them, a word without
    terms matches nothing. *)
Fixpoint satisfies `{Unicode} (has : Field → bytes → Z → Prop) (q : Query) (d : Z) : Prop :=
  match q with
  | QTerm f w => tokenize w ≠ [] ∧ ∀ t, t ∈ tokenize w → has f t d
  | QAnd qs => foldr (λ q acc, satisfies has q d ∧ acc) True qs
  | QOr qs => foldr (λ q acc, satisfies has q d ∨ acc) False qs
  | QNot q => ¬ satisfies has q d
  end.

Section search.
Context {S R : Type} `{Unicode} {store : Store S} {contract : StoreSpec S}.
Context {bitmap : Bitmap R} {blaws : BitmapLaws R} (a : Z) (c : Collection).
Implicit Types (s : S) (m : contents).

(** The posting lists of [m] list, for every field and term, the documents
    that have it. *)
Definition indexed m (has : Field → bytes → Z → Prop) : Prop :=
  ∀ f t, ∃ X, posting_of (m !! term_key a c f t) = Some X ∧ ∀ d, d ∈ X ↔ has f t d.

Lemma posting_list_spec s has f t :
  healthy s → indexed (view s) has →
  ∃ r, posting_list a c f t s = Ok r ∧ ∀ d, d ∈ rb_set r ↔ has f t d.
Proof.
  intros Hs Hi. destruct (Hi f t) as (X & HX & Hd).
  destruct (read_bitmap_spec (term_key a c f t) s X) as (r & E & <-); [auto with keys..|]. eauto.
Qed.

Lemma and_terms_spec s has f ts r :
  healthy s → indexed (view s) has →
  ∃ r', and_terms a c f ts r s = Ok r' ∧
    ∀ d, d ∈ rb_set r' ↔ d ∈ rb_set r ∧ ∀ t, t ∈ ts → has f t d.
Proof.
  intros Hs Hi. revert r. induction ts as [|t ts IH]; intros r; cbn [and_terms].
  { exists r. set_solver. }
  destruct (posting_list_spec s has f t Hs Hi) as (p & -> & Hp). simpl.
  destruct (IH (rb_and r p)) as (r' & -> & Hr'). exists r'. split; [done|]. intros d.
  rewrite Hr', rb_and_spec, elem_of_intersection, Hp. setoid_rewrite elem_of_cons. naive_solver.
Qed.

(** A subquery answers, on the documents of [U], as its meaning says. *)
Definition answers (eval : Query → result R) (U : R) (sat : Query → Z → Prop) (q : Query) : Prop :=
  ∃ r, eval q = Ok r ∧ ∀ d, d ∈ rb_set U → d ∈ rb_set r ↔ sat q d.

Lemma and_children_spec eval U sat qs r (P : Z → Prop) :
  Forall (answers eval U sat) qs → (∀ d, d ∈ rb_set U → d ∈ rb_set r ↔ P d) →
  ∃ r', and_children eval qs r = Ok r' ∧
    ∀ d, d ∈ rb_set U → d ∈ rb_set r' ↔ P d ∧ foldr (λ q acc, sat q d ∧ acc) True qs.
Proof.
  intros Hqs. revert r P. induction Hqs as [|q qs (r1 & Er1 & Hr1) _ IH]; intros r P HP; simpl.
  { exists r. split; [done|]. naive_solver. }
  rewrite rb_is_empty_spec. case_bool_decide as He.
  { exists r. split; [done|]. intros d Hd. rewrite <-HP by done. set_solver. }
  rewrite Er1. simpl. destruct (IH (rb_and r r1) (λ d, P d ∧ sat q d)) as (r' & -> & Hr').
  { intros d Hd. rewrite rb_and_spec, elem_of_intersection, HP, Hr1; done. }
  exists r'. split; [done|]. intros d Hd. rewrite Hr' by done. tauto.
Qed.

Lemma or_children_spec eval U sat qs r (P : Z → Prop) :
  Forall (answers eval U sat) qs → (∀ d, d ∈ rb_set U → d ∈ rb_set r ↔ P d) →
  ∃ r', or_children eval qs r = Ok r' ∧
    ∀ d, d ∈ rb_set U → d ∈ rb_set r' ↔ P d ∨ foldr (λ q acc, sat q d ∨ acc) False qs.
Proof.
  intros Hqs. revert r P. induction Hqs as [|q qs (r1 & Er1 & Hr1) _ IH]; intros r P HP; simpl.
  { exists r. split; [done|]. naive_solver. }
  rewrite Er1. simpl. destruct (IH (rb_or r r1) (λ d, P d ∨ sat q d)) as (r' & -> & Hr').
  { intros d Hd. rewrite rb_or_spec, elem_of_union, HP, Hr1; done. }
  exists r'. split; [done|]. intros d Hd. rewrite Hr' by done. tauto.
Qed.

Lemma evaluate_spec s has U q :
  healthy s → indexed (view s) has → answers (evaluate a c U s) U (satisfies has) q.
Proof.
  intros Hs Hi. induction q as [f w|qs IH|qs IH|q IH] using Query_nested_ind.
  - unfold answers. cbn [evaluate satisfies]. destruct (tokenize w) as [|t ts] eqn:Et.
    { exists rb_new. split; [done|]. intros d _. rewrite rb_new_spec. set_solver. }
    destruct (posting_list_spec s has f t Hs Hi) as (p & -> & Hp). simpl.
    destruct (and_terms_spec s has f ts p Hs Hi) as (r & -> & Hr). exists r. split; [done|].
    intros d _. rewrite Hr, Hp. setoid_rewrite elem_of_cons. naive_solver.
  - destruct IH as [|q qs (r & Er & Hr) Hqs]; unfold answers; cbn [evaluate satisfies foldr].
    { exists U. split; [done|]. naive_solver. }
    rewrite Er. simpl. by apply and_children_spec.
  - unfold answers. cbn [evaluate satisfies].
    destruct (or_children_spec (evaluate a c U s) U (satisfies has) qs rb_new (λ _, False) IH)
      as (r & -> & Hr).
    { intros d _. rewrite rb_new_spec. set_solver. }
    exists r. split; [done|]. intros d Hd. rewrite Hr by done. tauto.
  - unfold answers. cbn [evaluate satisfies]. destruct IH as (r & -> & Hr). simpl. eexists. split; [done|].
    intros d Hd. rewrite rb_sub_spec, elem_of_difference, Hr by done. tauto.
Qed.

Lemma universe_of_spec l d : d ∈ rb_set (universe_of (R := R) l) ↔ d ∈ l.
Proof.
  unfold universe_of.
  cut (∀ r, d ∈ rb_set (foldl (λ r d, (rb_insert d r).2) r l) ↔ d ∈ rb_set r ∨ d ∈ l).
  { intros ->. rewrite rb_new_spec. set_solver. }
  induction l as [|x l IH]; intros r; simpl; [set_solver|].
  rewrite IH, (proj2 (rb_insert_spec x r)). set_solver.
Qed.

Lemma search_spec s has q l :
  healthy s → indexed (view s) has →
  ∃ found, search (R := R) a c q l s = Ok found ∧ StronglySorted Z.lt found ∧
    ∀ d, d ∈ found ↔ d ∈ l ∧ satisfies has q d.
Proof.
  intros Hs Hi. unfold search. destruct (evaluate_spec s has (universe_of l) q Hs Hi) as (r & -> & Hr).
  simpl. eexists. split_and!; [done|apply rb_iter_sorted|]. intros d.
  rewrite rb_iter_elem, rb_and_spec, elem_of_intersection. setoid_rewrite universe_of_spec in Hr.
  rewrite universe_of_spec. naive_solver.
Qed.
End search.

(** ** Maintaining the index *)

Section maintain.
Context {S R : Type} `{Unicode} {store : Store S} {contract : StoreSpec S}.
Context {bitmap : Bitmap R} {blaws : BitmapLaws R} (a : Z) (c : Collection) (Ha : is_u32 a).
Implicit Types (s : S) (m : contents).

(** A key of the index of [a] and [c]. *)
Definition index_key (k : bytes) : Prop := ∃ f t, k = term_key a c f t.

Lemma index_key_term f t : index_key (term_key a c f t).
Proof. by exists f, t. Qed.
Hint Resolve index_key_term : keys.

Lemma term_keys_index entries k : k ∈ term_keys a c entries → index_key k ∧ known k.
Proof. intros (f & t & _ & ->)%elem_of_term_keys. split; auto with keys. Qed.

Lemma update_indexed op upd has entries s m (has' : Field → bytes → Z → Prop) :
  cell_update op upd → healthy s → indexed a c (view s) has →
  (∀ k, index_key k → m !! k = view s !! k) →
  (∀ f t X, (∀ d, d ∈ X ↔ has f t d) → entry_term entries f t → ∀ d, d ∈ upd X ↔ has' f t d) →
  (∀ f t, ¬ entry_term entries f t → ∀ d, has f t d ↔ has' f t d) →
  ∃ ops m', ops_for op (term_keys a c entries) s = Ok ops ∧ apply_ops m ops = Some m' ∧
    indexed a c m' has' ∧ (∀ k, ¬ index_key k → m' !! k = m !! k) ∧
    Forall (λ o, op_ok o ∧ index_key (op_key o)) ops.
Proof.
  intros Hop Hs Hi Hm Hin Hout.
  destruct (ops_for_spec op upd (term_keys a c entries) s m) as (ops & m' & E & Em & H1 & H2 & Hf); [done..| | | |].
  { apply NoDup_term_keys. }
  { apply Forall_forall. intros k Hk. by eapply term_keys_index. }
  { intros k Hk. apply term_keys_index in Hk as [(f & t & ->) _]. rewrite Hm by auto with keys.
    split; [done|]. destruct (Hi f t) as (X & -> & _). done. }
  exists ops, m'. split_and!; [done|done| | |].
  - intros f t. destruct (Hi f t) as (X & HX & Hd).
    destruct (decide (term_key a c f t ∈ term_keys a c entries)) as [Hk|Hk].
    + exists (upd X). rewrite H1, HX by done. split; [done|]. apply Hin; [done|].
      apply elem_of_term_keys in Hk as (f' & t' & ? & [-> ->]%term_key_inj); done.
    + exists X. rewrite H2, Hm by auto with keys. split; [done|]. intros d. rewrite Hd. apply Hout.
      intros ?. apply Hk, elem_of_term_keys. eauto.
  - intros k Hk. apply H2. intros Hin'. by apply Hk, (term_keys_index entries k).
  - eapply Forall_impl; [exact Hf|]. simpl. intros o [? Ho]. split; [done|].
    by eapply term_keys_index.
Qed.

Lemma index_ops_spec has d entries s m :
  healthy s → indexed a c (view s) has → (∀ k, index_key k → m !! k = view s !! k) →
  ∃ ops m', index_ops a c d entries s = Ok ops ∧ apply_ops m ops = Some m' ∧
    indexed a c m' (λ f t x, has f t x ∨ x = d ∧ entry_term entries f t) ∧
    (∀ k, ¬ index_key k → m' !! k = m !! k) ∧ Forall (λ o, op_ok o ∧ index_key (op_key o)) ops.
Proof.
  intros Hs Hi Hm. eapply update_indexed; [apply insert_op_update|done..| |].
  - intros f t X HX He x. rewrite elem_of_union, elem_of_singleton, HX. naive_solver.
  - intros f t He x. naive_solver.
Qed.

Lemma remove_ops_spec has d entries s m :
  healthy s → indexed a c (view s) has → (∀ k, index_key k → m !! k = view s !! k) →
  ∃ ops m', remove_ops a c d entries s = Ok ops ∧ apply_ops m ops = Some m' ∧
    indexed a c m' (λ f t x, has f t x ∧ ¬ (x = d ∧ entry_term entries f t)) ∧
    (∀ k, ¬ index_key k → m' !! k = m !! k) ∧ Forall (λ o, op_ok o ∧ index_key (op_key o)) ops.
Proof.
  intros Hs Hi Hm. eapply update_indexed; [apply remove_op_update|done..| |].
  - intros f t X HX He x. rewrite elem_of_difference, elem_of_singleton, HX. naive_solver.
  - intros f t He x. naive_solver.
Qed.

(** *** Histories *)

Abbreviation documents := (gmap Z (list (Field * bytes))).

(** The terms the indexed documents have. *)
Definition document_terms (docs : documents) (f : Field) (t : bytes) (d : Z) : Prop :=
  ∃ es, docs !! d = Some es ∧ entry_term es f t.

Definition fts_foreign (op : WriteOp) : Prop := op_ok op ∧ ¬ index_key (op_key op).

(** A document is indexed or removed in a batch that may carry other writes,
    or something else is written. *)
Inductive fts_step : S * documents → S * documents → Prop :=
  | fts_step_index s s' docs d es ops pre post m' :
      docs !! d = None → index_ops (R := R) a c d es s = Ok ops →
      Forall fts_foreign pre → Forall fts_foreign post →
      apply_ops (view s) (pre ++ ops ++ post) = Some m' →
      st_batch (pre ++ ops ++ post) s = (Ok tt, s') →
      fts_step (s, docs) (s', <[d := es]> docs)
  | fts_step_remove s s' docs d es ops pre post m' :
      docs !! d = Some es → remove_ops (R := R) a c d es s = Ok ops →
      Forall fts_foreign pre → Forall fts_foreign post →
      apply_ops (view s) (pre ++ ops ++ post) = Some m' →
      st_batch (pre ++ ops ++ post) s = (Ok tt, s') →
      fts_step (s, docs) (s', delete d docs)
  | fts_step_other s s' docs ops m' :
      Forall fts_foreign ops → apply_ops (view s) ops = Some m' →
      st_batch ops s = (Ok tt, s') → fts_step (s, docs) (s', docs).

Lemma foreign_index_agree m ops m' :
  Forall fts_foreign ops → apply_ops m ops = Some m' → ∀ k, index_key k → m' !! k = m !! k.
Proof.
  rewrite Forall_forall. intros Hf E k Hk. eapply apply_ops_other; [done|].
  intros (o & -> & Ho)%list_elem_of_fmap_1. by apply Hf in Ho as [_ ?].
Qed.

Lemma foreign_ops_ok ops : Forall fts_foreign ops → Forall op_ok ops.
Proof. intros Hf. eapply Forall_impl; [exact Hf|]. by intros o []. Qed.

Lemma indexed_agree m m' has :
  (∀ k, index_key k → m' !! k = m !! k) → indexed a c m has → indexed a c m' has.
Proof. intros E Hi f t. rewrite E by auto with keys. apply Hi. Qed.

Lemma indexed_ext m has has' :
  (∀ f t d, has f t d ↔ has' f t d) → indexed a c m has → indexed a c m has'.
Proof. intros E Hi f t. destruct (Hi f t) as (X & ? & HX). exists X. split; [done|]. intros d. by rewrite HX. Qed.

(** A batch whose middle part maintains the index. *)
Lemma batch_indexed s s' pre ops post m' (has' : Field → bytes → Z → Prop) :
  healthy s → Forall fts_foreign pre → Forall fts_foreign post → Forall op_ok ops →
  apply_ops (view s) (pre ++ ops ++ post) = Some m' → st_batch (pre ++ ops ++ post) s = (Ok tt, s') →
  (∀ m1, (∀ k, index_key k → m1 !! k = view s !! k) →
     ∃ m2, apply_ops m1 ops = Some m2 ∧ indexed a c m2 has') →
  healthy s' ∧ indexed a c (view s') has'.
Proof.
  intros Hs Hpre Hpost Hok Em Eb Hops.
  destruct (λ Hall, batch_spec _ s m' Hs Hall Em) as (s1 & E1 & Hs1 & Hv).
  { rewrite !Forall_app. auto using foreign_ops_ok. }
  rewrite E1 in Eb. injection Eb as <-. split; [done|]. rewrite Hv. rewrite !apply_ops_app in Em.
  destruct (apply_ops (view s) pre) as [m1|] eqn:E; [|done]. simpl in Em.
  rewrite apply_ops_app in Em. destruct (Hops m1 (foreign_index_agree _ _ _ Hpre E)) as (m2 & E2 & Hi).
  rewrite E2 in Em. simpl in Em. exact (indexed_agree _ _ _ (foreign_index_agree _ _ _ Hpost Em) Hi).
Qed.

Lemma fts_step_indexed s docs s' docs' :
  fts_step (s, docs) (s', docs') →
  healthy s ∧ indexed a c (view s) (document_terms docs) →
  healthy s' ∧ indexed a c (view s') (document_terms docs').
Proof.
  intros Hstep [Hs Hi]. inversion Hstep as [? ? ? d es ops pre post m' Hd Eo Hpre Hpost Em Eb
    |? ? ? d es ops pre post m' Hd Eo Hpre Hpost Em Eb|? ? ? ops m' Hf Em Eb]; subst.
  - destruct (index_ops_spec _ d es s (view s) Hs Hi) as (ops' & m0 & Eo' & _ & _ & _ & Hok); [done|].
    rewrite Eo in Eo'. injection Eo' as <-. eapply (batch_indexed s s' pre ops post m'); [done..| |done|done|].
    { eapply Forall_impl; [exact Hok|]. by intros o []. }
    intros m1 Hm1. destruct (index_ops_spec _ d es s m1 Hs Hi Hm1) as (ops' & m2 & Eo' & Em2 & Hi2 & _).
    rewrite Eo in Eo'. injection Eo' as <-. exists m2. split; [done|]. eapply indexed_ext; [|exact Hi2].
    intros f t x. unfold document_terms. rewrite lookup_insert. case_decide; subst; naive_solver.
  - destruct (remove_ops_spec _ d es s (view s) Hs Hi) as (ops' & m0 & Eo' & _ & _ & _ & Hok); [done|].
    rewrite Eo in Eo'. injection Eo' as <-. eapply (batch_indexed s s' pre ops post m'); [done..| |done|done|].
    { eapply Forall_impl; [exact Hok|]. by intros o []. }
    intros m1 Hm1. destruct (remove_ops_spec _ d es s m1 Hs Hi Hm1) as (ops' & m2 & Eo' & Em2 & Hi2 & _).
    rewrite Eo in Eo'. injection Eo' as <-. exists m2. split; [done|]. eapply indexed_ext; [|exact Hi2].
    intros f t x. unfold document_terms. rewrite lookup_delete. case_decide; subst; naive_solver.
  - destruct (batch_spec ops s m' Hs (foreign_ops_ok _ Hf) Em) as (s1 & E1 & ? & Hv).
    rewrite E1 in Eb. injection Eb as <-. split; [done|]. rewrite Hv.
    exact (indexed_agree _ _ _ (foreign_index_agree _ _ _ Hf Em) Hi).
Qed.

(** C24. Search is exact.  After any sequence of batches that index documents,
    remove them or write elsewhere, from an empty index, [search] answers with
    the increasing list of exactly the candidates that satisfy the query:
    a word matches the documents whose field has all its terms, and
    conjunction, disjunction and negation have their logical meaning. *)
Theorem fts_search_exact s0 s docs q candidates :
  healthy s0 → (∀ f t, view s0 !! term_key a c f t = None) → rtc fts_step (s0, ∅) (s, docs) →
  ∃ found, search (R := R) a c q candidates s = Ok found ∧ StronglySorted Z.lt found ∧
    ∀ d, d ∈ found ↔ d ∈ candidates ∧ satisfies (document_terms docs) q d.
Proof.
  intros Hs0 Hempty Hrtc.
  assert (healthy s ∧ indexed a c (view s) (document_terms docs)) as [Hs Hi].
  { remember (s0, ∅) as x eqn:Ex. remember (s, docs) as y eqn:Ey.
    assert (healthy x.1 ∧ indexed a c (view x.1) (document_terms x.2)) as Hx.
    { subst x. split; [done|]. intros f t. simpl. rewrite Hempty. exists ∅. split; [done|].
      intros d. unfold document_terms. set_solver. }
    clear Ex. revert Ey Hx. induction Hrtc as [x|[s1 d1] [s2 d2] y Hstep _ IH]; intros Ey Hx.
    - by subst x.
    - apply IH; [done|]. exact (fts_step_indexed _ _ _ _ Hstep Hx). }
  by apply search_spec.
Qed.
(** *** Concurrent writers *)

(** The operations for one key stand alone in the list. *)
Lemma ops_for_split op keys s ops k :
  (∀ k r o, o ∈ op k r → op_key o = k) → NoDup keys → k ∈ keys → ops_for (R := R) op keys s = Ok ops →
  ∃ r l1 l2, read_bitmap k s = Ok r ∧ ops = l1 ++ op k r ++ l2 ∧
    k ∉ op_key <$> l1 ∧ k ∉ op_key <$> l2.
Proof.
  intros Hop. revert ops. induction keys as [|k' keys IH]; intros ops Hnd Hk E; [by apply not_elem_of_nil in Hk|].
  cbn [ops_for] in E. apply result_bind_ok in E as (r & Er & (rest & Erest & [= <-])%result_bind_ok).
  inversion Hnd as [|? ? Hni Hnd']; subst.
  assert (∀ keys ops, ops_for op keys s = Ok ops → ∀ k, k ∈ op_key <$> ops → k ∈ keys) as Hkeys.
  { clear -Hop. induction keys as [|k keys IH]; simpl; intros ops E x Hx.
    - injection E as <-. done.
    - apply result_bind_ok in E as (r & _ & (rest & Erest & [= <-])%result_bind_ok).
      rewrite fmap_app, elem_of_app in Hx. destruct Hx as [(o & -> & Ho)%list_elem_of_fmap_1|Hx].
      + rewrite (Hop _ _ _ Ho). left.
      + right. by eapply IH. }
  apply elem_of_cons in Hk as [->|Hk].
  - exists r, [], rest. split_and!; [done..|apply not_elem_of_nil|]. intros Hin. by apply Hni, (Hkeys _ _ Erest).
  - destruct (IH rest Hnd' Hk Erest) as (r' & l1 & l2 & Er' & -> & H1 & H2).
    exists r', (op k' r ++ l1), l2. split_and!; [done|by rewrite app_assoc| |done].
    rewrite fmap_app, elem_of_app. intros [(o & -> & Ho)%list_elem_of_fmap_1|?]; [|done].
    rewrite (Hop _ _ _ Ho) in Hk. done.
Qed.

Lemma insert_op_key d k (r : R) o : o ∈ insert_op d k r → op_key o = k.
Proof. unfold insert_op. destruct (rb_insert d r) as [[] ?]; set_solver. Qed.

(** What [index_ops] leaves in a cell, on any contents. *)
Lemma index_ops_cell d entries s ops m m' f t has :
  healthy s → indexed a c (view s) has → ¬ has f t d → entry_term entries f t →
  index_ops (R := R) a c d entries s = Ok ops → apply_ops m ops = Some m' →
  ∃ X, posting_of (R := R) (m' !! term_key a c f t) = Some X ∧ ∀ x, x ∈ X ↔ x = d ∨ has f t x.
Proof.
  intros Hs Hi Hd He E Em.
  destruct (ops_for_split (insert_op d) (term_keys a c entries) s ops (term_key a c f t))
    as (r & l1 & l2 & Er & -> & H1 & H2); [by eauto using insert_op_key|apply NoDup_term_keys| |done|].
  { apply elem_of_term_keys. eauto. }
  destruct (posting_list_spec a c s has f t Hs Hi) as (r' & Er' & Hr). unfold posting_list in Er'.
  rewrite Er in Er'. injection Er' as <-.
  rewrite !apply_ops_app in Em. destruct (apply_ops m l1) as [m1|] eqn:E1; [|done]. simpl in Em.
  rewrite apply_ops_app in Em. unfold insert_op in Em. destruct (rb_insert_spec d r) as [Ei1 Ei2].
  destruct (rb_insert d r) as [b r1]. simpl in Ei1, Ei2. subst b.
  rewrite bool_decide_true in Em by (by rewrite Hr). simpl in Em.
  rewrite (apply_ops_other _ _ _ _ Em H2), lookup_insert_eq, posting_of_serialize, Ei2.
  eexists. split; [done|]. intros x. rewrite elem_of_union, elem_of_singleton, Hr. done.
Qed.

Lemma index_ops_total d entries s ops m :
  index_ops (R := R) a c d entries s = Ok ops → is_Some (apply_ops m ops).
Proof.
  unfold index_ops. generalize (term_keys a c entries) as keys. intros keys. revert ops m.
  induction keys as [|k keys IH]; intros ops m E; cbn [ops_for] in E; [injection E as <-; by eexists|].
  apply result_bind_ok in E as (r & _ & (rest & Erest & [= <-])%result_bind_ok).
  rewrite apply_ops_app. unfold insert_op. destruct (rb_insert d r) as [[] ?]; simpl; by apply IH.
Qed.

(** The index loses postings to a race.  [index_ops] reads the posting
    lists before the batch that writes them and the batch carries no
    assertion.  When two deliveries to one account compute their operations
    from the same store, the later batch overwrites the list of every term
    they share: the document filed first is missing from it, and searches for
    the term do not find it. *)
Theorem index_race_loses s d1 d2 es1 es2 ops1 ops2 f t has :
  healthy s → indexed a c (view s) has → d1 ≠ d2 → ¬ has f t d1 → ¬ has f t d2 →
  entry_term es1 f t → entry_term es2 f t →
  index_ops (R := R) a c d1 es1 s = Ok ops1 → index_ops (R := R) a c d2 es2 s = Ok ops2 →
  ∃ s1 s2 r, st_batch ops1 s = (Ok tt, s1) ∧ st_batch ops2 s1 = (Ok tt, s2) ∧
    posting_list a c f t s2 = Ok r ∧ d2 ∈ rb_set (R := R) r ∧ d1 ∉ rb_set r.
Proof.
  intros Hs Hi Hne Hd1 Hd2 He1 He2 E1 E2.
  assert (∀ d es ops, index_ops (R := R) a c d es s = Ok ops → Forall op_ok ops) as Hok.
  { intros d es ops E. destruct (index_ops_spec has d es s (view s)) as (ops' & m & E' & _ & _ & _ & Hf); [done..|].
    rewrite E in E'. injection E' as <-. eapply Forall_impl; [exact Hf|]. by intros o []. }
  destruct (index_ops_total d1 es1 s ops1 (view s) E1) as [m1 Em1].
  destruct (batch_spec ops1 s m1 Hs (Hok _ _ _ E1) Em1) as (s1 & Eb1 & Hs1 & Hv1).
  destruct (index_ops_total d2 es2 s ops2 (view s1) E2) as [m2 Em2].
  destruct (batch_spec ops2 s1 m2 Hs1 (Hok _ _ _ E2) Em2) as (s2 & Eb2 & Hs2 & Hv2).
  destruct (index_ops_cell d2 es2 s ops2 (view s1) m2 f t has) as (X & HX & Hx); [done..|].
  destruct (read_bitmap_spec (R := R) (term_key a c f t) s2 X) as (r & Er & Hr);
    [done|auto with keys|by rewrite Hv2|].
  exists s1, s2, r. rewrite Hr. split_and!; [done..| |]; rewrite Hx; naive_solver.
Qed.
End maintain.

(** ** A bitmap in memory *)

Module SetBitmap.
#[global] Instance gset_bitmap : Bitmap (gset Z) := {|
  rb_new := ∅;
  rb_insert d r := (bool_decide (d ∉ r), {[ d ]} ∪ r);
  rb_remove d r := (bool_decide (d ∈ r), r ∖ {[ d ]});
  rb_is_empty r := bool_decide (r = ∅);
  rb_and r1 r2 := r1 ∩ r2;
  rb_or r1 r2 := r1 ∪ r2;
  rb_sub r1 r2 := r1 ∖ r2;
  rb_iter r := merge_sort Z.le (elements r);
  rb_serialize r := elements r;
  rb_deserialize b := inr (list_to_set b);
|}.

Lemma merge_sort_strict (l : list Z) : NoDup l → StronglySorted Z.lt (merge_sort Z.le l).
Proof.
  intros Hnd. assert (StronglySorted Z.le (merge_sort Z.le l)) as Hs by (apply StronglySorted_merge_sort; apply _).
  rewrite <-(merge_sort_Permutation Z.le l) in Hnd. induction Hs as [|x k Hk IH Hx]; constructor.
  - apply IH. by inversion Hnd.
  - inversion Hnd; subst. rewrite Forall_forall in *. intros y Hy. specialize (Hx y Hy).
    assert (x ≠ y) by (by intros ->). lia.
Qed.

#[global] Program Instance gset_bitmap_laws : BitmapLaws (gset Z) := {| rb_set r := r |}.
Solve All Obligations with done.
Next Obligation. intros d r. simpl. by rewrite merge_sort_Permutation, elem_of_elements. Qed.
Next Obligation. intros r. apply merge_sort_strict, NoDup_elements. Qed.
Next Obligation. intros r. simpl. eexists. split; [done|]. apply leibniz_equiv, list_to_set_elements. Qed.

(** Latin letters only. *)
#[global] Instance ascii_only : Unicode := {| uni_alphanumeric _ := false; uni_lowercase c := c |}.
End SetBitmap.
Import SetBitmap.

Lemma fts_search_exact_witness :
  let es1 := [(Subject, bs "Hello World")] in
  let es2 := [(Subject, bs "hello there")] in
  let s0 := mkMem ∅ in
  let ops1 := match index_ops (R := gset Z) 7 Email 1 es1 s0 with Ok o => o | Err _ => [] end in
  let s1 := (st_batch ops1 s0).2 in
  let ops2 := match index_ops (R := gset Z) 7 Email 2 es2 s1 with Ok o => o | Err _ => [] end in
  let s2 := (st_batch ops2 s1).2 in
  let q := QAnd [QTerm Subject (bs "HELLO"); QNot (QTerm Subject (bs "world"))] in
  search (R := gset Z) 7 Email q [1; 2; 3] s2 = Ok [2] ∧
  ∃ found, search (R := gset Z) 7 Email q [1; 2; 3] s2 = Ok found ∧ StronglySorted Z.lt found ∧
    ∀ d, d ∈ found ↔ d ∈ [1; 2; 3] ∧ satisfies (document_terms (<[2 := es2]> {[ 1 := es1 ]})) q d.
Proof.
  intros es1 es2 s0 ops1 s1 ops2 s2 q. split; [by vm_compute|].
  apply (fts_search_exact (R := gset Z) 7 Email ltac:(width) s0 s2 _ q [1; 2; 3]); [exact I|done|].
  apply rtc_l with (s1, {[ 1 := es1 ]}).
  { apply (fts_step_index 7 Email s0 s1 ∅ 1 es1 ops1 [] [] (view s1)); by vm_compute || constructor. }
  apply rtc_once.
  apply (fts_step_index 7 Email s1 s2 {[ 1 := es1 ]} 2 es2 ops2 [] [] (view s2)); by vm_compute || constructor.
Defined.

Lemma index_race_loses_witness :
  ∃ ops1 ops2 s1 s2 r,
    index_ops (R := gset Z) 7 Email 1 [(Subject, bs "hello")] (mkMem ∅) = Ok ops1 ∧
    index_ops (R := gset Z) 7 Email 2 [(Subject, bs "hello")] (mkMem ∅) = Ok ops2 ∧
    st_batch ops1 (mkMem ∅) = (Ok tt, s1) ∧ st_batch ops2 s1 = (Ok tt, s2) ∧
    posting_list 7 Email Subject (bs "hello") s2 = Ok r ∧ 2 ∈ rb_set (R := gset Z) r ∧ 1 ∉ rb_set r.
Proof.
  eexists _, _.
  destruct (index_race_loses (R := gset Z) 7 Email ltac:(width) (mkMem ∅) 1 2
    [(Subject, bs "hello")] [(Subject, bs "hello")]
    [WSet (term_key 7 Email Subject (bs "hello")) [1]] [WSet (term_key 7 Email Subject (bs "hello")) [2]]
    Subject (bs "hello") (λ _ _ _, False)) as (s1 & s2 & r & ? & ? & ? & ? & ?).
  - exact I.
  - intros f t. exists ∅. split; [done|]. set_solver.
  - done.
  - tauto.
  - tauto.
  - exists (bs "hello"). split; [left|]. by apply list_elem_of_singleton.
  - exists (bs "hello"). split; [left|]. by apply list_elem_of_singleton.
  - by vm_compute.
  - by vm_compute.
  - exists s1, s2, r. split_and!; [by vm_compute|by vm_compute|done..].
Defined.
