(* ===== verification/MailParser.v ===== *)
(** * The MIME parser's interface

    What the server uses of the mail_parser library: the shape of a parsed
    message and its accessors.  The library is outside the repository, so the
    class [MailParser] has its operations as parameters; the components that
    read messages (delivery, threading, the index, Sieve) are functions of
    them. *)

From S2P Require Import Prelude Bytes.
From stdpp Require Import base list strings.
From Stdlib Require Import ZArith.

Open Scope Z_scope.

(** An address of an address list, groups flattened. *)
Record Addr : Type := mkAddr { addr_name : option bytes; addr_address : option bytes }.

(** [HeaderValue], with the values no caller looks into as [HvOther]. *)
Inductive HeaderValue : Type :=
  | HvText (text : bytes)
  | HvTextList (texts : list bytes)
  | HvAddress (addresses : list Addr)
  | HvOther.

(** The header names that crates/mail/src/metadata.rs keeps as variants. *)
Inductive StdHeader : Type :=
  | HnSubject | HnFrom | HnTo | HnCc | HnBcc | HnReplyTo | HnSender | HnDate | HnMessageId
  | HnInReplyTo | HnReferences | HnReturnPath | HnMimeVersion | HnContentType
  | HnContentTransferEncoding | HnContentDisposition | HnContentId | HnContentDescription
  | HnContentLanguage | HnContentLocation | HnListId | HnListUnsubscribe.

(** The library's [HeaderName]: one of those, another name it knows, or a name
    it does not know ([HeaderName::Other]). *)
Inductive ParsedName : Type :=
  | PnStd (h : StdHeader)
  | PnListed (text : bytes)
  | PnOther (text : bytes).

Record ParsedHeader : Type := mkHeader {
  ph_name : ParsedName; ph_value : HeaderValue; ph_offset_start : Z; ph_offset_end : Z }.

Inductive Encoding : Type := EncNone | EncBase64 | EncQuotedPrintable.

(** [Message], [MessagePart] and [PartType]: an attached message is parsed in
    place. *)
Inductive Message : Type :=
  | mkParsed (parts : list ParsedPart)
with ParsedPart : Type :=
  | mkPart (headers : list ParsedHeader) (offset_header offset_body offset_end : Z)
      (encoding : Encoding) (body : PartType)
with PartType : Type :=
  | PtText | PtHtml | PtBinary | PtInlineBinary
  | PtMessage (sub : Message)
  | PtMultipart (children : list Z).

Definition msg_parts (m : Message) : list ParsedPart := let 'mkParsed ps := m in ps.
Definition part_headers (p : ParsedPart) : list ParsedHeader := let 'mkPart hs _ _ _ _ _ := p in hs.
Definition part_offset_header (p : ParsedPart) : Z := let 'mkPart _ o _ _ _ _ := p in o.
Definition part_offset_body (p : ParsedPart) : Z := let 'mkPart _ _ o _ _ _ := p in o.
Definition part_offset_end (p : ParsedPart) : Z := let 'mkPart _ _ _ o _ _ := p in o.
Definition part_encoding (p : ParsedPart) : Encoding := let 'mkPart _ _ _ _ e _ := p in e.
Definition part_body (p : ParsedPart) : PartType := let 'mkPart _ _ _ _ _ b := p in b.

(** The accessors of a parsed message. *)
Class MailParser : Type := {
  mp_parse : bytes → option Message;
  header_as_str : ParsedName → bytes;
  value_as_text : HeaderValue → option bytes;
  msg_headers : Message → list ParsedHeader;
  has_attachments : Message → bool;
  body_preview : Message → nat → option bytes;
  msg_subject : Message → option bytes;
  (** [body_text] at the positions below [text_body_count] *)
  text_bodies : Message → list (option bytes);
  msg_from : Message → option (list Addr);
  msg_to : Message → option (list Addr);
  msg_cc : Message → option (list Addr);
  msg_bcc : Message → option (list Addr);
  (** the date field as a timestamp *)
  msg_date : Message → option Z;
  in_reply_to : Message → HeaderValue;
  references : Message → HeaderValue;
  msg_message_id : Message → option bytes;
}.
