(* ===== verification/Sieve.v ===== *)
(** * Sieve: instructions, matching and the interpreter

    crates/sieve: the compiled form of a filter script (instruction.rs,
    limits.rs), how values are matched (matching.rs), what a test sees of a
    message (message.rs) and the interpreter (runtime.rs, lib.rs). *)

From S2P Require Import Prelude Bytes Text Fts MailParser.
From stdpp Require Import base list strings.
From Stdlib Require Import ZArith Lia.

Open Scope Z_scope.

(** ** Data *)

Inductive MatchType : Type := Is | Contains | Matches.
Inductive Comparator : Type := AsciiCaseMap | Octet.
Inductive AddressPart : Type := PartAll | Localpart | PartDomain.
Inductive EnvelopePart : Type := EnvFrom | EnvTo.

Inductive SieveTest : Type :=
  | TestHeader (headers keys : list bytes) (match_type : MatchType) (comparator : Comparator) (is_not : bool)
  | TestAddress (headers keys : list bytes) (part : AddressPart) (match_type : MatchType)
      (comparator : Comparator) (is_not : bool)
  | TestEnvelope (parts : list EnvelopePart) (keys : list bytes) (part : AddressPart)
      (match_type : MatchType) (comparator : Comparator) (is_not : bool)
  | TestExists (headers : list bytes) (is_not : bool)
  | TestSize (over : bool) (limit : Z) (is_not : bool)
  | TestBool (value : bool).

(** A jump holds the index of its target. *)
Inductive Instruction : Type :=
  | ITest (t : SieveTest)
  | Jmp (target : Z)
  | Jz (target : Z)
  | Jnz (target : Z)
  | Keep
  | Discard
  | IStop
  | FileInto (mailbox : bytes)
  | Redirect (address : bytes)
  | AddFlag (flags : list bytes)
  | SetFlag (flags : list bytes)
  | RemoveFlag (flags : list bytes).

(** [CompilerLimits], [Limits] and their defaults. *)
Record CompilerLimits : Type := mkCompilerLimits {
  max_script_size : nat; max_string_size : nat; max_nested_blocks : nat;
  max_nested_tests : nat; max_list_items : nat }.
Definition default_compiler_limits : CompilerLimits :=
  mkCompilerLimits (128 * 1024) 4096 15 15 128.
Record Limits : Type := mkRunLimits { cpu : nat; max_redirects : nat }.
Definition default_limits : Limits := mkRunLimits 5000 4.

Record CompileError : Type := mkCompileError { err_line : nat; err_column : nat; err_message : bytes }.

(** [CAPABILITIES], as advertised. *)
Definition CAPABILITIES : list bytes :=
  [bs "fileinto"; bs "envelope"; bs "imap4flags"; bs "encoded-character"; bs "comparator-i;octet"].

Record Script : Type := mkScript { instructions : list Instruction; capabilities : list bytes }.
Record Envelope : Type := mkEnvelope { env_from : bytes; env_to : bytes }.
Record Outcome : Type := mkSieveOutcome {
  keep : bool; discarded : bool; file_into : list bytes; redirects : list bytes; flags : list bytes }.

(** ** matching.rs *)

(** [str::contains]. *)
Definition str_contains (value key : bytes) : bool := bool_decide (is_Some (find_sub key value)).

Inductive Pat : Type := Many | Single | PChar (ch : bytes).
#[global] Instance Pat_eq_dec : EqDecision Pat.
Proof. solve_decision. Defined.

(** [compile_glob]: runs of stars collapse, a backslash quotes the next
    character. *)
Fixpoint compile_glob_go (cs : list bytes) (compiled : list Pat) : list Pat :=
  match cs with
  | [] => compiled
  | ch :: cs =>
      if bool_decide (ch = [42]) then
        compile_glob_go cs
          (match last compiled with Some Many => compiled | _ => compiled ++ [Many] end)
      else if bool_decide (ch = [63]) then compile_glob_go cs (compiled ++ [Single])
      else if bool_decide (ch = [92]) then
        match cs with
        | [] => compiled ++ [PChar [92]]
        | quoted :: cs => compile_glob_go cs (compiled ++ [PChar quoted])
        end
      else compile_glob_go cs (compiled ++ [PChar ch])
  end.
Definition compile_glob (pattern : bytes) : list Pat := compile_glob_go (chars pattern) [].

(** The loop of [glob_matches]; [None] when the fuel runs out. *)
Fixpoint glob_loop (fuel : nat) (pattern : list Pat) (value : list bytes) (px nx next_px next_nx : nat)
  : option bool :=
  match fuel with
  | O => None
  | S fuel =>
      if (px <? length pattern)%nat || (nx <? length value)%nat then
        let backtrack :=
          if (0 <? next_nx)%nat && (next_nx <=? length value)%nat
          then glob_loop fuel pattern value next_px next_nx next_px next_nx
          else Some false in
        match pattern !! px with
        | Some (PChar ch) =>
            if bool_decide (value !! nx = Some ch)
            then glob_loop fuel pattern value (S px) (S nx) next_px next_nx
            else backtrack
        | Some Single =>
            if (nx <? length value)%nat
            then glob_loop fuel pattern value (S px) (S nx) next_px next_nx
            else backtrack
        | Some Many => glob_loop fuel pattern value (S px) nx px (S nx)
        | None => backtrack
        end
      else Some true
  end.

(** Every turn advances in the pattern, or restarts with a longer match of the
    last star. *)
Definition glob_fuel (pattern : list Pat) (value : list bytes) : nat :=
  S ((length value + 2) * (length pattern + 1)).
Definition glob_matches (pattern value : bytes) : bool :=
  let p := compile_glob pattern in
  let v := chars value in
  default false (glob_loop (glob_fuel p v) p v 0 0 0 0).

(** [value_matches]. *)
Definition value_matches (mt : MatchType) (cmp : Comparator) (key value : bytes) : bool :=
  match mt, cmp with
  | Is, Octet => bool_decide (value = key)
  | Is, AsciiCaseMap => eq_ignore_ascii_case value key
  | Contains, Octet => bool_decide (key = []) || str_contains value key
  | Contains, AsciiCaseMap =>
      bool_decide (key = []) || str_contains (to_ascii_lowercase value) (to_ascii_lowercase key)
  | Matches, Octet => glob_matches key value
  | Matches, AsciiCaseMap => glob_matches (to_ascii_lowercase key) (to_ascii_lowercase value)
  end.

(** ** message.rs *)

Section message.
Context `{MailParser}.

Record MessageView : Type := mkView { view_raw : bytes; view_parsed : option Message }.
Definition view_new (raw : bytes) : MessageView := mkView raw (mp_parse raw).
Definition view_size (v : MessageView) : Z := Z.of_nat (length (view_raw v)).

(** [headers_named]. *)
Definition headers_named (v : MessageView) (name : bytes) : list ParsedHeader :=
  match view_parsed v with
  | Some m => filter (λ h, eq_ignore_ascii_case (header_as_str (ph_name h)) name = true) (msg_headers m)
  | None => []
  end.
Definition header_exists (v : MessageView) (name : bytes) : bool :=
  negb (bool_decide (headers_named v name = [])).

(** [slice::get] of a range, and [raw_value]. *)
Definition slice_get (s : bytes) (start end_ : Z) : option bytes :=
  if (start <=? end_) && (end_ <=? Z.of_nat (length s))
  then Some (take (Z.to_nat (end_ - start)) (drop (Z.to_nat start) s)) else None.
Definition raw_value (v : MessageView) (start end_ : Z) : bytes :=
  match slice_get (view_raw v) start end_ with
  | Some b => str_trim (utf8_lossy b)
  | None => []
  end.

(** [slice::join]. *)
Fixpoint join (sep : bytes) (l : list bytes) : bytes :=
  match l with
  | [] => []
  | [x] => x
  | x :: l => x ++ sep ++ join sep l
  end.
Definition addr_text (a : Addr) : bytes :=
  match addr_name a, addr_address a with
  | Some name, Some email => name ++ bs " <" ++ email ++ bs ">"
  | None, Some email => email
  | Some name, None => name
  | None, None => []
  end.

(** [header_values]. *)
Definition header_value_text (v : MessageView) (h : ParsedHeader) : bytes :=
  match ph_value h with
  | HvText text => text
  | HvTextList l => join (bs ", ") l
  | HvAddress l => join (bs ", ") (addr_text <$> l)
  | HvOther => raw_value v (ph_offset_start h) (ph_offset_end h)
  end.
Definition header_values (v : MessageView) (name : bytes) : list bytes :=
  header_value_text v <$> headers_named v name.

(** [address_part]. *)
Definition address_part (address : bytes) (part : AddressPart) : bytes :=
  match part with
  | PartAll => address
  | Localpart => match rsplit_once 64 address with Some (local, _) => local | None => address end
  | PartDomain => match rsplit_once 64 address with Some (_, domain) => domain | None => [] end
  end.

(** [header_addresses]. *)
Definition header_addresses (v : MessageView) (name : bytes) (part : AddressPart) : list bytes :=
  headers_named v name ≫= λ h,
    match ph_value h with
    | HvAddress l =>
        match (λ a, address_part (default [] (match addr_address a with
                                              | Some x => Some x
                                              | None => addr_name a
                                              end)) part) <$> l with
        | [] => [[]]
        | addresses => addresses
        end
    | _ => [[]]
    end.
End message.

(** [parse_envelope_address]. *)
Definition is_ascii_control (b : Z) : bool := (b <? 32) || (b =? 127).
Definition bad_address_byte (b : Z) : bool :=
  is_ascii_whitespace b || is_ascii_control b || (128 <=? b).
Definition parse_envelope_address (input : bytes) : option bytes :=
  let value := str_trim input in
  value ← match Text.strip_prefix [60] value with
          | Some stripped => str_trim <$> Text.strip_suffix [62] stripped
          | None => Some value
          end;
  if bool_decide (value = []) then Some []
  else
    value ← (if starts_with value [64] then snd <$> split_once 58 value else Some value);
    if existsb bad_address_byte value then None
    else match rsplit_once 64 value with
         | None =>
             if eq_ignore_ascii_case value (bs "mailer-daemon") then Some (to_ascii_lowercase value) else None
         | Some (local, domain) =>
             if bool_decide (local = []) || bool_decide (domain = []) || existsb (Z.eqb 64) local
                || str_contains domain (bs "..")
             then None else Some value
         end.

(** ** runtime.rs *)

(** [add_flags]. *)
Definition add_flags (fs new_flags : list bytes) : list bytes :=
  foldl (λ fs f, if existsb (λ g, eq_ignore_ascii_case g f) fs then fs else fs ++ [f]) fs new_flags.

Section runtime.
Context `{MailParser}.

(** [eval]. *)
Definition eval (t : SieveTest) (v : MessageView) (from to : option bytes) : bool :=
  match t with
  | TestBool value => value
  | TestHeader headers keys mt cmp is_not =>
      xorb (existsb (λ h, existsb (λ value, existsb (λ key, value_matches mt cmp key value) keys)
                            (header_values v h)) headers) is_not
  | TestAddress headers keys part mt cmp is_not =>
      xorb (existsb (λ h, existsb (λ value, existsb (λ key, value_matches mt cmp key value) keys)
                            (header_addresses v h part)) headers) is_not
  | TestEnvelope parts keys part mt cmp is_not =>
      xorb (existsb (λ ep,
              match (match ep with EnvFrom => from | EnvTo => to end) with
              | Some value => existsb (λ key, value_matches mt cmp key (address_part value part)) keys
              | None => false
              end) parts) is_not
  | TestExists headers is_not => xorb (forallb (header_exists v) headers) is_not
  | TestSize over limit is_not =>
      xorb (if over then limit <? view_size v else view_size v <? limit) is_not
  end.

(** The local variables of [run], but for the program counter. *)
Record Machine : Type := mkMachine {
  test_result : bool;
  implicit_keep : bool;
  explicit_keep : bool;
  discard_requested : bool;
  m_file_into : list bytes;
  m_redirects : list bytes;
  m_flags : list bytes;
}.
Definition initial_machine : Machine := mkMachine false true false false [] [] [].

Definition set_test (b : bool) (m : Machine) : Machine :=
  mkMachine b (implicit_keep m) (explicit_keep m) (discard_requested m) (m_file_into m) (m_redirects m) (m_flags m).

(** The instructions that are neither tests nor jumps. *)
Definition act (l : Limits) (i : Instruction) (m : Machine) : Machine :=
  match i with
  | Keep => mkMachine (test_result m) (implicit_keep m) true (discard_requested m) (m_file_into m)
              (m_redirects m) (m_flags m)
  | Discard => mkMachine (test_result m) false (explicit_keep m) true (m_file_into m) (m_redirects m) (m_flags m)
  | FileInto mailbox =>
      mkMachine (test_result m) false (explicit_keep m) (discard_requested m)
        (if bool_decide (mailbox ∈ m_file_into m) then m_file_into m else m_file_into m ++ [mailbox])
        (m_redirects m) (m_flags m)
  | Redirect address =>
      mkMachine (test_result m) (implicit_keep m) (explicit_keep m) (discard_requested m) (m_file_into m)
        (if (length (m_redirects m) <? max_redirects l)%nat
            && negb (existsb (λ r, eq_ignore_ascii_case r address) (m_redirects m))
         then m_redirects m ++ [address] else m_redirects m)
        (m_flags m)
  | AddFlag new =>
      mkMachine (test_result m) (implicit_keep m) (explicit_keep m) (discard_requested m) (m_file_into m)
        (m_redirects m) (add_flags (m_flags m) new)
  | SetFlag new =>
      mkMachine (test_result m) (implicit_keep m) (explicit_keep m) (discard_requested m) (m_file_into m)
        (m_redirects m) (add_flags [] new)
  | RemoveFlag removed =>
      mkMachine (test_result m) (implicit_keep m) (explicit_keep m) (discard_requested m) (m_file_into m)
        (m_redirects m)
        (filter (λ f, existsb (λ r, eq_ignore_ascii_case r f) removed = false) (m_flags m))
  | _ => m
  end.

(** One turn of the loop at an instruction: the next position and state, or
    the state at which the script stops. *)
Definition step (l : Limits) (v : MessageView) (from to : option bytes) (i : Instruction) (pos : nat)
    (m : Machine) : Machine + nat * Machine :=
  match i with
  | ITest t => inr (S pos, set_test (eval t v from to) m)
  | Jmp target => inr (Z.to_nat target, m)
  | Jz target => inr (if test_result m then S pos else Z.to_nat target, m)
  | Jnz target => inr (if test_result m then Z.to_nat target else S pos, m)
  | IStop => inl m
  | _ => inr (S pos, act l i m)
  end.

(** The loop of [run]: at most [cpu] instructions. *)
Fixpoint run_loop (fuel : nat) (l : Limits) (code : list Instruction) (v : MessageView)
    (from to : option bytes) (pos : nat) (m : Machine) : Machine :=
  match fuel with
  | O => m
  | S fuel =>
      match code !! pos with
      | None => m
      | Some i =>
          match step l v from to i pos m with
          | inl m => m
          | inr (pos, m) => run_loop fuel l code v from to pos m
          end
      end
  end.

(** What [run] reports of the final state. *)
Definition outcome_of (m : Machine) : Outcome :=
  let k := explicit_keep m || implicit_keep m in
  mkSieveOutcome k (discard_requested m && negb k && bool_decide (m_file_into m = []))
    (m_file_into m) (m_redirects m) (m_flags m).

(** [run], which is [execute]. *)
Definition execute (s : Script) (raw : bytes) (e : Envelope) (l : Limits) : Outcome :=
  let v := view_new raw in
  let from := parse_envelope_address (env_from e) in
  let to := parse_envelope_address (env_to e) in
  outcome_of (run_loop (cpu l) l (instructions s) v from to 0 initial_machine).
End runtime.
