(* ===== verification/SieveGlob.v ===== *)
(** * Wildcard matching

    The matcher of crates/sieve/src/matching.rs walks pattern and text with
    two positions and one point to return to.  It is proved equal to the
    textbook definition of matching, and to need no more turns than the
    product of the lengths. *)

From S2P Require Import Prelude Bytes Text Fts MailParser Sieve.
From stdpp Require Import base list strings.
From Stdlib Require Import ZArith Lia.

Open Scope nat_scope.

(** A star stands for any characters, a question mark for one. *)
Inductive glob : list Pat → list bytes → Prop :=
  | glob_nil : glob [] []
  | glob_char c p v : glob p v → glob (PChar c :: p) (c :: v)
  | glob_single c p v : glob p v → glob (Single :: p) (c :: v)
  | glob_many_skip p v : glob p v → glob (Many :: p) v
  | glob_many_take c p v : glob (Many :: p) v → glob (Many :: p) (c :: v).

Create HintDb glob discriminated.
#[global] Hint Constructors glob : glob.

Lemma glob_many p v : glob (Many :: p) v ↔ glob p v ∨ ∃ c v', v = c :: v' ∧ glob (Many :: p) v'.
Proof. split; [inversion 1; subst; eauto|]. intros [?|(c & v' & -> & ?)]; auto with glob. Qed.

(** A star that matches the rest of a text matches any longer rest. *)
Lemma glob_many_app p v u : glob (Many :: p) v → glob (Many :: p) (u ++ v).
Proof. induction u; simpl; auto with glob. Qed.

(** A part of a pattern without stars has a fixed length. *)
Definition no_many (p : list Pat) : Prop := Forall (λ x, x ≠ Many) p.

Lemma glob_segment q p v :
  no_many q → glob (q ++ p) v → ∃ u v', v = u ++ v' ∧ length u = length q ∧ glob p v'.
Proof.
  intros Hq. revert v. induction Hq as [|x q Hx _ IH]; simpl; intros v Hg; [by exists [], v|].
  inversion Hg; subst; try done.
  all: destruct (IH _ ltac:(eassumption)) as (u & v' & -> & ? & ?); eexists (_ :: u), v'; simpl; auto.
Qed.

Section loop.
Context (p : list Pat) (v : list bytes).

(** The rest of the pattern matches the rest of the text. *)
Definition rest (px nx : nat) : Prop := glob (drop px p) (drop nx v).

(** The point to return to: at a star, which the current attempt matched with
    all text before [next_nx]. *)
Definition resume (px nx next_px next_nx : nat) : Prop :=
  next_nx = 0 ∨
  p !! next_px = Some Many ∧
  (px = next_px ∧ nx = next_nx ∨
   next_px < px ∧ no_many (take (px - S next_px) (drop (S next_px) p)) ∧ nx + next_px + 2 = next_nx + px).

Definition alternative (next_px next_nx : nat) : Prop :=
  0 < next_nx ≤ length v ∧ rest next_px next_nx.

Lemma rest_cons px nx x :
  p !! px = Some x → rest px nx ↔ glob (x :: drop (S px) p) (drop nx v).
Proof. intros E. unfold rest. by rewrite (drop_S p x px E). Qed.

Lemma rest_step px nx x :
  p !! px = Some x → x ≠ Many →
  rest px nx ↔ ∃ c, v !! nx = Some c ∧ (x = PChar c ∨ x = Single) ∧ rest (S px) (S nx).
Proof.
  intros E Hx. rewrite (rest_cons px nx x E). unfold rest. destruct (v !! nx) as [c|] eqn:Ev.
  - rewrite (drop_S v c nx Ev). split.
    + inversion 1; subst; try done; eauto.
    + intros (? & [= <-] & [->| ->] & ?); auto with glob.
  - apply lookup_ge_None in Ev. rewrite (drop_ge v nx) by done. split; [inversion 1; congruence|naive_solver].
Qed.

Lemma rest_many px nx :
  p !! px = Some Many →
  rest px nx ↔ rest (S px) nx ∨ nx < length v ∧ rest px (S nx).
Proof.
  intros E. rewrite (rest_cons px nx Many E), glob_many. unfold rest at 1.
  destruct (v !! nx) as [c|] eqn:Ev.
  - rewrite (drop_S v c nx Ev), (rest_cons px (S nx) Many E).
    apply lookup_lt_Some in Ev. naive_solver.
  - pose proof Ev as Hlen%lookup_ge_None. rewrite (drop_ge v nx) by done. split; [|intros [?|[? _]]; [by left|lia]].
    intros [?|(? & ? & [=] & _)]. by left.
Qed.

Lemma rest_nil px nx : length p ≤ px → rest px nx ↔ length v ≤ nx.
Proof.
  intros Hp. unfold rest. rewrite drop_ge by done. split.
  - intros Hg. destruct (drop nx v) eqn:Ew; [|by inversion Hg]. apply (f_equal length) in Ew.
    rewrite length_drop in Ew. simpl in Ew. lia.
  - intros Hv. rewrite drop_ge by done. constructor.
Qed.

(** What a star further on has matched, an earlier star need not. *)
Lemma resume_subsumed px nx next_px next_nx :
  p !! px = Some Many → resume px nx next_px next_nx → alternative next_px next_nx → rest px nx.
Proof.
  intros E [->|[En [[-> ->]|(Hlt & Hno & Hlen)]]] [Hb Hr]; [lia|done|].
  rewrite (rest_cons px nx Many E). rewrite (rest_cons _ _ _ En) in Hr.
  set (q := take (px - S next_px) (drop (S next_px) p)) in *.
  assert (length q = px - S next_px) as Hq.
  { unfold q. rewrite length_take, length_drop. apply lookup_lt_Some in E. lia. }
  assert (drop (S next_px) p = q ++ Many :: drop (S px) p) as Hsplit.
  { rewrite <-(take_drop (px - S next_px) (drop (S next_px) p)). fold q. f_equal.
    rewrite drop_drop. replace (S next_px + (px - S next_px)) with px by lia. by apply drop_S. }
  rewrite Hsplit in Hr. clearbody q.
  assert (∀ n, next_nx ≤ n → glob (Many :: q ++ Many :: drop (S px) p) (drop n v) →
    glob (Many :: drop (S px) p) (drop nx v)) as Hgo; [|by apply (Hgo next_nx)].
  intros n. remember (length v - n) as k eqn:Hk. revert n Hk.
  induction k as [k IH] using lt_wf_ind. intros n -> Hn Hg.
  apply glob_many in Hg as [(u & v' & Ev & Hu & Hg)%(glob_segment _ _ _ Hno)|(c & v' & Ev & Hg)].
  - assert (drop nx v = take (n + length q - nx) (drop nx v) ++ v') as ->; [|by apply glob_many_app].
    rewrite <-(take_drop (n + length q - nx) (drop nx v)) at 1. f_equal.
    rewrite drop_drop. replace (nx + (n + length q - nx)) with (n + length u) by lia.
    by rewrite <-drop_drop, Ev, drop_app_length.
  - assert (n < length v) as Hlt'. { apply (f_equal length) in Ev. rewrite length_drop in Ev. simpl in Ev. lia. }
    apply (IH (length v - S n) ltac:(lia) (S n)); [done|lia|].
    replace (S n) with (n + 1) by lia. by rewrite <-drop_drop, Ev.
Qed.

(** *** The loop *)

(** Turns that are left: characters of the pattern, and for every text the
    last star can still take, one walk through the pattern. *)
Definition measure (px next_nx : nat) : nat :=
  (length v + 1 - next_nx) * (length p + 1) + (length p - px).

Lemma resume_advance px nx next_px next_nx x :
  p !! px = Some x → x ≠ Many → resume px nx next_px next_nx → resume (S px) (S nx) next_px next_nx.
Proof.
  intros E Hx [->|[En [[-> ->]|(Hlt & Hno & Hlen)]]]; [by left|congruence|]. right. split; [done|].
  right. split_and!; [lia| |lia].
  replace (S px - S next_px) with (S (px - S next_px)) by lia.
  rewrite (take_S_r _ _ x).
  - apply Forall_app. split; [done|by constructor].
  - rewrite lookup_drop. by replace (S next_px + (px - S next_px)) with px by lia.
Qed.

Lemma resume_bound px nx next_px next_nx : resume px nx next_px next_nx → next_nx ≤ S nx.
Proof. intros [->|[_ [[_ ->]|(? & _ & ?)]]]; lia. Qed.

Lemma measure_many px nx next_px next_nx :
  px < length p → resume px nx next_px next_nx → measure (S px) (S nx) < measure px next_nx.
Proof. intros Hp Hr%resume_bound. unfold measure. nia. Qed.

(** The loop answers within its fuel. *)
Definition loop_correct (fuel : nat) : Prop := ∀ px nx next_px next_nx,
  px ≤ length p → nx ≤ length v → resume px nx next_px next_nx → measure px next_nx < fuel →
  ∃ b, glob_loop fuel p v px nx next_px next_nx = Some b ∧
    (b = true ↔ rest px nx ∨ alternative next_px next_nx).

(** Giving up an attempt. *)
Lemma glob_backtrack fuel px nx next_px next_nx :
  (∀ f, f < fuel → loop_correct f) → px ≤ length p → resume px nx next_px next_nx →
  measure px next_nx < S fuel → ¬ rest px nx →
  ∃ b, (if (0 <? next_nx) && (next_nx <=? length v)
        then glob_loop fuel p v next_px next_nx next_px next_nx else Some false) = Some b ∧
    (b = true ↔ rest px nx ∨ alternative next_px next_nx).
Proof.
  intros IH Hpx Hres Hfuel Hno. destruct (Nat.ltb_spec 0 next_nx), (Nat.leb_spec next_nx (length v)); simpl.
  2-4: exists false; split; [done|]; unfold alternative; naive_solver lia.
  destruct Hres as [?|[En Hres]]; [lia|]. pose proof (lookup_lt_Some _ _ _ En) as Hlt.
  destruct fuel as [|fuel]; [unfold measure in Hfuel; nia|]. cbn [glob_loop].
  rewrite (proj2 (Nat.ltb_lt _ _) Hlt). simpl. rewrite En.
  destruct (IH fuel ltac:(lia) (S next_px) next_nx next_px (S next_nx)) as (b & -> & Hb); [lia|done| | |].
  - right. split; [done|]. right. replace (S next_px - S next_px) with 0 by lia.
    split_and!; [lia|constructor|lia].
  - unfold measure in *. nia.
  - exists b. split; [done|]. rewrite Hb. unfold alternative. rewrite (rest_many next_px next_nx En).
    naive_solver lia.
Qed.

Lemma glob_loop_spec fuel : loop_correct fuel.
Proof.
  induction fuel as [fuel IH] using lt_wf_ind.
  intros px nx next_px next_nx Hpx Hnx Hres Hfuel. destruct fuel as [|fuel]; [lia|]. cbn [glob_loop].
  pose proof (IH fuel ltac:(lia)) as IH1.
  pose proof (glob_backtrack fuel px nx next_px next_nx ltac:(intros; apply IH; lia) Hpx Hres Hfuel) as Hback.
  destruct (p !! px) as [x|] eqn:E.
  - pose proof (lookup_lt_Some _ _ _ E) as Hlt. rewrite (proj2 (Nat.ltb_lt _ _) Hlt). simpl.
    destruct (decide (x = Many)) as [->|Hx].
    + destruct (IH1 (S px) nx px (S nx)) as (b & -> & Hb); [lia|done| | |].
      * right. split; [done|]. right. replace (S px - S px) with 0 by lia. split_and!; [lia|constructor|lia].
      * pose proof (measure_many _ _ _ _ Hlt Hres). lia.
      * exists b. split; [done|]. rewrite Hb, (rest_many px nx E). unfold alternative at 1.
        split; [naive_solver lia|]. intros [?|Halt]; [naive_solver lia|].
        apply (resume_subsumed px nx) in Halt; [|done..]. apply (rest_many px nx E) in Halt. naive_solver lia.
    + pose proof (rest_step px nx x E Hx) as Hstep.
      assert (∀ c, v !! nx = Some c → x = PChar c ∨ x = Single →
        ∃ b, glob_loop fuel p v (S px) (S nx) next_px next_nx = Some b ∧
          (b = true ↔ rest px nx ∨ alternative next_px next_nx)) as Hgo.
      { intros c Ec Hc. apply lookup_lt_Some in Ec as ?.
        destruct (IH1 (S px) (S nx) next_px next_nx) as (b & -> & Hb); [lia|lia| | |].
        - by eapply resume_advance.
        - unfold measure in *. nia.
        - exists b. split; [done|]. rewrite Hb, Hstep. naive_solver. }
      destruct x as [| |c]; [done| |].
      * destruct (Nat.ltb_spec nx (length v)) as [Hv|Hv].
        -- destruct (lookup_lt_is_Some_2 v nx Hv) as [c Ec]. by apply (Hgo c); auto.
        -- apply Hback. rewrite Hstep. intros (c & Ec%lookup_lt_Some & _). lia.
      * case_bool_decide as Ec; [by apply (Hgo c); auto|]. apply Hback. rewrite Hstep. naive_solver.
  - apply lookup_ge_None in E. destruct (Nat.ltb_spec px (length p)); [lia|]. simpl.
    destruct (Nat.ltb_spec nx (length v)); [apply Hback; rewrite rest_nil by done; lia|].
    exists true. split; [done|]. rewrite rest_nil by done. naive_solver lia.
Qed.
End loop.

(** ** Patterns *)

(** What a pattern says, read character by character. *)
Fixpoint pattern_of (cs : list bytes) : list Pat :=
  match cs with
  | [] => []
  | ch :: cs =>
      if bool_decide (ch = [42%Z]) then Many :: pattern_of cs
      else if bool_decide (ch = [63%Z]) then Single :: pattern_of cs
      else if bool_decide (ch = [92%Z]) then
        match cs with
        | [] => [PChar [92%Z]]
        | quoted :: cs => PChar quoted :: pattern_of cs
        end
      else PChar ch :: pattern_of cs
  end.

Lemma glob_app p q v : glob (p ++ q) v ↔ ∃ u w, v = u ++ w ∧ glob p u ∧ glob q w.
Proof.
  split.
  - revert v. induction p as [|x p IH]; simpl; intros v Hg; [exists [], v; auto with glob|].
    remember (x :: p ++ q) as r eqn:Er. induction Hg as [|c p' v Hg _|c p' v Hg _|p' v Hg _|c p' v Hg IHg];
      simplify_eq/=.
    1,2: destruct (IH _ Hg) as (u & w & -> & ? & ?); exists (c :: u), w; auto with glob.
    + destruct (IH _ Hg) as (u & w & -> & ? & ?); exists u, w; auto with glob.
    + destruct IHg as (u & w & -> & ? & ?); [done|]. exists (c :: u), w; auto with glob.
  - intros (u & w & -> & Hp & Hq). induction Hp; simpl; auto with glob.
Qed.

Lemma glob_many_twice p v : glob (p ++ [Many; Many]) v ↔ glob (p ++ [Many]) v.
Proof.
  rewrite !glob_app. split; intros (u & w & -> & Hp & Hq); exists u, w; (split_and!; [done..|]).
  - clear -Hq. induction w as [|c w IH]; [auto with glob|]. apply glob_many in Hq as [?|(? & ? & [= <- <-] & ?)]; auto with glob.
  - auto with glob.
Qed.

(** Collapsing runs of stars changes nothing. *)
Lemma compile_glob_go_spec cs acc v : glob (compile_glob_go cs acc) v ↔ glob (acc ++ pattern_of cs) v.
Proof.
  remember (length cs) as n eqn:Hn. revert cs acc v Hn. induction n as [n IH] using lt_wf_ind.
  intros [|ch cs] acc v ->; simpl; [by rewrite app_nil_r|].
  assert (∀ x cs' v, length cs' < length (ch :: cs) →
    glob (compile_glob_go cs' (acc ++ [x])) v ↔ glob (acc ++ x :: pattern_of cs') v) as Hgo.
  { intros x cs' v' Hlt. rewrite (IH _ Hlt _ _ _ eq_refl), <-app_assoc. done. }
  case_bool_decide; [|case_bool_decide; [by apply Hgo; simpl; lia|case_bool_decide]].
  - destruct (last acc) as [[]|] eqn:El; try (by apply Hgo; simpl; lia).
    apply last_Some in El as [acc' ->]. rewrite (IH (length cs)) by (simpl; lia || done).
    rewrite (glob_app (acc' ++ [Many])). change (Many :: pattern_of cs) with ([Many] ++ pattern_of cs).
    rewrite app_assoc, glob_app, <-app_assoc. by setoid_rewrite (glob_many_twice acc').
  - destruct cs as [|q cs]; [done|]. apply Hgo. simpl. lia.
  - apply Hgo. simpl. lia.
Qed.

(** Wildcard matching is exact.  The linear matcher, which keeps a single
    point to return to, ends within its bound and answers as the definition
    of matching does: a star stands for any sequence of characters, a
    question mark for one, a character quoted by a backslash for itself. *)
Theorem glob_matches_exact pattern value :
  glob_matches pattern value = true ↔ glob (pattern_of (chars pattern)) (chars value).
Proof.
  unfold glob_matches. set (p := compile_glob pattern). set (v := chars value).
  destruct (glob_loop_spec p v (glob_fuel p v) 0 0 0 0) as (b & -> & Hb); [lia|lia|by left| |].
  - unfold measure, glob_fuel. nia.
  - simpl. rewrite Hb. unfold rest, alternative. rewrite !drop_0.
    unfold p, compile_glob. rewrite compile_glob_go_spec. simpl. naive_solver lia.
Qed.
