(* ===== verification/SieveLexer.v ===== *)
(** * Sieve: the lexer (crates/sieve/src/lexer.rs, string.rs)

    The lexer walks the bytes of the source with a line and a column.  Its
    state is the text that is left and that position; each scanner is a
    recursion on the text.  The file ends with how the tokens of printed text
    are read back. *)

From S2P Require Import Prelude Bytes Text Sieve.
From stdpp Require Import base list strings.
From Stdlib Require Import ZArith Lia.

Open Scope Z_scope.

(** ** Data *)

Inductive Tok : Type :=
  | TIdentifier (word : bytes)
  | TTag (word : bytes)
  | TNumber (n : Z)
  | TStr (value : bytes)
  | LParen | RParen | LBrace | RBrace | LBracket | RBracket | Comma | Semicolon.
#[global] Instance Tok_eq_dec : EqDecision Tok.
Proof. solve_decision. Defined.

Record Token : Type := mkToken { tok : Tok; tok_line : nat; tok_col : nat }.

(** Fallible compilation. *)
Abbreviation compiled := (sum CompileError).
#[global] Instance compiled_ret : MRet compiled := λ A, inr.
#[global] Instance compiled_bind : MBind compiled := λ A B f r,
  match r with inl e => inl e | inr a => f a end.

Lemma compiled_bind_inr {A B} (m : compiled A) (f : A → compiled B) b :
  (x ← m; f x) = inr b → ∃ x, m = inr x ∧ f x = inr b.
Proof. destruct m as [e|x]; [done|]. intros. by exists x. Qed.

(** The position of the lexer. *)
Record Pos : Type := mkPos { p_line : nat; p_col : nat }.
Record Lexer : Type := mkLexer { lx_rest : bytes; lx_pos : Pos }.

Definition error_at (p : Pos) (message : bytes) : CompileError :=
  mkCompileError (p_line p) (p_col p) message.

(** What the loops of the model return if their bound is reached; no error of
    the compiler has line 0. *)
Definition out_of_fuel : CompileError := mkCompileError 0 0 (bs "the loop has stopped").

(** [Lexer::advance]: past one byte. *)
Definition bump (b : Z) (p : Pos) : Pos :=
  if b =? LF then mkPos (S (p_line p)) 1 else mkPos (p_line p) (S (p_col p)).

(** ** Scanners *)

(** A comment up to the end of the line, which stays. *)
Fixpoint skip_hash (s : bytes) (p : Pos) : Lexer :=
  match s with
  | [] => mkLexer [] p
  | b :: s' => if b =? LF then mkLexer s p else skip_hash s' (bump b p)
  end.

(** The inside of a bracketed comment. *)
Fixpoint skip_comment (s : bytes) (p : Pos) : option Lexer :=
  match s with
  | [] => None
  | b :: s' =>
      match s' with
      | c :: s'' =>
          if (b =? 42) && (c =? 47) then Some (mkLexer s'' (bump c (bump b p)))
          else skip_comment s' (bump b p)
      | [] => skip_comment s' (bump b p)
      end
  end.

Definition is_word_start (b : Z) : bool := is_ascii_lower b || is_ascii_upper b || (b =? 95).
Definition is_word_byte (b : Z) : bool := is_word_start b || is_digit b.

(** [Lexer::word]: folded to lower case. *)
Fixpoint word (s : bytes) (p : Pos) : bytes * Lexer :=
  match s with
  | [] => ([], mkLexer [] p)
  | b :: s' =>
      if is_word_byte b then let '(w, l) := word s' (bump b p) in (to_lower b :: w, l)
      else ([], mkLexer s p)
  end.

(** [Lexer::quoted_string], after the opening quote. *)
Fixpoint quoted_string (limit : nat) (at_ : Pos) (s : bytes) (p : Pos) (value : bytes)
  : compiled (bytes * Lexer) :=
  let check value k :=
    if (limit <? length value)%nat then inl (error_at at_ (bs "string exceeds the maximum length")) else k in
  match s with
  | [] => inl (error_at at_ (bs "unterminated string"))
  | b :: s =>
      let p := bump b p in
      if b =? 34 then
        if utf8_valid value then inr (value, mkLexer s p)
        else inl (error_at at_ (bs "string is not valid utf-8"))
      else if b =? 92 then
        match s with
        | [] => inl (error_at at_ (bs "unterminated string"))
        | e :: s =>
            let value := value ++ [e] in
            check value (quoted_string limit at_ s (bump e p) value)
        end
      else
        let value := value ++ [b] in
        check value (quoted_string limit at_ s p value)
  end.

(** [Lexer::number]: the digits, then a multiplier. *)
Fixpoint digits (at_ : Pos) (s : bytes) (p : Pos) (value : Z) : compiled (Z * Lexer) :=
  match s with
  | b :: s' =>
      if is_digit b then
        let value := value * 10 + (b - 48) in
        if value <=? U64_MAX then digits at_ s' (bump b p) value
        else inl (error_at at_ (bs "number is too large"))
      else inr (value, mkLexer s p)
  | [] => inr (value, mkLexer s p)
  end.
Definition multiplier (b : Z) : option Z :=
  if (b =? 107) || (b =? 75) then Some (2 ^ 10)
  else if (b =? 109) || (b =? 77) then Some (2 ^ 20)
  else if (b =? 103) || (b =? 71) then Some (2 ^ 30)
  else None.
Definition number (at_ : Pos) (s : bytes) (p : Pos) : compiled (Z * Lexer) :=
  '(value, l) ← digits at_ s p 0;
  match lx_rest l with
  | b :: rest =>
      match multiplier b with
      | Some m => inr (saturating_mul_u64 value m, mkLexer rest (bump b (lx_pos l)))
      | None => inr (value, l)
      end
  | [] => inr (value, l)
  end.

(** [Lexer::multiline_string]: the rest of the first line, then lines up to a
    lone dot. *)
Fixpoint multiline_head (at_ : Pos) (in_comment : bool) (s : bytes) (p : Pos) : compiled Lexer :=
  match s with
  | [] => inl (error_at at_ (bs "unterminated multiline string"))
  | b :: s =>
      if b =? LF then inr (mkLexer s (bump b p))
      else if in_comment then multiline_head at_ true s (bump b p)
      else if (b =? 32) || (b =? 9) || (b =? 13) then multiline_head at_ false s (bump b p)
      else if b =? 35 then multiline_head at_ true s (bump b p)
      else inl (error_at at_ (bs "expected a newline after 'text:'"))
  end.
Fixpoint source_line (s : bytes) (p : Pos) (current : bytes) : bytes * bool * Lexer :=
  match s with
  | [] => (current, false, mkLexer [] p)
  | b :: s => if b =? LF then (current, true, mkLexer s (bump b p)) else source_line s (bump b p) (current ++ [b])
  end.
Fixpoint multiline_body (fuel : nat) (limit : nat) (at_ : Pos) (l : Lexer) (value : bytes)
  : compiled (bytes * Lexer) :=
  match fuel with
  | O => inl out_of_fuel
  | S fuel =>
      let '(current, terminated, l) := source_line (lx_rest l) (lx_pos l) [] in
      let current := default current (Text.strip_suffix [CR] current) in
      if negb terminated && bool_decide (current = [])
      then inl (error_at at_ (bs "unterminated multiline string"))
      else if bool_decide (current = [46]) then inr (value, l)
      else
        let text := if starts_with current [46; 46] then drop 1 current else current in
        if negb (utf8_valid text) then inl (error_at at_ (bs "string is not valid utf-8"))
        else
          let value := value ++ text ++ CRLF in
          if (limit <? length value)%nat then inl (error_at at_ (bs "string exceeds the maximum length"))
          else if negb terminated then inl (error_at at_ (bs "unterminated multiline string"))
          else multiline_body fuel limit at_ l value
  end.
Definition multiline_string (limit : nat) (at_ : Pos) (s : bytes) (p : Pos) : compiled (bytes * Lexer) :=
  l ← multiline_head at_ false s p;
  multiline_body (S (length (lx_rest l))) limit at_ l [].

Definition is_blank_byte (b : Z) : bool := (b =? 32) || (b =? 9) || (b =? 13) || (b =? 10).
Definition punctuation (b : Z) : option Tok :=
  if b =? 40 then Some LParen else if b =? 41 then Some RParen
  else if b =? 123 then Some LBrace else if b =? 125 then Some RBrace
  else if b =? 91 then Some LBracket else if b =? 93 then Some RBracket
  else if b =? 44 then Some Comma else if b =? 59 then Some Semicolon
  else None.

(** The arms of [Lexer::next_token] that yield a token, at its first byte. *)
Definition token_at (limits : CompilerLimits) (b : Z) (s : bytes) (p : Pos) : compiled (Token * Lexer) :=
  let token t := mkToken t (p_line p) (p_col p) in
  if b =? 34 then
    '(value, l) ← quoted_string (max_string_size limits) p s (bump b p) [];
    inr (token (TStr value), l)
  else if is_digit b then
    '(value, l) ← number p (b :: s) p; inr (token (TNumber value), l)
  else if is_word_start b then
    let '(w, l) := word (b :: s) p in
    match lx_rest l with
    | 58 :: rest =>
        if bool_decide (w = bs "text") then
          '(value, l) ← multiline_string (max_string_size limits) p rest (bump 58 (lx_pos l));
          inr (token (TStr value), l)
        else inr (token (TIdentifier w), l)
    | _ => inr (token (TIdentifier w), l)
    end
  else if b =? 58 then
    match s with
    | c :: _ =>
        if is_word_start c then let '(w, l) := word s (bump b p) in inr (token (TTag w), l)
        else inl (error_at p (bs "expected tag name after ':'"))
    | [] => inl (error_at p (bs "expected tag name after ':'"))
    end
  else match punctuation b with
       | Some t => inr (token t, mkLexer s (bump b p))
       | None => inl (error_at p (bs "unexpected character 0x" ++ fmt_hex_pad 2 b))
       end.

(** [Lexer::next_token]: every turn consumes a byte or more. *)
Fixpoint next_token (fuel : nat) (limits : CompilerLimits) (l : Lexer) : compiled (option (Token * Lexer)) :=
  match fuel with
  | O => inl out_of_fuel
  | S fuel =>
      let p := lx_pos l in
      match lx_rest l with
      | [] => inr None
      | b :: s =>
          if is_blank_byte b then next_token fuel limits (mkLexer s (bump b p))
          else if b =? 35 then next_token fuel limits (skip_hash (b :: s) p)
          else if (b =? 47) && bool_decide (head s = Some 42) then
            match skip_comment (drop 1 s) (bump 42 (bump b p)) with
            | Some l => next_token fuel limits l
            | None => inl (error_at p (bs "unterminated comment"))
            end
          else x ← token_at limits b s p; inr (Some x)
      end
  end.

(** [tokenize]. *)
Fixpoint tokens (fuel : nat) (limits : CompilerLimits) (l : Lexer) : compiled (list Token) :=
  match fuel with
  | O => inl out_of_fuel
  | S fuel =>
      r ← next_token (S (length (lx_rest l))) limits l;
      match r with
      | None => inr []
      | Some (t, l) => ts ← tokens fuel limits l; inr (t :: ts)
      end
  end.
Definition lex (source : bytes) (limits : CompilerLimits) : compiled (list Token) :=
  tokens (S (length source)) limits (mkLexer source (mkPos 1 1)).

(** ** string.rs *)

Definition is_hex (b : Z) : bool :=
  is_digit b || (97 <=? b) && (b <=? 102) || (65 <=? b) && (b <=? 70).
Definition hex_value (b : Z) : Z :=
  if is_digit b then b - 48 else if (97 <=? b) && (b <=? 102) then b - 87 else b - 55.
(** [from_str_radix] of validated digits. *)
Definition hex_number (s : bytes) : Z := foldl (λ acc b, acc * 16 + hex_value b) 0 s.

(** [split_ascii_whitespace]: the non-empty pieces. *)
Fixpoint ascii_words (s current : bytes) : list bytes :=
  match s with
  | [] => match current with [] => [] | _ => [current] end
  | b :: s =>
      if is_ascii_whitespace b
      then match current with [] => ascii_words s [] | _ => current :: ascii_words s [] end
      else ascii_words s (current ++ [b])
  end.
Definition split_ascii_whitespace (s : bytes) : list bytes := ascii_words s [].

(** [char::from_u32] and [String::push]. *)
Definition is_char (v : Z) : bool := (v <? 55296) || (57344 <=? v) && (v <=? 1114111).
Definition encode_utf8 (v : Z) : bytes :=
  if v <? 128 then [v]
  else if v <? 2048 then [192 + v / 64; 128 + v mod 64]
  else if v <? 65536 then [224 + v / 4096; 128 + v / 64 mod 64; 128 + v mod 64]
  else [240 + v / 262144; 128 + v / 4096 mod 64; 128 + v / 64 mod 64; 128 + v mod 64].

(** The loops of [decode_sequence]: the bytes of the hexadecimal pairs, the
    characters of the code points; [None] when the sequence is not one. *)
Definition decode_hex (groups : list bytes) : option bytes :=
  if forallb (λ g, (length g <=? 2)%nat && forallb is_hex g) groups then Some (hex_number <$> groups) else None.
Fixpoint decode_unicode (groups : list bytes) : bytes + option bytes :=
  match groups with
  | [] => inr (Some [])
  | g :: groups =>
      if (6 <? length g)%nat || negb (forallb is_hex g) then inr None
      else if is_char (hex_number g) then
        match decode_unicode groups with
        | inr (Some rest) => inr (Some (encode_utf8 (hex_number g) ++ rest))
        | other => other
        end
      else inl (bs "invalid unicode code point " ++ g)
  end.

(** [decode_sequence], at a dollar sign and a brace; the error is a message,
    the offset is past the closing brace. *)
Definition decode_sequence (s : bytes) : bytes + option (bytes * bytes) :=
  match find_byte 125 s with
  | None => inr None
  | Some close =>
      let body := drop 2 (take close s) in
      match split_once 58 body with
      | None => inr None
      | Some (kind, ds) =>
          let groups := split_ascii_whitespace (str_trim ds) in
          let kind := to_ascii_lowercase (str_trim kind) in
          if bool_decide (kind = bs "hex") then
            inr (decoded ← decode_hex groups;
                 if bool_decide (decoded = []) || negb (utf8_valid decoded) then None
                 else Some (decoded, drop (S close) s))
          else if bool_decide (kind = bs "unicode") then
            match decode_unicode groups with
            | inl e => inl e
            | inr None => inr None
            | inr (Some decoded) =>
                if bool_decide (groups = []) then inr None else inr (Some (decoded, drop (S close) s))
            end
          else inr None
      end
  end.

(** [decode_encoded_characters]; a character is copied with its bytes. *)
Fixpoint decode_go (fuel : nat) (s : bytes) : bytes + bytes :=
  match fuel, s with
  | S fuel, b :: s' =>
      let copy :=
        let n := (utf8_chunk b s').1 in
        match decode_go fuel (drop n s) with inl e => inl e | inr rest => inr (take n s ++ rest) end in
      if (b =? 36) && bool_decide (head s' = Some 123) then
        match decode_sequence s with
        | inl e => inl e
        | inr (Some (decoded, after)) =>
            match decode_go fuel after with inl e => inl e | inr rest => inr (decoded ++ rest) end
        | inr None => copy
        end
      else copy
  | _, _ => inr []
  end.
Definition decode_encoded_characters (s : bytes) : bytes + bytes := decode_go (length s) s.
