(* ===== verification/SieveGrammar.v ===== *)
(** * Sieve: the compiler (crates/sieve/src/grammar.rs, lib.rs)

    A one-pass compiler: it reads the tokens once and emits instructions as it
    goes, with jumps whose targets are filled in when the block or the list of
    tests they leave is closed.  The parser's fields are the record [Parser];
    its methods are state-passing functions that can fail. *)

From S2P Require Import Prelude Bytes Text Sieve SieveLexer.
From stdpp Require Import base list strings.
From Stdlib Require Import ZArith Lia.

Open Scope Z_scope.

(** ** Data *)

Record Program : Type := mkProgram {
  prog_instructions : list Instruction; prog_capabilities : list bytes }.

(** [OpenBlock]: the conditional jump to fill in, none in an else block, and
    the jumps to the end of the chain. *)
Record OpenBlock : Type := mkBlock { jz_at : option nat; chain_jmps : list nat }.

(** [Parser]; the stack of blocks is a list with the innermost first. *)
Record Parser : Type := mkParser {
  pr_tokens : list Token;
  pr_pos : nat;
  pr_instructions : list Instruction;
  pr_capabilities : list bytes;
  commands_started : bool;
  blocks : list OpenBlock;
}.

(** How compilation ends without a result: an error for the user, or the
    [unreachable!] of [patch]. *)
Inductive Failure : Type := Rejected (e : CompileError) | Panicked.

(** State and failure. *)
Definition P (A : Type) : Type := Parser → Failure + A * Parser.
#[global] Instance P_ret : MRet P := λ A a s, inr (a, s).
#[global] Instance P_bind : MBind P := λ A B f m s,
  match m s with inl e => inl e | inr (a, s) => f a s end.

Lemma P_bind_inr {A B} (m : P A) (f : A → P B) s b s' :
  (x ← m; f x) s = inr (b, s') → ∃ x s1, m s = inr (x, s1) ∧ f x s1 = inr (b, s').
Proof. unfold mbind, P_bind. destruct (m s) as [e|[x s1]]; [done|]. intros. by exists x, s1. Qed.

(** [usize::MAX], the target of a jump not yet filled in. *)
Definition UNPATCHED : Z := 2 ^ 64 - 1.

(** ** Helpers *)

Definition err_at (t : Token) (message : bytes) : CompileError :=
  mkCompileError (tok_line t) (tok_col t) message.
Definition fail {A} (e : CompileError) : P A := λ _, inl (Rejected e).
(** A step that only fails or yields a value. *)
Definition of_compiled {A} (r : compiled A) : P A := λ s,
  match r with inl e => inl (Rejected e) | inr a => inr (a, s) end.

(** [Parser::err]: at the current token, or the last one. *)
Definition here (message : bytes) (s : Parser) : CompileError :=
  match pr_tokens s !! Nat.min (pr_pos s) (length (pr_tokens s) - 1) with
  | Some t => err_at t message
  | None => mkCompileError 1 1 message
  end.
Definition fail_here {A} (message : bytes) : P A := λ s, inl (Rejected (here message s)).

Definition gets {A} (f : Parser → A) : P A := λ s, inr (f s, s).
Definition peek : P (option Tok) := gets (λ s, tok <$> pr_tokens s !! pr_pos s).
Definition advance : P (option Token) := λ s,
  match pr_tokens s !! pr_pos s with
  | Some t => inr (Some t, mkParser (pr_tokens s) (S (pr_pos s)) (pr_instructions s) (pr_capabilities s)
                             (commands_started s) (blocks s))
  | None => inr (None, s)
  end.
(** The number of tokens left bounds every loop: each turn takes one. *)
Definition tokens_left (s : Parser) : nat := length (pr_tokens s) - pr_pos s.

Definition expect (expected : Tok) (description : bytes) : P unit :=
  t ← advance;
  match t return P unit with
  | Some t => if bool_decide (tok t = expected) then mret tt
              else fail (err_at t (bs "expected " ++ description))
  | None => fail_here (bs "expected " ++ description)
  end.

Definition has_capability (name : bytes) (s : Parser) : bool := bool_decide (name ∈ pr_capabilities s).
Definition need_capability (name : bytes) (t : Token) : P unit := λ s,
  if has_capability name s then inr (tt, s)
  else inl (Rejected (err_at t ([34] ++ name ++ [34] ++ bs " must be required first"))).

Definition set_instructions (code : list Instruction) (s : Parser) : Parser :=
  mkParser (pr_tokens s) (pr_pos s) code (pr_capabilities s) (commands_started s) (blocks s).
Definition set_blocks (bs_ : list OpenBlock) (s : Parser) : Parser :=
  mkParser (pr_tokens s) (pr_pos s) (pr_instructions s) (pr_capabilities s) (commands_started s) bs_.
Definition set_capabilities (cs : list bytes) (s : Parser) : Parser :=
  mkParser (pr_tokens s) (pr_pos s) (pr_instructions s) cs (commands_started s) (blocks s).
Definition start_commands : P unit := λ s,
  inr (tt, mkParser (pr_tokens s) (pr_pos s) (pr_instructions s) (pr_capabilities s) true (blocks s)).

(** [instructions.push] and the index of the new instruction. *)
Definition emit (i : Instruction) : P nat := λ s,
  inr (length (pr_instructions s), set_instructions (pr_instructions s ++ [i]) s).
Definition code_len : P nat := gets (λ s, length (pr_instructions s)).

(** [Parser::patch]. *)
Definition patch (index target : nat) : P unit := λ s,
  let put i := inr (tt, set_instructions (<[index := i]> (pr_instructions s)) s) in
  match pr_instructions s !! index with
  | Some (Jmp _) => put (Jmp (Z.of_nat target))
  | Some (Jz _) => put (Jz (Z.of_nat target))
  | Some (Jnz _) => put (Jnz (Z.of_nat target))
  | _ => inl Panicked
  end.
Fixpoint patch_all (indices : list nat) (target : nat) : P unit :=
  match indices with
  | [] => mret tt
  | i :: indices => _ ← patch i target; patch_all indices target
  end.

(** ** Strings *)

(** [Parser::decode]. *)
Definition decode (value : bytes) (line col : nat) : P bytes := λ s,
  if negb (has_capability (bs "encoded-character") s) then inr (value, s)
  else match decode_encoded_characters value with
       | inr v => inr (v, s)
       | inl message =>
           inl (Rejected (mkCompileError (if (line =? 0)%nat then 1%nat else line) (Nat.max col 1) message))
       end.

(** [Parser::parse_string]. *)
Definition parse_string : P bytes :=
  t ← advance;
  match t return P bytes with
  | Some (mkToken (TStr value) line col) => decode value line col
  | Some t => fail (err_at t (bs "expected a string"))
  | None => fail_here (bs "expected a string")
  end.

(** [Parser::parse_raw_string_list]. *)
Fixpoint list_items (fuel : nat) (limit : nat) (values : list bytes) : P (list bytes) :=
  match fuel with
  | O => fail out_of_fuel
  | S fuel =>
      t ← advance;
      match t return P (list bytes) with
      | Some (mkToken (TStr value) _ _) =>
          let values := values ++ [value] in
          if (limit <? length values)%nat then fail_here (bs "list has too many items")
          else
            t ← advance;
            match t return P (list bytes) with
            | Some (mkToken Comma _ _) => list_items fuel limit values
            | Some (mkToken RBracket _ _) => mret values
            | Some t => fail (err_at t (bs "expected ',' or ']'"))
            | None => fail_here (bs "expected ',' or ']'")
            end
      | Some t => fail (err_at t (bs "expected a string"))
      | None => fail_here (bs "expected a string")
      end
  end.
Definition parse_raw_string_list (limits : CompilerLimits) : P (list bytes) :=
  t ← advance;
  match t return P (list bytes) with
  | Some (mkToken (TStr value) _ _) => mret [value]
  | Some (mkToken LBracket _ _) => λ s, list_items (S (tokens_left s)) (max_list_items limits) [] s
  | Some t => fail (err_at t (bs "expected a string or string list"))
  | None => fail_here (bs "expected a string or string list")
  end.

(** [Parser::parse_string_list] and [Parser::parse_header_list]. *)
Fixpoint decode_all (values : list bytes) : P (list bytes) :=
  match values with
  | [] => mret []
  | v :: values => d ← decode v 0 0; ds ← decode_all values; mret (d :: ds)
  end.
Definition parse_string_list (limits : CompilerLimits) : P (list bytes) :=
  raw ← parse_raw_string_list limits; decode_all raw.
Definition valid_header (h : bytes) : bool :=
  negb (bool_decide (h = [])) && forallb (λ b, (33 <=? b) && (b <=? 126) && negb (b =? 58)) h.
Definition parse_header_list (limits : CompilerLimits) (t : Token) : P (list bytes) :=
  headers ← parse_string_list limits;
  match List.find (λ h, negb (valid_header h)) headers return P (list bytes) with
  | Some h => fail (err_at t (bs "invalid header name " ++ [34] ++ h ++ [34]))
  | None => mret headers
  end.

(** ** Tags *)

Record MatchTags : Type := mkTags {
  tag_match_type : option MatchType; tag_comparator : option Comparator; tag_part : option AddressPart }.

Definition match_type_of (tag : bytes) : option MatchType :=
  if bool_decide (tag = bs "is") then Some Is
  else if bool_decide (tag = bs "contains") then Some Contains
  else if bool_decide (tag = bs "matches") then Some Matches
  else None.
Definition part_of (tag : bytes) : option AddressPart :=
  if bool_decide (tag = bs "all") then Some PartAll
  else if bool_decide (tag = bs "localpart") then Some Localpart
  else if bool_decide (tag = bs "domain") then Some PartDomain
  else None.
Definition unknown_tag (t : Token) (tag : bytes) : CompileError :=
  err_at t (bs "unknown tag " ++ [34; 58] ++ tag ++ [34]).

(** One tag of [Parser::parse_match_tags]. *)
Definition match_tag (t : Token) (with_part : bool) (tags : MatchTags) (tag : bytes) : P MatchTags :=
  match match_type_of tag return P MatchTags with
  | Some mt =>
      match tag_match_type tags return P MatchTags with
      | Some _ => fail (err_at t (bs "duplicate match type"))
      | None => mret (mkTags (Some mt) (tag_comparator tags) (tag_part tags))
      end
  | None =>
      if bool_decide (tag = bs "comparator") then
        match tag_comparator tags return P MatchTags with
        | Some _ => fail (err_at t (bs "duplicate comparator"))
        | None =>
            name ← parse_string;
            if bool_decide (name = bs "i;octet") then
              _ ← need_capability (bs "comparator-i;octet") t;
              mret (mkTags (tag_match_type tags) (Some Octet) (tag_part tags))
            else if bool_decide (name = bs "i;ascii-casemap") then
              mret (mkTags (tag_match_type tags) (Some AsciiCaseMap) (tag_part tags))
            else fail (err_at t (bs "unknown comparator " ++ [34] ++ name ++ [34]))
        end
      else match (if with_part then part_of tag else None) return P MatchTags with
           | Some part =>
               match tag_part tags return P MatchTags with
               | Some _ => fail (err_at t (bs "duplicate address part"))
               | None => mret (mkTags (tag_match_type tags) (tag_comparator tags) (Some part))
               end
           | None => fail (unknown_tag t tag)
           end
  end.
Fixpoint match_tags (fuel : nat) (t : Token) (with_part : bool) (tags : MatchTags) : P MatchTags :=
  match fuel with
  | O => fail out_of_fuel
  | S fuel =>
      next ← peek;
      match next return P MatchTags with
      | Some (TTag tag) =>
          _ ← advance; tags ← match_tag t with_part tags tag; match_tags fuel t with_part tags
      | _ => mret tags
      end
  end.
Definition parse_match_tags (t : Token) (with_part : bool) : P (MatchType * Comparator * AddressPart) := λ s,
  (tags ← match_tags (S (tokens_left s)) t with_part (mkTags None None None);
   mret (default Is (tag_match_type tags), default AsciiCaseMap (tag_comparator tags),
         default PartAll (tag_part tags))) s.

(** The tags of a size test. *)
Fixpoint size_tags (fuel : nat) (t : Token) (over : option bool) : P (option bool) :=
  match fuel with
  | O => fail out_of_fuel
  | S fuel =>
      next ← peek;
      match next return P (option bool) with
      | Some (TTag tag) =>
          _ ← advance;
          if bool_decide (tag = bs "over") || bool_decide (tag = bs "under") then
            match over return P (option bool) with
            | Some _ => fail (err_at t (bs "duplicate size tag"))
            | None => size_tags fuel t (Some (bool_decide (tag = bs "over")))
            end
          else fail (unknown_tag t tag)
      | _ => mret over
      end
  end.

(** The names of an envelope test. *)
Fixpoint envelope_parts (t : Token) (names : list bytes) : compiled (list EnvelopePart) :=
  match names with
  | [] => inr []
  | name :: names =>
      part ← (if bool_decide (to_ascii_lowercase name = bs "from") then inr EnvFrom
              else if bool_decide (to_ascii_lowercase name = bs "to") then inr EnvTo
              else inl (err_at t (bs "unsupported envelope part " ++ [34] ++ name ++ [34])));
      parts ← envelope_parts t names;
      inr (part :: parts)
  end.

(** ** Tests *)

Section tests.
Context (limits : CompilerLimits).

Definition emit_test (t : SieveTest) : P unit := _ ← emit (ITest t); mret tt.

(** The tests without subtests. *)
Definition parse_simple_test (word : bytes) (t : Token) (negate : bool) : P unit :=
  if bool_decide (word = bs "true") || bool_decide (word = bs "false") then
    emit_test (TestBool (xorb (bool_decide (word = bs "true")) negate))
  else if bool_decide (word = bs "exists") then
    headers ← parse_header_list limits t; emit_test (TestExists headers negate)
  else if bool_decide (word = bs "size") then
    over ← (λ s, size_tags (S (tokens_left s)) t None s);
    match over return P unit with
    | None => fail (err_at t (bs "size requires :over or :under"))
    | Some over =>
        n ← advance;
        match n return P unit with
        | Some (mkToken (TNumber n) _ _) => emit_test (TestSize over n negate)
        | _ => fail (err_at t (bs "size requires a number"))
        end
    end
  else if bool_decide (word = bs "header") then
    '(mt, cmp, _) ← parse_match_tags t false;
    headers ← parse_header_list limits t;
    keys ← parse_string_list limits;
    emit_test (TestHeader headers keys mt cmp negate)
  else if bool_decide (word = bs "address") then
    '(mt, cmp, part) ← parse_match_tags t true;
    headers ← parse_header_list limits t;
    keys ← parse_string_list limits;
    emit_test (TestAddress headers keys part mt cmp negate)
  else if bool_decide (word = bs "envelope") then
    _ ← need_capability (bs "envelope") t;
    '(mt, cmp, part) ← parse_match_tags t true;
    names ← parse_string_list limits;
    parts ← of_compiled (envelope_parts t names);
    keys ← parse_string_list limits;
    emit_test (TestEnvelope parts keys part mt cmp negate)
  else fail (err_at t (bs "unknown test " ++ [34] ++ word ++ [34])).

(** The loop over the tests of an allof or anyof. *)
Fixpoint test_list (fuel : nat) (subtest : P unit) (is_all : bool) (jumps : list nat) : P (list nat) :=
  match fuel with
  | O => fail out_of_fuel
  | S fuel =>
      _ ← subtest;
      t ← advance;
      match t return P (list nat) with
      | Some (mkToken Comma _ _) =>
          at_ ← emit (if is_all then Jz UNPATCHED else Jnz UNPATCHED);
          test_list fuel subtest is_all (jumps ++ [at_])
      | Some (mkToken RParen _ _) => mret jumps
      | Some t => fail (err_at t (bs "expected ',' or ')'"))
      | None => fail_here (bs "expected ',' or ')'")
      end
  end.

(** [Parser::parse_test_expr]; [budget] is what is left of the nesting limit. *)
Fixpoint parse_test_expr (budget : nat) (negate : bool) : P unit :=
  match budget with
  | O => fail_here (bs "tests are nested too deeply")
  | S budget =>
      t ← advance;
      match t return P unit with
      | None => fail_here (bs "expected a test")
      | Some t =>
          match tok t return P unit with
          | TIdentifier word =>
              if bool_decide (word = bs "not") then parse_test_expr budget (negb negate)
              else if bool_decide (word = bs "allof") || bool_decide (word = bs "anyof") then
                let is_all := xorb (bool_decide (word = bs "allof")) negate in
                _ ← expect LParen (bs "'('");
                jumps ← (λ s, test_list (S (tokens_left s)) (parse_test_expr budget negate) is_all [] s);
                target ← code_len;
                patch_all jumps target
              else parse_simple_test word t negate
          | _ => fail (err_at t (bs "expected a test"))
          end
      end
  end.
Definition parse_test : P unit := parse_test_expr (max_nested_tests limits) false.

(** ** Commands *)

Definition push_block (b : OpenBlock) : P unit := λ s, inr (tt, set_blocks (b :: blocks s) s).

Definition known_capability (name : bytes) : bool :=
  bool_decide (name ∈ [bs "fileinto"; bs "envelope"; bs "imap4flags"; bs "encoded-character";
                       bs "comparator-i;octet"; bs "comparator-i;ascii-casemap"]).
Fixpoint require_all (t : Token) (names : list bytes) : P unit :=
  match names with
  | [] => mret tt
  | name :: names =>
      if known_capability name then
        _ ← (λ s, inr (tt, if has_capability name s then s
                           else set_capabilities (pr_capabilities s ++ [name]) s));
        require_all t names
      else fail (err_at t (bs "unknown capability " ++ [34] ++ name ++ [34]))
  end.

(** [Parser::simple_command]. *)
Definition simple_command (i : Instruction) : P unit :=
  _ ← start_commands; _ ← expect Semicolon (bs "';'"); _ ← emit i; mret tt.

(** [Parser::command]. *)
Definition command (word : bytes) (t : Token) : P unit :=
  if bool_decide (word = bs "require") then
    late ← gets (λ s, commands_started s || negb (bool_decide (length (blocks s) = 0%nat)));
    if (late : bool) then fail (err_at t (bs "require must precede all other commands"))
    else
      names ← parse_raw_string_list limits;
      _ ← require_all t names;
      expect Semicolon (bs "';'")
  else if bool_decide (word = bs "if") then
    _ ← start_commands;
    depth ← gets (λ s, length (blocks s));
    if (max_nested_blocks limits <=? depth)%nat then fail (err_at t (bs "blocks are nested too deeply"))
    else
      _ ← parse_test;
      at_ ← emit (Jz UNPATCHED);
      _ ← push_block (mkBlock (Some at_) []);
      expect LBrace (bs "'{'")
  else if bool_decide (word = bs "elsif") || bool_decide (word = bs "else") then
    fail (err_at t (word ++ bs " without a preceding if"))
  else if bool_decide (word = bs "stop") then simple_command IStop
  else if bool_decide (word = bs "keep") then simple_command Keep
  else if bool_decide (word = bs "discard") then simple_command Discard
  else if bool_decide (word = bs "fileinto") then
    _ ← start_commands;
    _ ← need_capability (bs "fileinto") t;
    mailbox ← parse_string;
    _ ← expect Semicolon (bs "';'");
    _ ← emit (FileInto mailbox);
    mret tt
  else if bool_decide (word = bs "redirect") then
    _ ← start_commands;
    address ← parse_string;
    _ ← expect Semicolon (bs "';'");
    _ ← emit (Redirect address);
    mret tt
  else if bool_decide (word = bs "addflag") || bool_decide (word = bs "setflag")
          || bool_decide (word = bs "removeflag") then
    _ ← start_commands;
    _ ← need_capability (bs "imap4flags") t;
    entries ← parse_string_list limits;
    let fs := entries ≫= split_ascii_whitespace in
    _ ← expect Semicolon (bs "';'");
    _ ← emit (if bool_decide (word = bs "addflag") then AddFlag fs
              else if bool_decide (word = bs "setflag") then SetFlag fs
              else RemoveFlag fs);
    mret tt
  else fail (err_at t (bs "unknown command " ++ [34] ++ word ++ [34])).

(** [Parser::close_block]. *)
Definition pop_block : P (option OpenBlock) := λ s,
  match blocks s with
  | b :: rest => inr (Some b, set_blocks rest s)
  | [] => inr (None, s)
  end.
Definition close_block (t : Token) : P unit :=
  b ← pop_block;
  match b return P unit with
  | None => fail (err_at t (bs "'}' without an open block"))
  | Some block =>
      next ← peek;
      let continuation :=
        match next with
        | Some (TIdentifier word) =>
            if bool_decide (word = bs "elsif") then Some true
            else if bool_decide (word = bs "else") then Some false else None
        | _ => None
        end in
      match continuation return P unit with
      | Some is_elsif =>
          match jz_at block return P unit with
          | None => fail_here (bs "else block cannot be followed by another branch")
          | Some jz =>
              _ ← advance;
              jmp ← emit (Jmp UNPATCHED);
              target ← code_len;
              _ ← patch jz target;
              next_jz ← (if (is_elsif : bool) then _ ← parse_test; at_ ← emit (Jz UNPATCHED); mret (Some at_)
                         else mret None);
              _ ← push_block (mkBlock next_jz (chain_jmps block ++ [jmp]));
              expect LBrace (bs "'{'")
          end
      | None =>
          target ← code_len;
          _ ← match jz_at block return P unit with Some jz => patch jz target | None => mret tt end;
          patch_all (chain_jmps block) target
      end
  end.

(** [Parser::run]. *)
Fixpoint commands (fuel : nat) : P unit :=
  match fuel with
  | O => fail out_of_fuel
  | S fuel =>
      t ← advance;
      match t return P unit with
      | None => mret tt
      | Some t =>
          _ ← match tok t return P unit with
              | TIdentifier word => command word t
              | RBrace => close_block t
              | _ => fail (err_at t (bs "expected a command"))
              end;
          commands fuel
      end
  end.
Definition compile_tokens (ts : list Token) : Failure + Program :=
  match commands (S (length ts)) (mkParser ts 0 [] [] false []) with
  | inl e => inl e
  | inr (_, s) =>
      match blocks s with
      | [] => inr (mkProgram (pr_instructions s) (pr_capabilities s))
      | _ => inl (Rejected (here (bs "unclosed block at end of script") s))
      end
  end.
End tests.

(** [Compiler::compile]. *)
Definition compile (limits : CompilerLimits) (source : bytes) : Failure + Script :=
  if (max_script_size limits <? length source)%nat
  then inl (Rejected (mkCompileError 1 1 (bs "script exceeds the maximum size")))
  else match lex source limits with
       | inl e => inl (Rejected e)
       | inr ts =>
           match compile_tokens limits ts with
           | inl e => inl e
           | inr program => inr (mkScript (prog_instructions program) (prog_capabilities program))
           end
       end.
