(* ===== verification/SieveSound.v ===== *)
(** * Sieve: the compiler is correct

    The structured programs behind the jump code: what a script means is
    defined on its syntax, the code of a piece of syntax is defined where it
    is placed, and the interpreter on that code is proved to do what the
    syntax means.  Every accepted token sequence compiles to such code, and
    the compiler never reaches the [unreachable!] of its patching. *)

From S2P Require Import Prelude Bytes Text MailParser Sieve SieveLexer SieveGrammar.
From stdpp Require Import base list strings.
From Stdlib Require Import ZArith Lia.

Open Scope nat_scope.

(** ** Syntax *)

(** Tests; an atom is an instruction's test that is not negated. *)
Inductive stest : Type :=
  | SAtom (t : SieveTest)
  | SNot (t : stest)
  | SAllof (ts : stests)
  | SAnyof (ts : stests)
with stests : Type :=
  | TOne (t : stest)
  | TMore (t : stest) (ts : stests).

(** Commands.  A chain of branches is the branches that another one follows,
    then the last: an else when it has no test. *)
Inductive scmd : Type :=
  | SAct (i : Instruction)
  | SIf (closed : branches) (test : option stest) (body : scmds)
with scmds : Type :=
  | CNil
  | CCons (c : scmd) (cs : scmds)
with branches : Type :=
  | BNil
  | BCons (t : stest) (body : scmds) (bs : branches).

Scheme stest_mut := Induction for stest Sort Prop
  with stests_mut := Induction for stests Sort Prop.
Combined Scheme tests_ind from stest_mut, stests_mut.
Scheme scmd_mut := Induction for scmd Sort Prop
  with scmds_mut := Induction for scmds Sort Prop
  with branches_mut := Induction for branches Sort Prop.
Combined Scheme commands_ind from scmd_mut, scmds_mut, branches_mut.

Definition negate_test (neg : bool) (t : SieveTest) : SieveTest :=
  match t with
  | TestHeader h k mt c n => TestHeader h k mt c (xorb n neg)
  | TestAddress h k p mt c n => TestAddress h k p mt c (xorb n neg)
  | TestEnvelope e k p mt c n => TestEnvelope e k p mt c (xorb n neg)
  | TestExists h n => TestExists h (xorb n neg)
  | TestSize o l n => TestSize o l (xorb n neg)
  | TestBool b => TestBool (xorb b neg)
  end.

Definition is_action (i : Instruction) : bool :=
  match i with ITest _ | Jmp _ | Jz _ | Jnz _ => false | _ => true end.

(** Well-formed: actions are actions, an else follows a branch. *)
Fixpoint wf_cmd (c : scmd) : Prop :=
  match c with
  | SAct i => is_action i = true
  | SIf closed t body => (t = None → closed ≠ BNil) ∧ wf_branches closed ∧ wf_cmds body
  end
with wf_cmds (cs : scmds) : Prop :=
  match cs with CNil => True | CCons c cs => wf_cmd c ∧ wf_cmds cs end
with wf_branches (bs : branches) : Prop :=
  match bs with BNil => True | BCons _ body bs => wf_cmds body ∧ wf_branches bs end.

(** ** Meaning *)

Section meaning.
Context `{MailParser} (l : Limits) (v : MessageView) (from to : option bytes).

Fixpoint sem_test (t : stest) : bool :=
  match t with
  | SAtom t => eval t v from to
  | SNot t => negb (sem_test t)
  | SAllof ts => sem_all ts
  | SAnyof ts => sem_any ts
  end
with sem_all (ts : stests) : bool :=
  match ts with TOne t => sem_test t | TMore t ts => sem_test t && sem_all ts end
with sem_any (ts : stests) : bool :=
  match ts with TOne t => sem_test t | TMore t ts => sem_test t || sem_any ts end.

(** The actions so far, and whether the script has stopped. *)
Fixpoint sem_cmd (c : scmd) (m : Machine) : Machine * bool :=
  match c with
  | SAct IStop => (m, true)
  | SAct i => (act l i m, false)
  | SIf closed t body =>
      sem_branches closed (λ m,
        match t with
        | Some t => if sem_test t then sem_cmds body m else (m, false)
        | None => sem_cmds body m
        end) m
  end
with sem_cmds (cs : scmds) (m : Machine) : Machine * bool :=
  match cs with
  | CNil => (m, false)
  | CCons c cs =>
      let '(m, stopped) := sem_cmd c m in
      if stopped then (m, true) else sem_cmds cs m
  end
with sem_branches (bs : branches) (otherwise : Machine → Machine * bool) (m : Machine) : Machine * bool :=
  match bs with
  | BNil => otherwise m
  | BCons t body bs => if sem_test t then sem_cmds body m else sem_branches bs otherwise m
  end.
End meaning.

(** ** Code *)

Fixpoint sz_test (t : stest) : nat :=
  match t with SAtom _ => 1 | SNot t => sz_test t | SAllof ts | SAnyof ts => sz_tests ts end
with sz_tests (ts : stests) : nat :=
  match ts with TOne t => sz_test t | TMore t ts => sz_test t + 1 + sz_tests ts end.
Fixpoint sz_cmd (c : scmd) : nat :=
  match c with
  | SAct _ => 1
  | SIf closed t body =>
      sz_branches closed + match t with Some t => sz_test t + 1 | None => 0 end + sz_cmds body
  end
with sz_cmds (cs : scmds) : nat :=
  match cs with CNil => 0 | CCons c cs => sz_cmd c + sz_cmds cs end
with sz_branches (bs : branches) : nat :=
  match bs with BNil => 0 | BCons t body bs => sz_test t + 1 + sz_cmds body + 1 + sz_branches bs end.

(** The code of a test, negated or not, placed at [off]. *)
Fixpoint cg_test (neg : bool) (off : nat) (t : stest) : list Instruction :=
  match t with
  | SAtom t => [ITest (negate_test neg t)]
  | SNot t => cg_test (negb neg) off t
  | SAllof ts => cg_tests neg (negb neg) off (Z.of_nat (off + sz_tests ts)) ts
  | SAnyof ts => cg_tests neg neg off (Z.of_nat (off + sz_tests ts)) ts
  end
with cg_tests (neg is_all : bool) (off : nat) (end_ : Z) (ts : stests) : list Instruction :=
  match ts with
  | TOne t => cg_test neg off t
  | TMore t ts =>
      cg_test neg off t ++ [if is_all then Jz end_ else Jnz end_]
        ++ cg_tests neg is_all (off + sz_test t + 1) end_ ts
  end.

(** The code of commands; [end_] is the target of the jumps that leave a
    chain. *)
Fixpoint cg_cmd (off : nat) (c : scmd) : list Instruction :=
  match c with
  | SAct i => [i]
  | SIf closed t body =>
      let end_ := off + sz_cmd c in
      let off1 := off + sz_branches closed in
      cg_branches off (Z.of_nat end_) closed ++
      match t with
      | Some t => cg_test false off1 t ++ [Jz (Z.of_nat end_)] ++ cg_cmds (off1 + sz_test t + 1) body
      | None => cg_cmds off1 body
      end
  end
with cg_cmds (off : nat) (cs : scmds) : list Instruction :=
  match cs with CNil => [] | CCons c cs => cg_cmd off c ++ cg_cmds (off + sz_cmd c) cs end
with cg_branches (off : nat) (end_ : Z) (bs : branches) : list Instruction :=
  match bs with
  | BNil => []
  | BCons t body bs =>
      let next := off + sz_test t + 1 + sz_cmds body + 1 in
      cg_test false off t ++ [Jz (Z.of_nat next)] ++ cg_cmds (off + sz_test t + 1) body ++ [Jmp end_]
        ++ cg_branches next end_ bs
  end.

Lemma length_cg_test_all :
  (∀ t neg off, length (cg_test neg off t) = sz_test t) ∧
  (∀ ts neg is_all off end_, length (cg_tests neg is_all off end_ ts) = sz_tests ts).
Proof.
  apply tests_ind; intros; simpl; auto.
  rewrite !length_app. simpl. rewrite H, H0. lia.
Qed.
Lemma length_cg_test neg off t : length (cg_test neg off t) = sz_test t.
Proof. apply length_cg_test_all. Qed.
Lemma length_cg_tests neg is_all off end_ ts : length (cg_tests neg is_all off end_ ts) = sz_tests ts.
Proof. apply length_cg_test_all. Qed.

Lemma length_cg_all :
  (∀ c off, length (cg_cmd off c) = sz_cmd c) ∧
  (∀ cs off, length (cg_cmds off cs) = sz_cmds cs) ∧
  (∀ bs off end_, length (cg_branches off end_ bs) = sz_branches bs).
Proof.
  apply commands_ind; simpl; try done.
  - intros closed IHc t body IHb off. rewrite length_app, IHc. destruct t; simpl.
    + rewrite !length_app, length_cg_test. simpl. rewrite IHb. lia.
    + rewrite IHb. lia.
  - intros c IHc cs IHcs off. by rewrite length_app, IHc, IHcs.
  - intros t body IHb bs IHbs off end_. rewrite !length_app, length_cg_test. simpl.
    rewrite length_app, IHb. simpl. rewrite IHbs. lia.
Qed.
Lemma length_cg_cmd off c : length (cg_cmd off c) = sz_cmd c.
Proof. apply length_cg_all. Qed.
Lemma length_cg_cmds off cs : length (cg_cmds off cs) = sz_cmds cs.
Proof. apply length_cg_all. Qed.
Lemma length_cg_branches off end_ bs : length (cg_branches off end_ bs) = sz_branches bs.
Proof. apply length_cg_all. Qed.
Global Hint Rewrite length_cg_test length_cg_tests length_cg_cmd length_cg_cmds length_cg_branches : sieve.

(** ** Running the code *)

(** States that differ only in the last test's result. *)
Definition same_actions (m m' : Machine) : Prop := set_test false m = set_test false m'.
#[global] Instance same_actions_equiv : Equivalence same_actions.
Proof. split; unfold same_actions; congruence. Qed.

#[global] Instance act_proper l i : Proper (same_actions ==> same_actions) (act l i).
Proof.
  intros [] []. unfold same_actions, set_test. simpl. intros [= <- <- <- <- <- <-]. by destruct i.
Qed.

Lemma same_actions_set_test b m : same_actions (set_test b m) m.
Proof. done. Qed.

#[global] Instance outcome_of_proper : Proper (same_actions ==> (=)) outcome_of.
Proof. intros [] []. unfold same_actions, set_test. simpl. by intros [= <- <- <- <- <- <-]. Qed.

Section running.
Context `{MailParser} (l : Limits) (code : list Instruction) (v : MessageView) (from to : option bytes).

Abbreviation loop n pos m := (run_loop n l code v from to pos m).

(** After [k] instructions the loop is at [pos'] in [m'], or has ended in [m']. *)
Definition reaches (k pos : nat) (m : Machine) (pos' : nat) (m' : Machine) : Prop :=
  ∀ n, loop (k + n) pos m = loop n pos' m'.
Definition halts (k pos : nat) (m m' : Machine) : Prop := ∀ n, loop (k + n) pos m = m'.

(** [c] is the code at [off]. *)
Definition code_at (off : nat) (c : list Instruction) : Prop :=
  ∀ i x, c !! i = Some x → code !! (off + i) = Some x.

Lemma code_at_app off c1 c2 :
  code_at off (c1 ++ c2) ↔ code_at off c1 ∧ code_at (off + length c1) c2.
Proof.
  unfold code_at. split.
  - intros Hc. split; intros i x E.
    + apply Hc. by apply lookup_app_l_Some.
    + rewrite <-Nat.add_assoc. apply Hc. rewrite lookup_app_r by lia. by replace (length c1 + i - length c1) with i by lia.
  - intros [H1 H2] i x [E|[Hi E]]%lookup_app_Some; [by apply H1|].
    replace (off + i) with (off + length c1 + (i - length c1)) by lia. by apply H2.
Qed.
Lemma code_at_one off i : code_at off [i] ↔ code !! off = Some i.
Proof.
  unfold code_at. split.
  - intros Hc. specialize (Hc 0 i eq_refl). by rewrite Nat.add_0_r in Hc.
  - intros E [|k] x Hx; simplify_eq/=. by rewrite Nat.add_0_r.
Qed.
Lemma code_at_cons off i c : code_at off (i :: c) ↔ code !! off = Some i ∧ code_at (S off) c.
Proof.
  change (i :: c) with ([i] ++ c). rewrite code_at_app, code_at_one. simpl. by rewrite Nat.add_1_r.
Qed.

Lemma reaches_refl pos m : reaches 0 pos m pos m.
Proof. by intros n. Qed.
Lemma reaches_trans k1 k2 pos1 m1 pos2 m2 pos3 m3 :
  reaches k1 pos1 m1 pos2 m2 → reaches k2 pos2 m2 pos3 m3 → reaches (k1 + k2) pos1 m1 pos3 m3.
Proof. intros H1 H2 n. by rewrite <-Nat.add_assoc, H1, H2. Qed.
Lemma reaches_halts k1 k2 pos1 m1 pos2 m2 m3 :
  reaches k1 pos1 m1 pos2 m2 → halts k2 pos2 m2 m3 → halts (k1 + k2) pos1 m1 m3.
Proof. intros H1 H2 n. by rewrite <-Nat.add_assoc, H1, H2. Qed.
Lemma reaches_step pos i m pos' m' :
  code !! pos = Some i → step l v from to i pos m = inr (pos', m') → reaches 1 pos m pos' m'.
Proof. intros E Es n. simpl. by rewrite E, Es. Qed.

Lemma eval_negate neg t : eval (negate_test neg t) v from to = xorb (eval t v from to) neg.
Proof. destruct t; simpl; by rewrite ?xorb_assoc. Qed.

(** The code of a test leaves its value in the test register. *)
Lemma run_test_all :
  (∀ t neg off m, code_at off (cg_test neg off t) →
     ∃ k, k ≤ sz_test t ∧
       reaches k off m (off + sz_test t) (set_test (xorb (sem_test v from to t) neg) m)) ∧
  (∀ ts neg is_all off end_ m, code_at off (cg_tests neg is_all off (Z.of_nat end_) ts) → end_ = off + sz_tests ts →
     ∃ k, k ≤ sz_tests ts ∧
       reaches k off m end_
         (set_test (xorb (if xorb is_all neg then sem_all v from to ts else sem_any v from to ts) neg) m)).
Proof.
  apply tests_ind; simpl.
  - intros t neg off m Hc%code_at_one. exists 1. split; [done|]. rewrite Nat.add_1_r, <-eval_negate.
    eapply reaches_step; [exact Hc|done].
  - intros t IH neg off m Hc. destruct (IH _ _ m Hc) as (k & ? & Hr). exists k. split; [done|].
    destruct (sem_test v from to t), neg; exact Hr.
  - intros ts IH neg off m Hc. destruct (IH _ _ _ _ m Hc eq_refl) as (k & ? & Hr). exists k. split; [done|].
    by destruct neg.
  - intros ts IH neg off m Hc. destruct (IH _ _ _ _ m Hc eq_refl) as (k & ? & Hr). exists k. split; [done|].
    by destruct neg.
  - intros t IH neg is_all off end_ m Hc ->. destruct (IH _ _ m Hc) as (k & ? & Hr). exists k. split; [done|].
    by destruct (xorb is_all neg).
  - intros t IH ts IHs neg is_all off end_ m [Hc [Hj Hcs]%code_at_cons]%code_at_app ->.
    autorewrite with sieve in *. replace (off + sz_test t + 1) with (S (off + sz_test t)) in Hcs by lia.
    destruct (IH _ _ m Hc) as (k & Hk & Hr). set (b := xorb (sem_test v from to t) neg) in *.
    destruct (decide (b = is_all)) as [Hb|Hb].
    + destruct (IHs neg is_all _ _ (set_test b m) Hcs ltac:(lia)) as (k2 & Hk2 & Hr2).
      exists (k + (1 + k2)). split; [lia|]. eapply reaches_trans; [exact Hr|]. eapply reaches_trans; [|].
      { apply (reaches_step _ _ _ (S (off + sz_test t)) (set_test b m) Hj). rewrite <-Hb. by destruct b. }
      intros n. rewrite Hr2. f_equal. unfold set_test; simpl. f_equal.
      subst b. destruct (sem_test v from to t), neg, is_all; simpl in *; congruence.
    + exists (k + 1). split; [lia|]. eapply reaches_trans; [exact Hr|].
      intros n. simpl. rewrite Hj.
      assert (step l v from to (if is_all then Jz (Z.of_nat (off + (sz_test t + 1 + sz_tests ts)))
        else Jnz (Z.of_nat (off + (sz_test t + 1 + sz_tests ts)))) (off + sz_test t) (set_test b m)
        = inr (off + (sz_test t + 1 + sz_tests ts), set_test b m)) as ->.
      { destruct is_all, b; simpl; try congruence; by rewrite Nat2Z.id. }
      f_equal. unfold set_test; simpl. f_equal. subst b. destruct (sem_test v from to t), neg, is_all; simpl in *; congruence.
Qed.

Lemma run_test t neg off m :
  code_at off (cg_test neg off t) →
  ∃ k, k ≤ sz_test t ∧
    reaches k off m (off + sz_test t) (set_test (xorb (sem_test v from to t) neg) m).
Proof. apply run_test_all. Qed.

(** From [off] the loop gets to [stop], or halts, with the actions of [r] and
    without taking more instructions than lie between. *)
Definition ends (off stop : nat) (m : Machine) (r : Machine * bool) : Prop :=
  ∃ k m', off + k ≤ stop ∧ same_actions m' r.1 ∧
    if r.2 then halts k off m m' else reaches k off m stop m'.

Lemma ends_after k off m pos m1 stop r :
  reaches k off m pos m1 → off + k ≤ pos → ends pos stop m1 r → ends off stop m r.
Proof.
  intros Hr Hk (k2 & m2 & Hk2 & Hs & Hend). exists (k + k2), m2. split_and!; [lia|done|].
  destruct r.2; eauto using reaches_trans, reaches_halts.
Qed.

Lemma ends_same off stop m m0 : off = stop → same_actions m m0 → ends off stop m (m0, false).
Proof. intros -> ?. exists 0, m. split_and!; [lia|done|apply reaches_refl]. Qed.

(** A jump to the end of the code. *)
Lemma ends_jump pos stop m m0 :
  code !! pos = Some (Jmp (Z.of_nat stop)) → pos < stop → same_actions m m0 → ends pos stop m (m0, false).
Proof.
  intros E ? ?. exists 1, m. split_and!; [lia|done|]. eapply reaches_step; [exact E|]. simpl. by rewrite Nat2Z.id.
Qed.

(** Sequencing. *)
Lemma ends_seq off mid stop m r (k : Machine → Machine * bool) :
  ends off mid m r → mid ≤ stop → (∀ m', same_actions m' r.1 → ends mid stop m' (k r.1)) →
  ends off stop m (if r.2 then (r.1, true) else k r.1).
Proof.
  intros (n & m' & Hn & Hs & Hr) Hle Hk. destruct r.2.
  - exists n, m'. split_and!; [lia|done|done].
  - eapply ends_after; [exact Hr|lia|]. by apply Hk.
Qed.

(** A test and the conditional jump past its branch. *)
Lemma ends_branch t off next stop m m0 (r1 r2 : Machine * bool) :
  code_at off (cg_test false off t) → code !! (off + sz_test t) = Some (Jz (Z.of_nat next)) →
  same_actions m m0 → off + sz_test t + 1 ≤ next →
  (∀ m, same_actions m m0 → ends (off + sz_test t + 1) stop m r1) →
  (∀ m, same_actions m m0 → ends next stop m r2) →
  ends off stop m (if sem_test v from to t then r1 else r2).
Proof.
  intros Ht Hj Hm Hle H1 H2. destruct (run_test t false off m Ht) as (k & Hk & Hr). rewrite xorb_false_r in Hr.
  eapply ends_after; [exact Hr|lia|]. set (m1 := set_test _ m) in *.
  assert (same_actions m1 m0) as Hm1 by (by rewrite <-Hm).
  eapply ends_after.
  - eapply (reaches_step _ _ _ (if sem_test v from to t then off + sz_test t + 1 else next)); [exact Hj|].
    simpl. destruct (sem_test v from to t); [by rewrite Nat.add_1_r|by rewrite Nat2Z.id].
  - destruct (sem_test v from to t); lia.
  - destruct (sem_test v from to t); auto.
Qed.

Lemma run_cmd_all :
  (∀ c off m m0, wf_cmd c → code_at off (cg_cmd off c) → same_actions m m0 →
     ends off (off + sz_cmd c) m (sem_cmd l v from to c m0)) ∧
  (∀ cs off m m0, wf_cmds cs → code_at off (cg_cmds off cs) → same_actions m m0 →
     ends off (off + sz_cmds cs) m (sem_cmds l v from to cs m0)) ∧
  (∀ bs off stop m m0 otherwise, wf_branches bs → code_at off (cg_branches off (Z.of_nat stop) bs) →
     same_actions m m0 → off + sz_branches bs ≤ stop →
     (∀ m, same_actions m m0 → ends (off + sz_branches bs) stop m (otherwise m0)) →
     ends off stop m (sem_branches l v from to bs otherwise m0)).
Proof.
  apply commands_ind; simpl.
  - intros i off m m0 Hi Hc%code_at_one Hm.
    assert (i = IStop ∨ i ≠ IStop) as [->|Hne] by (destruct i; auto).
    { exists 1, m. split_and!; [done|done|]. intros n. simpl. by rewrite Hc. }
    assert (match i with IStop => (m0, true) | _ => (act l i m0, false) end = (act l i m0, false)) as ->
      by (by destruct i).
    exists 1, (act l i m). split_and!; [done|by apply act_proper|]. eapply reaches_step; [exact Hc|].
    rewrite Nat.add_1_r. by destruct i.
  - intros closed IHc t body IHb off m m0 (_ & Hwc & Hwb) [Hcc Hct]%code_at_app Hm.
    apply IHc; [done|done|done|lia|]. intros m1 Hm1. autorewrite with sieve in *. destruct t as [t|].
    + apply code_at_app in Hct as [Ht [Hj Hb]%code_at_cons]. autorewrite with sieve in *.
      replace (S (off + sz_branches closed + sz_test t)) with (off + sz_branches closed + sz_test t + 1) in Hb by lia.
      eapply ends_branch; [done..|lia| |].
      * intros m2 Hm2. replace (off + (sz_branches closed + (sz_test t + 1) + sz_cmds body))
          with (off + sz_branches closed + sz_test t + 1 + sz_cmds body) by lia. by apply IHb.
      * intros m2 Hm2. by apply ends_same.
    + replace (off + (sz_branches closed + 0 + sz_cmds body))
        with (off + sz_branches closed + sz_cmds body) by lia. by apply IHb.
  - intros off m m0 _ _ Hm. apply ends_same; [lia|done].
  - intros c IHc cs IHcs off m m0 [Hwc Hwcs] [Hc Hcs]%code_at_app Hm. autorewrite with sieve in *.
    specialize (IHc off m m0 Hwc Hc Hm). destruct (sem_cmd l v from to c m0) as [m1 b].
    apply (ends_seq _ (off + sz_cmd c) _ _ (m1, b) (sem_cmds l v from to cs)); [done|lia|].
    intros m2 Hm2. replace (off + (sz_cmd c + sz_cmds cs)) with (off + sz_cmd c + sz_cmds cs) by lia. by apply IHcs.
  - intros off stop m m0 otherwise _ _ Hm Hle Ho. rewrite Nat.add_0_r in Ho. by apply Ho.
  - intros t body IHb bs IHbs off stop m m0 otherwise [Hwb Hwbs] [Ht [Hj [Hb [Hjmp Hbs]%code_at_cons]%code_at_app]%code_at_cons]%code_at_app Hm Hle Ho.
    autorewrite with sieve in *. set (next := off + sz_test t + 1 + sz_cmds body + 1) in *.
    replace (S (off + sz_test t)) with (off + sz_test t + 1) in * by lia.
    replace (S (off + sz_test t + 1 + sz_cmds body)) with next in Hbs by (unfold next; lia).
    eapply ends_branch; [done..|unfold next; lia| |].
    + intros m1 Hm1. specialize (IHb _ m1 m0 Hwb Hb Hm1). destruct (sem_cmds l v from to body m0) as [m2 b].
      replace (m2, b) with (if b then (m2, true) else (m2, false)) by (by destruct b).
      apply (ends_seq _ (off + sz_test t + 1 + sz_cmds body) _ _ (m2, b) (λ m, (m, false))); [done|lia|].
      intros m3 Hm3. apply ends_jump; [done|lia|done].
    + intros m1 Hm1. apply IHbs; [done|done|done|unfold next; lia|]. intros m2 Hm2.
      replace (next + sz_branches bs) with (off + (sz_test t + 1 + sz_cmds body + 1 + sz_branches bs))
        by (unfold next; lia). by apply Ho.
Qed.
End running.

(** Running the code of a script does what the script means, if there is time
    for as many instructions as it has. *)
Lemma run_cmds_correct `{MailParser} l v from to cs :
  wf_cmds cs → sz_cmds cs ≤ cpu l →
  same_actions (run_loop (cpu l) l (cg_cmds 0 cs) v from to 0 initial_machine)
    (sem_cmds l v from to cs initial_machine).1.
Proof.
  intros Hwf Hcpu.
  destruct (proj1 (proj2 (run_cmd_all l (cg_cmds 0 cs) v from to)) cs 0 initial_machine initial_machine)
    as (k & m' & Hk & Hs & Hr); [done|by intros i x E|done|]. simpl in Hk.
  replace (cpu l) with (k + (cpu l - k)) by lia. destruct (sem_cmds l v from to cs initial_machine) as [m0 b].
  simpl in *. destruct b.
  - by rewrite Hr.
  - rewrite Hr. destruct (cpu l - k); simpl; [done|]. by rewrite lookup_ge_None_2 by (autorewrite with sieve; lia).
Qed.

(** ** What the parser emits *)

(** A call from [s] does not panic, and what it returns satisfies [Q]. *)
Definition wp {A} (m : P A) (Q : A → Parser → Prop) (s : Parser) : Prop :=
  match m s with inr (a, s') => Q a s' | inl (Rejected _) => True | inl Panicked => False end.

Lemma wp_bind {A B} (m : P A) (f : A → P B) Q s :
  wp m (λ a, wp (f a) Q) s → wp (x ← m; f x) Q s.
Proof. unfold wp, mbind, P_bind. by destruct (m s) as [[]|[a s']]. Qed.
Lemma wp_mono {A} (m : P A) (Q Q' : A → Parser → Prop) s :
  wp m Q s → (∀ a s', Q a s' → Q' a s') → wp m Q' s.
Proof. unfold wp. destruct (m s) as [[]|[a s']]; auto. Qed.
Lemma wp_ret {A} (a : A) (Q : A → Parser → Prop) s : Q a s → wp (mret a) Q s.
Proof. done. Qed.

(** The state after has the same blocks and [c] more instructions. *)
Definition appended (s s' : Parser) (c : list Instruction) : Prop :=
  pr_instructions s' = pr_instructions s ++ c ∧ blocks s' = blocks s.
(** A call that emits nothing. *)
Definition silent {A} (m : P A) : Prop := ∀ s, wp m (λ _ s', appended s s' []) s.

Lemma appended_refl s : appended s s [].
Proof. split; [by rewrite app_nil_r|done]. Qed.
Lemma appended_trans s1 s2 s3 c1 c2 : appended s1 s2 c1 → appended s2 s3 c2 → appended s1 s3 (c1 ++ c2).
Proof. intros [E1 ?] [E2 ?]. split; [by rewrite E2, E1, app_assoc|congruence]. Qed.

Lemma silent_ret {A} (a : A) : silent (mret a).
Proof. intros s. apply wp_ret, appended_refl. Qed.
Lemma silent_fail {A} e : silent (fail (A := A) e).
Proof. done. Qed.
Lemma silent_fail_here {A} msg : silent (fail_here (A := A) msg).
Proof. done. Qed.
Lemma silent_bind {A B} (m : P A) (f : A → P B) : silent m → (∀ a, silent (f a)) → silent (x ← m; f x).
Proof.
  intros Hm Hf s. apply wp_bind. eapply wp_mono; [apply Hm|]. intros a s1 H1.
  eapply wp_mono; [apply Hf|]. intros b s2 H2. exact (appended_trans s s1 s2 [] [] H1 H2).
Qed.
Lemma silent_gets {A} (f : Parser → A) : silent (gets f).
Proof. intros s. apply appended_refl. Qed.
Lemma silent_of_compiled {A} (r : compiled A) : silent (of_compiled r).
Proof. intros s. unfold wp, of_compiled. destruct r; [done|apply appended_refl]. Qed.
Lemma silent_advance : silent advance.
Proof. intros s. unfold wp, advance. destruct (pr_tokens s !! pr_pos s); split; by rewrite ?app_nil_r. Qed.
Lemma silent_peek : silent peek.
Proof. apply silent_gets. Qed.
Lemma silent_start_commands : silent start_commands.
Proof. intros s. split; by rewrite ?app_nil_r. Qed.

(** A call whose bound is computed from the state. *)
Lemma silent_sized {A} (f : nat → P A) : (∀ n, silent (f n)) → silent (λ s, f (S (tokens_left s)) s).
Proof. intros Hf s. apply Hf. Qed.

Create HintDb silent discriminated.
#[global] Hint Resolve silent_ret silent_fail silent_fail_here silent_bind silent_gets silent_of_compiled
  silent_advance silent_peek silent_start_commands : silent.

(** Walk through the branches of a method. *)
Ltac silent_walk :=
  repeat (intros; match goal with
    | |- silent (mbind _ _) => apply silent_bind
    | |- silent (let _ := _ in _) => cbv zeta
    | |- silent (match ?x with _ => _ end) => destruct x
    | |- silent _ => solve [auto with silent]
    end).

Lemma silent_expect t d : silent (expect t d).
Proof. unfold expect. silent_walk. Qed.
Lemma silent_need_capability name t : silent (need_capability name t).
Proof. intros s. unfold wp, need_capability. destruct (has_capability name s); [apply appended_refl|done]. Qed.
Lemma silent_decode v line col : silent (decode v line col).
Proof.
  intros s. unfold wp, decode. destruct (negb _); [apply appended_refl|].
  destruct (decode_encoded_characters v); [done|apply appended_refl].
Qed.
#[global] Hint Resolve silent_expect silent_need_capability silent_decode : silent.

Lemma silent_parse_string : silent parse_string.
Proof. unfold parse_string. silent_walk. Qed.
Lemma silent_list_items fuel limit values : silent (list_items fuel limit values).
Proof. revert values. induction fuel as [|fuel IH]; intros values; cbn [list_items]; silent_walk; apply IH. Qed.
#[global] Hint Resolve silent_parse_string silent_list_items : silent.
Lemma silent_parse_raw_string_list limits : silent (parse_raw_string_list limits).
Proof. unfold parse_raw_string_list. silent_walk. intros s. apply silent_list_items. Qed.
Lemma silent_decode_all values : silent (decode_all values).
Proof. induction values; cbn [decode_all]; silent_walk; auto with silent. Qed.
#[global] Hint Resolve silent_parse_raw_string_list silent_decode_all : silent.
Lemma silent_parse_string_list limits : silent (parse_string_list limits).
Proof. unfold parse_string_list. silent_walk. Qed.
#[global] Hint Resolve silent_parse_string_list : silent.
Lemma silent_parse_header_list limits t : silent (parse_header_list limits t).
Proof. unfold parse_header_list. silent_walk. Qed.
Lemma silent_match_tag t b tags tag : silent (match_tag t b tags tag).
Proof. unfold match_tag. silent_walk. Qed.
#[global] Hint Resolve silent_parse_header_list silent_match_tag : silent.
Lemma silent_match_tags fuel t b tags : silent (match_tags fuel t b tags).
Proof. revert tags. induction fuel as [|fuel IH]; intros tags; cbn [match_tags]; silent_walk; apply IH. Qed.
#[global] Hint Resolve silent_match_tags : silent.
Lemma silent_parse_match_tags t b : silent (parse_match_tags t b).
Proof. intros s. apply silent_bind; [intros s0; apply silent_match_tags|auto with silent]. Qed.
Lemma silent_size_tags fuel t over : silent (size_tags fuel t over).
Proof. revert over. induction fuel as [|fuel IH]; intros over; cbn [size_tags]; silent_walk; apply IH. Qed.
Lemma silent_require_all t names : silent (require_all t names).
Proof.
  induction names as [|name names IH]; cbn [require_all]; silent_walk.
  intros s. unfold wp. destruct (has_capability name s); split; by rewrite ?app_nil_r.
Qed.
#[global] Hint Resolve silent_parse_match_tags silent_size_tags silent_require_all : silent.

(** *** Tests *)

Lemma wp_emit i Q s :
  Q (length (pr_instructions s)) (set_instructions (pr_instructions s ++ [i]) s) → wp (emit i) Q s.
Proof. done. Qed.

(** After a silent call, in a state with the same code. *)
Lemma wp_silent {A B} (m : P A) (f : A → P B) Q s :
  silent m → (∀ a s', appended s s' [] → wp (f a) Q s') → wp (x ← m; f x) Q s.
Proof. intros Hm Hf. apply wp_bind. eapply wp_mono; [apply Hm|]. simpl. auto. Qed.

(** Run the silent calls in front. *)
Ltac wp_walk :=
  repeat first
    [ match goal with
      | H : appended ?s ?s1 [], H' : appended ?s1 ?s2 [] |- _ =>
          let E := fresh "E" in pose proof (appended_trans _ _ _ [] [] H H') as E; simpl in E; clear H H'
      end
    | apply wp_silent; [solve [auto with silent]|intros ? ? ?]
    | match goal with
      | |- wp (fail _) _ _ => exact I
      | |- wp (fail_here _) _ _ => exact I
      | |- wp (match ?x with _ => _ end) _ _ => destruct x
      | |- wp (if ?x then _ else _) _ _ => destruct x
      end ].

Definition emits_test (neg : bool) (s : Parser) (_ : unit) (s' : Parser) : Prop :=
  ∃ t, appended s s' (cg_test neg (length (pr_instructions s)) t).

Lemma wp_emit_test t neg s s1 :
  appended s s1 [] → wp (emit_test (negate_test neg t)) (emits_test neg s) s1.
Proof.
  intros [E1 E2]. exists (SAtom t). simpl. split; [|done]. simpl. by rewrite E1, app_nil_r.
Qed.

Lemma wp_emit_test_eq t t' neg s s1 :
  appended s s1 [] → t' = negate_test neg t → wp (emit_test t') (emits_test neg s) s1.
Proof. intros ? ->. by apply wp_emit_test. Qed.

Lemma silent_size_tags_all t : silent (λ s, size_tags (S (tokens_left s)) t None s).
Proof. intros s. apply silent_size_tags. Qed.
#[global] Hint Resolve silent_size_tags_all : silent.

Lemma wp_parse_simple_test limits word t neg s :
  wp (parse_simple_test limits word t neg) (emits_test neg s) s.
Proof.
  unfold parse_simple_test. pose proof (appended_refl s) as Hs.
  repeat (case_match; [wp_walk; try (by eapply wp_emit_test_eq; [eassumption|]); shelve|]); done.
  Unshelve.
  - by apply (wp_emit_test_eq (TestBool (bool_decide (word = bs "true")))).
  - by apply (wp_emit_test_eq (TestExists a false)).
  - by apply (wp_emit_test_eq (TestSize b n false)).
  - by apply (wp_emit_test_eq (TestHeader a0 a1 m c false)).
  - by apply (wp_emit_test_eq (TestAddress a0 a1 a m c false)).
  - by apply (wp_emit_test_eq (TestEnvelope a2 a3 a0 m c false)).
Qed.

(** *** Jumps *)

Definition retarget (target : nat) (i : Instruction) : option Instruction :=
  match i with
  | Jmp _ => Some (Jmp (Z.of_nat target))
  | Jz _ => Some (Jz (Z.of_nat target))
  | Jnz _ => Some (Jnz (Z.of_nat target))
  | _ => None
  end.

(** Filling in the jump between [pre] and [post]. *)
Lemma wp_patch index target pre i i' post s Q :
  pr_instructions s = pre ++ i :: post → index = length pre → retarget target i = Some i' →
  Q tt (set_instructions (pre ++ i' :: post) s) → wp (patch index target) Q s.
Proof.
  intros E -> Hi HQ. unfold wp, patch. rewrite E, list_lookup_middle by done.
  assert (<[length pre := i']> (pre ++ i :: post) = pre ++ i' :: post) as Ei
    by (by rewrite insert_app_r_alt, Nat.sub_diag).
  destruct i; simpl in Hi; simplify_eq; rewrite Ei; exact HQ.
Qed.

(** Where the jumps of a list of tests are. *)
Fixpoint jump_positions (off : nat) (ts : stests) : list nat :=
  match ts with
  | TOne _ => []
  | TMore t ts => (off + sz_test t) :: jump_positions (off + sz_test t + 1) ts
  end.

Lemma cg_tests_app neg is_all off end_ t ts :
  cg_tests neg is_all off end_ (TMore t ts)
  = cg_test neg off t ++ (if is_all then Jz end_ else Jnz end_)
      :: cg_tests neg is_all (off + sz_test t + 1) end_ ts.
Proof. done. Qed.

Lemma wp_patch_tests neg is_all old target ts pre s (Q : unit → Parser → Prop) :
  pr_instructions s = pre ++ cg_tests neg is_all (length pre) old ts →
  (∀ s', pr_instructions s' = pre ++ cg_tests neg is_all (length pre) (Z.of_nat target) ts →
     blocks s' = blocks s → Q tt s') →
  wp (patch_all (jump_positions (length pre) ts) target) Q s.
Proof.
  revert pre s. induction ts as [t|t ts IH]; intros pre s E HQ; [by apply HQ|].
  rewrite cg_tests_app, app_assoc in E. cbn [jump_positions patch_all]. apply wp_bind.
  set (pre1 := pre ++ cg_test neg (length pre) t) in E.
  assert (length pre1 = length pre + sz_test t) as Hl by (unfold pre1; by rewrite length_app, length_cg_test).
  set (j := if is_all then Jz (Z.of_nat target) else Jnz (Z.of_nat target)).
  eapply (wp_patch _ _ pre1 _ j); [exact E|done|by destruct is_all|].
  assert (length pre + sz_test t + 1 = length (pre1 ++ [j])) as -> by (rewrite length_app; simpl; lia).
  apply IH.
  - simpl. rewrite length_app, Hl, <-app_assoc. done.
  - intros s' E' Hb. apply HQ; [|done]. rewrite E', cg_tests_app, length_app, Hl, <-app_assoc. unfold pre1. by rewrite <-app_assoc.
Qed.

(** The loop over the tests of a list. *)
Lemma wp_test_list fuel subtest neg is_all jumps s :
  (∀ s, wp subtest (emits_test neg s) s) →
  wp (test_list fuel subtest is_all jumps) (λ js s', ∃ ts,
    js = jumps ++ jump_positions (length (pr_instructions s)) ts ∧
    appended s s' (cg_tests neg is_all (length (pr_instructions s)) UNPATCHED ts)) s.
Proof.
  intros Hsub. revert jumps s. induction fuel as [|fuel IH]; intros jumps s; [done|]. cbn [test_list].
  apply wp_bind. eapply wp_mono; [apply Hsub|]. intros _ s1 [t Ht].
  apply wp_silent; [auto with silent|]. intros tk s2 H2. pose proof (appended_trans _ _ _ _ _ Ht H2) as [E Hb].
  rewrite app_nil_r in E. destruct tk as [[[] line col]|]; try done.
  - exists (TOne t). split; [by rewrite app_nil_r|done].
  - apply wp_bind, wp_emit. eapply wp_mono; [apply IH|]. cbn [set_instructions pr_instructions].
    intros js s3 (ts & -> & [E3 Hb3]). cbn [set_instructions pr_instructions] in *.
    assert (length (pr_instructions s2 ++ [if is_all then Jz UNPATCHED else Jnz UNPATCHED])
      = length (pr_instructions s) + sz_test t + 1) as Hl.
    { rewrite E, !length_app, length_cg_test. simpl. lia. }
    rewrite Hl in *. exists (TMore t ts). split; [|split].
    + by rewrite E, length_app, length_cg_test, <-app_assoc.
    + rewrite E3, E, cg_tests_app, <-!app_assoc. done.
    + rewrite Hb3. exact Hb.
Qed.

Lemma wp_parse_test_expr limits budget neg s :
  wp (parse_test_expr limits budget neg) (emits_test neg s) s.
Proof.
  revert neg s. induction budget as [|budget IH]; intros neg s; [done|]. cbn [parse_test_expr].
  apply wp_silent; [auto with silent|]. intros [t|] s1 H1; [|done]. destruct (tok t) as [word| | | | | | | | | | |]; try done.
  assert (∀ t' s', appended s1 s' (cg_test neg (length (pr_instructions s1)) t') → emits_test neg s tt s') as Hwk.
  { intros t' s' Ha. exists t'. pose proof (appended_trans _ _ _ _ _ H1 Ha) as Hs.
    destruct H1 as [E _]. rewrite app_nil_r in E. by rewrite <-E. }
  case_bool_decide.
  { eapply wp_mono; [apply IH|]. intros [] s2 [t' Ht']. by apply (Hwk (SNot t')). }
  destruct (bool_decide (word = bs "allof") || bool_decide (word = bs "anyof")) eqn:Ew.
  2:{ eapply wp_mono; [apply wp_parse_simple_test|]. intros [] s2 [t' Ht']. by eapply Hwk. }
  cbv zeta. set (is_all := xorb (bool_decide (word = bs "allof")) neg).
  apply wp_silent; [auto with silent|]. intros _ s2 H2. apply wp_bind.
  eapply wp_mono; [apply (wp_test_list _ _ neg); intros; apply IH|].
  intros js s3 (ts & -> & [E3 Hb3]). apply wp_bind, wp_ret. rewrite app_nil_l.
  eapply wp_patch_tests; [exact E3|]. intros s' E' Hb'.
  assert (appended s1 s' (cg_tests neg is_all (length (pr_instructions s1))
    (Z.of_nat (length (pr_instructions s1) + sz_tests ts)) ts)) as Ha.
  { destruct H2 as [E2 Hb2]. rewrite app_nil_r in E2. split; [|congruence].
    rewrite E', E3, E2, length_app, length_cg_tests. done. }
  destruct (bool_decide (word = bs "allof")) eqn:Eall.
  - apply (Hwk (SAllof ts)). simpl. unfold is_all in Ha. by destruct neg.
  - apply (Hwk (SAnyof ts)). simpl. unfold is_all in Ha. by destruct neg.
Qed.

(** *** Blocks *)

Fixpoint cmds_snoc (cs : scmds) (c : scmd) : scmds :=
  match cs with CNil => CCons c CNil | CCons c0 cs => CCons c0 (cmds_snoc cs c) end.
Fixpoint branches_snoc (bs : branches) (t : stest) (body : scmds) : branches :=
  match bs with BNil => BCons t body BNil | BCons t0 b0 bs => BCons t0 b0 (branches_snoc bs t body) end.

Lemma cg_cmds_snoc off cs c :
  cg_cmds off (cmds_snoc cs c) = cg_cmds off cs ++ cg_cmd (off + sz_cmds cs) c.
Proof.
  revert off. induction cs as [|c0 cs IH]; intros off; cbn [cmds_snoc cg_cmds sz_cmds].
  - by rewrite Nat.add_0_r, app_nil_r.
  - by rewrite IH, app_assoc, Nat.add_assoc.
Qed.
Lemma wf_cmds_snoc cs c : wf_cmds cs → wf_cmd c → wf_cmds (cmds_snoc cs c).
Proof. induction cs; simpl; intuition. Qed.

Lemma cg_branches_snoc off end_ bs t body :
  let off1 := off + sz_branches bs in
  cg_branches off end_ (branches_snoc bs t body)
  = cg_branches off end_ bs ++ cg_test false off1 t
      ++ Jz (Z.of_nat (off1 + sz_test t + 1 + sz_cmds body + 1)) :: cg_cmds (off1 + sz_test t + 1) body ++ [Jmp end_].
Proof.
  revert off. induction bs as [|t0 b0 bs IH]; intros off off1; cbn [branches_snoc cg_branches sz_branches].
  - unfold off1. simpl. by rewrite Nat.add_0_r.
  - rewrite IH. unfold off1. cbn [sz_branches]. rewrite <-!app_assoc. simpl.
    by rewrite !Nat.add_assoc.
Qed.
Lemma sz_branches_snoc bs t body :
  sz_branches (branches_snoc bs t body) = sz_branches bs + sz_test t + 1 + sz_cmds body + 1.
Proof. induction bs; simpl; lia. Qed.
Lemma wf_branches_snoc bs t body : wf_branches bs → wf_cmds body → wf_branches (branches_snoc bs t body).
Proof. induction bs; simpl; intuition. Qed.
Lemma branches_snoc_not_nil bs t body : branches_snoc bs t body ≠ BNil.
Proof. by destruct bs. Qed.

(** Where the jumps out of the closed branches are. *)
Fixpoint chain_positions (off : nat) (bs : branches) : list nat :=
  match bs with
  | BNil => []
  | BCons t body bs =>
      let at_ := off + sz_test t + 1 + sz_cmds body in at_ :: chain_positions (at_ + 1) bs
  end.
Lemma chain_positions_snoc off bs t body :
  chain_positions off (branches_snoc bs t body)
  = chain_positions off bs ++ [off + sz_branches bs + sz_test t + 1 + sz_cmds body].
Proof.
  revert off. induction bs as [|t0 b0 bs IH]; intros off; simpl.
  - by rewrite Nat.add_0_r.
  - rewrite IH. simpl. do 3 f_equal. lia.
Qed.

(** The test of the last branch; an else has none. *)
Definition cg_guard (off : nat) (end_ : Z) (t : option stest) : list Instruction :=
  match t with Some t => cg_test false off t ++ [Jz end_] | None => [] end.
Definition sz_guard (t : option stest) : nat := match t with Some t => sz_test t + 1 | None => 0 end.
Lemma length_cg_guard off end_ t : length (cg_guard off end_ t) = sz_guard t.
Proof. destruct t; [|done]. simpl. by rewrite length_app, length_cg_test. Qed.
Global Hint Rewrite length_cg_guard : sieve.

(** The code of a chain whose jumps out go to [end_]. *)
Definition cg_chain (off : nat) (end_ : Z) (closed : branches) (t : option stest) (body : scmds) : list Instruction :=
  cg_branches off end_ closed ++ cg_guard (off + sz_branches closed) end_ t
    ++ cg_cmds (off + sz_branches closed + sz_guard t) body.
Lemma cg_cmd_chain off closed t body :
  cg_cmd off (SIf closed t body) = cg_chain off (Z.of_nat (off + sz_cmd (SIf closed t body))) closed t body.
Proof.
  unfold cg_chain. destruct t as [t|]; cbn [cg_cmd cg_guard sz_guard].
  - by rewrite <-!app_assoc, Nat.add_assoc.
  - by rewrite Nat.add_0_r.
Qed.
Lemma length_cg_chain off end_ closed t body :
  length (cg_chain off end_ closed t body) = sz_cmd (SIf closed t body).
Proof.
  unfold cg_chain. rewrite !length_app. autorewrite with sieve. simpl. unfold sz_guard. lia.
Qed.

Definition block_of (off : nat) (closed : branches) (t : option stest) : OpenBlock :=
  mkBlock ((λ t, off + sz_branches closed + sz_test t) <$> t) (chain_positions off closed).

(** The code while blocks are open: the commands so far, with the jumps out
    of each open chain not filled in and their places in its block. *)
Inductive opened : list OpenBlock → list Instruction → Prop :=
  | opened_nil cs : wf_cmds cs → opened [] (cg_cmds 0 cs)
  | opened_cons rest base closed t body :
      opened rest base → wf_branches closed → wf_cmds body → (t = None → closed ≠ BNil) →
      opened (block_of (length base) closed t :: rest) (base ++ cg_chain (length base) UNPATCHED closed t body).

(** A command is finished in the innermost block. *)
Lemma opened_command bl code c : opened bl code → wf_cmd c → opened bl (code ++ cg_cmd (length code) c).
Proof.
  intros Ho Hc. inversion Ho as [cs Hcs|rest base closed t body Hb Hcl Hbody Ht]; subst.
  - autorewrite with sieve. rewrite <-(cg_cmds_snoc 0). constructor. by apply wf_cmds_snoc.
  - rewrite length_app, length_cg_chain, <-app_assoc.
    replace (cg_chain (length base) UNPATCHED closed t body ++ cg_cmd (length base + sz_cmd (SIf closed t body)) c)
      with (cg_chain (length base) UNPATCHED closed t (cmds_snoc body c)).
    { constructor; [done|done|by apply wf_cmds_snoc|done]. }
    unfold cg_chain. rewrite cg_cmds_snoc, <-!app_assoc. do 4 f_equal. simpl. unfold sz_guard. lia.
Qed.

(** An if opens a block. *)
Lemma opened_if bl code t :
  opened bl code →
  opened (mkBlock (Some (length code + sz_test t)) [] :: bl) (code ++ cg_test false (length code) t ++ [Jz UNPATCHED]).
Proof.
  intros Ho. pose proof (opened_cons bl code BNil (Some t) CNil Ho I I ltac:(done)) as H.
  unfold block_of, cg_chain in H. cbn [cg_branches chain_positions cg_guard cg_cmds] in H. simpl in H.
  rewrite Nat.add_0_r, app_nil_r in H. done.
Qed.

(** The jumps out of the closed branches are filled in. *)
Lemma wp_patch_chain old target closed pre post s (Q : unit → Parser → Prop) :
  pr_instructions s = pre ++ cg_branches (length pre) old closed ++ post →
  (∀ s', pr_instructions s' = pre ++ cg_branches (length pre) (Z.of_nat target) closed ++ post →
     blocks s' = blocks s → Q tt s') →
  wp (patch_all (chain_positions (length pre) closed) target) Q s.
Proof.
  revert pre s. induction closed as [|t body closed IH]; intros pre s E HQ; [by apply HQ|].
  cbn [chain_positions patch_all]. cbv zeta. cbn [patch_all]. apply wp_bind.
  set (next := length pre + sz_test t + 1 + sz_cmds body + 1).
  set (pre1 := pre ++ cg_test false (length pre) t ++ [Jz (Z.of_nat next)] ++ cg_cmds (length pre + sz_test t + 1) body).
  assert (length pre1 = length pre + sz_test t + 1 + sz_cmds body) as Hl.
  { unfold pre1. rewrite !length_app. autorewrite with sieve. simpl. lia. }
  assert (∀ end_, pre ++ cg_branches (length pre) end_ (BCons t body closed) ++ post
    = pre1 ++ Jmp end_ :: cg_branches next end_ closed ++ post) as Hsplit.
  { intros end_. unfold pre1. cbn [cg_branches]. rewrite <-!app_assoc. done. }
  rewrite Hsplit in E. rewrite <-Hl.
  eapply (wp_patch _ _ pre1 _ (Jmp (Z.of_nat target))); [exact E|done|done|].
  set (pre2 := pre1 ++ [Jmp (Z.of_nat target)]).
  assert (length pre2 = next) as Hl2 by (unfold pre2; rewrite length_app; simpl; lia).
  replace (chain_positions _ closed) with (chain_positions (length pre2) closed) by (f_equal; lia). apply IH.
  - simpl. rewrite Hl2. unfold pre2. by rewrite <-app_assoc.
  - intros s' E' Hb. apply HQ; [|done]. rewrite Hsplit, E', Hl2. unfold pre2. by rewrite <-app_assoc.
Qed.

(** The guard's jump is filled in. *)
Lemma wp_patch_guard off old target t pre post s (Q : unit → Parser → Prop) :
  pr_instructions s = pre ++ cg_guard off old t ++ post →
  (∀ s', pr_instructions s' = pre ++ cg_guard off (Z.of_nat target) t ++ post →
     blocks s' = blocks s → Q tt s') →
  wp (match (λ t, length pre + sz_test t) <$> t return P unit with
      | Some jz => patch jz target | None => mret tt end) Q s.
Proof.
  intros E HQ. destruct t as [t|]; cbn [fmap option_fmap option_map cg_guard] in *; [|by apply HQ].
  rewrite <-!app_assoc, (app_assoc pre) in E.
  eapply (wp_patch _ _ _ _ (Jz (Z.of_nat target))); [exact E|by rewrite length_app, length_cg_test|done|].
  apply HQ; [|done]. simpl. by rewrite <-!app_assoc.
Qed.

(** A chain is closed. *)
Lemma wp_finish_chain base closed t body s (Q : unit → Parser → Prop) :
  pr_instructions s = base ++ cg_chain (length base) UNPATCHED closed t body →
  (∀ s', pr_instructions s' = base ++ cg_cmd (length base) (SIf closed t body) → blocks s' = blocks s → Q tt s') →
  let block := block_of (length base) closed t in
  let target := length (pr_instructions s) in
  wp (_ ← match jz_at block return P unit with Some jz => patch jz target | None => mret tt end;
      patch_all (chain_jmps block) target) Q s.
Proof.
  intros E HQ block target. unfold block, block_of. cbn [jz_at chain_jmps]. apply wp_bind.
  assert (target = length base + sz_cmd (SIf closed t body)) as Ht.
  { unfold target. by rewrite E, length_app, length_cg_chain. }
  assert (length (base ++ cg_branches (length base) UNPATCHED closed) = length base + sz_branches closed) as Hl.
  { by rewrite length_app, length_cg_branches. }
  rewrite <-Hl. eapply wp_patch_guard.
  { rewrite E. unfold cg_chain. by rewrite app_assoc. }
  intros s1 E1 Hb1. rewrite <-app_assoc in E1. eapply wp_patch_chain; [exact E1|].
  intros s2 E2 Hb2. apply HQ; [|congruence]. rewrite E2, cg_cmd_chain. unfold cg_chain. by rewrite Ht.
Qed.

Lemma opened_close rest base closed t body :
  opened rest base → wf_branches closed → wf_cmds body → (t = None → closed ≠ BNil) →
  opened rest (base ++ cg_cmd (length base) (SIf closed t body)).
Proof. intros. apply opened_command; [done|]. simpl. auto. Qed.

(** Every step of the parser keeps the code well formed. *)
Definition upholds (m : P unit) : Prop :=
  ∀ s, opened (blocks s) (pr_instructions s) → wp m (λ _ s', opened (blocks s') (pr_instructions s')) s.

Lemma opened_appended s s' : appended s s' [] → opened (blocks s) (pr_instructions s) → opened (blocks s') (pr_instructions s').
Proof. intros [E ->]. by rewrite E, app_nil_r. Qed.
Lemma upholds_silent m : silent m → upholds m.
Proof. intros Hm s Ho. eapply wp_mono; [apply Hm|]. simpl. intros _ s'. eauto using opened_appended. Qed.
Lemma upholds_after {A} (m : P A) f : silent m → (∀ a, upholds (f a)) → upholds (x ← m; f x).
Proof. intros Hm Hf s Ho. apply wp_silent; [done|]. intros a s' Ha. apply Hf. eauto using opened_appended. Qed.
Lemma upholds_bind (m : P unit) f : upholds m → (∀ a, upholds (f a)) → upholds (x ← m; f x).
Proof. intros Hm Hf s Ho. apply wp_bind. eapply wp_mono; [by apply Hm|]. simpl. intros a s'. apply Hf. Qed.
Lemma upholds_emit i : is_action i = true → upholds (_ ← emit i; mret tt).
Proof.
  intros Hi s Ho. apply wp_bind, wp_emit, wp_ret. simpl. by apply (opened_command _ _ (SAct i)).
Qed.
Lemma upholds_fail e : upholds (fail e).
Proof. done. Qed.

(** Walk through the branches of a command. *)
Ltac upholds_walk :=
  repeat first
    [ apply upholds_after; [solve [auto with silent]|intros ?]
    | match goal with
      | |- upholds (let _ := _ in _) => cbv zeta
      | |- upholds (match ?x with _ => _ end) => destruct x
      | |- upholds (_ ← emit _; mret tt) => apply upholds_emit
      | |- upholds _ => solve [apply upholds_silent; auto with silent]
      end ].

(** A test and the jump after it, for a new block. *)
Lemma wp_test_guard {B} limits (f : nat → P B) Q s :
  (∀ t s', appended s s' (cg_guard (length (pr_instructions s)) UNPATCHED (Some t)) →
     wp (f (length (pr_instructions s) + sz_test t)) Q s') →
  wp (_ ← parse_test limits; at_ ← emit (Jz UNPATCHED); f at_) Q s.
Proof.
  intros Hf. apply wp_bind. eapply wp_mono; [apply wp_parse_test_expr|]. intros _ s1 [t [E Hb]].
  apply wp_bind, wp_emit.
  assert (length (pr_instructions s1) = length (pr_instructions s) + sz_test t) as ->
    by (by rewrite E, length_app, length_cg_test).
  apply Hf. split; [|done]. simpl. by rewrite E, <-app_assoc.
Qed.

Lemma upholds_command limits word t : upholds (command limits word t).
Proof.
  unfold command, simple_command. upholds_walk; try done.
  - intros s Ho. apply wp_test_guard. intros t0 s1 [E Hb]. apply wp_bind.
    change (wp (expect LBrace (bs "'{'")) (λ _ s', opened (blocks s') (pr_instructions s'))
      (set_blocks (mkBlock (Some (length (pr_instructions s) + sz_test t0)) [] :: blocks s1) s1)).
    apply upholds_silent; [auto with silent|]. simpl. rewrite E, Hb. by apply opened_if.
  - by repeat case_bool_decide.
Qed.

(** The continuation of a chain: the branch is closed and another begins. *)
Lemma wp_next_branch base closed t body s rest (Q : unit → Parser → Prop) jz target :
  pr_instructions s = base ++ cg_chain (length base) UNPATCHED closed (Some t) body ++ [Jmp UNPATCHED] →
  blocks s = rest → jz = length base + sz_branches closed + sz_test t →
  target = length (pr_instructions s) →
  (∀ s', pr_instructions s' = base ++ cg_branches (length base) UNPATCHED (branches_snoc closed t body) →
     blocks s' = rest → Q tt s') →
  wp (patch jz target) Q s.
Proof.
  intros E Hb -> -> HQ.
  set (pre := base ++ cg_branches (length base) UNPATCHED closed ++ cg_test false (length base + sz_branches closed) t).
  eapply (wp_patch _ _ pre _ (Jz (Z.of_nat (length (pr_instructions s))))).
  - rewrite E. unfold cg_chain, pre. cbn [cg_guard]. rewrite <-!app_assoc. simpl. done.
  - unfold pre. rewrite !length_app. autorewrite with sieve. lia.
  - done.
  - apply HQ; [|done]. unfold pre. simpl. rewrite cg_branches_snoc, <-!app_assoc.
    rewrite E, !length_app, length_cg_chain. do 6 f_equal; simpl; lia.
Qed.

(** What follows the closing brace of a branch. *)
Definition next_guard (limits : CompilerLimits) (is_elsif : bool) : P (option nat) :=
  if is_elsif then _ ← parse_test limits; at_ ← emit (Jz UNPATCHED); mret (Some at_) else mret None.

Lemma wp_next_guard limits is_elsif base closed s Q :
  closed ≠ BNil → wf_branches closed → opened (blocks s) base →
  pr_instructions s = base ++ cg_branches (length base) UNPATCHED closed →
  (∀ nj s', opened (mkBlock nj (chain_positions (length base) closed) :: blocks s') (pr_instructions s') → Q nj s') →
  wp (next_guard limits is_elsif) Q s.
Proof.
  intros Hne Hwf Ho E HQ. destruct is_elsif; cbn [next_guard].
  - apply wp_test_guard. intros t s' [E' Hb]. apply wp_ret, HQ. rewrite E', Hb, E, length_app, length_cg_branches.
    pose proof (opened_cons _ _ closed (Some t) CNil Ho Hwf I ltac:(done)) as H.
    unfold block_of, cg_chain in H. simpl in H. rewrite !app_nil_r in H. by rewrite <-app_assoc.
  - apply wp_ret, HQ. rewrite E.
    pose proof (opened_cons _ _ closed None CNil Ho Hwf I ltac:(done)) as H.
    unfold block_of, cg_chain in H. simpl in H. by rewrite !app_nil_r in H.
Qed.

Lemma upholds_close_block limits t : upholds (close_block limits t).
Proof.
  intros s Ho. unfold close_block. apply wp_bind. unfold wp at 1, pop_block.
  inversion Ho as [cs Hcs Hbl Hcode|rest base closed t0 body Hb Hcl Hbody Ht Hbl Hcode]; [done|].
  apply wp_silent; [auto with silent|]. intros nx s1 [E1 Hb1]. rewrite app_nil_r in E1. cbn [set_blocks pr_instructions blocks] in E1, Hb1.
  rewrite <-Hcode in E1. cbv zeta.
  set (continuation := match nx with Some (TIdentifier word) => _ | _ => _ end). clearbody continuation.
  destruct continuation as [is_elsif|].
  - cbn [block_of jz_at]. destruct t0 as [t0|]; [|done]. cbn [fmap option_fmap option_map].
    apply wp_silent; [auto with silent|]. intros _ s2 [E2 Hb2]. rewrite app_nil_r in E2.
    apply wp_bind, wp_emit. apply wp_bind, wp_ret. apply wp_bind.
    eapply (wp_next_branch base closed t0 body _ rest); [|by rewrite <-Hb1, <-Hb2|done|done|].
    { simpl. by rewrite E2, E1, <-app_assoc. }
    intros s3 E3 Hb3. apply wp_bind. change (wp (next_guard limits is_elsif)
      (λ a, wp (_ ← push_block (mkBlock a (chain_jmps (block_of (length base) closed (Some t0))
        ++ [length (pr_instructions s2)])); expect LBrace (bs "'{'")) (λ _ s', opened (blocks s') (pr_instructions s'))) s3).
    eapply wp_next_guard; [apply branches_snoc_not_nil|by apply wf_branches_snoc|by rewrite Hb3|exact E3|].
    intros nj s4 Ho4. apply wp_bind. eapply (upholds_silent (expect LBrace _)); [auto with silent|].
    simpl. rewrite chain_positions_snoc in Ho4. rewrite E2, E1, length_app, length_cg_chain. simpl.
    replace (length base + (sz_branches closed + (sz_test t0 + 1) + sz_cmds body))
      with (length base + sz_branches closed + sz_test t0 + 1 + sz_cmds body) by lia. exact Ho4.
  - apply wp_bind, wp_ret. apply (wp_finish_chain base closed t0 body); [done|].
    intros s2 E2 Hb2. rewrite E2, Hb2, Hb1. by apply opened_close.
Qed.

Lemma upholds_commands limits fuel : upholds (commands limits fuel).
Proof.
  induction fuel as [|fuel IH]; [done|]. cbn [commands]. apply upholds_after; [auto with silent|]. intros [t|].
  - apply upholds_bind; [|intros; exact IH].
    destruct (tok t); first [apply upholds_command|apply upholds_close_block|apply upholds_fail].
  - apply upholds_silent. auto with silent.
Qed.

(** The code of an accepted script is the code of a structured program. *)
Lemma compile_tokens_structured limits ts :
  match compile_tokens limits ts with
  | inl Panicked => False
  | inl (Rejected _) => True
  | inr p => ∃ cs, wf_cmds cs ∧ prog_instructions p = cg_cmds 0 cs
  end.
Proof.
  unfold compile_tokens. pose proof (upholds_commands limits (S (length ts)) (mkParser ts 0 [] [] false [])) as H.
  specialize (H (opened_nil CNil I)). unfold wp in H.
  destruct (commands limits (S (length ts)) (mkParser ts 0 [] [] false [])) as [[]|[u s]]; [done|done|].
  destruct (blocks s) eqn:Eb; [|done]. inversion H as [cs Hcs Hbl Hcode|]. exists cs. simpl. split; congruence.
Qed.

(** ** The theorem *)

(** The meaning of a script on a message: its commands in the initial state. *)
Definition script_meaning `{MailParser} (cs : scmds) (raw : bytes) (e : Envelope) (l : Limits) : Outcome :=
  outcome_of (sem_cmds l (view_new raw) (parse_envelope_address (env_from e)) (parse_envelope_address (env_to e))
                cs initial_machine).1.


(** A script with an apostrophe for each quotation mark. *)
Definition quoting (s : string) : bytes := (λ b, if (b =? 39)%Z then 34%Z else b) <$> bs s.
Definition example_source : bytes :=
  quoting "require ['fileinto']; if anyof (not size :over 2K, allof (true, exists 'Subject')) { fileinto 'A'; }
           elsif false { stop; } else { discard; } keep;".
Definition example_script : Script :=
  match compile default_compiler_limits example_source with inr s => s | inl _ => mkScript [] [] end.

