(* ===== verification/SieveErrors.v ===== *)
(** * Sieve: errors point into the script, and compiling ends

    Every error the compiler reports has a line and a column, both from 1;
    since the bound of a loop being reached would be reported at line 0, no
    loop of the lexer or the parser reaches its bound. *)

From S2P Require Import Prelude Bytes Text Sieve SieveLexer SieveGrammar SieveSound.
From stdpp Require Import base list strings.
From Stdlib Require Import ZArith Lia.

Open Scope nat_scope.

Definition good_pos (p : Pos) : Prop := 1 ≤ p_line p ∧ 1 ≤ p_col p.
Definition good_error (e : CompileError) : Prop := 1 ≤ err_line e ∧ 1 ≤ err_column e.
Definition good_token (t : Token) : Prop := 1 ≤ tok_line t ∧ 1 ≤ tok_col t.

(** ** The lexer *)

(** A scanner that fails at a position, or leaves at most [n] bytes. *)
Definition left_at_most (n : nat) (l : Lexer) : Prop := good_pos (lx_pos l) ∧ length (lx_rest l) ≤ n.
Definition scans {A} (n : nat) (r : compiled (A * Lexer)) : Prop :=
  match r with inl e => good_error e | inr (_, l) => left_at_most n l end.

Lemma bump_good b p : good_pos p → good_pos (bump b p).
Proof. intros []. unfold bump, good_pos. destruct (b =? LF)%Z; simpl; lia. Qed.
Lemma error_at_good p m : good_pos p → good_error (error_at p m).
Proof. done. Qed.
Lemma left_at_most_le n n' l : n ≤ n' → left_at_most n l → left_at_most n' l.
Proof. intros ? []. split; [done|lia]. Qed.
Lemma scans_le {A} n n' (r : compiled (A * Lexer)) : n ≤ n' → scans n r → scans n' r.
Proof. destruct r as [|[]]; [done|]. apply left_at_most_le. Qed.
Lemma scans_bind {A B} n n' (r : compiled (A * Lexer)) (f : A * Lexer → compiled (B * Lexer)) :
  scans n r → (∀ a l, left_at_most n l → scans n' (f (a, l))) → scans n' (x ← r; f x).
Proof. destruct r as [|[a l]]; simpl; auto. Qed.

Create HintDb scans discriminated.
#[local] Hint Resolve bump_good error_at_good : scans.

Lemma skip_hash_left s p : good_pos p → left_at_most (length s) (skip_hash s p).
Proof.
  revert p. induction s as [|b s IH]; intros p Hp; simpl; [done|]. destruct (b =? LF)%Z; [done|].
  eapply left_at_most_le, IH; auto with scans.
Qed.
Lemma skip_comment_left s p l : good_pos p → skip_comment s p = Some l → left_at_most (length s) l.
Proof.
  revert p. induction s as [|b s IH]; intros p Hp; [done|]. simpl. intros Hl.
  assert (skip_comment s (bump b p) = Some l ∨ ∃ c s', s = c :: s' ∧ l = mkLexer s' (bump c (bump b p))) as [E|E].
  { destruct s as [|c s']; [auto|]. destruct (_ && _); simplify_eq; eauto. }
  - apply (left_at_most_le (length s)); [lia|]. eapply IH; [|exact E]. auto with scans.
  - destruct E as (c & s' & -> & ->). split; simpl; auto with scans.
Qed.
Lemma word_left s p : good_pos p → left_at_most (length s) (word s p).2.
Proof.
  revert p. induction s as [|b s IH]; intros p Hp; simpl; [done|]. destruct (is_word_byte b); [|done].
  destruct (word s (bump b p)) as [w l] eqn:E. simpl. change l with (w, l).2. rewrite <-E.
  eapply left_at_most_le, IH; auto with scans.
Qed.
(** A word takes its first byte. *)
Lemma word_takes b s p : good_pos p → is_word_start b = true → left_at_most (length s) (word (b :: s) p).2.
Proof.
  intros Hp Hb. simpl. unfold is_word_byte. rewrite Hb. simpl.
  pose proof (word_left s (bump b p) ltac:(auto with scans)). by destruct (word s (bump b p)).
Qed.

Lemma quoted_string_scans limit at_ s p value :
  good_pos at_ → good_pos p → scans (length s) (quoted_string limit at_ s p value).
Proof.
  intros Hat. remember (length s) as n eqn:Hn. revert s p value Hn.
  induction n as [n IH] using (well_founded_induction lt_wf). intros [|b s] p value -> Hp; [done|].
  cbn [quoted_string]. cbv zeta.
  assert (good_pos (bump b p)) by auto with scans.
  destruct (b =? 34)%Z. { by destruct (utf8_valid value); [split; simpl; [|lia]|]. }
  destruct (b =? 92)%Z.
  - destruct s as [|e s]; [done|]. destruct (_ <? _); [done|].
    eapply scans_le, (IH (length s)); simpl; auto with scans.
  - destruct (_ <? _); [done|]. eapply scans_le, (IH (length s)); simpl; auto with scans.
Qed.

Lemma digits_scans at_ s p v : good_pos at_ → good_pos p → scans (length s) (digits at_ s p v).
Proof.
  intros Hat. revert p v. induction s as [|b s IH]; intros p v Hp; simpl; [done|].
  destruct (is_digit b); [|done]. destruct (_ <=? _)%Z; [|done].
  eapply scans_le, IH; auto with scans.
Qed.
Lemma digits_takes at_ b s p v :
  good_pos at_ → good_pos p → is_digit b = true → scans (length s) (digits at_ (b :: s) p v).
Proof.
  intros Hat Hp Hb. simpl. rewrite Hb. destruct (_ <=? _)%Z; [|done]. apply digits_scans; auto with scans.
Qed.
Lemma number_takes at_ b s p :
  good_pos at_ → good_pos p → is_digit b = true → scans (length s) (number at_ (b :: s) p).
Proof.
  intros Hat Hp Hb. eapply scans_bind; [by apply digits_takes|]. intros v [[|c rest] lp] [Hl Hr]; simpl in *; [done|].
  destruct (multiplier c); split; simpl; auto with scans. lia.
Qed.

Lemma multiline_head_scans at_ c s p :
  good_pos at_ → good_pos p →
  match multiline_head at_ c s p with inl e => good_error e | inr l => left_at_most (length s) l end.
Proof.
  intros Hat. revert c p. induction s as [|b s IH]; intros c p Hp; [done|]. simpl.
  assert (good_pos (bump b p)) as Hb by auto with scans.
  destruct (b =? LF)%Z; [split; simpl; [done|lia]|].
  assert (∀ c, match multiline_head at_ c s (bump b p) with inl e => good_error e | inr l => left_at_most (S (length s)) l end) as IH'.
  { intros c'. specialize (IH c' _ Hb). destruct (multiline_head at_ c' s (bump b p)); [done|].
    eapply left_at_most_le; [|exact IH]. lia. }
  destruct c; [apply IH'|]. destruct (_ || _); [apply IH'|]. destruct (b =? 35)%Z; [apply IH'|done].
Qed.
Lemma source_line_left s p cur cur' terminated l :
  good_pos p → source_line s p cur = (cur', terminated, l) →
  good_pos (lx_pos l) ∧ length (lx_rest l) ≤ length s ∧ (terminated = true → length (lx_rest l) < length s).
Proof.
  revert p cur. induction s as [|b s IH]; intros p cur Hp; simpl.
  { intros [= <- <- <-]. done. }
  destruct (b =? LF)%Z; [intros [= <- <- <-]; simpl; auto with scans lia|].
  intros E. destruct (IH _ _ (bump_good b p Hp) E) as (? & ? & ?). split_and!; [done|lia|]. intros. specialize (H1 H2). lia.
Qed.
Lemma multiline_body_scans fuel limit at_ l value :
  good_pos at_ → good_pos (lx_pos l) → length (lx_rest l) < fuel →
  scans (length (lx_rest l)) (multiline_body fuel limit at_ l value).
Proof.
  intros Hat. revert l value. induction fuel as [|fuel IH]; intros l value Hl Hf; [lia|]. cbn [multiline_body].
  destruct (source_line _ _ _) as [[cur terminated] l1] eqn:E.
  apply source_line_left in E as (Hp & Hle & Hlt); [|done]. cbv zeta.
  destruct (negb terminated && _); [done|]. case_bool_decide; [done|]. set (text := if starts_with _ _ then _ else _).
  destruct (utf8_valid text); [|done]. simpl. destruct (_ <? _); [done|]. destruct terminated; [|done]. simpl.
  specialize (Hlt eq_refl). apply (scans_le (length (lx_rest l1))); [lia|]. apply IH; [done|lia].
Qed.
Lemma multiline_string_scans limit at_ s p :
  good_pos at_ → good_pos p → scans (length s) (multiline_string limit at_ s p).
Proof.
  intros Hat Hp. unfold multiline_string. pose proof (multiline_head_scans at_ false s p Hat Hp) as H.
  destruct (multiline_head at_ false s p) as [|l]; [done|]. destruct H as [Hl Hle].
  eapply scans_le; [exact Hle|]. apply multiline_body_scans; [done|done|lia].
Qed.

Lemma token_at_scans limits b s p : good_pos p → scans (length s) (token_at limits b s p).
Proof.
  intros Hp. unfold token_at. cbv zeta. assert (good_pos (bump b p)) by auto with scans.
  destruct (b =? 34)%Z. { eapply scans_bind; [by apply quoted_string_scans|done]. }
  destruct (is_digit b) eqn:?. { eapply scans_bind; [by apply number_takes|done]. }
  destruct (is_word_start b) eqn:Ew.
  - pose proof (word_takes b s p Hp Ew) as Hw. destruct (word (b :: s) p) as [w [rest lp]]. simpl in Hw.
    destruct Hw as [Hlp Hr]. simpl in *. destruct rest as [|c rest]; [done|].
    assert (scans (length s) (inr (mkToken (TIdentifier w) (p_line p) (p_col p), mkLexer (c :: rest) lp))) as Hid by done.
    destruct (decide (c = 58%Z)) as [->|Hc].
    2:{ repeat (case_match; [try done..]); try done; lia. }
    simpl. case_bool_decide; [|done]. eapply scans_bind; [apply multiline_string_scans; auto with scans|].
    simpl in Hr. intros v l Hl. eapply left_at_most_le, Hl. lia.
  - destruct (b =? 58)%Z.
    + destruct s as [|c s]; [done|]. destruct (is_word_start c) eqn:Ec; [|done].
      pose proof (word_takes c s (bump b p) ltac:(done) Ec) as Hw. destruct (word (c :: s) (bump b p)) as [w l].
      simpl. eapply left_at_most_le, Hw. lia.
    + destruct (punctuation b); simpl; [|done]. by split.
Qed.

Lemma token_at_token limits b s p t l : token_at limits b s p = inr (t, l) → tok_line t = p_line p ∧ tok_col t = p_col p.
Proof.
  unfold token_at. cbv zeta. intros E. repeat (case_match; simplify_eq; try done);
    apply compiled_bind_inr in E as ([? ?] & _ & ?); by simplify_eq.
Qed.

Lemma next_token_scans fuel limits l :
  good_pos (lx_pos l) → length (lx_rest l) < fuel →
  match next_token fuel limits l with
  | inl e => good_error e
  | inr None => True
  | inr (Some (t, l')) => good_token t ∧ good_pos (lx_pos l') ∧ length (lx_rest l') < length (lx_rest l)
  end.
Proof.
  revert l. induction fuel as [|fuel IH]; intros [s p] Hp Hf; [lia|]. cbn [next_token lx_rest lx_pos] in *.
  destruct s as [|b s]; [done|]. simpl in Hf.
  assert (∀ l1, left_at_most (length s) l1 → match next_token fuel limits l1 with
    | inl e => good_error e | inr None => True
    | inr (Some (t, l')) => good_token t ∧ good_pos (lx_pos l') ∧ length (lx_rest l') < length (b :: s) end) as IH'.
  { intros l1 [H1 H2]. specialize (IH l1 H1 ltac:(lia)). destruct (next_token fuel limits l1) as [|[[t l']|]]; [done| |done].
    destruct IH as (? & ? & ?). simpl. split_and!; [done..|lia]. }
  destruct (is_blank_byte b). { apply IH'. split; simpl; auto with scans. }
  destruct (b =? 35)%Z eqn:Eb.
  { apply Z.eqb_eq in Eb as ->. apply IH'. simpl. apply skip_hash_left. auto with scans. }
  destruct (_ && _) eqn:Ec.
  - destruct (skip_comment _ _) as [l1|] eqn:El; [|done]. apply IH'.
    apply (left_at_most_le (length (drop 1 s))); [rewrite length_drop; lia|]. eapply skip_comment_left, El. auto with scans.
  - pose proof (token_at_scans limits b s p Hp) as Hs. destruct (token_at limits b s p) as [e|[t l']] eqn:Et; [done|].
    apply token_at_token in Et as [E1 E2]. destruct Hs as [? ?]. simpl in *.
    split; [unfold good_token; rewrite E1, E2; exact Hp|]. split; [done|lia].
Qed.

Lemma tokens_good fuel limits l :
  good_pos (lx_pos l) → length (lx_rest l) < fuel →
  match tokens fuel limits l with inl e => good_error e | inr ts => Forall good_token ts end.
Proof.
  revert l. induction fuel as [|fuel IH]; intros l Hp Hf; [lia|]. cbn [tokens].
  pose proof (next_token_scans (S (length (lx_rest l))) limits l Hp ltac:(lia)) as Hn.
  destruct (next_token _ limits l) as [|[[t l']|]]; simpl; [done| |done].
  destruct Hn as (Ht & Hp' & Hl). specialize (IH l' Hp' ltac:(lia)).
  destruct (tokens fuel limits l'); simpl; [done|]. by constructor.
Qed.
Lemma lex_good source limits :
  match lex source limits with inl e => good_error e | inr ts => Forall good_token ts end.
Proof. apply tokens_good; simpl; [split; done|lia]. Qed.

(** ** The parser *)

Definition after (s s' : Parser) : Prop := pr_tokens s' = pr_tokens s ∧ pr_pos s ≤ pr_pos s'.

(** From a state with less than [n] tokens left, a call fails at a position or
    goes on from a later one. *)
Definition bounded {A} (n : nat) (m : P A) : Prop :=
  ∀ s, Forall good_token (pr_tokens s) → tokens_left s < n →
    match m s with
    | inl (Rejected e) => good_error e
    | inl Panicked => True
    | inr (_, s') => after s s'
    end.

Lemma tokens_left_after s s' : after s s' → tokens_left s' ≤ tokens_left s.
Proof. unfold tokens_left. intros [-> ?]. lia. Qed.

Lemma bounded_le {A} n n' (m : P A) : n' ≤ n → bounded n m → bounded n' m.
Proof. intros Hle Hm s Hg Hn. apply Hm; [done|lia]. Qed.
Lemma bounded_bind {A B} n (m : P A) (f : A → P B) :
  bounded n m → (∀ a, bounded n (f a)) → bounded n (x ← m; f x).
Proof.
  intros Hm Hf s Hg Hn. unfold mbind, P_bind. specialize (Hm s Hg Hn). destruct (m s) as [[]|[a s1]]; [done|done|].
  destruct Hm as [Et Hp]. pose proof (tokens_left_after s s1 (conj Et Hp)).
  specialize (Hf a s1 ltac:(by rewrite Et) ltac:(lia)). destruct (f a s1) as [[]|[b s2]]; [done|done|].
  destruct Hf. split; [congruence|lia].
Qed.
Lemma bounded_ret {A} n (a : A) : bounded n (mret a).
Proof. intros s _ _. by split. Qed.
Lemma bounded_fail {A} n e : good_error e → bounded n (fail (A := A) e).
Proof. intros He s _ _. exact He. Qed.
Lemma here_good msg s : Forall good_token (pr_tokens s) → good_error (here msg s).
Proof.
  intros Hg. unfold here. destruct (pr_tokens s !! _) as [t|] eqn:E; [|split; simpl; lia].
  exact (Forall_lookup_1 _ _ _ _ Hg E).
Qed.
Lemma bounded_fail_here {A} n msg : bounded n (fail_here (A := A) msg).
Proof. intros s Hg _. by apply here_good. Qed.
Lemma bounded_gets {A} n (f : Parser → A) : bounded n (gets f).
Proof. intros s _ _. by split. Qed.
Lemma bounded_peek n : bounded n peek.
Proof. apply bounded_gets. Qed.
Lemma bounded_code_len n : bounded n code_len.
Proof. apply bounded_gets. Qed.
Lemma bounded_start n : bounded n start_commands.
Proof. intros s _ _. by split. Qed.
Lemma bounded_emit n i : bounded n (emit i).
Proof. intros s _ _. by split. Qed.
Lemma bounded_patch n i t : bounded n (patch i t).
Proof. intros s _ _. unfold patch. by destruct (pr_instructions s !! i) as [[]|]. Qed.
Lemma bounded_push_block n b : bounded n (push_block b).
Proof. intros s _ _. by split. Qed.
Lemma bounded_pop_block n : bounded n pop_block.
Proof. intros s _ _. unfold pop_block. by destruct (blocks s). Qed.

(** A token taken is one less left. *)
Lemma bounded_advance {B} n (f : option Token → P B) :
  bounded n (f None) → (∀ t, good_token t → bounded (pred n) (f (Some t))) → bounded n (x ← advance; f x).
Proof.
  intros HN HS s Hg Hn. unfold mbind, P_bind, advance. destruct (pr_tokens s !! pr_pos s) as [t|] eqn:E; [|by apply HN].
  pose proof (lookup_lt_Some _ _ _ E). eapply Forall_lookup_1 in E; [|done].
  set (s1 := mkParser _ (S (pr_pos s)) _ _ _ _).
  specialize (HS t E s1 Hg). unfold tokens_left in *. specialize (HS ltac:(simpl; lia)).
  destruct (f (Some t) s1) as [[]|[b s2]]; [done|done|]. destruct HS as [H1 H2]. split; [done|]. simpl in H2. lia.
Qed.
(** A token seen and then taken. *)
Lemma bounded_peek_advance {B} n (f : option Tok → P B) (g : Tok → P B) :
  (∀ x s, f (Some x) s = (_ ← advance; g x) s ∨ bounded n (f (Some x))) →
  bounded n (f None) → (∀ x, bounded (pred n) (g x)) → bounded n (x ← peek; f x).
Proof.
  intros Hx HN HS s Hg Hn. unfold mbind at 1, P_bind at 1, peek, gets.
  destruct (pr_tokens s !! pr_pos s) as [t|] eqn:E; simpl; [|by apply HN].
  destruct (Hx (tok t) s) as [->|Hb]; [|by apply Hb].
  specialize (HS (tok t)). unfold mbind, P_bind, advance. rewrite E.
  pose proof (lookup_lt_Some _ _ _ E). set (s1 := mkParser _ (S (pr_pos s)) _ _ _ _).
  specialize (HS s1 Hg). unfold tokens_left in *. specialize (HS ltac:(simpl; lia)).
  destruct (g (tok t) s1) as [[]|[b s2]]; [done|done|]. destruct HS as [H1 H2]. split; [done|]. simpl in H2. lia.
Qed.
(** A loop that starts with a bound for the tokens left. *)
Lemma bounded_loop {A} n (f : nat → P A) :
  (∀ k, bounded k (f k)) → bounded n (λ s, f (S (tokens_left s)) s).
Proof. intros Hf s Hg _. apply Hf; [done|lia]. Qed.

Lemma err_at_good t m : good_token t → good_error (err_at t m).
Proof. done. Qed.

Create HintDb bounded discriminated.
#[local] Hint Resolve bounded_ret bounded_fail bounded_fail_here bounded_gets bounded_peek bounded_code_len
  bounded_start bounded_emit bounded_patch bounded_push_block bounded_pop_block err_at_good : bounded.

Ltac bounded_walk :=
  repeat (intros; match goal with
    | |- bounded _ (mbind _ advance) => apply bounded_advance
    | |- bounded _ (mbind _ _) => apply bounded_bind
    | |- bounded _ (let _ := _ in _) => cbv zeta
    | |- bounded _ (match ?x with _ => _ end) => destruct x eqn:?
    | |- bounded _ _ => solve [auto with bounded]
    end).

Lemma bounded_expect n t d : bounded n (expect t d).
Proof. unfold expect. bounded_walk. Qed.
Lemma bounded_need_capability n name t : good_token t → bounded n (need_capability name t).
Proof. intros Ht s _ _. unfold need_capability. by destruct (has_capability name s). Qed.
Lemma bounded_decode n v line col : bounded n (decode v line col).
Proof.
  intros s _ _. unfold decode. destruct (negb _); [done|]. destruct (decode_encoded_characters v); [|done].
  split; simpl; [|lia]. destruct (line =? 0) eqn:E; [done|]. apply Nat.eqb_neq in E. lia.
Qed.
#[local] Hint Resolve bounded_expect bounded_need_capability bounded_decode : bounded.
Lemma bounded_parse_string n : bounded n parse_string.
Proof. unfold parse_string. bounded_walk. Qed.
Lemma bounded_list_items n limit values : bounded n (list_items n limit values).
Proof.
  revert values. induction n as [|n IH]; intros values; cbn [list_items]; [intros s _ ?; lia|].
  bounded_walk. eapply bounded_le, IH. simpl. lia.
Qed.
#[local] Hint Resolve bounded_parse_string : bounded.
Lemma bounded_parse_raw_string_list n limits : bounded n (parse_raw_string_list limits).
Proof.
  unfold parse_raw_string_list. bounded_walk.
  apply (bounded_loop _ (λ k, list_items k _ [])). intros. apply bounded_list_items.
Qed.
Lemma bounded_decode_all n values : bounded n (decode_all values).
Proof. induction values; cbn [decode_all]; bounded_walk; auto with bounded. Qed.
#[local] Hint Resolve bounded_parse_raw_string_list bounded_decode_all : bounded.
Lemma bounded_parse_string_list n limits : bounded n (parse_string_list limits).
Proof. unfold parse_string_list. bounded_walk. Qed.
#[local] Hint Resolve bounded_parse_string_list : bounded.
Lemma bounded_parse_header_list n limits t : good_token t → bounded n (parse_header_list limits t).
Proof. unfold parse_header_list. bounded_walk. Qed.
Lemma bounded_match_tag n t b tags tag : good_token t → bounded n (match_tag t b tags tag).
Proof. unfold match_tag, unknown_tag. bounded_walk. Qed.
#[local] Hint Resolve bounded_parse_header_list bounded_match_tag : bounded.
Lemma bounded_match_tags n t b tags : good_token t → bounded n (match_tags n t b tags).
Proof.
  intros Ht. revert tags. induction n as [|n IH]; intros tags; cbn [match_tags]; [intros s _ ?; lia|].
  apply (bounded_peek_advance _ _ (λ x, tags' ← match_tag t b tags (if x is TTag tag then tag else []); match_tags n t b tags'));
    [|bounded_walk|bounded_walk; apply IH].
  intros [] s; try (right; apply bounded_ret). by left.
Qed.
Lemma bounded_parse_match_tags n t b : good_token t → bounded n (parse_match_tags t b).
Proof.
  intros Ht. unfold parse_match_tags. apply (bounded_loop n (λ k, tags ← match_tags k t b (mkTags None None None); _)).
  bounded_walk. by apply bounded_match_tags.
Qed.
Lemma bounded_size_tags n t over : good_token t → bounded n (size_tags n t over).
Proof.
  intros Ht. revert over. induction n as [|n IH]; intros over; cbn [size_tags]; [intros s _ ?; lia|].
  apply (bounded_peek_advance _ _ (λ x, let tag := if x is TTag tag then tag else [] in
    if bool_decide (tag = bs "over") || bool_decide (tag = bs "under") then
      match over return P (option bool) with
      | Some _ => fail (err_at t (bs "duplicate size tag"))
      | None => size_tags n t (Some (bool_decide (tag = bs "over")))
      end
    else fail (unknown_tag t tag))); [|bounded_walk|unfold unknown_tag; bounded_walk; apply IH].
  intros [] s; try (right; apply bounded_ret). by left.
Qed.
Lemma bounded_size_tags_all n t : good_token t → bounded n (λ s, size_tags (S (tokens_left s)) t None s).
Proof. intros Ht. apply (bounded_loop n (λ k, size_tags k t None)). intros. by apply bounded_size_tags. Qed.
Lemma bounded_envelope_parts n t names : good_token t → bounded n (of_compiled (envelope_parts t names)).
Proof.
  intros Ht s _ _. unfold of_compiled. assert (match envelope_parts t names with inl e => good_error e | inr _ => True end) as H.
  { induction names as [|name names IH]; simpl; [done|].
    repeat case_match; simplify_eq/=; try done; destruct (envelope_parts t names); simplify_eq/=; done. }
  by destruct (envelope_parts t names).
Qed.
#[local] Hint Resolve bounded_parse_match_tags bounded_size_tags_all bounded_envelope_parts : bounded.
Lemma bounded_emit_test n t : bounded n (emit_test t).
Proof. unfold emit_test. bounded_walk. Qed.
#[local] Hint Resolve bounded_emit_test : bounded.
Lemma bounded_parse_simple_test n limits word t negate : good_token t → bounded n (parse_simple_test limits word t negate).
Proof. unfold parse_simple_test. bounded_walk. Qed.
Lemma bounded_test_list n subtest is_all jumps :
  (∀ k, bounded k subtest) → bounded n (test_list n subtest is_all jumps).
Proof.
  intros Hs. revert jumps. induction n as [|n IH]; intros jumps; cbn [test_list]; [intros s _ ?; lia|].
  bounded_walk; auto.
Qed.
Lemma bounded_patch_all n js t : bounded n (patch_all js t).
Proof. induction js; cbn [patch_all]; bounded_walk; auto with bounded. Qed.
#[local] Hint Resolve bounded_parse_simple_test bounded_patch_all : bounded.
Lemma bounded_parse_test_expr n limits budget negate : bounded n (parse_test_expr limits budget negate).
Proof.
  revert n negate. induction budget as [|budget IH]; intros n negate; cbn [parse_test_expr]; bounded_walk; auto.
  apply (bounded_loop _ (λ k, test_list k (parse_test_expr limits budget negate) _ [])). intros k.
  apply bounded_test_list. intros. apply IH.
Qed.
Lemma bounded_parse_test n limits : bounded n (parse_test limits).
Proof. apply bounded_parse_test_expr. Qed.
Lemma bounded_require_all n t names : good_token t → bounded n (require_all t names).
Proof.
  intros Ht. induction names; cbn [require_all]; bounded_walk.
  intros s _ _. by destruct (has_capability a s).
Qed.
#[local] Hint Resolve bounded_parse_test bounded_require_all : bounded.
Lemma bounded_command n limits word t : good_token t → bounded n (command limits word t).
Proof. unfold command, simple_command. bounded_walk. Qed.
Lemma bounded_close_block n limits t : good_token t → bounded n (close_block limits t).
Proof. unfold close_block. bounded_walk. Qed.
#[local] Hint Resolve bounded_command bounded_close_block : bounded.
Lemma bounded_commands n limits : bounded n (commands limits n).
Proof.
  induction n as [|n IH]; cbn [commands]; [intros s _ ?; lia|]. bounded_walk.
Qed.

(** C34. Compiling always ends, in a script or in an error of the user's: no
    loop runs past the source, the [unreachable!] of the patching is not
    reached, and every error has a line and a column of the source, from 1. *)
Theorem sieve_compile_total limits source :
  match compile limits source with
  | inr _ => True
  | inl (Rejected e) => good_error e
  | inl Panicked => False
  end.
Proof.
  unfold compile. destruct (_ <? _); [split; simpl; lia|].
  pose proof (lex_good source limits) as Hl. destruct (lex source limits) as [|ts]; [done|].
  pose proof (compile_tokens_structured limits ts) as Hp. unfold compile_tokens in *.
  pose proof (bounded_commands (S (length ts)) limits (mkParser ts 0 [] [] false []) Hl) as Hb.
  specialize (Hb ltac:(unfold tokens_left; simpl; lia)).
  destruct (commands limits (S (length ts)) (mkParser ts 0 [] [] false [])) as [[]|[u s]]; [done|done|].
  destruct Hb as [Ht _]. destruct (blocks s); [done|]. apply here_good. by rewrite Ht.
Qed.
