(* ===== verification/Directory.v ===== *)
(** * The directory: domains, accounts, addresses and credentials

    Crate [directory]: the registries of domains ([domain_registry.rs]),
    accounts ([account_registry.rs]) and credentials
    ([credential_registry.rs]) and the address index ([address_index.rs]) are
    rows of the [Registry] subspace, written in batches that keep the records
    and their indexes together.  [mail/src/resolve.rs] reads them to route a
    recipient.

    A call that takes an id from the generator has the id as an argument.
    serde_json is the class [Json]. *)

From S2P Require Import Prelude Bytes Key Store Ids Text.
From stdpp Require Import base gmap list strings.
From Stdlib Require Import ZArith Lia.

Open Scope Z_scope.

(** ** account.rs *)

Inductive Role : Type := Admin | User.
#[global] Instance Role_eq_dec : EqDecision Role.
Proof. solve_decision. Defined.

Record Forwarding : Type := mkForwarding { fw_destinations : list bytes; fw_keep_local_copy : bool }.
Record VacationResponder : Type := mkVacation {
  va_enabled : bool; va_subject : bytes; va_body : bytes; va_active_from : option Z; va_active_to : option Z }.
Record Account : Type := mkAccount {
  ac_id : Z; ac_local_part : bytes; ac_domain_id : Z; ac_display_name : bytes; ac_enabled : bool; ac_role : Role;
  ac_aliases : list bytes; ac_forwarding : Forwarding; ac_quota_bytes : Z; ac_quota_messages : Z;
  ac_locale : bytes; ac_timezone : bytes; ac_signature : bytes; ac_vacation : VacationResponder; ac_created_at : Z }.

Definition is_active (a : Account) : bool := ac_enabled a.
Definition is_admin (a : Account) : bool := bool_decide (ac_role a = Admin).
Definition byte_quota (a : Account) : option Z := if ac_quota_bytes a =? 0 then None else Some (ac_quota_bytes a).
Definition message_quota (a : Account) : option Z :=
  if ac_quota_messages a =? 0 then None else Some (ac_quota_messages a).
(** [VacationResponder::is_active_at]. *)
Definition is_active_at (v : VacationResponder) (now : Z) : bool :=
  va_enabled v
  && match va_active_from v with Some from => negb (now <? from) | None => true end
  && match va_active_to v with Some to => negb (to <? now) | None => true end.

(** ** domain.rs *)

Inductive DnsRecordKind : Type := Mx | ARecord | Aaaa | Spf | Dkim | Dmarc | MtaSts | TlsRpt.
Inductive DnsStatus : Type :=
  | Unverified
  | Verified (checked_at : Z)
  | Failing (checked_at : Z) (missing : list DnsRecordKind).
Record Domain : Type := mkDomain {
  dm_id : Z; dm_name : bytes; dm_aliases : list bytes; dm_enabled : bool; dm_catch_all : option Z;
  dm_dkim_key_ids : list Z; dm_dns_status : DnsStatus; dm_created_at : Z }.

Definition matches_name (d : Domain) (name : bytes) : bool :=
  eq_ignore_ascii_case (dm_name d) name || existsb (λ alias, eq_ignore_ascii_case alias name) (dm_aliases d).

(** ** address.rs *)

Inductive Target : Type :=
  | ToAccount (account_id : Z)
  | ToForward (destination : bytes)
  | ToReject.
Record AddressEntry : Type := mkEntry { ae_address : bytes; ae_target : Target }.
Definition entry_account_id (e : AddressEntry) : option Z :=
  match ae_target e with ToAccount id => Some id | ToForward _ | ToReject => None end.
(** [AddressEntry::account], [forward] and [reject]. *)
Definition entry_account (address : bytes) (id : Z) : AddressEntry := mkEntry (to_ascii_lowercase address) (ToAccount id).
Definition entry_forward (address destination : bytes) : AddressEntry :=
  mkEntry (to_ascii_lowercase address) (ToForward destination).
Definition entry_reject (address : bytes) : AddressEntry := mkEntry (to_ascii_lowercase address) ToReject.

(** ** credential.rs *)

Record EncryptedSecret : Type := mkSecret { es_nonce : bytes; es_ciphertext : bytes }.
Record PrimaryPassword : Type := mkPrimary { pp_hash : bytes; pp_updated_at : Z }.
Record Totp : Type := mkTotp {
  totp_secret : EncryptedSecret; totp_enabled : bool; totp_recovery_codes : list bytes; totp_enrolled_at : Z }.
Record AppPassword : Type := mkAppPassword {
  ap_id : Z; ap_name : bytes; ap_hash : bytes; ap_created_at : Z; ap_last_used_at : option Z }.
Record ApiKey : Type := mkApiKey {
  ak_id : Z; ak_name : bytes; ak_secret : EncryptedSecret; ak_created_at : Z; ak_last_used_at : option Z }.
Inductive Credential : Type :=
  | CPrimaryPassword (p : PrimaryPassword)
  | CTotp (t : Totp)
  | CAppPassword (p : AppPassword)
  | CApiKey (k : ApiKey).

(** ** Rows *)

(** serde_json on a type of row. *)
Class Json (A : Type) : Type := {
  to_json : A → string + bytes;
  of_json : bytes → string + A;
}.
(** Writing succeeds and is undone by reading. *)
Class JsonLaws (A : Type) `{Json A} : Prop :=
  json_roundtrip (a : A) : ∃ b, to_json a = inr b ∧ of_json b = inr a.

Class DirectoryJson : Type := {
  json_account :: Json Account;
  json_domain :: Json Domain;
  json_entry :: Json AddressEntry;
  json_credentials :: Json (list Credential);
}.
Class DirectoryJsonLaws `{DirectoryJson} : Prop := {
  json_account_laws :: JsonLaws Account;
  json_domain_laws :: JsonLaws Domain;
  json_entry_laws :: JsonLaws AddressEntry;
  json_credentials_laws :: JsonLaws (list Credential);
}.

(** The functions [encode] and [decode] of each registry. *)
Definition encode_row {A} `{Json A} (what : string) (a : A) : result bytes :=
  match to_json a with inr b => Ok b | inl e => Err (Serialize ("could not encode " ++ what ++ ": " ++ e)) end.
Definition decode_row {A} `{Json A} (what : string) (b : bytes) : result A :=
  match of_json b with inr a => Ok a | inl e => Err (Serialize ("could not decode " ++ what ++ ": " ++ e)) end.

(** A [String] inside a message. *)
Definition text (b : bytes) : string :=
  String.string_of_list_ascii ((λ x, Ascii.ascii_of_N (Z.to_N x)) <$> b).

Definition TAG_DOMAIN_RECORD : Z := 16.
Definition TAG_DOMAIN_NAME : Z := 17.
Definition TAG_ACCOUNT_RECORD : Z := 32.
Definition TAG_ACCOUNT_ADDRESS : Z := 33.
Definition TAG_CREDENTIAL : Z := 34.
Definition TAG_ADDRESS_ENTRY : Z := 48.

Definition domain_record_key (id : Z) : bytes := [subspace_as_byte Registry; TAG_DOMAIN_RECORD] ++ u64_be id.
Definition name_key (name : bytes) : bytes := [subspace_as_byte Registry; TAG_DOMAIN_NAME] ++ name.
Definition account_record_key (id : Z) : bytes := [subspace_as_byte Registry; TAG_ACCOUNT_RECORD] ++ u64_be id.
Definition address_key (domain_id : Z) (local_part : bytes) : bytes :=
  [subspace_as_byte Registry; TAG_ACCOUNT_ADDRESS] ++ u64_be domain_id ++ local_part.
Definition credential_key (account_id : Z) : bytes := [subspace_as_byte Registry; TAG_CREDENTIAL] ++ u64_be account_id.
Definition entry_key (address : bytes) : bytes := [subspace_as_byte Registry; TAG_ADDRESS_ENTRY] ++ address.

(** [is_record_key] of both registries, and [is_entry_key]. *)
Definition is_record_key (tag : Z) (key : bytes) : bool :=
  (length key =? 10)%nat && bool_decide (key !! 0%nat = Some (subspace_as_byte Registry)) && bool_decide (key !! 1%nat = Some tag).
Definition is_entry_key (key : bytes) : bool :=
  (2 <? length key)%nat && bool_decide (key !! 0%nat = Some (subspace_as_byte Registry))
  && bool_decide (key !! 1%nat = Some TAG_ADDRESS_ENTRY).

Definition normalize_local_part (s : bytes) : bytes := to_ascii_lowercase (str_trim s).
Definition normalize_address (s : bytes) : bytes := to_ascii_lowercase (str_trim s).
Definition trim_end_dots (s : bytes) : bytes := reverse (drop_while (λ b, b =? 46) (reverse s)).
Definition normalize_name (s : bytes) : bytes := to_ascii_lowercase (trim_end_dots (str_trim s)).
Definition is_blank (s : bytes) : bool := bool_decide (str_trim s = []).
Definition catch_all_address (domain : bytes) : bytes := 64 :: domain.
Definition full_address (local_part name : bytes) : bytes := local_part ++ [64] ++ name.

Section registries.
Context {S : Type} `{Store S} `{DirectoryJson}.
Implicit Types (s : S).

(** An id stored big-endian in an index row. *)
Definition lookup_id (key : bytes) (corrupt : string) s : result (option Z) :=
  v ← st_get key s;
  match v with
  | Some b => if (length b =? 8)%nat then Ok (Some (of_be_bytes b)) else Err (StoreError corrupt)
  | None => Ok None
  end.
Definition lookup_id_by_name (name : bytes) s : result (option Z) :=
  lookup_id (name_key name) ("domain name index for " ++ text name ++ " is corrupt") s.
Definition lookup_id_by_address (domain_id : Z) (local_part : bytes) s : result (option Z) :=
  lookup_id (address_key domain_id local_part)
    ("account address index for " ++ text local_part ++ " in domain " ++ text (fmt_dec domain_id) ++ " is corrupt") s.

(** A scan of the records of one registry. *)
Definition records_visit {A} `{Json A} (what : string) (is_key : bytes → bool) (keep : A → bool)
    (acc : list A * option Error) (key value : bytes) : result ((list A * option Error) * Flow) :=
  if negb (is_key key) then Ok (acc, Continue)
  else
    match decode_row what value with
    | Ok x => Ok ((if keep x then acc.1 ++ [x] else acc.1, acc.2), Continue)
    | Err e => Ok ((acc.1, Some e), Stop)
    end.
Definition collect_records {A} `{Json A} (what : string) (is_key : bytes → bool) (keep : A → bool) s : result (list A) :=
  acc ← st_iterate (kp_subspace Registry) (records_visit what is_key keep) ([], None) s;
  match acc.2 with Some e => Err e | None => Ok acc.1 end.

(** *** AddressIndex *)

Definition entry_set (entry : AddressEntry) : M S unit :=
  if is_blank (ae_address entry) then throw (InvalidInput "an address-index entry must name an address")
  else b ← lift (encode_row "address entry" entry); st_put (entry_key (ae_address entry)) b.
Definition entry_at (address : bytes) s : result (option AddressEntry) :=
  v ← st_get (entry_key address) s;
  match v with
  | Some b => e ← decode_row "address entry" b; Ok (Some e)
  | None => Ok None
  end.
Definition resolve_entry (address : bytes) s : result (option AddressEntry) := entry_at (normalize_address address) s.
Definition entry_remove (address : bytes) : M S unit := st_delete (entry_key (normalize_address address)).

(** The conflict check of [account_address_ops]. *)
Fixpoint check_free (account_id : Z) (previous current : list bytes) s : result unit :=
  match current with
  | [] => Ok tt
  | address :: current =>
      if bool_decide (address ∈ previous) then check_free account_id previous current s
      else
        entry ← resolve_entry address s;
        match entry with
        | Some e =>
            if bool_decide (entry_account_id e = Some account_id) then check_free account_id previous current s
            else Err (InvalidInput ("the address " ++ text address ++ " is already in use"))
        | None => check_free account_id previous current s
        end
  end.
Definition account_entry_op (address : bytes) (account_id : Z) : result WriteOp :=
  let address := normalize_address address in
  b ← encode_row "address entry" (mkEntry address (ToAccount account_id)); Ok (WSet (entry_key address) b).
Fixpoint entry_set_ops (account_id : Z) (current : list bytes) : result (list WriteOp) :=
  match current with
  | [] => Ok []
  | address :: current =>
      b ← encode_row "address entry" (mkEntry address (ToAccount account_id));
      ops ← entry_set_ops account_id current;
      Ok (WSet (entry_key address) b :: ops)
  end.
Definition account_address_ops (account_id : Z) (previous current : list bytes) s : result (list WriteOp) :=
  let current : list bytes := normalize_address <$> current in
  let previous : list bytes := normalize_address <$> previous in
  if existsb (λ a : bytes, bool_decide (a = [])) current || existsb (λ a : bytes, bool_decide (a = [])) previous
  then Err (InvalidInput "an account address must not be blank")
  else
    _ ← check_free account_id previous current s;
    sets ← entry_set_ops account_id current;
    Ok (((λ a : bytes, WDelete (entry_key a)) <$> filter (λ a, a ∉ current) previous) ++ sets).
Definition set_account_addresses (account_id : Z) (previous current : list bytes) : M S unit :=
  ops ← reads (account_address_ops account_id previous current); st_batch ops.

Definition remove_entry_op (address : bytes) : WriteOp := WDelete (entry_key (normalize_address address)).
Definition set_catch_all_op (domain : bytes) (account_id : Z) : result WriteOp :=
  let domain := normalize_address domain in
  if bool_decide (domain = []) then Err (InvalidInput "a catch-all must name a domain")
  else account_entry_op (catch_all_address domain) account_id.
Definition clear_catch_all_op (domain : bytes) : WriteOp :=
  remove_entry_op (catch_all_address (normalize_address domain)).
Definition set_catch_all (domain : bytes) (account_id : Z) : M S unit :=
  op ← lift (set_catch_all_op domain account_id); st_batch [op].
Definition catch_all (domain : bytes) s : result (option AddressEntry) :=
  entry_at (catch_all_address (normalize_address domain)) s.
Definition clear_catch_all (domain : bytes) : M S unit := st_batch [clear_catch_all_op domain].
Definition entries_list s : result (list AddressEntry) := collect_records "address entry" is_entry_key (λ _, true) s.

(** *** DomainRegistry, the part accounts need *)

Definition domain_get (id : Z) s : result Domain :=
  v ← st_get (domain_record_key id) s;
  match v with
  | Some b => decode_row "domain" b
  | None => Err (NotFound ("domain " ++ text (fmt_dec id)))
  end.
Definition domains_list s : result (list Domain) :=
  collect_records "domain" (is_record_key TAG_DOMAIN_RECORD) (λ _, true) s.
Definition get_by_name (name : bytes) s : result (option Domain) :=
  let name := normalize_name name in
  id ← lookup_id_by_name name s;
  match id with
  | Some id => d ← domain_get id s; Ok (Some d)
  | None => ds ← domains_list s; Ok (List.find (λ d, matches_name d name) ds)
  end.
Definition canonical_name (name : bytes) s : result (option bytes) :=
  d ← get_by_name name s; Ok (option_map dm_name d).

(** *** AccountRegistry *)

(** [AddressMaintenance::addresses_of]. *)
Definition addresses_of (a : Account) s : list bytes :=
  filter (λ alias, is_blank alias = false) (ac_aliases a)
  ++ match domain_get (ac_domain_id a) s with
     | Ok d => [full_address (ac_local_part a) (dm_name d)]
     | Err _ => []
     end.
Definition account_get (id : Z) s : result Account :=
  v ← st_get (account_record_key id) s;
  match v with
  | Some b => decode_row "account" b
  | None => Err (NotFound ("account " ++ text (fmt_dec id)))
  end.
Definition get_by_address (local_part : bytes) (domain_id : Z) s : result (option Account) :=
  id ← lookup_id_by_address domain_id (normalize_local_part local_part) s;
  match id with
  | Some id => a ← account_get id s; Ok (Some a)
  | None => Ok None
  end.
Definition collect_accounts (keep : Account → bool) s : result (list Account) :=
  collect_records "account" (is_record_key TAG_ACCOUNT_RECORD) keep s.
Definition accounts_list s : result (list Account) := collect_accounts (λ _, true) s.
Definition list_for_domain (domain_id : Z) s : result (list Account) :=
  collect_accounts (λ a, ac_domain_id a =? domain_id) s.

Definition account_exists_error (a : Account) : Error :=
  InvalidInput ("an account " ++ text (ac_local_part a) ++ " already exists in domain " ++ text (fmt_dec (ac_domain_id a))).
Definition new_account (id : Z) (local_part : bytes) (domain_id : Z) (display_name : bytes) (role : Role) : Account :=
  mkAccount id local_part domain_id display_name true role [] (mkForwarding [] false) 0 0 [] [] []
    (mkVacation false [] [] None None) (as_u64 (timestamp_of id * 1000)).

(** [create_with_extra_ops]: [id] is the id generated. *)
Definition create_with_extra_ops (id : Z) (local_part : bytes) (domain_id : Z) (display_name : bytes) (role : Role)
    (extra_ops : Z → Z → list WriteOp) : M S Account :=
  let local_part := normalize_local_part local_part in
  let a := new_account id local_part domain_id display_name role in
  if bool_decide (local_part = []) then throw (InvalidInput "an account local part must not be empty")
  else
    taken ← reads (lookup_id_by_address domain_id local_part);
    match taken with
    | Some _ => throw (account_exists_error a)
    | None =>
        record ← lift (encode_row "account" a);
        maintained ← reads (λ s, account_address_ops id [] (addresses_of a s) s);
        _ ← st_batch ([WSet (account_record_key id) record; WSet (address_key domain_id local_part) (u64_be id)]
                      ++ extra_ops id (ac_created_at a) ++ maintained);
        mret a
    end.
Definition account_create (id : Z) (local_part : bytes) (domain_id : Z) (display_name : bytes) (role : Role) : M S Account :=
  create_with_extra_ops id local_part domain_id display_name role (λ _ _, []).

(** What [update] writes: the local part normalised, blank aliases gone. *)
Definition tidy_account (a : Account) : Account :=
  mkAccount (ac_id a) (normalize_local_part (ac_local_part a)) (ac_domain_id a) (ac_display_name a) (ac_enabled a)
    (ac_role a) (filter (λ alias, is_blank alias = false) (ac_aliases a)) (ac_forwarding a) (ac_quota_bytes a)
    (ac_quota_messages a) (ac_locale a) (ac_timezone a) (ac_signature a) (ac_vacation a) (ac_created_at a).

(** The index rows of [update], when the address changed. *)
Definition readdress_ops (existing a : Account) s : result (list WriteOp) :=
  if bool_decide (ac_local_part a = ac_local_part existing) && (ac_domain_id a =? ac_domain_id existing) then Ok []
  else
    other ← lookup_id_by_address (ac_domain_id a) (ac_local_part a) s;
    match other with
    | Some other =>
        if other =? ac_id a
        then Ok [WDelete (address_key (ac_domain_id existing) (ac_local_part existing));
                 WSet (address_key (ac_domain_id a) (ac_local_part a)) (u64_be (ac_id a))]
        else Err (account_exists_error a)
    | None => Ok [WDelete (address_key (ac_domain_id existing) (ac_local_part existing));
                  WSet (address_key (ac_domain_id a) (ac_local_part a)) (u64_be (ac_id a))]
    end.
Definition account_update (a : Account) : M S unit :=
  existing ← reads (account_get (ac_id a));
  let a := tidy_account a in
  if bool_decide (ac_local_part a = []) then throw (InvalidInput "an account local part must not be empty")
  else
    record ← lift (encode_row "account" a);
    moved ← reads (readdress_ops existing a);
    maintained ← reads (λ s, account_address_ops (ac_id a) (addresses_of existing s) (addresses_of a s) s);
    st_batch (WSet (account_record_key (ac_id a)) record :: moved ++ maintained).
Definition account_delete (id : Z) : M S unit :=
  a ← reads (account_get id);
  maintained ← reads (λ s, account_address_ops id (addresses_of a s) [] s);
  st_batch ([WDelete (account_record_key id); WDelete (address_key (ac_domain_id a) (ac_local_part a))] ++ maintained).

(** *** DomainRegistry *)

Definition tidy_aliases (aliases : list bytes) : list bytes :=
  filter (λ alias, alias ≠ []) (normalize_name <$> aliases).
Definition domain_exists_error (name : bytes) : Error := InvalidInput ("a domain named " ++ text name ++ " already exists").
Definition domain_create (id : Z) (name : bytes) (aliases : list bytes) : M S Domain :=
  let name := normalize_name name in
  if bool_decide (name = []) then throw (InvalidInput "a domain name must not be empty")
  else
    taken ← reads (lookup_id_by_name name);
    match taken with
    | Some _ => throw (domain_exists_error name)
    | None =>
        let d := mkDomain id name (tidy_aliases aliases) true None [] Unverified (as_u64 (timestamp_of id * 1000)) in
        record ← lift (encode_row "domain" d);
        _ ← st_batch [WSet (domain_record_key id) record; WSet (name_key name) (u64_be id)];
        mret d
    end.

(** [catch_all_ops]. *)
Definition catch_all_ops (previous current : Domain) : result (list WriteOp) :=
  let cleared := match dm_catch_all previous with Some _ => [clear_catch_all_op (dm_name previous)] | None => [] end in
  match dm_catch_all current with
  | Some account_id => op ← set_catch_all_op (dm_name current) account_id; Ok (cleared ++ [op])
  | None => Ok cleared
  end.

(** [rekey_primary_ops], over the accounts of the domain. *)
Fixpoint rekey_ops (old_name new_name : bytes) (accounts : list Account) s : result (list WriteOp) :=
  match accounts with
  | [] => Ok []
  | a :: accounts =>
      let old_address := full_address (ac_local_part a) old_name in
      let new_address := full_address (ac_local_part a) new_name in
      entry ← resolve_entry new_address s;
      _ ← match entry with
          | Some e =>
              if bool_decide (entry_account_id e = Some (ac_id a)) then Ok tt
              else Err (InvalidInput ("the address " ++ text new_address ++ " is already in use"))
          | None => Ok tt
          end;
      op ← account_entry_op new_address (ac_id a);
      ops ← rekey_ops old_name new_name accounts s;
      Ok (remove_entry_op old_address :: op :: ops)
  end.
Definition rekey_primary_ops (old_name new_name : bytes) (domain_id : Z) s : result (list WriteOp) :=
  accounts ← list_for_domain domain_id s; rekey_ops old_name new_name accounts s.

Definition tidy_domain (d : Domain) : Domain :=
  mkDomain (dm_id d) (normalize_name (dm_name d)) (tidy_aliases (dm_aliases d)) (dm_enabled d) (dm_catch_all d)
    (dm_dkim_key_ids d) (dm_dns_status d) (dm_created_at d).
(** The index rows of [update], when the name changed. *)
Definition rename_ops (existing d : Domain) s : result (list WriteOp) :=
  if bool_decide (dm_name d = dm_name existing) then Ok []
  else
    other ← lookup_id_by_name (dm_name d) s;
    _ ← match other with
        | Some other => if other =? dm_id d then Ok tt else Err (domain_exists_error (dm_name d))
        | None => Ok tt
        end;
    rekeyed ← rekey_primary_ops (dm_name existing) (dm_name d) (dm_id d) s;
    Ok ([WDelete (name_key (dm_name existing)); WSet (name_key (dm_name d)) (u64_be (dm_id d))] ++ rekeyed).
Definition domain_update (d : Domain) : M S unit :=
  existing ← reads (domain_get (dm_id d));
  let d := tidy_domain d in
  if bool_decide (dm_name d = []) then throw (InvalidInput "a domain name must not be empty")
  else
    record ← lift (encode_row "domain" d);
    renamed ← reads (rename_ops existing d);
    catch ← lift (catch_all_ops existing d);
    st_batch (WSet (domain_record_key (dm_id d)) record :: renamed ++ catch).
Definition domain_delete (id : Z) : M S unit :=
  d ← reads (domain_get id);
  members ← reads (list_for_domain id);
  match members with
  | _ :: _ => throw (InvalidInput ("the domain " ++ text (dm_name d) ++ " still has accounts"))
  | [] =>
      st_batch ([WDelete (domain_record_key id); WDelete (name_key (dm_name d))]
                ++ match dm_catch_all d with Some _ => [clear_catch_all_op (dm_name d)] | None => [] end)
  end.

(** *** CredentialRegistry *)

Definition credentials_list (account_id : Z) s : result (list Credential) :=
  v ← st_get (credential_key account_id) s;
  match v with
  | Some b => decode_row "credentials" b
  | None => Ok []
  end.
Definition credentials_write (account_id : Z) (credentials : list Credential) : M S unit :=
  match credentials with
  | [] => st_batch [WDelete (credential_key account_id)]
  | _ => b ← lift (encode_row "credentials" credentials); st_batch [WSet (credential_key account_id) b]
  end.
Definition is_primary (c : Credential) : bool := match c with CPrimaryPassword _ => true | _ => false end.
Definition is_totp (c : Credential) : bool := match c with CTotp _ => true | _ => false end.
(** [now_ms]: from the id generated. *)
Definition set_primary_password (account_id id : Z) (hash : bytes) : M S unit :=
  credentials ← reads (credentials_list account_id);
  credentials_write account_id
    (filter (λ c, is_primary c = false) credentials
     ++ [CPrimaryPassword (mkPrimary hash (as_u64 (timestamp_of id * 1000)))]).
Definition add_app_password (account_id : Z) (p : AppPassword) : M S unit :=
  credentials ← reads (credentials_list account_id);
  credentials_write account_id (credentials ++ [CAppPassword p]).
Definition list_app_passwords (account_id : Z) s : result (list AppPassword) :=
  match credentials_list account_id s with
  | Ok credentials => Ok (omap (λ c, match c with CAppPassword p => Some p | _ => None end) credentials)
  | Err e => Err e
  end.
Definition is_app_password (id : Z) (c : Credential) : bool :=
  match c with CAppPassword p => ap_id p =? id | _ => false end.
Definition revoke_app_password (account_id id : Z) : M S bool :=
  credentials ← reads (credentials_list account_id);
  let kept := filter (λ c, is_app_password id c = false) credentials in
  if (length kept =? length credentials)%nat then mret false
  else _ ← credentials_write account_id kept; mret true.
Definition set_totp (account_id : Z) (t : Totp) : M S unit :=
  credentials ← reads (credentials_list account_id);
  credentials_write account_id (filter (λ c, is_totp c = false) credentials ++ [CTotp t]).
Definition clear_totp (account_id : Z) : M S unit :=
  credentials ← reads (credentials_list account_id);
  let kept := filter (λ c, is_totp c = false) credentials in
  if (length kept =? length credentials)%nat then mret tt else credentials_write account_id kept.
Definition remove_all (account_id : Z) : M S unit := st_batch [WDelete (credential_key account_id)].

(** ** mail/src/resolve.rs *)

Inductive Resolution : Type :=
  | RLocal (account_id : Z) (via_catch_all : bool)
  | RForward (destination : bytes)
  | RRejected
  | RUnknown.

(** [canonical_recipient]: the domain's own name in place of an alias. *)
Definition canonical_recipient (recipient : bytes) s : bytes :=
  let trimmed := str_trim recipient in
  match rsplit_once 64 trimmed with
  | None => trimmed
  | Some (local, domain) =>
      if is_blank domain then trimmed
      else
        match canonical_name domain s with
        | Ok (Some canonical) =>
            if eq_ignore_ascii_case canonical domain then trimmed else full_address local canonical
        | _ => trimmed
        end
  end.
Definition domain_of (address : bytes) : option bytes :=
  match rsplit_once 64 address with
  | Some (_, domain) => if is_blank domain then None else Some domain
  | None => None
  end.
Definition min_id (acc : option Z) (id : Z) : option Z :=
  Some (match acc with Some m => Z.min m id | None => id end).
Definition admin_of (accounts : list Account) : option Z :=
  foldl min_id None (ac_id <$> filter (λ a, is_admin a && ac_enabled a = true) accounts).
Definition role_fallback (recipient : bytes) s : result (option Z) :=
  let '(local, domain) :=
    match rsplit_once 64 recipient with
    | Some (local, domain) => (local, Some domain)
    | None => (recipient, None)
    end in
  let is_postmaster := eq_ignore_ascii_case local (bs "postmaster") in
  let is_role := is_postmaster || eq_ignore_ascii_case local (bs "tlsrpt") in
  let any := accounts ← accounts_list s; Ok (admin_of accounts) in
  match domain with
  | Some domain =>
      if negb is_role then Ok None
      else
        d ← get_by_name domain s;
        match d with
        | None => Ok None
        | Some d =>
            members ← list_for_domain (dm_id d) s;
            match admin_of members with Some admin => Ok (Some admin) | None => any end
        end
  | None => if is_postmaster then any else Ok None
  end.

Definition resolve_fallback (recipient : bytes) s : result Resolution :=
  id ← role_fallback recipient s;
  Ok (match id with Some id => RLocal id false | None => RUnknown end).
Definition resolve (recipient : bytes) s : result Resolution :=
  let recipient := canonical_recipient recipient s in
  entry ← resolve_entry recipient s;
  match entry with
  | Some e =>
      Ok (match ae_target e with ToAccount id => RLocal id false | ToForward d => RForward d | ToReject => RRejected end)
  | None =>
      match domain_of recipient with
      | None => resolve_fallback recipient s
      | Some domain =>
          entry ← catch_all domain s;
          match entry with
          | Some (mkEntry _ (ToAccount id)) => Ok (RLocal id true)
          | _ => resolve_fallback recipient s
          end
      end
  end.
End registries.
