(* ===== verification/Login.v ===== *)
(** * Logging in (crates/directory/src/login.rs, authenticate.rs, throttle.rs)

    [attempt_login] finds the account of an address, checks the secret
    against the account's credentials and counts failures per address of the
    client and per account in the in-memory [TtlStore].  Argon2 is the class
    [Argon2]; the monotonic clock is a sequence of readings, and every call
    that looks at the clock takes the next one.

    The theorems: a login is granted exactly to an active account whose
    eligible credential the secret matches, and guesses are bounded per
    window. *)

From S2P Require Import Prelude Bytes Key Store Text Ttl Directory.
From stdpp Require Import base gmap list strings.
From Stdlib Require Import ZArith Lia.

Open Scope Z_scope.

(** ** password.rs *)

Inductive Argon2Outcome : Type :=
  | HashMalformed (e : string)
  | Matches
  | WrongPassword
  | VerifyFailed (e : string).
(** [PasswordHash::new] and [verify_password] on a stored hash, and
    [hash_password] with the salt drawn. *)
Class Argon2 : Type := {
  argon2_verify : bytes → bytes → Argon2Outcome;
  argon2_hash : bytes → bytes → string + bytes;
}.
Section password.
Context `{Argon2}.
Definition password_hash (salt password : bytes) : result bytes :=
  match argon2_hash salt password with
  | inr hash => Ok hash
  | inl e => Err (Internal ("password hashing failed: " ++ e))
  end.
Definition password_verify (password stored : bytes) : result bool :=
  match argon2_verify password stored with
  | HashMalformed e => Err (Internal ("stored password hash is malformed: " ++ e))
  | Matches => Ok true
  | WrongPassword => Ok false
  | VerifyFailed e => Err (Internal ("password verification failed: " ++ e))
  end.
End password.

(** ** authenticate.rs *)

Inductive LoginPurpose : Type := Interactive | Mail.
#[global] Instance LoginPurpose_eq_dec : EqDecision LoginPurpose.
Proof. solve_decision. Defined.
Definition allows_app_password (p : LoginPurpose) : bool := bool_decide (p = Mail).

Inductive AuthenticatedBy : Type :=
  | ByPrimaryPassword (mfa_required : bool)
  | ByAppPassword (id : Z).
Inductive Authentication : Type := AuthGranted (by_ : AuthenticatedBy) | AuthDenied.

Definition has_enabled_totp (credentials : list Credential) : bool :=
  existsb (λ c, match c with CTotp t => totp_enabled t | _ => false end) credentials.

Section authenticate.
Context `{Argon2}.

(** The loop: every eligible hash is verified, the first match counts. *)
Fixpoint authenticate_loop (all : list Credential) (purpose : LoginPurpose) (secret : bytes)
    (matched : option AuthenticatedBy) (credentials : list Credential) : result (option AuthenticatedBy) :=
  match credentials with
  | [] => Ok matched
  | CPrimaryPassword primary :: credentials =>
      ok ← password_verify secret (pp_hash primary);
      let found := if (ok : bool) && bool_decide (matched = None)
                   then Some (ByPrimaryPassword (bool_decide (purpose = Interactive) && has_enabled_totp all))
                   else matched in
      authenticate_loop all purpose secret found credentials
  | CAppPassword app :: credentials =>
      if allows_app_password purpose then
        ok ← password_verify secret (ap_hash app);
        let found := if (ok : bool) && bool_decide (matched = None) then Some (ByAppPassword (ap_id app)) else matched in
        authenticate_loop all purpose secret found credentials
      else authenticate_loop all purpose secret matched credentials
  | (CTotp _ | CApiKey _) :: credentials => authenticate_loop all purpose secret matched credentials
  end.
Definition authenticate (a : Account) (credentials : list Credential) (purpose : LoginPurpose) (secret : bytes)
  : result Authentication :=
  if negb (is_active a) then Ok AuthDenied
  else
    matched ← authenticate_loop credentials purpose secret None credentials;
    Ok (match matched with Some by_ => AuthGranted by_ | None => AuthDenied end).
End authenticate.

(** ** throttle.rs *)

Definition KEY_PREFIX : bytes := bs "auth-throttle:".
Definition SUBJECT_IP : bytes := bs "ip:".
Definition SUBJECT_ACCOUNT : bytes := bs "account:".
Definition DEFAULT_MAX_FAILURES : Z := 5.
Definition DEFAULT_WINDOW : Z := 15 * 60 * 10 ^ 9.
Record ThrottlePolicy : Type := mkPolicy { max_failures : Z; tp_window : Z }.
Definition policy_new (max_failures window : Z) : ThrottlePolicy := mkPolicy (Z.max max_failures 1) window.
Definition default_policy : ThrottlePolicy := mkPolicy DEFAULT_MAX_FAILURES DEFAULT_WINDOW.
Definition ip_key (ip : bytes) : bytes := KEY_PREFIX ++ SUBJECT_IP ++ ip.
Definition account_key (account_id : Z) : bytes := KEY_PREFIX ++ SUBJECT_ACCOUNT ++ u64_be account_id.

(** The throttle's cells and the number of readings of the clock so far. *)
Record Throttle : Type := mkThrottle { th_cells : TtlStore; th_ticks : nat }.

Section throttle.
Context (policy : ThrottlePolicy) (clk : nat → Z).

(** A call of the [TtlStore] that reads the clock. *)
Definition timed {A} (f : Z → TtlStore → A * TtlStore) (t : Throttle) : A * Throttle :=
  let '(a, cells) := f (clk (th_ticks t)) (th_cells t) in (a, mkThrottle cells (S (th_ticks t))).

Definition th_count (key : bytes) (t : Throttle) : Z * Throttle :=
  let '(v, t) := timed (ttl_get key) t in (count_of v, t).
Definition bump (key : bytes) (t : Throttle) : Throttle :=
  let '(n, t) := th_count key t in
  let next := saturating_add_u32 n 1 in
  (timed (λ now st, (tt, ttl_set key (u32_be next) (tp_window policy) now st)) t).2.

(** What a failure or a success is counted under. *)
Definition subject_keys (ip : option bytes) (account_id : option Z) : list bytes :=
  match ip with Some ip => [ip_key ip] | None => [] end
  ++ match account_id with Some id => [account_key id] | None => [] end.
Definition record_failure (ip : option bytes) (account_id : option Z) (t : Throttle) : Throttle :=
  foldl (λ t key, bump key t) t (subject_keys ip account_id).
Definition record_success (ip : option bytes) (account_id : option Z) (t : Throttle) : Throttle :=
  foldl (λ t key, (timed (ttl_remove key) t).2) t (subject_keys ip account_id).
(** Both counts are read, whatever the first says. *)
Fixpoint any_locked (keys : list bytes) (t : Throttle) : bool * Throttle :=
  match keys with
  | [] => (false, t)
  | key :: keys =>
      let '(n, t) := th_count key t in
      let '(rest, t) := any_locked keys t in
      ((max_failures policy <=? n) || rest, t)
  end.
Definition is_locked (ip : option bytes) (account_id : option Z) (t : Throttle) : bool * Throttle :=
  any_locked (subject_keys ip account_id) t.
End throttle.

(** ** login.rs *)

Inductive LoginAttempt : Type :=
  | Granted (a : Account) (by_ : AuthenticatedBy)
  | Denied
  | Throttled.

Section login.
Context {S : Type} `{Store S} `{DirectoryJson} `{Argon2}.
Context (policy : ThrottlePolicy) (clk : nat → Z).

(** [resolve]: the account of a login name. *)
Definition login_account (username : bytes) (s : S) : result (option Account) :=
  match rsplit_once 64 username with
  | None => Ok None
  | Some (local_part, domain_name) =>
      d ← get_by_name domain_name s;
      match d with
      | None => Ok None
      | Some d => get_by_address local_part (dm_id d) s
      end
  end.

(** [attempt_login]: the store is read, the throttle is written.  A failed
    [verify_dummy] is not seen by anyone. *)
Definition attempt_login (ip : option bytes) (username secret : bytes) (purpose : LoginPurpose) (s : S)
  : M Throttle LoginAttempt := λ t,
  let '(locked, t) := is_locked policy clk ip None t in
  if (locked : bool) then (Ok Throttled, t)
  else
    match login_account username s with
    | Err e => (Err e, t)
    | Ok None => (Ok Denied, record_failure policy clk ip None t)
    | Ok (Some a) =>
        let '(locked, t) := is_locked policy clk ip (Some (ac_id a)) t in
        if (locked : bool) then (Ok Throttled, t)
        else
          match (stored ← credentials_list (ac_id a) s; authenticate a stored purpose secret) with
          | Err e => (Err e, t)
          | Ok (AuthGranted by_) => (Ok (Granted a by_), record_success clk ip (Some (ac_id a)) t)
          | Ok AuthDenied => (Ok Denied, record_failure policy clk ip (Some (ac_id a)) t)
          end
    end.
End login.

(** ** What the credentials grant *)

Section exact.
Context {S : Type} `{Store S} `{DirectoryJson} `{Argon2}.

(** The hash a credential is checked with, if it can open this kind of session. *)
Definition eligible_hash (purpose : LoginPurpose) (c : Credential) : option bytes :=
  match c with
  | CPrimaryPassword p => Some (pp_hash p)
  | CAppPassword p => if allows_app_password purpose then Some (ap_hash p) else None
  | CTotp _ | CApiKey _ => None
  end.
Definition opens (purpose : LoginPurpose) (secret : bytes) (c : Credential) : bool :=
  match eligible_hash purpose c with
  | Some h => match argon2_verify secret h with Matches => true | _ => false end
  | None => false
  end.
(** Argon2 gives a verdict on every hash that is checked. *)
Definition readable (purpose : LoginPurpose) (secret : bytes) (c : Credential) : bool :=
  match eligible_hash purpose c with Some h => is_ok (password_verify secret h) | None => true end.
Definition grant (all : list Credential) (purpose : LoginPurpose) (c : Credential) : AuthenticatedBy :=
  match c with
  | CAppPassword p => ByAppPassword (ap_id p)
  | _ => ByPrimaryPassword (bool_decide (purpose = Interactive) && has_enabled_totp all)
  end.

Lemma authenticate_loop_cons all purpose secret matched c cs :
  authenticate_loop all purpose secret matched (c :: cs) =
  match eligible_hash purpose c with
  | Some h =>
      ok ← password_verify secret h;
      authenticate_loop all purpose secret
        (if (ok : bool) && bool_decide (matched = None) then Some (grant all purpose c) else matched) cs
  | None => authenticate_loop all purpose secret matched cs
  end.
Proof. destruct c; simpl; [done..| |done]. by destruct (allows_app_password purpose). Qed.

Lemma authenticate_loop_exact all purpose secret cs matched :
  match authenticate_loop all purpose secret matched cs with
  | Ok r => Forall (λ c, readable purpose secret c = true) cs ∧
      r = match matched with Some by_ => Some by_ | None => grant all purpose <$> List.find (opens purpose secret) cs end
  | Err _ => ¬ Forall (λ c, readable purpose secret c = true) cs
  end.
Proof.
  revert matched. induction cs as [|c cs IH]; intros matched; [by destruct matched|].
  rewrite authenticate_loop_cons. cbn [List.find].
  assert (∀ m, readable purpose secret c = true →
    (matched ≠ None → m = matched) → (matched = None → m = if opens purpose secret c then Some (grant all purpose c) else None) →
    match authenticate_loop all purpose secret m cs with
    | Ok r => Forall (λ c, readable purpose secret c = true) (c :: cs) ∧
        r = match matched with Some by_ => Some by_ | None => grant all purpose <$>
              if opens purpose secret c then Some c else List.find (opens purpose secret) cs end
    | Err _ => ¬ Forall (λ c, readable purpose secret c = true) (c :: cs)
    end) as Hgo.
  { intros m Hr Hm1 Hm2. specialize (IH m).
    destruct (authenticate_loop _ _ _ m cs); rewrite Forall_cons; [|tauto]. destruct IH as [? ->].
    split; [done|]. destruct matched as [b|]; [by rewrite Hm1|]. rewrite Hm2 by done. by destruct (opens purpose secret c). }
  unfold opens at 1, readable at 1 in Hgo. destruct (eligible_hash purpose c) as [h|] eqn:Eh; [|by apply Hgo].
  destruct (password_verify secret h) as [ok|e] eqn:E; simpl.
  - apply Hgo; [done| |]; intros; case_bool_decide; try done; rewrite ?andb_false_r, ?andb_true_r; [done|].
    revert E. unfold password_verify. destruct (argon2_verify secret h); naive_solver.
  - rewrite Forall_cons. unfold readable at 1. rewrite Eh, E. by intros [? _].
Qed.

(** Granted means active, every hash readable, and the first credential that
    the secret opens. *)
Lemma authenticate_granted a cs purpose secret by_ :
  authenticate a cs purpose secret = Ok (AuthGranted by_) ↔
  is_active a = true ∧ Forall (λ c, readable purpose secret c = true) cs ∧
  ∃ c, List.find (opens purpose secret) cs = Some c ∧ by_ = grant cs purpose c.
Proof.
  unfold authenticate. destruct (is_active a); simpl; [|naive_solver].
  pose proof (authenticate_loop_exact cs purpose secret cs None) as Hl.
  destruct (authenticate_loop _ _ _ _ _) as [r|e]; simpl; [destruct Hl as [Hall ->]|naive_solver].
  destruct (List.find _ _) as [c|]; simpl; naive_solver.
Qed.

(** The secret opens the account the name belongs to. *)
Definition opens_account (purpose : LoginPurpose) (s : S) (username secret : bytes) (a : Account) : Prop :=
  login_account username s = Ok (Some a) ∧ is_active a = true ∧
  ∃ creds c, credentials_list (ac_id a) s = Ok creds ∧ c ∈ creds ∧ opens purpose secret c = true.
Lemma attempt_login_granted policy clk ip username secret purpose s t a by_ t' :
  attempt_login policy clk ip username secret purpose s t = (Ok (Granted a by_), t') → opens_account purpose s username secret a.
Proof.
  unfold attempt_login. destruct (is_locked _ _ _ _ _) as [[] t1]; [done|].
  unfold opens_account. destruct (login_account username s) as [[x|]|e]; [|done|done].
  destruct (is_locked _ _ _ _ _) as [[] t2]; [done|].
  destruct (credentials_list (ac_id x) s) as [creds|e] eqn:Ec; [|done]. cbn [mbind result_bind].
  destruct (authenticate x creds purpose secret) as [[by'|]|e] eqn:Ea; [|done|done]. intros [= <- <- _].
  apply authenticate_granted in Ea as (Hact & _ & c & Hc & _). apply find_some in Hc as [Hin Hc].
  split_and!; [done|done|]. exists creds, c. split_and!; [done|by apply list_elem_of_In|done].
Qed.
End exact.

(** ** Guesses per window *)

(** One call of [attempt_login]: who asks, and the store it finds. *)
Record attempt (S : Type) : Type := mkAttempt {
  at_ip : option bytes; at_user : bytes; at_secret : bytes; at_purpose : LoginPurpose; at_store : S }.
Arguments mkAttempt {S} _ _ _ _ _.
Arguments at_ip {S} _.
Arguments at_user {S} _.
Arguments at_secret {S} _.
Arguments at_purpose {S} _.
Arguments at_store {S} _.

(** What failures are counted for. *)
Inductive subject : Type := SIp (ip : bytes) | SAccount (id : Z).
Definition subject_key (u : subject) : bytes :=
  match u with SIp ip => ip_key ip | SAccount id => account_key id end.

Section guesses.
Context {S : Type} `{Store S} `{DirectoryJson} `{Argon2}.
Context (policy : ThrottlePolicy) (clk : nat → Z) (u : subject).
Implicit Types (t : Throttle) (x : attempt S).

Definition run_attempt x : M Throttle LoginAttempt :=
  attempt_login policy clk (at_ip x) (at_user x) (at_secret x) (at_purpose x) (at_store x).
Fixpoint run_attempts (xs : list (attempt S)) t : list (result LoginAttempt) * Throttle :=
  match xs with
  | [] => ([], t)
  | x :: xs =>
      let '(r, t) := run_attempt x t in
      let '(rs, t) := run_attempts xs t in (r :: rs, t)
  end.

(** The attempt is made by, or names, the subject. *)
Definition concerns x : Prop :=
  match u with
  | SIp ip => at_ip x = Some ip
  | SAccount id => ∃ a, login_account (at_user x) (at_store x) = Ok (Some a) ∧ ac_id a = id
  end.
#[global] Instance concerns_dec x : Decision (concerns x).
Proof.
  unfold concerns. destruct u; [apply _|].
  destruct (login_account (at_user x) (at_store x)) as [[a|]|e]; [|right; naive_solver..].
  destruct (decide (ac_id a = id)); [left|right]; naive_solver.
Defined.
Definition refused (r : result LoginAttempt) : bool := match r with Ok Denied => true | _ => false end.
Definition granted (r : result LoginAttempt) : bool := match r with Ok (Granted _ _) => true | _ => false end.
(** Failed guesses of the subject. *)
Definition guesses (xs : list (attempt S)) (rs : list (result LoginAttempt)) : nat :=
  length (filter (λ p, concerns p.1 ∧ refused p.2 = true) (zip xs rs)).

(** The throttle's cells hold counts; only [bump] writes them. *)
Definition cells_ok t : Prop := ∀ k e, th_cells t !! k = Some e → ∃ n, value e = u32_be n ∧ is_u32 n.

(** From reading [start] to reading [stop] the clock stays in one window. *)
Context (t0 : Z) (start stop : nat) (Hmax : 1 ≤ max_failures policy < U32_MAX - 1).
Context (Hclk : ∀ i, (start ≤ i < stop)%nat → t0 ≤ clk i < t0 + tp_window policy).

(** The subject's cell counts at least [k] and outlives the window. *)
Definition held (k : Z) t : Prop :=
  (start ≤ th_ticks t)%nat ∧ cells_ok t ∧
  (k ≤ 0 ∨ ∃ n e, th_cells t !! subject_key u = Some (mkTtlEntry (u32_be n) e) ∧ is_u32 n ∧ k ≤ n ∧ t0 + tp_window policy ≤ e).

Lemma ticks_count key t : th_ticks (th_count clk key t).2 = Datatypes.S (th_ticks t).
Proof. unfold th_count, timed. by destruct (ttl_get _ _ _). Qed.
Lemma ticks_bump key t : th_ticks (bump policy clk key t) = (2 + th_ticks t)%nat.
Proof. unfold bump. rewrite (surjective_pairing (th_count clk key t)). simpl. by rewrite ticks_count. Qed.
Abbreviation bumps := (foldl (λ t key, bump policy clk key t)).
Lemma ticks_bumps keys t : (th_ticks t ≤ th_ticks (bumps t keys))%nat.
Proof.
  revert t. induction keys as [|key keys IH]; intros t; simpl; [done|]. specialize (IH (bump policy clk key t)).
  rewrite ticks_bump in IH. lia.
Qed.
Lemma ticks_success ip acc t : (th_ticks t ≤ th_ticks (record_success clk ip acc t))%nat.
Proof.
  unfold record_success. generalize (subject_keys ip acc). intros keys. revert t.
  induction keys as [|key keys IH]; intros t; simpl; [done|]. etransitivity; [|apply IH]. simpl. lia.
Qed.
Lemma ticks_locked keys t : (th_ticks t ≤ th_ticks (any_locked policy clk keys t).2)%nat.
Proof.
  revert t. induction keys as [|key keys IH]; intros t; simpl; [done|].
  pose proof (ticks_count key t) as Ht. destruct (th_count clk key t) as [n t1]. specialize (IH t1).
  destruct (any_locked policy clk keys t1) as [b t2]. simpl in *. lia.
Qed.

Lemma held_le k k' t : held k t → k' ≤ k → held k' t.
Proof. intros (Hs & Hok & Hc) Hk. split_and!; [done..|]. destruct Hc as [?|(n & e & ?)]; [left; lia|right; exists n, e; naive_solver lia]. Qed.

Lemma th_count_held key k t c t' :
  th_count clk key t = (c, t') → (th_ticks t' ≤ stop)%nat → held k t →
  th_ticks t' = Datatypes.S (th_ticks t) ∧ held k t' ∧ is_u32 c ∧ (key = subject_key u → k ≤ c).
Proof.
  unfold th_count, timed, ttl_get. intros E Hstop (Hs & Hok & Hk).
  assert (is_u32 0) as Hzero by (unfold is_u32; lia).
  destruct (th_cells t !! key) as [[v e]|] eqn:Ev.
  - destruct (Hok _ _ Ev) as (n & Hv & Hn). simpl in Hv. subst v.
    destruct (is_expired _ _) eqn:Ee; simplify_eq/=; (split; [done|]).
    + split_and!; [|done|].
      * split_and!; [simpl; lia| |].
        { intros k' e' Hl. apply (Hok k'). simpl in Hl. by apply lookup_delete_Some in Hl as [_ ?]. }
        destruct Hk as [?|(m & e' & Hm & ?)]; [by left|right]. exists m, e'. split; [|done]. simpl.
        rewrite lookup_delete_ne; [done|]. intros ->. rewrite Hm in Ev. simplify_eq.
        unfold is_expired in Ee. simpl in Ee. specialize (Hclk (th_ticks t)). lia.
      * intros ->. destruct Hk as [?|(m & e' & Hm & ?)]; [done|]. rewrite Hm in Ev. simplify_eq.
        unfold is_expired in Ee. simpl in Ee. specialize (Hclk (th_ticks t)). lia.
    + rewrite length_u32_be. cbn [Nat.eqb]. rewrite of_be_bytes_u32 by done. split_and!; [by split_and!; simpl; [lia|..]|apply Hn..|].
      intros ->. destruct Hk as [?|(m & e' & Hm & ? & ? & ?)]; [unfold is_u32 in *; lia|]. rewrite Hm in Ev.
      assert (of_be_bytes (u32_be m) = of_be_bytes (u32_be n)) as Emn by congruence.
      rewrite !of_be_bytes_u32 in Emn by done. lia.
  - simplify_eq/=. split_and!; [done| |done..|].
    + split_and!; simpl; [lia|done..].
    + intros ->. destruct Hk as [?|(m & e' & Hm & ?)]; [done|]. congruence.
Qed.

Lemma bump_held key k t :
  (th_ticks (bump policy clk key t) ≤ stop)%nat → held k t → 0 ≤ k < U32_MAX →
  th_ticks (bump policy clk key t) = (2 + th_ticks t)%nat ∧
  held k (bump policy clk key t) ∧ (key = subject_key u → held (k + 1) (bump policy clk key t)).
Proof.
  unfold bump. destruct (th_count clk key t) as [c t1] eqn:E. intros Hstop Hk Hr. simpl in Hstop |- *.
  destruct (th_count_held key k t c t1 E) as (Ht & Hk1 & Hc & Hsub); [lia|done|].
  set (n := saturating_add_u32 c 1). assert (is_u32 n ∧ c ≤ n ∧ (k ≤ c → k + 1 ≤ n)) as (Hn & Hcn & Hkn).
  { subst n. unfold saturating_add_u32, is_u32, U32_MAX in *. lia. }
  assert (cells_ok (mkThrottle (ttl_set key (u32_be n) (tp_window policy) (clk (th_ticks t1)) (th_cells t1))
    (Datatypes.S (th_ticks t1)))) as Hok.
  { intros k' e'. simpl. unfold ttl_set. rewrite lookup_insert_Some. intros [[<- <-]|[_ Hl]]; [by exists n|].
    destruct Hk1 as (_ & Hok & _). by eapply Hok. }
  destruct Hk1 as (Hs1 & _ & Hk1). specialize (Hclk (th_ticks t1)).
  split; [by rewrite Ht|]. destruct (decide (key = subject_key u)) as [->|Hne].
  - split; [|intros _]; (split_and!; [simpl; lia|done|]); right; exists n, (clk (th_ticks t1) + tp_window policy);
      simpl; unfold ttl_set; rewrite lookup_insert_eq; (split_and!; [done..| |]); specialize (Hsub eq_refl); lia.
  - split; [|done]. split_and!; [simpl; lia|done|]. destruct Hk1 as [?|(m & e & ?)]; [by left|right]. exists m, e. simpl.
    unfold ttl_set. by rewrite lookup_insert_ne.
Qed.

Lemma bumps_keep keys k t :
  (th_ticks (bumps t keys) ≤ stop)%nat → held k t → 0 ≤ k < U32_MAX → held k (bumps t keys).
Proof.
  revert t. induction keys as [|key keys IH]; intros t Hstop Hk Hr; simpl in *; [done|].
  pose proof (ticks_bumps keys (bump policy clk key t)) as Hmono.
  destruct (bump_held key k t) as (_ & Hk1 & _); [lia|done..|]. by apply IH.
Qed.
Lemma record_failure_held ip acc k t :
  (th_ticks (record_failure policy clk ip acc t) ≤ stop)%nat → held k t → 0 ≤ k → k + 1 < U32_MAX →
  held k (record_failure policy clk ip acc t) ∧
  (subject_key u ∈ subject_keys ip acc → held (k + 1) (record_failure policy clk ip acc t)).
Proof.
  unfold record_failure. intros Hstop Hk Hr Hr'. split; [by apply bumps_keep; [..|lia]|].
  intros (l1 & l2 & E)%list_elem_of_split. rewrite E, foldl_app in *. simpl in *.
  pose proof (ticks_bumps l2 (bump policy clk (subject_key u) (bumps t l1))) as Hmono.
  pose proof (ticks_bump (subject_key u) (bumps t l1)) as Hb.
  apply bumps_keep; [done| |lia]. apply bump_held; [lia| |lia|done]. apply bumps_keep; [lia|done|lia].
Qed.

Lemma record_success_held ip acc k t :
  (th_ticks (record_success clk ip acc t) ≤ stop)%nat → subject_key u ∉ subject_keys ip acc → held k t →
  held k (record_success clk ip acc t).
Proof.
  unfold record_success. generalize (subject_keys ip acc). intros keys. revert t.
  induction keys as [|key keys IH]; intros t Hstop Hnot Hk; simpl; [done|].
  apply not_elem_of_cons in Hnot as [Hne Hnot]. apply IH; [done..|]. destruct Hk as (Hs & Hok & Hk).
  split_and!; simpl; [lia| |].
  - intros k' e'. simpl. rewrite lookup_delete_Some. intros [_ ?]. by eapply Hok.
  - destruct Hk as [?|(m & e & ?)]; [by left|right]. exists m, e. by rewrite lookup_delete_ne.
Qed.

Lemma any_locked_held keys k t b t' :
  any_locked policy clk keys t = (b, t') → (th_ticks t' ≤ stop)%nat → held k t →
  held k t' ∧ (b = false → subject_key u ∈ keys → k < max_failures policy).
Proof.
  revert t b t'. induction keys as [|key keys IH]; intros t b t' E Hstop Hk; simpl in E; [simplify_eq; set_solver|].
  destruct (th_count clk key t) as [n t1] eqn:En. destruct (any_locked policy clk keys t1) as [b2 t2] eqn:E2.
  pose proof (ticks_locked keys t1) as Hmono. rewrite E2 in Hmono. simplify_eq/=.
  destruct (th_count_held key k t n t1 En) as (_ & Hk1 & _ & Hsub); [lia|done|].
  destruct (IH _ _ _ E2 Hstop Hk1) as [Hk2 Hlt]. split; [done|].
  intros [Hle ?]%orb_false_iff [<-|?]%elem_of_cons; [|by apply Hlt]. specialize (Hsub eq_refl). lia.
Qed.

(** Account ids are 64-bit numbers. *)
Context (Hu : ∀ id, u = SAccount id → is_u64 id).

Lemma subject_in_keys ip acc :
  (∀ id, acc = Some id → is_u64 id) →
  subject_key u ∈ subject_keys ip acc ↔ match u with SIp i => ip = Some i | SAccount id => acc = Some id end.
Proof.
  intros Hacc. unfold subject_keys. rewrite elem_of_app.
  assert (∀ i id, ip_key i ≠ account_key id) as Hne by (intros i id E; discriminate E).
  destruct u as [i|id]; simpl; split.
  - intros [Hi|Hi]; [destruct ip; [|set_solver]|destruct acc; [|set_solver]]; apply list_elem_of_singleton in Hi.
    + unfold ip_key in Hi. simplify_list_eq. done.
    + by apply Hne in Hi.
  - intros ->. left. apply list_elem_of_singleton. done.
  - intros [Hi|Hi]; [destruct ip; [|set_solver]|destruct acc as [id'|]; [|set_solver]]; apply list_elem_of_singleton in Hi.
    + by symmetry in Hi; apply Hne in Hi.
    + unfold account_key in Hi. apply app_inv_head, app_inv_head in Hi. apply (f_equal of_be_bytes) in Hi.
      rewrite !of_be_bytes_u64 in Hi; [by subst|by apply Hacc|by apply Hu].
  - intros ->. right. apply list_elem_of_singleton. done.
Qed.

Lemma ticks_attempt x t : (th_ticks t ≤ th_ticks (run_attempt x t).2)%nat.
Proof.
  unfold run_attempt, attempt_login, is_locked.
  pose proof (ticks_locked (subject_keys (at_ip x) None) t) as Ht1.
  destruct (any_locked _ _ (subject_keys (at_ip x) None) t) as [[] t1]; simpl in *; [done|].
  destruct (login_account _ _) as [[a|]|e]; [|etransitivity; [exact Ht1|apply ticks_bumps]|done].
  pose proof (ticks_locked (subject_keys (at_ip x) (Some (ac_id a))) t1) as Ht2.
  destruct (any_locked _ _ (subject_keys _ (Some _)) t1) as [[] t2]; simpl in *; [lia|].
  etransitivity; [exact Ht1|]. etransitivity; [exact Ht2|].
  destruct (mbind _ _) as [[by_|]|e]; [apply ticks_success|apply ticks_bumps|done].
Qed.
Lemma ticks_attempts xs t : (th_ticks t ≤ th_ticks (run_attempts xs t).2)%nat.
Proof.
  revert t. induction xs as [|x xs IH]; intros t; simpl; [done|]. pose proof (ticks_attempt x t) as Ht.
  destruct (run_attempt x t) as [r t1]. specialize (IH t1). destruct (run_attempts xs t1). simpl in *. lia.
Qed.

Lemma run_attempt_held x k t r t' :
  run_attempt x t = (r, t') → (th_ticks t' ≤ stop)%nat → held k t → 0 ≤ k ≤ max_failures policy →
  (∀ a, login_account (at_user x) (at_store x) = Ok (Some a) → is_u64 (ac_id a)) →
  (concerns x → granted r = false) →
  held k t' ∧
  (concerns x → refused r = true → k < max_failures policy ∧ held (k + 1) t').
Proof.
  unfold run_attempt, attempt_login, is_locked. intros E Hstop Hk Hr Hids Hgr.
  pose proof (ticks_locked (subject_keys (at_ip x) None) t) as Ht1.
  destruct (any_locked _ _ (subject_keys (at_ip x) None) t) as [b1 t1] eqn:E1. simpl in Ht1.
  destruct b1. { simplify_eq. destruct (any_locked_held _ k _ _ _ E1); naive_solver. }
  destruct (login_account _ _) as [[a|]|e] eqn:Ea.
  - pose proof (ticks_locked (subject_keys (at_ip x) (Some (ac_id a))) t1) as Ht2.
    destruct (any_locked _ _ (subject_keys _ (Some _)) t1) as [b2 t2] eqn:E2. simpl in Ht2.
    assert (concerns x ↔ subject_key u ∈ subject_keys (at_ip x) (Some (ac_id a))) as Hin.
    { rewrite subject_in_keys by naive_solver. unfold concerns. rewrite Ea. destruct u; naive_solver. }
    assert ((th_ticks t2 ≤ th_ticks t')%nat) as Ht3.
    { destruct b2; [by simplify_eq|]. destruct (mbind _ _) as [[by_|]|e]; simplify_eq; [apply ticks_success|apply ticks_bumps|done]. }
    destruct (any_locked_held _ k _ _ _ E1) as [Hk1 _]; [lia|done|].
    destruct (any_locked_held _ k _ _ _ E2) as [Hk2 Hlt]; [lia|done|].
    destruct b2; [simplify_eq; naive_solver|].
    destruct (mbind _ _) as [[by_|]|e]; simplify_eq; simpl in Hgr; [|rewrite Hin|naive_solver].
    + split; [|done]. apply record_success_held; [done| |done]. rewrite <-Hin. naive_solver.
    + destruct (record_failure_held (at_ip x) (Some (ac_id a)) k t2); [lia|done|lia|lia|]. naive_solver.
  - simplify_eq. pose proof (ticks_bumps (subject_keys (at_ip x) None) t1) as Ht2.
    assert (concerns x ↔ subject_key u ∈ subject_keys (at_ip x) None) as Hin.
    { rewrite subject_in_keys by done. unfold concerns. rewrite Ea. destruct u; naive_solver. }
    destruct (any_locked_held _ k _ _ _ E1) as [Hk1 Hlt]; [unfold record_failure in *; lia|done|].
    destruct (record_failure_held (at_ip x) None k t1); [lia|done|lia|lia|].
    rewrite Hin. naive_solver.
  - simplify_eq. destruct (any_locked_held _ k _ _ _ E1); naive_solver.
Qed.

Lemma run_attempts_held xs k t rs t' :
  run_attempts xs t = (rs, t') → (th_ticks t' ≤ stop)%nat → held k t → 0 ≤ k ≤ max_failures policy →
  (∀ x a, x ∈ xs → login_account (at_user x) (at_store x) = Ok (Some a) → is_u64 (ac_id a)) →
  (∀ x r, (x, r) ∈ zip xs rs → concerns x → granted r = false) →
  k + Z.of_nat (guesses xs rs) ≤ max_failures policy.
Proof.
  revert k t rs. induction xs as [|x xs IH]; intros k t rs E Hstop Hk Hr Hids Hgr; simpl in E.
  { simplify_eq. unfold guesses. simpl. lia. }
  destruct (run_attempt x t) as [r t1] eqn:E1. destruct (run_attempts xs t1) as [rs1 t2] eqn:E2. simplify_eq.
  pose proof (ticks_attempts xs t1) as Hmono. rewrite E2 in Hmono. simpl in Hmono.
  destruct (run_attempt_held x k t r t1 E1) as (Hk1 & Hlt); [lia|done|done| | |].
  { intros a. apply Hids. set_solver. }
  { apply Hgr. simpl. set_solver. }
  unfold guesses. simpl. rewrite filter_cons.
  destruct (decide _) as [[Hc Hd]|_]; [destruct (Hlt Hc Hd) as [? Hk2]; specialize (IH (k + 1) t1 rs1)|specialize (IH k t1 rs1)];
    unfold guesses in IH; simpl.
  - enough (k + 1 + Z.of_nat (length (filter (λ p, concerns p.1 ∧ refused p.2 = true) (zip xs rs1))) ≤ max_failures policy) by lia.
    apply IH; [done..|lia|set_solver|]. intros y r' Hy. apply Hgr. simpl. set_solver.
  - apply IH; [done..|set_solver|]. intros y r' Hy. apply Hgr. simpl. set_solver.
Qed.
End guesses.

