(* ===== verification/DirectoryRep.v ===== *)
(** * The directory: what its rows stand for

    An abstract directory is three finite maps: domains and accounts by id,
    and the address index.  [dir_rep] says the rows of the store hold exactly
    them, with the two index rows kept beside the records; [dir_ok] says the
    address index agrees with the accounts.  The reads are shown exact here,
    the writes in [DirectoryHistory]. *)

From S2P Require Import Prelude Bytes Key Store Ids Text Directory.
From stdpp Require Import base gmap list strings.
From Stdlib Require Import ZArith Lia.

Open Scope Z_scope.

Record dir : Type := mkDir {
  ds_domains : gmap Z Domain; ds_accounts : gmap Z Account; ds_entries : gmap bytes AddressEntry }.

(** The addresses an account answers to: its aliases, and its local part at
    its domain. *)
Definition primary (d : dir) (x : Account) : option bytes :=
  (λ y, full_address (ac_local_part x) (dm_name y)) <$> ds_domains d !! ac_domain_id x.
Definition own_addresses (d : dir) (x : Account) : list bytes :=
  filter (λ alias, is_blank alias = false) (ac_aliases x) ++ option_list (primary d x).
Definition own (d : dir) (x : Account) : list bytes := normalize_address <$> own_addresses d x.
Definition catch_address (y : Domain) : bytes := catch_all_address (dm_name y).

(** ** Rows *)

(** Record keys are bytes. *)
Definition record_bytes (tag : Z) (c : contents) : Prop :=
  ∀ k v, c !! k = Some v → is_record_key tag k = true → Forall is_byte k.

Record domains_rep `{DirectoryJson} (c : contents) (ds : gmap Z Domain) : Prop := {
  rep_domain id : is_u64 id → of_json <$> c !! domain_record_key id = inr <$> ds !! id;
  rep_name n v : c !! name_key n = Some v ↔ ∃ id y, ds !! id = Some y ∧ dm_name y = n ∧ v = u64_be id;
  rep_domain_id id y : ds !! id = Some y → is_u64 id ∧ dm_id y = id;
  rep_domain_keys : record_bytes TAG_DOMAIN_RECORD c;
}.
Record accounts_rep `{DirectoryJson} (c : contents) (acs : gmap Z Account) : Prop := {
  rep_account id : is_u64 id → of_json <$> c !! account_record_key id = inr <$> acs !! id;
  rep_address did lp v : is_u64 did →
    c !! address_key did lp = Some v ↔
    ∃ id x, acs !! id = Some x ∧ ac_domain_id x = did ∧ ac_local_part x = lp ∧ v = u64_be id;
  rep_account_id id x : acs !! id = Some x → is_u64 id ∧ ac_id x = id ∧ is_u64 (ac_domain_id x);
  rep_account_keys : record_bytes TAG_ACCOUNT_RECORD c;
}.
Definition entries_rep `{DirectoryJson} (c : contents) (es : gmap bytes AddressEntry) : Prop :=
  ∀ a, of_json <$> c !! entry_key a = inr <$> es !! a.
Record dir_rep `{DirectoryJson} (c : contents) (d : dir) : Prop := {
  rep_domains : domains_rep c (ds_domains d);
  rep_accounts : accounts_rep c (ds_accounts d);
  rep_entries : entries_rep c (ds_entries d);
}.

(** ** Agreement *)

Definition plain (a : bytes) : Prop := a ≠ [] ∧ head a ≠ Some 64.
Definition tidy (s : bytes) : Prop := s ≠ [] ∧ normalize_address s = s.

Record dir_ok (d : dir) : Prop := {
  ok_local id x : ds_accounts d !! id = Some x → tidy (ac_local_part x);
  ok_name id y : ds_domains d !! id = Some y → tidy (dm_name y);
  ok_plain id x a : ds_accounts d !! id = Some x → a ∈ own d x → plain a;
  (** every address of an account leads to it *)
  ok_owned id x a : ds_accounts d !! id = Some x → a ∈ own d x → ds_entries d !! a = Some (mkEntry a (ToAccount id));
  ok_catch id y acc : ds_domains d !! id = Some y → dm_catch_all y = Some acc →
    ds_entries d !! catch_address y = Some (mkEntry (catch_address y) (ToAccount acc));
  (** and an entry that leads to an account is its address or a catch-all *)
  ok_entry a e : ds_entries d !! a = Some e →
    ae_address e = a ∧
    ∀ acc, ae_target e = ToAccount acc →
      (∃ x, ds_accounts d !! acc = Some x ∧ a ∈ own d x) ∨
      (∃ id y, ds_domains d !! id = Some y ∧ dm_catch_all y = Some acc ∧ a = catch_address y);
}.

(** ** Normal forms *)

Lemma normalize_idem s : normalize_address (normalize_address s) = normalize_address s.
Proof.
  unfold normalize_address. rewrite (str_trim_id (to_ascii_lowercase _)) by apply trimmed_lower, str_trim_trimmed.
  apply to_ascii_lowercase_idem.
Qed.
Lemma tidy_trimmed s : normalize_address s = s → trimmed s ∧ to_ascii_lowercase s = s.
Proof.
  intros E. rewrite <-E. unfold normalize_address. split; [apply trimmed_lower, str_trim_trimmed|apply to_ascii_lowercase_idem].
Qed.
Lemma tidy_full lp n : tidy lp → tidy n → normalize_address (full_address lp n) = full_address lp n.
Proof.
  intros [Hlp [Ht1 El]%tidy_trimmed] [Hn [Ht2 En]%tidy_trimmed]. unfold normalize_address, full_address.
  rewrite str_trim_id by (by apply trimmed_around). unfold to_ascii_lowercase in *. rewrite !fmap_app, El, En. done.
Qed.
Lemma tidy_catch n : tidy n → normalize_address (catch_all_address n) = catch_all_address n.
Proof.
  intros [Hn [[_ Ht] En]%tidy_trimmed]. unfold normalize_address, catch_all_address. rewrite str_trim_id.
  - unfold to_ascii_lowercase in *. rewrite fmap_cons, En. done.
  - split; [simpl; destruct n as [|a [|b n]]; [done|..]; simpl; unfold is_space2, is_space3; repeat case_match; lia|].
    rewrite reverse_cons. assert (reverse n ≠ []) as Hr by (intros E%(f_equal reverse); by rewrite reverse_involutive in E).
    destruct (reverse n) as [|x [|y [|z r]]]; simpl in *; [done| | |done]; unfold is_space2, is_space3 in *;
      repeat case_match; lia.
Qed.
Lemma not_blank s : is_blank s = false → normalize_address s ≠ [].
Proof. unfold is_blank, normalize_address, to_ascii_lowercase. rewrite bool_decide_eq_false. by intros ? ?%fmap_nil_inv. Qed.
Lemma own_idem d x a : a ∈ own d x → normalize_address a = a.
Proof. unfold own. intros (b & -> & _)%list_elem_of_fmap. apply normalize_idem. Qed.
Lemma full_address_inj lp lp' n : full_address lp n = full_address lp' n → lp = lp'.
Proof. unfold full_address. intros E. by apply app_inv_tail in E. Qed.

(** ** Keys *)

Lemma known_registry l : known (subspace_as_byte Registry :: l).
Proof. by eexists. Qed.
#[export] Hint Resolve known_registry : core.

(** Rows of different tags. *)
Ltac rows_differ := let E := fresh "E" in intros E; discriminate E.

Lemma u64_be_eq x y : is_u64 x → is_u64 y → u64_be x = u64_be y → x = y.
Proof. intros Hx Hy E. apply (f_equal of_be_bytes) in E. by rewrite !of_be_bytes_u64 in E. Qed.
Lemma account_record_key_eq x y : is_u64 x → is_u64 y → account_record_key x = account_record_key y → x = y.
Proof. unfold account_record_key. intros ?? E. apply app_inv_head in E. by apply u64_be_eq. Qed.
Lemma domain_record_key_eq x y : is_u64 x → is_u64 y → domain_record_key x = domain_record_key y → x = y.
Proof. unfold domain_record_key. intros ?? E. apply app_inv_head in E. by apply u64_be_eq. Qed.
Lemma address_key_eq d1 l1 d2 l2 : is_u64 d1 → is_u64 d2 → address_key d1 l1 = address_key d2 l2 → d1 = d2 ∧ l1 = l2.
Proof.
  unfold address_key. intros ?? E. apply app_inv_head in E.
  apply app_inj_1 in E as [E1 E2]; [|by rewrite !length_u64_be]. split; [by apply u64_be_eq|done].
Qed.

(** ** Reads *)

Section reads.
Context {S : Type} {store : Store S} {contract : StoreSpec S} `{DirectoryJson} {json_laws : DirectoryJsonLaws}.
Context (s : S) (d : dir) (Hh : healthy s) (Hrep : dir_rep (view s) d).

Lemma decode_rep {A} `{Json A} what (v : option bytes) (o : option A) :
  of_json <$> v = inr <$> o →
  match v with Some b => ∃ x, o = Some x ∧ decode_row what b = Ok x | None => o = None end.
Proof. unfold decode_row. destruct v as [b|], o as [x|]; simpl; intros E; simplify_eq; [|done]. exists x. by rewrite E. Qed.

Lemma domain_get_spec id : is_u64 id →
  domain_get id s = match ds_domains d !! id with Some y => Ok y | None => Err (NotFound ("domain " ++ text (fmt_dec id))) end.
Proof using Hh Hrep.
  intros Hid. unfold domain_get. rewrite get_spec by (done || apply known_registry). cbn [mbind result_bind].
  pose proof (decode_rep "domain" _ _ (rep_domain _ _ (rep_domains _ _ Hrep) id Hid)) as E. case_match; [destruct E as (y & -> & ?)|rewrite E]; done.
Qed.
Lemma account_get_spec id : is_u64 id →
  account_get id s = match ds_accounts d !! id with Some x => Ok x | None => Err (NotFound ("account " ++ text (fmt_dec id))) end.
Proof using Hh Hrep.
  intros Hid. unfold account_get. rewrite get_spec by (done || apply known_registry). cbn [mbind result_bind].
  pose proof (decode_rep "account" _ _ (rep_account _ _ (rep_accounts _ _ Hrep) id Hid)) as E. case_match; [destruct E as (y & -> & ?)|rewrite E]; done.
Qed.
Lemma entry_at_spec a : entry_at a s = Ok (ds_entries d !! a).
Proof using Hh Hrep.
  unfold entry_at. rewrite get_spec by (done || apply known_registry). cbn [mbind result_bind].
  pose proof (decode_rep "address entry" _ _ (rep_entries _ _ Hrep a)) as E.
  case_match; [destruct E as (y & -> & Ey); by rewrite Ey|by rewrite E].
Qed.
Lemma addresses_of_spec x : is_u64 (ac_domain_id x) → addresses_of x s = own_addresses d x.
Proof using Hh Hrep.
  intros Hid. unfold addresses_of, own_addresses, primary. f_equal. rewrite domain_get_spec by done. by destruct (_ !! _).
Qed.

(** An index row names the record, if there is one. *)
Lemma lookup_id_by_address_spec did lp : is_u64 did →
  (∃ id x, ds_accounts d !! id = Some x ∧ ac_domain_id x = did ∧ ac_local_part x = lp ∧
     lookup_id_by_address did lp s = Ok (Some id)) ∨
  (lookup_id_by_address did lp s = Ok None ∧
     ∀ id x, ds_accounts d !! id = Some x → ac_domain_id x = did → ac_local_part x = lp → False).
Proof using Hh Hrep.
  intros Hid. unfold lookup_id_by_address, lookup_id. rewrite get_spec by (done || apply known_registry). cbn [mbind result_bind].
  pose proof (λ v, rep_address _ _ (rep_accounts _ _ Hrep) did lp v Hid) as Hr. destruct (view s !! address_key did lp) as [v|].
  - left. destruct (proj1 (Hr v) eq_refl) as (id & x & Hx & ? & ? & ->). exists id, x. split_and!; [done..|].
    rewrite length_u64_be. simpl. rewrite of_be_bytes_u64; [done|]. by apply (rep_account_id _ _ (rep_accounts _ _ Hrep)) in Hx as [? _].
  - right. split; [done|]. intros id x ???. enough (None = Some (u64_be id)) by done. apply Hr. by exists id, x.
Qed.
Lemma lookup_id_by_name_spec n :
  (∃ id y, ds_domains d !! id = Some y ∧ dm_name y = n ∧ lookup_id_by_name n s = Ok (Some id)) ∨
  (lookup_id_by_name n s = Ok None ∧ ∀ id y, ds_domains d !! id = Some y → dm_name y = n → False).
Proof using Hh Hrep.
  unfold lookup_id_by_name, lookup_id. rewrite get_spec by (done || apply known_registry). cbn [mbind result_bind].
  pose proof (rep_name _ _ (rep_domains _ _ Hrep) n) as Hr. destruct (view s !! name_key n) as [v|].
  - left. destruct (proj1 (Hr v) eq_refl) as (id & y & Hy & ? & ->). exists id, y. split_and!; [done..|].
    rewrite length_u64_be. simpl. rewrite of_be_bytes_u64; [done|]. by apply (rep_domain_id _ _ (rep_domains _ _ Hrep)) in Hy as [? _].
  - right. split; [done|]. intros id y ??. enough (None = Some (u64_be id)) by done. apply Hr. by exists id, y.
Qed.
End reads.

(** ** Scans *)

Lemma scan_records {A} `{Json A} what (is_key : bytes → bool) (keep : A → bool) rs acc :
  (∀ k v, (k, v) ∈ rs → is_key k = true → ∃ x, of_json v = inr x) →
  ∃ l, scan (records_visit what is_key keep) rs (acc, None) = Ok (acc ++ l, None) ∧
    ∀ x, x ∈ l ↔ ∃ k v, (k, v) ∈ rs ∧ is_key k = true ∧ of_json v = inr x ∧ keep x = true.
Proof.
  revert acc. induction rs as [|[k v] rs IH]; intros acc Hrs; cbn [scan].
  { exists []. rewrite app_nil_r. split; [done|]. set_solver. }
  assert (∀ k v, (k, v) ∈ rs → is_key k = true → ∃ x, of_json v = inr x) as Hrs' by set_solver.
  unfold records_visit at 1. destruct (is_key k) eqn:Ek; cbn [negb].
  - destruct (Hrs k v) as [x Hx]; [set_solver|done|]. unfold decode_row. rewrite Hx. cbn [fst snd].
    destruct (IH (if keep x then acc ++ [x] else acc) Hrs') as (l & E & Hl). rewrite E.
    destruct (keep x) eqn:Ekeep.
    + exists (x :: l). rewrite <-app_assoc. split; [done|]. intros y. rewrite elem_of_cons, Hl. split.
      * intros [->|(k' & v' & ?)]; [exists k, v; set_solver|exists k', v'; set_solver].
      * intros (k' & v' & [[= -> ->]|Hin]%elem_of_cons & ?); [left; naive_solver congruence|right; naive_solver].
    + exists l. split; [done|]. intros y. rewrite Hl. split.
      * intros (k' & v' & ?). exists k', v'. set_solver.
      * intros (k' & v' & [[= -> ->]|Hin]%elem_of_cons & ?); [naive_solver congruence|naive_solver].
  - destruct (IH acc Hrs') as (l & E & Hl). exists l. split; [done|]. intros y. rewrite Hl. split.
    + intros (k' & v' & ?). exists k', v'. set_solver.
    + intros (k' & v' & [[= -> ->]|Hin]%elem_of_cons & ?); [naive_solver congruence|naive_solver].
Qed.

Lemma is_record_key_spec tag k : is_record_key tag k = true ↔ ∃ l, k = [subspace_as_byte Registry; tag] ++ l ∧ length l = 8%nat.
Proof.
  unfold is_record_key. rewrite !andb_true_iff, !bool_decide_eq_true, Nat.eqb_eq. split.
  - intros [[Hl H0] H1]. destruct k as [|a [|b k]]; [done..|]. simpl in *. simplify_eq. exists k. split; [done|lia].
  - intros (l & -> & Hl). simpl. rewrite Hl. done.
Qed.
Lemma u64_of_bytes l : length l = 8%nat → Forall is_byte l → ∃ id, is_u64 id ∧ l = u64_be id.
Proof.
  intros Hl Hb. exists (of_be_bytes l). pose proof (of_be_bytes_range l 8 Hb Hl). split; [unfold is_u64; lia|].
  pose proof (be_bytes_of_be_bytes l Hb) as E. rewrite Hl in E. by symmetry.
Qed.

Section scans.
Context {S : Type} {store : Store S} {contract : StoreSpec S} `{DirectoryJson} {json_laws : DirectoryJsonLaws}.
Context (s : S) (d : dir) (Hh : healthy s) (Hrep : dir_rep (view s) d).

(** The records of one registry, from the rows. *)
Lemma collect_spec {A} `{Json A} what tag (records : gmap Z A) keep :
  (∀ id, is_u64 id → of_json <$> view s !! ([subspace_as_byte Registry; tag] ++ u64_be id) = inr <$> records !! id) →
  (∀ id x, records !! id = Some x → is_u64 id) → record_bytes tag (view s) →
  ∃ l, collect_records what (is_record_key tag) keep s = Ok l ∧
    ∀ x, x ∈ l ↔ (∃ id, records !! id = Some x) ∧ keep x = true.
Proof using Hh.
  intros Hr Hids Hkeys. unfold collect_records. rewrite iterate_spec by done.
  assert (∀ k v, view s !! k = Some v → is_record_key tag k = true → ∃ id x,
    k = [subspace_as_byte Registry; tag] ++ u64_be id ∧ records !! id = Some x ∧ of_json v = inr x) as Hrow.
  { intros k v Hk Hrk. pose proof (Hkeys k v Hk Hrk) as Hb.
    apply is_record_key_spec in Hrk as (l & -> & Hl). apply Forall_app in Hb as [_ Hb].
    destruct (u64_of_bytes l Hl Hb) as (id & Hid & ->). specialize (Hr id Hid). rewrite Hk in Hr.
    destruct (records !! id) as [x|] eqn:Ex; simpl in Hr; simplify_eq. by exists id, x. }
  destruct (scan_records what (is_record_key tag) keep
    (rows_from (view s) (prefix_encode (kp_subspace Registry)) (prefix_encode (kp_subspace Registry))) []) as (l & E & Hl).
  { intros k v [Hk _]%elem_of_rows_from Hrk. destruct (Hrow k v Hk Hrk) as (id & x & _ & _ & ?). by exists x. }
  rewrite E. exists l. split; [done|]. intros x. rewrite Hl. split.
  - intros (k & v & [Hk _]%elem_of_rows_from & Hrk & Hx & ?). split; [|done].
    destruct (Hrow k v Hk Hrk) as (id & y & _ & ? & ?). exists id. congruence.
  - intros [[id Hx] ?]. pose proof (Hids id x Hx) as Hid. specialize (Hr id Hid). rewrite Hx in Hr.
    destruct (view s !! _) as [v|] eqn:Ev; simpl in Hr; simplify_eq. exists ([subspace_as_byte Registry; tag] ++ u64_be id), v.
    split_and!; [|apply is_record_key_spec; exists (u64_be id); by rewrite length_u64_be|done..].
    apply elem_of_rows_from. split; [done|]. assert (prefix_encode (kp_subspace Registry) `prefix_of`
      ([subspace_as_byte Registry; tag] ++ u64_be id)) as Hp by (by exists (tag :: u64_be id)).
    split; [exact Hp|by apply prefix_bytes_le].
Qed.

Lemma collect_accounts_spec keep :
  ∃ l, collect_accounts keep s = Ok l ∧ ∀ x, x ∈ l ↔ (∃ id, ds_accounts d !! id = Some x) ∧ keep x = true.
Proof using Hh Hrep.
  apply collect_spec; [apply (rep_account _ _ (rep_accounts _ _ Hrep))| |apply (rep_account_keys _ _ (rep_accounts _ _ Hrep))]. intros id x Hx. by apply (rep_account_id _ _ (rep_accounts _ _ Hrep)) in Hx as [? _].
Qed.
Lemma domains_list_spec :
  ∃ l, domains_list s = Ok l ∧ ∀ y, y ∈ l ↔ ∃ id, ds_domains d !! id = Some y.
Proof using Hh Hrep.
  destruct (collect_spec "domain" TAG_DOMAIN_RECORD (ds_domains d) (λ _, true)) as (l & E & Hl).
  - apply (rep_domain _ _ (rep_domains _ _ Hrep)).
  - intros id x Hx. by apply (rep_domain_id _ _ (rep_domains _ _ Hrep)) in Hx as [? _].
  - apply (rep_domain_keys _ _ (rep_domains _ _ Hrep)).
  - exists l. split; [done|]. intros y. rewrite Hl. naive_solver.
Qed.
End scans.
