(* ===== verification/DirectoryWrite.v ===== *)
(** * The directory: what its writes do to the rows

    Batches of sets and deletes as one update of the contents, and what the
    batches of the registries do to each of the three abstract maps. *)

From S2P Require Import Prelude Bytes Key Store Ids Text Directory DirectoryRep.
From stdpp Require Import base gmap list strings.
From Stdlib Require Import ZArith Lia.

Open Scope Z_scope.

(** ** Batches without counters *)

Definition put (c : contents) (op : WriteOp) : contents :=
  match op with WSet k v => <[k := v]> c | WDelete k => base.delete k c | WAdd _ _ => c end.
Abbreviation puts := (foldl put).
Definition is_put (op : WriteOp) : bool := match op with WAdd _ _ => false | _ => true end.

Lemma apply_puts c ops : Forall (λ op, is_put op = true) ops → apply_ops c ops = Some (puts c ops).
Proof.
  revert c. induction ops as [|op ops IH]; intros c; [done|]. intros [Hop Hops]%Forall_cons.
  destruct op; simpl in *; [by apply IH..|done].
Qed.
Lemma puts_other c ops k : k ∉ op_key <$> ops → puts c ops !! k = c !! k.
Proof.
  revert c. induction ops as [|op ops IH]; intros c; simpl; [done|]. intros [Hk Hks]%not_elem_of_cons.
  rewrite IH by done. destruct op; simpl in *; [by rewrite lookup_insert_ne|by rewrite lookup_delete_ne|done].
Qed.
Lemma batch_puts {S} `{StoreSpec S} (s : S) ops :
  healthy s → Forall (λ op, is_put op = true ∧ known (op_key op)) ops →
  ∃ s', st_batch ops s = (Ok tt, s') ∧ healthy s' ∧ view s' = puts (view s) ops.
Proof.
  intros Hh Hops. apply batch_spec; [done| |apply apply_puts].
  - eapply Forall_impl; [exact Hops|]. intros [] []; done.
  - eapply Forall_impl; [exact Hops|]. naive_solver.
Qed.

(** Steps of a call that reads before it writes. *)
Lemma bind_reads {S A B} (f : S → result A) (k : A → M S B) s :
  (x ← reads f; k x) s = match f s with Ok a => k a s | Err e => (Err e, s) end.
Proof. done. Qed.
Lemma bind_lift {S A B} (r : result A) (k : A → M S B) s :
  (x ← lift r; k x) s = match r with Ok a => k a s | Err e => (Err e, s) end.
Proof. done. Qed.
Lemma bind_step {S A B} (m : M S A) (k : A → M S B) s r s' :
  m s = (r, s') → (x ← m; k x) s = match r with Ok a => k a s' | Err e => (Err e, s') end.
Proof. intros E. unfold mbind, M_bind. by rewrite E. Qed.

(** ** Frames *)

Definition rows_agree (tags : list Z) (c c' : contents) : Prop :=
  ∀ t l, t ∈ tags → c' !! (subspace_as_byte Registry :: t :: l) = c !! (subspace_as_byte Registry :: t :: l).

Lemma rows_agree_trans tags c c1 c2 : rows_agree tags c c1 → rows_agree tags c1 c2 → rows_agree tags c c2.
Proof. intros H1 H2 t l Ht. rewrite H2 by done. by apply H1. Qed.
Lemma puts_agree tags c ops :
  (∀ op t l, op ∈ ops → t ∈ tags → op_key op ≠ subspace_as_byte Registry :: t :: l) → rows_agree tags c (puts c ops).
Proof.
  intros Hops t l Ht. apply puts_other. intros (op & E & Hop)%list_elem_of_fmap. by apply (Hops op t l Hop Ht).
Qed.

Section frames.
Context `{DirectoryJson}.
Lemma record_bytes_frame tag c c' : rows_agree [tag] c c' → record_bytes tag c → record_bytes tag c'.
Proof.
  intros Hc Hb k v Hk Hr. apply (Hb k v); [|done]. apply is_record_key_spec in Hr as (l & -> & _).
  simpl in *. rewrite <-Hk. symmetry. apply Hc. set_solver.
Qed.
Lemma domains_rep_frame c c' ds : rows_agree [TAG_DOMAIN_RECORD; TAG_DOMAIN_NAME] c c' → domains_rep c ds → domains_rep c' ds.
Proof.
  intros Hc [H1 H2 H3 H4]. split; [..|eapply record_bytes_frame; [|done]; intros t l ?; apply Hc; set_solver].
  - intros id Hid. rewrite <-H1 by done. f_equal. apply Hc. set_solver.
  - intros n v. rewrite <-H2. unfold name_key. simpl. rewrite Hc by set_solver. done.
  - done.
Qed.
Lemma accounts_rep_frame c c' acs : rows_agree [TAG_ACCOUNT_RECORD; TAG_ACCOUNT_ADDRESS] c c' → accounts_rep c acs → accounts_rep c' acs.
Proof.
  intros Hc [H1 H2 H3 H4]. split; [..|eapply record_bytes_frame; [|done]; intros t l ?; apply Hc; set_solver].
  - intros id Hid. rewrite <-H1 by done. f_equal. apply Hc. set_solver.
  - intros did lp v Hid. rewrite <-H2 by done. unfold address_key. simpl. rewrite Hc by set_solver. done.
  - done.
Qed.
Lemma entries_rep_frame c c' es : rows_agree [TAG_ADDRESS_ENTRY] c c' → entries_rep c es → entries_rep c' es.
Proof. intros Hc He a. rewrite <-He. f_equal. apply Hc. set_solver. Qed.

End frames.

(** ** An index kept beside its records *)

Section index.
Context {A K : Type} {eqK : EqDecision K} (key : K → bytes) (proj : A → K) (good : K → Prop).
Context (key_inj : ∀ k1 k2, good k1 → good k2 → key k1 = key k2 → k1 = k2).
Implicit Types (m : gmap Z A).

Definition index_rep (c : contents) m : Prop :=
  (∀ k v, good k → c !! key k = Some v ↔ ∃ id x, m !! id = Some x ∧ proj x = k ∧ v = u64_be id) ∧
  (∀ id x, m !! id = Some x → is_u64 id ∧ good (proj x)).

Lemma index_unique c m id1 x1 id2 x2 :
  index_rep c m → m !! id1 = Some x1 → m !! id2 = Some x2 → proj x1 = proj x2 → id1 = id2.
Proof using Type.
  intros [Hi Hg] H1 H2 E. destruct (Hg _ _ H1), (Hg _ _ H2). apply u64_be_eq; [done..|].
  assert (c !! key (proj x1) = Some (u64_be id1)) as E1 by (apply Hi; [done|by exists id1, x1]).
  assert (c !! key (proj x1) = Some (u64_be id2)) as E2 by (apply Hi; [done|by exists id2, x2]). congruence.
Qed.

(** The old row goes, the new one comes. *)
Definition unindex (old : option A) (c : contents) : contents :=
  match old with Some o => base.delete (key (proj o)) c | None => c end.

Lemma index_removed c m id :
  index_rep c m → index_rep (unindex (m !! id) c) (base.delete id m).
Proof using key_inj eqK.
  intros Hrep. pose proof Hrep as [Hi Hg]. split; [|intros id' x' [_ ?]%lookup_delete_Some; by apply Hg].
  intros k v Hk. destruct (m !! id) as [o|] eqn:Eo; simpl.
  - destruct (Hg _ _ Eo) as [_ Hgo]. destruct (decide (k = proj o)) as [->|Hne].
    + rewrite lookup_delete_eq. split; [done|]. intros (id' & x' & [Hne Hx]%lookup_delete_Some & E & _).
      destruct Hne. symmetry. by eapply index_unique.
    + rewrite lookup_delete_ne by (intros E; apply Hne; symmetry; by apply key_inj). rewrite Hi by done. split.
      * intros (id' & x' & Hx & E & ->). exists id', x'. rewrite lookup_delete_Some. split_and!; [|done..]. intros ->. naive_solver.
      * intros (id' & x' & [_ Hx]%lookup_delete_Some & ?). by exists id', x'.
  - rewrite Hi by done. by rewrite delete_id.
Qed.
Lemma index_added c m id x :
  index_rep c m → m !! id = None → is_u64 id → good (proj x) →
  (∀ id' x', m !! id' = Some x' → proj x' ≠ proj x) →
  index_rep (<[key (proj x) := u64_be id]> c) (<[id := x]> m).
Proof using key_inj eqK.
  intros [Hi Hg] Hid Hu Hgx Hfree. split; [|intros id' x' [[<- <-]|[_ ?]]%lookup_insert_Some; [done|by apply Hg]].
  intros k v Hk. destruct (decide (k = proj x)) as [->|Hne].
  - rewrite lookup_insert_eq. split.
    + intros [= <-]. exists id, x. by rewrite lookup_insert_eq.
    + intros (id' & x' & [[<- <-]|[_ Hx]]%lookup_insert_Some & E & ->); [done|]. by destruct (Hfree _ _ Hx E).
  - rewrite lookup_insert_ne by (intros E; apply Hne; symmetry; by apply key_inj). rewrite Hi by done. split.
    + intros (id' & x' & Hx & E & ->). exists id', x'. rewrite lookup_insert_ne by congruence. done.
    + intros (id' & x' & [[<- <-]|[_ Hx]]%lookup_insert_Some & E & ->); [done|]. by exists id', x'.
Qed.
Lemma index_replaced c m id x :
  index_rep c m → is_u64 id → good (proj x) →
  (∀ id' x', m !! id' = Some x' → id' ≠ id → proj x' ≠ proj x) →
  index_rep (<[key (proj x) := u64_be id]> (unindex (m !! id) c)) (<[id := x]> m).
Proof using key_inj eqK.
  intros Hrep Hu Hgx Hfree. rewrite <-(insert_delete_eq m id x). apply index_added; [by apply index_removed|by rewrite lookup_delete_eq|done..|].
  intros id' x' [? Hx]%lookup_delete_Some. by eapply Hfree.
Qed.
(** Unless the projection changes, nothing is to be written. *)
Lemma index_kept c m id o x :
  index_rep c m → m !! id = Some o → proj o = proj x →
  <[key (proj x) := u64_be id]> (unindex (m !! id) c) = c.
Proof using Type.
  intros [Hi Hg] Ho E. rewrite Ho. simpl. rewrite E. apply insert_delete_id. destruct (Hg _ _ Ho).
  apply Hi; [congruence|]. by exists id, o.
Qed.
End index.

(** The two indexes. *)
Definition address_of (x : Account) : Z * bytes := (ac_domain_id x, ac_local_part x).
Definition address_row (k : Z * bytes) : bytes := address_key k.1 k.2.
Lemma address_row_inj k1 k2 : is_u64 k1.1 → is_u64 k2.1 → address_row k1 = address_row k2 → k1 = k2.
Proof. destruct k1 as [a1 b1], k2 as [a2 b2]. intros H1 H2 E. destruct (address_key_eq a1 b1 a2 b2 H1 H2 E). by subst. Qed.
Lemma name_key_inj n1 n2 : True → True → name_key n1 = name_key n2 → n1 = n2.
Proof. intros _ _ E. by apply app_inv_head in E. Qed.

Section records.
Context `{DirectoryJson}.

Lemma accounts_index c acs : accounts_rep c acs → index_rep address_row address_of (λ k, is_u64 k.1) c acs.
Proof.
  intros [_ Hr Hid _]. split.
  - intros [did lp] v Hk. unfold address_row. simpl in *. rewrite Hr by done. unfold address_of. split; naive_solver.
  - intros id x Hx. apply Hid in Hx. naive_solver.
Qed.
Lemma domains_index c ds : domains_rep c ds → index_rep name_key dm_name (λ _, True) c ds.
Proof. intros [_ Hr Hid _]. split; [naive_solver|]. intros id y Hy. apply Hid in Hy. naive_solver. Qed.

(** A record written or removed. *)
Lemma records_set {A} `{Json A} (c : contents) (m : gmap Z A) tag id rec x :
  is_u64 id → of_json rec = inr x →
  (∀ id, is_u64 id → of_json <$> c !! ([subspace_as_byte Registry; tag] ++ u64_be id) = inr <$> m !! id) →
  ∀ id', is_u64 id' → of_json <$> <[[subspace_as_byte Registry; tag] ++ u64_be id := rec]> c !! ([subspace_as_byte Registry; tag] ++ u64_be id')
    = inr <$> <[id := x]> m !! id'.
Proof.
  intros Hid Hx Hm id' Hid'. destruct (decide (id' = id)) as [->|Hne]; [rewrite !lookup_insert_eq; simpl; by rewrite Hx|].
  rewrite !lookup_insert_ne; [by apply Hm|done|]. intros E. apply app_inv_head in E. apply Hne. symmetry. by apply u64_be_eq.
Qed.
Lemma records_delete {A} `{Json A} (c : contents) (m : gmap Z A) tag id :
  is_u64 id →
  (∀ id, is_u64 id → of_json <$> c !! ([subspace_as_byte Registry; tag] ++ u64_be id) = inr <$> m !! id) →
  ∀ id', is_u64 id' → of_json <$> base.delete ([subspace_as_byte Registry; tag] ++ u64_be id) c !! ([subspace_as_byte Registry; tag] ++ u64_be id')
    = inr <$> base.delete id m !! id'.
Proof.
  intros Hid Hm id' Hid'. destruct (decide (id' = id)) as [->|Hne]; [by rewrite !lookup_delete_eq|].
  rewrite !lookup_delete_ne; [by apply Hm|done|]. intros E. apply app_inv_head in E. apply Hne. symmetry. by apply u64_be_eq.
Qed.
Lemma u64_be_is_byte id : Forall is_byte (u64_be id).
Proof. apply (be_bytes_is_byte 8). Qed.
Lemma record_bytes_insert tag id v c :
  is_byte tag → record_bytes tag c → record_bytes tag (<[[subspace_as_byte Registry; tag] ++ u64_be id := v]> c).
Proof.
  intros Ht Hb k v'. rewrite lookup_insert_Some. intros [[<- _]|[_ Hk]] Hr; [|by apply (Hb k v')].
  constructor; [by vm_compute|]. constructor; [done|apply u64_be_is_byte].
Qed.
Lemma record_bytes_delete tag k c : record_bytes tag c → record_bytes tag (base.delete k c).
Proof. intros Hb k' v [_ ?]%lookup_delete_Some. by eapply Hb. Qed.

Lemma accounts_rep_intro c acs :
  (∀ id, is_u64 id → of_json <$> c !! account_record_key id = inr <$> acs !! id) →
  index_rep address_row address_of (λ k, is_u64 k.1) c acs →
  (∀ id x, acs !! id = Some x → ac_id x = id) → record_bytes TAG_ACCOUNT_RECORD c → accounts_rep c acs.
Proof.
  intros Hr [Hi Hg] Hid Hb. split; [done| | |done].
  - intros did lp v Hd. specialize (Hi (did, lp) v Hd). unfold address_row in Hi. simpl in Hi. rewrite Hi. unfold address_of.
    split; naive_solver.
  - intros id x Hx. destruct (Hg id x Hx). split_and!; [done|by apply Hid|done].
Qed.
Lemma domains_rep_intro c ds :
  (∀ id, is_u64 id → of_json <$> c !! domain_record_key id = inr <$> ds !! id) →
  index_rep name_key dm_name (λ _, True) c ds →
  (∀ id y, ds !! id = Some y → dm_id y = id) → record_bytes TAG_DOMAIN_RECORD c → domains_rep c ds.
Proof.
  intros Hr [Hi Hg] Hid Hb. split; [done| | |done].
  - intros n v. by apply Hi.
  - intros id y Hy. destruct (Hg id y Hy). split; [done|by apply Hid].
Qed.

(** Records and index together. *)
Lemma accounts_rep_set c acs id x rec :
  accounts_rep c acs → is_u64 id → ac_id x = id → is_u64 (ac_domain_id x) → of_json rec = inr x →
  (∀ id' x', acs !! id' = Some x' → id' ≠ id → address_of x' ≠ address_of x) →
  accounts_rep (<[address_row (address_of x) := u64_be id]>
    (unindex address_row address_of (acs !! id) (<[account_record_key id := rec]> c))) (<[id := x]> acs).
Proof.
  intros Hrep Hid Hx Hd Hrec Hfree. apply accounts_rep_intro.
  - intros id' Hid'. transitivity (of_json (A := Account) <$> <[account_record_key id := rec]> c !! account_record_key id').
    { f_equal. rewrite lookup_insert_ne by rows_differ. unfold unindex. destruct (acs !! id); [|done].
      rewrite lookup_delete_ne by rows_differ. done. }
    apply records_set; [done|done|apply (rep_account _ _ Hrep)|done].
  - apply index_replaced; [apply address_row_inj| |done..].
    destruct (accounts_index c acs Hrep) as [Hi Hg]. split; [|exact Hg]. intros k v Hk.
    rewrite lookup_insert_ne by rows_differ. by apply Hi.
  - intros id' x' [[<- <-]|[_ Hx']]%lookup_insert_Some; [done|]. by apply (rep_account_id _ _ Hrep) in Hx' as (_ & ? & _).
  - intros k v Hk Hr. destruct (decide (k = account_record_key id)) as [->|Hne].
    + constructor; [by vm_compute|]. constructor; [by vm_compute|apply u64_be_is_byte].
    + apply (rep_account_keys _ _ Hrep k v); [|done]. apply is_record_key_spec in Hr as (l & -> & _).
      rewrite lookup_insert_ne in Hk by rows_differ. unfold unindex in Hk. destruct (acs !! id).
      * rewrite lookup_delete_ne in Hk by rows_differ. by rewrite lookup_insert_ne in Hk by done.
      * by rewrite lookup_insert_ne in Hk by done.
Qed.
Lemma accounts_rep_delete c acs id x :
  accounts_rep c acs → acs !! id = Some x →
  accounts_rep (base.delete (address_row (address_of x)) (base.delete (account_record_key id) c)) (base.delete id acs).
Proof.
  intros Hrep Hx. destruct (rep_account_id _ _ Hrep id x Hx) as (Hid & _ & _). apply accounts_rep_intro.
  - intros id' Hid'. rewrite lookup_delete_ne by rows_differ. apply records_delete; [done|apply (rep_account _ _ Hrep)|done].
  - assert (index_rep address_row address_of (λ k, is_u64 k.1) (base.delete (account_record_key id) c) acs) as Hi.
    { destruct (accounts_index c acs Hrep) as [Hi Hg]. split; [|exact Hg]. intros k v Hk. rewrite lookup_delete_ne by rows_differ. by apply Hi. }
    apply (index_removed address_row address_of _ address_row_inj _ _ id) in Hi. by rewrite Hx in Hi.
  - intros id' x' [_ Hx']%lookup_delete_Some. by apply (rep_account_id _ _ Hrep) in Hx' as (_ & ? & _).
  - apply record_bytes_delete, record_bytes_delete, (rep_account_keys _ _ Hrep).
Qed.
Lemma domains_rep_set c ds id y rec :
  domains_rep c ds → is_u64 id → dm_id y = id → of_json rec = inr y →
  (∀ id' y', ds !! id' = Some y' → id' ≠ id → dm_name y' ≠ dm_name y) →
  domains_rep (<[name_key (dm_name y) := u64_be id]>
    (unindex name_key dm_name (ds !! id) (<[domain_record_key id := rec]> c))) (<[id := y]> ds).
Proof.
  intros Hrep Hid Hy Hrec Hfree. apply domains_rep_intro.
  - intros id' Hid'. transitivity (of_json (A := Domain) <$> <[domain_record_key id := rec]> c !! domain_record_key id').
    { f_equal. rewrite lookup_insert_ne by rows_differ. unfold unindex. destruct (ds !! id); [|done].
      rewrite lookup_delete_ne by rows_differ. done. }
    apply records_set; [done|done|apply (rep_domain _ _ Hrep)|done].
  - apply index_replaced; [apply name_key_inj| |done..].
    destruct (domains_index c ds Hrep) as [Hi Hg]. split; [|exact Hg]. intros k v Hk.
    rewrite lookup_insert_ne by rows_differ. by apply Hi.
  - intros id' x' [[<- <-]|[_ Hx']]%lookup_insert_Some; [done|]. by apply (rep_domain_id _ _ Hrep) in Hx' as (_ & ?).
  - intros k v Hk Hr. destruct (decide (k = domain_record_key id)) as [->|Hne].
    + constructor; [by vm_compute|]. constructor; [by vm_compute|apply u64_be_is_byte].
    + apply (rep_domain_keys _ _ Hrep k v); [|done]. apply is_record_key_spec in Hr as (l & -> & _).
      rewrite lookup_insert_ne in Hk by rows_differ. unfold unindex in Hk. destruct (ds !! id).
      * rewrite lookup_delete_ne in Hk by rows_differ. by rewrite lookup_insert_ne in Hk by done.
      * by rewrite lookup_insert_ne in Hk by done.
Qed.
Lemma domains_rep_delete c ds id y :
  domains_rep c ds → ds !! id = Some y →
  domains_rep (base.delete (name_key (dm_name y)) (base.delete (domain_record_key id) c)) (base.delete id ds).
Proof.
  intros Hrep Hy. destruct (rep_domain_id _ _ Hrep id y Hy) as (Hid & _). apply domains_rep_intro.
  - intros id' Hid'. rewrite lookup_delete_ne by rows_differ. apply records_delete; [done|apply (rep_domain _ _ Hrep)|done].
  - assert (index_rep name_key dm_name (λ _, True) (base.delete (domain_record_key id) c) ds) as Hi.
    { destruct (domains_index c ds Hrep) as [Hi Hg]. split; [|exact Hg]. intros k v Hk. rewrite lookup_delete_ne by rows_differ. by apply Hi. }
    apply (index_removed name_key dm_name _ name_key_inj _ _ id) in Hi. by rewrite Hy in Hi.
  - intros id' x' [_ Hx']%lookup_delete_Some. by apply (rep_domain_id _ _ Hrep) in Hx' as (_ & ?).
  - apply record_bytes_delete, record_bytes_delete, (rep_domain_keys _ _ Hrep).
Qed.
End records.

(** ** The address index *)

(** Entries of [prev] that are not kept go, those of [cur] lead to [id]. *)
Definition claim (id : Z) (prev cur : list bytes) (es : gmap bytes AddressEntry) : gmap bytes AddressEntry :=
  foldr (λ a m, <[a := mkEntry a (ToAccount id)]> m) (foldr base.delete es prev) cur.
Lemma claim_lookup id prev cur es a :
  claim id prev cur es !! a =
  if decide (a ∈ cur) then Some (mkEntry a (ToAccount id)) else if decide (a ∈ prev) then None else es !! a.
Proof.
  unfold claim. induction cur as [|b cur IH]; simpl.
  - induction prev as [|b prev IHp]; simpl; [done|].
    destruct (decide (b = a)) as [->|Hne]; [by rewrite lookup_delete_eq, decide_True by set_solver|].
    rewrite lookup_delete_ne, IHp by done. destruct (decide (a ∈ prev)), (decide (a ∈ b :: prev)); set_solver.
  - destruct (decide (b = a)) as [->|Hne]; [by rewrite lookup_insert_eq, decide_True by set_solver|].
    rewrite lookup_insert_ne, IH by done. destruct (decide (a ∈ cur)), (decide (a ∈ b :: cur)); set_solver.
Qed.

Arguments claim : simpl never.

Definition entry_op (op : WriteOp) : Prop := is_put op = true ∧ ∃ a, op_key op = entry_key a.
Lemma entry_op_known op : entry_op op → is_put op = true ∧ known (op_key op).
Proof. intros [? [a ->]]. split; [done|apply known_registry]. Qed.
Lemma entry_ops_agree tags c ops : TAG_ADDRESS_ENTRY ∉ tags → Forall entry_op ops → rows_agree tags c (puts c ops).
Proof.
  intros Ht Hops. apply puts_agree. intros op t l Hop Hin E. rewrite Forall_forall in Hops.
  destruct (Hops op Hop) as [_ [a Ea]]. rewrite Ea in E. unfold entry_key in E. simplify_list_eq. done.
Qed.

Section entries.
Context `{DirectoryJson} {json_laws : DirectoryJsonLaws}.

Lemma encode_row_spec {A} `{JsonLaws A} what (x : A) : ∃ b, encode_row what x = Ok b ∧ of_json b = inr x.
Proof. unfold encode_row. destruct (json_roundtrip x) as (b & -> & ?). by exists b. Qed.

Lemma put_entry_set c es a b e :
  entries_rep c es → of_json b = inr e → entries_rep (<[entry_key a := b]> c) (<[a := e]> es).
Proof.
  intros Hc Hb a'. destruct (decide (a' = a)) as [->|Hne]; [rewrite !lookup_insert_eq; simpl; by rewrite Hb|].
  rewrite !lookup_insert_ne; [apply Hc|done|]. intros E. apply app_inv_head in E. congruence.
Qed.
Lemma put_entry_delete c es a : entries_rep c es → entries_rep (base.delete (entry_key a) c) (base.delete a es).
Proof.
  intros Hc a'. destruct (decide (a' = a)) as [->|Hne]; [by rewrite !lookup_delete_eq|].
  rewrite !lookup_delete_ne; [apply Hc|done|]. intros E. apply app_inv_head in E. congruence.
Qed.

Lemma entry_set_ops_spec id cur :
  ∃ sets, entry_set_ops id cur = Ok sets ∧ Forall entry_op sets ∧
    ∀ c es, entries_rep c es → entries_rep (puts c sets) (claim id [] cur es).
Proof using json_laws.
  induction cur as [|a cur IH]; simpl; [by exists []|].
  destruct (encode_row_spec "address entry" (mkEntry a (ToAccount id))) as (b & -> & Hb).
  destruct IH as (sets & -> & Hops & Hrep). simpl. exists (WSet (entry_key a) b :: sets). split_and!; [done| |].
  - constructor; [|done]. split; [done|by exists a].
  - intros c es Hc. specialize (Hrep _ _ (put_entry_set c es a b _ Hc Hb)). simpl. intros a'. rewrite Hrep. f_equal.
    rewrite !claim_lookup. destruct (decide (a' = a)) as [->|Hne].
    + rewrite lookup_insert_eq, (decide_True (P := a ∈ a :: cur)) by set_solver. repeat case_decide; set_solver.
    + rewrite lookup_insert_ne by done. destruct (decide (a' ∈ cur)), (decide (a' ∈ a :: cur)); set_solver.
Qed.
Lemma entry_delete_ops_spec prev c es :
  entries_rep c es → entries_rep (puts c ((λ a, WDelete (entry_key a)) <$> prev)) (claim 0 prev [] es).
Proof.
  revert c es. induction prev as [|a prev IH]; intros c es Hc; simpl; [done|].
  intros a'. rewrite (IH _ _ (put_entry_delete c es a Hc)). f_equal. rewrite !claim_lookup.
  destruct (decide (a' = a)) as [->|Hne].
  - rewrite lookup_delete_eq, (decide_True (P := a ∈ a :: prev)) by set_solver. repeat case_decide; set_solver.
  - rewrite lookup_delete_ne by done. destruct (decide (a' ∈ prev)), (decide (a' ∈ a :: prev)); set_solver.
Qed.
End entries.

(** No address of [cur] is new and taken by someone else. *)
Definition free (d : dir) (id : Z) (prev cur : list bytes) : Prop :=
  Forall (λ a, a ∈ prev ∨ match ds_entries d !! a with Some e => entry_account_id e = Some id | None => True end) cur.
#[global] Instance free_dec d id prev cur : Decision (free d id prev cur).
Proof. unfold free. apply Forall_dec. intros a. destruct (ds_entries d !! a); apply _. Defined.

Section address_ops.
Context {S : Type} {store : Store S} {contract : StoreSpec S} `{DirectoryJson} {json_laws : DirectoryJsonLaws}.
Context (s : S) (d : dir) (Hh : healthy s) (Hrep : dir_rep (view s) d).

Lemma check_free_spec id prev cur :
  Forall (λ a, normalize_address a = a) cur →
  if decide (free d id prev cur) then check_free id prev cur s = Ok tt else ∃ e, check_free id prev cur s = Err e.
Proof using Hh Hrep.
  induction cur as [|a cur IH]; intros Hn; cbn [check_free]; [by rewrite decide_True by constructor|].
  apply Forall_cons in Hn as [Ha Hn]. specialize (IH Hn). unfold resolve_entry. rewrite Ha, (entry_at_spec s d Hh Hrep).
  pose proof (Forall_cons (λ a, a ∈ prev ∨ match ds_entries d !! a with Some e => entry_account_id e = Some id | None => True end)
    a cur) as Hcons. fold (free d id prev (a :: cur)) (free d id prev cur) in Hcons.
  destruct (decide (free d id prev (a :: cur))) as [[Ha' Hc]%Hcons|Hno].
  - rewrite decide_True in IH by done. case_bool_decide; [done|]. simpl. destruct (ds_entries d !! a) as [e|]; [|done].
    rewrite bool_decide_true by tauto. done.
  - assert (¬ free d id prev cur → ∃ e, check_free id prev cur s = Err e) as Hgo.
    { intros Hc. by rewrite decide_False in IH by done. }
    case_bool_decide; [apply Hgo; tauto|]. simpl.
    destruct (ds_entries d !! a) as [e|] eqn:Ee; cbv beta in Hcons; rewrite Ee in Hcons; [|apply Hgo; tauto].
    case_bool_decide; [apply Hgo; tauto|]. by eexists.
Qed.

(** [account_address_ops]: refused when an address is taken, otherwise it
    moves the entries. *)
Lemma account_address_ops_spec id prev cur :
  Forall (λ a, normalize_address a ≠ []) prev → Forall (λ a, normalize_address a ≠ []) cur →
  if decide (free d id (normalize_address <$> prev) (normalize_address <$> cur)) then
    ∃ ops, account_address_ops id prev cur s = Ok ops ∧ Forall entry_op ops ∧
      ∀ c es, entries_rep c es → entries_rep (puts c ops) (claim id (normalize_address <$> prev) (normalize_address <$> cur) es)
  else ∃ e, account_address_ops id prev cur s = Err e.
Proof using Hh Hrep json_laws.
  intros Hp Hc. unfold account_address_ops. cbv zeta.
  assert (∀ l : list bytes, Forall (λ a, normalize_address a ≠ []) l →
    existsb (λ a : bytes, bool_decide (a = [])) (normalize_address <$> l) = false) as Hb.
  { intros l Hl. induction Hl as [|a l Ha Hl IH]; simpl; [done|]. by rewrite bool_decide_false. }
  rewrite !Hb by done. cbn [orb].
  pose proof (check_free_spec id (normalize_address <$> prev) (normalize_address <$> cur)) as Hf.
  assert (Forall (λ a, normalize_address a = a) (normalize_address <$> cur)) as Hn.
  { apply Forall_fmap, Forall_true. intros a. apply normalize_idem. }
  specialize (Hf Hn). case_decide; [|destruct Hf as [e ->]; by exists e]. rewrite Hf. cbn [mbind result_bind].
  destruct (entry_set_ops_spec id (normalize_address <$> cur)) as (sets & -> & Hsets & Hset). cbn [mbind result_bind].
  eexists. split; [done|]. split.
  - apply Forall_app. split; [|done]. apply Forall_fmap, Forall_true. intros a. split; [done|by exists a].
  - intros c es Hes. rewrite foldl_app.
    specialize (Hset _ _ (entry_delete_ops_spec (filter (λ a, a ∉ normalize_address <$> cur) (normalize_address <$> prev)) c es Hes)).
    intros a. rewrite Hset. f_equal. rewrite !claim_lookup.
    destruct (decide (a ∈ normalize_address <$> cur)) as [|Hno]; [done|]. rewrite !(decide_False (P := a ∈ [])) by set_solver.
    destruct (decide (a ∈ filter _ _)) as [Hin|Hin], (decide (a ∈ normalize_address <$> prev)) as [Hin'|Hin']; try done;
      rewrite list_elem_of_filter in Hin; naive_solver.
Qed.
End address_ops.
