(* ===== verification/DirectoryHistory.v ===== *)
(** * The directory: every history keeps the address index right

    The operations on domains and accounts as events, what each does to the
    abstract directory and when it is refused.  After any history every
    address of an account leads to it, and an entry leads to an account only
    if the address is the account's own or the catch-all of a domain.  Then
    what [resolve] (mail/src/resolve.rs) and the lookup of a login name say of
    a directory, and with that what every history makes them say. *)

From S2P Require Import Prelude Bytes Key Store Ids Text Directory DirectoryRep DirectoryWrite.
From stdpp Require Import base gmap list strings.
From Stdlib Require Import ZArith Lia.

Open Scope Z_scope.

Inductive dir_event : Type :=
  | EDomainCreate (id : Z) (name : bytes) (aliases : list bytes)
  | EDomainUpdate (y : Domain)
  | EDomainDelete (id : Z)
  | EAccountCreate (id : Z) (local_part : bytes) (domain_id : Z) (display_name : bytes) (role : Role) (extra : Z → Z → list WriteOp)
  | EAccountUpdate (x : Account)
  | EAccountDelete (id : Z).

Definition dir_exec {S} `{Store S} `{DirectoryJson} (e : dir_event) : M S unit :=
  match e with
  | EDomainCreate id name aliases => _ ← domain_create id name aliases; mret tt
  | EDomainUpdate y => domain_update y
  | EDomainDelete id => domain_delete id
  | EAccountCreate id lp did display role extra => _ ← create_with_extra_ops id lp did display role extra; mret tt
  | EAccountUpdate x => account_update x
  | EAccountDelete id => account_delete id
  end.

(** ** The abstract directory *)

Definition new_domain (id : Z) (name : bytes) (aliases : list bytes) : Domain :=
  mkDomain id (normalize_name name) (tidy_aliases aliases) true None [] Unverified (as_u64 (timestamp_of id * 1000)).
Definition created (id : Z) (lp : bytes) (did : Z) (display : bytes) (role : Role) : Account :=
  new_account id (normalize_local_part lp) did display role.

(** One account's record and entries replaced. *)
Definition replace_account (d : dir) (id : Z) (new : option Account) : dir :=
  mkDir (ds_domains d)
    (match new with Some x => <[id := x]> (ds_accounts d) | None => base.delete id (ds_accounts d) end)
    (claim id (default [] (own d <$> ds_accounts d !! id)) (default [] (own d <$> new)) (ds_entries d)).
(** The catch-all entry of a domain. *)
Definition uncatch (o : option Domain) (es : gmap bytes AddressEntry) : gmap bytes AddressEntry :=
  match o with
  | Some y => match dm_catch_all y with Some _ => base.delete (catch_address y) es | None => es end
  | None => es
  end.
Definition catch (y : Domain) (es : gmap bytes AddressEntry) : gmap bytes AddressEntry :=
  match dm_catch_all y with Some acc => <[catch_address y := mkEntry (catch_address y) (ToAccount acc)]> es | None => es end.

Definition dir_step (d : dir) (e : dir_event) : dir :=
  match e with
  | EDomainCreate id name aliases =>
      mkDir (<[id := new_domain id name aliases]> (ds_domains d)) (ds_accounts d) (ds_entries d)
  | EDomainUpdate y =>
      mkDir (<[dm_id y := tidy_domain y]> (ds_domains d)) (ds_accounts d)
        (catch (tidy_domain y) (uncatch (ds_domains d !! dm_id y) (ds_entries d)))
  | EDomainDelete id =>
      mkDir (base.delete id (ds_domains d)) (ds_accounts d) (uncatch (ds_domains d !! id) (ds_entries d))
  | EAccountCreate id lp did display role _ => replace_account d id (Some (created id lp did display role))
  | EAccountUpdate x => replace_account d (ac_id x) (Some (tidy_account x))
  | EAccountDelete id => replace_account d id None
  end.

(** The account's own local part and domain are not another's, and its
    addresses are free. *)
Definition account_fits (d : dir) (id : Z) (x : Account) : Prop :=
  ac_local_part x ≠ [] ∧
  (∀ id' x', ds_accounts d !! id' = Some x' → id' ≠ id → address_of x' ≠ address_of x) ∧
  free d id (default [] (own d <$> ds_accounts d !! id)) (own d x).

(** When an operation is accepted. *)
Definition accepts (d : dir) (e : dir_event) : Prop :=
  match e with
  | EDomainCreate id name aliases =>
      normalize_name name ≠ [] ∧ ∀ id' y, ds_domains d !! id' = Some y → dm_name y ≠ normalize_name name
  | EDomainUpdate y => is_Some (ds_domains d !! dm_id y)
  | EDomainDelete id => is_Some (ds_domains d !! id) ∧ ∀ id' x, ds_accounts d !! id' = Some x → ac_domain_id x ≠ id
  | EAccountCreate id lp did display role _ => account_fits d id (created id lp did display role)
  | EAccountUpdate x => is_Some (ds_accounts d !! ac_id x) ∧ account_fits d (ac_id x) (tidy_account x)
  | EAccountDelete id => is_Some (ds_accounts d !! id)
  end.

(** What the callers see to: 64-bit ids, new ids not in use, addresses with a
    local part, domain names without white space at the ends, and no change
    of a domain's name. *)
Definition has_local_part (d : dir) (x : Account) : Prop :=
  ac_local_part x ≠ [] → ∀ a, a ∈ own d x → head a ≠ Some 64.
Definition admissible (d : dir) (e : dir_event) : Prop :=
  match e with
  | EDomainCreate id name aliases =>
      is_u64 id ∧ ds_domains d !! id = None ∧ (∀ id' x, ds_accounts d !! id' = Some x → ac_domain_id x ≠ id) ∧
      normalize_address (normalize_name name) = normalize_name name
  | EDomainUpdate y => is_u64 (dm_id y) ∧ ∀ o, ds_domains d !! dm_id y = Some o → normalize_name (dm_name y) = dm_name o
  | EDomainDelete id => is_u64 id
  | EAccountCreate id lp did display role extra =>
      is_u64 id ∧ ds_accounts d !! id = None ∧ is_u64 did ∧ has_local_part d (created id lp did display role) ∧
      Forall (λ op, is_put op = true ∧ known (op_key op) ∧ head (op_key op) ≠ Some (subspace_as_byte Registry))
        (extra id (ac_created_at (created id lp did display role)))
  | EAccountUpdate x => is_u64 (ac_id x) ∧ is_u64 (ac_domain_id x) ∧ has_local_part d (tidy_account x)
  | EAccountDelete id => is_u64 id
  end.

(** ** Agreement is kept *)

Lemma catch_not_plain y : ¬ plain (catch_address y).
Proof. intros [_ Hh]. done. Qed.

Lemma replace_account_ok d id new :
  dir_ok d → default True ((λ x, tidy (ac_local_part x) ∧ (∀ a, a ∈ own d x → plain a) ∧
    free d id (default [] (own d <$> ds_accounts d !! id)) (own d x)) <$> new) →
  dir_ok (replace_account d id new).
Proof.
  intros Hok Hnew. set (prev := default [] (own d <$> ds_accounts d !! id)). set (cur := default [] (own d <$> new)).
  assert (∀ id' x, ds_accounts (replace_account d id new) !! id' = Some x →
    (id' = id ∧ new = Some x) ∨ (id' ≠ id ∧ ds_accounts d !! id' = Some x)) as Hacs.
  { intros id' x. simpl. destruct new; [rewrite lookup_insert_Some|rewrite lookup_delete_Some]; naive_solver. }
  assert (∀ a, a ∈ prev → plain a ∧ ds_entries d !! a = Some (mkEntry a (ToAccount id))) as Hprev.
  { intros a Ha. subst prev. destruct (ds_accounts d !! id) as [o|] eqn:Eo; simpl in Ha; [|set_solver].
    split; [by eapply ok_plain|by eapply ok_owned]. }
  assert (∀ a, a ∈ cur → plain a ∧ (a ∈ prev ∨ match ds_entries d !! a with Some e => entry_account_id e = Some id | None => True end)) as Hcur.
  { intros a Ha. subst cur. destruct new as [x|]; simpl in *; [|set_solver]. destruct Hnew as (_ & Hp & Hf).
    split; [by apply Hp|]. unfold free in Hf. rewrite Forall_forall in Hf. by apply Hf. }
  assert (∀ id' x a, ds_accounts d !! id' = Some x → id' ≠ id → a ∈ own d x → a ∉ cur ∧ a ∉ prev) as Hother.
  { intros id' x a Hx Hne Ha. pose proof (ok_owned _ Hok _ _ _ Hx Ha) as He. split; intros Hin.
    - destruct (Hcur a Hin) as [_ [Hin'|Hown]]; [destruct (Hprev a Hin'); congruence|]. rewrite He in Hown. unfold entry_account_id in Hown. simpl in Hown. congruence.
    - destruct (Hprev a Hin). congruence. }
  split.
  - intros id' x [[-> ->]|[_ Hx]]%Hacs; [by destruct Hnew|by eapply ok_local].
  - apply (ok_name _ Hok).
  - intros id' x a [[-> ->]|[_ Hx]]%Hacs Ha; [by apply Hnew|by eapply (ok_plain _ Hok)].
  - intros id' x a Hx Ha. simpl. rewrite claim_lookup. fold prev cur.
    apply Hacs in Hx as [[-> ->]|[Hne Hx]]; [by rewrite decide_True|].
    destruct (Hother _ _ _ Hx Hne Ha). rewrite !decide_False by done. by eapply (ok_owned _ Hok).
  - intros id' y acc Hy Hc. simpl. rewrite claim_lookup. fold prev cur.
    rewrite !decide_False; [by eapply (ok_catch _ Hok)|intros ?%Hprev|intros ?%Hcur]; by eapply catch_not_plain, proj1.
  - intros a e. simpl. rewrite claim_lookup. fold prev cur. case_decide as Hin; [|case_decide as Hin'; [done|]].
    + intros [= <-]. split; [done|]. simpl. intros acc [= <-]. left. subst cur.
      destruct new as [x|]; simpl in *; [|set_solver]. exists x. by rewrite lookup_insert_eq.
    + intros He. destruct (ok_entry _ Hok _ _ He) as [Ha Ht]. split; [done|]. intros acc Hacc.
      destruct (Ht acc Hacc) as [(x & Hx & Hown)|?]; [left|by right]. exists x. split; [|done].
      assert (acc ≠ id) as Hne by (intros ->; subst prev; rewrite Hx in Hin'; by simpl in Hin').
      simpl. destruct new; [by rewrite lookup_insert_ne|by rewrite lookup_delete_ne].
Qed.

(** Accounts keep their addresses while their domain keeps its name. *)
Lemma own_domains d ds es x :
  dm_name <$> ds !! ac_domain_id x = dm_name <$> ds_domains d !! ac_domain_id x →
  own (mkDir ds (ds_accounts d) es) x = own d x.
Proof.
  intros E. unfold own, own_addresses, primary. simpl. f_equal. f_equal.
  destruct (ds !! ac_domain_id x), (ds_domains d !! ac_domain_id x); simpl in *; congruence.
Qed.

Lemma catch_address_inj y1 y2 : catch_address y1 = catch_address y2 → dm_name y1 = dm_name y2.
Proof. unfold catch_address, catch_all_address. congruence. Qed.

Lemma uncatch_Some o es a e :
  uncatch o es !! a = Some e → es !! a = Some e ∧ ∀ y, o = Some y → is_Some (dm_catch_all y) → a ≠ catch_address y.
Proof.
  unfold uncatch. destruct o as [y|]; [|done]. destruct (dm_catch_all y) as [acc|] eqn:E.
  - intros [Hne He]%lookup_delete_Some. split; [done|]. by intros ? [= <-] _ ->.
  - intros He. split; [done|]. intros ? [= <-] []. congruence.
Qed.
Lemma catch_Some y es a e :
  catch y es !! a = Some e →
  (∃ acc, dm_catch_all y = Some acc ∧ a = catch_address y ∧ e = mkEntry a (ToAccount acc)) ∨ es !! a = Some e.
Proof.
  unfold catch. destruct (dm_catch_all y) as [acc|]; [|by right].
  intros [[<- <-]|[_ He]]%lookup_insert_Some; [left; by exists acc|by right].
Qed.
Lemma uncatch_other o es a : (∀ y, o = Some y → a ≠ catch_address y) → uncatch o es !! a = es !! a.
Proof.
  unfold uncatch. destruct o as [y|]; [|done]. intros Hne. destruct (dm_catch_all y); [|done].
  rewrite lookup_delete_ne; [done|]. intros <-. by eapply Hne.
Qed.
Lemma catch_other y es a : a ≠ catch_address y → catch y es !! a = es !! a.
Proof. unfold catch. intros Hne. destruct (dm_catch_all y); [|done]. by rewrite lookup_insert_ne. Qed.

(** One domain's record and catch-all replaced. *)
Lemma replace_domain_ok d id new :
  dir_ok d →
  (∀ id1 id2 y1 y2, ds_domains d !! id1 = Some y1 → ds_domains d !! id2 = Some y2 → dm_name y1 = dm_name y2 → id1 = id2) →
  (∀ id' x, ds_accounts d !! id' = Some x → ac_domain_id x = id → dm_name <$> new = dm_name <$> ds_domains d !! id) →
  default True ((λ y, tidy (dm_name y) ∧
    ∀ id' y', ds_domains d !! id' = Some y' → id' ≠ id → dm_name y' ≠ dm_name y) <$> new) →
  dir_ok (mkDir (match new with Some y => <[id := y]> (ds_domains d) | None => base.delete id (ds_domains d) end) (ds_accounts d)
    (default (uncatch (ds_domains d !! id) (ds_entries d)) ((λ y, catch y (uncatch (ds_domains d !! id) (ds_entries d))) <$> new))).
Proof.
  intros Hok Huniq Hnames Hnew. set (ds := match new with Some y => _ | None => _ end). set (es := default _ _).
  assert (∀ id' y, ds !! id' = Some y → (id' = id ∧ new = Some y) ∨ (id' ≠ id ∧ ds_domains d !! id' = Some y)) as Hds.
  { intros id' y. subst ds. destruct new; [rewrite lookup_insert_Some|rewrite lookup_delete_Some]; naive_solver. }
  assert (∀ id' x, ds_accounts d !! id' = Some x → own (mkDir ds (ds_accounts d) es) x = own d x) as Hown.
  { intros id' x Hx. apply own_domains. destruct (decide (ac_domain_id x = id)) as [E|Hne].
    - rewrite E, <-(Hnames id' x Hx E). subst ds. destruct new; [by rewrite lookup_insert_eq|by rewrite lookup_delete_eq].
    - subst ds. destruct new; [by rewrite lookup_insert_ne|by rewrite lookup_delete_ne]. }
  assert (∀ a, (∀ o, ds_domains d !! id = Some o → a ≠ catch_address o) → (∀ y, new = Some y → a ≠ catch_address y) →
    es !! a = ds_entries d !! a) as Hes.
  { intros a Ho Hn. subst es. destruct new as [y|]; simpl; [rewrite catch_other by (by apply Hn)|]; by apply uncatch_other. }
  assert (∀ a, plain a → es !! a = ds_entries d !! a) as Hplain.
  { intros a Ha. apply Hes; intros ? _ ->; by eapply catch_not_plain. }
  split.
  - intros id' x Hx. by eapply (ok_local _ Hok).
  - intros id' y [[-> ->]|[_ Hy]]%Hds; [by destruct Hnew|by eapply (ok_name _ Hok)].
  - intros id' x a Hx. rewrite (Hown _ _ Hx). by eapply (ok_plain _ Hok).
  - intros id' x a Hx. rewrite (Hown _ _ Hx). intros Ha. simpl. rewrite Hplain by (by eapply (ok_plain _ Hok)).
    by eapply (ok_owned _ Hok).
  - intros id' y acc Hy Hc. simpl. apply Hds in Hy as [[-> ->]|[Hne Hy]].
    + subst es. simpl. unfold catch. rewrite Hc. by rewrite lookup_insert_eq.
    + rewrite Hes; [by eapply (ok_catch _ Hok)| |].
      * intros o Ho E%catch_address_inj. by eapply Hne, Huniq.
      * intros y' -> E%catch_address_inj. destruct Hnew as [_ Hnew]. by eapply Hnew.
  - intros a e He. simpl in He.
    assert ((∃ y acc, new = Some y ∧ dm_catch_all y = Some acc ∧ a = catch_address y ∧ e = mkEntry a (ToAccount acc)) ∨
      uncatch (ds_domains d !! id) (ds_entries d) !! a = Some e) as [(y & acc & -> & Hc & -> & ->)|He'].
    { subst es. destruct new as [y|]; simpl in He; [|by right]. apply catch_Some in He as [(acc & ?)|?]; [left|by right]. naive_solver. }
    + split; [done|]. intros ? [= <-]. right. exists id, y. split; [apply lookup_insert_eq|done].
    + apply uncatch_Some in He' as [He' Hno]. destruct (ok_entry _ Hok _ _ He') as [Ha Ht]. split; [done|]. intros acc Hacc.
      destruct (Ht acc Hacc) as [(x & Hx & Hin)|(id' & y & Hy & Hc & ->)].
      * left. exists x. by rewrite (Hown _ _ Hx).
      * right. exists id', y. split_and!; [|done..]. simpl.
        assert (id' ≠ id) as Hne by (intros ->; by eapply Hno).
        subst ds. destruct new; [by rewrite lookup_insert_ne|by rewrite lookup_delete_ne].
Qed.

Lemma own_nonempty d x a :
  dir_ok d → tidy (ac_local_part x) → a ∈ own_addresses d x → normalize_address a ≠ [].
Proof.
  intros Hok Hlp. unfold own_addresses, primary. rewrite elem_of_app, list_elem_of_filter.
  intros [[Hb _]|Ha]; [by apply not_blank|]. destruct (ds_domains d !! ac_domain_id x) as [y|] eqn:Hy; simpl in Ha; [|set_solver].
  apply list_elem_of_singleton in Ha as ->. rewrite tidy_full by (done || by eapply ok_name).
  unfold full_address. by destruct (ac_local_part x).
Qed.
Lemma plain_own d x : dir_ok d → tidy (ac_local_part x) → has_local_part d x → ∀ a, a ∈ own d x → plain a.
Proof.
  intros Hok Hlp Hh a Ha. split; [|apply Hh; [apply Hlp|done]]. apply list_elem_of_fmap in Ha as (b & -> & Hb).
  by eapply own_nonempty.
Qed.

(** ** The operations do it *)

Section operations.
Context {S : Type} {store : Store S} {contract : StoreSpec S} `{DirectoryJson} {json_laws : DirectoryJsonLaws}.
Implicit Types (s : S) (d : dir) (e : dir_event).

Definition dir_at s d : Prop := healthy s ∧ dir_rep (view s) d ∧ dir_ok d.

(** What an operation does: accepted and carried out, or refused with
    nothing written. *)
Definition carried_out d e (r : result unit * S) s : Prop :=
  (accepts d e ∧ ∃ s', r = (Ok tt, s') ∧ dir_at s' (dir_step d e)) ∨ (¬ accepts d e ∧ ∃ err, r = (Err err, s)).

(** [account_address_ops] at an account. *)
Lemma maintained_spec s d id old new :
  dir_at s d →
  default True ((λ x, tidy (ac_local_part x)) <$> old) → default True ((λ x, tidy (ac_local_part x)) <$> new) →
  let prev := default [] (own_addresses d <$> old) in
  let cur := default [] (own_addresses d <$> new) in
  if decide (free d id (default [] (own d <$> old)) (default [] (own d <$> new))) then
    ∃ ops, account_address_ops id prev cur s = Ok ops ∧ Forall entry_op ops ∧
      ∀ c es, entries_rep c es → entries_rep (puts c ops) (claim id (default [] (own d <$> old)) (default [] (own d <$> new)) es)
  else ∃ err, account_address_ops id prev cur s = Err err.
Proof.
  intros (Hh & Hrep & Hok) Ho Hn prev cur.
  pose proof (account_address_ops_spec s d Hh Hrep id prev cur) as Hspec.
  assert (∀ o : option Account, normalize_address <$> default [] (own_addresses d <$> o) = default [] (own d <$> o)) as E by (by intros []).
  subst prev cur. rewrite !E in Hspec. apply Hspec; apply Forall_forall; intros a.
  - destruct old; simpl; [by apply own_nonempty|set_solver].
  - destruct new; simpl; [by apply own_nonempty|set_solver].
Qed.

(** After the batch of an account. *)
Lemma account_rows c c1 d id new ops :
  dir_rep c d → accounts_rep c1 (ds_accounts (replace_account d id new)) →
  rows_agree [TAG_DOMAIN_RECORD; TAG_DOMAIN_NAME; TAG_ADDRESS_ENTRY] c c1 →
  Forall entry_op ops →
  (∀ c es, entries_rep c es → entries_rep (puts c ops) (claim id (default [] (own d <$> ds_accounts d !! id)) (default [] (own d <$> new)) es)) →
  dir_rep (puts c1 ops) (replace_account d id new).
Proof.
  intros [Hd _ He] Ha Hc Hops Hent. split; simpl.
  - eapply domains_rep_frame; [|exact Hd]. eapply rows_agree_trans; [|apply entry_ops_agree; [set_solver|done]].
    intros t l Ht. apply Hc. set_solver.
  - eapply accounts_rep_frame; [|exact Ha]. apply entry_ops_agree; [set_solver|done].
  - apply Hent. eapply entries_rep_frame; [|exact He]. intros t l Ht. apply Hc. set_solver.
Qed.

Lemma account_rows_agree c ops :
  Forall (λ op, (∃ id, op_key op = account_record_key id) ∨ ∃ did lp, op_key op = address_key did lp) ops →
  rows_agree [TAG_DOMAIN_RECORD; TAG_DOMAIN_NAME; TAG_ADDRESS_ENTRY] c (puts c ops).
Proof.
  intros Hops. apply puts_agree. intros op t l Hop Ht E. rewrite Forall_forall in Hops.
  destruct (Hops op Hop) as [[id E']|(did & lp & E')]; rewrite E' in E; injection E; intros _ <-; vm_compute in Ht; set_solver.
Qed.

(** [readdress_ops]: the index rows follow the address. *)
Lemma readdress_spec s d id o x :
  dir_at s d → ds_accounts d !! id = Some o → is_u64 (ac_domain_id x) → ac_id x = id →
  (∃ moved, readdress_ops o x s = Ok moved ∧
     Forall (λ op, is_put op = true ∧ ∃ did lp, op_key op = address_key did lp) moved ∧
     (∀ id' x', ds_accounts d !! id' = Some x' → id' ≠ id → address_of x' ≠ address_of x) ∧
     ∀ rec, of_json rec = inr x →
       accounts_rep (puts (view s) (WSet (account_record_key id) rec :: moved)) (<[id := x]> (ds_accounts d))) ∨
  ((∃ err, readdress_ops o x s = Err err) ∧ ∃ id' x', ds_accounts d !! id' = Some x' ∧ id' ≠ id ∧ address_of x' = address_of x).
Proof.
  intros (Hh & Hrep & Hok) Ho Hdid Hx. pose proof (rep_accounts _ _ Hrep) as Ha.
  pose proof (accounts_index _ _ Ha) as Hi. destruct (rep_account_id _ _ Ha id o Ho) as (Hid & Hoid & Hodid).
  assert (∀ rec, of_json rec = inr x → (∀ id' x', ds_accounts d !! id' = Some x' → id' ≠ id → address_of x' ≠ address_of x) →
    accounts_rep (<[address_row (address_of x) := u64_be id]> (base.delete (address_row (address_of o)) (<[account_record_key id := rec]> (view s))))
      (<[id := x]> (ds_accounts d))) as Hset.
  { intros rec Hrec Hfree. pose proof (accounts_rep_set (view s) _ id x rec Ha Hid Hx Hdid Hrec Hfree) as Hr. by rewrite Ho in Hr. }
  unfold readdress_ops. destruct (bool_decide _ && _) eqn:Esame.
  - left. exists []. assert (address_of o = address_of x) as Eao.
    { apply andb_true_iff in Esame as [?%bool_decide_eq_true ?%Z.eqb_eq]. unfold address_of. congruence. }
    assert (∀ id' x', ds_accounts d !! id' = Some x' → id' ≠ id → address_of x' ≠ address_of x) as Hfree.
    { intros id' x' Hx' Hne Ex. apply Hne. eapply (index_unique _ _ _ _ _ id' x' id o Hi); congruence. }
    split_and!; [done|constructor|done|]. intros rec Hrec. specialize (Hset rec Hrec Hfree). rewrite Eao in Hset.
    simpl. rewrite insert_delete_id in Hset; [done|]. rewrite lookup_insert_ne by rows_differ. apply Hi; [done|].
    exists id, o. done.
  - destruct (lookup_id_by_address_spec s d Hh Hrep (ac_domain_id x) (ac_local_part x) Hdid) as [(id' & x' & Hx' & Hd' & Hl' & E)|[E Hfree]];
      rewrite E; simpl.
    + destruct (Z.eqb_spec id' (ac_id x)) as [->|Hne].
      * left. eexists. split; [reflexivity|]. rewrite Hx in *. assert (x' = o) as -> by congruence.
        exfalso. apply andb_false_iff in Esame as [?%bool_decide_eq_false|?%Z.eqb_neq]; congruence.
      * right. split; [by eexists|]. exists id', x'. unfold address_of. split_and!; [done|congruence|by rewrite Hd', Hl'].
    + left. eexists. split; [reflexivity|].
      assert (∀ id' x', ds_accounts d !! id' = Some x' → id' ≠ id → address_of x' ≠ address_of x) as Hf.
      { intros id' x' Hx' _ [= Ed El]. by eapply Hfree. }
      split_and!; [repeat constructor; by eexists _, _|done|]. intros rec Hrec. specialize (Hset rec Hrec Hf). simpl. by rewrite Hx.
Qed.

(** The accounts after a batch that writes one record and its index rows. *)
Lemma carried_out_account s d e id new ops1 ops2 :
  dir_at s d → dir_step d e = replace_account d id new → accepts d e →
  default True ((λ x, tidy (ac_local_part x) ∧ has_local_part d x ∧ free d id (default [] (own d <$> ds_accounts d !! id)) (own d x)) <$> new) →
  Forall (λ op, is_put op = true ∧ known (op_key op)) ops1 →
  accounts_rep (puts (view s) ops1) (ds_accounts (replace_account d id new)) →
  rows_agree [TAG_DOMAIN_RECORD; TAG_DOMAIN_NAME; TAG_ADDRESS_ENTRY] (view s) (puts (view s) ops1) →
  Forall entry_op ops2 →
  (∀ c es, entries_rep c es → entries_rep (puts c ops2) (claim id (default [] (own d <$> ds_accounts d !! id)) (default [] (own d <$> new)) es)) →
  ∃ s', st_batch (ops1 ++ ops2) s = (Ok tt, s') ∧ dir_at s' (dir_step d e).
Proof.
  intros (Hh & Hrep & Hok) Hstep Hacc Hnew Hops1 Hacs Hagree Hops2 Hent.
  destruct (batch_puts s (ops1 ++ ops2) Hh) as (s2 & E & Hh2 & Hv2).
  { apply Forall_app. split; [done|]. eapply Forall_impl; [exact Hops2|]. apply entry_op_known. }
  exists s2. split; [done|]. rewrite Hstep. split_and!; [done| |].
  - rewrite Hv2, foldl_app. by eapply account_rows.
  - apply replace_account_ok; [done|]. destruct new as [x|]; simpl in *; [|done]. destruct Hnew as (? & ? & ?).
    split_and!; [done|by apply plain_own|done].
Qed.

Lemma carried_out_ret {A} d e (m : M S A) s :
  (accepts d e ∧ ∃ a s', m s = (Ok a, s') ∧ dir_at s' (dir_step d e)) ∨ (¬ accepts d e ∧ ∃ err, m s = (Err err, s)) →
  carried_out d e ((_ ← m; mret tt) s) s.
Proof.
  intros [[Ha (a & s' & E & Hat)]|[Ha [err E]]]; [left|right]; (split; [done|]); unfold mbind, M_bind; rewrite E; eauto.
Qed.

Lemma account_create_spec s d id lp did display role extra :
  let e := EAccountCreate id lp did display role extra in
  dir_at s d → admissible d e → carried_out d e (dir_exec e s) s.
Proof.
  intros e Hat (Hid & Hnew & Hdid & Hlocal & Hextra). pose proof Hat as (Hh & Hrep & Hok).
  set (x := created id lp did display role) in *.
  assert (accepts d e ↔ ac_local_part x ≠ [] ∧ (∀ id' x', ds_accounts d !! id' = Some x' → id' ≠ id → address_of x' ≠ address_of x) ∧
    free d id [] (own d x)) as Hacc by (unfold e, accepts, account_fits; fold x; by rewrite Hnew).
  apply carried_out_ret. unfold create_with_extra_ops. cbv zeta. fold (created id lp did display role). fold x.
  change (normalize_local_part lp) with (ac_local_part x).
  case_bool_decide as Hlp; [right; split; [tauto|eexists; reflexivity]|].
  assert (tidy (ac_local_part x)) as Htidy by (split; [done|apply normalize_idem]). rewrite bind_reads.
  destruct (lookup_id_by_address_spec s d Hh Hrep did (ac_local_part x) Hdid) as [(id' & x' & Hx' & Hd' & Hl' & E)|[E Hfree]]; rewrite E.
  { right. split; [|eexists; reflexivity].
    rewrite Hacc. intros (_ & Hno & _). apply (Hno id' x' Hx'); [intros ->; congruence|]. unfold address_of. by rewrite Hd', Hl'. }
  destruct (encode_row_spec "account" x) as (rec & Er & Hrec). rewrite bind_lift, Er, bind_reads, (addresses_of_spec s d Hh Hrep) by done.
  pose proof (maintained_spec s d id None (Some x) Hat I Htidy) as Hm. simpl in Hm.
  case_decide as Hf; [|destruct Hm as [err Hm]; rewrite Hm; right; split; [tauto|by eexists]].
  destruct Hm as (ops & Em & Hops & Hent). rewrite Em. left. assert (accepts d e) as Hyes.
  { apply Hacc. split_and!; [done| |done]. intros id' x' Hx' _ [= Ed El]. by eapply Hfree. }
  split; [done|].
  set (rows := [WSet (account_record_key id) rec; WSet (address_key did (ac_local_part x)) (u64_be id)]).
  assert (rows_agree [TAG_ACCOUNT_RECORD; TAG_ACCOUNT_ADDRESS; TAG_DOMAIN_RECORD; TAG_DOMAIN_NAME; TAG_ADDRESS_ENTRY]
    (puts (view s) rows) (puts (view s) (rows ++ extra id (ac_created_at x)))) as Hag.
  { rewrite foldl_app. apply puts_agree. intros op t l Hop _ E'. rewrite Forall_forall in Hextra.
    destruct (Hextra op Hop) as (_ & _ & Hhd). rewrite E' in Hhd. done. }
  destruct (carried_out_account s d e id (Some x) (rows ++ extra id (ac_created_at x)) ops) as (s' & Eb & Hat');
    [done..| | | | |done| |].
  - simpl. rewrite Hnew. done.
  - apply Forall_app. split; [repeat constructor; try done; apply known_registry|].
    eapply Forall_impl; [exact Hextra|]. naive_solver.
  - eapply accounts_rep_frame; [intros t l Ht; apply Hag; set_solver|].
    pose proof (accounts_rep_set (view s) (ds_accounts d) id x rec (rep_accounts _ _ Hrep) Hid eq_refl Hdid Hrec) as Ha.
    rewrite Hnew in Ha. apply Ha. by apply (proj1 Hacc Hyes).
  - eapply rows_agree_trans; [|intros t l Ht; apply Hag; set_solver]. apply account_rows_agree, Forall_cons. split; [left; by eexists|]. apply Forall_singleton. right. by eexists _, _.
  - rewrite Hnew. done.
  - exists x, s'. rewrite app_assoc. erewrite bind_step by exact Eb. done.
Qed.

Lemma account_delete_spec s d id :
  let e := EAccountDelete id in dir_at s d → admissible d e → carried_out d e (dir_exec e s) s.
Proof.
  intros e Hat Hid. pose proof Hat as (Hh & Hrep & Hok). change (dir_exec e s) with (account_delete id s).
  unfold account_delete. rewrite bind_reads, (account_get_spec s d Hh Hrep) by done.
  destruct (ds_accounts d !! id) as [x|] eqn:Hx; [|right; split; [intros [? ?]; congruence|by eexists]].
  destruct (rep_account_id _ _ (rep_accounts _ _ Hrep) id x Hx) as (_ & _ & Hdid).
  rewrite bind_reads, (addresses_of_spec s d Hh Hrep) by done. left. split; [by exists x|].
  pose proof (maintained_spec s d id (Some x) None Hat (ok_local _ Hok _ _ Hx) I) as Hm. simpl in Hm.
  destruct Hm as (ops & Em & Hops & Hent). rewrite Em.
  destruct (carried_out_account s d e id None [WDelete (account_record_key id); WDelete (address_key (ac_domain_id x) (ac_local_part x))] ops)
    as (s' & Eb & Hat'); [done|done|by exists x|done| | | |done| |by exists s'].
  - repeat constructor; try done; apply known_registry.
  - by apply accounts_rep_delete; [apply (rep_accounts _ _ Hrep)|].
  - apply account_rows_agree, Forall_cons. split; [left; by eexists|]. apply Forall_singleton. right. by eexists _, _.
  - by rewrite Hx.
Qed.

Lemma account_update_spec s d x0 :
  let e := EAccountUpdate x0 in dir_at s d → admissible d e → carried_out d e (dir_exec e s) s.
Proof.
  intros e Hat (Hid & Hdid & Hlocal). pose proof Hat as (Hh & Hrep & Hok). change (dir_exec e s) with (account_update x0 s).
  unfold account_update. rewrite bind_reads, (account_get_spec s d Hh Hrep) by done. set (x := tidy_account x0) in *. cbv zeta.
  destruct (ds_accounts d !! ac_id x0) as [o|] eqn:Ho; [|right; split; [intros [[? ?] _]; congruence|by eexists]].
  set (id := ac_id x0) in *.
  assert (accepts d e ↔ ac_local_part x ≠ [] ∧ (∀ id' x', ds_accounts d !! id' = Some x' → id' ≠ id → address_of x' ≠ address_of x) ∧
    free d id (own d o) (own d x)) as Hacc.
  { unfold e, accepts, account_fits. fold x id. rewrite Ho. simpl. split; [tauto|]. split; [done|tauto]. }
  destruct (rep_account_id _ _ (rep_accounts _ _ Hrep) id o Ho) as (_ & Hoid & Hodid).
  case_bool_decide as Hlp; [right; split; [tauto|eexists; reflexivity]|].
  assert (tidy (ac_local_part x)) as Htidy by (split; [done|apply normalize_idem]).
  destruct (encode_row_spec "account" x) as (rec & Er & Hrec). rewrite bind_lift, Er, bind_reads.
  destruct (readdress_spec s d id o x Hat Ho Hdid eq_refl) as [(moved & -> & Hmoved & Hfree & Hacs)|([err ->] & Htaken)].
  2: { right. split; [|by eexists]. intros (_ & Hno & _)%Hacc. destruct Htaken as (id' & x' & Hx' & Hne & Ea). by eapply Hno. }
  rewrite bind_reads, !(addresses_of_spec s d Hh Hrep) by done. change (ac_id x) with id.
  pose proof (maintained_spec s d id (Some o) (Some x) Hat (ok_local _ Hok _ _ Ho) Htidy) as Hm. simpl in Hm.
  case_decide as Hf; [|destruct Hm as [err Hm]; rewrite Hm; right; split; [tauto|by eexists]].
  destruct Hm as (ops & Em & Hops & Hent). rewrite Em. left. assert (accepts d e) as Hyes by (by apply Hacc).
  split; [done|].
  destruct (carried_out_account s d e id (Some x) (WSet (account_record_key id) rec :: moved) ops) as (s' & Eb & Hat');
    [done|done|done| | | | |done| |by exists s'].
  - simpl. rewrite Ho. done.
  - constructor; [split; [done|apply known_registry]|]. eapply Forall_impl; [exact Hmoved|]. intros op (? & did & lp & ->).
    split; [done|apply known_registry].
  - simpl. apply Hacs; done.
  - apply account_rows_agree. constructor; [left; by eexists|]. eapply Forall_impl; [exact Hmoved|]. intros op (? & did & lp & ?).
    right. by exists did, lp.
  - by rewrite Ho.
Qed.

Lemma domain_names_unique s d id1 id2 y1 y2 :
  dir_at s d → ds_domains d !! id1 = Some y1 → ds_domains d !! id2 = Some y2 → dm_name y1 = dm_name y2 → id1 = id2.
Proof. intros (_ & Hrep & _). apply (index_unique _ _ _ _ _ id1 y1 id2 y2 (domains_index _ _ (rep_domains _ _ Hrep))). Qed.

Lemma domain_rows_agree c ops :
  Forall (λ op, (∃ id, op_key op = domain_record_key id) ∨ ∃ n, op_key op = name_key n) ops →
  rows_agree [TAG_ACCOUNT_RECORD; TAG_ACCOUNT_ADDRESS; TAG_ADDRESS_ENTRY] c (puts c ops).
Proof.
  intros Hops. apply puts_agree. intros op t l Hop Ht E. rewrite Forall_forall in Hops.
  destruct (Hops op Hop) as [[id E']|[n E']]; rewrite E' in E; injection E; intros _ <-; vm_compute in Ht; set_solver.
Qed.

(** The directory after a batch that writes one domain's rows, then entries. *)
Lemma domain_batch s d d' ops1 ops2 :
  dir_at s d → dir_ok d' → ds_accounts d' = ds_accounts d →
  Forall (λ op, is_put op = true ∧ ((∃ id, op_key op = domain_record_key id) ∨ ∃ n, op_key op = name_key n)) ops1 →
  domains_rep (puts (view s) ops1) (ds_domains d') → Forall entry_op ops2 →
  (∀ c, entries_rep c (ds_entries d) → entries_rep (puts c ops2) (ds_entries d')) →
  ∃ s', st_batch (ops1 ++ ops2) s = (Ok tt, s') ∧ dir_at s' d'.
Proof.
  intros (Hh & Hrep & Hok) Hok' Hacs Hops1 Hds Hops2 Hent.
  destruct (batch_puts s (ops1 ++ ops2) Hh) as (s2 & E & Hh2 & Hv2).
  { apply Forall_app. split; [|eapply Forall_impl; [exact Hops2|apply entry_op_known]].
    eapply Forall_impl; [exact Hops1|]. intros op (? & [[? ->]|[? ->]]); (split; [done|apply known_registry]). }
  assert (rows_agree [TAG_ACCOUNT_RECORD; TAG_ACCOUNT_ADDRESS; TAG_ADDRESS_ENTRY] (view s) (puts (view s) ops1)) as Hag.
  { apply domain_rows_agree. eapply Forall_impl; [exact Hops1|]. naive_solver. }
  exists s2. split; [done|]. split_and!; [done| |done]. rewrite Hv2, foldl_app. split.
  - eapply domains_rep_frame; [|exact Hds]. apply entry_ops_agree; [set_solver|done].
  - rewrite Hacs. eapply accounts_rep_frame; [|apply (rep_accounts _ _ Hrep)].
    eapply rows_agree_trans; [|apply entry_ops_agree; [set_solver|done]]. intros t l Ht. apply Hag. set_solver.
  - apply Hent. eapply entries_rep_frame; [|apply (rep_entries _ _ Hrep)]. intros t l Ht. apply Hag. set_solver.
Qed.

Lemma domain_create_spec s d id name aliases :
  let e := EDomainCreate id name aliases in dir_at s d → admissible d e → carried_out d e (dir_exec e s) s.
Proof.
  intros e Hat (Hid & Hnew & Hunused & Htidy). pose proof Hat as (Hh & Hrep & Hok). apply carried_out_ret.
  unfold domain_create. cbv zeta. fold (new_domain id name aliases). set (y := new_domain id name aliases).
  case_bool_decide as Hne; [right; split; [intros []; done|eexists; reflexivity]|]. rewrite bind_reads.
  destruct (lookup_id_by_name_spec s d Hh Hrep (normalize_name name)) as [(id' & y' & Hy' & Hn' & E)|[E Hfree]]; rewrite E.
  { right. split; [|eexists; reflexivity]. intros [_ Hno]. by eapply Hno. }
  destruct (encode_row_spec "domain" y) as (rec & Er & Hrec). rewrite bind_lift, Er.
  assert (accepts d e) as Hyes by (split; [done|]; intros id' y' Hy' En; by eapply Hfree).
  left. split; [done|].
  destruct (domain_batch s d (dir_step d e) [WSet (domain_record_key id) rec; WSet (name_key (normalize_name name)) (u64_be id)] [])
    as (s' & Eb & Hat'); [done| |done| | |done|done|].
  - pose proof (replace_domain_ok d id (Some y) Hok) as Hr. simpl in Hr. rewrite Hnew in Hr. apply Hr; [|naive_solver|].
    + intros id1 id2 y1 y2. by apply (domain_names_unique s).
    + split; [done|]. intros id' y' Hy' _ En. by eapply Hfree.
  - apply Forall_cons. split; [split; [done|left; by eexists]|]. apply Forall_singleton. split; [done|right; by eexists].
  - pose proof (domains_rep_set (view s) (ds_domains d) id y rec (rep_domains _ _ Hrep) Hid eq_refl Hrec) as Hd.
    rewrite Hnew in Hd. apply Hd. intros id' y' Hy' _ En. by eapply Hfree.
  - exists y, s'. erewrite bind_step by exact Eb. done.
Qed.

(** The entries of the catch-all. *)
Lemma clear_op_spec y c es : tidy (dm_name y) → entries_rep c es →
  entries_rep (put c (clear_catch_all_op (dm_name y))) (base.delete (catch_address y) es).
Proof.
  intros Ht Hc. unfold clear_catch_all_op, remove_entry_op. rewrite (proj2 Ht), tidy_catch by done. by apply put_entry_delete.
Qed.
Lemma uncatch_ops_spec y c es : tidy (dm_name y) → entries_rep c es →
  entries_rep (puts c (match dm_catch_all y with Some _ => [clear_catch_all_op (dm_name y)] | None => [] end)) (uncatch (Some y) es).
Proof. intros Ht Hc. unfold uncatch. destruct (dm_catch_all y); [by apply clear_op_spec|done]. Qed.
Lemma clear_op_entry y : entry_op (clear_catch_all_op (dm_name y)).
Proof. split; [done|]. by eexists. Qed.
Lemma catch_all_ops_spec o y :
  tidy (dm_name o) → tidy (dm_name y) →
  ∃ ops, catch_all_ops o y = Ok ops ∧ Forall entry_op ops ∧
    ∀ c es, entries_rep c es → entries_rep (puts c ops) (catch y (uncatch (Some o) es)).
Proof.
  intros Ho Hy. unfold catch_all_ops.
  assert (Forall entry_op (match dm_catch_all o with Some _ => [clear_catch_all_op (dm_name o)] | None => [] end)) as Hcl.
  { destruct (dm_catch_all o); [|constructor]. apply Forall_singleton, clear_op_entry. }
  unfold catch. destruct (dm_catch_all y) as [acc|].
  - unfold set_catch_all_op, account_entry_op. rewrite (proj2 Hy), bool_decide_false by apply Hy. rewrite tidy_catch by done.
    destruct (encode_row_spec "address entry" (mkEntry (catch_address y) (ToAccount acc))) as (b & Eb & Hb).
    unfold catch_address in Eb. rewrite Eb. simpl. eexists. split; [done|]. split.
    + apply Forall_app. split; [done|]. apply Forall_singleton. split; [done|by eexists].
    + intros c es Hc. rewrite foldl_app. simpl. apply put_entry_set; [by apply uncatch_ops_spec|done].
  - eexists. split; [done|]. split; [done|]. intros c es Hc. by apply uncatch_ops_spec.
Qed.

Lemma domain_update_spec s d y0 :
  let e := EDomainUpdate y0 in dir_at s d → admissible d e → carried_out d e (dir_exec e s) s.
Proof.
  intros e Hat (Hid & Hname). pose proof Hat as (Hh & Hrep & Hok). change (dir_exec e s) with (domain_update y0 s).
  unfold domain_update. rewrite bind_reads, (domain_get_spec s d Hh Hrep) by done. set (y := tidy_domain y0). cbv zeta.
  destruct (ds_domains d !! dm_id y0) as [o|] eqn:Ho; [|right; split; [intros [? ?]; congruence|by eexists]].
  specialize (Hname o eq_refl). assert (dm_name y = dm_name o) as En by done.
  pose proof (ok_name _ Hok _ _ Ho) as Htidy. rewrite bool_decide_false by (rewrite En; apply Htidy).
  destruct (encode_row_spec "domain" y) as (rec & Er & Hrec). rewrite bind_lift, Er, bind_reads.
  unfold rename_ops. rewrite En, bool_decide_true by done. rewrite bind_lift.
  destruct (catch_all_ops_spec o y) as (ops & Ec & Hops & Hent); [done|by rewrite En|]. rewrite Ec.
  left. split; [by exists o|].
  destruct (domain_batch s d (dir_step d e) [WSet (domain_record_key (dm_id y)) rec] ops) as (s' & Eb & Hat');
    [done| |done| | |done| |by exists s'].
  - apply (replace_domain_ok d (dm_id y0) (Some y) Hok).
    + intros id1 id2 y1 y2. by apply (domain_names_unique s).
    + intros _ _ _ _. rewrite Ho. exact (f_equal Some En).
    + split; [by rewrite En|]. intros id' y' Hy' Hne E. apply Hne. eapply (domain_names_unique s); [done..|]. by rewrite <-En.
  - apply Forall_singleton. split; [done|left; by eexists].
  - pose proof (domains_rep_set (view s) (ds_domains d) (dm_id y0) y rec (rep_domains _ _ Hrep) Hid eq_refl Hrec) as Hd.
    rewrite Ho in Hd. simpl unindex in Hd. rewrite En, insert_delete_id in Hd; [apply Hd|].
    + intros id' y' Hy' Hne E. apply Hne. by eapply (domain_names_unique s).
    + rewrite lookup_insert_ne by rows_differ. apply (rep_name _ _ (rep_domains _ _ Hrep)). by exists (dm_id y0), o.
  - intros c Hc. simpl. rewrite Ho. by apply Hent.
Qed.

Lemma domain_delete_spec s d id :
  let e := EDomainDelete id in dir_at s d → admissible d e → carried_out d e (dir_exec e s) s.
Proof.
  intros e Hat Hid. pose proof Hat as (Hh & Hrep & Hok). change (dir_exec e s) with (domain_delete id s).
  unfold domain_delete. rewrite bind_reads, (domain_get_spec s d Hh Hrep) by done.
  destruct (ds_domains d !! id) as [y|] eqn:Hy; [|right; split; [intros [[? ?] _]; congruence|by eexists]].
  rewrite bind_reads. unfold list_for_domain. destruct (collect_accounts_spec s d Hh Hrep (λ a, ac_domain_id a =? id)) as (l & El & Hl).
  rewrite El. destruct l as [|x l].
  2: { right. split; [|eexists; reflexivity]. intros [_ Hno]. destruct (proj1 (Hl x)) as [[id' Hx] Hd]; [set_solver|].
       apply (Hno id' x Hx). by apply Z.eqb_eq. }
  assert (∀ id' x, ds_accounts d !! id' = Some x → ac_domain_id x ≠ id) as Hno.
  { intros id' x Hx E. enough (x ∈ []) by set_solver. apply Hl. split; [by exists id'|]. by apply Z.eqb_eq. }
  left. split; [split; [by exists y|done]|]. pose proof (ok_name _ Hok _ _ Hy) as Htidy.
  destruct (domain_batch s d (dir_step d e) [WDelete (domain_record_key id); WDelete (name_key (dm_name y))]
    (match dm_catch_all y with Some _ => [clear_catch_all_op (dm_name y)] | None => [] end)) as (s' & Eb & Hat');
    [done| |done| | | | |by exists s'].
  - apply (replace_domain_ok d id None Hok); [|intros id' x Hx Hd; by destruct (Hno id' x Hx)|done].
    intros id1 id2 y1 y2. by apply (domain_names_unique s).
  - apply Forall_cons. split; [split; [done|left; by eexists]|]. apply Forall_singleton. split; [done|right; by eexists].
  - apply domains_rep_delete; [apply (rep_domains _ _ Hrep)|done].
  - destruct (dm_catch_all y); [|constructor]. apply Forall_singleton, clear_op_entry.
  - intros c Hc. simpl. rewrite Hy. by apply uncatch_ops_spec.
Qed.

Lemma dir_exec_spec s d e : dir_at s d → admissible d e → carried_out d e (dir_exec e s) s.
Proof.
  destruct e; [apply domain_create_spec|apply domain_update_spec|apply domain_delete_spec|apply account_create_spec
    |apply account_update_spec|apply account_delete_spec].
Qed.
End operations.

From S2P Require Import Ttl Login.

(** ** Histories *)

#[global] Instance account_fits_dec d id x : Decision (account_fits d id x).
Proof.
  unfold account_fits. apply and_dec; [apply _|]. apply and_dec; [|apply _].
  apply (map_Forall_dec (λ id' x', id' ≠ id → address_of x' ≠ address_of x)).
Defined.
#[global] Instance accepts_dec d e : Decision (accepts d e).
Proof.
  destruct e; simpl; try apply _; apply and_dec; try apply _.
Defined.

(** The directory after an operation, accepted or not, and after many. *)
Definition dir_next (d : dir) (e : dir_event) : dir := if decide (accepts d e) then dir_step d e else d.
Definition dir_after : dir → list dir_event → dir := foldl dir_next.
Definition dir_run {S} `{Store S} `{DirectoryJson} : S → list dir_event → S := foldl (λ s e, (dir_exec e s).2).
Fixpoint admissible_all (d : dir) (es : list dir_event) : Prop :=
  match es with
  | [] => True
  | e :: es => admissible d e ∧ admissible_all (dir_next d e) es
  end.
Definition no_dir : dir := mkDir ∅ ∅ ∅.
Lemma no_dir_ok : dir_ok no_dir.
Proof. split; intros; simplify_map_eq. Qed.

Section histories.
Context {S : Type} {store : Store S} {contract : StoreSpec S} `{DirectoryJson} {json_laws : DirectoryJsonLaws}.
Implicit Types (s : S) (d : dir) (e : dir_event).

Lemma dir_at_next s d e : dir_at s d → admissible d e → dir_at (dir_exec e s).2 (dir_next d e).
Proof.
  intros Hat Hadm. unfold dir_next. destruct (dir_exec_spec s d e Hat Hadm) as [[Ha (s' & -> & Hat')]|[Ha [err ->]]].
  - by rewrite decide_True.
  - by rewrite decide_False.
Qed.
Lemma dir_at_after es s d : dir_at s d → admissible_all d es → dir_at (dir_run s es) (dir_after d es).
Proof.
  revert s d. induction es as [|e es IH]; intros s d Hat; simpl; [done|]. intros [He Hes]. apply IH; [|done]. by apply dir_at_next.
Qed.
End histories.

(** ** Lookups *)

Lemma rsplit_once_last c p q : c ∉ q → rsplit_once c (p ++ [c] ++ q) = Some (p, q).
Proof.
  intros Hq. induction p as [|b p IH]; simpl.
  - assert (rsplit_once c q = None) as ->; [|by rewrite Z.eqb_refl].
    induction q as [|b q IHq]; [done|]. apply not_elem_of_cons in Hq as [Hne Hq]. simpl. rewrite IHq by done.
    destruct (Z.eqb_spec b c); congruence.
  - simpl in IH. by rewrite IH.
Qed.
Lemma eq_ignore_refl s : eq_ignore_ascii_case s s = true.
Proof. by apply bool_decide_eq_true. Qed.
Lemma matches_own_name y n : dm_name y = n → matches_name y n = true.
Proof. intros <-. unfold matches_name. by rewrite eq_ignore_refl. Qed.

Section routes.
Context {S : Type} {store : Store S} {contract : StoreSpec S} `{DirectoryJson} {json_laws : DirectoryJsonLaws}.
Context (s : S) (d : dir) (Hat : dir_at s d).

(** A domain by its name, or else by an alias. *)
Lemma get_by_name_spec name :
  (∃ id y, get_by_name name s = Ok (Some y) ∧ ds_domains d !! id = Some y ∧ matches_name y (normalize_name name) = true ∧
     ∀ id' y', ds_domains d !! id' = Some y' → dm_name y' = normalize_name name → id' = id) ∨
  (get_by_name name s = Ok None ∧ ∀ id y, ds_domains d !! id = Some y → matches_name y (normalize_name name) = false).
Proof using Hat.
  pose proof Hat as (Hh & Hrep & Hok). unfold get_by_name.
  destruct (lookup_id_by_name_spec s d Hh Hrep (normalize_name name)) as [(id & y & Hy & Hn & E)|[E Hno]]; rewrite E; simpl.
  - left. exists id, y. rewrite (domain_get_spec s d Hh Hrep), Hy by (by apply (rep_domain_id _ _ (rep_domains _ _ Hrep)) in Hy as [? _]).
    split_and!; [done..|by apply matches_own_name|]. intros id' y' Hy' En. apply (domain_names_unique s d id' id y' y Hat Hy' Hy). congruence.
  - destruct (domains_list_spec s d Hh Hrep) as (l & -> & Hl). simpl.
    destruct (List.find _ l) as [y|] eqn:Ef.
    + apply List.find_some in Ef as [Hin Hm]. left. apply list_elem_of_In in Hin. destruct (proj1 (Hl y) Hin) as [id Hy].
      exists id, y. split_and!; [done..|]. intros id' y' Hy' En. by destruct (Hno id' y' Hy' En).
    + right. split; [done|]. intros id y Hy. apply (List.find_none _ _ Ef). apply list_elem_of_In, Hl. by exists id.
Qed.

Lemma resolve_own id x r :
  ds_accounts d !! id = Some x → normalize_address (canonical_recipient r s) ∈ own d x → resolve r s = Ok (RLocal id false).
Proof using Hat.
  pose proof Hat as (Hh & Hrep & Hok). intros Hx Ha. unfold resolve, resolve_entry. cbv zeta.
  rewrite (entry_at_spec s d Hh Hrep), (ok_owned _ Hok _ _ _ Hx Ha). done.
Qed.

(** The recipient is left alone unless its domain is an alias, or written
    with a final dot. *)
Definition own_name (r : bytes) : Prop :=
  ∀ local dom, rsplit_once 64 (str_trim r) = Some (local, dom) →
  ∀ id y, ds_domains d !! id = Some y → matches_name y (normalize_name dom) = true → eq_ignore_ascii_case (dm_name y) dom = true.
Lemma canonical_own_name r : own_name r → normalize_address (canonical_recipient r s) = normalize_address r.
Proof using Hat.
  intros Hown. assert (normalize_address (str_trim r) = normalize_address r) as Htrim.
  { unfold normalize_address. by rewrite (str_trim_id (str_trim r)) by apply str_trim_trimmed. }
  unfold canonical_recipient. cbv zeta. destruct (rsplit_once 64 (str_trim r)) as [[local dom]|] eqn:E; [|done].
  destruct (is_blank dom); [done|]. unfold canonical_name.
  destruct (get_by_name_spec dom) as [(id & y & -> & Hy & Hm & _)|[-> _]]; simpl; [|done]. by rewrite (Hown _ _ E _ _ Hy Hm).
Qed.

(** What an answer of [resolve] means. *)
Lemma resolve_entry_sound r id :
  resolve r s = Ok (RLocal id true) →
  ∃ dom did y, domain_of (canonical_recipient r s) = Some dom ∧ ds_domains d !! did = Some y ∧
    dm_catch_all y = Some id ∧ normalize_address dom = dm_name y.
Proof using Hat.
  pose proof Hat as (Hh & Hrep & Hok). unfold resolve, resolve_entry. cbv zeta. rewrite (entry_at_spec s d Hh Hrep). simpl.
  set (c := canonical_recipient r s).
  assert (∀ r', resolve_fallback r' s = Ok (RLocal id true) → False) as Hfb.
  { intros r'. unfold resolve_fallback. destruct (role_fallback r' s) as [[?|]|]; simpl; congruence. }
  destruct (ds_entries d !! normalize_address c) as [[a' []]|]; simpl; try congruence.
  destruct (domain_of c) as [dom|] eqn:Ed; [|by intros ?%Hfb].
  unfold catch_all. rewrite (entry_at_spec s d Hh Hrep). simpl.
  destruct (ds_entries d !! catch_all_address (normalize_address dom)) as [[a' [acc| |]]|] eqn:Ee; simpl;
    [|by intros ?%Hfb..]. intros [= ->]. exists dom.
  destruct (ok_entry _ Hok _ _ Ee) as [_ Ht]. destruct (Ht id eq_refl) as [(x & Hx & Hin)|(did & y & Hy & Hc & E)].
  - destruct (ok_plain _ Hok _ _ _ Hx Hin) as [_ Hp]. done.
  - exists did, y. split_and!; [done..|]. unfold catch_address, catch_all_address in E. congruence.
Qed.

(** The login name of an account is its primary address. *)
Lemma login_account_spec id x did y :
  ds_accounts d !! id = Some x → ac_domain_id x = did → ds_domains d !! did = Some y →
  normalize_name (dm_name y) = dm_name y → 64 ∉ dm_name y →
  login_account (full_address (ac_local_part x) (dm_name y)) s = Ok (Some x).
Proof using Hat.
  pose proof Hat as (Hh & Hrep & Hok). intros Hx Hd Hy Hn Hat'. unfold login_account, full_address.
  rewrite rsplit_once_last by done. destruct (get_by_name_spec (dm_name y)) as [(did' & y' & E & Hy' & Hm & Hu)|[_ Hno]].
  2: { specialize (Hno did y Hy). by rewrite Hn, matches_own_name in Hno. }
  assert (did' = did) as -> by (symmetry; by apply (Hu did y)). assert (y' = y) as -> by congruence. rewrite E. simpl.
  destruct (rep_domain_id _ _ (rep_domains _ _ Hrep) did y Hy) as [Hdid Edid]. rewrite Edid. unfold get_by_address.
  pose proof (ok_local _ Hok _ _ Hx) as [_ Hl]. unfold normalize_local_part. unfold normalize_address in Hl. rewrite Hl.
  destruct (lookup_id_by_address_spec s d Hh Hrep did (ac_local_part x) Hdid) as [(id' & x' & Hx' & Hd' & Hl' & E2)|[_ Hno]].
  2: { by destruct (Hno id x Hx Hd eq_refl). }
  rewrite E2. simpl. assert (id' = id) as ->.
  { apply (index_unique _ _ _ _ _ id' x' id x (accounts_index _ _ (rep_accounts _ _ Hrep))); [done..|]. unfold address_of. congruence. }
  rewrite (account_get_spec s d Hh Hrep), Hx by (by apply (rep_account_id _ _ (rep_accounts _ _ Hrep)) in Hx as [? _]). done.
Qed.
End routes.

