(* ===== verification/DirectoryDemo.v ===== *)
(** * The directory: the theorems at work

    Instances in memory of serde_json and Argon2, a directory with an account
    and the theorems about it at concrete inputs. *)

From S2P Require Import Prelude Bytes Key Store Ids Text Directory DirectoryRep DirectoryWrite DirectoryHistory Ttl Login.
From stdpp Require Import base gmap list strings countable.
From Stdlib Require Import ZArith Lia.

Open Scope Z_scope.

(** ** Instances *)

Module DirectoryInstances.

#[global] Instance Forwarding_eq_dec : EqDecision Forwarding.
Proof. solve_decision. Defined.
#[global] Instance Vacation_eq_dec : EqDecision VacationResponder.
Proof. solve_decision. Defined.
#[global] Instance Account_eq_dec : EqDecision Account.
Proof. solve_decision. Defined.
#[global] Instance DnsRecordKind_eq_dec : EqDecision DnsRecordKind.
Proof. solve_decision. Defined.
#[global] Instance DnsStatus_eq_dec : EqDecision DnsStatus.
Proof. solve_decision. Defined.
#[global] Instance Domain_eq_dec : EqDecision Domain.
Proof. solve_decision. Defined.
#[global] Instance Target_eq_dec : EqDecision Target.
Proof. solve_decision. Defined.
#[global] Instance AddressEntry_eq_dec : EqDecision AddressEntry.
Proof. solve_decision. Defined.
#[global] Instance EncryptedSecret_eq_dec : EqDecision EncryptedSecret.
Proof. solve_decision. Defined.
#[global] Instance PrimaryPassword_eq_dec : EqDecision PrimaryPassword.
Proof. solve_decision. Defined.
#[global] Instance Totp_eq_dec : EqDecision Totp.
Proof. solve_decision. Defined.
#[global] Instance AppPassword_eq_dec : EqDecision AppPassword.
Proof. solve_decision. Defined.
#[global] Instance ApiKey_eq_dec : EqDecision ApiKey.
Proof. solve_decision. Defined.
#[global] Instance Credential_eq_dec : EqDecision Credential.
Proof. solve_decision. Defined.

#[global] Instance Role_countable : Countable Role.
Proof. refine (inj_countable' (λ r, match r with Admin => true | User => false end) (λ b : bool, if b then Admin else User) _). by intros []. Defined.
#[global] Instance Forwarding_countable : Countable Forwarding.
Proof. refine (inj_countable' (λ f, (fw_destinations f, fw_keep_local_copy f)) (λ p, mkForwarding p.1 p.2) _). by intros []. Defined.
#[global] Instance Vacation_countable : Countable VacationResponder.
Proof.
  refine (inj_countable' (λ v, (va_enabled v, (va_subject v, va_body v), (va_active_from v, va_active_to v)))
    (λ '(e, (s, b), (f, t)), mkVacation e s b f t) _). by intros [].
Defined.
#[global] Instance Account_countable : Countable Account.
Proof.
  refine (inj_countable' (λ a,
      (((ac_id a, ac_local_part a), (ac_domain_id a, ac_display_name a)), ((ac_enabled a, ac_role a), (ac_aliases a, ac_forwarding a)),
       ((ac_quota_bytes a, ac_quota_messages a), (ac_locale a, ac_timezone a)), ((ac_signature a, ac_vacation a), ac_created_at a)))
    (λ '(((i, l), (d, n)), ((e, r), (al, f)), ((qb, qm), (lo, tz)), ((sg, v), c)), mkAccount i l d n e r al f qb qm lo tz sg v c) _). by intros [].
Defined.
#[global] Instance DnsRecordKind_countable : Countable DnsRecordKind.
Proof.
  refine (inj_countable' (λ k, match k with Mx => 0 | ARecord => 1 | Aaaa => 2 | Spf => 3 | Dkim => 4 | Dmarc => 5 | MtaSts => 6 | TlsRpt => 7 end%nat)
    (λ n, match n with 0 => Mx | 1 => ARecord | 2 => Aaaa | 3 => Spf | 4 => Dkim | 5 => Dmarc | 6 => MtaSts | _ => TlsRpt end%nat) _). by intros [].
Defined.
#[global] Instance DnsStatus_countable : Countable DnsStatus.
Proof.
  refine (inj_countable' (λ s, match s with Unverified => inl tt | Verified t => inr (inl t) | Failing t l => inr (inr (t, l)) end)
    (λ c, match c with inl _ => Unverified | inr (inl t) => Verified t | inr (inr (t, l)) => Failing t l end) _). by intros [].
Defined.
#[global] Instance Domain_countable : Countable Domain.
Proof.
  refine (inj_countable' (λ d, (((dm_id d, dm_name d), (dm_aliases d, dm_enabled d)), ((dm_catch_all d, dm_dkim_key_ids d), (dm_dns_status d, dm_created_at d))))
    (λ '(((i, n), (a, e)), ((c, k), (s, t))), mkDomain i n a e c k s t) _). by intros [].
Defined.
#[global] Instance Target_countable : Countable Target.
Proof.
  refine (inj_countable' (λ t, match t with ToAccount i => inl i | ToForward d => inr (inl d) | ToReject => inr (inr tt) end)
    (λ c, match c with inl i => ToAccount i | inr (inl d) => ToForward d | inr (inr _) => ToReject end) _). by intros [].
Defined.
#[global] Instance AddressEntry_countable : Countable AddressEntry.
Proof. refine (inj_countable' (λ e, (ae_address e, ae_target e)) (λ p, mkEntry p.1 p.2) _). by intros []. Defined.
#[global] Instance EncryptedSecret_countable : Countable EncryptedSecret.
Proof. refine (inj_countable' (λ e, (es_nonce e, es_ciphertext e)) (λ p, mkSecret p.1 p.2) _). by intros []. Defined.
#[global] Instance PrimaryPassword_countable : Countable PrimaryPassword.
Proof. refine (inj_countable' (λ e, (pp_hash e, pp_updated_at e)) (λ p, mkPrimary p.1 p.2) _). by intros []. Defined.
#[global] Instance Totp_countable : Countable Totp.
Proof.
  refine (inj_countable' (λ t, ((totp_secret t, totp_enabled t), (totp_recovery_codes t, totp_enrolled_at t)))
    (λ '((s, e), (r, t)), mkTotp s e r t) _). by intros [].
Defined.
#[global] Instance AppPassword_countable : Countable AppPassword.
Proof.
  refine (inj_countable' (λ p, ((ap_id p, ap_name p), (ap_hash p, ap_created_at p), ap_last_used_at p))
    (λ '((i, n), (h, c), l), mkAppPassword i n h c l) _). by intros [].
Defined.
#[global] Instance ApiKey_countable : Countable ApiKey.
Proof.
  refine (inj_countable' (λ p, ((ak_id p, ak_name p), (ak_secret p, ak_created_at p), ak_last_used_at p))
    (λ '((i, n), (h, c), l), mkApiKey i n h c l) _). by intros [].
Defined.
#[global] Instance Credential_countable : Countable Credential.
Proof.
  refine (inj_countable' (λ c, match c with
      | CPrimaryPassword p => inl (inl p) | CTotp t => inl (inr t) | CAppPassword p => inr (inl p) | CApiKey k => inr (inr k) end)
    (λ x, match x with
      | inl (inl p) => CPrimaryPassword p | inl (inr t) => CTotp t | inr (inl p) => CAppPassword p | inr (inr k) => CApiKey k end) _).
  by intros [].
Defined.

(** A row is one number. *)
Definition number_json {A} `{Countable A} : Json A := {|
  to_json a := inr [Z.pos (countable.encode a)];
  of_json b := match b with
               | [Z.pos p] => match countable.decode p with Some a => inr a | None => inl "not a record"%string end
               | _ => inl "not a record"%string
               end;
|}.
#[global] Instance number_directory : DirectoryJson := {|
  json_account := number_json; json_domain := number_json; json_entry := number_json; json_credentials := number_json;
|}.
#[global] Instance number_directory_laws : DirectoryJsonLaws.
Proof. split; intros a; eexists; split; [reflexivity| |reflexivity| |reflexivity| |reflexivity|]; simpl; by rewrite decode_encode. Qed.
(** A hash is the secret with its salt in front. *)
#[global] Instance open_argon2 : Argon2 := {|
  argon2_verify secret hash := if bool_decide (hash = 36 :: secret) then Matches else WrongPassword;
  argon2_hash salt secret := inr (36 :: secret);
|}.
End DirectoryInstances.
Import DirectoryInstances.

(** ** A directory *)

Definition empty_store : MemStore := mkMem ∅.
Lemma empty_directory : dir_at empty_store no_dir.
Proof.
  split_and!; [exact I| |exact no_dir_ok]. split; [split|split|].
  - intros id _. simpl. by rewrite !lookup_empty.
  - intros n v. simpl. rewrite lookup_empty. split; [done|]. intros (id & y & Hy & _). by rewrite lookup_empty in Hy.
  - intros id y. simpl. by rewrite lookup_empty.
  - intros k v. simpl. by rewrite lookup_empty.
  - intros id _. simpl. by rewrite !lookup_empty.
  - intros did lp v _. simpl. rewrite lookup_empty. split; [done|]. intros (id & y & Hy & _). by rewrite lookup_empty in Hy.
  - intros id x. simpl. by rewrite lookup_empty.
  - intros k v. simpl. by rewrite lookup_empty.
  - intros a. simpl. by rewrite !lookup_empty.
Qed.

Definition some_events : list dir_event :=
  [EDomainCreate 5 (bs "Example.org.") [bs "example.net"];
   EAccountCreate 7 (bs " Bob") 5 (bs "Bob") Directory.User (λ _ _, [])].
Definition bob : Account := created 7 (bs " Bob") 5 (bs "Bob") Directory.User.


(** ** Guesses *)

Definition two_failures : ThrottlePolicy := policy_new 2 1000.
Definition guess (secret : bytes) : attempt MemStore :=
  mkAttempt (Some (bs "192.0.2.1")) (bs "bob@example.org") secret Login.Mail (dir_run empty_store some_events).
Definition three_guesses : list (attempt MemStore) := [guess (bs "a"); guess (bs "b"); guess (bs "c")].


(** ** Two corners of routing *)

(** An alias of an account in a domain that is itself an alias is accepted and
    indexed, and mail to it does not arrive: [canonical_recipient] replaces
    the domain before the index is read. *)
Definition with_alias : Account := mkAccount 7 (bs "bob") 5 (bs "Bob") true Directory.User [bs "sales@example.net"]
  (ac_forwarding bob) 0 0 [] [] [] (ac_vacation bob) (ac_created_at bob).
Lemma alias_in_alias_domain_lost :
  let s' := dir_run empty_store (some_events ++ [EAccountUpdate with_alias]) in
  resolve_entry (bs "sales@example.net") s' = Ok (Some (entry_account (bs "sales@example.net") 7)) ∧
  resolve (bs "sales@example.net") s' = Ok RUnknown.
Proof. by vm_compute. Qed.

(** The catch-all of a domain outlives the account it names: mail for unknown
    recipients is still accepted for an account that is not there. *)
Definition catching : Domain := mkDomain 5 (bs "example.org") [] true (Some 7) [] Unverified 0.
Lemma catch_all_outlives_account :
  let s' := dir_run empty_store (some_events ++ [EDomainUpdate catching; EAccountDelete 7]) in
  resolve (bs "nobody@example.org") s' = Ok (RLocal 7 true) ∧ is_ok (account_get 7 s') = false.
Proof. by vm_compute. Qed.
