(* ===== verification/FilterRules.v ===== *)
(** * Filter rules (crates/mail/src/sieve_compile.rs, sieve/src/error.rs)

    The rules a user edits in the web mail are turned into a Sieve script,
    which is compiled like one the user wrote.  A rule set is printed as text;
    the values in it are quoted.  A stored script is compiled from its rules
    when it has them, from its source otherwise. *)

From S2P Require Import Prelude Bytes Text Fts Sieve SieveLexer SieveGrammar Directory.
From stdpp Require Import base list strings.
From Stdlib Require Import ZArith Lia.

Open Scope Z_scope.

(** ** Data *)

(** serde_json's values, as far as the code looks into them. *)
Class JsonValue : Type := {
  Value : Type;
  value_get : bytes → Value → option Value;
  value_as_str : Value → option bytes;
  value_as_bool : Value → option bool;
  value_as_array : Value → option (list Value);
}.

(** [sieve_compile.rs]'s types; those of the compiler are [Sieve.MatchType] and
    [Sieve.Comparator]. *)
Inductive MatchType : Type := All | Any.
Inductive Field : Type := From | To | Cc | Subject | Header (name : bytes).
Inductive Comparator : Type := Contains | Is | Matches.
Record Condition : Type := mkCondition { field : Field; comparator : Comparator; value : bytes }.
Inductive Action : Type :=
  | FileInto (mailbox : bytes)
  | Redirect (address : bytes)
  | Discard
  | Keep
  | AddFlag (flag : bytes)
  | Stop.
Record Rule : Type := mkRule {
  rule_name : bytes; enabled : bool; match_type : MatchType; conditions : list Condition; actions : list Action }.
Record RuleSet : Type := mkRuleSet { rules : list Rule }.
Record CompiledScript : Type := mkCompiled { cs_source : bytes; cs_script : Script }.

(** directory/src/sieve_registry.rs. *)
Record StoredScript `{JsonValue} : Type := mkStored {
  ss_id : bytes; ss_name : bytes; ss_source : bytes; ss_rules : option Value; ss_active : bool }.
Arguments mkStored {_} _ _ _ _ _.

(** ** Printing *)

(** [push_quoted]: the text between the quotes. *)
Definition quote_char (ch : bytes) : bytes :=
  match ch with
  | [b] => if (b =? 34) || (b =? 92) then [92; b] else if (b <? 32) || (b =? 127) then [32] else [b]
  | _ => ch
  end.
Definition push_quoted (value : bytes) : bytes := [34] ++ (chars value ≫= quote_char) ++ [34].

Definition field_header (f : Field) : bytes :=
  match f with
  | From => bs "From"
  | To => bs "To"
  | Cc => bs "Cc"
  | Subject => bs "Subject"
  | Header name => name
  end.
Definition comparator_text (c : Comparator) : bytes :=
  match c with Contains => bs ":contains " | Is => bs ":is " | Matches => bs ":matches " end.
Definition emit_condition (c : Condition) : bytes :=
  bs "header " ++ comparator_text (comparator c) ++ push_quoted (field_header (field c)) ++ [32] ++ push_quoted (value c).

Definition emit_action (a : Action) : bytes :=
  match a with
  | FileInto mailbox => bs "fileinto " ++ push_quoted mailbox ++ bs ";"
  | Redirect address => bs "redirect " ++ push_quoted address ++ bs ";"
  | Discard => bs "discard;"
  | Keep => bs "keep;"
  | AddFlag flag => bs "addflag " ++ push_quoted flag ++ bs ";"
  | Stop => bs "stop;"
  end ++ CRLF.

(** The conditions, with a comma and a space between them. *)
Definition emit_conditions (cs : list Condition) : bytes := Sieve.join (bs ", ") (emit_condition <$> cs).
Definition emit_rule (r : Rule) : bytes :=
  match conditions r with
  | [] => actions r ≫= emit_action
  | cs =>
      bs "if " ++ (match match_type r with All => bs "allof (" | Any => bs "anyof (" end)
      ++ emit_conditions cs ++ bs ") {" ++ CRLF
      ++ (actions r ≫= λ a, [9] ++ emit_action a) ++ bs "}" ++ CRLF
  end.
Definition enabled_rules (rs : RuleSet) : list Rule := filter (λ r, enabled r = true) (rules rs).
Definition REQUIRE : bytes :=
  bs "require [" ++ [34] ++ bs "fileinto" ++ [34] ++ bs ", " ++ [34] ++ bs "imap4flags" ++ [34] ++ bs "];" ++ CRLF.
Definition emit_script (rs : RuleSet) : bytes := REQUIRE ++ (enabled_rules rs ≫= emit_rule).

(** ** Compiling *)

(** [CompileError]'s text. *)
Definition compile_error_text (e : CompileError) : bytes :=
  bs "line " ++ fmt_dec (Z.of_nat (err_line e)) ++ bs ": " ++ err_message e.

(** [compile_source].  The compiler does not panic ([compile_tokens_structured]),
    so its last case is never taken. *)
Definition compile_source (source : bytes) : result CompiledScript :=
  match compile default_compiler_limits source with
  | inr script => Ok (mkCompiled source script)
  | inl (Rejected e) => Err (InvalidInput (text (bs "filter rules are not valid: " ++ compile_error_text e)))
  | inl Panicked => Err (Internal "unreachable")
  end.
Definition compile_rules (rs : RuleSet) : result CompiledScript := compile_source (emit_script rs).

Definition result_ok {A} (r : result A) : option A := match r with Ok a => Some a | Err _ => None end.

Section stored.
Context `{JsonValue}.

(** The members of a stored rule. *)
Definition member (name : string) (v : Value) : option bytes := v ← value_get (bs name) v; value_as_str v.
Definition stored_field (s : bytes) : option Field :=
  if bool_decide (s = bs "from") then Some From
  else if bool_decide (s = bs "to") then Some To
  else if bool_decide (s = bs "subject") then Some Subject
  else None.
Definition stored_comparator (s : bytes) : option Comparator :=
  if bool_decide (s = bs "contains") then Some Contains
  else if bool_decide (s = bs "is") then Some Is
  else None.
Definition stored_action (s target : bytes) : option Action :=
  if bool_decide (s = bs "fileinto") then Some (FileInto target)
  else if bool_decide (s = bs "forward") then Some (Redirect target)
  else if bool_decide (s = bs "discard") then Some Discard
  else if bool_decide (s = bs "markRead") then Some (AddFlag (bs "\Seen"))
  else None.
Definition stored_rule (v : Value) : option Rule :=
  f ← member "field" v ≫= stored_field;
  c ← member "operator" v ≫= stored_comparator;
  pattern ← member "value" v;
  let target := default [] (member "target" v) in
  a ← (s ← member "action" v; stored_action s target);
  Some (mkRule (default [] (member "name" v)) true All [mkCondition f c pattern] [a]).
Definition stored_rule_set (rs : Value) : RuleSet :=
  mkRuleSet (match value_as_array rs with Some l => omap stored_rule l | None => [] end).

Definition compile_stored_script (s : StoredScript) : option CompiledScript :=
  match ss_rules s with
  | Some rs =>
      let rule_set := stored_rule_set rs in
      if bool_decide (rules rule_set = []) then None else result_ok (compile_rules rule_set)
  | None => if bool_decide (str_trim (ss_source s) = []) then None else result_ok (compile_source (ss_source s))
  end.
Definition compile_active_script (scripts : list StoredScript) : option CompiledScript :=
  s ← List.find ss_active scripts; compile_stored_script s.
Definition script_source (s : StoredScript) : bytes :=
  if negb (bool_decide (ss_source s = [])) then ss_source s
  else match ss_rules s with Some rs => emit_script (stored_rule_set rs) | None => [] end.
End stored.
