(* ===== verification/FilterRulesSound.v ===== *)
(** * Filter rules do what they say

    First the lexer on printed rules: no value of a rule ends its string early,
    so the tokens of the script are those the rules call for, with each value,
    control characters replaced by spaces, in one string.  Then the compiler:
    on these tokens it emits the code of one branch for each rule, and that
    code does what the rules say: the rules are tried in order, a rule applies
    when all or any of its conditions hold, and its actions are carried out up
    to a stop. *)

From S2P Require Import Prelude Bytes Text Fts MailParser Sieve SieveLexer SieveGrammar SieveSound Directory FilterRules.
From stdpp Require Import base list strings.
From Stdlib Require Import ZArith Lia.

Local Open Scope Z_scope.

(** ** Characters and bytes *)

Definition quote_byte (b : Z) : bytes := quote_char [b].
(** What is left of a value: control characters are spaces. *)
Definition clean_byte (b : Z) : Z := if (b <? 32) || (b =? 127) then 32 else b.
Definition clean (v : bytes) : bytes := clean_byte <$> v.

Lemma utf8_lead_high b n lo hi : utf8_lead b = Some (n, lo, hi) → 128 ≤ b ∧ 128 ≤ lo.
Proof. unfold utf8_lead. repeat case_match; intros; simplify_eq; lia. Qed.
Lemma count_cont_high n s : Forall (λ b, 128 ≤ b) (take (count_cont n s) s).
Proof.
  revert s. induction n as [|n IH]; intros [|b s]; simpl; try done. destruct (is_cont b) eqn:E; [|done].
  simpl. constructor; [|apply IH]. unfold is_cont in E. lia.
Qed.
Lemma count_cont_le n s : (count_cont n s ≤ length s)%nat.
Proof. revert s. induction n as [|n IH]; intros [|b s]; simpl; try lia. case_match; [|lia]. specialize (IH s). lia. Qed.

(** The first character is one byte, or its bytes are not ASCII. *)
Lemma utf8_chunk_cases b s :
  (utf8_chunk b s).1 = 1%nat ∨
  ∃ c1 c2 cs rest, b :: s = c1 :: c2 :: cs ++ rest ∧ (utf8_chunk b s).1 = length (c1 :: c2 :: cs) ∧
    Forall (λ b, 128 ≤ b) (c1 :: c2 :: cs).
Proof.
  unfold utf8_chunk. destruct (b <? 128); [by left|]. destruct (utf8_lead b) as [[[n lo] hi]|] eqn:El; [|by left].
  apply utf8_lead_high in El as [Hb Hlo]. destruct s as [|c s]; [by left|].
  destruct ((lo <=? c) && (c <=? hi)) eqn:Ec; [|by left]. right.
  exists b, c, (take (count_cont (n - 1) s) s), (drop (count_cont (n - 1) s) s). rewrite take_drop. split_and!; [done| |].
  - simpl. rewrite length_take. pose proof (count_cont_le (n - 1) s). lia.
  - constructor; [done|]. constructor; [lia|apply count_cont_high].
Qed.

Lemma quote_byte_high b : 128 ≤ b → quote_byte b = [b].
Proof. intros Hb. unfold quote_byte, quote_char. repeat (case_match; [lia|]). done. Qed.
Lemma quote_bytes_high cs : Forall (λ b, 128 ≤ b) cs → cs ≫= quote_byte = cs.
Proof. induction 1 as [|b cs Hb _ IH]; [done|]. rewrite bind_cons, quote_byte_high by done. cbn [app]. by f_equal. Qed.

(** Quoting by characters is quoting by bytes. *)
Lemma chars_quote fuel s : (length s ≤ fuel)%nat → chars_go fuel s ≫= quote_char = s ≫= quote_byte.
Proof.
  revert s. induction fuel as [|fuel IH]; intros [|b s] Hf; simpl in Hf; try done; [lia|]. cbn [chars_go]. cbv zeta.
  destruct (utf8_chunk_cases b s) as [->|(c1 & c2 & cs & rest & E & -> & Hhigh)].
  - cbn [take drop]. rewrite !bind_cons. unfold quote_byte at 1. f_equal. rewrite drop_0. apply IH. lia.
  - rewrite E. change (c1 :: c2 :: cs ++ rest) with ((c1 :: c2 :: cs) ++ rest). rewrite take_app_length, drop_app_length.
    rewrite bind_app, (quote_bytes_high _ Hhigh), <-IH; [done|]. apply (f_equal length) in E. simpl in E. rewrite length_app in E. lia.
Qed.
Lemma push_quoted_bytes v : push_quoted v = [34] ++ (v ≫= quote_byte) ++ [34].
Proof. unfold push_quoted, chars. by rewrite chars_quote. Qed.

(** Replacing ASCII characters by ASCII characters keeps a text valid. *)
Lemma clean_byte_high b : 128 ≤ b → clean_byte b = b.
Proof. intros Hb. unfold clean_byte. case_match; [lia|done]. Qed.
Lemma clean_byte_low b : b < 128 → clean_byte b < 128.
Proof. intros Hb. unfold clean_byte. case_match; lia. Qed.
Lemma is_cont_clean b : is_cont (clean_byte b) = is_cont b.
Proof.
  destruct (Z.lt_ge_cases b 128) as [Hb|Hb]; [|by rewrite clean_byte_high].
  pose proof (clean_byte_low b Hb). unfold is_cont. rewrite !(proj2 (Z.leb_gt 128 _)) by lia. done.
Qed.
Lemma count_cont_clean n s : count_cont n (clean s) = count_cont n s.
Proof. revert s. induction n as [|n IH]; intros [|b s]; try done. unfold clean. cbn [fmap list_fmap count_cont]. rewrite is_cont_clean. fold (clean s). by rewrite IH. Qed.
Lemma utf8_chunk_clean b s : utf8_chunk (clean_byte b) (clean s) = utf8_chunk b s.
Proof.
  unfold utf8_chunk. destruct (Z.ltb_spec b 128) as [Hb|Hb].
  - pose proof (clean_byte_low b Hb). by rewrite (proj2 (Z.ltb_lt _ _)).
  - rewrite clean_byte_high by done. rewrite (proj2 (Z.ltb_ge _ _)) by done.
    destruct (utf8_lead b) as [[[n lo] hi]|] eqn:El; [|done]. apply utf8_lead_high in El as [_ Hlo].
    destruct s as [|c s]; [done|]. cbn [clean fmap list_fmap]. fold (clean s). rewrite count_cont_clean.
    destruct (Z.lt_ge_cases c 128) as [Hc|Hc]; [|by rewrite clean_byte_high].
    pose proof (clean_byte_low c Hc). rewrite !(proj2 (Z.leb_gt lo _)) by lia. done.
Qed.
Lemma utf8_valid_clean s : utf8_valid (clean s) = utf8_valid s.
Proof.
  unfold utf8_valid. unfold clean at 1. rewrite length_fmap. generalize (length s) as fuel. intros fuel. revert s.
  induction fuel as [|fuel IH]; intros [|b s]; try done.
  change (clean (b :: s)) with (clean_byte b :: clean s). cbn [utf8_valid_go]. rewrite utf8_chunk_clean.
  destruct (utf8_chunk b s) as [n ok]. f_equal. rewrite <-(IH (drop n (b :: s))). f_equal.
  change (clean_byte b :: clean s) with (clean_byte <$> (b :: s)). unfold clean. by rewrite fmap_drop.
Qed.

(** ** Strings *)

(** A byte of a value is escaped, or stands for itself or a space. *)
Lemma quote_byte_cases b :
  quote_byte b = [92; clean_byte b] ∨ quote_byte b = [clean_byte b] ∧ clean_byte b ≠ 34 ∧ clean_byte b ≠ 92.
Proof.
  unfold quote_byte, quote_char, clean_byte. destruct ((b =? 34) || (b =? 92)) eqn:Eq.
  - left. by assert ((b <? 32) || (b =? 127) = false) as -> by lia.
  - right. case_match; split_and!; try done; lia.
Qed.

(** The scanner on a printed value. *)
Lemma quoted_string_reads limit at_ v rest p acc :
  (length (acc ++ clean v) ≤ limit)%nat → utf8_valid (acc ++ clean v) = true →
  ∃ p', quoted_string limit at_ ((v ≫= quote_byte) ++ 34 :: rest) p acc = inr (acc ++ clean v, mkLexer rest p').
Proof.
  revert p acc. induction v as [|b v IH]; intros p acc Hl Hv.
  { cbn in *. rewrite app_nil_r in *. rewrite Hv. eauto. }
  change (clean (b :: v)) with (clean_byte b :: clean v) in *.
  rewrite (cons_middle (clean_byte b) acc), app_assoc in Hl, Hv |- *.
  assert ((limit <? length (acc ++ [clean_byte b]))%nat = false) as Hlen.
  { rewrite length_app in Hl. apply Nat.ltb_ge. lia. }
  rewrite bind_cons, <-app_assoc. destruct (quote_byte_cases b) as [->|(-> & H1 & H2)]; cbn [app quoted_string].
  - cbn [Z.eqb Pos.eqb]. rewrite Hlen. by apply IH.
  - rewrite !(proj2 (Z.eqb_neq _ _)) by done. rewrite Hlen. by apply IH.
Qed.

(** ** Scanning *)

(** From one position of the lexer to another, by the tokens in between. *)
Inductive scans_to (limits : CompilerLimits) : Lexer → list Tok → Lexer → Prop :=
  | scans_nil l : scans_to limits l [] l
  | scans_blank b s p ts l :
      is_blank_byte b = true → scans_to limits (mkLexer s (bump b p)) ts l → scans_to limits (mkLexer (b :: s) p) ts l
  | scans_token b s p t l1 ts l :
      is_blank_byte b = false → b ≠ 35 → b ≠ 47 → token_at limits b s p = inr (t, l1) → (length (lx_rest l1) ≤ length s)%nat →
      scans_to limits l1 ts l → scans_to limits (mkLexer (b :: s) p) (tok t :: ts) l.

Lemma scans_trans limits l1 ts1 l2 ts2 l3 :
  scans_to limits l1 ts1 l2 → scans_to limits l2 ts2 l3 → scans_to limits l1 (ts1 ++ ts2) l3.
Proof. induction 1; intros; simpl; eauto using scans_to. Qed.

(** The bounds are enough, so the lexer yields these tokens. *)
Lemma next_token_blank limits fuel b s p :
  is_blank_byte b = true → next_token (S fuel) limits (mkLexer (b :: s) p) = next_token fuel limits (mkLexer s (bump b p)).
Proof. intros Hb. cbn. by rewrite Hb. Qed.
Lemma next_token_here limits fuel b s p t l :
  is_blank_byte b = false → b ≠ 35 → b ≠ 47 → token_at limits b s p = inr (t, l) →
  next_token (S fuel) limits (mkLexer (b :: s) p) = inr (Some (t, l)).
Proof. intros Hb H1 H2 Ht. cbn. rewrite Hb, !(proj2 (Z.eqb_neq _ _)) by done. cbn [andb]. by rewrite Ht. Qed.
Lemma tokens_scanned limits l ts p' :
  scans_to limits l ts (mkLexer [] p') → ∀ fuel, (length (lx_rest l) < fuel)%nat →
  ∃ toks, tokens fuel limits l = inr toks ∧ tok <$> toks = ts.
Proof.
  remember (mkLexer [] p') as lend eqn:Hend. induction 1 as [l|b s p ts l Hb Hs IH|b s p t l1 ts l Hb H1 H2 Ht Hlen Hs IH];
    intros [|fuel] Hf; simpl in Hf; try lia; subst.
  - by exists [].
  - destruct (IH eq_refl (S fuel) ltac:(simpl; lia)) as (toks & Et & Hts). exists toks. split; [|done].
    cbn [tokens lx_rest length] in *. by rewrite next_token_blank.
  - destruct (IH eq_refl fuel ltac:(lia)) as (toks & Et & Hts). exists (t :: toks). split; [|cbn; by f_equal].
    cbn [tokens]. rewrite (next_token_here _ _ _ _ _ _ _ Hb H1 H2 Ht). cbn. by rewrite Et.
Qed.

(** A text that is read as these tokens wherever it stands. *)
Definition reads_as (limits : CompilerLimits) (s : bytes) (ts : list Tok) : Prop :=
  ∀ rest p, ∃ p', scans_to limits (mkLexer (s ++ rest) p) ts (mkLexer rest p').

Lemma lex_reads limits s ts : reads_as limits s ts → ∃ toks, lex s limits = inr toks ∧ tok <$> toks = ts.
Proof.
  intros Hs. destruct (Hs [] (mkPos 1 1)) as [p' Hp]. rewrite app_nil_r in Hp.
  apply (tokens_scanned _ _ _ _ Hp). simpl. lia.
Qed.

Lemma reads_nil limits : reads_as limits [] [].
Proof. intros rest p. exists p. constructor. Qed.
Lemma reads_app limits s1 ts1 s2 ts2 : reads_as limits s1 ts1 → reads_as limits s2 ts2 → reads_as limits (s1 ++ s2) (ts1 ++ ts2).
Proof.
  intros H1 H2 rest p. rewrite <-app_assoc. destruct (H1 (s2 ++ rest) p) as [p1 Hs1]. destruct (H2 rest p1) as [p2 Hs2].
  exists p2. by eapply scans_trans.
Qed.
Lemma reads_bind {A} limits (f : A → bytes) (g : A → list Tok) l :
  Forall (λ a, reads_as limits (f a) (g a)) l → reads_as limits (l ≫= f) (l ≫= g).
Proof. induction 1; [apply reads_nil|]. by apply reads_app. Qed.
Lemma reads_blank limits b : is_blank_byte b = true → reads_as limits [b] [].
Proof. intros Hb rest p. exists (bump b p). apply scans_blank; [done|]. constructor. Qed.
Lemma reads_one limits b s t :
  is_blank_byte b = false → b ≠ 35 → b ≠ 47 →
  (∀ rest p, ∃ line col p', token_at limits b (s ++ rest) p = inr (mkToken t line col, mkLexer rest p')) →
  reads_as limits (b :: s) [t].
Proof.
  intros Hb H1 H2 Ht rest p. destruct (Ht rest p) as (line & col & p' & E). exists p'.
  apply (scans_token _ _ _ _ _ _ _ _ Hb H1 H2 E); [|constructor]. simpl. rewrite length_app. lia.
Qed.
Lemma reads_punct limits b t :
  punctuation b = Some t → reads_as limits [b] [t].
Proof.
  unfold punctuation. intros Hp.
  repeat (case_match; [match goal with E : (b =? _) = true |- _ => apply Z.eqb_eq in E as -> end; simplify_eq;
    (apply reads_one; [done..|]; intros rest p; by do 3 eexists)|]). done.
Qed.
Lemma reads_string limits v :
  utf8_valid v = true → (length v ≤ max_string_size limits)%nat → reads_as limits (push_quoted v) [TStr (clean v)].
Proof.
  intros Hv Hl. rewrite push_quoted_bytes. apply reads_one; try done. intros rest p. rewrite <-app_assoc.
  destruct (quoted_string_reads (max_string_size limits) p v rest (bump 34 p) []) as [p' E];
    [by rewrite app_nil_l; unfold clean; rewrite length_fmap|by rewrite app_nil_l, utf8_valid_clean|].
  unfold token_at. cbn [Z.eqb Pos.eqb]. change ([34] ++ rest) with (34 :: rest). rewrite E. cbn. eauto.
Qed.

(** ** Words *)

Lemma word_spec w c rest p :
  forallb is_word_byte w = true → is_word_byte c = false →
  ∃ p', word (w ++ c :: rest) p = (to_lower <$> w, mkLexer (c :: rest) p').
Proof.
  intros Hw Hc. revert p. induction w as [|b w IH]; intros p.
  - cbn [app word]. rewrite Hc. cbn. eauto.
  - apply andb_true_iff in Hw as [Hb Hw]. cbn [app word]. rewrite Hb. destruct (IH Hw (bump b p)) as [p' ->]. cbn. eauto.
Qed.

Lemma word_start_plain b :
  is_word_start b = true → is_blank_byte b = false ∧ b ≠ 35 ∧ b ≠ 47 ∧ (b =? 34) = false ∧ is_digit b = false.
Proof. unfold is_word_start, is_blank_byte, is_digit, is_ascii_lower, is_ascii_upper. intros. split_and!; lia. Qed.

(** A word before a byte that is not part of it and not a colon. *)
Lemma reads_word limits w c s ts :
  forallb is_word_byte w = true → existsb is_word_start (take 1 w) = true → is_word_byte c = false → c ≠ 58 →
  reads_as limits (c :: s) ts → reads_as limits (w ++ c :: s) (TIdentifier (to_lower <$> w) :: ts).
Proof.
  intros Hw Hs Hc H58 Hrest rest p. destruct w as [|b w]; [done|]. cbn in Hs. rewrite orb_false_r in Hs.
  destruct (word_start_plain b Hs) as (Hb & H1 & H2 & H3 & H4).
  destruct (word_spec (b :: w) c (s ++ rest) p Hw Hc) as [p1 Ew]. destruct (Hrest rest p1) as [p' Hp].
  exists p'. rewrite <-app_assoc. cbn [app].
  eapply (scans_token _ b (w ++ c :: s ++ rest) p (mkToken (TIdentifier (to_lower <$> (b :: w))) (p_line p) (p_col p))
    (mkLexer (c :: s ++ rest) p1)); try done.
  - unfold token_at. rewrite H3, H4, Hs. cbv zeta. cbn [app] in Ew. rewrite Ew. cbn [lx_rest].
    destruct c as [|c|]; try done. repeat (destruct c as [c|c|]; try done).
  - cbn [lx_rest length]. rewrite (length_app w). cbn [length]. lia.
Qed.

(** A tag before a byte that is not part of it. *)
Lemma reads_tag limits w c s ts :
  forallb is_word_byte w = true → existsb is_word_start (take 1 w) = true → is_word_byte c = false →
  reads_as limits (c :: s) ts → reads_as limits (58 :: w ++ c :: s) (TTag (to_lower <$> w) :: ts).
Proof.
  intros Hw Hs Hc Hrest rest p. destruct w as [|b w]; [done|]. cbn in Hs. rewrite orb_false_r in Hs.
  destruct (word_spec (b :: w) c (s ++ rest) (bump 58 p) Hw Hc) as [p1 Ew]. destruct (Hrest rest p1) as [p' Hp].
  exists p'. cbn [app]. rewrite <-app_assoc.
  eapply (scans_token _ 58 (b :: w ++ c :: s ++ rest) p (mkToken (TTag (to_lower <$> (b :: w))) (p_line p) (p_col p))
    (mkLexer (c :: s ++ rest) p1)); try done.
  - unfold token_at. cbn [Z.eqb Pos.eqb]. change (is_digit 58) with false. change (is_word_start 58) with false. cbv zeta.
    rewrite Hs. cbn [app] in Ew. by rewrite Ew.
  - cbn [lx_rest length]. rewrite (length_app w). cbn [length]. lia.
Qed.

(** A word and a space, a word and a semicolon, a tag and a space. *)
Lemma reads_word_space limits w :
  forallb is_word_byte w = true → existsb is_word_start (take 1 w) = true →
  reads_as limits (w ++ [32]) [TIdentifier (to_lower <$> w)].
Proof. intros. apply reads_word; try done. by apply reads_blank. Qed.
Lemma reads_word_end limits w :
  forallb is_word_byte w = true → existsb is_word_start (take 1 w) = true →
  reads_as limits (w ++ [59]) [TIdentifier (to_lower <$> w); Semicolon].
Proof. intros. apply reads_word; try done. by apply reads_punct. Qed.
Lemma reads_tag_space limits w :
  forallb is_word_byte w = true → existsb is_word_start (take 1 w) = true →
  reads_as limits (58 :: w ++ [32]) [TTag (to_lower <$> w)].
Proof. intros. apply reads_tag; try done. by apply reads_blank. Qed.
Lemma reads_crlf limits : reads_as limits CRLF [].
Proof. apply (reads_app _ [13] [] [10] []); by apply reads_blank. Qed.

(** ** The script *)

Definition comparator_tag (c : Comparator) : bytes :=
  match c with Contains => bs "contains" | Is => bs "is" | Matches => bs "matches" end.
Definition condition_tokens (c : Condition) : list Tok :=
  [TIdentifier (bs "header"); TTag (comparator_tag (comparator c)); TStr (clean (field_header (field c))); TStr (clean (value c))].
Fixpoint conditions_tokens (cs : list Condition) : list Tok :=
  match cs with
  | [] => []
  | [c] => condition_tokens c
  | c :: cs => condition_tokens c ++ Comma :: conditions_tokens cs
  end.
Definition action_tokens (a : Action) : list Tok :=
  match a with
  | FileInto mailbox => [TIdentifier (bs "fileinto"); TStr (clean mailbox); Semicolon]
  | Redirect address => [TIdentifier (bs "redirect"); TStr (clean address); Semicolon]
  | Discard => [TIdentifier (bs "discard"); Semicolon]
  | Keep => [TIdentifier (bs "keep"); Semicolon]
  | AddFlag flag => [TIdentifier (bs "addflag"); TStr (clean flag); Semicolon]
  | Stop => [TIdentifier (bs "stop"); Semicolon]
  end.
Definition rule_tokens (r : Rule) : list Tok :=
  match conditions r with
  | [] => actions r ≫= action_tokens
  | cs =>
      [TIdentifier (bs "if"); TIdentifier (match match_type r with All => bs "allof" | Any => bs "anyof" end); LParen]
      ++ conditions_tokens cs ++ [RParen; LBrace] ++ (actions r ≫= action_tokens) ++ [RBrace]
  end.
Definition require_tokens : list Tok :=
  [TIdentifier (bs "require"); LBracket; TStr (bs "fileinto"); Comma; TStr (bs "imap4flags"); RBracket; Semicolon].
Definition script_tokens (rs : RuleSet) : list Tok := require_tokens ++ (enabled_rules rs ≫= rule_tokens).

(** The values the compiler takes: text of at most its longest string, and
    names of headers. *)
Definition string_ok (limits : CompilerLimits) (v : bytes) : bool := utf8_valid v && (length v <=? max_string_size limits)%nat.
Definition condition_ok (limits : CompilerLimits) (c : Condition) : bool :=
  string_ok limits (field_header (field c)) && valid_header (field_header (field c)) && string_ok limits (value c).
Definition action_ok (limits : CompilerLimits) (a : Action) : bool :=
  match a with FileInto v | Redirect v | AddFlag v => string_ok limits v | _ => true end.
Definition rule_ok (limits : CompilerLimits) (r : Rule) : bool :=
  forallb (condition_ok limits) (conditions r) && forallb (action_ok limits) (actions r).

Section script.
Context (limits : CompilerLimits) (roomy : (10 ≤ max_string_size limits)%nat).
Abbreviation reads_ := (reads_as limits).

Lemma reads_value v : string_ok limits v = true → reads_ (push_quoted v) [TStr (clean v)].
Proof. intros [Hv Hl]%andb_true_iff. apply reads_string; [done|]. by apply Nat.leb_le. Qed.

Lemma reads_condition c : condition_ok limits c = true → reads_ (emit_condition c) (condition_tokens c).
Proof.
  unfold condition_ok. rewrite !andb_true_iff. intros [[Hf _] Hv]. unfold emit_condition.
  apply (reads_app _ _ [_]); [by apply (reads_word_space _ (bs "header"))|].
  apply (reads_app _ _ [_]).
  { destruct (comparator c); [by apply (reads_tag_space _ (bs "contains"))|by apply (reads_tag_space _ (bs "is"))|].
    by apply (reads_tag_space _ (bs "matches")). }
  apply (reads_app _ _ [_]); [by apply reads_value|]. apply (reads_app _ _ []); [by apply reads_blank|by apply reads_value].
Qed.
Lemma reads_conditions cs : forallb (condition_ok limits) cs = true → reads_ (emit_conditions cs) (conditions_tokens cs).
Proof.
  unfold emit_conditions. induction cs as [|c cs IH]; [intros; apply reads_nil|]. intros [Hc Hcs]%andb_true_iff.
  destruct cs as [|c' cs]; [by apply reads_condition|].
  change (reads_ (emit_condition c ++ bs ", " ++ Sieve.join (bs ", ") (emit_condition <$> c' :: cs))
    (condition_tokens c ++ Comma :: conditions_tokens (c' :: cs))).
  apply reads_app; [by apply reads_condition|]. apply (reads_app _ _ [_]); [|by apply IH].
  apply (reads_app _ [44] [_] [32] []); [by apply reads_punct|by apply reads_blank].
Qed.

Lemma reads_argument w v :
  forallb is_word_byte w = true → existsb is_word_start (take 1 w) = true → string_ok limits v = true →
  reads_ ((w ++ [32]) ++ push_quoted v ++ [59]) [TIdentifier (to_lower <$> w); TStr (clean v); Semicolon].
Proof.
  intros Hw Hs Hv. apply (reads_app _ _ [_]); [by apply reads_word_space|].
  apply (reads_app _ _ [_]); [by apply reads_value|by apply reads_punct].
Qed.
Lemma reads_action a : action_ok limits a = true → reads_ (emit_action a) (action_tokens a).
Proof.
  intros Ha. unfold emit_action. rewrite <-(app_nil_r (action_tokens a)). apply reads_app; [|apply reads_crlf].
  destruct a; first
    [ by apply (reads_argument (bs "fileinto")) | by apply (reads_argument (bs "redirect"))
    | by apply (reads_argument (bs "addflag")) | by apply (reads_word_end _ (bs "discard"))
    | by apply (reads_word_end _ (bs "keep")) | by apply (reads_word_end _ (bs "stop")) ].
Qed.
Lemma reads_actions (pre : bytes) acts :
  reads_ pre [] → forallb (action_ok limits) acts = true →
  reads_ (acts ≫= λ a, pre ++ emit_action a) (acts ≫= action_tokens).
Proof.
  intros Hpre Ha. apply reads_bind, Forall_forall. intros a Hin. apply (reads_app _ _ []); [done|]. apply reads_action.
  eapply forallb_forall; [exact Ha|by apply list_elem_of_In].
Qed.

Lemma reads_rule r : rule_ok limits r = true → reads_ (emit_rule r) (rule_tokens r).
Proof.
  intros [Hc Ha]%andb_true_iff. unfold emit_rule, rule_tokens.
  destruct (conditions r) as [|c cs]; [by apply (reads_actions [] _ (reads_nil _))|].
  apply (reads_app _ _ [_]); [by apply (reads_word_space _ (bs "if"))|].
  apply (reads_app _ _ [_; _]).
  { assert (reads_ [32; 40] [LParen]) as Hp.
    { apply (reads_app _ [32] [] [40] [_]); [by apply reads_blank|by apply reads_punct]. }
    destruct (match_type r); [by apply (reads_word _ (bs "allof") 32 [40])|by apply (reads_word _ (bs "anyof") 32 [40])]. }
  apply reads_app; [by apply reads_conditions|]. apply (reads_app _ _ [_; _]).
  { apply (reads_app _ [41] [_] [32; 123] [_]); [by apply reads_punct|].
    apply (reads_app _ [32] [] [123] [_]); [by apply reads_blank|by apply reads_punct]. }
  apply (reads_app _ _ []); [apply reads_crlf|]. apply reads_app; [by apply reads_actions; [apply reads_blank|]|].
  apply (reads_app _ [125] [_] CRLF []); [by apply reads_punct|apply reads_crlf].
Qed.

Lemma reads_require : reads_ REQUIRE require_tokens.
Proof.
  unfold REQUIRE. apply (reads_app _ (bs "require [") [_; _]).
  { apply (reads_word _ (bs "require") 32 [91]); try done.
    apply (reads_app _ [32] [] [91] [_]); [by apply reads_blank|by apply reads_punct]. }
  apply (reads_app _ (push_quoted (bs "fileinto")) [_]); [apply reads_string; [done|cbn; lia]|].
  apply (reads_app _ [44] [_]); [by apply reads_punct|]. apply (reads_app _ [32] []); [by apply reads_blank|].
  apply (reads_app _ (push_quoted (bs "imap4flags")) [_]); [apply reads_string; [done|cbn; lia]|].
  apply (reads_app _ [93] [_]); [by apply reads_punct|].
  apply (reads_app _ [59] [_]); [by apply reads_punct|apply reads_crlf].
Qed.

Lemma lex_script rs :
  forallb (rule_ok limits) (enabled_rules rs) = true →
  ∃ toks, lex (emit_script rs) limits = inr toks ∧ tok <$> toks = script_tokens rs.
Proof.
  intros Hok. apply lex_reads. apply reads_app; [apply reads_require|]. apply reads_bind, Forall_forall.
  intros r Hr. apply reads_rule. eapply forallb_forall; [exact Hok|by apply list_elem_of_In].
Qed.
End script.

Local Open Scope nat_scope.

(** ** What the rules say *)

Definition sieve_match (c : Comparator) : Sieve.MatchType :=
  match c with Contains => Sieve.Contains | Is => Sieve.Is | Matches => Sieve.Matches end.

(** The instruction of an action; the flags of a flag action are its words. *)
Definition action_instruction (a : Action) : Instruction :=
  match a with
  | FileInto mailbox => Sieve.FileInto (clean mailbox)
  | Redirect address => Sieve.Redirect (clean address)
  | Discard => Sieve.Discard
  | Keep => Sieve.Keep
  | AddFlag flag => Sieve.AddFlag (split_ascii_whitespace (clean flag))
  | Stop => IStop
  end.

Section meaning.
Context `{MailParser} (l : Limits) (v : MessageView).

(** A header of that name has a value that matches, case ignored. *)
Definition condition_holds (c : Condition) : bool :=
  existsb (value_matches (sieve_match (comparator c)) AsciiCaseMap (clean (value c))) (header_values v (field_header (field c))).
Definition rule_applies (r : Rule) : bool :=
  match conditions r with
  | [] => true
  | cs => match match_type r with All => forallb condition_holds cs | Any => existsb condition_holds cs end
  end.
(** The actions in order, up to a stop. *)
Fixpoint do_actions (acts : list Action) (m : Machine) : Machine * bool :=
  match acts with
  | [] => (m, false)
  | Stop :: _ => (m, true)
  | a :: acts => do_actions acts (act l (action_instruction a) m)
  end.
Fixpoint do_rules (rs : list Rule) (m : Machine) : Machine * bool :=
  match rs with
  | [] => (m, false)
  | r :: rs =>
      let '(m, stopped) := if rule_applies r then do_actions (actions r) m else (m, false) in
      if stopped then (m, true) else do_rules rs m
  end.
End meaning.

Definition rules_outcome `{MailParser} (rs : RuleSet) (raw : bytes) (l : Limits) : Outcome :=
  outcome_of (do_rules l (view_new raw) (enabled_rules rs) initial_machine).1.

(** ** The program of the rules *)

Definition condition_test (c : Condition) : stest :=
  SAtom (TestHeader [clean (field_header (field c))] [clean (value c)] (sieve_match (comparator c)) AsciiCaseMap false).
Fixpoint tests_of (c : Condition) (cs : list Condition) : stests :=
  match cs with [] => TOne (condition_test c) | c' :: cs => TMore (condition_test c) (tests_of c' cs) end.
Definition rule_test (mt : MatchType) (c : Condition) (cs : list Condition) : stest :=
  match mt with All => SAllof (tests_of c cs) | Any => SAnyof (tests_of c cs) end.
Fixpoint action_cmds (acts : list Action) (rest : scmds) : scmds :=
  match acts with [] => rest | a :: acts => CCons (SAct (action_instruction a)) (action_cmds acts rest) end.
Definition rule_cmds (r : Rule) (rest : scmds) : scmds :=
  match conditions r with
  | [] => action_cmds (actions r) rest
  | c :: cs => CCons (SIf BNil (Some (rule_test (match_type r) c cs)) (action_cmds (actions r) CNil)) rest
  end.
Definition rules_cmds (rs : list Rule) : scmds := foldr rule_cmds CNil rs.

Lemma wf_action_cmds acts rest : wf_cmds rest → wf_cmds (action_cmds acts rest).
Proof. intros Hr. induction acts as [|a acts IH]; [done|]. split; [by destruct a|done]. Qed.
Lemma wf_rules_cmds rs : wf_cmds (rules_cmds rs).
Proof.
  induction rs as [|r rs IH]; [done|]. simpl. unfold rule_cmds. destruct (conditions r) as [|c cs]; [by apply wf_action_cmds|].
  split; [|done]. split_and!; [done|done|]. by apply wf_action_cmds.
Qed.

Lemma cg_action_cmds off acts rest :
  cg_cmds off (action_cmds acts rest) = (action_instruction <$> acts) ++ cg_cmds (off + length acts) rest.
Proof.
  revert off. induction acts as [|a acts IH]; intros off; simpl; [by rewrite Nat.add_0_r|].
  rewrite IH. by replace (off + 1 + length acts) with (off + S (length acts)) by lia.
Qed.

Section program.
Context `{MailParser} (l : Limits) (v : MessageView) (from to : option bytes).

Lemma valid_header_clean h : valid_header h = true → clean h = h.
Proof.
  intros [_ Hh]%andb_true_iff. unfold clean. rewrite <-(list_fmap_id h) at 2. apply list_fmap_ext. intros i b Hb.
  rewrite forallb_forall in Hh. specialize (Hh b ltac:(by eapply list_elem_of_In, list_elem_of_lookup_2)).
  unfold clean_byte, id. case_match; lia.
Qed.

Lemma sem_condition c :
  valid_header (field_header (field c)) = true → sem_test v from to (condition_test c) = condition_holds v c.
Proof.
  intros Hv. unfold condition_holds. cbn [condition_test sem_test eval]. rewrite (valid_header_clean (field_header (field c))) by done.
  cbn [existsb]. rewrite orb_false_r, xorb_false_r. induction (header_values v _) as [|x xs IH]; [done|]. cbn [existsb].
  by rewrite orb_false_r, IH.
Qed.
Lemma sem_rule_test mt c cs :
  Forall (λ c, valid_header (field_header (field c)) = true) (c :: cs) →
  sem_test v from to (rule_test mt c cs)
  = match mt with All => forallb (condition_holds v) (c :: cs) | Any => existsb (condition_holds v) (c :: cs) end.
Proof.
  intros Hv. destruct mt; cbn [rule_test sem_test]; revert c Hv;
    (induction cs as [|c' cs IH]; intros c [Hc Hcs]%Forall_cons; cbn [tests_of sem_all sem_any];
      [rewrite sem_condition by done; cbn; by rewrite ?andb_true_r, ?orb_false_r|]);
    rewrite sem_condition, IH by done; done.
Qed.
Lemma sem_action_cmds acts rest m :
  sem_cmds l v from to (action_cmds acts rest) m
  = let '(m, stopped) := do_actions l acts m in if stopped then (m, true) else sem_cmds l v from to rest m.
Proof.
  revert m. induction acts as [|a acts IH]; intros m; [done|]. destruct a; try (apply IH); done.
Qed.
Lemma sem_rules_cmds rs m :
  Forall (λ r, Forall (λ c, valid_header (field_header (field c)) = true) (conditions r)) rs →
  sem_cmds l v from to (rules_cmds rs) m = do_rules l v rs m.
Proof.
  intros Hrs. revert m. induction Hrs as [|r rs Hr _ IH]; intros m; [done|]. cbn [rules_cmds foldr do_rules]. fold (rules_cmds rs).
  unfold rule_cmds, rule_applies. destruct (conditions r) as [|c cs].
  - rewrite sem_action_cmds. destruct (do_actions l (actions r) m) as [m' []]; [done|apply IH].
  - cbn [sem_cmds sem_cmd sem_branches]. rewrite sem_rule_test by done. rewrite sem_action_cmds.
    set (b := match match_type r with All => _ | Any => _ end). clearbody b. destruct b; [|apply IH].
    destruct (do_actions l (actions r) m) as [m' []]; [done|apply IH].
Qed.
End program.

(** ** The parser on the tokens of the rules *)

(** What a parser's step depends on: the tokens ahead, without their places. *)
Record PView : Type := mkPv {
  v_toks : list Tok; v_code : list Instruction; v_caps : list bytes; v_started : bool; v_blocks : list OpenBlock }.
Definition view_of (s : Parser) : PView :=
  mkPv (tok <$> drop (pr_pos s) (pr_tokens s)) (pr_instructions s) (pr_capabilities s) (commands_started s) (blocks s).

(** The call succeeds, with a result and a view in [Q]. *)
Definition does {A} (m : P A) (v : PView) (Q : A → PView → Prop) : Prop :=
  ∀ s, view_of s = v → ∃ a s', m s = inr (a, s') ∧ Q a (view_of s').

Section steps.
Context {A B : Type}.
Implicit Types (Q : A → PView → Prop).

Lemma does_bind (m : P A) (f : A → P B) v (Q : B → PView → Prop) :
  does m v (λ a v', does (f a) v' Q) → does (x ← m; f x) v Q.
Proof.
  intros Hm s Hs. destruct (Hm s Hs) as (a & s1 & E & Hf). destruct (Hf s1 eq_refl) as (b & s2 & E2 & HQ).
  exists b, s2. split; [|done]. unfold mbind, P_bind. by rewrite E.
Qed.
Lemma does_mono (m : P A) v Q Q' : does m v Q → (∀ a v', Q a v' → Q' a v') → does m v Q'.
Proof. intros Hm HQ s Hs. destruct (Hm s Hs) as (a & s' & E & H). eauto. Qed.
Lemma does_ret (a : A) v Q : Q a v → does (mret a) v Q.
Proof. intros HQ s <-. by eexists _, _. Qed.
Lemma does_gets (f : Parser → A) v Q : (∀ s, view_of s = v → Q (f s) v) → does (gets f) v Q.
Proof. intros HQ s Hs. exists (f s), s. split; [done|]. rewrite Hs. by apply HQ. Qed.
(** A bound computed from the state. *)
Lemma does_sized (g : nat → P A) v Q : does (g (S (length (v_toks v)))) v Q → does (λ s, g (S (tokens_left s)) s) v Q.
Proof.
  intros Hg s Hs. destruct (Hg s Hs) as (a & s' & E & HQ). exists a, s'. split; [|done]. rewrite <-E.
  unfold tokens_left. rewrite <-Hs. simpl. by rewrite length_fmap, length_drop.
Qed.
End steps.

Lemma head_drop {A} (l : list A) n : head (drop n l) = l !! n.
Proof. by rewrite head_lookup, lookup_drop, Nat.add_0_r. Qed.
Lemma tail_drop {A} (l : list A) n : tail (drop n l) = drop (S n) l.
Proof. revert n. induction l as [|x l IH]; intros [|n]; try done. apply IH. Qed.

Lemma does_advance t ts code caps st bl (Q : option Token → PView → Prop) :
  (∀ line col, Q (Some (mkToken t line col)) (mkPv ts code caps st bl)) → does advance (mkPv (t :: ts) code caps st bl) Q.
Proof.
  intros HQ s [= Ht Hc Hk Hst Hb]. unfold advance.
  assert (∃ line col, pr_tokens s !! pr_pos s = Some (mkToken t line col) ∧ tok <$> drop (S (pr_pos s)) (pr_tokens s) = ts) as (line & col & -> & Hd).
  { rewrite <-head_drop, <-tail_drop. destruct (drop (pr_pos s) (pr_tokens s)) as [|[t' line col] rest]; [done|]. simplify_eq/=. eauto. }
  eexists _, _. split; [done|]. unfold view_of. simpl. rewrite Hd, Hc, Hk, Hst, Hb. apply HQ.
Qed.
Lemma does_advance_end code caps st bl (Q : option Token → PView → Prop) :
  Q None (mkPv [] code caps st bl) → does advance (mkPv [] code caps st bl) Q.
Proof.
  intros HQ s Hs. unfold advance. assert (pr_tokens s !! pr_pos s = None) as ->.
  { injection Hs as Ht _ _ _ _. apply fmap_nil_inv in Ht. by rewrite <-head_drop, Ht. }
  exists None, s. split; [done|]. by rewrite Hs.
Qed.
Lemma does_peek v (Q : option Tok → PView → Prop) : Q (head (v_toks v)) v → does peek v Q.
Proof.
  intros HQ. apply does_gets. intros s <-. simpl in *. rewrite <-head_drop.
  by destruct (drop (pr_pos s) (pr_tokens s)).
Qed.
Lemma does_expect t d ts code caps st bl (Q : unit → PView → Prop) :
  Q tt (mkPv ts code caps st bl) → does (expect t d) (mkPv (t :: ts) code caps st bl) Q.
Proof. intros HQ. apply does_bind, does_advance. intros line col. simpl. rewrite bool_decide_true by done. by apply does_ret. Qed.
Lemma does_emit i ts code caps st bl (Q : nat → PView → Prop) :
  Q (length code) (mkPv ts (code ++ [i]) caps st bl) → does (emit i) (mkPv ts code caps st bl) Q.
Proof. intros HQ s [= Ht Hc Hk Hst Hb]. eexists _, _. split; [done|]. unfold view_of. simpl. by rewrite Ht, Hc, Hk, Hst, Hb. Qed.
Lemma does_start ts code caps st bl (Q : unit → PView → Prop) :
  Q tt (mkPv ts code caps true bl) → does start_commands (mkPv ts code caps st bl) Q.
Proof. intros HQ s [= Ht Hc Hk Hst Hb]. eexists _, _. split; [done|]. unfold view_of. simpl. by rewrite Ht, Hc, Hk, Hb. Qed.
Lemma does_push b ts code caps st bl (Q : unit → PView → Prop) :
  Q tt (mkPv ts code caps st (b :: bl)) → does (push_block b) (mkPv ts code caps st bl) Q.
Proof. intros HQ s [= Ht Hc Hk Hst Hb]. eexists _, _. split; [done|]. unfold view_of. simpl. by rewrite Ht, Hc, Hk, Hst, Hb. Qed.
Lemma does_pop b ts code caps st bl (Q : option OpenBlock → PView → Prop) :
  Q (Some b) (mkPv ts code caps st bl) → does pop_block (mkPv ts code caps st (b :: bl)) Q.
Proof.
  intros HQ s [= Ht Hc Hk Hst Hb]. unfold pop_block. rewrite Hb. eexists _, _. split; [done|].
  unfold view_of. simpl. by rewrite Ht, Hc, Hk, Hst.
Qed.
Lemma does_code_len ts code caps st bl (Q : nat → PView → Prop) :
  Q (length code) (mkPv ts code caps st bl) → does code_len (mkPv ts code caps st bl) Q.
Proof. intros HQ. apply does_gets. intros s [= _ <- _ _ _]. done. Qed.

(** The extensions the printed script asks for. *)
Definition CAPS : list bytes := [bs "fileinto"; bs "imap4flags"].

Lemma does_need name t ts code st bl (Q : unit → PView → Prop) :
  name ∈ CAPS → Q tt (mkPv ts code CAPS st bl) → does (need_capability name t) (mkPv ts code CAPS st bl) Q.
Proof.
  intros Hn HQ s Hs. exists tt, s. split; [|by rewrite Hs]. unfold need_capability, has_capability.
  injection Hs as _ _ -> _ _. by rewrite bool_decide_true.
Qed.
Lemma does_decode x line col ts code st bl (Q : bytes → PView → Prop) :
  Q x (mkPv ts code CAPS st bl) → does (decode x line col) (mkPv ts code CAPS st bl) Q.
Proof.
  intros HQ s Hs. exists x, s. split; [|by rewrite Hs]. unfold decode, has_capability. by injection Hs as _ _ -> _ _.
Qed.
Lemma does_string x ts code st bl (Q : bytes → PView → Prop) :
  Q x (mkPv ts code CAPS st bl) → does parse_string (mkPv (TStr x :: ts) code CAPS st bl) Q.
Proof. intros HQ. apply does_bind, does_advance. intros line col. by apply does_decode. Qed.
Lemma does_string_list limits x ts code st bl (Q : list bytes → PView → Prop) :
  Q [x] (mkPv ts code CAPS st bl) → does (parse_string_list limits) (mkPv (TStr x :: ts) code CAPS st bl) Q.
Proof.
  intros HQ. apply does_bind, does_bind, does_advance. intros line col. apply does_ret.
  apply does_bind, does_decode, does_bind, does_ret, does_ret. done.
Qed.
Lemma does_header_list limits t x ts code st bl (Q : list bytes → PView → Prop) :
  valid_header x = true → Q [x] (mkPv ts code CAPS st bl) →
  does (parse_header_list limits t) (mkPv (TStr x :: ts) code CAPS st bl) Q.
Proof. intros Hx HQ. apply does_bind, does_string_list. cbn [List.find]. rewrite Hx. by apply does_ret. Qed.

(** *** Tests *)

(** What the parser does at a word, by the word. *)
Lemma header_test_eq limits t :
  parse_simple_test limits (bs "header") t false
  = ('(mt, cmp, _) ← parse_match_tags t false;
     headers ← parse_header_list limits t;
     keys ← parse_string_list limits;
     emit_test (TestHeader headers keys mt cmp false)).
Proof. reflexivity. Qed.

Lemma does_match_tags t c x ts code caps st bl (Q : _ → PView → Prop) :
  Q (sieve_match c, AsciiCaseMap, PartAll) (mkPv (TStr x :: ts) code caps st bl) →
  does (parse_match_tags t false) (mkPv (TTag (comparator_tag c) :: TStr x :: ts) code caps st bl) Q.
Proof.
  intros HQ. apply (does_sized (λ n, tags ← match_tags n t false (mkTags None None None);
    mret (default Sieve.Is (tag_match_type tags), default AsciiCaseMap (tag_comparator tags), default PartAll (tag_part tags)))).
  apply does_bind. cbn [length match_tags v_toks]. apply does_bind, does_peek. cbn [head v_toks].
  apply does_bind, does_advance. intros line col.
  assert (match_tag t false (mkTags None None None) (comparator_tag c) = mret (mkTags (Some (sieve_match c)) None None)) as ->
    by (by destruct c).
  apply does_bind, does_ret, does_bind, does_peek. cbn [head v_toks]. by apply does_ret, does_ret.
Qed.

Section limits.
Context (limits : CompilerLimits).

Lemma does_condition budget c ts code st bl (Q : unit → PView → Prop) :
  valid_header (field_header (field c)) = true →
  Q tt (mkPv ts (code ++ cg_test false (length code) (condition_test c)) CAPS st bl) →
  does (parse_test_expr limits (S budget) false) (mkPv (condition_tokens c ++ ts) code CAPS st bl) Q.
Proof.
  intros Hv HQ. cbn [parse_test_expr condition_tokens app]. apply does_bind, does_advance. intros line col.
  change (does (parse_simple_test limits (bs "header") (mkToken (TIdentifier (bs "header")) line col) false)
    (mkPv (TTag (comparator_tag (comparator c)) :: TStr (clean (field_header (field c))) :: TStr (clean (value c)) :: ts)
      code CAPS st bl) Q).
  rewrite header_test_eq. apply does_bind, does_match_tags, does_bind, does_header_list; [by rewrite valid_header_clean|].
  apply does_bind, does_string_list, does_bind, does_emit, does_ret. exact HQ.
Qed.

Lemma does_tests fuel budget is_all c cs ts code st bl jumps (Q : list nat → PView → Prop) :
  Forall (λ c, valid_header (field_header (field c)) = true) (c :: cs) → length cs < fuel →
  Q (jumps ++ jump_positions (length code) (tests_of c cs))
    (mkPv ts (code ++ cg_tests false is_all (length code) UNPATCHED (tests_of c cs)) CAPS st bl) →
  does (test_list fuel (parse_test_expr limits (S budget) false) is_all jumps)
    (mkPv (conditions_tokens (c :: cs) ++ RParen :: ts) code CAPS st bl) Q.
Proof.
  revert c code jumps fuel. induction cs as [|c' cs IH]; intros c code jumps [|fuel] [Hc Hcs]%Forall_cons Hf HQ; simpl in Hf; try lia.
  - cbn [test_list conditions_tokens]. apply does_bind, does_condition; [done|].
    apply does_bind, does_advance. intros line col. apply does_ret. cbn [tests_of jump_positions] in HQ. by rewrite app_nil_r in HQ.
  - change (conditions_tokens (c :: c' :: cs)) with (condition_tokens c ++ Comma :: conditions_tokens (c' :: cs)).
    rewrite <-app_assoc. cbn [test_list]. apply does_bind, does_condition; [done|].
    apply does_bind, does_advance. intros line col. apply does_bind, does_emit. apply IH; [done|lia|].
    cbn [tests_of jump_positions] in HQ. rewrite cg_tests_app in HQ. rewrite <-!app_assoc.
    rewrite !length_app, length_cg_test. cbn [length sz_test condition_test] in *. rewrite <-Nat.add_assoc in *. exact HQ.
Qed.

(** *** Filling in jumps *)

(** A call that can only fail by a panic and touches only the code. *)
Definition patching (m : P unit) : Prop :=
  ∀ s, match m s with
       | inl (Rejected _) => False
       | inl Panicked => True
       | inr (_, s') => s' = set_instructions (pr_instructions s') s
       end.
Lemma patching_ret : patching (mret tt).
Proof. by intros []. Qed.
Lemma patching_patch i target : patching (patch i target).
Proof. intros s. unfold patch. destruct (pr_instructions s !! i) as [[]|]; done. Qed.
Lemma patching_bind (m m' : P unit) : patching m → patching m' → patching (_ ← m; m').
Proof.
  intros Hm Hm' s. unfold mbind, P_bind. specialize (Hm s). destruct (m s) as [[]|[u s1]]; [done|done|].
  specialize (Hm' s1). destruct (m' s1) as [[]|[u' s2]]; [done|done|]. rewrite Hm', Hm. done.
Qed.
Lemma patching_all js target : patching (patch_all js target).
Proof. induction js as [|j js IH]; [apply patching_ret|]. apply patching_bind; [apply patching_patch|done]. Qed.

Lemma does_patching m ts code code' caps st bl (Q : unit → PView → Prop) :
  patching m → (∀ s, pr_instructions s = code → wp m (λ _ s', pr_instructions s' = code') s) →
  Q tt (mkPv ts code' caps st bl) → does m (mkPv ts code caps st bl) Q.
Proof.
  intros Hp Hw HQ s [= Ht Hc Hk Hst Hb]. specialize (Hp s). specialize (Hw s Hc). unfold wp in Hw.
  destruct (m s) as [[]|[[] s']]; [done|done|]. exists tt, s'. split; [done|]. rewrite Hp. unfold view_of. simpl.
  by rewrite Ht, Hw, Hk, Hst, Hb.
Qed.

Lemma conditions_tokens_length c cs : length cs ≤ length (conditions_tokens (c :: cs)).
Proof.
  revert c. induction cs as [|c' cs IH]; intros c; [simpl; lia|].
  change (conditions_tokens (c :: c' :: cs)) with (condition_tokens c ++ Comma :: conditions_tokens (c' :: cs)).
  rewrite length_app. cbn [length]. specialize (IH c'). lia.
Qed.
Definition group_word (mt : MatchType) : bytes := match mt with All => bs "allof" | Any => bs "anyof" end.

Lemma does_group budget mt c cs ts code st bl (Q : unit → PView → Prop) :
  Forall (λ c, valid_header (field_header (field c)) = true) (c :: cs) →
  Q tt (mkPv ts (code ++ cg_test false (length code) (rule_test mt c cs)) CAPS st bl) →
  does (parse_test_expr limits (S (S budget)) false)
    (mkPv (TIdentifier (group_word mt) :: LParen :: conditions_tokens (c :: cs) ++ RParen :: ts) code CAPS st bl) Q.
Proof.
  intros Hv HQ. cbn [parse_test_expr]. apply does_bind, does_advance. intros line col.
  set (is_all := match mt with All => true | Any => false end).
  assert (∀ K K', (if bool_decide (group_word mt = bs "not") then K else
     if bool_decide (group_word mt = bs "allof") || bool_decide (group_word mt = bs "anyof") then
       (_ ← expect LParen (bs "'('");
        jumps ← (λ s, test_list (S (tokens_left s)) (parse_test_expr limits (S budget) false)
                        (xorb (bool_decide (group_word mt = bs "allof")) false) [] s);
        target ← code_len; patch_all jumps target) else K')
     = (_ ← expect LParen (bs "'('");
        jumps ← (λ s, test_list (S (tokens_left s)) (parse_test_expr limits (S budget) false) is_all [] s);
        target ← code_len; patch_all jumps target)) as Eq by (intros; by destruct mt).
  cbn [tok]. cbv zeta. rewrite Eq.
  apply does_bind, does_expect, does_bind.
  apply (does_sized (λ n, test_list n (parse_test_expr limits (S budget) false) is_all [])).
  apply does_tests; [done| |].
  { cbn [v_toks]. rewrite length_app. pose proof (conditions_tokens_length c cs). lia. }
  rewrite app_nil_l. apply does_bind, does_code_len.
  eapply does_patching; [apply patching_all| |exact HQ]. intros s Es.
  eapply wp_patch_tests; [exact Es|]. intros s' E' _. rewrite E', length_app, length_cg_tests.
  by destruct mt.
Qed.

(** *** Commands *)

(** From here the parser runs to the end, with this code. *)
Definition finishes (v : PView) (code : list Instruction) : Prop :=
  ∀ fuel, length (v_toks v) < fuel →
    does (commands limits fuel) v (λ _ v', v_code v' = code ∧ v_blocks v' = [] ∧ v_caps v' = CAPS).

Lemma finishes_end code st : finishes (mkPv [] code CAPS st []) code.
Proof. intros [|fuel] Hf; [lia|]. cbn [commands]. apply does_bind, does_advance_end, does_ret. done. Qed.
(** A command at its word. *)
Lemma finishes_command w ts code caps st bl end_ :
  (∀ t, does (command limits w t) (mkPv ts code caps st bl) (λ _ v', length (v_toks v') ≤ length ts ∧ finishes v' end_)) →
  finishes (mkPv (TIdentifier w :: ts) code caps st bl) end_.
Proof.
  intros Hc [|fuel] Hf; simpl in Hf; [lia|]. cbn [commands]. apply does_bind, does_advance. intros line col. apply does_bind.
  eapply does_mono; [apply Hc|]. intros _ v' [Hl Hv]. apply Hv. lia.
Qed.
Lemma finishes_close ts code caps st bl end_ :
  (∀ t, does (close_block limits t) (mkPv ts code caps st bl) (λ _ v', length (v_toks v') ≤ length ts ∧ finishes v' end_)) →
  finishes (mkPv (RBrace :: ts) code caps st bl) end_.
Proof.
  intros Hc [|fuel] Hf; simpl in Hf; [lia|]. cbn [commands]. apply does_bind, does_advance. intros line col. apply does_bind.
  eapply does_mono; [apply Hc|]. intros _ v' [Hl Hv]. apply Hv. lia.
Qed.

Lemma does_require_all t ts code st bl (Q : unit → PView → Prop) :
  Q tt (mkPv ts code CAPS st bl) → does (require_all t CAPS) (mkPv ts code [] st bl) Q.
Proof.
  intros HQ s [= Ht Hc Hk Hst Hb].
  assert (require_all t CAPS s = inr (tt, set_capabilities CAPS s)) as -> by (destruct s; simpl in *; by subst).
  eexists _, _. split; [done|]. unfold view_of. simpl. by rewrite Ht, Hc, Hst, Hb.
Qed.
Lemma finishes_require ts end_ :
  2 ≤ max_list_items limits →
  finishes (mkPv ts [] CAPS false []) end_ → finishes (mkPv (require_tokens ++ ts) [] [] false []) end_.
Proof.
  intros Hl Hts. apply finishes_command. intros t.
  change (command limits (bs "require") t) with
    (late ← gets (λ s, commands_started s || negb (bool_decide (length (blocks s) = 0%nat)));
     if (late : bool) then fail (err_at t (bs "require must precede all other commands"))
     else names ← parse_raw_string_list limits; _ ← require_all t names; expect Semicolon (bs "';'")).
  apply does_bind, does_gets. intros s [= _ _ _ -> ->]. cbn. apply does_bind, does_bind, does_advance. intros line col.
  apply (does_sized (λ n, list_items n (max_list_items limits) [])). cbn [v_toks length list_items].
  apply does_bind, does_advance. intros line1 col1. cbv zeta. cbn [app length]. rewrite (proj2 (Nat.ltb_ge _ _)) by lia.
  apply does_bind, does_advance. intros line2 col2. apply does_bind, does_advance. intros line3 col3. cbv zeta. cbn [app length].
  rewrite (proj2 (Nat.ltb_ge _ _)) by lia. apply does_bind, does_advance. intros line4 col4. apply does_ret.
  apply does_bind, (does_require_all t), does_expect. split; [cbn; lia|done].
Qed.

Lemma finishes_action a ts code st bl end_ :
  finishes (mkPv ts (code ++ [action_instruction a]) CAPS true bl) end_ →
  finishes (mkPv (action_tokens a ++ ts) code CAPS st bl) end_.
Proof.
  intros Hts. destruct a; apply finishes_command; intros t.
  - change (command limits (bs "fileinto") t) with
      (_ ← start_commands; _ ← need_capability (bs "fileinto") t; mailbox ← parse_string;
       _ ← expect Semicolon (bs "';'"); _ ← emit (Sieve.FileInto mailbox); mret tt).
    apply does_bind, does_start, does_bind, does_need; [apply list_elem_of_here|].
    apply does_bind, does_string, does_bind, does_expect, does_bind, does_emit, does_ret. simpl. split; [lia|done].
  - change (command limits (bs "redirect") t) with
      (_ ← start_commands; address ← parse_string;
       _ ← expect Semicolon (bs "';'"); _ ← emit (Sieve.Redirect address); mret tt).
    apply does_bind, does_start, does_bind, does_string, does_bind, does_expect, does_bind, does_emit, does_ret. simpl. split; [lia|done].
  - apply does_bind, does_start, does_bind, does_expect, does_bind, does_emit, does_ret. simpl. split; [lia|done].
  - apply does_bind, does_start, does_bind, does_expect, does_bind, does_emit, does_ret. simpl. split; [lia|done].
  - change (command limits (bs "addflag") t) with
      (_ ← start_commands; _ ← need_capability (bs "imap4flags") t; entries ← parse_string_list limits;
       _ ← expect Semicolon (bs "';'"); _ ← emit (Sieve.AddFlag (entries ≫= split_ascii_whitespace)); mret tt).
    apply does_bind, does_start, does_bind, does_need; [apply list_elem_of_further, list_elem_of_here|].
    apply does_bind, does_string_list, does_bind, does_expect, does_bind, does_emit, does_ret.
    rewrite bind_cons, app_nil_r. simpl. split; [lia|done].
  - apply does_bind, does_start, does_bind, does_expect, does_bind, does_emit, does_ret. simpl. split; [lia|done].
Qed.
Lemma finishes_actions acts ts code st bl end_ :
  (∀ st, finishes (mkPv ts (code ++ (action_instruction <$> acts)) CAPS st bl) end_) →
  finishes (mkPv ((acts ≫= action_tokens) ++ ts) code CAPS st bl) end_.
Proof.
  revert code st. induction acts as [|a acts IH]; intros code st Hts.
  - rewrite <-(app_nil_r code). apply Hts.
  - rewrite bind_cons, <-app_assoc. apply finishes_action, IH. intros st'. rewrite <-app_assoc. apply Hts.
Qed.

(** A rule with conditions is one branch. *)
Definition rule_branch (r : Rule) (c : Condition) (cs : list Condition) : scmd :=
  SIf BNil (Some (rule_test (match_type r) c cs)) (action_cmds (actions r) CNil).
Definition starts_branch (ts : list Tok) : Prop :=
  head ts = Some (TIdentifier (bs "elsif")) ∨ head ts = Some (TIdentifier (bs "else")).

Lemma does_close_rule t r c cs ts code st (Q : unit → PView → Prop) :
  ¬ starts_branch ts →
  Q tt (mkPv ts (code ++ cg_cmd (length code) (rule_branch r c cs)) CAPS st []) →
  does (close_block limits t)
    (mkPv ts (code ++ cg_chain (length code) UNPATCHED BNil (Some (rule_test (match_type r) c cs)) (action_cmds (actions r) CNil))
       CAPS st [block_of (length code) BNil (Some (rule_test (match_type r) c cs))]) Q.
Proof.
  intros Hts HQ. apply does_bind, does_pop, does_bind, does_peek. cbv zeta.
  assert (match head ts with
    | Some (TIdentifier w) => if bool_decide (w = bs "elsif") then Some true else if bool_decide (w = bs "else") then Some false else None
    | _ => None end = None) as E.
  { unfold starts_branch in Hts. destruct (head ts) as [[]|]; try done. repeat case_bool_decide; naive_solver. }
  cbn [v_toks]. rewrite E. apply does_bind, does_code_len. eapply does_patching; [| |exact HQ].
  - apply patching_bind; [|apply patching_all]. cbn [jz_at block_of fmap option_fmap option_map]. apply patching_patch.
  - intros s Es. rewrite <-Es.
    apply (wp_finish_chain (code) BNil (Some (rule_test (match_type r) c cs)) (action_cmds (actions r) CNil)); auto.
Qed.

Lemma if_command_eq t :
  command limits (bs "if") t
  = (_ ← start_commands;
     depth ← gets (λ s, length (blocks s));
     if (max_nested_blocks limits <=? depth)%nat then fail (err_at t (bs "blocks are nested too deeply"))
     else
       _ ← parse_test limits;
       at_ ← emit (Jz UNPATCHED);
       _ ← push_block (mkBlock (Some at_) []);
       expect LBrace (bs "'{'")).
Proof. reflexivity. Qed.

Lemma finishes_branch r c cs ts code st end_ :
  1 ≤ max_nested_blocks limits → 2 ≤ max_nested_tests limits →
  conditions r = c :: cs → Forall (λ c, valid_header (field_header (field c)) = true) (c :: cs) → ¬ starts_branch ts →
  (∀ st, finishes (mkPv ts (code ++ cg_cmd (length code) (rule_branch r c cs)) CAPS st []) end_) →
  finishes (mkPv (rule_tokens r ++ ts) code CAPS st []) end_.
Proof.
  intros Hb Ht Hr Hv Hts Hrest. unfold rule_tokens. rewrite Hr, <-!app_assoc. apply finishes_command. intros t.
  rewrite if_command_eq. apply does_bind, does_start, does_bind, does_gets. intros s [= _ _ _ _ ->].
  rewrite (proj2 (Nat.leb_gt _ _)) by (simpl; lia). apply does_bind. unfold parse_test.
  destruct (max_nested_tests limits) as [|[|budget]]; [lia|lia|].
  cbn [app]. apply (does_group budget (match_type r)); [done|].
  apply does_bind, does_emit, does_bind, does_push, does_expect. split.
  { cbn [v_toks length]. rewrite !length_app. cbn [length]. rewrite !length_app. cbn. lia. }
  apply finishes_actions. intros st'. apply finishes_close. intros t'.
  eapply does_mono; [|intros u v' Hv'; exact Hv'].
  pose proof (does_close_rule t' r c cs ts code st' (λ _ v', length (v_toks v') ≤ length ts ∧ finishes v' end_) Hts) as Hc.
  unfold cg_chain, block_of in Hc. cbn [cg_branches chain_positions cg_guard sz_branches fmap option_fmap option_map app] in Hc.
  rewrite Nat.add_0_r, cg_action_cmds in Hc. cbn [cg_cmds] in Hc. rewrite app_nil_r in Hc.
  rewrite length_app, length_cg_test, <-!app_assoc. rewrite <-!app_assoc in Hc. apply Hc. split; [done|apply Hrest].
Qed.

(** *** The whole script *)

Lemma rules_start_no_branch rs : ¬ starts_branch (rs ≫= rule_tokens).
Proof.
  induction rs as [|r rs IH]; [by intros [|]|]. rewrite bind_cons. unfold rule_tokens.
  destruct (conditions r); [|by intros [|]]. destruct (actions r) as [|a acts]; [done|]. by destruct a; intros [|].
Qed.

Lemma finishes_rules rs code st :
  1 ≤ max_nested_blocks limits → 2 ≤ max_nested_tests limits → forallb (rule_ok limits) rs = true →
  finishes (mkPv (rs ≫= rule_tokens) code CAPS st []) (code ++ cg_cmds (length code) (rules_cmds rs)).
Proof.
  intros Hb Ht. revert code st. induction rs as [|r rs IH]; intros code st Hok.
  { cbn [rules_cmds foldr cg_cmds]. rewrite app_nil_r. apply finishes_end. }
  apply andb_true_iff in Hok as [Hr Hrs]. rewrite bind_cons. cbn [rules_cmds foldr]. fold (rules_cmds rs). unfold rule_cmds.
  destruct (conditions r) as [|c cs] eqn:Ec.
  - unfold rule_tokens. rewrite Ec. apply finishes_actions. intros st'. rewrite cg_action_cmds, app_assoc.
    specialize (IH (code ++ (action_instruction <$> actions r)) st' Hrs). by rewrite length_app, length_fmap in IH.
  - eapply finishes_branch; [done|done|exact Ec| |apply rules_start_no_branch|].
    + apply andb_true_iff in Hr as [Hr _]. rewrite Ec in Hr. apply Forall_forall. intros x Hx.
      rewrite forallb_forall in Hr. specialize (Hr x ltac:(by apply list_elem_of_In)). unfold condition_ok in Hr.
      by apply andb_true_iff in Hr as [[_ ?]%andb_true_iff _].
    + intros st'. cbn [cg_cmds]. rewrite app_assoc.
      specialize (IH (code ++ cg_cmd (length code) (rule_branch r c cs)) st' Hrs). rewrite length_app, length_cg_cmd in IH. exact IH.
Qed.
End limits.

Lemma compile_tokens_rules limits rs toks :
  1 ≤ max_nested_blocks limits → 2 ≤ max_nested_tests limits → 2 ≤ max_list_items limits →
  forallb (rule_ok limits) (enabled_rules rs) = true → tok <$> toks = script_tokens rs →
  compile_tokens limits toks = inr (mkProgram (cg_cmds 0 (rules_cmds (enabled_rules rs))) CAPS).
Proof.
  intros Hb Ht Hl Hok Htoks. unfold compile_tokens.
  assert (finishes limits (mkPv (script_tokens rs) [] [] false []) (cg_cmds 0 (rules_cmds (enabled_rules rs)))) as Hf.
  { apply finishes_require; [done|]. by apply (finishes_rules limits _ []). }
  destruct (Hf (S (length toks))) with (s := mkParser toks 0 [] [] false []) as (u & s' & -> & Hc & Hbl & Hk).
  - cbn [v_toks]. rewrite <-Htoks, length_fmap. lia.
  - unfold view_of. simpl. by rewrite drop_0, Htoks.
  - simpl in *. rewrite Hbl, Hc, Hk. done.
Qed.

(** ** The theorem *)

(** C15. Filter rules do what they say.  A rule set whose values are texts the
    compiler takes, and whose script is not too large, is compiled, and the
    compiled script run on a message does exactly what the rules say: the
    enabled rules are tried in order; a rule applies when it has no condition
    or all (any) of its conditions hold of the message's headers; the actions
    of the rules that apply are carried out in order, up to a stop.  Whatever
    the values contain, none of them adds a statement or changes one. *)
Theorem filter_rules_correct rs :
  forallb (rule_ok default_compiler_limits) (enabled_rules rs) = true →
  length (emit_script rs) ≤ max_script_size default_compiler_limits →
  ∃ compiled, compile_rules rs = Ok compiled ∧ cs_source compiled = emit_script rs ∧
    ∀ `{MailParser} l raw e, length (instructions (cs_script compiled)) ≤ cpu l →
      execute (cs_script compiled) raw e l = rules_outcome rs raw l.
Proof.
  intros Hok Hsize.
  destruct (lex_script default_compiler_limits ltac:(cbn; lia) rs Hok) as (toks & Hlex & Htoks).
  pose proof (compile_tokens_rules default_compiler_limits rs toks ltac:(cbn; lia) ltac:(cbn; lia) ltac:(cbn; lia) Hok Htoks) as Hc.
  set (cs := rules_cmds (enabled_rules rs)) in Hc.
  exists (mkCompiled (emit_script rs) (mkScript (cg_cmds 0 cs) CAPS)). split_and!; [|done|].
  { unfold compile_rules, compile_source, compile. rewrite (proj2 (Nat.ltb_ge _ _)) by exact Hsize. by rewrite Hlex, Hc. }
  intros HM l raw e. cbn [cs_script instructions]. rewrite length_cg_cmds. intros Hcpu.
  unfold execute, rules_outcome. cbn [instructions]. apply outcome_of_proper.
  rewrite (run_cmds_correct l _ _ _ cs); [|apply wf_rules_cmds|done]. unfold cs. rewrite sem_rules_cmds; [done|].
  apply Forall_forall. intros r Hr. apply Forall_forall. intros c Hin.
  rewrite forallb_forall in Hok. specialize (Hok r ltac:(by apply list_elem_of_In)). apply andb_true_iff in Hok as [Hcs _].
  rewrite forallb_forall in Hcs. specialize (Hcs c ltac:(by apply list_elem_of_In)). unfold condition_ok in Hcs.
  by apply andb_true_iff in Hcs as [[_ ?]%andb_true_iff _].
Qed.

(** A value that looks like the end of its string and another statement. *)
Definition sly_rules : RuleSet :=
  mkRuleSet
    [mkRule (bs "sly") true Any
       [mkCondition Subject Contains ([34; 41; 32; 123; 13; 10] ++ bs "discard;" ++ [92])%Z;
        mkCondition (Header (bs "List-Id")) Matches (bs "*deals*")]
       [FileInto (bs "Deals" ++ [34%Z] ++ bs "; discard"); Stop];
     mkRule (bs "off") false All [] [Discard];
     mkRule (bs "rest") true All [] [AddFlag (bs "\Flagged")]].

Lemma filter_rules_correct_witness :
  length (emit_script sly_rules) = 199 ∧
  ∃ compiled, compile_rules sly_rules = Ok compiled ∧ cs_source compiled = emit_script sly_rules ∧
    ∀ `{MailParser} l raw e, length (instructions (cs_script compiled)) ≤ cpu l →
      execute (cs_script compiled) raw e l = rules_outcome sly_rules raw l.
Proof.
  split; [by vm_compute|]. apply filter_rules_correct; [by vm_compute|].
  apply Nat.leb_le. by vm_compute.
Defined.
