(* ===== verification/SieveRegistry.v ===== *)
(** * The registry of Sieve scripts (crates/directory/src/sieve_registry.rs)

    The scripts of an account are one row of the store: a JSON array with an
    object for each script.  Rows written before scripts could be activated
    have no [active] member; their first script is the active one. *)

From S2P Require Import Prelude Bytes Key Store Text Fts Sieve SieveLexer SieveGrammar Directory FilterRules.
From stdpp Require Import base gmap list strings.
From Stdlib Require Import ZArith Lia.

Open Scope Z_scope.

(** How the code builds values and writes arrays of them.  The values are
    those without floating-point numbers, which serde_json need not read back
    to the last digit. *)
Class JsonWriter `{JsonValue} : Type := {
  value_of_str : bytes → Value;
  value_of_bool : bool → Value;
  value_of_object : list (bytes * Value) → Value;
  json_values :: Json (list Value);
}.
Class JsonWriterLaws `{JsonWriter} : Prop := {
  as_str_str b : value_as_str (value_of_str b) = Some b;
  as_bool_bool b : value_as_bool (value_of_bool b) = Some b;
  get_object kvs k : NoDup kvs.*1 → value_get k (value_of_object kvs) = snd <$> List.find (λ kv, bool_decide (kv.1 = k)) kvs;
  json_values_laws :: JsonLaws (list Value);
}.

Definition TAG_SIEVE_SCRIPT : Z := 40.
Definition record_key (account_id : Z) : bytes := [subspace_as_byte Registry; TAG_SIEVE_SCRIPT] ++ u64_be account_id.

Section registry.
Context {S : Type} `{Store S} `{JsonValue} `{!JsonWriter}.
Implicit Types (s : S).

(** [list]: what an entry is read as. *)
Definition entry_text (name : string) (entry : Value) : bytes := default [] (v ← value_get (bs name) entry; value_as_str v).
Definition entry_script (legacy : bool) (index : nat) (entry : Value) : StoredScript :=
  mkStored (entry_text "id" entry) (entry_text "name" entry) (entry_text "source" entry)
    (value_get (bs "rules") entry)
    (default (legacy && (index =? 0)%nat) (v ← value_get (bs "active") entry; value_as_bool v)).
Definition entries_scripts (entries : list Value) : list StoredScript :=
  let legacy := forallb (λ entry, bool_decide (value_get (bs "active") entry = None)) entries in
  imap (entry_script legacy) entries.
Definition scripts_of (row : option bytes) : result (list StoredScript) :=
  match row with
  | Some b => entries ← decode_row "sieve scripts" b; Ok (entries_scripts entries)
  | None => Ok []
  end.
Definition sieve_list (account_id : Z) s : result (list StoredScript) :=
  row ← st_get (record_key account_id) s; scripts_of row.

Definition named (name : bytes) (x : StoredScript) : bool := bool_decide (ss_name x = name).
Definition get_by_name (account_id : Z) (name : bytes) s : result (option StoredScript) :=
  scripts ← sieve_list account_id s; Ok (List.find (named name) scripts).
Definition active_script (account_id : Z) s : result (option StoredScript) :=
  scripts ← sieve_list account_id s; Ok (List.find ss_active scripts).

(** [encode_script] and [write]. *)
Definition encode_script (x : StoredScript) : Value :=
  value_of_object
    ([(bs "id", value_of_str (ss_id x)); (bs "name", value_of_str (ss_name x));
      (bs "source", value_of_str (ss_source x)); (bs "active", value_of_bool (ss_active x))]
     ++ match ss_rules x with Some r => [(bs "rules", r)] | None => [] end).
Definition sieve_write (account_id : Z) (scripts : list StoredScript) : M S unit :=
  let key := record_key account_id in
  match scripts with
  | [] => st_batch [WDelete key]
  | _ => value ← lift (encode_row "sieve scripts" (encode_script <$> scripts)); st_batch [WSet key value]
  end.

(** [create]; [id] is the id generated. *)
Definition already_exists (name : bytes) : Error :=
  InvalidInput (text (bs "a script named " ++ [34] ++ name ++ [34] ++ bs " already exists")).
Definition sieve_create (account_id id : Z) (name source : bytes) (rules : option Value) : M S StoredScript :=
  scripts ← reads (sieve_list account_id);
  if existsb (named name) scripts then throw (already_exists name)
  else
    let script := mkStored (fmt_dec id) name source rules (bool_decide (scripts = [])) in
    _ ← sieve_write account_id (scripts ++ [script]);
    mret script.

(** [update]: the first script of that id. *)
Fixpoint edit_first (id : bytes) (f : StoredScript → StoredScript) (l : list StoredScript) : option (list StoredScript) :=
  match l with
  | [] => None
  | x :: l => if bool_decide (ss_id x = id) then Some (f x :: l) else cons x <$> edit_first id f l
  end.
Definition edit (name source : option bytes) (rules : option (option Value)) (x : StoredScript) : StoredScript :=
  mkStored (ss_id x) (default (ss_name x) name) (default (ss_source x) source) (default (ss_rules x) rules) (ss_active x).
Definition name_taken (id : bytes) (name : option bytes) (scripts : list StoredScript) : bool :=
  match name with
  | Some n => existsb (λ x, named n x && negb (bool_decide (ss_id x = id))) scripts
  | None => false
  end.
Definition sieve_update (account_id : Z) (id : bytes) (name source : option bytes) (rules : option (option Value)) : M S bool :=
  scripts ← reads (sieve_list account_id);
  if name_taken id name scripts then throw (already_exists (default [] name))
  else
    match edit_first id (edit name source rules) scripts with
    | None => mret false
    | Some scripts => _ ← sieve_write account_id scripts; mret true
    end.

Definition activate (id : option bytes) (x : StoredScript) : StoredScript :=
  mkStored (ss_id x) (ss_name x) (ss_source x) (ss_rules x) (bool_decide (Some (ss_id x) = id)).
Definition has_id (id : bytes) (x : StoredScript) : bool := bool_decide (ss_id x = id).
Definition sieve_set_active (account_id : Z) (id : option bytes) : M S bool :=
  scripts ← reads (sieve_list account_id);
  if match id with Some id => negb (existsb (has_id id) scripts) | None => false end then mret false
  else _ ← sieve_write account_id (activate id <$> scripts); mret true.

Definition sieve_destroy (account_id : Z) (id : bytes) : M S bool :=
  scripts ← reads (sieve_list account_id);
  let left := filter (λ x, has_id id x = false) scripts in
  if (length left =? length scripts)%nat then mret false
  else _ ← sieve_write account_id left; mret true.

(** What the delivery of a message runs for an account (smtp/src/session.rs,
    queue_local.rs): scripts that cannot be read are none. *)
Definition delivery_script (account_id : Z) s : option CompiledScript :=
  compile_active_script (default [] (result_ok (sieve_list account_id s))).
End registry.

(** ** Writing and reading back *)

Section laws.
Context `{JsonValue} `{!JsonWriter} `{!JsonWriterLaws}.

Lemma entry_names_distinct (x : StoredScript) (r : list (bytes * Value)) :
  r = match ss_rules x with Some v => [(bs "rules", v)] | None => [] end →
  NoDup (([(bs "id", value_of_str (ss_id x)); (bs "name", value_of_str (ss_name x));
    (bs "source", value_of_str (ss_source x)); (bs "active", value_of_bool (ss_active x))] ++ r).*1).
Proof. intros ->. apply (bool_decide_unpack _). by destruct (ss_rules x); vm_compute. Qed.

(** A member of an encoded script. *)
Lemma get_encoded (x : StoredScript) name :
  value_get name (encode_script x)
  = if bool_decide (name = bs "id") then Some (value_of_str (ss_id x))
    else if bool_decide (name = bs "name") then Some (value_of_str (ss_name x))
    else if bool_decide (name = bs "source") then Some (value_of_str (ss_source x))
    else if bool_decide (name = bs "active") then Some (value_of_bool (ss_active x))
    else if bool_decide (name = bs "rules") then ss_rules x else None.
Proof.
  unfold encode_script. rewrite get_object by (by eapply entry_names_distinct). cbn [List.find app fst].
  repeat (case_bool_decide; subst; [case_bool_decide; done|rewrite bool_decide_false by done]).
  destruct (ss_rules x); cbn; repeat case_bool_decide; subst; done.
Qed.
Lemma entry_script_encoded legacy i x : entry_script legacy i (encode_script x) = x.
Proof.
  unfold entry_script, entry_text.
  rewrite (get_encoded x (bs "id")), (get_encoded x (bs "name")), (get_encoded x (bs "source")), (get_encoded x (bs "active")),
    (get_encoded x (bs "rules")).
  change (mkStored (default [] (value_as_str (value_of_str (ss_id x)))) (default [] (value_as_str (value_of_str (ss_name x))))
    (default [] (value_as_str (value_of_str (ss_source x)))) (ss_rules x)
    (default (legacy && (i =? 0)%nat) (value_as_bool (value_of_bool (ss_active x)))) = x).
  rewrite !as_str_str, as_bool_bool. by destruct x.
Qed.
Lemma entries_scripts_encoded l : entries_scripts (encode_script <$> l) = l.
Proof.
  unfold entries_scripts. set (legacy := forallb _ _). clearbody legacy. rewrite imap_fmap.
  rewrite <-(list_fmap_id l) at 2. rewrite <-(imap_const id l). apply imap_ext. intros i x _. apply entry_script_encoded.
Qed.
End laws.

(** The keys that hold scripts. *)
Definition is_script_key (k : bytes) : Prop := ∃ a, k = record_key a.
Lemma known_record_key a : known (record_key a).
Proof. by eexists. Qed.

Section effect.
Context {S : Type} {store : Store S} {contract : StoreSpec S} `{JsonValue} `{!JsonWriter} `{!JsonWriterLaws}.
Implicit Types (s : S) (l : list StoredScript).

(** The scripts a store holds for an account. *)
Definition scripts_at (a : Z) s : result (list StoredScript) := scripts_of (view s !! record_key a).
(** Nothing but the scripts of the account differs. *)
Definition only_scripts_of (a : Z) s s' : Prop := ∀ k, k ≠ record_key a → view s' !! k = view s !! k.

Lemma list_at a s : healthy s → sieve_list a s = scripts_at a s.
Proof. intros Hs. unfold sieve_list. by rewrite get_spec by (try done; apply known_record_key). Qed.
Lemma write_at a l s :
  healthy s → ∃ s', sieve_write a l s = (Ok tt, s') ∧ healthy s' ∧ scripts_at a s' = Ok l ∧ only_scripts_of a s s'.
Proof.
  intros Hs. unfold sieve_write, scripts_at, only_scripts_of. destruct l as [|x l].
  - destruct (batch_spec [WDelete (record_key a)] s (base.delete (record_key a) (view s)) Hs) as (s' & E & Hs' & Hv).
    { apply Forall_singleton. split; [apply known_record_key|done]. } { done. }
    exists s'. split_and!; [done|done|by rewrite Hv, lookup_delete_eq|]. intros k Hk. by rewrite Hv, lookup_delete_ne by congruence.
  - destruct (json_roundtrip (encode_script <$> x :: l)) as (b & Eb & Hb). unfold encode_row. rewrite Eb.
    destruct (batch_spec [WSet (record_key a) b] s (<[record_key a := b]> (view s)) Hs) as (s' & E & Hs' & Hv).
    { apply Forall_singleton. split; [apply known_record_key|done]. } { done. }
    exists s'. split_and!; [done|done| |].
    + rewrite Hv, lookup_insert_eq. unfold scripts_of, decode_row. rewrite Hb.
      change (Ok (entries_scripts (encode_script <$> x :: l)) = Ok (x :: l)). by rewrite entries_scripts_encoded.
    + intros k Hk. by rewrite Hv, lookup_insert_ne by congruence.
Qed.

(** The call succeeds with [v] and leaves the scripts [l] of the account,
    and nothing else of the store changes. *)
Definition leaves {A} (a : Z) (v : A) (l : list StoredScript) (m : M S A) s : Prop :=
  ∃ s', m s = (Ok v, s') ∧ healthy s' ∧ scripts_at a s' = Ok l ∧ only_scripts_of a s s'.
Lemma leaves_write {A} a l (k : unit → M S A) v s :
  healthy s → (∀ s', k tt s' = (Ok v, s')) → leaves a v l (u ← sieve_write a l; k u) s.
Proof.
  intros Hs Hk. destruct (write_at a l s Hs) as (s' & E & Hs' & Hl & Ho). exists s'. split_and!; try done.
  unfold mbind, M_bind. by rewrite E, Hk.
Qed.

Context (a : Z) (s : S) (Hs : healthy s) (l : list StoredScript) (Hl : scripts_at a s = Ok l).
Lemma reads_list {A} (k : list StoredScript → M S A) : (x ← reads (sieve_list a); k x) s = k l s.
Proof. unfold mbind, M_bind, reads. by rewrite list_at, Hl. Qed.

Lemma create_at id name source rules :
  existsb (named name) l = false →
  let x := mkStored (fmt_dec id) name source rules (bool_decide (l = [])) in
  leaves a x (l ++ [x]) (sieve_create a id name source rules) s.
Proof.
  intros Hn x. unfold leaves, sieve_create. rewrite reads_list, Hn. by apply (leaves_write a (l ++ [x]) (λ _, mret x)).
Qed.
Lemma update_at id name source rules l' :
  name_taken id name l = false → edit_first id (edit name source rules) l = Some l' →
  leaves a true l' (sieve_update a id name source rules) s.
Proof.
  intros Hn He. unfold leaves, sieve_update. rewrite reads_list, Hn, He. by apply (leaves_write a l' (λ _, mret true)).
Qed.
Lemma set_active_at id :
  match id with Some i => existsb (has_id i) l = true | None => True end →
  leaves a true (activate id <$> l) (sieve_set_active a id) s.
Proof.
  intros Hi. unfold leaves, sieve_set_active. rewrite reads_list.
  assert (match id with Some i => negb (existsb (has_id i) l) | None => false end = false) as -> by (destruct id; [by rewrite Hi|done]).
  by apply (leaves_write a (activate id <$> l) (λ _, mret true)).
Qed.
Lemma destroy_at id l' :
  filter (λ x, has_id id x = false) l = l' → length l' ≠ length l →
  leaves a true l' (sieve_destroy a id) s.
Proof.
  intros Hf Hlen. unfold leaves, sieve_destroy. rewrite reads_list, Hf.
  rewrite (proj2 (Nat.eqb_neq _ _)) by done. by apply (leaves_write a l' (λ _, mret true)).
Qed.
End effect.

(** ** One script among the others *)

Section lists.
Context `{JsonValue}.
Implicit Types (l : list StoredScript).

Lemma find_named n l x : List.find (named n) l = Some x → ∃ l1 l2, l = l1 ++ x :: l2 ∧ ss_name x = n.
Proof.
  intros [Hin Hn]%find_some. apply list_elem_of_In, list_elem_of_split in Hin as (l1 & l2 & ->).
  exists l1, l2. split; [done|]. by apply bool_decide_eq_true in Hn.
Qed.
Lemma find_named_none n l : List.find (named n) l = None → existsb (named n) l = false ∧ n ∉ ss_name <$> l.
Proof.
  intros Hf. split.
  - apply not_true_iff_false. intros (x & Hx & Hn)%existsb_exists. eapply find_none in Hf; [|done]. congruence.
  - intros (x & -> & Hx)%list_elem_of_fmap. eapply find_none in Hf; [|by apply list_elem_of_In].
    unfold named in Hf. by rewrite bool_decide_true in Hf.
Qed.
Lemma edit_first_middle f l1 x l2 :
  ss_id x ∉ ss_id <$> l1 → edit_first (ss_id x) f (l1 ++ x :: l2) = Some (l1 ++ f x :: l2).
Proof.
  induction l1 as [|y l1 IH]; intros Hx; cbn [app edit_first]; [by rewrite bool_decide_true|].
  apply not_elem_of_cons in Hx as [Hy Hx]. rewrite bool_decide_false by congruence. by rewrite IH.
Qed.
Lemma filter_middle l1 x l2 :
  ss_id x ∉ ss_id <$> (l1 ++ l2) → filter (λ y, has_id (ss_id x) y = false) (l1 ++ x :: l2) = l1 ++ l2.
Proof.
  intros Hx. unfold has_id. rewrite filter_app, filter_cons_False by (by rewrite bool_decide_true). rewrite <-filter_app.
  apply filter_all, Forall_forall. intros y Hy. apply bool_decide_eq_false. intros E. apply Hx. rewrite <-E.
  by apply list_elem_of_fmap_2.
Qed.
(** Distinct ids: what stands at the id is the script. *)
Lemma NoDup_ids_middle l1 x l2 :
  NoDup (ss_id <$> (l1 ++ x :: l2)) → ss_id x ∉ ss_id <$> l1 ∧ ss_id x ∉ ss_id <$> (l1 ++ l2).
Proof.
  rewrite fmap_app, fmap_cons, NoDup_app, NoDup_cons. intros (_ & Hd & Hx & _).
  assert (ss_id x ∉ ss_id <$> l1) as H1 by (intros Hin; by destruct (Hd _ Hin (list_elem_of_here _ _))).
  split; [done|]. rewrite fmap_app, elem_of_app. by intros [|].
Qed.
End lists.

(** ** The scripts of an account, abstractly

    What a client may do to the scripts of its account (RFC 5804): put a
    script that compiles, rename one, choose the active one or none, delete
    one that is not active.  The changes are a relation; then the order they
    keep among the scripts, and the agreement of the text a client is shown
    with the one delivery runs. *)

Local Open Scope nat_scope.

Section scripts.
Context `{JsonValue}.
Implicit Types (l : list StoredScript) (x : StoredScript).

Definition compiles (content : bytes) : Prop := ∃ script, compile default_compiler_limits content = inr script.
(** A script with its text replaced: its rules are forgotten, unless the text
    is the one it already had. *)
Definition rewritten (content : bytes) x : StoredScript :=
  mkStored (ss_id x) (ss_name x) content
    (if bool_decide (is_Some (ss_rules x)) && bool_decide (script_source x = content) then ss_rules x else None) (ss_active x).
Definition renamed (name : bytes) x : StoredScript := mkStored (ss_id x) name (ss_source x) (ss_rules x) (ss_active x).
Definition chosen (b : bool) x : StoredScript := mkStored (ss_id x) (ss_name x) (ss_source x) (ss_rules x) b.

Inductive script_change (max : nat) : list StoredScript → list StoredScript → Prop :=
  | change_new l id name content :
      name ≠ [] → compiles content → name ∉ ss_name <$> l → id ∉ ss_id <$> l → length l < max →
      script_change max l (l ++ [mkStored id name content None (bool_decide (l = []))])
  | change_put l1 x l2 content :
      compiles content → script_change max (l1 ++ x :: l2) (l1 ++ rewritten content x :: l2)
  | change_rename l1 x l2 name :
      name ∉ ss_name <$> (l1 ++ x :: l2) → script_change max (l1 ++ x :: l2) (l1 ++ renamed name x :: l2)
  | change_activate l1 x l2 :
      script_change max (l1 ++ x :: l2) ((chosen false <$> l1) ++ chosen true x :: (chosen false <$> l2))
  | change_deactivate l : script_change max l (chosen false <$> l)
  | change_delete l1 x l2 :
      ss_active x = false → script_change max (l1 ++ x :: l2) (l1 ++ l2).

(** ** Order *)

(** The rules of a script, if it has them, are the source it shows. *)
Definition coherent x : Prop :=
  ∀ r, ss_rules x = Some r → ss_source x = [] ∨ ss_source x = emit_script (stored_rule_set r).
Definition actives l : list StoredScript := filter (λ x, ss_active x = true) l.
(** Ids and names tell the scripts apart, at most one is active. *)
Record orderly l : Prop := {
  ord_ids : NoDup (ss_id <$> l);
  ord_names : NoDup (ss_name <$> l);
  ord_active : length (actives l) ≤ 1;
  ord_coherent : Forall coherent l;
}.

Lemma coherent_source x r : coherent x → ss_rules x = Some r → script_source x = emit_script (stored_rule_set r).
Proof.
  intros Hc Hr. unfold script_source. rewrite Hr. destruct (Hc r Hr) as [->|E]; [by rewrite bool_decide_true|].
  by case_bool_decide; simpl.
Qed.
Lemma coherent_rewritten content x : coherent x → coherent (rewritten content x).
Proof.
  intros Hc r. cbn [rewritten ss_rules ss_source]. destruct (bool_decide _ && _) eqn:E; [|done].
  apply andb_true_iff in E as [_ E%bool_decide_eq_true]. intros Hr. right. rewrite <-E. by apply coherent_source.
Qed.

(** The scripts with one of them replaced by one of the same id. *)
Lemma fmap_middle {A} (f : StoredScript → A) l1 x y l2 : f x = f y → f <$> (l1 ++ x :: l2) = f <$> (l1 ++ y :: l2).
Proof. intros E. by rewrite !fmap_app, !fmap_cons, E. Qed.
Lemma actives_middle l1 x y l2 : ss_active x = ss_active y → length (actives (l1 ++ x :: l2)) = length (actives (l1 ++ y :: l2)).
Proof.
  intros E. unfold actives. rewrite !filter_app, !filter_cons. rewrite !length_app. f_equal.
  destruct (decide (ss_active x = true)), (decide (ss_active y = true)); simpl; congruence.
Qed.
Lemma actives_chosen l : actives (chosen false <$> l) = [].
Proof. apply filter_none, Forall_fmap, Forall_forall. done. Qed.
Lemma coherent_middle (P : StoredScript → Prop) l1 x y l2 :
  (P x → P y) → Forall P (l1 ++ x :: l2) → Forall P (l1 ++ y :: l2).
Proof. intros Hxy. rewrite !Forall_app, !Forall_cons. naive_solver. Qed.
Lemma fmap_chosen {A} (f : StoredScript → A) b l : (∀ x, f (chosen b x) = f x) → f <$> (chosen b <$> l) = f <$> l.
Proof. intros Hf. rewrite <-list_fmap_compose. apply list_fmap_ext. intros i x _. apply Hf. Qed.

Lemma change_orderly max l l' : script_change max l l' → orderly l → orderly l'.
Proof.
  intros [l0 id name content Hn Hc Hnew Hid Hlen|l1 x l2 content Hc|l1 x l2 name Hnew|l1 x l2|l0|l1 x l2 Hx] [Hi Hna Ha Hco].
  - split.
    + rewrite fmap_app. apply NoDup_app. split_and!; [done|set_solver|apply NoDup_singleton].
    + rewrite fmap_app. apply NoDup_app. split_and!; [done|set_solver|apply NoDup_singleton].
    + case_bool_decide; [subst; simpl; lia|]. unfold actives. rewrite filter_app, filter_cons_False by done.
      rewrite app_nil_r. exact Ha.
    + apply Forall_app. split; [done|]. by apply Forall_singleton.
  - split; [by rewrite (fmap_middle _ _ _ x)|by rewrite (fmap_middle _ _ _ x)|by rewrite (actives_middle _ _ x)|].
    eapply coherent_middle, Hco. apply coherent_rewritten.
  - split; [by rewrite (fmap_middle _ _ _ x)| |by rewrite (actives_middle _ _ x)|by eapply coherent_middle, Hco].
    rewrite fmap_app, fmap_cons, NoDup_app, NoDup_cons in Hna |- *. rewrite fmap_app, fmap_cons in Hnew. cbn [renamed ss_name].
    set_solver.
  - split.
    + rewrite fmap_app, fmap_cons, !fmap_chosen by done. by rewrite fmap_app, fmap_cons in Hi.
    + rewrite fmap_app, fmap_cons, !fmap_chosen by done. by rewrite fmap_app, fmap_cons in Hna.
    + unfold actives. rewrite filter_app, filter_cons_True by done. pose proof (actives_chosen l1) as E1. pose proof (actives_chosen l2) as E2.
      unfold actives in E1, E2. rewrite E1, E2. simpl. lia.
    + apply Forall_app in Hco as [H1 [Hx H2]%Forall_cons]. apply Forall_app. split; [by apply Forall_fmap|]. constructor; [exact Hx|by apply Forall_fmap].
  - split; [by rewrite fmap_chosen|by rewrite fmap_chosen|rewrite actives_chosen; simpl; lia|by apply Forall_fmap].
  - split.
    + rewrite fmap_app, fmap_cons in Hi. rewrite fmap_app. rewrite NoDup_app, NoDup_cons in Hi. rewrite NoDup_app. set_solver.
    + rewrite fmap_app, fmap_cons in Hna. rewrite fmap_app. rewrite NoDup_app, NoDup_cons in Hna. rewrite NoDup_app. set_solver.
    + unfold actives in *. rewrite filter_app, filter_cons_False in Ha by congruence. by rewrite filter_app.
    + apply Forall_app in Hco as [H1 [_ H2]%Forall_cons]. by apply Forall_app.
Qed.
Lemma change_length max l l' : script_change max l l' → length l ≤ max → length l' ≤ max.
Proof. intros []; rewrite ?length_app, ?length_fmap in *; simpl in *; rewrite ?length_fmap; lia. Qed.

(** ** What delivery runs *)

(** Delivery runs the text that is shown, if it runs one. *)
Lemma delivered_source x c :
  coherent x → compile_stored_script x = Some c → cs_source c = script_source x ∧ compile default_compiler_limits (script_source x) = inr (cs_script c).
Proof.
  intros Hc. unfold compile_stored_script.
  assert (∀ source, result_ok (compile_source source) = Some c → cs_source c = source ∧ compile default_compiler_limits source = inr (cs_script c)) as Hs.
  { intros source. unfold compile_source. destruct (compile _ source) as [[]|script]; [done|done|]. by intros [= <-]. }
  destruct (ss_rules x) as [r|] eqn:Er.
  - cbv zeta. case_bool_decide; [done|]. intros E%Hs. by rewrite (coherent_source x r).
  - case_bool_decide as Ht; [done|]. intros E%Hs. unfold script_source. rewrite bool_decide_false by (intros E0; by rewrite E0 in Ht). done.
Qed.
End scripts.

(** ** Looking a script up *)

Section lookup.
Context `{JsonValue}.
Implicit Types (l : list StoredScript) (x : StoredScript).

Lemma find_named_in l x : NoDup (ss_name <$> l) → x ∈ l → List.find (named (ss_name x)) l = Some x.
Proof.
  intros Hn Hx. induction l as [|y l IH]; [by apply not_elem_of_nil in Hx|]. apply NoDup_cons in Hn as [Hy Hn].
  cbn [List.find]. unfold named at 1. case_bool_decide as E.
  - apply elem_of_cons in Hx as [->|Hx]; [done|]. destruct Hy. rewrite E. by apply list_elem_of_fmap_2.
  - apply elem_of_cons in Hx as [->|Hx]; [done|by apply IH].
Qed.
Lemma find_active l x : length (actives l) ≤ 1 → x ∈ l → ss_active x = true → List.find ss_active l = Some x.
Proof.
  intros Hl Hx Ha. assert (x ∈ actives l) as Hin by (by apply list_elem_of_filter).
  assert (List.find ss_active l = head (actives l)) as ->.
  { clear. induction l as [|y l IH]; [done|]. unfold actives in *. cbn [List.find]. rewrite filter_cons.
    destruct (ss_active y); [by rewrite decide_True|rewrite decide_False by done; apply IH]. }
  destruct (actives l) as [|y [|z r]]; [by apply not_elem_of_nil in Hin| |simpl in Hl; lia].
  by apply list_elem_of_singleton in Hin as ->.
Qed.
Lemma script_source_rewritten content x : coherent x → script_source (rewritten content x) = content.
Proof.
  intros Hc. unfold script_source at 1. cbn [rewritten ss_source ss_rules]. case_bool_decide as E; [|done]. subst. cbn [negb].
  destruct (ss_rules x) as [r|] eqn:Er; [|done]. rewrite (coherent_source x r) by done.
  rewrite (bool_decide_false (emit_script _ = [])) by done. by rewrite andb_false_r.
Qed.
(** The others are untouched. *)
Definition others (name : bytes) l : list StoredScript := filter (λ y, named name y = false) l.
Lemma others_middle name l1 x y l2 : ss_name x = name → ss_name y = name → others name (l1 ++ x :: l2) = others name (l1 ++ y :: l2).
Proof.
  intros Hx Hy. unfold others, named. rewrite !filter_app. f_equal.
  by rewrite !filter_cons_False by (by rewrite bool_decide_true).
Qed.
Lemma others_new name l x : ss_name x = name → others name (l ++ [x]) = others name l.
Proof.
  intros Hx. unfold others, named. rewrite filter_app, filter_cons_False by (by rewrite bool_decide_true). by rewrite app_nil_r.
Qed.

(** What delivery runs of a script whose text compiles. *)
Lemma delivered_active l x content script :
  orderly l → x ∈ l → ss_active x = true → script_source x = content → compile default_compiler_limits content = inr script →
  (∀ c, compile_active_script l = Some c → c = mkCompiled content script) ∧
  (ss_rules x = None → str_trim content ≠ [] → compile_active_script l = Some (mkCompiled content script)).
Proof.
  intros Ho Hx Ha Hsrc Hc. unfold compile_active_script. rewrite (find_active l x) by (try done; apply Ho). cbn [mbind option_bind].
  assert (coherent x) as Hco by (apply (proj1 (Forall_forall _ _) (ord_coherent _ Ho)); done). split.
  - intros c Hd. destruct (delivered_source x c Hco Hd) as [E1 E2]. rewrite Hsrc in E1, E2. destruct c. simpl in *. congruence.
  - intros Hr Ht. unfold compile_stored_script. rewrite Hr. unfold script_source in Hsrc. rewrite Hr in Hsrc.
    assert (ss_source x = content) as -> by (destruct (decide (ss_source x = [])) as [E|E]; [rewrite E in Hsrc |- *|rewrite bool_decide_false in Hsrc]; done).
    rewrite bool_decide_false by done. unfold compile_source. by rewrite Hc.
Qed.
End lookup.
