(* ===== verification/QueueModel.v ===== *)
(** * The outbound queue: messages, retries, leases, delivery slots

    The data of the queue (crates/smtp/src/queue_model.rs), the retry policy
    (retry.rs), the outcome of an attempt ([apply_attempt] of
    queue_deliver.rs), the lease registry (queue_lease.rs) and the
    per-destination slots (concurrency.rs).  Instants are seconds, a
    [Duration] nanoseconds; text is bytes. *)

From S2P Require Import Prelude Bytes Ttl.
From stdpp Require Import base gmap list strings relations.
From Stdlib Require Import ZArith Lia.

Open Scope Z_scope.

(** ** Data *)

Inductive RecipientStatus : Type :=
  | Scheduled
  | Delivered
  | Deferred (reason : bytes)
  | Bounced (reason : bytes).

#[global] Instance RecipientStatus_eq_dec : EqDecision RecipientStatus.
Proof. solve_decision. Defined.

(** [RecipientStatus::is_pending] and [RecipientStatus::is_settled]. *)
Definition is_pending (s : RecipientStatus) : bool :=
  match s with Scheduled | Deferred _ => true | _ => false end.
Definition is_settled (s : RecipientStatus) : bool := negb (is_pending s).

Record RetrySchedule : Type := mkRetry { attempts : Z; due : Z }.
(** [RetrySchedule::first] and [RetrySchedule::is_due]. *)
Definition retry_first (d : Z) : RetrySchedule := mkRetry 0 d.
Definition retry_is_due (r : RetrySchedule) (now : Z) : bool := due r <=? now.

Record NotifySchedule : Type := mkNotify { notify_sent : Z; notify_due : Z }.
Definition notify_first (d : Z) : NotifySchedule := mkNotify 0 d.
Definition notify_is_due (n : NotifySchedule) (now : Z) : bool := notify_due n <=? now.

Inductive Expiry : Type := At (deadline : Z) | Attempts (limit : Z).

(** [Expiry::is_expired]. *)
Definition expiry_is_expired (e : Expiry) (attempts now : Z) : bool :=
  match e with
  | At deadline => deadline <=? now
  | Attempts limit => limit <=? attempts
  end.

Record QueueRecipient : Type := mkRcpt {
  address : bytes;
  status : RecipientStatus;
  retry : RetrySchedule;
  notify : NotifySchedule;
  expiry : Expiry;
}.

(** [QueueRecipient::new]. *)
Definition rcpt_new (a : bytes) (d : Z) (e : Expiry) : QueueRecipient :=
  mkRcpt a Scheduled (retry_first d) (notify_first d) e.

(** [QueueRecipient::domain]. *)
Definition rcpt_domain (r : QueueRecipient) : bytes :=
  match rsplit_once 64 (address r) with Some (_, d) => d | None => [] end.

(** [QueueRecipient::is_due] and [QueueRecipient::has_expired]. *)
Definition rcpt_is_due (r : QueueRecipient) (now : Z) : bool :=
  is_pending (status r) && retry_is_due (retry r) now.
Definition has_expired (r : QueueRecipient) (now : Z) : bool :=
  expiry_is_expired (expiry r) (attempts (retry r)) now.

Record QueuedMessage : Type := mkMessage {
  created : Z;
  blob_hash : bytes;
  msg_size : Z;
  return_path : bytes;
  recipients : list QueueRecipient;
}.

(** [Iterator::min] on instants. *)
Definition min_list (l : list Z) : option Z :=
  match l with [] => None | x :: l => Some (foldl Z.min x l) end.

(** [QueuedMessage::next_due], [has_due_recipient], [is_complete]. *)
Definition next_due (m : QueuedMessage) : option Z :=
  min_list ((λ r, due (retry r)) <$> filter (λ r, is_pending (status r) = true) (recipients m)).
Definition has_due_recipient (m : QueuedMessage) (now : Z) : bool :=
  existsb (λ r, rcpt_is_due r now) (recipients m).
Definition is_complete (m : QueuedMessage) : bool :=
  forallb (λ r, is_settled (status r)) (recipients m).

(** ** The retry policy *)

Definition BASE_BACKOFF : Z := 300.
Definition MAX_BACKOFF : Z := 7200.
Definition MAX_SHIFT : Z := 16.

Inductive RetryDecision : Type := Retry (s : RetrySchedule) | Bounce.

(** [backoff], in seconds. *)
Definition backoff (attempts : Z) : Z :=
  let shift := Z.min attempts MAX_SHIFT in
  Z.min (saturating_mul_u64 BASE_BACKOFF (Z.shiftl 1 shift)) MAX_BACKOFF.

(** [next_after_deferral]. *)
Definition next_after_deferral (r : RetrySchedule) (e : Expiry) (now : Z) : RetryDecision :=
  let n := saturating_add_u32 (attempts r) 1 in
  if expiry_is_expired e n now then Bounce
  else Retry (mkRetry n (saturating_add_u64 now (backoff (attempts r)))).

(** ** What an attempt does to a recipient *)

(** [DeliveryAttempt] of deliver_out.rs. *)
Inductive DeliveryAttempt : Type :=
  | AttemptDelivered
  | AttemptDeferred (reason : bytes)
  | AttemptBounced (reason : bytes).

(** [apply_attempt]. *)
Definition apply_attempt (r : QueueRecipient) (a : DeliveryAttempt) (now : Z) : QueueRecipient :=
  match a with
  | AttemptDelivered => mkRcpt (address r) Delivered (retry r) (notify r) (expiry r)
  | AttemptBounced reason => mkRcpt (address r) (Bounced reason) (retry r) (notify r) (expiry r)
  | AttemptDeferred reason =>
      match next_after_deferral (retry r) (expiry r) now with
      | Retry schedule => mkRcpt (address r) (Deferred reason) schedule (notify r) (expiry r)
      | Bounce => mkRcpt (address r) (Bounced reason) (retry r) (notify r) (expiry r)
      end
  end.

(** [Response<String>] of the client library: a reply code and its text;
    [classify_response]: only 5xx is permanent. *)
Record Response : Type := mkResponse { code : Z; text : bytes }.

Definition classify_response (shown : bytes) (r : Response) : DeliveryAttempt :=
  if (500 <=? code r) && (code r <? 600) then AttemptBounced shown else AttemptDeferred shown.

(** The [for] loop of [deliver]: the first exchange that accepts or refuses
    for good decides, otherwise the last deferral stands. *)
Fixpoint deliver_loop (attempts : list DeliveryAttempt) (last : DeliveryAttempt) : DeliveryAttempt :=
  match attempts with
  | [] => last
  | AttemptDelivered :: _ => AttemptDelivered
  | AttemptBounced reason :: _ => AttemptBounced reason
  | AttemptDeferred reason :: rest => deliver_loop rest (AttemptDeferred reason)
  end.

(** [deliver], over what each exchange would answer, in preference order. *)
Definition deliver (answers : list DeliveryAttempt) : DeliveryAttempt :=
  match answers with
  | [] => AttemptDeferred (bs "no reachable mail exchange")
  | _ => deliver_loop answers (AttemptDeferred (bs "no mail exchange was reached"))
  end.

(** ** Lemmas *)

Lemma backoff_bounds n : 0 ≤ n → BASE_BACKOFF ≤ backoff n ≤ MAX_BACKOFF.
Proof.
  intros Hn. unfold backoff, saturating_mul_u64, BASE_BACKOFF, MAX_BACKOFF.
  rewrite Z.shiftl_1_l. assert (2 ^ 0 ≤ 2 ^ Z.min n MAX_SHIFT) by (apply Z.pow_le_mono_r; unfold MAX_SHIFT; lia).
  width.
Qed.

Lemma backoff_mono m n : 0 ≤ m ≤ n → backoff m ≤ backoff n.
Proof.
  intros H. unfold backoff, saturating_mul_u64, BASE_BACKOFF. rewrite !Z.shiftl_1_l.
  assert (2 ^ Z.min m MAX_SHIFT ≤ 2 ^ Z.min n MAX_SHIFT) by (apply Z.pow_le_mono_r; unfold MAX_SHIFT; lia).
  lia.
Qed.

(** The schedule doubles from five minutes and is capped at two hours. *)
Lemma backoff_closed n : 0 ≤ n → backoff n = Z.min (300 * 2 ^ n) 7200.
Proof.
  intros Hn. unfold backoff, saturating_mul_u64, BASE_BACKOFF, MAX_BACKOFF, MAX_SHIFT.
  rewrite Z.shiftl_1_l. destruct (Z.le_gt_cases n 16).
  - rewrite (Z.min_l n 16) by done.
    assert (2 ^ n ≤ 2 ^ 16) by (apply Z.pow_le_mono_r; lia). width.
  - rewrite (Z.min_r n 16) by lia.
    assert (2 ^ 16 ≤ 2 ^ n) by (apply Z.pow_le_mono_r; lia). change (2 ^ 16) with 65536 in *. width.
Qed.

(** ** Runs of deferrals *)

(** A recipient deferred again and again, each attempt made at an instant at
    which it was due. *)
Inductive deferrals : QueueRecipient → list Z → QueueRecipient → Prop :=
  | deferrals_nil r : deferrals r [] r
  | deferrals_cons r now reason ts r' :
      rcpt_is_due r now = true → 0 ≤ now ≤ U64_MAX - MAX_BACKOFF →
      deferrals (apply_attempt r (AttemptDeferred reason) now) ts r' →
      deferrals r (now :: ts) r'.

(** How many attempts an expiry allows a recipient at attempt [n] due at [d]. *)
Definition attempts_left (e : Expiry) (n d : Z) : Z :=
  match e with
  | At deadline => (Z.max (deadline - d) 0 + 299) / 300 + 1
  | Attempts limit => Z.max (limit - n) 1
  end.

Definition expiry_wf (e : Expiry) : Prop :=
  match e with At d => 0 ≤ d ≤ U64_MAX - MAX_BACKOFF | Attempts l => is_u32 l end.

Lemma attempts_left_pos e n d : 1 ≤ attempts_left e n d.
Proof.
  unfold attempts_left. destruct e as [dl|lim]; [|lia].
  assert (0 ≤ (Z.max (dl - d) 0 + 299) / 300) by (apply Z.div_pos; lia). lia.
Qed.

Lemma deferrals_settled r ts r' :
  is_pending (status r) = false → deferrals r ts r' → ts = [] ∧ r' = r.
Proof.
  intros Hs Hd. destruct Hd as [|r now reason ts r' Hdue]; [done|].
  unfold rcpt_is_due in Hdue. by rewrite Hs in Hdue.
Qed.

(** A deferral either uses up an attempt or is the last. *)
Lemma deferral_decreases r e now r1 :
  expiry_wf e → 0 ≤ attempts r ≤ U32_MAX → due r ≤ now → 0 ≤ now ≤ U64_MAX - MAX_BACKOFF →
  next_after_deferral r e now = Retry r1 →
  0 ≤ attempts r1 ≤ U32_MAX ∧ due r1 = now + Z.min (300 * 2 ^ attempts r) 7200 ∧
  attempts_left e (attempts r1) (due r1) < attempts_left e (attempts r) (due r).
Proof.
  intros Hwf Hn Hdue Hnow. unfold next_after_deferral. destruct (expiry_is_expired _ _ _) eqn:Ee; [done|].
  intros [= <-]. simpl. pose proof (backoff_bounds (attempts r) ltac:(lia)) as Hb.
  rewrite <-(backoff_closed (attempts r)) by lia.
  unfold saturating_add_u64, saturating_add_u32, attempts_left, BASE_BACKOFF, MAX_BACKOFF in *.
  destruct e as [dl|lim]; simpl in *; unfold MAX_BACKOFF in *.
  - apply Z.leb_gt in Ee. rewrite (Z.min_l (now + _)) by width. split; [width|]. split; [done|].
    assert ((Z.max (dl - (now + backoff (attempts r))) 0 + 299) / 300 + 1 ≤
            (Z.max (dl - due r) 0 + 299) / 300); [|lia].
    destruct (Z.le_gt_cases (dl - (now + backoff (attempts r))) 0).
    + rewrite (Z.max_r (dl - (now + _))) by lia. change ((0 + 299) / 300 + 1) with 1.
      apply Z.div_le_lower_bound; lia.
    + rewrite <-Z.div_add by lia. apply Z.div_le_mono; lia.
  - apply Z.leb_gt in Ee. rewrite (Z.min_l (now + _)) by width. split_and!; width.
Qed.

(** Retrying ends.  However the attempts for a recipient are deferred,
    each made when the recipient is due, at most [max (limit - n) 1] more are
    made under an attempt limit and at most one per five minutes up to the
    deadline, plus one, under a deadline; a recipient that has had them all is
    bounced. *)
Theorem deferrals_bounded r ts r' :
  expiry_wf (expiry r) → 0 ≤ attempts (retry r) ≤ U32_MAX → is_pending (status r) = true →
  deferrals r ts r' →
  let bound := attempts_left (expiry r) (attempts (retry r)) (due (retry r)) in
  Z.of_nat (length ts) ≤ bound ∧
  (Z.of_nat (length ts) = bound → ∃ reason, status r' = Bounced reason).
Proof.
  intros Hwf Hn Hp Hd. induction Hd as [r|r now reason ts r' Hdue Hnow Hd IH]; simpl.
  { pose proof (attempts_left_pos (expiry r) (attempts (retry r)) (due (retry r))). lia. }
  unfold rcpt_is_due, retry_is_due in Hdue. rewrite Hp in Hdue. apply Z.leb_le in Hdue.
  unfold apply_attempt in Hd, IH.
  destruct (next_after_deferral (retry r) (expiry r) now) as [r1|] eqn:En.
  - apply deferral_decreases in En as (Hn1 & _ & Hlt); [|done..].
    destruct (IH Hwf Hn1 eq_refl) as [Hle Heq]. simpl in Hle, Heq. split; [lia|].
    intros. apply Heq. lia.
  - apply deferrals_settled in Hd as [-> ->]; [|done].
    pose proof (attempts_left_pos (expiry r) (attempts (retry r)) (due (retry r))).
    simpl. split; [lia|]. eauto.
Qed.

Lemma deferrals_bounded_witness :
  let r := rcpt_new (bs "a@b") 1000 (Attempts 2) in
  ∃ r', deferrals r [1000; 1300] r' ∧ ∃ reason, status r' = Bounced reason.
Proof.
  intros r. set (r1 := apply_attempt r (AttemptDeferred []) 1000).
  set (r2 := apply_attempt r1 (AttemptDeferred []) 1300).
  assert (deferrals r [1000; 1300] r2) as Hd.
  { apply deferrals_cons with []; [done|by vm_compute|]. apply deferrals_cons with [];
      [by vm_compute|by vm_compute|]. constructor. }
  exists r2. split; [exact Hd|].
  destruct (deferrals_bounded r [1000; 1300] r2) as [_ H]; [by vm_compute|by vm_compute|done|exact Hd|].
  apply H. vm_compute. reflexivity.
Defined.

(** ** Leases *)

Module Lease.
Inductive Lease : Type := Granted | Held.

(** [DEFAULT_LEASE], in nanoseconds. *)
Definition DEFAULT_LEASE : Z := 300 * 10 ^ 9.

(** The mutex-protected map from queue ids to lease deadlines. *)
Abbreviation LeaseRegistry := (gmap Z Z).

(** [LeaseRegistry::acquire], [release], [is_held]. *)
Definition acquire (lease : Z) (id now : Z) (held : LeaseRegistry) : Lease * LeaseRegistry :=
  match held !! id with
  | Some expires =>
      if now <? expires then (Held, held)
      else (Granted, <[id := saturating_add_u64 now (as_secs lease)]> held)
  | None => (Granted, <[id := saturating_add_u64 now (as_secs lease)]> held)
  end.
Definition release (id : Z) (held : LeaseRegistry) : LeaseRegistry := base.delete id held.
Definition is_held (id now : Z) (held : LeaseRegistry) : bool :=
  match held !! id with Some expires => now <? expires | None => false end.
End Lease.

(** ** Delivery slots *)

Module Slots.
Abbreviation Inner := (gmap bytes Z).

(** [ConcurrencyLimiter::acquire]: zero means no limit.  The count is a
    [u32]; its increment panics rather than wrap. *)
Definition acquire (max_per_destination : Z) (dest : bytes) (in_flight : Inner) : bool * Inner :=
  let current := default 0 (in_flight !! dest) in
  if negb (max_per_destination =? 0) && (max_per_destination <=? current)
  then (false, in_flight)
  else (true, <[dest := current + 1]> in_flight).

(** [ConcurrencyLimiter::in_flight]. *)
Definition in_flight_of (dest : bytes) (m : Inner) : Z := default 0 (m !! dest).

(** [DeliverySlot::drop]: a count that reaches zero is removed. *)
Definition drop_slot (dest : bytes) (m : Inner) : Inner :=
  match m !! dest with
  | Some count => if count - 1 =? 0 then base.delete dest m else <[dest := count - 1]> m
  | None => m
  end.

(** Acquisitions and drops in any order; [slots] are the live slots. *)
Inductive step (max : Z) : Inner * list bytes → Inner * list bytes → Prop :=
  | step_acquire m m' slots dest :
      acquire max dest m = (true, m') → step max (m, slots) (m', dest :: slots)
  | step_refused m m' slots dest :
      acquire max dest m = (false, m') → step max (m, slots) (m', slots)
  | step_drop m l1 dest l2 :
      step max (m, l1 ++ dest :: l2) (drop_slot dest m, l1 ++ l2).

Definition live_slots (dest : bytes) (slots : list bytes) : Z :=
  Z.of_nat (length (filter (λ d, d = dest) slots)).

(** The map counts the live slots and holds no zero. *)
Definition counts (m : Inner) (slots : list bytes) : Prop :=
  ∀ dest, m !! dest = if decide (live_slots dest slots = 0) then None else Some (live_slots dest slots).

Lemma live_slots_cons dest d slots :
  live_slots dest (d :: slots) = (if decide (d = dest) then 1 else 0) + live_slots dest slots.
Proof. unfold live_slots. rewrite filter_cons. case_decide; simpl; lia. Qed.

Lemma live_slots_middle dest l1 d l2 :
  live_slots dest (l1 ++ d :: l2) = (if decide (d = dest) then 1 else 0) + live_slots dest (l1 ++ l2).
Proof. rewrite <-live_slots_cons. unfold live_slots. by rewrite Permutation_middle. Qed.

Lemma counts_default m slots dest : counts m slots → default 0 (m !! dest) = live_slots dest slots.
Proof. intros Hc. rewrite Hc. case_decide; simpl; lia. Qed.

Lemma live_slots_nonneg dest slots : 0 ≤ live_slots dest slots.
Proof. unfold live_slots. lia. Qed.

Lemma counts_insert m slots dest :
  counts m slots → counts (<[dest := live_slots dest slots + 1]> m) (dest :: slots).
Proof.
  intros Hc d. pose proof (live_slots_nonneg d slots). rewrite lookup_insert, live_slots_cons.
  destruct (decide (dest = d)) as [->|]; [|by rewrite Z.add_0_l].
  rewrite decide_False by lia. f_equal. lia.
Qed.

Lemma counts_drop m l1 dest l2 :
  counts m (l1 ++ dest :: l2) → counts (drop_slot dest m) (l1 ++ l2).
Proof.
  intros Hc d. pose proof (live_slots_nonneg d (l1 ++ l2)). pose proof (live_slots_nonneg dest (l1 ++ l2)).
  pose proof (Hc dest) as Hdest. pose proof (Hc d) as Hd. rewrite !live_slots_middle in Hd, Hdest.
  rewrite (decide_True (P := dest = dest)) in Hdest by done. rewrite decide_False in Hdest by lia.
  unfold drop_slot. rewrite Hdest.
  replace (1 + live_slots dest (l1 ++ l2) - 1) with (live_slots dest (l1 ++ l2)) by lia.
  destruct (decide (dest = d)) as [->|Hne].
  - destruct (Z.eqb_spec (live_slots d (l1 ++ l2)) 0) as [E|E].
    + by rewrite lookup_delete_eq, decide_True.
    + by rewrite lookup_insert_eq, decide_False.
  - destruct (Z.eqb_spec (live_slots dest (l1 ++ l2)) 0);
      rewrite ?lookup_delete_ne, ?lookup_insert_ne by done; by rewrite Hd.
Qed.

(** Delivery slots.  Whatever the order of acquisitions, refusals and
    drops, with a non-zero limit no destination ever has more than that many
    live slots, the counter of a destination is the number of its live slots,
    and a refusal happens only at the limit; when all slots are dropped the
    table is empty again. *)
Theorem slots_bounded max m slots :
  0 < max → rtc (step max) (∅, []) (m, slots) →
  (∀ dest, in_flight_of dest m = live_slots dest slots ∧ live_slots dest slots ≤ max) ∧
  (∀ dest, (acquire max dest m).1 = false ↔ live_slots dest slots = max) ∧
  (slots = [] → m = ∅).
Proof.
  intros Hmax Hrun.
  assert (counts m slots ∧ ∀ dest, live_slots dest slots ≤ max) as [Hc Hb].
  { change (counts (m, slots).1 (m, slots).2 ∧ ∀ dest, live_slots dest (m, slots).2 ≤ max).
    remember (∅, []) as x eqn:Ex.
    assert (counts x.1 x.2 ∧ ∀ dest, live_slots dest x.2 ≤ max) as Hx by (subst; split; [done|intros; unfold live_slots; simpl; lia]).
    clear Ex. induction Hrun as [|x y z Hstep _ IH]; [done|]. apply IH. destruct Hx as [Hc Hb].
    destruct Hstep as [m1 m2 sl dest E|m1 m2 sl dest E|m1 l1 dest l2]; unfold acquire in *; simpl in *.
    - rewrite (counts_default m1 sl) in E by done. case_match eqn:Ec; [done|]. injection E as <-.
      split; [by apply counts_insert|]. intros d. rewrite live_slots_cons. specialize (Hb d).
      case_decide; [subst|lia]. lia.
    - case_match; [|done]. injection E as <-. done.
    - split; [by apply counts_drop|]. intros d. specialize (Hb d). rewrite live_slots_middle in Hb.
      case_decide; lia. }
  split_and!.
  - intros dest. split; [|done]. unfold in_flight_of. by apply counts_default.
  - intros dest. unfold acquire. rewrite (counts_default m slots) by done. specialize (Hb dest).
    case_match eqn:Ec; simpl; (split; [intros ?|intros E]); try done; lia.
  - intros ->. apply map_eq. intros dest. rewrite Hc. done.
Qed.

Lemma slots_bounded_witness :
  let m := (acquire 1 [7] ∅).2 in
  rtc (step 1) (∅, []) (m, [[7]]) ∧ (acquire 1 [7] m).1 = false.
Proof.
  intros m. assert (rtc (step 1) (∅, []) (m, [[7]])) as Hr
    by (apply rtc_once, step_acquire; vm_compute; reflexivity).
  split; [exact Hr|]. apply (slots_bounded 1 m [[7]] ltac:(lia) Hr). reflexivity.
Defined.
End Slots.
