(* ===== verification/Blobs.v ===== *)
(** * Blobs, their reference counts and the purge

    The blob store trait (crates/store/src/traits_blob.rs) as an interface;
    the reference counts, upload reservations and account links that
    crates/mail/src/blob_store_msg.rs keeps in the BlobRef subspace; and the
    hourly sweep of crates/mail/src/purge.rs.  The sweep is modelled as one
    run over a store that does not change under it. *)

From S2P Require Import Prelude Bytes Key Store.
From stdpp Require Import base gmap list strings sorting.
From Stdlib Require Import ZArith Lia.

Open Scope Z_scope.

Abbreviation BlobHash := bytes.

(** [BlobHash::to_hex]. *)
Definition hex_digit (d : Z) : Z := if d <? 10 then 48 + d else 87 + d.
Definition to_hex (h : BlobHash) : bytes :=
  h ≫= λ b, [hex_digit (Z.shiftr b 4); hex_digit (Z.land b 15)].

(** ** The interface *)

(** [BlobStore].  The clock a backend stamps a file with is an argument of
    [blob_put]; [blob_list] gives what [for_each] visits, in its order. *)
Class BlobStore (B : Type) : Type := {
  blob_put : bytes → Z → M B BlobHash;
  blob_get_all : BlobHash → B → result (option bytes);
  blob_delete : BlobHash → M B unit;
  blob_modified_at : BlobHash → B → result (option Z);
  blob_list : B → result (list (BlobHash * Z));
}.

(** What the trait promises: content is kept under its digest with the
    instant of the last [put]. *)
Class BlobSpec (B : Type) `{BlobStore B} : Type := {
  bview : B → gmap BlobHash (bytes * Z);
  bhealthy : B → Prop;
  digest : bytes → BlobHash;
  blob_put_spec raw now b : bhealthy b →
    ∃ b', blob_put raw now b = (Ok (digest raw), b') ∧ bhealthy b' ∧
          bview b' = <[digest raw := (raw, now)]> (bview b);
  blob_get_all_spec h b : bhealthy b → blob_get_all h b = Ok (fst <$> bview b !! h);
  blob_delete_spec h b : bhealthy b →
    ∃ b', blob_delete h b = (Ok tt, b') ∧ bhealthy b' ∧ bview b' = base.delete h (bview b);
  blob_modified_at_spec h b : bhealthy b → blob_modified_at h b = Ok (snd <$> bview b !! h);
  blob_list_spec b : bhealthy b →
    ∃ l, blob_list b = Ok l ∧ ∀ h t, (h, t) ∈ l ↔ ∃ c, bview b !! h = Some (c, t);
}.

(** A store and a blob store side by side. *)
Section world.
Context {S B : Type}.
Definition on_store {A} (m : M S A) : M (S * B) A := λ w,
  let '(r, s') := m w.1 in (r, (s', w.2)).
Definition on_blobs {A} (m : M B A) : M (S * B) A := λ w,
  let '(r, b') := m w.2 in (r, (w.1, b')).
End world.

(** ** Keys of the BlobRef subspace *)

Definition BLOB_REF_ACCOUNT : Z := 0.
Definition BLOB_REF_DOCUMENT_ID : Z := 0.
Definition RESERVATION_DOCUMENT_ID : Z := 1.
Definition LINK_DOCUMENT_ID : Z := 2.
Definition RESERVATION_TTL_SECS : Z := 24 * 60 * 60.

Definition ref_count_key (h : BlobHash) : bytes :=
  key_encode (with_suffix (key_new BlobRef BLOB_REF_ACCOUNT Email BLOB_REF_DOCUMENT_ID) h).
Definition reservation_key (account : Z) (h : BlobHash) : bytes :=
  key_encode (with_suffix (key_new BlobRef account Email RESERVATION_DOCUMENT_ID) h).
Definition account_link_key (account : Z) (h : BlobHash) : bytes :=
  key_encode (with_suffix (key_new BlobRef account Email LINK_DOCUMENT_ID) h).

Definition is_reservation_document (d : Z) : bool := d =? RESERVATION_DOCUMENT_ID.
Definition is_link_document (d : Z) : bool := d =? LINK_DOCUMENT_ID.

(** [split_blob_ref_key]. *)
Definition split_blob_ref_key (key : bytes) : option (Z * Z * BlobHash) :=
  let prefix_len := length (ref_count_key []) in
  if (length key <=? prefix_len)%nat then None
  else Some (of_be_bytes (take 4 (drop 1 key)), of_be_bytes (take 4 (drop 6 key)),
             drop prefix_len key).

(** ** Operations of blob_store_msg.rs *)

(** [account_link_op] and [reference_op]. *)
Definition account_link_op (account : Z) (h : BlobHash) (by_ : Z) : WriteOp :=
  WAdd (account_link_key account h) by_.
Definition reference_op (h : BlobHash) : WriteOp := WAdd (ref_count_key h) 1.

Section operations.
Context {S B : Type} `{Store S} `{BlobStore B}.

(** [store_message]. *)
Definition store_message (raw : bytes) (now : Z) : M (S * B) BlobHash :=
  h ← on_blobs (blob_put raw now);
  _ ← on_store (st_add_and_get (ref_count_key h) 1);
  mret h.

(** [store_blob]. *)
Definition store_blob (raw : bytes) (now : Z) : M B BlobHash := blob_put raw now.

(** [reserve_upload]. *)
Definition reserve_upload (account : Z) (raw : bytes) (now : Z) : M (S * B) BlobHash :=
  h ← on_blobs (blob_put raw now);
  _ ← on_store (st_put (reservation_key account h) (le_bytes 8 (now + RESERVATION_TTL_SECS)));
  mret h.

(** [add_reference], [release_message], [reference_count]. *)
Definition add_reference (h : BlobHash) : M S Z := st_add_and_get (ref_count_key h) 1.
Definition release_message (h : BlobHash) : M S Z :=
  remaining ← st_add_and_get (ref_count_key h) (-1); mret (Z.max remaining 0).
Definition reference_count (h : BlobHash) (s : S) : result Z := st_counter (ref_count_key h) s.

(** [account_references_blob] and [has_live_reservation]. *)
Definition account_references_blob (account : Z) (h : BlobHash) (s : S) : result bool :=
  n ← st_counter (account_link_key account h) s; Ok (0 <? n).
Definition has_live_reservation (account : Z) (h : BlobHash) (now : Z) (s : S) : result bool :=
  v ← st_get (reservation_key account h) s;
  Ok match v with
     | Some b => if (length b =? 8)%nat then now <? of_le_bytes b else false
     | None => false
     end.

(** ** The purge *)

Definition PURGE_GRACE_SECS : Z := 3600.

(** The three collections the scan fills: live reservations, dead rows, and
    reference counts that have dropped to zero. *)
Record purge_acc : Type := mkPurge {
  reserved : list BlobHash;
  dead_reservations : list bytes;
  orphans : list (bytes * BlobHash);
}.

Definition purge_visit (now : Z) (acc : purge_acc) (key value : bytes)
  : result (purge_acc * Flow) :=
  match split_blob_ref_key key with
  | None => Ok (acc, Continue)
  | Some (_, document, h) =>
      if is_reservation_document document then
        if (length value =? 8)%nat && (now <? of_le_bytes value)
        then Ok (mkPurge (h :: reserved acc) (dead_reservations acc) (orphans acc), Continue)
        else Ok (mkPurge (reserved acc) (dead_reservations acc ++ [key]) (orphans acc), Continue)
      else if is_link_document document then
        if (length value =? 8)%nat && (i64_of_le value <=? 0)
        then Ok (mkPurge (reserved acc) (dead_reservations acc ++ [key]) (orphans acc), Continue)
        else Ok (acc, Continue)
      else if negb (length value =? 8)%nat then Ok (acc, Continue)
      else if i64_of_le value <=? 0
      then Ok (mkPurge (reserved acc) (dead_reservations acc) (orphans acc ++ [(key, h)]), Continue)
      else Ok (acc, Continue)
  end.

Fixpoint delete_keys (keys : list bytes) : M S unit :=
  match keys with
  | [] => mret tt
  | k :: keys => _ ← st_delete k; delete_keys keys
  end.

(** The loop over the orphans. *)
Fixpoint purge_orphan_blobs (now grace : Z) (res : list BlobHash) (os : list (bytes * BlobHash))
    (purged : nat) : M (S * B) nat :=
  match os with
  | [] => mret purged
  | (key, h) :: os =>
      if bool_decide (h ∈ res) then purge_orphan_blobs now grace res os purged
      else
        modified ← reads (λ w, blob_modified_at h w.2);
        let fresh := match modified with
                     | Some t => saturating_sub now t <? grace
                     | None => false
                     end in
        if (fresh : bool) then purge_orphan_blobs now grace res os purged
        else
          _ ← on_blobs (blob_delete h);
          _ ← on_store (st_delete key);
          purge_orphan_blobs now grace res os (Datatypes.S purged)
  end.

(** The visit of every stored blob, then the loop over the stranded ones. *)
Fixpoint find_stranded (now grace : Z) (res : list BlobHash) (l : list (BlobHash * Z)) (s : S)
  : result (list BlobHash) :=
  match l with
  | [] => Ok []
  | (h, modified) :: l =>
      stranded ←
        (if (Z.max grace 1 <=? saturating_sub now modified) && negb (bool_decide (h ∈ res))
         then v ← st_get (ref_count_key h) s; Ok (bool_decide (v = None))
         else Ok false);
      rest ← find_stranded now grace res l s;
      Ok (if (stranded : bool) then h :: rest else rest)
  end.

Fixpoint delete_blobs (hs : list BlobHash) (purged : nat) : M (S * B) nat :=
  match hs with
  | [] => mret purged
  | h :: hs => _ ← on_blobs (blob_delete h); delete_blobs hs (Datatypes.S purged)
  end.

(** [purge_orphans]. *)
Definition purge_orphans (now grace : Z) : M (S * B) nat :=
  acc ← reads (λ w, st_iterate (kp_subspace BlobRef) (purge_visit now) (mkPurge [] [] []) w.1);
  _ ← on_store (delete_keys (dead_reservations acc));
  purged ← purge_orphan_blobs now grace (reserved acc) (orphans acc) 0;
  stranded ← reads (λ w : S * B, l ← blob_list w.2; find_stranded now grace (reserved acc) l w.1);
  delete_blobs stranded purged.
End operations.

(** ** Lemmas: keys *)

Definition blobref_key (account document : Z) (h : BlobHash) : bytes :=
  key_encode (with_suffix (key_new BlobRef account Email document) h).

Lemma split_blobref_key a d h :
  is_u32 a → is_u32 d → h ≠ [] → split_blob_ref_key (blobref_key a d h) = Some (a, d, h).
Proof.
  intros Ha Hd Hh. unfold split_blob_ref_key, blobref_key, ref_count_key.
  rewrite !length_key_encode. unfold with_suffix, key_new. simpl key_suffix.
  destruct h as [|x h]; [done|]. simpl length. cbv beta iota zeta.
  rewrite (proj2 (Nat.leb_gt _ _)) by (simpl; lia).
  unfold key_encode. cbn [key_subspace key_account_id key_collection key_document_id key_suffix app drop].
  change (10 + 0)%nat with 10%nat. cbn [drop]. rewrite !drop_0.
  rewrite (take_app_length' (u32_be a)) by (by rewrite length_u32_be).
  rewrite !(drop_app_ge (u32_be a)) by (rewrite length_u32_be; lia). rewrite length_u32_be.
  cbn [Nat.sub drop]. rewrite ?drop_0, (take_app_length' (u32_be d)) by (by rewrite length_u32_be).
  rewrite !(drop_app_ge (u32_be d)) by (rewrite length_u32_be; lia). rewrite length_u32_be.
  by rewrite !of_be_bytes_u32.
Qed.

Lemma blobref_key_inj a d h a' d' h' :
  is_u32 a → is_u32 d → is_u32 a' → is_u32 d' →
  blobref_key a d h = blobref_key a' d' h' → a = a' ∧ d = d' ∧ h = h'.
Proof.
  intros ? ? ? ? E. apply key_encode_injective in E; [|by split..]. by injection E.
Qed.

Lemma ref_count_key_eq h : ref_count_key h = blobref_key 0 0 h. Proof. done. Qed.
Lemma reservation_key_eq a h : reservation_key a h = blobref_key a 1 h. Proof. done. Qed.
Lemma account_link_key_eq a h : account_link_key a h = blobref_key a 2 h. Proof. done. Qed.

Lemma ref_count_key_inj h h' : ref_count_key h = ref_count_key h' → h = h'.
Proof. rewrite !ref_count_key_eq. intros E. assert (is_u32 0) by width. by apply blobref_key_inj in E as (_ & _ & ?). Qed.

Lemma blobref_key_known a d h : known (blobref_key a d h).
Proof. apply known_key_encode. Qed.
Lemma ref_count_key_known h : known (ref_count_key h).
Proof. apply known_key_encode. Qed.
#[global] Hint Resolve blobref_key_known ref_count_key_known : keys.

(** Nothing but counts, reservations and links lives in the subspace. *)
Definition blobref_wf (m : contents) : Prop :=
  ∀ k v, m !! k = Some v → subspace_of k = Some BlobRef →
    ∃ a d h, is_u32 a ∧ h ≠ [] ∧ (d = 0 ∧ a = 0 ∨ d = 1 ∨ d = 2) ∧ k = blobref_key a d h.

(** The count of a blob is a readable number that has dropped to zero. *)
Definition count_spent (v : bytes) : bool := (length v =? 8)%nat && (i64_of_le v <=? 0).

(** Some account holds an upload reservation on the blob past [now]. *)
Definition reserved_at (m : contents) (now : Z) (h : BlobHash) : Prop :=
  ∃ a v, is_u32 a ∧ m !! reservation_key a h = Some v ∧ length v = 8%nat ∧ now < of_le_bytes v.

(** ** Lemmas: the scan *)

(** What one row adds to each of the three collections. *)
Definition adds_reserved (now : Z) (r : row) : list BlobHash :=
  match split_blob_ref_key r.1 with
  | Some (_, 1, h) => if (length r.2 =? 8)%nat && (now <? of_le_bytes r.2) then [h] else []
  | _ => []
  end.
Definition adds_dead (now : Z) (r : row) : list bytes :=
  match split_blob_ref_key r.1 with
  | Some (_, 1, _) => if (length r.2 =? 8)%nat && (now <? of_le_bytes r.2) then [] else [r.1]
  | Some (_, 2, _) => if count_spent r.2 then [r.1] else []
  | _ => []
  end.
Definition adds_orphan (r : row) : list (bytes * BlobHash) :=
  match split_blob_ref_key r.1 with
  | Some (_, 1, _) | Some (_, 2, _) | None => []
  | Some (_, _, h) => if count_spent r.2 then [(r.1, h)] else []
  end.

Lemma purge_visit_adds now acc k v :
  purge_visit now acc k v =
    Ok (mkPurge (adds_reserved now (k, v) ++ reserved acc)
          (dead_reservations acc ++ adds_dead now (k, v)) (orphans acc ++ adds_orphan (k, v)), Continue).
Proof.
  unfold purge_visit, adds_reserved, adds_dead, adds_orphan, count_spent. simpl.
  unfold is_reservation_document, is_link_document, RESERVATION_DOCUMENT_ID, LINK_DOCUMENT_ID.
  destruct (split_blob_ref_key k) as [[[a d] h]|]; [|by destruct acc; rewrite !app_nil_r].
  destruct (Z.eqb_spec d 1) as [->|H1].
  { case_match; destruct acc; simpl; by rewrite ?app_nil_r. }
  destruct (Z.eqb_spec d 2) as [->|H2].
  { case_match; destruct acc; simpl; by rewrite ?app_nil_r. }
  assert (∀ X (x y z : X), match d with 1 => x | 2 => y | _ => z end = z) as E.
  { intros. destruct d as [|[p|[p|p|]|]|p]; done. }
  assert (∀ X (x z : X), match d with 1 => x | _ => z end = z) as E'.
  { intros. destruct d as [|[p|p|]|p]; done. }
  rewrite !E, !E'. destruct (length v =? 8)%nat, (i64_of_le v <=? 0); destruct acc; simpl; by rewrite ?app_nil_r.
Qed.

Lemma scan_purge now rs acc :
  ∃ acc', scan (purge_visit now) rs acc = Ok acc' ∧
    (∀ h, h ∈ reserved acc' ↔ h ∈ reserved acc ∨ ∃ r, r ∈ rs ∧ h ∈ adds_reserved now r) ∧
    (∀ k, k ∈ dead_reservations acc' ↔ k ∈ dead_reservations acc ∨ ∃ r, r ∈ rs ∧ k ∈ adds_dead now r) ∧
    (∀ o, o ∈ orphans acc' ↔ o ∈ orphans acc ∨ ∃ r, r ∈ rs ∧ o ∈ adds_orphan r).
Proof.
  revert acc. induction rs as [|[k v] rs IH]; intros acc.
  { exists acc. simpl. setoid_rewrite elem_of_nil. split_and!; [done|naive_solver..]. }
  cbn [scan]. rewrite purge_visit_adds. destruct (IH (mkPurge (adds_reserved now (k, v) ++ reserved acc)
    (dead_reservations acc ++ adds_dead now (k, v)) (orphans acc ++ adds_orphan (k, v))))
    as (acc' & -> & Hr & Hd & Ho).
  exists acc'. split; [done|]. setoid_rewrite elem_of_cons.
  split_and!; intros x; [rewrite Hr|rewrite Hd|rewrite Ho]; simpl; rewrite elem_of_app; naive_solver.
Qed.

(** The rows of a well-formed subspace, by the kind of their key. *)
Lemma adds_orphan_wf k v o :
  (∃ a d h, is_u32 a ∧ h ≠ [] ∧ (d = 0 ∧ a = 0 ∨ d = 1 ∨ d = 2) ∧ k = blobref_key a d h) →
  o ∈ adds_orphan (k, v) ↔ ∃ h, h ≠ [] ∧ o = (k, h) ∧ k = ref_count_key h ∧ count_spent v = true.
Proof.
  intros (a & d & h & Ha & Hh & Hd & ->). unfold adds_orphan. simpl fst. simpl snd.
  rewrite split_blobref_key by (done || width).
  assert (∀ h', blobref_key a d h = ref_count_key h' → a = 0 ∧ d = 0 ∧ h = h') as Hinj.
  { intros h' E. rewrite ref_count_key_eq in E. by apply blobref_key_inj in E; [|done || width..]. }
  destruct Hd as [[-> ->]|[->| ->]].
  - destruct (count_spent v) eqn:Ec.
    + rewrite list_elem_of_singleton. split; [naive_solver|]. intros (h' & ? & -> & E & _).
      by destruct (Hinj h' E) as (_ & _ & ->).
    + rewrite elem_of_nil. naive_solver.
  - rewrite elem_of_nil. split; [done|]. intros (h' & _ & _ & (_ & ? & _)%Hinj & _). done.
  - rewrite elem_of_nil. split; [done|]. intros (h' & _ & _ & (_ & ? & _)%Hinj & _). done.
Qed.

Lemma adds_reserved_wf now k v h' :
  (∃ a d h, is_u32 a ∧ h ≠ [] ∧ (d = 0 ∧ a = 0 ∨ d = 1 ∨ d = 2) ∧ k = blobref_key a d h) →
  h' ∈ adds_reserved now (k, v) ↔
    ∃ a, is_u32 a ∧ h' ≠ [] ∧ k = reservation_key a h' ∧ length v = 8%nat ∧ now < of_le_bytes v.
Proof.
  intros (a & d & h & Ha & Hh & Hd & ->). unfold adds_reserved. simpl fst. simpl snd.
  rewrite split_blobref_key by (done || width).
  assert (∀ a' h', is_u32 a' → blobref_key a d h = reservation_key a' h' → d = 1 ∧ h = h') as Hinj.
  { intros a' h'' Ha' E. rewrite reservation_key_eq in E.
    apply blobref_key_inj in E as (_ & ? & ?); [done|done|width|done|width]. }
  destruct Hd as [[-> ->]|[->| ->]].
  - rewrite elem_of_nil. split; [done|]. intros (a' & ? & _ & (? & _)%Hinj & _); done.
  - destruct (_ && _) eqn:Ec.
    + apply andb_true_iff in Ec as [El%Nat.eqb_eq Et%Z.ltb_lt]. rewrite list_elem_of_singleton.
      split; [intros ->; by exists a|]. intros (a' & ? & _ & (_ & ?)%Hinj & _); done.
    + rewrite elem_of_nil. split; [done|]. intros (a' & _ & _ & _ & El & Et).
      apply andb_false_iff in Ec as [?%Nat.eqb_neq|?%Z.ltb_ge]; [done|lia].
  - rewrite elem_of_nil. split; [done|]. intros (a' & ? & _ & (? & _)%Hinj & _); done.
Qed.

Lemma adds_dead_wf now k v k' :
  (∃ a d h, is_u32 a ∧ h ≠ [] ∧ (d = 0 ∧ a = 0 ∨ d = 1 ∨ d = 2) ∧ k = blobref_key a d h) →
  k' ∈ adds_dead now (k, v) →
  subspace_of k' = Some BlobRef ∧ (∀ h, k' ≠ ref_count_key h) ∧
  k' = k ∧ (count_spent v = true ∨ ∃ a h, is_u32 a ∧ k = reservation_key a h).
Proof.
  intros (a & d & h & Ha & Hh & Hd & ->). unfold adds_dead. simpl fst. simpl snd.
  rewrite split_blobref_key by (done || width).
  assert (d ≠ 0 → ∀ h', blobref_key a d h ≠ ref_count_key h') as Hne.
  { intros Hd0 h' E. rewrite ref_count_key_eq in E.
    apply blobref_key_inj in E as (_ & ? & _); [done|done|width..]. }
  intros Hin. assert (k' = blobref_key a d h ∧ d ≠ 0 ∧ (d = 1 ∨ count_spent v = true)) as (-> & ? & Hk).
  { destruct Hd as [[-> ->]|[->| ->]]; repeat case_match; set_solver. }
  split_and!; [apply subspace_of_key_encode|auto|done|]. destruct Hk as [->|?]; [right; by exists a, h|by left].
Qed.

(** ** Lemmas: the loops *)

Section loops.
Context {S B : Type} {store : Store S} {contract : StoreSpec S}.
Context {blobs : BlobStore B} {bcontract : BlobSpec B}.
Implicit Types (s : S) (b : B).

Lemma delete_keys_spec keys s :
  healthy s → Forall known keys →
  ∃ s', delete_keys keys s = (Ok tt, s') ∧ healthy s' ∧
    ∀ k, view s' !! k = if decide (k ∈ keys) then None else view s !! k.
Proof.
  intros Hs Hk. revert s Hs. induction Hk as [|key keys Hkey _ IH]; intros s Hs.
  { exists s. split_and!; [done..|]. intros k. by rewrite decide_False by apply not_elem_of_nil. }
  destruct (delete_spec key s) as (s1 & E1 & Hs1 & Hv1); [done..|].
  destruct (IH s1 Hs1) as (s2 & E2 & Hs2 & Hv2). exists s2. cbn [delete_keys].
  unfold mbind, M_bind. rewrite E1. split_and!; [done..|]. intros k. rewrite Hv2, Hv1, lookup_delete.
  destruct (decide (k ∈ key :: keys)) as [Hin|Hin]; rewrite elem_of_cons in Hin;
    repeat case_decide; naive_solver.
Qed.

(** A blob the orphan loop would delete. *)
Definition doomed (now grace : Z) (res : list BlobHash) b (h : BlobHash) : bool :=
  negb (bool_decide (h ∈ res)) &&
  match bview b !! h with Some (_, t) => grace <=? saturating_sub now t | None => true end.

Definition doomed_in (now grace : Z) res b (os : list (bytes * BlobHash)) : list (bytes * BlobHash) :=
  filter (λ o, doomed now grace res b o.2 = true) os.

Lemma doomed_delete now grace res b b' h h' :
  bview b' = base.delete h (bview b) → doomed now grace res b h = true →
  doomed now grace res b' h' = doomed now grace res b h'.
Proof.
  intros Hv Hd. unfold doomed in *. rewrite Hv, lookup_delete. destruct (decide (h = h')) as [<-|]; [|done].
  rewrite Hd. apply andb_true_iff in Hd as [-> _]. done.
Qed.

Lemma doomed_in_cons now grace res b key h os :
  doomed_in now grace res b ((key, h) :: os) =
    if doomed now grace res b h then (key, h) :: doomed_in now grace res b os
    else doomed_in now grace res b os.
Proof.
  unfold doomed_in. rewrite filter_cons. simpl snd.
  destruct (doomed now grace res b h); [by rewrite decide_True|by rewrite decide_False].
Qed.

(** One turn of the loop. *)
Lemma purge_orphan_turn now grace res key h os n s b :
  bhealthy b →
  purge_orphan_blobs now grace res ((key, h) :: os) n (s, b) =
    if doomed now grace res b h
    then (_ ← on_blobs (blob_delete h); _ ← on_store (st_delete key);
          purge_orphan_blobs now grace res os (Datatypes.S n)) (s, b)
    else purge_orphan_blobs now grace res os n (s, b).
Proof.
  intros Hb. cbn [purge_orphan_blobs]. unfold doomed. case_bool_decide as Hres; [done|].
  unfold mbind at 1, M_bind at 1, reads. simpl. rewrite blob_modified_at_spec by done.
  destruct (bview b !! h) as [[c t]|]; simpl; [|done].
  rewrite Z.ltb_antisym. by destruct (grace <=? saturating_sub now t).
Qed.

Lemma purge_orphan_blobs_spec now grace res os n s b :
  healthy s → bhealthy b → Forall (λ o, known o.1) os →
  ∃ s' b' n', purge_orphan_blobs now grace res os n (s, b) = (Ok n', (s', b')) ∧
    healthy s' ∧ bhealthy b' ∧
    (∀ k, view s' !! k = if decide (k ∈ (doomed_in now grace res b os).*1) then None else view s !! k) ∧
    (∀ h, bview b' !! h = if decide (h ∈ (doomed_in now grace res b os).*2) then None else bview b !! h).
Proof.
  intros Hs Hb Hk. revert n s b Hs Hb. induction Hk as [|[key h] os Hkey _ IH]; intros n s b Hs Hb.
  { exists s, b, n. split_and!; try done; intros k; by rewrite decide_False by apply not_elem_of_nil. }
  rewrite purge_orphan_turn, doomed_in_cons by done.
  destruct (doomed now grace res b h) eqn:Ed; [|by apply IH].
  unfold mbind, M_bind, on_blobs, on_store. simpl fst. simpl snd.
  destruct (blob_delete_spec h b) as (b1 & -> & Hb1 & Hbv1); [done|]. simpl fst. simpl snd.
  destruct (delete_spec key s) as (s1 & -> & Hs1 & Hv1); [done..|].
  destruct (IH (Datatypes.S n) s1 b1 Hs1 Hb1) as (s2 & b2 & n2 & E2 & Hs2 & Hb2 & Hv2 & Hbv2).
  assert (doomed_in now grace res b1 os = doomed_in now grace res b os) as Edoom.
  { apply list_filter_iff. intros o. by rewrite (doomed_delete now grace res b b1 h). }
  rewrite Edoom in *. exists s2, b2, n2. rewrite !fmap_cons. simpl fst. simpl snd.
  split_and!; [exact E2|done|done| |].
  - intros k. rewrite Hv2, Hv1, lookup_delete.
    destruct (decide (k ∈ key :: _)) as [Hin|Hin]; rewrite elem_of_cons in Hin;
      repeat case_decide; naive_solver.
  - intros h'. rewrite Hbv2, Hbv1, lookup_delete.
    destruct (decide (h' ∈ h :: _)) as [Hin|Hin]; rewrite elem_of_cons in Hin;
      repeat case_decide; naive_solver.
Qed.

Lemma find_stranded_spec now grace res l s :
  healthy s →
  ∃ hs, find_stranded now grace res l s = Ok hs ∧ ∀ h, h ∈ hs ↔
    ∃ t, (h, t) ∈ l ∧ Z.max grace 1 ≤ saturating_sub now t ∧ h ∉ res ∧ view s !! ref_count_key h = None.
Proof.
  intros Hs. induction l as [|[h t] l (hs & E & Hin)].
  { exists []. split; [done|]. intros h. setoid_rewrite elem_of_nil. naive_solver. }
  cbn [find_stranded]. rewrite get_spec by auto with keys. simpl.
  assert (∃ x, (if (Z.max grace 1 <=? saturating_sub now t) && negb (bool_decide (h ∈ res))
     then Ok (bool_decide (view s !! ref_count_key h = None)) else Ok false) = Ok x ∧
     (x = true ↔ Z.max grace 1 ≤ saturating_sub now t ∧ h ∉ res ∧ view s !! ref_count_key h = None))
    as (x & -> & Hx).
  { destruct (Z.leb_spec (Z.max grace 1) (saturating_sub now t)); simpl; [|exists false; naive_solver lia].
    case_bool_decide; simpl; [exists false; naive_solver|].
    eexists. split; [done|]. rewrite bool_decide_eq_true. naive_solver. }
  simpl. rewrite E. simpl. eexists. split; [done|]. intros h'. setoid_rewrite elem_of_cons.
  destruct x.
  - rewrite elem_of_cons, Hin. destruct Hx as [Hx _]. specialize (Hx eq_refl). naive_solver.
  - rewrite Hin. split; [naive_solver|]. intros (t' & [[= -> ->]|?] & ?); [|naive_solver].
    exfalso. by assert (false = true) by (by apply Hx).
Qed.

Lemma delete_blobs_spec hs n s b :
  bhealthy b →
  ∃ b' n', delete_blobs hs n (s, b) = (Ok n', (s, b')) ∧ bhealthy b' ∧
    ∀ h, bview b' !! h = if decide (h ∈ hs) then None else bview b !! h.
Proof.
  revert n b. induction hs as [|h hs IH]; intros n b Hb.
  { exists b, n. split_and!; [done..|]. intros k. by rewrite decide_False by apply not_elem_of_nil. }
  destruct (blob_delete_spec h b) as (b1 & E1 & Hb1 & Hv1); [done|].
  destruct (IH (Datatypes.S n) b1 Hb1) as (b2 & n2 & E2 & Hb2 & Hv2).
  exists b2, n2. cbn [delete_blobs]. unfold mbind, M_bind, on_blobs. simpl. rewrite E1.
  split_and!; [done..|]. intros k. rewrite Hv2, Hv1, lookup_delete.
  destruct (decide (k ∈ h :: hs)) as [Hin|Hin]; rewrite elem_of_cons in Hin;
    repeat case_decide; naive_solver.
Qed.
End loops.

(** ** What the purge does *)

(** Unprotected at [now]: not reserved, and either its count has dropped to
    zero and it is older than the grace period, or it has no count at all and
    is older than the grace period and a second. *)
Definition purgeable (m : contents) (now grace : Z) (h : BlobHash) (t : Z) : Prop :=
  ¬ reserved_at m now h ∧
  ((∃ v, m !! ref_count_key h = Some v ∧ count_spent v = true ∧ grace ≤ saturating_sub now t) ∨
   (m !! ref_count_key h = None ∧ Z.max grace 1 ≤ saturating_sub now t)).

(** The rows the scan visits. *)
Definition blobref_rows (m : contents) : list row :=
  rows_from m (prefix_encode (kp_subspace BlobRef)) (prefix_encode (kp_subspace BlobRef)).

Lemma elem_of_blobref_rows m k v :
  blobref_wf m → (k, v) ∈ blobref_rows m ↔ m !! k = Some v ∧ subspace_of k = Some BlobRef.
Proof.
  intros Hwf. unfold blobref_rows. rewrite elem_of_rows_from. split.
  - intros (Hk & [l ->] & _). done.
  - intros [Hk Hsub]. destruct (Hwf k v Hk Hsub) as (a & d & h & _ & _ & _ & ->).
    assert (prefix_encode (kp_subspace BlobRef) `prefix_of` blobref_key a d h) as Hp by (by eexists).
    split_and!; [done|done|]. by apply prefix_bytes_le.
Qed.

(** A row of the subspace that the purge may delete: a reservation, or a
    spent count. *)
Definition disposable (m : contents) (k : bytes) : Prop :=
  ∃ v, m !! k = Some v ∧ subspace_of k = Some BlobRef ∧
    (count_spent v = true ∨ ∃ a h, is_u32 a ∧ k = reservation_key a h).

(** What the scan finds: the live reservations, dead reservations, which are
    not counts, and the counts that are spent. *)
Lemma purge_scan now m :
  blobref_wf m →
  ∃ acc, scan (purge_visit now) (blobref_rows m) (mkPurge [] [] []) = Ok acc ∧
    (∀ h, h ≠ [] → h ∈ reserved acc ↔ reserved_at m now h) ∧
    (∀ k, k ∈ dead_reservations acc → known k ∧ (∀ h, k ≠ ref_count_key h) ∧ disposable m k) ∧
    (∀ k h, (k, h) ∈ orphans acc ↔
       h ≠ [] ∧ k = ref_count_key h ∧ ∃ v, m !! k = Some v ∧ count_spent v = true).
Proof.
  intros Hwf. pose proof (λ k v, elem_of_blobref_rows m k v Hwf) as Hrs.
  assert (∀ k v, (k, v) ∈ blobref_rows m →
    ∃ a d h, is_u32 a ∧ h ≠ [] ∧ (d = 0 ∧ a = 0 ∨ d = 1 ∨ d = 2) ∧ k = blobref_key a d h)
    as Hrow by (intros k v [? ?]%Hrs; by eapply Hwf).
  destruct (scan_purge now (blobref_rows m) (mkPurge [] [] [])) as (acc & Escan & Hres & Hdead & Horph).
  simpl in Hres, Hdead, Horph. setoid_rewrite elem_of_nil in Hres.
  setoid_rewrite elem_of_nil in Hdead. setoid_rewrite elem_of_nil in Horph.
  exists acc. split_and!; [done| | |].
  - intros h Hh. rewrite Hres. split.
    + intros [[]|([k v] & Hr & Hin)]. apply adds_reserved_wf in Hin as (a & ? & _ & -> & ? & ?); [|by eapply Hrow].
      apply Hrs in Hr as [? _]. by exists a, v.
    + intros (a & v & ? & Hl' & ? & ?). right. exists (reservation_key a h, v).
      assert ((reservation_key a h, v) ∈ blobref_rows m) as Hr
        by (apply Hrs; split; [done|apply subspace_of_key_encode]).
      split; [done|]. apply adds_reserved_wf; [by eapply Hrow|]. by exists a.
  - intros k [[]|([k' v] & Hr & Hk)]%Hdead.
    apply adds_dead_wf in Hk as (? & ? & -> & Hv); [|by eapply Hrow]. apply Hrs in Hr as [? ?].
    split_and!; [by eexists|done|]. by exists v.
  - intros k h. rewrite Horph. split.
    + intros [[]|([k' v] & Hr & Hin)]. apply adds_orphan_wf in Hin as (h' & ? & [= -> ->] & ? & ?); [|by eapply Hrow].
      apply Hrs in Hr as [? _]. naive_solver.
    + intros (Hh & Hk & v & Hl & Hc). right. exists (k, v).
      assert ((k, v) ∈ blobref_rows m) as Hr by (apply Hrs; split; [done|subst k; apply subspace_of_key_encode]).
      split; [done|]. apply adds_orphan_wf; [by eapply Hrow|]. by exists h.
Qed.

Section purge.
Context {S B : Type} {store : Store S} {contract : StoreSpec S}.
Context {blobs : BlobStore B} {bcontract : BlobSpec B}.
Implicit Types (s : S) (b : B).

(** The three stages composed, as lookups. *)
Lemma purge_orphans_stages now grace s b :
  healthy s → bhealthy b → blobref_wf (view s) →
  ∃ s' b' n os res, purge_orphans now grace (s, b) = (Ok n, (s', b')) ∧ healthy s' ∧ bhealthy b' ∧
    (∀ h, h ≠ [] → h ∈ res ↔ reserved_at (view s) now h) ∧
    (∀ k h, (k, h) ∈ os ↔
       h ≠ [] ∧ k = ref_count_key h ∧ ∃ v, view s !! k = Some v ∧ count_spent v = true) ∧
    (∀ h, view s' !! ref_count_key h =
       if decide (ref_count_key h ∈ (doomed_in now grace res b os).*1) then None
       else view s !! ref_count_key h) ∧
    (∀ h, bview b' !! h = None ↔
       bview b !! h = None ∨ h ∈ (doomed_in now grace res b os).*2 ∨
       ∃ c t, bview b !! h = Some (c, t) ∧ Z.max grace 1 ≤ saturating_sub now t ∧ h ∉ res ∧
              view s !! ref_count_key h = None) ∧
    (∀ h, bview b' !! h = None ∨ bview b' !! h = bview b !! h) ∧
    (∀ k, view s' !! k = view s !! k ∨ view s' !! k = None ∧ disposable (view s) k).
Proof.
  intros Hs Hb Hwf. destruct (purge_scan now (view s) Hwf) as (acc & Escan & Hres & Hd & Hos).
  destruct (delete_keys_spec (dead_reservations acc) s) as (s1 & E1 & Hs1 & Hv1); [done| |].
  { apply Forall_forall. intros k ?. by apply Hd. }
  assert (∀ h, view s1 !! ref_count_key h = view s !! ref_count_key h) as Hcount.
  { intros h. rewrite Hv1, decide_False; [done|]. intros Hin. by eapply (proj1 (proj2 (Hd _ Hin))). }
  destruct (purge_orphan_blobs_spec now grace (reserved acc) (orphans acc) 0 s1 b)
    as (s2 & b2 & n2 & E2 & Hs2 & Hb2 & Hv2 & Hbv2); [done..| |].
  { apply Forall_forall. intros [k h] (_ & -> & _)%Hos. simpl. auto with keys. }
  destruct (blob_list_spec b2 Hb2) as (l & El & Hl).
  destruct (find_stranded_spec now grace (reserved acc) l s2 Hs2) as (hs & Ef & Hhs).
  destruct (delete_blobs_spec hs n2 s2 b2 Hb2) as (b3 & n3 & E3 & Hb3 & Hbv3).
  exists s2, b3, n3, (orphans acc), (reserved acc).
  split_and!; [| done | done | exact Hres | exact Hos | | | |].
  - unfold purge_orphans, mbind, M_bind, reads, on_store. simpl fst. simpl snd.
    rewrite iterate_spec by done. fold (blobref_rows (view s)). rewrite Escan, E1. simpl fst. simpl snd. rewrite E2.
    simpl fst. simpl snd. rewrite El. unfold result_bind. rewrite Ef. exact E3.
  - intros h. by rewrite Hv2, Hcount.
  - intros h. rewrite Hbv3. case_decide as Hin.
    + apply Hhs in Hin as (t & Hlt & Hg & Hnr & Hnone). split; [|done]. intros _.
      apply Hl in Hlt as [c Hc]. rewrite Hbv2 in Hc. case_decide as Hdm; [done|].
      right. right. exists c, t. split_and!; [done..|]. rewrite Hv2, Hcount in Hnone.
      case_decide as Hk; [|done]. exfalso. apply Hdm.
      apply list_elem_of_fmap in Hk as ([k h'] & Ek & Hin'). simpl in Ek.
      apply list_elem_of_fmap. exists (k, h'). split; [|done]. simpl.
      apply list_elem_of_filter in Hin' as [_ (_ & -> & _)%Hos].
      by apply ref_count_key_inj in Ek.
    + rewrite Hbv2. case_decide as Hdm; [naive_solver|]. split; [by left|].
      intros [?|[?|(c & t & Hc & Hg & Hnr & Hnone)]]; [done|done|]. exfalso. apply Hin, Hhs.
      exists t. split_and!; [|done|done|].
      * apply Hl. exists c. rewrite Hbv2. by rewrite decide_False.
      * rewrite Hv2, Hcount, Hnone. by case_decide.
  - intros h. rewrite Hbv3. case_decide; [by left|]. rewrite Hbv2. case_decide; [by left|by right].
  - intros k. rewrite Hv2. case_decide as Hk.
    + right. split; [done|]. apply list_elem_of_fmap in Hk as ([k' h] & -> & Hin). simpl.
      apply list_elem_of_filter in Hin as [_ (_ & -> & v & ? & ?)%Hos]. exists v.
      split_and!; [done|apply subspace_of_key_encode|by left].
    + rewrite Hv1. case_decide as Hk'; [|by left]. right. split; [done|]. apply (Hd _ Hk').
Qed.

(** C30. The purge is exact.  On healthy stores whose BlobRef rows are counts,
    reservations and links, [purge_orphans] succeeds and deletes a stored
    blob if and only if it is purgeable: no live upload reservation, and its
    reference count dropped to zero or absent, and old enough.  Every other
    blob, in particular one with a positive or an unreadable count or one
    reserved by any account, is kept unchanged together with its count. *)
Theorem purge_exact now grace s b h c t :
  healthy s → bhealthy b → blobref_wf (view s) → 0 ≤ grace → h ≠ [] → bview b !! h = Some (c, t) →
  ∃ s' b' n, purge_orphans now grace (s, b) = (Ok n, (s', b')) ∧
    (purgeable (view s) now grace h t → bview b' !! h = None) ∧
    (¬ purgeable (view s) now grace h t →
       bview b' !! h = Some (c, t) ∧ view s' !! ref_count_key h = view s !! ref_count_key h).
Proof.
  intros Hs Hb Hwf Hg Hh Hc.
  destruct (purge_orphans_stages now grace s b) as
    (s' & b' & n & os & res & E & _ & _ & Hres & Hos & Hv & Hbv & Hkeep & _); [done..|].
  assert (∀ h', h' ∈ (doomed_in now grace res b os).*2 ↔
    (∃ k, (k, h') ∈ os) ∧ doomed now grace res b h' = true) as Hdoom.
  { intros h'. rewrite list_elem_of_fmap. unfold doomed_in. setoid_rewrite list_elem_of_filter. split.
    - intros ([k h''] & -> & ? & ?). simpl in *. eauto.
    - intros [[k ?] ?]. by exists (k, h'). }
  assert (bview b' !! h = None ↔ purgeable (view s) now grace h t) as Hiff.
  { rewrite Hbv, Hc, Hdoom. unfold purgeable, doomed. rewrite <-(Hres h Hh), Hc.
    rewrite andb_true_iff, negb_true_iff, bool_decide_eq_false, Z.leb_le. setoid_rewrite Hos. split.
    - intros [?|[[(k & _ & -> & v & ? & ?) [? ?]]|(c' & t' & [= <- <-] & ? & ? & ?)]]; [done| |]; eauto 10.
    - intros [Hnr [(v & Hl & Hsp & Hgr)|[Hnone Hgr]]]; right; [left|right; eauto 10].
      split; [|done]. exists (ref_count_key h). eauto 10. }
  exists s', b', n. split; [done|]. split; [by apply Hiff|]. intros Hnp. split.
  - destruct (Hkeep h) as [Hn|Hk]; [by apply Hiff in Hn|]. by rewrite Hk.
  - rewrite Hv. rewrite decide_False; [done|]. intros Hin. apply Hnp, Hiff, Hbv. right. left.
    apply Hdoom. apply list_elem_of_fmap in Hin as ([k h'] & Ek & Hin). simpl in Ek. subst k.
    apply list_elem_of_filter in Hin as [Hd Hin]. simpl in Hd.
    pose proof (proj1 (Hos _ _) Hin) as (_ & Ek & _).
    apply ref_count_key_inj in Ek as <-. eauto.
Qed.
End purge.

(** ** A blob store in memory, named by content *)

Record MemBlobs : Type := mkBlobs { blob_map : gmap BlobHash (bytes * Z) }.

(** A stand-in for the digest: injective and never empty. *)
Definition mem_digest (raw : bytes) : BlobHash := 1 :: raw.

#[global] Instance MemBlobs_BlobStore : BlobStore MemBlobs := {|
  blob_put raw now b := (Ok (mem_digest raw), mkBlobs (<[mem_digest raw := (raw, now)]> (blob_map b)));
  blob_get_all h b := Ok (fst <$> blob_map b !! h);
  blob_delete h b := (Ok tt, mkBlobs (base.delete h (blob_map b)));
  blob_modified_at h b := Ok (snd <$> blob_map b !! h);
  blob_list b := Ok ((λ kv, (kv.1, kv.2.2)) <$> map_to_list (blob_map b));
|}.

#[global] Program Instance MemBlobs_Spec : BlobSpec MemBlobs := {|
  bview := blob_map;
  bhealthy _ := True;
  digest := mem_digest;
|}.
Solve All Obligations with (intros; simpl; eauto).
Next Obligation.
  intros b _. simpl. eexists. split; [done|]. intros h t. rewrite list_elem_of_fmap. split.
  - intros ([h' [c t']] & [= -> ->] & Hin%elem_of_map_to_list). eauto.
  - intros [c Hc]. exists (h, (c, t)). split; [done|]. by apply elem_of_map_to_list.
Qed.

Lemma purge_exact_witness :
  let w := (store_message [7] 0 (mkMem ∅, mkBlobs {[ mem_digest [8] := ([8], 0) ]})).2 in
  (∃ s' b' n, purge_orphans 7200 3600 w = (Ok n, (s', b')) ∧ bview b' !! mem_digest [7] = Some ([7], 0)) ∧
  (∃ s' b' n, purge_orphans 7200 3600 w = (Ok n, (s', b')) ∧ bview b' !! mem_digest [8] = None).
Proof.
  intros w.
  assert (view w.1 = {[ ref_count_key (mem_digest [7]) := i64_le 1 ]}) as Hw by (by vm_compute).
  assert (blobref_wf (view w.1)) as Hwf.
  { intros k v Hk _. rewrite Hw in Hk. apply lookup_singleton_Some in Hk as [<- _].
    exists 0, 0, (mem_digest [7]). split_and!; [width|done|by left|done]. }
  split.
  - destruct (purge_exact 7200 3600 w.1 w.2 (mem_digest [7]) [7] 0)
      as (s' & b' & n & E & _ & Hk); [exact I|exact I|exact Hwf|lia|done|by vm_compute|].
    exists s', b', n. split; [exact E|]. apply Hk.
    intros [_ [(v & Hv & Hs & _)|[Hn _]]]; [|by vm_compute in Hn].
    assert (view w.1 !! ref_count_key (mem_digest [7]) = Some (i64_le 1)) as Hv' by (by vm_compute).
    rewrite Hv' in Hv. injection Hv as <-. by vm_compute in Hs.
  - destruct (purge_exact 7200 3600 w.1 w.2 (mem_digest [8]) [8] 0)
      as (s' & b' & n & E & Hk & _); [exact I|exact I|exact Hwf|lia|done|by vm_compute|].
    exists s', b', n. split; [exact E|]. apply Hk. split; [|right; split; [by vm_compute|by vm_compute]].
    intros (a & v & _ & Hl & _). rewrite Hw in Hl. apply lookup_singleton_Some in Hl as [E' _].
    apply (f_equal (λ l, nth 9 l 0)) in E'. by vm_compute in E'.
Defined.
