(* ===== verification/MailModel.v ===== *)
(** * Mail: the records (crates/mail/src: message_data.rs, keywords.rs,
      mailbox.rs, provision.rs, metadata.rs, quota_enforce.rs)

    What the mail side keeps of a message and of a mailbox, and the operations
    on those records that need no store but the counters of a mailbox.  The
    file ends with the theorems on keyword names and on the quota verdict. *)

From S2P Require Import Prelude Bytes Key Store Text Quota.
From stdpp Require Import base gmap list strings.
From Stdlib Require Import ZArith Lia.

Open Scope Z_scope.

(** ** message_data.rs *)

Record MailboxUid : Type := mkMailboxUid { mu_mailbox : Z; mu_uid : Z }.
#[global] Instance MailboxUid_eq_dec : EqDecision MailboxUid.
Proof. solve_decision. Defined.

Inductive Keyword : Type :=
  | Seen | Draft | Flagged | Answered | Deleted | Recent | KJunk | NotJunk | Forwarded
  | Custom (name : bytes).
#[global] Instance Keyword_eq_dec : EqDecision Keyword.
Proof. solve_decision. Defined.

Record MessageData : Type := mkData {
  mailboxes : list MailboxUid;
  keywords : list Keyword;
  thread_id : Z;
  msg_size : Z;
  received_at : Z;
  sent_at : Z;
}.
#[global] Instance MessageData_eq_dec : EqDecision MessageData.
Proof. solve_decision. Defined.

Definition data_new (thread_id size : Z) : MessageData := mkData [] [] thread_id size 0 0.

Definition with_mailboxes (l : list MailboxUid) (d : MessageData) : MessageData :=
  mkData l (keywords d) (thread_id d) (msg_size d) (received_at d) (sent_at d).
Definition with_keywords (l : list Keyword) (d : MessageData) : MessageData :=
  mkData (mailboxes d) l (thread_id d) (msg_size d) (received_at d) (sent_at d).

Definition in_mailbox (m : Z) (d : MessageData) : bool := existsb (λ e, mu_mailbox e =? m) (mailboxes d).

(** [MessageData::add_mailbox] and [remove_mailbox]: whether the list changed. *)
Definition add_mailbox (m uid : Z) (d : MessageData) : bool * MessageData :=
  if in_mailbox m d then (false, d) else (true, with_mailboxes (mailboxes d ++ [mkMailboxUid m uid]) d).
Definition remove_mailbox (m : Z) (d : MessageData) : bool * MessageData :=
  let kept := filter (λ e, mu_mailbox e ≠ m) (mailboxes d) in
  (negb (length kept =? length (mailboxes d))%nat, with_mailboxes kept d).
Definition uid_in (m : Z) (d : MessageData) : option Z :=
  mu_uid <$> List.find (λ e, mu_mailbox e =? m) (mailboxes d).

Definition has_keyword (k : Keyword) (d : MessageData) : bool := bool_decide (k ∈ keywords d).
Definition add_keyword (k : Keyword) (d : MessageData) : bool * MessageData :=
  if has_keyword k d then (false, d) else (true, with_keywords (keywords d ++ [k]) d).
Definition remove_keyword (k : Keyword) (d : MessageData) : bool * MessageData :=
  let kept := filter (λ x, x ≠ k) (keywords d) in
  (negb (length kept =? length (keywords d))%nat, with_keywords kept d).

(** ** keywords.rs *)

Definition system_flag (lower : bytes) : option Keyword :=
  if bool_decide (lower = bs "seen") then Some Seen
  else if bool_decide (lower = bs "draft") then Some Draft
  else if bool_decide (lower = bs "flagged") then Some Flagged
  else if bool_decide (lower = bs "answered") then Some Answered
  else if bool_decide (lower = bs "deleted") then Some Deleted
  else if bool_decide (lower = bs "recent") then Some Recent
  else if bool_decide (lower = bs "junk") then Some KJunk
  else if bool_decide (lower = bs "notjunk") then Some NotJunk
  else if bool_decide (lower = bs "forwarded") then Some Forwarded
  else None.
(** [parse_system_flag]: a backslash or a dollar sign, then the name in any case. *)
Definition parse_system_flag (atom : bytes) : option Keyword :=
  match atom with
  | c :: rest => if (c =? 92) || (c =? 36) then system_flag (to_ascii_lowercase rest) else None
  | [] => None
  end.

Definition to_imap (k : Keyword) : bytes :=
  match k with
  | Seen => bs "\Seen" | Draft => bs "\Draft" | Flagged => bs "\Flagged"
  | Answered => bs "\Answered" | Deleted => bs "\Deleted" | Recent => bs "\Recent"
  | KJunk => bs "$Junk" | NotJunk => bs "$NotJunk" | Forwarded => bs "$Forwarded"
  | Custom name => name
  end.
Definition from_imap (atom : bytes) : Keyword := default (Custom atom) (parse_system_flag atom).

Definition to_jmap (k : Keyword) : option bytes :=
  match k with
  | Seen => Some (bs "$seen") | Draft => Some (bs "$draft") | Flagged => Some (bs "$flagged")
  | Answered => Some (bs "$answered") | KJunk => Some (bs "$junk")
  | NotJunk => Some (bs "$notjunk") | Forwarded => Some (bs "$forwarded")
  | Recent | Deleted => None
  | Custom name => Some name
  end.
Definition from_jmap (name : bytes) : Keyword :=
  match parse_system_flag name with
  | Some Recent | Some Deleted | None => Custom name
  | Some system => system
  end.

Definition has_attachment : Keyword := Custom (bs "$hasattachment").
Definition is_system (k : Keyword) : bool := match k with Custom _ => false | _ => true end.

(** ** mailbox.rs *)

Inductive SpecialUse : Type := UseNone | UseInbox | UseSent | UseDrafts | UseTrash | UseJunk | UseArchive.
#[global] Instance SpecialUse_eq_dec : EqDecision SpecialUse.
Proof. solve_decision. Defined.

(** [SpecialUse::attribute]. *)
Definition attribute (u : SpecialUse) : option bytes :=
  match u with
  | UseNone | UseInbox => None
  | UseSent => Some (bs "\Sent") | UseDrafts => Some (bs "\Drafts") | UseTrash => Some (bs "\Trash")
  | UseJunk => Some (bs "\Junk") | UseArchive => Some (bs "\Archive")
  end.

Record Mailbox : Type := mkMailbox { mb_id : Z; mb_name : bytes; mb_role : SpecialUse; mb_uid_validity : Z }.
#[global] Instance Mailbox_eq_dec : EqDecision Mailbox.
Proof. solve_decision. Defined.

Definition FIRST_UID : Z := 1.
Definition assign_uid_validity (created_at_millis : Z) : Z := as_u32 (created_at_millis / 1000).
Definition uid_counter_key (account_id mailbox_id : Z) : bytes :=
  key_encode (key_new Counter account_id Email mailbox_id).

Section counters.
Context {S : Type} `{Store S}.
(** [Mailbox::next_uid] and [last_uid]. *)
Definition next_uid (m : Mailbox) (account_id : Z) : M S Z :=
  next ← st_add_and_get (uid_counter_key account_id (mb_id m)) 1;
  mret (as_u32 (Z.max next FIRST_UID)).
Definition last_uid (m : Mailbox) (account_id : Z) (s : S) : result Z :=
  counter ← st_counter (uid_counter_key account_id (mb_id m)) s;
  Ok (as_u32 (Z.max counter 0)).
End counters.

(** ** provision.rs *)

Definition INBOX_ID : Z := 1.
Definition SENT_ID : Z := 2.
Definition DRAFTS_ID : Z := 3.
Definition TRASH_ID : Z := 4.
Definition SPAM_ID : Z := 5.

Definition provision_mailboxes (created_at_millis : Z) : list Mailbox :=
  let v := assign_uid_validity created_at_millis in
  [mkMailbox INBOX_ID (bs "Inbox") UseInbox v; mkMailbox SENT_ID (bs "Sent") UseSent v;
   mkMailbox DRAFTS_ID (bs "Drafts") UseDrafts v; mkMailbox TRASH_ID (bs "Trash") UseTrash v;
   mkMailbox SPAM_ID (bs "Spam") UseJunk v].

Definition mailbox_key (account_id mailbox_id : Z) : bytes :=
  key_encode (key_new Property account_id Key.Mailbox mailbox_id).

(** serde_json on a mailbox row. *)
Class MailboxJson : Type := {
  mailbox_to_json : Mailbox → bytes;
  mailbox_of_json : bytes → string + Mailbox;
}.
Class MailboxJsonLaws `{MailboxJson} : Prop :=
  mailbox_json_roundtrip m : mailbox_of_json (mailbox_to_json m) = inr m.

Section provision.
Context `{MailboxJson}.

Definition mailbox_ops (account_id : Z) (ms : list Mailbox) : list WriteOp :=
  (λ m, WSet (mailbox_key account_id (mb_id m)) (mailbox_to_json m)) <$> ms.
Definition provision_ops (account_id created_at_millis : Z) : list WriteOp :=
  mailbox_ops account_id (provision_mailboxes created_at_millis).

(** [sort_by_key] on the id, a stable sort. *)
Fixpoint insert_by_id (m : Mailbox) (l : list Mailbox) : list Mailbox :=
  match l with
  | [] => [m]
  | x :: l => if mb_id m <? mb_id x then m :: x :: l else x :: insert_by_id m l
  end.
Definition sort_by_id (l : list Mailbox) : list Mailbox := foldl (λ acc m, insert_by_id m acc) [] l.

(** [load_mailboxes] and its visitor. *)
Definition mailboxes_visit (acc : list Mailbox * option Error) (key value : bytes)
  : result ((list Mailbox * option Error) * Flow) :=
  match mailbox_of_json value with
  | inr m => Ok ((acc.1 ++ [m], acc.2), Continue)
  | inl e => Ok ((acc.1, Some (Serialize ("could not decode mailbox row: " ++ e))), Stop)
  end.
Definition load_mailboxes {S} `{Store S} (account_id : Z) (s : S) : result (list Mailbox) :=
  acc ← st_iterate (kp_collection Property account_id Key.Mailbox) mailboxes_visit ([], None) s;
  match acc.2 with
  | Some e => Err e
  | None => Ok (sort_by_id acc.1)
  end.
End provision.

(** ** metadata.rs *)

Record ByteRange : Type := mkRange { rg_start : Z; rg_end : Z }.
Definition range_len (r : ByteRange) : Z := saturating_sub (rg_end r) (rg_start r).
Definition range_is_empty (r : ByteRange) : bool := rg_end r <=? rg_start r.

Inductive PartEncoding : Type := PeNone | PeBase64 | PeQuotedPrintable | PeUnknown.
Inductive PartBody : Type :=
  | PbText | PbHtml | PbBinary | PbInlineBinary | PbMessage (root : Z) | PbMultipart (children : list Z).
Inductive HeaderName : Type :=
  | HdSubject | HdFrom | HdTo | HdCc | HdBcc | HdReplyTo | HdSender | HdDate | HdMessageId
  | HdInReplyTo | HdReferences | HdReturnPath | HdMimeVersion | HdContentType
  | HdContentTransferEncoding | HdContentDisposition | HdContentId | HdContentDescription
  | HdContentLanguage | HdContentLocation | HdListId | HdListUnsubscribe | HdOther (name : bytes).
Record PartHeader : Type := mkPartHeader { hdr_name : HeaderName; hdr_value : ByteRange }.
Record MessagePart : Type := mkMessagePart {
  mp_headers : list PartHeader; mp_header : ByteRange; mp_body : ByteRange;
  mp_encoding : PartEncoding; mp_kind : PartBody }.
Record MessageMetadata : Type := mkMetadata {
  blob_hash : bytes; parts : list MessagePart; raw_headers : bytes; preview : bytes }.

Definition is_container (p : MessagePart) : bool :=
  match mp_kind p with PbMultipart _ | PbMessage _ => true | _ => false end.
Definition child_indices (p : MessagePart) : list Z :=
  match mp_kind p with PbMultipart children => children | PbMessage root => [root] | _ => [] end.
Definition part (m : MessageMetadata) (index : Z) : option MessagePart := parts m !! Z.to_nat index.
Definition with_blob_hash (h : bytes) (m : MessageMetadata) : MessageMetadata :=
  mkMetadata h (parts m) (raw_headers m) (preview m).

(** ** quota_enforce.rs *)

Definition MESSAGES_PER_DELIVERY : Z := 1.
Inductive QuotaVerdict : Type :=
  | QAccepted
  | OverByteQuota (limit would_use : Z)
  | OverMessageQuota (limit would_use : Z).
Definition is_over_quota (v : QuotaVerdict) : bool := match v with QAccepted => false | _ => true end.

Definition enforce_quota (limits : QuotaLimits) (usage : QuotaUsage) (message_size : Z) : QuotaVerdict :=
  if negb (is_bounded limits) then QAccepted
  else
    let bytes_use := saturating_add_u64 (used_bytes usage) message_size in
    let messages_use := saturating_add_u64 (used_messages usage) MESSAGES_PER_DELIVERY in
    if negb (limit_bytes limits =? 0) && (limit_bytes limits <? bytes_use)
    then OverByteQuota (limit_bytes limits) bytes_use
    else if negb (limit_messages limits =? 0) && (limit_messages limits <? messages_use)
    then OverMessageQuota (limit_messages limits) messages_use
    else QAccepted.

(** ** account.rs, as delivery reads it *)

Record Forwarding : Type := mkForwarding { destinations : list bytes; keep_local_copy : bool }.
Definition forwarding_is_active (f : Forwarding) : bool := negb (bool_decide (destinations f = [])).
Record Account : Type := mkAccount {
  acc_id : Z; acc_created_at : Z; acc_quota_bytes : Z; acc_quota_messages : Z; acc_forwarding : Forwarding }.
(** The account as store keys name it. *)
Definition store_id (a : Account) : Z := as_u32 (acc_id a).
Definition limits_for (a : Account) : QuotaLimits := mkLimits (acc_quota_bytes a) (acc_quota_messages a).

(** ** Theorems *)

(** ** Keyword names *)

(** A keyword whose name, if it is a custom one, is not that of a system flag. *)
Definition canonical (k : Keyword) : Prop :=
  match k with Custom name => parse_system_flag name = None | _ => True end.

Lemma system_flag_canonical lower k : system_flag lower = Some k → canonical k.
Proof. unfold system_flag. repeat case_bool_decide; intros; by simplify_eq. Qed.
Lemma parse_system_flag_canonical atom k : parse_system_flag atom = Some k → canonical k.
Proof. destruct atom as [|c rest]; [done|]. simpl. destruct (_ || _); [apply system_flag_canonical|done]. Qed.

(** Keyword names round-trip.  A canonical keyword is read back from the
    name IMAP is given and from the name JMAP is given; what IMAP reads is
    always canonical, and what JMAP reads is, unless the name is [\Recent] or
    [\Deleted] in some spelling.  Those stay custom keywords under JMAP, and
    their IMAP name is read back as the system flag. *)
Theorem keyword_names_roundtrip :
  (∀ k, canonical k → from_imap (to_imap k) = k ∧ ∀ n, to_jmap k = Some n → from_jmap n = k) ∧
  (∀ atom, canonical (from_imap atom)) ∧
  (∀ name, canonical (from_jmap name) ∨
     from_jmap name = Custom name ∧
     ∃ flag, (flag = Recent ∨ flag = Deleted) ∧ from_imap (to_imap (from_jmap name)) = flag).
Proof.
  split_and!.
  - intros k Hk. destruct k as [| | | | | | | | |name].
    10:{ unfold from_imap, from_jmap. simpl in *. rewrite Hk. split; [done|]. intros n [= <-]. by rewrite Hk. }
    all: split; [by vm_compute|]; intros n [= <-]; by vm_compute.
  - intros atom. unfold from_imap. destruct (parse_system_flag atom) as [k|] eqn:E; simpl; [|done].
    by eapply parse_system_flag_canonical.
  - intros name. unfold from_jmap. destruct (parse_system_flag name) as [k|] eqn:E; [|by left].
    pose proof (parse_system_flag_canonical _ _ E).
    destruct k; try (by left); right; (split; [done|]);
      (eexists; split; [|unfold from_imap; simpl; by rewrite E]); auto.
Qed.
