(* ===== verification/MailMessage.v ===== *)
(** * Mail: reading a message (crates/mail/src: ingest.rs, index.rs,
      threading.rs, forward.rs, sieve_exec.rs)

    The functions of a message's text that delivery uses: the table of its
    parts, the text that is indexed, the ids that thread it, where it is
    forwarded, and what the account's script says.  All of them read the
    message through the MIME parser. *)

From S2P Require Import Prelude Bytes Key Store Text Fts MailParser Sieve MailModel.
From stdpp Require Import base gmap list strings.
From Stdlib Require Import ZArith Lia.

Open Scope Z_scope.

(** ** ingest.rs *)

Definition PREVIEW_LEN : nat := 256.

Definition convert_encoding (e : Encoding) : PartEncoding :=
  match e with EncNone => PeNone | EncBase64 => PeBase64 | EncQuotedPrintable => PeQuotedPrintable end.

Section parsing.
Context `{MailParser}.

Definition convert_header_name (n : ParsedName) : HeaderName :=
  match n with
  | PnStd HnSubject => HdSubject | PnStd HnFrom => HdFrom | PnStd HnTo => HdTo | PnStd HnCc => HdCc
  | PnStd HnBcc => HdBcc | PnStd HnReplyTo => HdReplyTo | PnStd HnSender => HdSender
  | PnStd HnDate => HdDate | PnStd HnMessageId => HdMessageId | PnStd HnInReplyTo => HdInReplyTo
  | PnStd HnReferences => HdReferences | PnStd HnReturnPath => HdReturnPath
  | PnStd HnMimeVersion => HdMimeVersion | PnStd HnContentType => HdContentType
  | PnStd HnContentTransferEncoding => HdContentTransferEncoding
  | PnStd HnContentDisposition => HdContentDisposition | PnStd HnContentId => HdContentId
  | PnStd HnContentDescription => HdContentDescription | PnStd HnContentLanguage => HdContentLanguage
  | PnStd HnContentLocation => HdContentLocation | PnStd HnListId => HdListId
  | PnStd HnListUnsubscribe => HdListUnsubscribe
  | other => HdOther (header_as_str other)
  end.
Definition convert_header (h : ParsedHeader) : PartHeader :=
  mkPartHeader (convert_header_name (ph_name h)) (mkRange (ph_offset_start h) (ph_offset_end h)).

(** [flatten]: a queue of messages, each with the index of its first part.
    One part: what is pushed, the next free index and the message to visit. *)
Definition flat_part (base next_base : Z) (p : ParsedPart) : MessagePart * Z * list (Message * Z) :=
  let '(kind, next_base, more) :=
    match part_body p with
    | PtText => (PbText, next_base, [])
    | PtHtml => (PbHtml, next_base, [])
    | PtBinary => (PbBinary, next_base, [])
    | PtInlineBinary => (PbInlineBinary, next_base, [])
    | PtMessage sub => (PbMessage next_base, as_u32 (next_base + as_u32 (Z.of_nat (length (msg_parts sub)))), [(sub, next_base)])
    | PtMultipart children => (PbMultipart ((λ c, as_u32 (c + base)) <$> children), next_base, [])
    end in
  (mkMessagePart (convert_header <$> part_headers p) (mkRange (part_offset_header p) (part_offset_body p))
     (mkRange (part_offset_body p) (part_offset_end p)) (convert_encoding (part_encoding p)) kind,
   next_base, more).
(** The parts of one message. *)
Fixpoint flat_parts (base next_base : Z) (ps : list ParsedPart) : list MessagePart * Z * list (Message * Z) :=
  match ps with
  | [] => ([], next_base, [])
  | p :: ps =>
      let '(fp, next_base, more) := flat_part base next_base p in
      let '(fps, next_base, more') := flat_parts base next_base ps in
      (fp :: fps, next_base, more ++ more')
  end.
Fixpoint flatten_loop (fuel : nat) (queue : list (Message * Z)) (next_base : Z) : list MessagePart :=
  match fuel, queue with
  | S fuel, (current, base) :: queue =>
      let '(fps, next_base, more) := flat_parts base next_base (msg_parts current) in
      fps ++ flatten_loop fuel (queue ++ more) next_base
  | _, _ => []
  end.
(** How many messages a message holds, itself included: each is visited once. *)
Fixpoint message_count (m : Message) : nat :=
  let 'mkParsed ps := m in S (list_sum (part_count <$> ps))
with part_count (p : ParsedPart) : nat :=
  let 'mkPart _ _ _ _ _ b := p in match b with PtMessage sub => message_count sub | _ => O end.
Definition flatten (m : Message) : list MessagePart :=
  flatten_loop (message_count m) [(m, 0)] (as_u32 (Z.of_nat (length (msg_parts m)))).

Definition message_has_attachment (raw : bytes) : bool :=
  match mp_parse raw with Some parsed => has_attachments parsed | None => false end.

(** [ingest]; the parser's root part is the first. *)
Definition ingest (blob_hash raw : bytes) : result MessageMetadata :=
  parsed ← ok_or (mp_parse raw) (InvalidInput "message has no parseable headers");
  root ← ok_or (head (msg_parts parsed)) (Internal "index out of bounds");
  Ok (mkMetadata blob_hash (flatten parsed)
        (default [] (slice_get raw (part_offset_header root) (part_offset_body root)))
        (default [] (body_preview parsed PREVIEW_LEN))).
End parsing.

(** *** The table of parts is faithful *)

(** What does not depend on where attached messages are placed. *)
Definition shape `{MailParser} (base : Z) (p : ParsedPart) (fp : MessagePart) : Prop :=
  mp_headers fp = convert_header <$> part_headers p ∧
  mp_header fp = mkRange (part_offset_header p) (part_offset_body p) ∧
  mp_body fp = mkRange (part_offset_body p) (part_offset_end p) ∧
  mp_encoding fp = convert_encoding (part_encoding p) ∧
  match part_body p with
  | PtText => mp_kind fp = PbText
  | PtHtml => mp_kind fp = PbHtml
  | PtBinary => mp_kind fp = PbBinary
  | PtInlineBinary => mp_kind fp = PbInlineBinary
  | PtMessage _ => is_container fp = true
  | PtMultipart children => mp_kind fp = PbMultipart ((λ c, base + c) <$> children)
  end.

(** The parts of a message are in the table from [base] on, children and
    attached messages at the indices their parents name. *)
Inductive laid_out `{MailParser} (flat : list MessagePart) : Message → Z → Prop :=
  | laid_out_parts m base :
      0 ≤ base →
      (∀ i p, msg_parts m !! i = Some p →
         ∃ fp, flat !! (Z.to_nat base + i)%nat = Some fp ∧ shape base p fp) →
      (∀ i p sub, msg_parts m !! i = Some p → part_body p = PtMessage sub →
         ∃ fp root, flat !! (Z.to_nat base + i)%nat = Some fp ∧ mp_kind fp = PbMessage root ∧
           laid_out flat sub root) →
      laid_out flat m base.

(** All parts, those of attached messages included. *)
Fixpoint total_parts (m : Message) : Z :=
  let 'mkParsed ps := m in Z.of_nat (length ps) + foldr (λ p, Z.add (attached_parts p)) 0 ps
with attached_parts (p : ParsedPart) : Z :=
  let 'mkPart _ _ _ _ _ b := p in match b with PtMessage sub => total_parts sub | _ => 0 end.
(** The children of a multipart are parts of its message. *)
Fixpoint children_ok (m : Message) : bool :=
  let 'mkParsed ps := m in forallb (part_ok (Z.of_nat (length ps))) ps
with part_ok (n : Z) (p : ParsedPart) : bool :=
  let 'mkPart _ _ _ _ _ b := p in
  match b with
  | PtMultipart children => forallb (λ c, (0 <=? c) && (c <? n)) children
  | PtMessage sub => children_ok sub
  | _ => true
  end.

Section flattening.
Context `{MailParser}.

(** Messages placed one after the other from [n] on. *)
Fixpoint chained (n : Z) (q : list (Message * Z)) : Prop :=
  match q with
  | [] => True
  | (m, b) :: q => b = n ∧ chained (n + Z.of_nat (length (msg_parts m))) q
  end.
Definition chain_length (q : list (Message * Z)) : Z :=
  foldr (λ x, Z.add (Z.of_nat (length (msg_parts x.1)))) 0 q.
Definition chain_total (q : list (Message * Z)) : Z := foldr (λ x, Z.add (total_parts x.1)) 0 q.
Definition chain_count (q : list (Message * Z)) : nat := list_sum ((λ x, message_count x.1) <$> q).

Lemma chained_app n q1 q2 : chained n (q1 ++ q2) ↔ chained n q1 ∧ chained (n + chain_length q1) q2.
Proof.
  revert n. induction q1 as [|[m b] q1 IH]; intros n; cbn [app chained].
  - unfold chain_length. simpl. rewrite Z.add_0_r. tauto.
  - rewrite IH. unfold chain_length. simpl. rewrite Z.add_assoc. tauto.
Qed.
Lemma chain_length_app q1 q2 : chain_length (q1 ++ q2) = chain_length q1 + chain_length q2.
Proof. unfold chain_length. induction q1 as [|x q1 IH]; cbn [app foldr]; [done|]. rewrite IH. lia. Qed.
Lemma chain_total_app q1 q2 : chain_total (q1 ++ q2) = chain_total q1 + chain_total q2.
Proof. unfold chain_total. induction q1 as [|x q1 IH]; cbn [app foldr]; [done|]. rewrite IH. lia. Qed.
Lemma chain_count_app q1 q2 : chain_count (q1 ++ q2) = (chain_count q1 + chain_count q2)%nat.
Proof. unfold chain_count. rewrite fmap_app, list_sum_app. done. Qed.
Lemma attached_parts_nonneg : ∀ p, 0 ≤ attached_parts p.
Proof.
  fix IH 1. intros [hs oh ob oe e [| | | |[ps]|cs]]; simpl; try lia.
  assert (0 ≤ foldr (λ p, Z.add (attached_parts p)) 0 ps).
  { induction ps as [|p ps IHps]; cbn [foldr]; [lia|]. pose proof (IH p). lia. }
  lia.
Qed.

(** What is wrapped to 32 bits does not wrap. *)
Lemma as_u32_small n : 0 ≤ n < 2 ^ 32 → as_u32 n = n.
Proof. intros. unfold as_u32. by rewrite Z.mod_small. Qed.

Definition attached_all (ps : list ParsedPart) : Z := foldr (λ p, Z.add (attached_parts p)) 0 ps.

Lemma total_parts_eq m : total_parts m = Z.of_nat (length (msg_parts m)) + attached_all (msg_parts m).
Proof. by destruct m. Qed.
Lemma message_count_eq m : message_count m = S (list_sum (part_count <$> msg_parts m)).
Proof. by destruct m. Qed.
Lemma length_le_total m : Z.of_nat (length (msg_parts m)) ≤ total_parts m.
Proof.
  rewrite total_parts_eq. assert (0 ≤ attached_all (msg_parts m)); [|lia].
  unfold attached_all. induction (msg_parts m) as [|p ps IH]; cbn [foldr]; [lia|].
  pose proof (attached_parts_nonneg p). lia.
Qed.

Lemma chain_length_le q : chain_length q ≤ chain_total q.
Proof.
  unfold chain_length, chain_total. induction q as [|x q IH]; cbn [foldr]; [done|].
  pose proof (length_le_total x.1). lia.
Qed.

(** Attached messages, placed from [next] on. *)
Definition attached_ok (next : Z) (more : list (Message * Z)) (next' total : Z) (count : nat) : Prop :=
  next' = next + chain_length more ∧ chained next more ∧ chain_total more = total ∧ chain_count more = count ∧
  forallb (λ x, children_ok x.1) more = true.
Lemma attached_ok_app next more1 next1 total1 count1 more2 next2 total2 count2 :
  attached_ok next more1 next1 total1 count1 → attached_ok next1 more2 next2 total2 count2 →
  attached_ok next (more1 ++ more2) next2 (total1 + total2) (count1 + count2).
Proof.
  intros (-> & ? & <- & <- & ?) (-> & ? & <- & <- & ?). unfold attached_ok.
  rewrite chain_length_app, chained_app, chain_total_app, chain_count_app, forallb_app, andb_true_iff.
  split_and!; [lia|done..].
Qed.

Lemma flat_part_spec n base next p fp next' more :
  flat_part base next p = (fp, next', more) →
  0 ≤ base → base + n < 2 ^ 32 → 0 ≤ next → next + attached_parts p < 2 ^ 32 → part_ok n p = true →
  attached_ok next more next' (attached_parts p) (part_count p) ∧ shape base p fp ∧
  ∀ sub, part_body p = PtMessage sub → ∃ root, mp_kind fp = PbMessage root ∧ (sub, root) ∈ more.
Proof.
  destruct p as [hs oh ob oe e b]. unfold flat_part, shape, attached_ok. cbn [part_body part_ok attached_parts part_count].
  intros E Hb Hbn Hn Ht Hok.
  destruct b as [| | | |sub|children]; simplify_eq/=; try (by split_and!; [lia|..]).
  - unfold chain_length, chain_total, chain_count. cbn [foldr fst chained fmap list_fmap list_sum forallb].
    pose proof (length_le_total sub). rewrite (as_u32_small (Z.of_nat _)) by lia. rewrite as_u32_small by lia.
    rewrite Hok. split_and!; try done; try lia.
    intros sub' [= <-]. eexists. split; [done|]. apply list_elem_of_here.
  - split_and!; try done; [lia|]. f_equal. apply list_fmap_ext. intros i c Hc.
    rewrite forallb_forall in Hok. assert (In c children) as Hin by (by eapply list_elem_of_In, list_elem_of_lookup_2).
    apply Hok in Hin. rewrite andb_true_iff, Z.leb_le, Z.ltb_lt in Hin. rewrite as_u32_small; lia.
Qed.

Lemma flat_parts_spec n base ps next fps next' more :
  flat_parts base next ps = (fps, next', more) →
  0 ≤ base → base + n < 2 ^ 32 → 0 ≤ next → next + attached_all ps < 2 ^ 32 → forallb (part_ok n) ps = true →
  length fps = length ps ∧ attached_ok next more next' (attached_all ps) (list_sum (part_count <$> ps)) ∧
  ∀ i p, ps !! i = Some p → ∃ fp, fps !! i = Some fp ∧ shape base p fp ∧
    ∀ sub, part_body p = PtMessage sub → ∃ root, mp_kind fp = PbMessage root ∧ (sub, root) ∈ more.
Proof.
  intros E Hb Hbn. revert next fps next' more E. induction ps as [|p ps IH]; intros next fps next' more E Hn Ht Hok.
  { simpl in E. simplify_eq. split; [done|]. split; [|done]. unfold attached_ok, chain_length. simpl.
    split_and!; [lia|done..]. }
  cbn [flat_parts] in E. destruct (flat_part base next p) as [[fp next1] more1] eqn:Ep.
  destruct (flat_parts base next1 ps) as [[fps1 next2] more2] eqn:Eps. simplify_eq.
  cbn [forallb] in Hok. apply andb_true_iff in Hok as [Hokp Hok].
  change (attached_all (p :: ps)) with (attached_parts p + attached_all ps) in Ht |- *.
  assert (0 ≤ attached_all ps) as Hps.
  { pose proof (length_le_total (mkParsed ps)) as Hl. rewrite total_parts_eq in Hl. simpl in Hl. lia. }
  destruct (flat_part_spec n base next p fp next1 more1 Ep) as (Ha1 & Hs & Hsub); [done..|lia|done|].
  pose proof Ha1 as (Hn1 & _ & Ht1 & _). pose proof (chain_length_le more1).
  assert (0 ≤ chain_length more1) by (unfold chain_length; clear; induction more1; cbn [foldr]; lia).
  destruct (IH next1 fps1 next' more2 Eps) as (Hl & Ha2 & Hall); [lia|lia|done|].
  split; [simpl; congruence|]. split; [exact (attached_ok_app _ _ _ _ _ _ _ _ _ Ha1 Ha2)|].
  intros [|i] q Hq; simpl in Hq.
  - simplify_eq. exists fp. split_and!; [done|done|]. intros sub Hm. destruct (Hsub sub Hm) as (r & ? & ?).
    exists r. split; [done|]. apply elem_of_app. by left.
  - destruct (Hall i q Hq) as (fq & ? & ? & Hm). exists fq. split_and!; [done|done|]. intros sub Hq'.
    destruct (Hm sub Hq') as (r & ? & ?). exists r. split; [done|]. apply elem_of_app. by right.
Qed.

(** The loop lays out every message of the queue. *)
Lemma flatten_loop_spec fuel q pre next :
  let n := Z.of_nat (length pre) in
  chained n q → next = n + chain_length q → n + chain_total q < 2 ^ 32 → (chain_count q ≤ fuel)%nat →
  forallb (λ x, children_ok x.1) q = true →
  ∀ m b, (m, b) ∈ q → laid_out (pre ++ flatten_loop fuel q next) m b.
Proof.
  revert q pre next. induction fuel as [|fuel IH]; intros [|[cur base] q] pre next n Hc Hn Ht Hf Hok m b Hin;
    [by apply not_elem_of_nil in Hin| |by apply not_elem_of_nil in Hin|].
  { exfalso. unfold chain_count in Hf. simpl in Hf. rewrite message_count_eq in Hf. lia. }
  destruct Hc as [-> Hc]. cbn [forallb] in Hok. apply andb_true_iff in Hok as [Hok1 Hok]. simpl in Hok1.
  cbn [flatten_loop]. destruct (flat_parts n next (msg_parts cur)) as [[fps next'] more] eqn:E.
  unfold chain_total in Ht. cbn [foldr fst] in Ht. fold (chain_total q) in Ht. rewrite total_parts_eq in Ht.
  unfold chain_length in Hn. cbn [foldr fst] in Hn. fold (chain_length q) in Hn.
  unfold chain_count in Hf. rewrite fmap_cons in Hf. cbn [list_sum foldr fst] in Hf. fold (chain_count q) in Hf.
  rewrite message_count_eq in Hf. pose proof (chain_length_le q).
  assert (0 ≤ chain_length q) by (unfold chain_length; clear; induction q; cbn [foldr]; lia).
  destruct (flat_parts_spec (Z.of_nat (length (msg_parts cur))) n (msg_parts cur) next fps next' more E)
    as (Hl & (Hn' & Hcm & Htm & Hkm & Hokm) & Hall); [lia| |lia|lia|by destruct cur|].
  { pose proof (length_le_total cur) as Hlt. rewrite total_parts_eq in Hlt. lia. }
  rewrite app_assoc.
  assert (∀ m b, (m, b) ∈ q ++ more → laid_out ((pre ++ fps) ++ flatten_loop fuel (q ++ more) next') m b) as IH'.
  { assert (Z.of_nat (length (pre ++ fps)) = n + Z.of_nat (length (msg_parts cur))) as Hpre
      by (rewrite length_app, Hl; lia).
    apply (IH (q ++ more) (pre ++ fps) next'); rewrite ?Hpre, ?chained_app, ?chain_length_app, ?chain_total_app,
      ?chain_count_app, ?forallb_app; [|lia|lia| |by rewrite Hok, Hokm].
    - split; [done|]. by replace (n + Z.of_nat (length (msg_parts cur)) + chain_length q) with next by lia.
    - unfold chain_count, list_sum in *. lia. }
  apply elem_of_cons in Hin as [[= -> ->]|Hin]; [|apply IH'; apply elem_of_app; by left].
  assert (∀ i fp, fps !! i = Some fp →
    ((pre ++ fps) ++ flatten_loop fuel (q ++ more) next') !! (Z.to_nat n + i)%nat = Some fp) as Hlook.
  { intros i fp Hi. apply lookup_app_l_Some. rewrite lookup_app_r by lia.
    by replace (Z.to_nat n + i - length pre)%nat with i by lia. }
  constructor; [lia| |].
  - intros i p Hp. destruct (Hall i p Hp) as (fp & ? & ? & _). eauto.
  - intros i p sub Hp Hb. destruct (Hall i p Hp) as (fp & Hfp & _ & Hsub).
    destruct (Hsub sub Hb) as (root & ? & ?). exists fp, root. split_and!; [by apply Hlook|done|].
    apply IH', elem_of_app. by right.
Qed.
End flattening.

Lemma flatten_laid_out `{MailParser} m :
  total_parts m < 2 ^ 32 → children_ok m = true → laid_out (flatten m) m 0.
Proof.
  intros Ht Hok. unfold flatten. pose proof (length_le_total m).
  apply (flatten_loop_spec _ [(m, 0)] [] _); simpl.
  - done.
  - unfold chain_length. simpl. rewrite as_u32_small by lia. lia.
  - unfold chain_total. simpl. lia.
  - unfold chain_count. simpl. lia.
  - by rewrite Hok.
  - apply list_elem_of_here.
Qed.

(** The table of parts a message is stored with is faithful: every part
    of the message and of the messages attached to it, at any depth, has its
    row, with the same headers, offsets and encoding, and the indices in the
    table lead from a multipart to its children and from an attached message
    to its parts. *)
Theorem flatten_faithful `{MailParser} m :
  total_parts m < 2 ^ 32 → children_ok m = true → laid_out (flatten m) m 0.
Proof. apply flatten_laid_out. Qed.

(** ** index.rs, the text of a message *)

Record MessageText : Type := mkText {
  tx_subject : bytes; tx_body : bytes; tx_from : bytes; tx_to : bytes; tx_cc : bytes; tx_bcc : bytes }.
Definition empty_text : MessageText := mkText [] [] [] [] [] [].

(** [MessageText::fields], [spans], [is_empty] and [entries]. *)
Definition fields (t : MessageText) : list (Field * bytes) :=
  [(Fts.Subject, tx_subject t); (Fts.Body, tx_body t); (Fts.From, tx_from t); (Fts.To, tx_to t);
   (Fts.Cc, tx_cc t); (Fts.Bcc, tx_bcc t)].
Definition spans (t : MessageText) : list bytes := filter (λ s, s ≠ []) (fields t).*2.
Definition text_is_empty (t : MessageText) : bool := forallb (λ x, bool_decide (x.2 = [])) (fields t).
Definition entries (t : MessageText) : list (Field * bytes) :=
  ((λ s, (Fts.Combined, s)) <$> spans t) ++ filter (λ x, x.2 ≠ []) (fields t).

Definition push_with_space (out text : bytes) : bytes :=
  (if bool_decide (out = []) then [] else out ++ [32]) ++ text.
Definition push_address (out : bytes) (a : Addr) : bytes :=
  let out := match addr_name a with Some name => push_with_space out name | None => out end in
  match addr_address a with Some value => push_with_space out value | None => out end.
(** [addresses]. *)
Definition addresses (o : option (list Addr)) : bytes :=
  match o with Some l => foldl push_address [] l | None => [] end.
(** The loop over the text bodies. *)
Definition push_body (body : bytes) (o : option bytes) : bytes :=
  match o with
  | Some text => (if bool_decide (body = []) then [] else body ++ [10]) ++ text
  | None => body
  end.

Section text.
Context `{MailParser}.

Definition gather (m : Message) : MessageText :=
  mkText (default [] (msg_subject m)) (foldl push_body [] (text_bodies m)) (addresses (msg_from m))
    (addresses (msg_to m)) (addresses (msg_cc m)) (addresses (msg_bcc m)).
Definition message_text (raw : bytes) : result MessageText :=
  parsed ← ok_or (mp_parse raw) (InvalidInput "message has no parseable headers"); Ok (gather parsed).
Definition message_sender (raw : bytes) : bytes :=
  match mp_parse raw with
  | None => []
  | Some parsed =>
      match msg_from parsed ≫= head with
      | None => []
      | Some first =>
          let named := match addr_name first with
                       | Some name => if bool_decide (name = []) then None else Some name
                       | None => None
                       end in
          default [] (match named with Some n => Some n | None => addr_address first end)
      end
  end.
Definition message_sent_at (raw : bytes) : Z :=
  match mp_parse raw ≫= msg_date with
  | Some t => if 0 <? t then t else 0
  | None => 0
  end.

(** ** threading.rs, the ids of a message *)

Definition MAX_REFERENCES : nat := 20.
(** The closure [push]: without the angle brackets, no duplicates, at most twenty. *)
Definition bare_id (id : bytes) : bytes :=
  let id := drop_while (Z.eqb 60) (str_trim id) in
  str_trim (reverse (drop_while (Z.eqb 62) (reverse id))).
Definition push_id (ids : list bytes) (id : bytes) : list bytes :=
  let id := bare_id id in
  if negb (bool_decide (id = [])) && (length ids <? MAX_REFERENCES)%nat && negb (bool_decide (id ∈ ids))
  then ids ++ [id] else ids.
(** [collect]: the ids of a header value. *)
Definition collect (v : HeaderValue) : list bytes :=
  match v with HvText id => [id] | HvTextList l => l | _ => [] end.
Definition message_ids (raw : bytes) : list bytes :=
  match mp_parse raw with
  | None => []
  | Some parsed =>
      let refs := match references parsed with HvTextList l => reverse l | other => collect other end in
      foldl push_id [] (collect (in_reply_to parsed) ++ refs
        ++ match msg_message_id parsed with Some id => [id] | None => [] end)
  end.

(** ** forward.rs *)

Definition DELIVERED_TO : bytes := bs "Delivered-To".
Record ForwardRelay : Type := mkRelay { fr_mail_from : bytes; fr_rcpt_to : bytes; fr_message : bytes }.
Record ForwardPlan : Type := mkPlan { plan_relays : list ForwardRelay; plan_keep_local : bool }.

Definition delivered_to_addresses (raw : bytes) : list bytes :=
  match mp_parse raw with
  | None => []
  | Some parsed =>
      msg_headers parsed ≫= λ h,
        match ph_name h with
        | PnOther name =>
            if eq_ignore_ascii_case name DELIVERED_TO then
              let value := to_ascii_lowercase (str_trim (default [] (value_as_text (ph_value h)))) in
              if bool_decide (value = []) then [] else [value]
            else []
        | _ => []
        end
  end.
Definition collapse_folding (value : bytes) : bytes := (λ b, if (b =? 13) || (b =? 10) then 32 else b) <$> value.
Definition prepend_delivered_to (delivered_to_lower raw : bytes) : bytes :=
  DELIVERED_TO ++ bs ": " ++ collapse_folding delivered_to_lower ++ CRLF ++ raw.

(** The loop of [forward_to] over the destinations. *)
Fixpoint relays_for (already : list bytes) (own mail_from message : bytes) (seen : list bytes)
    (ds : list bytes) : list ForwardRelay :=
  match ds with
  | [] => []
  | d :: ds =>
      let rcpt := to_ascii_lowercase (str_trim d) in
      if bool_decide (rcpt = []) then relays_for already own mail_from message seen ds
      else if bool_decide (rcpt = own) || bool_decide (rcpt ∈ already) || bool_decide (rcpt ∈ seen)
      then relays_for already own mail_from message seen ds
      else mkRelay mail_from rcpt message :: relays_for already own mail_from message (seen ++ [rcpt]) ds
  end.
Definition forward_to (ds : list bytes) (delivered_to mail_from raw : bytes) : list ForwardRelay :=
  let own := to_ascii_lowercase (str_trim delivered_to) in
  relays_for (delivered_to_addresses raw) own mail_from (prepend_delivered_to own raw) [] ds.
Definition plan_forward (f : Forwarding) (delivered_to mail_from raw : bytes) : ForwardPlan :=
  if negb (forwarding_is_active f) then mkPlan [] true
  else
    let relays := forward_to (destinations f) delivered_to mail_from raw in
    mkPlan relays (keep_local_copy f || bool_decide (relays = [])).

(** ** sieve_exec.rs *)

Record SieveOutcome : Type := mkOutcome {
  so_keep : bool; so_discarded : bool; so_file_into : list bytes; so_redirects : list bytes;
  so_flags : list Keyword }.
Definition push_flag (flags : list Keyword) (flag : bytes) : list Keyword :=
  let k := from_imap flag in if bool_decide (k ∈ flags) then flags else flags ++ [k].
Definition execute_sieve (script : Script) (raw mail_from recipient : bytes) : SieveOutcome :=
  let o := execute script raw (mkEnvelope mail_from recipient) default_limits in
  mkOutcome (Sieve.keep o) (Sieve.discarded o) (Sieve.file_into o) (Sieve.redirects o)
    (foldl push_flag [] (Sieve.flags o)).
End text.
