(* ===== verification/MailStore.v ===== *)
(** * Mail: the store side (crates/mail/src: read.rs, threading.rs, index.rs,
      deliver.rs; the notices of crates/store/src/notify.rs)

    How messages are filed, changed and removed.  The state is the store, the
    blob store and the notices sent so far; every operation is the code's
    sequence of reads, counter increments and one batch. *)

From S2P Require Import Prelude Bytes Key Store ChangeLog Quota Text Fts Blobs MailParser Sieve MailModel MailMessage.
From stdpp Require Import base gmap list strings.
From Stdlib Require Import ZArith Lia.

Open Scope Z_scope.

(** ** State *)

(** [ChangeNotice] and [NewMailNotice], in the order they are sent. *)
Inductive Notice : Type :=
  | ChangeNotice (account_id : Z) (c : Collection) (change_id : Z)
  | NewMailNotice (account_id document_id mailbox_id : Z) (sender subject : bytes).

Record MailWorld (S B : Type) : Type := mkWorld { mw_store : S; mw_blobs : B; mw_notices : list Notice }.
Arguments mkWorld {S B} _ _ _.
Arguments mw_store {S B} _.
Arguments mw_blobs {S B} _.
Arguments mw_notices {S B} _.

Section lifting.
Context {S B : Type}.
Definition in_store {A} (m : M S A) : M (MailWorld S B) A := λ w,
  let '(r, s) := m (mw_store w) in (r, mkWorld s (mw_blobs w) (mw_notices w)).
Definition in_blobs {A} (m : M B A) : M (MailWorld S B) A := λ w,
  let '(r, b) := m (mw_blobs w) in (r, mkWorld (mw_store w) b (mw_notices w)).
Definition ask_store {A} (f : S → result A) : M (MailWorld S B) A := λ w, (f (mw_store w), w).
Definition ask_blobs {A} (f : B → result A) : M (MailWorld S B) A := λ w, (f (mw_blobs w), w).
Definition notify (n : Notice) : M (MailWorld S B) unit := λ w,
  (Ok tt, mkWorld (mw_store w) (mw_blobs w) (mw_notices w ++ [n])).
End lifting.

(** The archive library on the two records of a message, and the digest
    thread entries are keyed with. *)
Class MailCodec : Type := {
  archive_data : MessageData → result bytes;
  deserialize_data : bytes → result MessageData;
  archive_metadata : MessageMetadata → result bytes;
  deserialize_metadata : bytes → result MessageMetadata;
  blake3 : bytes → bytes;
}.
Class MailCodecLaws `{MailCodec} : Prop := {
  archive_data_ok d : is_ok (archive_data d) = true;
  data_roundtrip d b : archive_data d = Ok b → deserialize_data b = Ok d;
  archive_metadata_ok m : is_ok (archive_metadata m) = true;
  metadata_roundtrip m b : archive_metadata m = Ok b → deserialize_metadata b = Ok m;
}.

(** ** Keys *)

Definition METADATA_SUFFIX : Z := 109.
Definition data_key (account_id document_id : Z) : bytes :=
  key_encode (key_new Property account_id Email document_id).
Definition metadata_key (account_id document_id : Z) : bytes :=
  key_encode (with_suffix (key_new Property account_id Email document_id) [METADATA_SUFFIX]).
Definition document_counter_key (account_id : Z) : bytes :=
  key_encode (key_new Counter account_id Email 0).

Section operations.
Context {S B R : Type} `{Store S} `{BlobStore B} `{Bitmap R} `{Unicode} `{MailParser} `{MailCodec} `{MailboxJson}.
Abbreviation W := (MailWorld S B).
Implicit Types (account_id document_id : Z).

(** ** threading.rs *)

Definition thread_key account_id (message_id : bytes) : bytes :=
  key_encode (with_suffix (key_new Property account_id Key.Thread 0) (116 :: take 16 (blake3 message_id))).
(** [lookup]: four bytes, big-endian; anything else is no thread. *)
Definition thread_lookup account_id (message_id : bytes) (s : S) : result (option Z) :=
  v ← st_get (thread_key account_id message_id) s;
  Ok (v ← v; if (length v =? 4)%nat then Some (of_be_bytes v) else None).
Fixpoint thread_lookups account_id (ids : list bytes) (s : S) : result (list (option Z)) :=
  match ids with
  | [] => Ok []
  | id :: ids => found ← thread_lookup account_id id s; rest ← thread_lookups account_id ids s; Ok (found :: rest)
  end.
Definition first_some (l : list (option Z)) : option Z := head (omap id l).
Record ThreadResolution : Type := mkResolution { tr_thread_id : Z; tr_ops : list WriteOp }.
Definition resolve_thread account_id document_id (raw : bytes) (s : S) : result ThreadResolution :=
  let ids := message_ids raw in
  lookups ← thread_lookups account_id ids s;
  let thread_id := default document_id (first_some lookups) in
  Ok (mkResolution thread_id
        ((λ x, WSet (thread_key account_id x.1) (u32_be thread_id))
           <$> filter (λ x, x.2 = None) (zip ids lookups))).

(** ** index.rs *)

Definition mail_index_ops account_id document_id (t : MessageText) (s : S) : result (list WriteOp) :=
  Fts.index_ops account_id Email document_id (entries t) s.
Definition mail_unindex_ops account_id document_id (t : MessageText) (s : S) : result (list WriteOp) :=
  Fts.remove_ops account_id Email document_id (entries t) s.
(** [write]. *)
Definition write_index (ops : S → result (list WriteOp)) : M S unit :=
  ops ← reads ops;
  match ops return M S unit with [] => mret tt | _ => st_batch ops end.
Definition index_text account_id document_id (t : MessageText) : M S unit :=
  write_index (mail_index_ops account_id document_id t).
Definition index_message account_id document_id (raw : bytes) : M S unit :=
  t ← lift (message_text raw); index_text account_id document_id t.
Definition unindex_message account_id document_id (raw : bytes) : M S unit :=
  t ← lift (message_text raw); write_index (mail_unindex_ops account_id document_id t).

(** [document_ids]: the keys of the data records. *)
Definition DATA_KEY_LEN : nat := 10.
Definition document_ids_visit (acc : list Z) (key value : bytes) : result (list Z * Flow) :=
  Ok (if (length key =? DATA_KEY_LEN)%nat then acc ++ [of_be_bytes (drop 6 key)] else acc, Continue).
Definition document_ids account_id (s : S) : result (list Z) :=
  st_iterate (kp_collection Property account_id Email) document_ids_visit [] s.

(** ** read.rs *)

Definition allocate_document_id account_id : M S Z :=
  n ← st_add_and_get (document_counter_key account_id) 1; mret (as_u32 n).

Definition load_data account_id document_id (s : S) : result (option MessageData) :=
  v ← st_get (data_key account_id document_id) s;
  match v with
  | Some b => d ← deserialize_data b; Ok (Some d)
  | None => Ok None
  end.
Definition load_metadata account_id document_id (s : S) : result (option MessageMetadata) :=
  v ← st_get (metadata_key account_id document_id) s;
  match v with
  | Some b => m ← deserialize_metadata b; Ok (Some m)
  | None => Ok None
  end.
Definition load_raw account_id document_id (w : W) : result (option bytes) :=
  m ← load_metadata account_id document_id (mw_store w);
  match m with
  | Some m => blob_get_all (blob_hash m) (mw_blobs w)
  | None => Ok None
  end.

(** [push_vanished_ops]: one entry per place the message left. *)
Fixpoint vanished_ops account_id (before after : list MailboxUid) : M S (list WriteOp) :=
  match before with
  | [] => mret []
  | e :: before =>
      if bool_decide (e ∈ after) then vanished_ops account_id before after
      else
        x ← record_vanished_op account_id (mu_mailbox e) (mu_uid e);
        rest ← vanished_ops account_id before after;
        mret (x.2 :: rest)
  end.

(** [update_message]. *)
Definition update_message account_id document_id (mutate : MessageData → result MessageData) : M W bool :=
  d ← ask_store (load_data account_id document_id);
  match d return M W bool with
  | None => mret false
  | Some d =>
      d' ← lift (mutate d);
      b ← lift (archive_data d');
      vanished ← in_store (vanished_ops account_id (mailboxes d) (mailboxes d'));
      change ← in_store (record_op account_id Email document_id ChangeLog.Update);
      _ ← in_store (st_batch (WSet (data_key account_id document_id) b :: vanished ++ [change.2]));
      _ ← notify (ChangeNotice account_id Email change.1);
      mret true
  end.

(** [update_messages]: one conditional batch, retried while it loses. *)
Definition UPDATE_RACE_ATTEMPTS : nat := 4.
Record UpdatedMessage : Type := mkUpdated { up_document : Z; up_change : option Z; up_data : MessageData }.
Record update_acc : Type := mkUpdates {
  ua_results : list UpdatedMessage; ua_asserts : list ValueAssert; ua_ops : list WriteOp; ua_changes : list Z }.
Fixpoint plan_updates account_id (mutate : Z → MessageData → result MessageData) (ids : list Z)
    (acc : update_acc) : M S update_acc :=
  match ids with
  | [] => mret acc
  | d :: ids =>
      let key := data_key account_id d in
      v ← reads (st_get key);
      match v return M S update_acc with
      | None => plan_updates account_id mutate ids acc
      | Some original =>
          data ← lift (deserialize_data original);
          data' ← lift (mutate d data);
          updated ← lift (archive_data data');
          if bool_decide (updated = original) then
            plan_updates account_id mutate ids
              (mkUpdates (ua_results acc ++ [mkUpdated d None data']) (ua_asserts acc) (ua_ops acc) (ua_changes acc))
          else
            vanished ← vanished_ops account_id (mailboxes data) (mailboxes data');
            change ← record_op account_id Email d ChangeLog.Update;
            plan_updates account_id mutate ids
              (mkUpdates (ua_results acc ++ [mkUpdated d (Some change.1) data'])
                 (ua_asserts acc ++ [mkAssert key (Some original)])
                 (ua_ops acc ++ WSet key updated :: vanished ++ [change.2])
                 (ua_changes acc ++ [change.1]))
      end
  end.
Fixpoint notify_changes account_id (ids : list Z) : M W unit :=
  match ids with
  | [] => mret tt
  | id :: ids => _ ← notify (ChangeNotice account_id Email id); notify_changes account_id ids
  end.
Fixpoint update_attempts (n : nat) account_id (ids : list Z) (mutate : Z → MessageData → result MessageData)
  : M W (list UpdatedMessage) :=
  match n with
  | O => throw (StoreError "message update kept losing to concurrent writers")
  | Datatypes.S n =>
      acc ← in_store (plan_updates account_id mutate ids (mkUpdates [] [] [] []));
      if bool_decide (ua_ops acc = []) then mret (ua_results acc)
      else
        won ← in_store (st_batch_conditional (ua_asserts acc) (ua_ops acc));
        if (won : bool) then _ ← notify_changes account_id (ua_changes acc); mret (ua_results acc)
        else update_attempts n account_id ids mutate
  end.
Definition update_messages account_id (ids : list Z) (mutate : Z → MessageData → result MessageData)
  : M W (list UpdatedMessage) := update_attempts UPDATE_RACE_ATTEMPTS account_id ids mutate.

(** [delete_message], in two parts: up to the batch, and the batch and after. *)
Definition unindex_ops_of account_id document_id (m : MessageMetadata) (w : W) : result (list WriteOp) :=
  raw ← blob_get_all (blob_hash m) (mw_blobs w);
  match raw with
  | Some raw =>
      match message_text raw with
      | Ok t => mail_unindex_ops account_id document_id t (mw_store w)
      | Err _ => Ok []
      end
  | None => Ok []
  end.
Definition delete_plan account_id document_id
  : M W (option (option MessageMetadata * list WriteOp * Z)) :=
  d ← ask_store (load_data account_id document_id);
  match d return M W _ with
  | None => mret None
  | Some d =>
      metadata ← ask_store (load_metadata account_id document_id);
      first ← match metadata return M W (list WriteOp) with
              | Some m =>
                  ops ← reads (unindex_ops_of account_id document_id m);
                  mret (ops ++ [account_link_op account_id (blob_hash m) (-1)])
              | None => mret []
              end;
      vanished ← in_store (vanished_ops account_id (mailboxes d) []);
      change ← in_store (record_op account_id Email document_id ChangeLog.Delete);
      mret (Some (metadata,
        first ++ [WDelete (data_key account_id document_id); WDelete (metadata_key account_id document_id)]
          ++ adjust_ops account_id (- msg_size d) (-1) ++ vanished ++ [change.2], change.1))
  end.
Definition delete_commit account_id (plan : option MessageMetadata * list WriteOp * Z) : M W unit :=
  let '(metadata, ops, change_id) := plan in
  _ ← in_store (st_batch ops);
  _ ← match metadata return M W unit with
      | Some m => _ ← in_store (release_message (blob_hash m)); mret tt
      | None => mret tt
      end;
  notify (ChangeNotice account_id Email change_id).
Definition delete_message account_id document_id : M W bool :=
  plan ← delete_plan account_id document_id;
  match plan return M W bool with
  | None => mret false
  | Some plan => _ ← delete_commit account_id plan; mret true
  end.

(** ** deliver.rs *)

Inductive DeliveryTarget : Type := ToRole (role : SpecialUse) | ToMailbox (id : Z).
Record DeliveryRequest : Type := mkRequest {
  rq_account : Account; rq_mailboxes : list Mailbox; rq_sieve : option Script; rq_mail_from : bytes;
  rq_recipient : bytes; rq_document_id : Z; rq_raw : bytes; rq_target_override : option DeliveryTarget;
  rq_received_at : Z }.
Record DeliveryOutcome : Type := mkDelivery {
  filed_into : list Z; do_flags : list Keyword; do_relays : list ForwardRelay; do_discarded : bool;
  over_quota : option QuotaVerdict }.
Definition was_filed (o : DeliveryOutcome) : bool := negb (bool_decide (filed_into o = [])).

Definition find_inbox (ms : list Mailbox) : result Mailbox :=
  ok_or (List.find (λ m, bool_decide (mb_role m = UseInbox)) ms) (NotFound "account has no inbox to deliver into").
Definition find_role (ms : list Mailbox) (role : SpecialUse) : option Mailbox :=
  List.find (λ m, bool_decide (mb_role m = role)) ms.

(** [resolve_targets]. *)
Definition push_unique (targets : list Mailbox) (m : Mailbox) : list Mailbox :=
  if existsb (λ x, mb_id x =? mb_id m) targets then targets else targets ++ [m].
Definition resolve_targets (sieve : SieveOutcome) (ms : list Mailbox) (inbox : Mailbox) : list Mailbox :=
  let targets := foldl (λ targets folder,
    push_unique targets (default inbox (List.find (λ m, bool_decide (mb_name m = folder)) ms))) []
    (so_file_into sieve) in
  if so_keep sieve || bool_decide (so_file_into sieve = []) then push_unique targets inbox else targets.

(** The places a message goes to, before the quota is looked at. *)
Definition targets_of (rq : DeliveryRequest) (sieve : SieveOutcome) : result (list Mailbox) :=
  inbox ← find_inbox (rq_mailboxes rq);
  Ok (match rq_target_override rq with
      | Some (ToRole role) => [default inbox (find_role (rq_mailboxes rq) role)]
      | Some (ToMailbox id) => [default inbox (List.find (λ m, mb_id m =? id) (rq_mailboxes rq))]
      | None => resolve_targets sieve (rq_mailboxes rq) inbox
      end).

(** A fresh UID in each target. *)
Fixpoint assign_uids account_id (ts : list Mailbox) (d : MessageData) : M S MessageData :=
  match ts with
  | [] => mret d
  | m :: ts =>
      uid ← next_uid m account_id;
      assign_uids account_id ts (add_mailbox (mb_id m) uid d).2
  end.
Definition add_keywords (ks : list Keyword) (d : MessageData) : MessageData :=
  foldl (λ d k, (add_keyword k d).2) d ks.

(** The record of a new message, without its places and flags. *)
Definition new_data (thread_id : Z) (raw : bytes) (received : Z) : MessageData :=
  mkData [] [] thread_id (as_u32 (Z.of_nat (length raw))) received (message_sent_at raw).

(** The writes of a new message, the change log's apart. *)
Definition filing_ops account_id document_id (hash raw meta data : bytes) (thread_ops : list WriteOp)
    (index : list WriteOp) : list WriteOp :=
  [WSet (metadata_key account_id document_id) meta; WSet (data_key account_id document_id) data] ++ thread_ops
    ++ [reference_op hash; account_link_op account_id hash 1]
    ++ adjust_ops account_id (Z.of_nat (length raw)) 1 ++ index.

(** [message_text(raw).unwrap_or_default()]. *)
Definition text_or_empty (raw : bytes) : MessageText :=
  match message_text raw with Ok t => t | Err _ => empty_text end.

(** The end that [deliver] and [append_message] have in common: the records,
    the batch and the notice. *)
Definition commit_message account_id document_id (hash raw : bytes) (metadata : MessageMetadata)
    (data : MessageData) (thread_ops : list WriteOp) : M W unit :=
  meta ← lift (archive_metadata (with_blob_hash hash metadata));
  data_bytes ← lift (archive_data data);
  index ← ask_store (mail_index_ops account_id document_id (text_or_empty raw));
  change ← in_store (record_op account_id Email document_id ChangeLog.Insert);
  _ ← in_store (st_batch (filing_ops account_id document_id hash raw meta data_bytes thread_ops index ++ [change.2]));
  notify (ChangeNotice account_id Email change.1).

(** [deliver] past the decision to file: from the body to the notices. *)
Definition noteworthy (m : Mailbox) : bool :=
  negb (bool_decide (mb_role m ∈ [UseJunk; UseTrash; UseSent; UseDrafts])).
Definition file_message (rq : DeliveryRequest) (metadata : MessageMetadata) (sieve : SieveOutcome)
    (targets : list Mailbox) (relays : list ForwardRelay) (clock : Z) : M W DeliveryOutcome :=
  let account_id := store_id (rq_account rq) in
  let document_id := rq_document_id rq in
  let raw := rq_raw rq in
  hash ← in_blobs (store_blob raw clock);
  threading ← ask_store (resolve_thread account_id document_id raw);
  let data := new_data (tr_thread_id threading) raw (rq_received_at rq) in
  let data := if message_has_attachment raw then (add_keyword has_attachment data).2 else data in
  data ← in_store (assign_uids account_id targets data);
  let data := add_keywords (so_flags sieve) data in
  _ ← commit_message account_id document_id hash raw metadata data (tr_ops threading);
  _ ← match rq_target_override rq, List.find noteworthy targets return M W unit with
      | None, Some m => notify (NewMailNotice account_id document_id (mb_id m) (message_sender raw)
                          (tx_subject (text_or_empty raw)))
      | _, _ => mret tt
      end;
  mret (mkDelivery (mb_id <$> targets) (so_flags sieve) relays false None).

(** [deliver]. *)
Definition no_script : SieveOutcome := mkOutcome true false [] [] [].
Definition script_outcome (rq : DeliveryRequest) : SieveOutcome :=
  match rq_sieve rq with
  | Some script => execute_sieve script (rq_raw rq) (rq_mail_from rq) (rq_recipient rq)
  | None => no_script
  end.
Definition forward_plan (rq : DeliveryRequest) : ForwardPlan :=
  plan_forward (acc_forwarding (rq_account rq)) (rq_recipient rq) (rq_mail_from rq) (rq_raw rq).
Definition deliver (rq : DeliveryRequest) (clock : Z) : M W DeliveryOutcome :=
  let account_id := store_id (rq_account rq) in
  let raw := rq_raw rq in
  metadata ← lift (ingest [] raw);
  let sieve := script_outcome rq in
  let forward := forward_plan rq in
  let relays := forward_to (so_redirects sieve) (rq_recipient rq) (rq_mail_from rq) raw
                  ++ plan_relays forward in
  if so_discarded sieve then mret (mkDelivery [] (so_flags sieve) relays true None)
  else if negb (plan_keep_local forward) then mret (mkDelivery [] (so_flags sieve) relays false None)
  else
    targets ← lift (targets_of rq sieve);
    usage ← ask_store (usage account_id);
    let verdict := enforce_quota (limits_for (rq_account rq)) usage (Z.of_nat (length raw)) in
    if is_over_quota verdict then mret (mkDelivery [] (so_flags sieve) relays false (Some verdict))
    else file_message rq metadata sieve targets relays clock.

(** [append_message]. *)
Record AppendRequest : Type := mkAppend {
  ap_account : Account; ap_mailbox : Mailbox; ap_flags : list Keyword; ap_received_at : Z;
  ap_document_id : Z; ap_raw : bytes }.
Record AppendOutcome : Type := mkAppended { ao_uid : Z; ao_over_quota : bool }.
Definition append_message (rq : AppendRequest) (clock : Z) : M W AppendOutcome :=
  let account_id := store_id (ap_account rq) in
  let document_id := ap_document_id rq in
  let raw := ap_raw rq in
  metadata ← lift (ingest [] raw);
  usage ← ask_store (usage account_id);
  if is_over_quota (enforce_quota (limits_for (ap_account rq)) usage (Z.of_nat (length raw)))
  then mret (mkAppended 0 true)
  else
    hash ← in_blobs (store_blob raw clock);
    uid ← in_store (next_uid (ap_mailbox rq) account_id);
    threading ← ask_store (resolve_thread account_id document_id raw);
    let data := new_data (tr_thread_id threading) raw (ap_received_at rq) in
    let data := add_keywords (ap_flags rq) (add_mailbox (mb_id (ap_mailbox rq)) uid data).2 in
    let data := if message_has_attachment raw then (add_keyword has_attachment data).2 else data in
    _ ← commit_message account_id document_id hash raw metadata data (tr_ops threading);
    mret (mkAppended uid false).
End operations.
