(* ===== verification/MailRep.v ===== *)
(** * Mail: what the store says of an account's messages

    The abstract state of an account is a finite map from document ids to
    stored messages.  [represents] relates it to the contents of the store and
    of the blob store: the two records of each message, the quota counters,
    the references to bodies, the UID counters, the index and the change
    counter all follow from the map. *)

From S2P Require Import Prelude Bytes Key Store ChangeLog Quota Text Fts Blobs MailParser Sieve MailModel MailMessage MailStore.
From stdpp Require Import base gmap list strings.
From Stdlib Require Import ZArith Lia.

Open Scope Z_scope.

(** A message: its two records and its text. *)
Record Stored : Type := mkStored { st_data : MessageData; st_metadata : MessageMetadata; st_raw : bytes }.
Abbreviation maildrop := (gmap Z Stored).

(** What the counters are to show. *)
Definition total_size (docs : maildrop) : Z := map_fold (λ _ x, Z.add (msg_size (st_data x))) 0 docs.
Definition references (docs : maildrop) (h : BlobHash) : Z :=
  map_fold (λ _ x, Z.add (if bool_decide (blob_hash (st_metadata x) = h) then 1 else 0)) 0 docs.
Definition placed (docs : maildrop) (d : Z) (e : MailboxUid) : Prop :=
  ∃ x, docs !! d = Some x ∧ e ∈ mailboxes (st_data x).

Section sums.
Implicit Types docs : maildrop.

Lemma map_fold_add_insert (f : Stored → Z) docs d x :
  docs !! d = None →
  map_fold (λ _ x, Z.add (f x)) 0 (<[d := x]> docs) = f x + map_fold (λ _ x, Z.add (f x)) 0 docs.
Proof. intros Hd. rewrite map_fold_insert_L; [done| |done]. intros; lia. Qed.
Lemma map_fold_add_delete (f : Stored → Z) docs d x :
  docs !! d = Some x →
  map_fold (λ _ x, Z.add (f x)) 0 (base.delete d docs) = map_fold (λ _ x, Z.add (f x)) 0 docs - f x.
Proof.
  intros Hd. pose proof (map_fold_add_insert f (base.delete d docs) d x (lookup_delete_eq _ _)) as H.
  rewrite insert_delete_id in H by done. lia.
Qed.
Lemma map_fold_add_nonneg (f : Stored → Z) docs :
  (∀ d x, docs !! d = Some x → 0 ≤ f x) → 0 ≤ map_fold (λ _ x, Z.add (f x)) 0 docs.
Proof.
  induction docs as [|d x docs Hd IH] using map_ind; intros Hf; [done|].
  rewrite map_fold_add_insert by done. pose proof (Hf d x (lookup_insert_eq _ _ _)).
  assert (0 ≤ map_fold (λ _ x, Z.add (f x)) 0 docs); [|lia]. apply IH. intros d' x' Hd'.
  apply (Hf d'). rewrite lookup_insert_ne; [done|]. intros ->. congruence.
Qed.
Lemma references_pos docs h d x :
  docs !! d = Some x → blob_hash (st_metadata x) = h → 0 < references docs h.
Proof.
  intros Hd Hh. unfold references. rewrite <-(insert_delete_id _ _ _ Hd), map_fold_add_insert by apply lookup_delete_eq.
  rewrite bool_decide_true by done.
  assert (0 ≤ map_fold (λ _ x, Z.add (if bool_decide (blob_hash (st_metadata x) = h) then 1 else 0)) 0
    (base.delete d docs)); [|lia]. apply map_fold_add_nonneg. intros. case_bool_decide; lia.
Qed.
End sums.

(** ** The representation *)

Definition has_term `{Unicode} `{MailParser} (docs : maildrop) (f : Field) (t : bytes) (d : Z) : Prop :=
  ∃ x, docs !! d = Some x ∧ entry_term (entries (text_or_empty (st_raw x))) f t.

Section representation.
Context {S B R : Type} {store : Store S} {contract : StoreSpec S} `{Bitmap R} {laws : BitmapLaws R}.
Context `{BlobStore B} {blob_contract : BlobSpec B}.
Context `{Unicode} `{MailParser} `{MailCodec}.
(** The account, as store keys name it, and the references to bodies that are
    not this account's. *)
Context (a : Z) (others : BlobHash → Z).
Implicit Types (c : contents) (docs : maildrop).

Record represents c (bodies : gmap BlobHash (bytes * Z)) docs : Prop := {
  rep_ids d x : docs !! d = Some x → is_u32 d;
  rep_data d : is_u32 d → (c !! data_key a d) = (docs !! d ≫= λ x, match archive_data (st_data x) with Ok b => Some b | Err _ => None end);
  rep_metadata d : is_u32 d → (c !! metadata_key a d) = (docs !! d ≫= λ x, match archive_metadata (st_metadata x) with Ok b => Some b | Err _ => None end);
  rep_ledger : ledger c a (total_size docs) (Z.of_nat (size docs));
  rep_links h : counter_value (c !! account_link_key a h) = Some (references docs h);
  rep_references h : counter_value (c !! ref_count_key h) = Some (others h + references docs h);
  rep_uids m : is_u32 m → m ≠ 0 →
    ∃ n, counter_value (c !! uid_counter_key a m) = Some n ∧ 0 ≤ n ∧
      ∀ d u, placed docs d (mkMailboxUid m u) → 1 ≤ u ≤ n;
  rep_unique d1 d2 e : placed docs d1 e → placed docs d2 e → d1 = d2;
  rep_places d x : docs !! d = Some x →
    NoDup (mu_mailbox <$> mailboxes (st_data x)) ∧ Forall (λ e, is_u32 (mu_mailbox e) ∧ mu_mailbox e ≠ 0) (mailboxes (st_data x));
  rep_changes : ∃ n, counter_at c a Email n ∧ 0 ≤ n ∧ ∀ d x, docs !! d = Some x → d ≤ n;
  rep_index : indexed (R := R) a Email c (has_term docs);
  rep_bodies d x : docs !! d = Some x → blob_hash (st_metadata x) = digest (st_raw x) ∧
    ∃ t, bodies !! digest (st_raw x) = Some (st_raw x, t);
  rep_sizes d x : docs !! d = Some x → 0 ≤ msg_size (st_data x);
  rep_wf : blobref_wf c;
}.

(** An account without messages, in an empty store. *)
Lemma represents_empty bodies (Ho : ∀ h, others h = 0) : represents ∅ bodies ∅.
Proof.
  split; try done.
  - intros h. by rewrite Ho.
  - intros m _ _. exists 0. split_and!; [done|done|]. by intros d u (x & ? & _).
  - by intros d1 d2 e (x & ? & _).
  - exists 0. by split_and!.
  - intros f t. exists ∅. split; [done|]. intros d. split; [set_solver|]. by intros (x & ? & _).
Qed.

(** The rows a change adds to the references are counts and links. *)
Lemma blobref_wf_frame c c' h :
  is_u32 a → h ≠ [] → blobref_wf c →
  (∀ k, subspace_of k = Some BlobRef → k ≠ ref_count_key h → k ≠ account_link_key a h → c' !! k = c !! k) → blobref_wf c'.
Proof.
  intros Ha Hh Hwf F k v Hk Hsub. destruct (decide (k = ref_count_key h)) as [->|H1'].
  { exists 0, 0, h. split_and!; [width|done|by left|apply ref_count_key_eq]. }
  destruct (decide (k = account_link_key a h)) as [->|H2'].
  { exists a, 2, h. split_and!; [done|done|by right; right|apply account_link_key_eq]. }
  apply (Hwf k v); [|done]. by rewrite <-F.
Qed.

(** ** Keys of different kinds *)

Lemma data_key_inj d d' : is_u32 d → is_u32 d' → data_key a d = data_key a d' → d = d'.
Proof. intros ? ? (_ & _ & _ & E & _)%key_encode_split. by apply u32_be_inj in E. Qed.
Lemma metadata_key_inj d d' : is_u32 d → is_u32 d' → metadata_key a d = metadata_key a d' → d = d'.
Proof. intros ? ? (_ & _ & _ & E & _)%key_encode_split. by apply u32_be_inj in E. Qed.
Lemma uid_key_inj m m' : is_u32 m → is_u32 m' → uid_counter_key a m = uid_counter_key a m' → m = m'.
Proof. intros ? ? (_ & _ & _ & E & _)%key_encode_split. by apply u32_be_inj in E. Qed.
Lemma link_key_inj h h' : account_link_key a h = account_link_key a h' → h = h'.
Proof. by intros (_ & _ & _ & _ & E)%key_encode_split. Qed.
Lemma uid_key_counter m : is_u32 m → m ≠ 0 → uid_counter_key a m ≠ counter_key a Email.
Proof. intros ? Hm (_ & _ & _ & E & _)%key_encode_split. simpl in E. apply u32_be_inj in E; [done|done|unfold CHANGELOG_DOCUMENT_ID; width]. Qed.
End representation.

(** Two keys that differ in their subspace, collection, document or suffix. *)
Ltac keys_differ :=
  let E := fresh in
  intros E; apply key_encode_split in E as (? & ? & ? & ? & ?); simpl in *; 
  first [discriminate|match goal with Hk : key_collection _ = Key.Mailbox |- _ => rewrite Hk in *; simpl in *; discriminate end].

(** A key of the references is none of another subspace. *)
Ltac other_space_in E :=
  apply (f_equal subspace_of) in E;
  match goal with H : subspace_of _ = Some BlobRef |- _ => rewrite H in E; discriminate E end.
Ltac other_space := intros; let E := fresh in intros E; other_space_in E.
