(* ===== verification/MailFile.v ===== *)
(** * Mail: filing a message keeps the account's state (crates/mail/src/deliver.rs)

    What the batch of a delivery does to the contents of the store, and that
    [deliver] and [append_message] add one message to the account. *)

From S2P Require Import Prelude Bytes Key Store ChangeLog Quota Text Fts Blobs MailParser Sieve MailModel MailMessage MailStore MailRep.
From stdpp Require Import base gmap list strings.
From Stdlib Require Import ZArith Lia.

Open Scope Z_scope.

Lemma apply_add c k x n :
  counter_value (c !! k) = Some x → is_i64 (x + n) → apply_ops c [WAdd k n] = Some (<[k := i64_le (x + n)]> c).
Proof. intros Hx Hr. simpl. rewrite Hx. simpl. by rewrite wrapping_add_i64_id. Qed.

(** A batch that only sets cells of one kind. *)
Lemma apply_sets (K : bytes → Prop) c ops :
  Forall (λ op, ∃ k v, op = WSet k v ∧ K k) ops → (∀ k, K k → known k) →
  ∃ c', apply_ops c ops = Some c' ∧ (∀ k, ¬ K k → c' !! k = c !! k) ∧ Forall op_ok ops.
Proof.
  intros Ht Hk. assert (is_Some (apply_ops c ops)) as [c' E].
  { clear -Ht. revert c. induction Ht as [|op ops (k & v & -> & _) _ IH]; intros c; simpl; [eauto|]. apply IH. }
  exists c'. split_and!; [done| |].
  - intros k HK. eapply apply_ops_other; [exact E|]. intros (op & -> & Hop)%list_elem_of_fmap_1.
    rewrite Forall_forall in Ht. by destruct (Ht op Hop) as (k & v & -> & ?).
  - eapply Forall_impl; [exact Ht|]. intros op (k & v & -> & ?). split; [by apply Hk|done].
Qed.

Section filing.
Context {S B R : Type} {store : Store S} {contract : StoreSpec S} `{Bitmap R} {laws : BitmapLaws R}.
Context `{BlobStore B} {blob_contract : BlobSpec B}.
Context `{Unicode} `{MailParser} `{MailCodec}.
Context (a : Z) (Ha : is_u32 a) (others : BlobHash → Z).
Implicit Types (c : contents) (docs : maildrop) (s : S).

Definition thread_write (op : WriteOp) : Prop := ∃ mid v, op = WSet (thread_key a mid) v.

(** The keys the batch of a new message writes, the index and the log apart. *)
Inductive front_key (d : Z) (h : BlobHash) : bytes → Prop :=
  | fk_metadata : front_key d h (metadata_key a d)
  | fk_data : front_key d h (data_key a d)
  | fk_thread mid : front_key d h (thread_key a mid)
  | fk_ref : front_key d h (ref_count_key h)
  | fk_link : front_key d h (account_link_key a h)
  | fk_bytes : front_key d h (bytes_key a)
  | fk_messages : front_key d h (messages_key a).

Lemma front_key_cases d h k :
  front_key d h k →
  k = metadata_key a d ∨ k = data_key a d ∨ (∃ mid, k = thread_key a mid) ∨ k = ref_count_key h ∨
  k = account_link_key a h ∨ k = bytes_key a ∨ k = messages_key a.
Proof. destruct 1; eauto 10. Qed.

(** A key none of the records of a new message has; [tac] settles the kind the
    key is of. *)
Ltac not_front_but tac :=
  let H := fresh in let E := fresh in
  intros H; apply front_key_cases in H as [E|[E|[[? E]|[E|[E|[E|E]]]]]]; first [solve [revert E; keys_differ]|tac E].
Ltac not_front := not_front_but ltac:(fun E => fail).

Lemma apply_threads c threads :
  Forall thread_write threads →
  ∃ c', apply_ops c threads = Some c' ∧ (∀ k, (∀ mid, k ≠ thread_key a mid) → c' !! k = c !! k) ∧ Forall op_ok threads.
Proof.
  intros Ht. destruct (apply_sets (λ k, ∃ mid, k = thread_key a mid) c threads) as (c' & E & F & Hok).
  - eapply Forall_impl; [exact Ht|]. intros op (mid & v & ->). eauto 6.
  - intros k (mid & ->). apply known_key_encode.
  - exists c'. split_and!; [done| |done]. intros k Hk. apply F. intros (mid & ->). by apply (Hk mid).
Qed.

(** The effect of the batch up to the index. *)
Lemma filing_front c d h raw meta data threads b m r l :
  Forall thread_write threads → ledger c a b m → is_i64 (b + Z.of_nat (length raw)) → is_i64 (m + 1) →
  counter_value (c !! ref_count_key h) = Some r → is_i64 (r + 1) →
  counter_value (c !! account_link_key a h) = Some l → is_i64 (l + 1) →
  ∃ c', let ops := filing_ops a d h raw meta data threads [] in
    apply_ops c ops = Some c' ∧ Forall op_ok ops ∧
    c' !! metadata_key a d = Some meta ∧ c' !! data_key a d = Some data ∧
    ledger c' a (b + Z.of_nat (length raw)) (m + 1) ∧
    counter_value (c' !! ref_count_key h) = Some (r + 1) ∧
    counter_value (c' !! account_link_key a h) = Some (l + 1) ∧
    ∀ k, ¬ front_key d h k → c' !! k = c !! k.
Proof.
  intros Hth Hled Hb Hm Hr Hr1 Hl Hl1.
  set (c1 := <[data_key a d := data]> (<[metadata_key a d := meta]> c)).
  destruct (apply_threads c1 threads Hth) as (c2 & E2 & F2 & Ok2).
  assert (∀ k, (∀ mid, k ≠ thread_key a mid) → k ≠ data_key a d → k ≠ metadata_key a d → c2 !! k = c !! k) as K2.
  { intros k ? ? ?. rewrite F2 by done. unfold c1. by rewrite !lookup_insert_ne. }
  set (c3 := <[account_link_key a h := i64_le (l + 1)]> (<[ref_count_key h := i64_le (r + 1)]> c2)).
  assert (∀ k, k ≠ account_link_key a h → k ≠ ref_count_key h → c3 !! k = c2 !! k) as K3.
  { intros k ? ?. unfold c3. by rewrite !lookup_insert_ne. }
  assert (ledger c3 a b m) as Led3.
  { destruct Hled as [Hlb Hlm]. split; (rewrite K3 by keys_differ; rewrite K2; [done|intros; keys_differ|keys_differ..]). }
  destruct (ledger_add c3 a b m _ _ Led3 Hb Hm) as (c4 & E4 & Led4 & F4).
  exists c4. split_and!.
  - unfold filing_ops. rewrite app_nil_r, apply_ops_app. cbn [apply_ops apply_op mbind option_bind].
    fold c1. rewrite apply_ops_app, E2. cbn [mbind option_bind].
    change ([reference_op h; account_link_op a h 1]) with ([reference_op h] ++ [account_link_op a h 1]).
    rewrite <-app_assoc, apply_ops_app. unfold reference_op, account_link_op.
    rewrite (apply_add c2 _ r) by (done || (rewrite K2; [done|intros; keys_differ|keys_differ..])).
    cbn [mbind option_bind]. rewrite apply_ops_app.
    rewrite (apply_add _ _ l) by (done || (rewrite lookup_insert_ne by keys_differ; rewrite K2; [done|intros; keys_differ|keys_differ..])).
    exact E4.
  - unfold filing_ops. rewrite app_nil_r, !Forall_app. split_and!; [|done| |apply adjust_ops_ok].
    + repeat constructor; apply known_key_encode.
    + repeat constructor; try apply known_key_encode; apply mergeable_key_encode; by right.
  - rewrite F4, K3, F2 by (intros; keys_differ). unfold c1. rewrite lookup_insert_ne by keys_differ. apply lookup_insert_eq.
  - rewrite F4, K3, F2 by (intros; keys_differ). apply lookup_insert_eq.
  - done.
  - rewrite F4 by keys_differ. unfold c3. rewrite lookup_insert_ne, lookup_insert_eq by keys_differ. by apply counter_value_i64_le.
  - rewrite F4 by keys_differ. unfold c3. rewrite lookup_insert_eq. by apply counter_value_i64_le.
  - intros k Hk. rewrite F4, K3, K2; [done|..]; intros; intros ->; apply Hk; constructor.
Qed.

(** The effect of the whole batch. *)
Lemma filing_effect c s has d h raw meta data threads t id v b m r l :
  healthy s → indexed (R := R) a Email (view s) has → (∀ f t, c !! term_key a Email f t = view s !! term_key a Email f t) →
  Forall thread_write threads → ledger c a b m → is_i64 (b + Z.of_nat (length raw)) → is_i64 (m + 1) →
  counter_value (c !! ref_count_key h) = Some r → is_i64 (r + 1) →
  counter_value (c !! account_link_key a h) = Some l → is_i64 (l + 1) →
  ∃ index c', mail_index_ops (R := R) a d t s = Ok index ∧
    let ops := filing_ops a d h raw meta data threads index ++ [WSet (entry_key a Email id) v] in
    apply_ops c ops = Some c' ∧ Forall op_ok ops ∧
    c' !! metadata_key a d = Some meta ∧ c' !! data_key a d = Some data ∧
    ledger c' a (b + Z.of_nat (length raw)) (m + 1) ∧
    counter_value (c' !! ref_count_key h) = Some (r + 1) ∧
    counter_value (c' !! account_link_key a h) = Some (l + 1) ∧
    indexed (R := R) a Email c' (λ f x y, has f x y ∨ y = d ∧ entry_term (entries t) f x) ∧
    ∀ k, ¬ front_key d h k → (∀ f x, k ≠ term_key a Email f x) → k ≠ entry_key a Email id → c' !! k = c !! k.
Proof.
  intros Hs Hi Hagree Hth Hled Hb Hm Hr Hr1 Hl Hl1.
  destruct (filing_front c d h raw meta data threads b m r l) as (c1 & E1 & Ok1 & M1 & D1 & Led1 & R1 & L1 & F1); [done..|].
  destruct (index_ops_spec a Email Ha has d (entries t) s c1 Hs Hi) as (index & c2 & Ei & E2 & I2 & F2 & Ok2).
  { intros k (f & x & ->). rewrite F1; [apply Hagree|]. not_front. }
  assert (∀ k, (∀ f x, k ≠ term_key a Email f x) → k ≠ entry_key a Email id →
    <[entry_key a Email id := v]> c2 !! k = c1 !! k) as K.
  { intros k Hk ?. rewrite lookup_insert_ne by done. apply F2. intros (f & x & ->). by apply (Hk f x). }
  exists index, (<[entry_key a Email id := v]> c2). split; [exact Ei|]. cbv zeta.
  assert (filing_ops a d h raw meta data threads index = filing_ops a d h raw meta data threads [] ++ index) as Eo.
  { unfold filing_ops. by rewrite app_nil_r, <-!app_assoc. }
  split_and!.
  - rewrite Eo, <-app_assoc, apply_ops_app, E1. cbn [mbind option_bind]. by rewrite apply_ops_app, E2.
  - rewrite Eo, !Forall_app. split_and!; [done| |repeat constructor; apply known_key_encode].
    eapply Forall_impl; [exact Ok2|]. by intros op [].
  - rewrite K by (intros; keys_differ). done.
  - rewrite K by (intros; keys_differ). done.
  - destruct Led1. split; rewrite K by (intros; keys_differ); done.
  - rewrite K by (intros; keys_differ). done.
  - rewrite K by (intros; keys_differ). done.
  - intros f x. rewrite lookup_insert_ne by keys_differ. apply I2.
  - intros k Hk ? ?. rewrite K by done. by apply F1.
Qed.

(** ** The steps before the batch *)

Lemma thread_lookups_ok s ids : healthy s → ∃ l, thread_lookups a ids s = Ok l ∧ length l = length ids.
Proof.
  intros Hs. induction ids as [|id ids (l & E & Hl)]; [by exists []|].
  eexists (_ :: l). simpl. unfold thread_lookup. rewrite get_spec by (done || apply known_key_encode). simpl.
  rewrite E. simpl. split; [done|]. simpl. congruence.
Qed.
Lemma resolve_thread_ok s d raw :
  healthy s → ∃ r, resolve_thread a d raw s = Ok r ∧ Forall thread_write (tr_ops r).
Proof.
  intros Hs. destruct (thread_lookups_ok s (message_ids raw) Hs) as (l & E & _). unfold resolve_thread. rewrite E. simpl.
  eexists. split; [done|]. simpl. apply Forall_fmap, Forall_true. intros [mid o]. by eexists _, _.
Qed.

(** The mailboxes a message can be filed into. *)
Definition mailbox_ok (m : Mailbox) : Prop := is_u32 (mb_id m) ∧ mb_id m ≠ 0.
(** There is a UID left. *)
Definition uid_left c (m : Mailbox) : Prop :=
  ∃ n, counter_value (c !! uid_counter_key a (mb_id m)) = Some n ∧ 0 ≤ n < U32_MAX.

Lemma next_uid_spec s m n :
  healthy s → counter_value (view s !! uid_counter_key a (mb_id m)) = Some n → 0 ≤ n < U32_MAX →
  ∃ s', next_uid m a s = (Ok (n + 1), s') ∧ healthy s' ∧
    view s' = <[uid_counter_key a (mb_id m) := i64_le (n + 1)]> (view s).
Proof.
  intros Hs Hn Hr. destruct (add_and_get_spec (uid_counter_key a (mb_id m)) 1 s n Hs) as (s' & E & Hs' & Hv);
    [apply mergeable_key_encode; by left|done|].
  rewrite wrapping_add_i64_id in * by width. exists s'. unfold next_uid, mbind, M_bind. rewrite E.
  split_and!; [|done|done]. unfold mret, M_ret, FIRST_UID. rewrite Z.max_l by lia.
  rewrite as_u32_small by width. done.
Qed.

(** Each target's counter goes up by one, and the message gets that UID. *)
Lemma assign_uids_spec ts d s :
  healthy s → NoDup (mb_id <$> ts) → Forall mailbox_ok ts → Forall (uid_left (view s)) ts →
  (∀ m, m ∈ ts → in_mailbox (mb_id m) d = false) →
  ∃ us s', assign_uids a ts d s = (Ok (with_mailboxes (mailboxes d ++ zip_with mkMailboxUid (mb_id <$> ts) us) d), s') ∧
    healthy s' ∧ length us = length ts ∧
    (∀ i m u, ts !! i = Some m → us !! i = Some u →
       counter_value (view s !! uid_counter_key a (mb_id m)) = Some (u - 1) ∧ 1 ≤ u ∧
       counter_value (view s' !! uid_counter_key a (mb_id m)) = Some u) ∧
    (∀ k, (∀ m, m ∈ ts → k ≠ uid_counter_key a (mb_id m)) → view s' !! k = view s !! k).
Proof.
  revert d s. induction ts as [|m ts IH]; intros d s Hs Hnd Hok Hleft Hin.
  { exists [], s. simpl. rewrite app_nil_r. split_and!; try done. by destruct d. }
  inversion Hnd as [|? ? Hni Hnd']; subst. inversion Hok as [|? ? [Hm Hm0] Hok']; subst.
  inversion Hleft as [|? ? (n & Hn & Hr) Hleft']; subst.
  destruct (next_uid_spec s m n Hs Hn Hr) as (s1 & E1 & Hs1 & Hv1).
  assert (∀ m', m' ∈ ts → uid_counter_key a (mb_id m') ≠ uid_counter_key a (mb_id m)) as Hne.
  { intros m' Hm' E. rewrite Forall_forall in Hok'. apply uid_key_inj in E; [|by apply Hok'|done].
    apply Hni. rewrite <-E. by apply list_elem_of_fmap_2. }
  set (e := mkMailboxUid (mb_id m) (n + 1)). set (d1 := with_mailboxes (mailboxes d ++ [e]) d).
  assert ((add_mailbox (mb_id m) (n + 1) d).2 = d1) as Ed.
  { unfold add_mailbox. by rewrite Hin by apply list_elem_of_here. }
  destruct (IH d1 s1) as (us & s2 & E2 & Hs2 & Hl & Hus & Hframe); [done|done|done| | |].
  - rewrite Forall_forall in *. intros m' Hm'. destruct (Hleft' m' Hm') as (n' & ? & ?). exists n'.
    rewrite Hv1, lookup_insert_ne by (apply not_eq_sym; auto). done.
  - intros m' Hm'. unfold d1, in_mailbox. simpl. rewrite existsb_app. simpl.
    pose proof (Hin m' ltac:(by apply list_elem_of_further)) as Hf. unfold in_mailbox in Hf. rewrite Hf. simpl.
    rewrite orb_false_r. apply Z.eqb_neq. intros E. apply (Hne m' Hm'). by rewrite E.
  - exists ((n + 1) :: us), s2. simpl. unfold mbind, M_bind. rewrite E1, Ed. rewrite E2. unfold d1. simpl.
    rewrite <-app_assoc. split_and!; [done|done|congruence| |].
    + intros [|i] m' u Hm' Hu; simpl in Hm', Hu; simplify_eq.
      * split_and!; [by replace (n + 1 - 1) with n by lia|lia|].
        rewrite Hframe by (intros m'' Hm''; apply not_eq_sym; auto). rewrite Hv1, lookup_insert_eq.
        apply counter_value_i64_le. width.
      * destruct (Hus i m' u Hm' Hu) as (Hc & ? & ?). split_and!; [|done|done].
        rewrite Hv1, lookup_insert_ne in Hc; [done|]. apply not_eq_sym, Hne. by eapply list_elem_of_lookup_2.
    + intros k Hk. rewrite Hframe by (intros; apply Hk; by apply list_elem_of_further).
      rewrite Hv1, lookup_insert_ne; [done|]. apply not_eq_sym, Hk, list_elem_of_here.
Qed.

(** ** The account after a message was filed *)

(** What filing did to the contents, in terms of the account's state. *)
Record filed_in c c' docs (d : Z) (x : Stored) : Prop := {
  fi_metadata : ∃ b, archive_metadata (st_metadata x) = Ok b ∧ c' !! metadata_key a d = Some b;
  fi_data : ∃ b, archive_data (st_data x) = Ok b ∧ c' !! data_key a d = Some b;
  fi_ledger : ledger c' a (total_size docs + msg_size (st_data x)) (Z.of_nat (size docs) + 1);
  fi_ref h : counter_value (c' !! ref_count_key h)
    = Some (others h + references docs h + if bool_decide (blob_hash (st_metadata x) = h) then 1 else 0);
  fi_link h : counter_value (c' !! account_link_key a h)
    = Some (references docs h + if bool_decide (blob_hash (st_metadata x) = h) then 1 else 0);
  fi_index : indexed (R := R) a Email c' (λ f t y, has_term docs f t y ∨ y = d ∧ entry_term (entries (text_or_empty (st_raw x))) f t);
  fi_changes : ∃ n n', counter_at c a Email n ∧ counter_at c' a Email n' ∧ n ≤ n' ∧ d ≤ n';
  fi_wf : blobref_wf c';
  fi_placed e : e ∈ mailboxes (st_data x) →
    is_u32 (mu_mailbox e) ∧ mu_mailbox e ≠ 0 ∧ 1 ≤ mu_uid e ∧
    counter_value (c !! uid_counter_key a (mu_mailbox e)) = Some (mu_uid e - 1) ∧
    counter_value (c' !! uid_counter_key a (mu_mailbox e)) = Some (mu_uid e);
  fi_once : NoDup (mu_mailbox <$> mailboxes (st_data x));
  fi_uids m : is_u32 m → m ≠ 0 → m ∉ mu_mailbox <$> mailboxes (st_data x) →
    c' !! uid_counter_key a m = c !! uid_counter_key a m;
  fi_others d' : is_u32 d' → d' ≠ d →
    c' !! data_key a d' = c !! data_key a d' ∧ c' !! metadata_key a d' = c !! metadata_key a d';
}.

Lemma placed_insert docs d x d' e :
  placed (<[d := x]> docs) d' e → docs !! d = None → d' = d ∧ e ∈ mailboxes (st_data x) ∨ d' ≠ d ∧ placed docs d' e.
Proof.
  intros (y & Hy & He) Hd. apply lookup_insert_Some in Hy as [[<- <-]|[Hne Hy]]; [by left|].
  right. split; [done|]. by exists y.
Qed.

(** A message is in a mailbox under one UID. *)
Lemma one_uid x e e' :
  NoDup (mu_mailbox <$> mailboxes (st_data x)) → e ∈ mailboxes (st_data x) → e' ∈ mailboxes (st_data x) →
  mu_mailbox e = mu_mailbox e' → e = e'.
Proof.
  intros Hnd [i Hi]%list_elem_of_lookup [j Hj]%list_elem_of_lookup E.
  assert (i = j) as <-; [|congruence].
  eapply (NoDup_lookup _ _ _ (mu_mailbox e) Hnd); rewrite list_lookup_fmap; [by rewrite Hi|by rewrite Hj, E].
Qed.

(** The places of the new message are new. *)
Lemma filed_fresh c c' bodies docs d x d' e :
  represents (R := R) a others c bodies docs → filed_in c c' docs d x →
  e ∈ mailboxes (st_data x) → placed docs d' e → False.
Proof.
  intros Hrep Hf He Hp. destruct (fi_placed _ _ _ _ _ Hf e He) as (Hm & Hm0 & _ & Hc & _).
  destruct (rep_uids _ _ _ _ _ Hrep _ Hm Hm0) as (n & Hn & _ & Hall). rewrite Hc in Hn. simplify_eq.
  destruct e as [m u]. apply Hall in Hp. simpl in *. lia.
Qed.

Lemma uids_filed c c' bodies docs d x m :
  represents (R := R) a others c bodies docs → docs !! d = None → filed_in c c' docs d x → is_u32 m → m ≠ 0 →
  ∃ n, counter_value (c' !! uid_counter_key a m) = Some n ∧ 0 ≤ n ∧
    ∀ d' u, placed (<[d := x]> docs) d' (mkMailboxUid m u) → 1 ≤ u ≤ n.
Proof.
  intros Hrep Hd Hf Hm Hm0. destruct (rep_uids _ _ _ _ _ Hrep m Hm Hm0) as (n & Hn & Hn0 & Hp).
  destruct (decide (m ∈ mu_mailbox <$> mailboxes (st_data x))) as [(e & -> & He)%list_elem_of_fmap_1|Hni].
  - destruct (fi_placed _ _ _ _ _ Hf e He) as (_ & _ & H1' & Hc & Hc'). rewrite Hc in Hn. simplify_eq.
    exists (mu_uid e). split_and!; [done|lia|]. intros d' u [[-> Hx]|[_ Hx]]%placed_insert; [| |done].
    + pose proof (one_uid x _ e (fi_once _ _ _ _ _ Hf) Hx He eq_refl) as E. rewrite <-E. simpl.
      rewrite <-E in H1'. simpl in H1'. lia.
    + apply Hp in Hx. lia.
  - rewrite (fi_uids _ _ _ _ _ Hf) by done. exists n. split_and!; [done|done|].
    intros d' u [[-> Hx]|[_ Hx]]%placed_insert; [|by eapply Hp|done]. exfalso. apply Hni.
    exact (list_elem_of_fmap_2 mu_mailbox _ _ Hx).
Qed.

Lemma represents_filed c c' bodies docs d x clock :
  Inj (=) (=) digest → represents (R := R) a others c bodies docs → docs !! d = None → is_u32 d →
  blob_hash (st_metadata x) = digest (st_raw x) → 0 ≤ msg_size (st_data x) → filed_in c c' docs d x →
  represents (R := R) a others c' (<[digest (st_raw x) := (st_raw x, clock)]> bodies) (<[d := x]> docs).
Proof.
  intros Hinj Hrep Hd Hu Hh Hsz Hf.
  split.
  - intros d' y [[<- _]|[_ Hy]]%lookup_insert_Some; [done|by eapply rep_ids].
  - intros d' Hu'. destruct (decide (d' = d)) as [->|Hne].
    + destruct (fi_data _ _ _ _ _ Hf) as (b & E & ->). rewrite lookup_insert_eq. simpl. by rewrite E.
    + rewrite lookup_insert_ne, (proj1 (fi_others _ _ _ _ _ Hf d' Hu' Hne)) by done. by eapply rep_data.
  - intros d' Hu'. destruct (decide (d' = d)) as [->|Hne].
    + destruct (fi_metadata _ _ _ _ _ Hf) as (b & E & ->). rewrite lookup_insert_eq. simpl. by rewrite E.
    + rewrite lookup_insert_ne, (proj2 (fi_others _ _ _ _ _ Hf d' Hu' Hne)) by done. by eapply rep_metadata.
  - unfold total_size. rewrite map_fold_add_insert, map_size_insert_None by done.
    pose proof (fi_ledger _ _ _ _ _ Hf) as Hl. unfold total_size in Hl. by rewrite Z.add_comm, Nat2Z.inj_succ, <-Z.add_1_r.
  - intros h. rewrite (fi_link _ _ _ _ _ Hf). unfold references. rewrite map_fold_add_insert by done. by rewrite Z.add_comm.
  - intros h. rewrite (fi_ref _ _ _ _ _ Hf). unfold references. rewrite map_fold_add_insert by done. f_equal. lia.
  - intros m Hm Hm0. by eapply uids_filed.
  - intros d1 d2 e [[-> E1]|[N1 P1]]%placed_insert [[-> E2]|[N2 P2]]%placed_insert; try done.
    + by destruct (filed_fresh c c' bodies docs d x d2 e).
    + by destruct (filed_fresh c c' bodies docs d x d1 e).
    + by eapply rep_unique.
  - intros d' y [[<- <-]|[_ Hy]]%lookup_insert_Some; [|by eapply rep_places].
    split; [by eapply fi_once|]. apply Forall_forall. intros e He. destruct (fi_placed _ _ _ _ _ Hf e He) as (? & ? & _). done.
  - destruct (rep_changes _ _ _ _ _ Hrep) as (n0 & Hn0 & ? & Hall).
    destruct (fi_changes _ _ _ _ _ Hf) as (n & n' & Hn & Hn' & ? & ?). unfold counter_at in *. rewrite Hn0 in Hn. simplify_eq.
    exists n'. split_and!; [done|lia|]. intros d' y [[<- _]|[_ Hy%Hall]]%lookup_insert_Some; lia.
  - intros f t. destruct (fi_index _ _ _ _ _ Hf f t) as (X & HX & Hin). exists X. split; [done|]. intros y. rewrite Hin.
    unfold has_term. split.
    + intros [(z & Hz & ?)|[-> ?]]; [|exists x; by rewrite lookup_insert_eq]. exists z.
      rewrite lookup_insert_ne; [done|]. intros ->. congruence.
    + intros (z & [[<- <-]|[? ?]]%lookup_insert_Some & ?); [by right|]. left. by exists z.
  - intros d' y [[<- <-]|[_ Hy]]%lookup_insert_Some.
    + split; [done|]. exists clock. apply lookup_insert_eq.
    + destruct (rep_bodies _ _ _ _ _ Hrep d' y Hy) as (? & t & Ht). split; [done|].
      destruct (decide (digest (st_raw y) = digest (st_raw x))) as [E|Hne].
      * apply Hinj in E. rewrite E. exists clock. apply lookup_insert_eq.
      * exists t. by rewrite lookup_insert_ne.
  - intros d' y [[<- <-]|[_ Hy]]%lookup_insert_Some; [done|by eapply rep_sizes].
  - by eapply fi_wf.
Qed.

(** The UID counters do not go back. *)
Definition uids_grow c c' : Prop :=
  ∀ m n, is_u32 m → m ≠ 0 → counter_value (c !! uid_counter_key a m) = Some n →
    ∃ n', counter_value (c' !! uid_counter_key a m) = Some n' ∧ n ≤ n'.
Lemma filed_uids_grow c c' docs d x : filed_in c c' docs d x → uids_grow c c'.
Proof.
  intros Hf m n Hm Hm0 Hn. destruct (decide (m ∈ mu_mailbox <$> mailboxes (st_data x))) as [(e & -> & He)%list_elem_of_fmap_1|Hni].
  - destruct (fi_placed _ _ _ _ _ Hf e He) as (_ & _ & _ & E & E'). rewrite E in Hn. simplify_eq. exists (mu_uid e). split; [done|lia].
  - exists n. split; [|done]. by rewrite (fi_uids _ _ _ _ _ Hf).
Qed.

(** The contents along the way: [c] at first, [c1] with the UIDs taken, then
    the change id taken and the batch applied. *)
Lemma filing_filed_in c c1 c' bodies docs d x n :
  represents (R := R) a others c bodies docs → is_u32 d → digest (st_raw x) ≠ [] →
  counter_at c a Email n → d ≤ n →
  (* the UIDs *)
  (∀ e, e ∈ mailboxes (st_data x) → is_u32 (mu_mailbox e) ∧ mu_mailbox e ≠ 0 ∧ 1 ≤ mu_uid e ∧
     counter_value (c !! uid_counter_key a (mu_mailbox e)) = Some (mu_uid e - 1) ∧
     counter_value (c1 !! uid_counter_key a (mu_mailbox e)) = Some (mu_uid e)) →
  NoDup (mu_mailbox <$> mailboxes (st_data x)) →
  (∀ k, (∀ e, e ∈ mailboxes (st_data x) → k ≠ uid_counter_key a (mu_mailbox e)) → c1 !! k = c !! k) →
  (* the change id and the batch *)
  0 ≤ n < I64_MAX → blob_hash (st_metadata x) = digest (st_raw x) →
  (∃ b, archive_metadata (st_metadata x) = Ok b ∧ c' !! metadata_key a d = Some b) →
  (∃ b, archive_data (st_data x) = Ok b ∧ c' !! data_key a d = Some b) →
  ledger c' a (total_size docs + msg_size (st_data x)) (Z.of_nat (size docs) + 1) →
  counter_value (c' !! ref_count_key (digest (st_raw x))) = Some (others (digest (st_raw x)) + references docs (digest (st_raw x)) + 1) →
  counter_value (c' !! account_link_key a (digest (st_raw x))) = Some (references docs (digest (st_raw x)) + 1) →
  indexed (R := R) a Email c' (λ f t y, has_term docs f t y ∨ y = d ∧ entry_term (entries (text_or_empty (st_raw x))) f t) →
  (∀ k, ¬ front_key d (digest (st_raw x)) k → (∀ f t, k ≠ term_key a Email f t) → k ≠ entry_key a Email (n + 1) →
     c' !! k = <[counter_key a Email := i64_le (n + 1)]> c1 !! k) →
  filed_in c c' docs d x.
Proof.
  intros Hrep Hd Hdig Hcn Hdn Hp Hnd F1 Hn Hh Hmeta Hdata Hled Href Hlink Hidx F2.
  assert (∀ m, is_u32 m → m ≠ 0 → c' !! uid_counter_key a m = c1 !! uid_counter_key a m) as Huid.
  { intros m Hm Hm0. rewrite F2; [|not_front|intros; keys_differ|keys_differ].
    rewrite lookup_insert_ne; [done|]. apply not_eq_sym. by apply uid_key_counter. }
  split; try done.
  - intros h. destruct (decide (digest (st_raw x) = h)) as [<-|Hne].
    + rewrite Href, Hh, bool_decide_true by done. done.
    + rewrite Hh, bool_decide_false, Z.add_0_r by done.
      rewrite F2; [|not_front_but ltac:(fun E => by apply ref_count_key_inj in E)|intros; keys_differ|keys_differ].
      rewrite lookup_insert_ne, F1 by (intros; keys_differ). by eapply rep_references.
  - intros h. destruct (decide (digest (st_raw x) = h)) as [<-|Hne].
    + rewrite Hlink, Hh, bool_decide_true by done. done.
    + rewrite Hh, bool_decide_false, Z.add_0_r by done.
      rewrite F2; [|not_front_but ltac:(fun E => by apply link_key_inj in E)|intros; keys_differ|keys_differ].
      rewrite lookup_insert_ne, F1 by (intros; keys_differ). by eapply rep_links.
  - exists n, (n + 1). split_and!; [done| |lia|lia]. unfold counter_at.
    rewrite F2; [|not_front|intros; keys_differ|keys_differ]. rewrite lookup_insert_eq. apply counter_value_i64_le. width.
  - apply (blobref_wf_frame a c c' (digest (st_raw x)) Ha Hdig (rep_wf _ _ _ _ _ Hrep)). intros k Hsub Hk1 Hk2.
    rewrite F2, lookup_insert_ne, F1; try done; try other_space.
    not_front_but ltac:(fun E => first [done|other_space_in E]).
  - intros e He. destruct (Hp e He) as (Hm & Hm0 & ? & ? & ?). split_and!; [done..|]. by rewrite Huid.
  - intros m Hm Hm0 Hni. rewrite Huid, F1; [done| |done|done]. intros e He E. apply uid_key_inj in E; [|done|by apply Hp].
    apply Hni. rewrite E. by apply list_elem_of_fmap_2.
  - intros d' Hd' Hne. split.
    + rewrite F2; [|not_front_but ltac:(fun E => by apply data_key_inj in E)|intros; keys_differ|keys_differ].
      by rewrite lookup_insert_ne, F1 by (intros; keys_differ).
    + rewrite F2; [|not_front_but ltac:(fun E => by apply metadata_key_inj in E)|intros; keys_differ|keys_differ].
      by rewrite lookup_insert_ne, F1 by (intros; keys_differ).
Qed.

(** ** The operations *)

Context {codec_laws : MailCodecLaws} {digest_inj : Inj (=) (=) digest} (digest_nonempty : ∀ raw, digest raw ≠ []).
Abbreviation W := (MailWorld S B).

(** The account has [docs] in the world [w]. *)
Definition account_at (w : W) docs : Prop :=
  healthy (mw_store w) ∧ bhealthy (mw_blobs w) ∧
  represents (R := R) a others (view (mw_store w)) (bview (mw_blobs w)) docs.

(** The id was handed out. *)
Definition allocated c (d : Z) : Prop := ∃ n, counter_at c a Email n ∧ d ≤ n.

(** The counters have room for one more message. *)
Record room c docs (raw : bytes) : Prop := {
  room_bytes : is_i64 (total_size docs + Z.of_nat (length raw));
  room_messages : is_i64 (Z.of_nat (size docs) + 1);
  room_links : is_i64 (references docs (digest raw) + 1);
  room_refs : is_i64 (others (digest raw) + references docs (digest raw) + 1);
  room_length : Z.of_nat (length raw) ≤ U32_MAX;
  room_changes n : counter_at c a Email n → n < I64_MAX;
}.

Lemma archived_data x : ∃ b, archive_data x = Ok b.
Proof. pose proof (archive_data_ok x). destruct (archive_data x); [eauto|done]. Qed.
Lemma archived_metadata x : ∃ b, archive_metadata x = Ok b.
Proof. pose proof (archive_metadata_ok x). destruct (archive_metadata x); [eauto|done]. Qed.

(** [commit_message] once the UIDs are taken: [c] is the contents before. *)
Lemma commit_message_spec c bodies docs d raw clock metadata data threads (w : W) :
  represents (R := R) a others c bodies docs → docs !! d = None → is_u32 d → allocated c d → room c docs raw →
  healthy (mw_store w) → bhealthy (mw_blobs w) → bview (mw_blobs w) = <[digest raw := (raw, clock)]> bodies →
  (∀ e, e ∈ mailboxes data → is_u32 (mu_mailbox e) ∧ mu_mailbox e ≠ 0 ∧ 1 ≤ mu_uid e ∧
     counter_value (c !! uid_counter_key a (mu_mailbox e)) = Some (mu_uid e - 1) ∧
     counter_value (view (mw_store w) !! uid_counter_key a (mu_mailbox e)) = Some (mu_uid e)) →
  NoDup (mu_mailbox <$> mailboxes data) →
  (∀ k, (∀ e, e ∈ mailboxes data → k ≠ uid_counter_key a (mu_mailbox e)) → view (mw_store w) !! k = c !! k) →
  Forall thread_write threads → msg_size data = Z.of_nat (length raw) →
  ∃ w' id, commit_message (R := R) a d (digest raw) raw metadata data threads w = (Ok tt, w') ∧
    account_at w' (<[d := mkStored data (with_blob_hash (digest raw) metadata) raw]> docs) ∧
    mw_notices w' = mw_notices w ++ [ChangeNotice a Email id] ∧ uids_grow c (view (mw_store w')).
Proof.
  intros Hrep Hd Hu (n0 & Hcn & Hdn) Hroom Hs Hb Hbv Hp Hnd F1 Hth Hsz. destruct w as [s b notices]. simpl in *.
  set (x := mkStored data (with_blob_hash (digest raw) metadata) raw).
  destruct (rep_changes _ _ _ _ _ Hrep) as (n & Hn & Hn0 & _). pose proof (room_changes _ _ _ Hroom n Hn) as Hn1.
  assert (n0 = n) as -> by (unfold counter_at in *; congruence).
  assert (∀ k, (∀ m, k ≠ uid_counter_key a m) → view s !! k = c !! k) as F1' by (intros k Hk; apply F1; auto).
  assert (counter_at (view s) a Email n) as Hns.
  { unfold counter_at. rewrite F1; [done|]. intros e He. apply not_eq_sym. by apply uid_key_counter; apply Hp. }
  destruct (archived_metadata (st_metadata x)) as [bm Em]. destruct (archived_data data) as [bd Ed].
  destruct (allocate_spec a Email s n Hs Hns (conj Hn0 Hn1)) as (s1 & E1 & Hs1 & Hv1).
  assert (∀ k, (∀ m, k ≠ uid_counter_key a m) → k ≠ counter_key a Email → view s1 !! k = c !! k) as F2.
  { intros k ? ?. rewrite Hv1, lookup_insert_ne by done. auto. }
  assert (indexed (R := R) a Email (view s) (has_term docs)) as Hidx.
  { intros f t. rewrite F1' by (intros; keys_differ). apply (rep_index _ _ _ _ _ Hrep). }
  assert (ledger (view s1) a (total_size docs) (Z.of_nat (size docs))) as Hled.
  { destruct (rep_ledger _ _ _ _ _ Hrep). split; rewrite F2; done || (intros; keys_differ). }
  destruct (filing_effect (view s1) s (has_term docs) d (digest raw) raw bm bd threads (text_or_empty raw) (n + 1)
      (encode_value (mkEntry (n + 1) d ChangeLog.Insert)) (total_size docs) (Z.of_nat (size docs)) (others (digest raw) + references docs (digest raw))
      (references docs (digest raw)) Hs Hidx) as (index & c' & Ei & Ea & Hops & Hm' & Hd' & Hl' & Hr' & Hk' & Hi' & F3);
    [|done|exact Hled|by eapply room_bytes|by eapply room_messages| |by eapply room_refs| |by eapply room_links|].
  { intros f t. rewrite Hv1, lookup_insert_ne by keys_differ. done. }
  { rewrite F2 by (intros; keys_differ). by eapply rep_references. }
  { rewrite F2 by (intros; keys_differ). by eapply rep_links. }
  destruct (batch_spec _ s1 c' Hs1 Hops Ea) as (s2 & E2 & Hs2 & Hv2).
  assert (filed_in c c' docs d x) as Hf.
  { eapply (filing_filed_in c (view s) c' bodies docs d x n); try done; simpl; eauto.
    + by rewrite Hsz.
    + intros k Hk1 Hk2 Hk3. rewrite F3 by done. by rewrite Hv1. }
  exists (mkWorld s2 b (notices ++ [ChangeNotice a Email (n + 1)])), (n + 1). split_and!; [| |done|].
  - unfold commit_message, mbind, M_bind, lift, ask_store, in_store, record_op, mbind, M_bind, mret, M_ret.
    change (with_blob_hash (digest raw) metadata) with (st_metadata x). rewrite Em, Ed.
    cbn [mw_store mw_blobs mw_notices]. rewrite Ei. cbn [mw_store mw_blobs mw_notices]. rewrite E1.
    cbn [mw_store mw_blobs mw_notices fst snd]. by rewrite E2.
  - split_and!; [done|done|]. simpl. rewrite Hbv, Hv2.
    apply (represents_filed c c' bodies docs d x clock); [done|done|done|done|done|simpl; lia|done].
  - simpl. rewrite Hv2. by eapply filed_uids_grow.
Qed.

(** ** Reading back *)

Lemma load_data_spec w docs d :
  account_at w docs → is_u32 d → load_data a d (mw_store w) = Ok (st_data <$> docs !! d).
Proof.
  intros (Hs & _ & Hrep) Hd. unfold load_data. rewrite get_spec by (done || apply known_key_encode). simpl.
  rewrite (rep_data _ _ _ _ _ Hrep d Hd). destruct (docs !! d) as [x|]; simpl; [|done].
  destruct (archived_data (st_data x)) as [b E]. rewrite E. simpl. by rewrite (data_roundtrip _ _ E).
Qed.
Lemma load_metadata_spec w docs d :
  account_at w docs → is_u32 d → load_metadata a d (mw_store w) = Ok (st_metadata <$> docs !! d).
Proof.
  intros (Hs & _ & Hrep) Hd. unfold load_metadata. rewrite get_spec by (done || apply known_key_encode). simpl.
  rewrite (rep_metadata _ _ _ _ _ Hrep d Hd). destruct (docs !! d) as [x|]; simpl; [|done].
  destruct (archived_metadata (st_metadata x)) as [b E]. rewrite E. simpl. by rewrite (metadata_roundtrip _ _ E).
Qed.
Lemma load_raw_spec w docs d :
  account_at w docs → is_u32 d → load_raw a d w = Ok (st_raw <$> docs !! d).
Proof.
  intros Hw Hd. unfold load_raw. rewrite (load_metadata_spec w docs d) by done. simpl.
  destruct Hw as (_ & Hb & Hrep). destruct (docs !! d) as [x|] eqn:E; simpl; [|done].
  destruct (rep_bodies _ _ _ _ _ Hrep d x E) as (-> & t & Ht). rewrite blob_get_all_spec by done. by rewrite Ht.
Qed.

(** ** Targets *)

Lemma push_unique_nodup ts m : NoDup (mb_id <$> ts) → NoDup (mb_id <$> push_unique ts m).
Proof.
  intros Hnd. unfold push_unique. destruct (existsb _ ts) eqn:E; [done|]. rewrite fmap_app. apply NoDup_app. split_and!; [done| |].
  - intros i (x & -> & Hx)%list_elem_of_fmap_1 Hi. simpl in Hi. apply list_elem_of_singleton in Hi.
    assert (existsb (λ x, mb_id x =? mb_id m) ts = true); [|congruence]. apply existsb_exists.
    exists x. split; [by apply list_elem_of_In|]. by apply Z.eqb_eq.
  - simpl. apply NoDup_singleton.
Qed.
Lemma push_unique_elem ts m x : x ∈ push_unique ts m → x ∈ ts ∨ x = m.
Proof. unfold push_unique. case_match; [auto|]. rewrite elem_of_app, list_elem_of_singleton. auto. Qed.

Lemma find_elem {A} (p : A → bool) l x : List.find p l = Some x → x ∈ l.
Proof. intros E. by apply List.find_some in E as [?%list_elem_of_In _]. Qed.
Lemma find_inbox_elem ms m : find_inbox ms = Ok m → m ∈ ms.
Proof. unfold find_inbox, ok_or. destruct (List.find _ ms) eqn:E; intros; simplify_eq. by eapply find_elem. Qed.

Lemma resolve_targets_spec sieve ms inbox :
  inbox ∈ ms → let ts := resolve_targets sieve ms inbox in
  NoDup (mb_id <$> ts) ∧ (∀ m, m ∈ ts → m ∈ ms) ∧ ts ≠ [].
Proof.
  intros Hin.
  set (step := λ targets folder, push_unique targets (default inbox (List.find (λ m, bool_decide (mb_name m = folder)) ms))).
  assert (∀ fs ts, NoDup (mb_id <$> ts) → (∀ m, m ∈ ts → m ∈ ms) →
    let ts' := foldl step ts fs in NoDup (mb_id <$> ts') ∧ (∀ m, m ∈ ts' → m ∈ ms) ∧ (ts ≠ [] ∨ fs ≠ [] → ts' ≠ [])) as H'.
  { induction fs as [|f fs IH]; intros ts Hnd Hsub; [simpl; tauto|]. simpl.
    destruct (IH (step ts f)) as (? & ? & Hne); [by apply push_unique_nodup| |split_and!; [done..|]].
    - intros m [?|Em]%push_unique_elem; [auto|subst m]. destruct (List.find _ ms) eqn:E; simpl; [by eapply find_elem|done].
    - intros _. apply Hne. left. unfold step, push_unique. destruct (existsb _ ts) eqn:E; [by destruct ts|].
      by destruct ts. }
  destruct (H' (so_file_into sieve) [] NoDup_nil_2) as (Hnd & Hsub & Hne); [by intros m ?%not_elem_of_nil|].
  unfold resolve_targets. fold step. cbv zeta. destruct (so_keep sieve || _) eqn:Ek.
  - split_and!; [by apply push_unique_nodup|intros m [?|Em]%push_unique_elem; [auto|by subst m]|].
    unfold push_unique. destruct (existsb _ _) eqn:E; [|by destruct (foldl _ _ _)]. by destruct (foldl step [] (so_file_into sieve)).
  - split_and!; [done|done|]. apply Hne. right. apply orb_false_iff in Ek as [_ Ek]. by apply bool_decide_eq_false in Ek.
Qed.
Lemma targets_of_spec rq sieve ts :
  targets_of rq sieve = Ok ts → NoDup (mb_id <$> ts) ∧ (∀ m, m ∈ ts → m ∈ rq_mailboxes rq) ∧ ts ≠ [].
Proof.
  unfold targets_of. intros (inbox & Hi%find_inbox_elem & [= <-])%result_bind_ok.
  destruct (rq_target_override rq) as [[role|id]|]; [..|by apply resolve_targets_spec];
    (split_and!; [apply NoDup_singleton| |done]); intros m ->%list_elem_of_singleton.
  - destruct (find_role _ _) eqn:E; simpl; [by eapply find_elem|done].
  - destruct (List.find _ _) eqn:E; simpl; [by eapply find_elem|done].
Qed.

(** ** Delivery *)

(** What a delivery needs of its request: the message can be parsed, there is
    an inbox, every mailbox has a UID left and the document id is unused. *)
Record request_ok (w : W) docs (rq : DeliveryRequest) : Prop := {
  rk_account : store_id (rq_account rq) = a;
  rk_parsed : is_ok (ingest [] (rq_raw rq)) = true;
  rk_inbox : is_ok (find_inbox (rq_mailboxes rq)) = true;
  rk_mailboxes : Forall mailbox_ok (rq_mailboxes rq);
  rk_uids : Forall (uid_left (view (mw_store w))) (rq_mailboxes rq);
  rk_document : is_u32 (rq_document_id rq);
  rk_allocated : allocated (view (mw_store w)) (rq_document_id rq);
  rk_fresh : docs !! rq_document_id rq = None;
  rk_room : room (view (mw_store w)) docs (rq_raw rq);
}.

Lemma keywords_mailboxes ks d : mailboxes (add_keywords ks d) = mailboxes d ∧ msg_size (add_keywords ks d) = msg_size d.
Proof.
  unfold add_keywords. revert d. induction ks as [|k ks IH]; intros d; [done|]. simpl. destruct (IH (add_keyword k d).2) as [-> ->].
  unfold add_keyword. by destruct (has_keyword k d).
Qed.

(** The places a message was filed in, and the counters they come from. *)
Lemma zip_places ts us (P : MailboxUid → Prop) :
  length us = length ts →
  (∀ i m u, ts !! i = Some m → us !! i = Some u → P (mkMailboxUid (mb_id m) u)) →
  (∀ e, e ∈ zip_with mkMailboxUid (mb_id <$> ts) us → P e) ∧
  mu_mailbox <$> zip_with mkMailboxUid (mb_id <$> ts) us = mb_id <$> ts.
Proof.
  revert us. induction ts as [|m ts IH]; intros [|u us] Hl Hp; try done.
  { split; [|done]. by intros e ?%not_elem_of_nil. }
  destruct (IH us) as [IH1 IH2]; [simpl in Hl; lia|intros i; apply (Hp (Datatypes.S i))|]. split.
  - simpl. intros e [->|He]%elem_of_cons; [by apply (Hp O)|by apply IH1].
  - simpl. f_equal. exact IH2.
Qed.

Lemma assign_places ts d s :
  healthy s → mailboxes d = [] → NoDup (mb_id <$> ts) → Forall mailbox_ok ts → Forall (uid_left (view s)) ts →
  ∃ ps s', assign_uids a ts d s = (Ok (with_mailboxes ps d), s') ∧ healthy s' ∧ mu_mailbox <$> ps = mb_id <$> ts ∧
    (∀ e, e ∈ ps → is_u32 (mu_mailbox e) ∧ mu_mailbox e ≠ 0 ∧ 1 ≤ mu_uid e ∧
       counter_value (view s !! uid_counter_key a (mu_mailbox e)) = Some (mu_uid e - 1) ∧
       counter_value (view s' !! uid_counter_key a (mu_mailbox e)) = Some (mu_uid e)) ∧
    (∀ k, (∀ e, e ∈ ps → k ≠ uid_counter_key a (mu_mailbox e)) → view s' !! k = view s !! k).
Proof.
  intros Hs Hd Hnd Hok Hleft.
  destruct (assign_uids_spec ts d s Hs Hnd Hok Hleft) as (us & s1 & E1 & Hs1 & Hl & Hus & F1).
  { intros. unfold in_mailbox. by rewrite Hd. }
  rewrite Hd in E1. simpl in E1. exists (zip_with mkMailboxUid (mb_id <$> ts) us), s1.
  destruct (zip_places ts us (λ e, is_u32 (mu_mailbox e) ∧ mu_mailbox e ≠ 0 ∧ 1 ≤ mu_uid e ∧
     counter_value (view s !! uid_counter_key a (mu_mailbox e)) = Some (mu_uid e - 1) ∧
     counter_value (view s1 !! uid_counter_key a (mu_mailbox e)) = Some (mu_uid e)) Hl) as [Hplaces Hids].
  { intros i m u Hm Hu. destruct (Hus i m u Hm Hu) as (? & ? & ?). simpl. rewrite Forall_forall in Hok.
    destruct (Hok m) as [? ?]; [by eapply list_elem_of_lookup_2|]. done. }
  split_and!; [done|done|done|done|]. intros k Hk. apply F1. intros m Hm.
  apply (list_elem_of_fmap_2 mb_id) in Hm. rewrite <-Hids in Hm. apply list_elem_of_fmap_1 in Hm as (e & -> & He).
  by apply Hk.
Qed.

(** The record of a new message before it has a place. *)
Lemma new_data_size docs c raw thread received :
  room c docs raw → msg_size (new_data thread raw received) = Z.of_nat (length raw).
Proof. intros Hr. pose proof (room_length _ _ _ Hr). simpl. apply as_u32_small. width. Qed.

(** A message is filed with new UIDs. *)
Definition newly_filed (w w' : W) docs (d : Z) (x : Stored) : Prop :=
  account_at w' (<[d := x]> docs) ∧
  Forall (λ e, counter_value (view (mw_store w) !! uid_counter_key a (mu_mailbox e)) = Some (mu_uid e - 1))
    (mailboxes (st_data x)) ∧ uids_grow (view (mw_store w)) (view (mw_store w')) ∧
  ∃ id, ChangeNotice a Email id ∈ mw_notices w'.

Lemma file_message_spec w docs rq metadata sieve ts relays clock :
  account_at w docs → request_ok w docs rq → NoDup (mb_id <$> ts) → (∀ m, m ∈ ts → m ∈ rq_mailboxes rq) →
  ∃ w' x, file_message (R := R) rq metadata sieve ts relays clock w
      = (Ok (mkDelivery (mb_id <$> ts) (so_flags sieve) relays false None), w') ∧
    newly_filed w w' docs (rq_document_id rq) x ∧ st_raw x = rq_raw rq ∧
    mu_mailbox <$> mailboxes (st_data x) = mb_id <$> ts.
Proof.
  intros (Hs & Hb & Hrep) Hrq Hnd Hsub. destruct w as [s b notices]. simpl in *.
  set (raw := rq_raw rq). set (d := rq_document_id rq).
  destruct (blob_put_spec raw clock b Hb) as (b1 & Eb & Hb1 & Hbv).
  destruct (resolve_thread_ok s d raw Hs) as (thr & Et & Hth).
  set (data0 := new_data (tr_thread_id thr) raw (rq_received_at rq)).
  set (data1 := if message_has_attachment raw then (add_keyword has_attachment data0).2 else data0).
  assert (mailboxes data1 = [] ∧ msg_size data1 = Z.of_nat (length raw)) as [Hd1 Hz1].
  { rewrite <-(new_data_size docs (view s) raw (tr_thread_id thr) (rq_received_at rq)) by apply Hrq. fold data0.
    unfold data1. by destruct (message_has_attachment raw). }
  pose proof (rk_mailboxes _ _ _ Hrq) as Hmb. pose proof (rk_uids _ _ _ Hrq) as Hul. rewrite Forall_forall in Hmb, Hul.
  destruct (assign_places ts data1 s Hs Hd1 Hnd) as (ps & s1 & E1 & Hs1 & Hids & Hps & F1);
    [apply Forall_forall; auto..|].
  destruct (keywords_mailboxes (so_flags sieve) (with_mailboxes ps data1)) as [Hmd Hzd].
  set (data := add_keywords (so_flags sieve) (with_mailboxes ps data1)) in *. simpl in Hmd, Hzd.
  destruct (commit_message_spec (view s) (bview b) docs d raw clock metadata data (tr_ops thr) (mkWorld s1 b1 notices))
    as (w' & id & Ec & Hacc & Hno & Hgrow); rewrite ?Hmd; try done; try apply Hrq; [by rewrite Hids|congruence|].
  set (extra := match rq_target_override rq, List.find noteworthy ts return list Notice with
    | None, Some m => [NewMailNotice a d (mb_id m) (message_sender raw) (tx_subject (text_or_empty raw))]
    | _, _ => [] end).
  exists (mkWorld (mw_store w') (mw_blobs w') (mw_notices w' ++ extra)),
    (mkStored data (with_blob_hash (digest raw) metadata) raw). split_and!; simpl; rewrite ?Hmd.
  - unfold file_message. rewrite (rk_account _ _ _ Hrq). fold raw d.
    unfold mbind at 1, M_bind at 1, in_blobs, store_blob. cbn [mw_store mw_blobs mw_notices]. rewrite Eb.
    unfold mbind at 1, M_bind at 1, ask_store. cbn [mw_store mw_blobs mw_notices]. rewrite Et. cbv zeta. fold data0 data1.
    unfold mbind at 1, M_bind at 1, in_store at 1. cbn [mw_store mw_blobs mw_notices]. rewrite E1. fold data.
    unfold mbind at 1, M_bind at 1. rewrite Ec. unfold extra, mbind, M_bind, notify.
    destruct (rq_target_override rq); [|destruct (List.find noteworthy ts)]; cbn; rewrite ?app_nil_r; by destruct w'.
  - split; [exact Hacc|]. simpl. rewrite Hmd.
    split; [apply Forall_forall; intros e He; by apply Hps|]. split; [done|]. exists id. rewrite Hno. set_solver.
  - done.
  - done.
Qed.

(** The usage the quota is checked against is what the messages use. *)
Definition usage_of docs : QuotaUsage := mkUsage (total_size docs) (Z.of_nat (size docs)).
Lemma usage_account w docs : account_at w docs → usage a (mw_store w) = Ok (usage_of docs).
Proof.
  intros (Hs & _ & Hrep). rewrite (usage_spec a _ _ _ Hs (rep_ledger _ _ _ _ _ Hrep)). unfold usage_of.
  rewrite !Z.max_l; [done|lia|]. apply map_fold_add_nonneg. intros d x. by eapply rep_sizes.
Qed.

(** Why a message is not filed. *)
Definition not_filed docs (rq : DeliveryRequest) : bool :=
  so_discarded (script_outcome rq) || negb (plan_keep_local (forward_plan rq)) ||
  is_over_quota (enforce_quota (limits_for (rq_account rq)) (usage_of docs) (Z.of_nat (length (rq_raw rq)))).

Lemma deliver_spec w docs rq clock :
  account_at w docs → request_ok w docs rq →
  ∃ o w', deliver (R := R) rq clock w = (Ok o, w') ∧
    if not_filed docs rq then filed_into o = [] ∧ w' = w
    else ∃ x, newly_filed w w' docs (rq_document_id rq) x ∧ st_raw x = rq_raw rq ∧
           mu_mailbox <$> mailboxes (st_data x) = filed_into o ∧ filed_into o ≠ [].
Proof.
  intros Hw Hrq. pose proof (rk_parsed _ _ _ Hrq) as Hp. destruct (ingest [] (rq_raw rq)) as [metadata|] eqn:Ei; [|done].
  unfold deliver. rewrite (rk_account _ _ _ Hrq). unfold mbind at 1, M_bind at 1, lift at 1. rewrite Ei. cbv zeta.
  unfold not_filed. destruct (so_discarded (script_outcome rq)); [by eexists _, w|]. cbn [orb].
  destruct (plan_keep_local (forward_plan rq)); [|by eexists _, w]. cbn [negb orb].
  destruct (targets_of rq (script_outcome rq)) as [ts|] eqn:Et.
  2:{ exfalso. unfold targets_of in Et. pose proof (rk_inbox _ _ _ Hrq). by destruct (find_inbox (rq_mailboxes rq)). }
  unfold mbind at 1, M_bind at 1, lift at 1. unfold mbind at 1, M_bind at 1, ask_store at 1.
  rewrite (usage_account w docs Hw). destruct (is_over_quota _); [by eexists _, w|].
  destruct (targets_of_spec rq _ ts Et) as (Hnd & Hsub & Hne).
  destruct (file_message_spec w docs rq metadata (script_outcome rq) ts
    (forward_to (so_redirects (script_outcome rq)) (rq_recipient rq) (rq_mail_from rq) (rq_raw rq)
       ++ plan_relays (forward_plan rq)) clock Hw Hrq Hnd Hsub) as (w' & x & E & Hx & Hraw & Hm).
  eexists _, w'. split; [exact E|]. exists x. simpl. split_and!; [done|done|done|by destruct ts].
Qed.

(** C4. Delivery does what it reports.  In an account whose records agree
    with its messages, a delivery either leaves everything as it was and
    reports no mailbox, exactly when the script discards the message, a
    forwarding keeps no copy, or the quota, counted over the messages that are
    there, has no room; or it adds the one message, in the mailboxes it
    reports, each under the next UID of that mailbox, all records and counters
    agree again, the text is read back as it came, and so is every message
    that was there before. *)
Theorem deliver_refines w docs rq clock :
  account_at w docs → request_ok w docs rq →
  ∃ o w', deliver (R := R) rq clock w = (Ok o, w') ∧
    if not_filed docs rq then filed_into o = [] ∧ w' = w
    else ∃ x, newly_filed w w' docs (rq_document_id rq) x ∧
           mu_mailbox <$> mailboxes (st_data x) = filed_into o ∧ filed_into o ≠ [] ∧
           load_raw a (rq_document_id rq) w' = Ok (Some (rq_raw rq)) ∧
           ∀ d, is_u32 d → d ≠ rq_document_id rq → load_raw a d w' = load_raw a d w.
Proof.
  intros Hw Hrq. destruct (deliver_spec w docs rq clock Hw Hrq) as (o & w' & E & Ho). exists o, w'. split; [done|].
  destruct (not_filed docs rq); [done|]. destruct Ho as (x & Hx & Hraw & ? & ?). exists x. pose proof (proj1 Hx) as Hw'. split_and!; try done.
  - rewrite (load_raw_spec w' _ _ Hw') by apply Hrq. by rewrite lookup_insert_eq, <-Hraw.
  - intros d Hd Hne. rewrite (load_raw_spec w' _ d Hw'), (load_raw_spec w _ d Hw) by done. by rewrite lookup_insert_ne.
Qed.

(** ** Appending *)

Record append_ok (w : W) docs (rq : AppendRequest) : Prop := {
  ak_account : store_id (ap_account rq) = a;
  ak_parsed : is_ok (ingest [] (ap_raw rq)) = true;
  ak_mailbox : mailbox_ok (ap_mailbox rq);
  ak_uid : uid_left (view (mw_store w)) (ap_mailbox rq);
  ak_document : is_u32 (ap_document_id rq);
  ak_allocated : allocated (view (mw_store w)) (ap_document_id rq);
  ak_fresh : docs !! ap_document_id rq = None;
  ak_room : room (view (mw_store w)) docs (ap_raw rq);
}.

Lemma append_refines w docs rq clock :
  account_at w docs → append_ok w docs rq →
  ∃ o w', append_message (R := R) rq clock w = (Ok o, w') ∧
    if is_over_quota (enforce_quota (limits_for (ap_account rq)) (usage_of docs) (Z.of_nat (length (ap_raw rq))))
    then ao_over_quota o = true ∧ w' = w
    else ao_over_quota o = false ∧ ∃ x, newly_filed w w' docs (ap_document_id rq) x ∧ st_raw x = ap_raw rq ∧
           mailboxes (st_data x) = [mkMailboxUid (mb_id (ap_mailbox rq)) (ao_uid o)].
Proof.
  intros Hw Hrq. pose proof (ak_parsed _ _ _ Hrq) as Hp. destruct (ingest [] (ap_raw rq)) as [metadata|] eqn:Ei; [|done].
  set (raw := ap_raw rq) in *. set (d := ap_document_id rq).
  unfold append_message. rewrite (ak_account _ _ _ Hrq). fold raw d. unfold mbind at 1, M_bind at 1, lift at 1. rewrite Ei.
  unfold mbind at 1, M_bind at 1, ask_store at 1. rewrite (usage_account w docs Hw).
  destruct (is_over_quota _); [by eexists _, w|].
  pose proof Hw as (Hs & Hb & Hrep). destruct w as [s b notices]. cbn [mw_store mw_blobs mw_notices] in *.
  destruct (blob_put_spec raw clock b Hb) as (b1 & Eb & Hb1 & Hbv).
  destruct (ak_uid _ _ _ Hrq) as (n & Hn & Hn0). destruct (ak_mailbox _ _ _ Hrq) as [Hm Hm0].
  destruct (next_uid_spec s (ap_mailbox rq) n Hs Hn Hn0) as (s1 & E1 & Hs1 & Hv1).
  destruct (resolve_thread_ok s1 d raw Hs1) as (thr & Et & Hth).
  set (e := mkMailboxUid (mb_id (ap_mailbox rq)) (n + 1)).
  set (data0 := new_data (tr_thread_id thr) raw (ap_received_at rq)).
  set (data1 := add_keywords (ap_flags rq) (add_mailbox (mb_id (ap_mailbox rq)) (n + 1) data0).2).
  set (data := if message_has_attachment raw then (add_keyword has_attachment data1).2 else data1).
  assert (mailboxes data = [e] ∧ msg_size data = Z.of_nat (length raw)) as [Hmd Hz].
  { rewrite <-(new_data_size docs (view s) raw (tr_thread_id thr) (ap_received_at rq)) by apply Hrq. fold data0.
    destruct (keywords_mailboxes (ap_flags rq) (add_mailbox (mb_id (ap_mailbox rq)) (n + 1) data0).2) as [E2 E3].
    fold data1 in E2, E3. simpl in E2, E3. unfold data, add_keyword. simpl.
    destruct (message_has_attachment raw), (has_keyword has_attachment data1); done. }
  destruct (commit_message_spec (view s) (bview b) docs d raw clock metadata data (tr_ops thr) (mkWorld s1 b1 notices))
    as (w' & id & Ec & Hacc & Hno & Hgrow); rewrite ?Hmd; try done; try apply Hrq.
  { intros e' ->%list_elem_of_singleton. simpl. split_and!; [done|done|lia|by replace (n + 1 - 1) with n by lia|].
    rewrite Hv1, lookup_insert_eq. apply counter_value_i64_le. width. }
  { apply NoDup_singleton. }
  { intros k Hk. simpl. rewrite Hv1, lookup_insert_ne; [done|]. apply not_eq_sym, (Hk e), list_elem_of_here. }
  eexists (mkAppended (n + 1) false), w'. split.
  - unfold mbind at 1, M_bind at 1, in_blobs, store_blob. cbn [mw_store mw_blobs mw_notices]. rewrite Eb.
    unfold mbind at 1, M_bind at 1, in_store at 1. cbn [mw_store mw_blobs mw_notices]. rewrite E1.
    unfold mbind at 1, M_bind at 1, ask_store. cbn [mw_store mw_blobs mw_notices]. rewrite Et. fold data0 data1 data.
    unfold mbind at 1, M_bind at 1. by rewrite Ec.
  - split; [done|]. exists (mkStored data (with_blob_hash (digest raw) metadata) raw). split_and!; [|done|done].
    split_and!; [done| |done|exists id; rewrite Hno; set_solver]. simpl. rewrite Hmd. constructor; [|constructor].
    simpl. by replace (n + 1 - 1) with n by lia.
Qed.
End filing.
