(* ===== verification/MailRemove.v ===== *)
(** * Mail: removing messages (crates/mail/src/read.rs)

    [delete_message] takes one message away from the account, and everything
    the account keeps of its messages follows. *)

From S2P Require Import Prelude Bytes Key Store ChangeLog Quota Text Fts Blobs MailParser Sieve MailModel MailMessage MailStore MailRep MailFile.
From stdpp Require Import base gmap list strings.
From Stdlib Require Import ZArith Lia.

Open Scope Z_scope.

Section removing.
Context {S B R : Type} {store : Store S} {contract : StoreSpec S} `{Bitmap R} {laws : BitmapLaws R}.
Context `{BlobStore B} {blob_contract : BlobSpec B}.
Context `{Unicode} `{MailParser} `{MailCodec} {codec_laws : MailCodecLaws} {digest_inj : Inj (=) (=) digest} (digest_nonempty : ∀ raw, digest raw ≠ []).
Context (a : Z) (Ha : is_u32 a).
Implicit Types (c : contents) (docs : maildrop) (s : S) (others : BlobHash → Z).
Abbreviation W := (MailWorld S B).

(** The rows of mailboxes stay. *)
Definition boxes_kept c c' : Prop :=
  ∀ x, key_collection x = Key.Mailbox → c' !! key_encode x = c !! key_encode x.
(** Change ids that were taken. *)
Definition ids_used c c' (k : nat) : Prop :=
  (∀ n, counter_at c a Email n → ∃ n', counter_at c' a Email n' ∧ n ≤ n' ≤ n + Z.of_nat k) ∧ boxes_kept c c'.

(** ** The account after a message was removed *)

Record removed_in others c c' docs (d : Z) (x : Stored) : Prop := {
  ri_data : c' !! data_key a d = None;
  ri_metadata : c' !! metadata_key a d = None;
  ri_ledger : ledger c' a (total_size docs - msg_size (st_data x)) (Z.of_nat (size docs) - 1);
  ri_ref h : counter_value (c' !! ref_count_key h)
    = Some (others h + references docs h - if bool_decide (blob_hash (st_metadata x) = h) then 1 else 0);
  ri_link h : counter_value (c' !! account_link_key a h)
    = Some (references docs h - if bool_decide (blob_hash (st_metadata x) = h) then 1 else 0);
  ri_index : indexed (R := R) a Email c' (λ f t y, has_term docs f t y ∧ y ≠ d);
  ri_changes : ∃ n n', counter_at c a Email n ∧ counter_at c' a Email n' ∧ n ≤ n' ≤ n + Z.of_nat (length (mailboxes (st_data x))) + 1;
  ri_wf : blobref_wf c';
  ri_boxes : boxes_kept c c';
  ri_uids m : is_u32 m → m ≠ 0 → c' !! uid_counter_key a m = c !! uid_counter_key a m;
  ri_others d' : is_u32 d' → d' ≠ d →
    c' !! data_key a d' = c !! data_key a d' ∧ c' !! metadata_key a d' = c !! metadata_key a d';
}.

Lemma placed_delete docs d d' e : placed (base.delete d docs) d' e → placed docs d' e.
Proof. intros (x & [_ ?]%lookup_delete_Some & ?). by exists x. Qed.

Lemma represents_removed others others0 c c' bodies docs d x :
  represents (R := R) a others0 c bodies docs → docs !! d = Some x → removed_in others c c' docs d x →
  represents (R := R) a others c' bodies (base.delete d docs).
Proof.
  intros Hrep Hd Hr. split.
  - intros d' y [_ Hy]%lookup_delete_Some. by eapply rep_ids.
  - intros d' Hu. destruct (decide (d' = d)) as [->|Hne].
    + by rewrite lookup_delete_eq, (ri_data _ _ _ _ _ _ Hr).
    + rewrite lookup_delete_ne, (proj1 (ri_others _ _ _ _ _ _ Hr d' Hu Hne)) by done. by eapply rep_data.
  - intros d' Hu. destruct (decide (d' = d)) as [->|Hne].
    + by rewrite lookup_delete_eq, (ri_metadata _ _ _ _ _ _ Hr).
    + rewrite lookup_delete_ne, (proj2 (ri_others _ _ _ _ _ _ Hr d' Hu Hne)) by done. by eapply rep_metadata.
  - unfold total_size. rewrite (map_fold_add_delete _ _ _ _ Hd), (map_size_delete_Some _ _ (mk_is_Some _ _ Hd)).
    pose proof (ri_ledger _ _ _ _ _ _ Hr) as Hl. unfold total_size in Hl.
    assert (size docs ≠ 0%nat) as Hnz by (intros E; apply map_size_empty_inv in E; subst; by rewrite lookup_empty in Hd).
    by replace (Z.of_nat (pred (size docs))) with (Z.of_nat (size docs) - 1) by lia.
  - intros h. rewrite (ri_link _ _ _ _ _ _ Hr). unfold references. by rewrite (map_fold_add_delete _ _ _ _ Hd).
  - intros h. rewrite (ri_ref _ _ _ _ _ _ Hr). unfold references. rewrite (map_fold_add_delete _ _ _ _ Hd). f_equal. lia.
  - intros m Hm Hm0. rewrite (ri_uids _ _ _ _ _ _ Hr) by done.
    destruct (rep_uids _ _ _ _ _ Hrep m Hm Hm0) as (n & ? & ? & Hp). exists n. split_and!; [done|done|].
    intros d' u Hx%placed_delete. by eapply Hp.
  - intros d1 d2 e H1'%placed_delete H2'%placed_delete. by eapply rep_unique.
  - intros d' y [_ Hy]%lookup_delete_Some. by eapply rep_places.
  - destruct (rep_changes _ _ _ _ _ Hrep) as (n0 & Hn0 & ? & Hall).
    destruct (ri_changes _ _ _ _ _ _ Hr) as (n & n' & Hn & Hn' & ?). unfold counter_at in *. rewrite Hn0 in Hn. simplify_eq.
    exists n'. split_and!; [done|lia|]. intros d' y [_ Hy%Hall]%lookup_delete_Some. lia.
  - intros f t. destruct (ri_index _ _ _ _ _ _ Hr f t) as (X & HX & Hin). exists X. split; [done|]. intros y. rewrite Hin.
    unfold has_term. split.
    + intros [(z & Hz & ?) Hne]. exists z. by rewrite lookup_delete_ne.
    + intros (z & [? ?]%lookup_delete_Some & ?). split; [by exists z|done].
  - intros d' y [_ Hy]%lookup_delete_Some. by eapply rep_bodies.
  - intros d' y [_ Hy]%lookup_delete_Some. by eapply rep_sizes.
  - by eapply ri_wf.
Qed.

(** ** The batch *)

(** Writes to the log of vanished places. *)
Definition vanished_write (op : WriteOp) : Prop := ∃ id v, op = WSet (entry_key a EmailVanished id) v.

(** Each place that was left takes a change id and has an entry. *)
Lemma vanished_ops_spec before after s n :
  healthy s → counter_at (view s) a Email n → 0 ≤ n → n + Z.of_nat (length before) ≤ I64_MAX →
  ∃ ops s' n', vanished_ops a before after s = (Ok ops, s') ∧ healthy s' ∧ Forall vanished_write ops ∧
    counter_at (view s') a Email n' ∧ n ≤ n' ≤ n + Z.of_nat (length before) ∧
    (∀ k, k ≠ counter_key a Email → view s' !! k = view s !! k) ∧
    (∀ e, e ∈ before → e ∉ after → ∃ id, WSet (entry_key a EmailVanished id) (u32_be (mu_mailbox e) ++ u32_be (mu_uid e)) ∈ ops).
Proof.
  revert s n. induction before as [|e before IH]; intros s n Hs Hn Hn0 Hmax; cbn [vanished_ops].
  { exists [], s, n. split_and!; try done; [simpl; lia|]. by intros e ?%not_elem_of_nil. }
  simpl in Hmax. case_bool_decide as Hin.
  - destruct (IH s n) as (ops & s' & n' & E & ? & ? & ? & ? & ? & Hv); [done..|lia|].
    exists ops, s', n'. split_and!; try done; [lia|simpl; lia|]. intros e' [->|?]%elem_of_cons ?; [done|by apply Hv].
  - destruct (allocate_spec a Email s n Hs Hn) as (s1 & E1 & Hs1 & Hv1); [lia|].
    destruct (IH s1 (n + 1)) as (ops & s' & n' & E & ? & ? & ? & ? & F & Hv); [done| |lia|lia|].
    { unfold counter_at. rewrite Hv1, lookup_insert_eq. apply counter_value_i64_le. width. }
    unfold mbind at 1, M_bind at 1, record_vanished_op. unfold mbind at 1, M_bind at 1. rewrite E1.
    cbn [mret M_ret fst snd]. unfold mbind, M_bind. unfold mret at 1, M_ret at 1. rewrite E.
    eexists _, s', n'. split; [done|]. split_and!; [done| |done|lia|simpl; lia| |].
    + constructor; [|done]. by eexists _, _.
    + intros k Hk. rewrite F by done. by rewrite Hv1, lookup_insert_ne.
    + intros e' [->|?]%elem_of_cons Hn'; [exists (n + 1); apply list_elem_of_here|].
      destruct (Hv e') as (id & ?); [done..|]. exists id. by apply list_elem_of_further.
Qed.

Lemma no_text_no_term f t : ¬ entry_term (entries empty_text) f t.
Proof. intros (x & Hx & _). vm_compute in Hx. by apply not_elem_of_nil in Hx. Qed.

(** The message leaves the index. *)
Lemma unindex_ops_spec others c docs d x (w : W) :
  account_at (R := R) a others w docs → docs !! d = Some x →
  (∀ f t, c !! term_key a Email f t = view (mw_store w) !! term_key a Email f t) →
  ∃ idx c', unindex_ops_of (R := R) a d (st_metadata x) w = Ok idx ∧ apply_ops c idx = Some c' ∧ Forall op_ok idx ∧
    indexed (R := R) a Email c' (λ f t y, has_term docs f t y ∧ y ≠ d) ∧
    ∀ k, (∀ f t, k ≠ term_key a Email f t) → c' !! k = c !! k.
Proof.
  intros (Hs & Hb & Hrep) Hd Hagree. unfold unindex_ops_of.
  destruct (rep_bodies _ _ _ _ _ Hrep d x Hd) as (-> & t0 & Ht). rewrite blob_get_all_spec, Ht by done. simpl.
  pose proof (rep_index _ _ _ _ _ Hrep) as Hidx.
  destruct (message_text (st_raw x)) as [t|e] eqn:Et.
  - destruct (remove_ops_spec a Email Ha (has_term docs) d (entries t) (mw_store w) c Hs Hidx)
      as (idx & c' & Ei & Ea & Hi & F & Hok).
    { intros k (f & t' & ->). apply Hagree. }
    exists idx, c'. split_and!; [done|done| | |].
    + eapply Forall_impl; [exact Hok|]. by intros op [].
    + eapply indexed_ext; [|exact Hi]. intros f t' y. simpl. unfold has_term.
      assert (text_or_empty (st_raw x) = t) as Ex by (unfold text_or_empty; by rewrite Et).
      split; [|naive_solver]. intros [(z & Hz & Hterm) Hn]. split; [by exists z|]. intros ->.
      apply Hn. split; [done|]. rewrite Hd in Hz. simplify_eq. done.
    + intros k Hk. apply F. intros (f & t' & ->). by apply (Hk f t').
  - exists [], c. split_and!; [done|done|done| |done].
    assert (text_or_empty (st_raw x) = empty_text) as Ex by (unfold text_or_empty; by rewrite Et).
    intros f t'. rewrite Hagree. destruct (Hidx f t') as (X & HX & Hin). exists X. split; [done|]. intros y. rewrite Hin.
    split; [|tauto]. intros Hz. split; [done|]. intros ->. destruct Hz as (z & Hz & Hterm). rewrite Hd in Hz.
    simplify_eq. rewrite Ex in Hterm. by apply no_text_no_term in Hterm.
Qed.

Lemma apply_vanished c ops :
  Forall vanished_write ops →
  ∃ c', apply_ops c ops = Some c' ∧ (∀ k, (∀ id, k ≠ entry_key a EmailVanished id) → c' !! k = c !! k) ∧ Forall op_ok ops.
Proof.
  intros Ht. destruct (apply_sets (λ k, ∃ id, k = entry_key a EmailVanished id) c ops) as (c' & E & F & Hok).
  - eapply Forall_impl; [exact Ht|]. intros op (id & v & ->). eauto 6.
  - intros k (id & ->). apply known_key_encode.
  - exists c'. split_and!; [done| |done]. intros k Hk. apply F. intros (id & ->). by apply (Hk id).
Qed.

(** The keys of a removal that are neither the index's nor the log's. *)
Definition gone_key (d : Z) (h : BlobHash) (k : bytes) : Prop :=
  k = data_key a d ∨ k = metadata_key a d ∨ k = account_link_key a h ∨ k = bytes_key a ∨ k = messages_key a.

Lemma removal_effect c c1 d h idx sz van id v b m l :
  apply_ops c idx = Some c1 → Forall op_ok idx → (∀ k, (∀ f t, k ≠ term_key a Email f t) → c1 !! k = c !! k) →
  counter_value (c !! account_link_key a h) = Some l → is_i64 (l - 1) →
  ledger c a b m → is_i64 (b - sz) → is_i64 (m - 1) → Forall vanished_write van →
  ∃ c', let ops := (idx ++ [account_link_op a h (-1)]) ++ [WDelete (data_key a d); WDelete (metadata_key a d)]
      ++ adjust_ops a (- sz) (-1) ++ van ++ [WSet (entry_key a Email id) v] in
    apply_ops c ops = Some c' ∧ Forall op_ok ops ∧
    c' !! data_key a d = None ∧ c' !! metadata_key a d = None ∧ ledger c' a (b - sz) (m - 1) ∧
    counter_value (c' !! account_link_key a h) = Some (l - 1) ∧
    (∀ f t, c' !! term_key a Email f t = c1 !! term_key a Email f t) ∧
    ∀ k, ¬ gone_key d h k → (∀ f t, k ≠ term_key a Email f t) → (∀ id, k ≠ entry_key a EmailVanished id) →
      k ≠ entry_key a Email id → c' !! k = c !! k.
Proof.
  intros E1 Ok1 F1 Hl Hl1 Hled Hb Hm Hvan.
  set (c2 := <[account_link_key a h := i64_le (l - 1)]> c1).
  set (c3 := base.delete (metadata_key a d) (base.delete (data_key a d) c2)).
  assert (∀ k, k ≠ metadata_key a d → k ≠ data_key a d → k ≠ account_link_key a h → c3 !! k = c1 !! k) as F3.
  { intros k ? ? ?. unfold c3, c2. by rewrite !lookup_delete_ne, lookup_insert_ne. }
  assert (ledger c3 a b m) as Led3.
  { destruct Hled. split; (rewrite F3 by keys_differ); (rewrite F1 by (intros; keys_differ)); done. }
  destruct (ledger_add c3 a b m (- sz) (-1) Led3) as (c4 & E4 & Led4 & F4); [done..|].
  destruct (apply_vanished c4 van Hvan) as (c5 & E5 & F5 & Ok5).
  assert (∀ k, (∀ id, k ≠ entry_key a EmailVanished id) → k ≠ entry_key a Email id → k ≠ bytes_key a → k ≠ messages_key a →
    <[entry_key a Email id := v]> c5 !! k = c3 !! k) as F6.
  { intros k ? ? ? ?. rewrite lookup_insert_ne by done. rewrite F5 by done. by apply F4. }
  exists (<[entry_key a Email id := v]> c5). split_and!.
  - rewrite <-app_assoc, apply_ops_app, E1. cbn [mbind option_bind]. rewrite apply_ops_app. unfold account_link_op.
    rewrite (apply_add c1 _ l) by (done || (rewrite F1 by (intros; keys_differ); done)). cbn [mbind option_bind].
    change (l + -1) with (l - 1). fold c2. rewrite apply_ops_app. cbn [apply_ops apply_op mbind option_bind]. fold c3.
    rewrite apply_ops_app, E4. cbn [mbind option_bind]. by rewrite apply_ops_app, E5.
  - rewrite !Forall_app. split_and!; [done| | |apply adjust_ops_ok|done|].
    + constructor; [|constructor]. split; [apply known_key_encode|]. apply mergeable_key_encode. by right.
    + repeat constructor; apply known_key_encode.
    + repeat constructor; apply known_key_encode.
  - rewrite F6 by (intros; keys_differ). unfold c3. rewrite lookup_delete_ne by keys_differ. apply lookup_delete_eq.
  - rewrite F6 by (intros; keys_differ). apply lookup_delete_eq.
  - destruct Led4. split; rewrite lookup_insert_ne, F5 by (intros; keys_differ); done.
  - rewrite F6 by (intros; keys_differ). unfold c3. rewrite !lookup_delete_ne by keys_differ. unfold c2.
    rewrite lookup_insert_eq. by apply counter_value_i64_le.
  - intros f t. rewrite F6, F3 by (intros; keys_differ). done.
  - intros k Hk Hk1 Hk2 Hk3. unfold gone_key in Hk. rewrite F6, F3, F1; tauto || done.
Qed.

(** ** Deletion *)

(** The counters can be taken down, and there are change ids left. *)
Record removable others c docs (x : Stored) : Prop := {
  rm_bytes : is_i64 (total_size docs - msg_size (st_data x));
  rm_refs : is_i64 (others (blob_hash (st_metadata x)) + references docs (blob_hash (st_metadata x)) - 1);
  rm_changes n : counter_at c a Email n → n + Z.of_nat (length (mailboxes (st_data x))) < I64_MAX;
}.

(** What [delete_plan] has ready: the state differs by change ids taken, and
    the batch leads to contents [c'] without the message. *)
Record plan_ready c (s1 : S) docs (d : Z) (x : Stored) (ops : list WriteOp) c' : Prop := {
  pr_healthy : healthy s1;
  pr_frame k : k ≠ counter_key a Email → view s1 !! k = c !! k;
  pr_counter : ∃ n n', counter_at c a Email n ∧ counter_at (view s1) a Email n' ∧ n ≤ n' ≤ n + Z.of_nat (length (mailboxes (st_data x))) + 1;
  pr_apply : apply_ops (view s1) ops = Some c';
  pr_ok : Forall op_ok ops;
  pr_data : c' !! data_key a d = None;
  pr_metadata : c' !! metadata_key a d = None;
  pr_ledger : ledger c' a (total_size docs - msg_size (st_data x)) (Z.of_nat (size docs) - 1);
  pr_link : counter_value (c' !! account_link_key a (blob_hash (st_metadata x)))
    = Some (references docs (blob_hash (st_metadata x)) - 1);
  pr_index : indexed (R := R) a Email c' (λ f t y, has_term docs f t y ∧ y ≠ d);
  pr_rest k : ¬ gone_key d (blob_hash (st_metadata x)) k → (∀ f t, k ≠ term_key a Email f t) →
    (∀ id, k ≠ entry_key a EmailVanished id) → (∀ id, k ≠ entry_key a Email id) → c' !! k = view s1 !! k;
}.

Lemma delete_plan_spec others w docs d x :
  account_at (R := R) a others w docs → docs !! d = Some x → removable others (view (mw_store w)) docs x →
  ∃ s1 id ops c', delete_plan (R := R) a d w = (Ok (Some (Some (st_metadata x), ops, id)), mkWorld s1 (mw_blobs w) (mw_notices w)) ∧
    plan_ready (view (mw_store w)) s1 docs d x ops c'.
Proof.
  intros Hw Hd Hr. pose proof Hw as (Hs & Hb & Hrep). pose proof (rep_ids _ _ _ _ _ Hrep d x Hd) as Hu.
  destruct w as [s b notices]. cbn [mw_store mw_blobs mw_notices] in *. set (h := blob_hash (st_metadata x)) in *.
  destruct (rep_changes _ _ _ _ _ Hrep) as (n & Hn & Hn0 & _). pose proof (rm_changes _ _ _ _ Hr n Hn) as Hn1.
  destruct (vanished_ops_spec (mailboxes (st_data x)) [] s n) as (van & s1 & n1 & E1 & Hs1 & Hvan & Hc1 & Hn1' & F1 & _); [done..|lia|].
  destruct (allocate_spec a Email s1 n1 Hs1 Hc1) as (s2 & E2 & Hs2 & Hv2); [lia|].
  assert (∀ k, k ≠ counter_key a Email → view s2 !! k = view s !! k) as F2.
  { intros k ?. rewrite Hv2, lookup_insert_ne by done. by apply F1. }
  destruct (unindex_ops_spec others (view s2) docs d x (mkWorld s b notices) Hw Hd) as (idx & c1 & Ei & Ea & Hok & Hidx & Fi).
  { intros f t. apply F2. keys_differ. }
  destruct (removal_effect (view s2) c1 d h idx (msg_size (st_data x)) van (n1 + 1) (encode_value (mkEntry (n1 + 1) d ChangeLog.Delete))
    (total_size docs) (Z.of_nat (size docs)) (references docs h)) as (c' & E' & Hok' & Hd' & Hm' & Hl' & Hk' & Ht' & F'); try done.
  { rewrite F2 by keys_differ. apply (rep_links _ _ _ _ _ Hrep). }
  { pose proof (references_pos docs h d x Hd eq_refl). pose proof (counter_value_range _ _ (rep_links _ _ _ _ _ Hrep h)). width. }
  { destruct (rep_ledger _ _ _ _ _ Hrep). split; rewrite F2 by keys_differ; done. }
  { by eapply rm_bytes. }
  { destruct (rep_ledger _ _ _ _ _ Hrep) as [_ Hlm]. apply counter_value_range in Hlm. width. }
  exists s2, (n1 + 1), ((idx ++ [account_link_op a h (-1)]) ++ [WDelete (data_key a d); WDelete (metadata_key a d)]
      ++ adjust_ops a (- msg_size (st_data x)) (-1) ++ van
      ++ [WSet (entry_key a Email (n1 + 1)) (encode_value (mkEntry (n1 + 1) d ChangeLog.Delete))]), c'.
  split; [|split]; try done.
  - unfold delete_plan. unfold mbind at 1, M_bind at 1, ask_store at 1. rewrite (load_data_spec a others _ docs d Hw Hu), Hd.
    cbn [fmap option_fmap option_map]. unfold mbind at 1, M_bind at 1, ask_store at 1.
    rewrite (load_metadata_spec a others _ docs d Hw Hu), Hd. cbn [fmap option_fmap option_map].
    unfold mbind at 1, M_bind at 1. unfold mbind at 1, M_bind at 1, reads. rewrite Ei. unfold mret at 1, M_ret at 1.
    unfold mbind at 1, M_bind at 1, in_store at 1. cbn [mw_store mw_blobs mw_notices]. rewrite E1.
    unfold mbind at 1, M_bind at 1, in_store at 1, record_op. cbn [mw_store mw_blobs mw_notices].
    unfold mbind at 1, M_bind at 1. rewrite E2. done.
  - exists n, (n1 + 1). split; [done|]. split; [|lia]. unfold counter_at. rewrite Hv2, lookup_insert_eq. apply counter_value_i64_le. width.
  - intros f t. rewrite Ht'. apply Hidx.
  - intros k ? ? ? Hk. apply F'; auto.
Qed.

Ltac not_gone :=
  let H := fresh in let E := fresh in
  intros H; unfold gone_key in H; destruct H as [E|[E|[E|[E|E]]]]; revert E; keys_differ.

(** One more reference than before: the one that is still to be released. *)
Definition and_one (h : BlobHash) others : BlobHash → Z := λ h', others h' + if bool_decide (h = h') then 1 else 0.

(** The batch alone leaves the message's reference to its body. *)
Lemma batch_removed others w docs d x s1 ops c' :
  account_at (R := R) a others w docs → docs !! d = Some x → plan_ready (view (mw_store w)) s1 docs d x ops c' →
  removed_in (and_one (blob_hash (st_metadata x)) others) (view (mw_store w)) c' docs d x.
Proof.
  intros (_ & _ & Hrep) Hd [Hs1 F1 Hcnt Ea Hok Hdk Hmk Hled Hlink Hidx F].
  set (h := blob_hash (st_metadata x)) in *. pose proof (rep_ids _ _ _ _ _ Hrep d x Hd) as Hu. split; try done.
  - intros h'. rewrite F by first [not_gone|intros; keys_differ]. rewrite F1 by keys_differ.
    rewrite (rep_references _ _ _ _ _ Hrep). f_equal. unfold and_one. fold h. lia.
  - intros h'. destruct (decide (h = h')) as [<-|Hne].
    + by rewrite bool_decide_true.
    + rewrite bool_decide_false by done. rewrite F; [| |intros; keys_differ..].
      2:{ intros [E|[E|[E|[E|E]]]]; [revert E; keys_differ..| | |]; [by apply link_key_inj in E|revert E; keys_differ..]. }
      rewrite F1 by keys_differ. rewrite (rep_links _ _ _ _ _ Hrep). f_equal. lia.
  - destruct Hcnt as (n & n' & Hn & Hn' & ?). exists n, n'. split; [done|]. split; [|done]. unfold counter_at in *.
    rewrite F by first [not_gone|intros; keys_differ]. done.
  - apply (blobref_wf_frame a (view (mw_store w)) c' h Ha); [|apply (rep_wf _ _ _ _ _ Hrep)|].
    { unfold h. rewrite (proj1 (rep_bodies _ _ _ _ _ Hrep d x Hd)). done. }
    intros k Hsub Hk1 Hk2. rewrite F, F1; try done; try other_space.
    intros [E|[E|[E|[E|E]]]]; first [done|other_space_in E].
  - intros k Hk. rewrite F by first [not_gone|intros; keys_differ]. apply F1. keys_differ.
  - intros m Hm Hm0. rewrite F by first [not_gone|intros; keys_differ]. apply F1. by apply uid_key_counter.
  - intros d' Hu' Hne. rewrite !F; [|try (intros; keys_differ)..].
    + split; apply F1; keys_differ.
    + intros [E|[E|[E|[E|E]]]]; [revert E; keys_differ|by apply metadata_key_inj in E|revert E; keys_differ..].
    + intros [E|[E|[E|[E|E]]]]; [by apply data_key_inj in E|revert E; keys_differ..].
Qed.

(** Releasing it ends the removal. *)
Lemma released others c c' docs d x n :
  let h := blob_hash (st_metadata x) in
  removed_in (and_one h others) c c' docs d x → h ≠ [] → n = others h + references docs h - 1 → is_i64 n →
  removed_in others c (<[ref_count_key h := i64_le n]> c') docs d x.
Proof.
  intros h Hr Hh -> Hi. set (c'' := <[_ := _]> c').
  assert (∀ k, k ≠ ref_count_key h → c'' !! k = c' !! k) as F by (intros k ?; by apply lookup_insert_ne).
  split.
  - rewrite F by keys_differ. apply Hr.
  - rewrite F by keys_differ. apply Hr.
  - destruct (ri_ledger _ _ _ _ _ _ Hr). split; rewrite F by keys_differ; done.
  - intros h'. destruct (decide (h = h')) as [<-|Hne].
    + unfold c''. rewrite bool_decide_true, lookup_insert_eq by done. by apply counter_value_i64_le.
    + rewrite F by (intros ?%ref_count_key_inj; congruence). rewrite (ri_ref _ _ _ _ _ _ Hr). unfold and_one.
      fold h. rewrite !bool_decide_false by done. f_equal. lia.
  - intros h'. rewrite F by keys_differ. apply Hr.
  - intros f t. rewrite F by keys_differ. apply Hr.
  - unfold counter_at in *. rewrite F by keys_differ. apply Hr.
  - apply (blobref_wf_frame a c' c'' h Ha Hh (ri_wf _ _ _ _ _ _ Hr)). intros k _ ? _. by apply F.
  - intros k Hk. rewrite F by keys_differ. by apply Hr.
  - intros m ? ?. rewrite F by keys_differ. by apply (ri_uids _ _ _ _ _ _ Hr).
  - intros d' ? ?. rewrite !F by keys_differ. by apply (ri_others _ _ _ _ _ _ Hr).
Qed.

(** The batch and the release that follows it. *)
Lemma delete_commit_spec others w docs d x s1 b notices id ops c' :
  account_at (R := R) a others w docs → docs !! d = Some x → removable others (view (mw_store w)) docs x →
  plan_ready (view (mw_store w)) s1 docs d x ops c' →
  ∃ s2, delete_commit (S := S) (B := B) a (Some (st_metadata x), ops, id) (mkWorld s1 b notices)
      = (Ok tt, mkWorld s2 b (notices ++ [ChangeNotice a Email id])) ∧
    healthy s2 ∧ removed_in others (view (mw_store w)) (view s2) docs d x.
Proof.
  intros Hw Hd Hr Hp. pose proof (batch_removed others w docs d x s1 ops c' Hw Hd Hp) as Hrm.
  set (h := blob_hash (st_metadata x)) in *. pose proof (rm_refs _ _ _ _ Hr) as Hi. fold h in Hi.
  destruct (batch_spec ops s1 c' (pr_healthy _ _ _ _ _ _ _ Hp) (pr_ok _ _ _ _ _ _ _ Hp) (pr_apply _ _ _ _ _ _ _ Hp)) as (s2 & E2 & Hs2 & Hv2).
  assert (mergeable (ref_count_key h)) as Hmg by (apply mergeable_key_encode; by right).
  pose proof (ri_ref _ _ _ _ _ _ Hrm h) as Href. fold h in Href. unfold and_one in Href. rewrite bool_decide_true in Href by done.
  rewrite <-Hv2 in Href. destruct (add_and_get_spec (ref_count_key h) (-1) s2 _ Hs2 Hmg Href) as (s3 & E3 & Hs3 & Hv3).
  assert (others h + 1 + references docs h - 1 + -1 = others h + references docs h - 1) as En by lia.
  rewrite wrapping_add_i64_id in Hv3 by (rewrite En; exact Hi). rewrite En in Hv3.
  exists s3. split_and!; [|done|].
  - unfold delete_commit, release_message, mbind, M_bind, in_store, notify, mret, M_ret. cbn [mw_store mw_blobs mw_notices].
    rewrite E2. cbn [mw_store mw_blobs mw_notices]. fold h. rewrite E3. done.
  - rewrite Hv3, Hv2. apply released; try done. unfold h.
    destruct Hw as (_ & _ & Hrep). rewrite (proj1 (rep_bodies _ _ _ _ _ Hrep d x Hd)). done.
Qed.

Lemma delete_message_spec others w docs d :
  account_at (R := R) a others w docs → is_u32 d →
  (∀ x, docs !! d = Some x → removable others (view (mw_store w)) docs x) →
  ∃ w', delete_message (R := R) a d w = (Ok (bool_decide (is_Some (docs !! d))), w') ∧
    account_at (R := R) a others w' (base.delete d docs) ∧ uids_grow a (view (mw_store w)) (view (mw_store w')) ∧
    ids_used (view (mw_store w)) (view (mw_store w')) (match docs !! d with Some x => length (mailboxes (st_data x)) + 1 | None => 0 end).
Proof.
  intros Hw Hu Hr. destruct (docs !! d) as [x|] eqn:Hd.
  - destruct (delete_plan_spec others w docs d x Hw Hd (Hr x eq_refl)) as (s1 & id & ops & c' & Ep & Hp).
    destruct (delete_commit_spec others w docs d x s1 (mw_blobs w) (mw_notices w) id ops c' Hw Hd (Hr x eq_refl) Hp) as (s2 & Ec & Hs2 & Hrm).
    eexists. split_and!.
    + unfold delete_message, mbind at 1, M_bind at 1. rewrite Ep. unfold mbind, M_bind. rewrite Ec. done.
    + destruct Hw as (_ & Hb & Hrep). split_and!; [done|done|]. by eapply represents_removed.
    + intros m n Hm Hm0 Hn. exists n. split; [|done]. simpl. by rewrite (ri_uids _ _ _ _ _ _ Hrm).
    + split; [|by eapply ri_boxes]. intros n Hn. destruct (ri_changes _ _ _ _ _ _ Hrm) as (n0 & n' & Hn0 & Hn' & ?). unfold counter_at in *.
      rewrite Hn in Hn0. simplify_eq. exists n'. split; [done|]. lia.
  - exists w. rewrite delete_id by done. split_and!; [|done|intros m n ? ? ?; by exists n|split; [|done]; intros n ?; exists n; split; [done|lia]]. unfold delete_message, delete_plan.
    unfold mbind at 1, M_bind at 1. unfold mbind at 1, M_bind at 1, ask_store at 1. rewrite (load_data_spec a others _ docs d Hw Hu), Hd. done.
Qed.

(** C20. Deleting a message removes that message and nothing else: its two
    records, its terms in the index, its bytes and its place in the quota, and
    its references to the body go; every other message is read back as before,
    one with the same body included, and a message that is not there is
    reported as such. *)
Theorem delete_refines others w docs d :
  account_at (R := R) a others w docs → is_u32 d →
  (∀ x, docs !! d = Some x → removable others (view (mw_store w)) docs x) →
  ∃ w', delete_message (R := R) a d w = (Ok (bool_decide (is_Some (docs !! d))), w') ∧
    account_at (R := R) a others w' (base.delete d docs) ∧
    load_raw a d w' = Ok None ∧ ∀ d', is_u32 d' → d' ≠ d → load_raw a d' w' = load_raw a d' w.
Proof.
  intros Hw Hu Hr. destruct (delete_message_spec others w docs d Hw Hu Hr) as (w' & E & Hw' & _). exists w'. split_and!; [done..| |].
  - rewrite (load_raw_spec a others w' _ d Hw'), lookup_delete_eq by done. done.
  - intros d' Hu' Hne. rewrite (load_raw_spec a others w' _ d' Hw'), (load_raw_spec a others w _ d' Hw) by done. by rewrite lookup_delete_ne.
Qed.
End removing.
