(* ===== verification/MailHistory.v ===== *)
(** * Mail: an account's history (crates/mail/src: read.rs, deliver.rs, purge.rs)

    Changing a message, the purge, a deletion that stops half way and what
    other accounts do are steps beside delivery, appending and deletion.  Over
    any sequence of steps the account's records, counters and bodies agree
    with an abstract account, a map of messages. *)

From S2P Require Import Prelude Bytes Key Store ChangeLog Quota Text Fts Blobs MailParser Sieve MailModel MailMessage MailStore MailRep MailFile MailRemove.
From stdpp Require Import base gmap list strings.
From Stdlib Require Import ZArith Lia.

Open Scope Z_scope.

Section history.
Context {S B R : Type} {store : Store S} {contract : StoreSpec S} `{Bitmap R} {laws : BitmapLaws R}.
Context `{BlobStore B} {blob_contract : BlobSpec B}.
Context `{Unicode} `{MailParser} `{MailCodec} {codec_laws : MailCodecLaws} {digest_inj : Inj (=) (=) digest}.
Context (digest_nonempty : ∀ raw, digest raw ≠ []) (a : Z) (Ha : is_u32 a).
Implicit Types (c : contents) (docs : maildrop) (s : S) (others : BlobHash → Z).
Abbreviation W := (MailWorld S B).

(** ** Changing a message *)

(** What a change may do: the size stays, no mailbox occurs twice, and a place
    the message did not have is one that was handed out and is not in use. *)
Record change_ok c docs (x : Stored) (data' : MessageData) : Prop := {
  co_size : msg_size data' = msg_size (st_data x);
  co_places : NoDup (mu_mailbox <$> mailboxes data') ∧ Forall (λ e, is_u32 (mu_mailbox e) ∧ mu_mailbox e ≠ 0) (mailboxes data');
  co_new e : e ∈ mailboxes data' → e ∈ mailboxes (st_data x) ∨
    (∃ n, counter_value (c !! uid_counter_key a (mu_mailbox e)) = Some n ∧ 1 ≤ mu_uid e ≤ n) ∧ ∀ d, ¬ placed docs d e;
  co_changes n : counter_at c a Email n → n + Z.of_nat (length (mailboxes (st_data x))) < I64_MAX;
}.

(** Flags may change and places may go. *)
Lemma change_ok_fewer others c bodies docs d x data' :
  represents (R := R) a others c bodies docs → docs !! d = Some x → msg_size data' = msg_size (st_data x) →
  mailboxes data' `sublist_of` mailboxes (st_data x) →
  (∀ n, counter_at c a Email n → n + Z.of_nat (length (mailboxes (st_data x))) < I64_MAX) → change_ok c docs x data'.
Proof.
  intros Hrep Hd Hsz Hsub Hn. destruct (rep_places _ _ _ _ _ Hrep d x Hd) as [Hnd Hok]. split; [done| | |done].
  - split; [by eapply sublist_NoDup, fmap_sublist|]. rewrite Forall_forall in *. intros e He. apply Hok. by eapply elem_of_sublist.
  - intros e He. left. by eapply elem_of_sublist.
Qed.

(** The UID counters stay. *)
Definition uids_kept c c' : Prop := ∀ m, is_u32 m → m ≠ 0 → c' !! uid_counter_key a m = c !! uid_counter_key a m.
Lemma uids_kept_grow c c' : uids_kept c c' → uids_grow a c c'.
Proof. intros F m n Hm Hm0 Hn. exists n. split; [by rewrite F|done]. Qed.

Definition with_data (x : Stored) (data' : MessageData) : Stored := mkStored data' (st_metadata x) (st_raw x).

Lemma fold_replace (f : Stored → Z) docs d x y :
  docs !! d = Some x → f y = f x →
  map_fold (λ _ x, Z.add (f x)) 0 (<[d := y]> docs) = map_fold (λ _ x, Z.add (f x)) 0 docs.
Proof.
  intros Hd E. rewrite <-insert_delete_eq, map_fold_add_insert by apply lookup_delete_eq.
  rewrite (map_fold_add_delete _ _ _ _ Hd). lia.
Qed.

Lemma placed_change docs d x data' d' e :
  docs !! d = Some x → placed (<[d := with_data x data']> docs) d' e → d' = d ∧ e ∈ mailboxes data' ∨ d' ≠ d ∧ placed docs d' e.
Proof.
  intros Hd (y & Hy & He). apply lookup_insert_Some in Hy as [[<- <-]|[Hne Hy]]; [by left|]. right. split; [done|]. by exists y.
Qed.

Lemma represents_changed others c c' bodies docs d x data' b n n' id :
  represents (R := R) a others c bodies docs → docs !! d = Some x → change_ok c docs x data' →
  archive_data data' = Ok b → c' !! data_key a d = Some b →
  counter_at c a Email n → counter_at c' a Email n' → n ≤ n' →
  (∀ k, k ≠ data_key a d → k ≠ counter_key a Email → (∀ id, k ≠ entry_key a EmailVanished id) → k ≠ entry_key a Email id →
     c' !! k = c !! k) →
  represents (R := R) a others c' bodies (<[d := with_data x data']> docs).
Proof.
  intros Hrep Hd Hco Eb Hb Hn Hn' Hle F. set (x' := with_data x data').
  pose proof (rep_ids _ _ _ _ _ Hrep d x Hd) as Hu.
  assert (∀ d' y, <[d := x']> docs !! d' = Some y → ∃ z, docs !! d' = Some z ∧ st_metadata y = st_metadata z ∧
    st_raw y = st_raw z ∧ msg_size (st_data y) = msg_size (st_data z)) as Hold.
  { intros d' y [[<- <-]|[_ Hy]]%lookup_insert_Some; [exists x|by exists y]. split_and!; try done. apply (co_size _ _ _ _ Hco). }
  split.
  - intros d' y (z & Hz & _)%Hold. by eapply rep_ids.
  - intros d' Hu'. destruct (decide (d' = d)) as [->|Hne].
    + rewrite lookup_insert_eq, Hb. simpl. by rewrite Eb.
    + rewrite lookup_insert_ne, F by (done || (intros; first [keys_differ|intros E; by apply data_key_inj in E])). by eapply rep_data.
  - intros d' Hu'. rewrite F by (intros; keys_differ). rewrite (rep_metadata _ _ _ _ _ Hrep d' Hu').
    destruct (decide (d' = d)) as [->|Hne]; [by rewrite lookup_insert_eq, Hd|by rewrite lookup_insert_ne].
  - unfold total_size. rewrite (fold_replace (λ y, msg_size (st_data y)) docs d x x' Hd (co_size _ _ _ _ Hco)), map_size_insert, Hd.
    destruct (rep_ledger _ _ _ _ _ Hrep). split; rewrite F by (intros; keys_differ); done.
  - intros h. rewrite F by (intros; keys_differ). unfold references. rewrite (fold_replace _ docs d x x' Hd) by done. by eapply rep_links.
  - intros h. rewrite F by (intros; keys_differ). unfold references. rewrite (fold_replace _ docs d x x' Hd) by done. by eapply rep_references.
  - intros m Hm Hm0. rewrite F; [|keys_differ|by apply uid_key_counter|intros; keys_differ|keys_differ].
    destruct (rep_uids _ _ _ _ _ Hrep m Hm Hm0) as (n0 & Hn0 & ? & Hp). exists n0. split_and!; [done|done|].
    intros d' u [[-> He]|[_ Hx]]%placed_change; [|by eapply Hp|done].
    destruct (co_new _ _ _ _ Hco _ He) as [Hin|[(n1 & Hn1 & ?) _]]; [apply (Hp d); by exists x|]. simpl in *. rewrite Hn0 in Hn1. by simplify_eq.
  - intros d1 d2 e [[-> E1]|[N1 P1]]%placed_change [[-> E2]|[N2 P2]]%placed_change; try done.
    + destruct (co_new _ _ _ _ Hco e E1) as [Hin|[_ Hno]]; [|by apply Hno in P2]. eapply rep_unique; [done|by exists x|done].
    + destruct (co_new _ _ _ _ Hco e E2) as [Hin|[_ Hno]]; [|by apply Hno in P1]. eapply rep_unique; [done|done|by exists x].
    + by eapply rep_unique.
  - intros d' y [[<- <-]|[_ Hy]]%lookup_insert_Some; [apply (co_places _ _ _ _ Hco)|by eapply rep_places].
  - destruct (rep_changes _ _ _ _ _ Hrep) as (n0 & Hn0 & ? & Hall). unfold counter_at in *. rewrite Hn0 in Hn. simplify_eq.
    exists n'. split_and!; [done|lia|]. intros d' y (z & Hz%Hall & _)%Hold. lia.
  - intros f t. rewrite F by (intros; keys_differ). destruct (rep_index _ _ _ _ _ Hrep f t) as (X & HX & Hin). exists X.
    split; [done|]. intros y. rewrite Hin. unfold has_term. split.
    + intros (z & Hz & ?). destruct (decide (y = d)) as [->|]; [|exists z; by rewrite lookup_insert_ne].
      exists x'. rewrite lookup_insert_eq. rewrite Hd in Hz. by simplify_eq.
    + intros (z & (z' & ? & _ & E & _)%Hold & ?). exists z'. by rewrite <-E.
  - intros d' y (z & Hz & -> & -> & _)%Hold. by eapply rep_bodies.
  - intros d' y (z & Hz & _ & _ & ->)%Hold. by eapply rep_sizes.
  - intros k v Hk Hsub. apply (rep_wf _ _ _ _ _ Hrep k v); [|done]. rewrite <-F; [done|try other_space..].
Qed.

Lemma update_message_spec others (w : W) docs d x mutate data' :
  account_at (R := R) a others w docs → docs !! d = Some x → mutate (st_data x) = Ok data' →
  change_ok (view (mw_store w)) docs x data' →
  ∃ w', update_message a d mutate w = (Ok true, w') ∧
    account_at (R := R) a others w' (<[d := with_data x data']> docs) ∧ uids_kept (view (mw_store w)) (view (mw_store w')) ∧
    ids_used a (view (mw_store w)) (view (mw_store w')) (length (mailboxes (st_data x)) + 1).
Proof.
  intros Hw Hd Hmut Hco. pose proof Hw as (Hs & Hb & Hrep). pose proof (rep_ids _ _ _ _ _ Hrep d x Hd) as Hu.
  destruct w as [s b notices]. cbn [mw_store mw_blobs mw_notices] in *.
  destruct (rep_changes _ _ _ _ _ Hrep) as (n & Hn & Hn0 & _). pose proof (co_changes _ _ _ _ Hco n Hn) as Hn1.
  destruct (archived_data data') as [bd Ed].
  destruct (vanished_ops_spec a (mailboxes (st_data x)) (mailboxes data') s n) as (van & s1 & n1 & E1 & Hs1 & Hvan & Hc1 & Hn1' & F1 & _); [done..|lia|].
  destruct (allocate_spec a Email s1 n1 Hs1 Hc1) as (s2 & E2 & Hs2 & Hv2); [lia|].
  set (v := encode_value (mkEntry (n1 + 1) d ChangeLog.Update)).
  destruct (apply_vanished a (<[data_key a d := bd]> (view s2)) van Hvan) as (c5 & E5 & F5 & Ok5).
  set (c' := <[entry_key a Email (n1 + 1) := v]> c5).
  destruct (batch_spec (WSet (data_key a d) bd :: van ++ [WSet (entry_key a Email (n1 + 1)) v]) s2 c') as (s3 & E3 & Hs3 & Hv3); [done| | |].
  { constructor; [split; [apply known_key_encode|done]|]. apply Forall_app. split; [done|]. repeat constructor; apply known_key_encode. }
  { cbn [apply_ops apply_op mbind option_bind]. rewrite apply_ops_app, E5. done. }
  assert (∀ k, k ≠ data_key a d → (∀ id, k ≠ entry_key a EmailVanished id) → k ≠ entry_key a Email (n1 + 1) →
    view s3 !! k = view s2 !! k) as F.
  { intros k ? ? ?. rewrite Hv3. unfold c'. rewrite lookup_insert_ne by done. rewrite F5 by done. by rewrite lookup_insert_ne. }
  assert (∀ k, k ≠ counter_key a Email → view s2 !! k = view s !! k) as F2.
  { intros k ?. rewrite Hv2, lookup_insert_ne by done. by apply F1. }
  exists (mkWorld s3 b (notices ++ [ChangeNotice a Email (n1 + 1)])). split_and!.
  - unfold update_message. unfold mbind at 1, M_bind at 1, ask_store at 1. rewrite (load_data_spec a others _ docs d Hw Hu), Hd.
    cbn [fmap option_fmap option_map]. unfold mbind at 1, M_bind at 1, lift at 1. rewrite Hmut.
    unfold mbind at 1, M_bind at 1, lift at 1. rewrite Ed.
    unfold mbind at 1, M_bind at 1, in_store at 1. cbn [mw_store mw_blobs mw_notices]. rewrite E1.
    unfold mbind at 1, M_bind at 1, in_store at 1, record_op. cbn [mw_store mw_blobs mw_notices].
    unfold mbind at 1, M_bind at 1. rewrite E2. cbn [mret M_ret fst snd]. fold v.
    unfold mbind at 1, M_bind at 1, in_store at 1. cbn [mw_store mw_blobs mw_notices]. rewrite E3. done.
  - split_and!; [done|done|]. cbn [mw_store mw_blobs].
    eapply (represents_changed others (view s) (view s3) (bview b) docs d x data' bd n (n1 + 1) (n1 + 1)); try done.
    + rewrite Hv3. unfold c'. rewrite lookup_insert_ne by keys_differ. rewrite F5 by (intros; keys_differ). apply lookup_insert_eq.
    + unfold counter_at. rewrite F by (intros; keys_differ). rewrite Hv2, lookup_insert_eq. apply counter_value_i64_le. width.
    + lia.
    + intros k ? ? ? ?. rewrite F by done. by apply F2.
  - intros m Hm Hm0. simpl. rewrite F by (intros; keys_differ). rewrite F2; [done|]. by apply uid_key_counter.
  - split; [|intros k Hk; simpl; rewrite F by (intros; keys_differ); apply F2; keys_differ].
    intros n0 Hn'. unfold counter_at in *. cbn [mw_store] in *. rewrite Hn in Hn'. injection Hn' as <-. exists (n1 + 1). split; [|lia].
    rewrite F by (intros; keys_differ). rewrite Hv2, lookup_insert_eq. apply counter_value_i64_le. width.
Qed.

(** ** A deletion that stops after its batch *)

(** The process ends between the batch and the release. *)
Definition delete_crash (d : Z) : M W unit :=
  plan ← delete_plan (R := R) a d;
  match plan return M W unit with
  | None => mret tt
  | Some (_, ops, _) => in_store (st_batch ops)
  end.

(** The body keeps a reference nobody holds; nothing else is wrong. *)
Definition leaked docs (d : Z) others : BlobHash → Z :=
  match docs !! d with Some x => and_one (blob_hash (st_metadata x)) others | None => others end.
Lemma delete_crash_spec others (w : W) docs d :
  account_at (R := R) a others w docs → is_u32 d → (∀ x, docs !! d = Some x → removable a others (view (mw_store w)) docs x) →
  ∃ w', delete_crash d w = (Ok tt, w') ∧ account_at (R := R) a (leaked docs d others) w' (base.delete d docs) ∧
    uids_grow a (view (mw_store w)) (view (mw_store w')).
Proof.
  intros Hw Hu Hr. unfold leaked. destruct (docs !! d) as [x|] eqn:Hd.
  - destruct (delete_plan_spec a Ha others w docs d x Hw Hd (Hr x eq_refl)) as (s1 & id & ops & c' & Ep & Hp).
    destruct (batch_spec ops s1 c' (pr_healthy _ _ _ _ _ _ _ _ Hp) (pr_ok _ _ _ _ _ _ _ _ Hp) (pr_apply _ _ _ _ _ _ _ _ Hp)) as (s2 & E2 & Hs2 & Hv2).
    pose proof (batch_removed digest_nonempty a Ha others w docs d x s1 ops c' Hw Hd Hp) as Hrm.
    exists (mkWorld s2 (mw_blobs w) (mw_notices w)). split_and!.
    + unfold delete_crash, mbind, M_bind. rewrite Ep. unfold in_store. cbn [mw_store mw_blobs mw_notices]. by rewrite E2.
    + destruct Hw as (_ & Hb & Hrep). split_and!; [done|done|]. cbn [mw_store mw_blobs]. rewrite Hv2. by eapply represents_removed.
    + intros m n Hm Hm0 Hn. exists n. split; [|done]. simpl. rewrite Hv2. by rewrite (ri_uids _ _ _ _ _ _ _ Hrm).
  - exists w. rewrite delete_id by done. split_and!; [|done|intros m n ? ? ?; by exists n]. unfold delete_crash, delete_plan.
    unfold mbind at 1, M_bind at 1. unfold mbind at 1, M_bind at 1, ask_store at 1. rewrite (load_data_spec a others _ docs d Hw Hu), Hd. done.
Qed.

(** ** The purge *)

Definition purge_world (now grace : Z) : M W nat := λ w,
  let '(r, (s, b)) := purge_orphans now grace (mw_store w, mw_blobs w) in (r, mkWorld s b (mw_notices w)).

Lemma count_spent_value v n : counter_value (Some v) = Some n → count_spent v = true → n ≤ 0.
Proof. unfold counter_value, count_spent. destruct (_ =? _)%nat; intros ? ?; [|done]. simplify_eq/=. by apply Z.leb_le. Qed.

(** A count of the references that is not negative reads the same when its row
    is gone. *)
Lemma purged_count c c' k n :
  (c' !! k = c !! k ∨ c' !! k = None ∧ disposable c k) → (∀ a h, is_u32 a → k ≠ reservation_key a h) →
  counter_value (c !! k) = Some n → 0 ≤ n → counter_value (c' !! k) = Some n.
Proof.
  intros [->|[-> (v & Hv & _ & Hsp)]] Hk Hn H0'; [done|]. rewrite Hv in Hn. destruct Hsp as [Hsp|(b & h & ? & ->)]; [|by destruct (Hk b h)].
  pose proof (count_spent_value v n Hn Hsp). simpl. f_equal. lia.
Qed.
Lemma ref_not_reservation h b h' : is_u32 b → ref_count_key h ≠ reservation_key b h'.
Proof.
  rewrite ref_count_key_eq, reservation_key_eq. intros ? E.
  apply blobref_key_inj in E as (_ & E & _); [discriminate E|width|width|done|width].
Qed.
Lemma link_not_reservation h b h' : is_u32 b → account_link_key a h ≠ reservation_key b h'.
Proof.
  rewrite account_link_key_eq, reservation_key_eq. intros ? E.
  apply blobref_key_inj in E as (_ & E & _); [discriminate E|done|width|done|width].
Qed.
Lemma references_nonneg docs h : 0 ≤ references docs h.
Proof. apply map_fold_add_nonneg. intros. case_bool_decide; lia. Qed.

(** The purge takes nothing that a message needs. *)
Lemma purge_world_spec others (w : W) docs now grace :
  account_at (R := R) a others w docs → (∀ h, 0 ≤ others h) →
  ∃ n w', purge_world now grace w = (Ok n, w') ∧ account_at (R := R) a others w' docs ∧
    uids_grow a (view (mw_store w)) (view (mw_store w')).
Proof.
  intros (Hs & Hb & Hrep) Ho. destruct w as [s b notices]. cbn [mw_store mw_blobs] in *.
  destruct (purge_orphans_stages now grace s b Hs Hb (rep_wf _ _ _ _ _ Hrep)) as
    (s' & b' & n & os & res & E & Hs' & Hb' & _ & Hos & _ & Hbv & Hkeep & F).
  assert (∀ k, subspace_of k ≠ Some BlobRef → view s' !! k = view s !! k) as F'.
  { intros k Hk. destruct (F k) as [?|[_ (v & _ & ? & _)]]; done. }
  exists n, (mkWorld s' b' notices). split_and!; [unfold purge_world; cbn [mw_store mw_blobs]; by rewrite E| |].
  2:{ intros m k _ _ Hk. exists k. split; [|done]. simpl. by rewrite F'. }
  split_and!; [done|done|]. cbn [mw_store mw_blobs]. destruct Hrep. split; try done.
  - intros d Hd. rewrite F' by done. auto.
  - intros d Hd. rewrite F' by done. auto.
  - destruct rep_ledger. split; by rewrite F'.
  - intros h. apply (purged_count (view s)); [apply F|intros; by apply link_not_reservation|done|apply references_nonneg].
  - intros h. apply (purged_count (view s)); [apply F|intros; by apply ref_not_reservation|done|].
    pose proof (references_nonneg docs h). specialize (Ho h). lia.
  - intros m Hm Hm0. rewrite F' by done. auto.
  - destruct rep_changes as (k & Hk & ?). exists k. split; [|done]. unfold counter_at. by rewrite F'.
  - intros f t. rewrite F' by done. apply rep_index.
  - intros d x Hd. destruct (rep_bodies d x Hd) as (Hh & t & Ht). split; [done|]. exists t.
    destruct (Hkeep (digest (st_raw x))) as [Hn|Hk]; [|by rewrite Hk]. exfalso.
    pose proof (rep_references (digest (st_raw x))) as Hrf. pose proof (references_pos docs _ d x Hd Hh).
    specialize (Ho (digest (st_raw x))). apply Hbv in Hn as [Hn|[Hin|(_ & _ & _ & _ & _ & Hn)]].
    + congruence.
    + apply list_elem_of_fmap in Hin as ([k h'] & Eh & [_ (_ & -> & v & Hv & Hsp)%Hos]%list_elem_of_filter). simpl in Eh.
      rewrite <-Eh in Hv. rewrite Hv in Hrf. pose proof (count_spent_value _ _ Hrf Hsp). lia.
    + rewrite Hn in Hrf. simpl in Hrf. simplify_eq. lia.
  - intros k v Hk Hsub. destruct (F k) as [Hf|[Hf _]]; [|congruence]. apply (rep_wf k v); [|done]. congruence.
Qed.

(** ** What other writers may do *)

(** Rows of the account's mail. *)
Definition own (k : bytes) : Prop := take 5 (drop 1 k) = u32_be a ++ [collection_as_byte Email].
Lemma own_key k : key_account_id k = a → key_collection k = Email → own (key_encode k).
Proof.
  intros E1 E2. unfold own, key_encode. cbn [app drop]. rewrite drop_0, E1, E2, cons_middle, app_assoc.
  apply take_app_length'. by rewrite length_app, length_u32_be.
Qed.

(** The account's state hangs on its own rows, on the counts of references, and
    on the bodies it links to. *)
Lemma represents_frame others others' c c' bodies bodies' docs :
  represents (R := R) a others c bodies docs →
  (∀ k, own k → k ≠ counter_key a Email → c' !! k = c !! k) →
  (∃ n n', counter_at c a Email n ∧ counter_at c' a Email n' ∧ n ≤ n') →
  (∀ h, counter_value (c' !! ref_count_key h) = Some (others' h + references docs h)) →
  (∀ h raw t, bodies !! h = Some (raw, t) → 0 < references docs h → ∃ t', bodies' !! h = Some (raw, t')) →
  blobref_wf c' → represents (R := R) a others' c' bodies' docs.
Proof.
  intros [] F (n & n' & Hn & Hn' & Hle) Href Hbod Hwf.
  assert (∀ k, key_account_id k = a → key_collection k = Email → key_encode k ≠ counter_key a Email → c' !! key_encode k = c !! key_encode k) as F'.
  { intros k ? ? ?. apply F; [by apply own_key|done]. }
  split; try done.
  - intros d Hd. unfold data_key. rewrite F' by (done || keys_differ). by apply rep_data.
  - intros d Hd. unfold metadata_key. rewrite F' by (done || keys_differ). by apply rep_metadata.
  - destruct rep_ledger. split; unfold bytes_key, messages_key; rewrite F' by (done || keys_differ); done.
  - intros h. unfold account_link_key. rewrite F' by (done || keys_differ). apply rep_links.
  - intros m Hm Hm0. unfold uid_counter_key. rewrite F'; [by apply rep_uids|done|done|by apply uid_key_counter].
  - destruct rep_changes as (n0 & Hn0 & ? & Hall). unfold counter_at in *. rewrite Hn0 in Hn. simplify_eq.
    exists n'. split_and!; [done|lia|]. intros d x Hd%Hall. lia.
  - intros f t. unfold term_key. rewrite F' by (done || keys_differ). apply rep_index.
  - intros d x Hd. destruct (rep_bodies d x Hd) as (Hh & t & Ht). split; [done|].
    apply (Hbod _ _ _ Ht). by eapply references_pos.
Qed.
Lemma uids_frame c c' : (∀ k, own k → k ≠ counter_key a Email → c' !! k = c !! k) → uids_grow a c c'.
Proof.
  intros F m n Hm Hm0 Hn. exists n. split; [|done]. rewrite F; [done|by apply own_key|by apply uid_key_counter].
Qed.

(** A new document id is above all that are in use. *)
Lemma allocate_document_spec others (w : W) docs n :
  account_at (R := R) a others w docs → counter_at (view (mw_store w)) a Email n → n < U32_MAX →
  ∃ w', in_store (allocate_document_id a) w = (Ok (n + 1), w') ∧ account_at (R := R) a others w' docs ∧
    docs !! (n + 1) = None ∧ is_u32 (n + 1) ∧ counter_at (view (mw_store w')) a Email (n + 1) ∧
    (∀ k, k ≠ counter_key a Email → view (mw_store w') !! k = view (mw_store w) !! k).
Proof.
  intros (Hs & Hb & Hrep) Hn Hmax. destruct w as [s b notices]. cbn [mw_store mw_blobs mw_notices] in *.
  destruct (rep_changes _ _ _ _ _ Hrep) as (n0 & Hn0 & H0' & Hall).
  assert (n0 = n) as -> by (unfold counter_at in *; congruence).
  destruct (add_and_get_spec (counter_key a Email) 1 s n Hs) as (s1 & E1 & Hs1 & Hv1); [apply mergeable_key_encode; by left|done|].
  rewrite wrapping_add_i64_id in E1, Hv1 by width.
  assert (∀ k, k ≠ counter_key a Email → view s1 !! k = view s !! k) as F by (intros; by rewrite Hv1, lookup_insert_ne).
  assert (counter_at (view s1) a Email (n + 1)) as Hn1.
  { unfold counter_at. rewrite Hv1, lookup_insert_eq. apply counter_value_i64_le. width. }
  exists (mkWorld s1 b notices). cbn [mw_store mw_blobs]. split_and!; try done.
  - unfold in_store, allocate_document_id, mbind, M_bind. cbn [mw_store mw_blobs mw_notices].
    change (document_counter_key a) with (counter_key a Email). rewrite E1. unfold mret, M_ret. by rewrite as_u32_small by width.
  - split_and!; [done|done|]. cbn [mw_store mw_blobs].
    eapply (represents_frame others others (view s) (view s1) (bview b) (bview b) docs); [done|auto|exists n, (n + 1); split_and!; [done|done|lia]| | |].
    + intros h. rewrite F by keys_differ. by eapply rep_references.
    + intros h raw t Ht _. by exists t.
    + intros k v Hk Hsub. apply (rep_wf _ _ _ _ _ Hrep k v); [|done]. rewrite <-F; [done|other_space].
  - destruct (docs !! (n + 1)) as [x|] eqn:Hd; [|done]. apply Hall in Hd. lia.
  - width.
Qed.

(** ** Steps *)

(** One message of an IMAP COPY, or of a MOVE from [source], into a mailbox it
    is not in yet. *)
Definition copy_one (target : Mailbox) (source : option Z) (d : Z) : M W bool :=
  uid ← in_store (next_uid target a);
  update_message a d (λ data,
    let data := (add_mailbox (mb_id target) uid data).2 in
    Ok (match source with Some m => (remove_mailbox m data).2 | None => data end)).

Inductive mail_event : Type :=
  | EvDeliver (rq : DeliveryRequest) (clock : Z)
  | EvAppend (rq : AppendRequest) (clock : Z)
  | EvUpdate (d : Z) (mutate : MessageData → result MessageData)
  | EvCopy (target : Mailbox) (source : option Z) (d : Z)
  | EvDelete (d : Z)
  | EvDeleteCrash (d : Z)
  | EvPurge (now grace : Z).

(** Document ids are allocated before a message is delivered or appended. *)
Definition for_document (d : Z) (rq : DeliveryRequest) : DeliveryRequest :=
  mkRequest (rq_account rq) (rq_mailboxes rq) (rq_sieve rq) (rq_mail_from rq) (rq_recipient rq) d (rq_raw rq)
    (rq_target_override rq) (rq_received_at rq).
Definition append_document (d : Z) (rq : AppendRequest) : AppendRequest :=
  mkAppend (ap_account rq) (ap_mailbox rq) (ap_flags rq) (ap_received_at rq) d (ap_raw rq).

Definition exec (ev : mail_event) : M W unit :=
  match ev return M W unit with
  | EvDeliver rq clock => d ← in_store (allocate_document_id a); _ ← deliver (R := R) (for_document d rq) clock; mret tt
  | EvAppend rq clock => d ← in_store (allocate_document_id a); _ ← append_message (R := R) (append_document d rq) clock; mret tt
  | EvUpdate d mutate => _ ← update_message a d mutate; mret tt
  | EvCopy target source d => _ ← copy_one target source d; mret tt
  | EvDelete d => _ ← delete_message (R := R) a d; mret tt
  | EvDeleteCrash d => delete_crash d
  | EvPurge now grace => _ ← purge_world now grace; mret tt
  end.

(** What the steps do to the abstract account, with the places they give. *)
Inductive step : mail_event → maildrop → (BlobHash → Z) → maildrop → (BlobHash → Z) → list MailboxUid → Prop :=
  | step_deliver rq clock docs o d x :
      not_filed docs rq = false → docs !! d = None → st_raw x = rq_raw rq →
      step (EvDeliver rq clock) docs o (<[d := x]> docs) o (mailboxes (st_data x))
  | step_refuse rq clock docs o : not_filed docs rq = true → step (EvDeliver rq clock) docs o docs o []
  | step_append rq clock docs o d x :
      is_over_quota (enforce_quota (limits_for (ap_account rq)) (usage_of docs) (Z.of_nat (length (ap_raw rq)))) = false →
      docs !! d = None → st_raw x = ap_raw rq → mu_mailbox <$> mailboxes (st_data x) = [mb_id (ap_mailbox rq)] →
      step (EvAppend rq clock) docs o (<[d := x]> docs) o (mailboxes (st_data x))
  | step_append_full rq clock docs o :
      is_over_quota (enforce_quota (limits_for (ap_account rq)) (usage_of docs) (Z.of_nat (length (ap_raw rq)))) = true →
      step (EvAppend rq clock) docs o docs o []
  | step_update d mutate docs o x data' :
      docs !! d = Some x → mutate (st_data x) = Ok data' →
      step (EvUpdate d mutate) docs o (<[d := with_data x data']> docs) o []
  | step_copy target source d docs o x data' uid :
      docs !! d = Some x →
      mailboxes data' = filter (λ e, Some (mu_mailbox e) ≠ source) (mailboxes (st_data x) ++ [mkMailboxUid (mb_id target) uid]) →
      step (EvCopy target source d) docs o (<[d := with_data x data']> docs) o [mkMailboxUid (mb_id target) uid]
  | step_delete d docs o : step (EvDelete d) docs o (base.delete d docs) o []
  | step_crash d docs o : step (EvDeleteCrash d) docs o (base.delete d docs) (leaked docs d o) []
  | step_purge now grace docs o : step (EvPurge now grace) docs o docs o [].

(** What a step needs of its input: numbers that have room, and mailboxes and
    messages as the callers pass them. *)
Record deliverable (w : W) docs others (rq : DeliveryRequest) : Prop := {
  dl_account : store_id (rq_account rq) = a;
  dl_parsed : is_ok (ingest [] (rq_raw rq)) = true;
  dl_inbox : is_ok (find_inbox (rq_mailboxes rq)) = true;
  dl_mailboxes : Forall mailbox_ok (rq_mailboxes rq);
  dl_uids : Forall (uid_left a (view (mw_store w))) (rq_mailboxes rq);
  dl_room : room a others (view (mw_store w)) docs (rq_raw rq);
  dl_ids n : counter_at (view (mw_store w)) a Email n → n < U32_MAX;
}.
Record appendable (w : W) docs others (rq : AppendRequest) : Prop := {
  al_account : store_id (ap_account rq) = a;
  al_parsed : is_ok (ingest [] (ap_raw rq)) = true;
  al_mailbox : mailbox_ok (ap_mailbox rq);
  al_uid : uid_left a (view (mw_store w)) (ap_mailbox rq);
  al_room : room a others (view (mw_store w)) docs (ap_raw rq);
  al_ids n : counter_at (view (mw_store w)) a Email n → n < U32_MAX;
}.
(** Flags and mailboxes may go; nothing is added to the places. *)
Record changeable (w : W) docs (d : Z) (mutate : MessageData → result MessageData) : Prop := {
  cg_there : is_Some (docs !! d);
  cg_change x : docs !! d = Some x → ∃ data', mutate (st_data x) = Ok data' ∧ msg_size data' = msg_size (st_data x) ∧
    mailboxes data' `sublist_of` mailboxes (st_data x);
  cg_changes x n : docs !! d = Some x → counter_at (view (mw_store w)) a Email n →
    n + Z.of_nat (length (mailboxes (st_data x))) < I64_MAX;
}.
Record copyable (w : W) docs (target : Mailbox) (d : Z) : Prop := {
  cp_there : is_Some (docs !! d);
  cp_target : mailbox_ok target;
  cp_uid : uid_left a (view (mw_store w)) target;
  cp_new x : docs !! d = Some x → in_mailbox (mb_id target) (st_data x) = false;
  cp_changes x n : docs !! d = Some x → counter_at (view (mw_store w)) a Email n →
    n + Z.of_nat (length (mailboxes (st_data x))) < I64_MAX;
}.
Definition admissible (w : W) docs others (ev : mail_event) : Prop :=
  match ev with
  | EvDeliver rq _ => deliverable w docs others rq
  | EvAppend rq _ => appendable w docs others rq
  | EvUpdate d mutate => changeable w docs d mutate
  | EvCopy target _ d => copyable w docs target d
  | EvDelete d | EvDeleteCrash d => is_u32 d ∧ ∀ x, docs !! d = Some x → removable a others (view (mw_store w)) docs x
  | EvPurge _ _ => True
  end.

(** Places that were handed out by a step: above the counters before it, within
    the counters after it. *)
Definition given_by c c' (new : list MailboxUid) : Prop :=
  NoDup (mu_mailbox <$> new) ∧
  ∀ e, e ∈ new → is_u32 (mu_mailbox e) ∧ mu_mailbox e ≠ 0 ∧
    (∃ n, counter_value (c !! uid_counter_key a (mu_mailbox e)) = Some n ∧ n < mu_uid e) ∧
    ∃ n', counter_value (c' !! uid_counter_key a (mu_mailbox e)) = Some n' ∧ mu_uid e ≤ n'.
Lemma given_none c c' : given_by c c' [].
Proof. split; [apply NoDup_nil_2|]. by intros e ?%not_elem_of_nil. Qed.

(** The outcome of a step: the abstract account has moved as [step] says. *)
Definition stepped (ev : mail_event) (w w' : W) docs others : Prop :=
  ∃ docs' others' new, step ev docs others docs' others' new ∧ account_at (R := R) a others' w' docs' ∧
    (∀ h, 0 ≤ others' h) ∧ uids_grow a (view (mw_store w)) (view (mw_store w')) ∧
    given_by (view (mw_store w)) (view (mw_store w')) new.

Lemma newly_filed_given others (w w1 w' : W) docs d x :
  (∀ m, is_u32 m → m ≠ 0 → view (mw_store w1) !! uid_counter_key a m = view (mw_store w) !! uid_counter_key a m) →
  newly_filed (R := R) a others w1 w' docs d x →
  account_at (R := R) a others w' (<[d := x]> docs) ∧ uids_grow a (view (mw_store w)) (view (mw_store w')) ∧
  given_by (view (mw_store w)) (view (mw_store w')) (mailboxes (st_data x)).
Proof.
  intros F (Hacc & Hp & Hg & _). pose proof Hacc as (_ & _ & Hrep).
  destruct (rep_places _ _ _ _ _ Hrep d x (lookup_insert_eq _ _ _)) as [Hnd Hok]. split_and!; [done| |].
  - intros m n Hm Hm0 Hn. apply (Hg m n); [done|done|]. by rewrite F.
  - split; [done|]. intros e He. rewrite Forall_forall in Hp, Hok. destruct (Hok e He) as [Hm Hm0]. specialize (Hp e He).
    split_and!; [done|done| |].
    + exists (mu_uid e - 1). rewrite <-F by done. split; [done|lia].
    + destruct (rep_uids _ _ _ _ _ Hrep _ Hm Hm0) as (n & Hn & _ & Hall). exists n. split; [done|].
      apply (Hall d). exists x. rewrite lookup_insert_eq. by destruct e.
Qed.

(** Room for a message is still there when a document id was taken. *)
Lemma room_kept others c c' docs raw n :
  room a others c docs raw → counter_at c' a Email n → n < I64_MAX → room a others c' docs raw.
Proof.
  intros [] Hn Hlt. split; try done. intros n' Hn'. unfold counter_at in *. rewrite Hn in Hn'. by simplify_eq.
Qed.
Lemma uid_left_kept c c' m :
  mailbox_ok m → (∀ k, k ≠ counter_key a Email → c' !! k = c !! k) → uid_left a c m → uid_left a c' m.
Proof. intros [? ?] F Hl. unfold uid_left in *. rewrite F; [done|]. by apply uid_key_counter. Qed.

Lemma deliver_step others (w : W) docs rq clock :
  account_at (R := R) a others w docs → (∀ h, 0 ≤ others h) → deliverable w docs others rq →
  ∃ w', exec (EvDeliver rq clock) w = (Ok tt, w') ∧ stepped (EvDeliver rq clock) w w' docs others.
Proof.
  intros Hw Ho Hdl. pose proof Hw as (_ & _ & Hrep). destruct (rep_changes _ _ _ _ _ Hrep) as (n & Hn & _).
  pose proof (dl_ids _ _ _ _ Hdl n Hn) as Hmax.
  destruct (allocate_document_spec others w docs n Hw Hn Hmax) as (w1 & E1 & Hw1 & Hfresh & Hu & Hn1 & F).
  assert (request_ok a others w1 docs (for_document (n + 1) rq)) as Hrq.
  { destruct Hdl. split; try done.
    - rewrite Forall_forall in *. intros m Hm. apply (uid_left_kept (view (mw_store w))); auto.
    - exists (n + 1). split; [done|]. simpl. lia.
    - eapply room_kept; [done..|width]. }
  destruct (deliver_spec (R := R) a Ha others digest_nonempty w1 docs (for_document (n + 1) rq) clock Hw1 Hrq) as (o & w' & E2 & Hout).
  exists w'. split.
  { unfold exec, mbind, M_bind. rewrite E1, E2. done. }
  unfold stepped. change (not_filed docs (for_document (n + 1) rq)) with (not_filed docs rq) in Hout.
  destruct (not_filed docs rq) eqn:En.
  - destruct Hout as [_ ->]. exists docs, others, []. split_and!; [by constructor|done|done| |apply given_none].
    apply uids_frame. auto.
  - destruct Hout as (x & Hx & Hraw & _). simpl in Hx, Hraw.
    destruct (newly_filed_given others w w1 w' docs (n + 1) x) as (Hacc & Hg & Hgiven); [|done|].
    { intros m ? ?. apply F. by apply uid_key_counter. }
    exists (<[n + 1 := x]> docs), others, (mailboxes (st_data x)). split_and!; [by constructor|done|done|done|done].
Qed.

Lemma append_step others (w : W) docs rq clock :
  account_at (R := R) a others w docs → (∀ h, 0 ≤ others h) → appendable w docs others rq →
  ∃ w', exec (EvAppend rq clock) w = (Ok tt, w') ∧ stepped (EvAppend rq clock) w w' docs others.
Proof.
  intros Hw Ho Hal. pose proof Hw as (_ & _ & Hrep). destruct (rep_changes _ _ _ _ _ Hrep) as (n & Hn & _).
  pose proof (al_ids _ _ _ _ Hal n Hn) as Hmax.
  destruct (allocate_document_spec others w docs n Hw Hn Hmax) as (w1 & E1 & Hw1 & Hfresh & Hu & Hn1 & F).
  assert (append_ok a others w1 docs (append_document (n + 1) rq)) as Hrq.
  { destruct Hal. split; try done.
    - apply (uid_left_kept (view (mw_store w))); auto.
    - exists (n + 1). split; [done|]. simpl. lia.
    - eapply room_kept; [done..|width]. }
  destruct (append_refines (R := R) a Ha others digest_nonempty w1 docs (append_document (n + 1) rq) clock Hw1 Hrq) as (o & w' & E2 & Hout).
  exists w'. split.
  { unfold exec, mbind, M_bind. rewrite E1, E2. done. }
  unfold stepped. cbn [ap_account ap_raw append_document] in Hout.
  destruct (is_over_quota _) eqn:Eq.
  - destruct Hout as [_ ->]. exists docs, others, []. split_and!; [by constructor|done|done| |apply given_none].
    apply uids_frame. auto.
  - destruct Hout as (_ & x & Hx & Hraw & Hm). simpl in Hx, Hraw, Hm.
    destruct (newly_filed_given others w w1 w' docs (n + 1) x) as (Hacc & Hg & Hgiven); [|done|].
    { intros m ? ?. apply F. by apply uid_key_counter. }
    exists (<[n + 1 := x]> docs), others, (mailboxes (st_data x)). split_and!; [|done|done|done|done].
    constructor; [done..|]. by rewrite Hm.
Qed.

Lemma update_step others (w : W) docs d mutate :
  account_at (R := R) a others w docs → (∀ h, 0 ≤ others h) → changeable w docs d mutate →
  ∃ w', exec (EvUpdate d mutate) w = (Ok tt, w') ∧ stepped (EvUpdate d mutate) w w' docs others.
Proof.
  intros Hw Ho Hcg. destruct (cg_there _ _ _ _ Hcg) as [x Hd].
  destruct (cg_change _ _ _ _ Hcg x Hd) as (data' & Hmut & Hsz & Hsub). pose proof Hw as (_ & _ & Hrep).
  destruct (update_message_spec others w docs d x mutate data' Hw Hd Hmut) as (w' & E & Hacc & Hg & _);
    [eapply change_ok_fewer; try done; intros n; by eapply cg_changes|].
  exists w'. split; [unfold exec, mbind, M_bind; by rewrite E|].
  eexists _, others, []. split_and!; [by econstructor|done|done|by apply uids_kept_grow|apply given_none].
Qed.

(** Taking a UID leaves the account as it is, with that UID unused. *)
Lemma take_uid others (w : W) docs m :
  account_at (R := R) a others w docs → mailbox_ok m → uid_left a (view (mw_store w)) m →
  ∃ n w1, in_store (next_uid m a) w = (Ok (n + 1), w1) ∧ account_at (R := R) a others w1 docs ∧
    counter_value (view (mw_store w) !! uid_counter_key a (mb_id m)) = Some n ∧
    counter_value (view (mw_store w1) !! uid_counter_key a (mb_id m)) = Some (n + 1) ∧ 0 ≤ n ∧
    ∀ k, k ≠ uid_counter_key a (mb_id m) → view (mw_store w1) !! k = view (mw_store w) !! k.
Proof.
  intros (Hs & Hb & Hrep) [Hm Hm0] (n & Hn & Hn0). destruct w as [s b notices]. cbn [mw_store mw_blobs mw_notices] in *.
  destruct (next_uid_spec a s m n Hs Hn Hn0) as (s1 & E1 & Hs1 & Hv1).
  assert (∀ k, k ≠ uid_counter_key a (mb_id m) → view s1 !! k = view s !! k) as F by (intros; by rewrite Hv1, lookup_insert_ne).
  assert (counter_value (view s1 !! uid_counter_key a (mb_id m)) = Some (n + 1)) as Hc.
  { rewrite Hv1, lookup_insert_eq. apply counter_value_i64_le. width. }
  exists n, (mkWorld s1 b notices). cbn [mw_store mw_blobs]. split_and!; try done; [| |lia].
  { unfold in_store. cbn [mw_store mw_blobs mw_notices]. by rewrite E1. }
  split_and!; [done|done|]. cbn [mw_store mw_blobs]. destruct Hrep. split; try done.
  - intros d Hd. rewrite F by keys_differ. auto.
  - intros d Hd. rewrite F by keys_differ. auto.
  - destruct rep_ledger. split; rewrite F by keys_differ; done.
  - intros h. rewrite F by keys_differ. auto.
  - intros h. rewrite F by keys_differ. auto.
  - intros m' Hm' Hm0'. destruct (decide (m' = mb_id m)) as [->|Hne].
    + destruct (rep_uids _ Hm Hm0) as (n1 & Hn1 & ? & Hp). rewrite Hn in Hn1. simplify_eq. exists (n1 + 1).
      split_and!; [done|lia|]. intros d u Hx%Hp. lia.
    + rewrite F; [by apply rep_uids|]. intros E. by apply uid_key_inj in E.
  - destruct rep_changes as (k & Hk & ?). exists k. split; [|done]. unfold counter_at. rewrite F; [done|]. apply not_eq_sym. by apply uid_key_counter.
  - intros f t. rewrite F by keys_differ. apply rep_index.
  - intros k v Hk Hsub. apply (rep_wf k v); [|done]. rewrite <-F; [done|other_space].
Qed.

Lemma filter_none_source (source : option Z) (l : list MailboxUid) :
  source = None → filter (λ e, Some (mu_mailbox e) ≠ source) l = l.
Proof. intros ->. induction l as [|e l IH]; [done|]. by rewrite filter_cons_True, IH. Qed.

(** A copy of one message: the UID it gets, and the account after it. *)
Definition copied (target : Mailbox) (source : option Z) (uid : Z) (data : MessageData) : MessageData :=
  let data := (add_mailbox (mb_id target) uid data).2 in
  match source with Some m => (remove_mailbox m data).2 | None => data end.
Lemma copied_places target source uid data :
  in_mailbox (mb_id target) data = false →
  mailboxes (copied target source uid data)
  = filter (λ e, Some (mu_mailbox e) ≠ source) (mailboxes data ++ [mkMailboxUid (mb_id target) uid]) ∧
  msg_size (copied target source uid data) = msg_size data.
Proof.
  intros Hno. unfold copied, add_mailbox. rewrite Hno. destruct source as [m|]; simpl; split; try done.
  - apply list_filter_iff. intros y. naive_solver.
  - by rewrite (filter_none_source None).
Qed.
Lemma copy_message others (w : W) docs target source d x :
  account_at (R := R) a others w docs → docs !! d = Some x → copyable w docs target d →
  ∃ n w1 w', in_store (next_uid target a) w = (Ok (n + 1), w1) ∧
    update_message a d (λ data, Ok (copied target source (n + 1) data)) w1 = (Ok true, w') ∧
    account_at (R := R) a others w' (<[d := with_data x (copied target source (n + 1) (st_data x))]> docs) ∧
    counter_value (view (mw_store w) !! uid_counter_key a (mb_id target)) = Some n ∧ 0 ≤ n ∧
    counter_value (view (mw_store w') !! uid_counter_key a (mb_id target)) = Some (n + 1) ∧
    (∀ m, is_u32 m → m ≠ 0 → m ≠ mb_id target → view (mw_store w') !! uid_counter_key a m = view (mw_store w) !! uid_counter_key a m) ∧
    ids_used a (view (mw_store w)) (view (mw_store w')) (length (mailboxes (st_data x)) + 1).
Proof.
  intros Hw Hd Hcp. destruct (cp_target _ _ _ _ Hcp) as [Hm Hm0].
  destruct (take_uid others w docs target Hw (cp_target _ _ _ _ Hcp) (cp_uid _ _ _ _ Hcp)) as (n & w1 & E1 & Hw1 & Hn & Hn1 & Hn0 & F).
  set (e := mkMailboxUid (mb_id target) (n + 1)). pose proof Hw as (_ & _ & Hrep).
  destruct (rep_places _ _ _ _ _ Hrep d x Hd) as [Hnd Hok]. pose proof (cp_new _ _ _ _ Hcp x Hd) as Hno.
  destruct (copied_places target source (n + 1) (st_data x) Hno) as [Hmb Hsz]. set (data' := copied target source (n + 1) (st_data x)) in *. fold e in Hmb.
  assert (NoDup (mu_mailbox <$> mailboxes (st_data x) ++ [e])) as Hnd1.
  { rewrite fmap_app. apply NoDup_app. split_and!; [done| |apply NoDup_singleton]. intros m (y & -> & Hy)%list_elem_of_fmap_1 Hin%list_elem_of_singleton.
    apply not_true_iff_false in Hno. apply Hno. apply existsb_exists.
    exists y. split; [by apply list_elem_of_In|]. simpl in Hin. by rewrite Hin, Z.eqb_refl. }
  assert (mailboxes data' `sublist_of` mailboxes (st_data x) ++ [e]) as Hsub by (rewrite Hmb; apply sublist_filter).
  assert (∀ y, y ∈ mailboxes data' → y ∈ mailboxes (st_data x) ∨ y = e) as Hcase.
  { intros y Hy. pose proof (elem_of_sublist _ _ _ Hy Hsub) as Hin. rewrite elem_of_app, list_elem_of_singleton in Hin. exact Hin. }
  assert (counter_key a Email ≠ uid_counter_key a (mb_id target)) as Hck by (apply not_eq_sym; by apply uid_key_counter).
  destruct (update_message_spec others w1 docs d x (λ data, Ok (copied target source (n + 1) data)) data' Hw1 Hd eq_refl) as (w' & E & Hacc & Hg & Hids & Hkept).
  { split; [done| | |].
    - split; [by eapply sublist_NoDup, fmap_sublist|]. apply Forall_forall. intros y Hy. rewrite Forall_forall in Hok.
      destruct (Hcase y Hy) as [?|Ey]; [auto|by rewrite Ey].
    - intros y Hy. destruct (Hcase y Hy) as [?|Ey]; [by left|right]. rewrite Ey.
      split; [exists (n + 1); simpl; split; [done|lia]|]. intros d' Hx.
      destruct (rep_uids _ _ _ _ _ Hrep _ Hm Hm0) as (n0 & Hn0' & _ & Hp). rewrite Hn in Hn0'. simplify_eq. apply Hp in Hx. lia.
    - intros k Hk. eapply (cp_changes _ _ _ _ Hcp x k Hd). unfold counter_at in *. by rewrite <-F. }
  exists n, w1, w'. split_and!; [done..|by rewrite Hg| |].
  - intros m ? ? ?. rewrite Hg by done. apply F. intros E'. by apply uid_key_inj in E'.
  - split; [|intros k Hk; rewrite Hkept by done; apply F; keys_differ]. intros k Hk. apply Hids. unfold counter_at in *. by rewrite F.
Qed.

Lemma copy_step others (w : W) docs target source d :
  account_at (R := R) a others w docs → (∀ h, 0 ≤ others h) → copyable w docs target d →
  ∃ w', exec (EvCopy target source d) w = (Ok tt, w') ∧ stepped (EvCopy target source d) w w' docs others.
Proof.
  intros Hw Ho Hcp. destruct (cp_there _ _ _ _ Hcp) as [x Hd]. destruct (cp_target _ _ _ _ Hcp) as [Hm Hm0].
  destruct (copy_message others w docs target source d x Hw Hd Hcp) as (n & w1 & w' & E1 & E2 & Hacc & Hn & Hn0 & Hn1 & Hother & _).
  exists w'. split; [unfold exec, copy_one, mbind, M_bind; rewrite E1; unfold copied in E2; by rewrite E2|].
  eexists _, others, [mkMailboxUid (mb_id target) (n + 1)]. split_and!; [|done|done| |].
  - econstructor; [done|]. apply copied_places. by apply (cp_new _ _ _ _ Hcp).
  - intros m k Hm' Hm0' Hk. destruct (decide (m = mb_id target)) as [->|Hne].
    + rewrite Hn in Hk. simplify_eq. exists (k + 1). split; [done|lia].
    + exists k. split; [by rewrite Hother|done].
  - split; [apply NoDup_singleton|]. intros y Ey%list_elem_of_singleton. rewrite Ey.
    split_and!; [done|done|exists n; split; [done|simpl; lia]|]. exists (n + 1). split; [done|simpl; lia].
Qed.

(** Every admissible step succeeds and does to the account what [step] says. *)
Lemma exec_step others (w : W) docs ev :
  account_at (R := R) a others w docs → (∀ h, 0 ≤ others h) → admissible w docs others ev →
  ∃ w', exec ev w = (Ok tt, w') ∧ stepped ev w w' docs others.
Proof.
  intros Hw Ho Hadm. destruct ev as [rq clock|rq clock|d mutate|target source d|d|d|now grace]; simpl in Hadm.
  - by apply deliver_step.
  - by apply append_step.
  - by apply update_step.
  - by apply copy_step.
  - destruct Hadm as [Hu Hr]. destruct (delete_message_spec digest_nonempty a Ha others w docs d Hw Hu Hr) as (w' & E & Hacc & Hg & _).
    exists w'. split; [unfold exec, mbind, M_bind; by rewrite E|].
    eexists _, others, []. split_and!; [constructor|done|done|done|apply given_none].
  - destruct Hadm as [Hu Hr]. destruct (delete_crash_spec others w docs d Hw Hu Hr) as (w' & E & Hacc & Hg).
    exists w'. split; [done|]. eexists _, (leaked docs d others), []. split_and!; [constructor|done| |done|apply given_none].
    intros h. unfold leaked, and_one. destruct (docs !! d); [|done]. specialize (Ho h). case_bool_decide; lia.
  - destruct (purge_world_spec others w docs now grace Hw Ho) as (n & w' & E & Hacc & Hg).
    exists w'. split; [unfold exec, mbind, M_bind; by rewrite E|].
    eexists _, others, []. split_and!; [constructor|done|done|done|apply given_none].
Qed.

(** What others do at the same store: they leave the account's rows alone, they
    release no reference of the account's, and they delete no body the account
    links to. *)
Record elsewhere (w w' : W) : Prop := {
  ew_healthy : healthy (mw_store w') ∧ bhealthy (mw_blobs w');
  ew_rows k : own k → view (mw_store w') !! k = view (mw_store w) !! k;
  ew_counts h l : counter_value (view (mw_store w) !! account_link_key a h) = Some l →
    ∃ n, counter_value (view (mw_store w') !! ref_count_key h) = Some n ∧ l ≤ n;
  ew_bodies h l raw t : counter_value (view (mw_store w) !! account_link_key a h) = Some l → 0 < l →
    bview (mw_blobs w) !! h = Some (raw, t) → ∃ t', bview (mw_blobs w') !! h = Some (raw, t');
  ew_wf : blobref_wf (view (mw_store w'));
}.
Lemma elsewhere_account others (w w' : W) docs :
  account_at (R := R) a others w docs → elsewhere w w' →
  ∃ others', account_at (R := R) a others' w' docs ∧ (∀ h, 0 ≤ others' h) ∧ uids_grow a (view (mw_store w)) (view (mw_store w')).
Proof.
  intros (Hs & Hb & Hrep) [[Hs' Hb'] Hrows Hcnt Hbod Hwf].
  exists (λ h, default 0 (counter_value (view (mw_store w') !! ref_count_key h)) - references docs h). split_and!.
  - split_and!; [done|done|]. eapply represents_frame; [done|auto| | |intros; by eapply Hbod; [apply (rep_links _ _ _ _ _ Hrep)|..]|done].
    + destruct (rep_changes _ _ _ _ _ Hrep) as (n & Hn & _). exists n, n. split_and!; [done| |done].
      unfold counter_at. rewrite Hrows; [done|]. by apply own_key.
    + intros h. destruct (Hcnt h _ (rep_links _ _ _ _ _ Hrep h)) as (n & -> & _). simpl. f_equal. lia.
  - intros h. destruct (Hcnt h _ (rep_links _ _ _ _ _ Hrep h)) as (n & -> & ?). simpl. lia.
  - apply uids_frame. auto.
Qed.

(** ** Histories *)

(** A sequence of the account's steps, each admissible where it is taken, with
    others' steps between them. *)
Inductive run : W → list mail_event → W → Prop :=
  | run_nil w : run w [] w
  | run_event w ev r w1 evs w2 :
      (∀ docs others, account_at (R := R) a others w docs → admissible w docs others ev) →
      exec ev w = (r, w1) → run w1 evs w2 → run w (ev :: evs) w2
  | run_elsewhere w w1 evs w2 : elsewhere w w1 → run w1 evs w2 → run w evs w2.

(** The same sequence for the abstract account; what others hold may change at
    any time. *)
Inductive steps : maildrop → list mail_event → maildrop → list MailboxUid → Prop :=
  | steps_nil docs : steps docs [] docs []
  | steps_event ev docs o docs1 o1 new evs docs2 given :
      step ev docs o docs1 o1 new → steps docs1 evs docs2 given → steps docs (ev :: evs) docs2 (new ++ given).

(** Places of a run: all above the counters the run began with, none twice. *)
Definition given_since c (given : list MailboxUid) : Prop :=
  NoDup given ∧ ∀ e, e ∈ given → is_u32 (mu_mailbox e) ∧ mu_mailbox e ≠ 0 ∧
    ∃ n, counter_value (c !! uid_counter_key a (mu_mailbox e)) = Some n ∧ n < mu_uid e.

Lemma given_since_grow c c' given : (∃ docs others bodies, represents (R := R) a others c bodies docs) →
  uids_grow a c c' → given_since c' given → given_since c given.
Proof.
  intros (docs & o & b & Hrep) Hg [Hnd Hall]. split; [done|]. intros e He. destruct (Hall e He) as (Hm & Hm0 & n' & Hn' & Hlt).
  split_and!; [done|done|]. destruct (rep_uids _ _ _ _ _ Hrep _ Hm Hm0) as (n & Hn & _). exists n. split; [done|].
  destruct (Hg _ _ Hm Hm0 Hn) as (n'' & Hn'' & ?). rewrite Hn' in Hn''. simplify_eq. lia.
Qed.
Lemma given_since_app c c' new given : (∃ docs others bodies, represents (R := R) a others c bodies docs) →
  uids_grow a c c' → given_by c c' new → given_since c' given → given_since c (new ++ given).
Proof.
  intros Hrep Hg [Hnd Hnew] Hsince. pose proof (given_since_grow c c' given Hrep Hg Hsince) as [Hnd' Hall']. destruct Hsince as [_ Hall].
  split.
  - apply NoDup_app. split_and!; [by eapply NoDup_fmap_1| |done]. intros e He He'.
    destruct (Hnew e He) as (_ & _ & _ & n' & Hn' & ?). destruct (Hall e He') as (_ & _ & n & Hn & ?). rewrite Hn in Hn'. simplify_eq. lia.
  - intros e [He|He]%elem_of_app; [|auto]. destruct (Hnew e He) as (? & ? & ? & _). done.
Qed.

(** C1. An account keeps its mail.  Over every sequence of deliveries,
    appends, changes, copies and moves, deletions, deletions cut short after
    their batch, and purges, with other accounts' work in between: each step
    has the effect its specification gives it on a map of messages;
    at the end the records, the quota counters, the UID counters, the index
    and the references agree with that map, so that the text of every message
    in it is read back and the quota in use is theirs; and no UID was handed
    out twice, not even that of a message since deleted. *)
Theorem account_history others (w w' : W) docs evs :
  account_at (R := R) a others w docs → (∀ h, 0 ≤ others h) → run w evs w' →
  ∃ docs' others' given, steps docs evs docs' given ∧ account_at (R := R) a others' w' docs' ∧
    given_since (view (mw_store w)) given ∧
    (∀ d, is_u32 d → load_raw a d w' = Ok (st_raw <$> docs' !! d)) ∧
    usage a (mw_store w') = Ok (usage_of docs').
Proof.
  intros Hw Ho Hrun. revert docs others Hw Ho. induction Hrun as [w|w ev r w1 evs w2 Hadm E _ IH|w w1 evs w2 Hel _ IH]; intros docs others Hw Ho.
  - exists docs, others, []. split_and!; [constructor|done|split; [apply NoDup_nil_2|by intros e ?%not_elem_of_nil]| |by eapply usage_account].
    intros d Hd. by eapply load_raw_spec.
  - destruct (exec_step others w docs ev Hw Ho (Hadm docs others Hw)) as (w1' & E' & docs1 & o1 & new & Hst & Hw1 & Ho1 & Hg & Hgiven).
    rewrite E in E'. simplify_eq. destruct (IH docs1 o1 Hw1 Ho1) as (docs' & o' & given & Hsts & ? & Hs & ? & ?).
    exists docs', o', (new ++ given). split_and!; try done; [by econstructor|]. eapply given_since_app; [|done..].
    destruct Hw as (_ & _ & Hrep). by eexists _, _, _.
  - destruct (elsewhere_account others w w1 docs Hw Hel) as (o1 & Hw1 & Ho1 & Hg).
    destruct (IH docs o1 Hw1 Ho1) as (docs' & o' & given & Hsts & ? & Hs & ? & ?).
    exists docs', o', given. split_and!; try done. eapply given_since_grow; [|done..].
    destruct Hw as (_ & _ & Hrep). by eexists _, _, _.
Qed.
End history.
