(* ===== verification/MailCache.v ===== *)
(** * Mail: the cache of an account's messages (crates/mail/src/cache.rs)

    [MessageStoreCache] is what the protocols list mailboxes from.  It is
    rebuilt from the records by a scan, or brought up to date from the change
    log.  The theorem says the scan finds exactly the account's messages. *)

From S2P Require Import Prelude Bytes Key Store ChangeLog Quota Text Fts Blobs MailParser Sieve MailModel MailMessage MailStore MailRep MailFile.
From stdpp Require Import base gmap list strings.
From Stdlib Require Import ZArith Lia.

Open Scope Z_scope.

Record MessageCacheEntry : Type := mkCacheEntry {
  ce_document_id : Z; ce_mailboxes : list MailboxUid; ce_keywords : list Keyword; ce_thread_id : Z;
  ce_size : Z; ce_received_at : Z; ce_sent_at : Z }.
Definition from_data (document_id : Z) (d : MessageData) : MessageCacheEntry :=
  mkCacheEntry document_id (mailboxes d) (keywords d) (thread_id d) (msg_size d) (received_at d) (sent_at d).
Definition entry_in_mailbox (m : Z) (e : MessageCacheEntry) : bool := existsb (λ u, mu_mailbox u =? m) (ce_mailboxes e).
Definition entry_uid_in (m : Z) (e : MessageCacheEntry) : option Z :=
  mu_uid <$> List.find (λ u, mu_mailbox u =? m) (ce_mailboxes e).
Definition entry_has_keyword (k : Keyword) (e : MessageCacheEntry) : bool := bool_decide (k ∈ ce_keywords e).

Record MessageStoreCache : Type := mkCache {
  cache_account_id : Z; cache_entries : gmap Z MessageCacheEntry; cache_last_change_id : Z }.

(** [document_id_of]. *)
Definition DOCUMENT_ID_OFFSET : nat := 6.
Definition document_id_of (key : bytes) : result Z :=
  if (length key <? DOCUMENT_ID_OFFSET + 4)%nat
  then Err (StoreError "message property key is too short to carry a document id")
  else Ok (of_be_bytes (take 4 (drop DOCUMENT_ID_OFFSET key))).

Section cache.
Context {S : Type} `{Store S} `{MailCodec}.

(** The visitor of [build]. *)
Definition cache_visit (acc : gmap Z MessageCacheEntry * option Error) (key value : bytes)
  : result ((gmap Z MessageCacheEntry * option Error) * Flow) :=
  if negb (length key =? DATA_KEY_LEN)%nat then Ok (acc, Continue)
  else
    match document_id_of key with
    | Err e => Ok ((acc.1, Some e), Stop)
    | Ok d =>
        match deserialize_data value with
        | Ok data => Ok ((<[d := from_data d data]> acc.1, acc.2), Continue)
        | Err e => Ok ((acc.1, Some e), Stop)
        end
    end.
Definition cache_build (account_id : Z) (s : S) : result MessageStoreCache :=
  last ← latest_change_id account_id Email s;
  acc ← st_iterate (kp_collection Property account_id Email) cache_visit (∅, None) s;
  match acc with
  | (_, Some e) => Err e
  | (entries, None) => Ok (mkCache account_id entries last)
  end.

(** [load_entry] and [refresh]. *)
Definition load_entry (c : MessageStoreCache) (d : Z) (s : S) : result (option MessageCacheEntry) :=
  v ← st_get (data_key (cache_account_id c) d) s;
  match v with
  | Some b => data ← deserialize_data b; Ok (Some (from_data d data))
  | None => Ok None
  end.
Definition replay_change (c : MessageStoreCache) (e : ChangeLogEntry) (s : S) : result MessageStoreCache :=
  entries ← match ChangeLog.kind e with
            | ChangeLog.Insert | ChangeLog.Update =>
                loaded ← load_entry c (ChangeLog.document_id e) s;
                Ok (match loaded with
                    | Some x => <[ChangeLog.document_id e := x]> (cache_entries c)
                    | None => base.delete (ChangeLog.document_id e) (cache_entries c)
                    end)
            | ChangeLog.Delete => Ok (base.delete (ChangeLog.document_id e) (cache_entries c))
            end;
  Ok (mkCache (cache_account_id c) entries (Z.max (cache_last_change_id c) (ChangeLog.change_id e))).
Fixpoint replay_changes (c : MessageStoreCache) (es : list ChangeLogEntry) (s : S) : result MessageStoreCache :=
  match es with
  | [] => Ok c
  | e :: es => c' ← replay_change c e s; replay_changes c' es s
  end.
Definition cache_refresh (c : MessageStoreCache) (s : S) : result (MessageStoreCache * nat) :=
  ok ← can_calculate (cache_account_id c) Email (cache_last_change_id c) s;
  if (ok : bool) then
    changes ← changes_since (cache_account_id c) Email (cache_last_change_id c) s;
    c' ← replay_changes c changes s;
    Ok (c', length changes)
  else
    rebuilt ← cache_build (cache_account_id c) s;
    Ok (rebuilt, size (cache_entries rebuilt)).
End cache.

(** ** The scan finds the messages *)

(** Keys are bytes. *)
Definition byte_keys (c : contents) : Prop := ∀ k v, c !! k = Some v → Forall is_byte k.
Definition document_of (k : bytes) : Z := of_be_bytes (take 4 (drop DOCUMENT_ID_OFFSET k)).
Definition documents_in (rs : list row) : list Z :=
  document_of <$> filter (λ k : bytes, length k = DATA_KEY_LEN) rs.*1.

Section exact.
Context {S B R : Type} {store : Store S} {contract : StoreSpec S} `{Bitmap R} {laws : BitmapLaws R}.
Context `{BlobStore B} {blob_contract : BlobSpec B}.
Context `{Unicode} `{MailParser} `{MailCodec} {codec_laws : MailCodecLaws}.
Context (a : Z) (Ha : is_u32 a).
Implicit Types (docs : maildrop).

Lemma data_row k :
  prefix_encode (kp_collection Property a Email) `prefix_of` k → length k = DATA_KEY_LEN → Forall is_byte k →
  is_u32 (document_of k) ∧ k = data_key a (document_of k).
Proof.
  intros [l ->] Hlen Hb. unfold document_of.
  assert (prefix_encode (kp_collection Property a Email) = [112] ++ u32_be a ++ [1]) as E by done.
  rewrite E in *. apply Forall_app in Hb as [_ Hb]. rewrite !length_app, length_u32_be in Hlen. unfold DATA_KEY_LEN in Hlen. simpl in Hlen.
  assert (length l = 4%nat) as Hl by lia.
  rewrite drop_app_length' by (rewrite !length_app, length_u32_be; done). rewrite take_ge by lia.
  split; [pose proof (of_be_bytes_range l 4 Hb Hl); width|].
  unfold data_key, key_encode. simpl. rewrite app_nil_r, <-app_assoc. simpl.
  pose proof (be_bytes_of_be_bytes l Hb) as El. rewrite Hl in El. unfold u32_be at 3. by rewrite El.
Qed.

Lemma document_of_data_key d : is_u32 d → document_of (data_key a d) = d.
Proof.
  intros Hd. unfold document_of, data_key, key_encode. rewrite (app_assoc (u32_be _)), (app_assoc [_]).
  rewrite drop_app_length' by (rewrite !length_app, length_u32_be; done). simpl. rewrite app_nil_r, take_ge by (rewrite length_u32_be; lia).
  by apply of_be_bytes_u32.
Qed.

Lemma cache_scan docs rs m :
  (∀ k v, (k, v) ∈ rs → length k = DATA_KEY_LEN → ∃ x, docs !! document_of k = Some x ∧ deserialize_data v = Ok (st_data x)) →
  ∃ m', scan cache_visit rs (m, None) = Ok (m', None) ∧
    ∀ d, m' !! d = if decide (d ∈ documents_in rs) then from_data d ∘ st_data <$> docs !! d else m !! d.
Proof.
  revert m. induction rs as [|[k v] rs IH]; intros m Hrs.
  { exists m. split; [done|]. intros d. by rewrite decide_False by apply not_elem_of_nil. }
  cbn [scan]. unfold cache_visit at 1. unfold documents_in. rewrite fmap_cons, filter_cons. fold (documents_in rs). cbn [fst snd].
  destruct (Nat.eqb_spec (length k) DATA_KEY_LEN) as [Hl|Hl]; cbn [negb].
  - rewrite decide_True by done. unfold document_id_of. rewrite Hl. cbn [Nat.ltb]. fold (document_of k).
    destruct (Hrs k v) as (x & Hx & Hv); [apply list_elem_of_here|done|]. simpl (_ <? _)%nat. cbv iota beta. rewrite Hv.
    destruct (IH (<[document_of k := from_data (document_of k) (st_data x)]> m)) as (m' & E & Hm').
    { intros k' v' Hin. apply Hrs. by apply list_elem_of_further. }
    exists m'. split; [exact E|]. intros d. rewrite Hm', fmap_cons. fold (documents_in rs).
    destruct (decide (d ∈ documents_in rs)) as [Hin|Hin].
    + rewrite decide_True by (by apply list_elem_of_further). done.
    + destruct (decide (d = document_of k)) as [->|Hne].
      * rewrite decide_True by apply list_elem_of_here. by rewrite lookup_insert_eq, Hx.
      * rewrite decide_False by (rewrite elem_of_cons; tauto). by rewrite lookup_insert_ne.
  - rewrite decide_False by done. apply IH. intros k' v' Hin. apply Hrs. by apply list_elem_of_further.
Qed.

Lemma cache_build_spec others (w : MailWorld S B) docs :
  account_at (R := R) a others w docs → byte_keys (view (mw_store w)) →
  ∃ n, counter_at (view (mw_store w)) a Email n ∧
    cache_build a (mw_store w) = Ok (mkCache a (map_imap (λ d x, Some (from_data d (st_data x))) docs) n).
Proof.
  intros (Hs & _ & Hrep) Hbytes. destruct (rep_changes _ _ _ _ _ Hrep) as (n & Hn & Hn0 & _). exists n. split; [done|].
  set (p := prefix_encode (kp_collection Property a Email)).
  destruct (cache_scan docs (rows_from (view (mw_store w)) p p) ∅) as (m' & E & Hm').
  { intros k v (Hk & Hp & _)%elem_of_rows_from Hl. destruct (data_row k Hp Hl (Hbytes k v Hk)) as [Hu Ek].
    pose proof (rep_data _ _ _ _ _ Hrep _ Hu) as Hd. rewrite <-Ek, Hk in Hd.
    destruct (docs !! document_of k) as [x|]; [|done]. exists x. split; [done|]. simpl in Hd.
    destruct (archive_data (st_data x)) as [b|] eqn:Ea; [|done]. injection Hd as ->. by apply data_roundtrip. }
  assert (m' = map_imap (λ d x, Some (from_data d (st_data x))) docs) as ->.
  { apply map_eq. intros d. rewrite Hm', map_lookup_imap. case_decide as Hin; [by destruct (docs !! d)|].
    rewrite lookup_empty. destruct (docs !! d) as [x|] eqn:Hd; [|done]. exfalso. apply Hin.
    pose proof (rep_ids _ _ _ _ _ Hrep d x Hd) as Hu. pose proof (rep_data _ _ _ _ _ Hrep d Hu) as Hk. rewrite Hd in Hk. simpl in Hk.
    destruct (archived_data (st_data x)) as [b Ea]. rewrite Ea in Hk.
    assert (p `prefix_of` data_key a d) as Hp by (eexists; unfold data_key, key_encode, p; simpl; by rewrite <-?app_assoc).
    unfold documents_in. apply list_elem_of_fmap. exists (data_key a d). split; [by rewrite document_of_data_key|]. apply list_elem_of_filter. split.
    - unfold data_key, key_encode. rewrite !length_app, !length_u32_be. done.
    - apply list_elem_of_fmap. exists (data_key a d, b). split; [done|]. apply elem_of_rows_from. split_and!; [done|done|]. by apply prefix_bytes_le. }
  unfold cache_build. rewrite (latest_spec a Email _ n Hs Hn Hn0). simpl. rewrite iterate_spec by done. fold p. by rewrite E.
Qed.
End exact.

(** ** Places *)

Lemma uid_in_spec (l : list MailboxUid) m uid : NoDup (mu_mailbox <$> l) →
  mu_uid <$> List.find (λ u, mu_mailbox u =? m) l = Some uid ↔ mkMailboxUid m uid ∈ l.
Proof.
  induction l as [|[m' u'] l IH]; simpl.
  { intros _. split; [done|]. by intros ?%not_elem_of_nil. }
  intros [Hnot Hnd]%NoDup_cons. rewrite elem_of_cons. destruct (Z.eqb_spec m' m) as [->|Hne]; simpl.
  - split; [intros [= ->]; by left|]. intros [[= ->]|Hin]; [done|]. destruct Hnot. apply list_elem_of_fmap. by exists (mkMailboxUid m uid).
  - rewrite IH by done. split; [by right|]. by intros [[= ->]|?].
Qed.
Lemma find_in_mailbox (l : list MailboxUid) m uid :
  mu_uid <$> List.find (λ u, mu_mailbox u =? m) l = Some uid → existsb (λ u, mu_mailbox u =? m) l = true.
Proof. induction l as [|e l IH]; simpl; [done|]. by case_match. Qed.

(** Distinct 32-bit numbers are not too many to be counted in 32 bits. *)
Lemma u32_list_length (l : list Z) : NoDup l → Forall is_u32 l → Z.of_nat (length l) ≤ 2 ^ 32.
Proof.
  intros Hnd Hl. assert (l ⊆+ seqZ 0 (2 ^ 32)) as Hsub.
  { apply NoDup_submseteq; [done|]. rewrite Forall_forall in Hl. intros x Hx%Hl. apply elem_of_seqZ. unfold is_u32 in Hx. lia. }
  apply submseteq_length in Hsub. rewrite length_seqZ in Hsub. lia.
Qed.
