(* ===== verification/MailAdmin.v ===== *)
(** * Mail: mailboxes, subscriptions and maintenance (crates/mail/src:
      mailbox_admin.rs, subscriptions.rs, thread_backfill.rs,
      attachment_backfill.rs, index.rs [reindex_account])

    Creating, renaming and deleting mailboxes, the list of subscribed names,
    and the passes that bring old messages up to date.  The theorems say that
    a mailbox id is never given twice, and what the deletion of a mailbox does
    to the messages in it. *)

From S2P Require Import Prelude Bytes Key Store ChangeLog Quota Text Fts Blobs MailParser Sieve MailModel MailMessage MailStore MailRep MailFile MailRemove MailHistory MailCache.
From stdpp Require Import base gmap list strings.
From Stdlib Require Import ZArith Lia.

Open Scope Z_scope.

Definition MAILBOX_ID_COUNTER : Z := 1.
Definition mailbox_counter_key (account_id : Z) : bytes :=
  key_encode (key_new Counter account_id Key.Mailbox MAILBOX_ID_COUNTER).
Inductive MailboxDelete : Type := MailboxDeleted | HasMail.

Section operations.
Context {S B R : Type} `{Store S} `{BlobStore B} `{Bitmap R} `{Unicode} `{MailParser} `{MailCodec} `{MailboxJson}.
(** The order in which a hash map yields its values. *)
Context (values_order : gmap Z MessageCacheEntry → list MessageCacheEntry).
Abbreviation W := (MailWorld S B).
Implicit Types (account_id : Z).

(** ** mailbox_admin.rs *)

Definition allocate_mailbox_id account_id : M S Z :=
  n ← st_add_and_get (mailbox_counter_key account_id) 1;
  let allocated := as_u32 n in
  ms ← reads (load_mailboxes account_id);
  let floor := Z.max (foldr Z.max 0 (mb_id <$> ms)) SPAM_ID in
  if floor <? allocated then mret allocated
  else n ← st_add_and_get (mailbox_counter_key account_id) (floor + 1 - allocated); mret (as_u32 n).

(** The batch of a mailbox row and its change, and the notice. *)
Definition commit_mailbox account_id (id : Z) (ops : list WriteOp) (k : ChangeKind) : M W unit :=
  change ← in_store (record_op account_id Key.Mailbox id k);
  _ ← in_store (st_batch (ops ++ [change.2]));
  notify (ChangeNotice account_id Key.Mailbox change.1).

Definition create_mailbox account_id (name : bytes) (uid_validity : Z) : M W Mailbox :=
  id ← in_store (allocate_mailbox_id account_id);
  let role := if eq_ignore_ascii_case name (bs "Archive") then UseArchive else UseNone in
  let m := mkMailbox id name role uid_validity in
  _ ← commit_mailbox account_id id (mailbox_ops account_id [m]) ChangeLog.Insert;
  mret m.
Definition rename_mailbox account_id (id : Z) (new_name : bytes) : M W bool :=
  ms ← ask_store (load_mailboxes account_id);
  match List.find (λ m, mb_id m =? id) ms return M W bool with
  | None => mret false
  | Some m =>
      let m := mkMailbox (mb_id m) new_name (mb_role m) (mb_uid_validity m) in
      _ ← commit_mailbox account_id id (mailbox_ops account_id [m]) ChangeLog.Update;
      mret true
  end.

(** The members of a mailbox, each with the number of places it has. *)
Definition members_of (c : MessageStoreCache) (m : Z) : list (Z * nat) :=
  (λ e, (ce_document_id e, length (ce_mailboxes e))) <$> filter (λ e, entry_in_mailbox m e = true) (values_order (cache_entries c)).
Fixpoint remove_members account_id (m : Z) (members : list (Z * nat)) : M W unit :=
  match members with
  | [] => mret tt
  | (d, count) :: members =>
      _ ← (if (count <=? 1)%nat
           then delete_message (R := R) account_id d
           else update_message account_id d (λ data, Ok (remove_mailbox m data).2));
      remove_members account_id m members
  end.
Definition delete_mailbox account_id (m : Z) (remove_emails : bool) : M W MailboxDelete :=
  cache ← ask_store (cache_build account_id);
  let members := members_of cache m in
  if negb remove_emails && negb (bool_decide (members = [])) then mret HasMail
  else
    _ ← remove_members account_id m members;
    _ ← commit_mailbox account_id m [WDelete (mailbox_key account_id m)] ChangeLog.Delete;
    mret MailboxDeleted.

(** ** subscriptions.rs *)

Definition TAG_SUBSCRIPTION : Z := 42.
Definition normalize (name : bytes) : bytes := if eq_ignore_ascii_case name (bs "INBOX") then bs "INBOX" else name.
Definition subscription_key account_id (name : bytes) : bytes :=
  subspace_as_byte Registry :: TAG_SUBSCRIPTION :: u32_be account_id ++ normalize name.
Definition subscribe account_id (name : bytes) : M S bool :=
  there ← reads (st_exists (subscription_key account_id name));
  if (there : bool) then mret false
  else _ ← st_put (subscription_key account_id name) []; mret true.
Definition unsubscribe account_id (name : bytes) : M S bool :=
  there ← reads (st_exists (subscription_key account_id name));
  if (there : bool) then _ ← st_delete (subscription_key account_id name); mret true
  else mret false.
Definition subscriptions_visit account_id (acc : list bytes) (key value : bytes) : result (list bytes * Flow) :=
  Ok (if (6 <? length key)%nat && (default 0 (key !! 1%nat) =? TAG_SUBSCRIPTION)
          && bool_decide (take 4 (drop 2 key) = u32_be account_id) && utf8_valid (drop 6 key)
      then acc ++ [drop 6 key] else acc, Continue).
Definition subscriptions account_id (s : S) : result (list bytes) :=
  st_iterate (kp_subspace Registry) (subscriptions_visit account_id) [] s.

(** ** thread_backfill.rs *)

Definition backfill_marker (tag : Z) : bytes := [subspace_as_byte Registry; tag].
Definition THREAD_MARKER : Z := 51.
Definition backfill_thread account_id (d : Z) : M W nat :=
  metadata ← ask_store (load_metadata account_id d);
  match metadata return M W nat with
  | None => mret 0%nat
  | Some metadata =>
      resolution ← ask_store (resolve_thread account_id d (raw_headers metadata));
      _ ← in_store (st_batch (tr_ops resolution));
      data ← ask_store (load_data account_id d);
      match data return M W nat with
      | None => mret 0%nat
      | Some data =>
          if thread_id data =? tr_thread_id resolution then mret 0%nat
          else
            _ ← update_message account_id d (λ data, Ok (mkData (mailboxes data) (keywords data)
                  (tr_thread_id resolution) (msg_size data) (received_at data) (sent_at data)));
            mret 1%nat
      end
  end.
(** The pass over the messages of the accounts, with what it does to one. *)
Fixpoint backfill_documents (one : Z → M W nat) (ds : list Z) : M W nat :=
  match ds with
  | [] => mret 0%nat
  | d :: ds => n ← one d; rest ← backfill_documents one ds; mret (n + rest)%nat
  end.
Fixpoint backfill_accounts (one : Z → Z → M W nat) (accounts : list Z) : M W nat :=
  match accounts with
  | [] => mret 0%nat
  | a :: accounts =>
      ds ← ask_store (document_ids a);
      n ← backfill_documents (one a) ds;
      rest ← backfill_accounts one accounts;
      mret (n + rest)%nat
  end.
Definition backfill (marker : bytes) (one : Z → Z → M W nat) (accounts : list Z) : M W nat :=
  done ← ask_store (st_get marker);
  match done return M W nat with
  | Some _ => mret 0%nat
  | None => n ← backfill_accounts one accounts; _ ← in_store (st_put marker [1]); mret n
  end.
Definition backfill_threads (accounts : list Z) : M W nat :=
  backfill (backfill_marker THREAD_MARKER) backfill_thread accounts.

(** ** attachment_backfill.rs *)

Definition ATTACHMENT_MARKER : Z := 54.
Definition backfill_attachment account_id (d : Z) : M W nat :=
  data ← ask_store (load_data account_id d);
  match data return M W nat with
  | None => mret 0%nat
  | Some data =>
      if has_keyword has_attachment data then mret 0%nat
      else
        raw ← reads (load_raw account_id d);
        match raw return M W nat with
        | None => mret 0%nat
        | Some raw =>
            if message_has_attachment raw
            then _ ← update_message account_id d (λ data, Ok (add_keyword has_attachment data).2); mret 1%nat
            else mret 0%nat
        end
  end.
Definition backfill_attachment_keywords (accounts : list Z) : M W nat :=
  backfill (backfill_marker ATTACHMENT_MARKER) backfill_attachment accounts.

(** ** index.rs: [reindex_account] *)

Definition wipe_visit (acc : list WriteOp) (key value : bytes) : result (list WriteOp * Flow) :=
  Ok (acc ++ [WDelete key], Continue).
Fixpoint reindex_documents account_id (ds : list Z) : M W nat :=
  match ds with
  | [] => mret 0%nat
  | d :: ds =>
      raw ← reads (load_raw account_id d);
      n ← match raw return M W nat with
          | None => mret 0%nat
          | Some raw =>
              match message_text raw return M W nat with
              | Err _ => mret 0%nat
              | Ok t => _ ← in_store (index_text (R := R) account_id d t); mret 1%nat
              end
          end;
      rest ← reindex_documents account_id ds;
      mret (n + rest)%nat
  end.
Definition reindex_account account_id : M W nat :=
  wipe ← ask_store (st_iterate (kp_collection Index account_id Email) wipe_visit []);
  _ ← match wipe return M W unit with [] => mret tt | _ => in_store (st_batch wipe) end;
  ds ← ask_store (document_ids account_id);
  reindex_documents account_id ds.
End operations.

(** ** Deleting a mailbox *)

(** What is left of a message when a mailbox goes. *)
Definition drop_from (m : Z) (x : Stored) : option Stored :=
  if in_mailbox m (st_data x) then
    if (length (mailboxes (st_data x)) <=? 1)%nat then None
    else Some (with_data x (remove_mailbox m (st_data x)).2)
  else Some x.
Definition drop_mailbox (m : Z) (docs : maildrop) : maildrop := omap (drop_from m) docs.
(** The change ids that takes, at most. *)
Definition places_of (members : list (Z * nat)) : nat := list_sum ((λ x, x.2 + 1)%nat <$> members).

Section deletion.
Context {S B R : Type} {store : Store S} {contract : StoreSpec S} `{Bitmap R} {laws : BitmapLaws R}.
Context `{BlobStore B} {blob_contract : BlobSpec B}.
Context `{Unicode} `{MailParser} `{MailCodec} {codec_laws : MailCodecLaws} {digest_inj : Inj (=) (=) digest}.
Context (digest_nonempty : ∀ raw, digest raw ≠ []) (a : Z) (Ha : is_u32 a).
Context (values_order : gmap Z MessageCacheEntry → list MessageCacheEntry).
Context (values_order_perm : ∀ es, values_order es ≡ₚ (map_to_list es).*2).
Implicit Types (docs : maildrop) (others : BlobHash → Z).
Abbreviation W := (MailWorld S B).

(** Counters that are sums over the messages can be taken down. *)
Lemma removable_from others (w : W) docs d x :
  account_at (R := R) a others w docs → (∀ h, 0 ≤ others h) → docs !! d = Some x →
  (∀ n, counter_at (view (mw_store w)) a Email n → n + Z.of_nat (length (mailboxes (st_data x))) < I64_MAX) →
  removable a others (view (mw_store w)) docs x.
Proof.
  intros (_ & _ & Hrep) Ho Hd Hn. split; [| |done].
  - destruct (rep_ledger _ _ _ _ _ Hrep) as [Hb _]. apply counter_value_range in Hb.
    pose proof (rep_sizes _ _ _ _ _ Hrep d x Hd).
    assert (0 ≤ total_size (base.delete d docs)) as Hp.
    { apply map_fold_add_nonneg. intros d' y [_ Hy]%lookup_delete_Some. by eapply rep_sizes. }
    unfold total_size in *. rewrite (map_fold_add_delete (λ y, msg_size (st_data y)) _ _ _ Hd) in Hp. width.
  - pose proof (rep_references _ _ _ _ _ Hrep (blob_hash (st_metadata x))) as Hr. apply counter_value_range in Hr.
    pose proof (references_pos docs _ d x Hd eq_refl). specialize (Ho (blob_hash (st_metadata x))). width.
Qed.

(** One member goes. *)
Lemma remove_member others (w : W) docs m d x :
  account_at (R := R) a others w docs → (∀ h, 0 ≤ others h) → docs !! d = Some x → in_mailbox m (st_data x) = true →
  (∀ n, counter_at (view (mw_store w)) a Email n → n + Z.of_nat (length (mailboxes (st_data x))) < I64_MAX) →
  ∃ r w', (if (length (mailboxes (st_data x)) <=? 1)%nat then delete_message (R := R) a d
           else update_message a d (λ data, Ok (remove_mailbox m data).2)) w = (Ok r, w') ∧
    account_at (R := R) a others w' (partial_alter (λ o, o ≫= drop_from m) d docs) ∧
    ids_used a (view (mw_store w)) (view (mw_store w')) (length (mailboxes (st_data x)) + 1).
Proof.
  intros Hw Ho Hd Hm Hn. pose proof Hw as (_ & _ & Hrep). destruct (Nat.leb_spec (length (mailboxes (st_data x))) 1) as [Hl|Hl].
  - destruct (delete_message_spec digest_nonempty a Ha others w docs d Hw) as (w' & E & Hacc & _ & Hids);
      [by eapply rep_ids|intros y Hy; rewrite Hd in Hy; simplify_eq; by eapply removable_from|].
    eexists _, w'. split; [exact E|]. rewrite Hd in Hids. split; [|done].
    replace (partial_alter _ d docs) with (base.delete d docs); [done|]. apply map_eq. intros d'.
    destruct (decide (d = d')) as [<-|]; [|by rewrite lookup_delete_ne, lookup_partial_alter_ne].
    rewrite lookup_delete_eq, lookup_partial_alter_eq, Hd. simpl. unfold drop_from. rewrite Hm. by rewrite (proj2 (Nat.leb_le _ _) Hl).
  - destruct (update_message_spec a others w docs d x (λ data, Ok (remove_mailbox m data).2) (remove_mailbox m (st_data x)).2 Hw Hd eq_refl)
      as (w' & E & Hacc & _ & Hids); [eapply change_ok_fewer; try done; apply sublist_filter|].
    eexists _, w'. split; [exact E|]. split; [|done].
    replace (partial_alter _ d docs) with (<[d := with_data x (remove_mailbox m (st_data x)).2]> docs); [done|]. apply map_eq. intros d'.
    destruct (decide (d = d')) as [<-|]; [|by rewrite lookup_insert_ne, lookup_partial_alter_ne].
    rewrite lookup_insert_eq, lookup_partial_alter_eq, Hd. simpl. unfold drop_from. rewrite Hm. by rewrite (proj2 (Nat.leb_gt _ _) Hl).
Qed.

(** All of them go. *)
Lemma remove_members_spec others (w : W) docs m members n :
  account_at (R := R) a others w docs → (∀ h, 0 ≤ others h) → NoDup members.*1 →
  (∀ d k, (d, k) ∈ members → ∃ x, docs !! d = Some x ∧ in_mailbox m (st_data x) = true ∧ k = length (mailboxes (st_data x))) →
  counter_at (view (mw_store w)) a Email n → n + Z.of_nat (places_of members) < I64_MAX →
  ∃ w', remove_members (R := R) a m members w = (Ok tt, w') ∧
    account_at (R := R) a others w' (foldl (λ docs d, partial_alter (λ o, o ≫= drop_from m) d docs) docs members.*1) ∧
    boxes_kept (view (mw_store w)) (view (mw_store w')).
Proof.
  revert w docs n. induction members as [|[d k] members IH]; intros w docs n Hw Ho Hnd Hin Hn Hmax; [by exists w|].
  destruct (Hin d k) as (x & Hd & Hm & ->); [apply list_elem_of_here|].
  unfold places_of in Hmax. rewrite fmap_cons in Hmax. cbn [list_sum foldr snd] in Hmax.
  destruct (remove_member others w docs m d x Hw Ho Hd Hm) as (r & w1 & E & Hw1 & Hids).
  { intros n' Hn'. unfold counter_at in *. rewrite Hn in Hn'. simplify_eq. lia. }
  destruct Hids as [Hids Hkept]. destruct (Hids n Hn) as (n1 & Hn1 & ?). rewrite fmap_cons in Hnd. apply NoDup_cons in Hnd as [Hnot Hnd]. simpl in Hnot.
  destruct (IH w1 _ n1 Hw1 Ho Hnd) as (w' & E' & Hacc & Hc); [|done|unfold places_of, list_sum; lia|].
  { intros d' k' Hin'. destruct (Hin d' k') as (y & Hy & ?); [by apply list_elem_of_further|]. exists y. split; [|done].
    rewrite lookup_partial_alter_ne; [done|]. intros <-. apply Hnot. apply list_elem_of_fmap. by exists (d, k'). }
  exists w'. split_and!; [|exact Hacc|intros k Hk; rewrite Hc, Hkept; done]. cbn [remove_members]. unfold mbind, M_bind. by rewrite E.
Qed.

Lemma drop_all m ids docs :
  NoDup ids → ∀ d, foldl (λ docs d, partial_alter (λ o, o ≫= drop_from m) d docs) docs ids !! d
    = if decide (d ∈ ids) then docs !! d ≫= drop_from m else docs !! d.
Proof.
  revert docs. induction ids as [|i ids IH]; intros docs Hnd d; [by rewrite decide_False by apply not_elem_of_nil|].
  apply NoDup_cons in Hnd as [Hi Hnd]. cbn [foldl]. rewrite IH by done. destruct (decide (d = i)) as [->|Hne].
  - rewrite decide_False, decide_True by (done || apply list_elem_of_here). by rewrite lookup_partial_alter_eq.
  - rewrite lookup_partial_alter_ne by done. destruct (decide (d ∈ ids)) as [Hin|Hin].
    + by rewrite decide_True by (by apply list_elem_of_further).
    + by rewrite decide_False by (rewrite elem_of_cons; tauto).
Qed.

(** The members the cache shows are the messages in the mailbox. *)
Definition cache_of docs (n : Z) : MessageStoreCache := mkCache a (map_imap (λ d x, Some (from_data d (st_data x))) docs) n.
(** Its entries, in whatever order, are those of the messages. *)
Lemma cache_values docs n :
  NoDup (ce_document_id <$> values_order (cache_entries (cache_of docs n))) ∧
  ∀ e, e ∈ values_order (cache_entries (cache_of docs n)) ↔
    ∃ x, docs !! ce_document_id e = Some x ∧ e = from_data (ce_document_id e) (st_data x).
Proof.
  set (es := cache_entries (cache_of docs n)).
  assert (∀ d e, es !! d = Some e ↔ ∃ x, docs !! d = Some x ∧ e = from_data d (st_data x)) as Hes.
  { intros d e. unfold es. simpl. rewrite map_lookup_imap. destruct (docs !! d); naive_solver. }
  split.
  - rewrite values_order_perm, <-list_fmap_compose.
    rewrite (list_fmap_ext _ fst (map_to_list es)); [apply NoDup_fst_map_to_list|].
    intros i [d e] Hi. apply list_elem_of_lookup_2, elem_of_map_to_list, Hes in Hi as (x & _ & ->). done.
  - intros e. rewrite <-Hes, values_order_perm, list_elem_of_fmap. split.
    + intros ([d e'] & -> & Hd%elem_of_map_to_list). simpl. pose proof Hd as Hd'. apply Hes in Hd' as (x & _ & ->). done.
    + intros He. exists (ce_document_id e, e). split; [done|]. by apply elem_of_map_to_list.
Qed.
Lemma members_spec docs n m :
  NoDup (members_of values_order (cache_of docs n) m).*1 ∧
  ∀ d k, (d, k) ∈ members_of values_order (cache_of docs n) m ↔
    ∃ x, docs !! d = Some x ∧ in_mailbox m (st_data x) = true ∧ k = length (mailboxes (st_data x)).
Proof.
  destruct (cache_values docs n) as [Hnd Hin]. split.
  - unfold members_of. rewrite <-list_fmap_compose. eapply sublist_NoDup; [exact Hnd|]. apply fmap_sublist, sublist_filter.
  - intros d k. unfold members_of. rewrite list_elem_of_fmap. split.
    + intros (e & [= -> ->] & [He (x & Hx & Ee)%Hin]%list_elem_of_filter). exists x. rewrite Ee in He |- *. done.
    + intros (x & Hx & Hm & ->). exists (from_data d (st_data x)). split; [done|]. apply list_elem_of_filter. split; [done|].
      apply Hin. by exists x.
Qed.

(** A batch on mailbox rows with its change entry leaves the mail alone. *)
Lemma commit_mailbox_spec others (w : W) docs id ops c' k n :
  account_at (R := R) a others w docs → counter_at (view (mw_store w)) a Key.Mailbox n → 0 ≤ n < I64_MAX →
  apply_ops (<[counter_key a Key.Mailbox := i64_le (n + 1)]> (view (mw_store w))) ops = Some c' → Forall op_ok ops →
  (∀ o, o ∈ ops → ∃ m, op_key o = mailbox_key a m) →
  ∃ w', commit_mailbox a id ops k w = (Ok tt, w') ∧ account_at (R := R) a others w' docs ∧
    view (mw_store w') = <[entry_key a Key.Mailbox (n + 1) := encode_value (mkEntry (n + 1) id k)]> c'.
Proof.
  intros Hw Hn Hn0 Ea Hok Hkeys. pose proof Hw as (Hs & Hb & Hrep). destruct w as [s b notices]. cbn [mw_store mw_blobs mw_notices] in *.
  destruct (allocate_spec a Key.Mailbox s n Hs Hn Hn0) as (s1 & E1 & Hs1 & Hv1).
  set (op := WSet (entry_key a Key.Mailbox (n + 1)) (encode_value (mkEntry (n + 1) id k))).
  destruct (batch_spec (ops ++ [op]) s1 (<[entry_key a Key.Mailbox (n + 1) := encode_value (mkEntry (n + 1) id k)]> c'))
    as (s2 & E2 & Hs2 & Hv2); [done| | |].
  { apply Forall_app. split; [done|]. repeat constructor. apply known_key_encode. }
  { rewrite apply_ops_app, Hv1, Ea. done. }
  exists (mkWorld s2 b (notices ++ [ChangeNotice a Key.Mailbox (n + 1)])). split_and!; [| |done].
  - unfold commit_mailbox, mbind, M_bind, in_store, record_op, mbind, M_bind, notify. cbn [mw_store mw_blobs mw_notices].
    rewrite E1. cbn [mw_store mw_blobs mw_notices fst snd mret M_ret]. fold op. by rewrite E2.
  - assert (∀ k', own a k' ∨ subspace_of k' = Some BlobRef → view s2 !! k' = view s !! k') as F.
    { intros k' Hk'. assert (∀ x, key_account_id x = a → key_collection x = Key.Mailbox → key_subspace x ≠ BlobRef → k' ≠ key_encode x) as Hne.
      { intros x E Ec Es ->. destruct Hk' as [Hown|Hsub]; [|rewrite subspace_of_key_encode in Hsub; congruence].
        unfold own, key_encode in Hown. cbn [app drop] in Hown. rewrite drop_0, E, Ec, cons_middle, app_assoc in Hown.
        rewrite take_app_length' in Hown by (by rewrite length_app, length_u32_be). by apply app_inj_tail in Hown as [_ ?]. }
      rewrite Hv2, lookup_insert_ne by (apply not_eq_sym; by apply Hne). erewrite apply_ops_other; [|exact Ea|].
      - apply lookup_insert_ne, not_eq_sym. by apply Hne.
      - intros (o & -> & Ho)%list_elem_of_fmap_1. destruct (Hkeys o Ho) as (m & Em). by eapply Hne; [..|exact Em]. }
    split_and!; [done|done|]. eapply (represents_frame a others others (view s) _ (bview b) (bview b) docs Hrep); cbn [mw_store mw_blobs].
    + intros k' Hk' _. apply F. by left.
    + destruct (rep_changes _ _ _ _ _ Hrep) as (n0 & Hn0' & _). exists n0, n0. split_and!; [done| |done].
      unfold counter_at. rewrite F; [done|]. left. by apply own_key.
    + intros h. rewrite F by (right; apply subspace_of_key_encode). apply (rep_references _ _ _ _ _ Hrep).
    + intros h raw t Ht _. by exists t.
    + intros k' v Hk' Hsub. apply (rep_wf _ _ _ _ _ Hrep k' v); [|done]. rewrite <-F; [done|]. by right.
Qed.

(** Whether a message is in the mailbox. *)
Definition mailbox_used (m : Z) docs : bool := existsb (λ x, in_mailbox m (st_data x.2)) (map_to_list docs).
Lemma mailbox_used_members docs n m : bool_decide (members_of values_order (cache_of docs n) m = []) = negb (mailbox_used m docs).
Proof.
  destruct (members_spec docs n m) as [_ Hin]. unfold mailbox_used. destruct (existsb _ _) eqn:E; simpl.
  - apply existsb_exists in E as ([d x] & Hd%list_elem_of_In%elem_of_map_to_list & Hm). apply bool_decide_false. intros E.
    assert ((d, length (mailboxes (st_data x))) ∈ members_of values_order (cache_of docs n) m) as Hx by (apply Hin; by exists x).
    rewrite E in Hx. by apply not_elem_of_nil in Hx.
  - apply bool_decide_true. destruct (members_of _ _ _) as [|[d k] l]; [done|]. exfalso.
    destruct (proj1 (Hin d k) (list_elem_of_here _ _)) as (x & Hx & Hm & _). apply not_true_iff_false in E. apply E.
    apply existsb_exists. exists (d, x). split; [by apply list_elem_of_In, elem_of_map_to_list|done].
Qed.

(** C35. Deleting a mailbox.  Unless mail is to be removed, a mailbox with
    messages in it is refused and nothing changes.  Otherwise the messages
    that were only there are deleted, those that are elsewhere too keep their
    other places, all others are as they were, whatever the order the messages
    come in, the account's records and counters agree with that, and the
    mailbox is gone. *)
Theorem delete_mailbox_refines others (w : W) docs m remove_emails :
  account_at (R := R) a others w docs → (∀ h, 0 ≤ others h) → byte_keys (view (mw_store w)) →
  (∀ n, counter_at (view (mw_store w)) a Email n →
     n + Z.of_nat (places_of (members_of values_order (cache_of docs n) m)) < I64_MAX) →
  (∃ k, counter_at (view (mw_store w)) a Key.Mailbox k ∧ 0 ≤ k < I64_MAX) →
  ∃ r w', delete_mailbox (R := R) values_order a m remove_emails w = (Ok r, w') ∧
    if negb remove_emails && mailbox_used m docs then r = HasMail ∧ w' = w
    else r = MailboxDeleted ∧ account_at (R := R) a others w' (drop_mailbox m docs) ∧
      view (mw_store w') !! mailbox_key a m = None.
Proof.
  intros Hw Ho Hbytes Hroom (k & Hk & Hk0). destruct (cache_build_spec a others w docs Hw Hbytes) as (n & Hn & Ec).
  unfold delete_mailbox. unfold mbind at 1, M_bind at 1, ask_store at 1. rewrite Ec. fold (cache_of docs n). cbv zeta.
  rewrite mailbox_used_members, negb_involutive. destruct (negb remove_emails && mailbox_used m docs); [by eexists _, w|].
  destruct (members_spec docs n m) as [Hnd Hin]. set (members := members_of values_order (cache_of docs n) m) in *.
  destruct (remove_members_spec others w docs m members n Hw Ho Hnd) as (w1 & E1 & Hw1 & Hkept); [|done|by apply Hroom|].
  { intros d j Hd. by apply Hin. }
  assert (counter_at (view (mw_store w1)) a Key.Mailbox k) as Hk1 by (unfold counter_at, counter_key in *; by rewrite Hkept).
  destruct (commit_mailbox_spec others w1 _ m [WDelete (mailbox_key a m)]
    (base.delete (mailbox_key a m) (<[counter_key a Key.Mailbox := i64_le (k + 1)]> (view (mw_store w1)))) ChangeLog.Delete k Hw1 Hk1 Hk0)
    as (w2 & E2 & Hw2 & Hv2); [done|repeat constructor; apply known_key_encode|intros o ->%list_elem_of_singleton; by exists m|].
  eexists _, w2. split; [unfold mbind, M_bind; by rewrite E1, E2|]. split_and!; [done| |].
  - replace (drop_mailbox m docs) with (foldl (λ docs d, partial_alter (λ o, o ≫= drop_from m) d docs) docs members.*1); [done|].
    apply map_eq. intros d. rewrite drop_all by done. unfold drop_mailbox. rewrite lookup_omap.
    case_decide as Hd; [done|]. destruct (docs !! d) as [x|] eqn:Hx; [|done]. simpl. unfold drop_from.
    destruct (in_mailbox m (st_data x)) eqn:Hm; [|done]. exfalso. apply Hd. apply list_elem_of_fmap.
    exists (d, length (mailboxes (st_data x))). split; [done|]. apply Hin. by exists x.
  - rewrite Hv2, lookup_insert_ne by keys_differ. apply lookup_delete_eq.
Qed.
End deletion.
