(* ===== verification/MailReindex.v ===== *)
(** * Mail: rebuilding the index (crates/mail/src/index.rs, [reindex_account])

    The pass wipes the account's index and indexes every message again.
    Whatever the index held before, the account's state is whole after it. *)

From S2P Require Import Prelude Bytes Key Store ChangeLog Quota Text Fts Blobs MailParser Sieve MailModel MailMessage MailStore MailRep MailFile MailRemove MailHistory MailCache MailAdmin.
From stdpp Require Import base gmap list strings.
From Stdlib Require Import ZArith Lia.

Open Scope Z_scope.

Section reindex.
Context {S B R : Type} {store : Store S} {contract : StoreSpec S} `{Bitmap R} {laws : BitmapLaws R}.
Context `{BlobStore B} {blob_contract : BlobSpec B}.
Context `{Unicode} `{MailParser} `{MailCodec} {codec_laws : MailCodecLaws}.
Context (a : Z) (Ha : is_u32 a).
Implicit Types (c : contents) (docs : maildrop) (others : BlobHash → Z) (has : Field → bytes → Z → Prop).
Abbreviation W := (MailWorld S B).

(** Two stores that differ in the account's index at most. *)
Definition index_row (k : bytes) : Prop := prefix_encode (kp_collection Index a Email) `prefix_of` k.
Definition same_but_index c c' : Prop := ∀ k, ¬ index_row k → c' !! k = c !! k.

(** Everything but the index is as it should be. *)
Definition account_sans_index others (w : W) docs : Prop :=
  healthy (mw_store w) ∧ bhealthy (mw_blobs w) ∧
  ∃ c, represents (R := R) a others c (bview (mw_blobs w)) docs ∧ same_but_index c (view (mw_store w)).

Lemma term_key_row f t : index_row (term_key a Email f t).
Proof. eexists. unfold term_key, key_encode. simpl. by rewrite <-app_assoc. Qed.
Lemma index_row_space k : index_row k → subspace_of k = Some Index.
Proof. intros [l ->]. done. Qed.

Lemma represents_reindexed others c c' bodies docs :
  represents (R := R) a others c bodies docs → same_but_index c c' → indexed (R := R) a Email c' (has_term docs) →
  represents (R := R) a others c' bodies docs.
Proof.
  intros [] F Hi. assert (∀ k, subspace_of k ≠ Some Index → c' !! k = c !! k) as F'.
  { intros k Hk. apply F. by intros ?%index_row_space. }
  split; try done.
  - intros d Hd. rewrite F' by done. auto.
  - intros d Hd. rewrite F' by done. auto.
  - destruct rep_ledger. split; by rewrite F'.
  - intros h. by rewrite F'.
  - intros h. by rewrite F'.
  - intros m Hm Hm0. rewrite F' by done. auto.
  - destruct rep_changes as (n & ? & ?). exists n. split; [|done]. unfold counter_at. by rewrite F'.
  - intros k v Hk Hsub. apply (rep_wf k v); [|done]. rewrite <-F'; [done|]. by rewrite Hsub.
Qed.

(** The wipe. *)
Lemma wipe_rows rs acc : scan wipe_visit rs acc = Ok (acc ++ (WDelete <$> rs.*1)).
Proof.
  revert acc. induction rs as [|[k v] rs IH]; intros acc; simpl; [by rewrite app_nil_r|]. rewrite IH. by rewrite <-app_assoc.
Qed.
Lemma wipe_spec s :
  healthy s →
  ∃ wipe s', st_iterate (kp_collection Index a Email) wipe_visit [] s = Ok wipe ∧
    (match wipe return M S unit with [] => mret tt | _ => st_batch wipe end) s = (Ok tt, s') ∧ healthy s' ∧
    (∀ k, index_row k → view s' !! k = None) ∧ same_but_index (view s) (view s').
Proof.
  intros Hs. set (p := prefix_encode (kp_collection Index a Email)). set (rs := rows_from (view s) p p).
  assert (∀ k v, (k, v) ∈ rs ↔ view s !! k = Some v ∧ index_row k) as Hrs.
  { intros k v. unfold rs. rewrite elem_of_rows_from. split; [tauto|]. intros [? Hp]. split_and!; [done|done|]. by apply prefix_bytes_le. }
  destruct (apply_deletes (view s) rs.*1) as (c' & E & Hc').
  destruct (batch_spec (WDelete <$> rs.*1) s c' Hs) as (s' & Eb & Hs' & Hv'); [|done|].
  { apply deletes_ok, Forall_forall. intros k ([k' v] & -> & [_ Hr]%Hrs)%list_elem_of_fmap_1. simpl. exists Index. by apply index_row_space. }
  assert (∀ k, c' !! k = if decide (index_row k ∧ is_Some (view s !! k)) then None else view s !! k) as Hk.
  { intros k. rewrite Hc'. destruct (decide (k ∈ rs.*1)) as [Hin|Hin].
    - apply list_elem_of_fmap_1 in Hin as ([k' v] & -> & [Hv ?]%Hrs). simpl. by rewrite decide_True by eauto.
    - rewrite decide_False; [done|]. intros [Hr [v Hv]]. apply Hin. apply list_elem_of_fmap. exists (k, v). split; [done|]. by apply Hrs. }
  exists (WDelete <$> rs.*1). destruct (WDelete <$> rs.*1) as [|op ops] eqn:Ew.
  - exists s. assert (rs = []) as Enil by (by destruct rs). split_and!; [|done|done| |done].
    + rewrite iterate_spec by done. fold p rs. by rewrite wipe_rows, Enil.
    + intros k Hr. destruct (view s !! k) as [v|] eqn:Hv; [|done]. assert ((k, v) ∈ rs) as Hx by (by apply Hrs).
      rewrite Enil in Hx. by apply not_elem_of_nil in Hx.
  - exists s'. split_and!; [|exact Eb|done| |].
    + rewrite iterate_spec by done. fold p rs. by rewrite wipe_rows, Ew.
    + intros k Hr. rewrite Hv', Hk. case_decide as Hd; [done|]. destruct (view s !! k); [|done]. exfalso. eauto.
    + intros k Hr. rewrite Hv', Hk. by rewrite decide_False by tauto.
Qed.

(** The documents a scan of the records finds. *)
Lemma documents_rows rs acc :
  scan document_ids_visit rs acc = Ok (acc ++ ((λ k, of_be_bytes (drop 6 k)) <$> filter (λ k : bytes, length k = DATA_KEY_LEN) rs.*1)).
Proof.
  revert acc. induction rs as [|[k v] rs IH]; intros acc; [simpl; by rewrite app_nil_r|].
  rewrite fmap_cons, filter_cons. cbn [scan fst]. unfold document_ids_visit at 1.
  destruct (Nat.eqb_spec (length k) DATA_KEY_LEN) as [Hl|Hl].
  - rewrite decide_True by done. rewrite IH, fmap_cons. by rewrite <-app_assoc.
  - rewrite decide_False by done. apply IH.
Qed.
Lemma document_ids_spec others c s bodies docs :
  healthy s → represents (R := R) a others c bodies docs → same_but_index c (view s) → byte_keys (view s) →
  ∃ ds, document_ids a s = Ok ds ∧ ∀ d, d ∈ ds ↔ is_Some (docs !! d).
Proof.
  intros Hs Hrep F Hbytes. unfold document_ids. set (p := prefix_encode (kp_collection Property a Email)).
  rewrite iterate_spec by done. fold p. rewrite documents_rows. eexists. split; [done|]. intros d. simpl.
  assert (∀ k, p `prefix_of` k → view s !! k = c !! k) as F'.
  { intros k [l ->]. apply F. by intros ?%index_row_space. }
  rewrite list_elem_of_fmap. setoid_rewrite list_elem_of_filter. setoid_rewrite list_elem_of_fmap. split.
  - intros (k & -> & Hl & [k' v] & -> & (Hk & Hp & _)%elem_of_rows_from). simpl in *.
    destruct (data_row a k' Hp Hl (Hbytes k' v Hk)) as [Hu Ek].
    assert (document_of k' = of_be_bytes (drop 6 k')) as Ed.
    { unfold document_of, DOCUMENT_ID_OFFSET. rewrite take_ge; [done|]. rewrite length_drop, Hl. done. }
    pose proof (rep_data _ _ _ _ _ Hrep _ Hu) as Hd. rewrite <-Ek, <-F', Hk, Ed in Hd by done. destruct (docs !! _); [by eexists|done].
  - intros [x Hd]. pose proof (rep_ids _ _ _ _ _ Hrep d x Hd) as Hu. pose proof (rep_data _ _ _ _ _ Hrep d Hu) as Hk. rewrite Hd in Hk.
    destruct (archived_data (st_data x)) as [b Ea]. simpl in Hk. rewrite Ea in Hk.
    assert (p `prefix_of` data_key a d) as Hp by (eexists; unfold data_key, key_encode, p; simpl; by rewrite <-?app_assoc).
    exists (data_key a d). split_and!.
    + rewrite <-(document_of_data_key a d Hu) at 1. unfold document_of, DOCUMENT_ID_OFFSET. rewrite take_ge; [done|].
      unfold data_key, key_encode. rewrite length_drop, !length_app, !length_u32_be. done.
    + unfold data_key, key_encode. rewrite !length_app, !length_u32_be. done.
    + exists (data_key a d, b). split; [done|]. apply elem_of_rows_from. rewrite F' by done. split_and!; [done|done|]. by apply prefix_bytes_le.
Qed.

Lemma load_raw_sans others c (w : W) docs d :
  healthy (mw_store w) → bhealthy (mw_blobs w) → represents (R := R) a others c (bview (mw_blobs w)) docs →
  same_but_index c (view (mw_store w)) → is_u32 d → load_raw a d w = Ok (st_raw <$> docs !! d).
Proof.
  intros Hs Hb Hrep F Hu. unfold load_raw, load_metadata. rewrite get_spec by (done || apply known_key_encode).
  rewrite F by (by intros ?%index_row_space). rewrite (rep_metadata _ _ _ _ _ Hrep) by done. simpl.
  destruct (docs !! d) as [x|] eqn:Hd; [|done]. simpl. destruct (archived_metadata (st_metadata x)) as [b Em]. rewrite Em. simpl.
  rewrite (metadata_roundtrip _ _ Em). simpl. destruct (rep_bodies _ _ _ _ _ Hrep d x Hd) as (-> & t & Ht).
  by rewrite blob_get_all_spec, Ht.
Qed.

(** One message is indexed again. *)
Lemma index_text_spec has d t s :
  healthy s → indexed (R := R) a Email (view s) has →
  ∃ s', index_text (R := R) a d t s = (Ok tt, s') ∧ healthy s' ∧ same_but_index (view s) (view s') ∧
    indexed (R := R) a Email (view s') (λ f x y, has f x y ∨ y = d ∧ entry_term (entries t) f x).
Proof.
  intros Hs Hi. destruct (index_ops_spec a Email Ha has d (entries t) s (view s) Hs Hi) as (ops & c' & E & Ea & Hi' & F & Hok); [done|].
  unfold index_text, write_index, mbind, M_bind, reads, mail_index_ops. rewrite E. destruct ops as [|op ops].
  - injection Ea as <-. by exists s.
  - destruct (batch_spec (op :: ops) s c' Hs) as (s' & Eb & Hs' & Hv'); [eapply Forall_impl; [exact Hok|by intros ? []]|done|].
    exists s'. rewrite Hv'. split_and!; [exact Eb|done| |done]. intros k Hk. apply F. intros (f & x & ->). by destruct Hk; apply term_key_row.
Qed.

Lemma reindex_documents_spec others c (w : W) bodies docs has ds :
  represents (R := R) a others c bodies docs → healthy (mw_store w) → bhealthy (mw_blobs w) → bview (mw_blobs w) = bodies →
  same_but_index c (view (mw_store w)) → Forall is_u32 ds → indexed (R := R) a Email (view (mw_store w)) has →
  ∃ n w', reindex_documents (R := R) a ds w = (Ok n, w') ∧ healthy (mw_store w') ∧ mw_blobs w' = mw_blobs w ∧
    same_but_index c (view (mw_store w')) ∧
    indexed (R := R) a Email (view (mw_store w')) (λ f x y, has f x y ∨ y ∈ ds ∧ has_term docs f x y).
Proof.
  intros Hrep. revert w has. induction ds as [|d ds IH]; intros w has Hs Hb Eb F Hds Hi.
  { exists 0%nat, w. split_and!; try done. eapply indexed_ext; [|exact Hi]. intros f x y. rewrite elem_of_nil. tauto. }
  apply Forall_cons in Hds as [Hd Hds]. cbn [reindex_documents]. rewrite <-Eb in Hrep.
  unfold mbind at 1, M_bind at 1, reads. rewrite (load_raw_sans others c w docs d Hs Hb Hrep F Hd). rewrite Eb in Hrep.
  assert (∀ n0 w1 has', healthy (mw_store w1) → mw_blobs w1 = mw_blobs w → same_but_index c (view (mw_store w1)) →
    indexed (R := R) a Email (view (mw_store w1)) has' → (∀ f x y, has' f x y ↔ has f x y ∨ y = d ∧ has_term docs f x y) →
    ∃ n w', (rest ← reindex_documents (R := R) a ds; mret (n0 + rest)%nat) w1 = (Ok n, w') ∧ healthy (mw_store w') ∧
      mw_blobs w' = mw_blobs w ∧ same_but_index c (view (mw_store w')) ∧
      indexed (R := R) a Email (view (mw_store w')) (λ f x y, has f x y ∨ y ∈ d :: ds ∧ has_term docs f x y)) as Hrest.
  { intros n0 w1 has' Hs1 Eb1 F1 Hi1 Heq. destruct (IH w1 has') as (n & w' & E & Hs' & Eb' & F' & Hi'); rewrite ?Eb1; try done.
    exists (n0 + n)%nat, w'. unfold mbind, M_bind. rewrite E. split_and!; try done; [congruence|].
    eapply indexed_ext; [|exact Hi']. intros f x y. simpl. rewrite Heq, elem_of_cons. naive_solver. }
  destruct (docs !! d) as [x|] eqn:Hx; simpl.
  2:{ apply (Hrest 0%nat w has); try done. intros f t y. split; [tauto|]. intros [?|[-> (z & Hz & _)]]; [done|congruence]. }
  destruct (message_text (st_raw x)) as [t|e] eqn:Et.
  - destruct (index_text_spec has d t (mw_store w) Hs Hi) as (s1 & E1 & Hs1 & F1 & Hi1).
    unfold mbind at 1, M_bind at 1. unfold mbind at 1, M_bind at 1, in_store at 1. rewrite E1. cbn [mret M_ret].
    apply (Hrest 1%nat (mkWorld s1 (mw_blobs w) (mw_notices w)) _ Hs1 eq_refl) with (2 := Hi1).
    + intros k Hk. cbn [mw_store]. rewrite F1 by done. by apply F.
    + intros f t' y. unfold has_term, text_or_empty. split.
      * intros [?|[-> ?]]; [by left|right]. split; [done|]. exists x. by rewrite Et.
      * intros [?|[-> (z & Hz & Hz')]]; [by left|right]. split; [done|]. rewrite Hx in Hz. injection Hz as <-. by rewrite Et in Hz'.
  - unfold mbind at 1, M_bind at 1. cbn [mret M_ret]. apply (Hrest 0%nat w has); try done. intros f t y. split; [tauto|].
    intros [?|[-> (z & Hz & Hz')]]; [done|]. exfalso. rewrite Hx in Hz. injection Hz as <-. unfold text_or_empty in Hz'. rewrite Et in Hz'.
    by apply no_text_no_term in Hz'.
Qed.

(** Reindexing repairs the index.  When everything of an account but
    its index is in order, the index rows being missing, stale or unreadable,
    then after [reindex_account] the account is whole: the posting lists hold
    exactly the words of the messages that are there, and no other record has
    changed. *)
Theorem reindex_repairs others (w : W) docs :
  account_sans_index others w docs → byte_keys (view (mw_store w)) →
  ∃ n w', reindex_account (R := R) a w = (Ok n, w') ∧ account_at (R := R) a others w' docs ∧
    same_but_index (view (mw_store w)) (view (mw_store w')).
Proof.
  intros (Hs & Hb & c & Hrep & F) Hbytes. destruct (wipe_spec (mw_store w) Hs) as (wipe & s1 & Ei & Ew & Hs1 & Hgone & F1).
  set (w1 := mkWorld s1 (mw_blobs w) (mw_notices w)).
  assert (same_but_index c (view s1)) as F1' by (intros k Hk; rewrite F1 by done; by apply F).
  assert (byte_keys (view s1)) as Hbytes1.
  { intros k v Hk. destruct (decide (index_row k)) as [Hr|Hr]; [by rewrite Hgone in Hk|]. apply (Hbytes k v). by rewrite <-F1. }
  destruct (document_ids_spec others c s1 (bview (mw_blobs w)) docs Hs1 Hrep F1' Hbytes1) as (ds & Ed & Hds).
  destruct (reindex_documents_spec others c w1 (bview (mw_blobs w)) docs (λ _ _ _, False) ds Hrep Hs1 Hb eq_refl F1')
    as (n & w' & E & Hs' & Eb' & F' & Hi').
  { apply Forall_forall. intros d [x Hx]%Hds. by eapply rep_ids. }
  { intros f t. exists ∅. split; [|set_solver]. by rewrite Hgone by apply term_key_row. }
  exists n, w'. split_and!.
  - unfold reindex_account. unfold mbind at 1, M_bind at 1, ask_store at 1. rewrite Ei.
    assert ((match wipe return M W unit with [] => mret tt | _ => in_store (st_batch wipe) end) w = (Ok tt, w1)) as Ew'.
    { destruct wipe; [by injection Ew as <-; destruct w|]. unfold in_store. by rewrite Ew. }
    unfold mbind at 1, M_bind at 1. rewrite Ew'. unfold mbind at 1, M_bind at 1, ask_store at 1. cbn [mw_store w1]. rewrite Ed. exact E.
  - split_and!; [done|by rewrite Eb'|]. rewrite Eb'. eapply represents_reindexed; [exact Hrep|done|].
    eapply indexed_ext; [|exact Hi']. intros f t y. simpl. split; [tauto|]. intros Hy. right. split; [|done]. apply Hds.
    destruct Hy as (x & Hx & _). by exists x.
  - intros k Hk. rewrite F' by done. by rewrite F.
Qed.
End reindex.
