(* ===== verification/MailDemo.v ===== *)
(** * Mail: the theorems at work

    Instances in memory of what the mail side is parameterised by, an account
    whose messages are delivered, deleted and purged, and what two deletions
    of one message at the same time do to a third. *)

From S2P Require Import Prelude Bytes Key Store ChangeLog Quota Text Fts Blobs MailParser Sieve MailModel MailMessage MailStore MailRep MailFile MailRemove MailHistory MailCache MailAdmin MailReindex.
From stdpp Require Import base gmap list strings countable.
From Stdlib Require Import ZArith Lia.

Open Scope Z_scope.
Import SetBitmap.

(** ** Instances *)

Module Demo.

(** A parser to which a message is one text part, with the whole as its
    subject. *)
Definition plain_subject (m : Message) : option bytes :=
  match msg_parts m with
  | p :: _ => match part_headers p with mkHeader _ (HvText t) _ _ :: _ => Some t | _ => None end
  | [] => None
  end.
#[global] Instance plain_parser : MailParser := {|
  mp_parse raw := if bool_decide (raw = []) then None else
    Some (mkParsed [mkPart [mkHeader (PnStd HnSubject) (HvText raw) 0 (Z.of_nat (length raw))] 0 0 (Z.of_nat (length raw)) EncNone PtText]);
  header_as_str n := match n with PnListed t | PnOther t => t | PnStd _ => [] end;
  value_as_text v := match v with HvText t => Some t | _ => None end;
  msg_headers m := match msg_parts m with p :: _ => part_headers p | [] => [] end;
  has_attachments _ := false;
  body_preview m n := take n <$> plain_subject m;
  msg_subject := plain_subject;
  text_bodies _ := [];
  msg_from _ := None; msg_to _ := None; msg_cc _ := None; msg_bcc _ := None;
  msg_date _ := None;
  in_reply_to _ := HvOther;
  MailParser.references _ := HvOther;
  msg_message_id _ := None;
|}.

(** Records as one number, by stdpp's encoding of finite data. *)
Definition plain_headers : list HeaderName :=
  [HdSubject; HdFrom; HdTo; HdCc; HdBcc; HdReplyTo; HdSender; HdDate; HdMessageId; HdInReplyTo; HdReferences;
   HdReturnPath; HdMimeVersion; HdContentType; HdContentTransferEncoding; HdContentDisposition; HdContentId;
   HdContentDescription; HdContentLanguage; HdContentLocation; HdListId; HdListUnsubscribe].
Definition header_code (h : HeaderName) : nat + bytes :=
  match h with
  | HdSubject => inl 0 | HdFrom => inl 1 | HdTo => inl 2 | HdCc => inl 3 | HdBcc => inl 4 | HdReplyTo => inl 5
  | HdSender => inl 6 | HdDate => inl 7 | HdMessageId => inl 8 | HdInReplyTo => inl 9 | HdReferences => inl 10
  | HdReturnPath => inl 11 | HdMimeVersion => inl 12 | HdContentType => inl 13 | HdContentTransferEncoding => inl 14
  | HdContentDisposition => inl 15 | HdContentId => inl 16 | HdContentDescription => inl 17 | HdContentLanguage => inl 18
  | HdContentLocation => inl 19 | HdListId => inl 20 | HdListUnsubscribe => inl 21 | HdOther n => inr n
  end%nat.
#[global] Instance HeaderName_eq_dec : EqDecision HeaderName.
Proof. solve_decision. Defined.
#[global] Instance HeaderName_countable : Countable HeaderName.
Proof.
  refine (inj_countable header_code (λ c, match c with inl n => plain_headers !! n | inr n => Some (HdOther n) end) _).
  by intros [].
Defined.

#[global] Instance ByteRange_eq_dec : EqDecision ByteRange.
Proof. solve_decision. Defined.
#[global] Instance ByteRange_countable : Countable ByteRange.
Proof.
  refine (inj_countable' (λ r, (rg_start r, rg_end r)) (λ p, mkRange p.1 p.2) _).
  by intros [].
Defined.
#[global] Instance PartHeader_eq_dec : EqDecision PartHeader.
Proof. solve_decision. Defined.
#[global] Instance PartHeader_countable : Countable PartHeader.
Proof.
  refine (inj_countable' (λ r, (hdr_name r, hdr_value r)) (λ p, mkPartHeader p.1 p.2) _).
  by intros [].
Defined.
#[global] Instance PartEncoding_eq_dec : EqDecision PartEncoding.
Proof. solve_decision. Defined.
#[global] Instance PartEncoding_countable : Countable PartEncoding.
Proof.
  refine (inj_countable' (λ e, match e with PeNone => 0 | PeBase64 => 1 | PeQuotedPrintable => 2 | PeUnknown => 3 end%nat)
    (λ n, match n with 0 => PeNone | 1 => PeBase64 | 2 => PeQuotedPrintable | _ => PeUnknown end%nat) _).
  by intros [].
Defined.
#[global] Instance PartBody_eq_dec : EqDecision PartBody.
Proof. solve_decision. Defined.
#[global] Instance PartBody_countable : Countable PartBody.
Proof.
  refine (inj_countable' (λ b, match b with
      | PbText => inl 0%nat | PbHtml => inl 1%nat | PbBinary => inl 2%nat | PbInlineBinary => inl 3%nat
      | PbMessage r => inr (inl r) | PbMultipart l => inr (inr l) end)
    (λ c, match c with
      | inl 0%nat => PbText | inl 1%nat => PbHtml | inl 2%nat => PbBinary | inl _ => PbInlineBinary
      | inr (inl r) => PbMessage r | inr (inr l) => PbMultipart l end) _).
  by intros [].
Defined.
#[global] Instance MessagePart_eq_dec : EqDecision MessagePart.
Proof. solve_decision. Defined.
#[global] Instance MessagePart_countable : Countable MessagePart.
Proof.
  refine (inj_countable' (λ p, (mp_headers p, mp_header p, mp_body p, mp_encoding p, mp_kind p))
    (λ t, let '(h, r, b, e, k) := t in mkMessagePart h r b e k) _).
  by intros [].
Defined.
#[global] Instance MessageMetadata_eq_dec : EqDecision MessageMetadata.
Proof. solve_decision. Defined.
#[global] Instance MessageMetadata_countable : Countable MessageMetadata.
Proof.
  refine (inj_countable' (λ m, (blob_hash m, parts m, raw_headers m, preview m)) (λ t, let '(h, p, r, v) := t in mkMetadata h p r v) _).
  by intros [].
Defined.
#[global] Instance MailboxUid_countable : Countable MailboxUid.
Proof.
  refine (inj_countable' (λ e, (mu_mailbox e, mu_uid e)) (λ p, mkMailboxUid p.1 p.2) _).
  by intros [].
Defined.
#[global] Instance Keyword_countable : Countable Keyword.
Proof.
  refine (inj_countable' (λ k, match k with
      | Seen => inl 0 | Draft => inl 1 | Flagged => inl 2 | Answered => inl 3 | Deleted => inl 4 | Recent => inl 5
      | KJunk => inl 6 | NotJunk => inl 7 | Forwarded => inl 8 | Custom n => inr n end%nat)
    (λ c, match c with
      | inl 0 => Seen | inl 1 => Draft | inl 2 => Flagged | inl 3 => Answered | inl 4 => Deleted | inl 5 => Recent
      | inl 6 => KJunk | inl 7 => NotJunk | inl _ => Forwarded | inr n => Custom n end%nat) _).
  by intros [].
Defined.
#[global] Instance MessageData_countable : Countable MessageData.
Proof.
  refine (inj_countable' (λ d, (mailboxes d, keywords d, thread_id d, msg_size d, received_at d, sent_at d))
    (λ t, let '(m, k, h, z, r, s) := t in mkData m k h z r s) _).
  by intros [].
Defined.

Definition plain_decode {A} `{Countable A} (b : bytes) : result A :=
  match b with [Z.pos p] => ok_or (decode p) (Serialize "not a record") | _ => Err (Serialize "not a record") end.
#[global] Instance plain_codec : MailCodec := {|
  archive_data d := Ok [Z.pos (encode d)];
  deserialize_data := plain_decode;
  archive_metadata m := Ok [Z.pos (encode m)];
  deserialize_metadata := plain_decode;
  blake3 b := b;
|}.
#[global] Instance plain_codec_laws : MailCodecLaws.
Proof. split; [done| |done|]; intros ? ? [= <-]; simpl; by rewrite decode_encode. Qed.
End Demo.
Import Demo.

(** ** An account at work *)

Definition demo_inbox : Mailbox := mkMailbox 1 (bs "Inbox") UseInbox 1.
Definition demo_account : Account := mkAccount 7 0 0 0 (mkForwarding [] true).
Definition demo_request (raw : bytes) (d : Z) : DeliveryRequest :=
  mkRequest demo_account [demo_inbox] None (bs "alice@example.org") (bs "bob@example.com") d raw None 0.
Abbreviation demo_world := (MailWorld MemStore MemBlobs).
Definition demo_start : demo_world := mkWorld (mkMem ∅) (mkBlobs ∅) [].
Definition after {A} (m : M demo_world A) (w : demo_world) : demo_world := (m w).2.
Definition no_others : BlobHash → Z := λ _, 0.

Abbreviation demo_at w docs := (account_at (R := gset Z) 7 no_others w docs).
Abbreviation demo_run := (run (R := gset Z) (B := MemBlobs) (S := MemStore) 7).

#[global] Instance demo_digest_inj : Inj (=) (=) (digest (B := MemBlobs)).
Proof. by intros x y [= ->]. Qed.
Lemma demo_digest raw : digest (B := MemBlobs) raw ≠ [].
Proof. done. Qed.
Lemma demo_nonneg h : 0 ≤ no_others h.
Proof. unfold no_others. lia. Qed.
Lemma demo_start_at : demo_at demo_start ∅.
Proof. split_and!; [exact I|exact I|]. by apply represents_empty. Qed.

(** Counters of the concrete states, read off what represents them. *)
Lemma demo_numbers (w : demo_world) docs others :
  account_at (R := gset Z) 7 others w docs → ∀ h,
  counter_value (mem_map (mw_store w) !! bytes_key 7) = Some (total_size docs) ∧
  counter_value (mem_map (mw_store w) !! messages_key 7) = Some (Z.of_nat (size docs)) ∧
  counter_value (mem_map (mw_store w) !! account_link_key 7 h) = Some (references docs h) ∧
  counter_value (mem_map (mw_store w) !! ref_count_key h) = Some (others h + references docs h).
Proof. intros (_ & _ & []) h. destruct rep_ledger. done. Qed.
Ltac demo_counter H := vm_compute in H; injection H as H.

(** A request the demo account accepts in the state [w]. *)
Lemma demo_deliverable raw (w : demo_world) docs others b m l r n :
  account_at (R := gset Z) 7 others w docs → raw ≠ [] → Z.of_nat (length raw) ≤ 1000 →
  counter_value (mem_map (mw_store w) !! bytes_key 7) = Some b → 0 ≤ b ≤ 1000 →
  counter_value (mem_map (mw_store w) !! messages_key 7) = Some m → 0 ≤ m ≤ 1000 →
  counter_value (mem_map (mw_store w) !! account_link_key 7 (mem_digest raw)) = Some l → 0 ≤ l ≤ 1000 →
  counter_value (mem_map (mw_store w) !! ref_count_key (mem_digest raw)) = Some r → 0 ≤ r ≤ 1000 →
  counter_at (mem_map (mw_store w)) 7 Email n → n ≤ 1000 →
  uid_left 7 (mem_map (mw_store w)) demo_inbox →
  deliverable 7 w docs others (demo_request raw 0).
Proof.
  intros Hw Hraw Hlen Hb ? Hm ? Hl ? Hr ? Hn ? Hu. destruct (demo_numbers w docs others Hw (mem_digest raw)) as (Eb & Em & El & Er).
  split; try done.
  - unfold ingest, demo_request. simpl. by rewrite bool_decide_false.
  - repeat constructor; simpl; width.
  - repeat constructor. exact Hu.
  - split; simpl in *; try (simplify_eq; width).
    intros n' Hn'. unfold counter_at in *. simpl in *. rewrite Hn in Hn'. simplify_eq. width.
  - intros n' Hn'. unfold counter_at in *. simpl in *. rewrite Hn in Hn'. simplify_eq. width.
Qed.

(** ** Witnesses *)

Definition hello : bytes := bs "hello world".
Definition demo_one : demo_world := after (exec (R := gset Z) 7 (EvDeliver (demo_request hello 0) 100)) demo_start.
Definition demo_allocated : demo_world := after (in_store (allocate_document_id 7)) demo_start.

Lemma demo_allocated_at : demo_at demo_allocated ∅ ∧ counter_at (mem_map (mw_store demo_allocated)) 7 Email 1.
Proof.
  destruct (allocate_document_spec (R := gset Z) 7 no_others demo_start ∅ 0 demo_start_at) as (w & E & Hw & _ & _ & Hn & _);
    [done|done|]. assert (w = demo_allocated) as -> by (by vm_compute in E |- *; injection E). done.
Qed.

Lemma flatten_faithful_witness :
  let inner := mkParsed [mkPart [] 0 0 5 EncNone PtText] in
  let m := mkParsed [mkPart [] 0 10 90 EncNone (PtMultipart [1; 2]); mkPart [] 10 20 40 EncBase64 PtText;
                     mkPart [] 40 50 90 EncNone (PtMessage inner)] in
  laid_out (flatten m) m 0 ∧ mp_kind <$> flatten m = [PbMultipart [1; 2]; PbText; PbMessage 3; PbText].
Proof. intros inner m. split; [|by vm_compute]. apply flatten_faithful; [by vm_compute|by vm_compute]. Defined.

Lemma deliver_refines_witness :
  ∃ o w', deliver (R := gset Z) (demo_request hello 1) 100 demo_allocated = (Ok o, w') ∧
    filed_into o = [1] ∧ load_raw 7 1 w' = Ok (Some hello).
Proof.
  destruct demo_allocated_at as [Hw Hn].
  destruct (deliver_refines (R := gset Z) 7 ltac:(width) no_others demo_digest demo_allocated ∅ (demo_request hello 1) 100 Hw)
    as (o & w' & E & Ho).
  - split; [by vm_compute..| | |split; by vm_compute|by exists 1|done|].
    + repeat constructor; simpl; width.
    + repeat constructor. exists 0. split; [by vm_compute|unfold U32_MAX; lia].
    + split; [split; by vm_compute..|by vm_compute|]. intros n Hn'. unfold counter_at in *. change (counter_value (mem_map (mw_store demo_allocated) !! counter_key 7 Email) = Some n) in Hn'.
      rewrite Hn in Hn'. injection Hn' as <-. by vm_compute.
  - exists o, w'. split; [done|]. assert (not_filed ∅ (demo_request hello 1) = false) as Hf by (by vm_compute).
    rewrite Hf in Ho. destruct Ho as (x & _ & _ & _ & Hraw & _). split; [|exact Hraw].
    assert (Ok o = (deliver (R := gset Z) (demo_request hello 1) 100 demo_allocated).1) as Eo by (by rewrite E).
    vm_compute in Eo. by injection Eo as ->.
Defined.

(** The states along a short history. *)
Lemma demo_start_deliverable docs others :
  account_at (R := gset Z) 7 others demo_start docs → deliverable 7 demo_start docs others (demo_request hello 0).
Proof.
  intros Hw. apply (demo_deliverable hello demo_start docs others 0 0 0 0 0 Hw);
    [discriminate|by vm_compute|reflexivity|lia|reflexivity|lia|reflexivity|lia|reflexivity|lia|reflexivity|lia|].
  exists 0. split; [reflexivity|unfold U32_MAX; lia].
Qed.
Lemma demo_removable (w : demo_world) docs others d x data meta b r n :
  account_at (R := gset Z) 7 others w docs → is_u32 d → docs !! d = Some x →
  load_data 7 d (mw_store w) = Ok (Some data) → load_metadata 7 d (mw_store w) = Ok (Some meta) →
  counter_value (mem_map (mw_store w) !! bytes_key 7) = Some b → is_i64 (b - msg_size data) →
  counter_value (mem_map (mw_store w) !! ref_count_key (blob_hash meta)) = Some r → is_i64 (r - 1) →
  counter_at (mem_map (mw_store w)) 7 Email n → n + Z.of_nat (length (mailboxes data)) < I64_MAX →
  removable 7 others (mem_map (mw_store w)) docs x.
Proof.
  intros Hw Hu Hd Ed Em Eb Hb Er Hr En Hn. destruct (demo_numbers w docs others Hw (blob_hash meta)) as (Eb' & _ & _ & Er').
  rewrite (load_data_spec (R := gset Z) 7 others w docs d Hw Hu), Hd in Ed.
  rewrite (load_metadata_spec (R := gset Z) 7 others w docs d Hw Hu), Hd in Em. injection Ed as <-. injection Em as <-.
  rewrite Eb in Eb'. rewrite Er in Er'. injection Eb' as ->. injection Er' as ->. split; [exact Hb|exact Hr|].
  intros n' Hn'. unfold counter_at in *. rewrite En in Hn'. by injection Hn' as <-.
Qed.

Lemma step_deliver_inv rq clock docs o docs' o' new :
  step (EvDeliver rq clock) docs o docs' o' new → not_filed docs rq = false →
  o' = o ∧ ∃ d x, docs !! d = None ∧ st_raw x = rq_raw rq ∧ docs' = <[d := x]> docs.
Proof. intros Hst Hn. inversion Hst; [eauto 7|congruence]. Qed.
Lemma demo_one_at : ∃ x, demo_at demo_one {[ 1 := x ]} ∧ st_raw x = hello.
Proof.
  destruct (deliver_step (R := gset Z) demo_digest 7 ltac:(width) no_others demo_start ∅ (demo_request hello 0) 100 demo_start_at)
    as (w' & E & docs' & o' & new & Hst & Hw & _); [exact demo_nonneg|exact (demo_start_deliverable _ _ demo_start_at)|].
  assert (w' = demo_one) as -> by (unfold demo_one, after; by rewrite E).
  destruct (step_deliver_inv _ _ _ _ _ _ _ Hst) as (-> & d & x & _ & Hraw & ->); [by vm_compute|].
  exists x. split; [|exact Hraw]. destruct (decide (d = 1)) as [->|Hne]; [exact Hw|]. exfalso.
  destruct Hw as (_ & _ & Hrep). pose proof (rep_data _ _ _ _ _ Hrep 1 ltac:(width)) as H1.
  rewrite lookup_insert_ne, lookup_empty in H1 by exact Hne. vm_compute in H1. discriminate H1.
Qed.
Lemma demo_one_removable docs others x :
  account_at (R := gset Z) 7 others demo_one docs → docs !! 1 = Some x → removable 7 others (mem_map (mw_store demo_one)) docs x.
Proof.
  intros Hw Hd. eapply (demo_removable demo_one docs others 1 x _ _ _ _ _ Hw ltac:(width) Hd);
    try (vm_compute; reflexivity); split; by vm_compute.
Qed.

Lemma delete_refines_witness :
  ∃ w', delete_message (R := gset Z) 7 1 demo_one = (Ok true, w') ∧ load_raw 7 1 w' = Ok None ∧
    demo_at w' (base.delete 1 (∅ : maildrop)).
Proof.
  destruct demo_one_at as (x & Hw & _).
  destruct (delete_refines (R := gset Z) demo_digest 7 ltac:(width) no_others demo_one {[ 1 := x ]} 1 Hw ltac:(width)) as (w' & E & Hacc & Hr & _).
  { intros y Hy. exact (demo_one_removable _ _ y Hw Hy). }
  rewrite lookup_singleton_eq in E. exists w'. split_and!; [exact E|exact Hr|]. by rewrite delete_singleton_eq, <-(delete_empty 1) in Hacc.
Defined.

(** Delivered, purged around, deleted. *)
Definition demo_purged : demo_world := after (exec (R := gset Z) 7 (EvPurge 100000 3600)) demo_one.
Lemma account_history_witness :
  ∃ w' docs' others' given,
    demo_run demo_start [EvDeliver (demo_request hello 0) 100; EvPurge 100000 3600; EvDelete 1] w' ∧
    steps ∅ [EvDeliver (demo_request hello 0) 100; EvPurge 100000 3600; EvDelete 1] docs' given ∧
    account_at (R := gset Z) 7 others' w' docs' ∧ usage 7 (mw_store w') = Ok (mkUsage 0 0) ∧ load_raw 7 1 demo_purged = Ok (Some hello).
Proof.
  set (evs := [EvDeliver (demo_request hello 0) 100; EvPurge 100000 3600; EvDelete 1]).
  set (w' := after (exec (R := gset Z) 7 (EvDelete 1)) demo_purged).
  assert (demo_run demo_start evs w') as Hrun.
  { eapply (run_event 7 demo_start _ (Ok tt) demo_one); [exact demo_start_deliverable|by vm_compute|].
    eapply (run_event 7 demo_one _ (Ok tt) demo_purged); [by intros|by vm_compute|].
    eapply (run_event 7 demo_purged _ (Ok tt) w'); [|by vm_compute|apply run_nil].
    intros docs others Hw. split; [width|]. intros x Hd.
    eapply (demo_removable demo_purged docs others 1 x _ _ _ _ _ Hw ltac:(width) Hd);
      try (vm_compute; reflexivity); split; by vm_compute. }
  destruct (account_history (R := gset Z) demo_digest 7 ltac:(width) no_others demo_start w' ∅ evs demo_start_at demo_nonneg Hrun)
    as (docs' & others' & given & Hsteps & Hacc & _).
  exists w', docs', others', given. split_and!; [exact Hrun|exact Hsteps|exact Hacc|by vm_compute|by vm_compute].
Defined.

(** The keys of a concrete store are bytes. *)
Definition byte_keys_check (c : contents) : bool := forallb (λ kv, forallb (λ b, (0 <=? b) && (b <? 256)) kv.1) (map_to_list c).
Lemma byte_keys_by_check c : byte_keys_check c = true → byte_keys c.
Proof.
  intros Hc k v Hk. unfold byte_keys_check in Hc. rewrite forallb_forall in Hc.
  specialize (Hc (k, v) (proj1 (list_elem_of_In _ _) (proj2 (elem_of_map_to_list _ _ _) Hk))). rewrite forallb_forall in Hc.
  apply Forall_forall. intros b Hb. specialize (Hc b Hb). unfold is_byte. lia.
Qed.

Definition demo_order (es : gmap Z MessageCacheEntry) : list MessageCacheEntry := (map_to_list es).*2.
Lemma delete_mailbox_refines_witness :
  ∃ w', delete_mailbox (R := gset Z) demo_order 7 1 true demo_one = (Ok MailboxDeleted, w') ∧
    demo_at w' (∅ : maildrop) ∧ load_raw 7 1 w' = Ok None.
Proof.
  destruct demo_one_at as (x & Hw & _).
  pose proof (load_data_spec (R := gset Z) 7 no_others demo_one {[ 1 := x ]} 1 Hw ltac:(width)) as Ex.
  rewrite lookup_singleton_eq in Ex. destruct x as [data meta raw]. vm_compute in Ex. injection Ex as <-.
  destruct (delete_mailbox_refines (R := gset Z) demo_digest 7 ltac:(width) demo_order (λ _, reflexivity _) no_others demo_one _ 1 true
    Hw demo_nonneg) as (r & w' & E & -> & Hacc & _).
  - apply byte_keys_by_check. by vm_compute.
  - intros n Hn. vm_compute in Hn. injection Hn as <-. unfold members_of, cache_of, demo_order. cbn [cache_entries].
    by vm_compute.
  - exists 0. split; [by vm_compute|]. unfold I64_MAX. lia.
  - exists w'. split; [exact E|].
    match type of Hacc with account_at _ _ _ ?docs => assert (docs = ∅) as Ed by (by vm_compute) end.
    rewrite Ed in Hacc. split; [exact Hacc|]. by rewrite (load_raw_spec (R := gset Z) 7 no_others w' ∅ 1 Hacc) by width.
Defined.

(** The index of the account is lost, and made again. *)
Definition demo_broken : demo_world :=
  mkWorld (mkMem (base.delete (term_key 7 Email Subject (bs "hello")) (mem_map (mw_store demo_one)))) (mw_blobs demo_one) [].
Lemma reindex_repairs_witness :
  posting_list (R := gset Z) 7 Email Subject (bs "hello") (mw_store demo_broken) = Ok ∅ ∧
  ∃ n w' x, reindex_account (R := gset Z) 7 demo_broken = (Ok n, w') ∧ demo_at w' {[ 1 := x ]} ∧
    posting_list (R := gset Z) 7 Email Subject (bs "hello") (mw_store w') = Ok {[ 1 ]}.
Proof.
  split; [by vm_compute|]. destruct demo_one_at as (x & Hw & _). pose proof Hw as (_ & _ & Hrep).
  destruct (reindex_repairs (R := gset Z) 7 ltac:(width) no_others demo_broken {[ 1 := x ]}) as (n & w' & E & Hacc & _).
  - split_and!; [exact I|exact I|]. exists (view (mw_store demo_one)). split; [exact Hrep|]. intros k Hk.
    change (base.delete (term_key 7 Email Subject (bs "hello")) (mem_map (mw_store demo_one)) !! k = mem_map (mw_store demo_one) !! k).
    rewrite lookup_delete_ne; [done|]. intros <-. apply Hk, term_key_row.
  - apply byte_keys_by_check. by vm_compute.
  - exists n, w', x. split; [exact E|]. split; [exact Hacc|].
    assert (w' = after (reindex_account (R := gset Z) 7) demo_broken) as -> by (unfold after; by rewrite E). by vm_compute.
Defined.

(** ** Two deletions at once *)

(** Both read the message before either has written. *)
Definition double_delete (d : Z) : M demo_world bool :=
  first ← delete_plan (R := gset Z) 7 d;
  second ← delete_plan (R := gset Z) 7 d;
  match first, second return M demo_world bool with
  | Some p1, Some p2 => _ ← delete_commit 7 p1; _ ← delete_commit 7 p2; mret true
  | _, _ => mret false
  end.
Definition demo_two : demo_world := after (exec (R := gset Z) 7 (EvDeliver (demo_request hello 0) 200)) demo_one.

