(* ===== verification/Dsn.v ===== *)
(** * Bounce reports (crates/smtp/src/dsn.rs)

    The text of a delivery status notification, and the RFC 822 date in it.
    The date algorithm is checked against the Gregorian calendar stepped day
    by day. *)

From S2P Require Import Prelude Bytes Text QueueModel.
From stdpp Require Import base list strings.
From Stdlib Require Import ZArith Lia.

Open Scope Z_scope.

(** ** The date *)

Definition DAYS : list bytes :=
  [bs "Sun"; bs "Mon"; bs "Tue"; bs "Wed"; bs "Thu"; bs "Fri"; bs "Sat"].
Definition MONTHS : list bytes :=
  [bs "Jan"; bs "Feb"; bs "Mar"; bs "Apr"; bs "May"; bs "Jun"; bs "Jul"; bs "Aug"; bs "Sep";
   bs "Oct"; bs "Nov"; bs "Dec"].

Record Rfc822Date : Type := mkDate {
  weekday : Z; day : Z; month : Z; year : Z; hour : Z; minute : Z; second : Z }.

#[global] Instance Rfc822Date_eq_dec : EqDecision Rfc822Date.
Proof. solve_decision. Defined.

(** [Rfc822Date::from_timestamp].  [div_euclid] and [rem_euclid] by a positive
    number are [Z.div] and [Z.modulo]; Rust's [/] truncates ([Z.quot]). *)
Definition from_timestamp (timestamp : Z) : Rfc822Date :=
  let days := timestamp / 86400 in
  let seconds := timestamp mod 86400 in
  let z := days + 719468 in
  let era := Z.quot (if 0 <=? z then z else z - 146096) 146097 in
  let doe := z - era * 146097 in
  let yoe := (doe - doe / 1460 + doe / 36524 - doe / 146096) / 365 in
  let yr := yoe + era * 400 in
  let doy := doe - (365 * yoe + yoe / 4 - yoe / 100) in
  let mp := (5 * doy + 2) / 153 in
  let d := doy - (153 * mp + 2) / 5 + 1 in
  let mo := if mp <? 10 then mp + 3 else mp - 9 in
  mkDate ((days mod 7 + 4) mod 7) d mo (yr + (if mo <=? 2 then 1 else 0))
    (seconds / 3600) ((seconds / 60) mod 60) (seconds mod 60).

(** The [Display] of the date. *)
Definition show_date (d : Rfc822Date) : bytes :=
  nth (Z.to_nat (weekday d)) DAYS [] ++ bs ", " ++ fmt_dec_pad 2 (day d) ++ bs " " ++
  nth (Z.to_nat (month d - 1)) MONTHS [] ++ bs " " ++ fmt_dec_pad 4 (year d) ++ bs " " ++
  fmt_dec_pad 2 (hour d) ++ bs ":" ++ fmt_dec_pad 2 (minute d) ++ bs ":" ++
  fmt_dec_pad 2 (second d) ++ bs " +0000".

(** ** The report *)

Definition MAX_RETURNED_HEADERS : nat := 4096.

(** [boundary_for]. *)
Definition boundary_for (m : QueuedMessage) : bytes :=
  let acc := foldl (λ acc b, as_u64 (as_u64 (acc * 31) + b)) (created m) (blob_hash m) in
  bs "=_irixmail_dsn_" ++ fmt_hex_pad 16 acc.

(** [leading_code] and [status_code]. *)
Definition leading_code (reason : bytes) : option Z :=
  let digits := take_while is_digit reason in
  if (length digits =? 3)%nat then parse_u16 digits else None.

Definition status_code (reason : bytes) : bytes :=
  match leading_code reason with
  | Some c =>
      if (500 <=? c) && (c <? 600) then
        match c with
        | 550 => bs "5.1.1"
        | 551 => bs "5.1.6"
        | 552 => bs "5.2.2"
        | 553 => bs "5.1.3"
        | _ => bs "5.0.0"
        end
      else bs "5.0.0"
  | None => bs "5.0.0"
  end.

(** [one_line]: every run of line breaks becomes one space. *)
Fixpoint one_line_go (reason : bytes) (last_was_space : bool) : bytes :=
  match reason with
  | [] => []
  | b :: r =>
      if (b =? CR) || (b =? LF) then
        if last_was_space then one_line_go r true else 32 :: one_line_go r true
      else b :: one_line_go r false
  end.
Definition one_line (reason : bytes) : bytes := one_line_go reason false.

(** [subject]. *)
Definition subject (failures : list (bytes * bytes)) : bytes :=
  if (length failures =? 1)%nat then bs "Undelivered mail returned to sender"
  else bs "Undelivered mail returned to sender (multiple recipients)".

(** [human_summary]. *)
Definition human_summary (failures : list (bytes * bytes)) : bytes :=
  line "Your message could not be delivered to the following recipients and has been returned:" ++
  CRLF ++ (failures ≫= λ ar, bs "  <" ++ ar.1 ++ bs ">: " ++ ar.2 ++ CRLF).

(** [status_part]. *)
Definition status_part (m : QueuedMessage) (mta : bytes) (failures : list (bytes * bytes)) : bytes :=
  bs "Reporting-MTA: dns;" ++ mta ++ CRLF ++
  bs "Arrival-Date: " ++ show_date (from_timestamp (as_i64 (created m))) ++ CRLF ++ CRLF ++
  (failures ≫= λ ar,
     bs "Final-Recipient: rfc822;" ++ ar.1 ++ CRLF ++ line "Action: failed" ++
     bs "Status: " ++ status_code ar.2 ++ CRLF ++
     bs "Diagnostic-Code: smtp;" ++ one_line ar.2 ++ CRLF ++ CRLF).

(** [returned_headers]: the header block of the original, or what of it the
    first 4096 bytes hold. *)
Definition returned_headers (original : bytes) : bytes :=
  let text := utf8_lossy (take MAX_RETURNED_HEADERS original) in
  match find_sub (CRLF ++ CRLF) text with
  | Some e => take (e + 2) text
  | None => match rfind_byte LF text with
            | Some l => take (l + 1) text
            | None => text
            end
  end.

(** The bounced recipients with their reasons. *)
Definition failures_of (m : QueuedMessage) : list (bytes * bytes) :=
  omap (λ r, match status r with Bounced reason => Some (address r, reason) | _ => None end)
    (recipients m).

(** [build_dsn]. *)
Definition build_dsn (m : QueuedMessage) (mta original_headers : bytes) (now : Z) : option bytes :=
  match return_path m with
  | [] => None
  | _ =>
      let failures := failures_of m in
      match failures with
      | [] => None
      | _ =>
          let boundary := boundary_for m in
          let message_id := bs "<" ++ boundary ++ bs "." ++ fmt_hex now ++ bs "@" ++ mta ++ bs ">" in
          let date := show_date (from_timestamp (as_i64 now)) in
          Some (
            bs "From: Mail Delivery Subsystem <MAILER-DAEMON@" ++ mta ++ line ">" ++
            bs "To: <" ++ return_path m ++ line ">" ++
            bs "Subject: " ++ subject failures ++ CRLF ++
            bs "Date: " ++ date ++ CRLF ++
            bs "Message-ID: " ++ message_id ++ CRLF ++
            line "Auto-Submitted: auto-replied" ++
            line "MIME-Version: 1.0" ++
            line "Content-Type: multipart/report; report-type=delivery-status;" ++
            bs " boundary=" ++ [34] ++ boundary ++ [34] ++ CRLF ++
            CRLF ++
            line "This is a delivery status notification, automatically generated." ++ CRLF ++
            bs "--" ++ boundary ++ CRLF ++
            line "Content-Type: text/plain; charset=utf-8" ++ CRLF ++
            human_summary failures ++ CRLF ++
            bs "--" ++ boundary ++ CRLF ++
            line "Content-Type: message/delivery-status" ++ CRLF ++
            status_part m mta failures ++
            bs "--" ++ boundary ++ CRLF ++
            line "Content-Type: text/rfc822-headers" ++ CRLF ++
            returned_headers original_headers ++ CRLF ++
            bs "--" ++ boundary ++ line "--")
      end
  end.

(** ** The calendar

    The reference: one day after the other, by the Gregorian rules. *)

Definition is_leap (y : Z) : bool :=
  (y mod 4 =? 0) && (negb (y mod 100 =? 0) || (y mod 400 =? 0)).

Definition days_in_month (y m : Z) : Z :=
  match m with
  | 2 => if is_leap y then 29 else 28
  | 4 | 6 | 9 | 11 => 30
  | _ => 31
  end.

Definition next_day (ymd : Z * Z * Z) : Z * Z * Z :=
  let '(y, m, d) := ymd in
  if d <? days_in_month y m then (y, m, d + 1)
  else if m <? 12 then (y, m + 1, 1)
  else (y + 1, 1, 1).

(** The date part of [from_timestamp], from a day number. *)
Definition civil (days : Z) : Z * Z * Z :=
  let t := from_timestamp (days * 86400) in (year t, month t, day t).

(** Shifting by a whole era of 400 years. *)
Definition add_era (e : Z) (ymd : Z * Z * Z) : Z * Z * Z :=
  let '(y, m, d) := ymd in (y + 400 * e, m, d).

(** Days before year [y] of an era; the year of an era a day falls in; month
    and day from the day of a year that starts in March. *)
Definition year_start (y : Z) : Z := 365 * y + y / 4 - y / 100 + y / 400.
Definition year_of_era (doe : Z) : Z :=
  (doe - doe / 1460 + doe / 36524 - doe / 146096) / 365.
Definition month_day (doy : Z) : Z * Z :=
  let mp := (5 * doy + 2) / 153 in
  (if mp <? 10 then mp + 3 else mp - 9, doy - (153 * mp + 2) / 5 + 1).

(** A bounded check, evaluated. *)
Fixpoint check_upto (p : Z → bool) (n : nat) : bool :=
  match n with O => true | S n => if p (Z.of_nat n) then check_upto p n else false end.

Lemma check_upto_spec p n : check_upto p n = true → ∀ k, 0 ≤ k < Z.of_nat n → p k = true.
Proof.
  induction n as [|n IH]; simpl; [lia|]. destruct (p (Z.of_nat n)) eqn:E; [|done]. intros Hc k Hk.
  destruct (decide (k = Z.of_nat n)) as [->|]; [done|]. apply IH; [done|lia].
Qed.

(** The year formula is right at the first and the last day of each year. *)
Lemma year_of_era_ends y :
  0 ≤ y < 400 → year_of_era (year_start y) = y ∧ year_of_era (year_start (y + 1) - 1) = y.
Proof.
  intros Hy. pose proof (check_upto_spec (λ y, (year_of_era (year_start y) =? y) &&
    (year_of_era (year_start (y + 1) - 1) =? y)) 400 ltac:(vm_compute; reflexivity) y Hy) as Hc.
  simpl in Hc. lia.
Qed.

Lemma year_of_era_mono a b : 0 ≤ a ≤ b → b < 146097 → year_of_era a ≤ year_of_era b.
Proof.
  intros Ha Hb. unfold year_of_era. apply Z.div_le_mono; [lia|].
  destruct (decide (b = a)) as [->|]; [lia|].
  assert (a / 146096 = 0) as -> by (apply Z.div_small; lia).
  assert (b / 1460 ≤ a / 1460 + (b - a)) by (clear -Ha n; Z.to_euclidean_division_equations; lia).
  pose proof (Z.div_le_mono a b 36524 ltac:(lia) ltac:(lia)).
  destruct (decide (b = 146096)) as [->|].
  - change (146096 / 1460) with 100. change (146096 / 36524) with 4. change (146096 / 146096) with 1 in *.
    assert (a / 36524 ≤ 3) by (apply Z.lt_succ_r, Z.div_lt_upper_bound; lia). 
    change (146096 / 1460) with 100 in *. lia.
  - assert (b / 146096 = 0) as -> by (apply Z.div_small; lia). lia.
Qed.

Lemma year_bracket n doe :
  0 ≤ doe < year_start (Z.of_nat n) → ∃ y, 0 ≤ y < Z.of_nat n ∧ year_start y ≤ doe < year_start (y + 1).
Proof.
  induction n as [|n IH]; intros Hd.
  { change (year_start (Z.of_nat 0)) with 0 in Hd. lia. }
  destruct (Z.lt_ge_cases doe (year_start (Z.of_nat n))).
  - destruct IH as (y & ? & ?); [lia|]. exists y. split; [lia|done].
  - exists (Z.of_nat n). split; [lia|]. split; [done|]. replace (Z.of_nat n + 1) with (Z.of_nat (S n)) by lia. lia.
Qed.

Lemma year_start_mono a b : a ≤ b → year_start a ≤ year_start b.
Proof. intros. unfold year_start. Z.to_euclidean_division_equations. lia. Qed.

Lemma year_of_era_unique doe y :
  0 ≤ y < 400 → year_start y ≤ doe < year_start (y + 1) → year_of_era doe = y.
Proof.
  intros Hy Hb. destruct (year_of_era_ends y Hy) as [E1 E2].
  assert (0 ≤ year_start y) by (apply (year_start_mono 0); lia).
  assert (year_start (y + 1) ≤ 146097) by (apply (year_start_mono _ 400); lia).
  pose proof (year_of_era_mono (year_start y) doe ltac:(lia) ltac:(lia)).
  pose proof (year_of_era_mono doe (year_start (y + 1) - 1) ltac:(lia) ltac:(lia)). lia.
Qed.

Lemma year_of_era_spec doe :
  0 ≤ doe < 146097 →
  0 ≤ year_of_era doe < 400 ∧
  year_start (year_of_era doe) ≤ doe < year_start (year_of_era doe + 1).
Proof.
  intros Hd. destruct (year_bracket 400 doe) as (y & Hy & Hb); [exact Hd|].
  by rewrite (year_of_era_unique doe y).
Qed.

(** The length of the year that starts in March of [y] is that of the calendar
    year its February is in. *)
Lemma year_length y :
  year_start (y + 1) - year_start y = if is_leap (y + 1) then 366 else 365.
Proof.
  unfold year_start, is_leap.
  destruct (Z.eqb_spec ((y + 1) mod 4) 0), (Z.eqb_spec ((y + 1) mod 100) 0),
    (Z.eqb_spec ((y + 1) mod 400) 0); simpl; Z.to_euclidean_division_equations; lia.
Qed.

(** The month table steps as the calendar does, up to the end of February. *)
Definition month_step_ok (leap : bool) (doy : Z) : bool :=
  let '(m, d) := month_day doy in
  let '(m', d') := month_day (doy + 1) in
  let dim := match m with 2 => if leap then 29 else 28 | 4 | 6 | 9 | 11 => 30 | _ => 31 end in
  if d <? dim then (m' =? m) && (d' =? d + 1)
  else (if m <? 12 then (m' =? m + 1) && negb (m =? 2) else (m' =? 1)) && (d' =? 1).

Lemma month_day_step doy :
  0 ≤ doy < 364 → ∀ y, let '(m, d) := month_day doy in
  next_day (y + (if m <=? 2 then 1 else 0), m, d) =
    let '(m', d') := month_day (doy + 1) in (y + (if m' <=? 2 then 1 else 0), m', d').
Proof.
  intros Hd y.
  assert (∀ leap, month_step_ok leap doy = true) as Hc.
  { intros leap. apply (check_upto_spec _ 364); [|lia]. destruct leap; vm_compute; reflexivity. }
  specialize (Hc (is_leap (y + (if (month_day doy).1 <=? 2 then 1 else 0)))). unfold month_step_ok in Hc.
  destruct (month_day doy) as [m d], (month_day (doy + 1)) as [m' d']. simpl in Hc.
  unfold next_day, days_in_month. destruct (d <? _) eqn:Ed.
  - apply andb_true_iff in Hc as [?%Z.eqb_eq ?%Z.eqb_eq]. by subst.
  - apply andb_true_iff in Hc as [Hm ?%Z.eqb_eq]. subst d'. destruct (Z.ltb_spec m 12).
    + apply andb_true_iff in Hm as [?%Z.eqb_eq Hm2]. subst m'. f_equal. f_equal.
      apply negb_true_iff, Z.eqb_neq in Hm2.
      destruct (Z.leb_spec m 2), (Z.leb_spec (m + 1) 2); lia.
    + apply Z.eqb_eq in Hm as ->. rewrite (proj2 (Z.leb_gt m 2)) by lia. f_equal. f_equal. simpl. lia.
Qed.

(** The date from an era, a year of it and a day of that year. *)
Definition date_of (era y doy : Z) : Z * Z * Z :=
  let '(m, d) := month_day doy in (y + 400 * era + (if m <=? 2 then 1 else 0), m, d).

Lemma from_timestamp_date t :
  let z := t / 86400 + 719468 in let doe := z mod 146097 in let y := year_of_era doe in
  (year (from_timestamp t), month (from_timestamp t), day (from_timestamp t)) =
    date_of (z / 146097) y (doe - year_start y).
Proof.
  intros z doe y. unfold from_timestamp. fold z.
  assert (Z.quot (if 0 <=? z then z else z - 146096) 146097 = z / 146097) as ->.
  { clear. destruct (Z.leb_spec 0 z); Z.to_euclidean_division_equations; lia. }
  assert (z - z / 146097 * 146097 = doe) as -> by (unfold doe; rewrite Z.mod_eq by lia; lia).
  assert (0 ≤ doe < 146097) as Hdoe by (apply Z.mod_pos_bound; lia).
  destruct (year_of_era_spec doe Hdoe) as [Hy _]. cbv zeta. cbn [year month day].
  change ((doe - doe / 1460 + doe / 36524 - doe / 146096) / 365) with (year_of_era doe). fold y. fold y in Hy.
  assert (365 * y + y / 4 - y / 100 = year_start y) as ->.
  { unfold year_start. rewrite (Z.div_small y 400) by lia. lia. }
  unfold date_of, month_day. f_equal. f_equal. lia.
Qed.

Lemma is_leap_era y e : is_leap (y + 400 * e) = is_leap y.
Proof.
  unfold is_leap.
  replace (y + 400 * e) with (y + (100 * e) * 4) at 1 by lia. rewrite Z.mod_add by lia.
  replace (y + 400 * e) with (y + (4 * e) * 100) at 1 by lia. rewrite Z.mod_add by lia.
  replace (y + 400 * e) with (y + e * 400) by lia. by rewrite Z.mod_add by lia.
Qed.

(** The next day, within a year and at its end. *)
Lemma date_of_step era y doy :
  0 ≤ doy < year_start (y + 1) - year_start y →
  next_day (date_of era y doy) =
    if doy + 1 <? year_start (y + 1) - year_start y then date_of era y (doy + 1)
    else date_of era (y + 1) 0.
Proof.
  rewrite year_length. intros Hdoy. unfold date_of.
  destruct (Z.lt_ge_cases doy 364).
  - rewrite (proj2 (Z.ltb_lt _ _)) by (case_match; lia).
    pose proof (month_day_step doy ltac:(lia) (y + 400 * era)) as Hs.
    destruct (month_day doy) as [m d], (month_day (doy + 1)) as [m' d']. exact Hs.
  - assert (doy = 364 ∨ doy = 365 ∧ is_leap (y + 1) = true) as [->|[-> El]] by (case_match; lia).
    + change (month_day 364) with (2, 28). change (month_day (364 + 1)) with (2, 29).
      change (month_day 0) with (3, 1). simpl. unfold next_day, days_in_month.
      replace (y + 400 * era + 1) with (y + 1 + 400 * era) by lia. rewrite is_leap_era.
      destruct (is_leap (y + 1)); simpl; [done|]. by rewrite Z.add_0_r.
    + change (month_day 365) with (2, 29). change (month_day 0) with (3, 1). rewrite El. simpl.
      unfold next_day, days_in_month. replace (y + 400 * era + 1) with (y + 1 + 400 * era) by lia.
      rewrite is_leap_era, El. simpl. by rewrite Z.add_0_r.
Qed.

Lemma date_of_next_era era : date_of era 400 0 = date_of (era + 1) 0 0.
Proof. unfold date_of. change (month_day 0) with (3, 1). simpl. f_equal. f_equal. lia. Qed.

(** The date in a bounce report is the Gregorian date.  [from_timestamp]
    of the epoch is Thursday 1 January 1970, 00:00:00; one day more is the
    next day of the calendar, by the leap-year rule, and the next day of the
    week; and the time of day is the remainder of the timestamp.  This fixes
    the date of every timestamp, before and after the epoch. *)
Theorem rfc822_date_gregorian :
  from_timestamp 0 = mkDate 4 1 1 1970 0 0 0 ∧
  ∀ t, let d := from_timestamp t in let d' := from_timestamp (t + 86400) in
    (year d', month d', day d') = next_day (year d, month d, day d) ∧
    weekday d' = (weekday d + 1) mod 7 ∧
    t mod 86400 = hour d * 3600 + minute d * 60 + second d ∧
    0 ≤ hour d < 24 ∧ 0 ≤ minute d < 60 ∧ 0 ≤ second d < 60.
Proof.
  split; [by vm_compute|]. intros t d d'. split.
  { unfold d, d'. rewrite !from_timestamp_date.
    replace ((t + 86400) / 86400) with (t / 86400 + 1) by (rewrite <-Z.div_add by lia; f_equal; lia).
    set (z := t / 86400 + 719468). replace (t / 86400 + 1 + 719468) with (z + 1) by (unfold z; lia).
    assert (0 ≤ z mod 146097 < 146097) as Hdoe by (apply Z.mod_pos_bound; lia).
    destruct (year_of_era_spec _ Hdoe) as [Hy Hb].
    set (doe := z mod 146097) in *. set (y := year_of_era doe) in *.
    rewrite date_of_step by lia. destruct (Z.ltb_spec (doe - year_start y + 1) (year_start (y + 1) - year_start y)).
    - assert (year_start (y + 1) ≤ 146097) by (apply (year_start_mono _ 400); lia).
      assert ((z + 1) mod 146097 = doe + 1 ∧ (z + 1) / 146097 = z / 146097) as [-> ->].
      { clear -H H0 Hdoe. unfold doe in *. Z.to_euclidean_division_equations; lia. }
      rewrite (year_of_era_unique (doe + 1) y) by lia. f_equal. lia.
    - destruct (decide (y = 399)) as [E|].
      + assert (doe = 146096) as Ed by (rewrite E in *; change (year_start (399 + 1)) with 146097 in *; lia).
        assert ((z + 1) mod 146097 = 0 ∧ (z + 1) / 146097 = z / 146097 + 1) as [-> ->].
        { clear -Ed. unfold doe in *. Z.to_euclidean_division_equations; lia. }
        rewrite E. change (year_of_era 0) with 0. change (0 - year_start 0) with 0.
        symmetry. apply (date_of_next_era (z / 146097)).
      + assert (year_start (y + 1) < year_start 400).
        { pose proof (year_length 399). pose proof (year_start_mono (y + 1) 399 ltac:(lia)).
          change (year_start (399 + 1)) with 146097 in *. change (year_start 400) with 146097.
          change (year_start 399) with 145731 in *. lia. }
        change (year_start 400) with 146097 in *.
        assert ((z + 1) mod 146097 = doe + 1 ∧ (z + 1) / 146097 = z / 146097) as [-> ->].
        { assert (doe + 1 < 146097) as Hlt by lia. clear -Hlt Hdoe. unfold doe in *.
          Z.to_euclidean_division_equations; lia. }
        pose proof (year_length (y + 1)).
        rewrite (year_of_era_unique (doe + 1) (y + 1)) by (try case_match; lia). f_equal. lia. }
  split; [|unfold d; simpl; clear; Z.to_euclidean_division_equations; lia].
  unfold d, d'. simpl. replace ((t + 86400) / 86400) with (t / 86400 + 1)
    by (rewrite <-Z.div_add by lia; f_equal; lia).
  clear. set (x := t / 86400). clearbody x. Z.to_euclidean_division_equations; lia.
Qed.
