(* ===== verification/QueueStore.v ===== *)
(** * The queue in the store (crates/smtp/src/queue_enqueue.rs, queue_manager.rs)

    A queued message is a record in the Queue subspace under its id; its body
    is a blob.  The byte encoding of the record is the archive library's
    (crates/store/src/serialize.rs calls rkyv), a parameter with the round
    trip it documents. *)

From S2P Require Import Prelude Bytes Key Store Blobs QueueModel.
From stdpp Require Import base gmap countable list strings sorting.
From Stdlib Require Import ZArith Lia.

Open Scope Z_scope.

(** [serialize::archive] and [serialize::deserialize] at [QueuedMessage]. *)
Class Codec : Type := {
  archive : QueuedMessage → result bytes;
  deserialize : bytes → result QueuedMessage;
}.

Class CodecLaws `{Codec} : Prop := {
  archive_ok m : is_ok (archive m) = true;
  deserialize_archive m b : archive m = Ok b → deserialize b = Ok m;
}.

Definition QUEUE_ACCOUNT : Z := 0.
Definition QUEUE_ID_DOCUMENT : Z := 0.
#[global] Hint Unfold QUEUE_ACCOUNT QUEUE_ID_DOCUMENT : width.

Record Enqueue : Type := mkEnqueue {
  enq_created : Z;
  enq_return_path : bytes;
  enq_recipients : list (bytes * Expiry);
  enq_first_due : Z;
}.

Record Enqueued : Type := mkEnqueued { enq_id : Z; enq_message : QueuedMessage }.

Definition message_key (id : Z) : bytes :=
  key_encode (key_new Queue QUEUE_ACCOUNT EmailSubmission id).
Definition id_counter_key : bytes :=
  key_encode (key_new Counter QUEUE_ACCOUNT EmailSubmission QUEUE_ID_DOCUMENT).

Section operations.
Context {S B : Type} `{Store S} `{BlobStore B} `{Codec}.

(** [allocate_id]: the counter truncated to [u32]. *)
Definition allocate_id : M S Z :=
  next ← st_add_and_get id_counter_key 1; mret (as_u32 next).

(** The record [enqueue] builds. *)
Definition new_message (hash raw : bytes) (request : Enqueue) : QueuedMessage :=
  mkMessage (enq_created request) hash (Z.of_nat (length raw)) (enq_return_path request)
    ((λ ae, rcpt_new ae.1 (enq_first_due request) ae.2) <$> enq_recipients request).

(** [enqueue]: the body first, then the id, then the record.  [clock] is the
    time stamp the blob store gives the body. *)
Definition enqueue (raw : bytes) (request : Enqueue) (clock : Z) : M (S * B) Enqueued :=
  hash ← on_blobs (blob_put raw clock);
  id ← on_store allocate_id;
  let message := new_message hash raw request in
  bytes ← lift (archive message);
  _ ← on_store (st_put (message_key id) bytes);
  mret (mkEnqueued id message).

(** [load], [persist], [remove]. *)
Definition load (id : Z) (s : S) : result (option QueuedMessage) :=
  v ← st_get (message_key id) s;
  match v with
  | Some b => m ← deserialize b; Ok (Some m)
  | None => Ok None
  end.

Definition persist (id : Z) (m : QueuedMessage) : M S unit :=
  b ← lift (archive m); st_put (message_key id) b.

Definition remove (id : Z) : M S unit := st_delete (message_key id).

(** [retry_now]: every pending recipient becomes due. *)
Definition due_at (now : Z) (r : QueueRecipient) : QueueRecipient :=
  if is_pending (status r)
  then mkRcpt (address r) (status r) (mkRetry (attempts (retry r)) now) (notify r) (expiry r)
  else r.

Definition with_recipients (m : QueuedMessage) (rs : list QueueRecipient) : QueuedMessage :=
  mkMessage (created m) (blob_hash m) (msg_size m) (return_path m) rs.

Definition retry_now (id now : Z) : M S bool :=
  o ← reads (load id);
  match o with
  | None => mret false
  | Some m => _ ← persist id (with_recipients m (due_at now <$> recipients m)); mret true
  end.

(** ** The manager's scan *)

Definition QUEUE_ID_OFFSET : nat := 6.
Definition QUEUE_ID_LEN : nat := 4.

(** [queue_id_of]. *)
Definition queue_id_of (key : bytes) : result Z :=
  if (length key <? QUEUE_ID_OFFSET + QUEUE_ID_LEN)%nat
  then Err (StoreError "queue key is too short to carry a queue id")
  else Ok (of_be_bytes (take QUEUE_ID_LEN (drop QUEUE_ID_OFFSET key))).

Record DueBatch : Type := mkBatch {
  batch_messages : list (Z * QueuedMessage);
  batch_next_due : option Z;
}.

(** [scan_due]. *)
Definition due_visit (now : Z) (acc : DueBatch) (key value : bytes) : result (DueBatch * Flow) :=
  message ← deserialize value;
  if is_complete message then Ok (acc, Continue)
  else if has_due_recipient message now then
    id ← queue_id_of key;
    Ok (mkBatch (batch_messages acc ++ [(id, message)]) (batch_next_due acc), Continue)
  else match next_due message with
       | Some d =>
           Ok (mkBatch (batch_messages acc)
                 (Some match batch_next_due acc with Some e => Z.min e d | None => d end), Continue)
       | None => Ok (acc, Continue)
       end.

Definition scan_due (now : Z) (s : S) : result DueBatch :=
  st_iterate (kp_subspace Queue) (due_visit now) (mkBatch [] None) s.

(** [scan_all]. *)
Definition all_visit (acc : list (Z * QueuedMessage)) (key value : bytes)
  : result (list (Z * QueuedMessage) * Flow) :=
  message ← deserialize value;
  if negb (is_complete message) then
    id ← queue_id_of key; Ok (acc ++ [(id, message)], Continue)
  else Ok (acc, Continue).

Definition scan_all (s : S) : result (list (Z * QueuedMessage)) :=
  st_iterate (kp_subspace Queue) all_visit [] s.

(** [next_wake], as the number of seconds to sleep. *)
Definition REFRESH_INTERVAL : Z := 300.
Definition next_wake (now : Z) (next_due : option Z) : Z :=
  match next_due with
  | Some d => Z.min (saturating_sub d now) REFRESH_INTERVAL
  | None => REFRESH_INTERVAL
  end.

(** One turn of [run], up to the delivery: a failed scan is an empty batch. *)
Definition run_scan (now : Z) (s : S) : DueBatch * Z :=
  let batch := match scan_due now s with Ok b => b | Err _ => mkBatch [] None end in
  (batch, next_wake now (batch_next_due batch)).
End operations.

(** ** Lemmas *)

Lemma message_key_known id : known (message_key id).
Proof. apply known_key_encode. Qed.
Lemma id_counter_mergeable : mergeable id_counter_key.
Proof. apply mergeable_key_encode. by left. Qed.
#[global] Hint Resolve message_key_known id_counter_mergeable : keys.

Lemma message_key_inj i j : is_u32 i → is_u32 j → message_key i = message_key j → i = j.
Proof. intros ? ? E. apply key_encode_injective in E; [by injection E|split; width..]. Qed.

Lemma message_key_lt i j : is_u32 i → is_u32 j → bytes_lt (message_key i) (message_key j) → i < j.
Proof.
  intros Hi Hj. unfold bytes_lt, message_key. rewrite key_encode_cmp by (split; width).
  unfold key_cmp. simpl. unfold then_cmp. destruct (i ?= j) eqn:E; [|done|done].
  done.
Qed.

Lemma counter_not_message id : id_counter_key ≠ message_key id.
Proof. intros E. apply (f_equal (λ l, nth 0 l 0)) in E. discriminate E. Qed.

Lemma queue_id_of_message_key id : is_u32 id → queue_id_of (message_key id) = Ok id.
Proof.
  intros Hid. unfold queue_id_of, message_key. rewrite length_key_encode. simpl.
  unfold key_encode. cbn [app key_new key_account_id key_subspace key_collection key_document_id key_suffix].
  rewrite app_nil_r. unfold QUEUE_ID_OFFSET, QUEUE_ID_LEN. cbn [drop].
  rewrite drop_app_ge, length_u32_be by (rewrite length_u32_be; lia). cbn [Nat.sub drop].
  rewrite drop_0, take_ge by (rewrite length_u32_be; lia). by rewrite of_be_bytes_u32.
Qed.

Section spec.
Context {S B : Type} {store : Store S} {contract : StoreSpec S}.
Context {blobs : BlobStore B} {bcontract : BlobSpec B} {codec : Codec} {laws : CodecLaws}.
Implicit Types (s : S) (b : B).

(** The queue a store holds. *)
Definition queued (m : contents) (id : Z) : option QueuedMessage :=
  v ← m !! message_key id; match deserialize v with Ok msg => Some msg | Err _ => None end.

(** Every record of the subspace is a message under an id. *)
Definition queue_wf (m : contents) : Prop :=
  ∀ k v, m !! k = Some v → subspace_of k = Some Queue →
    ∃ id msg, is_u32 id ∧ k = message_key id ∧ deserialize v = Ok msg.

Lemma archive_total m : ∃ v, archive m = Ok v ∧ deserialize v = Ok m.
Proof.
  pose proof (archive_ok m) as Hok. destruct (archive m) as [v|] eqn:E; [|done].
  exists v. split; [done|]. by apply deserialize_archive.
Qed.

Lemma load_spec s id :
  healthy s → queue_wf (view s) → load id s = Ok (queued (view s) id).
Proof.
  intros Hs Hwf. unfold load, queued. rewrite get_spec by auto with keys. simpl.
  destruct (view s !! message_key id) as [v|] eqn:E; [|done]. simpl.
  destruct (Hwf _ _ E) as (id' & msg & _ & _ & ->); [apply subspace_of_key_encode|done].
Qed.

Lemma queued_insert m id id' v msg :
  is_u32 id → is_u32 id' → deserialize v = Ok msg →
  queued (<[message_key id := v]> m) id' = if decide (id' = id) then Some msg else queued m id'.
Proof.
  intros Hid Hid' Hv. unfold queued. case_decide as E.
  - subst. rewrite lookup_insert_eq. simpl. by rewrite Hv.
  - rewrite lookup_insert_ne; [done|]. intros Ek. by apply message_key_inj in Ek.
Qed.

Lemma queue_wf_insert m id v msg :
  is_u32 id → deserialize v = Ok msg → queue_wf m → queue_wf (<[message_key id := v]> m).
Proof.
  intros Hid Hv Hwf k v' [[<- <-]|[_ Hk]]%lookup_insert_Some Hsub; [by exists id, msg|by apply Hwf].
Qed.

(** [persist] replaces one message and nothing else. *)
Lemma persist_spec s id msg :
  healthy s → is_u32 id →
  ∃ s' v, persist id msg s = (Ok tt, s') ∧ healthy s' ∧ deserialize v = Ok msg ∧
    view s' = <[message_key id := v]> (view s).
Proof.
  intros Hs Hid. destruct (archive_total msg) as (v & Ea & Ed).
  destruct (put_spec (message_key id) v s) as (s' & E & Hs' & Hv); [done|auto with keys|].
  exists s', v. unfold persist, mbind, M_bind, lift. rewrite Ea. by split_and!.
Qed.

(** What [enqueue] writes. *)
Lemma enqueue_spec raw request clock s b n :
  healthy s → bhealthy b →
  counter_value (view s !! id_counter_key) = Some n → 0 ≤ n < U32_MAX →
  ∃ s' b' v, let msg := new_message (digest raw) raw request in
    enqueue raw request clock (s, b) = (Ok (mkEnqueued (n + 1) msg), (s', b')) ∧
    healthy s' ∧ bhealthy b' ∧ deserialize v = Ok msg ∧
    view s' = <[message_key (n + 1) := v]> (<[id_counter_key := i64_le (n + 1)]> (view s)) ∧
    bview b' = <[digest raw := (raw, clock)]> (bview b).
Proof.
  intros Hs Hb Hc Hn.
  destruct (blob_put_spec raw clock b) as (b' & Eb & Hb' & Hbv); [done|].
  destruct (add_and_get_spec id_counter_key 1 s n) as (s1 & E1 & Hs1 & Hv1); [done|auto with keys|done|].
  rewrite wrapping_add_i64_id in E1, Hv1 by width.
  set (msg := new_message (digest raw) raw request).
  destruct (archive_total msg) as (v & Ea & Ed).
  destruct (put_spec (message_key (n + 1)) v s1) as (s' & E2 & Hs' & Hv'); [done|auto with keys|].
  exists s', b', v. split_and!; [|done|done|done|by rewrite Hv', Hv1|done].
  unfold enqueue, allocate_id, on_blobs, on_store, lift, mbind, M_bind. simpl fst. simpl snd.
  rewrite Eb. simpl fst. simpl snd. rewrite E1. unfold mret at 1, M_ret at 1.
  rewrite as_u32_id by width. fold msg. rewrite Ea. cbn [fst snd]. rewrite E2. done.
Qed.

Lemma queue_wf_counter m v : queue_wf m → queue_wf (<[id_counter_key := v]> m).
Proof. intros Hwf k v' [[<- _]|[_ Hk]]%lookup_insert_Some Hsub; [done|by apply Hwf]. Qed.

Lemma queued_counter m v id : queued (<[id_counter_key := v]> m) id = queued m id.
Proof. unfold queued. by rewrite lookup_insert_ne by apply counter_not_message. Qed.


(** *** The scan *)

(** The queue as the list of its messages in id order. *)
Lemma queue_rows m :
  queue_wf m → ∃ l : list (Z * bytes * QueuedMessage),
    rows_from m (prefix_encode (kp_subspace Queue)) (prefix_encode (kp_subspace Queue)) =
      (λ x, (message_key x.1.1, x.1.2)) <$> l ∧
    Forall (λ x, is_u32 x.1.1 ∧ deserialize x.1.2 = Ok x.2) l ∧
    StronglySorted (λ x y, x.1.1 < y.1.1) l ∧
    ∀ id msg, is_u32 id → (∃ v, (id, v, msg) ∈ l) ↔ queued m id = Some msg.
Proof.
  intros Hwf. set (rs := rows_from m _ _).
  assert (∀ k v, (k, v) ∈ rs ↔ m !! k = Some v ∧ subspace_of k = Some Queue) as Hrs.
  { intros k v. unfold rs. rewrite elem_of_rows_from. split.
    - intros (Hk & [l ->] & _). done.
    - intros [Hk Hsub]. destruct (Hwf k v Hk Hsub) as (id & msg & _ & -> & _).
      assert (prefix_encode (kp_subspace Queue) `prefix_of` message_key id) as Hp by (by eexists).
      split_and!; [done|done|]. by apply prefix_bytes_le. }
  assert (∃ l : list (Z * bytes * QueuedMessage), rs = (λ x, (message_key x.1.1, x.1.2)) <$> l ∧
    Forall (λ x, is_u32 x.1.1 ∧ deserialize x.1.2 = Ok x.2) l) as (l & El & Hl).
  { assert (∀ k v, (k, v) ∈ rs → ∃ id msg, is_u32 id ∧ k = message_key id ∧ deserialize v = Ok msg) as Hrow
      by (intros k v [? ?]%Hrs; by eapply Hwf).
    clear -Hrow. induction rs as [|[k v] rs IH]; [by exists []|].
    destruct IH as (l & -> & Hl); [intros; eapply Hrow; by right|].
    destruct (Hrow k v) as (id & msg & ? & -> & ?); [by left|].
    exists ((id, v, msg) :: l). split; [done|]. by constructor. }
  exists l. split_and!; [done|done| |].
  - assert (StronglySorted row_lt rs) as Hs by apply rows_from_sorted. rewrite El in Hs. clear El Hrs.
    induction Hl as [|x l [Hx _] Hl IH]; [constructor|]. rewrite fmap_cons in Hs.
    apply StronglySorted_inv in Hs as [Hs Hlt]. constructor; [by apply IH|].
    apply Forall_forall. intros y Hy. rewrite Forall_forall in Hl. rewrite Forall_forall in Hlt.
    apply message_key_lt; [done|by apply (Hl y)|].
    by apply (Hlt (message_key y.1.1, y.1.2)), (list_elem_of_fmap_2 (λ x, (message_key x.1.1, x.1.2))).
  - rewrite Forall_forall in Hl. intros id msg Hid. unfold queued. split.
    + intros [v Hin]. destruct (Hl _ Hin) as [_ Hd]. simpl in Hd.
      assert ((message_key id, v) ∈ rs) as [Hk _]%Hrs.
      { rewrite El. by apply (list_elem_of_fmap_2 (λ x, (message_key x.1.1, x.1.2)) l (id, v, msg)). }
      rewrite Hk. simpl. by rewrite Hd.
    + destruct (m !! message_key id) as [v|] eqn:Hk; [|done]. simpl.
      destruct (deserialize v) as [msg'|] eqn:Hd; [|done]. intros [= ->]. exists v.
      assert ((message_key id, v) ∈ rs) as Hr by (apply Hrs; split; [done|apply subspace_of_key_encode]).
      rewrite El in Hr. apply list_elem_of_fmap in Hr as ([[id' v'] msg'] & E & Hin). simpl in E.
      pose proof (f_equal fst E) as E1. pose proof (f_equal snd E) as E2. simpl in E1, E2. subst v'.
      destruct (Hl _ Hin) as [Hid' Hd']. simpl in *. apply message_key_inj in E1 as <-; [|done..].
      congruence.
Qed.

(** What the scan collects from a list of messages. *)
Definition ready (now : Z) (x : Z * QueuedMessage) : Prop := has_due_recipient x.2 now = true.
#[global] Instance ready_dec now x : Decision (ready now x).
Proof. unfold ready. apply _. Defined.

Definition min_due (o : option Z) (d : Z) : option Z :=
  Some match o with Some e => Z.min e d | None => d end.

Definition waiting (now : Z) (l : list (Z * QueuedMessage)) : list Z :=
  omap (λ x, if is_complete x.2 || has_due_recipient x.2 now then None else next_due x.2) l.

Lemma has_due_incomplete m now : has_due_recipient m now = true → is_complete m = false.
Proof.
  unfold has_due_recipient, is_complete. intros (r & Hr & Hd)%existsb_exists.
  apply not_true_iff_false. rewrite forallb_forall. intros Hall. specialize (Hall r Hr).
  unfold rcpt_is_due, is_settled in *. by destruct (is_pending (status r)).
Qed.

Lemma scan_due_rows now l acc :
  Forall (λ x : Z * bytes * QueuedMessage, is_u32 x.1.1 ∧ deserialize x.1.2 = Ok x.2) l →
  scan (due_visit now) ((λ x, (message_key x.1.1, x.1.2)) <$> l) acc =
    Ok (mkBatch (batch_messages acc ++ filter (ready now) ((λ x, (x.1.1, x.2)) <$> l))
          (foldl min_due (batch_next_due acc) (waiting now ((λ x, (x.1.1, x.2)) <$> l)))).
Proof.
  intros Hl. revert acc. induction Hl as [|[[id v] msg] l [Hid Hd] _ IH]; intros acc.
  { simpl. rewrite app_nil_r. by destruct acc. }
  rewrite !fmap_cons. cbn [scan]. unfold due_visit at 1. simpl fst. simpl snd. simpl in Hid, Hd.
  rewrite Hd. simpl. destruct (decide (ready now (id, msg))) as [Edue|Edue];
    [rewrite filter_cons_True by done|rewrite filter_cons_False by done]; unfold ready in Edue; simpl in Edue.
  - rewrite (has_due_incomplete msg now), Edue by done. rewrite queue_id_of_message_key by done. simpl.
    rewrite IH. simpl. by rewrite <-app_assoc.
  - apply not_true_is_false in Edue. rewrite Edue. destruct (is_complete msg); simpl; [by rewrite IH|].
    destruct (next_due msg); by rewrite IH.
Qed.

(** The minimum of what is waiting bounds every one of them. *)
Lemma foldl_min_due l o e :
  foldl min_due o l = Some e →
  (∀ d, d ∈ l → e ≤ d) ∧ (∀ e', o = Some e' → e ≤ e') ∧ (o = Some e ∨ e ∈ l).
Proof.
  revert o. induction l as [|d l IH]; intros o; simpl.
  { intros ->. split_and!; [by intros ? ?%not_elem_of_nil|naive_solver lia|by left]. }
  intros (Hl & Ho & Hor)%IH. unfold min_due in *. split_and!.
  - intros d' [->|?]%elem_of_cons; [|auto]. specialize (Ho _ eq_refl). destruct o; lia.
  - intros e' ->. specialize (Ho _ eq_refl). lia.
  - rewrite elem_of_cons. destruct Hor as [[= <-]|?]; [|tauto]. destruct o as [e'|]; [|tauto].
    destruct (Z.min_spec e' d) as [[_ ->]|[_ ->]]; tauto.
Qed.

Lemma foldl_min_due_None l o : foldl min_due o l = None → l = [] ∧ o = None.
Proof.
  revert o. induction l as [|d l IH]; intros o; simpl; [done|]. by intros [_ ?]%IH.
Qed.

Lemma foldl_min_le x l : foldl Z.min x l ≤ x ∧ ∀ y, y ∈ l → foldl Z.min x l ≤ y.
Proof.
  revert x. induction l as [|z l IH]; intros x; simpl.
  { split; [lia|]. by intros y ?%not_elem_of_nil. }
  destruct (IH (Z.min x z)) as [H1 H2]. split; [lia|]. intros y [->|?]%elem_of_cons; [lia|auto].
Qed.

(** [next_due] is a lower bound of what is pending. *)
Lemma next_due_lower m r :
  r ∈ recipients m → is_pending (status r) = true → ∃ d, next_due m = Some d ∧ d ≤ due (retry r).
Proof.
  intros Hr Hp. unfold next_due.
  assert (due (retry r) ∈ (λ r, due (retry r)) <$> filter (λ r, is_pending (status r) = true) (recipients m))
    as Hin.
  { apply (list_elem_of_fmap_2 (λ r, due (retry r))). by apply list_elem_of_filter. }
  destruct ((λ r, due (retry r)) <$> _) as [|x l]; [by apply not_elem_of_nil in Hin|]. simpl.
  eexists. split; [done|]. destruct (foldl_min_le x l) as [H1 H2].
  apply elem_of_cons in Hin as [->|?]; [lia|auto].
Qed.

(** The queue manager misses nothing and does not oversleep.  On a
    healthy store the scan returns exactly the messages that have a pending
    recipient due now, each once, in id order; and for every pending recipient
    of every other message the time slept is at most five minutes and ends no
    later than the recipient's due time. *)
Theorem scan_due_exact now s :
  healthy s → queue_wf (view s) →
  let '(batch, delay) := run_scan now s in
  StronglySorted Z.lt (batch_messages batch).*1 ∧
  (∀ id msg, is_u32 id → (id, msg) ∈ batch_messages batch ↔
     load id s = Ok (Some msg) ∧ has_due_recipient msg now = true) ∧
  0 ≤ delay ≤ 300 ∧
  (∀ id msg r, is_u32 id → load id s = Ok (Some msg) → has_due_recipient msg now = false →
     r ∈ recipients msg → is_pending (status r) = true → now + delay ≤ Z.max now (due (retry r))).
Proof.
  intros Hs Hwf. unfold run_scan, scan_due. rewrite iterate_spec by done.
  destruct (queue_rows (view s) Hwf) as (l & -> & Hl & Hsort & Hin).
  rewrite scan_due_rows by done. simpl batch_messages. simpl batch_next_due.
  set (ms := (λ x, (x.1.1, x.2)) <$> l). set (nd := foldl min_due None (waiting now ms)).
  assert (∀ id msg, is_u32 id → (id, msg) ∈ ms ↔ load id s = Ok (Some msg)) as Hms.
  { intros id msg Hid. rewrite load_spec by done. unfold ms. rewrite list_elem_of_fmap. split.
    - intros ([[id' v] msg'] & [= -> ->] & Hx). f_equal. apply Hin; eauto.
    - intros [= Hq]. apply Hin in Hq as [v Hx]; [|done]. by exists (id, v, msg). }
  assert (0 ≤ next_wake now nd ≤ 300) as Hdelay.
  { unfold next_wake, REFRESH_INTERVAL, saturating_sub. destruct nd; lia. }
  split_and!; [| |lia|lia|].
  - assert (StronglySorted Z.lt ms.*1) as Hsm.
    { unfold ms. rewrite <-list_fmap_compose. clear -Hsort. induction Hsort as [|x l Hs IH Hx]; [constructor|].
      rewrite fmap_cons. constructor; [done|]. by apply Forall_fmap. }
    clear -Hsm. induction ms as [|x ms IH]; [constructor|]. rewrite fmap_cons in Hsm.
    apply StronglySorted_inv in Hsm as [Hsm Hx]. rewrite filter_cons. case_decide; [|by apply IH].
    rewrite fmap_cons. constructor; [by apply IH|]. rewrite Forall_forall in *.
    intros i (y & -> & [_ ?]%list_elem_of_filter)%list_elem_of_fmap. apply Hx. by apply list_elem_of_fmap_2.
  - intros id msg Hid. rewrite list_elem_of_filter, Hms by done. unfold ready. simpl. tauto.
  - intros id msg r Hid Hld Hnd Hr Hp. apply Hms in Hld; [|done].
    destruct (next_due_lower msg r Hr Hp) as (d & Hd & Hle).
    assert (d ∈ waiting now ms) as Hw.
    { apply list_elem_of_omap. exists (id, msg). split; [done|]. simpl. rewrite Hnd.
      assert (is_complete msg = false) as ->; [|done]. apply not_true_iff_false.
      unfold is_complete. rewrite forallb_forall. intros Hall.
      specialize (Hall r (proj1 (list_elem_of_In _ _) Hr)). unfold is_settled in Hall. by rewrite Hp in Hall. }
    unfold next_wake, saturating_sub, nd. destruct (foldl min_due None (waiting now ms)) as [e|] eqn:Ef.
    + apply foldl_min_due in Ef as (He & _ & _). specialize (He d Hw). lia.
    + apply foldl_min_due_None in Ef as [Ef _]. rewrite Ef in Hw. by apply not_elem_of_nil in Hw.
Qed.
End spec.

(** ** A codec in memory

    An injective encoding of messages, so that the laws above can be met. *)

Module MemCodec.
Definition status_repr (s : RecipientStatus) : unit + unit + (bytes + bytes) :=
  match s with
  | Scheduled => inl (inl tt) | Delivered => inl (inr tt)
  | Deferred r => inr (inl r) | Bounced r => inr (inr r)
  end.
Definition status_of (x : unit + unit + (bytes + bytes)) : RecipientStatus :=
  match x with
  | inl (inl _) => Scheduled | inl (inr _) => Delivered
  | inr (inl r) => Deferred r | inr (inr r) => Bounced r
  end.
Definition expiry_repr (e : Expiry) : Z + Z := match e with At d => inl d | Attempts l => inr l end.
Definition expiry_of (x : Z + Z) : Expiry := match x with inl d => At d | inr l => Attempts l end.

Abbreviation rcpt_tuple :=
  (bytes * (unit + unit + (bytes + bytes)) * (Z * Z) * (Z * Z) * (Z + Z))%type.
Definition rcpt_repr (r : QueueRecipient) : rcpt_tuple :=
  (address r, status_repr (status r), (attempts (retry r), due (retry r)),
   (notify_sent (notify r), notify_due (notify r)), expiry_repr (expiry r)).
Definition rcpt_of (x : rcpt_tuple) : QueueRecipient :=
  let '(a, s, (n, d), (ns, nd), e) := x in
  mkRcpt a (status_of s) (mkRetry n d) (mkNotify ns nd) (expiry_of e).

Abbreviation message_tuple := (Z * bytes * Z * bytes * list rcpt_tuple)%type.
Definition message_repr (m : QueuedMessage) : message_tuple :=
  (created m, blob_hash m, msg_size m, return_path m, rcpt_repr <$> recipients m).
Definition message_of (x : message_tuple) : QueuedMessage :=
  let '(c, h, z, p, rs) := x in mkMessage c h z p (rcpt_of <$> rs).

Lemma rcpt_of_repr r : rcpt_of (rcpt_repr r) = r.
Proof. by destruct r as [a [] [] [] []]. Qed.

Lemma message_of_repr m : message_of (message_repr m) = m.
Proof.
  destruct m as [c h z p rs]. unfold message_of, message_repr. simpl. f_equal.
  rewrite <-list_fmap_compose. induction rs as [|r rs IH]; [done|].
  rewrite fmap_cons, IH. f_equal. apply rcpt_of_repr.
Qed.

#[global] Instance mem_codec : Codec := {|
  archive m := Ok [Z.pos (encode (message_repr m))];
  deserialize v :=
    match v with
    | [Z.pos p] => ok_or (message_of <$> decode p) (Serialize "could not access archived value")
    | _ => Err (Serialize "could not access archived value")
    end;
|}.

#[global] Instance mem_codec_laws : CodecLaws.
Proof.
  split; [done|]. intros m b [= <-]. cbn [deserialize mem_codec].
  rewrite decode_encode. change (Ok (message_of (message_repr m)) = Ok m). by rewrite message_of_repr.
Qed.
End MemCodec.

Module QueueDemo.
Import MemCodec.
Definition request : Enqueue := mkEnqueue 1000 (bs "a@x") [(bs "b@y", Attempts 3)] 1000.
Definition w0 : MemStore * MemBlobs := (mkMem ∅, mkBlobs ∅).
Definition w1 : MemStore * MemBlobs := (enqueue (bs "hi") request 1000 w0).2.

Lemma queue_wf_empty : queue_wf (view (mkMem ∅)).
Proof.
  intros k v Hk. change ((∅ : contents) !! k = Some v) in Hk. by rewrite lookup_empty in Hk.
Qed.

Lemma queue_wf_w1 : queue_wf (view w1.1).
Proof.
  assert (view w1.1 = <[message_key 1 := [Z.pos (encode (message_repr (new_message (mem_digest (bs "hi")) (bs "hi") request)))]]>
    {[ id_counter_key := i64_le 1 ]}) as -> by (by vm_compute).
  eapply queue_wf_insert; [width|by apply deserialize_archive|].
  intros k v [<- _]%lookup_singleton_Some. done.
Qed.
End QueueDemo.


Lemma scan_due_exact_witness :
  let '(batch, delay) := run_scan 999 QueueDemo.w1.1 in
  (∀ id msg, is_u32 id → (id, msg) ∈ batch_messages batch ↔
     load id QueueDemo.w1.1 = Ok (Some msg) ∧ has_due_recipient msg 999 = true) ∧ delay = 1.
Proof.
  pose proof (scan_due_exact 999 QueueDemo.w1.1) as H.
  destruct (run_scan 999 QueueDemo.w1.1) as [batch delay] eqn:E.
  destruct H as (_ & H & _); [exact I|exact QueueDemo.queue_wf_w1|].
  split; [exact H|]. apply (f_equal snd) in E. change (delay = 1) with ((batch, delay).2 = 1). rewrite <-E. vm_compute. reflexivity.
Defined.
