(* ===== verification/QueueDeliver.v ===== *)
(** * The delivery pass (crates/smtp/src/queue_deliver.rs, queue_local.rs,
    mx_resolve.rs, deliver_out.rs)

    What happens to one due message: the outbound rate limit, the body, the
    route of each recipient (local account, one alias hop, relay or MX), the
    attempt, the bounce report and the write-back.  The network, DNS and the
    local mail side are interfaces. *)

From S2P Require Import Prelude Bytes Key Store Text Ttl Blobs QueueModel Dsn QueueStore.
From stdpp Require Import base gmap list strings.
From Stdlib Require Import ZArith Lia.

Open Scope Z_scope.

(** ** Routing *)

Inductive LocalRoute : Type :=
  | RDeliver (account_id : Z) | RRedirect (destination : bytes) | RUnknown | RRemote.

(** [irixmail_mail::Resolution], as far as routing reads it. *)
Inductive Resolution : Type :=
  | ResLocal (account_id : Z) | ResForward (destination : bytes) | ResRejected | ResUnknown.

(** [route_of]. *)
Definition route_of (r : Resolution) : LocalRoute :=
  match r with
  | ResLocal a => RDeliver a
  | ResForward d => RRedirect d
  | ResRejected | ResUnknown => RUnknown
  end.

(** [hosted_domains]: names and aliases, folded; a directory that cannot be
    read hosts nothing. *)
Definition hosted_domains (domains : result (list (bytes * list bytes))) : list bytes :=
  match domains with
  | Err _ => []
  | Ok ds => ds ≫= λ d, to_ascii_lowercase d.1 :: (to_ascii_lowercase <$> d.2)
  end.

(** [is_hosted]. *)
Definition is_hosted (hosted : list bytes) (addr : bytes) : bool :=
  match rsplit_once 64 addr with
  | Some (_, []) | None => false
  | Some (_, domain) => bool_decide (to_ascii_lowercase domain ∈ hosted)
  end.

(** [domain_of]. *)
Definition domain_of (addr : bytes) : bytes :=
  match rsplit_once 64 addr with Some (_, d) => d | None => [] end.

(** ** MX resolution (mx_resolve.rs) *)

Record MailExchange : Type := mkExchange { preference : Z; exchange_host : bytes }.

Inductive MxResolution : Type :=
  | Targets (hosts : list bytes) | NoMailAccepted | Unresolvable.

(** [is_null_mx]. *)
Definition is_null_mx (l : list MailExchange) : bool :=
  match l with
  | [e] => (preference e =? 0) &&
           (bool_decide (exchange_host e = []) || bool_decide (exchange_host e = bs "."))
  | _ => false
  end.

(** What DNS, the peers and the clock of one pass answer. *)
Record Network : Type := mkNetwork {
  mx_hosts : bytes → result (list MailExchange);
  host_ips : bytes → result (list IpAddr);
  host_answer : bytes → bytes → bytes → bytes → DeliveryAttempt;
  relay_answer : option (bytes → bytes → bytes → DeliveryAttempt);
  clk : nat → Outbound.reading;
  wall : Z;
}.

Section resolve.
Context (net : Network).

(** The hosts that have an address, in order. *)
Fixpoint reachable_hosts (hosts : list bytes) : result (list bytes) :=
  match hosts with
  | [] => Ok []
  | h :: hosts =>
      ips ← host_ips net h;
      rest ← reachable_hosts hosts;
      Ok (match ips with [] => rest | _ => h :: rest end)
  end.

(** [resolve]: without exchanges the domain itself is tried. *)
Definition resolve (domain : bytes) : result MxResolution :=
  exchanges ← mx_hosts net domain;
  if is_null_mx exchanges then Ok NoMailAccepted
  else
    targets ← reachable_hosts (match exchanges with [] => [domain] | _ => exchange_host <$> exchanges end);
    Ok (match targets with [] => Unresolvable | _ => Targets targets end).

(** The remote half of the attempt: the relay if there is one, else the MX. *)
Definition remote_attempt (return_path target raw : bytes) : DeliveryAttempt :=
  match relay_answer net with
  | Some relay => relay return_path target raw
  | None =>
      match resolve (domain_of target) with
      | Ok (Targets hosts) => deliver ((λ h, host_answer net h return_path target raw) <$> hosts)
      | Ok NoMailAccepted => AttemptBounced (bs "the destination domain does not accept mail")
      | Ok Unresolvable => AttemptDeferred (bs "no reachable mail exchange")
      | Err e => AttemptDeferred (bs "MX resolution failed: " ++ show_error e)
      end
  end.
End resolve.

(** ** The pass *)

(** The local side: the directory's domains, address resolution and filing.
    Filing may write to both stores. *)
Record LocalSide (W : Type) : Type := mkLocal {
  local_domains : W → result (list (bytes * list bytes));
  local_resolve : bytes → W → result Resolution;
  file_locally : Z → bytes → bytes → bytes → Z → M W DeliveryAttempt;
}.
Arguments local_domains {W} _.
Arguments local_resolve {W} _.
Arguments file_locally {W} _.

(** The daily counter of deliveries ([record_outbound]). *)
Definition day_number (t : Z) : Z := as_u32 (t / 86400).
Definition daily_outbound_key (d : Z) : bytes :=
  key_encode (with_suffix (key_new Counter 0 Email d) [111]).

Definition settings_key : bytes := [subspace_as_byte Registry; 1].

Definition REPORTING_MTA : bytes := bs "irixmail".
Definition DEFAULT_MAX_AGE : Z := 5 * 86400.
Definition BODY_GONE : bytes := bs "the message body is no longer available".
Definition RATE_LIMITED : bytes := bs "outbound rate limited".

Section pass.
Context {S B : Type} `{Store S} `{BlobStore B} `{Codec}.
Context (net : Network) (local : option (LocalSide (S * B))) (hostname : option bytes).
(** The two limits in the settings record, if it is JSON and has them. *)
Context (settings_limits : bytes → option (option Z * option Z)).

(** [OutboundLimits::from_settings]. *)
Definition limits_from_settings (s : S) : Outbound.OutboundLimits :=
  let defaults := Outbound.default_limits in
  match st_get settings_key s with
  | Ok (Some v) =>
      match settings_limits v with
      | Some (snd, dom) =>
          Outbound.mkOutboundLimits
            (match snd with Some m => as_u32 m | None => Outbound.max_per_sender defaults end)
            (match dom with Some m => as_u32 m | None => Outbound.max_per_domain defaults end)
            (Outbound.window defaults)
      | None => defaults
      end
  | _ => defaults
  end.

Definition record_outbound (now : Z) : M S Z :=
  st_add_and_get (daily_outbound_key (day_number now)) 1.

(** [deliver_local]: a failure to file is a deferral. *)
Definition deliver_local (l : LocalSide (S * B)) (account_id : Z) (mail_from rcpt raw : bytes) (now : Z)
    (w : S * B) : DeliveryAttempt * (S * B) :=
  match file_locally l account_id mail_from rcpt raw now w with
  | (Ok a, w') => (a, w')
  | (Err e, w') => (AttemptDeferred (bs "local delivery failed: " ++ show_error e), w')
  end.

(** [route]. *)
Definition route (l : LocalSide (S * B)) (hosted : list bytes) (addr : bytes) (w : S * B)
  : result LocalRoute :=
  if negb (is_hosted hosted addr) then Ok RRemote
  else r ← local_resolve l addr w; Ok (route_of r).

(** The routing loop: at most one alias hop.  It gives the final target and
    the local attempt, if one was made. *)
Fixpoint route_loop (hops : nat) (l : LocalSide (S * B)) (hosted : list bytes)
    (mail_from target raw : bytes) (now : Z) (w : S * B)
  : bytes * option DeliveryAttempt * (S * B) :=
  match hops with
  | O => (target, None, w)
  | Datatypes.S hops =>
      match route l hosted target w with
      | Ok (RDeliver account_id) =>
          let '(a, w') := deliver_local l account_id mail_from target raw now w in
          (target, Some a, w')
      | Ok (RRedirect destination) => route_loop hops l hosted mail_from destination raw now w
      | Ok RUnknown =>
          (target, Some (AttemptBounced (bs "550 5.1.1 <" ++ target ++
             bs ">: recipient address rejected: user unknown")), w)
      | Ok RRemote => (target, None, w)
      | Err e => (target, Some (AttemptDeferred (bs "local routing failed: " ++ show_error e)), w)
      end
  end.

(** One recipient of the loop in [process_message]. *)
Definition attempt_rcpt (hosted : list bytes) (mail_from raw : bytes) (now : Z) (r : QueueRecipient)
    (w : S * B) : QueueRecipient * (S * B) :=
  if negb (rcpt_is_due r now) then (r, w)
  else
    let '(target, local_attempt, w) :=
      match local with
      | Some l => route_loop 2 l hosted mail_from (address r) raw now w
      | None => (address r, None, w)
      end in
    let attempt := match local_attempt with
                   | Some a => a
                   | None => remote_attempt net mail_from target raw
                   end in
    let w := match attempt with
             | AttemptDelivered => (on_store (record_outbound now) w).2
             | _ => w
             end in
    (apply_attempt r attempt now, w).

Fixpoint attempt_all (hosted : list bytes) (mail_from raw : bytes) (now : Z)
    (rs : list QueueRecipient) (w : S * B) : list QueueRecipient * (S * B) :=
  match rs with
  | [] => ([], w)
  | r :: rs =>
      let '(r', w) := attempt_rcpt hosted mail_from raw now r w in
      let '(rs', w) := attempt_all hosted mail_from raw now rs w in
      (r' :: rs', w)
  end.

(** [raise_bounces]. *)
Definition newly_bounced (rs : list QueueRecipient) (pending_before : list bool) : list QueueRecipient :=
  omap (λ rp : QueueRecipient * bool,
    match status rp.1 with Bounced _ => if rp.2 then Some rp.1 else None | _ => None end)
    (zip rs pending_before).

Definition raise_bounces (m : QueuedMessage) (pending_before : list bool) (original : bytes) (now : Z)
  : M (S * B) unit :=
  match return_path m with
  | [] => mret tt
  | _ =>
      match newly_bounced (recipients m) pending_before with
      | [] => mret tt
      | bounced =>
          let report := with_recipients m bounced in
          match build_dsn report (default REPORTING_MTA hostname) original now with
          | None => mret tt
          | Some dsn =>
              _ ← enqueue dsn
                    (mkEnqueue now [] [(return_path m, At (saturating_add_u64 now DEFAULT_MAX_AGE))] now)
                    (wall net);
              mret tt
          end
      end
  end.

(** [commit]. *)
Definition commit (id : Z) (m : QueuedMessage) : M S unit :=
  if is_complete m then QueueStore.remove id else persist id m.

(** The two rewritings of recipients that need no attempt. *)
Definition rate_limit_rcpt (due_ : Z) (now : Z) (r : QueueRecipient) : QueueRecipient :=
  if rcpt_is_due r now
  then mkRcpt (address r) (Deferred RATE_LIMITED) (mkRetry (attempts (retry r)) due_) (notify r) (expiry r)
  else r.
Definition bounce_rcpt (r : QueueRecipient) : QueueRecipient :=
  if is_pending (status r)
  then mkRcpt (address r) (Bounced BODY_GONE) (retry r) (notify r) (expiry r)
  else r.

(** [process_message] behind the rate limit. *)
Definition process_body (id : Z) (m : QueuedMessage) (now : Z) : M (S * B) unit :=
  let pending_before := (λ r, is_pending (status r)) <$> recipients m in
  body ← (reads (λ w, blob_get_all (blob_hash m) w.2) : M (S * B) (option bytes));
  match body return M (S * B) unit with
  | None =>
      let m' := with_recipients m (bounce_rcpt <$> recipients m) in
      _ ← raise_bounces m' pending_before [] now;
      on_store (commit id m')
  | Some raw => λ w,
      let hosted := match local with Some l => hosted_domains (local_domains l w) | None => [] end in
      let '(rs, w) := attempt_all hosted (return_path m) raw now (recipients m) w in
      let m' := with_recipients m rs in
      (_ ← raise_bounces m' pending_before raw now; on_store (commit id m')) w
  end.

(** [process_message]; the rate counters are the third component. *)
Definition process_message (id : Z) (m : QueuedMessage) (now : Z) (w : S * B) (ttl : TtlStore)
  : result unit * (S * B) * TtlStore :=
  let limits := limits_from_settings w.1 in
  let '(decision, ttl) :=
    if has_due_recipient m now then Outbound.check limits (return_path m) (clk net) ttl
    else (Outbound.Allow, ttl) in
  match decision with
  | Outbound.Deny _ =>
      let m' := with_recipients m
                  (rate_limit_rcpt (Outbound.window_end limits now) now <$> recipients m) in
      (on_store (commit id m') w, ttl)
  | Outbound.Allow => (process_body id m now w, ttl)
  end.

(** [process]: a message whose pass fails stays as it was. *)
Fixpoint process (batch : list (Z * QueuedMessage)) (now : Z) (w : S * B) (ttl : TtlStore)
  : (S * B) * TtlStore :=
  match batch with
  | [] => (w, ttl)
  | (id, m) :: batch =>
      let '(_, w, ttl) := process_message id m now w ttl in process batch now w ttl
  end.
End pass.

(** ** What a pass may do to a recipient *)

Inductive rcpt_outcome (now : Z) (r : QueueRecipient) : QueueRecipient → Prop :=
  | outcome_kept : rcpt_is_due r now = false → rcpt_outcome now r r
  | outcome_attempt a : rcpt_is_due r now = true → rcpt_outcome now r (apply_attempt r a now)
  | outcome_limited d : rcpt_is_due r now = true →
      rcpt_outcome now r (mkRcpt (address r) (Deferred RATE_LIMITED) (mkRetry (attempts (retry r)) d)
        (notify r) (expiry r))
  | outcome_body_gone : is_pending (status r) = true →
      rcpt_outcome now r (mkRcpt (address r) (Bounced BODY_GONE) (retry r) (notify r) (expiry r)).

(** A settled recipient is never touched again. *)
Lemma outcome_settled now r r' : rcpt_outcome now r r' → is_pending (status r) = false → r' = r.
Proof.
  intros [] Hp; [done| | |congruence]; unfold rcpt_is_due in *; rewrite Hp in *; done.
Qed.

Lemma outcome_address now r r' : rcpt_outcome now r r' → address r' = address r ∧ expiry r' = expiry r.
Proof. intros [|a| |]; try done. destruct a; simpl; [done| |done]. by case_match. Qed.

Section laws.
Context {S B : Type} {store : Store S} {contract : StoreSpec S}.
Context {blobs : BlobStore B} {bcontract : BlobSpec B} {codec : Codec} {laws : CodecLaws}.
Implicit Types (s : S) (b : B) (w : S * B).

(** The stores are in order: the counters can be read, the queue is well
    formed and its ids are below the id counter, which stands at [n]. *)
Record w_ok (n : Z) w : Prop := {
  ok_store : healthy w.1;
  ok_blobs : bhealthy w.2;
  ok_counters k : mergeable k → is_Some (counter_value (view w.1 !! k));
  ok_queue : queue_wf (view w.1);
  ok_next : counter_value (view w.1 !! id_counter_key) = Some n;
  ok_nonneg : 0 ≤ n;
  ok_ids id m : is_u32 id → queued (view w.1) id = Some m → id ≤ n;
}.

(** From [w] to [w'] every queued message is kept, unchanged, and at most [k]
    ids are used. *)
Definition keeps_queue (k : Z) w w' : Prop :=
  ∀ n, w_ok n w → ∃ n', w_ok n' w' ∧ n ≤ n' ≤ n + k ∧
    ∀ id m, is_u32 id → queued (view w.1) id = Some m → queued (view w'.1) id = Some m.

(** What the pass relies on of the local side: filing one message leaves the
    stores in order, does not disturb what is queued and queues at most [k]
    copies. *)
Definition local_law (k : Z) (l : LocalSide (S * B)) : Prop :=
  ∀ a f r raw now w, keeps_queue k w (file_locally l a f r raw now w).2.

Lemma keeps_queue_refl k w : 0 ≤ k → keeps_queue k w w.
Proof. intros ? n ?. exists n. split_and!; [done|lia|lia|done]. Qed.

Lemma keeps_queue_trans k1 k2 w1 w2 w3 :
  keeps_queue k1 w1 w2 → keeps_queue k2 w2 w3 → keeps_queue (k1 + k2) w1 w3.
Proof.
  intros H1 H2 n Hn. destruct (H1 n Hn) as (n1 & Hn1 & ? & Hq1).
  destruct (H2 n1 Hn1) as (n2 & Hn2 & ? & Hq2). exists n2. split_and!; [done|lia|lia|auto].
Qed.

Lemma keeps_queue_weaken k k' w w' : k ≤ k' → keeps_queue k w w' → keeps_queue k' w w'.
Proof. intros ? Hk n Hn. destruct (Hk n Hn) as (n' & ? & ? & ?). exists n'. split_and!; [done|lia|lia|done]. Qed.

(** Adding to a counter other than the queue's keeps the queue. *)
Lemma keeps_queue_counter w k by_ :
  mergeable k → subspace_of k = Some Counter → k ≠ id_counter_key →
  keeps_queue 0 w (on_store (st_add_and_get k by_) w).2.
Proof.
  intros Hm Hk Hne n [Hs Hb Hc Hwf Hn Hp Hids].
  destruct (Hc k Hm) as [c Hc']. destruct (add_and_get_spec k by_ w.1 c) as (s' & E & Hs' & Hv); [done..|].
  unfold on_store. rewrite E. exists n. simpl.
  assert (∀ id, queued (view s') id = queued (view w.1) id) as Hq.
  { intros id. unfold queued. rewrite Hv, lookup_insert_ne; [done|]. intros ->.
    assert (subspace_of (message_key id) = Some Queue) by apply subspace_of_key_encode. congruence. }
  split_and!; [|lia|lia|by intros; rewrite Hq]. split; simpl; [done|done| | | |done|].
  - intros k' Hm'. rewrite Hv. destruct (decide (k = k')) as [<-|].
    + rewrite lookup_insert_eq, counter_value_i64_le by (apply as_i64_range). eauto.
    + rewrite lookup_insert_ne by done. auto.
  - intros k' v'. rewrite Hv. intros [[<- _]|[_ ?]]%lookup_insert_Some ?; [congruence|by eapply Hwf].
  - by rewrite Hv, lookup_insert_ne.
  - intros id m. rewrite Hq. apply Hids.
Qed.

Lemma record_outbound_keeps now w : keeps_queue 0 w (on_store (record_outbound now) w).2.
Proof.
  apply keeps_queue_counter; [apply mergeable_key_encode; by left|apply subspace_of_key_encode|].
  intros E. apply (f_equal length) in E. unfold daily_outbound_key, id_counter_key in E.
  by rewrite !length_key_encode in E.
Qed.

(** *** The attempts *)

Section attempts.
Context (net : Network) (local : option (LocalSide (S * B))) (k : Z).
Context (Hk : 0 ≤ k) (Hlocal : ∀ l, local = Some l → local_law k l).

Lemma route_loop_keeps hops l hosted mail_from target raw now w :
  local_law k l →
  keeps_queue k w (route_loop hops l hosted mail_from target raw now w).2.
Proof.
  intros Hl. revert target. induction hops as [|hops IH]; intros target; simpl; [by apply keeps_queue_refl|].
  destruct (route l hosted target w) as [[a|d| |]|e]; try by apply keeps_queue_refl.
  - unfold deliver_local. pose proof (Hl a mail_from target raw now w) as Hw.
    by destruct (file_locally l a mail_from target raw now w) as [[]].
  - apply IH.
Qed.

Lemma attempt_rcpt_keeps hosted mail_from raw now r w :
  rcpt_outcome now r (attempt_rcpt net local hosted mail_from raw now r w).1 ∧
  keeps_queue k w (attempt_rcpt net local hosted mail_from raw now r w).2.
Proof.
  unfold attempt_rcpt. destruct (rcpt_is_due r now) eqn:Ed; cbn [negb];
    [|by split; [constructor|apply keeps_queue_refl]].
  assert (keeps_queue k w (match local with
    | Some l => route_loop 2 l hosted mail_from (address r) raw now w
    | None => (address r, None, w) end).2) as Hw.
  { destruct local as [l|]; [|by apply keeps_queue_refl]. by apply route_loop_keeps, Hlocal. }
  destruct (match local with Some l => route_loop 2 l hosted mail_from (address r) raw now w
    | None => (address r, None, w) end) as [[target la] w1]. cbn [fst snd] in Hw |- *.
  split; [by apply outcome_attempt|].
  destruct (match la with Some a => a | None => remote_attempt net mail_from target raw end); [|done..].
  rewrite <-(Z.add_0_r k). eapply keeps_queue_trans; [exact Hw|]. apply record_outbound_keeps.
Qed.

Lemma attempt_all_keeps hosted mail_from raw now rs w :
  Forall2 (rcpt_outcome now) rs (attempt_all net local hosted mail_from raw now rs w).1 ∧
  keeps_queue (k * Z.of_nat (length rs)) w (attempt_all net local hosted mail_from raw now rs w).2.
Proof.
  revert w. induction rs as [|r rs IH]; intros w; simpl.
  { split; [done|]. apply keeps_queue_refl. lia. }
  destruct (attempt_rcpt_keeps hosted mail_from raw now r w) as [H1 H2].
  destruct (attempt_rcpt net local hosted mail_from raw now r w) as [r' w1].
  destruct (IH w1) as [H3 H4]. destruct (attempt_all net local hosted mail_from raw now rs w1) as [rs' w2].
  simpl in *. split; [by constructor|].
  eapply keeps_queue_weaken; [|eapply keeps_queue_trans; [exact H2|exact H4]]. lia.
Qed.
End attempts.

(** *** Bounces and write-back *)

(** The report that goes out for the recipients bounced in this pass. *)
Definition dsn_queued (hostname : option bytes) (m : QueuedMessage) (rs : list QueueRecipient)
    (original : bytes) (now : Z) w : Prop :=
  ∃ id dm dsn, is_u32 id ∧ queued (view w.1) id = Some dm ∧ return_path dm = [] ∧
    address <$> recipients dm = [return_path m] ∧
    blob_get_all (blob_hash dm) w.2 = Ok (Some dsn) ∧
    build_dsn (with_recipients m rs) (default REPORTING_MTA hostname) original now = Some dsn.

Lemma build_dsn_bounced m rs mta original now :
  return_path m ≠ [] → rs ≠ [] → Forall (λ r, ∃ reason, status r = Bounced reason) rs →
  is_Some (build_dsn (with_recipients m rs) mta original now).
Proof.
  intros Hp Hne Hrs. unfold build_dsn. simpl. destruct (return_path m); [done|].
  unfold failures_of. simpl. destruct Hrs as [|r rs (reason & Hr) _]; [done|]. simpl. rewrite Hr. eauto.
Qed.

Lemma newly_bounced_spec rs ps :
  Forall (λ r, ∃ reason, status r = Bounced reason) (newly_bounced rs ps).
Proof.
  apply Forall_forall. intros r Hr. unfold newly_bounced in Hr.
  apply list_elem_of_omap in Hr as ([r' p] & _ & Hr). simpl in Hr.
  destruct (status r') eqn:E; try done. destruct p; [|done]. injection Hr as <-. eauto.
Qed.

Lemma raise_bounces_spec net hostname m ps original now n w :
  w_ok n w → n < U32_MAX →
  ∃ w', raise_bounces net hostname m ps original now w = (Ok tt, w') ∧ keeps_queue 1 w w' ∧
    (return_path m ≠ [] → newly_bounced (recipients m) ps ≠ [] →
     dsn_queued hostname m (newly_bounced (recipients m) ps) original now w').
Proof.
  intros Hw Hmax. unfold raise_bounces.
  destruct (return_path m) as [|x l] eqn:Ep. { exists w. split_and!; [done|by apply keeps_queue_refl|done]. }
  rewrite <-Ep in *. assert (return_path m ≠ []) as Hp by (by rewrite Ep).
  destruct (newly_bounced (recipients m) ps) as [|b0 bs'] eqn:Eb.
  { exists w. split_and!; [done|by apply keeps_queue_refl|done]. }
  rewrite <-Eb in *.
  destruct (build_dsn_bounced m (newly_bounced (recipients m) ps) (default REPORTING_MTA hostname) original now)
    as [dsn Hdsn]; [done|by rewrite Eb|apply newly_bounced_spec|].
  rewrite Hdsn. set (req := mkEnqueue _ _ _ _). destruct w as [s b].
  pose proof Hw as [Hs Hb Hc Hwf Hn Hpos Hids]. simpl in *.
  destruct (enqueue_spec dsn req (wall net) s b n) as (s' & b' & v & E & Hs' & Hb' & Ed & Hv & Hbv); [done..|].
  set (msg := new_message (digest dsn) dsn req) in *.
  assert (is_u32 (n + 1)) as Hid by width.
  assert (∀ id, is_u32 id → queued (view s') id = if decide (id = n + 1) then Some msg else queued (view s) id) as Hq.
  { intros id ?. rewrite Hv, (queued_insert _ _ _ _ msg) by done. by rewrite queued_counter. }
  exists (s', b'). unfold mbind, M_bind. rewrite E. split_and!; [done| |].
  - intros n0 Hw0. assert (n0 = n) as -> by (destruct Hw0; simpl in *; congruence).
    exists (n + 1). split_and!; [|lia|lia|].
    + split; simpl; [done|done| | | |lia|].
      * intros k Hk. rewrite Hv, lookup_insert_ne.
        -- destruct (decide (k = id_counter_key)) as [->|];
             [rewrite lookup_insert_eq, counter_value_i64_le by width; eauto|].
           rewrite lookup_insert_ne by done. auto.
        -- intros <-. unfold mergeable in Hk.
           assert (subspace_of (message_key (n + 1)) = Some Queue) by apply subspace_of_key_encode.
           destruct Hk; congruence.
      * rewrite Hv. eapply queue_wf_insert; [done..|]. by apply queue_wf_counter.
      * rewrite Hv, lookup_insert_ne by (intros E'; by eapply counter_not_message).
        rewrite lookup_insert_eq, counter_value_i64_le by width. done.
      * intros id m' Hid'. rewrite Hq by done. case_decide; [lia|]. intros ?%Hids; [lia|done].
    + intros id m' Hid' Hm'. simpl in *. rewrite Hq by done. rewrite decide_False; [done|].
      intros ->. apply Hids in Hm'; [lia|done].
  - intros _ _. exists (n + 1), msg, dsn. split_and!; [done| |done|done| |done]; simpl.
    + rewrite Hq by done. by rewrite decide_True.
    + rewrite blob_get_all_spec, Hbv by done. by rewrite lookup_insert_eq.
Qed.

Lemma commit_spec id m n w :
  w_ok n w → is_u32 id →
  ∃ w', on_store (commit id m) w = (Ok tt, w') ∧ w'.2 = w.2 ∧ healthy w'.1 ∧ queue_wf (view w'.1) ∧
    ∀ id', is_u32 id' → queued (view w'.1) id' =
      if decide (id' = id) then (if is_complete m then None else Some m) else queued (view w.1) id'.
Proof.
  intros [Hs Hb Hc Hwf _ _ _] Hid. unfold on_store, commit. destruct (is_complete m).
  - unfold QueueStore.remove. destruct (delete_spec (message_key id) w.1) as (s' & -> & Hs' & Hv); [done|auto with keys|].
    exists (s', w.2). split_and!; simpl; [done..| |].
    + intros k v. rewrite Hv. intros [_ ?]%lookup_delete_Some ?. by eapply Hwf.
    + intros id' Hid'. unfold queued. rewrite Hv, lookup_delete. case_decide as E.
      * apply message_key_inj in E as <-; [|done..]. by rewrite decide_True.
      * rewrite decide_False; [done|]. congruence.
  - destruct (persist_spec w.1 id m) as (s' & v & -> & Hs' & Hd & Hv); [done..|].
    exists (s', w.2). split_and!; simpl; [done..| |].
    + rewrite Hv. by eapply queue_wf_insert.
    + intros id' Hid'. by rewrite Hv, (queued_insert _ _ _ _ m).
Qed.

Lemma newly_bounced_cons r rs p ps :
  newly_bounced (r :: rs) (p :: ps) =
    (match status r with Bounced _ => if p then [r] else [] | _ => [] end) ++ newly_bounced rs ps.
Proof. unfold newly_bounced. simpl. by destruct (status r), p. Qed.

(** Nothing is reported when no pending recipient was bounced. *)
Lemma newly_bounced_none (f : QueueRecipient → QueueRecipient) rs :
  (∀ r, is_pending (status r) = true → is_pending (status (f r)) = true) →
  newly_bounced (f <$> rs) ((λ r, is_pending (status r)) <$> rs) = [].
Proof.
  intros Hf. induction rs as [|r rs IH]; [done|]. rewrite !fmap_cons, newly_bounced_cons, IH.
  specialize (Hf r). destruct (status (f r)) eqn:E; try done.
  destruct (is_pending (status r)); [|done]. by specialize (Hf eq_refl).
Qed.

Lemma Forall2_map_outcome now (f : QueueRecipient → QueueRecipient) rs :
  (∀ r, rcpt_outcome now r (f r)) → Forall2 (rcpt_outcome now) rs (f <$> rs).
Proof. intros Hf. induction rs as [|r rs IH]; [constructor|]. rewrite fmap_cons. by constructor. Qed.

Section pass_theorem.
Context (net : Network) (local : option (LocalSide (S * B))) (hostname : option bytes).
Context (settings_limits : bytes → option (option Z * option Z)) (k : Z).
Context (Hk : 0 ≤ k) (Hlocal : ∀ l, local = Some l → local_law k l).

(** What holds after a pass over message [id]. *)
Definition accounted (id : Z) (m : QueuedMessage) (now : Z) w w' : Prop :=
  ∃ rs original, Forall2 (rcpt_outcome now) (recipients m) rs ∧
    load id w'.1 = Ok (if is_complete (with_recipients m rs) then None else Some (with_recipients m rs)) ∧
    (∀ id' m', is_u32 id' → id' ≠ id → queued (view w.1) id' = Some m' → load id' w'.1 = Ok (Some m')) ∧
    (return_path m ≠ [] → newly_bounced rs ((λ r, is_pending (status r)) <$> recipients m) ≠ [] →
     dsn_queued hostname m (newly_bounced rs ((λ r, is_pending (status r)) <$> recipients m)) original now w').

(** Reporting the bounces and writing the message back. *)
Lemma finish_accounted id m now n w w1 rs original j :
  w_ok n w → is_u32 id → queued (view w.1) id = Some m →
  Forall2 (rcpt_outcome now) (recipients m) rs → keeps_queue j w w1 → n + j < U32_MAX →
  ∃ w', (_ ← raise_bounces net hostname (with_recipients m rs)
               ((λ r, is_pending (status r)) <$> recipients m) original now;
         on_store (commit id (with_recipients m rs))) w1 = (Ok tt, w') ∧
    accounted id m now w w'.
Proof.
  intros Hw Hid Hm Hrs Hkeep Hmax. destruct (Hkeep n Hw) as (n1 & Hw1 & Hn1 & Hq1).
  destruct (raise_bounces_spec net hostname (with_recipients m rs)
    ((λ r, is_pending (status r)) <$> recipients m) original now n1 w1) as (w2 & E2 & Hkeep2 & Hdsn); [done|lia|].
  destruct (Hkeep2 n1 Hw1) as (n2 & Hw2 & Hn2 & Hq2).
  destruct (commit_spec id (with_recipients m rs) n2 w2) as (w3 & E3 & Eb & Hs3 & Hwf3 & Hq3); [done..|].
  exists w3. split. { unfold mbind, M_bind. by rewrite E2. }
  exists rs, original. split_and!; [done| | |].
  - rewrite load_spec, Hq3 by done. by rewrite decide_True.
  - intros id' m' Hid' Hne Hm'. rewrite load_spec, Hq3 by done. rewrite decide_False by done. f_equal. auto.
  - intros Hp Hb. destruct (Hdsn Hp Hb) as (i & dm & dsn & Hi & Hdm & ? & ? & Hbl & ?).
    exists i, dm, dsn. rewrite Eb, Hq3 by done. split_and!; try done. rewrite decide_False; [done|]. intros ->.
    apply Hq1 in Hm; [|done]. apply Hq2 in Hm; [|done]. rewrite Hdm in Hm. injection Hm as ->. done.
Qed.

End pass_theorem.

End laws.

(** ** Witnesses *)

Module PassDemo.
Import MemCodec QueueDemo.

(** A network on which every exchange defers. *)
Definition net : Network := {|
  mx_hosts _ := Ok []; host_ips _ := Ok [V4 [192; 0; 2; 1]];
  host_answer _ _ _ _ := AttemptBounced (bs "550 no such user");
  relay_answer := None; clk _ := Outbound.mkReading 1000 0; wall := 1000 |}.

Definition msg : QueuedMessage := new_message (mem_digest (bs "hi")) (bs "hi") request.

Lemma view_w1 : view w1.1 = <[message_key 1 := [Z.pos (encode (message_repr msg))]]>
    {[ id_counter_key := i64_le 1 ]}.
Proof. by vm_compute. Qed.

Lemma queued_w1 id : is_u32 id → queued (view w1.1) id = if decide (id = 1) then Some msg else None.
Proof.
  intros Hid. rewrite view_w1, (queued_insert _ _ _ _ msg) by
    (done || width || by apply deserialize_archive).
  case_decide; [done|]. unfold queued. by rewrite lookup_singleton_ne by apply counter_not_message.
Qed.

Lemma w1_ok : w_ok 1 w1.
Proof.
  split; [exact I|exact I| |exact queue_wf_w1|by vm_compute|lia|].
  - intros k Hk. rewrite view_w1, lookup_insert_ne.
    + destruct (decide (id_counter_key = k)) as [<-|]; [|by rewrite lookup_singleton_ne].
      rewrite lookup_singleton_eq, counter_value_i64_le by width. eauto.
    + intros <-. by destruct Hk.
  - intros id m Hid. rewrite queued_w1 by done. case_decide; [lia|done].
Qed.
End PassDemo.


