(* ===== verification/SmtpVerdict.v ===== *)
(** * Message authentication and the inbound verdict
    (crates/smtp/src: spf.rs, dkim_verify.rs, dmarc.rs, arc.rs, dnsbl.rs,
    loop_detect.rs, spam_decision.rs, inbound.rs; crates/mail/src/auth_results.rs)

    The cryptographic and DNS work is the mail_auth library's and the
    resolver's; they are the interface [MailAuth].  What the server decides
    from their answers, and the header fields it stamps, are here. *)

From S2P Require Import Prelude Bytes Text Ttl QueueModel Dsn.
From stdpp Require Import base list strings.
From Stdlib Require Import ZArith Lia.

Open Scope Z_scope.

(** ** The library's results *)

Inductive SpfResult : Type :=
  | SpfPass | SpfFail | SpfSoftFail | SpfNeutral | SpfTempError | SpfPermError | SpfNone.

Inductive DkimResult : Type :=
  | DkPass | DkNeutral (e : bytes) | DkFail (e : bytes) | DkPermError (e : bytes)
  | DkTempError (e : bytes) | DkNone.

Inductive DmarcResult : Type :=
  | DmPass | DmFail (e : bytes) | DmTempError (e : bytes) | DmPermError (e : bytes) | DmNone.

#[global] Instance DmarcResult_eq_dec : EqDecision DmarcResult.
Proof. solve_decision. Defined.

Inductive Policy : Type := PolicyNone | PolicyQuarantine | PolicyReject | PolicyUnspecified.

Record SpfOutput : Type := mkSpfOutput { spo_domain : bytes; spo_result : SpfResult }.
(** [signature()] is absent when the header did not parse. *)
Record DkimOutput : Type := mkDkimOutput { dko_domain : option bytes; dko_result : DkimResult }.
Record DmarcOutput : Type := mkDmarcOutput {
  dmo_domain : bytes; dmo_policy : Policy; dmo_spf : DmarcResult; dmo_dkim : DmarcResult }.
Record ArcOutput : Type := mkArcOutput { aro_result : DkimResult; aro_sets : nat }.

(** The public part of [AuthenticatedMessage] the server touches. *)
Inductive Algorithm : Type := RsaSha1 | RsaSha256 | Ed25519Sha256.
Record Signature : Type := mkSignature { sig_a : Algorithm; sig_b : bytes }.
Record AuthenticatedMessage : Type := mkAuthMessage {
  dkim_headers : list (result Signature);
  am_from : list bytes;
  am_raw : bytes;
}.

(** mail_auth and the blocklist resolver, in the state [W] of the network. *)
Class MailAuth (W : Type) : Type := {
  auth_parse : bytes → option AuthenticatedMessage;
  verify_spf : IpAddr → bytes → bytes → bytes → W → SpfOutput;
  verify_dkim : AuthenticatedMessage → W → list DkimOutput;
  verify_arc : AuthenticatedMessage → W → ArcOutput;
  verify_dmarc : AuthenticatedMessage → list DkimOutput → bytes → SpfOutput → W → DmarcOutput;
  check_ip : IpAddr → bytes → W → result (option bytes);
}.

(** ** The server's decisions *)

(** [SpfDecision] at the stage [MailFrom]. *)
Record SpfDecision : Type := mkSpf { spf_domain : bytes; spf_result : SpfResult }.
Definition spf_mail_from (o : SpfOutput) : SpfDecision := mkSpf (spo_domain o) (spo_result o).

Inductive DkimVerdict : Type :=
  | VPass | VNeutral | VFail | VPermError | VTempError | VNone.

(** [From<&DkimResult> for DkimVerdict]. *)
Definition dkim_verdict_of (r : DkimResult) : DkimVerdict :=
  match r with
  | DkPass => VPass | DkNeutral _ => VNeutral | DkFail _ => VFail
  | DkPermError _ => VPermError | DkTempError _ => VTempError | DkNone => VNone
  end.

Record DkimSignatureResult : Type := mkSigResult { sr_domain : bytes; sr_result : DkimVerdict }.
Definition DkimDecision : Type := list DkimSignatureResult.
Definition from_outputs (outputs : list DkimOutput) : DkimDecision :=
  (λ o, mkSigResult (default [] (dko_domain o)) (dkim_verdict_of (dko_result o))) <$> outputs.

(** [demote_insecure]: rsa-sha1 and RSA keys under 1024 bits do not verify. *)
Definition demote_header (h : result Signature) : result Signature :=
  match h with
  | Ok s =>
      let insecure := match sig_a s with
                      | RsaSha1 => true
                      | RsaSha256 => (length (sig_b s) <? 128)%nat
                      | Ed25519Sha256 => false
                      end in
      if insecure then Err (Internal "insecure DKIM signature") else h
  | Err _ => h
  end.
Definition demote_insecure (m : AuthenticatedMessage) : AuthenticatedMessage :=
  mkAuthMessage (demote_header <$> dkim_headers m) (am_from m) (am_raw m).

Record ArcDecision : Type := mkArc { arc_result : DkimVerdict; arc_instances : nat }.
Definition arc_present (a : ArcDecision) : bool := (0 <? arc_instances a)%nat.

Inductive DmarcAction : Type := ActPass | ActQuarantine | ActReject.
Record DmarcDecision : Type := mkDmarc {
  dm_domain : bytes; dm_result : DmarcResult; dm_policy : Policy;
  dm_action : DmarcAction; dm_temp_error : bool }.

(** [action_for]. *)
Definition action_for (policy : Policy) (aligned : bool) : DmarcAction :=
  if aligned then ActPass
  else match policy with
       | PolicyReject => ActReject
       | PolicyQuarantine => ActQuarantine
       | PolicyNone | PolicyUnspecified => ActPass
       end.

Definition is_dm_pass (r : DmarcResult) : bool := match r with DmPass => true | _ => false end.
Definition is_dm_temp (r : DmarcResult) : bool := match r with DmTempError _ => true | _ => false end.

(** [DmarcVerifier::verify], from the library's output. *)
Definition dmarc_verify (output : DmarcOutput) : DmarcDecision :=
  let aligned := is_dm_pass (dmo_spf output) || is_dm_pass (dmo_dkim output) in
  let temp_error := is_dm_temp (dmo_spf output) || is_dm_temp (dmo_dkim output) in
  let res :=
    if aligned then DmPass
    else if bool_decide (dmo_spf output ≠ DmNone) then dmo_spf output
    else if bool_decide (dmo_dkim output ≠ DmNone) then dmo_dkim output
    else DmNone in
  mkDmarc (dmo_domain output) res (dmo_policy output) (action_for (dmo_policy output) aligned) temp_error.

(** [unevaluated_dmarc]: what an unparsable message gets. *)
Definition unevaluated_dmarc : DmarcDecision := mkDmarc [] DmNone PolicyUnspecified ActPass false.

Definition LISTED : bytes :=
  line "554 5.7.1 Connection refused, your address is on a public blocklist".
Inductive DnsblDecision : Type :=
  | DnsblAllow
  | DnsblReject (zone : bytes) (listing : bytes) (reply : bytes).

(** ** Authentication-Results *)

Inductive MethodResult : Type :=
  | MPass | MFail | MSoftFail | MNeutral | MNone | MTempError | MPermError.

Definition keyword (r : MethodResult) : bytes :=
  match r with
  | MPass => bs "pass" | MFail => bs "fail" | MSoftFail => bs "softfail" | MNeutral => bs "neutral"
  | MNone => bs "none" | MTempError => bs "temperror" | MPermError => bs "permerror"
  end.

Inductive SpfIdentity : Type := IdMailFrom | IdHelo.
Definition identity_property (i : SpfIdentity) : bytes :=
  match i with IdMailFrom => bs "smtp.mailfrom" | IdHelo => bs "smtp.helo" end.

Record ResultDkim : Type := mkRDkim { rd_result : MethodResult; rd_domain : bytes; rd_selector : option bytes }.
Record ResultSpf : Type := mkRSpf { rs_result : MethodResult; rs_identity : SpfIdentity; rs_value : bytes }.
Record ResultDmarc : Type := mkRDmarc { rm_result : MethodResult; rm_from_domain : bytes }.
Record AuthResults : Type := mkAuthResults {
  ar_dkim : list ResultDkim;
  ar_spf : option ResultSpf;
  ar_dmarc : option ResultDmarc;
  ar_arc : option MethodResult;
}.

(** [collapse_folding]. *)
Definition collapse_folding (value : bytes) : bytes :=
  (λ b, if (b =? CR) || (b =? LF) then 32 else b) <$> value.

Definition FOLD : bytes := bs ";" ++ CRLF ++ [9].

(** The text of each method. *)
Definition dkim_method_text (d : ResultDkim) : bytes :=
  bs "dkim=" ++ keyword (rd_result d) ++ bs " header.d=" ++ collapse_folding (rd_domain d) ++
  match rd_selector d with Some s => bs " header.s=" ++ collapse_folding s | None => [] end.
Definition spf_method_text (s : ResultSpf) : bytes :=
  bs "spf=" ++ keyword (rs_result s) ++ bs " " ++ identity_property (rs_identity s) ++ bs "=" ++
  collapse_folding (rs_value s).
Definition dmarc_method_text (d : ResultDmarc) : bytes :=
  bs "dmarc=" ++ keyword (rm_result d) ++ bs " header.from=" ++ collapse_folding (rm_from_domain d).
Definition arc_method_text (a : MethodResult) : bytes := bs "arc=" ++ keyword a.

(** [AuthResults::to_header_value]: the methods one after the other, each on a
    folded line; [wrote_method] is whether there was one. *)
Definition method_texts (r : AuthResults) : list bytes :=
  (dkim_method_text <$> ar_dkim r) ++ option_list (spf_method_text <$> ar_spf r) ++
  option_list (dmarc_method_text <$> ar_dmarc r) ++ option_list (arc_method_text <$> ar_arc r).
Definition to_header_value (r : AuthResults) (authserv_id : bytes) : bytes :=
  authserv_id ++
  match method_texts r with
  | [] => bs "; none"
  | texts => concat ((λ t, FOLD ++ t) <$> texts)
  end.

(** ** inbound.rs *)

Definition spf_method (r : SpfResult) : MethodResult :=
  match r with
  | SpfPass => MPass | SpfFail => MFail | SpfSoftFail => MSoftFail | SpfNeutral => MNeutral
  | SpfNone => MNone | SpfTempError => MTempError | SpfPermError => MPermError
  end.
Definition dkim_method (v : DkimVerdict) : MethodResult :=
  match v with
  | VPass => MPass | VNeutral => MNeutral | VFail => MFail | VPermError => MPermError
  | VTempError => MTempError | VNone => MNone
  end.
Definition dmarc_method (r : DmarcResult) : MethodResult :=
  match r with
  | DmPass => MPass | DmFail _ => MFail | DmTempError _ => MTempError | DmPermError _ => MPermError
  | DmNone => MNone
  end.

(** [synthesize_header]. *)
Definition synthesize_header (authserv_id : bytes) (spf : SpfDecision) (dkim : DkimDecision)
    (dmarc : DmarcDecision) (arc : ArcDecision) : bytes :=
  to_header_value
    (mkAuthResults
       ((λ s, mkRDkim (dkim_method (sr_result s)) (sr_domain s) None) <$> dkim)
       (Some (mkRSpf (spf_method (spf_result spf)) IdMailFrom (spf_domain spf)))
       (Some (mkRDmarc (dmarc_method (dm_result dmarc)) (dm_domain dmarc)))
       (if arc_present arc then Some (dkim_method (arc_result arc)) else None))
    authserv_id.

(** [prepend_header]. *)
Definition prepend_header (field value raw_message : bytes) : bytes :=
  field ++ bs ": " ++ value ++ CRLF ++ raw_message.

(** The [Display] of an address: dotted decimal, or RFC 5952 with the first
    longest run of two or more zero groups compressed and the IPv4-mapped
    range in mixed notation. *)
Definition show_v4 (o : bytes) : bytes :=
  match fmt_dec <$> o with
  | [] => []
  | x :: l => x ++ concat ((λ d, bs "." ++ d) <$> l)
  end.
Fixpoint segments (o : bytes) : list Z :=
  match o with hi :: lo :: o => hi * 256 + lo :: segments o | _ => [] end.
Fixpoint zero_run (l : list Z) : nat :=
  match l with 0 :: l => S (zero_run l) | _ => 0 end.
(** Start and length of the first longest run of zero groups. *)
Fixpoint longest_zeros (i : nat) (l : list Z) (best : nat * nat) : nat * nat :=
  match l with
  | [] => best
  | _ :: l' =>
      let n := zero_run l in
      longest_zeros (S i) l' (if (best.2 <? n)%nat then (i, n) else best)
  end.
Definition show_groups (l : list Z) : bytes :=
  match fmt_hex <$> l with
  | [] => []
  | x :: l => x ++ concat ((λ d, bs ":" ++ d) <$> l)
  end.
Definition v4_mapped (o : bytes) : option bytes :=
  if bool_decide (take 12 o = replicate 10 0 ++ [255; 255]) then Some (drop 12 o) else None.
Definition show_v6 (o : bytes) : bytes :=
  match v4_mapped o with
  | Some v4 => bs "::ffff:" ++ show_v4 v4
  | None =>
      let gs := segments o in
      let '(start, n) := longest_zeros 0 gs (0, 0)%nat in
      if (1 <? n)%nat
      then show_groups (take start gs) ++ bs "::" ++ show_groups (drop (start + n) gs)
      else show_groups gs
  end.
Definition show_ip (ip : IpAddr) : bytes :=
  match ip with V4 o => show_v4 o | V6 o => show_v6 o end.

(** [IpAddr::to_canonical]. *)
Definition to_canonical (ip : IpAddr) : IpAddr :=
  match ip with
  | V4 _ => ip
  | V6 o => match v4_mapped o with Some v4 => V4 v4 | None => ip end
  end.

(** The format [{:X}]. *)
Definition fmt_hex_upper (n : Z) : bytes := to_ascii_uppercase (fmt_hex n).

(** [build_received]. *)
Definition build_received (helo : bytes) (remote_ip : IpAddr) (host : bytes) (tls : bool) (id now : Z)
  : bytes :=
  let date := show_date (from_timestamp (as_i64 now)) in
  let with_ := if tls then bs "ESMTPS" else bs "ESMTP" in
  bs "Received: from " ++ helo ++ bs " [" ++ show_ip remote_ip ++ bs "]" ++ CRLF ++ [9] ++ bs "by " ++
  host ++ bs " (IRIXMAIL) with " ++ with_ ++ bs " id " ++ fmt_hex_upper id ++ bs ";" ++ CRLF ++ [9] ++
  date ++ CRLF.

(** [domain_of] of inbound.rs, which keeps the case. *)
Definition inbound_domain_of (address : bytes) : option bytes :=
  match rsplit_once 64 address with
  | Some (_, []) => None
  | Some (_, domain) => Some domain
  | None => None
  end.

(** ** Loops *)

Definition LOOPING : bytes := line "450 4.4.6 Too many Received headers, a mail loop is suspected".
Definition DEFAULT_MAX_RECEIVED : nat := 50.

(** [is_received_field]. *)
Definition is_received_field (l : bytes) : bool :=
  match find_byte 58 l with
  | Some colon => eq_ignore_ascii_case (take colon l) (bs "received")
  | None => false
  end.

(** The loop of [received_count] over the lines. *)
Fixpoint received_lines (ls : list bytes) (count : nat) : nat :=
  match ls with
  | [] => count
  | l :: ls =>
      let l := default l (Text.strip_suffix [CR] l) in
      match l with
      | [] => count
      | b :: _ =>
          if (b =? 32) || (b =? 9) then received_lines ls count
          else received_lines ls (if is_received_field l then S count else count)
      end
  end.
Definition received_count (raw_message : bytes) : nat := received_lines (split_byte LF raw_message) 0.

Inductive LoopDecision : Type := LoopAllow | LoopReject (reply : bytes).

(** [loop_detect::check]; a limit of zero disables it. *)
Definition loop_check (raw_message : bytes) (max_received : nat) : LoopDecision :=
  if (max_received =? 0)%nat then LoopAllow
  else if (max_received <? received_count raw_message)%nat then LoopReject LOOPING
  else LoopAllow.

(** ** The verdict *)

Definition REJECTED : bytes := line "550 5.7.1 Message rejected by sender policy".
Definition DEFERRED : bytes := line "451 4.7.1 Message temporarily deferred, please retry".

Inductive Disposition : Type := Inbox | Spam.
Inductive SpamDecision : Type :=
  | SpAccept (d : Disposition) | SpDefer (reply : bytes) | SpReject (reply : bytes).

(** [spam_decision::decide]; of the two summaries it reads the DMARC decision
    and the blocklist's. *)
Definition decide_spam (authenticated : bool) (dmarc : DmarcDecision) (dnsbl : DnsblDecision) : SpamDecision :=
  if authenticated then SpAccept Inbox
  else match dnsbl with
       | DnsblReject _ _ reply => SpReject reply
       | DnsblAllow =>
           match dm_action dmarc with
           | ActReject => if dm_temp_error dmarc then SpDefer DEFERRED else SpReject REJECTED
           | ActQuarantine => SpAccept Spam
           | ActPass => SpAccept Inbox
           end
       end.

Section gauntlet.
Context {W : Type} `{MailAuth W}.

(** [dnsbl::check]: the first zone that lists the address; a failed lookup
    does not. *)
Fixpoint dnsbl_check (zones : list bytes) (ip : IpAddr) (w : W) : DnsblDecision :=
  match zones with
  | [] => DnsblAllow
  | zone :: zones =>
      match check_ip ip zone w with
      | Ok (Some listing) => DnsblReject zone listing LISTED
      | Ok None | Err _ => dnsbl_check zones ip w
      end
  end.

(** [run_gauntlet]; [host] is the SPF verifier's host domain. *)
Definition run_gauntlet (host : bytes) (peer_ip : IpAddr) (helo_domain mail_from raw_message : bytes)
    (dnsbl : DnsblDecision) (w : W) : SpamDecision * bytes :=
  let spf_output := verify_spf peer_ip helo_domain host mail_from w in
  let spf := spf_mail_from spf_output in
  let '(dkim, arc, dmarc) :=
    match demote_insecure <$> auth_parse raw_message with
    | Some message =>
        let dkim_output := verify_dkim message w in
        let arc := verify_arc message w in
        let mail_from_domain := default helo_domain (inbound_domain_of mail_from) in
        (from_outputs dkim_output,
         mkArc (dkim_verdict_of (aro_result arc)) (aro_sets arc),
         dmarc_verify (verify_dmarc message dkim_output mail_from_domain spf_output w))
    | None => ([], mkArc VNone 0, unevaluated_dmarc)
    end in
  let auth_results := synthesize_header host spf dkim dmarc arc in
  match loop_check raw_message DEFAULT_MAX_RECEIVED with
  | LoopReject reply => (SpDefer reply, auth_results)
  | LoopAllow => (decide_spam false dmarc dnsbl, auth_results)
  end.
End gauntlet.

Example show_ip_samples :
  show_ip (V6 (replicate 15 0 ++ [1])) = bs "::1" ∧
  show_ip (V6 ([32; 1; 13; 184] ++ replicate 11 0 ++ [1])) = bs "2001:db8::1" ∧
  show_ip (V6 (replicate 10 0 ++ [255; 255; 10; 0; 0; 7])) = bs "::ffff:10.0.0.7".
Proof. vm_compute. done. Qed.

(** ** Lines *)

(** A text with no line feed: it cannot end a line. *)
Definition no_lf (s : bytes) : Prop := Forall (λ b, b ≠ LF) s.
#[global] Instance no_lf_dec s : Decision (no_lf s).
Proof. unfold no_lf. apply _. Defined.

Lemma no_lf_nil : no_lf [].
Proof. constructor. Qed.

Lemma no_lf_app s t : no_lf s → no_lf t → no_lf (s ++ t).
Proof. apply Forall_app_2. Qed.

Lemma no_lf_concat l : Forall no_lf l → no_lf (concat l).
Proof. induction 1; [constructor|by apply no_lf_app]. Qed.

Lemma no_lf_collapse s : no_lf (collapse_folding s).
Proof.
  apply Forall_fmap, Forall_true. intros b. simpl. destruct (Z.eqb_spec b LF) as [->|]; [done|].
  by destruct (b =? CR).
Qed.

Lemma no_lf_dec_digits fuel n : no_lf (dec_digits fuel n).
Proof.
  revert n. induction fuel as [|fuel IH]; intros n; [constructor|]. simpl. apply no_lf_app.
  - case_match; [constructor|apply IH].
  - repeat constructor. pose proof (Z.mod_pos_bound n 10 ltac:(lia)). unfold LF. lia.
Qed.

Lemma no_lf_hex_digits fuel n : no_lf (hex_digits fuel n).
Proof.
  revert n. induction fuel as [|fuel IH]; intros n; [constructor|]. simpl. apply no_lf_app.
  - case_match; [constructor|apply IH].
  - repeat constructor. pose proof (Z.mod_pos_bound n 16 ltac:(lia)). unfold LF, hex_char.
    case_match; lia.
Qed.

Lemma no_lf_pad w s : no_lf s → no_lf (pad_left w s).
Proof. apply no_lf_app, Forall_replicate. done. Qed.

Lemma no_lf_nth l n : Forall no_lf l → no_lf (nth n l []).
Proof. intros H. revert n. induction H; intros [|n]; simpl; [constructor|constructor|done|auto]. Qed.

Lemma no_lf_upper s : no_lf s → no_lf (to_ascii_uppercase s).
Proof.
  intros H. apply Forall_fmap. eapply Forall_impl; [done|]. intros b Hb. simpl. unfold to_upper, is_ascii_lower.
  case_match eqn:E; [|done]. unfold LF. lia.
Qed.

Create HintDb lines discriminated.
#[global] Hint Resolve no_lf_nil no_lf_app no_lf_collapse no_lf_dec_digits no_lf_hex_digits no_lf_pad no_lf_nth
  no_lf_upper no_lf_concat : lines.
#[global] Hint Extern 5 (no_lf (bs _)) => (by apply (bool_decide_unpack _)) : lines.

Lemma no_lf_joined sep l :
  no_lf sep → Forall no_lf l →
  no_lf match l with [] => [] | x :: l => x ++ concat ((λ d, sep ++ d) <$> l) end.
Proof.
  intros Hs [|x r Hx Hr]; [constructor|]. apply no_lf_app; [done|]. apply no_lf_concat, Forall_fmap.
  eapply Forall_impl; [done|]. intros y Hy. by apply no_lf_app.
Qed.

Lemma no_lf_show_groups l : no_lf (show_groups l).
Proof. apply no_lf_joined; [auto with lines|]. apply Forall_fmap, Forall_true. intros. apply no_lf_hex_digits. Qed.
Lemma no_lf_show_v4 l : no_lf (show_v4 l).
Proof. apply no_lf_joined; [auto with lines|]. apply Forall_fmap, Forall_true. intros. apply no_lf_dec_digits. Qed.
#[global] Hint Resolve no_lf_show_groups no_lf_show_v4 : lines.

Lemma no_lf_show_ip ip : no_lf (show_ip ip).
Proof.
  destruct ip as [o|o]; simpl; [auto with lines|]. unfold show_v6.
  destruct (v4_mapped o); [auto with lines|]. destruct (longest_zeros _ _ _) as [i n].
  case_match; auto 10 with lines.
Qed.

Lemma no_lf_show_date d : no_lf (show_date d).
Proof.
  assert (Forall no_lf DAYS ∧ Forall no_lf MONTHS) as [? ?]
    by (split; apply (bool_decide_unpack _); vm_compute; done).
  unfold show_date, fmt_dec_pad, fmt_dec. auto 30 with lines.
Qed.
#[global] Hint Resolve no_lf_show_ip no_lf_show_date : lines.

Lemma split_byte_app c l r : Forall (λ b, b ≠ c) l → split_byte c (l ++ c :: r) = l :: split_byte c r.
Proof.
  induction 1 as [|b l Hb _ IH]; simpl; [by rewrite Z.eqb_refl|].
  rewrite (proj2 (Z.eqb_neq b c)) by done. by rewrite IH.
Qed.

(** The line that ends at a line break. *)
Lemma split_line l r : no_lf l → split_byte LF (l ++ CRLF ++ r) = (l ++ [CR]) :: split_byte LF r.
Proof.
  intros H. change (CRLF ++ r) with ([CR] ++ LF :: r). rewrite app_assoc. apply split_byte_app.
  apply Forall_app_2; [done|]. by repeat constructor.
Qed.

(** A folded field is its first line and continuation lines. *)
Definition continuation (l : bytes) : Prop := ∃ t, l = 9 :: t.

Lemma split_folded h ts body :
  no_lf h → Forall no_lf ts →
  ∃ h' conts, split_byte LF (h ++ concat ((λ t, FOLD ++ t) <$> ts) ++ CRLF ++ body) =
    (h ++ h' ++ [CR]) :: conts ++ split_byte LF body ∧ Forall continuation conts.
Proof.
  intros Hh Hts. revert h Hh. induction Hts as [|t ts Ht _ IH]; intros h Hh.
  { exists [], []. split; [|constructor]. exact (split_line h body Hh). }
  destruct (IH (9 :: t)) as (h' & conts & E & Hc); [constructor; [done|exact Ht]|].
  exists (bs ";"), (((9 :: t) ++ h' ++ [CR]) :: conts). split.
  - rewrite fmap_cons. cbn [concat]. rewrite <-!app_assoc. unfold FOLD at 1. rewrite <-!app_assoc.
    rewrite (app_assoc h (bs ";")), split_line by auto with lines.
    rewrite <-app_assoc. cbn [app]. f_equal. exact E.
  - constructor; [by eexists|done].
Qed.

(** ** The stamp *)

(** The bytes [accept_inbound] puts before the message. *)
Definition stamp (helo : bytes) (ip : IpAddr) (host : bytes) (tls : bool) (id now : Z) (auth_results raw : bytes)
  : bytes :=
  build_received helo ip host tls id now ++ prepend_header (bs "Authentication-Results") auth_results raw.

Lemma no_lf_keyword r : no_lf (keyword r).
Proof. destruct r; unfold keyword; auto with lines. Qed.
#[global] Hint Resolve no_lf_keyword : lines.

Lemma no_lf_method_texts r : Forall no_lf (method_texts r).
Proof.
  repeat apply Forall_app_2.
  - apply Forall_fmap, Forall_true. intros d. change (no_lf (dkim_method_text d)). unfold dkim_method_text.
    destruct (rd_selector d); auto 10 with lines.
  - destruct (ar_spf r) as [s|]; [apply Forall_singleton|constructor]. unfold spf_method_text.
    destruct (rs_identity s); unfold identity_property; auto 10 with lines.
  - destruct (ar_dmarc r); [apply Forall_singleton|constructor]. unfold dmarc_method_text. auto 10 with lines.
  - destruct (ar_arc r); [apply Forall_singleton|constructor]. unfold arc_method_text. auto with lines.
Qed.

(** A header value with a method is folded text. *)
Lemma header_value_folded r id :
  ar_spf r ≠ None → to_header_value r id = id ++ concat ((λ t, FOLD ++ t) <$> method_texts r).
Proof.
  intros H. unfold to_header_value. f_equal. destruct (method_texts r) eqn:E; [|done]. exfalso.
  unfold method_texts in E. apply app_eq_nil in E as [_ [E _]%app_eq_nil]. by destruct (ar_spf r).
Qed.

Lemma stamp_lines helo ip host tls id now spf dkim dmarc arc raw :
  no_lf helo → no_lf host →
  ∃ rl c1 al c2,
    split_byte LF (stamp helo ip host tls id now (synthesize_header host spf dkim dmarc arc) raw) =
      (bs "Received: from " ++ rl ++ [CR]) :: c1 ++
      (bs "Authentication-Results: " ++ al ++ [CR]) :: c2 ++ split_byte LF raw ∧
    Forall continuation c1 ∧ Forall continuation c2.
Proof.
  intros Hhelo Hhost. unfold stamp, build_received, prepend_header, synthesize_header.
  set (r := mkAuthResults _ _ _ _). rewrite (header_value_folded r) by done.
  set (a := helo ++ bs " [" ++ show_ip ip ++ bs "]").
  set (b := bs "by " ++ host ++ bs " (IRIXMAIL) with " ++ (if tls then bs "ESMTPS" else bs "ESMTP") ++
            bs " id " ++ fmt_hex_upper id ++ bs ";").
  set (d := show_date (from_timestamp (as_i64 now))).
  destruct (split_folded (bs "Authentication-Results" ++ bs ": " ++ host) (method_texts r) raw)
    as (h' & conts & E & Hc); [auto with lines|apply no_lf_method_texts|].
  exists a, [[9] ++ b ++ [CR]; [9] ++ d ++ [CR]], (host ++ h'), conts.
  split; [|split; [repeat constructor; by eexists|done]].
  transitivity (split_byte LF ((bs "Received: from " ++ a) ++ CRLF ++ ([9] ++ b) ++ CRLF ++ ([9] ++ d) ++ CRLF ++
    (bs "Authentication-Results" ++ bs ": " ++ host) ++ concat ((λ t, FOLD ++ t) <$> method_texts r) ++ CRLF ++ raw)).
  { f_equal. unfold a, b. by rewrite <-!app_assoc. }
  assert (no_lf [9]) by (by repeat constructor).
  rewrite !split_line, E.
  - by rewrite <-!app_assoc.
  - unfold d. auto with lines.
  - unfold b, fmt_hex_upper, fmt_hex. destruct tls; auto 20 with lines.
  - unfold a. auto 10 with lines.
Qed.

(** *** Counting the Received fields *)

Lemma strip_cr_cons b l : b ≠ CR → ∃ l', default (b :: l) (Text.strip_suffix [CR] (b :: l)) = b :: l'.
Proof.
  intros Hb. unfold Text.strip_suffix. case_match eqn:E; simpl; [|by eexists].
  destruct l as [|c l]; [|simpl; by eexists]. exfalso. unfold starts_with in E.
  apply bool_decide_eq_true in E as [k E]. cbn in E. congruence.
Qed.

Lemma received_lines_shift ls n m : received_lines ls (n + m) = (n + received_lines ls m)%nat.
Proof.
  revert m. induction ls as [|l ls IH]; intros m; simpl; [done|].
  destruct (default l _) as [|b l']; [done|]. case_match; [done|]. case_match; [|done].
  by rewrite <-Nat.add_succ_r, IH.
Qed.

Lemma received_lines_cont conts ls n :
  Forall continuation conts → received_lines (conts ++ ls) n = received_lines ls n.
Proof.
  induction 1 as [|c conts [t ->] _ IH]; [done|]. cbn [app received_lines].
  destruct (strip_cr_cons 9 t) as [l' ->]; [done|]. exact IH.
Qed.

Lemma received_lines_field b l ls n :
  b ≠ 32 → b ≠ 9 →
  received_lines ((b :: l ++ [CR]) :: ls) n =
  received_lines ls (if is_received_field (b :: l) then S n else n).
Proof.
  intros H1 H2. cbn [received_lines]. rewrite app_comm_cons, strip_suffix_app. cbn [default from_option id].
  by rewrite (proj2 (Z.eqb_neq _ _) H1), (proj2 (Z.eqb_neq _ _) H2).
Qed.

(** Stamping a message adds one to its count. *)
Lemma received_count_stamp helo ip host tls id now spf dkim dmarc arc raw :
  no_lf helo → no_lf host →
  received_count (stamp helo ip host tls id now (synthesize_header host spf dkim dmarc arc) raw) =
  S (received_count raw).
Proof.
  intros Hhelo Hhost. unfold received_count.
  destruct (stamp_lines helo ip host tls id now spf dkim dmarc arc raw) as (rl & c1 & al & c2 & -> & H1 & H2);
    [done..|].
  rewrite (received_lines_field 82 (bs "eceived: from " ++ rl)) by done.
  rewrite received_lines_cont by done.
  rewrite (received_lines_field 65 (bs "uthentication-Results: " ++ al)) by done.
  rewrite received_lines_cont by done. apply (received_lines_shift _ 1 0).
Qed.

(** One pass through the server, with everything that varies from hop to hop. *)
Record hop : Type := mkHop {
  hop_helo : bytes; hop_ip : IpAddr; hop_host : bytes; hop_tls : bool; hop_id : Z; hop_now : Z;
  hop_spf : SpfDecision; hop_dkim : DkimDecision; hop_dmarc : DmarcDecision; hop_arc : ArcDecision;
}.
Definition hop_clean (h : hop) : Prop := no_lf (hop_helo h) ∧ no_lf (hop_host h).
Definition pass (raw : bytes) (h : hop) : bytes :=
  stamp (hop_helo h) (hop_ip h) (hop_host h) (hop_tls h) (hop_id h) (hop_now h)
    (synthesize_header (hop_host h) (hop_spf h) (hop_dkim h) (hop_dmarc h) (hop_arc h)) raw.

Lemma received_count_passes hops raw :
  Forall hop_clean hops → received_count (foldl pass raw hops) = (length hops + received_count raw)%nat.
Proof.
  intros H. revert raw. induction H as [|h hops [Hh Ho] _ IH]; intros raw; [done|]. cbn [foldl length].
  rewrite IH. unfold pass. rewrite received_count_stamp by done. lia.
Qed.

(** The trace fields cannot be broken out of.  Whatever the client's
    greeting, the verified domains, the DKIM signature domains and the message
    are, as long as the greeting and the host name hold no line feed, the lines
    of the stamped message are one Received line, continuation lines, one
    Authentication-Results line, continuation lines, and then the lines of the
    message as it was received. *)
Theorem stamp_no_injection helo ip host tls id now spf dkim dmarc arc raw :
  no_lf helo → no_lf host →
  ∃ received c1 results c2,
    split_byte LF (build_received helo ip host tls id now ++
      prepend_header (bs "Authentication-Results") (synthesize_header host spf dkim dmarc arc) raw) =
      received :: c1 ++ results :: c2 ++ split_byte LF raw ∧
    starts_with received (bs "Received: from ") = true ∧
    starts_with results (bs "Authentication-Results: ") = true ∧
    Forall continuation (c1 ++ c2).
Proof.
  intros Hhelo Hhost.
  destruct (stamp_lines helo ip host tls id now spf dkim dmarc arc raw) as (rl & c1 & al & c2 & E & H1 & H2);
    [done..|].
  eexists _, c1, _, c2. split; [exact E|]. split_and!; [| |by apply Forall_app];
    apply bool_decide_eq_true; by eexists.
Qed.

(** Mail loops end.  Each pass through the server adds exactly one to the
    number of Received fields its loop detection counts, so a message that has
    come through more than fifty times is deferred, whatever it says and
    whoever sends it. *)
Theorem mail_loop_broken {W} `{MailAuth W} hops raw host ip helo from dnsbl (w : W) :
  Forall hop_clean hops →
  received_count (foldl pass raw hops) = (length hops + received_count raw)%nat ∧
  ((50 < length hops)%nat → (run_gauntlet host ip helo from (foldl pass raw hops) dnsbl w).1 = SpDefer LOOPING).
Proof.
  intros Hh. pose proof (received_count_passes hops raw Hh) as Hc. split; [done|]. intros Hlen.
  assert (loop_check (foldl pass raw hops) DEFAULT_MAX_RECEIVED = LoopReject LOOPING) as El.
  { unfold loop_check, DEFAULT_MAX_RECEIVED. rewrite Hc, (proj2 (Nat.ltb_lt _ _)) by lia. done. }
  unfold run_gauntlet. rewrite El. by destruct (auth_parse _).
Qed.

(** When a message is refused for good.  The gauntlet answers with a
    permanent refusal exactly when the message is not looping and either its
    sender is blocklisted, with the blocklist's reply, or its domain publishes
    the policy "reject", neither SPF nor DKIM passes in alignment and neither
    failed for a temporary reason. *)
Theorem reject_exact {W} `{MailAuth W} host ip helo from raw dnsbl (w : W) reply :
  (run_gauntlet host ip helo from raw dnsbl w).1 = SpReject reply ↔
  (received_count raw ≤ 50)%nat ∧
  ((∃ zone listing, dnsbl = DnsblReject zone listing reply) ∨
   (dnsbl = DnsblAllow ∧ reply = REJECTED ∧
    ∃ m, auth_parse raw = Some m ∧
      let message := demote_insecure m in
      let o := verify_dmarc message (verify_dkim message w) (default helo (inbound_domain_of from))
                 (verify_spf ip helo host from w) w in
      dmo_policy o = PolicyReject ∧
      (∀ r, r = dmo_spf o ∨ r = dmo_dkim o → r ≠ DmPass ∧ ∀ e, r ≠ DmTempError e))).
Proof.
  unfold run_gauntlet, loop_check, DEFAULT_MAX_RECEIVED, decide_spam, unevaluated_dmarc. simpl Nat.eqb. cbv iota.
  destruct (Nat.ltb_spec 50 (received_count raw)) as [Hr|Hr].
  { destruct (auth_parse raw); (split; [done|intros [? _]; lia]). }
  destruct (auth_parse raw) as [m|]; simpl; (destruct dnsbl as [|zone listing rep]; simpl;
    [|split; [intros [= ->]; split; [done|left; by eexists _, _]|
              intros [_ [(? & ? & E)|[? _]]]; [by injection E as <- <- <-|done]]]).
  - set (o := verify_dmarc _ _ _ _ _).
    split.
    + intros E. split; [done|]. right. split; [done|].
      destruct (dmo_policy o) eqn:Ep, (dmo_spf o) eqn:Es, (dmo_dkim o) eqn:Ed; simplify_eq/=;
        (split; [done|]); exists m; split_and!; try done; intros r; fold o; rewrite Es, Ed; naive_solver.
    + intros (_ & [(? & ? & ?)|(_ & -> & m' & [= <-] & Hp & Hall)]); [done|]. fold o in Hp, Hall.
      rewrite Hp. destruct (Hall _ (or_introl eq_refl)) as [? ?], (Hall _ (or_intror eq_refl)) as [? ?].
      destruct (dmo_spf o) eqn:Es, (dmo_dkim o) eqn:Ed; naive_solver.
  - split; [done|]. intros (_ & [(? & ? & ?)|(_ & _ & m' & ? & _)]); done.
Qed.

(** ** A library in memory *)

Module VerdictDemo.
(** A message parses when it is not empty; every domain publishes "reject" and
    nothing passes. *)
#[global] Instance strict_auth : MailAuth unit := {|
  auth_parse raw := match raw with [] => None | _ => Some (mkAuthMessage [] [] raw) end;
  verify_spf _ helo _ _ _ := mkSpfOutput helo SpfFail;
  verify_dkim _ _ := [mkDkimOutput (Some (bs "evil" ++ CRLF ++ bs "X: y")) (DkFail [])];
  verify_arc _ _ := mkArcOutput DkNone 0;
  verify_dmarc _ _ d _ _ := mkDmarcOutput d PolicyReject (DmFail []) DmNone;
  check_ip _ _ _ := Ok None;
|}.

Definition local : IpAddr := V4 [127; 0; 0; 1].
Definition one_hop : hop :=
  mkHop (bs "client") local (bs "mx") false 7 7 (mkSpf (bs "d") SpfPass) [] unevaluated_dmarc (mkArc VNone 0).
End VerdictDemo.

Lemma stamp_no_injection_witness :
  no_lf (bs "client") ∧
  ∃ received c1 results c2,
    split_byte LF (build_received (bs "client") VerdictDemo.local (bs "mx") true 7 7 ++
      prepend_header (bs "Authentication-Results")
        (synthesize_header (bs "mx") (mkSpf (bs "a" ++ CRLF ++ bs "b") SpfPass) [] unevaluated_dmarc (mkArc VPass 1))
        (line "Subject: x")) =
      received :: c1 ++ results :: c2 ++ split_byte LF (line "Subject: x") ∧
    starts_with received (bs "Received: from ") = true.
Proof.
  assert (no_lf (bs "client")) as H by (by apply (bool_decide_unpack _)). split; [exact H|].
  destruct (stamp_no_injection (bs "client") VerdictDemo.local (bs "mx") true 7 7
    (mkSpf (bs "a" ++ CRLF ++ bs "b") SpfPass) [] unevaluated_dmarc (mkArc VPass 1) (line "Subject: x"))
    as (r & c1 & a & c2 & E & Hr & _); [exact H|by apply (bool_decide_unpack _)|].
  exists r, c1, a, c2. split; [exact E|exact Hr].
Defined.

Lemma mail_loop_broken_witness :
  let hops := replicate 51 VerdictDemo.one_hop in
  (run_gauntlet (bs "mx") VerdictDemo.local (bs "h") (bs "a@b")
     (foldl pass (line "Subject: x") hops) DnsblAllow tt).1 = SpDefer LOOPING.
Proof.
  apply (mail_loop_broken (W := unit) (replicate 51 VerdictDemo.one_hop)).
  - apply Forall_replicate. split; by apply (bool_decide_unpack _).
  - vm_compute. lia.
Defined.
