(* ===== verification/SmtpCommands.v ===== *)
(** * The SMTP commands (crates/smtp/src: parser.rs, cmd_*.rs, sub_auth.rs, sub_from.rs)

    The reply each command gets and the small state machines it drives: the
    body and chunk receivers and the SASL exchange.  Reading a command line and
    writing the EHLO response are smtp_proto's, base64 is the base64 crate's;
    they are the interface [SmtpProto]. *)

From S2P Require Import Prelude Bytes Text.
From stdpp Require Import base list strings.
From Stdlib Require Import ZArith Lia.

Open Scope Z_scope.

(** ** smtp_proto *)

Record MailFrom : Type := mkMailFrom { mf_address : bytes; mf_flags : Z; mf_size : Z }.

(** [smtp_proto::Request], with the requests the server does not serve as
    [ROther]. *)
Inductive Request : Type :=
  | REhlo (host : bytes)
  | RHelo (host : bytes)
  | RMail (from : MailFrom)
  | RRcpt (address : bytes)
  | RData
  | RBdat (chunk_size : Z) (is_last : bool)
  | RStartTls
  | RAuth (mechanism : Z) (initial_response : bytes)
  | RRset
  | RNoop (value : bytes)
  | RQuit
  | ROther.

Inductive ProtoError : Type :=
  | NeedsMoreData | PUnknownCommand | InvalidSenderAddress | InvalidRecipientAddress
  | SyntaxError (syntax : bytes) | PInvalidParameter (param : bytes)
  | PUnsupportedParameter (param : bytes) | ResponseTooLong | InvalidResponse.

(** [EhloResponse]. *)
Record EhloResponse : Type := mkEhlo {
  ehlo_hostname : bytes; ehlo_capabilities : Z; ehlo_auth_mechanisms : Z; ehlo_size : Z }.

Class SmtpProto : Type := {
  parse_request : bytes → ProtoError + Request;
  AUTH_PLAIN : Z; AUTH_LOGIN : Z;
  MAIL_BODY_8BITMIME : Z; MAIL_SMTPUTF8 : Z;
  EXT_ENHANCED_STATUS_CODES : Z; EXT_8BIT_MIME : Z; EXT_SMTP_UTF8 : Z; EXT_PIPELINING : Z;
  EXT_CHUNKING : Z; EXT_START_TLS : Z; EXT_AUTH : Z; EXT_SIZE : Z;
  write_ehlo : EhloResponse → bytes;
  base64_decode : bytes → option bytes;
}.

(** ** parser.rs *)

Record MailParams : Type := mkMailParams {
  mp_address : bytes; mp_size : Z; mp_body_8bitmime : bool; mp_smtputf8 : bool }.
Definition RcptParams : Type := bytes.
Inductive AuthMechanism : Type := AmPlain | AmLogin | AmUnsupported.

Inductive Command : Type :=
  | CEhlo (host : bytes)
  | CHelo (host : bytes)
  | CMail (from : MailParams)
  | CRcpt (to : RcptParams)
  | CData
  | CBdat (chunk_size : Z) (is_last : bool)
  | CStartTls
  | CAuth (mechanism : AuthMechanism) (initial_response : bytes)
  | CRset
  | CNoop
  | CQuit.

Inductive ParseError : Type :=
  | Incomplete | UnknownCommand | Unsupported | InvalidSender | InvalidRecipient
  | Syntax (syntax : bytes) | InvalidParameter (param : bytes) | UnsupportedParameter (param : bytes).

(** [map_proto_error]. *)
Definition map_proto_error (e : ProtoError) : ParseError :=
  match e with
  | NeedsMoreData => Incomplete
  | PUnknownCommand => UnknownCommand
  | InvalidSenderAddress => InvalidSender
  | InvalidRecipientAddress => InvalidRecipient
  | SyntaxError syntax => Syntax syntax
  | PInvalidParameter param => InvalidParameter param
  | PUnsupportedParameter param => UnsupportedParameter param
  | ResponseTooLong | InvalidResponse => Syntax (bs "command")
  end.

(** ** Replies *)

Module Auth.
Definition ENCRYPTION_REQUIRED : bytes := line "530 5.7.0 Must issue a STARTTLS command first".
Definition ALREADY_AUTHENTICATED : bytes := line "503 5.5.1 Already authenticated".
Definition UNSUPPORTED_MECHANISM : bytes := line "504 5.5.4 Unsupported authentication mechanism".
Definition INVALID_CHALLENGE : bytes := line "501 5.5.2 Invalid authentication challenge".
Definition CREDENTIALS_INVALID : bytes := line "535 5.7.8 Authentication credentials invalid".
Definition SUCCESS : bytes := line "235 2.7.0 Authentication successful".
Definition TOO_MANY_ATTEMPTS : bytes := line "454 4.7.0 Too many failed authentication attempts".
Definition CHALLENGE_USERNAME : bytes := line "334 VXNlcm5hbWU6".
Definition CHALLENGE_PASSWORD : bytes := line "334 UGFzc3dvcmQ6".
Definition CHALLENGE_EMPTY : bytes := line "334 ".
End Auth.

Record Credentials : Type := mkCredentials { authcid : bytes; password : bytes }.

Inductive SaslStep : Type :=
  | Challenge (reply : bytes)
  | Resolved (c : Credentials)
  | SaslReply (reply : bytes).

(** [State] and [SaslExchange]. *)
Inductive SaslExchange : Type :=
  | PlainAwaitingResponse
  | LoginAwaitingUsername
  | LoginAwaitingPassword (username : bytes).

Inductive SaslStart : Type :=
  | StartReply (reply : bytes)
  | StartContinue (exchange : SaslExchange) (step : SaslStep).

(** [String::from_utf8(..).ok()]. *)
Definition from_utf8 (s : bytes) : option bytes := if utf8_valid s then Some s else None.

(** [decode_plain]: authzid, authcid and password separated by NUL. *)
Definition decode_plain (payload : bytes) : option Credentials :=
  '(_authzid, rest) ← split_once 0 payload;
  '(cid, pass) ← split_once 0 rest;
  if bool_decide (0 ∈ pass) then None
  else cid ← from_utf8 cid; pass ← from_utf8 pass; Some (mkCredentials cid pass).

(** *** MAIL *)

Module Mail.
Definition NEED_GREETING : bytes := line "503 5.5.1 Send EHLO/HELO first".
Definition NESTED_MAIL : bytes := line "503 5.5.1 Sender already given".
Definition TOO_LARGE : bytes := line "552 5.3.4 Message size exceeds the fixed limit".
Definition ACCEPTED : bytes := line "250 2.1.0 Sender OK".
End Mail.

Record ReversePath : Type := mkReversePath { rp_address : bytes; rp_smtputf8 : bool }.
Inductive MailOutcome : Type :=
  | MailReject (reply : bytes)
  | MailAccept (path : ReversePath) (reply : bytes).

Definition mail_reply (params : MailParams) (greeted sender_pending : bool) (max_message_size : Z)
  : MailOutcome :=
  if negb greeted then MailReject Mail.NEED_GREETING
  else if sender_pending then MailReject Mail.NESTED_MAIL
  else if (0 <? mp_size params) && (0 <? max_message_size) && (max_message_size <? mp_size params)
  then MailReject Mail.TOO_LARGE
  else MailAccept (mkReversePath (mp_address params) (mp_smtputf8 params)) Mail.ACCEPTED.

(** *** RCPT *)

Module Rcpt.
Definition NEED_MAIL : bytes := line "503 5.5.1 Send MAIL before RCPT".
Definition TOO_MANY : bytes := line "452 4.5.3 Too many recipients".
Definition NO_MAILBOX : bytes := line "550 5.1.1 Mailbox does not exist".
Definition RELAY_DENIED : bytes := line "550 5.7.1 Relaying not allowed".
Definition ACCEPTED : bytes := line "250 2.1.5 Recipient OK".
End Rcpt.

Definition DEFAULT_MAX_RECIPIENTS : nat := 100.

Inductive Recipient : Type := Local | LocalUnknown | Remote.
Inductive RcptOutcome : Type :=
  | RcptReject (reply : bytes)
  | RcptAccept (path : bytes) (reply : bytes).

Definition rcpt_reply (params : RcptParams) (sender_pending : bool) (recipient : Recipient)
    (authenticated : bool) (accepted_count max_recipients : nat) : RcptOutcome :=
  if negb sender_pending then RcptReject Rcpt.NEED_MAIL
  else if (0 <? max_recipients)%nat && (max_recipients <=? accepted_count)%nat
  then RcptReject Rcpt.TOO_MANY
  else match recipient with
       | Local => RcptAccept params Rcpt.ACCEPTED
       | LocalUnknown => RcptReject Rcpt.NO_MAILBOX
       | Remote =>
           if authenticated then RcptAccept params Rcpt.ACCEPTED else RcptReject Rcpt.RELAY_DENIED
       end.

(** *** DATA *)

Module Data.
Definition NEED_RCPT : bytes := line "503 5.5.1 Need RCPT before DATA".
Definition READY : bytes := line "354 Start mail input; end with <CRLF>.<CRLF>".
Definition TOO_LARGE : bytes := line "552 5.3.4 Message size exceeds the fixed limit".
Definition ACCEPTED : bytes := line "250 2.0.0 Message accepted".
Definition MAILBOX_FULL : bytes := line "452 4.2.2 Mailbox full, try again later".
End Data.

Inductive DataOutcome : Type := DataReject (reply : bytes) | DataReady (reply : bytes).
Definition data_reply (has_recipient : bool) : DataOutcome :=
  if has_recipient then DataReady Data.READY else DataReject Data.NEED_RCPT.

Inductive BodyStep : Type := BodyContinue | BodyComplete | BodyTooLarge.
Record BodyReceiver : Type := mkBody { body : bytes; body_max : Z }.

(** [BodyReceiver::push_line]: the line without its end. *)
Definition push_line (r : BodyReceiver) (l : bytes) : BodyStep * BodyReceiver :=
  if bool_decide (l = [46]) then (BodyComplete, r)
  else
    let content := match l with 46 :: rest => rest | _ => l end in
    if (0 <? body_max r) && (body_max r <? Z.of_nat (length (body r)) + Z.of_nat (length content) + 2)
    then (BodyTooLarge, r)
    else (BodyContinue, mkBody (body r ++ content ++ CRLF) (body_max r)).

(** *** BDAT *)

Module Bdat.
Definition NEED_RCPT : bytes := line "503 5.5.1 Need RCPT before BDAT".
Definition TOO_LARGE : bytes := line "552 5.3.4 Message size exceeds the fixed limit".
Definition CHUNK_OK : bytes := line "250 2.6.0 Chunk accepted".
End Bdat.

Inductive BdatOutcome : Type :=
  | BdatReject (reply : bytes)
  | BdatTooLarge (reply : bytes)
  | BdatReceive (chunk_size : Z) (is_last : bool).

(** [bdat_reply]; sizes are [usize], 64 bits wide. *)
Definition bdat_reply (has_recipient : bool) (chunk_size accumulated max_size : Z) (is_last : bool)
  : BdatOutcome :=
  if negb has_recipient then BdatReject Bdat.NEED_RCPT
  else if (0 <? max_size) && (max_size <? saturating_add_u64 accumulated chunk_size)
  then BdatTooLarge Bdat.TOO_LARGE
  else BdatReceive chunk_size is_last.

Inductive ChunkStep : Type := ChunkAccepted | ChunkComplete | ChunkTooLarge.
Record ChunkReceiver : Type := mkChunks { message : bytes; chunk_max : Z }.

(** [ChunkReceiver::push_chunk]. *)
Definition push_chunk (r : ChunkReceiver) (chunk : bytes) (is_last : bool) : ChunkStep * ChunkReceiver :=
  if (0 <? chunk_max r) && (chunk_max r <? Z.of_nat (length (message r)) + Z.of_nat (length chunk))
  then (ChunkTooLarge, r)
  else (if is_last then ChunkComplete else ChunkAccepted, mkChunks (message r ++ chunk) (chunk_max r)).

Inductive ChunkDisposal : Type := Drain (count : Z) | CloseChunk.
Definition chunk_disposal (chunk_size max_size : Z) : ChunkDisposal :=
  if (0 <? max_size) && (max_size <? chunk_size) then CloseChunk else Drain chunk_size.

(** *** The remaining replies *)

Definition noop_reply : bytes := line "250 2.0.0 OK".
Definition rset_reply : bytes := line "250 2.0.0 Reset OK".
Definition quit_reply : bytes := line "221 2.0.0 Bye".

Inductive StartTlsReply : Type := TlsReady | AlreadySecure | NotAvailable.
Definition starttls_bytes (r : StartTlsReply) : bytes :=
  match r with
  | TlsReady => line "220 2.0.0 Ready to start TLS"
  | AlreadySecure => line "503 5.5.1 TLS already active"
  | NotAvailable => line "454 4.7.0 TLS not available"
  end.
Definition upgrades (r : StartTlsReply) : bool := match r with TlsReady => true | _ => false end.
Definition starttls_reply (is_tls has_acceptor : bool) : StartTlsReply :=
  if is_tls then AlreadySecure else if negb has_acceptor then NotAvailable else TlsReady.

(** [guard_submission] and [guard_from]. *)
Definition AUTH_REQUIRED : bytes := line "530 5.7.0 Authentication required".
Inductive SubmissionGate : Type := GateProceed | GateReject (reply : bytes).
Definition guard_submission (authenticated : bool) : SubmissionGate :=
  if authenticated then GateProceed else GateReject AUTH_REQUIRED.

Definition FROM_NOT_OWNED : bytes :=
  line "550 5.7.1 Sender address not owned by the authenticated account".
Inductive OwnershipGate : Type := OwnProceed | OwnReject (reply : bytes).
Definition guard_from (declared : bytes) (owned : list bytes) : OwnershipGate :=
  match declared with
  | [] => OwnProceed
  | _ => if existsb (λ a, eq_ignore_ascii_case a declared) owned then OwnProceed
         else OwnReject FROM_NOT_OWNED
  end.

(** ** What calls the libraries *)

Section proto.
Context `{SmtpProto}.

(** [auth_mechanism] and [parse_command]. *)
Definition auth_mechanism (mechanism : Z) : AuthMechanism :=
  if mechanism =? AUTH_PLAIN then AmPlain
  else if mechanism =? AUTH_LOGIN then AmLogin
  else AmUnsupported.

Definition parse_command (l : bytes) : ParseError + Command :=
  match parse_request l with
  | inl e => inl (map_proto_error e)
  | inr (REhlo host) => inr (CEhlo host)
  | inr (RHelo host) => inr (CHelo host)
  | inr (RMail from) =>
      inr (CMail (mkMailParams (mf_address from) (mf_size from)
                    (negb (Z.land (mf_flags from) MAIL_BODY_8BITMIME =? 0))
                    (negb (Z.land (mf_flags from) MAIL_SMTPUTF8 =? 0))))
  | inr (RRcpt address) => inr (CRcpt address)
  | inr RData => inr CData
  | inr (RBdat chunk_size is_last) => inr (CBdat chunk_size is_last)
  | inr RStartTls => inr CStartTls
  | inr (RAuth mechanism initial_response) => inr (CAuth (auth_mechanism mechanism) initial_response)
  | inr RRset => inr CRset
  | inr (RNoop _) => inr CNoop
  | inr RQuit => inr CQuit
  | inr ROther => inl Unsupported
  end.

(** [SaslExchange::advance]: [mem::replace] leaves the exchange waiting for a
    plain response unless the branch sets another state. *)
Definition advance (exchange : SaslExchange) (response : bytes) : SaslStep * SaslExchange :=
  match base64_decode (str_trim response) with
  | None => (SaslReply Auth.INVALID_CHALLENGE, exchange)
  | Some decoded =>
      match exchange with
      | PlainAwaitingResponse =>
          match decode_plain decoded with
          | Some c => (Resolved c, PlainAwaitingResponse)
          | None => (SaslReply Auth.INVALID_CHALLENGE, PlainAwaitingResponse)
          end
      | LoginAwaitingUsername =>
          match from_utf8 decoded with
          | Some username => (Challenge Auth.CHALLENGE_PASSWORD, LoginAwaitingPassword username)
          | None => (SaslReply Auth.INVALID_CHALLENGE, PlainAwaitingResponse)
          end
      | LoginAwaitingPassword username =>
          match from_utf8 decoded with
          | Some pass => (Resolved (mkCredentials username pass), PlainAwaitingResponse)
          | None => (SaslReply Auth.INVALID_CHALLENGE, PlainAwaitingResponse)
          end
      end
  end.

(** [SaslExchange::begin]. *)
Definition begin_sasl (mechanism : AuthMechanism) (is_tls authenticated : bool) (initial_response : bytes)
  : SaslStart :=
  if authenticated then StartReply Auth.ALREADY_AUTHENTICATED
  else if negb is_tls then StartReply Auth.ENCRYPTION_REQUIRED
  else
    let start exchange challenge :=
      match initial_response with
      | [] => StartContinue exchange (Challenge challenge)
      | _ => let '(step, exchange) := advance exchange initial_response in StartContinue exchange step
      end in
    match mechanism with
    | AmPlain => start PlainAwaitingResponse Auth.CHALLENGE_EMPTY
    | AmLogin => start LoginAwaitingUsername Auth.CHALLENGE_USERNAME
    | AmUnsupported => StartReply Auth.UNSUPPORTED_MECHANISM
    end.

(** [ehlo_response]. *)
Definition DEFAULT_MAX_MESSAGE_SIZE : Z := 25 * 1024 * 1024.
Record EhloContext : Type := mkEhloContext {
  ctx_hostname : bytes; ctx_max_message_size : Z; ctx_is_tls : bool; ctx_authenticated : bool }.
Definition ehlo_capability (ctx : EhloContext) : EhloResponse :=
  let base := Z.lor EXT_ENHANCED_STATUS_CODES (Z.lor EXT_8BIT_MIME (Z.lor EXT_SMTP_UTF8
                (Z.lor EXT_PIPELINING EXT_CHUNKING))) in
  let c1 := if negb (ctx_is_tls ctx) then Z.lor base EXT_START_TLS else base in
  let auth := ctx_is_tls ctx && negb (ctx_authenticated ctx) in
  let c2 := if auth then Z.lor c1 EXT_AUTH else c1 in
  let sized := 0 <? ctx_max_message_size ctx in
  mkEhlo (ctx_hostname ctx) (if sized then Z.lor c2 EXT_SIZE else c2)
    (if auth then Z.lor AUTH_PLAIN AUTH_LOGIN else 0) (if sized then ctx_max_message_size ctx else 0).
Definition ehlo_response (ctx : EhloContext) : bytes := write_ehlo (ehlo_capability ctx).
End proto.

Definition helo_response (hostname : bytes) : bytes := bs "250 " ++ hostname ++ line " at your service".
