(* ===== verification/SmtpSubmit.v ===== *)
(** * Submitted and delivered mail on its way to the queue
    (crates/smtp/src: sub_headers.rs, sub_enqueue.rs, deliver_hook.rs)

    The header fields a submission is completed with, and the copies the
    inbound side queues: forwards, relays from filters and over-quota bounces.
    The queue is an interface here ([QueueWorld]); the theorem about
    submissions is proved against its promise, and the store-backed queue
    keeps that promise. *)

From S2P Require Import Prelude Bytes Key Store Text Ttl Blobs QueueModel Dsn QueueStore QueueDeliver SmtpVerdict.
From stdpp Require Import base gmap list strings.
From Stdlib Require Import ZArith Lia.

Open Scope Z_scope.

(** ** Header completion (sub_headers.rs) *)

(** [from_domain], on the parsed message. *)
Fixpoint first_domain (from : list bytes) : option bytes :=
  match from with
  | [] => None
  | a :: from =>
      match rsplit_once 64 a with
      | Some (_, ((_ :: _) as d)) => Some d
      | _ => first_domain from
      end
  end.
Definition from_domain {W} `{MailAuth W} (raw : bytes) : option bytes :=
  m ← auth_parse raw; first_domain (am_from m).

Definition BLANK : bytes := CRLF ++ CRLF.

(** [header_block]: up to and including the line break before the blank line. *)
Definition header_block (raw : bytes) : bytes :=
  match find_sub BLANK raw with
  | Some end_ => take (end_ + 2) raw
  | None => raw
  end.

Definition line_is_field (name l : bytes) : bool :=
  let l := default l (Text.strip_suffix [CR] l) in
  match l with
  | b :: _ =>
      if (b =? 32) || (b =? 9) then false
      else (length name <? length l)%nat && (nth (length name) l 0 =? 58) &&
           eq_ignore_ascii_case (take (length name) l) name
  | [] => false
  end.

(** [has_field]. *)
Definition has_field (block name_lower : bytes) : bool :=
  existsb (line_is_field name_lower) (split_byte LF block).

(** [message_id]. *)
Definition message_id (raw host : bytes) (now : Z) : bytes :=
  let acc := foldl (λ acc b, as_u64 (as_u64 (acc * 31) + b)) now raw in
  bs "<" ++ fmt_hex now ++ bs "." ++ fmt_hex_pad 16 acc ++ bs "@" ++ host ++ bs ">".

(** [complete_headers]. *)
Definition missing_fields (raw host : bytes) (now : Z) : list bytes :=
  let block := header_block raw in
  (if has_field block (bs "date") then []
   else [bs "Date: " ++ show_date (from_timestamp (as_i64 now))]) ++
  (if has_field block (bs "message-id") then [] else [bs "Message-ID: " ++ message_id raw host now]) ++
  (if has_field block (bs "mime-version") then [] else [bs "MIME-Version: 1.0"]).
Definition complete_headers (raw host : bytes) (now : Z) : bytes :=
  concat ((λ l, l ++ CRLF) <$> missing_fields raw host now) ++ raw.

(** ** The queue as the session sees it *)

Class QueueWorld (W : Type) : Type := {
  queue_message : bytes → Enqueue → M W Enqueued;
  now_seconds : W → Z;
  add_counter : bytes → Z → M W Z;
}.

(** What a queue promises: in a state it can serve, an accepted message is in
    the queue with the request's envelope and exactly the bytes given. *)
Class QueuePromise (W : Type) `{QueueWorld W} : Type := {
  can_queue : W → Prop;
  queued_as : W → Z → QueuedMessage → bytes → Prop;
  queue_message_promise raw request w e w' :
    can_queue w → queue_message raw request w = (Ok e, w') →
    queued_as w' (enq_id e) (enq_message e) raw ∧
    return_path (enq_message e) = enq_return_path request ∧
    (address <$> recipients (enq_message e)) = (enq_recipients request).*1;
}.

Definition RELAY_MAX_ATTEMPTS : Z := 25.
Definition INBOUND_SUFFIX : Z := 105.
Definition OVER_QUOTA_REASON : bytes := bs "552 5.2.2 Mailbox full".

Record Relay : Type := mkRelay { relay_mail_from : bytes; relay_rcpt_to : bytes; relay_message : bytes }.
(** [DeliveryOutcome], as far as the hooks read it. *)
Record DeliveryOutcome : Type := mkOutcome {
  relays : list Relay; discarded : bool; over_quota : bool }.

Section hooks.
Context {W : Type} `{QueueWorld W}.

(** A queueing whose failure is only logged. *)
Definition queue_quietly (raw : bytes) (request : Enqueue) (w : W) : W := (queue_message raw request w).2.

(** [enqueue_submission_at]. *)
Definition submission_request (return_path : bytes) (rcpts : list bytes) (now : Z) : Enqueue :=
  let expiry := At (saturating_add_u64 now DEFAULT_MAX_AGE) in
  mkEnqueue now return_path ((λ a, (a, expiry)) <$> rcpts) now.
Definition enqueue_submission (signed return_path : bytes) (rcpts : list bytes) : M W Enqueued := λ w,
  queue_message signed (submission_request return_path rcpts (now_seconds w)) w.

(** [enqueue_forward]. *)
Definition forward_request (mail_from destination : bytes) (now : Z) : Enqueue :=
  mkEnqueue now mail_from [(destination, Attempts RELAY_MAX_ATTEMPTS)] now.
Definition enqueue_forward (mail_from destination raw : bytes) (now : Z) : M W unit :=
  _ ← queue_message raw (forward_request mail_from destination now); mret tt.

(** [enqueue_relays]. *)
Definition enqueue_relays (deliveries : list DeliveryOutcome) (w : W) : W :=
  let now := now_seconds w in
  foldl (λ w r, queue_quietly (relay_message r) (forward_request (relay_mail_from r) (relay_rcpt_to r) now) w)
    w (deliveries ≫= relays).

(** [bounce_over_quota]. *)
Definition over_quota_recipients (rcpts : list bytes) (deliveries : list DeliveryOutcome) (now : Z)
  : list QueueRecipient :=
  (λ ad : bytes * DeliveryOutcome,
     let r := rcpt_new ad.1 now (Attempts 1) in
     mkRcpt (address r) (Bounced OVER_QUOTA_REASON) (retry r) (notify r) (expiry r)) <$>
  filter (λ ad, over_quota ad.2 = true) (zip rcpts deliveries).
Definition bounce_over_quota (hostname : option bytes) (rcpts : list bytes)
    (deliveries : list DeliveryOutcome) (mail_from raw : bytes) (now : Z) (w : W) : W :=
  match mail_from with
  | [] => w
  | _ =>
      match over_quota_recipients rcpts deliveries now with
      | [] => w
      | bounced =>
          let report := mkMessage now [] (Z.of_nat (length raw)) mail_from bounced in
          match build_dsn report (default REPORTING_MTA hostname) raw now with
          | None => w
          | Some dsn =>
              queue_quietly dsn
                (mkEnqueue now [] [(mail_from, At (saturating_add_u64 now DEFAULT_MAX_AGE))] now) w
          end
      end
  end.

(** [record_inbound]: the daily counter of messages taken in. *)
Definition daily_inbound_key (d : Z) : bytes :=
  key_encode (with_suffix (key_new Counter 0 Email d) [INBOUND_SUFFIX]).
Definition record_inbound (now : Z) : M W Z := add_counter (daily_inbound_key (day_number now)) 1.
End hooks.

(** ** Completed headers *)

(** A line that may stand in a header: no line feed, and it does not start
    with a carriage return. *)
Definition header_line (l : bytes) : Prop := no_lf l ∧ match l with b :: _ => b ≠ CR | [] => False end.
Definition header_lines (ls : list bytes) : bytes := concat ((λ l, l ++ CRLF) <$> ls).

Lemma starts_with_cons k p x y : starts_with (x :: k) (y :: p) = bool_decide (x = y) && starts_with k p.
Proof.
  unfold starts_with. destruct (decide (x = y)) as [->|Hne].
  - rewrite (bool_decide_true (y = y)) by done. simpl. apply bool_decide_ext. split.
    + apply prefix_cons_inv_2.
    + apply prefix_cons.
  - rewrite (bool_decide_false (x = y)) by done. apply bool_decide_eq_false. intros [r E]. by injection E.
Qed.

(** The blank line is not inside a line, nor at its end unless one follows. *)
Lemma find_blank_line l r :
  no_lf l → starts_with r CRLF = false →
  find_sub BLANK (l ++ CRLF ++ r) = (λ i, (length l + 2 + i)%nat) <$> find_sub BLANK r.
Proof.
  intros Hl Hr. induction Hl as [|b l Hb Hl IH].
  - cbn [app CRLF find_sub]. change BLANK with (CR :: LF :: CRLF) at 1 2.
    rewrite !starts_with_cons, Hr. change (bool_decide (LF = CR)) with false. rewrite andb_false_r. cbn [andb].
    by destruct (find_sub BLANK r).
  - cbn [app find_sub]. change BLANK with (CR :: LF :: CRLF) at 1.
    assert (starts_with (b :: l ++ CRLF ++ r) (CR :: LF :: CRLF) = false) as ->.
    { rewrite starts_with_cons. destruct Hl as [|c l Hc _]; cbn [app CRLF]; rewrite starts_with_cons.
      - by rewrite andb_false_r.
      - by rewrite (bool_decide_false (c = LF)), andb_false_r by done. }
    rewrite IH. by destruct (find_sub BLANK r).
Qed.

Lemma starts_with_header_line l r : header_line l → starts_with (l ++ CRLF ++ r) CRLF = false.
Proof.
  intros [_ H]. destruct l as [|b l]; [done|]. cbn [app]. unfold CRLF at 2. rewrite starts_with_cons.
  by rewrite bool_decide_false.
Qed.

(** Lines put before a message become part of its header. *)
Lemma header_block_lines ls raw :
  Forall header_line ls → starts_with raw CRLF = false →
  header_block (header_lines ls ++ raw) = header_lines ls ++ header_block raw.
Proof.
  intros Hls Hraw. induction Hls as [|l ls Hl Hls IH]; [done|].
  assert (starts_with (header_lines ls ++ raw) CRLF = false) as Hr.
  { destruct Hls as [|l' ls' Hl' _]; [done|]. unfold header_lines. rewrite fmap_cons. cbn [concat].
    rewrite <-!app_assoc. by apply starts_with_header_line. }
  change (header_lines (l :: ls)) with ((l ++ CRLF) ++ header_lines ls). rewrite <-!app_assoc, <-IH.
  unfold header_block. rewrite find_blank_line by (done || apply Hl).
  destruct (find_sub BLANK (header_lines ls ++ raw)) as [i|]; [|done]. cbn [fmap option_fmap option_map].
  rewrite app_assoc. replace (length l + 2 + i + 2)%nat with (length (l ++ CRLF) + (i + 2))%nat
    by (rewrite length_app; cbn; lia).
  by rewrite take_app_add, <-app_assoc.
Qed.

Lemma has_field_lines ls block name :
  Forall header_line ls →
  has_field (header_lines ls ++ block) name =
  existsb (λ l, line_is_field name (l ++ [CR])) ls || has_field block name.
Proof.
  induction 1 as [|l ls [Hl _] _ IH]; [done|].
  change (header_lines (l :: ls)) with ((l ++ CRLF) ++ header_lines ls). rewrite <-!app_assoc.
  unfold has_field in *. rewrite split_line by done. cbn [existsb]. by rewrite IH, orb_assoc.
Qed.

Lemma no_lf_message_id raw host now : no_lf host → no_lf (message_id raw host now).
Proof. intros H. unfold message_id, fmt_hex, fmt_hex_pad, fmt_hex. auto 20 with lines. Qed.

Lemma missing_fields_lines raw host now : no_lf host → Forall header_line (missing_fields raw host now).
Proof.
  intros H. pose proof (no_lf_message_id raw host now H). unfold missing_fields.
  repeat apply Forall_app_2; (case_match; [constructor|]); apply Forall_singleton;
    (split; [auto with lines|done]).
Qed.

Lemma complete_headers_fields raw host now f :
  no_lf host → starts_with raw CRLF = false → f ∈ [bs "date"; bs "message-id"; bs "mime-version"] →
  has_field (header_block (complete_headers raw host now)) f = true.
Proof.
  intros Hh Hr Hf. unfold complete_headers. fold (header_lines (missing_fields raw host now)).
  pose proof (missing_fields_lines raw host now Hh) as Hm.
  rewrite header_block_lines, has_field_lines by done.
  destruct (has_field (header_block raw) f) eqn:E; [by rewrite orb_true_r|]. rewrite orb_false_r.
  apply existsb_exists. unfold missing_fields.
  repeat (apply elem_of_cons in Hf as [->|Hf]); [| |  |by apply not_elem_of_nil in Hf]; rewrite E;
    (eexists; split; [rewrite !in_app_iff; cbn; eauto|]);
    unfold line_is_field; rewrite strip_suffix_app; reflexivity.
Qed.

(** Header completion is complete and settles.  For a message that does
    not begin with a blank line and a host name without line feeds, the
    completed submission is the message with header lines put in front, its
    header has Date, Message-ID and MIME-Version fields, and completing it
    again, with any host and clock, changes nothing. *)
Theorem complete_headers_settles raw host now host' now' :
  no_lf host → starts_with raw CRLF = false →
  let out := complete_headers raw host now in
  (∃ ls, Forall header_line ls ∧ out = header_lines ls ++ raw ∧
     header_block out = header_lines ls ++ header_block raw) ∧
  (∀ f, f ∈ [bs "date"; bs "message-id"; bs "mime-version"] → has_field (header_block out) f = true) ∧
  complete_headers out host' now' = out.
Proof.
  intros Hh Hr out. pose proof (missing_fields_lines raw host now Hh) as Hm.
  assert (∀ f, f ∈ [bs "date"; bs "message-id"; bs "mime-version"] → has_field (header_block out) f = true) as Hf
    by (intros f; by apply complete_headers_fields).
  split_and!; [|done|].
  - exists (missing_fields raw host now). split_and!; [done..|]. by apply header_block_lines.
  - unfold complete_headers at 1, missing_fields. rewrite !Hf by set_solver. done.
Qed.

Lemma complete_headers_settles_witness :
  let raw := line "Date: x" ++ line "Subject: y" ++ CRLF ++ bs "body" in
  no_lf (bs "mx") ∧
  complete_headers (complete_headers raw (bs "mx") 7) (bs "other") 9 = complete_headers raw (bs "mx") 7.
Proof.
  intros raw. assert (no_lf (bs "mx")) as H by (by apply (bool_decide_unpack _)). split; [exact H|].
  apply (complete_headers_settles raw (bs "mx") 7 (bs "other") 9 H). reflexivity.
Defined.

(** ** The store-backed queue keeps the promise *)

Section store_queue.
Context {S B : Type} {store : Store S} {contract : StoreSpec S}.
Context {blobs : BlobStore B} {bcontract : BlobSpec B} {codec : Codec} {laws : CodecLaws}.
Context (clock : Z).

Instance store_queue : QueueWorld (S * B) := {|
  queue_message raw request := enqueue raw request clock;
  now_seconds _ := clock;
  add_counter key delta := on_store (st_add_and_get key delta);
|}.

Definition store_can_queue (w : S * B) : Prop :=
  healthy w.1 ∧ bhealthy w.2 ∧ queue_wf (view w.1) ∧
  ∃ n, counter_value (view w.1 !! id_counter_key) = Some n ∧ 0 ≤ n < U32_MAX.
Definition store_queued_as (w : S * B) (id : Z) (m : QueuedMessage) (raw : bytes) : Prop :=
  load id w.1 = Ok (Some m) ∧ blob_get_all (blob_hash m) w.2 = Ok (Some raw).

Lemma store_queue_promise raw request w e w' :
  store_can_queue w → queue_message raw request w = (Ok e, w') →
  store_queued_as w' (enq_id e) (enq_message e) raw ∧
  return_path (enq_message e) = enq_return_path request ∧
  (address <$> recipients (enq_message e)) = (enq_recipients request).*1.
Proof.
  destruct w as [s b]. intros (Hs & Hb & Hwf & n & Hc & Hn) E. cbn [fst snd] in *.
  destruct (enqueue_spec raw request clock s b n) as (s' & b' & v & E' & Hs' & Hb' & Hd & Hv & Hbv); [done..|].
  change (enqueue raw request clock (s, b) = (Ok e, w')) in E. rewrite E' in E. injection E as <- <-.
  assert (is_u32 (n + 1)) by width. cbn [enq_id enq_message]. split_and!.
  - split; cbn [fst snd].
    + rewrite load_spec, Hv; [|done|]; [by erewrite queued_insert, decide_True by done|].
      rewrite Hv. eapply queue_wf_insert; [done..|]. by apply queue_wf_counter.
    + rewrite blob_get_all_spec, Hbv by done. simpl. by rewrite lookup_insert_eq.
  - done.
  - cbn [new_message recipients]. rewrite <-list_fmap_compose. by apply list_fmap_ext.
Qed.

Instance store_queue_keeps : QueuePromise (S * B) := {|
  can_queue := store_can_queue;
  queued_as := store_queued_as;
  queue_message_promise := store_queue_promise;
|}.
End store_queue.
