(* ===== verification/Vacation.v ===== *)
(** * Vacation replies (crates/mail/src/vacation.rs, crates/smtp/src/deliver_hook.rs)

    Who is answered while an account is away, the text of the answer, and the
    log of answers in the store.  The theorems: an account answers a sender at
    most once in the period, whatever mail arrives in which order; a bounce or
    another automatic reply is never answered; and nothing of the message that
    is answered can add a header to the reply.  A subject cut inside a
    character makes the responder panic, which is the result [None] of
    [derive_subject]. *)

From S2P Require Import Prelude Bytes Key Store Text Blobs MailParser Directory QueueModel QueueStore Dsn SmtpVerdict SmtpSubmit.
From stdpp Require Import base gmap list strings.
From Stdlib Require Import ZArith Lia.

Open Scope Z_scope.

(** ** The log of replies *)

Definition DEFAULT_PERIOD_SECONDS : Z := 7 * 24 * 60 * 60.
Definition TAG_VACATION_REPLY : Z := 41.
Definition reply_key (account_id : Z) (sender : bytes) : bytes :=
  [subspace_as_byte Registry; TAG_VACATION_REPLY] ++ u64_be account_id ++ to_ascii_lowercase (str_trim sender).

Section log.
Context {S : Type} `{Store S}.

Definition last_vacation_reply (account_id : Z) (sender : bytes) (s : S) : result (option Z) :=
  v ← st_get (reply_key account_id sender) s;
  match v with
  | Some b => if (length b =? 8)%nat then Ok (Some (of_be_bytes b)) else Err (Serialize "vacation reply timestamp is malformed")
  | None => Ok None
  end.
Definition record_vacation_reply (account_id : Z) (sender : bytes) (replied_at : Z) : M S unit :=
  st_put (reply_key account_id sender) (u64_be replied_at).
End log.

(** ** The decision *)

Record VacationConfig : Type := mkConfig {
  vc_enabled : bool; vc_start : option Z; vc_end : option Z; vc_period_seconds : Z; vc_subject : option bytes; vc_body : bytes }.
Inductive SuppressReason : Type :=
  Disabled | OutsideWindow | NoReturnPath | OwnAddress | AutomatedSender | AutomatedMessage | NotAddressed | RecentlyAnswered.
Record VacationReply : Type := mkReply { vr_to : bytes; vr_message : bytes; vr_sent_at : Z }.
Inductive VacationDecision : Type := Suppress (reason : SuppressReason) | Reply (reply : VacationReply).

Definition window_is_open (c : VacationConfig) (now : Z) : bool :=
  match vc_start c with Some start => start <=? now | None => true end
  && match vc_end c with Some end_ => now <? end_ | None => true end.

Definition looks_automated_sender (sender_lower : bytes) : bool :=
  starts_with sender_lower (bs "mailer-daemon") || starts_with sender_lower (bs "owner-")
  || bool_decide (is_Some (find_sub (bs "-request@") sender_lower)).

Section decision.
Context `{MailParser}.

Definition header_text (v : HeaderValue) : bytes := default [] (value_as_text v).
(** The library knows the names of mailing lists; two of them have variants of
    their own here. *)
Definition LIST_HEADERS : list bytes :=
  [bs "List-Archive"; bs "List-Help"; bs "List-Owner"; bs "List-Post"; bs "List-Subscribe"].
Definition header_is_automated (h : ParsedHeader) : bool :=
  match ph_name h with
  | PnStd HnListId | PnStd HnListUnsubscribe => true
  | PnListed name => bool_decide (name ∈ LIST_HEADERS)
  | PnOther name =>
      if eq_ignore_ascii_case name (bs "Auto-Submitted") then
        let value := str_trim (header_text (ph_value h)) in
        negb (bool_decide (value = [])) && negb (eq_ignore_ascii_case value (bs "no"))
      else if eq_ignore_ascii_case name (bs "Precedence") then
        eq_ignore_ascii_case (str_trim (header_text (ph_value h))) (bs "bulk")
      else if eq_ignore_ascii_case name (bs "X-Auto-Response-Suppress") then
        existsb (λ token, bool_decide (token = bs "all") || bool_decide (token = bs "oof"))
          (str_trim <$> split_byte 44 (to_ascii_lowercase (header_text (ph_value h))))
      else false
  | _ => false
  end.
Definition message_is_automated (m : Message) : bool := existsb header_is_automated (msg_headers m).

Definition address_contains (l : list Addr) (wanted : bytes) : bool :=
  existsb (λ a, match addr_address a with Some x => eq_ignore_ascii_case x wanted | None => false end) l.
Definition account_is_addressed (m : Message) (recipient : bytes) : bool :=
  let recipient_lower := to_ascii_lowercase (str_trim recipient) in
  if bool_decide (recipient_lower = []) then false
  else existsb (λ l, address_contains l recipient_lower) (option_list (msg_to m) ++ option_list (msg_cc m)).

(** ** The reply *)

Definition push_header (name : string) (value : bytes) : bytes := bs name ++ bs ": " ++ value ++ CRLF.
Definition collapse_char (b : Z) : Z := if (b =? CR) || (b =? LF) then 32 else b.
Definition collapse_folding (value : bytes) : bytes := collapse_char <$> value.

(** [trimmed\[..3\]]: a panic when the third byte is not the end of a
    character. *)
Definition str_prefix (n : nat) (s : bytes) : option bytes :=
  match s !! n with
  | Some b => if is_cont b then None else Some (take n s)
  | None => if (length s =? n)%nat then Some s else None
  end.
Definition derive_subject (m : Message) : option bytes :=
  match msg_subject m with
  | Some subject =>
      let trimmed := str_trim subject in
      if bool_decide (trimmed = []) then Some (bs "Automatic reply")
      else if (length trimmed <? 3)%nat then Some (bs "Re: " ++ trimmed)
      else
        start ← str_prefix 3 trimmed;
        Some (if eq_ignore_ascii_case start (bs "re:") then trimmed else bs "Re: " ++ trimmed)
  | None => Some (bs "Automatic reply")
  end.
End decision.

Definition DAYS_OF_WEEK : list bytes :=
  [bs "Thu"; bs "Fri"; bs "Sat"; bs "Sun"; bs "Mon"; bs "Tue"; bs "Wed"].
Definition civil_from_days (days_since_epoch : Z) : Z * Z * Z :=
  let z := days_since_epoch + 719468 in
  let era := z / 146097 in
  let doe := z - era * 146097 in
  let yoe := (doe - doe / 1460 + doe / 36524 - doe / 146096) / 365 in
  let year := yoe + era * 400 in
  let doy := doe - (365 * yoe + yoe / 4 - yoe / 100) in
  let mp := (5 * doy + 2) / 153 in
  let day := doy - (153 * mp + 2) / 5 + 1 in
  let month := if mp <? 10 then mp + 3 else mp - 9 in
  let year := if month <=? 2 then year + 1 else year in
  (year, month, day).
Definition format_rfc5322_date (now : Z) : bytes :=
  let seconds_of_day := now mod 86400 in
  let days_since_epoch := now / 86400 in
  let hour := seconds_of_day / 3600 in
  let minute := seconds_of_day mod 3600 / 60 in
  let second := seconds_of_day mod 60 in
  let weekday := nth (Z.to_nat (days_since_epoch mod 7)) DAYS_OF_WEEK [] in
  let '(year, month, day) := civil_from_days days_since_epoch in
  weekday ++ bs ", " ++ fmt_dec_pad 2 day ++ bs " " ++ nth (Z.to_nat (month - 1)) MONTHS [] ++ bs " " ++ fmt_dec year ++ bs " "
  ++ fmt_dec_pad 2 hour ++ bs ":" ++ fmt_dec_pad 2 minute ++ bs ":" ++ fmt_dec_pad 2 second ++ bs " +0000".

Section reply.
Context `{MailParser}.

Definition reply_subject (c : VacationConfig) (m : Message) : option bytes :=
  match vc_subject c with
  | Some subject => if bool_decide (str_trim subject = []) then derive_subject m else Some subject
  | None => derive_subject m
  end.
Definition build_reply (c : VacationConfig) (m : Message) (sender_lower recipient : bytes) (now : Z) : option bytes :=
  subject ← reply_subject c m;
  Some (push_header "From" (str_trim recipient) ++ push_header "To" sender_lower
    ++ push_header "Subject" (collapse_folding subject) ++ push_header "Date" (format_rfc5322_date now)
    ++ push_header "Auto-Submitted" (bs "auto-replied") ++ push_header "Content-Type" (bs "text/plain; charset=utf-8")
    ++ CRLF ++ vc_body c).

(** [None] is the panic of [derive_subject]. *)
Definition evaluate_vacation (c : VacationConfig) (raw mail_from recipient : bytes) (now : Z) (last_replied_at : option Z)
  : option (result VacationDecision) :=
  let suppress reason := Some (Ok (Suppress reason)) in
  if negb (vc_enabled c) then suppress Disabled
  else if negb (window_is_open c now) then suppress OutsideWindow
  else
    let sender := str_trim mail_from in
    if bool_decide (sender = []) then suppress NoReturnPath
    else
      let sender_lower := to_ascii_lowercase sender in
      if bool_decide (sender_lower = to_ascii_lowercase (str_trim recipient)) then suppress OwnAddress
      else if looks_automated_sender sender_lower then suppress AutomatedSender
      else if match last_replied_at with Some last => (now <? last) || (now - last <? vc_period_seconds c) | None => false end
      then suppress RecentlyAnswered
      else
        match mp_parse raw with
        | None => Some (Err (InvalidInput "vacation: message has no parseable headers"))
        | Some parsed =>
            if message_is_automated parsed then suppress AutomatedMessage
            else if negb (account_is_addressed parsed recipient) then suppress NotAddressed
            else
              message ← build_reply c parsed sender_lower recipient now;
              Some (Ok (Reply (mkReply sender_lower message now)))
        end.
End reply.

(** ** After a delivery *)

Definition config_of (a : Account) : VacationConfig :=
  let v := ac_vacation a in
  mkConfig true (va_active_from v) (va_active_to v) DEFAULT_PERIOD_SECONDS
    (if bool_decide (va_subject v = []) then None else Some (va_subject v)) (va_body v).

(** What became of one recipient; the code keeps nothing of it. *)
Inductive Response : Type := Silent | Answered (account_id : Z) (reply : VacationReply) | Panicked.
#[global] Instance VacationReply_eq_dec : EqDecision VacationReply.
Proof. solve_decision. Defined.
#[global] Instance Response_eq_dec : EqDecision Response.
Proof. solve_decision. Defined.

Section respond.
Context {S B : Type} `{Store S} `{BlobStore B} `{Codec} `{MailParser}.

Definition reply_request (reply : VacationReply) (now : Z) : Enqueue :=
  mkEnqueue now [] [(vr_to reply, Attempts RELAY_MAX_ATTEMPTS)] now.
Definition send_reply (a : Account) (reply : VacationReply) (now clock : Z) (w : S * B) : Response * (S * B) :=
  match enqueue (vr_message reply) (reply_request reply now) clock w with
  | (Ok _, w) => (Answered (ac_id a) reply, (on_store (record_vacation_reply (ac_id a) (vr_to reply) (vr_sent_at reply)) w).2)
  | (Err _, w) => (Silent, w)
  end.
Definition respond_one (a : Account) (recipient : bytes) (delivery : DeliveryOutcome) (mail_from raw : bytes) (now clock : Z)
    (w : S * B) : Response * (S * B) :=
  if over_quota delivery || negb (va_enabled (ac_vacation a)) then (Silent, w)
  else
    match last_vacation_reply (ac_id a) mail_from w.1 with
    | Err _ => (Silent, w)
    | Ok last =>
        match evaluate_vacation (config_of a) raw mail_from recipient now last with
        | None => (Panicked, w)
        | Some (Ok (Reply reply)) => send_reply a reply now clock w
        | Some _ => (Silent, w)
        end
    end.
(** A panic leaves the loop. *)
Fixpoint respond_all (l : list (Account * bytes * DeliveryOutcome)) (mail_from raw : bytes) (now clock : Z) (w : S * B)
  : list Response * (S * B) :=
  match l with
  | [] => ([], w)
  | (a, recipient, delivery) :: l =>
      let '(r, w) := respond_one a recipient delivery mail_from raw now clock w in
      match r with
      | Panicked => ([Panicked], w)
      | _ => let '(rs, w) := respond_all l mail_from raw now clock w in (r :: rs, w)
      end
  end.
Definition respond_vacations (recipients : list (Account * bytes)) (deliveries : list DeliveryOutcome)
    (mail_from raw : bytes) (now clock : Z) : S * B → list Response * (S * B) :=
  respond_all (zip recipients deliveries) mail_from raw now clock.
End respond.

(** ** The log *)

Lemma known_reply_key a x : known (reply_key a x).
Proof. by eexists. Qed.
#[export] Hint Resolve known_reply_key : keys.
(** The answer is logged under the address it went to. *)
Lemma reply_key_answered a x : reply_key a (to_ascii_lowercase (str_trim x)) = reply_key a x.
Proof.
  unfold reply_key. rewrite (str_trim_id (to_ascii_lowercase _)) by (apply trimmed_lower, str_trim_trimmed).
  by rewrite to_ascii_lowercase_idem.
Qed.
Lemma reply_key_not_counter a x : reply_key a x ≠ id_counter_key.
Proof. discriminate. Qed.
Lemma reply_key_not_message a x id : reply_key a x ≠ message_key id.
Proof. discriminate. Qed.

Section replies.
Context {S B : Type} {store : Store S} {contract : StoreSpec S}.
Context {blobs : BlobStore B} {bcontract : BlobSpec B} {codec : Codec} {laws : CodecLaws} `{MailParser}.
Implicit Types (w : S * B).

(** Stores that answer, with a counter for the ids of the queue. *)
Definition queue_ready w : Prop :=
  healthy w.1 ∧ bhealthy w.2 ∧ is_Some (counter_value (view w.1 !! id_counter_key)).
(** The log of replies is the same. *)
Definition same_replies w w' : Prop := ∀ a x, view w'.1 !! reply_key a x = view w.1 !! reply_key a x.

Lemma enqueue_ready raw request clock w :
  queue_ready w → ∃ e w', enqueue raw request clock w = (Ok e, w') ∧ queue_ready w' ∧ same_replies w w'.
Proof.
  destruct w as [s b]. intros (Hs & Hb & n & Hc). cbn [fst snd] in *.
  destruct (blob_put_spec raw clock b) as (b' & Eb & Hb' & Hbv); [done|].
  destruct (add_and_get_spec id_counter_key 1 s n) as (s1 & E1 & Hs1 & Hv1); [done|auto with keys|done|].
  set (c := wrapping_add_i64 n 1) in *. set (msg := new_message (digest raw) raw request).
  destruct (archive_total msg) as (v & Ea & Ed).
  destruct (put_spec (message_key (as_u32 c)) v s1) as (s' & E2 & Hs' & Hv'); [done|auto with keys|].
  exists (mkEnqueued (as_u32 c) msg), (s', b'). split; [|split; [split_and!; [done..|]|]].
  - unfold enqueue, allocate_id, on_blobs, on_store, lift, mbind, M_bind. simpl fst. simpl snd.
    rewrite Eb. simpl fst. simpl snd. rewrite E1. unfold mret at 1, M_ret at 1.
    fold msg. rewrite Ea. cbn [fst snd]. by rewrite E2.
  - cbn [fst]. rewrite Hv', Hv1, lookup_insert_ne, lookup_insert_eq by (symmetry; apply counter_not_message).
    rewrite counter_value_i64_le by apply as_i64_range. eauto.
  - intros a x. cbn [fst]. rewrite Hv', Hv1, !lookup_insert_ne; [done|..]; symmetry;
      [apply reply_key_not_counter|apply reply_key_not_message].
Qed.

(** *** One reply per sender and period *)

(** What has been answered. *)
Definition answered (rs : list Response) : list (Z * VacationReply) :=
  omap (λ r, match r with Answered id reply => Some (id, reply) | _ => None end) rs.
(** A reply is in the log, or a later one to the same address is. *)
Definition logged w (x : Z * VacationReply) : Prop :=
  ∃ v, view w.1 !! reply_key x.1 (vr_to x.2) = Some v ∧ length v = 8%nat ∧ vr_sent_at x.2 ≤ of_be_bytes v.
(** Nothing of the log is lost or dated back. *)
Definition log_grows w w' : Prop :=
  ∀ a x v, view w.1 !! reply_key a x = Some v → length v = 8%nat →
  ∃ v', view w'.1 !! reply_key a x = Some v' ∧ length v' = 8%nat ∧ of_be_bytes v ≤ of_be_bytes v'.
(** The second reply may follow the first. *)
Definition spaced (x y : Z * VacationReply) : Prop :=
  x.1 = y.1 → vr_to x.2 = vr_to y.2 → vr_sent_at x.2 + DEFAULT_PERIOD_SECONDS ≤ vr_sent_at y.2.

#[global] Instance log_grows_preorder : PreOrder log_grows.
Proof.
  split; [intros w a x v Hv Hl; by exists v|]. intros w1 w2 w3 H12 H23 a x v Hv Hl.
  destruct (H12 a x v Hv Hl) as (v2 & Hv2 & Hl2 & Hle2). destruct (H23 a x v2 Hv2 Hl2) as (v3 & Hv3 & Hl3 & Hle3).
  exists v3. split_and!; [done|done|lia].
Qed.
Lemma same_replies_grows w w' : same_replies w w' → log_grows w w'.
Proof. intros Hs a x v Hv Hl. exists v. by rewrite Hs. Qed.
Lemma logged_grows w w' x : log_grows w w' → logged w x → logged w' x.
Proof.
  intros Hg (v & Hv & Hl & Hle). destruct (Hg _ _ _ Hv Hl) as (v' & Hv' & Hl' & Hle'). exists v'. split_and!; [done|done|lia].
Qed.

(** What a decision to reply says. *)
Lemma evaluate_reply c raw mail_from recipient now last r :
  evaluate_vacation c raw mail_from recipient now last = Some (Ok (Reply r)) →
  vr_to r = to_ascii_lowercase (str_trim mail_from) ∧ vr_to r ≠ [] ∧ vr_sent_at r = now ∧
  (∀ t, last = Some t → t ≤ now ∧ vc_period_seconds c ≤ now - t) ∧
  ∃ m, mp_parse raw = Some m ∧ message_is_automated m = false ∧ account_is_addressed m recipient = true ∧
    build_reply c m (vr_to r) recipient now = Some (vr_message r).
Proof.
  unfold evaluate_vacation. intros E.
  destruct (vc_enabled c), (window_is_open c now); cbn [negb] in E; try done.
  case_bool_decide as Hs; [done|]. case_bool_decide as Ho; [done|]. destruct (looks_automated_sender _); [done|].
  destruct (match last with Some l => _ | None => false end) eqn:Hl; [done|].
  destruct (mp_parse raw) as [m|]; [|done]. destruct (message_is_automated m) eqn:Ha; [done|].
  destruct (account_is_addressed m recipient) eqn:Hd; cbn [negb] in E; [|done].
  destruct (build_reply _ _ _ _ _) as [msg|] eqn:Eb; simpl in E; [|done]. injection E as <-. cbn [vr_to vr_message vr_sent_at].
  split_and!; [done| |done| |by exists m].
  - intros E. apply Hs. by destruct (str_trim mail_from).
  - intros t ->. apply orb_false_iff in Hl as [?%Z.ltb_ge ?%Z.ltb_ge]. done.
Qed.

(** The log grows, and the replies follow the ones logged. *)
Definition settled w (rs : list Response) w' : Prop :=
  queue_ready w' ∧ log_grows w w' ∧ Forall (logged w') (answered rs) ∧ ∀ x y, logged w x → y ∈ answered rs → spaced x y.
Lemma settled_silent w rs : queue_ready w → answered rs = [] → settled w rs w.
Proof. intros Hw E. unfold settled. rewrite E. split_and!; [done|done|constructor|]. intros x y _ []%not_elem_of_nil. Qed.

Lemma respond_one_settled (a : Account) recipient delivery mail_from raw now clock w r w' :
  queue_ready w → is_u64 now → respond_one a recipient delivery mail_from raw now clock w = (r, w') → settled w [r] w'.
Proof.
  intros Hw Hnow E. unfold respond_one in E.
  destruct (over_quota delivery || _); [injection E as <- <-; by apply settled_silent|].
  unfold last_vacation_reply in E. rewrite get_spec in E by (apply Hw || auto with keys). simpl in E.
  set (row := view w.1 !! reply_key (ac_id a) mail_from) in *.
  destruct (match row with Some b => _ | None => Ok None end) as [last|e] eqn:El; [|injection E as <- <-; by apply settled_silent].
  destruct (evaluate_vacation _ _ _ _ _ _) as [[[|reply]|e]|] eqn:Ev; try (injection E as <- <-; by apply settled_silent).
  apply evaluate_reply in Ev as (Hto & _ & Hat & Hlast & _). unfold send_reply in E.
  destruct (enqueue_ready (vr_message reply) (reply_request reply now) clock w Hw) as (e & w1 & Ee & Hw1 & Hsame).
  rewrite Ee in E. injection E as <- <-. destruct Hw1 as (Hs1 & Hb1 & Hc1).
  destruct (put_spec (reply_key (ac_id a) (vr_to reply)) (u64_be (vr_sent_at reply)) w1.1) as (s2 & E2 & Hs2 & Hv2); [done|auto with keys|].
  unfold on_store, record_vacation_reply. rewrite E2. cbn [fst snd].
  assert (reply_key (ac_id a) (vr_to reply) = reply_key (ac_id a) mail_from) as Hkey by (rewrite Hto; apply reply_key_answered).
  assert (∀ v, row = Some v → length v = 8%nat → of_be_bytes v + DEFAULT_PERIOD_SECONDS ≤ now) as Hrow.
  { intros v Hv Hl. rewrite Hv, (proj2 (Nat.eqb_eq _ _) Hl) in El. injection El as <-.
    destruct (Hlast _ eq_refl) as [_ Hp]. cbn [config_of vc_period_seconds] in Hp. lia. }
  assert (length (u64_be now) = 8%nat) as H8 by apply length_u64_be.
  split_and!; [split_and!; [done|done|]| | |]; cbn [fst snd].
  - rewrite Hv2, lookup_insert_ne by apply reply_key_not_counter. done.
  - intros a' x' v Hv Hl. cbn [fst]. rewrite Hv2, Hat. destruct (decide (reply_key (ac_id a) (vr_to reply) = reply_key a' x')) as [Ek|Ek].
    + rewrite Ek, lookup_insert_eq. exists (u64_be now). split_and!; [done|done|]. rewrite of_be_bytes_u64 by done.
      rewrite <-Ek, Hkey in Hv. specialize (Hrow v Hv Hl). unfold DEFAULT_PERIOD_SECONDS in Hrow. lia.
    + rewrite lookup_insert_ne, Hsame by done. by exists v.
  - apply Forall_singleton. exists (u64_be now). cbn [fst snd]. rewrite Hv2, lookup_insert_eq, Hat.
    split_and!; [done|done|]. by rewrite of_be_bytes_u64.
  - intros x y (v & Hv & Hl & Hle) ->%list_elem_of_singleton Hx Ht. cbn [fst snd] in *. rewrite Hx, Ht, Hkey in Hv.
    specialize (Hrow v Hv Hl). lia.
Qed.

Lemma settled_app w rs1 w1 rs2 w2 :
  settled w rs1 w1 → settled w1 rs2 w2 →
  settled w (rs1 ++ rs2) w2 ∧ ∀ x y, x ∈ answered rs1 → y ∈ answered rs2 → spaced x y.
Proof.
  intros (_ & G1 & L1 & S1) (Q2 & G2 & L2 & S2). unfold settled, answered in *. rewrite omap_app. split_and!.
  - done.
  - by transitivity w1.
  - apply Forall_app. split; [|done]. eapply Forall_impl; [done|]. intros. by eapply logged_grows.
  - intros x y Hx [Hy|Hy]%elem_of_app; [by apply S1|]. apply S2; [by eapply logged_grows|done].
  - intros x y Hx Hy. apply S2; [|done]. rewrite Forall_forall in L1. by apply L1.
Qed.
(** The replies of one message are spaced, too. *)
Lemma respond_all_settled l mail_from raw now clock w rs w' :
  queue_ready w → is_u64 now → respond_all l mail_from raw now clock w = (rs, w') →
  settled w rs w' ∧ ∀ i j x y, (i < j)%nat → answered rs !! i = Some x → answered rs !! j = Some y → spaced x y.
Proof.
  intros Hw Hnow. revert w rs Hw. induction l as [|[[a recipient] delivery] l IH]; intros w rs Hw E; cbn [respond_all] in E.
  { injection E as <- <-. split; [by apply settled_silent|done]. }
  destruct (respond_one _ _ _ _ _ _ _ w) as [r w1] eqn:E1. apply respond_one_settled in E1; [|done..].
  assert (∀ x y i j, (i < j)%nat → answered [r] !! i = Some x → answered [r] !! j = Some y → spaced x y) as Hone.
  { intros x y i j Hij Hi Hj. destruct r; simpl in Hj; [done|destruct j; [lia|done]|done]. }
  destruct (decide (r = Panicked)) as [->|Hr]; [injection E as <- <-; split; [done|eauto]|].
  destruct (respond_all l _ _ _ _ w1) as [rs2 w2] eqn:E2.
  assert (rs = [r] ++ rs2 ∧ w' = w2) as [-> ->] by (destruct r; by inversion E).
  apply IH in E2 as [H2 Hin2]; [|apply E1]. destruct (settled_app _ _ _ _ _ E1 H2) as [Hs Hc]. split; [done|].
  intros i j x y Hij. unfold answered. rewrite omap_app. fold (answered [r]) (answered rs2).
  intros [Hi|[Hli Hi]]%lookup_app_Some [Hj|[Hlj Hj]]%lookup_app_Some.
  - by eapply Hone.
  - apply Hc; by eapply list_elem_of_lookup_2.
  - apply lookup_lt_Some in Hj. lia.
  - eapply Hin2; [|done..]. lia.
Qed.

(** A time in the life of a server: mail comes in and is answered, anything
    else leaves the log of replies alone. *)
Inductive mailing w : list (Z * VacationReply) → S * B → Prop :=
  | mailing_none : mailing w [] w
  | mailing_other out w1 w2 : mailing w out w1 → queue_ready w2 → same_replies w1 w2 → mailing w out w2
  | mailing_message out w1 recipients deliveries mail_from raw now clock rs w2 :
      mailing w out w1 → is_u64 now →
      respond_vacations recipients deliveries mail_from raw now clock w1 = (rs, w2) →
      mailing w (out ++ answered rs) w2.

Lemma mailing_spaced w out w' :
  queue_ready w → mailing w out w' →
  queue_ready w' ∧ Forall (logged w') out ∧
  ∀ i j x y, (i < j)%nat → out !! i = Some x → out !! j = Some y → spaced x y.
Proof.
  intros Hw. induction 1 as [|out w1 w2 _ (Hq & Hl & Hs) Hw2 Hsame|out w1 rc ds mf raw now clock rs w2 _ (Hq & Hl & Hs) Hnow E].
  - split_and!; [done|constructor|done].
  - split_and!; [done| |done]. eapply Forall_impl; [done|]. intros. eapply logged_grows; [|done]. by apply same_replies_grows.
  - apply respond_all_settled in E as [(Hq2 & Hg & Hl2 & Hs2) Hin]; [|done..]. rewrite Forall_forall in Hl. split_and!; [done| |].
    + apply Forall_app. split; [|done]. apply Forall_forall. intros x Hx. by eapply logged_grows, Hl.
    + intros i j x y Hij [Hi|[Hli Hi]]%lookup_app_Some [Hj|[Hlj Hj]]%lookup_app_Some.
      * by eapply Hs.
      * apply Hs2; [apply Hl|]; by eapply list_elem_of_lookup_2.
      * apply lookup_lt_Some in Hj. lia.
      * eapply Hin; [|done..]. lia.
Qed.

(** A message without a return path, such as a bounce or a vacation reply. *)
Lemma no_return_path_silent recipients deliveries raw now clock w :
  let '(rs, w') := respond_vacations recipients deliveries [] raw now clock w in
  Forall (λ r, r = Silent) rs ∧ w' = w.
Proof.
  unfold respond_vacations. induction (zip recipients deliveries) as [|[[a recipient] delivery] l IH]; [done|].
  cbn [respond_all]. assert (respond_one a recipient delivery [] raw now clock w = (Silent, w)) as ->.
  { unfold respond_one. destruct (over_quota delivery || _); [done|]. destruct (last_vacation_reply _ _ _); [|done].
    unfold evaluate_vacation. cbn [config_of vc_enabled negb]. by destruct (window_is_open _ _). }
  destruct (respond_all l _ _ _ _ w) as [rs w']. destruct IH as [IH ->]. split; [by constructor|done].
Qed.

(** C18. An account that is away answers nobody twice in a week.  Whatever mail
    arrives at whatever times, and whatever else the server does in between,
    two replies of an account to the same address are at least the period of
    seven days apart, also when the clock goes back; and a message with an
    empty return path, which every reply and every bounce has, is answered by
    nobody, so that replies never answer replies. *)
Theorem vacation_once_per_period w out w' :
  queue_ready w → mailing w out w' →
  (∀ i j a r1 r2, (i < j)%nat → out !! i = Some (a, r1) → out !! j = Some (a, r2) → vr_to r1 = vr_to r2 →
     vr_sent_at r1 + DEFAULT_PERIOD_SECONDS ≤ vr_sent_at r2) ∧
  (∀ (reply : VacationReply) recipients deliveries raw now clock,
     let '(rs, w2) := respond_vacations recipients deliveries (enq_return_path (reply_request reply now)) raw now clock w' in
     Forall (λ r, r = Silent) rs ∧ w2 = w').
Proof.
  intros Hw Hm. apply mailing_spaced in Hm as (_ & _ & Hs); [|done]. split.
  - intros i j a r1 r2 Hij Hi Hj Ht. by apply (Hs i j (a, r1) (a, r2)).
  - intros reply recipients deliveries raw now clock. apply no_return_path_silent.
Qed.
End replies.

(** ** The text of a reply *)

Lemma length_dec_digits_low (k fuel : nat) n :
  10 ^ Z.of_nat k ≤ n → (k < fuel)%nat → (k < length (dec_digits fuel n))%nat.
Proof.
  revert fuel n. induction k as [|k IH]; intros [|fuel] n Hn Hf; try lia; cbn [dec_digits]; rewrite length_app; simpl; [lia|].
  rewrite Nat2Z.inj_succ, Z.pow_succ_r in Hn by lia. pose proof (Z.pow_pos_nonneg 10 (Z.of_nat k) ltac:(lia) ltac:(lia)).
  rewrite (proj2 (Z.ltb_ge n 10)) by lia.
  specialize (IH fuel (n / 10)). apply Z.div_le_lower_bound in Hn; [|lia]. specialize (IH Hn ltac:(lia)). lia.
Qed.
(** The date is the one of the bounce reports, so the Gregorian one. *)
Lemma format_date_shared now : 0 ≤ now → format_rfc5322_date now = show_date (from_timestamp now).
Proof.
  intros Hnow. unfold format_rfc5322_date, show_date, from_timestamp, civil_from_days. cbv zeta. cbn [weekday day month year hour minute second].
  set (d := now / 86400). assert (0 ≤ d) as Hd by (apply Z.div_pos; lia).
  rewrite (proj2 (Z.leb_le 0 (d + 719468))), Z.quot_div_nonneg by lia.
  set (era := (d + 719468) / 146097). assert (4 ≤ era) as He by (apply Z.div_le_lower_bound; lia).
  set (doe := d + 719468 - era * 146097).
  assert (0 ≤ doe < 146097) as Hdoe by (pose proof (Z.mod_pos_bound (d + 719468) 146097 ltac:(lia)) as Hm; rewrite Z.mod_eq in Hm by lia; unfold doe, era; lia).
  destruct (year_of_era_spec doe Hdoe) as [Hy _]. unfold year_of_era in Hy. set (yoe := (doe - doe / 1460 + _ - _) / 365) in *.
  set (doy := doe - _). set (mp := (5 * doy + 2) / 153). set (mo := if mp <? 10 then _ else _).
  assert (nth (Z.to_nat (d mod 7)) DAYS_OF_WEEK [] = nth (Z.to_nat ((d mod 7 + 4) mod 7)) DAYS []) as ->.
  { pose proof (Z.mod_pos_bound d 7 ltac:(lia)) as H7. assert (d mod 7 = 0 ∨ d mod 7 = 1 ∨ d mod 7 = 2 ∨ d mod 7 = 3 ∨ d mod 7 = 4 ∨ d mod 7 = 5 ∨ d mod 7 = 6) as Hc by lia.
    destruct Hc as [E|[E|[E|[E|[E|[E|E]]]]]]; rewrite E; reflexivity. }
  replace (now mod 86400 mod 3600 / 60) with (now mod 86400 / 60 mod 60)
    by (Z.to_euclidean_division_equations; lia).
  replace (if mo <=? 2 then yoe + era * 400 + 1 else yoe + era * 400) with (yoe + era * 400 + (if mo <=? 2 then 1 else 0)) by (case_match; lia).
  set (y := yoe + era * 400 + _). assert (fmt_dec_pad 4 y = fmt_dec y) as ->; [|done].
  unfold fmt_dec_pad, pad_left. replace (4 - length (fmt_dec y))%nat with 0%nat; [done|].
  enough (3 < length (fmt_dec y))%nat by lia. apply (length_dec_digits_low 3 20 y); [|lia]. unfold y. case_match; lia.
Qed.

Lemma no_lf_lower s : no_lf s → no_lf (to_ascii_lowercase s).
Proof.
  intros H. apply Forall_fmap. eapply Forall_impl; [done|]. intros b Hb. simpl. unfold to_lower, is_ascii_upper.
  case_match eqn:E; [|done]. unfold LF. lia.
Qed.
Lemma no_lf_trim s : no_lf s → no_lf (str_trim s).
Proof.
  intros H. unfold str_trim. destruct (drop_spaces_done space_head (length s) s) as [_ [k ->]]; [apply space_head_length|done|].
  match goal with |- context [drop_spaces space_last ?n ?t] =>
    destruct (drop_spaces_done space_last n t) as [_ [j ->]]; [apply space_last_length|rewrite ?length_reverse; lia|] end.
  apply Forall_reverse, Forall_drop, Forall_reverse, Forall_drop. done.
Qed.
Lemma no_lf_collapsed s : no_lf (collapse_folding s).
Proof.
  apply Forall_fmap, Forall_true. intros b. simpl. unfold collapse_char. destruct (Z.eqb_spec b LF) as [->|]; [done|].
  by destruct (b =? CR).
Qed.
#[export] Hint Resolve no_lf_lower no_lf_trim no_lf_collapsed : lines.

(** The header of a message made of lines, a blank line and a body. *)
Lemma find_blank_here l r : no_lf l → find_sub BLANK (l ++ CRLF ++ CRLF ++ r) = Some (length l).
Proof.
  induction 1 as [|b l Hb Hl IH].
  - cbn [app CRLF find_sub]. change BLANK with (CR :: LF :: CR :: LF :: []). by rewrite !starts_with_cons.
  - cbn [app find_sub]. change BLANK with (CR :: LF :: CRLF) at 1.
    assert (starts_with (b :: l ++ CRLF ++ CRLF ++ r) (CR :: LF :: CRLF) = false) as ->.
    { rewrite starts_with_cons. destruct Hl as [|c l Hc _]; cbn [app CRLF]; rewrite starts_with_cons.
      - by rewrite andb_false_r.
      - by rewrite (bool_decide_false (c = LF)), andb_false_r by done. }
    by rewrite IH.
Qed.
Lemma header_block_text ls l body :
  Forall header_line (ls ++ [l]) →
  header_block (header_lines (ls ++ [l]) ++ CRLF ++ body) = header_lines (ls ++ [l]).
Proof.
  intros [Hls Hl]%Forall_app. inversion_clear Hl as [|? ? Hl' _]. unfold header_lines. rewrite fmap_app, concat_app. fold (header_lines ls).
  cbn [fmap list_fmap concat]. rewrite app_nil_r, <-!app_assoc.
  rewrite header_block_lines by (done || by apply starts_with_header_line). f_equal.
  unfold header_block. rewrite find_blank_here by apply Hl'.
  rewrite app_assoc. replace (length l + 2)%nat with (length (l ++ CRLF)) by (rewrite length_app; done).
  by rewrite take_app_length.
Qed.

Section text.
Context {S B : Type} {store : Store S} {contract : StoreSpec S}.
Context {blobs : BlobStore B} {bcontract : BlobSpec B} {codec : Codec} {laws : CodecLaws} `{MailParser}.
Implicit Types (w : S * B) (a : Account).

(** The header of a reply, line by line. *)
Definition field (name : string) (value : bytes) : bytes := bs name ++ bs ": " ++ value.
Definition reply_header (recipient to_ subject : bytes) (now : Z) : list bytes :=
  [field "From" (str_trim recipient); field "To" to_; field "Subject" (collapse_folding subject);
   field "Date" (show_date (from_timestamp now)); field "Auto-Submitted" (bs "auto-replied");
   field "Content-Type" (bs "text/plain; charset=utf-8")].

Lemma field_header_line name value :
  no_lf (bs name) → no_lf value → match bs name with b :: _ => b ≠ CR | [] => False end → header_line (field name value).
Proof.
  intros Hn Hv Hb. unfold field. split; [auto with lines|]. by destruct (bs name).
Qed.
Lemma build_reply_text c m to_ recipient now message :
  0 ≤ now → no_lf to_ → no_lf recipient → build_reply c m to_ recipient now = Some message →
  ∃ subject, reply_subject c m = Some subject ∧ message = header_lines (reply_header recipient to_ subject now) ++ CRLF ++ vc_body c ∧
    header_block message = header_lines (reply_header recipient to_ subject now).
Proof.
  intros Hnow Ht Hr E. unfold build_reply in E. destruct (reply_subject c m) as [subject|]; simpl in E; [|done].
  injection E as <-. exists subject. split; [done|].
  match goal with |- ?x = ?y ∧ _ => assert (x = y) as -> end.
  { unfold push_header, reply_header, field, header_lines. cbn [fmap list_fmap concat]. rewrite format_date_shared, <-!app_assoc by done. done. }
  split; [done|]. unfold reply_header.
  match goal with |- context [header_lines ?l] => change l with (take 5 l ++ [field "Content-Type" (bs "text/plain; charset=utf-8")]) end.
  apply header_block_text. cbn [take app]. repeat apply Forall_cons_2; [..|constructor];
    (apply field_header_line; [auto with lines|auto with lines|done]).
Qed.

(** C19. What a vacation reply is.  When the responder decides to answer a
    message, the answer is queued under a new id: with an empty return path,
    for the sender alone, and with exactly the text that was decided on; and
    it is in the log of replies.  That text is six header lines, a blank line
    and the body the account has set, with the Gregorian date of the moment:
    nothing of the message that is answered, its subject included, adds a line
    to the header. *)
Theorem vacation_reply_sent a raw mail_from recipient now last clock n w r :
  store_can_queue w → counter_value (view w.1 !! id_counter_key) = Some n → is_u64 now → no_lf mail_from → no_lf recipient →
  evaluate_vacation (config_of a) raw mail_from recipient now last = Some (Ok (Reply r)) →
  ∃ w' msg, send_reply a r now clock w = (Answered (ac_id a) r, w') ∧
    load (n + 1) w'.1 = Ok (Some msg) ∧ return_path msg = [] ∧
    address <$> recipients msg = [to_ascii_lowercase (str_trim mail_from)] ∧
    blob_get_all (blob_hash msg) w'.2 = Ok (Some (vr_message r)) ∧
    last_vacation_reply (ac_id a) mail_from w'.1 = Ok (Some now) ∧
    ∃ m subject, mp_parse raw = Some m ∧ reply_subject (config_of a) m = Some subject ∧
      header_block (vr_message r) = header_lines (reply_header recipient (to_ascii_lowercase (str_trim mail_from)) subject now) ∧
      vr_message r = header_block (vr_message r) ++ CRLF ++ va_body (ac_vacation a).
Proof.
  destruct w as [s b]. intros (Hs & Hb & Hwf & n' & Hc & Hn) Hc' Hnow Hf Hr Ev. cbn [fst snd] in *.
  rewrite Hc in Hc'. injection Hc' as <-. apply evaluate_reply in Ev as (Hto & _ & Hat & _ & m & Em & _ & _ & Eb).
  destruct (enqueue_spec (vr_message r) (reply_request r now) clock s b n') as (s1 & b1 & v & E1 & Hs1 & Hb1 & Hd & Hv1 & Hbv); [done..|].
  destruct (put_spec (reply_key (ac_id a) (vr_to r)) (u64_be (vr_sent_at r)) s1) as (s2 & E2 & Hs2 & Hv2); [done|auto with keys|].
  set (msg := new_message (digest (vr_message r)) (vr_message r) (reply_request r now)) in *.
  assert (is_u32 (n' + 1)) as Hid by width. exists (s2, b1), msg.
  split; [unfold send_reply; rewrite E1; unfold on_store, record_vacation_reply; cbn [fst snd]; by rewrite E2|].
  cbn [fst snd]. split; [|split; [done|split; [by rewrite <-Hto|split; [|split]]]].
  - assert (queue_wf (view s2)) as Hwf2.
    { intros k x. rewrite Hv2. intros [[<- <-]|[_ Hx]]%lookup_insert_Some Hsub; [done|]. revert k x Hx Hsub. rewrite Hv1.
      eapply queue_wf_insert; [done..|]. by apply queue_wf_counter. }
    rewrite load_spec by done. unfold queued. rewrite Hv2, lookup_insert_ne, Hv1, lookup_insert_eq by apply reply_key_not_message.
    simpl. by rewrite Hd.
  - rewrite blob_get_all_spec, Hbv by done. cbn [blob_hash msg new_message]. by rewrite lookup_insert_eq.
  - unfold last_vacation_reply. rewrite <-reply_key_answered, <-Hto, get_spec, Hv2, lookup_insert_eq by auto with keys.
    simpl. rewrite length_u64_be. simpl. by rewrite Hat, of_be_bytes_u64.
  - apply build_reply_text in Eb as (subject & Es & Et & Eh); [|apply Hnow|rewrite Hto; auto with lines|done].
    exists m, subject. rewrite Hto in Eh. split_and!; [done|done|done|]. by rewrite Eh, Et, Hto.
Qed.

(** A subject whose third byte is inside a character: the responder does not
    answer, it panics in the middle of the delivery. *)
Lemma subject_panics m subject :
  msg_subject m = Some subject → (3 < length (str_trim subject))%nat →
  is_cont (nth 3 (str_trim subject) 0) = true → derive_subject m = None.
Proof.
  intros E Hl Hc. unfold derive_subject. rewrite E. cbv zeta. rewrite bool_decide_false by (intros E0; rewrite E0 in Hl; simpl in Hl; lia).
  rewrite (proj2 (Nat.ltb_ge _ _)) by lia. unfold str_prefix.
  destruct (str_trim subject !! 3%nat) as [b|] eqn:Eb; [|apply lookup_ge_None in Eb; lia].
  rewrite (nth_lookup_Some _ _ _ _ Eb) in Hc. by rewrite Hc.
Qed.
End text.

(** ** Concrete cases *)

Module VacationDemo.
(** A parser to which the whole message is the subject, sent to me. *)
Definition away_subject (m : Message) : option bytes :=
  match msg_parts m with
  | p :: _ => match part_headers p with mkHeader _ (HvText t) _ _ :: _ => Some t | _ => None end
  | [] => None
  end.
Definition away_parser : MailParser := {|
  mp_parse raw := if bool_decide (raw = []) then None else
    Some (mkParsed [mkPart [mkHeader (PnStd HnSubject) (HvText raw) 0 (Z.of_nat (length raw))] 0 0 (Z.of_nat (length raw)) EncNone PtText]);
  header_as_str n := match n with PnListed t | PnOther t => t | PnStd _ => [] end;
  value_as_text v := match v with HvText t => Some t | _ => None end;
  msg_headers m := match msg_parts m with p :: _ => part_headers p | [] => [] end;
  has_attachments _ := false;
  body_preview m n := take n <$> away_subject m;
  msg_subject := away_subject;
  text_bodies _ := [];
  msg_from _ := None; msg_to _ := Some [mkAddr None (Some (bs "Me@x.org"))]; msg_cc _ := None; msg_bcc _ := None;
  msg_date _ := None;
  in_reply_to _ := HvOther;
  MailParser.references _ := HvOther;
  msg_message_id _ := None;
|}.
Definition me : Account :=
  mkAccount 7 (bs "me") 1 (bs "Me") true Directory.User [] (Directory.mkForwarding [] true) 0 0 [] [] []
    (mkVacation true [] (bs "I am away.") None None) 0.
Definition w0 : MemStore * MemBlobs := QueueDemo.w0.
Definition filed : DeliveryOutcome := mkOutcome [] false false.
Definition asks (subject : bytes) (now : Z) (w : MemStore * MemBlobs) : list Response * (MemStore * MemBlobs) :=
  respond_vacations (H2 := away_parser) [(me, bs "me@x.org")] [filed] (bs " Ann@y.org") subject now now w.
Definition day : Z := 86400.
Definition w1 : MemStore * MemBlobs := (asks (bs "hello") (20000 * day) w0).2.
Definition w2 : MemStore * MemBlobs := (asks (bs "hello?") (20003 * day) w1).2.
Definition w3 : MemStore * MemBlobs := (asks (bs "Re: hello") (20007 * day) w2).2.
Definition the_reply (subject : string) (now : Z) : Z * VacationReply :=
  (7, mkReply (bs "ann@y.org")
    (header_lines [bs "From: me@x.org"; bs "To: ann@y.org"; bs "Subject: " ++ bs subject;
       bs "Date: " ++ show_date (from_timestamp now); bs "Auto-Submitted: auto-replied"; bs "Content-Type: text/plain; charset=utf-8"]
     ++ CRLF ++ bs "I am away.") now).
End VacationDemo.

Lemma vacation_once_per_period_witness :
  mailing (H := VacationDemo.away_parser) VacationDemo.w0
    [VacationDemo.the_reply "Re: hello" (20000 * VacationDemo.day); VacationDemo.the_reply "Re: hello" (20007 * VacationDemo.day)] VacationDemo.w3 ∧
  20000 * VacationDemo.day + DEFAULT_PERIOD_SECONDS ≤ 20007 * VacationDemo.day.
Proof.
  assert (mailing (H := VacationDemo.away_parser) VacationDemo.w0
    [VacationDemo.the_reply "Re: hello" (20000 * VacationDemo.day); VacationDemo.the_reply "Re: hello" (20007 * VacationDemo.day)] VacationDemo.w3) as Hm.
  { pose (m0 := mailing_none (H := VacationDemo.away_parser) VacationDemo.w0).
    pose (m1 := mailing_message (H := VacationDemo.away_parser) _ _ _ [(VacationDemo.me, bs "me@x.org")] [VacationDemo.filed] (bs " Ann@y.org") (bs "hello")
      (20000 * VacationDemo.day) (20000 * VacationDemo.day) _ _ m0 ltac:(vm_compute; split; congruence) (surjective_pairing _)).
    pose (m2 := mailing_message (H := VacationDemo.away_parser) _ _ _ [(VacationDemo.me, bs "me@x.org")] [VacationDemo.filed] (bs " Ann@y.org") (bs "hello?")
      (20003 * VacationDemo.day) (20003 * VacationDemo.day) _ _ m1 ltac:(vm_compute; split; congruence) (surjective_pairing _)).
    pose (m3 := mailing_message (H := VacationDemo.away_parser) _ _ _ [(VacationDemo.me, bs "me@x.org")] [VacationDemo.filed] (bs " Ann@y.org") (bs "Re: hello")
      (20007 * VacationDemo.day) (20007 * VacationDemo.day) _ _ m2 ltac:(vm_compute; split; congruence) (surjective_pairing _)).
    refine (eq_ind _ (λ out, mailing VacationDemo.w0 out VacationDemo.w3) m3 _ _). vm_compute. reflexivity. }
  split; [exact Hm|].
  apply (proj1 (vacation_once_per_period (H := VacationDemo.away_parser) VacationDemo.w0 _ VacationDemo.w3 ltac:(split; [exact I|split; [exact I|by eexists]]) Hm)
    0%nat 1%nat 7 (VacationDemo.the_reply "Re: hello" (20000 * VacationDemo.day)).2 (VacationDemo.the_reply "Re: hello" (20007 * VacationDemo.day)).2 ltac:(lia));
    reflexivity.
Defined.

Lemma vacation_reply_sent_witness :
  ∃ w' msg, send_reply VacationDemo.me (VacationDemo.the_reply "Re: a  b" 5).2 5 5 VacationDemo.w0
      = (Answered 7 (VacationDemo.the_reply "Re: a  b" 5).2, w') ∧
    load 1 w'.1 = Ok (Some msg) ∧ address <$> recipients msg = [bs "ann@y.org"].
Proof.
  destruct (vacation_reply_sent (H := VacationDemo.away_parser) VacationDemo.me (bs "a" ++ CRLF ++ bs "b") (bs " Ann@y.org") (bs "me@x.org") 5 None 5 0
    VacationDemo.w0 (VacationDemo.the_reply "Re: a  b" 5).2) as (w' & msg & E & Hl & _ & Ha & _);
    [split; [exact I|split; [exact I|split; [exact QueueDemo.queue_wf_empty|exists 0; split; [reflexivity|width]]]]
    |reflexivity|width|by apply (bool_decide_unpack _)|by apply (bool_decide_unpack _)|vm_compute; reflexivity|].
  exists w', msg. split; [exact E|]. split; [exact Hl|exact Ha].
Defined.

(** A Russian subject: the fourth byte continues the second letter. *)
Theorem vacation_subject_panics :
  (VacationDemo.asks [208; 159; 209; 128; 208; 184; 208; 178; 208; 181; 209; 130] 5 VacationDemo.w0).1 = [Panicked].
Proof. vm_compute. reflexivity. Qed.
