(* ===== verification/Sanitize.v ===== *)
(** * The HTML sanitizer (crates/mail/src/sanitize.rs)

    What a mail client is given of an HTML message: the tokenizer, the tags and
    attributes that may stay, the decision on URLs, and the rendering.  The
    specification is a reader of HTML of its own, the tokenizer of the HTML
    standard in its data and tag states: whatever the message contains, what
    the reader finds in the output are allowed tags with allowed attributes,
    no script URL, and, unless remote content is wanted, no absolute URL that
    is loaded by itself. *)

From S2P Require Import Prelude Bytes Text Fts.
From stdpp Require Import base gmap list strings.
From Stdlib Require Import ZArith Lia.

Open Scope Z_scope.

(** ** Tokens *)

Inductive Token : Type :=
  | Text (text : bytes)
  | StartTag (name : bytes) (attributes : list (bytes * option bytes)) (self_closing : bool)
  | EndTag (name : bytes).

Definition is_ascii_alphabetic (b : Z) : bool := is_ascii_upper b || is_ascii_lower b.
Definition is_ascii_alphanumeric (b : Z) : bool := is_ascii_alphabetic b || is_digit b.

(** [skip_until]: what is left after the needle. *)
Fixpoint skip_until (needle s : bytes) : bytes :=
  if starts_with s needle then drop (length needle) s
  else match s with [] => [] | _ :: s => skip_until needle s end.

(** [read_attr_value]: the value and what is left. *)
Definition read_attr_value (s : bytes) : bytes * bytes :=
  match s with
  | q :: r =>
      if (q =? 34) || (q =? 39)
      then (take_while (λ b, negb (b =? q)) r, drop 1 (drop_while (λ b, negb (b =? q)) r))
      else let in_value b := negb (is_ascii_whitespace b) && negb (b =? 62) in (take_while in_value s, drop_while in_value s)
  | [] => ([], [])
  end.
(** The value after the name of an attribute, if there is one. *)
Definition attr_value (s : bytes) : option bytes * bytes :=
  match s with
  | b :: r =>
      if b =? 61 then let '(v, s) := read_attr_value (drop_while is_ascii_whitespace r) in (Some v, s) else (None, s)
  | [] => (None, [])
  end.
Definition in_attr_name (b : Z) : bool := negb (is_ascii_whitespace b) && negb (b =? 61) && negb (b =? 62) && negb (b =? 47).
(** The loop of [parse_tag] over the attributes; every turn that goes on
    consumes a byte. *)
Fixpoint parse_attributes (fuel : nat) (attributes : list (bytes * option bytes)) (self_closing : bool) (s : bytes)
  : option (list (bytes * option bytes) * bool * bytes) :=
  match fuel with
  | O => None
  | Datatypes.S fuel =>
      match drop_while is_ascii_whitespace s with
      | [] => None
      | b :: r =>
          if b =? 62 then Some (attributes, self_closing, r)
          else if b =? 47 then parse_attributes fuel attributes true r
          else
            let attr_name := to_ascii_lowercase (take_while in_attr_name (b :: r)) in
            let '(value, s) := attr_value (drop_while is_ascii_whitespace (drop_while in_attr_name (b :: r))) in
            parse_attributes fuel (if bool_decide (attr_name = []) then attributes else attributes ++ [(attr_name, value)]) self_closing s
      end
  end.
Definition in_tag_name (b : Z) : bool := is_ascii_alphanumeric b || (b =? 58) || (b =? 45).
(** [parse_tag], from the byte after the angle bracket. *)
Definition parse_tag (s : bytes) : option (Token * bytes) :=
  let is_end := starts_with s [47] in
  let s := if is_end then drop 1 s else s in
  let name := to_ascii_lowercase (take_while in_tag_name s) in
  let s := drop_while in_tag_name s in
  if bool_decide (name = []) then Some (Text [], skip_until [62] s)
  else if is_end then Some (EndTag name, skip_until [62] s)
  else
    '(attributes, self_closing, s) ← parse_attributes (Datatypes.S (length s)) [] false s;
    Some (StartTag name attributes self_closing, s).

(** Whether what follows an angle bracket makes it a tag. *)
Definition starts_tag (s : bytes) : bool :=
  match s with c :: _ => is_ascii_alphabetic c || (c =? 47) || (c =? 33) || (c =? 63) | [] => false end.
(** The text up to the next tag, and the input after its angle bracket. *)
Fixpoint scan_text (s : bytes) : bytes * option bytes :=
  match s with
  | [] => ([], None)
  | b :: r =>
      if (b =? 60) && starts_tag r then ([], Some r)
      else let '(text, tag) := scan_text r in (b :: text, tag)
  end.
(** Comments, declarations and processing instructions: what is left after
    them. *)
Definition skip_markup (s : bytes) : option bytes :=
  if starts_with s (bs "!--") then Some (skip_until (bs "-->") (drop 3 s))
  else if starts_with s (bs "!") || starts_with s (bs "?") then Some (skip_until [62] (drop 1 s))
  else None.
Fixpoint html_tokens (fuel : nat) (s : bytes) : list Token :=
  match fuel with
  | O => []
  | Datatypes.S fuel =>
      let '(text, tag) := scan_text s in
      (if bool_decide (text = []) then [] else [Text text]) ++
      match tag with
      | None => []
      | Some r =>
          match skip_markup r with
          | Some r => html_tokens fuel r
          | None => match parse_tag r with Some (token, r) => token :: html_tokens fuel r | None => [] end
          end
      end
  end.
Definition tokenize (input : bytes) : list Token := html_tokens (Datatypes.S (length input)) input.

(** ** What may stay *)

Inductive UrlScheme : Type := Cid | Data | Safe | Relative | Unsafe.
#[global] Instance UrlScheme_eq_dec : EqDecision UrlScheme.
Proof. solve_decision. Defined.

(** [char::is_whitespace] and [char::is_control]. *)
Definition char_is_whitespace (ch : bytes) : bool :=
  match ch with [a] => is_space1 a | [a; b] => is_space2 a b | [a; b; c] => is_space3 a b c | _ => false end.
Definition char_is_control (ch : bytes) : bool :=
  match ch with
  | [a] => (0 <=? a) && (a <? 32) || (a =? 127)
  | [a; b] => (a =? 194) && (128 <=? b) && (b <=? 159)
  | _ => false
  end.
(** The loop of [url_scheme]: [None] is the early return. *)
Fixpoint scheme_text (cs : list bytes) (scheme : bytes) : option bytes :=
  match cs with
  | [] => Some scheme
  | ch :: cs =>
      if char_is_whitespace ch || char_is_control ch then scheme_text cs scheme
      else if bool_decide (ch = bs ":") then Some scheme
      else if bool_decide (ch = bs "/") || bool_decide (ch = bs "?") || bool_decide (ch = bs "#") then None
      else scheme_text cs (scheme ++ to_ascii_lowercase ch)
  end.
Definition SAFE_SCHEMES : list bytes := [bs "http"; bs "https"; bs "mailto"; bs "ftp"; bs "ftps"; bs "tel"].
Definition url_scheme (value : bytes) : UrlScheme :=
  match scheme_text (chars value) [] with
  | None => Relative
  | Some scheme =>
      if bool_decide (scheme = []) then Relative
      else if bool_decide (scheme = bs "cid") then Cid
      else if bool_decide (scheme = bs "data") then Data
      else if bool_decide (scheme ∈ SAFE_SCHEMES) then Safe
      else Unsafe
  end.

Definition is_url_attribute (attr : bytes) : bool :=
  bool_decide (attr ∈ [bs "href"; bs "src"; bs "poster"; bs "background"; bs "cite"; bs "longdesc"; bs "action"]).
Definition is_fetching_attribute (attr : bytes) : bool := bool_decide (attr ∈ [bs "src"; bs "poster"; bs "background"]).
Definition drops_content (name : bytes) : bool :=
  bool_decide (name ∈ [bs "script"; bs "style"; bs "iframe"; bs "object"; bs "embed"; bs "applet"; bs "noscript"; bs "template"]).
Definition is_void (name : bytes) : bool :=
  bool_decide (name ∈ [bs "area"; bs "base"; bs "br"; bs "col"; bs "hr"; bs "img"; bs "input"; bs "link"; bs "meta"; bs "source"; bs "wbr"]).

Definition COMMON : list bytes := [bs "class"; bs "id"; bs "title"; bs "dir"; bs "lang"; bs "align"].
(** The table of [allowed_tag_attributes]. *)
Definition ALLOWED_TAGS : list (list bytes * list bytes) :=
  [([bs "a"], [bs "href"; bs "name"; bs "target"; bs "rel"]);
   ([bs "img"], [bs "src"; bs "alt"; bs "width"; bs "height"]);
   ([bs "td"; bs "th"], [bs "colspan"; bs "rowspan"; bs "scope"; bs "headers"; bs "valign"; bs "width"; bs "background"]);
   ([bs "table"], [bs "border"; bs "cellpadding"; bs "cellspacing"; bs "width"; bs "summary"]);
   ([bs "col"; bs "colgroup"], [bs "span"; bs "width"]);
   ([bs "ol"], [bs "start"; bs "type"; bs "reversed"]);
   ([bs "li"], [bs "value"]);
   ([bs "blockquote"; bs "q"], [bs "cite"]);
   ([bs "p"; bs "div"; bs "span"; bs "br"; bs "hr"; bs "pre"; bs "code"; bs "kbd"; bs "samp"; bs "var"; bs "b";
     bs "i"; bs "u"; bs "s"; bs "strong"; bs "em"; bs "small"; bs "sub"; bs "sup"; bs "mark"; bs "del"; bs "ins";
     bs "abbr"; bs "cite"; bs "dfn"; bs "h1"; bs "h2"; bs "h3"; bs "h4"; bs "h5"; bs "h6"; bs "ul"; bs "dl";
     bs "dt"; bs "dd"; bs "figure"; bs "figcaption"; bs "caption"; bs "thead"; bs "tbody"; bs "tfoot";
     bs "tr"; bs "address"; bs "article"; bs "section"; bs "header"; bs "footer"; bs "main"; bs "nav";
     bs "aside"; bs "wbr"], [])].
(** [merge_attrs] keeps the merged list in a table, which changes no answer. *)
Definition merge_attrs (common extra : list bytes) : list bytes := common ++ extra.
Fixpoint tag_row (table : list (list bytes * list bytes)) (name : bytes) : option (list bytes) :=
  match table with
  | [] => None
  | (names, extra) :: table => if bool_decide (name ∈ names) then Some (merge_attrs COMMON extra) else tag_row table name
  end.
Definition allowed_tag_attributes (name : bytes) : option (list bytes) := tag_row ALLOWED_TAGS name.

(** ** Rendering *)

(** A byte of a longer character is none of these. *)
Definition escape_text_byte (b : Z) : bytes :=
  if b =? 60 then bs "&lt;" else if b =? 62 then bs "&gt;" else if b =? 38 then bs "&amp;" else [b].
Definition escape_text (text : bytes) : bytes := text ≫= escape_text_byte.
Definition escape_attribute_byte (b : Z) : bytes :=
  if b =? 34 then bs "&quot;" else if b =? 60 then bs "&lt;" else if b =? 62 then bs "&gt;" else if b =? 38 then bs "&amp;" else [b].
Definition escape_attribute (value : bytes) : bytes := value ≫= escape_attribute_byte.

Definition rendered (attr value : bytes) : bytes := attr ++ bs "=" ++ [34] ++ escape_attribute value ++ [34].
(** What is left of an attribute, and whether remote content was blocked. *)
Definition sanitize_attribute (attr : bytes) (value : option bytes) (allowed_attrs : list bytes) (allow_remote_content : bool)
  : option bytes * bool :=
  if starts_with attr (bs "on") then (None, false)
  else if negb (bool_decide (attr ∈ allowed_attrs)) then (None, false)
  else
    let value := default [] value in
    if is_url_attribute attr then
      match url_scheme value with
      | Cid | Data | Relative => (Some (rendered attr value), false)
      | Safe =>
          if is_fetching_attribute attr && negb allow_remote_content then (Some (rendered attr []), true)
          else (Some (rendered attr value), false)
      | Unsafe => (None, false)
      end
    else (Some (rendered attr value), false).

Record Sanitized : Type := mkSanitized { html : bytes; blocked_remote_content : bool }.
(** The state of the loop: the output so far and the depth of dropped
    elements. *)
Record Progress : Type := mkProgress { pg_out : Sanitized; suppress_depth : nat }.

Definition push (b : bytes) (p : Progress) : Progress :=
  mkProgress (mkSanitized (html (pg_out p) ++ b) (blocked_remote_content (pg_out p))) (suppress_depth p).
Definition with_depth (n : nat) (p : Progress) : Progress := mkProgress (pg_out p) n.
Definition push_attribute (allowed : list bytes) (allow : bool) (p : Progress) (a : bytes * option bytes) : Progress :=
  let '(r, blocked) := sanitize_attribute a.1 a.2 allowed allow in
  let p := mkProgress (mkSanitized (html (pg_out p)) (blocked_remote_content (pg_out p) || blocked)) (suppress_depth p) in
  match r with Some r => push ([32] ++ r) p | None => p end.

Definition sanitize_token (allow : bool) (p : Progress) (t : Token) : Progress :=
  match t with
  | Text text => if (suppress_depth p =? 0)%nat then push (escape_text text) p else p
  | StartTag name attributes self_closing =>
      if negb (suppress_depth p =? 0)%nat then (if drops_content name then with_depth (Datatypes.S (suppress_depth p)) p else p)
      else if drops_content name then with_depth 1 p
      else
        match allowed_tag_attributes name with
        | None => p
        | Some allowed =>
            push (if self_closing || is_void name then bs " />" else bs ">")
              (foldl (push_attribute allowed allow) (push ([60] ++ name) p) attributes)
        end
  | EndTag name =>
      if negb (suppress_depth p =? 0)%nat then (if drops_content name then with_depth (suppress_depth p - 1) p else p)
      else if drops_content name || is_void name then p
      else if bool_decide (is_Some (allowed_tag_attributes name)) then push (bs "</" ++ name ++ bs ">") p
      else p
  end.
Definition sanitize_html (input : bytes) (allow_remote_content : bool) : Sanitized :=
  pg_out (foldl (sanitize_token allow_remote_content) (mkProgress (mkSanitized [] false) 0) (tokenize input)).

(** ** A reader of HTML

    The tokenizer of the HTML standard (13.2.5), as far as text and tags go:
    its states, one transition for each byte.  A comment, a declaration, or a
    start tag after which the standard reads raw text leads to the state
    [Foreign], which nothing leaves. *)

Inductive Piece : Type :=
  | HChar (b : Z)
  | HStart (name : bytes) (attrs : list (bytes * bytes))
  | HEnd (name : bytes).
Record Tag : Type := mkTag { t_end : bool; t_name : bytes; t_attrs : list (bytes * bytes) }.
Inductive Reading : Type :=
  | DataState | TagOpen | EndTagOpen | TagName (t : Tag) | BeforeName (t : Tag) | InName (t : Tag) (n : bytes)
  | AfterName (t : Tag) (n : bytes) | BeforeValue (t : Tag) (n : bytes) | DoubleQuoted (t : Tag) (n v : bytes)
  | SingleQuoted (t : Tag) (n v : bytes) | Unquoted (t : Tag) (n v : bytes) | AfterValue (t : Tag) | SelfClosing (t : Tag)
  | Foreign.

Definition html_space (b : Z) : bool := (b =? 9) || (b =? 10) || (b =? 12) || (b =? 13) || (b =? 32).
(** Elements whose contents are not read as markup. *)
Definition RAW_TEXT : list bytes :=
  [bs "script"; bs "style"; bs "xmp"; bs "iframe"; bs "noembed"; bs "noframes"; bs "noscript"; bs "plaintext"; bs "textarea"; bs "title"].
(** The character references of the output; others would be left as they
    are. *)
Fixpoint decode_refs (fuel : nat) (s : bytes) : bytes :=
  match fuel, s with
  | Datatypes.S fuel, b :: r =>
      if starts_with s (bs "&lt;") then 60 :: decode_refs fuel (drop 4 s)
      else if starts_with s (bs "&gt;") then 62 :: decode_refs fuel (drop 4 s)
      else if starts_with s (bs "&amp;") then 38 :: decode_refs fuel (drop 5 s)
      else if starts_with s (bs "&quot;") then 34 :: decode_refs fuel (drop 6 s)
      else b :: decode_refs fuel r
  | _, _ => []
  end.
Definition decoded (s : bytes) : bytes := decode_refs (length s) s.

Definition with_attr (t : Tag) (n v : bytes) : Tag := mkTag (t_end t) (t_name t) (t_attrs t ++ [(n, decoded v)]).
Definition finish (t : Tag) : Reading * list Piece :=
  if t_end t then (DataState, [HEnd (t_name t)])
  else (if bool_decide (t_name t ∈ RAW_TEXT) then Foreign else DataState, [HStart (t_name t) (t_attrs t)]).
Definition go (st : Reading) : Reading * list Piece := (st, []).
Definition before_name (t : Tag) (b : Z) : Reading * list Piece :=
  if html_space b then go (BeforeName t) else if b =? 47 then go (SelfClosing t) else if b =? 62 then finish t
  else go (InName t [to_lower b]).
Definition read_step (st : Reading) (b : Z) : Reading * list Piece :=
  match st with
  | DataState => if b =? 60 then go TagOpen else (DataState, [HChar b])
  | TagOpen =>
      if b =? 47 then go EndTagOpen else if is_ascii_alphabetic b then go (TagName (mkTag false [to_lower b] []))
      else if (b =? 33) || (b =? 63) then go Foreign
      else if b =? 60 then (TagOpen, [HChar 60]) else (DataState, [HChar 60; HChar b])
  | EndTagOpen =>
      if is_ascii_alphabetic b then go (TagName (mkTag true [to_lower b] [])) else if b =? 62 then go DataState else go Foreign
  | TagName t =>
      if html_space b then go (BeforeName t) else if b =? 47 then go (SelfClosing t) else if b =? 62 then finish t
      else go (TagName (mkTag (t_end t) (t_name t ++ [to_lower b]) (t_attrs t)))
  | BeforeName t => before_name t b
  | InName t n =>
      if html_space b then go (AfterName t n) else if b =? 47 then go (SelfClosing (with_attr t n []))
      else if b =? 62 then finish (with_attr t n []) else if b =? 61 then go (BeforeValue t n) else go (InName t (n ++ [to_lower b]))
  | AfterName t n =>
      if html_space b then go (AfterName t n) else if b =? 47 then go (SelfClosing (with_attr t n []))
      else if b =? 61 then go (BeforeValue t n) else if b =? 62 then finish (with_attr t n []) else go (InName (with_attr t n []) [to_lower b])
  | BeforeValue t n =>
      if html_space b then go (BeforeValue t n) else if b =? 34 then go (DoubleQuoted t n []) else if b =? 39 then go (SingleQuoted t n [])
      else if b =? 62 then finish (with_attr t n []) else go (Unquoted t n [b])
  | DoubleQuoted t n v => if b =? 34 then go (AfterValue (with_attr t n v)) else go (DoubleQuoted t n (v ++ [b]))
  | SingleQuoted t n v => if b =? 39 then go (AfterValue (with_attr t n v)) else go (SingleQuoted t n (v ++ [b]))
  | Unquoted t n v =>
      if html_space b then go (BeforeName (with_attr t n v)) else if b =? 62 then finish (with_attr t n v) else go (Unquoted t n (v ++ [b]))
  | AfterValue t => before_name t b
  | SelfClosing t => if b =? 62 then finish t else before_name t b
  | Foreign => go Foreign
  end.
Fixpoint html_read (st : Reading) (s : bytes) : Reading * list Piece :=
  match s with
  | [] => (st, [])
  | b :: s => let '(st, ps) := read_step st b in let '(st, qs) := html_read st s in (st, ps ++ qs)
  end.

(** The scheme of a URL by the URL standard: leading control characters and
    spaces go, tabs and line breaks go everywhere, then letters, digits and
    marks up to a colon; [None] for a relative URL. *)
Definition scheme_char (b : Z) : bool := is_ascii_alphanumeric b || (b =? 43) || (b =? 45) || (b =? 46).
Fixpoint scheme_of (s acc : bytes) : option bytes :=
  match s with
  | [] => None
  | b :: s =>
      if (b =? 9) || (b =? 10) || (b =? 13) then scheme_of s acc
      else if b =? 58 then (if bool_decide (acc = []) then None else Some acc)
      else if scheme_char b && (negb (bool_decide (acc = [])) || is_ascii_alphabetic b) then scheme_of s (acc ++ [to_lower b])
      else None
  end.
Definition browser_scheme (v : bytes) : option bytes := scheme_of (drop_while (λ b, (0 <=? b) && (b <=? 32)) v) [].

Lemma html_read_app st s1 s2 :
  html_read st (s1 ++ s2) =
  let '(st, ps) := html_read st s1 in let '(st, qs) := html_read st s2 in (st, ps ++ qs).
Proof.
  revert st. induction s1 as [|b s1 IH]; intros st; cbn [app html_read]; [by destruct (html_read st s2)|].
  destruct (read_step st b) as [st1 ps]. rewrite IH. destruct (html_read st1 s1) as [st2 qs]. destruct (html_read st2 s2) as [st3 rs].
  by rewrite app_assoc.
Qed.

(** ** What is safe *)

(** Elements that run code, load content, leave the page or change how the
    rest is read. *)
Definition DANGEROUS_TAGS : list bytes :=
  RAW_TEXT ++ [bs "object"; bs "embed"; bs "applet"; bs "template"; bs "frame"; bs "frameset"; bs "base"; bs "link"; bs "meta"; bs "form";
    bs "input"; bs "button"; bs "select"; bs "svg"; bs "math"; bs "audio"; bs "video"; bs "source"; bs "track"; bs "param"; bs "body"; bs "html"].
Definition DANGEROUS_ATTRIBUTES : list bytes :=
  [bs "style"; bs "srcset"; bs "srcdoc"; bs "formaction"; bs "action"; bs "ping"; bs "data"; bs "codebase"; bs "classid"; bs "manifest";
   bs "xlink:href"; bs "http-equiv"; bs "xmlns"].
Definition URL_ATTRIBUTES : list bytes :=
  [bs "href"; bs "src"; bs "poster"; bs "background"; bs "cite"; bs "longdesc"; bs "lowsrc"; bs "dynsrc"; bs "usemap"; bs "icon"; bs "profile"].
Definition LOADED_ATTRIBUTES : list bytes := [bs "src"; bs "poster"; bs "background"; bs "lowsrc"; bs "dynsrc"; bs "icon"].
Definition INLINE_SCHEMES : list bytes := [bs "cid"; bs "data"].

Definition scheme_in (v : bytes) (l : list bytes) : Prop := ∀ s, browser_scheme v = Some s → s ∈ l.
Definition safe_attribute (allow : bool) (a : bytes * bytes) : Prop :=
  starts_with a.1 (bs "on") = false ∧ a.1 ∉ DANGEROUS_ATTRIBUTES ∧
  (a.1 ∈ URL_ATTRIBUTES → scheme_in a.2 (INLINE_SCHEMES ++ SAFE_SCHEMES)) ∧
  (allow = false → a.1 ∈ LOADED_ATTRIBUTES → scheme_in a.2 INLINE_SCHEMES).
Definition safe_piece (allow : bool) (p : Piece) : Prop :=
  match p with
  | HChar _ => True
  | HStart name attrs => name ∉ DANGEROUS_TAGS ∧ Forall (safe_attribute allow) attrs
  | HEnd name => name ∉ DANGEROUS_TAGS
  end.
(** The text of the pieces, and of the tokens outside dropped elements. *)
Definition text_of (ps : list Piece) : bytes := omap (λ p, match p with HChar b => Some b | _ => None end) ps.
Fixpoint visible (depth : nat) (ts : list Token) : bytes :=
  match ts with
  | [] => []
  | Text t :: ts => (if (depth =? 0)%nat then t else []) ++ visible depth ts
  | StartTag name _ _ :: ts => visible (if drops_content name then Datatypes.S depth else depth) ts
  | EndTag name :: ts => visible (if drops_content name then depth - 1 else depth) ts
  end.

(** *** Character references *)

Lemma starts_with_other b s p : match p with c :: _ => b ≠ c | [] => False end → starts_with (b :: s) p = false.
Proof. intros Hne. apply bool_decide_eq_false. intros [r E]. destruct p; [done|]. by injection E. Qed.
(** Text in which every special character is written as a reference. *)
Definition escapes (e : Z → bytes) : Prop :=
  ∀ b, (b ≠ 38 ∧ e b = [b]) ∨ (b = 60 ∧ e b = bs "&lt;") ∨ (b = 62 ∧ e b = bs "&gt;") ∨ (b = 38 ∧ e b = bs "&amp;") ∨ (b = 34 ∧ e b = bs "&quot;").
Lemma decoded_escape e s : escapes e → decoded (s ≫= e) = s.
Proof.
  intros He. unfold decoded. enough (∀ fuel, (length (s ≫= e) ≤ fuel)%nat → decode_refs fuel (s ≫= e) = s) as H by by apply H.
  induction s as [|b s IH]; intros fuel Hf; [by destruct fuel|]. rewrite bind_cons in *. rewrite length_app in Hf.
  destruct (He b) as [[Hb E]|[[-> E]|[[-> E]|[[-> E]|[-> E]]]]]; rewrite E in *; cbn [length bs fmap list_fmap] in Hf;
    (destruct fuel as [|fuel]; [simpl in Hf; lia|]).
  - cbn [app decode_refs]. rewrite !starts_with_other by exact Hb. rewrite IH; [done|simpl in Hf; lia].
  - change (60 :: decode_refs fuel (s ≫= e) = 60 :: s). by rewrite IH by (simpl in Hf; lia).
  - change (62 :: decode_refs fuel (s ≫= e) = 62 :: s). by rewrite IH by (simpl in Hf; lia).
  - change (38 :: decode_refs fuel (s ≫= e) = 38 :: s). by rewrite IH by (simpl in Hf; lia).
  - change (34 :: decode_refs fuel (s ≫= e) = 34 :: s). by rewrite IH by (simpl in Hf; lia).
Qed.
Lemma escapes_text : escapes escape_text_byte.
Proof.
  intros b. unfold escape_text_byte. destruct (Z.eqb_spec b 60); [by auto|]. destruct (Z.eqb_spec b 62); [by auto|].
  destruct (Z.eqb_spec b 38); auto 10.
Qed.
Lemma escapes_attribute : escapes escape_attribute_byte.
Proof.
  intros b. unfold escape_attribute_byte. destruct (Z.eqb_spec b 34); [by auto 10|]. destruct (Z.eqb_spec b 60); [by auto|].
  destruct (Z.eqb_spec b 62); [by auto|]. destruct (Z.eqb_spec b 38); auto 10.
Qed.

(** *** Schemes *)

Lemma chars_ascii fuel b s : 0 ≤ b < 128 → chars_go (Datatypes.S fuel) (b :: s) = [b] :: chars_go fuel s.
Proof. intros Hb. cbn [chars_go]. unfold utf8_chunk. by rewrite (proj2 (Z.ltb_lt b 128)) by lia. Qed.
Lemma scheme_char_ascii b : scheme_char b = true → 43 ≤ b < 128 ∧ b ≠ 47 ∧ b ≠ 58 ∧ b ≠ 63.
Proof. unfold scheme_char, is_ascii_alphanumeric, is_ascii_alphabetic, is_ascii_upper, is_ascii_lower, is_digit. intros. lia. Qed.
(** A byte of a scheme is taken as it is. *)
Lemma scheme_text_char b cs acc :
  43 ≤ b < 127 → b ≠ 47 → b ≠ 58 → b ≠ 63 → scheme_text ([b] :: cs) acc = scheme_text cs (acc ++ [to_lower b]).
Proof.
  intros Hb H47 H58 H63. cbn [scheme_text]. unfold char_is_whitespace, char_is_control, is_space1.
  replace ((9 <=? b) && (b <=? 13) || (b =? 32) || ((0 <=? b) && (b <? 32) || (b =? 127))) with false by lia.
  change (bs ":") with [58]. change (bs "/") with [47]. change (bs "?") with [63]. change (bs "#") with [35].
  rewrite !bool_decide_false; [done|..]; intros [=]; lia.
Qed.
(** White space and control characters are passed over. *)
Lemma scheme_text_skip b cs acc : 0 ≤ b ≤ 32 → scheme_text ([b] :: cs) acc = scheme_text cs acc.
Proof.
  intros Hb. cbn [scheme_text]. unfold char_is_whitespace, char_is_control, is_space1.
  by replace ((9 <=? b) && (b <=? 13) || (b =? 32) || ((0 <=? b) && (b <? 32) || (b =? 127))) with true by lia.
Qed.
Lemma scheme_of_text s acc r fuel :
  scheme_of s acc = Some r → (length s ≤ fuel)%nat → scheme_text (chars_go fuel s) acc = Some r ∧ r ≠ [].
Proof.
  revert acc fuel. induction s as [|b s IH]; intros acc fuel E Hf; [done|]. cbn [scheme_of] in E. simpl in Hf.
  destruct fuel as [|fuel]; [lia|]. destruct ((b =? 9) || (b =? 10) || (b =? 13)) eqn:Ews.
  { rewrite chars_ascii, scheme_text_skip by lia. apply IH; [done|lia]. }
  destruct (Z.eqb_spec b 58) as [->|H58].
  { case_bool_decide; [done|]. injection E as <-. by rewrite chars_ascii by lia. }
  destruct (scheme_char b && _) eqn:Ec; [|done]. apply andb_true_iff in Ec as [Ec _].
  assert (b ≠ 127) by (unfold scheme_char, is_ascii_alphanumeric, is_ascii_alphabetic, is_ascii_upper, is_ascii_lower, is_digit in Ec; lia).
  apply scheme_char_ascii in Ec as (? & ? & ? & ?). rewrite chars_ascii, scheme_text_char by lia. apply IH; [done|lia].
Qed.
Lemma browser_scheme_text v s : browser_scheme v = Some s → scheme_text (chars v) [] = Some s ∧ s ≠ [].
Proof.
  unfold browser_scheme, chars. enough (∀ fuel, (length v ≤ fuel)%nat → scheme_of (drop_while (λ b, (0 <=? b) && (b <=? 32)) v) [] = Some s →
    scheme_text (chars_go fuel v) [] = Some s ∧ s ≠ []) as H by by apply H.
  induction v as [|b v IH]; intros fuel Hf E; [done|]. cbn [drop_while] in E. destruct ((0 <=? b) && (b <=? 32)) eqn:Eb.
  - destruct fuel as [|fuel]; simpl in Hf; [lia|]. rewrite chars_ascii, scheme_text_skip by lia. apply IH; [lia|done].
  - by eapply scheme_of_text.
Qed.
(** What the sanitizer lets through has a scheme it knows. *)
Lemma url_scheme_sound v :
  (url_scheme v ≠ Unsafe → scheme_in v (INLINE_SCHEMES ++ SAFE_SCHEMES)) ∧
  (url_scheme v ≠ Unsafe → url_scheme v ≠ Safe → scheme_in v INLINE_SCHEMES).
Proof.
  unfold scheme_in, url_scheme, INLINE_SCHEMES. split.
  - intros Hu s [E Hne]%browser_scheme_text. rewrite E, bool_decide_false in Hu by done.
    rewrite elem_of_app, !elem_of_cons. repeat case_bool_decide; subst; try done; auto.
  - intros Hu Hs s [E Hne]%browser_scheme_text. rewrite E, bool_decide_false in Hu, Hs by done.
    rewrite !elem_of_cons. repeat case_bool_decide; subst; try done; auto.
Qed.

(** *** The tables *)

Definition plain_byte (b : Z) : bool := is_ascii_lower b || is_digit b.
Definition name_ok (name : bytes) : bool :=
  forallb plain_byte name && match name with b :: _ => is_ascii_lower b | [] => false end && negb (bool_decide (name ∈ DANGEROUS_TAGS)).
Definition attr_ok (n : bytes) : bool :=
  forallb plain_byte n && negb (bool_decide (n = [])) && negb (starts_with n (bs "on")) && negb (bool_decide (n ∈ DANGEROUS_ATTRIBUTES))
  && (negb (bool_decide (n ∈ URL_ATTRIBUTES)) || is_url_attribute n) && (negb (bool_decide (n ∈ LOADED_ATTRIBUTES)) || is_fetching_attribute n).
Lemma attr_ok_spec n :
  attr_ok n = true →
  n ∉ DANGEROUS_ATTRIBUTES ∧ (n ∈ URL_ATTRIBUTES → is_url_attribute n = true) ∧ (n ∈ LOADED_ATTRIBUTES → is_fetching_attribute n = true).
Proof.
  unfold attr_ok. rewrite !andb_true_iff, !orb_true_iff, !negb_true_iff, !bool_decide_eq_false. intros [[[_ Hd] Hu] Hl].
  split; [done|]. by split; [intros ?; destruct Hu|intros ?; destruct Hl].
Qed.
Lemma tag_row_spec table name l :
  tag_row table name = Some l → ∃ names extra, (names, extra) ∈ table ∧ name ∈ names ∧ l = COMMON ++ extra.
Proof.
  induction table as [|[names extra] table IH]; simpl; [done|]. case_bool_decide.
  - intros [= <-]. exists names, extra. split; [left|]. done.
  - intros (n & e & ? & ? & ?)%IH. exists n, e. split; [by right|done].
Qed.
Lemma allowed_ok name l :
  allowed_tag_attributes name = Some l → name_ok name = true ∧ Forall (λ n, attr_ok n = true) l.
Proof.
  intros (names & extra & Hin & Hn & ->)%tag_row_spec.
  assert (forallb (λ row, forallb name_ok row.1 && forallb attr_ok (COMMON ++ row.2)) ALLOWED_TAGS = true) as Ht by (vm_compute; reflexivity).
  rewrite forallb_forall in Ht. specialize (Ht _ (proj1 (list_elem_of_In _ _) Hin)). apply andb_true_iff in Ht as [H1 H2].
  rewrite forallb_forall in H1, H2. split; [by apply H1, list_elem_of_In|].
  apply Forall_forall. intros n Hn'. by apply H2, list_elem_of_In.
Qed.

(** *** Reading the output *)

Lemma read_text s : Forall (λ b, b ≠ 60) s → html_read DataState s = (DataState, HChar <$> s).
Proof. induction 1 as [|b s Hb _ IH]; [done|]. cbn [html_read read_step]. by rewrite (proj2 (Z.eqb_neq b 60) Hb), IH. Qed.
Lemma plain_byte_spec b :
  plain_byte b = true → to_lower b = b ∧ html_space b = false ∧ b ≠ 47 ∧ b ≠ 62 ∧ b ≠ 61 ∧ b ≠ 60.
Proof. unfold plain_byte, to_lower, html_space, is_ascii_lower, is_ascii_upper, is_digit. intros H. split_and!; [case_match|..]; lia. Qed.
Lemma read_tag_name t s :
  forallb plain_byte s = true → html_read (TagName t) s = (TagName (mkTag (t_end t) (t_name t ++ s) (t_attrs t)), []).
Proof.
  revert t. induction s as [|b s IH]; intros [e n a]; simpl; [by rewrite app_nil_r|]. intros [Hb Hs]%andb_true_iff.
  apply plain_byte_spec in Hb as (-> & -> & H47 & H62 & _). rewrite (proj2 (Z.eqb_neq b 47) H47), (proj2 (Z.eqb_neq b 62) H62).
  cbn [go]. rewrite IH by done. simpl. by rewrite <-app_assoc.
Qed.
Lemma read_attr_name t n s :
  forallb plain_byte s = true → html_read (InName t n) s = (InName t (n ++ s), []).
Proof.
  revert n. induction s as [|b s IH]; intros n; simpl; [by rewrite app_nil_r|]. intros [Hb Hs]%andb_true_iff.
  apply plain_byte_spec in Hb as (-> & -> & H47 & H62 & H61 & _).
  rewrite (proj2 (Z.eqb_neq b 47) H47), (proj2 (Z.eqb_neq b 62) H62), (proj2 (Z.eqb_neq b 61) H61).
  cbn [go]. rewrite IH by done. by rewrite <-app_assoc.
Qed.
Lemma read_quoted t n v s :
  Forall (λ b, b ≠ 34) s → html_read (DoubleQuoted t n v) s = (DoubleQuoted t n (v ++ s), []).
Proof.
  intros Hs. revert v. induction Hs as [|b s Hb _ IH]; intros v; simpl; [by rewrite app_nil_r|].
  rewrite (proj2 (Z.eqb_neq b 34) Hb). cbn [go]. rewrite IH. by rewrite <-app_assoc.
Qed.
Lemma escape_attribute_quoteless v : Forall (λ b, b ≠ 34) (escape_attribute v).
Proof.
  unfold escape_attribute. induction v as [|b v IH]; [constructor|]. rewrite bind_cons. apply Forall_app. split; [|done].
  unfold escape_attribute_byte. repeat case_match; try (by apply (bool_decide_unpack _)). apply Forall_singleton. lia.
Qed.
Lemma escape_text_bracketless t : Forall (λ b, b ≠ 60) (escape_text t).
Proof.
  unfold escape_text. induction t as [|b t IH]; [constructor|]. rewrite bind_cons. apply Forall_app. split; [|done].
  unfold escape_text_byte. repeat case_match; try (by apply (bool_decide_unpack _)). apply Forall_singleton. lia.
Qed.
(** Inside a start tag, after its name or a value. *)
Definition inside (t : Tag) (st : Reading) : Prop := st = TagName t ∨ st = AfterValue t.
Lemma read_attribute t st n v :
  inside t st → attr_ok n = true →
  html_read st ([32] ++ rendered n v) = (AfterValue (mkTag (t_end t) (t_name t) (t_attrs t ++ [(n, v)])), []).
Proof.
  intros Hst Hn. unfold attr_ok in Hn. repeat (apply andb_true_iff in Hn as [Hn ?]).
  assert (html_read st [32] = (BeforeName t, [])) as H32 by (by destruct Hst as [->| ->]).
  rewrite html_read_app, H32. unfold rendered. destruct n as [|b n]; [done|].
  cbn [forallb] in Hn. apply andb_true_iff in Hn as [Hb Hn].
  assert (html_read (BeforeName t) (b :: n) = (InName t (b :: n), [])) as Hname.
  { cbn [html_read read_step]. unfold before_name. apply plain_byte_spec in Hb as (-> & -> & H47 & H62 & _).
    rewrite (proj2 (Z.eqb_neq b 47) H47), (proj2 (Z.eqb_neq b 62) H62). cbn [go]. rewrite read_attr_name by done. done. }
  rewrite html_read_app, Hname.
  assert (html_read (InName t (b :: n)) [61; 34] = (DoubleQuoted t (b :: n) [], [])) as Heq by reflexivity.
  change (bs "=" ++ [34] ++ escape_attribute v ++ [34]) with ([61; 34] ++ escape_attribute v ++ [34]).
  rewrite html_read_app, Heq, html_read_app, read_quoted by apply escape_attribute_quoteless.
  cbn [app html_read read_step Z.eqb Pos.eqb go].
  unfold with_attr. unfold escape_attribute. by rewrite decoded_escape by apply escapes_attribute.
Qed.

(** An attribute that stays is safe. *)
Lemma sanitize_attribute_safe attr value allowed allow r blocked :
  Forall (λ n, attr_ok n = true) allowed → sanitize_attribute attr value allowed allow = (Some r, blocked) →
  ∃ v, r = rendered attr v ∧ attr_ok attr = true ∧ safe_attribute allow (attr, v).
Proof.
  intros Hall E. unfold sanitize_attribute in E. destruct (starts_with attr (bs "on")) eqn:Eon; [done|].
  case_bool_decide as Hin; cbn [negb] in E; [|done]. rewrite Forall_forall in Hall. pose proof (Hall _ Hin) as Hok.
  assert (∀ v, (attr ∈ URL_ATTRIBUTES → scheme_in v (INLINE_SCHEMES ++ SAFE_SCHEMES)) →
    (allow = false → attr ∈ LOADED_ATTRIBUTES → scheme_in v INLINE_SCHEMES) → r = rendered attr v →
    ∃ v, r = rendered attr v ∧ attr_ok attr = true ∧ safe_attribute allow (attr, v)) as Hv.
  { intros v H1 H2 ->. exists v. split_and!; [done|done|]. split_and!; [done| |done|done].
    by apply attr_ok_spec. }
  destruct (attr_ok_spec _ Hok) as (_ & Hurl & Hfetch).
  assert (attr ∈ LOADED_ATTRIBUTES → is_fetching_attribute attr = true ∧ is_url_attribute attr = true) as Hload.
  { intros Hl. split; [by apply Hfetch|]. apply Hurl. revert Hl. unfold LOADED_ATTRIBUTES, URL_ATTRIBUTES. set_solver. }
  set (value' := default [] value) in *. destruct (url_scheme_sound value') as [Hs1 Hs2]. destruct (is_url_attribute attr) eqn:Eu.
  - destruct (url_scheme value') eqn:Es; try done.
    + injection E as <- _. apply (Hv value'); [by auto|by auto|done].
    + injection E as <- _. apply (Hv value'); [by auto|by auto|done].
    + destruct (is_fetching_attribute attr && negb allow) eqn:Ef; injection E as <- _.
      * by apply (Hv []).
      * apply (Hv value'); [by auto| |done]. intros -> Hl. destruct (Hload Hl) as [Hf _]. by rewrite Hf in Ef.
    + injection E as <- _. apply (Hv value'); [by auto|by auto|done].
  - injection E as <- _. apply (Hv value'); [|intros _ Hl|done]; [intros Hu; by apply Hurl in Hu|by destruct (Hload Hl)].
Qed.

Abbreviation read p := (html_read DataState (html (pg_out p))).
Lemma read_push b p : read (push b p) = let '(st, ps) := read p in let '(st, qs) := html_read st b in (st, ps ++ qs).
Proof. unfold push. cbn [pg_out html]. apply html_read_app. Qed.

(** The attributes of a tag. *)
Lemma read_attributes allowed allow attrs p t st ps :
  Forall (λ n, attr_ok n = true) allowed → read p = (st, ps) → inside t st → Forall (safe_attribute allow) (t_attrs t) →
  ∃ st' attrs', read (foldl (push_attribute allowed allow) p attrs) = (st', ps) ∧
    inside (mkTag (t_end t) (t_name t) attrs') st' ∧ Forall (safe_attribute allow) attrs' ∧
    suppress_depth (foldl (push_attribute allowed allow) p attrs) = suppress_depth p.
Proof.
  intros Hall. revert p t st. induction attrs as [|[attr value] attrs IH]; intros p t st Hp Hst Ht; cbn [foldl].
  { exists st, (t_attrs t). by destruct t. }
  unfold push_attribute at 2 4. cbn [fst snd]. destruct (sanitize_attribute attr value allowed allow) as [[r|] blocked] eqn:E.
  - destruct (sanitize_attribute_safe _ _ _ _ _ _ Hall E) as (v & -> & Hok & Hsafe).
    set (p1 := mkProgress _ _). assert (read p1 = (st, ps)) as Hp1 by done.
    destruct (IH (push ([32] ++ rendered attr v) p1) (mkTag (t_end t) (t_name t) (t_attrs t ++ [(attr, v)]))
      (AfterValue (mkTag (t_end t) (t_name t) (t_attrs t ++ [(attr, v)])))) as (st' & attrs' & H1 & H2 & H3 & H4).
    + rewrite read_push, Hp1, (read_attribute t st attr v Hst Hok). by rewrite app_nil_r.
    + by right.
    + apply Forall_app. by split; [|apply Forall_singleton].
    + exists st', attrs'. by split_and!.
  - set (p1 := mkProgress _ _). destruct (IH p1 t st) as (st' & attrs' & H1 & H2 & H3 & H4); [done..|]. exists st', attrs'. by split_and!.
Qed.
Lemma read_finish t st (self_closing : bool) :
  inside t st → t_end t = false → t_name t ∉ RAW_TEXT →
  html_read st (if self_closing then bs " />" else bs ">") = (DataState, [HStart (t_name t) (t_attrs t)]).
Proof.
  intros Hst He Hn. assert (finish t = (DataState, [HStart (t_name t) (t_attrs t)])) as Hf
    by (unfold finish; by rewrite He, bool_decide_false).
  destruct self_closing; [change (bs " />") with [32; 47; 62]|change (bs ">") with [62]];
    destruct Hst as [-> | ->]; cbn -[finish]; by rewrite Hf.
Qed.

Lemma name_ok_spec name :
  name_ok name = true →
  ∃ b s, name = b :: s ∧ is_ascii_lower b = true ∧ forallb plain_byte s = true ∧ name ∉ DANGEROUS_TAGS ∧ name ∉ RAW_TEXT.
Proof.
  unfold name_ok. rewrite !andb_true_iff, negb_true_iff, bool_decide_eq_false. intros [[Hp Hb] Hd]. destruct name as [|b s]; [done|].
  apply andb_true_iff in Hp as [_ Hs]. exists b, s. split_and!; try done. intros Hr. apply Hd. unfold DANGEROUS_TAGS. apply elem_of_app. by left.
Qed.
Lemma lower_letter b : is_ascii_lower b = true → is_ascii_alphabetic b = true ∧ to_lower b = b ∧ b ≠ 47.
Proof. unfold is_ascii_alphabetic, to_lower, is_ascii_lower, is_ascii_upper. intros. split_and!; [lia|case_match; lia|lia]. Qed.
Lemma read_start name : name_ok name = true → html_read DataState ([60] ++ name) = (TagName (mkTag false name []), []).
Proof.
  intros (b & s & -> & Hb & Hs & _)%name_ok_spec. destruct (lower_letter b Hb) as (Ha & Hl & H47).
  cbn [app html_read read_step Z.eqb Pos.eqb go]. rewrite (proj2 (Z.eqb_neq b 47) H47), Ha, Hl. cbn [go]. by rewrite read_tag_name.
Qed.
Lemma read_end name : name_ok name = true → html_read DataState (bs "</" ++ name ++ bs ">") = (DataState, [HEnd name]).
Proof.
  intros (b & s & -> & Hb & Hs & _)%name_ok_spec. destruct (lower_letter b Hb) as (Ha & Hl & H47).
  change (bs "</" ++ (b :: s) ++ bs ">") with ([60; 47; b] ++ s ++ [62]). rewrite html_read_app.
  assert (html_read DataState [60; 47; b] = (TagName (mkTag true [b] []), [])) as -> by (cbn; rewrite Ha, Hl; done).
  by rewrite html_read_app, read_tag_name.
Qed.
Lemma text_of_chars s : text_of (HChar <$> s) = s.
Proof. induction s as [|b s IH]; [done|]. cbn. f_equal. exact IH. Qed.

(** What a token adds to the output reads as safe pieces, with its text if it
    is to be seen. *)
Definition adds (allow : bool) (t : Token) (p p' : Progress) : Prop :=
  ∀ ps, read p = (DataState, ps) →
  ∃ qs v, read p' = (DataState, ps ++ qs) ∧ Forall (safe_piece allow) qs ∧ text_of qs = escape_text v ∧
    ∀ ts, visible (suppress_depth p) (t :: ts) = v ++ visible (suppress_depth p') ts.
Lemma adds_nothing allow t p p' :
  pg_out p' = pg_out p → (∀ ts, visible (suppress_depth p) (t :: ts) = visible (suppress_depth p') ts) → adds allow t p p'.
Proof. intros Ho Hv ps Hp. exists [], []. rewrite Ho, app_nil_r. split; [done|]. split; [constructor|done]. Qed.
Lemma adds_text allow text p : suppress_depth p = 0%nat → adds allow (Text text) p (push (escape_text text) p).
Proof.
  intros E ps Hp. exists (HChar <$> escape_text text), text. rewrite read_push, Hp, read_text by apply escape_text_bracketless. split; [done|].
  split; [apply Forall_fmap, Forall_true; done|]. split; [by rewrite text_of_chars|]. intros ts. cbn [visible push suppress_depth]. by rewrite E.
Qed.
Lemma adds_start allow name attributes self_closing (closed : bool) allowed p :
  drops_content name = false → allowed_tag_attributes name = Some allowed →
  adds allow (StartTag name attributes self_closing) p
    (push (if closed then bs " />" else bs ">") (foldl (push_attribute allowed allow) (push ([60] ++ name) p) attributes)).
Proof.
  intros Ed Ea ps Hp. destruct (allowed_ok _ _ Ea) as [Hn Hall]. pose proof (name_ok_spec _ Hn) as (? & ? & _ & _ & _ & Hd & Hr).
  destruct (read_attributes allowed allow attributes (push ([60] ++ name) p) (mkTag false name []) (TagName (mkTag false name [])) ps)
    as (st & attrs & H1 & H2 & H3 & H4); [done|by rewrite read_push, Hp, read_start, app_nil_r|by left|constructor|].
  exists [HStart name attrs], []. rewrite read_push, H1, (read_finish (mkTag false name attrs) st) by done. split; [done|].
  split; [by apply Forall_singleton|]. split; [done|]. intros ts. cbn [visible push suppress_depth]. by rewrite H4, Ed.
Qed.
Lemma adds_end allow name p :
  drops_content name = false → is_Some (allowed_tag_attributes name) → adds allow (EndTag name) p (push (bs "</" ++ name ++ bs ">") p).
Proof.
  intros Ed [allowed Ea] ps Hp. destruct (allowed_ok _ _ Ea) as [Hn _]. pose proof (name_ok_spec _ Hn) as (? & ? & _ & _ & _ & Hd & _).
  exists [HEnd name], []. rewrite read_push, Hp, read_end by done. split; [done|]. split; [by apply Forall_singleton|]. split; [done|].
  intros ts. cbn [visible push suppress_depth]. by rewrite Ed.
Qed.
Lemma sanitize_token_adds allow t p : adds allow t p (sanitize_token allow p t).
Proof.
  destruct t as [text|name attributes self_closing|name]; cbn [sanitize_token];
    destruct (Nat.eqb_spec (suppress_depth p) 0) as [E|E]; cbn [negb].
  - by apply adds_text.
  - apply adds_nothing; [done|]. intros ts. cbn. by rewrite (proj2 (Nat.eqb_neq _ _) E).
  - destruct (drops_content name) eqn:Ed; [apply adds_nothing; [done|]; intros ts; cbn; by rewrite Ed, E|].
    destruct (allowed_tag_attributes name) as [allowed|] eqn:Ea; [by apply adds_start|].
    apply adds_nothing; [done|]. intros ts. cbn. by rewrite Ed.
  - destruct (drops_content name) eqn:Ed; (apply adds_nothing; [done|]; intros ts; cbn; by rewrite Ed).
  - destruct (drops_content name) eqn:Ed; [apply adds_nothing; [done|]; intros ts; cbn; by rewrite Ed, E|]. cbn [orb].
    destruct (is_void name); [apply adds_nothing; [done|]; intros ts; cbn; by rewrite Ed|].
    case_bool_decide; [by apply adds_end|]. apply adds_nothing; [done|]. intros ts. cbn. by rewrite Ed.
  - destruct (drops_content name) eqn:Ed; (apply adds_nothing; [done|]; intros ts; cbn; by rewrite Ed).
Qed.

Lemma text_of_app ps qs : text_of (ps ++ qs) = text_of ps ++ text_of qs.
Proof. apply omap_app. Qed.
Lemma sanitize_tokens_read allow ts p ps :
  read p = (DataState, ps) →
  ∃ qs, read (foldl (sanitize_token allow) p ts) = (DataState, ps ++ qs) ∧ Forall (safe_piece allow) qs ∧
    text_of qs = escape_text (visible (suppress_depth p) ts).
Proof.
  revert p ps. induction ts as [|t ts IH]; intros p ps Hp.
  { exists []. rewrite app_nil_r. split; [done|]. split; [constructor|done]. }
  destruct (sanitize_token_adds allow t p ps Hp) as (qs1 & v & H1 & Hs1 & Ht1 & Hv1). cbn [foldl].
  destruct (IH _ _ H1) as (qs2 & H2 & Hs2 & Ht2). exists (qs1 ++ qs2). rewrite H2, app_assoc. split; [done|].
  split; [by apply Forall_app|]. rewrite text_of_app, Ht1, Ht2, Hv1. unfold escape_text. by rewrite bind_app.
Qed.


(** ** The tokenizer reads to the end

    Every turn of its loops consumes a byte, so the fuel is enough: more of it
    changes nothing. *)

Lemma length_drop_while p s : (length (drop_while p s) ≤ length s)%nat.
Proof. induction s as [|b s IH]; cbn; [lia|]. case_match; cbn; lia. Qed.
Lemma drop_while_head p s b r : drop_while p s = b :: r → p b = false.
Proof. induction s as [|c s IH]; cbn; [done|]. destruct (p c) eqn:E; [done|]. by intros [= <- <-]. Qed.
Lemma length_skip_until needle s : (length (skip_until needle s) ≤ length s)%nat.
Proof. induction s as [|b s IH]; cbn [skip_until]; (case_match; [rewrite length_drop; lia|]); cbn; lia. Qed.
Lemma length_attr_value s : (length (read_attr_value s).2 ≤ length s)%nat.
Proof.
  destruct s as [|q r]; [done|]. cbn [read_attr_value]. case_match; cbn [snd].
  - rewrite length_drop. pose proof (length_drop_while (λ b, negb (b =? q)) r). cbn. lia.
  - apply length_drop_while.
Qed.
Lemma length_value s : (length (attr_value s).2 ≤ length s)%nat.
Proof.
  destruct s as [|b r]; [done|]. cbn [attr_value]. case_match; [|done].
  pose proof (length_attr_value (drop_while is_ascii_whitespace r)) as Hv. pose proof (length_drop_while is_ascii_whitespace r).
  destruct (read_attr_value _) as [v s']. cbn in *. lia.
Qed.
(** After an attribute less is left. *)
Lemma length_after_attribute b r :
  is_ascii_whitespace b = false → b ≠ 62 → b ≠ 47 →
  (length (attr_value (drop_while is_ascii_whitespace (drop_while in_attr_name (b :: r)))).2 ≤ length r)%nat.
Proof.
  intros Hw H62 H47. pose proof (length_drop_while in_attr_name r). cbn [drop_while]. destruct (in_attr_name b) eqn:En.
  - pose proof (length_value (drop_while is_ascii_whitespace (drop_while in_attr_name r))).
    pose proof (length_drop_while is_ascii_whitespace (drop_while in_attr_name r)). lia.
  - assert (b = 61) as -> by (unfold in_attr_name in En; rewrite Hw in En; lia).
    cbn [drop_while]. change (is_ascii_whitespace 61) with false. cbn [attr_value Z.eqb Pos.eqb].
    pose proof (length_attr_value (drop_while is_ascii_whitespace r)) as Hv. pose proof (length_drop_while is_ascii_whitespace r).
    destruct (read_attr_value _) as [v s']. cbn in *. lia.
Qed.
Lemma parse_attributes_enough f1 f2 attributes self_closing s :
  (length s < f1)%nat → (length s < f2)%nat →
  parse_attributes f1 attributes self_closing s = parse_attributes f2 attributes self_closing s.
Proof.
  revert f2 attributes self_closing s. induction f1 as [|f1 IH]; intros [|f2] attributes self_closing s H1 H2; try lia. cbn [parse_attributes].
  pose proof (length_drop_while is_ascii_whitespace s) as Hl. destruct (drop_while is_ascii_whitespace s) as [|b r] eqn:E; [done|]. cbn in Hl.
  apply drop_while_head in E. destruct (Z.eqb_spec b 62) as [|H62]; [done|]. destruct (Z.eqb_spec b 47) as [|H47]; [apply IH; lia|].
  pose proof (length_after_attribute b r E H62 H47) as Ha. destruct (attr_value _) as [v s'].
  apply IH; cbn in Ha; lia.
Qed.
Lemma length_parse_attributes fuel attributes self_closing s a c s' :
  parse_attributes fuel attributes self_closing s = Some (a, c, s') → (length s' ≤ length s)%nat.
Proof.
  revert attributes self_closing s. induction fuel as [|fuel IH]; intros attributes self_closing s; cbn [parse_attributes]; [done|].
  pose proof (length_drop_while is_ascii_whitespace s) as Hl. destruct (drop_while is_ascii_whitespace s) as [|b r] eqn:E; [done|]. cbn in Hl.
  apply drop_while_head in E. destruct (Z.eqb_spec b 62) as [|H62]; [intros [= _ _ <-]; lia|].
  destruct (Z.eqb_spec b 47) as [|H47]; [intros ?%IH; lia|].
  pose proof (length_after_attribute b r E H62 H47) as Ha. destruct (attr_value _) as [v s1].
  intros ?%IH. cbn in Ha. lia.
Qed.
Lemma length_parse_tag s t s' : parse_tag s = Some (t, s') → (length s' ≤ length s)%nat.
Proof.
  unfold parse_tag. intros E. set (s1 := if starts_with s [47] then drop 1 s else s) in E.
  assert (length s1 ≤ length s)%nat as Hx by (clear E; unfold s1; case_match; rewrite ?length_drop; lia).
  pose proof (length_drop_while in_tag_name s1) as Hd. set (s2 := drop_while in_tag_name s1) in *.
  pose proof (length_skip_until [62] s2). case_bool_decide; [injection E as <- <-; lia|]. destruct (starts_with s [47]); [injection E as <- <-; lia|].
  destruct (parse_attributes _ _ _ s2) as [[[a c] s3]|] eqn:Ep; simpl in E; [|done]. injection E as <- <-.
  apply length_parse_attributes in Ep. lia.
Qed.
Lemma length_scan_text s text r : scan_text s = (text, Some r) → (length r < length s)%nat.
Proof.
  revert text. induction s as [|b s IH]; intros text; cbn [scan_text]; [done|]. case_match; [intros [= <- <-]; cbn; lia|].
  destruct (scan_text s) as [t [r'|]]; [|done]. intros [= <- <-]. specialize (IH t eq_refl). cbn. lia.
Qed.
Lemma length_skip_markup s s' : skip_markup s = Some s' → (length s' ≤ length s)%nat.
Proof.
  unfold skip_markup. repeat case_match; intros [= <-].
  - pose proof (length_skip_until (bs "-->") (drop 3 s)) as Hs. rewrite length_drop in Hs. lia.
  - pose proof (length_skip_until [62] (drop 1 s)) as Hs. rewrite length_drop in Hs. lia.
Qed.
Lemma html_tokens_enough f1 f2 s : (length s < f1)%nat → (length s < f2)%nat → html_tokens f1 s = html_tokens f2 s.
Proof.
  revert f2 s. induction f1 as [|f1 IH]; intros [|f2] s H1 H2; try lia. cbn [html_tokens].
  destruct (scan_text s) as [text [r|]] eqn:E; [|done]. apply length_scan_text in E. f_equal.
  destruct (skip_markup r) as [r'|] eqn:Em; [apply length_skip_markup in Em; apply IH; lia|].
  destruct (parse_tag r) as [[t r']|] eqn:Ep; [|done]. apply length_parse_tag in Ep. f_equal. apply IH; lia.
Qed.

(** ** Concrete cases *)

Definition sanitized (s : string) : Sanitized := sanitize_html (bs s) false.
Definition q (s : string) : string := String.String (Ascii.ascii_of_nat 34) (s ++ String.String (Ascii.ascii_of_nat 34) "").

Example script_dropped :
  sanitized "<p onclick=x>hi<script>alert(1)</script> <a href=javascript:x>there</a></p>" = mkSanitized (bs "<p>hi <a>there</a></p>") false.
Proof. vm_compute. reflexivity. Qed.
Example remote_image_blocked :
  sanitized "<img src=http://x/t.png alt=t>" = mkSanitized (bs ("<img src=" ++ q "" ++ " alt=" ++ q "t" ++ " />")) true.
Proof. vm_compute. reflexivity. Qed.
(** An image without a scheme is loaded from another host all the same: remote
    content is not wanted, none is reported as blocked, and the image stays. *)
Theorem remote_image_without_scheme :
  sanitized "<img src=//tracker.example/t.png>" = mkSanitized (bs ("<img src=" ++ q "//tracker.example/t.png" ++ " />")) false.
Proof. vm_compute. reflexivity. Qed.
(** A character reference of the message is escaped once more, and shown. *)
Theorem references_escaped_twice :
  sanitized "<a href=/?a&amp;b>x &amp; y</a>" = mkSanitized (bs ("<a href=" ++ q "/?a&amp;amp;b" ++ ">x &amp;amp; y</a>")) false.
Proof. vm_compute. reflexivity. Qed.
