(* ===== verification/SmtpSession.v ===== *)
(** * The SMTP session (crates/smtp/src/session.rs)

    One connection: the stream, the protocol state and the services behind it.
    A session is a record with the remaining input and the output so far; every
    method is a state-passing function, and an error ends the session.  The
    directory, the mail side, the greylist and the rate limiter are the
    interface [SessionWorld]. *)

From S2P Require Import Prelude Bytes Key Store Text Ttl Expiring Blobs QueueModel QueueStore QueueDeliver SmtpVerdict SmtpCommands SmtpSubmit.
From stdpp Require Import base gmap list strings relations.
From Stdlib Require Import ZArith Lia.

Open Scope Z_scope.

(** ** Data *)

Definition MAX_LINE_LENGTH : nat := 1024.
Definition GREETING : bytes := line "220 IRIXMAIL ESMTP ready".
Definition UNROUTABLE : bytes := line "550 5.1.1 Mailbox unavailable".
Definition HOSTNAME : bytes := bs "irixmail".
Definition MAX_MESSAGE_SIZE : Z := 25 * 1024 * 1024.

Inductive Verb : Type :=
  | VEhlo | VHelo | VMail | VRcpt | VData | VBdat | VStartTls | VAuth | VRset | VNoop | VQuit | VUnknown.

Definition is_word_end (b : Z) : bool := (b =? 32) || (b =? 9) || (b =? 13) || (b =? 10).

(** [Verb::from_line]. *)
Definition from_line (l : bytes) : Verb :=
  let word := take_while (λ b, negb (is_word_end b)) l in
  if (length word =? 0)%nat || (8 <? length word)%nat then VUnknown
  else
    let keyword := to_ascii_uppercase word in
    if bool_decide (keyword = bs "EHLO") then VEhlo
    else if bool_decide (keyword = bs "HELO") then VHelo
    else if bool_decide (keyword = bs "MAIL") then VMail
    else if bool_decide (keyword = bs "RCPT") then VRcpt
    else if bool_decide (keyword = bs "DATA") then VData
    else if bool_decide (keyword = bs "BDAT") then VBdat
    else if bool_decide (keyword = bs "STARTTLS") then VStartTls
    else if bool_decide (keyword = bs "AUTH") then VAuth
    else if bool_decide (keyword = bs "RSET") then VRset
    else if bool_decide (keyword = bs "NOOP") then VNoop
    else if bool_decide (keyword = bs "QUIT") then VQuit
    else VUnknown.

Inductive Stage : Type := StConnected | StGreeted | StMail | StRcpt.
#[global] Instance Stage_eq_dec : EqDecision Stage.
Proof. solve_decision. Defined.

Inductive SmtpMode : Type := ModeInbound | ModeSubmission.
#[global] Instance SmtpMode_eq_dec : EqDecision SmtpMode.
Proof. solve_decision. Defined.

(** [SessionServices], with what the session reads of them: the blocklist
    zones, the SPF host domain and the reporting host name. *)
Inductive SessionServices : Type :=
  | SvcInbound (zones : list bytes) (host_domain : bytes) (hostname : option bytes)
  | SvcSubmission.
Definition services_mode (s : SessionServices) : SmtpMode :=
  match s with SvcInbound _ _ _ => ModeInbound | SvcSubmission => ModeSubmission end.

Record SessionData : Type := mkData {
  helo_domain : bytes;
  mail_from : option bytes;
  smtputf8 : bool;
  rcpt_to : list bytes;
  is_tls : bool;
  authenticated : bool;
}.

(** [SessionData::reset_transaction]. *)
Definition reset_transaction (d : SessionData) : SessionData :=
  mkData (helo_domain d) None false [] (is_tls d) (authenticated d).

Record AcceptedMessage : Type := mkAccepted {
  am_mail_from : option bytes; am_rcpt_to : list bytes; am_body : bytes }.

Inductive Flow : Type := FClose | FUpgrade.

(** [Account] of the directory, with the fields the session uses. *)
Record Account : Type := mkAccount {
  account_id : Z; local_part : bytes; domain_id : Z; aliases : list bytes; created_at : Z }.

Inductive LoginAttempt : Type := Granted (a : Account) | Denied | Throttled.

(** The stream: what the peer will still send and how the input ends, what was
    written, and the outcome of the coming writes (none listed: they succeed). *)
Record Stream : Type := mkStream {
  input : bytes; at_end : option Error; output : bytes; faults : list (option Error) }.

(** [DeliveryTarget], at the one value the session overrides it with. *)
Inductive DeliveryTarget : Type := RoleJunk.

Record DeliveryRequest (Mailbox Script : Type) : Type := mkRequest {
  req_account : Account; req_mailboxes : list Mailbox; req_sieve : option Script;
  req_mail_from : bytes; req_recipient : bytes; req_document_id : Z; req_raw : bytes;
  req_target : option DeliveryTarget; req_received_at : Z }.
Arguments mkRequest {Mailbox Script} _ _ _ _ _ _ _ _ _.
Arguments req_account {Mailbox Script} _.
Arguments req_recipient {Mailbox Script} _.

(** ** The services *)

Class SessionWorld (W Mailbox Script : Type) : Type := {
  sw_auth :: MailAuth W;
  sw_queue :: QueueWorld W;
  (** crates/directory *)
  attempt_login : bytes → bytes → bytes → M W LoginAttempt;
  resolve_address : bytes → W → result Resolution;
  domain_name : Z → W → result bytes;
  account_get : Z → W → result Account;
  compile_active_script : Z → W → option Script;
  (** crates/mail *)
  load_mailboxes : Z → W → result (list Mailbox);
  provision_mailboxes : Z → list Mailbox;
  mail_deliver : DeliveryRequest Mailbox Script → M W DeliveryOutcome;
  respond_vacations : list (Account * bytes) → list DeliveryOutcome → bytes → bytes → Z → W → W;
  (** The rate limiter and the greylist, in the state of this process. *)
  on_connect : IpAddr → W → Inbound.RateDecision * W;
  on_message : IpAddr → W → Inbound.RateDecision * W;
  greylist_check : bytes → bytes → bool → W → GreylistDecision * W;
  (** DKIM: [SubmissionServices::signer], which may create the domain's key. *)
  signer : bytes → W → option (bytes → result bytes) * W;
}.

Record Session (W : Type) : Type := mkSession {
  stream : Stream;
  peer : IpAddr;
  stage : Stage;
  data : SessionData;
  accepted : option AcceptedMessage;
  local_domains : list bytes;
  chunks : option ChunkReceiver;
  mode : SmtpMode;
  services : option SessionServices;
  dnsbl : DnsblDecision;
  account : option Account;
  starttls_upgrade : bool;
  world : W;
}.
Arguments mkSession {W} _ _ _ _ _ _ _ _ _ _ _ _ _.
Arguments stream {W} _.
Arguments peer {W} _.
Arguments stage {W} _.
Arguments data {W} _.
Arguments accepted {W} _.
Arguments local_domains {W} _.
Arguments chunks {W} _.
Arguments mode {W} _.
Arguments services {W} _.
Arguments dnsbl {W} _.
Arguments account {W} _.
Arguments starttls_upgrade {W} _.
Arguments world {W} _.

(** ** Bytes of a line *)

(** [strip_crlf]: the line feed is already gone. *)
Definition strip_crlf (l : bytes) : bytes := default l (Text.strip_suffix [CR] l).

(** [terminated]. *)
Definition terminated (l : bytes) : bytes := strip_crlf l ++ CRLF.

Definition is_blank (b : Z) : bool := (b =? 32) || (b =? 9).

(** [helo_argument]: the second word. *)
Definition helo_argument (l : bytes) : bytes :=
  let rest := drop_while (λ b, negb (is_blank b)) (strip_crlf l) in
  match rest with
  | [] => []
  | _ :: rest => utf8_lossy (take_while (λ b, negb (is_blank b)) (drop_while is_blank rest))
  end.

(** [domain_of], folded. *)
Definition domain_of (address : bytes) : option bytes :=
  match rsplit_once 64 address with
  | Some (_, []) | None => None
  | Some (_, domain) => Some (to_ascii_lowercase domain)
  end.

(** ** The stream *)

Definition set_input (i : bytes) (st : Stream) : Stream :=
  mkStream i (at_end st) (output st) (faults st).

(** [read_line]: bytes up to a line feed; a line of more than 1024 bytes is an
    error, and so is a failed read. *)
Fixpoint read_line_go (end_ : option Error) (inp buf : bytes) : result (bool * bytes) * bytes :=
  match inp with
  | [] =>
      (match end_ with
       | None => Ok (negb (length buf =? 0)%nat, buf)
       | Some e => Err e
       end, [])
  | b :: inp =>
      if b =? LF then (Ok (true, buf), inp)
      else if (MAX_LINE_LENGTH <=? length buf)%nat
      then (Err (Protocol "command line exceeds the maximum length"), inp)
      else read_line_go end_ inp (buf ++ [b])
  end.
Definition read_line_st : M Stream (bool * bytes) := λ st,
  let '(r, rest) := read_line_go (at_end st) (input st) [] in (r, set_input rest st).

(** [read_data_line]: no cap per line; past the message size bytes are
    dropped. *)
Fixpoint read_data_line_go (end_ : option Error) (inp buf : bytes) : result (bool * bytes) * bytes :=
  match inp with
  | [] =>
      (match end_ with
       | None => Ok (negb (length buf =? 0)%nat, buf)
       | Some e => Err e
       end, [])
  | b :: inp =>
      if b =? LF then (Ok (true, buf), inp)
      else read_data_line_go end_ inp
             (if Z.of_nat (length buf) <=? MAX_MESSAGE_SIZE then buf ++ [b] else buf)
  end.
Definition read_data_line_st : M Stream (bool * bytes) := λ st,
  let '(r, rest) := read_data_line_go (at_end st) (input st) [] in (r, set_input rest st).

(** The loop of [read_data].  Every turn reads at least one byte, so more
    turns than bytes are never needed. *)
Fixpoint read_data_loop (fuel : nat) (receiver : BodyReceiver) (overflowed : bool) : M Stream (option bytes) :=
  match fuel with
  | O => throw (Internal "the loop has stopped")
  | S fuel =>
      '(more, l) ← read_data_line_st;
      if negb more then throw (Protocol "connection closed during DATA")
      else
        let text := strip_crlf l in
        if (overflowed : bool) then
          if bool_decide (text = [46]) then mret None else read_data_loop fuel receiver true
        else
          match push_line receiver text with
          | (BodyContinue, receiver) => read_data_loop fuel receiver false
          | (BodyComplete, receiver) => mret (Some (body receiver))
          | (BodyTooLarge, receiver) => read_data_loop fuel receiver true
          end
  end.
Definition read_data_st : M Stream (option bytes) := λ st,
  read_data_loop (S (length (input st))) (mkBody [] MAX_MESSAGE_SIZE) false st.

(** [read_exact]: on a short stream everything is consumed. *)
Definition read_exact_st (count : Z) : M Stream bytes := λ st,
  if Z.of_nat (length (input st)) <? count
  then (Err (Protocol "connection closed during BDAT chunk"), set_input [] st)
  else (Ok (take (Z.to_nat count) (input st)), set_input (drop (Z.to_nat count) (input st)) st).

(** [drain_chunk]: 4096 bytes at a time. *)
Fixpoint drain_loop (fuel : nat) (remaining : Z) : M Stream unit :=
  match fuel with
  | O => mret tt
  | S fuel =>
      if 0 <? remaining then
        let n := Z.min remaining 4096 in
        _ ← read_exact_st n; drain_loop fuel (remaining - n)
      else mret tt
  end.
Definition drain_chunk_st (count : Z) : M Stream unit := drain_loop (S (Z.to_nat (count / 4096))) count.

(** [write_all] and [flush]. *)
Definition write_st (b : bytes) : M Stream unit := λ st,
  match faults st with
  | Some e :: fs => (Err e, mkStream (input st) (at_end st) (output st) fs)
  | None :: fs => (Ok tt, mkStream (input st) (at_end st) (output st ++ b) fs)
  | [] => (Ok tt, mkStream (input st) (at_end st) (output st ++ b) [])
  end.

(** ** The session *)

Section session.
Context {W Mailbox Script : Type} {proto : SmtpProto} {sw : SessionWorld W Mailbox Script}.
Implicit Type s : Session W.

(** Field updates. *)
Definition set_stream (x : Stream) s : Session W :=
  mkSession x (peer s) (stage s) (data s) (accepted s) (local_domains s) (chunks s) (mode s) (services s)
    (dnsbl s) (account s) (starttls_upgrade s) (world s).
Definition set_stage (x : Stage) s : Session W :=
  mkSession (stream s) (peer s) x (data s) (accepted s) (local_domains s) (chunks s) (mode s) (services s)
    (dnsbl s) (account s) (starttls_upgrade s) (world s).
Definition set_data (x : SessionData) s : Session W :=
  mkSession (stream s) (peer s) (stage s) x (accepted s) (local_domains s) (chunks s) (mode s) (services s)
    (dnsbl s) (account s) (starttls_upgrade s) (world s).
Definition set_accepted (x : AcceptedMessage) s : Session W :=
  mkSession (stream s) (peer s) (stage s) (data s) (Some x) (local_domains s) (chunks s) (mode s) (services s)
    (dnsbl s) (account s) (starttls_upgrade s) (world s).
Definition set_chunks (x : option ChunkReceiver) s : Session W :=
  mkSession (stream s) (peer s) (stage s) (data s) (accepted s) (local_domains s) x (mode s) (services s)
    (dnsbl s) (account s) (starttls_upgrade s) (world s).
Definition set_services (x : SessionServices) s : Session W :=
  mkSession (stream s) (peer s) (stage s) (data s) (accepted s) (local_domains s) (chunks s)
    (services_mode x) (Some x) (dnsbl s) (account s) (starttls_upgrade s) (world s).
Definition set_dnsbl (x : DnsblDecision) s : Session W :=
  mkSession (stream s) (peer s) (stage s) (data s) (accepted s) (local_domains s) (chunks s) (mode s)
    (services s) x (account s) (starttls_upgrade s) (world s).
Definition set_login (a : Account) s : Session W :=
  mkSession (stream s) (peer s) (stage s)
    (mkData (helo_domain (data s)) (mail_from (data s)) (smtputf8 (data s)) (rcpt_to (data s))
       (is_tls (data s)) true)
    (accepted s) (local_domains s) (chunks s) (mode s) (services s) (dnsbl s) (Some a)
    (starttls_upgrade s) (world s).
Definition set_world (x : W) s : Session W :=
  mkSession (stream s) (peer s) (stage s) (data s) (accepted s) (local_domains s) (chunks s) (mode s)
    (services s) (dnsbl s) (account s) (starttls_upgrade s) x.

(** [Session::new] and its [with_*] methods. *)
Definition session_new (st : Stream) (ip : IpAddr) (w : W) : Session W :=
  mkSession st ip StConnected (mkData [] None false [] false false) None [] None ModeInbound None
    DnsblAllow None false w.
Definition with_local_domains (domains : list bytes) s : Session W :=
  mkSession (stream s) (peer s) (stage s) (data s) (accepted s) domains (chunks s) (mode s) (services s)
    (dnsbl s) (account s) (starttls_upgrade s) (world s).
Definition with_tls s : Session W :=
  set_data (mkData (helo_domain (data s)) (mail_from (data s)) (smtputf8 (data s)) (rcpt_to (data s)) true
              (authenticated (data s))) s.
Definition with_starttls_upgrade s : Session W :=
  let s := with_tls s in
  mkSession (stream s) (peer s) (stage s) (data s) (accepted s) (local_domains s) (chunks s) (mode s)
    (services s) (dnsbl s) (account s) true (world s).
Definition with_services (x : SessionServices) s : Session W := set_services x s.

(** Lifting the stream and the services into the session. *)
Definition on_stream {A} (m : M Stream A) : M (Session W) A := λ s,
  let '(r, st) := m (stream s) in (r, set_stream st s).
Definition on_world {A} (m : M W A) : M (Session W) A := λ s,
  let '(r, w) := m (world s) in (r, set_world w s).
Definition modify (f : Session W → Session W) : M (Session W) unit := λ s, (Ok tt, f s).
Definition asks {A} (f : Session W → A) : M (Session W) A := λ s, (Ok (f s), s).

Definition write (b : bytes) : M (Session W) unit := on_stream (write_st b).
Definition read_line : M (Session W) (bool * bytes) := on_stream read_line_st.
Definition read_data : M (Session W) (option bytes) := on_stream read_data_st.
Definition read_chunk (count : Z) : M (Session W) bytes := on_stream (read_exact_st count).
Definition drain_chunk (count : Z) : M (Session W) unit := on_stream (drain_chunk_st count).

(** *** Services *)

Definition has_directory s : bool := match services s with Some _ => true | None => false end.

(** [classify_recipient]. *)
Definition classify_recipient (address : bytes) s : Recipient :=
  let ours := match domain_of address with
              | Some domain => bool_decide (domain ∈ local_domains s)
              | None => eq_ignore_ascii_case (str_trim address) (bs "postmaster")
              end in
  if negb ours then Remote
  else if negb (has_directory s) then Local
  else match resolve_address address (world s) with
       | Ok (ResLocal _ | ResForward _) => Local
       | Ok (ResRejected | ResUnknown) | Err _ => LocalUnknown
       end.

(** [submission_gate]. *)
Definition submission_gate s : option bytes :=
  match mode s with
  | ModeInbound => None
  | ModeSubmission =>
      match guard_submission (authenticated (data s)) with
      | GateProceed => None
      | GateReject reply => Some reply
      end
  end.

(** [owned_addresses]. *)
Definition owned_addresses s : list bytes :=
  match account s with
  | None => []
  | Some a =>
      (if has_directory s then
         match domain_name (domain_id a) (world s) with
         | Ok name => [local_part a ++ [64] ++ name]
         | Err _ => []
         end
       else []) ++ aliases a
  end.

(** [check_sender]. *)
Definition check_sender (declared : bytes) s : OwnershipGate :=
  match mode s with
  | ModeInbound => OwnProceed
  | ModeSubmission => guard_from declared (owned_addresses s)
  end.

(** [rate_limit_connection], [rate_limit_message], [greylist_defers]. *)
Definition rate_limited (f : IpAddr → W → Inbound.RateDecision * W) : M (Session W) (option bytes) := λ s,
  match services s with
  | Some (SvcInbound _ _ _) =>
      let '(d, w) := f (peer s) (world s) in
      (Ok (match d with Inbound.Deny reply => Some reply | Inbound.Allow => None end), set_world w s)
  | _ => (Ok None, s)
  end.
Definition rate_limit_connection : M (Session W) (option bytes) := λ s,
  if starttls_upgrade s then (Ok None, s) else rate_limited on_connect s.
Definition rate_limit_message : M (Session W) (option bytes) := rate_limited on_message.

Definition greylist_defers (recipient : bytes) : M (Session W) (option bytes) := λ s,
  match services s with
  | Some (SvcInbound _ _ _) =>
      let '(d, w) := greylist_check (default [] (mail_from (data s))) recipient
                       (authenticated (data s)) (world s) in
      (Ok (match d with GlDefer reply => Some reply | GlAllow => None end), set_world w s)
  | _ => (Ok None, s)
  end.

(** [check_blocklist]. *)
Definition check_blocklist : M (Session W) unit := λ s,
  match services s with
  | Some (SvcInbound ((_ :: _) as zones) _ _) =>
      (Ok tt, set_dnsbl (dnsbl_check zones (peer s) (world s)) s)
  | _ => (Ok tt, s)
  end.

(** [verify_credentials]. *)
Definition verify_credentials (c : Credentials) : M (Session W) LoginAttempt := λ s,
  if has_directory s
  then on_world (attempt_login (show_ip (to_canonical (peer s))) (authcid c) (password c)) s
  else (Ok Denied, s).

(** *** Authentication *)

(** [read_auth_response]; [None] is a cancelled exchange. *)
Definition read_auth_response : M (Session W) (option bytes) :=
  '(more, l) ← read_line;
  if negb more then throw (Protocol "connection closed during AUTH")
  else
    let response := str_trim (utf8_lossy (strip_crlf l)) in
    mret (if bool_decide (response = [42]) then None else Some response).

(** The loop of [run_auth]: an exchange has at most two challenges, so three
    turns are enough. *)
Fixpoint auth_loop (fuel : nat) (exchange : SaslExchange) (step : SaslStep) : M (Session W) unit :=
  match fuel with
  | O => throw (Internal "the loop has stopped")
  | S fuel =>
      match step with
      | Challenge reply =>
          _ ← write reply;
          response ← read_auth_response;
          match response with
          | None => write (line "501 5.5.2 Authentication cancelled")
          | Some response =>
              let '(step, exchange) := advance exchange response in auth_loop fuel exchange step
          end
      | SaslReply reply => write reply
      | Resolved c =>
          attempt ← verify_credentials c;
          match attempt with
          | Granted a => _ ← modify (set_login a); write Auth.SUCCESS
          | Denied => write Auth.CREDENTIALS_INVALID
          | Throttled => write Auth.TOO_MANY_ATTEMPTS
          end
      end
  end.

(** [run_auth]. *)
Definition run_auth (start : SaslStart) : M (Session W) unit :=
  match start with
  | StartReply reply => write reply
  | StartContinue exchange step => auth_loop 3 exchange step
  end.

(** *** Accepting a message *)

Definition TEMPFAIL : bytes := line "451 4.3.0 Unable to accept the message right now, try again later".

(** [accept_submission]; the reply is returned, not written. *)
Definition accept_submission (from : option bytes) (rcpts : list bytes) (msg : bytes) : M (Session W) bytes := λ s,
  match services s with
  | Some SvcSubmission =>
      let return_path := default [] from in
      let signing_domain := match from_domain msg with
                            | Some d => Some d
                            | None => domain_of return_path
                            end in
      let host := default HOSTNAME signing_domain in
      let completed := complete_headers msg host (now_seconds (world s)) in
      let '(sign, w) := match signing_domain with
                        | Some d => signer d (world s)
                        | None => (None, world s)
                        end in
      let s := set_world w s in
      match match sign with Some f => f completed | None => Ok completed end with
      | Err _ => (Ok TEMPFAIL, s)
      | Ok signed =>
          match enqueue_submission signed return_path rcpts (world s) with
          | (Err _, w) => (Ok TEMPFAIL, set_world w s)
          | (Ok _, w) => (Ok Data.ACCEPTED, set_accepted (mkAccepted from rcpts signed) (set_world w s))
          end
      end
  | _ => (Ok Data.ACCEPTED, set_accepted (mkAccepted from rcpts msg) s)
  end.

(** [next_document_id]. *)
Definition next_document_id (id : Z) : M W Z :=
  next ← add_counter (key_encode (key_new Counter (as_u32 id) Email 0)) 1; mret (as_u32 next).

(** What the recipient loop of [deliver_inbound] collects. *)
Record prepared : Type := mkPrepared {
  pr_account : Account; pr_recipient : bytes; pr_mailboxes : list Mailbox; pr_script : option Script;
  pr_document_id : Z }.

(** One local recipient: its script, mailboxes and document id. *)
Definition prepare (a : Account) (recipient : bytes) : M W prepared := λ w,
  let compiled := compile_active_script (account_id a) w in
  (boxes ← reads (load_mailboxes (as_u32 (account_id a)));
   let boxes := match boxes with [] => provision_mailboxes (created_at a) | _ => boxes end in
   document_id ← next_document_id (account_id a);
   mret (mkPrepared a recipient boxes compiled document_id)) w.

(** The recipient loop: local recipients in order and the number of forwards
    queued.  A recipient whose account is gone, that no longer resolves or
    whose forward cannot be queued is only logged. *)
Fixpoint resolve_recipients (from raw : bytes) (now : Z) (rcpts : list bytes) (acc : list prepared * nat)
  : M W (list prepared * nat) :=
  match rcpts with
  | [] => mret acc
  | recipient :: rcpts =>
      resolution ← reads (resolve_address recipient);
      match resolution return M W (list prepared * nat) with
      | ResLocal id => λ w,
          match account_get id w with
          | Ok a => (p ← prepare a recipient;
                     resolve_recipients from raw now rcpts (acc.1 ++ [p], acc.2)) w
          | Err _ => resolve_recipients from raw now rcpts acc w
          end
      | ResForward destination => λ w,
          match enqueue_forward from destination raw now w with
          | (Ok _, w) => resolve_recipients from raw now rcpts (acc.1, S acc.2) w
          | (Err _, w) => resolve_recipients from raw now rcpts acc w
          end
      | ResRejected | ResUnknown => resolve_recipients from raw now rcpts acc
      end
  end.

(** [deliver_hook::deliver_inbound]: each delivery, then the daily counter. *)
Fixpoint deliver_each (requests : list (DeliveryRequest Mailbox Script)) : M W (list DeliveryOutcome) :=
  match requests with
  | [] => mret []
  | r :: requests =>
      outcome ← mail_deliver r; outcomes ← deliver_each requests; mret (outcome :: outcomes)
  end.
Definition deliver_requests (requests : list (DeliveryRequest Mailbox Script)) : M W (list DeliveryOutcome) :=
  outcomes ← deliver_each requests;
  now ← (λ w, (Ok (now_seconds w), w));
  _ ← record_inbound now;
  mret outcomes.

(** The request for a prepared recipient. *)
Definition request_for (from raw : bytes) (target : option DeliveryTarget) (now : Z) (p : prepared)
  : DeliveryRequest Mailbox Script :=
  mkRequest (pr_account p) (pr_mailboxes p) (pr_script p) from (pr_recipient p) (pr_document_id p) raw target now.

(** After the deliveries: relays, over-quota bounces and, unless the message
    went to Junk, vacation replies. *)
Definition follow_up (hostname : option bytes) (from raw : bytes) (disposition : Disposition) (now : Z)
    (recipients : list prepared) (deliveries : list DeliveryOutcome) (w : W) : W :=
  let w := enqueue_relays deliveries w in
  let w := bounce_over_quota hostname (pr_recipient <$> recipients) deliveries from raw now w in
  match disposition with
  | Spam => w
  | Inbox => respond_vacations ((λ p, (pr_account p, pr_recipient p)) <$> recipients) deliveries from raw now w
  end.

(** [deliver_inbound]; a reply is a refusal. *)
Definition deliver_inbound (hostname : option bytes) (from : bytes) (rcpts : list bytes) (raw : bytes)
    (disposition : Disposition) : M W (option bytes) := λ w,
  let target := match disposition with Spam => Some RoleJunk | Inbox => None end in
  let received_at := now_seconds w in
  ('(recipients, forwarded) ← resolve_recipients from raw received_at rcpts ([], 0%nat);
   match recipients return M W (option bytes) with
   | [] => mret (if (0 <? forwarded)%nat then None else Some UNROUTABLE)
   | _ =>
       deliveries ← deliver_requests (request_for from raw target received_at <$> recipients);
       if forallb (λ d, over_quota d && (length (relays d) =? 0)%nat) deliveries && (forwarded =? 0)%nat
       then mret (Some Data.MAILBOX_FULL)
       else (λ w, (Ok None, follow_up hostname from raw disposition received_at recipients deliveries w))
              : M W (option bytes)
   end) w.

(** [accept_inbound]. *)
Definition accept_inbound (from : option bytes) (rcpts : list bytes) (msg : bytes) : M (Session W) bytes := λ s,
  match services s with
  | Some (SvcInbound _ host hostname) =>
      (limited ← rate_limit_message;
       match limited return M (Session W) bytes with
       | Some reply => mret reply
       | None => λ s,
           let sender := default [] from in
           let '(verdict, auth_results) :=
             run_gauntlet host (peer s) (helo_domain (data s)) sender msg (dnsbl s) (world s) in
           let s := set_dnsbl DnsblAllow s in
           match verdict with
           | SpDefer reply | SpReject reply => (Ok reply, s)
           | SpAccept disposition =>
               let authed := prepend_header (bs "Authentication-Results") auth_results msg in
               let now := now_seconds (world s) in
               let stamped := build_received (helo_domain (data s)) (peer s) host (is_tls (data s)) now now
                                ++ authed in
               (refusal ← on_world (deliver_inbound hostname sender rcpts stamped disposition);
                match refusal with
                | Some reply => mret reply
                | None => _ ← modify (set_accepted (mkAccepted from rcpts stamped)); mret Data.ACCEPTED
                end) s
           end
       end) s
  | _ => (Ok Data.ACCEPTED, set_accepted (mkAccepted from rcpts msg) s)
  end.

(** [accept_body]. *)
Definition accept_body (from : option bytes) (rcpts : list bytes) (msg : bytes) : M (Session W) bytes := λ s,
  match mode s with
  | ModeSubmission => accept_submission from rcpts msg s
  | ModeInbound => accept_inbound from rcpts msg s
  end.

(** *** Dispatch *)

(** Answer and go on with the session. *)
Definition answer (reply : bytes) : M (Session W) (option Flow) := _ ← write reply; mret None.

(** The start of a transaction ([EHLO], [HELO]) and its end. *)
Definition greet (l : bytes) s : Session W :=
  let d := reset_transaction (data s) in
  set_stage StGreeted
    (set_data (mkData (helo_argument l) (mail_from d) (smtputf8 d) (rcpt_to d) (is_tls d) (authenticated d))
       (set_chunks None s)).
Definition end_transaction s : Session W := set_stage StGreeted (set_data (reset_transaction (data s)) s).

Definition dispatch_ehlo (l : bytes) : M (Session W) (option Flow) :=
  _ ← modify (greet l);
  reply ← asks (λ s, ehlo_response (mkEhloContext HOSTNAME DEFAULT_MAX_MESSAGE_SIZE (is_tls (data s))
                                      (authenticated (data s))));
  answer reply.

Definition dispatch_helo (l : bytes) : M (Session W) (option Flow) :=
  _ ← modify (greet l); answer (helo_response HOSTNAME).

(** Behind the submission gate. *)
Definition gated (m : M (Session W) (option Flow)) : M (Session W) (option Flow) :=
  gate ← asks submission_gate;
  match gate with Some reply => answer reply | None => m end.

Definition begin_mail (path : ReversePath) s : Session W :=
  let d := reset_transaction (data s) in
  set_stage StMail
    (set_data (mkData (helo_domain d) (Some (rp_address path)) (rp_smtputf8 path) (rcpt_to d) (is_tls d)
                 (authenticated d))
       (set_chunks None s)).

Definition dispatch_mail (l : bytes) : M (Session W) (option Flow) := gated
  match parse_command (terminated l) with
  | inr (CMail params) =>
      owned ← asks (check_sender (mp_address params));
      match owned with
      | OwnReject reply => answer reply
      | OwnProceed =>
          outcome ← asks (λ s,
            mail_reply params (negb (bool_decide (stage s = StConnected)))
              (match mail_from (data s) with Some _ => true | None => false end) MAX_MESSAGE_SIZE);
          match outcome with
          | MailReject reply => answer reply
          | MailAccept path reply => _ ← modify (begin_mail path); answer reply
          end
      end
  | _ => answer (line "501 5.5.4 Syntax error in MAIL command")
  end.

Definition push_rcpt (address : bytes) s : Session W :=
  let d := data s in
  set_stage StRcpt
    (set_data (mkData (helo_domain d) (mail_from d) (smtputf8 d) (rcpt_to d ++ [address]) (is_tls d)
                 (authenticated d)) s).

Definition dispatch_rcpt (l : bytes) : M (Session W) (option Flow) := gated
  match parse_command (terminated l) with
  | inr (CRcpt params) =>
      let params := match params with [] => bs "postmaster" | _ => params end in
      outcome ← asks (λ s,
        rcpt_reply params (match mail_from (data s) with Some _ => true | None => false end)
          (classify_recipient params s) (authenticated (data s)) (length (rcpt_to (data s)))
          DEFAULT_MAX_RECIPIENTS);
      match outcome with
      | RcptReject reply => answer reply
      | RcptAccept path reply =>
          deferred ← greylist_defers path;
          match deferred with
          | Some defer => answer defer
          | None => _ ← modify (push_rcpt path); answer reply
          end
      end
  | _ => answer (line "501 5.5.4 Syntax error in RCPT command")
  end.

(** The two commands that complete a message hand it over and end the
    transaction. *)
Definition take_envelope : M (Session W) (option bytes * list bytes) := λ s,
  let d := data s in
  (Ok (mail_from d, rcpt_to d),
   set_data (mkData (helo_domain d) None (smtputf8 d) [] (is_tls d) (authenticated d)) s).
Definition complete (msg : bytes) : M (Session W) (option Flow) :=
  '(from, rcpts) ← take_envelope;
  reply ← accept_body from rcpts msg;
  _ ← modify end_transaction;
  answer reply.

Definition dispatch_data : M (Session W) (option Flow) := gated (
  prompt ← asks (λ s, data_reply (bool_decide (stage s = StRcpt)));
  match prompt with
  | DataReject reply => answer reply
  | DataReady reply =>
      _ ← write reply;
      received ← read_data;
      match received with
      | Some msg => complete msg
      | None => _ ← modify end_transaction; answer Data.TOO_LARGE
      end
  end).

(** A chunk that is not wanted is read and dropped, or the session ends. *)
Definition dispose (chunk_size : Z) (reply : bytes) : M (Session W) (option Flow) :=
  match chunk_disposal chunk_size MAX_MESSAGE_SIZE with
  | Drain count => _ ← drain_chunk count; answer reply
  | CloseChunk => _ ← write reply; mret (Some FClose)
  end.

(** The chunk goes to the receiver, which is made by the first one. *)
Definition receive_chunk (chunk : bytes) (is_last : bool) : M (Session W) ChunkStep := λ s,
  let receiver := default (mkChunks [] MAX_MESSAGE_SIZE) (chunks s) in
  let '(step, receiver) := push_chunk receiver chunk is_last in
  (Ok step, set_chunks (Some receiver) s).
Definition take_chunks : M (Session W) bytes := λ s,
  (Ok (match chunks s with Some r => message r | None => [] end), set_chunks None s).

Definition dispatch_bdat (l : bytes) : M (Session W) (option Flow) := gated
  match parse_command (terminated l) with
  | inr (CBdat chunk_size is_last) =>
      outcome ← asks (λ s,
        bdat_reply (bool_decide (stage s = StRcpt)) chunk_size
          (match chunks s with Some r => Z.of_nat (length (message r)) | None => 0 end)
          MAX_MESSAGE_SIZE is_last);
      match outcome with
      | BdatReject reply => _ ← modify (set_chunks None); dispose chunk_size reply
      | BdatTooLarge reply =>
          _ ← modify (λ s, end_transaction (set_chunks None s)); dispose chunk_size reply
      | BdatReceive chunk_size is_last =>
          chunk ← read_chunk chunk_size;
          step ← receive_chunk chunk is_last;
          match step with
          | ChunkAccepted => answer Bdat.CHUNK_OK
          | ChunkComplete => msg ← take_chunks; complete msg
          | ChunkTooLarge =>
              _ ← modify (λ s, end_transaction (set_chunks None s)); answer Bdat.TOO_LARGE
          end
      end
  | _ => answer (line "501 5.5.4 Syntax error in BDAT command")
  end.

Definition dispatch_starttls : M (Session W) (option Flow) :=
  reply ← asks (λ s, starttls_reply (is_tls (data s)) true);
  _ ← write (starttls_bytes reply);
  mret (if upgrades reply then Some FUpgrade else None).

Definition dispatch_auth (l : bytes) : M (Session W) (option Flow) :=
  match parse_command (terminated l) with
  | inr (CAuth mechanism initial_response) =>
      start ← asks (λ s,
        begin_sasl mechanism (is_tls (data s)) (authenticated (data s)) initial_response);
      _ ← run_auth start;
      mret None
  | _ => answer (line "501 5.5.4 Syntax error in AUTH command")
  end.

Definition dispatch_rset : M (Session W) (option Flow) :=
  _ ← modify (λ s,
    let s' := set_chunks None (set_data (reset_transaction (data s)) s) in
    if bool_decide (stage s = StConnected) then s' else set_stage StGreeted s');
  answer rset_reply.

(** [dispatch]. *)
Definition dispatch (l : bytes) : M (Session W) (option Flow) :=
  match from_line l with
  | VEhlo => dispatch_ehlo l
  | VHelo => dispatch_helo l
  | VMail => dispatch_mail l
  | VRcpt => dispatch_rcpt l
  | VData => dispatch_data
  | VBdat => dispatch_bdat l
  | VStartTls => dispatch_starttls
  | VAuth => dispatch_auth l
  | VRset => dispatch_rset
  | VNoop => answer noop_reply
  | VQuit => _ ← write quit_reply; mret (Some FClose)
  | VUnknown => answer (line "500 5.5.2 Command unrecognized")
  end.

(** The loop of [run]: every turn reads at least one byte. *)
Fixpoint run_loop (fuel : nat) : M (Session W) Flow :=
  match fuel with
  | O => throw (Internal "the loop has stopped")
  | S fuel =>
      '(more, l) ← read_line;
      if negb more then mret FClose
      else
        flow ← dispatch l;
        match flow with Some flow => mret flow | None => run_loop fuel end
  end.

(** [run]. *)
Definition run : M (Session W) Flow :=
  limited ← rate_limit_connection;
  match limited return M (Session W) Flow with
  | Some reply => _ ← write reply; mret FClose
  | None =>
      _ ← check_blocklist;
      _ ← ((λ s, if starttls_upgrade s then (Ok tt, s) else write GREETING s) : M (Session W) unit);
      (λ s, run_loop (S (length (input (stream s)))) s) : M (Session W) Flow
  end.
End session.
