(* ===== verification/SmtpData.v ===== *)
(** * The DATA encoding (crates/smtp/src/session.rs, cmd_data.rs)

    What a client sends after the 354 reply and what the server makes of it:
    transparency of leading dots, the size limit, where the message ends. *)

From S2P Require Import Prelude Bytes Text SmtpVerdict SmtpCommands SmtpSession.
From stdpp Require Import base list strings.
From Stdlib Require Import ZArith Lia.

Open Scope Z_scope.

(** ** The client's side (RFC 5321, 4.5.2) *)

Definition dot_stuff (l : bytes) : bytes := match l with 46 :: _ => 46 :: l | _ => l end.
Definition body_of (lines : list bytes) : bytes := concat ((λ l, l ++ CRLF) <$> lines).
Definition wire_lines (lines : list bytes) : bytes := concat ((λ l, dot_stuff l ++ CRLF) <$> lines).

(** ** One line *)

(** A line is kept up to one byte more than a message may have. *)
Definition KEPT : nat := Z.to_nat (MAX_MESSAGE_SIZE + 1).
Lemma KEPT_Z : Z.of_nat KEPT = MAX_MESSAGE_SIZE + 1.
Proof. unfold KEPT. by rewrite Z2Nat.id. Qed.
Opaque KEPT.
Lemma MAX_big : 1000 < MAX_MESSAGE_SIZE.
Proof. by vm_compute. Qed.
#[local] Opaque MAX_MESSAGE_SIZE.

Lemma read_data_line_go_line e l r buf :
  no_lf l → (length buf ≤ KEPT)%nat →
  read_data_line_go e (l ++ LF :: r) buf = (Ok (true, take KEPT (buf ++ l)), r).
Proof.
  pose proof KEPT_Z. intros Hl. revert buf. induction Hl as [|b l Hb _ IH]; intros buf Hbuf; cbn [app read_data_line_go].
  { rewrite Z.eqb_refl, app_nil_r. by rewrite take_ge by lia. }
  rewrite (proj2 (Z.eqb_neq b LF)) by done. case_match eqn:E.
  - rewrite IH by (rewrite length_app; simpl; lia). by rewrite <-app_assoc.
  - rewrite IH by done. assert (length buf = KEPT) as Hk by lia.
    by rewrite <-Hk, !take_app_length.
Qed.

Lemma strip_crlf_app l : strip_crlf (l ++ [CR]) = l.
Proof. unfold strip_crlf. by rewrite strip_suffix_app. Qed.

Lemma strip_crlf_length l : (length l - 1 ≤ length (strip_crlf l))%nat.
Proof.
  unfold strip_crlf, Text.strip_suffix. case_match; simpl; [|lia]. rewrite length_take. lia.
Qed.

Lemma strip_crlf_short l b : strip_crlf l = [b] → (length l ≤ 2)%nat.
Proof. intros E. pose proof (strip_crlf_length l). rewrite E in *. simpl in *. lia. Qed.

(** The text of a line is the line, unless the line alone is too large. *)
Lemma kept_text l :
  let text := strip_crlf (take KEPT (l ++ [CR])) in
  text = l ∨ (MAX_MESSAGE_SIZE < Z.of_nat (length l) ∧ MAX_MESSAGE_SIZE ≤ Z.of_nat (length text)).
Proof.
  pose proof KEPT_Z. intros text. destruct (decide (length l < KEPT)%nat) as [Hs|Hs].
  - left. unfold text. rewrite take_ge by (rewrite length_app; simpl; lia). apply strip_crlf_app.
  - right. split; [lia|]. pose proof (strip_crlf_length (take KEPT (l ++ [CR]))) as Hl. fold text in Hl.
    rewrite length_take, length_app in Hl. simpl in Hl. lia.
Qed.

Lemma dot_stuff_not_dot l : dot_stuff l ≠ [46].
Proof. unfold dot_stuff. intros E. repeat case_match; simplify_eq. Qed.

Lemma dot_stuff_length l : (length l ≤ length (dot_stuff l) ≤ S (length l))%nat.
Proof. unfold dot_stuff. repeat case_match; simpl; lia. Qed.

Lemma push_line_too_large b text :
  text ≠ [46] → MAX_MESSAGE_SIZE ≤ Z.of_nat (length text) →
  push_line (mkBody b MAX_MESSAGE_SIZE) text = (BodyTooLarge, mkBody b MAX_MESSAGE_SIZE).
Proof.
  pose proof MAX_big. intros Hne Hlen. unfold push_line. rewrite bool_decide_false by done. cbn [body body_max].
  set (content := match text with 46 :: r => r | _ => text end).
  assert (length text ≤ S (length content))%nat by (unfold content; repeat case_match; simpl; lia).
  rewrite (proj2 (Z.ltb_lt 0 _)) by lia.
  rewrite (proj2 (Z.ltb_lt MAX_MESSAGE_SIZE _)) by lia. done.
Qed.

Lemma push_line_stuffed b l :
  push_line (mkBody b MAX_MESSAGE_SIZE) (dot_stuff l) =
    if MAX_MESSAGE_SIZE <? Z.of_nat (length b) + Z.of_nat (length l) + 2
    then (BodyTooLarge, mkBody b MAX_MESSAGE_SIZE)
    else (BodyContinue, mkBody (b ++ l ++ CRLF) MAX_MESSAGE_SIZE).
Proof.
  pose proof MAX_big. unfold push_line. rewrite bool_decide_false by apply dot_stuff_not_dot. cbn [body body_max].
  assert (match dot_stuff l with 46 :: r => r | _ => dot_stuff l end = l) as ->.
  { unfold dot_stuff. repeat case_match; congruence. }
  by rewrite (proj2 (Z.ltb_lt 0 _)) by lia.
Qed.

(** What the receiver does with a line sent by the client, whether or not the
    line was cut. *)
Lemma push_line_kept b l :
  (length b ≤ KEPT)%nat →
  push_line (mkBody b MAX_MESSAGE_SIZE) (strip_crlf (take KEPT (dot_stuff l ++ [CR]))) =
    if MAX_MESSAGE_SIZE <? Z.of_nat (length b) + Z.of_nat (length l) + 2
    then (BodyTooLarge, mkBody b MAX_MESSAGE_SIZE)
    else (BodyContinue, mkBody (b ++ l ++ CRLF) MAX_MESSAGE_SIZE).
Proof.
  pose proof MAX_big. intros Hb. destruct (kept_text (dot_stuff l)) as [->|[H1 H2]]; [apply push_line_stuffed|].
  pose proof (dot_stuff_length l). rewrite push_line_too_large.
  - by rewrite (proj2 (Z.ltb_lt MAX_MESSAGE_SIZE _)) by lia.
  - intros E. rewrite E in H2. simpl in H2. lia.
  - done.
Qed.

Lemma kept_not_dot l : strip_crlf (take KEPT (dot_stuff l ++ [CR])) ≠ [46].
Proof.
  pose proof MAX_big. destruct (kept_text (dot_stuff l)) as [->|[_ H2]]; [apply dot_stuff_not_dot|].
  intros E. rewrite E in H2. simpl in H2. lia.
Qed.

(** ** The loop *)

Lemma set_input_twice a b st : set_input a (set_input b st) = set_input a st.
Proof. done. Qed.

Lemma read_data_line_wire l r st :
  no_lf l → input st = l ++ CRLF ++ r →
  read_data_line_st st = (Ok (true, take KEPT (l ++ [CR])), set_input r st).
Proof.
  intros Hl E. unfold read_data_line_st. rewrite E.
  replace (l ++ CRLF ++ r) with ((l ++ [CR]) ++ LF :: r) by (by rewrite <-app_assoc).
  rewrite read_data_line_go_line; [done| |simpl; lia]. apply no_lf_app; [done|]. by repeat constructor.
Qed.

(** The end of the data: a dot, before a line feed with or without a carriage
    return. *)
Definition ends_line (eol : bytes) : Prop := eol = CRLF ∨ eol = [LF].

Lemma read_dot eol r st :
  ends_line eol → input st = 46 :: eol ++ r →
  ∃ l, read_data_line_st st = (Ok (true, l), set_input r st) ∧ strip_crlf l = [46].
Proof.
  pose proof KEPT_Z. pose proof MAX_big.
  assert (no_lf [46]) as Hdot by (by apply Forall_singleton). intros [->| ->] E.
  - exists [46; CR]. split; [|done]. rewrite (read_data_line_wire [46] r st Hdot E).
    by rewrite take_ge by (simpl; lia).
  - exists [46]. split; [|done]. unfold read_data_line_st. rewrite E.
    change (46 :: [LF] ++ r) with ([46] ++ LF :: r).
    rewrite (read_data_line_go_line _ [46] r [] Hdot) by (simpl; lia).
    by rewrite take_ge by (simpl; lia).
Qed.

Lemma wire_lines_cons l lines r : wire_lines (l :: lines) ++ r = dot_stuff l ++ CRLF ++ wire_lines lines ++ r.
Proof. unfold wire_lines. rewrite fmap_cons. cbn [concat]. by rewrite <-!app_assoc. Qed.

Lemma no_lf_dot_stuff l : no_lf l → no_lf (dot_stuff l).
Proof. intros H. unfold dot_stuff. repeat case_match; try done. by constructor. Qed.

(** Once over the limit, everything up to the dot is read and dropped. *)
Lemma read_data_overflowed fuel receiver lines eol rest st :
  Forall no_lf lines → ends_line eol → (length lines < fuel)%nat →
  input st = wire_lines lines ++ 46 :: eol ++ rest →
  read_data_loop fuel receiver true st = (Ok None, set_input rest st).
Proof.
  intros Hl He. revert fuel st. induction Hl as [|l lines Hn Hl IH]; intros [|fuel] st Hf Hi;
    try (simpl in Hf; lia); cbn [read_data_loop].
  - destruct (read_dot eol rest st He Hi) as (l & E & Hs). unfold mbind, M_bind. rewrite E. cbn [negb].
    by rewrite Hs, bool_decide_true.
  - rewrite wire_lines_cons in Hi. unfold mbind, M_bind.
    rewrite (read_data_line_wire _ _ _ (no_lf_dot_stuff l Hn) Hi). cbn [negb].
    rewrite bool_decide_false by apply kept_not_dot.
    rewrite IH; [by rewrite set_input_twice|simpl in Hf; lia|done].
Qed.

Lemma read_data_wire fuel b lines eol rest st :
  Forall no_lf lines → ends_line eol → (length lines < fuel)%nat → (length b ≤ KEPT)%nat →
  Z.of_nat (length b) ≤ MAX_MESSAGE_SIZE →
  input st = wire_lines lines ++ 46 :: eol ++ rest →
  read_data_loop fuel (mkBody b MAX_MESSAGE_SIZE) false st =
    (Ok (if Z.of_nat (length (b ++ body_of lines)) <=? MAX_MESSAGE_SIZE then Some (b ++ body_of lines) else None),
     set_input rest st).
Proof.
  intros Hl He. revert fuel b st. pose proof KEPT_Z.
  induction Hl as [|l lines Hn Hl IH]; intros [|fuel] b st Hf Hk Hb Hi;
    try (simpl in Hf; lia); cbn [read_data_loop].
  - destruct (read_dot eol rest st He Hi) as (l & E & Hs). unfold mbind, M_bind. rewrite E. cbn [negb].
    rewrite Hs. change (body_of []) with (@nil Z). rewrite app_nil_r, (proj2 (Z.leb_le _ _)) by lia.
    unfold push_line. by rewrite bool_decide_true.
  - rewrite wire_lines_cons in Hi. unfold mbind, M_bind.
    rewrite (read_data_line_wire _ _ _ (no_lf_dot_stuff l Hn) Hi). cbn [negb].
    rewrite push_line_kept by done.
    assert (b ++ body_of (l :: lines) = (b ++ l ++ CRLF) ++ body_of lines) as ->.
    { unfold body_of. rewrite fmap_cons. cbn [concat]. by rewrite <-!app_assoc. }
    assert (length (b ++ l ++ CRLF) = length b + length l + 2)%nat as Hlen by (rewrite !length_app; simpl; lia).
    destruct (Z.ltb_spec MAX_MESSAGE_SIZE (Z.of_nat (length b) + Z.of_nat (length l) + 2)).
    + rewrite (read_data_overflowed _ _ lines eol rest); [|exact Hl|exact He|simpl in Hf; lia|reflexivity].
      rewrite (proj2 (Z.leb_gt _ _)) by (rewrite length_app; lia). by rewrite set_input_twice.
    + rewrite IH; [by rewrite set_input_twice|simpl in Hf; lia|lia|lia|done].
Qed.

Lemma wire_lines_length lines : (length lines ≤ length (wire_lines lines))%nat.
Proof.
  induction lines as [|l lines IH]; [simpl; lia|]. pose proof (wire_lines_cons l lines []) as E.
  rewrite !app_nil_r in E. rewrite E, !length_app. simpl. lia.
Qed.

Lemma read_data_message lines eol rest st :
  Forall no_lf lines → ends_line eol → input st = wire_lines lines ++ 46 :: eol ++ rest →
  read_data_st st =
    (Ok (if Z.of_nat (length (body_of lines)) <=? MAX_MESSAGE_SIZE then Some (body_of lines) else None),
     set_input rest st).
Proof.
  pose proof MAX_big. intros Hl He Hi. unfold read_data_st.
  rewrite (read_data_wire _ [] lines eol rest); simpl; [done|done|done| |lia|lia|done].
  rewrite Hi, length_app. pose proof (wire_lines_length lines). lia.
Qed.

(** C27. DATA is transparent.  For any lines without a line feed, however long
    and whatever they begin with, sent with leading dots doubled and ended by
    the dot line, the server receives exactly those lines each ended by CRLF
    if that is at most 25 MiB, and refuses the message otherwise; in both cases
    it reads exactly to the end of the data, so that the next command is the
    next thing read. *)
Theorem data_roundtrip lines rest st :
  Forall no_lf lines → input st = wire_lines lines ++ bs "." ++ CRLF ++ rest →
  read_data_st st =
    (Ok (if Z.of_nat (length (body_of lines)) <=? 25 * 1024 * 1024 then Some (body_of lines) else None),
     mkStream rest (at_end st) (output st) (faults st)).
Proof. intros Hl Hi. apply (read_data_message lines CRLF rest st); [done|by left|done]. Qed.

(** A bare line feed ends the data too.  After lines sent as the reply to
    DATA asks, a dot line that ends in a line feed alone ends the message: what
    follows is taken as commands, although the reply says that the message ends
    with <CRLF>.<CRLF>, and a relay that passes such a line on as part of the
    message has its text executed. *)
Theorem bare_lf_ends_data lines rest st :
  Forall no_lf lines → Z.of_nat (length (body_of lines)) ≤ 25 * 1024 * 1024 →
  input st = wire_lines lines ++ bs "." ++ [LF] ++ rest →
  read_data_st st = (Ok (Some (body_of lines)), mkStream rest (at_end st) (output st) (faults st)).
Proof.
  intros Hl Hsize Hi. rewrite (read_data_message lines [LF] rest st); [|done|by right|done].
  by rewrite (proj2 (Z.leb_le _ _)).
Qed.

Lemma data_roundtrip_witness :
  let lines := [bs "Subject: x"; []; bs ".hidden"; bs "."; bs "end"] in
  read_data_st (mkStream (line "Subject: x" ++ line "" ++ line "..hidden" ++ line ".." ++ line "end" ++
                          line "." ++ line "QUIT") None [] []) =
    (Ok (Some (line "Subject: x" ++ line "" ++ line ".hidden" ++ line "." ++ line "end")),
     mkStream (line "QUIT") None [] []).
Proof.
  intros lines. refine (eq_trans (data_roundtrip lines (line "QUIT") _ _ _) _).
  - repeat constructor; by apply (bool_decide_unpack _).
  - reflexivity.
  - vm_compute. reflexivity.
Defined.

Lemma bare_lf_ends_data_witness :
  read_data_st (mkStream (line "hello" ++ bs "." ++ [LF] ++ line "MAIL FROM:<ceo@victim>") None [] []) =
    (Ok (Some (line "hello")), mkStream (line "MAIL FROM:<ceo@victim>") None [] []).
Proof.
  refine (bare_lf_ends_data [bs "hello"] (line "MAIL FROM:<ceo@victim>") _ _ _ _).
  - repeat constructor; by apply (bool_decide_unpack _).
  - vm_compute. discriminate.
  - reflexivity.
Defined.
