(* ===== verification/SmtpSafety.v ===== *)
(** * What an SMTP session guarantees

    Invariants of every reachable session, the safety of authentication and
    relaying, the DATA encoding and the promise behind a positive reply to a
    submission. *)

From S2P Require Import Prelude Bytes Key Store Text Ttl Expiring Blobs QueueModel QueueStore QueueDeliver SmtpVerdict SmtpCommands SmtpSubmit SmtpSession.
From stdpp Require Import base gmap list strings relations.
From Stdlib Require Import ZArith Lia.

Open Scope Z_scope.

Section safety.
Context {W Mailbox Script : Type} {proto : SmtpProto} {sw : SessionWorld W Mailbox Script}.
Implicit Type s : Session W.

(** ** What the calls behind a command leave alone *)

(** The protocol state: everything but the stream, the services' state and the
    blocklist verdict. *)
Definition env s :=
  (stage s, data s, chunks s, mode s, local_domains s, account s, services s, accepted s).
Definition same_env s s' : Prop := env s' = env s.
#[global] Instance same_env_po : PreOrder same_env.
Proof. split; [done|]. intros s1 s2 s3 H1 H2. unfold same_env in *. congruence. Qed.

Lemma keeps_on_stream {A} (m : M Stream A) : keeps same_env (on_stream (W := W) m).
Proof. intros s. unfold on_stream. by destruct (m (stream s)). Qed.
Lemma keeps_on_world {A} (m : M W A) : keeps same_env (on_world m).
Proof. intros s. unfold on_world. by destruct (m (world s)). Qed.
Lemma keeps_asks {A} (f : Session W → A) : keeps same_env (asks f).
Proof. intros s. reflexivity. Qed.
#[local] Hint Resolve keeps_on_stream keeps_on_world keeps_asks : hoare.

Lemma keeps_write b : keeps same_env (write (W := W) b).
Proof. apply keeps_on_stream. Qed.
Lemma keeps_read_line : keeps same_env (read_line (W := W)).
Proof. apply keeps_on_stream. Qed.
Lemma keeps_greylist a : keeps same_env (greylist_defers a).
Proof.
  intros s. unfold greylist_defers. repeat (case_match; try done).
Qed.
Lemma keeps_rate_limited f : keeps same_env (rate_limited (W := W) f).
Proof. intros s. unfold rate_limited. repeat (case_match; try done). Qed.
Lemma keeps_verify c : keeps same_env (verify_credentials c).
Proof. intros s. unfold verify_credentials. case_match; [apply keeps_on_world|reflexivity]. Qed.
Lemma keeps_read_auth_response : keeps same_env (read_auth_response (W := W)).
Proof.
  apply keeps_bind; [apply _|apply keeps_read_line|]. intros [more l]. simpl. case_match; [|intros s; done].
  intros s. done.
Qed.
Lemma keeps_answer b : keeps same_env (answer (W := W) b).
Proof. apply keeps_bind; [apply _|apply keeps_write|]. intros []. intros s. done. Qed.
Lemma keeps_dispose n b : keeps same_env (dispose (W := W) n b).
Proof.
  unfold dispose. case_match; (apply keeps_bind; [apply _|apply keeps_on_stream|]); intros [].
  - apply keeps_answer.
  - intros s. done.
Qed.
#[local] Hint Resolve keeps_write keeps_read_line keeps_greylist keeps_rate_limited keeps_verify
  keeps_read_auth_response keeps_answer keeps_dispose : hoare.

(** Handing a message over changes the protocol state at most in the accepted
    message, which then has this envelope. *)
Definition env' s := (stage s, data s, chunks s, mode s, local_domains s, account s, services s).
Lemma accept_body_env from rcpts msg s :
  let s' := (accept_body from rcpts msg s).2 in
  env' s' = env' s ∧ (accepted s' = accepted s ∨ ∃ b, accepted s' = Some (mkAccepted from rcpts b)).
Proof.
  unfold accept_body. destruct (mode s).
  - unfold accept_inbound. destruct (services s) as [[zones host hostname|]|] eqn:Es; simpl; eauto.
    unfold mbind, M_bind, rate_limit_message, rate_limited. rewrite Es.
    destruct (on_message (peer s) (world s)) as [d w]. destruct d; simpl; [|eauto].
    destruct (run_gauntlet _ _ _ _ _ _ _) as [[disp|r|r] ar]; simpl; [|eauto..].
    unfold on_world. simpl. destruct (deliver_inbound _ _ _ _ _ _) as [[[reply|]|e] w']; simpl; eauto.
  - unfold accept_submission. destruct (services s) as [[zones host hostname|]|] eqn:Es; simpl; eauto.
    destruct (match _ with Some d => signer d (world s) | None => _ end) as [sign w].
    destruct (match sign with Some f => _ | None => _ end) as [signed|e]; simpl; [|eauto].
    destruct (enqueue_submission _ _ _ _) as [[e|e] w']; simpl; eauto.
Qed.

(** ** The invariant *)

(** Where a session without a login may deliver: a hosted domain or the
    postmaster. *)
Definition ours (domains : list bytes) (address : bytes) : Prop :=
  match domain_of address with
  | Some d => d ∈ domains
  | None => eq_ignore_ascii_case (str_trim address) (bs "postmaster") = true
  end.

(** The stage says what has been received of the transaction. *)
Definition stage_ok s : Prop :=
  match stage s with
  | StConnected | StGreeted => mail_from (data s) = None ∧ rcpt_to (data s) = []
  | StMail => mail_from (data s) ≠ None ∧ rcpt_to (data s) = [] ∧ chunks s = None
  | StRcpt => mail_from (data s) ≠ None ∧ rcpt_to (data s) ≠ []
  end.
Definition chunks_ok s : Prop :=
  ∀ r, chunks s = Some r → chunk_max r = MAX_MESSAGE_SIZE ∧ Z.of_nat (length (message r)) ≤ MAX_MESSAGE_SIZE.
Definition rcpts_ok s : Prop := (length (rcpt_to (data s)) ≤ 100)%nat.
Definition login_ok s : Prop :=
  authenticated (data s) = true → is_tls (data s) = true ∧ is_Some (account s).
Definition relay_ok s : Prop :=
  authenticated (data s) = false →
  Forall (ours (local_domains s)) (rcpt_to (data s)) ∧
  (∀ m, accepted s = Some m → Forall (ours (local_domains s)) (am_rcpt_to m)).
Definition submission_ok s : Prop :=
  mode s = ModeSubmission → authenticated (data s) = false → mail_from (data s) = None ∧ accepted s = None.

Record inv s : Prop := mkInv {
  inv_stage : stage_ok s;
  inv_chunks : chunks_ok s;
  inv_rcpts : rcpts_ok s;
  inv_login : login_ok s;
  inv_relay : relay_ok s;
  inv_submission : submission_ok s;
}.

Lemma inv_env s s' : same_env s s' → inv s → inv s'.
Proof.
  intros E [H1 H2 H3 H4 H5 H6]. unfold same_env, env in E.
  injection E as E1 E2 E3 E4 E5 E6 E7 E8.
  split; unfold stage_ok, chunks_ok, rcpts_ok, login_ok, relay_ok, submission_ok in *;
    rewrite ?E1, ?E2, ?E3, ?E4, ?E5, ?E6, ?E7, ?E8; done.
Qed.

(** A call that leaves the protocol state alone, then the rest. *)
Lemma step_bind {A B} (P : Session W → Prop) (m : M (Session W) A) (k : A → M (Session W) B) Q :
  keeps same_env m → (∀ s s', same_env s s' → P s → P s') →
  (∀ a, triple P (k a) Q) → triple P (x ← m; k x) Q.
Proof. intros Hm HP Hk. eapply triple_bind; [by eapply triple_keeps|exact Hk]. Qed.

Lemma asks_bind {A B} (P : Session W → Prop) (f : Session W → A) (k : A → M (Session W) B) Q :
  (∀ a, triple (λ s, P s ∧ f s = a) (k a) Q) → triple P (x ← asks f; k x) Q.
Proof. intros H s b s' HP E. eapply (H (f s)); [by split|exact E]. Qed.

Lemma modify_bind {B} (P P' : Session W → Prop) f (k : unit → M (Session W) B) Q :
  (∀ s, P s → P' (f s)) → triple P' (k tt) Q → triple P (x ← modify f; k x) Q.
Proof. intros H Hk s b s' HP E. by eapply (Hk (f s)); [apply H|]. Qed.

Lemma inv_answer {P : Session W → Prop} b :
  (∀ s, P s → inv s) → triple P (answer b) (λ _, inv).
Proof.
  intros HP. eapply triple_conseq; [apply (triple_keeps same_env inv)|exact HP|done].
  - apply keeps_answer.
  - apply inv_env.
Qed.

(** *** Command by command *)

(** The gate lets a submission through only with a login. *)
Definition open_gate s : Prop := mode s = ModeSubmission → authenticated (data s) = true.

Lemma open_gate_env s s' : same_env s s' → open_gate s → open_gate s'.
Proof. intros [= _ E _ E' _ _ _ _]. unfold open_gate. by rewrite E, E'. Qed.

Lemma inv_gated m :
  triple (λ s, inv s ∧ open_gate s) m (λ _, inv) → triple inv (gated m) (λ _, inv).
Proof.
  intros Hm. apply asks_bind. intros [reply|]; [apply inv_answer; by intros s []|].
  eapply triple_conseq; [exact Hm| |done]. intros s [Hs Hg]. split; [done|].
  unfold open_gate. intros Hmode. unfold submission_gate in Hg. rewrite Hmode in Hg.
  by destruct (authenticated (data s)).
Qed.

(** Ending a transaction keeps the invariant, from any protocol state in which
    it holds or that only lost its envelope. *)
Lemma inv_reset s (d : SessionData) st ch :
  inv s → st = StConnected ∨ st = StGreeted → (ch = chunks s ∨ ch = None) →
  mail_from d = None → rcpt_to d = [] → is_tls d = is_tls (data s) →
  authenticated d = authenticated (data s) →
  inv (set_stage st (set_data d (set_chunks ch s))).
Proof.
  intros [H1 H2 H3 H4 H5 H6] Hst Hch Hm Hr Ht Ha.
  split; unfold stage_ok, chunks_ok, rcpts_ok, login_ok, relay_ok, submission_ok in *; simpl.
  - by destruct Hst as [->| ->]; rewrite Hm, Hr.
  - by destruct Hch as [->| ->]; [apply H2|].
  - rewrite Hr. simpl. lia.
  - by rewrite Ha, Ht.
  - rewrite Ha, Hr. intros Hauth. split; [constructor|]. by apply H5.
  - rewrite Ha, Hm. intros Hmode Hauth. split; [done|]. by apply H6.
Qed.

Lemma inv_greet l s : inv s → inv (greet l s).
Proof. intros H. by apply inv_reset; [|right|right|..]. Qed.

Lemma inv_end_transaction s : inv s → inv (end_transaction s).
Proof.
  intros H. pose proof (inv_reset s (reset_transaction (data s)) StGreeted (chunks s) H) as Hr.
  by apply Hr; [right|left|..].
Qed.

Lemma inv_drop_chunks s : inv s → inv (set_chunks None s).
Proof.
  intros [H1 H2 H3 H4 H5 H6]. split; try done. unfold stage_ok in *. simpl.
  destruct (stage s); intuition congruence.
Qed.

Lemma inv_rset s :
  inv s →
  inv (let s' := set_chunks None (set_data (reset_transaction (data s)) s) in
       if bool_decide (stage s = StConnected) then s' else set_stage StGreeted s').
Proof.
  intros H. case_bool_decide as E.
  - pose proof (inv_reset s (reset_transaction (data s)) StConnected None H) as Hr.
    unfold set_stage, set_data, set_chunks in *. simpl in *. rewrite E. by apply Hr; [left|right|..].
  - by apply (inv_reset s (reset_transaction (data s)) StGreeted None H); [right|right|..].
Qed.

Lemma inv_begin_mail path s :
  inv s → open_gate s → inv (begin_mail path s).
Proof.
  intros [H1 H2 H3 H4 H5 H6] Hg.
  split; unfold stage_ok, chunks_ok, rcpts_ok, login_ok, relay_ok, submission_ok, open_gate in *; simpl.
  - done.
  - done.
  - lia.
  - done.
  - intros Ha. split; [constructor|]. by apply H5.
  - intros Hm Ha. rewrite Hg in Ha; done.
Qed.

Lemma classify_ours address s :
  classify_recipient address s ≠ Remote → ours (local_domains s) address.
Proof.
  unfold classify_recipient, ours. destruct (domain_of address) as [d|].
  - case_bool_decide; [done|]. simpl. by intros [].
  - destruct (eq_ignore_ascii_case _ _); [done|]. simpl. by intros [].
Qed.

Lemma rcpt_reply_accept params pending recipient auth n path reply :
  rcpt_reply params pending recipient auth n DEFAULT_MAX_RECIPIENTS = RcptAccept path reply →
  path = params ∧ pending = true ∧ (n < 100)%nat ∧ (auth = false → recipient ≠ Remote).
Proof.
  unfold rcpt_reply, DEFAULT_MAX_RECIPIENTS. destruct pending; [|done].
  destruct (Nat.leb_spec 100 n); [done|]. by destruct recipient, auth; intros [= <- <-].
Qed.

Lemma inv_push_rcpt params s :
  inv s → open_gate s → is_Some (mail_from (data s)) → (length (rcpt_to (data s)) < 100)%nat →
  (authenticated (data s) = false → classify_recipient params s ≠ Remote) →
  inv (push_rcpt params s).
Proof.
  intros [H1 H2 H3 H4 H5 H6] Hg [a Hm] Hn Hc.
  split; unfold stage_ok, chunks_ok, rcpts_ok, login_ok, relay_ok, submission_ok, open_gate in *; simpl.
  - rewrite Hm. split; [done|]. by destruct (rcpt_to (data s)).
  - done.
  - rewrite length_app. simpl. lia.
  - done.
  - intros Ha. destruct (H5 Ha) as [Hr Hacc]. split; [|done]. apply Forall_app_2; [done|].
    apply Forall_singleton. by apply classify_ours, Hc.
  - intros Hmode Ha. rewrite Hg in Ha; done.
Qed.

Lemma inv_mail l : triple inv (dispatch_mail l) (λ _, inv).
Proof.
  apply inv_gated.
  destruct (parse_command _) as [e|[]]; try (apply inv_answer; by intros s []).
  apply asks_bind. intros [|reply]; [|apply inv_answer; by intros s [[] _]].
  apply asks_bind. intros [reply|path reply]; [apply inv_answer; by intros s [[[]]]|].
  eapply modify_bind; [|by apply (inv_answer (P := inv))].
  intros s [[[Hs Hg] _] _]. by apply inv_begin_mail.
Qed.

Lemma inv_rcpt l : triple inv (dispatch_rcpt l) (λ _, inv).
Proof.
  apply inv_gated.
  destruct (parse_command _) as [e|[]]; try (apply inv_answer; by intros s []).
  set (params := match to with [] => _ | _ => _ end).
  apply asks_bind. intros [reply|path reply]; [apply inv_answer; by intros s [[]]|].
  intros s b s' [[Hs Hg] Ho] (deferred & s1 & E1 & E2)%M_bind_ok.
  apply rcpt_reply_accept in Ho as (-> & Hp & Hn & Hc).
  assert (is_Some (mail_from (data s))) as Hm by (destruct (mail_from (data s)); [by eexists|done]).
  assert (same_env s s1) as Henv by (pose proof (keeps_greylist params s) as H; by rewrite E1 in H).
  destruct deferred as [defer|]; [by eapply (inv_answer defer); [|eapply inv_env|exact E2]|].
  apply M_bind_ok in E2 as (u & s2 & [= _ <-] & E2).
  eapply (inv_answer reply); [exact (λ s H, H)| |exact E2].
  pose proof Henv as Henv'. unfold same_env, env in Henv'. injection Henv' as E3 E4 E5 E6 E7 E8 E9 E10.
  assert (inv (push_rcpt params s)) as Hi by (by apply inv_push_rcpt).
  revert Hi. apply inv_env. unfold same_env, env, push_rcpt. simpl.
  by rewrite E4, E5, E6, E7, E8, E9, E10.
Qed.

(** Handing a message over: the envelope goes with it. *)
Lemma inv_complete msg :
  triple (λ s, inv s ∧ open_gate s) (complete msg) (λ _, inv).
Proof.
  intros s b s' [Hs Hg] ([from rcpts] & s1 & E1 & E2)%M_bind_ok.
  injection E1 as <- <- <-. apply M_bind_ok in E2 as (reply & s2 & E2 & E3).
  apply M_bind_ok in E3 as (u & s3 & [= _ <-] & E3).
  eapply (inv_answer reply); [exact (λ s H, H)| |exact E3].
  pose proof (accept_body_env (mail_from (data s)) (rcpt_to (data s)) msg
    (set_data (mkData (helo_domain (data s)) None (smtputf8 (data s)) [] (is_tls (data s))
       (authenticated (data s))) s)) as [Ee Ha].
  rewrite E2 in Ee, Ha. simpl in Ee, Ha. unfold env' in Ee. simpl in Ee. injection Ee as F1 F2 F3 F4 F5 F6 F7.
  destruct Hs as [H1 H2 H3 H4 H5 H6]. unfold end_transaction.
  split; unfold stage_ok, chunks_ok, rcpts_ok, login_ok, relay_ok, submission_ok, open_gate in *; simpl;
    rewrite ?F2, ?F3, ?F4, ?F5, ?F6; simpl.
  - done.
  - exact H2.
  - lia.
  - exact H4.
  - intros Hauth. destruct (H5 Hauth) as [Hr Hacc]. split; [constructor|]. intros m Em.
    destruct Ha as [Ha|[bd Ha]]; rewrite Ha in Em; [by apply Hacc|]. by injection Em as <-.
  - intros Hmode Hauth. rewrite Hg in Hauth; done.
Qed.

Lemma inv_ret {A} (x : A) : triple inv (mret x) (λ _, inv).
Proof. apply (triple_ret x (λ _, inv)). Qed.

Lemma inv_gate_answer b : triple (λ s, inv s ∧ open_gate s) (answer b) (λ _, inv).
Proof. apply inv_answer; by intros s []. Qed.

Lemma inv_data : triple inv dispatch_data (λ _, inv).
Proof.
  apply inv_gated. apply asks_bind. intros [reply|reply].
  { apply inv_answer; by intros s [[]]. }
  apply (triple_conseq _ (λ s, inv s ∧ open_gate s) _ _ (λ _, inv)); [|by intros s [H _]|done].
  assert (∀ s s', same_env s s' → inv s ∧ open_gate s → inv s' ∧ open_gate s') as Henv.
  { intros s s' E [? ?]. split; [by eapply inv_env|by eapply open_gate_env]. }
  apply step_bind; [apply keeps_write|exact Henv|]. intros [].
  apply step_bind; [apply keeps_on_stream|exact Henv|]. intros [msg|]; [apply inv_complete|].
  eapply modify_bind; [|by apply (inv_answer (P := inv))]. intros s [Hs _]. by apply inv_end_transaction.
Qed.

(** A chunk never takes the receiver past the limit. *)
Lemma push_chunk_bound r chunk last step r' :
  push_chunk r chunk last = (step, r') → chunk_max r = MAX_MESSAGE_SIZE →
  Z.of_nat (length (message r)) ≤ MAX_MESSAGE_SIZE →
  chunk_max r' = MAX_MESSAGE_SIZE ∧ Z.of_nat (length (message r')) ≤ MAX_MESSAGE_SIZE.
Proof.
  unfold push_chunk. intros E Hm Hl. rewrite Hm in E. destruct (Z.ltb_spec MAX_MESSAGE_SIZE
    (Z.of_nat (length (message r)) + Z.of_nat (length chunk))); injection E as <- <-; [done|].
  simpl. rewrite length_app. lia.
Qed.

Lemma inv_receive_chunk chunk last :
  triple (λ s, (inv s ∧ open_gate s) ∧ stage s = StRcpt) (receive_chunk chunk last)
    (λ _ s, inv s ∧ open_gate s).
Proof.
  intros s step s' [[[H1 H2 H3 H4 H5 H6] Hg] Hst] E. unfold receive_chunk in E.
  destruct (push_chunk _ chunk last) as [st r'] eqn:Ep. injection E as <- <-. split; [|done].
  split; try done; unfold stage_ok, chunks_ok in *; simpl; [by rewrite Hst in *|].
  intros r [= <-]. destruct (chunks s) as [r|] eqn:Ec; simpl in Ep.
  - destruct (H2 r eq_refl). by eapply push_chunk_bound.
  - eapply push_chunk_bound; [exact Ep|done|]. by vm_compute.
Qed.

Lemma inv_bdat l : triple inv (dispatch_bdat l) (λ _, inv).
Proof.
  apply inv_gated.
  destruct (parse_command _) as [e|[| | | | |size last| | | | |]];
    try (apply inv_answer; by intros s []).
  assert (∀ n b, triple inv (dispose n b) (λ _, inv)) as Hdispose.
  { intros n b. eapply triple_keeps; [apply keeps_dispose|apply inv_env]. }
  apply asks_bind. intros [reply|reply|size' last'].
  - eapply modify_bind; [|apply Hdispose]. intros s [[Hs _] _]. by apply inv_drop_chunks.
  - eapply modify_bind; [|apply Hdispose]. intros s [[Hs _] _]. by apply inv_end_transaction, inv_drop_chunks.
  - set (P := λ s, (inv s ∧ open_gate s) ∧ stage s = StRcpt).
    apply (triple_conseq _ P _ _ (λ _, inv)); [| |done].
    + apply (step_bind P); [apply keeps_on_stream| |intros chunk].
      { intros s s' E [[? ?] Hst]. pose proof E as E'. unfold same_env, env in E'.
        injection E' as ?. split; [split; [by eapply inv_env|by eapply open_gate_env]|congruence]. }
      eapply triple_bind; [apply inv_receive_chunk|]. intros []; [apply inv_gate_answer| |].
      * intros s b s' [Hs Hg] (msg & s1 & [= _ <-] & E)%M_bind_ok. eapply inv_complete; [|exact E].
        split; [by apply inv_drop_chunks|exact Hg].
      * eapply modify_bind; [|by apply (inv_answer (P := inv))].
        intros s [Hs _]. by apply inv_end_transaction, inv_drop_chunks.
    + intros s [Hs Ho]. split; [done|]. unfold bdat_reply in Ho. by case_bool_decide.
Qed.

(** *** Authentication *)

Definition over_tls s : Prop := is_tls (data s) = true.
Lemma over_tls_env s s' : same_env s s' → over_tls s → over_tls s'.
Proof. intros [= _ E _ _ _ _ _ _]. unfold over_tls. by rewrite E. Qed.

Lemma inv_login_step a s : inv s → over_tls s → inv (set_login a s).
Proof.
  intros [H1 H2 H3 H4 H5 H6] Ht.
  split; unfold stage_ok, chunks_ok, rcpts_ok, login_ok, relay_ok, submission_ok in *; simpl; done.
Qed.

Lemma inv_auth_loop fuel exchange step :
  triple (λ s, inv s ∧ over_tls s) (auth_loop fuel exchange step) (λ _, inv).
Proof.
  assert (∀ s s', same_env s s' → inv s ∧ over_tls s → inv s' ∧ over_tls s') as Henv.
  { intros s s' E []. split; [by eapply inv_env|by eapply over_tls_env]. }
  assert (∀ b, triple (λ s, inv s ∧ over_tls s) (write b) (λ _, inv)) as Hw.
  { intros b. eapply triple_conseq; [apply (triple_keeps same_env inv)|by intros s []|done].
    - apply keeps_write.
    - apply inv_env. }
  revert exchange step. induction fuel as [|fuel IH]; intros exchange step; [apply triple_throw|].
  destruct step as [reply|c|reply]; cbn [auth_loop]; [| |apply Hw].
  - apply step_bind; [apply keeps_write|exact Henv|intros []].
    apply step_bind; [apply keeps_read_auth_response|exact Henv|intros [response|]; [|apply Hw]].
    destruct (advance exchange response) as [step' exchange']. apply IH.
  - apply step_bind; [apply keeps_verify|exact Henv|intros [a| |]; [|apply Hw..]].
    intros s [] s' [Hs Ht] (u & s1 & [= _ <-] & E)%M_bind_ok.
    eapply (inv_env (set_login a s)); [|by apply inv_login_step].
    pose proof (keeps_write Auth.SUCCESS (set_login a s)) as Hk. by rewrite E in Hk.
Qed.

Lemma begin_sasl_continue mech tls auth initial exchange step :
  begin_sasl mech tls auth initial = StartContinue exchange step → tls = true ∧ auth = false.
Proof. unfold begin_sasl. by destruct auth, tls. Qed.

Lemma inv_auth l : triple inv (dispatch_auth l) (λ _, inv).
Proof.
  unfold dispatch_auth. destruct (parse_command _) as [e|[]]; try (by apply (inv_answer (P := inv))).
  apply asks_bind. intros start. eapply (triple_bind _ _ _ (λ _, inv)); [|intros []; apply inv_ret].
  destruct start as [reply|exchange step]; cbn [run_auth].
  - eapply triple_conseq; [apply (triple_keeps same_env inv)|by intros s []|done].
    + apply keeps_write.
    + apply inv_env.
  - eapply triple_conseq; [apply inv_auth_loop| |done]. intros s [Hs E].
    by apply begin_sasl_continue in E as [? _].
Qed.

(** *** Every command *)

Lemma inv_dispatch l : triple inv (dispatch l) (λ _, inv).
Proof.
  assert (∀ b, triple inv (answer b) (λ _, inv)) as Ha by (intros b; by apply (inv_answer (P := inv))).
  unfold dispatch. destruct (from_line l); [| |apply inv_mail|apply inv_rcpt|apply inv_data|apply inv_bdat| |
    apply inv_auth| |apply Ha| |apply Ha].
  - eapply modify_bind; [intros s; apply (inv_greet l)|]. apply asks_bind. intros reply.
    apply inv_answer. by intros s [].
  - eapply modify_bind; [intros s; apply (inv_greet l)|apply Ha].
  - apply asks_bind. intros reply. eapply (triple_bind _ _ _ (λ _, inv)); [|intros []; apply inv_ret].
    eapply triple_conseq; [apply (triple_keeps same_env inv)|by intros s []|done].
    + apply keeps_write.
    + apply inv_env.
  - eapply modify_bind; [intros s; apply inv_rset|apply Ha].
  - eapply (triple_bind _ _ _ (λ _, inv)); [|intros []; apply inv_ret].
    eapply triple_keeps; [apply keeps_write|apply inv_env].
Qed.

(** ** Reachable sessions *)

(** One turn of the loop of [run] that goes on. *)
Inductive turn : Session W → Session W → Prop :=
  | turn_intro s l s1 s2 :
      read_line s = (Ok (true, l), s1) → dispatch l s1 = (Ok None, s2) → turn s s2.

(** A session as [new] and the [with_*] methods leave it. *)
Definition just_opened s : Prop :=
  stage s = StConnected ∧ mail_from (data s) = None ∧ rcpt_to (data s) = [] ∧
  authenticated (data s) = false ∧ chunks s = None ∧ accepted s = None.

Lemma just_opened_inv s : just_opened s → inv s.
Proof.
  intros (H1 & H2 & H3 & H4 & H5 & H6).
  split; unfold stage_ok, chunks_ok, rcpts_ok, login_ok, relay_ok, submission_ok;
    rewrite ?H1, ?H2, ?H3, ?H4, ?H5, ?H6; try done; simpl; lia.
Qed.

Lemma turn_inv s s' : turn s s' → inv s → inv s'.
Proof.
  intros [s1 l s2 s3 E1 E2] Hs. eapply (inv_dispatch l); [|exact E2]. eapply inv_env; [|exact Hs].
  pose proof (keeps_read_line s1) as Hk. by rewrite E1 in Hk.
Qed.

Lemma reachable_session_inv s0 s : just_opened s0 → rtc turn s0 s → inv s.
Proof.
  intros H0 Hr. apply just_opened_inv in H0. induction Hr as [|s1 s2 s3 Ht _ IH]; [done|].
  by eapply IH, turn_inv.
Qed.

(** C31. The protocol state is consistent in every reachable session.  Before
    MAIL there is neither sender nor recipient; after MAIL and before the first
    RCPT there is a sender, no recipient and no chunk left over from an earlier
    message; after RCPT there is a sender and between one and a hundred
    recipients; and the chunks of a message never exceed the message size
    limit. *)
Theorem session_consistent s0 s :
  just_opened s0 → rtc turn s0 s →
  match stage s with
  | StConnected | StGreeted => mail_from (data s) = None ∧ rcpt_to (data s) = []
  | StMail => mail_from (data s) ≠ None ∧ rcpt_to (data s) = [] ∧ chunks s = None
  | StRcpt => mail_from (data s) ≠ None ∧ (1 ≤ length (rcpt_to (data s)) ≤ 100)%nat
  end ∧
  (∀ r, chunks s = Some r → Z.of_nat (length (message r)) ≤ 25 * 1024 * 1024).
Proof.
  intros H0 Hr. destruct (reachable_session_inv s0 s H0 Hr) as [H1 H2 H3 _ _ _]. split.
  - unfold stage_ok, rcpts_ok in *. destruct (stage s); try done. destruct H1 as [? Hne]. split; [done|].
    destruct (rcpt_to (data s)); simpl in *; [done|lia].
  - intros r Hc. by destruct (H2 r Hc).
Qed.

(** C2. No open relay.  In every reachable session that has not logged in,
    each recipient taken so far and each recipient of the last accepted message
    is in a hosted domain or is the postmaster, and on a submission port there
    is no sender and no message has been accepted; and a session that has
    logged in did so over TLS, as an account. *)
Theorem no_open_relay s0 s :
  just_opened s0 → rtc turn s0 s →
  (authenticated (data s) = false →
   Forall (ours (local_domains s)) (rcpt_to (data s)) ∧
   (∀ m, accepted s = Some m → Forall (ours (local_domains s)) (am_rcpt_to m)) ∧
   (mode s = ModeSubmission → mail_from (data s) = None ∧ accepted s = None)) ∧
  (authenticated (data s) = true → is_tls (data s) = true ∧ is_Some (account s)).
Proof.
  intros H0 Hr. destruct (reachable_session_inv s0 s H0 Hr) as [_ _ _ H4 H5 H6]. split; [|done].
  intros Ha. destruct (H5 Ha). split_and!; [done..|]. intros Hm. by apply H6.
Qed.

(** ** What a command may change *)

(** Input is only consumed; who the client is and what the session is for stay;
    and, with [b], no sender appears. *)
Definition who s := (authenticated (data s), account s, is_tls (data s), peer s, mode s, services s, local_domains s).
Definition modest (b : bool) s s' : Prop :=
  (length (input (stream s')) ≤ length (input (stream s)))%nat ∧ who s' = who s ∧
  (b = true → mail_from (data s) = None → mail_from (data s') = None).
#[local] Instance modest_po b : PreOrder (modest b).
Proof.
  split.
  - intros s. by split_and!.
  - intros s1 s2 s3 (? & ? & ?) (? & ? & ?). split_and!; [lia|congruence|auto].
Qed.

Lemma modest_weaken b s s' : modest true s s' → modest b s s'.
Proof. intros (? & ? & H). split_and!; auto. Qed.

Definition consumes {A} (m : M Stream A) : Prop :=
  ∀ st, (length (input (m st).2) ≤ length (input st))%nat.

Lemma consumes_write b : consumes (write_st b).
Proof. intros st. unfold write_st. repeat case_match; simpl; lia. Qed.

Lemma read_line_go_rest e inp buf r rest :
  read_line_go e inp buf = (r, rest) →
  (length rest ≤ length inp)%nat ∧
  ((length rest < length inp)%nat ∨ (inp = [] ∧ ∀ l, r = Ok (true, l) → buf ≠ [])).
Proof.
  revert buf. induction inp as [|b inp IH]; intros buf; cbn [read_line_go].
  - intros [= <- <-]. split; [done|]. right. split; [done|]. destruct e; [done|]. by intros l [= ? <-]; destruct buf.
  - repeat case_match; [intros [= <- <-]; simpl; lia..|]. intros [? _]%IH. simpl. lia.
Qed.

Lemma consumes_read_line : consumes read_line_st.
Proof.
  intros st. unfold read_line_st. destruct (read_line_go _ _ _) as [r rest] eqn:E.
  apply read_line_go_rest in E as [? _]. done.
Qed.

Lemma read_line_consumes st l st' :
  read_line_st st = (Ok (true, l), st') → (length (input st') < length (input st))%nat.
Proof.
  unfold read_line_st. destruct (read_line_go _ _ _) as [r rest] eqn:E. intros [= -> <-].
  apply read_line_go_rest in E as [_ [?|[_ H]]]; [done|]. by destruct (H l eq_refl).
Qed.

Lemma read_data_line_go_rest e inp buf r rest :
  read_data_line_go e inp buf = (r, rest) →
  (length rest ≤ length inp)%nat ∧
  ((length rest < length inp)%nat ∨ (inp = [] ∧ ∀ l, r = Ok (true, l) → buf ≠ [])).
Proof.
  revert buf. induction inp as [|b inp IH]; intros buf; cbn [read_data_line_go].
  - intros [= <- <-]. split; [done|]. right. split; [done|]. destruct e; [done|]. by intros l [= ? <-]; destruct buf.
  - case_match; [intros [= <- <-]; simpl; lia|]. intros [? _]%IH. simpl. lia.
Qed.

Lemma consumes_read_data_line : consumes read_data_line_st.
Proof.
  intros st. unfold read_data_line_st. destruct (read_data_line_go _ _ _) as [r rest] eqn:E.
  apply read_data_line_go_rest in E as [? _]. done.
Qed.

Lemma read_data_line_consumes st l st' :
  read_data_line_st st = (Ok (true, l), st') → (length (input st') < length (input st))%nat.
Proof.
  unfold read_data_line_st. destruct (read_data_line_go _ _ _) as [r rest] eqn:E. intros [= -> <-].
  apply read_data_line_go_rest in E as [_ [?|[_ H]]]; [done|]. by destruct (H l eq_refl).
Qed.

Lemma consumes_bind {A B} (m : M Stream A) (k : A → M Stream B) :
  consumes m → (∀ a, consumes (k a)) → consumes (x ← m; k x).
Proof.
  intros Hm Hk st. unfold mbind, M_bind. specialize (Hm st). destruct (m st) as [[a|e] st1]; [|done].
  etransitivity; [apply Hk|exact Hm].
Qed.

Lemma consumes_read_data_loop fuel r o : consumes (read_data_loop fuel r o).
Proof.
  revert r o. induction fuel as [|fuel IH]; intros r o; [by intros st|]. cbn [read_data_loop].
  apply consumes_bind; [apply consumes_read_data_line|]. intros [more l].
  repeat case_match; try (by intros st); apply IH.
Qed.

Lemma consumes_read_exact n : consumes (read_exact_st n).
Proof. intros st. unfold read_exact_st. case_match; simpl; [lia|]. rewrite length_drop. lia. Qed.

Lemma consumes_drain n : consumes (drain_chunk_st n).
Proof.
  unfold drain_chunk_st. generalize (S (Z.to_nat (n / 4096))). intros fuel. revert n.
  induction fuel as [|fuel IH]; intros n; [by intros st|]. cbn [drain_loop]. case_match; [|by intros st].
  apply consumes_bind; [apply consumes_read_exact|]. intros _. apply IH.
Qed.

Lemma modest_on_stream b {A} (m : M Stream A) : consumes m → keeps (modest b) (on_stream (W := W) m).
Proof.
  intros Hm s. unfold on_stream. specialize (Hm (stream s)). destruct (m (stream s)). simpl in *. by split_and!.
Qed.
Lemma modest_write b x : keeps (modest b) (write (W := W) x).
Proof. apply modest_on_stream, consumes_write. Qed.
Lemma modest_read_line b : keeps (modest b) (read_line (W := W)).
Proof. apply modest_on_stream, consumes_read_line. Qed.
Lemma modest_read_data b : keeps (modest b) (read_data (W := W)).
Proof. apply modest_on_stream. intros st. apply consumes_read_data_loop. Qed.
Lemma modest_read_chunk b n : keeps (modest b) (read_chunk (W := W) n).
Proof. apply modest_on_stream, consumes_read_exact. Qed.
Lemma modest_drain b n : keeps (modest b) (drain_chunk (W := W) n).
Proof. apply modest_on_stream, consumes_drain. Qed.
Lemma modest_asks b {A} (f : Session W → A) : keeps (modest b) (asks f).
Proof. intros s. reflexivity. Qed.
Lemma modest_modify b f : (∀ s, modest b s (f s)) → keeps (modest b) (modify (W := W) f).
Proof. intros H s. apply H. Qed.
Lemma modest_greylist b a : keeps (modest b) (greylist_defers a).
Proof. intros s. unfold greylist_defers. repeat (case_match; try done). Qed.
#[local] Hint Resolve modest_write modest_read_line modest_read_data modest_read_chunk modest_drain modest_asks
  modest_modify modest_greylist : hoare.

Lemma accept_body_modest b from rcpts msg : keeps (modest b) (accept_body from rcpts msg).
Proof.
  intros s. destruct (accept_body_env from rcpts msg s) as [E _]. unfold env' in E.
  injection E as E1 E2 E3 E4 E5 E6 E7.
  assert (stream (accept_body from rcpts msg s).2 = stream s ∧ peer (accept_body from rcpts msg s).2 = peer s)
    as [Es Ep].
  { clear. unfold accept_body. destruct (mode s).
    - unfold accept_inbound. destruct (services s) as [[zones host hostname|]|] eqn:Es; simpl; [|done..].
      unfold mbind, M_bind, rate_limit_message, rate_limited. rewrite Es.
      destruct (on_message (peer s) (world s)) as [d w]. destruct d; simpl; [|done].
      destruct (run_gauntlet _ _ _ _ _ _ _) as [[disp|r|r] ar]; simpl; [|done..].
      unfold on_world. simpl. by destruct (deliver_inbound _ _ _ _ _ _) as [[[reply|]|e] w'].
    - unfold accept_submission. destruct (services s) as [[zones host hostname|]|] eqn:Es; simpl; [done| |done].
      destruct (match _ with Some d => signer d (world s) | None => _ end) as [sign w].
      destruct (match sign with Some f => _ | None => _ end) as [signed|e]; simpl; [|done].
      by destruct (enqueue_submission _ _ _ _) as [[e|e] w']. }
  split_and!; [by rewrite Es| |by rewrite E2]. unfold who. by rewrite E2, E4, E5, E6, E7, Ep.
Qed.

Lemma modest_answer b x : keeps (modest b) (answer (W := W) x).
Proof. apply keeps_bind; [apply _|apply modest_write|]. intros [] s. reflexivity. Qed.

Lemma modest_complete b msg : keeps (modest b) (complete msg).
Proof.
  apply keeps_bind; [apply _|by intros s; split_and!|]. intros [from rcpts].
  apply keeps_bind; [apply _|apply accept_body_modest|]. intros reply.
  apply keeps_bind; [apply _|by apply modest_modify; intros s; split_and!|]. intros []. apply modest_answer.
Qed.

Lemma modest_dispose b n x : keeps (modest b) (dispose (W := W) n x).
Proof.
  unfold dispose. case_match; (apply keeps_bind; [apply _|auto with hoare|]); intros [].
  - apply modest_answer.
  - intros s. reflexivity.
Qed.
Lemma modest_receive_chunk b chunk last : keeps (modest b) (receive_chunk (W := W) chunk last).
Proof. intros s. unfold receive_chunk. destruct (push_chunk _ _ _). by split_and!. Qed.
#[local] Hint Resolve modest_receive_chunk accept_body_modest modest_answer modest_complete modest_dispose : hoare.

(** Walks through a command. *)
Ltac walk :=
  repeat first
    [ progress intros
    | apply keeps_bind; [apply _| |]
    | apply modest_modify; intros; by split_and!
    | solve [auto with hoare]
    | case_match
    | by (intros ?; reflexivity) ].

Lemma modest_gated b m : keeps (modest b) m → keeps (modest b) (gated m).
Proof. intros H. unfold gated. walk; done. Qed.

Lemma modest_dispatch l : from_line l ≠ VAuth → from_line l ≠ VMail → keeps (modest true) (dispatch l).
Proof.
  unfold dispatch. destruct (from_line l); intros; try done; walk.
  apply modest_modify. intros s. case_bool_decide; by split_and!.
Qed.

(** MAIL sets the sender it was given, behind the gate and the ownership check. *)
Lemma dispatch_mail_modest l : keeps (modest false) (dispatch_mail l).
Proof.
  unfold dispatch_mail. apply modest_gated. walk; by apply modest_modify; intros s; split_and!.
Qed.

Lemma guard_from_proceed a owned :
  guard_from a owned = OwnProceed → a = [] ∨ ∃ o, o ∈ owned ∧ eq_ignore_ascii_case o a = true.
Proof.
  unfold guard_from. destruct a as [|x a]; [by left|]. case_match eqn:E; [|done]. intros _. right.
  apply existsb_exists in E as (o & Ho & Heq). exists o. by rewrite list_elem_of_In.
Qed.

(** After [answer] the sender is what it was. *)
Lemma answer_mail_from b s : mail_from (data (answer b s).2) = mail_from (data s).
Proof. pose proof (keeps_answer b s) as E. unfold same_env, env in E. by injection E as _ -> _ _ _ _ _ _. Qed.

Lemma dispatch_mail_sender l s a :
  mode s = ModeSubmission → mail_from (data s) = None → mail_from (data (dispatch_mail l s).2) = Some a →
  authenticated (data s) = true ∧
  (a = [] ∨ ∃ o, o ∈ owned_addresses s ∧ eq_ignore_ascii_case o a = true).
Proof.
  intros Hm Hn. unfold dispatch_mail, gated. unfold mbind at 1, M_bind at 1, asks at 1. unfold submission_gate.
  rewrite Hm. destruct (authenticated (data s)); cbn [guard_submission]; [|by rewrite answer_mail_from, Hn].
  intros H. split; [done|]. revert H. destruct (parse_command _) as [e|[]]; rewrite ?answer_mail_from, ?Hn; try done.
  unfold mbind at 1, M_bind at 1, asks at 1. unfold check_sender. rewrite Hm.
  destruct (guard_from (mp_address from) (owned_addresses s)) as [|reply] eqn:Eg;
    [|by rewrite answer_mail_from, Hn].
  unfold mbind at 1, M_bind at 1, asks at 1.
  destruct (mail_reply _ _ _ _) as [reply|path reply] eqn:Er; [by rewrite answer_mail_from, Hn|].
  unfold mbind at 1, M_bind at 1, modify at 1. rewrite answer_mail_from. simpl. intros [= <-].
  unfold mail_reply in Er. repeat (case_match; [done|]). injection Er as <- <-. by apply guard_from_proceed.
Qed.

(** AUTH changes the client's standing only by a granted login. *)
Definition logs_in s s' : Prop :=
  authenticated (data s) = false ∧ is_tls (data s) = true ∧
  ∃ c w w' a, attempt_login (show_ip (to_canonical (peer s))) (authcid c) (password c) w = (Ok (Granted a), w') ∧
    authenticated (data s') = true ∧ account s' = Some a.
(** What no command changes. *)
Definition fixed s := (is_tls (data s), peer s, mode s, services s, local_domains s).
Definition auth_change s s' : Prop :=
  (length (input (stream s')) ≤ length (input (stream s)))%nat ∧ (who s' = who s ∨ logs_in s s') ∧
  mail_from (data s') = mail_from (data s) ∧ fixed s' = fixed s.

Lemma who_fixed s s' : who s' = who s → fixed s' = fixed s.
Proof. unfold who, fixed. by intros [= _ _ -> -> -> -> ->]. Qed.

Lemma same_env_mail_from s s' : same_env s s' → mail_from (data s') = mail_from (data s).
Proof. intros E. unfold same_env, env in E. by injection E as _ -> _ _ _ _ _ _. Qed.

Lemma auth_change_step s s1 s2 :
  modest true s s1 → same_env s s1 → auth_change s1 s2 → auth_change s s2.
Proof.
  intros (H1 & H2 & _) He (H3 & H4 & H5 & H6). apply same_env_mail_from in He. pose proof (who_fixed _ _ H2).
  split_and!; [lia| |congruence..].
  destruct H4 as [H4|(Ha & Ht & Hc)]; [left; congruence|]. right.
  unfold who in H2. injection H2 as E1 E2 E3 E4 E5 E6 E7. unfold logs_in. rewrite <-E1, <-E3, <-E4. done.
Qed.

Lemma auth_change_refl s s' : modest true s s' → same_env s s' → auth_change s s'.
Proof.
  intros (H1 & H2 & _) He. apply same_env_mail_from in He. split_and!; [done|by left|done|by apply who_fixed].
Qed.

Lemma write_auth_change b s : auth_change s (write b s).2.
Proof. apply auth_change_refl; [apply modest_write|apply keeps_write]. Qed.

Lemma modest_read_auth_response : keeps (modest true) (read_auth_response (W := W)).
Proof. unfold read_auth_response. walk. Qed.
Lemma modest_verify c : keeps (modest true) (verify_credentials c).
Proof.
  intros s. unfold verify_credentials. case_match; [|reflexivity]. unfold on_world.
  destruct (attempt_login _ _ _ _). by split_and!.
Qed.

Lemma auth_change_bind {A B} (m : M (Session W) A) (k : A → M (Session W) B) s :
  keeps (modest true) m → keeps same_env m →
  (∀ a s1, m s = (Ok a, s1) → auth_change s1 (k a s1).2) → auth_change s ((x ← m; k x) s).2.
Proof.
  intros H1 H2 Hk. unfold mbind, M_bind. specialize (H1 s). specialize (H2 s).
  destruct (m s) as [[a|e] s1] eqn:E; [|by apply auth_change_refl].
  eapply auth_change_step; [done..|]. by apply Hk.
Qed.

Lemma auth_loop_change fuel exchange step s :
  authenticated (data s) = false → is_tls (data s) = true →
  auth_change s (auth_loop fuel exchange step s).2.
Proof.
  revert exchange step s. induction fuel as [|fuel IH]; intros exchange step s Ha Ht.
  { by apply auth_change_refl. }
  assert (∀ s1 : Session W, modest true s s1 → authenticated (data s1) = false ∧ is_tls (data s1) = true) as Hw.
  { intros s1 (_ & E & _). unfold who in E. injection E as E1 _ E2 _ _ _ _. split; congruence. }
  destruct step as [reply|c|reply]; cbn [auth_loop]; [| |apply write_auth_change].
  - apply auth_change_bind; [apply modest_write|apply keeps_write|]. intros [] s1 E1.
    pose proof (modest_write true reply s) as M1. rewrite E1 in M1.
    apply auth_change_bind; [apply modest_read_auth_response|apply keeps_read_auth_response|].
    intros [response|] s2 E2; [|apply write_auth_change].
    pose proof (modest_read_auth_response s1) as M2. rewrite E2 in M2.
    destruct (advance exchange response) as [step' exchange'].
    destruct (Hw s2) as [? ?]; [by etransitivity|]. by apply IH.
  - apply auth_change_bind; [apply modest_verify|apply keeps_verify|]. intros attempt s1 E1.
    pose proof (modest_verify c s) as M1. rewrite E1 in M1. destruct (Hw s1 M1) as [Ha1 Ht1].
    destruct attempt as [a| |]; [|apply write_auth_change..].
    unfold mbind, M_bind, modify. destruct (write_auth_change Auth.SUCCESS (set_login a s1)) as (Hl & Hc & Hf & Hx).
    split_and!; [done| |done|done]. right. split_and!; [done..|].
    unfold verify_credentials in E1. case_match; [|done].
    unfold on_world in E1. destruct (attempt_login _ _ _ _) as [r w'] eqn:El. injection E1 as -> <-.
    exists c, (world s), w', a. split; [exact El|].
    destruct Hc as [Hc|(Hc & _)]; [|done]. unfold who in Hc. by injection Hc as -> -> _ _ _ _ _.
Qed.

Lemma dispatch_auth_change l s : auth_change s (dispatch_auth l s).2.
Proof.
  unfold dispatch_auth. destruct (parse_command _) as [e|[]];
    try (apply auth_change_refl; [apply modest_answer|apply keeps_answer]).
  unfold mbind at 1, M_bind at 1, asks at 1.
  destruct (begin_sasl _ _ _ _) as [reply|exchange step] eqn:Eb; cbn [run_auth].
  - unfold mbind, M_bind. pose proof (write_auth_change reply s) as H.
    by destruct (write reply s) as [[?|?] ?].
  - apply begin_sasl_continue in Eb as [Ht Ha]. pose proof (auth_loop_change 3 exchange step s Ha Ht) as H.
    unfold mbind, M_bind. by destruct (auth_loop 3 exchange step s) as [[?|?] ?].
Qed.

(** How a client gains standing.  Whatever line a session dispatches and
    whether or not it fails: the session becomes authenticated only by an AUTH
    command over TLS whose credentials the directory granted, as the account it
    granted; on a submission session a sender is accepted only from an
    authenticated client and only if it is empty or, up to case, one of the
    account's own addresses; and nothing changes the TLS state, the mode, the
    peer or the hosted domains. *)
Theorem standing_is_earned l s r s' :
  dispatch l s = (r, s') →
  (who s' = who s ∨ from_line l = VAuth ∧ logs_in s s') ∧ fixed s' = fixed s ∧
  (∀ a, mode s = ModeSubmission → mail_from (data s) = None → mail_from (data s') = Some a →
     authenticated (data s) = true ∧
     (a = [] ∨ ∃ o, o ∈ owned_addresses s ∧ eq_ignore_ascii_case o a = true)).
Proof.
  intros E. assert (s' = (dispatch l s).2) as -> by (by rewrite E). clear E. unfold dispatch.
  destruct (from_line l) eqn:Ev; try (
    pose proof (modest_dispatch l ltac:(congruence) ltac:(congruence) s) as (_ & Hw & Hn);
    unfold dispatch in Hw, Hn; rewrite Ev in Hw, Hn;
    split_and!; [by left|by apply who_fixed|]; intros a _ H1 H2; rewrite Hn in H2; done).
  - destruct (dispatch_mail_modest l s) as (_ & Hw & _). split_and!; [by left|by apply who_fixed|].
    intros a. apply dispatch_mail_sender.
  - destruct (dispatch_auth_change l s) as (_ & Hw & Hf & Hx). split_and!; [by destruct Hw; [left|right]|done|].
    intros a _ H1 H2. congruence.
Qed.
End safety.
