(* ===== verification/SmtpOutcome.v ===== *)
(** * What a session's replies mean, and that it ends

    A submission that is answered with 250 is in the queue; the loops of a
    session end; and two places where the reply and what happens differ.  A
    session with in-memory services closes the file. *)

From S2P Require Import Prelude Bytes Key Store Text Ttl Expiring Blobs QueueModel QueueStore QueueDeliver SmtpVerdict SmtpCommands SmtpSubmit SmtpSession SmtpData SmtpSafety.
From stdpp Require Import base gmap list strings relations.
From Stdlib Require Import ZArith Lia.

Open Scope Z_scope.

(** ** Submission *)

Section submission.
Context {W Mailbox Script : Type} {proto : SmtpProto} {sw : SessionWorld W Mailbox Script}.
Context {promise : QueuePromise W}.
Implicit Type s : Session W.

(** Making a DKIM key leaves the queue usable. *)
Definition signer_harmless : Prop := ∀ d w, can_queue w → can_queue (signer d w).2.

(** The bytes a submission is queued as: completed, and signed by the domain's
    signer if it has one. *)
Definition submitted_as (w : W) (msg raw : bytes) : Prop :=
  ∃ host now, raw = complete_headers msg host now ∨
    ∃ d f, (signer d w).1 = Some f ∧ f (complete_headers msg host now) = Ok raw.

Lemma accept_submission_spec from rcpts msg s :
  signer_harmless → can_queue (world s) → services s = Some SvcSubmission →
  ∃ reply s', accept_submission from rcpts msg s = (Ok reply, s') ∧
    stream s' = stream s ∧ data s' = data s ∧
    ((reply = TEMPFAIL ∧ accepted s' = accepted s) ∨
     (reply = Data.ACCEPTED ∧ ∃ id m raw, queued_as (world s') id m raw ∧ submitted_as (world s) msg raw ∧
        return_path m = default [] from ∧ (address <$> recipients m) = rcpts)).
Proof.
  intros Hsig Hq Hsvc. unfold accept_submission. rewrite Hsvc.
  set (sd := match from_domain msg with Some d => Some d | None => _ end).
  set (completed := complete_headers msg (default HOSTNAME sd) (now_seconds (world s))).
  assert (∃ sign w, match sd with Some d => signer d (world s) | None => (None, world s) end = (sign, w) ∧
    can_queue w ∧ ∀ raw, match sign with Some f => f completed | None => Ok completed end = Ok raw →
      submitted_as (world s) msg raw) as (sign & w & -> & Hw & Hraw).
  { destruct sd as [d|] eqn:Ed.
    - destruct (signer d (world s)) as [sign w] eqn:Es. exists sign, w. split; [done|]. split.
      + specialize (Hsig d (world s) Hq). by rewrite Es in Hsig.
      + intros raw Hr. eexists _, _. destruct sign as [f|]; [right|left; by injection Hr as <-].
        exists d, f. rewrite Es. by split.
    - exists None, (world s). split_and!; [done..|]. intros raw [= <-]. eexists _, _. by left. }
  destruct (match sign with Some f => f completed | None => Ok completed end) as [signed|e] eqn:Esign.
  2:{ eexists _, _. split; [done|]. split_and!; [done..|]. by left. }
  destruct (enqueue_submission _ _ _ _) as [[e|e] w'] eqn:Eq.
  - eexists _, _. split; [done|]. split_and!; [done..|]. right. split; [done|].
    apply queue_message_promise in Eq as (Hin & Hp & Ha); [|done].
    exists (enq_id e), (enq_message e), signed. split_and!; [done|by apply Hraw|done|].
    rewrite Ha. simpl. rewrite <-list_fmap_compose. clear. induction rcpts; [done|]. by rewrite fmap_cons, IHrcpts.
  - eexists _, _. split; [done|]. split_and!; [done..|]. by left.
Qed.

Lemma write_ok b s :
  faults (stream s) = [] →
  write b s = (Ok tt, set_stream (mkStream (input (stream s)) (at_end (stream s)) (output (stream s) ++ b) []) s).
Proof. intros H. unfold write, on_stream, write_st. by rewrite H. Qed.

End submission.

(** ** The loops end *)

Section termination.
Context {W Mailbox Script : Type} {proto : SmtpProto} {sw : SessionWorld W Mailbox Script}.
Implicit Type s : Session W.

Lemma read_data_loop_fuel fuel k r o st :
  (length (input st) < fuel)%nat → read_data_loop (fuel + k) r o st = read_data_loop fuel r o st.
Proof.
  revert r o st. induction fuel as [|fuel IH]; intros r o st Hf; [lia|]. cbn [Nat.add read_data_loop].
  unfold mbind, M_bind. destruct (read_data_line_st st) as [[[more l]|e] st'] eqn:E; [|done].
  destruct more; [|done]. cbn [negb]. apply read_data_line_consumes in E.
  repeat case_match; try done; apply IH; lia.
Qed.

(** How many turns an exchange can still take. *)
Definition turns (exchange : SaslExchange) (step : SaslStep) : nat :=
  match step, exchange with
  | Challenge _, LoginAwaitingUsername => 3
  | Challenge _, _ => 2
  | _, _ => 1
  end.

Lemma advance_turns exchange reply response :
  let '(step', exchange') := advance exchange response in
  (turns exchange' step' < turns exchange (Challenge reply))%nat.
Proof.
  unfold advance. destruct (base64_decode _); [|by destruct exchange; simpl; lia].
  destruct exchange; [destruct (decode_plain _)|destruct (from_utf8 _)..]; simpl; lia.
Qed.

Lemma auth_loop_fuel fuel k exchange step s :
  (turns exchange step ≤ fuel)%nat → auth_loop (fuel + k) exchange step s = auth_loop fuel exchange step s.
Proof.
  revert exchange step s. induction fuel as [|fuel IH]; intros exchange step s Hf.
  { destruct step, exchange; simpl in Hf; lia. }
  cbn [Nat.add auth_loop]. destruct step as [reply|c|reply]; [|done..].
  unfold mbind, M_bind. destruct (write reply s) as [[[]|e] s1]; [|done].
  destruct (read_auth_response s1) as [[[response|]|e] s2]; [|done..].
  pose proof (advance_turns exchange reply response) as Ht. destruct (advance exchange response) as [step' exchange'].
  apply IH. lia.
Qed.

Lemma dispatch_consumes l s :
  (length (input (stream (dispatch l s).2)) ≤ length (input (stream s)))%nat.
Proof.
  destruct (from_line l) eqn:E; try (apply modest_dispatch; congruence).
  - unfold dispatch. rewrite E. apply dispatch_mail_modest.
  - unfold dispatch. rewrite E. apply dispatch_auth_change.
Qed.

Lemma run_loop_fuel fuel k s :
  (length (input (stream s)) < fuel)%nat → run_loop (fuel + k) s = run_loop fuel s.
Proof.
  revert s. induction fuel as [|fuel IH]; intros s Hf; [lia|]. cbn [Nat.add run_loop].
  unfold mbind, M_bind. destruct (read_line s) as [[[more l]|e] s1] eqn:E; [|done].
  destruct more; [|done]. cbn [negb].
  assert (length (input (stream s1)) < length (input (stream s)))%nat as H1.
  { unfold read_line, on_stream in E. destruct (read_line_st (stream s)) as [r st] eqn:Er.
    injection E as -> <-. by apply read_line_consumes in Er. }
  pose proof (dispatch_consumes l s1) as H2. destruct (dispatch l s1) as [[[flow|]|e] s2]; try done.
  cbn [snd] in H2. apply IH. lia.
Qed.

Lemma drain_loop_spec fuel n st :
  0 ≤ n ≤ Z.of_nat (length (input st)) → n ≤ 4096 * Z.of_nat fuel →
  drain_loop fuel n st = (Ok tt, set_input (drop (Z.to_nat n) (input st)) st).
Proof.
  revert n st. induction fuel as [|fuel IH]; intros n st Hn Hf.
  { assert (n = 0) as -> by lia. simpl. by destruct st. }
  cbn [drain_loop]. destruct (Z.ltb_spec 0 n); [|assert (n = 0) as -> by lia; simpl; by destruct st].
  unfold mbind, M_bind, read_exact_st. rewrite (proj2 (Z.ltb_ge _ _)) by lia.
  assert (0 ≤ n - Z.min n 4096) by lia.
  rewrite IH; cbn [input set_input]; [|rewrite length_drop; lia|lia].
  rewrite drop_drop, set_input_twice.
  by replace (Z.to_nat (Z.min n 4096) + Z.to_nat (n - Z.min n 4096))%nat with (Z.to_nat n) by lia.
Qed.


(** ** Where the reply and the effect differ *)

(** The client is on a blocklist that refuses with this reply. *)
Definition listed_with (reply : bytes) s : Prop := ∃ zone listing, dnsbl s = DnsblReject zone listing reply.

(** The blocklist verdict lasts for one message.  On an inbound session
    whose client is listed, the first message that is not looping is refused
    with the blocklist's reply; but handling it clears the verdict, so that the
    next message on the connection is judged as if the client were not listed. *)
Theorem blocklist_forgotten from rcpts msg s zones host hostname reply w :
  mode s = ModeInbound → services s = Some (SvcInbound zones host hostname) → listed_with reply s →
  on_message (peer s) (world s) = (Inbound.Allow, w) → (received_count msg ≤ 50)%nat →
  ∃ s', accept_body from rcpts msg s = (Ok reply, s') ∧ (∀ r, ¬ listed_with r s') ∧ dnsbl s' = DnsblAllow ∧
    services s' = services s.
Proof.
  intros Hm Hs (zone & listing & Hd) Ho Hr. unfold accept_body. rewrite Hm. unfold accept_inbound. rewrite Hs.
  unfold mbind, M_bind, rate_limit_message, rate_limited. rewrite Hs, Ho. cbn [peer data dnsbl world set_world].
  rewrite Hd. assert (loop_check msg DEFAULT_MAX_RECEIVED = LoopAllow) as El.
  { unfold loop_check, DEFAULT_MAX_RECEIVED. by rewrite (proj2 (Nat.ltb_ge _ _)). }
  unfold run_gauntlet. rewrite El. destruct (auth_parse msg); simpl; eexists; split_and!; try done; by intros r (? & ? & [=]).
Qed.
End termination.

(** ** A session in memory *)

Module SmtpDemo.
Import MemCodec.

(** Enough of the command grammar for the samples. *)
Definition argument (prefix l : bytes) : option bytes :=
  rest ← Text.strip_prefix prefix l; Some (take_while (λ b, negb ((b =? 62) || (b =? CR))) rest).
#[global] Instance demo_proto : SmtpProto := {|
  parse_request l :=
    match argument (bs "MAIL FROM:<") l, argument (bs "RCPT TO:<") l, argument (bs "AUTH PLAIN ") l with
    | Some a, _, _ => inr (RMail (mkMailFrom a 0 0))
    | _, Some a, _ => inr (RRcpt a)
    | _, _, Some x => inr (RAuth 1 x)
    | _, _, _ => inl PUnknownCommand
    end;
  AUTH_PLAIN := 1; AUTH_LOGIN := 2; MAIL_BODY_8BITMIME := 1; MAIL_SMTPUTF8 := 2;
  EXT_ENHANCED_STATUS_CODES := 1; EXT_8BIT_MIME := 2; EXT_SMTP_UTF8 := 4; EXT_PIPELINING := 8;
  EXT_CHUNKING := 16; EXT_START_TLS := 32; EXT_AUTH := 64; EXT_SIZE := 128;
  write_ehlo r := line "250 irixmail";
  base64_decode x := Some ((λ b, if b =? 124 then 0 else b) <$> x);
|}.

Definition W : Type := MemStore * MemBlobs.
Definition ann : Account := mkAccount 7 (bs "ann") 1 [bs "a@x.org"] 0.

#[global] Instance demo_auth : MailAuth W := {|
  auth_parse raw := None;
  verify_spf _ helo _ _ _ := mkSpfOutput helo SpfNone;
  verify_dkim _ _ := []; verify_arc _ _ := mkArcOutput DkNone 0;
  verify_dmarc _ _ d _ _ := mkDmarcOutput d PolicyNone DmNone DmNone;
  check_ip _ _ _ := Ok (Some (bs "127.0.0.2"));
|}.
#[global] Instance demo_queue : QueueWorld W := store_queue 1000.
#[global] Instance demo_keeps : QueuePromise W := store_queue_keeps 1000.

(** One account, ann at x.org; every other address is unknown. *)
#[global] Instance demo_world : SessionWorld W unit unit := {|
  sw_auth := demo_auth; sw_queue := demo_queue;
  attempt_login _ user pass w :=
    (Ok (if bool_decide (user = bs "ann") && bool_decide (pass = bs "pw") then Granted ann else Denied), w);
  resolve_address a _ := Ok (if bool_decide (a = bs "ann@x.org") then ResLocal 7 else ResUnknown);
  domain_name _ _ := Ok (bs "x.org");
  account_get id _ := if id =? 7 then Ok ann else Err (NotFound "account");
  compile_active_script _ _ := None;
  load_mailboxes _ _ := Ok [tt]; provision_mailboxes _ := [tt];
  mail_deliver _ w := (Ok (mkOutcome [] false false), w);
  respond_vacations _ _ _ _ _ w := w;
  on_connect _ w := (Inbound.Allow, w); on_message _ w := (Inbound.Allow, w);
  greylist_check _ _ _ w := (GlAllow, w);
  signer _ w := (None, w);
|}.

Definition peer_ip : IpAddr := V4 [10; 0; 0; 7].
Definition stream_of (inp : bytes) : Stream := mkStream inp None [] [].
Definition inbound (zones : list bytes) (inp : bytes) : Session W :=
  with_tls (with_local_domains [bs "x.org"]
    (with_services (SvcInbound zones (bs "mx.x.org") None) (session_new (stream_of inp) peer_ip QueueDemo.w0))).
Definition submission (inp : bytes) : Session W :=
  with_tls (with_services SvcSubmission (session_new (stream_of inp) peer_ip QueueDemo.w0)).

Definition transcript (s : Session W) : bytes := output (stream (run s).2).

(** Without a login a message to the hosted domain is accepted and one to
    another domain refused. *)
Example inbound_transcript :
  transcript (inbound [] (line "EHLO c" ++ line "MAIL FROM:<b@y>" ++ line "RCPT TO:<c@z>" ++
    line "RCPT TO:<ann@x.org>" ++ line "DATA" ++ line "hi" ++ line "." ++ line "QUIT")) =
  GREETING ++ line "250 irixmail" ++ Mail.ACCEPTED ++ Rcpt.RELAY_DENIED ++ Rcpt.ACCEPTED ++ Data.READY ++
  Data.ACCEPTED ++ quit_reply.
Proof. vm_compute. reflexivity. Qed.

(** A submission needs a login and an address of the account. *)
Example submission_transcript :
  transcript (submission (line "EHLO c" ++ line "MAIL FROM:<a@x.org>" ++ line "AUTH PLAIN |ann|pw" ++
    line "MAIL FROM:<root@x.org>" ++ line "MAIL FROM:<A@X.org>" ++ line "RCPT TO:<c@z>" ++ line "DATA" ++
    line "hi" ++ line "." ++ line "QUIT")) =
  GREETING ++ line "250 irixmail" ++ AUTH_REQUIRED ++ Auth.SUCCESS ++ FROM_NOT_OWNED ++ Mail.ACCEPTED ++
  Rcpt.ACCEPTED ++ Data.READY ++ Data.ACCEPTED ++ quit_reply.
Proof. vm_compute. reflexivity. Qed.

(** A listed client: the first message is refused, the second accepted. *)
Example blocklist_transcript :
  let message := line "MAIL FROM:<b@y>" ++ line "RCPT TO:<ann@x.org>" ++ line "DATA" ++ line "hi" ++ line "." in
  transcript (inbound [bs "zen.spamhaus.org"] (line "EHLO c" ++ message ++ message)) =
  GREETING ++ line "250 irixmail" ++
  Mail.ACCEPTED ++ Rcpt.ACCEPTED ++ Data.READY ++ LISTED ++
  Mail.ACCEPTED ++ Rcpt.ACCEPTED ++ Data.READY ++ Data.ACCEPTED.
Proof. vm_compute. reflexivity. Qed.

(** The states after EHLO and MAIL. *)
Definition s0 : Session W := inbound [] (line "EHLO c" ++ line "MAIL FROM:<b@y>" ++ line "QUIT").
Definition s1 : Session W := (dispatch (bs "EHLO c" ++ [CR]) (read_line s0).2).2.
Definition s2 : Session W := (dispatch (bs "MAIL FROM:<b@y>" ++ [CR]) (read_line s1).2).2.
Lemma s2_reachable : rtc turn s0 s2.
Proof.
  eapply rtc_l; [|eapply rtc_l; [|apply rtc_refl]].
  - eapply (turn_intro s0 (bs "EHLO c" ++ [CR]) (read_line s0).2 s1); vm_compute; reflexivity.
  - eapply (turn_intro s1 (bs "MAIL FROM:<b@y>" ++ [CR]) (read_line s1).2 s2); vm_compute; reflexivity.
Qed.
Lemma s0_fresh : just_opened s0.
Proof. vm_compute. done. Qed.

(** An authenticated submission that waits for DATA. *)
Definition ready : Session W :=
  mkSession (stream_of (line "hi" ++ line "." ++ line "QUIT")) peer_ip StRcpt
    (mkData (bs "c") (Some (bs "a@x.org")) false [bs "c@z"] true true) None [] None ModeSubmission
    (Some SvcSubmission) DnsblAllow (Some ann) false QueueDemo.w0.
End SmtpDemo.

(** A recipient in another domain, taken from an authenticated client on the
    inbound port together with a local one, gets 250 from RCPT and 250 from
    DATA, and nothing is queued or delivered for it. *)
Theorem authenticated_remote_dropped :
  let s := SmtpDemo.inbound [] (line "EHLO c" ++ line "AUTH PLAIN |ann|pw" ++ line "MAIL FROM:<a@x.org>" ++
             line "RCPT TO:<ann@x.org>" ++ line "RCPT TO:<c@z>" ++ line "DATA" ++ line "hi" ++ line ".") in
  let s' := (run s).2 in
  output (stream s') = GREETING ++ line "250 irixmail" ++ Auth.SUCCESS ++ Mail.ACCEPTED ++ Rcpt.ACCEPTED ++
    Rcpt.ACCEPTED ++ Data.READY ++ Data.ACCEPTED ∧
  (am_rcpt_to <$> accepted s') = Some [bs "ann@x.org"; bs "c@z"] ∧
  load 1 (world s').1 = Ok None ∧
  match resolve_recipients (Script := unit) [] [] 0 [bs "ann@x.org"; bs "c@z"] ([], 0%nat) (world s) with
  | (Ok (rs, forwarded), _) => (pr_recipient <$> rs) = [bs "ann@x.org"] ∧ forwarded = 0%nat
  | _ => False
  end.
Proof. vm_compute. done. Qed.

Lemma session_consistent_witness :
  rtc turn SmtpDemo.s0 SmtpDemo.s2 ∧ stage SmtpDemo.s2 = StMail ∧ chunks SmtpDemo.s2 = None.
Proof.
  pose proof (session_consistent SmtpDemo.s0 SmtpDemo.s2 SmtpDemo.s0_fresh SmtpDemo.s2_reachable) as [H _].
  assert (stage SmtpDemo.s2 = StMail) as E by (vm_compute; reflexivity). rewrite E in H.
  split; [exact SmtpDemo.s2_reachable|]. split; [exact E|exact (proj2 (proj2 H))].
Defined.

Lemma no_open_relay_witness :
  authenticated (data SmtpDemo.s2) = false ∧ Forall (ours [bs "x.org"]) (rcpt_to (data SmtpDemo.s2)).
Proof.
  split; [vm_compute; reflexivity|].
  apply (proj1 (no_open_relay SmtpDemo.s0 SmtpDemo.s2 SmtpDemo.s0_fresh SmtpDemo.s2_reachable)).
  vm_compute. reflexivity.
Defined.

Lemma standing_is_earned_witness :
  let s := SmtpDemo.submission (line "EHLO c") in
  let s' := (dispatch (bs "AUTH PLAIN |ann|pw") s).2 in
  authenticated (data s') = true ∧ (who s' = who s ∨ from_line (bs "AUTH PLAIN |ann|pw") = VAuth ∧ logs_in s s').
Proof.
  intros s s'. split; [vm_compute; reflexivity|].
  apply (standing_is_earned (bs "AUTH PLAIN |ann|pw") s (dispatch (bs "AUTH PLAIN |ann|pw") s).1 s').
  apply surjective_pairing.
Defined.



Lemma blocklist_forgotten_witness :
  let s := set_dnsbl (DnsblReject (bs "zone") [] LISTED) (SmtpDemo.inbound [bs "zone"] []) in
  ∃ s', accept_body (Some (bs "b@y")) [bs "ann@x.org"] (line "hi") s = (Ok LISTED, s') ∧ dnsbl s' = DnsblAllow.
Proof.
  intros s.
  destruct (blocklist_forgotten (Some (bs "b@y")) [bs "ann@x.org"] (line "hi") s [bs "zone"] (bs "mx.x.org") None
    LISTED (world s)) as (s' & E & _ & Hd & _);
    [reflexivity|reflexivity|by eexists _, _|reflexivity|vm_compute; lia|].
  exists s'. split; [exact E|exact Hd].
Defined.
