(* ===== verification/Pop3Commands.v ===== *)
(** * POP3: commands and responses (crates/pop3/src/parser.rs, cmd_*.rs)

    The parsing of a command line and the bytes of every response.  Texts are
    UTF-8 bytes; white space is Unicode's. *)

From S2P Require Import Prelude Bytes Text.
From stdpp Require Import base list strings.
From Stdlib Require Import ZArith Lia.

Open Scope Z_scope.

(** ** parser.rs *)

Record ParsedCommand : Type := mkCommand { pc_verb : bytes; pc_rest : bytes; pc_args : list bytes }.
Definition strip_last (b : Z) (s : bytes) : bytes := default s (Text.strip_suffix [b] s).
Definition strip_crlf (l : bytes) : bytes := strip_last CR (strip_last LF l).
Definition parse_command (l : bytes) : ParsedCommand :=
  let trimmed := str_trim_start (utf8_lossy (strip_crlf l)) in
  let '(verb, rest) :=
    match split_once_space trimmed with
    | Some (verb, rest) => (verb, str_trim_start rest)
    | None => (trimmed, [])
    end in
  mkCommand verb rest (split_whitespace rest).

(** ** session.rs: the types *)

Inductive Verb : Type :=
  | User | Pass | Apop | Capa | Stls | Auth | Stat | VList | Uidl | Retr | Top | Dele | Rset | Noop | Utf8 | Quit | Unknown.
Definition verbs : list (bytes * Verb) :=
  [(bs "USER", User); (bs "PASS", Pass); (bs "APOP", Apop); (bs "CAPA", Capa); (bs "STLS", Stls); (bs "AUTH", Auth);
   (bs "STAT", Stat); (bs "LIST", VList); (bs "UIDL", Uidl); (bs "RETR", Retr); (bs "TOP", Top); (bs "DELE", Dele);
   (bs "RSET", Rset); (bs "NOOP", Noop); (bs "UTF8", Utf8); (bs "QUIT", Quit)].
Definition from_word (word : bytes) : Verb :=
  if (length word =? 0)%nat || (4 <? length word)%nat then Unknown
  else default Unknown (snd <$> List.find (λ p, bool_decide (p.1 = to_ascii_uppercase word)) verbs).

Inductive State : Type := Authorization | Transaction.
#[global] Instance State_eq_dec : EqDecision State.
Proof. solve_decision. Defined.

Record MessageEntry : Type := mkMessage {
  me_number : Z; me_size : Z; me_uid : bytes; me_document_id : Z; me_deleted : bool }.
Definition set_deleted (b : bool) (m : MessageEntry) : MessageEntry :=
  mkMessage (me_number m) (me_size m) (me_uid m) (me_document_id m) b.
Definition is_live (m : MessageEntry) : bool := negb (me_deleted m).

(** ** Responses *)

Definition ok_line (text : bytes) : bytes := bs "+OK " ++ text ++ CRLF.
Definition err_line (text : bytes) : bytes := bs "-ERR " ++ text ++ CRLF.
Definition DOT_CRLF : bytes := 46 :: CRLF.
Definition no_such_message : bytes := line "-ERR no such message".

Inductive UserOutcome : Type := UserAccepted | UserEmpty | UserWrongState.
Definition user_response (o : UserOutcome) : bytes :=
  match o with
  | UserAccepted => line "+OK send PASS"
  | UserEmpty => line "-ERR username required"
  | UserWrongState => line "-ERR already in the transaction state"
  end.
Inductive PassOutcome : Type := PassAuthenticated | PassFailed | PassThrottled | PassNeedUser | PassNeedTls | PassWrongState.
Definition pass_response (o : PassOutcome) : bytes :=
  match o with
  | PassAuthenticated => line "+OK mailbox ready"
  | PassFailed => line "-ERR authentication failed"
  | PassThrottled => line "-ERR [AUTH] too many failed authentication attempts"
  | PassNeedUser => line "-ERR send USER first"
  | PassNeedTls => line "-ERR [AUTH] STLS required before PASS"
  | PassWrongState => line "-ERR already in the transaction state"
  end.
Definition capa_response (is_tls : bool) : bytes :=
  line "+OK capabilities follow"
  ++ (if is_tls then line "USER" ++ line "SASL PLAIN LOGIN" else line "STLS")
  ++ line "TOP" ++ line "UIDL" ++ line "RESP-CODES" ++ line "PIPELINING" ++ line "EXPIRE NEVER" ++ line "UTF8"
  ++ line "IMPLEMENTATION IRIXMAIL" ++ DOT_CRLF.
Inductive StlsReply : Type := StlsReady | StlsAlreadySecure | StlsNotAvailable.
Definition stls_line (r : StlsReply) : bytes :=
  match r with
  | StlsReady => line "+OK begin TLS negotiation"
  | StlsAlreadySecure => line "-ERR TLS already active"
  | StlsNotAvailable => line "-ERR TLS not available"
  end.
Definition stls_upgrades (r : StlsReply) : bool := match r with StlsReady => true | _ => false end.
Definition stls_reply (is_tls has_acceptor : bool) : StlsReply :=
  if is_tls then StlsAlreadySecure else if has_acceptor then StlsReady else StlsNotAvailable.
Definition auth_list : bytes := line "+OK" ++ line "PLAIN" ++ line "LOGIN" ++ DOT_CRLF.
Definition noop_response : bytes := line "+OK".
Definition quit_response : bytes := line "+OK IRIXMAIL POP3 signing off".

Definition live (ms : list MessageEntry) : list MessageEntry := filter (λ m, is_live m = true) ms.
Definition total_size (ms : list MessageEntry) : Z := foldr Z.add 0 (me_size <$> ms).
Definition octets (ms : list MessageEntry) : bytes :=
  fmt_dec (Z.of_nat (length ms)) ++ bs " messages (" ++ fmt_dec (total_size ms) ++ bs " octets)".
Definition find_live (ms : list MessageEntry) (number : Z) : option MessageEntry :=
  List.find (λ m, (me_number m =? number) && is_live m) ms.
Definition stat_response (ms : list MessageEntry) : bytes :=
  bs "+OK " ++ fmt_dec (Z.of_nat (length (live ms))) ++ bs " " ++ fmt_dec (total_size (live ms)) ++ CRLF.
Definition listing (field : MessageEntry → bytes) (m : MessageEntry) : bytes :=
  fmt_dec (me_number m) ++ bs " " ++ field m ++ CRLF.
Definition size_field (m : MessageEntry) : bytes := fmt_dec (me_size m).
Definition list_all (ms : list MessageEntry) : bytes :=
  ok_line (octets (live ms)) ++ mjoin (listing size_field <$> live ms) ++ DOT_CRLF.
Definition list_one (ms : list MessageEntry) (number : Z) : bytes :=
  match find_live ms number with Some m => bs "+OK " ++ listing size_field m | None => no_such_message end.
Definition uidl_all (ms : list MessageEntry) : bytes :=
  line "+OK" ++ mjoin (listing me_uid <$> live ms) ++ DOT_CRLF.
Definition uidl_one (ms : list MessageEntry) (number : Z) : bytes :=
  match find_live ms number with Some m => bs "+OK " ++ listing me_uid m | None => no_such_message end.

(** [dele]: the first message of that number. *)
Fixpoint mark (ms : list MessageEntry) (number : Z) : list MessageEntry :=
  match ms with
  | [] => []
  | m :: ms => if me_number m =? number then set_deleted true m :: ms else m :: mark ms number
  end.
Definition dele (ms : list MessageEntry) (number : Z) : bytes * list MessageEntry :=
  match List.find (λ m, me_number m =? number) ms with
  | Some m =>
      if is_live m then (ok_line (bs "message " ++ fmt_dec number ++ bs " deleted"), mark ms number)
      else (err_line (bs "message " ++ fmt_dec number ++ bs " already deleted"), ms)
  | None => (no_such_message, ms)
  end.
Definition rset (ms : list MessageEntry) : bytes * list MessageEntry :=
  let ms := set_deleted false <$> ms in (ok_line (bs "maildrop has " ++ octets ms), ms).

(** ** Bodies *)

(** The loop of [wire_body]. *)
Fixpoint wire_go (at_line_start : bool) (last : Z) (body : bytes) : bytes :=
  match body with
  | [] => []
  | b :: body =>
      (if (b =? LF) && negb (last =? CR) then [CR] else [])
      ++ (if at_line_start && (b =? 46) then [46] else [])
      ++ b :: wire_go (b =? LF) b body
  end.
Definition wire_body (body : bytes) : bytes := wire_go true 0 body.
Definition ends_with_crlf (s : bytes) : bool := bool_decide (is_Some (Text.strip_suffix CRLF s)).
Definition close_body (out : bytes) : bytes := out ++ (if ends_with_crlf out then [] else CRLF) ++ DOT_CRLF.
Definition retr_response (size : Z) (body : bytes) : bytes :=
  bs "+OK " ++ fmt_dec size ++ line " octets" ++ close_body (wire_body body).
(** The loop of [take_lines]: [left] more line ends before it stops. *)
Fixpoint take_lines_go (left : Z) (body : bytes) : bytes :=
  match body with
  | [] => []
  | b :: body =>
      b :: (if b =? LF then if left <=? 1 then [] else take_lines_go (left - 1) body else take_lines_go left body)
  end.
Definition take_lines (body : bytes) (count : Z) : bytes := if count =? 0 then [] else take_lines_go count body.
Definition top_response (headers body : bytes) (lines : Z) : bytes :=
  close_body (line "+OK" ++ wire_body headers ++ wire_body (take_lines body lines)).

(** ** cmd_auth.rs *)

(** The base64 library. *)
Class Base64 : Type := { b64_decode : bytes → option bytes; b64_encode : bytes → bytes }.

Inductive Mechanism : Type := MPlain | MLogin | MUnsupported.
Definition mechanism_parse (name : bytes) : Mechanism :=
  if eq_ignore_ascii_case name (bs "PLAIN") then MPlain
  else if eq_ignore_ascii_case name (bs "LOGIN") then MLogin else MUnsupported.
Record Credentials : Type := mkCredentials { cr_username : bytes; cr_password : bytes }.
Inductive SaslStep : Type := SChallenge (text : bytes) | SResolved (c : Credentials) | SFailed (reason : bytes).
Inductive SaslExchange : Type :=
  | PlainAwaitingResponse | LoginAwaitingUsername | LoginAwaitingPassword (username : bytes).
Inductive SaslStart : Type := SReply (reply : bytes) | SContinue (exchange : SaslExchange) (step : SaslStep).

Definition from_utf8 (s : bytes) : option bytes := if utf8_valid s then Some s else None.
Definition decode_plain (payload : bytes) : option Credentials :=
  '(_authzid, rest) ← split_once 0 payload;
  '(authcid, password) ← split_once 0 rest;
  if bool_decide (0 ∈ password) then None
  else u ← from_utf8 authcid; p ← from_utf8 password; Some (mkCredentials u p).

Section sasl.
Context `{Base64}.
Definition advance (exchange : SaslExchange) (response : bytes) : SaslStep * SaslExchange :=
  match b64_decode (str_trim response) with
  | None => (SFailed (bs "invalid base64 in authentication response"), exchange)
  | Some decoded =>
      match exchange with
      | PlainAwaitingResponse =>
          (match decode_plain decoded with
           | Some c => SResolved c
           | None => SFailed (bs "malformed PLAIN authentication response")
           end, PlainAwaitingResponse)
      | LoginAwaitingUsername =>
          match from_utf8 decoded with
          | Some u => (SChallenge (b64_encode (bs "Password:")), LoginAwaitingPassword u)
          | None => (SFailed (bs "invalid username encoding"), PlainAwaitingResponse)
          end
      | LoginAwaitingPassword u =>
          (match from_utf8 decoded with
           | Some p => SResolved (mkCredentials u p)
           | None => SFailed (bs "invalid password encoding")
           end, PlainAwaitingResponse)
      end
  end.
Definition begin_exchange (exchange : SaslExchange) (challenge : bytes) (initial : option bytes) : SaslStart :=
  match initial with
  | Some response => let '(step, exchange) := advance exchange response in SContinue exchange step
  | None => SContinue exchange (SChallenge challenge)
  end.
(** [SaslExchange::begin]. *)
Definition sasl_begin (mechanism : Mechanism) (is_tls : bool) (initial : option bytes) : SaslStart :=
  if negb is_tls then SReply (line "-ERR [AUTH] STLS required before AUTH")
  else
    match mechanism with
    | MPlain => begin_exchange PlainAwaitingResponse [] initial
    | MLogin => begin_exchange LoginAwaitingUsername (b64_encode (bs "Username:")) initial
    | MUnsupported => SReply (line "-ERR unsupported authentication mechanism")
    end.
End sasl.

(** ** What a client reads *)

(** A client takes lines up to the first CRLF, stops at a lone dot and drops
    one leading dot (RFC 1939, section 3). *)
Fixpoint cut_crlf (s : bytes) : option (bytes * bytes) :=
  match s with
  | [] => None
  | b :: r =>
      if bool_decide (b = CR) && bool_decide (head r = Some LF) then Some ([], drop 1 r)
      else match cut_crlf r with Some (l, t) => Some (b :: l, t) | None => None end
  end.
Fixpoint client_lines (fuel : nat) (s : bytes) : option (list bytes * bytes) :=
  match fuel with
  | O => None
  | S fuel =>
      '(l, rest) ← cut_crlf s;
      if bool_decide (l = [46]) then Some ([], rest)
      else
        '(more, rest) ← client_lines fuel rest;
        Some ((match l with 46 :: l' => l' | _ => l end) :: more, rest)
  end.

(** The lines of a message: ended by LF or CRLF, the last one perhaps by
    neither. *)
Definition chop_cr (l : bytes) : bytes := default l (Text.strip_suffix [CR] l).
Fixpoint text_lines_of (pieces : list bytes) : list bytes :=
  match pieces with
  | [] => []
  | [l] => if bool_decide (l = []) then [] else [l]
  | l :: ls => chop_cr l :: text_lines_of ls
  end.
Definition text_lines (body : bytes) : list bytes :=
  if bool_decide (body = []) then [[]] else text_lines_of (split_byte LF body).

Lemma cut_crlf_line l t : LF ∉ l → cut_crlf (l ++ CRLF ++ t) = Some (l, t).
Proof.
  induction l as [|b l IH]; intros Hl; [done|]. apply not_elem_of_cons in Hl as [Hb Hl].
  cbn [app cut_crlf]. rewrite IH by done. rewrite (bool_decide_false (head _ = _)), andb_false_r; [done|].
  destruct l as [|c l]; simpl; [done|]. intros [= ->]. apply Hl. apply list_elem_of_here.
Qed.
Lemma split_at_sep c l r : c ∉ l → split_byte c (l ++ c :: r) = l :: split_byte c r.
Proof.
  induction l as [|b l IH]; intros Hl; simpl; [by rewrite Z.eqb_refl|]. apply not_elem_of_cons in Hl as [Hb Hl].
  destruct (Z.eqb_spec b c); [congruence|]. by rewrite IH.
Qed.
Lemma split_no_sep c l : c ∉ l → split_byte c l = [l].
Proof.
  induction l as [|b l IH]; intros Hl; simpl; [done|]. apply not_elem_of_cons in Hl as [Hb Hl].
  destruct (Z.eqb_spec b c); [congruence|]. by rewrite IH.
Qed.

(** *** Dot stuffing *)

Definition stuffed (l : bytes) : bytes := match l with 46 :: _ => 46 :: l | _ => l end.
Definition unstuffed (l : bytes) : bytes := match l with 46 :: l' => l' | _ => l end.

Lemma stuffed_eq l : stuffed l = if bool_decide (head l = Some 46) then 46 :: l else l.
Proof. destruct l as [|b l]; [done|]. unfold stuffed. cbn [head]. repeat (case_match; try done). Qed.
Lemma unstuffed_stuffed l : stuffed l ≠ [46] ∧ unstuffed (stuffed l) = l.
Proof.
  rewrite stuffed_eq. case_bool_decide as E; [by destruct l|].
  split; [by intros ->|]. destruct l as [|b l]; [done|]. unfold unstuffed. by repeat (case_match; try done).
Qed.
Lemma stuffed_snoc l c : c ≠ 46 → stuffed (l ++ [c]) = stuffed l ++ [c].
Proof. intros Hc. rewrite !stuffed_eq. destruct l as [|b l]; simpl; [|by case_bool_decide]. rewrite bool_decide_false; [done|congruence]. Qed.
Lemma stuffed_no_lf l : LF ∉ l → LF ∉ stuffed l.
Proof. rewrite stuffed_eq. case_bool_decide; [|done]. intros Hl. apply not_elem_of_cons. by split. Qed.

(** What the loop writes for a line, with and without its end. *)
Lemma wire_go_inside start last l r : LF ∉ l →
  wire_go start last (l ++ LF :: r)
  = (if start then stuffed l else l) ++ (if List.last (last :: l) 0 =? CR then [] else [CR]) ++ LF :: wire_go true LF r.
Proof.
  revert start last. induction l as [|b l IH]; intros start last Hl.
  - simpl. rewrite andb_false_r. destruct start, (last =? CR); done.
  - apply not_elem_of_cons in Hl as [Hb Hl]. cbn [app wire_go]. rewrite IH by done.
    rewrite (proj2 (Z.eqb_neq b LF)) by done. cbn [andb app]. rewrite stuffed_eq.
    change (List.last (last :: b :: l) 0) with (List.last (b :: l) 0).
    destruct start; simpl; [|done]. destruct (Z.eqb_spec b 46) as [->|]; simpl; [done|].
    rewrite bool_decide_false by congruence. done.
Qed.
Lemma wire_go_last start last l : LF ∉ l → wire_go start last l = if start then stuffed l else l.
Proof.
  revert start last. induction l as [|b l IH]; intros start last Hl; [by destruct start|].
  apply not_elem_of_cons in Hl as [Hb Hl]. cbn [wire_go]. rewrite IH by done.
  rewrite (proj2 (Z.eqb_neq b LF)) by done. cbn [andb app]. rewrite stuffed_eq.
  destruct start; simpl; [|done]. destruct (Z.eqb_spec b 46) as [->|]; simpl; [done|].
  by rewrite bool_decide_false by congruence.
Qed.

Lemma chop_cr_snoc l : chop_cr (l ++ [CR]) = l.
Proof. unfold chop_cr. by rewrite (proj2 (strip_suffix_iff _ _ l) eq_refl). Qed.
Lemma chop_cr_other l c : c ≠ CR → chop_cr (l ++ [c]) = l ++ [c].
Proof.
  intros Hc. unfold chop_cr. destruct (Text.strip_suffix _ _) as [t|] eqn:E; [|done].
  apply strip_suffix_iff, app_inj_2 in E as [_ E]; [congruence|done].
Qed.
Lemma chop_cr_no_lf l : LF ∉ l → LF ∉ chop_cr l.
Proof.
  destruct l as [|c l _] using rev_ind; [done|].
  destruct (decide (c = CR)) as [->|Hc]; [|by rewrite chop_cr_other]. rewrite chop_cr_snoc. intros Hl ?. apply Hl, elem_of_app. by left.
Qed.

(** A line and its end are the stuffed line and CRLF. *)
Lemma line_end last l : last ≠ CR →
  stuffed l ++ (if List.last (last :: l) 0 =? CR then [] else [CR]) = stuffed (chop_cr l) ++ [CR].
Proof.
  intros Hlast. destruct l as [|c l _] using rev_ind; [by simpl; rewrite (proj2 (Z.eqb_neq _ _))|].
  change (last :: l ++ [c]) with ((last :: l) ++ [c]). rewrite last_last.
  destruct (Z.eqb_spec c CR) as [->|Hc].
  - rewrite chop_cr_snoc, app_nil_r. by apply stuffed_snoc.
  - by rewrite chop_cr_other.
Qed.

(** A closing CRLF is found in what was written last. *)
Lemma ends_with_crlf_app p w : w ≠ [] → w ≠ [LF] → ends_with_crlf (p ++ w) = ends_with_crlf w.
Proof.
  intros Hw Hlf. unfold ends_with_crlf. apply bool_decide_ext. split.
  - intros [t E%strip_suffix_iff]. destruct w as [|c w _] using rev_ind; [done|].
    change CRLF with ([CR] ++ [LF]) in E. rewrite !app_assoc in E. apply app_inj_2 in E as [E [= ->]]; [|done].
    destruct w as [|d w _] using rev_ind; [done|]. rewrite app_assoc in E. apply app_inj_2 in E as [E [= ->]]; [|done].
    exists w. apply strip_suffix_iff. by rewrite <-app_assoc.
  - intros [t E%strip_suffix_iff]. exists (p ++ t). apply strip_suffix_iff. by rewrite E, app_assoc.
Qed.
Lemma ends_without_lf w : LF ∉ w → ends_with_crlf w = false.
Proof.
  intros Hw. apply bool_decide_eq_false. intros [t ->%strip_suffix_iff]. apply Hw.
  apply elem_of_app. right. by apply list_elem_of_further, list_elem_of_here.
Qed.
Lemma wire_go_head last body : last ≠ CR → body ≠ [] → ∃ b w, wire_go true last body = b :: w ∧ b ≠ LF.
Proof.
  intros Hlast Hb. destruct body as [|b body]; [done|]. simpl.
  destruct (Z.eqb_spec b LF) as [->|]; simpl; [by rewrite (proj2 (Z.eqb_neq _ _) Hlast); eauto|].
  destruct (Z.eqb_spec b 46); simpl; eauto.
Qed.
Lemma close_body_app p last body : last ≠ CR → body ≠ [] →
  close_body (p ++ wire_go true last body) = p ++ close_body (wire_go true last body).
Proof.
  intros Hlast Hb. destruct (wire_go_head last body Hlast Hb) as (b & w & -> & Hne). unfold close_body.
  rewrite ends_with_crlf_app by congruence. by rewrite <-app_assoc.
Qed.

Lemma client_lines_cons fuel l s : LF ∉ l →
  client_lines (S fuel) (stuffed l ++ CRLF ++ s) = (λ '(more, rest), (l :: more, rest)) <$> client_lines fuel s.
Proof.
  intros Hl. destruct (unstuffed_stuffed l) as [Hdot Hun]. cbn [client_lines].
  rewrite cut_crlf_line by (by apply stuffed_no_lf). simpl. rewrite bool_decide_false by done.
  destruct (client_lines fuel s) as [[more rest]|]; simpl; [|done]. unfold unstuffed in Hun. by rewrite Hun.
Qed.
Lemma client_lines_end fuel tail : client_lines (S fuel) (DOT_CRLF ++ tail) = Some ([], tail).
Proof. done. Qed.
Lemma lf_split (s : bytes) : LF ∉ s ∨ ∃ l r, s = l ++ LF :: r ∧ LF ∉ l.
Proof.
  destruct (decide (LF ∈ s)) as [Hin|]; [right|by left].
  apply list_elem_of_split_l in Hin as (l & r & -> & ?). eauto.
Qed.

Lemma client_reads_wire n body last tail : (length body < n)%nat → last ≠ CR → body ≠ [] →
  client_lines (S n) (close_body (wire_go true last body) ++ tail) = Some (text_lines_of (split_byte LF body), tail).
Proof.
  revert body last. induction n as [|n IH]; intros body last Hn Hlast Hbody; [lia|].
  destruct (lf_split body) as [Hno|(l & r & -> & Hl)].
  - rewrite split_no_sep, wire_go_last by done. unfold close_body. rewrite ends_without_lf by (by apply stuffed_no_lf).
    rewrite <-!app_assoc, client_lines_cons, client_lines_end by done. simpl. by rewrite bool_decide_false.
  - rewrite split_at_sep, wire_go_inside by done. cbn [text_lines_of].
    rewrite app_assoc, line_end, <-app_assoc by done. cbn [app].
    change (CR :: LF :: ?w) with (CRLF ++ w). rewrite app_assoc.
    rewrite length_app in Hn. simpl in Hn. destruct (decide (r = [])) as [->|Hr].
    + cbn [wire_go split_byte]. unfold close_body, ends_with_crlf. rewrite app_nil_r.
      rewrite (proj2 (strip_suffix_iff CRLF _ (stuffed (chop_cr l))) eq_refl).
      rewrite bool_decide_true by eauto. rewrite <-!app_assoc.
      rewrite client_lines_cons by (by apply chop_cr_no_lf). done.
    + rewrite close_body_app, <-!app_assoc by done. rewrite client_lines_cons by (by apply chop_cr_no_lf).
      rewrite IH by (done || lia). simpl. destruct (split_byte LF r) eqn:E; [|done].
      destruct r; simpl in E; [done|]. repeat case_match; congruence.
Qed.
Lemma client_reads_body body tail :
  client_lines (length body + 2) (close_body (wire_body body) ++ tail) = Some (text_lines body, tail).
Proof.
  unfold text_lines. case_bool_decide as E; [by subst|].
  replace (length body + 2)%nat with (S (S (length body))) by lia. by apply client_reads_wire; [lia| |].
Qed.

Lemma not_elem_literal (c : Z) (s : bytes) : bool_decide (c ∈ s) = false → c ∉ s.
Proof. apply bool_decide_eq_false_1. Qed.
Lemma fmt_dec_no_lf n : LF ∉ fmt_dec n.
Proof.
  unfold fmt_dec. generalize 20%nat as fuel. intros fuel. revert n. induction fuel as [|fuel IH]; intros n; [apply not_elem_of_nil|].
  simpl. intros [Hin|Hin]%elem_of_app.
  - destruct (n <? 10); [by apply not_elem_of_nil in Hin|by eapply IH].
  - apply list_elem_of_singleton in Hin. pose proof (Z.mod_pos_bound n 10). unfold LF in Hin. lia.
Qed.

(** C28. A client that reads the answer to RETR, one status line and then the
    lines up to the terminating dot with their stuffing undone, gets exactly
    the lines of the stored message, whatever its bytes: lines ended by LF or
    CRLF, lines that start with a dot or are only a dot, bare carriage returns
    and an unterminated last line.  What follows the answer on the connection
    is left unread, so a message can neither end its own answer early nor
    swallow the next one. *)
Theorem retr_roundtrip (size : Z) (body tail : bytes) :
  ∃ status rest,
    cut_crlf (retr_response size body ++ tail) = Some (status, rest)
    ∧ status = bs "+OK " ++ fmt_dec size ++ bs " octets"
    ∧ client_lines (length body + 2) rest = Some (text_lines body, tail).
Proof.
  exists (bs "+OK " ++ fmt_dec size ++ bs " octets"), (close_body (wire_body body) ++ tail).
  split; [|split; [done|apply client_reads_body]].
  unfold retr_response, line. rewrite <-!app_assoc.
  rewrite (app_assoc (fmt_dec size)), (app_assoc (bs "+OK ")). apply cut_crlf_line.
  intros [Hin|[Hin|Hin]%elem_of_app]%elem_of_app; [|by apply fmt_dec_no_lf in Hin|]; revert Hin; apply not_elem_literal; reflexivity.
Qed.
