(* ===== verification/Pop3.v ===== *)
(** * The POP3 session (crates/pop3/src/session.rs)

    One connection: the byte stream, the protocol state and the maildrop, a
    snapshot of the inbox taken at login.  The session works on the store and
    the blobs of the mail side and logs in through the directory, which is
    kept in the same store; the throttle of the directory is shared by all
    connections.  A method is a state-passing function and an error ends the
    session, as a panic does. *)

From S2P Require Import Prelude Bytes Key Store ChangeLog Quota Text Fts Ttl Blobs MailParser Sieve MailModel MailMessage MailStore MailRep MailFile MailCache Directory Login QueueModel QueueStore QueueDeliver SmtpVerdict SmtpCommands SmtpSubmit SmtpSession Pop3Commands.
From stdpp Require Import base gmap list strings.
From Stdlib Require Import ZArith Lia.

Open Scope Z_scope.

Definition GREETING : bytes := line "+OK IRIXMAIL POP3 ready".

Record SessionData : Type := mkSessionData { sd_user : option bytes; sd_is_tls : bool; sd_authenticated : bool }.
Inductive Flow : Type := FlowClose | FlowUpgrade.

(** The servers the session talks to. *)
Record Backend (S B : Type) : Type := mkBackend { be_mail : MailWorld S B; be_throttle : Throttle }.
Arguments mkBackend {S B} _ _.
Arguments be_mail {S B} _.
Arguments be_throttle {S B} _.

Record Session (S B : Type) : Type := mkSession {
  ps_stream : Stream;
  ps_ip : bytes;
  ps_state : State;
  ps_data : SessionData;
  ps_greet : bool;
  ps_directory : bool;
  ps_blobs : bool;
  ps_notifier : bool;
  ps_account : option Directory.Account;
  ps_messages : list MessageEntry;
  ps_backend : Backend S B;
}.
Arguments mkSession {S B} _ _ _ _ _ _ _ _ _ _ _.
Arguments ps_stream {S B} _.
Arguments ps_ip {S B} _.
Arguments ps_state {S B} _.
Arguments ps_data {S B} _.
Arguments ps_greet {S B} _.
Arguments ps_directory {S B} _.
Arguments ps_blobs {S B} _.
Arguments ps_notifier {S B} _.
Arguments ps_account {S B} _.
Arguments ps_messages {S B} _.
Arguments ps_backend {S B} _.

(** [sort_by_key] on the uid, a stable sort. *)
Fixpoint insert_by_uid (e : Z * Z * Z) (l : list (Z * Z * Z)) : list (Z * Z * Z) :=
  match l with
  | [] => [e]
  | x :: l => if e.1.1 <? x.1.1 then e :: x :: l else x :: insert_by_uid e l
  end.
Definition sort_by_uid (l : list (Z * Z * Z)) : list (Z * Z * Z) := foldl (λ acc e, insert_by_uid e acc) [] l.
(** [enumerate] into numbered messages. *)
Definition number_messages (uid_validity : Z) (l : list (Z * Z * Z)) : list MessageEntry :=
  imap (λ i '(uid, document_id, size),
    mkMessage (as_u32 (Z.of_nat i) + 1) size (fmt_dec uid_validity ++ fmt_dec uid) document_id false) l.

Section session.
Context {S B R : Type} `{Store S} `{BlobStore B} `{Bitmap R} `{Unicode} `{MailParser} `{MailCodec}.
Context `{DirectoryJson} `{Argon2} `{Base64}.
Context (policy : ThrottlePolicy) (clk : nat → Z).
Context (values_order : gmap Z MessageCacheEntry → list MessageCacheEntry).
Abbreviation P := (Session S B).
Implicit Types (s : P).

Definition p_stream (x : Stream) s : P :=
  mkSession x (ps_ip s) (ps_state s) (ps_data s) (ps_greet s) (ps_directory s) (ps_blobs s) (ps_notifier s) (ps_account s) (ps_messages s) (ps_backend s).
Definition p_data (x : SessionData) s : P :=
  mkSession (ps_stream s) (ps_ip s) (ps_state s) x (ps_greet s) (ps_directory s) (ps_blobs s) (ps_notifier s) (ps_account s) (ps_messages s) (ps_backend s).
Definition p_messages (x : list MessageEntry) s : P :=
  mkSession (ps_stream s) (ps_ip s) (ps_state s) (ps_data s) (ps_greet s) (ps_directory s) (ps_blobs s) (ps_notifier s) (ps_account s) x (ps_backend s).
Definition p_backend (x : Backend S B) s : P :=
  mkSession (ps_stream s) (ps_ip s) (ps_state s) (ps_data s) (ps_greet s) (ps_directory s) (ps_blobs s) (ps_notifier s) (ps_account s) (ps_messages s) x.
Definition p_account (x : Directory.Account) s : P :=
  mkSession (ps_stream s) (ps_ip s) (ps_state s) (ps_data s) (ps_greet s) (ps_directory s) (ps_blobs s) (ps_notifier s) (Some x) (ps_messages s) (ps_backend s).
(** [state = Transaction; authenticated = true]. *)
Definition p_login s : P :=
  mkSession (ps_stream s) (ps_ip s) Transaction (mkSessionData (sd_user (ps_data s)) (sd_is_tls (ps_data s)) true) (ps_greet s)
    (ps_directory s) (ps_blobs s) (ps_notifier s) (ps_account s) (ps_messages s) (ps_backend s).
Definition p_user (u : bytes) s : P :=
  p_data (mkSessionData (Some u) (sd_is_tls (ps_data s)) (sd_authenticated (ps_data s))) s.

(** [Session::new] with the services the listener attaches. *)
Definition pop3_new (st : Stream) (ip : bytes) (be : Backend S B) : P :=
  mkSession st ip Authorization (mkSessionData None false false) true true true true None [] be.
Definition pop3_with_tls s : P := p_data (mkSessionData (sd_user (ps_data s)) true (sd_authenticated (ps_data s))) s.
Definition without_greeting s : P :=
  mkSession (ps_stream s) (ps_ip s) (ps_state s) (ps_data s) false (ps_directory s) (ps_blobs s) (ps_notifier s) (ps_account s) (ps_messages s) (ps_backend s).

Definition p_on_stream {A} (m : M Stream A) : M P A := λ s, let '(r, x) := m (ps_stream s) in (r, p_stream x s).
Definition p_modify (f : P → P) : M P unit := λ s, (Ok tt, f s).
Definition on_mail {A} (m : M (MailWorld S B) A) : M P A := λ s,
  let '(r, x) := m (be_mail (ps_backend s)) in (r, p_backend (mkBackend x (be_throttle (ps_backend s))) s).

Definition p_write (b : bytes) : M P unit := p_on_stream (write_st b).
Definition p_ok (text : bytes) : M P unit := p_write (ok_line text).
Definition p_err (text : bytes) : M P unit := p_write (err_line text).
(** [read_line] is the one of the SMTP session, letter for letter. *)
Definition p_read_line : M P (bool * bytes) := p_on_stream read_line_st.
Definition respond (b : bytes) : M P (option Flow) := _ ← p_write b; mret None.
Definition refuse (text : bytes) : M P (option Flow) := _ ← p_err text; mret None.

(** *** Logging in *)

Definition resolve_login (username password : bytes) : M P Login.LoginAttempt := λ s,
  if ps_directory s then
    let '(r, t) := Login.attempt_login policy clk (Some (ps_ip s)) username password Login.Mail
                     (mw_store (be_mail (ps_backend s))) (be_throttle (ps_backend s)) in
    (r, p_backend (mkBackend (be_mail (ps_backend s)) t) s)
  else (Ok Login.Denied, s).

(** [message_context]: the account as store keys name it. *)
Definition message_context s : option Z :=
  if ps_directory s then (λ a, as_u32 (Directory.ac_id a)) <$> ps_account s else None.

Definition inbox_entries (c : MessageStoreCache) : list (Z * Z * Z) :=
  omap (λ e, (λ uid, (uid, ce_document_id e, ce_size e)) <$> entry_uid_in INBOX_ID e)
    (filter (λ e, entry_in_mailbox INBOX_ID e = true) (values_order (cache_entries c))).
Definition load_maildrop : M P unit := λ s,
  match message_context s with
  | None => (Ok tt, s)
  | Some account_id =>
      let created_at := default 0 (Directory.ac_created_at <$> ps_account s) in
      let uid_validity := default 0 (mb_uid_validity <$> List.find (λ m, mb_id m =? INBOX_ID) (MailModel.provision_mailboxes created_at)) in
      match cache_build account_id (mw_store (be_mail (ps_backend s))) with
      | Err e => (Err e, s)
      | Ok c => (Ok tt, p_messages (number_messages uid_validity (sort_by_uid (inbox_entries c))) s)
      end
  end.

Definition run_pass (password : bytes) : M P PassOutcome := λ s,
  if negb (bool_decide (ps_state s = Authorization)) then (Ok PassWrongState, s)
  else
    match sd_user (ps_data s) with
    | None => (Ok PassNeedUser, s)
    | Some username =>
        if negb (sd_is_tls (ps_data s)) then (Ok PassNeedTls, s)
        else
          (attempt ← resolve_login username password;
           match attempt with
           | Login.Granted a _ => _ ← p_modify (p_account a); mret PassAuthenticated
           | Login.Denied => mret PassFailed
           | Login.Throttled => mret PassThrottled
           end) s
    end.

(** [read_auth_response]; [None] is a cancelled exchange. *)
Definition p_read_auth_response : M P (option bytes) :=
  '(more, l) ← p_read_line;
  if negb more then throw (Protocol "connection closed during AUTH")
  else
    let response := str_trim (utf8_lossy l) in
    mret (if bool_decide (response = [42]) then None else Some response).

(** The loop of [run_auth]: at most two challenges, so three turns are enough. *)
Fixpoint sasl_loop (fuel : nat) (exchange : SaslExchange) (step : SaslStep) : M P (option Flow) :=
  match fuel with
  | O => throw (Internal "the loop has stopped")
  | Datatypes.S fuel =>
      match step with
      | SChallenge challenge =>
          _ ← p_write (bs "+ " ++ challenge ++ CRLF);
          response ← p_read_auth_response;
          match response with
          | None => refuse (bs "authentication cancelled")
          | Some response => let '(step, exchange) := advance exchange response in sasl_loop fuel exchange step
          end
      | SFailed reason => refuse reason
      | SResolved c =>
          attempt ← resolve_login (cr_username c) (cr_password c);
          match attempt with
          | Login.Granted a _ =>
              _ ← p_modify (λ s, p_login (p_account a s));
              _ ← load_maildrop;
              _ ← p_ok (bs "mailbox ready"); mret None
          | Login.Denied => refuse (bs "authentication failed")
          | Login.Throttled => refuse (bs "[AUTH] too many failed authentication attempts")
          end
      end
  end.
Definition run_auth (command : ParsedCommand) : M P (option Flow) := λ s,
  if negb (bool_decide (ps_state s = Authorization)) then refuse (bs "already in the transaction state") s
  else
    match pc_args command with
    | [] => respond auth_list s
    | name :: more =>
        match sasl_begin (mechanism_parse name) (sd_is_tls (ps_data s)) (head more) with
        | SReply reply => respond reply s
        | SContinue exchange step => sasl_loop 3 exchange step s
        end
    end.

(** *** Messages *)

(** [load_body]: the message and where its header and body are. *)
Definition load_body (document_id : Z) s : result (option (bytes * ByteRange * ByteRange)) :=
  match message_context s with
  | None => Ok None
  | Some account_id =>
      if negb (ps_blobs s) then Ok None
      else
        m ← load_metadata account_id document_id (mw_store (be_mail (ps_backend s)));
        match m with
        | None => Ok None
        | Some m =>
            raw ← blob_get_all (MailModel.blob_hash m) (mw_blobs (be_mail (ps_backend s)));
            Ok (match raw with
                | None => None
                | Some raw =>
                    Some (match head (parts m) with
                          | Some root => (raw, mp_header root, mp_body root)
                          | None => (raw, mkRange 0 0, mkRange 0 (Z.of_nat (length raw)))
                          end)
                end)
        end
  end.
(** A slice out of range is a panic. *)
Definition slice (raw : bytes) (r : ByteRange) : result bytes :=
  ok_or (slice_get raw (rg_start r) (rg_end r)) (Internal "index out of bounds").

Fixpoint delete_each (account_id : Z) (doomed : list Z) : M (MailWorld S B) unit :=
  match doomed with
  | [] => mret tt
  | d :: doomed => _ ← delete_message account_id d; delete_each account_id doomed
  end.
Definition doomed (ms : list MessageEntry) : list Z := me_document_id <$> filter (λ m, me_deleted m = true) ms.
Definition commit_deletions : M P unit := λ s,
  match message_context s with
  | None => (Ok tt, s)
  | Some account_id =>
      if negb (ps_blobs s && ps_notifier s) then (Ok tt, s)
      else (_ ← on_mail (delete_each account_id (doomed (ps_messages s)));
            p_modify (λ s, p_messages (live (ps_messages s)) s)) s
  end.

(** *** Commands *)

(** Commands of the transaction state. *)
Definition in_transaction (m : P → M P (option Flow)) : M P (option Flow) := λ s,
  if bool_decide (ps_state s = Transaction) then m s s else refuse (bs "authenticate first") s.
Definition first_number (command : ParsedCommand) : option Z := arg ← head (pc_args command); parse_u32 arg.
Definition listed (command : ParsedCommand) (one : list MessageEntry → Z → bytes) (all : list MessageEntry → bytes)
    (ms : list MessageEntry) : bytes :=
  match head (pc_args command) with
  | Some arg => match parse_u32 arg with Some n => one ms n | None => line "-ERR invalid message number" end
  | None => all ms
  end.

Definition dispatch_user (command : ParsedCommand) : M P (option Flow) := λ s,
  if negb (bool_decide (ps_state s = Authorization)) then respond (user_response UserWrongState) s
  else if bool_decide (str_trim (pc_rest command) = []) then respond (user_response UserEmpty) s
  else (_ ← p_modify (p_user (pc_rest command)); respond (user_response UserAccepted)) s.
Definition dispatch_pass (command : ParsedCommand) : M P (option Flow) :=
  outcome ← run_pass (pc_rest command);
  _ ← match outcome with
      | PassAuthenticated => _ ← p_modify p_login; load_maildrop
      | _ => mret tt
      end;
  respond (pass_response outcome).
Definition dispatch_stls : M P (option Flow) := λ s,
  if negb (sd_is_tls (ps_data s)) && negb (bool_decide (ps_state s = Authorization)) then refuse (bs "STLS not allowed now") s
  else
    let reply := stls_reply (sd_is_tls (ps_data s)) true in
    (_ ← p_write (stls_line reply); mret (if stls_upgrades reply then Some FlowUpgrade else None)) s.
Definition dispatch_retr (command : ParsedCommand) : M P (option Flow) := in_transaction (λ s,
  match (n ← first_number command; find_live (ps_messages s) n) with
  | None => respond no_such_message
  | Some m =>
      found ← lift (load_body (me_document_id m) s);
      match found with
      | Some (raw, _, _) => respond (retr_response (me_size m) raw)
      | None => respond no_such_message
      end
  end).
Definition dispatch_top (command : ParsedCommand) : M P (option Flow) := in_transaction (λ s,
  match first_number command, (arg ← pc_args command !! 1%nat; parse_u64 arg) with
  | Some number, Some lines =>
      match find_live (ps_messages s) number with
      | None => respond no_such_message
      | Some m =>
          found ← lift (load_body (me_document_id m) s);
          match found with
          | None => respond no_such_message
          | Some (raw, header, body) =>
              h ← lift (slice raw header); b ← lift (slice raw body); respond (top_response h b lines)
          end
      end
  | _, _ => refuse (bs "TOP expects a message number and line count")
  end).
Definition dispatch_dele (command : ParsedCommand) : M P (option Flow) := in_transaction (λ s,
  match first_number command with
  | None => refuse (bs "DELE expects a message number")
  | Some number =>
      let '(reply, ms) := dele (ps_messages s) number in
      _ ← p_modify (p_messages ms); respond reply
  end).
Definition dispatch_rset : M P (option Flow) := in_transaction (λ s,
  let '(reply, ms) := rset (ps_messages s) in
  _ ← p_modify (p_messages ms); respond reply).
Definition dispatch_quit : M P (option Flow) := λ s,
  (_ ← (if bool_decide (ps_state s = Transaction) then commit_deletions else mret tt);
   _ ← p_write quit_response; mret (Some FlowClose)) s.

Definition dispatch (command : ParsedCommand) : M P (option Flow) :=
  match from_word (pc_verb command) with
  | User => dispatch_user command
  | Pass => dispatch_pass command
  | Apop => refuse (bs "APOP is not supported")
  | Capa => λ s, respond (capa_response (sd_is_tls (ps_data s))) s
  | Stls => dispatch_stls
  | Auth => run_auth command
  | Stat => in_transaction (λ s, respond (stat_response (ps_messages s)))
  | VList => in_transaction (λ s, respond (listed command list_one list_all (ps_messages s)))
  | Uidl => in_transaction (λ s, respond (listed command uidl_one uidl_all (ps_messages s)))
  | Retr => dispatch_retr command
  | Pop3Commands.Top => dispatch_top command
  | Dele => dispatch_dele command
  | Rset => dispatch_rset
  | Noop => in_transaction (λ _, respond noop_response)
  | Utf8 => _ ← p_ok (bs "UTF8 enabled"); mret None
  | Quit => dispatch_quit
  | Unknown => refuse (bs "unknown command")
  end.

(** The loop of [run]: every turn reads at least one byte. *)
Fixpoint pop3_loop (fuel : nat) : M P Flow :=
  match fuel with
  | O => throw (Internal "the loop has stopped")
  | Datatypes.S fuel =>
      '(more, l) ← p_read_line;
      if negb more then mret FlowClose
      else
        flow ← dispatch (parse_command l);
        match flow with Some flow => mret flow | None => pop3_loop fuel end
  end.
Definition pop3_run : M P Flow :=
  _ ← ((λ s, if ps_greet s then p_write GREETING s else (Ok tt, s)) : M P unit);
  (λ s, pop3_loop (Datatypes.S (length (input (ps_stream s)))) s) : M P Flow.
End session.
