(* ===== verification/Pop3Safety.v ===== *)
(** * POP3: what a connection can do (crates/pop3/src/session.rs)

    The mail of an account is touched by a connection only when it ends with
    QUIT after a login over TLS with a name and a secret the client sent, and
    then only by the deletion of messages of that account's inbox. *)

From S2P Require Import Prelude Bytes Key Store ChangeLog Quota Text Fts Ttl Blobs MailParser Sieve MailModel MailMessage MailStore MailRep MailFile MailCache Directory Login QueueModel QueueStore QueueDeliver SmtpVerdict SmtpCommands SmtpSubmit SmtpSession SmtpSafety Pop3Commands Pop3.
From stdpp Require Import base gmap list strings.
From Stdlib Require Import ZArith Lia.

Open Scope Z_scope.

(** ** What the client sent *)

(** A line, or a word of one. *)
Definition token (inp r : bytes) : Prop :=
  ∃ l, sent inp l ∧ (r = str_trim (utf8_lossy l) ∨ r ∈ pc_args (parse_command l)).

(** The name and the secret the client gave: USER and PASS, AUTH PLAIN, AUTH LOGIN. *)
Inductive presented `{Base64} (inp : bytes) : bytes → bytes → Prop :=
  | presented_pass lu lp :
      sent inp lu → from_word (pc_verb (parse_command lu)) = User →
      sent inp lp → from_word (pc_verb (parse_command lp)) = Pass →
      presented inp (pc_rest (parse_command lu)) (pc_rest (parse_command lp))
  | presented_plain r payload c :
      token inp r → b64_decode (str_trim r) = Some payload → decode_plain payload = Some c →
      presented inp (cr_username c) (cr_password c)
  | presented_login ru rp u p :
      token inp ru → b64_decode (str_trim ru) = Some u →
      token inp rp → b64_decode (str_trim rp) = Some p → presented inp u p.

Lemma read_line_go_sent e inp buf more l rest :
  read_line_go e inp buf = (Ok (more, l), rest) → ∃ x y, inp = x ++ y ++ rest ∧ l = buf ++ x.
Proof.
  revert buf. induction inp as [|b inp IH]; intros buf; cbn [read_line_go].
  - destruct e; intros [= <- <- <-]. exists [], []. split; [done|by rewrite app_nil_r].
  - destruct (b =? LF); [intros [= <- <- <-]; exists [], [b]; split; [done|by rewrite app_nil_r]|].
    case_match; [done|]. intros (x & y & -> & ->)%IH. exists (b :: x), y. split; [done|by rewrite <-app_assoc].
Qed.
Lemma read_line_sent st : ∃ p, input st = p ++ input (read_line_st st).2 ∧
  ∀ more l, (read_line_st st).1 = Ok (more, l) → sent (input st) l.
Proof.
  unfold read_line_st. destruct (read_line_go _ _ _) as [r rest] eqn:E. simpl.
  assert (∃ p, input st = p ++ rest) as [p Hp].
  { clear -E. revert E. generalize (@nil Z) as buf, (input st) as inp. intros buf inp. revert buf.
    induction inp as [|b inp IH]; intros buf; cbn [read_line_go]; [intros [= _ <-]; by exists []|].
    repeat case_match; [intros [= _ <-]; by exists [b]..|]. intros [p ->]%IH. by exists (b :: p). }
  exists p. split; [done|]. intros more l ->. apply read_line_go_sent in E as (x & y & -> & ->). by exists [], (y ++ rest).
Qed.
Lemma write_keeps_input b st : input (write_st b st).2 = input st.
Proof. unfold write_st. by repeat case_match. Qed.

(** ** The snapshot and its marks *)

Definition unmarked (ms : list MessageEntry) : list MessageEntry := set_deleted false <$> ms.

Lemma unmarked_mark ms n : unmarked (mark ms n) = unmarked ms.
Proof. unfold unmarked. induction ms as [|m ms IH]; simpl; [done|]. case_match; simpl; [done|by f_equal]. Qed.
Lemma unmarked_dele ms n : unmarked (dele ms n).2 = unmarked ms.
Proof. unfold dele. repeat case_match; simpl; [apply unmarked_mark|done|done]. Qed.
Lemma unmarked_rset ms : unmarked (rset ms).2 = unmarked ms.
Proof. unfold unmarked, rset. simpl. rewrite <-list_fmap_compose. done. Qed.
Lemma unmarked_number v l : unmarked (number_messages v l) = number_messages v l.
Proof.
  unfold unmarked, number_messages. rewrite fmap_imap. apply imap_ext. by intros i [[uid d] size] _.
Qed.

Section safety.
Context {S B R : Type} `{Store S} `{BlobStore B} `{Bitmap R} `{Unicode} `{MailParser} `{MailCodec}.
Context `{DirectoryJson} `{Argon2} `{Base64}.
Context (policy : ThrottlePolicy) (clk : nat → Z).
Context (values_order : gmap Z MessageCacheEntry → list MessageCacheEntry).
Abbreviation P := (Session S B).
Implicit Types (s : P) (w : MailWorld S B).

(** The mail of the servers. *)
Definition world s : MailWorld S B := be_mail (ps_backend s).

(** The secret opens the account the name belongs to. *)
Definition opened_by (w : MailWorld S B) (username secret : bytes) (a : Directory.Account) : Prop :=
  login_account username (mw_store w) = Ok (Some a) ∧ is_active a = true ∧
  ∃ creds c, credentials_list (ac_id a) (mw_store w) = Ok creds ∧ c ∈ creds ∧ opens Login.Mail secret c = true.
(** The messages a login to the account is shown. *)
Definition inbox_snapshot (a : Directory.Account) (w : MailWorld S B) : result (list MessageEntry) :=
  c ← cache_build (as_u32 (ac_id a)) (mw_store w);
  Ok (number_messages
    (default 0 (mb_uid_validity <$> List.find (λ m, mb_id m =? INBOX_ID) (MailModel.provision_mailboxes (ac_created_at a))))
    (sort_by_uid (inbox_entries values_order c))).

(** The connection [s0] is logged in to [a]. *)
Definition entitled s0 (a : Directory.Account) : Prop :=
  sd_is_tls (ps_data s0) = true ∧ ps_directory s0 = true ∧
  ∃ username secret, presented (input (ps_stream s0)) username secret ∧ opened_by (world s0) username secret a.

(** How the mail can be found after the connection. *)
Definition final s0 s : Prop :=
  world s = world s0 ∨
  ∃ a ms, entitled s0 a ∧ inbox_snapshot a (world s0) = Ok (unmarked ms) ∧
    world s = (delete_each (R := R) (as_u32 (ac_id a)) (doomed ms) (world s0)).2.

(** While it lasts. *)
Record during s0 s : Prop := {
  du_world : world s = world s0;
  du_tls : sd_is_tls (ps_data s) = sd_is_tls (ps_data s0);
  du_directory : ps_directory s = ps_directory s0;
  du_input : ∃ p, input (ps_stream s0) = p ++ input (ps_stream s);
  du_user u : sd_user (ps_data s) = Some u →
    ∃ l, sent (input (ps_stream s0)) l ∧ from_word (pc_verb (parse_command l)) = User ∧ u = pc_rest (parse_command l);
  du_login : ps_state s = Transaction → ∃ a, ps_account s = Some a ∧ entitled s0 a ∧
    inbox_snapshot a (world s0) = Ok (unmarked (ps_messages s));
}.

Section one.
Context (s0 : P).
Abbreviation inp := (input (ps_stream s0)).

(** What is ensured when a call returns; when it fails the connection ends. *)
Abbreviation ensures := (ends (final s0)).

Lemma ensures_modify (f : P → P) (Q : unit → P → Prop) s : Q tt (f s) → ensures (p_modify f) Q s.
Proof. done. Qed.

(** A change of the stream that leaves a rest of the input. *)
Lemma during_stream s x : during s0 s → (∃ p, input (ps_stream s) = p ++ input x) → during s0 (p_stream x s).
Proof.
  intros [? ? ? [p Hp] ? ?] [q Hq]. split; try done. simpl. exists (p ++ q). by rewrite Hp, Hq, <-app_assoc.
Qed.
Definition same_phase s s' : Prop := during s0 s' ∧ ps_state s' = ps_state s.
Lemma ensures_write b s : during s0 s → ensures (p_write b) (λ _, same_phase s) s.
Proof.
  intros Hs. unfold ends, p_write, p_on_stream. pose proof (write_keeps_input b (ps_stream s)) as E.
  assert (during s0 (p_stream (write_st b (ps_stream s)).2 s)) as Hd by (apply during_stream; [done|by exists []; rewrite E]).
  destruct (write_st b (ps_stream s)) as [[u|e] x]; [by split|]. left. apply Hd.
Qed.
Lemma ensures_read_line s : during s0 s → ensures p_read_line (λ r s', same_phase s s' ∧ sent inp r.2) s.
Proof.
  intros Hs. unfold ends, p_read_line, p_on_stream. destruct (read_line_sent (ps_stream s)) as (p & Hp & Hl).
  assert (during s0 (p_stream (read_line_st (ps_stream s)).2 s)) as Hd by (apply during_stream; eauto).
  destruct (read_line_st (ps_stream s)) as [[[more l]|e] x]; [|left; apply Hd]. split; [by split|]. simpl.
  destruct (du_input _ _ Hs) as [q ->]. apply sent_suffix. by eapply Hl.
Qed.
(** After a command. *)
Definition after (flow : option Flow) s : Prop := match flow with Some FlowClose => final s0 s | _ => during s0 s end.

Lemma ensures_respond b s : during s0 s → ensures (respond b) after s.
Proof. intros Hs. apply ends_bind. eapply ends_mono; [by apply ensures_write|]. by intros _ s' []. Qed.
Lemma ensures_refuse b s : during s0 s → ensures (refuse b) after s.
Proof. apply ensures_respond. Qed.
Lemma ensures_lift {A} (r : result A) (Q : A → P → Prop) s :
  during s0 s → (∀ a, Q a s) → ensures (lift r) Q s.
Proof. intros Hs HQ. unfold ends, lift. destruct r; [done|]. left. apply Hs. Qed.
Lemma during_account a s : during s0 s → ps_state s = Authorization → during s0 (p_account a s).
Proof. intros [] Ha. split; try done. simpl. by rewrite Ha. Qed.

(** *** Logging in *)

Lemma attempt_opens w ip username secret t a by_ t' :
  Login.attempt_login policy clk ip username secret Login.Mail (mw_store w) t = (Ok (Login.Granted a by_), t') → opened_by w username secret a.
Proof. apply attempt_login_granted. Qed.

Lemma ensures_resolve username secret s :
  during s0 s → ensures (resolve_login policy clk username secret)
    (λ attempt s', same_phase s s' ∧
       ∀ a by_, attempt = Login.Granted a by_ → ps_directory s0 = true ∧ opened_by (world s0) username secret a) s.
Proof.
  intros Hs. unfold ends, resolve_login. destruct (ps_directory s) eqn:Ed; [|split; [by split|done]].
  destruct (Login.attempt_login _ _ _ _ _ _ _ _) as [[attempt|e] t] eqn:E.
  - split; [by split; [destruct Hs|]|]. intros a by_ ->. rewrite <-(du_directory _ _ Hs). split; [done|].
    rewrite <-(du_world _ _ Hs). by eapply attempt_opens.
  - left. apply Hs.
Qed.

(** Entering the transaction state. *)
Lemma ensures_enter a s :
  during s0 s → entitled s0 a → ps_account s = Some a → ensures (load_maildrop values_order) (λ _, during s0) (p_login s).
Proof.
  intros Hs Ha Hacc. pose proof Ha as (_ & Hdir & _). unfold ends, load_maildrop, message_context. simpl.
  rewrite (du_directory _ _ Hs), Hdir, Hacc. simpl. change (be_mail (ps_backend s)) with (world s). rewrite (du_world _ _ Hs).
  destruct (cache_build (as_u32 (ac_id a)) (mw_store (world s0))) as [c|e] eqn:Ec; [|left; apply Hs].
  destruct Hs. split; try done. simpl. intros _. exists a. split_and!; [done|done|].
  unfold inbox_snapshot. rewrite Ec. simpl. by rewrite unmarked_number.
Qed.

(** What an exchange knows: the first answer of LOGIN. *)
Definition exchange_ok (e : SaslExchange) : Prop :=
  match e with
  | LoginAwaitingPassword u => ∃ r, token inp r ∧ b64_decode (str_trim r) = Some u
  | _ => True
  end.
Definition step_ok (x : SaslStep) : Prop :=
  match x with SResolved c => presented inp (cr_username c) (cr_password c) | _ => True end.

Lemma from_utf8_some b x : from_utf8 b = Some x → x = b.
Proof. unfold from_utf8. case_match; congruence. Qed.
Lemma advance_ok e r : exchange_ok e → token inp r → step_ok (advance e r).1 ∧ exchange_ok (advance e r).2.
Proof.
  intros He Hr. unfold advance. destruct (b64_decode (str_trim r)) as [payload|] eqn:Eb; [|done].
  destruct e as [| |u]; simpl.
  - split; [|done]. destruct (decode_plain payload) as [c|] eqn:Ec; [|done]. by eapply presented_plain.
  - destruct (from_utf8 payload) as [u|] eqn:Eu; [|done]. apply from_utf8_some in Eu as ->. simpl. eauto.
  - split; [|done]. destruct (from_utf8 payload) as [p|] eqn:Eu; [|done]. apply from_utf8_some in Eu as ->.
    destruct He as (ru & Hru & Eru). by eapply (presented_login inp ru r).
Qed.

Lemma ensures_sasl fuel e x s :
  during s0 s → ps_state s = Authorization → sd_is_tls (ps_data s0) = true → exchange_ok e → step_ok x →
  ensures (sasl_loop policy clk values_order fuel e x) after s.
Proof.
  revert e x s. induction fuel as [|fuel IH]; intros e x s Hs Hst Htls He Hx; [by left; apply Hs|].
  cbn [sasl_loop]. destruct x as [challenge|c|reason]; [| |by apply ensures_refuse].
  - apply ends_bind. eapply ends_mono; [by apply ensures_write|]. intros _ s1 [Hs1 Hst1].
    apply ends_bind. unfold p_read_auth_response. apply ends_bind. eapply ends_mono; [by apply ensures_read_line|].
    intros [more l] s2 [[Hs2 Hst2] Hl]. destruct more; cbn [negb]; [|by left; apply Hs2].
    unfold ends at 1. cbn [mret M_ret]. case_bool_decide; [by apply ensures_refuse|].
    destruct (advance_ok e (str_trim (utf8_lossy l))) as [Hx' He']; [done|by exists l; eauto|].
    destruct (advance e _) as [x' e']. apply IH; try done. congruence.
  - apply ends_bind. eapply ends_mono; [by apply ensures_resolve|].
    intros attempt s1 ([Hs1 Hst1] & Hg). destruct attempt as [a by_| |]; [|by apply ensures_refuse..].
    destruct (Hg a by_ eq_refl) as [Hdir Hop]. apply ends_bind, ensures_modify, ends_bind. eapply ends_mono.
    + apply (ensures_enter a); [|by split_and!; eauto|done]. apply during_account; [done|congruence].
    + intros ? s2 Hs2. apply ends_bind. eapply ends_mono; [by apply ensures_write|]. by intros _ s3 [].
Qed.

(** *** Commands *)

Lemma ensures_auth l s : during s0 s → sent inp l → ensures (run_auth policy clk values_order (parse_command l)) after s.
Proof.
  intros Hs Hl. unfold ends, run_auth. case_bool_decide as Hst; cbn [negb]; [|by apply ensures_refuse].
  destruct (pc_args (parse_command l)) as [|name more] eqn:Ea; [by apply ensures_respond|].
  assert (∀ r, head more = Some r → token inp r) as Htok.
  { intros r Hr. exists l. split; [done|]. right. rewrite Ea. apply list_elem_of_further. destruct more; simplify_eq/=. apply list_elem_of_here. }
  destruct (sd_is_tls (ps_data s)) eqn:Ht; [|by apply ensures_respond]. rewrite (du_tls _ _ Hs) in Ht.
  assert (∀ e c, exchange_ok e → ∃ e' x, begin_exchange e c (head more) = SContinue e' x ∧ exchange_ok e' ∧ step_ok x) as Hb.
  { intros e c He. unfold begin_exchange. destruct (head more) as [r|]; [|by eexists _, _].
    destruct (advance_ok e r He (Htok r eq_refl)). destruct (advance e r) as [x e']. by exists e', x. }
  unfold sasl_begin. cbn [negb]. destruct (mechanism_parse name); [..|by apply ensures_respond].
  - destruct (Hb PlainAwaitingResponse [] I) as (e & x & -> & ? & ?). by apply ensures_sasl.
  - destruct (Hb LoginAwaitingUsername (b64_encode (bs "Username:")) I) as (e & x & -> & ? & ?). by apply ensures_sasl.
Qed.
Lemma ensures_user l s : during s0 s → sent inp l → from_word (pc_verb (parse_command l)) = User →
  ensures (dispatch_user (parse_command l)) after s.
Proof.
  intros Hs Hl Hv. unfold ends, dispatch_user. repeat case_bool_decide; cbn [negb]; try by apply ensures_respond.
  apply ends_bind, ensures_modify, ensures_respond.
  destruct Hs. split; try done. simpl. intros u [= <-]. eauto.
Qed.
Lemma ensures_pass l s : during s0 s → sent inp l → from_word (pc_verb (parse_command l)) = Pass →
  ensures (dispatch_pass policy clk values_order (parse_command l)) after s.
Proof.
  intros Hs Hl Hv. apply ends_bind. unfold ends at 1, run_pass.
  case_bool_decide as Hst; cbn [negb]; [|by apply ends_bind, ensures_respond].
  destruct (sd_user (ps_data s)) as [u|] eqn:Eu; [|by apply ends_bind, ensures_respond].
  destruct (sd_is_tls (ps_data s)) eqn:Ht; cbn [negb]; [|by apply ends_bind, ensures_respond].
  destruct (du_user _ _ Hs u Eu) as (lu & Hlu & Hvu & ->). rewrite (du_tls _ _ Hs) in Ht.
  apply (ends_bind _ _ _ _ s). eapply ends_mono; [by apply ensures_resolve|].
  intros attempt s1 ([Hs1 Hst1] & Hg).
  destruct attempt as [a by_| |]; [|by apply ends_ret, ends_bind, ends_ret, ensures_respond..].
  destruct (Hg a by_ eq_refl) as [Hdir Hop]. apply ends_bind, ensures_modify, ends_ret.
  apply ends_bind, ends_bind, ensures_modify. eapply ends_mono.
  - apply (ensures_enter a); [|split_and!; [done|done|exists (pc_rest (parse_command lu)), (pc_rest (parse_command l)); split; [by apply presented_pass|done]]|done].
    apply during_account; [done|congruence].
  - intros ? s2 Hs2. by apply ensures_respond.
Qed.
Lemma ensures_transaction m s : during s0 s → (ps_state s = Transaction → ensures (m s) after s) → ensures (in_transaction m) after s.
Proof. intros Hs Hm. unfold ends, in_transaction. case_bool_decide; [by apply Hm|by apply ensures_refuse]. Qed.
Lemma during_messages ms s : during s0 s → unmarked ms = unmarked (ps_messages s) → during s0 (p_messages ms s).
Proof. intros [] E. split; try done. simpl. by rewrite E. Qed.
Lemma ensures_mark (x : bytes * list MessageEntry) s : during s0 s → unmarked x.2 = unmarked (ps_messages s) →
  ensures (let '(reply, ms) := x in _ ← p_modify (p_messages ms); respond reply) after s.
Proof.
  intros Hs E. destruct x as [reply ms]. by apply ends_bind, ensures_modify, ensures_respond, during_messages.
Qed.
Lemma ensures_retr l s : during s0 s → ensures (dispatch_retr (parse_command l)) after s.
Proof.
  intros Hs. apply ensures_transaction; [done|]. intros _. case_match; [|by apply ensures_respond].
  apply ends_bind, ensures_lift; [done|]. intros [[[raw h] b]|]; by apply ensures_respond.
Qed.
Lemma ensures_top l s : during s0 s → ensures (dispatch_top (parse_command l)) after s.
Proof.
  intros Hs. apply ensures_transaction; [done|]. intros _. repeat case_match; try (by apply ensures_respond || by apply ensures_refuse).
  apply ends_bind, ensures_lift; [done|]. intros [[[raw h] b]|]; [|by apply ensures_respond].
  do 2 (apply ends_bind, ensures_lift; [done|]; intros ?). by apply ensures_respond.
Qed.
Lemma final_write b s : final s0 s → final s0 (p_write b s).2.
Proof. unfold final, world, p_write, p_on_stream. by destruct (write_st b (ps_stream s)). Qed.
Lemma commit_final s : during s0 s → ps_state s = Transaction → final s0 (commit_deletions (R := R) s).2.
Proof.
  intros Hs Hst. destruct (du_login _ _ Hs Hst) as (a & Ha & Hent & Hsnap). unfold commit_deletions, message_context.
  rewrite Ha. destruct (ps_directory s); simpl; [|left; apply Hs]. destruct (ps_blobs s && ps_notifier s); simpl; [|left; apply Hs].
  right. exists a, (ps_messages s). split_and!; [done|done|]. unfold mbind, M_bind, on_mail.
  change (be_mail (ps_backend s)) with (world s). rewrite (du_world _ _ Hs).
  by destruct (delete_each _ _ _) as [[u|e] w].
Qed.
Lemma ensures_quit s : during s0 s → ensures (dispatch_quit (R := R)) after s.
Proof.
  intros Hs. unfold ends, dispatch_quit, mbind, M_bind.
  assert (final s0 ((if bool_decide (ps_state s = Transaction) then commit_deletions (R := R) else mret tt) s).2) as Hc.
  { case_bool_decide as Hst; [by apply commit_final|]. left. apply Hs. }
  destruct ((if bool_decide (ps_state s = Transaction) then commit_deletions (R := R) else mret tt) s) as [[u|e] s1]; [|done].
  pose proof (final_write quit_response s1 Hc) as Hw. by destruct (p_write quit_response s1) as [[u'|e] s2].
Qed.
Lemma ensures_stls s : during s0 s → ensures dispatch_stls after s.
Proof.
  intros Hs. unfold ends, dispatch_stls. destruct (negb (sd_is_tls (ps_data s)) && _); [by apply ensures_refuse|].
  apply ends_bind. eapply ends_mono; [by apply ensures_write|]. intros ? s' [? _]. by destruct (stls_upgrades _).
Qed.

Lemma ensures_dispatch l s : during s0 s → sent inp l →
  ensures (dispatch (R := R) policy clk values_order (parse_command l)) after s.
Proof.
  intros Hs Hl. unfold dispatch. destruct (from_word (pc_verb (parse_command l))) eqn:Ev;
    try (by apply ensures_refuse || by apply ensures_respond); try (apply ensures_transaction; [done|]; intros _; by apply ensures_respond).
  - by apply ensures_user.
  - by apply ensures_pass.
  - by apply ensures_stls.
  - by apply ensures_auth.
  - by apply ensures_retr.
  - by apply ensures_top.
  - apply ensures_transaction; [done|]. intros _. case_match; [|by apply ensures_refuse].
    apply ensures_mark; [done|apply unmarked_dele].
  - apply ensures_transaction; [done|]. intros _. apply ensures_mark; [done|apply unmarked_rset].
  - by apply ensures_quit.
Qed.
Lemma ensures_loop fuel s : during s0 s → ensures (pop3_loop (R := R) policy clk values_order fuel) (λ _, final s0) s.
Proof.
  revert s. induction fuel as [|fuel IH]; intros s Hs; [by left; apply Hs|]. cbn [pop3_loop].
  apply ends_bind. eapply ends_mono; [by apply ensures_read_line|]. intros [more l] s1 [[Hs1 _] Hl].
  destruct more; cbn [negb]; [|by left; apply Hs1].
  apply ends_bind. eapply ends_mono; [by apply ensures_dispatch|].
  intros [[]|] s2 Hs2; [done|by left; apply Hs2|by apply IH].
Qed.
End one.

(** C12. The mail is out of reach of a connection that has not logged in.
    Whatever the client sends, when the connection is over the stores are as
    they were, or the connection was under TLS, the client sent in it a name
    and a secret, by PASS or AUTH, where the name is that of an active account
    and the secret opens one of its credentials for mail, and what was done is
    the deletion of messages the login showed of this account's inbox. *)
Theorem pop3_session_safe (s s' : P) (r : result Flow) :
  ps_state s = Authorization → sd_user (ps_data s) = None →
  pop3_run (R := R) policy clk values_order s = (r, s') →
  world s' = world s ∨
  ∃ a ms, entitled s a ∧ inbox_snapshot a (world s) = Ok (unmarked ms) ∧
    world s' = (delete_each (R := R) (as_u32 (ac_id a)) (doomed ms) (world s)).2.
Proof.
  intros Hst Hu E. assert (during s s) as Hs.
  { split; try done; [by exists []|by rewrite Hu|by rewrite Hst]. }
  assert (ends (final s) (pop3_run (R := R) policy clk values_order) (λ _, final s) s) as Hf.
  { apply ends_bind. unfold ends at 1. destruct (ps_greet s); [|by apply ensures_loop].
    eapply ends_mono; [by apply ensures_write|]. intros ? s1 [Hs1 _]. by apply ensures_loop. }
  unfold ends in Hf. rewrite E in Hf. by destruct r.
Qed.
End safety.

(** ** The loops stop *)

Section termination.
Context {S B R : Type} `{Store S} `{BlobStore B} `{Bitmap R} `{Unicode} `{MailParser} `{MailCodec}.
Context `{DirectoryJson} `{Argon2} `{Base64}.
Context (policy : ThrottlePolicy) (clk : nat → Z).
Context (values_order : gmap Z MessageCacheEntry → list MessageCacheEntry).
Abbreviation P := (Session S B).
Implicit Types (s : P).

(** No call puts input back. *)
Definition shrinks (s s' : P) : Prop := (length (input (ps_stream s')) ≤ length (input (ps_stream s)))%nat.
#[local] Instance shrinks_preorder : PreOrder shrinks.
Proof. split; [intros s; unfold shrinks; lia|intros s1 s2 s3; unfold shrinks; lia]. Qed.

Lemma shrinks_stream {A} (m : M Stream A) : consumes m → keeps shrinks (p_on_stream m).
Proof. intros Hm s. unfold p_on_stream. specialize (Hm (ps_stream s)). by destruct (m (ps_stream s)). Qed.
Lemma shrinks_write b : keeps shrinks (p_write b).
Proof. apply shrinks_stream, consumes_write. Qed.
Lemma shrinks_read_line : keeps shrinks p_read_line.
Proof. apply shrinks_stream, consumes_read_line. Qed.
Lemma shrinks_modify f : (∀ s, ps_stream (f s) = ps_stream s) → keeps shrinks (p_modify f).
Proof. intros Hf s. unfold p_modify, shrinks. simpl. by rewrite Hf. Qed.
Lemma shrinks_lift {A} (r : result A) : keeps shrinks (lift r).
Proof. intros s. reflexivity. Qed.
Lemma shrinks_respond b : keeps shrinks (respond b).
Proof. apply keeps_bind; [apply _|apply shrinks_write|intros; apply keeps_ret, _]. Qed.
Lemma shrinks_refuse b : keeps shrinks (refuse b).
Proof. apply shrinks_respond. Qed.
Lemma shrinks_resolve u p : keeps shrinks (resolve_login policy clk u p).
Proof. intros s. unfold resolve_login. destruct (ps_directory s); [|reflexivity]. destruct (Login.attempt_login _ _ _ _ _ _ _ _); apply Nat.le_refl. Qed.
Lemma shrinks_maildrop : keeps shrinks (load_maildrop values_order).
Proof. intros s. unfold load_maildrop. repeat case_match; unfold shrinks; simpl; lia. Qed.
Lemma shrinks_mail {A} (m : M (MailWorld S B) A) : keeps shrinks (on_mail m).
Proof. intros s. unfold on_mail. destruct (m _); apply Nat.le_refl. Qed.
(** A choice made on the state. *)
Lemma shrinks_choice {A} (b : P → bool) (m1 m2 : P → M P A) :
  (∀ s, keeps shrinks (m1 s)) → (∀ s, keeps shrinks (m2 s)) → keeps shrinks (λ s, if b s then m1 s s else m2 s s).
Proof. intros H1' H2' s. destruct (b s); [apply H1'|apply H2']. Qed.
#[local] Hint Resolve shrinks_write shrinks_read_line shrinks_lift shrinks_respond shrinks_refuse shrinks_resolve shrinks_maildrop shrinks_mail : hoare.
#[local] Hint Resolve shrinks_preorder : hoare.

Ltac shrink :=
  repeat match goal with
    | |- ∀ _ : _, keeps _ _ => intro
    | |- keeps _ (refuse _) => apply shrinks_refuse
    | |- keeps _ (respond _) => apply shrinks_respond
    | |- keeps _ (lift _) => apply shrinks_lift
    | |- keeps _ (p_write _) => apply shrinks_write
    | |- keeps _ p_read_line => apply shrinks_read_line
    | |- keeps _ (resolve_login _ _ _ _) => apply shrinks_resolve
    | |- keeps _ (load_maildrop _) => apply shrinks_maildrop
    | |- keeps _ (on_mail _) => apply shrinks_mail
    | |- keeps _ (p_modify _) => apply shrinks_modify; done
    | |- keeps _ (throw _) => apply keeps_throw, _
    | |- keeps _ (mret _) => apply keeps_ret, _
    | |- keeps _ (_ ≫= _) => apply keeps_bind; [apply _| |]
    | |- keeps _ (match _ with _ => _ end) => case_match
    end.

(** From the state at hand to the call. *)
Ltac as_call := match goal with |- shrinks ?s (?m ?s).2 => let Hk := fresh in enough (keeps shrinks m) as Hk by exact (Hk s) end.

Lemma shrinks_sasl fuel e x : keeps shrinks (sasl_loop policy clk values_order fuel e x).
Proof.
  revert e x. induction fuel as [|fuel IH]; intros e x; [apply keeps_throw, _|]. cbn [sasl_loop].
  destruct x as [challenge|c|reason]; unfold p_read_auth_response, p_ok; shrink; apply IH.
Qed.
Lemma shrinks_auth c : keeps shrinks (run_auth policy clk values_order c).
Proof. intros s. unfold run_auth. repeat case_match; first [apply shrinks_refuse|apply shrinks_respond|apply shrinks_sasl]. Qed.
Lemma shrinks_transaction m : (∀ s, keeps shrinks (m s)) → keeps shrinks (in_transaction m).
Proof. intros Hm s. unfold in_transaction. case_bool_decide; [apply Hm|apply shrinks_refuse]. Qed.
Lemma shrinks_pass c : keeps shrinks (dispatch_pass policy clk values_order c).
Proof.
  unfold dispatch_pass. apply keeps_bind; [apply _| |shrink].
  intros s. unfold run_pass. destruct (negb _); [reflexivity|]. destruct (sd_user _) as [u|]; [|reflexivity].
  destruct (negb _); [reflexivity|]. as_call. shrink.
Qed.
Lemma shrinks_quit : keeps shrinks (dispatch_quit (R := R)).
Proof.
  intros s. unfold dispatch_quit. as_call. shrink. clear. intros s. unfold commit_deletions. destruct (message_context s) as [a|]; [|reflexivity].
  destruct (negb _); [reflexivity|]. as_call. shrink.
Qed.
Lemma shrinks_dispatch c : keeps shrinks (dispatch (R := R) policy clk values_order c).
Proof.
  unfold dispatch. destruct (from_word (pc_verb c)); try apply shrinks_transaction; intros; cbv beta;
    unfold p_ok; try solve [shrink].
  - intros s. unfold dispatch_user. repeat case_match; apply shrinks_respond || (as_call; shrink).
  - apply shrinks_pass.
  - intros s. apply shrinks_respond.
  - intros s. unfold dispatch_stls. destruct (negb _ && _); [apply shrinks_refuse|]. as_call. shrink.
  - apply shrinks_auth.
  - apply shrinks_quit.
Qed.

(** The turns an exchange has left. *)
Definition turns (e : SaslExchange) (x : SaslStep) : nat :=
  match x with
  | SChallenge _ => match e with LoginAwaitingUsername => 3 | _ => 2 end
  | _ => 1
  end.
Lemma turns_advance e t r : (turns (advance e r).2 (advance e r).1 < turns e (SChallenge t))%nat.
Proof.
  unfold advance. destruct (b64_decode _) as [d|]; [|destruct e; simpl; lia].
  destruct e; simpl; [destruct (decode_plain d)|destruct (from_utf8 d)..]; simpl; lia.
Qed.
Lemma turns_begin mechanism tls initial e x : sasl_begin mechanism tls initial = SContinue e x → (turns e x ≤ 3)%nat.
Proof.
  unfold sasl_begin, begin_exchange. destruct tls; [|done]. cbn [negb].
  destruct mechanism, initial as [r|]; try (intros [= <- <-]; simpl; lia); try done;
    destruct (advance _ r) as [x' e'] eqn:E; intros [= <- <-]; apply (f_equal (λ p, turns p.2 p.1)) in E; simpl in E; rewrite <-E;
    match goal with |- context [advance ?e r] => pose proof (turns_advance e [] r); simpl in *; lia end.
Qed.
Lemma sasl_enough fuel fuel' e x s : (turns e x ≤ fuel)%nat → (turns e x ≤ fuel')%nat →
  sasl_loop policy clk values_order fuel e x s = sasl_loop policy clk values_order fuel' e x s.
Proof.
  revert fuel' e x s. induction fuel as [|fuel IH]; intros fuel' e x s Hf Hf'.
  { destruct x; simpl in Hf; repeat case_match; lia. }
  destruct fuel' as [|fuel']; [destruct x; simpl in Hf'; repeat case_match; lia|].
  cbn [sasl_loop]. destruct x as [t|c|reason]; [|done|done].
  apply bind_ext. intros _ s1 _. apply bind_ext. intros [r|] s2 _; [|done].
  pose proof (turns_advance e t r) as Ht. destruct (advance e r) as [x' e']. cbn [fst snd] in Ht. apply IH; lia.
Qed.

Lemma loop_enough fuel fuel' s : (length (input (ps_stream s)) < fuel)%nat → (length (input (ps_stream s)) < fuel')%nat →
  pop3_loop (R := R) policy clk values_order fuel s = pop3_loop (R := R) policy clk values_order fuel' s.
Proof.
  revert fuel' s. induction fuel as [|fuel IH]; intros fuel' s Hf Hf'; [lia|]. destruct fuel' as [|fuel']; [lia|].
  cbn [pop3_loop]. apply bind_ext. intros [[] l] s1 E; [|done]. cbn [negb]. unfold p_read_line, p_on_stream in E.
  destruct (read_line_st (ps_stream s)) as [r st] eqn:Er. injection E as -> <-. apply read_line_consumes in Er.
  apply bind_ext. intros [flow|] s2 E2; [done|].
  pose proof (shrinks_dispatch (parse_command l) (p_stream st s)) as Hd. rewrite E2 in Hd. unfold shrinks in Hd. simpl in Hd. apply IH; lia.
Qed.

(** A connection is always served to its end: the loop over commands
    takes a byte of the input in every turn and stops by itself, and an
    authentication exchange has at most two challenges.  More fuel than the
    input is long, and more than three turns of an exchange that was begun,
    change nothing. *)
Theorem pop3_serves_to_the_end :
  (∀ s fuel, (length (input (ps_stream s)) < fuel)%nat →
     pop3_loop (R := R) policy clk values_order fuel s
     = pop3_loop (R := R) policy clk values_order (Datatypes.S (length (input (ps_stream s)))) s) ∧
  (∀ mechanism tls initial e x s fuel, sasl_begin mechanism tls initial = SContinue e x → (3 ≤ fuel)%nat →
     sasl_loop policy clk values_order fuel e x s = sasl_loop policy clk values_order 3 e x s).
Proof.
  split; [intros s fuel Hf; apply loop_enough; lia|].
  intros mechanism tls initial e x s fuel Hb Hf. apply turns_begin in Hb. apply sasl_enough; lia.
Qed.
End termination.
