(* ===== verification/Pop3Maildrop.v ===== *)
(** * POP3: the maildrop and the account (crates/pop3/src/session.rs)

    What a login is shown and what QUIT leaves, in terms of the messages of
    the account. *)

From S2P Require Import Prelude Bytes Key Store ChangeLog Quota Text Fts Ttl QueueModel QueueStore QueueDeliver SmtpVerdict SmtpCommands SmtpSubmit SmtpSession Blobs MailParser Sieve MailModel MailMessage MailStore MailRep MailFile MailRemove MailHistory MailCache MailAdmin Directory Login Pop3Commands Pop3 Pop3Safety.
From stdpp Require Import base gmap list sorting strings.
From Stdlib Require Import ZArith Lia.

Open Scope Z_scope.

(** ** Sorting by UID *)

Abbreviation row_uid := (λ e : Z * Z * Z, e.1.1).
Definition uid_lt (x y : Z * Z * Z) : Prop := x.1.1 < y.1.1.
Definition uid_le (x y : Z * Z * Z) : Prop := x.1.1 ≤ y.1.1.

Lemma insert_by_uid_perm e l : insert_by_uid e l ≡ₚ e :: l.
Proof. induction l as [|x l IH]; simpl; [done|]. case_match; [done|]. rewrite IH. apply Permutation_swap. Qed.
Lemma insert_by_uid_sorted e l : StronglySorted uid_le l → StronglySorted uid_le (insert_by_uid e l).
Proof.
  induction 1 as [|x l Hl IH Hx]; simpl; [by repeat constructor|]. destruct (Z.ltb_spec e.1.1 x.1.1) as [Hlt|Hge].
  - constructor; [by constructor|]. constructor; [unfold uid_le; lia|]. eapply Forall_impl; [exact Hx|]. unfold uid_le. lia.
  - constructor; [done|]. rewrite insert_by_uid_perm. by constructor.
Qed.
Lemma sort_by_uid_spec l : sort_by_uid l ≡ₚ l ∧ StronglySorted uid_le (sort_by_uid l).
Proof.
  unfold sort_by_uid. enough (∀ acc, StronglySorted uid_le acc → foldl (λ acc e, insert_by_uid e acc) acc l ≡ₚ acc ++ l ∧
    StronglySorted uid_le (foldl (λ acc e, insert_by_uid e acc) acc l)) as Hgen by (apply (Hgen []); constructor).
  induction l as [|e l IH]; intros acc Hacc; simpl; [by rewrite app_nil_r|].
  destruct (IH (insert_by_uid e acc)) as [Hp Hs]; [by apply insert_by_uid_sorted|]. split; [|done].
  by rewrite Hp, insert_by_uid_perm, <-Permutation_middle.
Qed.
Lemma uid_sorted_strict l : StronglySorted uid_le l → NoDup (row_uid <$> l) → StronglySorted uid_lt l.
Proof.
  induction 1 as [|x l Hl IH Hx]; [constructor|]. rewrite fmap_cons. intros [Hnot Hnd]%NoDup_cons. constructor; [by apply IH|].
  rewrite Forall_forall in *. intros y Hy. specialize (Hx y Hy). unfold uid_le, uid_lt in *.
  enough (x.1.1 ≠ y.1.1) by lia. intros E. apply Hnot. apply list_elem_of_fmap. by exists y.
Qed.

Lemma uid_sorted_nodup l : StronglySorted uid_lt l → NoDup (row_uid <$> l).
Proof.
  induction 1 as [|x l Hl IH Hx]; [constructor|]. rewrite fmap_cons. apply NoDup_cons. split; [|done].
  intros (y & E & Hy)%list_elem_of_fmap. rewrite Forall_forall in Hx. specialize (Hx y Hy). unfold uid_lt in Hx. lia.
Qed.

(** ** Numbers *)

Lemma length_number v l : length (number_messages v l) = length l.
Proof. apply length_imap. Qed.
Lemma number_lookup v l i : number_messages v l !! i =
  (λ '(uid, d, size), mkMessage (as_u32 (Z.of_nat i) + 1) size (fmt_dec v ++ fmt_dec uid) d false) <$> l !! i.
Proof. unfold number_messages. by rewrite list_lookup_imap. Qed.

Section maildrop.
Context {S B R : Type} {store : Store S} {contract : StoreSpec S} `{Bitmap R} {laws : BitmapLaws R}.
Context `{BlobStore B} {blob_contract : BlobSpec B}.
Context `{Unicode} `{MailParser} `{MailCodec} {codec_laws : MailCodecLaws} {digest_inj : Inj (=) (=) digest}.
Context (digest_nonempty : ∀ raw, digest raw ≠ []).
Context `{DirectoryJson} `{Argon2} `{Base64}.
Context (values_order : gmap Z MessageCacheEntry → list MessageCacheEntry).
Context (values_order_perm : ∀ es, values_order es ≡ₚ (map_to_list es).*2).
Abbreviation P := (Session S B).
Implicit Types (s : P) (docs : maildrop) (a : Directory.Account) (others : BlobHash → Z).

(** The account as store keys name it. *)
Abbreviation key_id a := (as_u32 (ac_id a)).

(** The rows of the inbox: the messages filed in it. *)
Definition in_inbox docs (uid d size : Z) : Prop :=
  ∃ x, docs !! d = Some x ∧ mkMailboxUid INBOX_ID uid ∈ mailboxes (st_data x) ∧ size = msg_size (st_data x).

Lemma inbox_rows a others (w : MailWorld S B) docs n :
  account_at (R := R) (key_id a) others w docs →
  NoDup (snd <$> (fst <$> inbox_entries values_order (cache_of (key_id a) docs n))) ∧
  NoDup (row_uid <$> inbox_entries values_order (cache_of (key_id a) docs n)) ∧
  ∀ uid d size, (uid, d, size) ∈ inbox_entries values_order (cache_of (key_id a) docs n) ↔ in_inbox docs uid d size.
Proof.
  intros (_ & _ & Hrep). destruct (cache_values (key_id a) values_order values_order_perm docs n) as [Hnd Hin].
  set (f := λ e, (λ uid, (uid, ce_document_id e, ce_size e)) <$> entry_uid_in INBOX_ID e).
  set (es := values_order (cache_entries (cache_of (key_id a) docs n))) in *.
  assert (∀ uid d size, (uid, d, size) ∈ omap f (filter (λ e, entry_in_mailbox INBOX_ID e = true) es) ↔ in_inbox docs uid d size) as Hrow.
  { intros uid d size. rewrite list_elem_of_omap. split.
    - intros (e & [_ (x & Hx & Ee)%Hin]%list_elem_of_filter & Hf). unfold f in Hf. rewrite Ee in Hf.
      unfold entry_uid_in in Hf. simpl in Hf. destruct (mu_uid <$> _) as [u|] eqn:Eu; [|done]. injection Hf as -> <- <-.
      exists x. split_and!; [done| |done]. apply uid_in_spec; [by eapply rep_places|done].
    - intros (x & Hx & Hm & ->). pose proof (proj2 (uid_in_spec _ _ _ (proj1 (rep_places _ _ _ _ _ Hrep d x Hx))) Hm) as Eu.
      exists (from_data d (st_data x)). split; [|unfold f, entry_uid_in; simpl; by rewrite Eu].
      apply list_elem_of_filter. split; [unfold entry_in_mailbox; simpl; by eapply find_in_mailbox|]. apply Hin. by exists x. }
  assert (NoDup (snd <$> (fst <$> omap f (filter (λ e, entry_in_mailbox INBOX_ID e = true) es)))) as Hdocs.
  { eapply sublist_NoDup; [exact Hnd|]. clear. induction es as [|e es IH]; [constructor|].
    rewrite filter_cons. case_decide; [|by apply sublist_cons]. simpl. unfold f at 1. destruct (entry_uid_in INBOX_ID e); simpl; [|by apply sublist_cons].
    by apply sublist_skip. }
  split_and!; [done| |done].
  unfold inbox_entries. fold es f. rewrite <-list_fmap_compose in Hdocs.
  revert Hdocs Hrow. generalize (omap f (filter (λ e, entry_in_mailbox INBOX_ID e = true) es)). intros l Hd Hrow. apply NoDup_alt. intros i j u. rewrite !list_lookup_fmap.
  destruct (l !! i) as [[[u1 d1] z1]|] eqn:Ei; [|done]. destruct (l !! j) as [[[u2 d2] z2]|] eqn:Ej; [|done]. simpl. intros [= ->] [= ->].
  apply (NoDup_lookup _ i j d1 Hd); rewrite list_lookup_fmap, ?Ei, ?Ej; [done|]. simpl.
  apply list_elem_of_lookup_2, Hrow in Ei as (x1 & H1' & H2' & _). apply list_elem_of_lookup_2, Hrow in Ej as (x2 & H3' & H4' & _).
  f_equal. apply (rep_unique _ _ _ _ _ Hrep _ _ (mkMailboxUid INBOX_ID u)); by eexists.
Qed.

Definition uid_validity_of a : Z :=
  default 0 (mb_uid_validity <$> List.find (λ m, mb_id m =? INBOX_ID) (MailModel.provision_mailboxes (ac_created_at a))).

Lemma snapshot_spec a others (w : MailWorld S B) docs :
  account_at (R := R) (key_id a) others w docs → byte_keys (view (mw_store w)) →
  ∃ rows, inbox_snapshot values_order a w = Ok (number_messages (uid_validity_of a) rows) ∧
    StronglySorted uid_lt rows ∧ NoDup (snd ∘ fst <$> rows) ∧ ∀ uid d size, (uid, d, size) ∈ rows ↔ in_inbox docs uid d size.
Proof.
  intros Hw Hb. destruct (cache_build_spec (key_id a) others w docs Hw Hb) as (n & _ & E).
  destruct (inbox_rows a others w docs n Hw) as (Hd & Hu & Hin). set (rows := inbox_entries values_order _) in *.
  destruct (sort_by_uid_spec rows) as [Hp Hs]. exists (sort_by_uid rows). split_and!.
  - unfold inbox_snapshot. rewrite E. done.
  - apply uid_sorted_strict; [done|]. by rewrite Hp.
  - rewrite Hp. by rewrite list_fmap_compose.
  - intros uid d size. by rewrite Hp.
Qed.

(** Marks do not change what a message is. *)
Lemma unmarked_lookup ms ms' i m : unmarked ms = ms' → ms !! i = Some m → ms' !! i = Some (set_deleted false m).
Proof. intros <- Hi. unfold unmarked. by rewrite list_lookup_fmap, Hi. Qed.

Lemma rows_bound others c bodies docs rows a :
  represents (R := R) (key_id a) others c bodies docs → NoDup (snd ∘ fst <$> rows) →
  (∀ uid d size, (uid, d, size) ∈ rows ↔ in_inbox docs uid d size) → Z.of_nat (length rows) ≤ 2 ^ 32.
Proof.
  intros Hrep Hnd Hin. rewrite <-(length_fmap (snd ∘ fst) rows). apply u32_list_length; [done|].
  apply Forall_fmap, Forall_forall. intros [[u d] z] (x & Hx & _)%Hin. by eapply rep_ids.
Qed.

(** The message of a number. *)
Lemma find_live_number v rows ms i m :
  Z.of_nat (length rows) ≤ 2 ^ 32 → unmarked ms = number_messages v rows → ms !! i = Some m →
  me_number m = Z.of_nat i + 1 ∧ (is_live m = true → find_live ms (me_number m) = Some m).
Proof.
  intros Hlen Hms Hi.
  assert (∀ j m', ms !! j = Some m' → me_number m' = Z.of_nat j + 1) as Hnum.
  { intros j m' Hj. pose proof (unmarked_lookup _ _ _ _ Hms Hj) as E. rewrite number_lookup in E.
    destruct (rows !! j) as [[[u d] z]|] eqn:Er; [|done]. apply lookup_lt_Some in Er. injection E as E.
    rewrite as_u32_id in E by width. by destruct m'; simpl in *. }
  split; [by apply Hnum|]. intros Hlive. unfold find_live. rewrite (Hnum i m Hi). clear Hms.
  revert i Hi Hnum. enough (∀ k i, ms !! i = Some m → (∀ j m', ms !! j = Some m' → me_number m' = Z.of_nat (k + j) + 1) →
    List.find (λ m', (me_number m' =? Z.of_nat (k + i) + 1) && is_live m') ms = Some m) as Hgen.
  { intros i Hi Hnum. by apply (Hgen 0%nat i). }
  induction ms as [|m' ms IH]; intros k i Hi Hnum; [done|]. simpl. rewrite (Hnum 0%nat m' eq_refl).
  destruct i as [|i]; simpl in Hi; [injection Hi as ->; by rewrite Z.eqb_refl, Hlive|].
  rewrite (proj2 (Z.eqb_neq _ _)) by lia. simpl. rewrite <-Nat.add_succ_comm. apply IH; [done|].
  intros j m'' Hj. rewrite (Hnum (Datatypes.S j) m'' Hj). lia.
Qed.

(** The session is logged in to [a] and has its services. *)
Record open_on a s : Prop := {
  oo_state : ps_state s = Transaction;
  oo_account : ps_account s = Some a;
  oo_directory : ps_directory s = true;
  oo_blobs : ps_blobs s = true;
  oo_notifier : ps_notifier s = true;
}.

Lemma load_body_spec a others s docs d x :
  open_on a s → account_at (R := R) (key_id a) others (world s) docs → docs !! d = Some x →
  ∃ h b, load_body d s = Ok (Some (st_raw x, h, b)).
Proof.
  intros [_ Hacc Hdir Hbl _] Hw Hd. pose proof Hw as (_ & Hb & Hrep). pose proof (rep_ids _ _ _ _ _ Hrep d x Hd) as Hu.
  unfold load_body, message_context. rewrite Hdir, Hacc, Hbl. simpl.
  change (be_mail (ps_backend s)) with (world s). rewrite (load_metadata_spec (R := R) _ others _ docs d Hw Hu), Hd. simpl.
  destruct (rep_bodies _ _ _ _ _ Hrep d x Hd) as (E & t & Ht). rewrite E, blob_get_all_spec, Ht by done. simpl.
  destruct (head (parts (st_metadata x))); eauto.
Qed.

Lemma uids_distinct others c bodies docs rows a :
  represents (R := R) (key_id a) others c bodies docs → StronglySorted uid_lt rows →
  (∀ uid d size, (uid, d, size) ∈ rows ↔ in_inbox docs uid d size) →
  NoDup (me_uid <$> number_messages (uid_validity_of a) rows).
Proof.
  intros Hrep Hs Hin. assert (∀ r, r ∈ rows → 0 ≤ row_uid r < 10 ^ 20) as Hr.
  { intros [[u d] z] (x & Hx & Hm & _)%Hin. destruct (rep_uids _ _ _ _ _ Hrep INBOX_ID) as (n & Hn & _ & Hu); [unfold INBOX_ID; width|done|].
    apply counter_value_range in Hn. specialize (Hu d u). simpl. assert (1 ≤ u ≤ n) by (apply Hu; by exists x).
    unfold is_i64, I64_MAX in *. lia. }
  clear Hin. apply NoDup_alt. intros i j b. rewrite !list_lookup_fmap, !number_lookup.
  destruct (rows !! i) as [[[u1 d1] z1]|] eqn:Ei; [|done]. destruct (rows !! j) as [[[u2 d2] z2]|] eqn:Ej; [|done].
  simpl. intros [= <-] [= E%app_inv_head].
  pose proof (Hr _ (list_elem_of_lookup_2 _ _ _ Ei)) as H1'. pose proof (Hr _ (list_elem_of_lookup_2 _ _ _ Ej)) as H2'. simpl in *.
  apply (f_equal (parse_uint (10 ^ 20))) in E. rewrite !parse_fmt_dec in E by lia. injection E as ->.
  apply (NoDup_lookup _ i j u1 (uid_sorted_nodup _ Hs)); rewrite list_lookup_fmap, ?Ei, ?Ej; done.
Qed.

(** C22. A login shows the inbox and RETR returns what was filed.  In a store
    that holds the messages [docs] of the account, the maildrop is the
    messages filed in the inbox, each once, in the order of their UIDs, with
    numbers from one without gaps and unique-ids that are distinct; and in
    every later state of the maildrop, RETR of the number of a message that is
    not marked answers with the bytes of that message as they were stored. *)
Theorem pop3_serves_inbox a others (w : MailWorld S B) docs :
  account_at (R := R) (key_id a) others w docs → byte_keys (view (mw_store w)) →
  ∃ rows ms, ms = number_messages (uid_validity_of a) rows ∧ inbox_snapshot values_order a w = Ok ms ∧
    StronglySorted uid_lt rows ∧ (∀ uid d size, (uid, d, size) ∈ rows ↔ in_inbox docs uid d size) ∧
    NoDup (me_document_id <$> ms) ∧ NoDup (me_uid <$> ms) ∧
    (∀ i m, ms !! i = Some m → me_number m = Z.of_nat i + 1) ∧
    ∀ s command i m, open_on a s → world s = w → unmarked (ps_messages s) = ms →
      ps_messages s !! i = Some m → is_live m = true → first_number command = Some (me_number m) →
      ∃ x, docs !! me_document_id m = Some x ∧ in_mailbox INBOX_ID (st_data x) = true ∧
        dispatch_retr command s = respond (retr_response (msg_size (st_data x)) (st_raw x)) s.
Proof.
  intros Hw Hb. destruct (snapshot_spec a others w docs Hw Hb) as (rows & E & Hs & Hnd & Hin). pose proof Hw as (_ & _ & Hrep).
  pose proof (rows_bound _ _ _ _ _ _ Hrep Hnd Hin) as Hlen.
  exists rows, (number_messages (uid_validity_of a) rows). split_and!; [done..| |by eapply uids_distinct| |].
  - replace (me_document_id <$> _) with (snd ∘ fst <$> rows); [done|]. apply list_eq. intros i.
    rewrite !list_lookup_fmap, number_lookup. by destruct (rows !! i) as [[[u d] z]|].
  - intros i m Hi. by eapply find_live_number; [|apply unmarked_number|].
  - intros s command i m Ho <- Hms Hi Hl Hn. destruct (find_live_number _ rows _ i m Hlen Hms Hi) as [_ Hf]. specialize (Hf Hl).
    pose proof (unmarked_lookup _ _ _ _ Hms Hi) as Em. rewrite number_lookup in Em.
    destruct (rows !! i) as [[[u d] z]|] eqn:Er; [|done]. apply list_elem_of_lookup_2, Hin in Er as (x & Hx & Hm & ->).
    injection Em as _ E2 _ E4. rewrite <-E4. exists x. split_and!; [done| |].
    + unfold in_mailbox. apply existsb_exists. exists (mkMailboxUid INBOX_ID u). split; [by apply list_elem_of_In|done].
    + destruct (load_body_spec a others s docs d x Ho Hw Hx) as (h & b & El). unfold dispatch_retr, in_transaction.
      rewrite bool_decide_true by apply Ho. rewrite Hn. cbn [mbind option_bind]. rewrite Hf, <-E4, <-E2. unfold mbind, M_bind, lift. by rewrite El.
Qed.

(** *** QUIT *)

(** The change ids the deletion of a message takes, at most. *)
Definition ids_for docs (d : Z) : nat := match docs !! d with Some x => length (mailboxes (st_data x)) + 1 | None => 0 end.
Definition without (ds : list Z) docs : maildrop := filter (λ kv, kv.1 ∉ ds) docs.

Lemma lookup_without ds docs d : without ds docs !! d = if decide (d ∈ ds) then None else docs !! d.
Proof.
  unfold without. destruct (decide (d ∈ ds)) as [Hd|Hd].
  - apply map_lookup_filter_None. right. simpl. by intros x _ [].
  - destruct (docs !! d) as [x|] eqn:E; [by apply map_lookup_filter_Some|]. apply map_lookup_filter_None. by left.
Qed.
Lemma without_cons d ds docs : without (d :: ds) docs = without ds (base.delete d docs).
Proof.
  apply map_eq. intros d'. rewrite !lookup_without. destruct (decide (d' = d)) as [->|Hne].
  - rewrite decide_True by apply list_elem_of_here. rewrite lookup_delete_eq. by case_decide.
  - rewrite lookup_delete_ne by done. destruct (decide (d' ∈ ds)) as [Hin|Hin].
    + by rewrite decide_True by (by apply list_elem_of_further).
    + by rewrite decide_False by (rewrite elem_of_cons; tauto).
Qed.

Lemma delete_each_spec id others (w : MailWorld S B) docs ds n :
  is_u32 id → account_at (R := R) id others w docs → (∀ h, 0 ≤ others h) → NoDup ds → Forall is_u32 ds →
  counter_at (view (mw_store w)) id Email n → n + Z.of_nat (list_sum (ids_for docs <$> ds)) < I64_MAX →
  ∃ w', delete_each (R := R) id ds w = (Ok tt, w') ∧ account_at (R := R) id others w' (without ds docs).
Proof.
  intros Hid. revert w docs n. induction ds as [|d ds IH]; intros w docs n Hw Ho Hnd Hu Hn Hmax.
  { exists w. split; [done|]. replace (without [] docs) with docs; [done|]. apply map_eq. intros d.
    by rewrite lookup_without, decide_False by apply not_elem_of_nil. }
  apply NoDup_cons in Hnd as [Hnot Hnd]. apply Forall_cons in Hu as [Hd Hu]. rewrite fmap_cons in Hmax. cbn [list_sum foldr] in Hmax.
  destruct (delete_message_spec digest_nonempty id Hid others w docs d Hw Hd) as (w1 & E & Hw1 & _ & Hids & _).
  { intros x Hx. eapply removable_from; try done. intros n' Hn'. unfold counter_at in *. rewrite Hn in Hn'. injection Hn' as <-.
    unfold ids_for in Hmax at 1. rewrite Hx in Hmax. lia. }
  destruct (Hids n Hn) as (n1 & Hn1 & Hle). fold (ids_for docs d) in Hle.
  assert (ids_for (base.delete d docs) <$> ds = ids_for docs <$> ds) as Eids.
  { apply list_fmap_ext. intros i d' Hi. unfold ids_for. rewrite lookup_delete_ne; [done|]. intros <-. apply Hnot. by eapply list_elem_of_lookup_2. }
  destruct (IH w1 (base.delete d docs) n1) as (w' & E' & Hw'); try done; [rewrite Eids; unfold list_sum; lia|].
  exists w'. rewrite without_cons. split; [|done]. cbn [delete_each]. unfold mbind, M_bind. by rewrite E.
Qed.

Lemma doomed_sublist ms : doomed ms `sublist_of` (me_document_id <$> ms).
Proof. apply fmap_sublist, sublist_filter. Qed.
Lemma unmarked_documents ms : me_document_id <$> unmarked ms = me_document_id <$> ms.
Proof. unfold unmarked. by rewrite <-list_fmap_compose. Qed.

(** C21. QUIT deletes the marked messages and nothing else.  In a logged-in
    session over a maildrop taken from the account's messages, QUIT succeeds
    and the account then holds the messages it had, less those that were
    marked; a marked message goes from every mailbox it was filed in. *)
Theorem pop3_quit_refines a others s docs n :
  open_on a s → account_at (R := R) (key_id a) others (world s) docs → byte_keys (view (mw_store (world s))) →
  inbox_snapshot values_order a (world s) = Ok (unmarked (ps_messages s)) → (∀ h, 0 ≤ others h) →
  counter_at (view (mw_store (world s))) (key_id a) Email n →
  n + Z.of_nat (list_sum (ids_for docs <$> doomed (ps_messages s))) < I64_MAX →
  ∃ s', dispatch_quit (R := R) s = (_ ← p_write quit_response; mret (Some FlowClose)) s' ∧
    account_at (R := R) (key_id a) others (world s') (without (doomed (ps_messages s)) docs) ∧
    ps_messages s' = live (ps_messages s).
Proof.
  intros Ho Hw Hb Hsnap Hoth Hn Hmax. destruct (snapshot_spec a others _ docs Hw Hb) as (rows & E & _ & Hnd & Hin).
  rewrite E in Hsnap. injection Hsnap as Hms. pose proof Hw as (_ & _ & Hrep).
  assert (me_document_id <$> ps_messages s = snd ∘ fst <$> rows) as Hids.
  { rewrite <-unmarked_documents, <-Hms. apply list_eq. intros i.
    rewrite !list_lookup_fmap, number_lookup. by destruct (rows !! i) as [[[u d] z]|]. }
  destruct (delete_each_spec (key_id a) others (world s) docs (doomed (ps_messages s)) n) as (w' & Ed & Hw'); try done; [apply as_u32_range| | |].
  { eapply sublist_NoDup; [|apply doomed_sublist]. by rewrite Hids. }
  { apply Forall_forall. intros d Hd. eapply elem_of_sublist in Hd; [|apply doomed_sublist]. rewrite Hids in Hd.
    apply list_elem_of_fmap in Hd as ([[u d'] z] & -> & (x & Hx & _)%Hin). by eapply rep_ids. }
  exists (p_messages (live (ps_messages s)) (p_backend (mkBackend w' (be_throttle (ps_backend s))) s)). split_and!; [|done|done].
  unfold dispatch_quit. rewrite bool_decide_true by apply Ho. unfold mbind at 1, M_bind at 1.
  unfold commit_deletions, message_context. rewrite (oo_directory _ _ Ho), (oo_account _ _ Ho), (oo_blobs _ _ Ho), (oo_notifier _ _ Ho). simpl.
  unfold mbind at 1, M_bind at 1, on_mail. change (be_mail (ps_backend s)) with (world s). by rewrite Ed.
Qed.
End maildrop.

(** ** The theorems at work

    Connections to a server in memory with one account and one message. *)

From S2P Require Import MailDemo DirectoryHistory DirectoryDemo.
Open Scope Z_scope.
Import SetBitmap Demo DirectoryInstances.

(** Text as it is, where the library would decode it. *)
#[global] Instance plain_base64 : Base64 := {| b64_decode s := Some s; b64_encode s := s |}.

Definition first {A X} (m : M X A) (x : X) : X := (m x).2.
(** The account of the directory, with a password, and a message for it. *)
Definition served_store : MemStore := first (set_primary_password 7 1 (36 :: bs "secret")) (dir_run empty_store some_events).
Definition served : demo_world :=
  first (exec (R := gset Z) 7 (EvDeliver (demo_request hello 0) 100)) (mkWorld served_store (mkBlobs ∅) []).

Abbreviation pop3_demo := (Pop3.Session MemStore MemBlobs).
Abbreviation pop3_run_demo := (pop3_run (R := gset Z) (S := MemStore) (B := MemBlobs) default_policy Z.of_nat demo_order).
Definition dialogue : bytes :=
  line "USER bob@example.org" ++ line "PASS secret" ++ line "DELE 1" ++ line "QUIT".
Definition caller : pop3_demo :=
  pop3_with_tls (pop3_new (mkStream dialogue None [] []) (bs "192.0.2.1") (mkBackend served (mkThrottle ∅ 0))).

Definition finished : result Pop3.Flow * pop3_demo := pop3_run_demo caller.
Lemma finished_run : pop3_run_demo caller = (finished.1, finished.2).
Proof. unfold finished. apply surjective_pairing. Qed.
Lemma finished_log :
  finished.1 = Ok FlowClose ∧
  output (ps_stream finished.2)
  = GREETING ++ line "+OK send PASS" ++ line "+OK mailbox ready" ++ line "+OK message 1 deleted" ++ quit_response.
Proof. split; vm_compute; reflexivity. Qed.
Lemma finished_mail : load_raw 7 1 served = Ok (Some hello) ∧ load_raw 7 1 (world finished.2) = Ok None.
Proof. split; vm_compute; reflexivity. Qed.

(** The client logs in, marks the message and quits, and it is gone. *)
Lemma pop3_session_safe_witness :
  load_raw 7 1 served = Ok (Some hello) ∧ load_raw 7 1 (world finished.2) = Ok None ∧
  ∃ a ms, entitled caller a ∧ inbox_snapshot demo_order a served = Ok (unmarked ms).
Proof.
  destruct finished_mail as [Hbefore Hafter]. split; [exact Hbefore|]. split; [exact Hafter|].
  destruct (pop3_session_safe (R := gset Z) default_policy Z.of_nat demo_order caller finished.2 finished.1 eq_refl eq_refl
    finished_run) as [Hw|(a & ms & Ha & Hms & _)]; [|exact (ex_intro _ a (ex_intro _ ms (conj Ha Hms)))].
  exfalso. rewrite Hw in Hafter. vm_compute in Hafter. discriminate Hafter.
Defined.

(** A session that is logged in to the account of the mail demonstration. *)
Definition at_inbox (w : demo_world) (ms : list MessageEntry) : pop3_demo :=
  mkSession (mkStream [] None [] []) [] Transaction (mkSessionData None true true) true true true true (Some bob) ms
    (mkBackend w (mkThrottle ∅ 0)).
Lemma at_inbox_open w ms : open_on bob (at_inbox w ms).
Proof. by split. Qed.
Lemma bob_at_one : ∃ x, account_at (R := gset Z) (as_u32 (ac_id bob)) no_others demo_one {[ 1 := x ]} ∧ st_raw x = hello ∧
  mailboxes (st_data x) = [mkMailboxUid 1 1].
Proof.
  destruct demo_one_at as (x & Hw & Hraw). exists x. split; [exact Hw|]. split; [exact Hraw|].
  pose proof (load_data_spec (R := gset Z) 7 no_others demo_one {[ 1 := x ]} 1 Hw ltac:(width)) as Ex.
  rewrite lookup_singleton_eq in Ex. destruct x as [data meta raw]. vm_compute in Ex. injection Ex as <-. reflexivity.
Qed.
Lemma demo_byte_keys : byte_keys (view (mw_store demo_one)).
Proof. apply byte_keys_by_check. by vm_compute. Qed.

Lemma pop3_serves_inbox_witness :
  ∃ ms, inbox_snapshot demo_order bob demo_one = Ok ms ∧ NoDup (me_uid <$> ms) ∧
    ∃ size, dispatch_retr (parse_command (bs "RETR 1")) (at_inbox demo_one ms) = respond (retr_response size hello) (at_inbox demo_one ms).
Proof.
  destruct bob_at_one as (x & Hw & Hraw & Hm).
  destruct (pop3_serves_inbox (R := gset Z) demo_order (λ _, reflexivity _) bob no_others demo_one _ Hw demo_byte_keys)
    as (rows & ms & Ems & E & _ & Hrows & _ & Huid & Hnum & Hretr).
  exists ms. split; [exact E|]. split; [exact Huid|].
  assert (∃ m, ms !! 0%nat = Some m ∧ me_number m = 1 ∧ is_live m = true) as (m & Hm0 & Hm1 & Hm2).
  { assert ((1, 1, msg_size (st_data x)) ∈ rows) as Hin.
    { apply Hrows. exists x. rewrite lookup_singleton_eq, Hm. split_and!; [reflexivity|apply list_elem_of_here|reflexivity]. }
    destruct rows as [|[[u d] z] rows]; [exfalso; exact (not_elem_of_nil _ Hin)|]. rewrite Ems. eexists. split; [reflexivity|]. split; reflexivity. }
  destruct (Hretr (at_inbox demo_one ms) (parse_command (bs "RETR 1")) 0%nat m (at_inbox_open _ _) eq_refl) as (y & Hy & _ & ->).
  - simpl. rewrite Ems. apply unmarked_number.
  - exact Hm0.
  - exact Hm2.
  - rewrite Hm1. by vm_compute.
  - apply lookup_singleton_Some in Hy as [_ <-]. rewrite Hraw. eexists. reflexivity.
Defined.

Definition marked_one : list MessageEntry := [mkMessage 1 11 (bs "17040672001") 1 true].
Lemma pop3_quit_refines_witness :
  ∃ s', dispatch_quit (R := gset Z) (at_inbox demo_one marked_one) = (_ ← p_write quit_response; mret (Some FlowClose)) s' ∧
    account_at (R := gset Z) 7 no_others (world s') ∅ ∧ ps_messages s' = [].
Proof.
  destruct bob_at_one as (x & Hw & Hraw & Hm).
  destruct (pop3_quit_refines (R := gset Z) demo_digest demo_order (λ _, reflexivity _) bob no_others (at_inbox demo_one marked_one) {[ 1 := x ]} 2
    (at_inbox_open _ _) Hw demo_byte_keys) as (s' & E & Hacc & Hlive).
  - by vm_compute.
  - exact demo_nonneg.
  - by vm_compute.
  - simpl. unfold ids_for. rewrite lookup_singleton_eq, Hm. by vm_compute.
  - exists s'. split; [exact E|]. split; [|exact Hlive].
    assert (without (doomed marked_one) {[ 1 := x ]} = ∅) as Ed.
    { apply map_eq. intros d. rewrite lookup_without, lookup_empty. case_decide as Hd; [reflexivity|].
      apply lookup_singleton_None. intros <-. apply Hd, list_elem_of_here. }
    rewrite <-Ed. exact Hacc.
Defined.
