(* ===== verification/ManageSieve.v ===== *)
(** * The ManageSieve session (crates/managesieve)

    A client manages the scripts of its account: parser.rs splits a line into
    tokens, sasl.rs reads the answers of an authentication, session.rs serves
    the connection.  The session logs in through the directory and works on
    the registry of scripts, which are kept in the same store.  A method is a
    state-passing function and an error ends the session. *)

From S2P Require Import Prelude Bytes Key Store Text Fts Ttl Sieve SieveLexer SieveGrammar Directory Login FilterRules SieveRegistry SmtpVerdict SmtpCommands SmtpSubmit SmtpSession Pop3Commands.
From stdpp Require Import base gmap list strings.
From Stdlib Require Import ZArith Lia.

Open Scope Z_scope.

(** ** parser.rs *)

Inductive Token : Type := Atom (value : bytes) | Str (value : bytes) | Literal (length : Z).
Definition as_str (t : Token) : option bytes := match t with Atom v | Str v => Some v | Literal _ => None end.
Inductive ParseError : Type := UnterminatedQuoted | BadLiteral | LiteralNotLast.
Definition parse_error_text (e : ParseError) : bytes :=
  match e with
  | UnterminatedQuoted => bs "unterminated quoted string"
  | BadLiteral => bs "malformed literal"
  | LiteralNotLast => bs "a literal must end the line"
  end.

Definition is_gap (b : Z) : bool := (b =? 32) || (b =? 9).
(** The inside of a quoted string: its value and the rest of the line. *)
Fixpoint quoted_value (s value : bytes) : option (bytes * bytes) :=
  match s with
  | [] => None
  | b :: s =>
      if b =? 34 then Some (value, s)
      else if b =? 92 then match s with [] => None | e :: s => quoted_value s (value ++ [e]) end
      else quoted_value s (value ++ [b])
  end.
(** The literal that ends a line, at its brace. *)
Definition literal_length (s : bytes) : ParseError + Z :=
  match find_byte 125 s with
  | None => inl BadLiteral
  | Some close =>
      let digits := drop 1 (take close s) in
      let digits := default digits (Text.strip_suffix [43] digits) in
      if bool_decide (digits = []) || negb (forallb is_digit digits) then inl BadLiteral
      else
        match parse_u64 digits with
        | None => inl BadLiteral
        | Some n => if existsb (λ b, negb (is_gap b)) (drop (S close) s) then inl LiteralNotLast else inr n
        end
  end.
(** An atom and the rest of the line. *)
Fixpoint atom_end (s : bytes) : bytes * bytes :=
  match s with
  | [] => ([], [])
  | b :: s' => if is_gap b then ([], s) else let '(w, r) := atom_end s' in (b :: w, r)
  end.
(** The loop of [tokenize_line]; every turn takes a byte. *)
Fixpoint tokenize (fuel : nat) (s : bytes) : ParseError + list Token :=
  match fuel, s with
  | S fuel, b :: s' =>
      let more t r := match tokenize fuel r with inl e => inl e | inr ts => inr (t :: ts) end in
      if is_gap b then tokenize fuel s'
      else if b =? 34 then
        match quoted_value s' [] with
        | None => inl UnterminatedQuoted
        | Some (value, r) => more (Str (utf8_lossy value)) r
        end
      else if b =? 123 then match literal_length s with inl e => inl e | inr n => inr [Literal n] end
      else let '(w, r) := atom_end s in more (Atom (utf8_lossy w)) r
  | _, _ => inr []
  end.
Definition tokenize_line (line : bytes) : ParseError + list Token := tokenize (length line) line.

(** ** sasl.rs *)

Inductive Mechanism : Type := Plain | LoginMech | Unsupported.
Definition mechanism_parse (name : bytes) : Mechanism :=
  if eq_ignore_ascii_case name (bs "PLAIN") then Plain
  else if eq_ignore_ascii_case name (bs "LOGIN") then LoginMech else Unsupported.

Section sasl.
Context `{Base64}.
Definition decode_base64 (input : bytes) : option bytes := b ← b64_decode (str_trim input); from_utf8 b.
Definition decode_plain (input : bytes) : option (bytes * bytes) :=
  decoded ← decode_base64 input;
  '(_, rest) ← split_once 0 decoded;
  '(authcid, password) ← split_once 0 rest;
  if bool_decide (authcid = []) || bool_decide (0 ∈ password) then None else Some (authcid, password).
End sasl.

(** ** session.rs *)

Definition MS_MAX_LINE : nat := Z.to_nat 8192.
Definition MAX_SCRIPT_SIZE : Z := 128 * 1024.
Definition MAX_SCRIPTS : nat := 32.

Inductive Flow : Type := Close | Upgrade.
Inductive State : Type := NotAuthenticated | Authenticated.
#[global] Instance State_eq_dec : EqDecision State.
Proof. solve_decision. Defined.

(** The fields, without those that are only logged; [ms_store] holds the
    directory and the scripts, [ms_ids] has the ids the generator is going to
    hand out. *)
Record Session (S : Type) : Type := mkSession {
  ms_stream : Stream;
  ms_ip : bytes;
  ms_state : State;
  ms_is_tls : bool;
  ms_directory : bool;
  ms_account : option Directory.Account;
  ms_store : S;
  ms_throttle : Throttle;
  ms_ids : list Z;
}.
Arguments mkSession {S} _ _ _ _ _ _ _ _ _.
Arguments ms_stream {S} _.
Arguments ms_ip {S} _.
Arguments ms_state {S} _.
Arguments ms_is_tls {S} _.
Arguments ms_directory {S} _.
Arguments ms_account {S} _.
Arguments ms_store {S} _.
Arguments ms_throttle {S} _.
Arguments ms_ids {S} _.

(** [read_line]: a line of more than 8192 bytes is an error. *)
Fixpoint ms_read_go (end_ : option Error) (inp buf : bytes) : result (bool * bytes) * bytes :=
  match inp with
  | [] => (match end_ with None => Ok (negb (length buf =? 0)%nat, buf) | Some e => Err e end, [])
  | b :: inp =>
      if b =? LF then (Ok (true, buf), inp)
      else if (MS_MAX_LINE <? length (buf ++ [b]))%nat then (Err (Protocol "line too long"), inp)
      else ms_read_go end_ inp (buf ++ [b])
  end.
Definition ms_read_line_st : M Stream (bool * bytes) := λ st,
  let '(r, rest) := ms_read_go (at_end st) (input st) [] in (r, set_input rest st).
(** [read_exact] of a literal; the reason of a failed read is left out of the
    message. *)
Definition read_literal_st (count : Z) : M Stream bytes := λ st,
  if Z.of_nat (length (input st)) <? count then (Err (Protocol "literal read failed"), set_input [] st)
  else (Ok (take (Z.to_nat count) (input st)), set_input (drop (Z.to_nat count) (input st)) st).

Definition strip_cr (line : bytes) : bytes := default line (Text.strip_suffix [CR] line).
(** [quoted]. *)
Definition quoted_char (ch : bytes) : bytes :=
  match ch with
  | [b] => if (b =? 34) || (b =? 92) then [92; b] else if (b =? CR) || (b =? LF) then [32] else [b]
  | _ => ch
  end.
Definition quoted (text : bytes) : bytes := [34] ++ (chars text ≫= quoted_char) ++ [34].
Definition response_line (status : bytes) (code : option bytes) (text : bytes) : bytes :=
  match code with
  | Some code => status ++ bs " (" ++ code ++ bs ") " ++ quoted text ++ CRLF
  | None => status ++ bs " " ++ quoted text ++ CRLF
  end.

(** [send_capabilities]. *)
Definition quoting_line (words : list bytes) : bytes := Sieve.join [32] ((λ w, [34] ++ w ++ [34]) <$> words) ++ CRLF.
Definition capability_lines (is_tls : bool) : bytes :=
  quoting_line [bs "IMPLEMENTATION"; bs "IRIXMAIL"]
  ++ quoting_line [bs "SIEVE"; Sieve.join [32] CAPABILITIES]
  ++ quoting_line [bs "SASL"; if is_tls then bs "PLAIN LOGIN" else []]
  ++ (if is_tls then [] else quoting_line [bs "STARTTLS"])
  ++ quoting_line [bs "MAXREDIRECTS"; bs "4"]
  ++ quoting_line [bs "VERSION"; bs "1.0"].

(** Compiling a script the client sent: the error's text.  The compiler does
    not panic ([compile_tokens_structured]). *)
Definition check_script (content : bytes) : option bytes :=
  match compile default_compiler_limits content with
  | inr _ => None
  | inl (Rejected e) => Some (compile_error_text e)
  | inl Panicked => Some []
  end.

Definition needs_auth (verb : bytes) : bool :=
  bool_decide (verb ∈ [bs "HAVESPACE"; bs "PUTSCRIPT"; bs "LISTSCRIPTS"; bs "SETACTIVE"; bs "GETSCRIPT";
                       bs "DELETESCRIPT"; bs "RENAMESCRIPT"; bs "CHECKSCRIPT"]).

Section session.
Context {S : Type} `{Store S} `{JsonValue} `{!JsonWriter} `{DirectoryJson} `{Argon2} `{Base64}.
Context (policy : ThrottlePolicy) (clk : nat → Z).
Abbreviation P := (Session S).
Implicit Types (s : P).

Definition with_stream (x : Stream) s : P :=
  mkSession x (ms_ip s) (ms_state s) (ms_is_tls s) (ms_directory s) (ms_account s) (ms_store s) (ms_throttle s) (ms_ids s).
Definition with_login (st : State) (a : option Directory.Account) s : P :=
  mkSession (ms_stream s) (ms_ip s) st (ms_is_tls s) (ms_directory s) a (ms_store s) (ms_throttle s) (ms_ids s).
Definition with_store (x : S) s : P :=
  mkSession (ms_stream s) (ms_ip s) (ms_state s) (ms_is_tls s) (ms_directory s) (ms_account s) x (ms_throttle s) (ms_ids s).
Definition with_throttle (x : Throttle) s : P :=
  mkSession (ms_stream s) (ms_ip s) (ms_state s) (ms_is_tls s) (ms_directory s) (ms_account s) (ms_store s) x (ms_ids s).
Definition with_ids (x : list Z) s : P :=
  mkSession (ms_stream s) (ms_ip s) (ms_state s) (ms_is_tls s) (ms_directory s) (ms_account s) (ms_store s) (ms_throttle s) x.

(** [Session::new] and the services the listener attaches. *)
Definition ms_new (st : Stream) (ip : bytes) (is_tls : bool) (x : S) (t : Throttle) (ids : list Z) : P :=
  mkSession st ip NotAuthenticated is_tls true None x t ids.

Definition ms_on_stream {A} (m : M Stream A) : M P A := λ s, let '(r, x) := m (ms_stream s) in (r, with_stream x s).
Definition ms_modify (f : P → P) : M P unit := λ s, (Ok tt, f s).
Definition ms_write (b : bytes) : M P unit := ms_on_stream (write_st b).
Definition ms_read_line : M P (bool * bytes) := ms_on_stream ms_read_line_st.
Definition respond (status : string) (code : option string) (text : bytes) : M P unit :=
  ms_write (response_line (bs status) (bs <$> code) text).

(** [registry]: the operations on scripts. *)
Definition in_registry {A} (m : M S A) : M P A := λ s,
  if ms_directory s then let '(r, x) := m (ms_store s) in (r, with_store x s)
  else (Err (Internal "the session has no directory"), s).
Definition account_id s : Z := default 0 (Directory.ac_id <$> ms_account s).
Definition scripts : M P (list StoredScript) := λ s, in_registry (reads (sieve_list (account_id s))) s.
Definition by_name (name : bytes) : M P (option StoredScript) := λ s,
  in_registry (reads (get_by_name (account_id s) name)) s.
(** [IdGenerator::generate] never runs out; the list stands for as many ids as
    are asked for. *)
Definition fresh_id : M P Z := λ s,
  match ms_ids s with
  | id :: more => (Ok id, with_ids more s)
  | [] => (Err (Internal "no id was given"), s)
  end.

(** *** Logging in *)

Definition write_challenge (challenge : bytes) : M P unit := ms_write (quoted challenge ++ CRLF).
Definition read_auth_response : M P (option bytes) :=
  '(more, l) ← ms_read_line;
  if negb more then mret None
  else
    let l := strip_cr l in
    if bool_decide (l = [42]) then mret None
    else
      mret (match tokenize_line l with
            | inl _ => None
            | inr ts =>
                match head ts ≫= as_str with
                | Some v => if bool_decide (v = [42]) then None else Some v
                | None => None
                end
            end).
Definition attempt (user password : bytes) : M P unit := λ s,
  if ms_directory s then
    let '(r, t) := Login.attempt_login policy clk (Some (ms_ip s)) user password Login.Mail (ms_store s) (ms_throttle s) in
    (outcome ← lift r;
     match outcome with
     | Login.Granted a _ => _ ← ms_modify (with_login Authenticated (Some a)); respond "OK" None (bs "Authenticated")
     | Login.Denied => respond "NO" None (bs "authentication failed")
     | Login.Throttled => respond "NO" (Some "TRYLATER") (bs "too many attempts, try again later")
     end) (with_throttle t s)
  else respond "NO" None (bs "authentication failed") s.
Definition arg (tokens : list Token) (i : nat) : option bytes := tokens !! i ≫= as_str.
Definition cancelled : M P unit := respond "NO" None (bs "authentication cancelled").
Definition run_plain (tokens : list Token) : M P unit :=
  response ← match arg tokens 2 with
             | Some initial => mret (Some initial)
             | None => _ ← write_challenge []; read_auth_response
             end;
  match response with
  | None => cancelled
  | Some response =>
      match decode_plain response with
      | Some (user, password) => attempt user password
      | None => respond "NO" None (bs "invalid SASL response")
      end
  end.
Definition run_login : M P unit :=
  _ ← write_challenge (b64_encode (bs "Username:"));
  user ← read_auth_response;
  match user with
  | None => cancelled
  | Some user =>
      _ ← write_challenge (b64_encode (bs "Password:"));
      password ← read_auth_response;
      match password with
      | None => cancelled
      | Some password =>
          match decode_base64 user, decode_base64 password with
          | Some user, Some password => attempt user password
          | _, _ => respond "NO" None (bs "invalid SASL response")
          end
      end
  end.
Definition run_authenticate (tokens : list Token) : M P unit := λ s,
  if negb (ms_is_tls s) then respond "NO" (Some "ENCRYPT-NEEDED") (bs "AUTHENTICATE requires TLS") s
  else if bool_decide (ms_state s = Authenticated) then respond "NO" None (bs "Already authenticated") s
  else
    match arg tokens 1 with
    | None => respond "NO" None (bs "AUTHENTICATE requires a mechanism") s
    | Some name =>
        match mechanism_parse name with
        | Unsupported => respond "NO" None (bs "unsupported mechanism") s
        | Plain => run_plain tokens s
        | LoginMech => run_login s
        end
    end.

(** *** Scripts *)

Definition nonexistent : M P unit := respond "NO" (Some "NONEXISTENT") (bs "no script by that name").
Definition run_havespace (tokens : list Token) : M P unit :=
  match arg tokens 1, arg tokens 2 ≫= parse_u64 with
  | Some name, Some size =>
      if MAX_SCRIPT_SIZE <? size then respond "NO" (Some "QUOTA/MAXSIZE") (bs "script is too large")
      else
        l ← scripts;
        if negb (existsb (named name) l) && (MAX_SCRIPTS <=? length l)%nat
        then respond "NO" (Some "QUOTA") (bs "too many scripts")
        else respond "OK" None (bs "Havespace completed")
  | _, _ => respond "NO" None (bs "HAVESPACE requires a name and a size")
  end.
(** The rules of a script stay when the client puts back what it got. *)
Definition rules_change (existing : StoredScript) (content : bytes) : option (option Value) :=
  if bool_decide (is_Some (ss_rules existing)) && bool_decide (script_source existing = content) then None else Some None.
Definition run_putscript (tokens : list Token) : M P unit := λ s,
  match arg tokens 1, arg tokens 2 with
  | Some name, Some content =>
      if bool_decide (name = []) then respond "NO" None (bs "a script needs a name") s
      else
        match check_script content with
        | Some error => respond "NO" None error s
        | None =>
            let account := account_id s in
            (existing ← by_name name;
             match existing with
             | Some existing =>
                 _ ← in_registry (sieve_update account (ss_id existing) None (Some content) (rules_change existing content));
                 respond "OK" None (bs "Putscript completed")
             | None =>
                 l ← scripts;
                 if (MAX_SCRIPTS <=? length l)%nat then respond "NO" (Some "QUOTA") (bs "too many scripts")
                 else
                   id ← fresh_id;
                   _ ← in_registry (sieve_create account id name content None);
                   respond "OK" None (bs "Putscript completed")
             end) s
        end
  | _, _ => respond "NO" None (bs "PUTSCRIPT requires a name and a script") s
  end.
Definition listing (l : list StoredScript) : bytes :=
  l ≫= λ x, quoted (ss_name x) ++ (if ss_active x then bs " ACTIVE" else []) ++ CRLF.
Definition run_listscripts : M P unit :=
  l ← scripts; _ ← ms_write (listing l); respond "OK" None (bs "Listscripts completed").
Definition run_setactive (tokens : list Token) : M P unit := λ s,
  match arg tokens 1 with
  | None => respond "NO" None (bs "SETACTIVE requires a name") s
  | Some name =>
      let account := account_id s in
      (if bool_decide (name = []) then
         _ ← in_registry (sieve_set_active account None); respond "OK" None (bs "Setactive completed")
       else
         script ← by_name name;
         match script with
         | None => nonexistent
         | Some x => _ ← in_registry (sieve_set_active account (Some (ss_id x))); respond "OK" None (bs "Setactive completed")
         end) s
  end.
Definition script_reply (source : bytes) : bytes :=
  bs "{" ++ fmt_dec (Z.of_nat (length source)) ++ bs "}" ++ CRLF ++ source ++ CRLF.
Definition run_getscript (tokens : list Token) : M P unit :=
  match arg tokens 1 with
  | None => respond "NO" None (bs "GETSCRIPT requires a name")
  | Some name =>
      script ← by_name name;
      match script with
      | None => nonexistent
      | Some x => _ ← ms_write (script_reply (script_source x)); respond "OK" None (bs "Getscript completed")
      end
  end.
Definition run_deletescript (tokens : list Token) : M P unit := λ s,
  match arg tokens 1 with
  | None => respond "NO" None (bs "DELETESCRIPT requires a name") s
  | Some name =>
      let account := account_id s in
      (script ← by_name name;
       match script with
       | None => nonexistent
       | Some x =>
           if ss_active x then respond "NO" (Some "ACTIVE") (bs "you may not delete the active script")
           else _ ← in_registry (sieve_destroy account (ss_id x)); respond "OK" None (bs "Deletescript completed")
       end) s
  end.
Definition run_renamescript (tokens : list Token) : M P unit := λ s,
  match arg tokens 1, arg tokens 2 with
  | Some from, Some to =>
      let account := account_id s in
      (script ← by_name from;
       match script with
       | None => nonexistent
       | Some x =>
           taken ← by_name to;
           match taken with
           | Some _ => respond "NO" (Some "ALREADYEXISTS") (bs "a script by that name exists")
           | None =>
               _ ← in_registry (sieve_update account (ss_id x) (Some to) None None);
               respond "OK" None (bs "Renamescript completed")
           end
       end) s
  | _, _ => respond "NO" None (bs "RENAMESCRIPT requires two names") s
  end.
Definition run_checkscript (tokens : list Token) : M P unit :=
  match arg tokens 1 with
  | None => respond "NO" None (bs "CHECKSCRIPT requires a script")
  | Some content =>
      match check_script content with
      | None => respond "OK" None (bs "Checkscript completed")
      | Some error => respond "NO" None error
      end
  end.

(** *** Commands *)

Definition then_none (m : M P unit) : M P (option Flow) := _ ← m; mret None.
Definition verb_of (tokens : list Token) : bytes := to_ascii_uppercase (default [] (arg tokens 0)).
Definition run_noop (tokens : list Token) : M P unit :=
  match arg tokens 1 with
  | Some tag => ms_write (response_line (bs "OK") (Some (bs "TAG " ++ quoted tag)) (bs "Done"))
  | None => respond "OK" None (bs "NOOP completed")
  end.
Definition run_unauthenticate : M P unit := λ s,
  if bool_decide (ms_state s = Authenticated) then
    (_ ← ms_modify (with_login NotAuthenticated None); respond "OK" None (bs "Unauthenticate completed")) s
  else respond "NO" None (bs "Not authenticated") s.
Definition run_capability : M P unit := λ s,
  (_ ← ms_write (capability_lines (ms_is_tls s)); respond "OK" None (bs "Capability completed")) s.
Definition run_starttls : M P (option Flow) := λ s,
  if ms_is_tls s then then_none (respond "NO" None (bs "TLS already active")) s
  else (_ ← respond "OK" None (bs "Begin TLS negotiation now"); mret (Some Upgrade)) s.

Definition dispatch (tokens : list Token) : M P (option Flow) := λ s,
  let verb := verb_of tokens in
  if needs_auth verb && negb (bool_decide (ms_state s = Authenticated))
  then then_none (respond "NO" None (bs "Authenticate first")) s
  else if bool_decide (verb = bs "CAPABILITY") then then_none run_capability s
  else if bool_decide (verb = bs "STARTTLS") then run_starttls s
  else if bool_decide (verb = bs "AUTHENTICATE") then then_none (run_authenticate tokens) s
  else if bool_decide (verb = bs "LOGOUT") then (_ ← respond "OK" None (bs "Bye"); mret (Some Close)) s
  else if bool_decide (verb = bs "NOOP") then then_none (run_noop tokens) s
  else if bool_decide (verb = bs "UNAUTHENTICATE") then then_none run_unauthenticate s
  else if bool_decide (verb = bs "HAVESPACE") then then_none (run_havespace tokens) s
  else if bool_decide (verb = bs "PUTSCRIPT") then then_none (run_putscript tokens) s
  else if bool_decide (verb = bs "LISTSCRIPTS") then then_none run_listscripts s
  else if bool_decide (verb = bs "SETACTIVE") then then_none (run_setactive tokens) s
  else if bool_decide (verb = bs "GETSCRIPT") then then_none (run_getscript tokens) s
  else if bool_decide (verb = bs "DELETESCRIPT") then then_none (run_deletescript tokens) s
  else if bool_decide (verb = bs "RENAMESCRIPT") then then_none (run_renamescript tokens) s
  else if bool_decide (verb = bs "CHECKSCRIPT") then then_none (run_checkscript tokens) s
  else then_none (respond "NO" None (bs "unknown command")) s.

(** [resolve_literals]; every turn reads a line, so the input bounds them. *)
Fixpoint resolve_literals (fuel : nat) (tokens : list Token) : M P (option (list Token)) :=
  match fuel with
  | O => throw (Internal "the loop has stopped")
  | Datatypes.S fuel =>
      match last tokens with
      | Some (Literal length) =>
          if MAX_SCRIPT_SIZE <? length then
            _ ← respond "BYE" None (bs "literal too large"); throw (Protocol "oversized ManageSieve literal")
          else
            content ← ms_on_stream (read_literal_st length);
            '(more, rest) ← ms_read_line;
            if negb more then mret None
            else
              match tokenize_line (strip_cr rest) with
              | inl error => _ ← respond "NO" None (parse_error_text error); mret None
              | inr continuation =>
                  match from_utf8 content with
                  | None => _ ← respond "NO" None (bs "script is not valid utf-8"); mret None
                  | Some content =>
                      resolve_literals fuel (take (List.length tokens - 1) tokens ++ [Str content] ++ continuation)
                  end
              end
      | _ => mret (Some tokens)
      end
  end.

(** The loop of [run]: every turn reads at least a byte. *)
Definition resolve (tokens : list Token) : M P (option (list Token)) := λ s,
  resolve_literals (Datatypes.S (length (input (ms_stream s)))) tokens s.
Fixpoint ms_loop (fuel : nat) : M P Flow :=
  match fuel with
  | O => throw (Internal "the loop has stopped")
  | Datatypes.S fuel =>
      '(more, l) ← ms_read_line;
      if negb more then mret Close
      else
        match tokenize_line (strip_cr l) with
        | inl error => _ ← respond "NO" None (parse_error_text error); ms_loop fuel
        | inr tokens =>
            tokens ← resolve tokens;
            match tokens with
            | None | Some [] => ms_loop fuel
            | Some tokens =>
                flow ← dispatch tokens;
                match flow with Some flow => mret flow | None => ms_loop fuel end
            end
        end
  end.
Definition ms_run : M P Flow :=
  _ ← ((λ s, ms_write (capability_lines (ms_is_tls s)) s) : M P unit);
  _ ← respond "OK" None (bs "IRIXMAIL ManageSieve ready");
  (λ s, ms_loop (Datatypes.S (length (input (ms_stream s)))) s) : M P Flow.
End session.
