(* ===== verification/ManageSieveSafe.v ===== *)
(** * ManageSieve: what a connection can do (crates/managesieve/src/session.rs)

    Over a whole connection the store changes only by changes of scripts, each
    one a client may ask for, each in an account that was logged in to over
    TLS with a name and a secret the client sent. *)

From S2P Require Import Prelude Bytes Key Store Text Fts Ttl Sieve SieveLexer SieveGrammar Directory Login FilterRules SieveRegistry SmtpVerdict SmtpCommands SmtpSubmit SmtpSession Pop3Commands ManageSieve.
From stdpp Require Import base gmap list strings.
From Stdlib Require Import ZArith Lia.

Open Scope Z_scope.

(** ** What the client sent *)

(** A word or string of a line, or a literal. *)
Definition ms_token (inp r : bytes) : Prop :=
  (∃ l ts t, sent inp l ∧ tokenize_line (strip_cr l) = inr ts ∧ t ∈ ts ∧ as_str t = Some r) ∨ sent inp r.
Definition ms_tokens (inp : bytes) (ts : list Token) : Prop := ∀ t r, t ∈ ts → as_str t = Some r → ms_token inp r.
(** The name and the secret the client gave. *)
Inductive ms_presented `{Base64} (inp : bytes) : bytes → bytes → Prop :=
  | ms_presented_plain r user secret :
      ms_token inp r → decode_plain r = Some (user, secret) → ms_presented inp user secret
  | ms_presented_login ru rp user secret :
      ms_token inp ru → decode_base64 ru = Some user → ms_token inp rp → decode_base64 rp = Some secret →
      ms_presented inp user secret.

Lemma ms_token_suffix p inp r : ms_token inp r → ms_token (p ++ inp) r.
Proof. intros [(l & ts & t & Hl & Ht)|Hr]; [left; exists l, ts, t|right]; by auto using sent_suffix. Qed.
Lemma ms_arg inp ts i r : ms_tokens inp ts → arg ts i = Some r → ms_token inp r.
Proof.
  intros Hts. unfold arg. destruct (ts !! i) as [t|] eqn:E; [|done]. cbn. intros Hr. eapply Hts; [|exact Hr].
  by eapply list_elem_of_lookup_2.
Qed.

(** Reading takes a piece off the front. *)
Lemma ms_read_go_sent e inp buf r rest :
  ms_read_go e inp buf = (r, rest) →
  ∃ x y, inp = x ++ y ++ rest ∧ ∀ more l, r = Ok (more, l) → l = buf ++ x.
Proof.
  revert buf. induction inp as [|b inp IH]; intros buf; cbn [ms_read_go].
  - intros [= <- <-]. exists [], []. split; [done|]. intros more l Hr. rewrite app_nil_r. destruct e; congruence.
  - destruct (b =? LF). { intros [= <- <-]. exists [], [b]. split; [done|]. intros more l [= _ <-]. by rewrite app_nil_r. }
    destruct (_ <? _)%nat. { intros [= <- <-]. by exists [], [b]. }
    intros (x & y & -> & Hl)%IH. exists (b :: x), y. split; [done|]. intros more l E. rewrite (Hl more l E). by rewrite <-app_assoc.
Qed.
Lemma ms_read_line_sent st :
  (∃ p, input st = p ++ input (ms_read_line_st st).2) ∧ ∀ more l, (ms_read_line_st st).1 = Ok (more, l) → sent (input st) l.
Proof.
  unfold ms_read_line_st. destruct (ms_read_go _ _ _) as [r rest] eqn:E. apply ms_read_go_sent in E as (x & y & E & Hl). simpl.
  split; [exists (x ++ y); by rewrite E, <-app_assoc|]. intros more l ->. rewrite (Hl more l eq_refl). by exists [], (y ++ rest).
Qed.
Lemma ms_read_literal_sent n st :
  (∃ p, input st = p ++ input (read_literal_st n st).2) ∧ ∀ l, (read_literal_st n st).1 = Ok l → sent (input st) l.
Proof.
  unfold read_literal_st. case_match; simpl.
  - split; [|done]. exists (input st). by rewrite app_nil_r.
  - split; [exists (take (Z.to_nat n) (input st)); by rewrite take_drop|]. intros l [= <-].
    exists [], (drop (Z.to_nat n) (input st)). by rewrite app_nil_l, take_drop.
Qed.

(** ** The store *)

Lemma bind_result_ext {A B} (m : result A) (f g : A → result B) : (∀ a, f a = g a) → (x ← m; f x) = (x ← m; g x).
Proof. intros Hf. destruct m; [apply Hf|done]. Qed.

Section frame.
Context {S : Type} {store : Store S} {contract : StoreSpec S} `{DirectoryJson} `{Argon2}.
Implicit Types (x y : S).

(** Stores that differ in scripts only. *)
Definition agree x y : Prop := ∀ k, ¬ is_script_key k → view x !! k = view y !! k.
#[global] Instance agree_equivalence : Equivalence agree.
Proof.
  split; [by intros x k|intros x y E k Hk; by rewrite E|intros x y z E1 E2 k Hk; by rewrite E1, E2].
Qed.
Lemma not_script_key tag r : tag ≠ TAG_SIEVE_SCRIPT → ¬ is_script_key ([subspace_as_byte Registry; tag] ++ r).
Proof. intros Ht [a E]. unfold record_key in E. simpl in E. congruence. Qed.
Lemma get_agree x y tag r :
  healthy x → healthy y → agree x y → tag ≠ TAG_SIEVE_SCRIPT →
  st_get ([subspace_as_byte Registry; tag] ++ r) x = st_get ([subspace_as_byte Registry; tag] ++ r) y.
Proof.
  intros Hx Hy Ha Ht. assert (known ([subspace_as_byte Registry; tag] ++ r)) as Hk by (by eexists).
  rewrite !get_spec by done. f_equal. apply Ha. by apply not_script_key.
Qed.
(** A scan of the domains passes over scripts. *)
Lemma domains_agree x y : healthy x → healthy y → agree x y → domains_list x = domains_list y.
Proof.
  intros Hx Hy Ha. unfold domains_list, collect_records. rewrite !iterate_spec by done. f_equal.
  set (P := λ r : row, is_record_key TAG_DOMAIN_RECORD r.1 = true).
  assert (∀ acc k v, ¬ P (k, v) → records_visit (A := Domain) "domain" (is_record_key TAG_DOMAIN_RECORD) (λ _, true) acc k v = Ok (acc, Continue)) as Hskip.
  { intros acc k v Hk%not_true_is_false. unfold records_visit. simpl in Hk. by rewrite Hk. }
  rewrite (scan_skip _ P _ _ Hskip), (scan_skip _ P (rows_from (view y) _ _) _ Hskip). f_equal.
  apply row_lt_sorted_unique; [apply StronglySorted_filter, rows_from_sorted..|].
  intros [k v]. rewrite !list_elem_of_filter, !elem_of_rows_from.
  assert (P (k, v) → view x !! k = view y !! k) as E.
  2:{ split; intros (HP & Hv & Hr); (split; [done|split; [|done]]); [by rewrite <-E|by rewrite E]. }
  unfold P, is_record_key. rewrite !andb_true_iff. intros [_ H1%bool_decide_eq_true]. apply Ha. intros [a ->]. done.
Qed.
(** Logging in does not look at scripts. *)
Lemma login_agree x y user : healthy x → healthy y → agree x y → login_account user x = login_account user y.
Proof.
  intros Hx Hy Ha.
  assert (∀ tag r, tag ≠ TAG_SIEVE_SCRIPT → st_get ([subspace_as_byte Registry; tag] ++ r) x = st_get ([subspace_as_byte Registry; tag] ++ r) y)
    as Hg by (intros; by apply get_agree).
  unfold login_account. destruct (rsplit_once 64 user) as [[local domain]|]; [|done].
  assert (Directory.get_by_name domain x = Directory.get_by_name domain y) as ->.
  { unfold Directory.get_by_name, lookup_id_by_name, lookup_id, domain_get, name_key, domain_record_key. cbv zeta.
    rewrite Hg by done. apply bind_result_ext. intros [id|]; [by rewrite Hg|]. by rewrite (domains_agree x y). }
  apply bind_result_ext. intros [d|]; [|done].
  unfold get_by_address, lookup_id_by_address, lookup_id, Directory.account_get, address_key, account_record_key.
  rewrite Hg by done. apply bind_result_ext. intros [id|]; [|done]. by rewrite Hg.
Qed.
Lemma opens_agree purpose x y user secret a :
  healthy x → healthy y → agree x y → opens_account purpose x user secret a → opens_account purpose y user secret a.
Proof.
  intros Hx Hy Ha. unfold opens_account, credentials_list, credential_key.
  by rewrite (login_agree x y), (get_agree x y).
Qed.

(** Changes of scripts in the accounts of [ok], one after the other. *)
Inductive history `{JsonValue} `{!JsonWriter} (ok : Directory.Account → Prop) (x0 : S) : S → Prop :=
  | history_refl : history ok x0 x0
  | history_step x y a l l' :
      history ok x0 x → ok a → scripts_at (ac_id a) x = Ok l → script_change MAX_SCRIPTS l l' →
      scripts_at (ac_id a) y = Ok l' → only_scripts_of (ac_id a) x y → history ok x0 y.
Lemma history_agree `{JsonValue} `{!JsonWriter} ok x0 x : history ok x0 x → agree x0 x.
Proof.
  induction 1 as [|x y a l l' _ IH _ _ _ _ Ho]; [done|]. rewrite IH. intros k Hk. symmetry. apply Ho. intros ->. apply Hk. by exists (ac_id a).
Qed.
End frame.

(** ** A connection *)

Section safety.
Context {S : Type} {store : Store S} {contract : StoreSpec S} `{JsonValue} `{!JsonWriter} `{!JsonWriterLaws}.
Context `{DirectoryJson} `{Argon2} `{Base64}.
Context (policy : ThrottlePolicy) (clk : nat → Z).
Abbreviation P := (Session S).
Implicit Types (s : P).

(** The connection [s0] is over TLS and its client sent what opens [a]. *)
Definition ms_entitled s0 (a : Directory.Account) : Prop :=
  ms_is_tls s0 = true ∧ ms_directory s0 = true ∧
  ∃ user secret, ms_presented (input (ms_stream s0)) user secret ∧ opens_account Login.Mail (ms_store s0) user secret a.

(** The scripts are in order and the ids to come are new. *)
Record ms_sound (ids : list Z) (x : S) : Prop := {
  so_ids : NoDup (fmt_dec <$> ids);
  so_scripts a l : scripts_at a x = Ok l → orderly l ∧ ∀ y, y ∈ l → ss_id y ∉ fmt_dec <$> ids;
}.

Record during s0 s : Prop := {
  du_healthy : healthy (ms_store s);
  du_history : history (ms_entitled s0) (ms_store s0) (ms_store s);
  du_sound : ms_sound (ms_ids s) (ms_store s);
  du_tls : ms_is_tls s = ms_is_tls s0;
  du_directory : ms_directory s = ms_directory s0;
  du_input : ∃ p, input (ms_stream s0) = p ++ input (ms_stream s);
  du_login : ms_state s = Authenticated → ∃ a, ms_account s = Some a ∧ ms_entitled s0 a;
}.

Section one.
Context (s0 : P) (Hs0 : healthy (ms_store s0)).
Abbreviation inp := (input (ms_stream s0)).

Abbreviation ensures := (ends (during s0)).

Lemma ms_ensures_lift {A} (r : result A) (Q : A → P → Prop) s : during s0 s → (∀ a, r = Ok a → Q a s) → ensures (lift r) Q s.
Proof. intros Hs HQ. unfold ends, lift. destruct r; [by apply HQ|done]. Qed.

(** *** The stream *)

Lemma ms_during_stream s x : during s0 s → (∃ p, input (ms_stream s) = p ++ input x) → during s0 (with_stream x s).
Proof.
  intros [? ? ? ? ? [p Hp] ?] [q Hq]. split; try done. simpl. exists (p ++ q). by rewrite Hp, Hq, <-app_assoc.
Qed.
(** What a call on the stream leaves as it is. *)
Definition same_but_stream s s' : Prop := during s0 s' ∧ ∃ x, s' = with_stream x s.
Lemma ensures_stream {A} (m : M Stream A) (Q : A → Prop) s :
  during s0 s → (∃ p, input (ms_stream s) = p ++ input (m (ms_stream s)).2) → (∀ a, (m (ms_stream s)).1 = Ok a → Q a) →
  ensures (ms_on_stream m) (λ a s', same_but_stream s s' ∧ Q a) s.
Proof.
  intros Hs Hp HQ. unfold ends, ms_on_stream. destruct (m (ms_stream s)) as [r x]. simpl in *.
  assert (during s0 (with_stream x s)) as Hd by (by apply ms_during_stream). destruct r as [a|e]; [|done].
  split; [|by apply HQ]. split; [done|by eexists].
Qed.
Lemma ms_ensures_write b s : during s0 s → ensures (ms_write b) (λ _, same_but_stream s) s.
Proof.
  intros Hs. eapply ends_mono; [apply (ensures_stream _ (λ _, True)); [done| |done]|by intros ? ? []].
  exists []. unfold write_st. by destruct (faults (ms_stream s)) as [|[]].
Qed.
Lemma sent_here s l : during s0 s → sent (input (ms_stream s)) l → sent inp l.
Proof. intros Hs Hl. destruct (du_input _ _ Hs) as [p ->]. by apply sent_suffix. Qed.
Lemma ms_ensures_read_line s : during s0 s → ensures ms_read_line (λ r s', same_but_stream s s' ∧ sent inp r.2) s.
Proof.
  intros Hs. destruct (ms_read_line_sent (ms_stream s)) as [Hp Hl]. apply (ensures_stream _ (λ r, sent inp r.2)); [done|done|].
  intros [more l] E. eapply sent_here; [done|]. by eapply Hl.
Qed.
Lemma ensures_literal n s : during s0 s → ensures (ms_on_stream (read_literal_st n)) (λ r s', same_but_stream s s' ∧ sent inp r) s.
Proof.
  intros Hs. destruct (ms_read_literal_sent n (ms_stream s)) as [Hp Hl]. apply (ensures_stream _ (sent inp)); [done|done|].
  intros l E. eapply sent_here; [done|]. by apply Hl.
Qed.
Lemma ms_ensures_respond status code text s : during s0 s → ensures (respond status code text) (λ _, during s0) s.
Proof. intros Hs. eapply ends_mono; [by apply ms_ensures_write|]. by intros ? ? []. Qed.

(** *** Logging in *)

Lemma ensures_auth_response s :
  during s0 s → ensures read_auth_response (λ r s', during s0 s' ∧ ∀ v, r = Some v → ms_token inp v) s.
Proof.
  intros Hs. apply ends_bind. eapply ends_mono; [by apply ms_ensures_read_line|]. intros [more l] s1 [[Hs1 _] Hl].
  destruct more; cbn [negb]; [|by apply ends_ret]. cbv zeta. case_bool_decide; [by apply ends_ret|].
  apply ends_ret. split; [done|]. intros v. destruct (tokenize_line (strip_cr l)) as [|ts] eqn:Et; [done|].
  destruct ts as [|t ts]; [done|]. cbn. destruct (as_str t) as [r|] eqn:Er; [|done]. case_bool_decide; [done|]. intros [= <-].
  left. exists l, (t :: ts), t. split_and!; [done|done|apply list_elem_of_here|done].
Qed.

Lemma ensures_attempt user secret s :
  during s0 s → ms_is_tls s0 = true → ms_presented inp user secret →
  ensures (attempt policy clk user secret) (λ _, during s0) s.
Proof.
  intros Hs Htls Hp. unfold ends, attempt. destruct (ms_directory s) eqn:Ed; [|by apply ms_ensures_respond].
  destruct (Login.attempt_login _ _ _ _ _ _ _ _) as [r t] eqn:E.
  assert (during s0 (with_throttle t s)) as Ht by (by destruct Hs).
  apply (ends_bind _ (lift r)), ms_ensures_lift; [done|]. intros outcome ->.
  destruct outcome as [a by_| |]; [|by apply ms_ensures_respond..].
  apply attempt_login_granted in E. apply ends_bind. unfold ends at 1, ms_modify. apply ms_ensures_respond.
  destruct Ht as [? ? ? ? ? ? ?]. split; try done. simpl. intros _. exists a. split; [done|].
  split_and!; [done|by rewrite <-(du_directory _ _ Hs)|]. exists user, secret. split; [done|].
  eapply opens_agree; [apply Hs|done| |exact E]. symmetry. eapply history_agree, Hs.
Qed.
Lemma ensures_challenge c s : during s0 s → ensures (write_challenge c) (λ _, during s0) s.
Proof. intros Hs. eapply ends_mono; [by apply ms_ensures_write|]. by intros ? ? []. Qed.

Lemma ensures_plain tokens s :
  during s0 s → ms_is_tls s0 = true → ms_tokens inp tokens → ensures (run_plain policy clk tokens) (λ _, during s0) s.
Proof.
  intros Hs Htls Ht. apply ends_bind.
  assert (ensures (match arg tokens 2 with
    | Some initial => mret (Some initial) | None => _ ← write_challenge []; read_auth_response end)
    (λ r s', during s0 s' ∧ ∀ v, r = Some v → ms_token inp v) s) as Hr.
  { destruct (arg tokens 2) as [v|] eqn:Ea.
    - apply ends_ret. split; [done|]. intros ? [= <-]. by eapply ms_arg.
    - apply ends_bind. eapply ends_mono; [by apply ensures_challenge|]. intros ? s1 Hs1. by apply ensures_auth_response. }
  eapply ends_mono; [exact Hr|]. intros [r|] s1 [Hs1 Hv]; [|by apply ms_ensures_respond].
  destruct (decode_plain r) as [[user secret]|] eqn:Ed; [|by apply ms_ensures_respond].
  apply ensures_attempt; [done|done|]. eapply ms_presented_plain; [by apply Hv|done].
Qed.
Lemma ensures_run_login s : during s0 s → ms_is_tls s0 = true → ensures (run_login policy clk) (λ _, during s0) s.
Proof.
  intros Hs Htls. apply ends_bind. eapply ends_mono; [by apply ensures_challenge|]. intros ? s1 Hs1.
  apply ends_bind. eapply ends_mono; [by apply ensures_auth_response|]. intros [u|] s2 [Hs2 Hu]; [|by apply ms_ensures_respond].
  apply ends_bind. eapply ends_mono; [by apply ensures_challenge|]. intros ? s3 Hs3.
  apply ends_bind. eapply ends_mono; [by apply ensures_auth_response|]. intros [p|] s4 [Hs4 Hp]; [|by apply ms_ensures_respond].
  destruct (decode_base64 u) as [user|] eqn:Eu; [|by apply ms_ensures_respond].
  destruct (decode_base64 p) as [secret|] eqn:Ep; [|by apply ms_ensures_respond].
  apply ensures_attempt; [done|done|]. eapply ms_presented_login; [by apply Hu|done|by apply Hp|done].
Qed.
Lemma ensures_authenticate tokens s :
  during s0 s → ms_tokens inp tokens → ensures (run_authenticate policy clk tokens) (λ _, during s0) s.
Proof.
  intros Hs Ht. unfold ends, run_authenticate. destruct (ms_is_tls s) eqn:Etls; cbn [negb]; [|by apply ms_ensures_respond].
  rewrite (du_tls _ _ Hs) in Etls. case_bool_decide; [by apply ms_ensures_respond|].
  destruct (arg tokens 1) as [name|]; [|by apply ms_ensures_respond].
  destruct (mechanism_parse name); [by apply ensures_plain|by apply ensures_run_login|by apply ms_ensures_respond].
Qed.

(** *** The registry *)

Lemma with_store_same s : with_store (ms_store s) s = s.
Proof. by destruct s. Qed.
Lemma in_registry_reads {A} (f : S → result A) s :
  ms_directory s = true → in_registry (reads f) s = (f (ms_store s), s).
Proof. intros Hd. unfold in_registry, reads. by rewrite Hd, with_store_same. Qed.

(** A change of the scripts of the account that is logged in. *)
Lemma during_change s a l l' y :
  during s0 s → ms_entitled s0 a → scripts_at (ac_id a) (ms_store s) = Ok l → script_change MAX_SCRIPTS l l' →
  healthy y → scripts_at (ac_id a) y = Ok l' → only_scripts_of (ac_id a) (ms_store s) y →
  (∀ i, i ∈ ss_id <$> l' → i ∈ ss_id <$> l ∨ i ∉ fmt_dec <$> ms_ids s) →
  during s0 (with_store y s).
Proof.
  intros Hs Ha Hl Hc Hy Hl' Ho Hids. destruct (so_scripts _ _ (du_sound _ _ Hs) _ _ Hl) as [Hord Hnew]. split; try (by destruct Hs); simpl.
  - by eapply history_step; [apply Hs|..].
  - split; [apply Hs|]. intros a' l'' Hl''. unfold scripts_at in *. destruct (decide (record_key a' = record_key (ac_id a))) as [E|E].
    + rewrite E, Hl' in Hl''. injection Hl'' as <-. split; [by eapply change_orderly|].
      intros z Hz Hin. destruct (Hids (ss_id z)) as [(z0 & E0 & Hz0)%list_elem_of_fmap|Hi]; [by apply list_elem_of_fmap_2| |done].
      apply (Hnew z0 Hz0). by rewrite <-E0.
    + rewrite (Ho _ E) in Hl''. by apply (so_scripts _ _ (du_sound _ _ Hs) a').
Qed.
Lemma ensures_change {A} (m : M S A) v s a l l' :
  during s0 s → ms_entitled s0 a → scripts_at (ac_id a) (ms_store s) = Ok l → script_change MAX_SCRIPTS l l' →
  leaves (ac_id a) v l' m (ms_store s) →
  (∀ i, i ∈ ss_id <$> l' → i ∈ ss_id <$> l ∨ i ∉ fmt_dec <$> ms_ids s) →
  ensures (in_registry m) (λ _, during s0) s.
Proof.
  intros Hs Ha Hl Hc (y & E & Hy & Hl' & Ho) Hids. unfold ends, in_registry.
  rewrite (du_directory _ _ Hs). destruct Ha as (Htls & Hd & Hp). rewrite Hd, E. by eapply during_change.
Qed.

(** Commands on scripts, in the account that is logged in. *)
Section logged_in.
Context (s : P) (a : Directory.Account) (Hs : during s0 s) (Hacc : ms_account s = Some a) (Ha : ms_entitled s0 a).

Lemma logged_account : account_id s = ac_id a.
Proof. unfold account_id. by rewrite Hacc. Qed.
Lemma logged_directory : ms_directory s = true.
Proof. rewrite (du_directory _ _ Hs). apply Ha. Qed.
Lemma ensures_scripts {C} (k : list StoredScript → M P C) Q :
  (∀ l, scripts_at (ac_id a) (ms_store s) = Ok l → ensures (k l) Q s) → ensures (l ← scripts; k l) Q s.
Proof.
  intros Hk. apply ends_bind. unfold ends at 1, scripts. rewrite in_registry_reads by apply logged_directory.
  rewrite logged_account, list_at by apply Hs. destruct (scripts_at _ _) eqn:E; [by apply Hk|done].
Qed.
Lemma ensures_by_name {C} name (k : option StoredScript → M P C) Q :
  (∀ l, scripts_at (ac_id a) (ms_store s) = Ok l → ensures (k (List.find (named name) l)) Q s) →
  ensures (x ← by_name name; k x) Q s.
Proof.
  intros Hk. apply ends_bind. unfold ends at 1, by_name. rewrite in_registry_reads by apply logged_directory.
  unfold get_by_name. rewrite logged_account, list_at by apply Hs. destruct (scripts_at _ _) eqn:E; [by apply Hk|done].
Qed.

Lemma edit_rewritten content x : edit None (Some content) (rules_change x content) x = rewritten content x.
Proof. unfold edit, rewritten, rules_change. cbn [default]. by destruct (bool_decide _ && _). Qed.
Lemma ensures_rewrite l1 x l2 content :
  scripts_at (ac_id a) (ms_store s) = Ok (l1 ++ x :: l2) → compiles content →
  ensures (in_registry (sieve_update (ac_id a) (ss_id x) None (Some content) (rules_change x content))) (λ _, during s0) s.
Proof.
  intros Hl Hc. destruct (so_scripts _ _ (du_sound _ _ Hs) _ _ Hl) as [Hord _]. eapply ensures_change; [done|done|exact Hl|by apply change_put| |].
  - eapply update_at; [apply Hs|exact Hl|done|]. rewrite edit_first_middle by apply (NoDup_ids_middle l1 x l2), Hord.
    by rewrite edit_rewritten.
  - intros i Hi. left. by rewrite (fmap_middle ss_id l1 x (rewritten content x)).
Qed.
Lemma ensures_put tokens : ensures (run_putscript tokens) (λ _, during s0) s.
Proof.
  unfold ends, run_putscript. destruct (arg tokens 1) as [name|]; [|by apply ms_ensures_respond].
  destruct (arg tokens 2) as [content|]; [|by apply ms_ensures_respond]. case_bool_decide as Hname; [by apply ms_ensures_respond|].
  unfold check_script. destruct (compile _ content) as [[]|script] eqn:Ec; [by apply ms_ensures_respond..|].
  assert (compiles content) as Hc by (by exists script). cbv zeta. rewrite logged_account.
  apply (ensures_by_name name). intros l Hl. destruct (List.find (named name) l) as [x|] eqn:Ef.
  - apply find_named in Ef as (l1 & l2 & -> & Hn). apply ends_bind.
    eapply ends_mono; [by apply (ensures_rewrite l1 x l2)|]. intros. by apply ms_ensures_respond.
  - apply find_named_none in Ef as [Ee Hn]. apply ensures_scripts. intros ? Hl2. rewrite Hl in Hl2. injection Hl2 as <-.
    destruct (Nat.leb_spec MAX_SCRIPTS (length l)) as [|Hlen]; [by apply ms_ensures_respond|].
    destruct (so_scripts _ _ (du_sound _ _ Hs) _ _ Hl) as [_ Hnew].
    apply ends_bind. unfold ends at 1, fresh_id. destruct (ms_ids s) as [|id more] eqn:Eids; [done|]. apply ends_bind.
    pose proof (so_ids _ _ (du_sound _ _ Hs)) as Hnd. rewrite Eids in Hnd. apply NoDup_cons in Hnd as [Hid Hnd].
    eapply (ends_mono _ _ (λ _, during s0)); [|intros; by apply ms_ensures_respond].
    eapply (ensures_change _ _ _ a l); [|done|exact Hl| |by eapply create_at; [apply Hs|..]|].
    + destruct Hs as [? ? Hso ? ? ? ?]. split; try done. simpl. split; [done|]. intros a' l' Hl'.
      destruct (so_scripts _ _ Hso a' l' Hl') as [Ho Hn']. split; [done|]. intros y Hy Hin. apply (Hn' y Hy). rewrite Eids. by right.
    + apply change_new; try done. intros (y & Ey & Hy)%list_elem_of_fmap. apply (Hnew y Hy). rewrite <-Ey. apply list_elem_of_here.
    + intros i. rewrite fmap_app, elem_of_app. intros [Hi|Hi]; [by left|]. right. by apply list_elem_of_singleton in Hi as ->.
Qed.

Lemma activate_middle l1 x l2 :
  ss_id x ∉ ss_id <$> (l1 ++ l2) →
  activate (Some (ss_id x)) <$> (l1 ++ x :: l2) = (chosen false <$> l1) ++ chosen true x :: (chosen false <$> l2).
Proof.
  rewrite fmap_app, elem_of_app. intros Hx. rewrite fmap_app, fmap_cons.
  assert (∀ l : list StoredScript, ss_id x ∉ ss_id <$> l → activate (Some (ss_id x)) <$> l = chosen false <$> l) as Hl.
  { intros l Hn. apply list_fmap_ext. intros i y Hy. unfold activate, chosen. f_equal. apply bool_decide_eq_false.
    intros [= E]. apply Hn. rewrite <-E. by eapply list_elem_of_fmap_2, list_elem_of_lookup_2. }
  rewrite (Hl l1), (Hl l2) by tauto. unfold activate, chosen at 2. by rewrite bool_decide_true.
Qed.
Lemma ensures_setactive tokens : ensures (run_setactive tokens) (λ _, during s0) s.
Proof.
  unfold ends, run_setactive. destruct (arg tokens 1) as [name|]; [|by apply ms_ensures_respond]. cbv zeta. rewrite logged_account.
  assert (∀ m, ensures (in_registry (A := bool) m) (λ _, during s0) s →
    ensures (_ ← in_registry m; respond "OK" None (bs "Setactive completed")) (λ _, during s0) s) as Hthen.
  { intros m Hm. apply ends_bind. eapply ends_mono; [exact Hm|]. intros. by apply ms_ensures_respond. }
  case_bool_decide.
  - destruct (scripts_at (ac_id a) (ms_store s)) as [l|e] eqn:Hl.
    + apply Hthen. eapply ensures_change; [done|done|exact Hl|apply change_deactivate|by eapply set_active_at; [apply Hs|..]|].
      intros i Hi. left. by rewrite fmap_chosen in Hi.
    + apply Hthen. unfold ends, in_registry. rewrite logged_directory. unfold sieve_set_active, mbind, M_bind, reads.
      rewrite list_at, Hl by apply Hs. by rewrite with_store_same.
  - apply (ensures_by_name name). intros l Hl. destruct (List.find (named name) l) as [x|] eqn:Ef; [|by apply ms_ensures_respond].
    apply find_named in Ef as (l1 & l2 & -> & Hn). destruct (so_scripts _ _ (du_sound _ _ Hs) _ _ Hl) as [Hord _].
    destruct (NoDup_ids_middle l1 x l2 (ord_ids _ Hord)) as [_ Hx].
    apply Hthen. eapply ensures_change; [done|done|exact Hl|apply change_activate| |].
    + rewrite <-activate_middle by done. eapply set_active_at; [apply Hs|exact Hl|]. apply existsb_exists. exists x.
      split; [apply in_app_iff; right; by left|]. unfold has_id. by rewrite bool_decide_true.
    + intros i. rewrite !fmap_app, !fmap_cons, !fmap_chosen by done. by left.
Qed.
Lemma ensures_rename tokens : ensures (run_renamescript tokens) (λ _, during s0) s.
Proof.
  unfold ends, run_renamescript. destruct (arg tokens 1) as [from|]; [|by apply ms_ensures_respond].
  destruct (arg tokens 2) as [to|]; [|by apply ms_ensures_respond]. cbv zeta. rewrite logged_account.
  apply (ensures_by_name from). intros l Hl. destruct (List.find (named from) l) as [x|] eqn:Ef; [|by apply ms_ensures_respond].
  apply ensures_by_name. intros ? Hl2. rewrite Hl in Hl2. injection Hl2 as <-.
  destruct (List.find (named to) l) as [|] eqn:Et; [by apply ms_ensures_respond|].
  apply find_named_none in Et as [Ee Hto]. apply find_named in Ef as (l1 & l2 & -> & Hn).
  destruct (so_scripts _ _ (du_sound _ _ Hs) _ _ Hl) as [Hord _]. apply ends_bind.
  eapply (ends_mono _ _ (λ _, during s0)); [|intros; by apply ms_ensures_respond].
  eapply ensures_change; [done|done|exact Hl|by apply (change_rename _ l1 x l2 to)| |].
  - eapply update_at; [apply Hs|exact Hl| |by rewrite edit_first_middle by apply (NoDup_ids_middle l1 x l2), Hord].
    apply not_true_iff_false. cbn [name_taken]. intros (y & Hy & [Hyn _]%andb_true_iff)%existsb_exists.
    apply not_true_iff_false in Ee. apply Ee, existsb_exists. eauto.
  - intros i Hi. left. by rewrite (fmap_middle ss_id l1 x (renamed to x)).
Qed.
Lemma ensures_delete tokens : ensures (run_deletescript tokens) (λ _, during s0) s.
Proof.
  unfold ends, run_deletescript. destruct (arg tokens 1) as [name|]; [|by apply ms_ensures_respond]. cbv zeta. rewrite logged_account.
  apply (ensures_by_name name). intros l Hl. destruct (List.find (named name) l) as [x|] eqn:Ef; [|by apply ms_ensures_respond].
  destruct (ss_active x) eqn:Hact; [by apply ms_ensures_respond|]. apply find_named in Ef as (l1 & l2 & -> & Hn).
  destruct (so_scripts _ _ (du_sound _ _ Hs) _ _ Hl) as [Hord _]. apply ends_bind.
  eapply (ends_mono _ _ (λ _, during s0)); [|intros; by apply ms_ensures_respond].
  eapply ensures_change; [done|done|exact Hl|by apply change_delete| |].
  - eapply destroy_at; [apply Hs|exact Hl|by apply filter_middle, (NoDup_ids_middle l1 x l2), Hord|].
    rewrite !length_app. simpl. lia.
  - intros i. rewrite !fmap_app, fmap_cons, !elem_of_app, elem_of_cons. tauto.
Qed.
Lemma ensures_get tokens : ensures (run_getscript tokens) (λ _, during s0) s.
Proof.
  unfold run_getscript. destruct (arg tokens 1) as [name|]; [|by apply ms_ensures_respond]. apply ensures_by_name. intros l Hl.
  destruct (List.find _ l) as [x|]; [|by apply ms_ensures_respond]. apply ends_bind.
  eapply ends_mono; [by apply ms_ensures_write|]. intros ? ? [? _]. by apply ms_ensures_respond.
Qed.
Lemma ensures_listscripts : ensures run_listscripts (λ _, during s0) s.
Proof.
  apply ensures_scripts. intros l Hl. apply ends_bind. eapply ends_mono; [by apply ms_ensures_write|].
  intros ? ? [? _]. by apply ms_ensures_respond.
Qed.
Lemma ensures_havespace tokens : ensures (run_havespace tokens) (λ _, during s0) s.
Proof.
  unfold run_havespace. destruct (arg tokens 1) as [name|]; [|by apply ms_ensures_respond].
  destruct (arg tokens 2 ≫= parse_u64) as [size|]; [|by apply ms_ensures_respond]. case_match; [by apply ms_ensures_respond|].
  apply ensures_scripts. intros l Hl. case_match; by apply ms_ensures_respond.
Qed.
End logged_in.

(** *** Commands *)

Lemma ensures_then m s : ensures m (λ _, during s0) s → ensures (then_none m) (λ _, during s0) s.
Proof. intros Hm. apply ends_bind. by eapply ends_mono. Qed.
Lemma ensures_flow (m : M P unit) (flow : Flow) s :
  ensures m (λ _, during s0) s → ensures (_ ← m; mret (Some flow)) (λ _, during s0) s.
Proof. intros Hm. apply ends_bind. by eapply ends_mono. Qed.
Lemma ensures_noop tokens s : during s0 s → ensures (run_noop tokens) (λ _, during s0) s.
Proof.
  intros Hs. unfold run_noop. destruct (arg tokens 1); [|by apply ms_ensures_respond].
  eapply ends_mono; [by apply ms_ensures_write|]. by intros ? ? [].
Qed.
Lemma ensures_capability s : during s0 s → ensures run_capability (λ _, during s0) s.
Proof.
  intros Hs. unfold ends, run_capability. apply (ends_bind _ (ms_write _)). eapply ends_mono; [by apply ms_ensures_write|].
  intros ? ? [? _]. by apply ms_ensures_respond.
Qed.
Lemma ensures_unauthenticate s : during s0 s → ensures run_unauthenticate (λ _, during s0) s.
Proof.
  intros Hs. unfold ends, run_unauthenticate. case_bool_decide; [|by apply ms_ensures_respond].
  apply (ends_bind _ (ms_modify _)). unfold ends at 1, ms_modify. apply ms_ensures_respond. by destruct Hs.
Qed.
Lemma ensures_check tokens s : during s0 s → ensures (run_checkscript tokens) (λ _, during s0) s.
Proof. intros Hs. unfold run_checkscript. repeat case_match; by apply ms_ensures_respond. Qed.
Lemma ensures_starttls s : during s0 s → ensures run_starttls (λ _, during s0) s.
Proof.
  intros Hs. unfold ends, run_starttls. destruct (ms_is_tls s); [by apply ensures_then, ms_ensures_respond|].
  by apply (ensures_flow (respond _ _ _)), ms_ensures_respond.
Qed.

Lemma ms_ensures_dispatch tokens s :
  during s0 s → ms_tokens inp tokens → ensures (dispatch policy clk tokens) (λ _, during s0) s.
Proof.
  intros Hs Ht. unfold ends, dispatch. cbv zeta. destruct (needs_auth (verb_of tokens) && _) eqn:En; [by apply ensures_then, ms_ensures_respond|].
  assert (needs_auth (verb_of tokens) = true → ∃ a, ms_account s = Some a ∧ ms_entitled s0 a) as Ha.
  { intros Hn. rewrite Hn in En. apply (du_login _ _ Hs). by destruct (decide (ms_state s = Authenticated)) as [|Hne]; [|rewrite bool_decide_false in En]. }
  clear En. generalize dependent (verb_of tokens). intros verb Ha.
  case_bool_decide; [by apply ensures_then, ensures_capability|]. case_bool_decide; [by apply ensures_starttls|].
  case_bool_decide; [by apply ensures_then, ensures_authenticate|].
  case_bool_decide; [by apply (ensures_flow (respond _ _ _)), ms_ensures_respond|].
  case_bool_decide; [by apply ensures_then, ensures_noop|]. case_bool_decide; [by apply ensures_then, ensures_unauthenticate|].
  case_bool_decide as Hv; [destruct Ha as (a & ? & ?); [by rewrite Hv|by eapply ensures_then, ensures_havespace]|clear Hv].
  case_bool_decide as Hv; [destruct Ha as (a & ? & ?); [by rewrite Hv|by eapply ensures_then, ensures_put]|clear Hv].
  case_bool_decide as Hv; [destruct Ha as (a & ? & ?); [by rewrite Hv|by eapply ensures_then, ensures_listscripts]|clear Hv].
  case_bool_decide as Hv; [destruct Ha as (a & ? & ?); [by rewrite Hv|by eapply ensures_then, ensures_setactive]|clear Hv].
  case_bool_decide as Hv; [destruct Ha as (a & ? & ?); [by rewrite Hv|by eapply ensures_then, ensures_get]|clear Hv].
  case_bool_decide as Hv; [destruct Ha as (a & ? & ?); [by rewrite Hv|by eapply ensures_then, ensures_delete]|clear Hv].
  case_bool_decide as Hv; [destruct Ha as (a & ? & ?); [by rewrite Hv|by eapply ensures_then, ensures_rename]|clear Hv].
  case_bool_decide; [by apply ensures_then, ensures_check|by apply ensures_then, ms_ensures_respond].
Qed.

(** *** The loops *)

Lemma ensures_none {C} status code text s :
  during s0 s → ensures (_ ← respond status code text; mret (None : option C)) (λ r s', during s0 s' ∧ r = None) s.
Proof. intros Hs. apply ends_bind. eapply ends_mono; [by apply ms_ensures_respond|]. done. Qed.
Lemma line_tokens l ts : sent inp l → tokenize_line (strip_cr l) = inr ts → ms_tokens inp ts.
Proof. intros Hl Et t r Ht Hr. left. by exists l, ts, t. Qed.
Lemma ensures_literals fuel tokens s :
  during s0 s → ms_tokens inp tokens →
  ensures (resolve_literals fuel tokens) (λ r s', during s0 s' ∧ ∀ ts, r = Some ts → ms_tokens inp ts) s.
Proof.
  assert (∀ r s', during s0 s' ∧ r = None → during s0 s' ∧ ∀ ts, r = Some ts → ms_tokens inp ts) as Hnone by (by intros ? ? [? ->]).
  revert tokens s. induction fuel as [|fuel IH]; intros tokens s Hs Ht; [done|]. cbn [resolve_literals].
  assert (ensures (mret (Some tokens)) (λ r s', during s0 s' ∧ ∀ ts, r = Some ts → ms_tokens inp ts) s) as Hret.
  { apply ends_ret. split; [done|]. by intros ? [= <-]. }
  destruct (last tokens) as [[| |n]|]; try exact Hret. case_match.
  { apply ends_bind. eapply ends_mono; [by apply ms_ensures_respond|]. by intros ? ? ?. }
  apply ends_bind. eapply ends_mono; [by apply ensures_literal|]. intros content s1 [[Hs1 _] Hcontent].
  apply ends_bind. eapply ends_mono; [by apply ms_ensures_read_line|]. intros [more rest] s2 [[Hs2 _] Hrest].
  destruct more; cbn [negb]; [|by apply ends_ret].
  destruct (tokenize_line (strip_cr rest)) as [error|continuation] eqn:Et.
  { eapply ends_mono; [by apply ensures_none|apply Hnone]. }
  destruct (from_utf8 content) as [c|] eqn:Ec; [|eapply ends_mono; [by apply ensures_none|apply Hnone]].
  apply IH; [done|]. intros t r. rewrite !elem_of_app, list_elem_of_singleton. intros [Hin|[->|Hin]] Hr.
  - eapply Ht; [|exact Hr]. by eapply subseteq_take.
  - cbn in Hr. injection Hr as <-. right. unfold from_utf8 in Ec. by destruct (utf8_valid content); simplify_eq.
  - by eapply line_tokens.
Qed.

Lemma ms_ensures_loop fuel s : during s0 s → ensures (ms_loop policy clk fuel) (λ _, during s0) s.
Proof.
  revert s. induction fuel as [|fuel IH]; intros s Hs; [done|]. cbn [ms_loop].
  apply ends_bind. eapply ends_mono; [by apply ms_ensures_read_line|]. intros [more l] s1 [[Hs1 _] Hl].
  destruct more; cbn [negb]; [|by apply ends_ret]. destruct (tokenize_line (strip_cr l)) as [error|ts] eqn:Et.
  { apply ends_bind. eapply ends_mono; [by apply ms_ensures_respond|]. intros. by apply IH. }
  apply ends_bind. eapply ends_mono; [apply (ensures_literals _ ts s1); [done|by eapply line_tokens]|].
  intros [[|t ts']|] s2 [Hs2 Hts]; [by apply IH| |by apply IH].
  apply ends_bind. eapply ends_mono; [apply ms_ensures_dispatch; [done|by apply Hts]|].
  intros [flow|] s3 Hs3; [by apply ends_ret|by apply IH].
Qed.
Lemma ensures_run : during s0 s0 → ensures (ms_run policy clk) (λ _, during s0) s0.
Proof.
  intros Hs. apply ends_bind. eapply ends_mono; [by apply ms_ensures_write|]. intros ? s1 [Hs1 _].
  apply ends_bind. eapply ends_mono; [by apply ms_ensures_respond|]. intros ? s2 Hs2. by apply ms_ensures_loop.
Qed.
End one.

(** C14. What a ManageSieve connection can do.  Whatever the client sends, the
    store ends as it was but for a sequence of changes to scripts, each of
    them in an account that the client opened, over TLS, with a name and a
    secret it sent, and each one a client may ask for: a script that compiles
    put under a name, one script renamed to a free name, one or none made
    active, a script that is not active deleted.  Names and ids still tell the
    scripts of every account apart, at most one is active, the rules of a
    script still are the text it shows, and no account is given more than 32. *)
Theorem managesieve_session_safe s s' r :
  ms_state s = NotAuthenticated → healthy (ms_store s) → ms_sound (ms_ids s) (ms_store s) →
  ms_run policy clk s = (r, s') →
  history (ms_entitled s) (ms_store s) (ms_store s') ∧ healthy (ms_store s') ∧ ms_sound (ms_ids s') (ms_store s').
Proof.
  intros Hst Hh Hso E. assert (during s s) as Hs.
  { split; try done; [constructor|by exists []|by rewrite Hst]. }
  pose proof (ensures_run s Hh Hs) as Hr. unfold ends in Hr. rewrite E in Hr. destruct r; by destruct Hr.
Qed.
End safety.
