(* ===== verification/ManageSieveRun.v ===== *)
(** * ManageSieve: serving a connection (crates/managesieve/src/session.rs)

    The loops of a connection stop by themselves; and a script that was put is
    the one that is shown and the one that delivery runs.  Then the theorems at
    work: JSON in memory, connections to a server with one account, and what
    was found on the way. *)

From S2P Require Import Prelude Bytes Key Store Text Fts Ttl Sieve SieveLexer SieveGrammar Directory Login FilterRules SieveRegistry SmtpVerdict SmtpCommands SmtpSubmit SmtpSession SmtpSafety Pop3Commands ManageSieve ManageSieveSafe.
From stdpp Require Import base gmap list strings.
From Stdlib Require Import ZArith Lia.

Open Scope Z_scope.

(** ** The loops stop *)

Lemma ms_read_consumes st l st' :
  ms_read_line_st st = (Ok (true, l), st') → (length (input st') < length (input st))%nat.
Proof.
  unfold ms_read_line_st. destruct (ms_read_go _ _ _) as [r rest] eqn:E. intros [= -> <-]. simpl. revert E.
  assert (∀ buf, ms_read_go (at_end st) (input st) buf = (Ok (true, l), rest) → length buf = 0%nat ∨ (length rest < length (input st))%nat →
    (length rest < length (input st))%nat) as Hg; [|intros E; eapply Hg; [exact E|by left]].
  generalize (input st) as inp. induction inp as [|b inp IH]; intros buf; cbn [ms_read_go].
  - destruct (at_end st); [done|]. intros [= Hb -> <-] [Hl|Hl]; [|done]. rewrite Hl in Hb. done.
  - destruct (b =? LF); [intros [= _ <-] _; simpl; lia|]. destruct (_ <? _)%nat; [done|]. intros E _.
    assert (length rest ≤ length inp)%nat as Hle; [|simpl; lia].
    destruct (ms_read_go_sent _ _ _ _ _ E) as (x & y & -> & _). rewrite !length_app. lia.
Qed.

Section termination.
Context {S : Type} {store : Store S} `{JsonValue} `{!JsonWriter} `{DirectoryJson} `{Argon2} `{Base64}.
Context (policy : ThrottlePolicy) (clk : nat → Z).
Abbreviation P := (Session S).
Implicit Types (s : P).

(** No call puts input back. *)
Definition ms_shrinks (s s' : P) : Prop := (length (input (ms_stream s')) ≤ length (input (ms_stream s)))%nat.
#[local] Instance ms_shrinks_preorder : PreOrder ms_shrinks.
Proof. split; [intros s; unfold ms_shrinks; lia|intros s1 s2 s3; unfold ms_shrinks; lia]. Qed.

Lemma ms_shrinks_stream {A} (m : M Stream A) : consumes m → keeps ms_shrinks (ms_on_stream m).
Proof. intros Hm s. unfold ms_on_stream. specialize (Hm (ms_stream s)). by destruct (m (ms_stream s)). Qed.
Lemma ms_shrinks_write b : keeps ms_shrinks (ms_write b).
Proof. apply ms_shrinks_stream, consumes_write. Qed.
Lemma ms_shrinks_read_line : keeps ms_shrinks ms_read_line.
Proof.
  apply ms_shrinks_stream. intros st. destruct (ms_read_line_sent st) as [[p Hp] _]. rewrite Hp, length_app. lia.
Qed.
Lemma ms_shrinks_literal n : keeps ms_shrinks (ms_on_stream (read_literal_st n)).
Proof. apply ms_shrinks_stream. intros st. destruct (ms_read_literal_sent n st) as [[p Hp] _]. rewrite Hp, length_app. lia. Qed.
Lemma ms_shrinks_respond status code text : keeps ms_shrinks (respond status code text).
Proof. apply ms_shrinks_write. Qed.
Lemma ms_shrinks_registry {A} (m : M S A) : keeps ms_shrinks (in_registry m).
Proof. intros s. unfold in_registry. destruct (ms_directory s); [|reflexivity]. by destruct (m (ms_store s)); unfold ms_shrinks. Qed.
Lemma ms_shrinks_scripts : keeps ms_shrinks scripts.
Proof. intros s. apply ms_shrinks_registry. Qed.
Lemma ms_shrinks_by_name name : keeps ms_shrinks (by_name name).
Proof. intros s. apply ms_shrinks_registry. Qed.
Lemma ms_shrinks_fresh : keeps ms_shrinks fresh_id.
Proof. intros s. unfold fresh_id, ms_shrinks. destruct (ms_ids s); simpl; lia. Qed.
Lemma ms_shrinks_login st a : keeps ms_shrinks (ms_modify (with_login st a)).
Proof. intros s. unfold ms_shrinks. simpl. lia. Qed.

(** From the state at hand to the call, and through the calls in it. *)
Ltac ms_call := match goal with |- ms_shrinks ?s (?m ?s).2 => let Hk := fresh in enough (keeps ms_shrinks m) as Hk by exact (Hk s) end.
Ltac ms_shrink :=
  repeat match goal with
    | |- ∀ _ : _, keeps _ _ => intro
    | |- keeps _ (respond _ _ _) => apply ms_shrinks_respond
    | |- keeps _ (ms_write _) => apply ms_shrinks_write
    | |- keeps _ ms_read_line => apply ms_shrinks_read_line
    | |- keeps _ (ms_on_stream (read_literal_st _)) => apply ms_shrinks_literal
    | |- keeps _ (in_registry _) => apply ms_shrinks_registry
    | |- keeps _ scripts => apply ms_shrinks_scripts
    | |- keeps _ (by_name _) => apply ms_shrinks_by_name
    | |- keeps _ fresh_id => apply ms_shrinks_fresh
    | |- keeps _ (ms_modify (with_login _ _)) => apply ms_shrinks_login
    | |- keeps _ (lift _) => apply keeps_reads, _
    | |- keeps _ (throw _) => apply keeps_throw, _
    | |- keeps _ (mret _) => apply keeps_ret, _
    | |- keeps _ (_ ≫= _) => apply keeps_bind; [apply _| |]
    | |- keeps _ (let _ := _ in _) => cbv zeta
    | |- keeps _ (match _ with _ => _ end) => case_match
    end.
(** A method that begins by looking at its state. *)
Ltac ms_method f :=
  let s := fresh "s" in intros s; unfold f; cbv zeta; repeat case_match; ms_call; ms_shrink.

Lemma ms_shrinks_lift {A} (r : result A) : keeps ms_shrinks (lift r).
Proof. intros s. reflexivity. Qed.
Lemma ms_shrinks_attempt u p : keeps ms_shrinks (attempt policy clk u p).
Proof.
  intros s. unfold attempt. destruct (ms_directory s); [|apply ms_shrinks_respond].
  destruct (Login.attempt_login _ _ _ _ _ _ _ _) as [r t].
  enough (keeps ms_shrinks (outcome ← lift r; match outcome with
     | Login.Granted a _ => _ ← ms_modify (with_login Authenticated (Some a)); respond "OK" None (bs "Authenticated")
     | Login.Denied => respond "NO" None (bs "authentication failed")
     | Login.Throttled => respond "NO" (Some "TRYLATER") (bs "too many attempts, try again later")
     end)) as Hk by exact (Hk (with_throttle t s)).
  apply keeps_bind; [apply _|apply ms_shrinks_lift|]. ms_shrink.
Qed.
Lemma ms_shrinks_response : keeps ms_shrinks read_auth_response.
Proof. unfold read_auth_response. ms_shrink. Qed.
Lemma ms_shrinks_plain tokens : keeps ms_shrinks (run_plain policy clk tokens).
Proof. unfold run_plain, write_challenge, cancelled. ms_shrink; first [apply ms_shrinks_response|apply ms_shrinks_attempt]. Qed.
Lemma ms_shrinks_run_login : keeps ms_shrinks (run_login policy clk).
Proof. unfold run_login, write_challenge, cancelled. ms_shrink; first [apply ms_shrinks_response|apply ms_shrinks_attempt]. Qed.
Lemma ms_shrinks_authenticate tokens : keeps ms_shrinks (run_authenticate policy clk tokens).
Proof. ms_method @run_authenticate; first [apply ms_shrinks_plain|apply ms_shrinks_run_login]. Qed.
Lemma ms_shrinks_havespace tokens : keeps ms_shrinks (run_havespace tokens).
Proof. unfold run_havespace. ms_shrink. Qed.
Lemma ms_shrinks_put tokens : keeps ms_shrinks (run_putscript tokens).
Proof. ms_method @run_putscript. Qed.
Lemma ms_shrinks_setactive tokens : keeps ms_shrinks (run_setactive tokens).
Proof. ms_method @run_setactive; unfold nonexistent; ms_shrink. Qed.
Lemma ms_shrinks_get tokens : keeps ms_shrinks (run_getscript tokens).
Proof. unfold run_getscript, nonexistent. ms_shrink. Qed.
Lemma ms_shrinks_delete tokens : keeps ms_shrinks (run_deletescript tokens).
Proof. ms_method @run_deletescript; unfold nonexistent; ms_shrink. Qed.
Lemma ms_shrinks_rename tokens : keeps ms_shrinks (run_renamescript tokens).
Proof. ms_method @run_renamescript; unfold nonexistent; ms_shrink. Qed.
Lemma ms_shrinks_then m : keeps ms_shrinks m → keeps ms_shrinks (then_none m).
Proof. intros Hm. apply keeps_bind; [apply _|done|]. ms_shrink. Qed.
Lemma ms_shrinks_dispatch tokens : keeps ms_shrinks (dispatch policy clk tokens).
Proof.
  intros s. unfold dispatch. cbv zeta. repeat case_match; ms_call; try apply ms_shrinks_then.
  - apply ms_shrinks_respond.
  - intros s1. unfold run_capability. ms_call. ms_shrink.
  - intros s1. unfold run_starttls. case_match; ms_call; [apply ms_shrinks_then|]; ms_shrink.
  - apply ms_shrinks_authenticate.
  - ms_shrink.
  - unfold run_noop. ms_shrink.
  - ms_method @run_unauthenticate.
  - apply ms_shrinks_havespace.
  - apply ms_shrinks_put.
  - unfold run_listscripts. ms_shrink.
  - apply ms_shrinks_setactive.
  - apply ms_shrinks_get.
  - apply ms_shrinks_delete.
  - apply ms_shrinks_rename.
  - unfold run_checkscript. ms_shrink.
  - apply ms_shrinks_respond.
Qed.
Lemma ms_shrinks_literals fuel tokens : keeps ms_shrinks (resolve_literals fuel tokens).
Proof.
  revert tokens. induction fuel as [|fuel IH]; intros tokens; [apply keeps_throw, _|]. cbn [resolve_literals].
  destruct (last tokens) as [[| |n]|]; ms_shrink; apply IH.
Qed.

(** A line that was read took a byte. *)
Lemma read_line_shorter s l s' :
  ms_read_line s = (Ok (true, l), s') → (length (input (ms_stream s')) < length (input (ms_stream s)))%nat.
Proof.
  unfold ms_read_line, ms_on_stream. destruct (ms_read_line_st (ms_stream s)) as [r st] eqn:E. intros [= -> <-].
  by apply ms_read_consumes in E.
Qed.
Lemma keeps_ok {A} (m : M P A) s a s' : keeps ms_shrinks m → m s = (Ok a, s') → ms_shrinks s s'.
Proof. intros Hm E. specialize (Hm s). by rewrite E in Hm. Qed.

Lemma ms_literals_enough fuel fuel' tokens s :
  (length (input (ms_stream s)) < fuel)%nat → (length (input (ms_stream s)) < fuel')%nat →
  resolve_literals fuel tokens s = resolve_literals fuel' tokens s.
Proof.
  revert fuel' tokens s. induction fuel as [|fuel IH]; intros fuel' tokens s Hf Hf'; [lia|]. destruct fuel' as [|fuel']; [lia|].
  cbn [resolve_literals]. destruct (last tokens) as [[| |n]|]; try done. case_match; [done|].
  apply bind_ext. intros content s1 E1. apply (keeps_ok _ _ _ _ (ms_shrinks_literal n)) in E1.
  apply bind_ext. intros [[] rest] s2 E2; [|done]. cbn [negb]. apply read_line_shorter in E2.
  destruct (tokenize_line _) as [|continuation]; [done|]. destruct (from_utf8 content) as [c|]; [|done].
  unfold ms_shrinks in E1. apply IH; lia.
Qed.
Lemma ms_loop_enough fuel fuel' s :
  (length (input (ms_stream s)) < fuel)%nat → (length (input (ms_stream s)) < fuel')%nat →
  ms_loop policy clk fuel s = ms_loop policy clk fuel' s.
Proof.
  revert fuel' s. induction fuel as [|fuel IH]; intros fuel' s Hf Hf'; [lia|]. destruct fuel' as [|fuel']; [lia|].
  cbn [ms_loop]. apply bind_ext. intros [[] l] s1 E1; [|done]. cbn [negb]. apply read_line_shorter in E1.
  destruct (tokenize_line _) as [error|ts].
  { apply bind_ext. intros ? s2 E2. apply (keeps_ok _ _ _ _ (ms_shrinks_respond _ _ _)) in E2. unfold ms_shrinks in E2. apply IH; lia. }
  apply bind_ext. intros o s2 E2. unfold resolve in E2.
  apply (keeps_ok _ _ _ _ (ms_shrinks_literals _ _)) in E2. unfold ms_shrinks in E2.
  destruct o as [[|t ts']|]; [apply IH; lia| |apply IH; lia].
  apply bind_ext. intros [flow|] s3 E3; [done|]. apply (keeps_ok _ _ _ _ (ms_shrinks_dispatch _)) in E3. unfold ms_shrinks in E3.
  apply IH; lia.
Qed.

(** A connection is always served to its end: the loop over commands
    and the loop over the literals of a command take a byte of the input in
    every turn and stop by themselves, and more fuel than the input is long
    changes nothing. *)
Theorem managesieve_serves_to_the_end s fuel :
  (length (input (ms_stream s)) < fuel)%nat →
  ms_loop policy clk fuel s = ms_loop policy clk (Datatypes.S (length (input (ms_stream s)))) s ∧
  ∀ tokens, resolve_literals fuel tokens s = resolve tokens s.
Proof. intros Hf. split; [apply ms_loop_enough; lia|]. intros tokens. apply ms_literals_enough; lia. Qed.
End termination.

(** ** Putting a script *)

Section put.
Context {S : Type} {store : Store S} {contract : StoreSpec S} `{JsonValue} `{!JsonWriter} `{!JsonWriterLaws}.
Context `{DirectoryJson} `{Argon2} `{Base64}.
Context (policy : ThrottlePolicy) (clk : nat → Z).
Abbreviation P := (Session S).
Implicit Types (s : P).

(** The session after it wrote [b]. *)
Definition said (b : bytes) s : P :=
  with_stream (mkStream (input (ms_stream s)) (at_end (ms_stream s)) (output (ms_stream s) ++ b) []) s.
Lemma write_said b s : faults (ms_stream s) = [] → ms_write b s = (Ok tt, said b s).
Proof. intros Hf. unfold ms_write, ms_on_stream, write_st. by rewrite Hf. Qed.
Definition ok_text (text : string) : bytes := response_line (bs "OK") None (bs text).
Lemma respond_ok text s : faults (ms_stream s) = [] → respond "OK" None (bs text) s = (Ok tt, said (ok_text text) s).
Proof. apply write_said. Qed.

(** A client that is logged in, on a connection that takes what is written. *)
Record served (a : Directory.Account) (l : list StoredScript) s : Prop := {
  sv_state : ms_state s = Authenticated;
  sv_account : ms_account s = Some a;
  sv_directory : ms_directory s = true;
  sv_faults : faults (ms_stream s) = [];
  sv_healthy : healthy (ms_store s);
  sv_scripts : scripts_at (ac_id a) (ms_store s) = Ok l;
  sv_orderly : orderly l;
}.

Section one.
Context (a : Directory.Account) (l : list StoredScript) (s : P) (Hs : served a l s).

Lemma served_account : account_id s = ac_id a.
Proof. unfold account_id. by rewrite (sv_account _ _ _ Hs). Qed.
Lemma served_scripts {C} (k : list StoredScript → M P C) : (x ← scripts; k x) s = k l s.
Proof.
  unfold mbind, M_bind, scripts. rewrite in_registry_reads by apply Hs. rewrite served_account, list_at by apply Hs.
  by rewrite (sv_scripts _ _ _ Hs).
Qed.
Lemma served_by_name {C} name (k : option StoredScript → M P C) : (x ← by_name name; k x) s = k (List.find (named name) l) s.
Proof.
  unfold mbind, M_bind, by_name. rewrite in_registry_reads by apply Hs. unfold get_by_name. rewrite served_account, list_at by apply Hs.
  by rewrite (sv_scripts _ _ _ Hs).
Qed.

(** GETSCRIPT shows the source. *)
Lemma served_get name x :
  List.find (named name) l = Some x →
  dispatch policy clk [Atom (bs "GETSCRIPT"); Str name] s
  = (Ok None, said (ok_text "Getscript completed") (said (script_reply (script_source x)) s)).
Proof.
  intros Hx. unfold dispatch. rewrite (bool_decide_true (ms_state s = _)) by apply Hs.
  change (then_none (run_getscript [Atom (bs "GETSCRIPT"); Str name]) s
    = (Ok None, said (ok_text "Getscript completed") (said (script_reply (script_source x)) s))).
  unfold then_none, run_getscript. cbn [arg lookup list_lookup mbind option_bind as_str].
  unfold mbind at 1, M_bind at 1. rewrite served_by_name, Hx. unfold mbind, M_bind. rewrite write_said by apply Hs.
  by rewrite respond_ok.
Qed.

(** What the registry was asked to write, and then the answer. *)
Lemma served_change {A} (m : M S A) (v : A) l' text s1 :
  (∃ n, s1 = with_ids n s) → leaves (ac_id a) v l' m (ms_store s) → orderly l' →
  ∃ s', (_ ← in_registry m; respond "OK" None (bs text)) s1 = (Ok tt, said (ok_text text) s') ∧
    output (ms_stream s') = output (ms_stream s) ∧ served a l' s' ∧ served a l' (said (ok_text text) s').
Proof.
  intros [n ->] (y & E & Hy & Hl' & _) Ho. exists (with_store y (with_ids n s)).
  assert (served a l' (with_store y (with_ids n s))) as Hsv by (destruct Hs; by split).
  split_and!; [|done|done|by destruct Hsv].
  unfold mbind, M_bind, in_registry. cbn [with_ids ms_directory]. rewrite (sv_directory _ _ _ Hs). cbn [ms_store with_ids]. rewrite E.
  by rewrite respond_ok by apply Hsv.
Qed.

(** The registry's part of PUTSCRIPT. *)
Lemma served_put name content script id more :
  name ≠ [] → compile default_compiler_limits content = inr script →
  (name ∈ ss_name <$> l ∨ (length l < MAX_SCRIPTS)%nat) → ms_ids s = id :: more → fmt_dec id ∉ ss_id <$> l →
  ∃ s' l' x, run_putscript [Atom (bs "PUTSCRIPT"); Str name; Str content] s = (Ok tt, said (ok_text "Putscript completed") s') ∧
    output (ms_stream s') = output (ms_stream s) ∧ served a l' (said (ok_text "Putscript completed") s') ∧
    x ∈ l' ∧ ss_name x = name ∧ script_source x = content ∧ others name l' = others name l.
Proof.
  intros Hname Hc Hroom Eids Hid. unfold run_putscript. cbn [arg lookup list_lookup mbind option_bind as_str].
  rewrite bool_decide_false by done. unfold check_script. rewrite Hc. cbv zeta. rewrite served_account, served_by_name.
  assert (compiles content) as Hcc by (by exists script).
  destruct (List.find (named name) l) as [x|] eqn:Ef.
  - apply find_named in Ef as (l1 & l2 & El & Hn). pose proof (sv_orderly _ _ _ Hs) as Ho. pose proof (sv_scripts _ _ _ Hs) as Hl.
    rewrite El in Ho, Hl.
    assert (orderly (l1 ++ rewritten content x :: l2)) as Ho' by (eapply change_orderly; [by apply (change_put MAX_SCRIPTS)|done]).
    destruct (served_change (sieve_update (ac_id a) (ss_id x) None (Some content) (rules_change x content)) true
      (l1 ++ rewritten content x :: l2) "Putscript completed" s) as (s' & E & Hout & Hsv & Hsv'); [exists (ms_ids s); by destruct s| |done|].
    { eapply update_at; [apply Hs|exact Hl|done|]. rewrite edit_first_middle by apply (NoDup_ids_middle l1 x l2), Ho. by rewrite edit_rewritten. }
    exists s', (l1 ++ rewritten content x :: l2), (rewritten content x). split_and!; try done.
    + apply elem_of_app. right. apply list_elem_of_here.
    + apply script_source_rewritten. apply (proj1 (Forall_forall _ _) (ord_coherent _ Ho)). apply elem_of_app. right. apply list_elem_of_here.
    + rewrite El. by apply others_middle.
  - apply find_named_none in Ef as [Ee Hn]. rewrite served_scripts. destruct Hroom as [|Hlen]; [done|].
    rewrite (proj2 (Nat.leb_gt _ _)) by done. unfold fresh_id. unfold mbind at 1, M_bind at 1. rewrite Eids.
    set (x := mkStored (fmt_dec id) name content None (bool_decide (l = []))).
    assert (orderly (l ++ [x])) as Ho' by (eapply change_orderly; [by apply (change_new MAX_SCRIPTS)|apply Hs]).
    destruct (served_change (sieve_create (ac_id a) id name content None) x (l ++ [x]) "Putscript completed"
      (with_ids more s)) as (s' & E & Hout & Hsv & Hsv'); [by eexists| |done|].
    { by eapply create_at; [apply Hs|apply Hs|]. }
    exists s', (l ++ [x]), x. split_and!; try done.
    + apply elem_of_app. right. apply list_elem_of_here.
    + unfold script_source. cbn. by destruct content.
    + by apply others_new.
Qed.
End one.

(** C17. A script that was put is the one that is shown and the one that runs.
    PUTSCRIPT of a script that compiles, under a name the client already uses
    or with room for one more, is accepted; the other scripts stay as they
    are; GETSCRIPT of the name then answers with exactly the text that was
    put; and if the script is the active one, delivery compiles no other text
    than this one, and does compile it unless it is blank or kept its rules. *)
Theorem put_get_deliver (a : Directory.Account) l s name content script id more :
  served a l s → name ≠ [] → compile default_compiler_limits content = inr script →
  (name ∈ ss_name <$> l ∨ (length l < MAX_SCRIPTS)%nat) → ms_ids s = id :: more → fmt_dec id ∉ ss_id <$> l →
  ∃ s' l' x,
    dispatch policy clk [Atom (bs "PUTSCRIPT"); Str name; Str content] s = (Ok None, s') ∧
    output (ms_stream s') = output (ms_stream s) ++ ok_text "Putscript completed" ∧
    served a l' s' ∧ List.find (named name) l' = Some x ∧ others name l' = others name l ∧
    dispatch policy clk [Atom (bs "GETSCRIPT"); Str name] s'
    = (Ok None, said (ok_text "Getscript completed") (said (script_reply content) s')) ∧
    (ss_active x = true →
       (∀ c, delivery_script (ac_id a) (ms_store s') = Some c → c = mkCompiled content script) ∧
       (ss_rules x = None → str_trim content ≠ [] → delivery_script (ac_id a) (ms_store s') = Some (mkCompiled content script))).
Proof.
  intros Hs Hname Hc Hroom Eids Hid.
  destruct (served_put a l s Hs name content script id more Hname Hc Hroom Eids Hid) as (s1 & l' & x & E & Hout & Hsv & Hx & Hn & Hsrc & Hoth).
  exists (said (ok_text "Putscript completed") s1), l', x.
  assert (List.find (named name) l' = Some x) as Hf by (rewrite <-Hn; apply find_named_in; [apply (sv_orderly _ _ _ Hsv)|done]).
  split; [|split; [|split; [exact Hsv|split; [exact Hf|split; [exact Hoth|split]]]]].
  - unfold dispatch. rewrite (bool_decide_true (ms_state s = _)) by apply Hs.
    change (then_none (run_putscript [Atom (bs "PUTSCRIPT"); Str name; Str content]) s
      = (Ok None, said (ok_text "Putscript completed") s1)).
    unfold then_none, mbind, M_bind. rewrite E. reflexivity.
  - unfold said. simpl. by rewrite Hout.
  - rewrite (served_get a l' _ Hsv name x Hf), Hsrc. reflexivity.
  - intros Ha. unfold delivery_script. rewrite list_at, (sv_scripts _ _ _ Hsv) by apply Hsv.
    exact (delivered_active l' x content script (sv_orderly _ _ _ Hsv) Hx Ha Hsrc Hc).
Qed.
End put.

(** ** Concrete connections *)

From S2P Require Import DirectoryHistory DirectoryDemo Pop3Maildrop.
From stdpp Require Import countable.
Open Scope Z_scope.
Import DirectoryInstances.

(** *** JSON *)

(** A text or a truth value is a leaf, an array a node, an object a node of
    its names and values in turn. *)
Definition demo_value : Type := gen_tree (bytes + bool).
Definition demo_members (v : demo_value) : list (bytes * demo_value) :=
  match v with
  | GenNode 1 l => omap (λ m, match m with GenNode _ [GenLeaf (inl k); x] => Some (k, x) | _ => None end) l
  | _ => []
  end.
#[global] Instance tree_values : JsonValue := {|
  Value := demo_value;
  value_get k v := snd <$> List.find (λ kv, bool_decide (kv.1 = k)) (demo_members v);
  value_as_str v := match v with GenLeaf (inl b) => Some b | _ => None end;
  value_as_bool v := match v with GenLeaf (inr b) => Some b | _ => None end;
  value_as_array v := match v with GenNode 0 l => Some l | _ => None end;
|}.
Definition demo_rows : Json (list demo_value) := number_json.
#[global] Instance tree_writer : JsonWriter := {|
  value_of_str b := GenLeaf (inl b) : demo_value;
  value_of_bool b := GenLeaf (inr b) : demo_value;
  value_of_object kvs := GenNode 1 ((λ kv, GenNode 0 [GenLeaf (inl kv.1); kv.2]) <$> kvs) : demo_value;
  json_values := demo_rows;
|}.
#[global] Instance tree_laws : JsonWriterLaws.
Proof.
  split; try done.
  - intros kvs k _. simpl. f_equal. f_equal. induction kvs as [|[k' v] kvs IH]; [done|]. simpl. f_equal. exact IH.
  - intros l. eexists. split; [reflexivity|]. simpl. by rewrite decode_encode.
Qed.

(** ** A connection *)

Definition q (s : string) : bytes := [34] ++ bs s ++ [34].
Definition log_in : bytes :=
  bs "AUTHENTICATE " ++ q "PLAIN" ++ bs " " ++ [34; 0] ++ bs "bob@example.org" ++ [0] ++ bs "secret" ++ [34] ++ CRLF.
Definition ms_demo (input : bytes) : ManageSieve.Session MemStore :=
  ms_new (mkStream input None [] []) (bs "192.0.2.1") true served_store (mkThrottle ∅ 0) [101; 102; 103].
Abbreviation ms_run_demo := (ms_run (S := MemStore) default_policy Z.of_nat).
Definition ms_answers (input : bytes) : bytes := output (ms_stream (ms_run_demo (ms_demo input)).2).
Definition ms_hello : bytes := ms_answers [].
Definition ok_ (text : string) : bytes := ok_text text.

Definition put_dialogue : bytes :=
  log_in ++ bs "PUTSCRIPT " ++ q "mine" ++ line " {5+}" ++ line "keep;" ++ line "LISTSCRIPTS" ++ bs "GETSCRIPT " ++ q "mine" ++ CRLF
  ++ line "LOGOUT".
Lemma put_dialogue_log :
  ms_answers put_dialogue
  = ms_hello ++ ok_ "Authenticated" ++ ok_ "Putscript completed" ++ q "mine" ++ line " ACTIVE" ++ ok_ "Listscripts completed"
    ++ line "{5}" ++ line "keep;" ++ ok_ "Getscript completed" ++ ok_ "Bye".
Proof. vm_compute. reflexivity. Qed.

(** A store without scripts. *)
Lemma no_script_rows k : k !! 1%nat = Some TAG_SIEVE_SCRIPT → mem_map served_store !! k = None.
Proof.
  assert (Forall (λ k : bytes, k !! 1%nat ≠ Some TAG_SIEVE_SCRIPT) (map_to_list (mem_map served_store)).*1) as Hall.
  { apply (bool_decide_unpack _). vm_compute. exact I. }
  revert Hall. generalize (mem_map served_store). intros m Hall Hk. destruct (m !! k) as [v|] eqn:E; [|reflexivity].
  exfalso. rewrite Forall_forall in Hall. apply (Hall k); [|exact Hk]. apply list_elem_of_In, list_elem_of_fmap. exists (k, v).
  split; [reflexivity|by apply elem_of_map_to_list].
Qed.
Lemma no_scripts a : scripts_at a served_store = Ok [].
Proof.
  unfold scripts_at. change (view served_store) with (mem_map served_store). rewrite no_script_rows; reflexivity.
Qed.
Lemma demo_healthy : healthy served_store.
Proof. exact I. Qed.
Lemma demo_sound : ms_sound [101; 102; 103] served_store.
Proof.
  split; [by apply (bool_decide_unpack _); vm_compute|]. intros a l. rewrite no_scripts. intros [= <-]. split.
  - split; simpl; [constructor..|lia|constructor].
  - intros y Hy. by apply not_elem_of_nil in Hy.
Qed.

(** The client logs in and puts a script; the store has changed, so it was a
    change of the scripts of an account it opened. *)
Lemma managesieve_session_safe_witness :
  let finished := ms_run_demo (ms_demo put_dialogue) in
  history (ms_entitled (ms_demo put_dialogue)) served_store (ms_store finished.2) ∧
  (∃ a, ms_entitled (ms_demo put_dialogue) a) ∧ is_ok finished.1 = true.
Proof.
  cbv zeta. destruct (managesieve_session_safe default_policy Z.of_nat (ms_demo put_dialogue) (ms_run_demo (ms_demo put_dialogue)).2
    (ms_run_demo (ms_demo put_dialogue)).1 eq_refl demo_healthy demo_sound (surjective_pairing _)) as (Hh & _).
  split; [exact Hh|]. split; [|vm_compute; reflexivity].
  assert (ms_store (ms_run_demo (ms_demo put_dialogue)).2 ≠ served_store) as Hne.
  { intros E. apply (f_equal (λ x, view x !! record_key 7)) in E. vm_compute in E. discriminate E. }
  destruct Hh as [|x y a l l' _ Ha _ _ _ _]; [by destruct Hne|by exists a].
Defined.

(** ** Putting a script *)

Definition logged_in : ManageSieve.Session MemStore := with_login Authenticated (Some bob) (ms_demo []).
Lemma logged_in_served : ManageSieveRun.served bob [] logged_in.
Proof.
  split; [reflexivity..|exact demo_healthy|apply no_scripts|]. split; simpl; [constructor..|lia|constructor].
Qed.
Definition keep_script : Script := mkScript [Sieve.Keep] [].
Lemma put_get_deliver_witness :
  ∃ s' l' x,
    dispatch default_policy Z.of_nat [Atom (bs "PUTSCRIPT"); Str (bs "mine"); Str (bs "keep;")] logged_in = (Ok None, s') ∧
    ManageSieveRun.served bob l' s' ∧ List.find (named (bs "mine")) l' = Some x ∧
    dispatch default_policy Z.of_nat [Atom (bs "GETSCRIPT"); Str (bs "mine")] s'
    = (Ok None, said (ok_text "Getscript completed") (said (script_reply (bs "keep;")) s')).
Proof.
  destruct (put_get_deliver default_policy Z.of_nat bob [] logged_in (bs "mine") (bs "keep;") keep_script 101 [102; 103] logged_in_served)
    as (s' & l' & x & E & _ & Hs & Hx & _ & Hg & _).
  - done.
  - by vm_compute.
  - right. vm_compute. lia.
  - done.
  - apply not_elem_of_nil.
  - exists s', l', x. exact (conj E (conj Hs (conj Hx Hg))).
Defined.

(** *** Findings *)

(** A script without a name.  PUTSCRIPT refuses an empty name because a script
    needs one, RENAMESCRIPT accepts it; the script that lost its name cannot be
    made active again, since SETACTIVE of the empty name makes none active. *)
Theorem rename_to_nothing :
  ms_answers (log_in ++ bs "PUTSCRIPT " ++ q "mine" ++ bs " " ++ q "keep;" ++ CRLF ++ bs "RENAMESCRIPT " ++ q "mine" ++ bs " " ++ q "" ++ CRLF
    ++ bs "SETACTIVE " ++ q "" ++ CRLF ++ line "LISTSCRIPTS")
  = ms_hello ++ ok_ "Authenticated" ++ ok_ "Putscript completed" ++ ok_ "Renamescript completed" ++ ok_ "Setactive completed"
    ++ q "" ++ CRLF ++ ok_ "Listscripts completed".
Proof. vm_compute. reflexivity. Qed.

(** The text of a script runs as commands.  When the first literal of a
    command is not UTF-8 the command is refused without reading away the
    second one, whose lines are then taken for commands. *)
Theorem literal_runs_as_command :
  ms_answers (log_in ++ bs "PUTSCRIPT " ++ q "mine" ++ bs " " ++ q "keep;" ++ CRLF ++ bs "SETACTIVE " ++ q "" ++ CRLF
    ++ line "PUTSCRIPT {1+}" ++ [255] ++ line " {19+}" ++ line "DELETESCRIPT mine" ++ line "")
  = ms_hello ++ ok_ "Authenticated" ++ ok_ "Putscript completed" ++ ok_ "Setactive completed"
    ++ response_line (bs "NO") None (bs "script is not valid utf-8") ++ ok_ "Deletescript completed".
Proof. vm_compute. reflexivity. Qed.
