(* ===== verification/ImapParser.v ===== *)
(** * IMAP: the command line (crates/imap/src/parser.rs)

    The tokenizer works on what is left of the line.  Its loops are not bounded
    by the input: a tab where a token is expected is neither skipped nor taken,
    so they carry fuel, and [Starved] is a loop that has not ended.  The
    theorems: without tabs the tokenizer ends within twice the length of the
    line; with one it never does; and a name as LIST prints it is read back. *)

From S2P Require Import Prelude Bytes Text.
From stdpp Require Import base list strings.
From Stdlib Require Import ZArith Lia.

Open Scope Z_scope.

Inductive Token : Type :=
  | TAtom (value : bytes)
  | TQuoted (value : bytes)
  | TList (items : list Token)
  | TLiteral (len : Z) (sync : bool)
  | TLiteralValue (octets : bytes)
  | TNil.
Record Command : Type := mkCommand { cmd_tag : bytes; cmd_name : bytes; cmd_args : list Token }.

(** [Token::as_str] and [Token::as_list]. *)
Definition as_str (t : Token) : option bytes :=
  match t with
  | TAtom value | TQuoted value => Some value
  | TLiteralValue octets => if utf8_valid octets then Some octets else None
  | _ => None
  end.
Definition as_list (t : Token) : option (list Token) := match t with TList items => Some items | _ => None end.

Inductive ParseError : Type :=
  | PeEmpty | PeMissingTag | PeMissingCommand | PeUnterminatedQuoted | PeUnterminatedList | PeUnbalancedParen | PeBadLiteral.
Definition parse_error_text (e : ParseError) : bytes :=
  match e with
  | PeEmpty => bs "empty command line"
  | PeMissingTag => bs "missing command tag"
  | PeMissingCommand => bs "missing command name"
  | PeUnterminatedQuoted => bs "unterminated quoted string"
  | PeUnterminatedList => bs "unterminated parenthesized list"
  | PeUnbalancedParen => bs "unbalanced parenthesis"
  | PeBadLiteral => bs "malformed literal length"
  end.

(** A token and what follows it, an error, or no end. *)
Inductive scan (A : Type) : Type :=
  | Scanned (a : A) (rest : bytes)
  | Malformed (e : ParseError)
  | Starved.
Arguments Scanned {A} _ _.
Arguments Malformed {A} _.
Arguments Starved {A}.

Definition QUOTE : Z := 34.
Definition BACKSLASH : Z := 92.
Definition is_atom_byte (b : Z) : bool :=
  negb ((b =? 32) || (b =? 9) || (b =? 40) || (b =? 41) || (b =? QUOTE) || (b =? 123)).
Definition skip_spaces (s : bytes) : bytes := drop_while (λ b, b =? 32) s.

Fixpoint scan_quoted (s buf : bytes) : scan Token :=
  match s with
  | [] => Malformed PeUnterminatedQuoted
  | b :: s =>
      if b =? QUOTE then Scanned (TQuoted (utf8_lossy buf)) s
      else if b =? BACKSLASH then
        match s with
        | [] => Malformed PeUnterminatedQuoted
        | escaped :: s => scan_quoted s (buf ++ [escaped])
        end
      else scan_quoted s (buf ++ [b])
  end.
Definition scan_literal (s : bytes) : scan Token :=
  let digits := take_while is_digit s in
  let s := drop_while is_digit s in
  if bool_decide (digits = []) then Malformed PeBadLiteral
  else
    let '(sync, s) := match s with b :: s' => if b =? 43 then (false, s') else (true, s) | [] => (true, s) end in
    match s with
    | b :: s' =>
        if negb (b =? 125) then Malformed PeBadLiteral
        else if negb (bool_decide (s' = [])) then Malformed PeBadLiteral
        else match parse_u32 digits with Some n => Scanned (TLiteral n sync) s' | None => Malformed PeBadLiteral end
    | [] => Malformed PeBadLiteral
    end.
Definition scan_atom (s : bytes) : scan Token :=
  let raw := take_while is_atom_byte s in
  Scanned (if eq_ignore_ascii_case raw (bs "NIL") then TNil else TAtom (utf8_lossy raw)) (drop_while is_atom_byte s).

Fixpoint scan_token (fuel : nat) (s : bytes) : scan Token :=
  match fuel with
  | O => Starved
  | S fuel =>
      match s with
      | [] => scan_atom s
      | b :: r =>
          if b =? 40 then scan_list fuel r []
          else if b =? QUOTE then scan_quoted r []
          else if b =? 123 then scan_literal r
          else if b =? 41 then Malformed PeUnbalancedParen
          else scan_atom s
      end
  end
with scan_list (fuel : nat) (s : bytes) (items : list Token) : scan Token :=
  match fuel with
  | O => Starved
  | S fuel =>
      match skip_spaces s with
      | [] => Malformed PeUnterminatedList
      | b :: r =>
          if b =? 41 then Scanned (TList items) r
          else match scan_token fuel (b :: r) with
               | Scanned t rest => scan_list fuel rest (items ++ [t])
               | Malformed e => Malformed e
               | Starved => Starved
               end
      end
  end.
(** [Tokenizer::tokens]. *)
Fixpoint scan_tokens (fuel : nat) (s : bytes) (out : list Token) : scan (list Token) :=
  match fuel with
  | O => Starved
  | S fuel =>
      match skip_spaces s with
      | [] => Scanned out []
      | s => match scan_token fuel s with
             | Scanned t rest => scan_tokens fuel rest (out ++ [t])
             | Malformed e => Malformed e
             | Starved => Starved
             end
      end
  end.

(** [strip_crlf] of parser.rs and of session.rs. *)
Definition strip_one (b : Z) (s : bytes) : bytes := default s (Text.strip_suffix [b] s).
Definition strip_crlf (l : bytes) : bytes := strip_one CR (strip_one LF l).
Definition tokenize_args (fuel : nat) (input : bytes) : scan (list Token) := scan_tokens fuel (strip_crlf input) [].

Definition parse_command (fuel : nat) (l : bytes) : scan Command :=
  let l := strip_crlf l in
  if bool_decide (l = []) then Malformed PeEmpty
  else
    match find_byte 32 l with
    | None => Malformed PeMissingCommand
    | Some tag_end =>
        let tag := take tag_end l in
        if bool_decide (tag = []) then Malformed PeMissingTag
        else
          let after_tag := skip_spaces (drop (S tag_end) l) in
          if bool_decide (after_tag = []) then Malformed PeMissingCommand
          else
            let name := take_while (λ b, negb (b =? 32)) after_tag in
            match scan_tokens fuel (drop (S (length name)) after_tag) [] with
            | Scanned args rest => Scanned (mkCommand (utf8_lossy tag) (utf8_lossy name) args) rest
            | Malformed e => Malformed e
            | Starved => Starved
            end
    end.

(** Fuel for a line of this length. *)
Definition line_fuel (l : bytes) : nat := 2 * length l + 2.

(** [cmd_list::quoted]: a name as it is printed. *)
Definition escape_bytes (c : Z) (by_ s : bytes) : bytes := s ≫= λ b, if b =? c then by_ else [b].
Definition quoted (name : bytes) : bytes :=
  [QUOTE] ++ escape_bytes QUOTE [BACKSLASH; QUOTE] (escape_bytes BACKSLASH [BACKSLASH; BACKSLASH] name) ++ [QUOTE].

(** ** The tokenizer ends *)

Lemma drop_while_suffix p s : ∃ l, s = l ++ drop_while p s.
Proof. induction s as [|b s [l E]]; simpl; [by exists []|]. destruct (p b); [exists (b :: l); by rewrite E at 1|by exists []]. Qed.
Lemma skip_spaces_head s b r : skip_spaces s = b :: r → b ≠ 32.
Proof. unfold skip_spaces. induction s as [|c s IH]; simpl; [done|]. destruct (Z.eqb_spec c 32); [done|]. by intros [= <- _]. Qed.
Lemma skip_spaces_cons b r : b ≠ 32 → skip_spaces (b :: r) = b :: r.
Proof. intros Hb. unfold skip_spaces. simpl. by rewrite (proj2 (Z.eqb_neq _ _) Hb). Qed.

(** What is left after a token is an end of the input, and a shorter one. *)
Definition left_of (s rest : bytes) : Prop := ∃ l, l ≠ [] ∧ s = l ++ rest.
Lemma left_of_trans s t u : left_of s t → (∃ l, t = l ++ u) → left_of s u.
Proof. intros (l & Hl & ->) (m & ->). exists (l ++ m). split; [by destruct l|by rewrite <-app_assoc]. Qed.
Lemma left_of_cons b s : left_of (b :: s) s.
Proof. by exists [b]. Qed.
Lemma left_of_suffix s t : left_of s t → ∃ l, s = l ++ t.
Proof. intros (l & _ & ->). by exists l. Qed.
Lemma left_of_length s t : left_of s t → (length t < length s)%nat.
Proof. intros (l & Hl & ->). rewrite length_app. destruct l; [done|]. simpl. lia. Qed.
Lemma left_of_weaken s t u : (∃ l, s = l ++ t) → left_of t u → left_of s u.
Proof. intros (l & ->) (m & Hm & ->). exists (l ++ m). split; [by destruct l, m|by rewrite <-app_assoc]. Qed.
Lemma no_tab_suffix (s t : bytes) : 9 ∉ s → (∃ l, s = l ++ t) → 9 ∉ t.
Proof. intros Hs (l & ->) Ht. apply Hs, elem_of_app. by right. Qed.

Lemma scan_quoted_left s buf t rest : scan_quoted s buf = Scanned t rest → left_of s rest.
Proof.
  remember (length s) as n eqn:Hn. revert s buf Hn. induction n as [n IH] using lt_wf_ind. intros s buf ->.
  destruct s as [|b s]; simpl; [done|]. destruct (b =? QUOTE); [intros [= _ <-]; apply left_of_cons|].
  destruct (b =? BACKSLASH).
  - destruct s as [|e s]; [done|]. intros E. apply (IH (length s)) in E; [|simpl; lia|done].
    apply (left_of_weaken _ s); [by exists [b; e]|done].
  - intros E. apply (IH (length s)) in E; [|simpl; lia|done]. apply (left_of_weaken _ s); [by exists [b]|done].
Qed.
Lemma scan_literal_left s t rest : scan_literal s = Scanned t rest → left_of s rest.
Proof.
  unfold scan_literal. destruct (drop_while_suffix is_digit s) as [l El]. case_bool_decide as Ed; [done|].
  set (s1 := drop_while is_digit s) in *.
  assert (∀ sync s2, (match s1 with b :: s' => if b =? 43 then (false, s') else (true, s1) | [] => (true, s1) end) = (sync, s2) → ∃ m, s1 = m ++ s2) as Hs2.
  { intros sync s2. destruct s1 as [|b s1']; [intros [= _ <-]; by exists []|]. destruct (b =? 43); intros [= _ <-]; [by exists [b]|by exists []]. }
  destruct (match s1 with [] => _ | _ :: _ => _ end) as [sync s2]. destruct (Hs2 sync s2 eq_refl) as [m Em].
  destruct s2 as [|b s3]; [done|]. destruct (negb _); [done|]. destruct (negb _); [done|].
  destruct (parse_u32 _); [|done]. intros [= _ <-]. exists (l ++ m ++ [b]). split; [by destruct l, m|]. rewrite El, Em, <-!app_assoc. done.
Qed.
Lemma scan_atom_left b r t rest : is_atom_byte b = true → scan_atom (b :: r) = Scanned t rest → left_of (b :: r) rest.
Proof.
  intros Hb [= _ <-]. rewrite Hb. destruct (drop_while_suffix is_atom_byte r) as [l El].
  exists (b :: l). split; [done|]. by rewrite El at 1.
Qed.
Lemma atom_byte b : b ≠ 9 → b ≠ 32 → (b =? 40) = false → (b =? QUOTE) = false → (b =? 123) = false → (b =? 41) = false → is_atom_byte b = true.
Proof. unfold is_atom_byte. intros ?%Z.eqb_neq ?%Z.eqb_neq -> -> -> ->. by rewrite H, H0. Qed.

Lemma scan_left fuel :
  (∀ b r t rest, b ≠ 9 → b ≠ 32 → 9 ∉ r → scan_token fuel (b :: r) = Scanned t rest → left_of (b :: r) rest) ∧
  (∀ s items t rest, 9 ∉ s → scan_list fuel s items = Scanned t rest → left_of s rest).
Proof.
  induction fuel as [|fuel [IHt IHl]]; [by split|]. split.
  - intros b r t rest Hb9 Hb32 Hr. cbn [scan_token].
    destruct (b =? 40) eqn:E1; [intros E%IHl; [|done]; apply (left_of_weaken _ r); [by exists [b]|done]|].
    destruct (b =? QUOTE) eqn:E2; [intros E%scan_quoted_left; apply (left_of_weaken _ r); [by exists [b]|done]|].
    destruct (b =? 123) eqn:E3; [intros E%scan_literal_left; apply (left_of_weaken _ r); [by exists [b]|done]|].
    destruct (b =? 41) eqn:E4; [done|]. apply scan_atom_left. by apply atom_byte.
  - intros s items t rest Hs. cbn [scan_list]. destruct (drop_while_suffix (λ b, b =? 32) s) as [l El]. fold (skip_spaces s) in El.
    destruct (skip_spaces s) as [|b r] eqn:Ek; [done|]. pose proof (skip_spaces_head _ _ _ Ek) as H32.
    pose proof (no_tab_suffix s _ Hs (ex_intro _ l El)) as Hbr. apply not_elem_of_cons in Hbr as [H9 Hr].
    destruct (b =? 41); [intros [= _ <-]; apply (left_of_weaken _ (b :: r)); [by exists l|apply left_of_cons]|].
    destruct (scan_token fuel (b :: r)) as [t1 r1| |] eqn:Et; [|done|done]. apply IHt in Et; [|done..]. intros E%IHl.
    + apply (left_of_weaken _ (b :: r)); [by exists l|]. eapply left_of_trans; [exact Et|by apply left_of_suffix].
    + eapply no_tab_suffix; [|by apply left_of_suffix]. by apply not_elem_of_cons.
Qed.

(** Twice the length of the line is fuel enough, and more changes nothing. *)
Lemma scan_quoted_ends s buf : scan_quoted s buf ≠ Starved.
Proof.
  remember (length s) as n eqn:Hn. revert s buf Hn. induction n as [n IH] using lt_wf_ind. intros s buf ->.
  destruct s as [|b s]; simpl; [done|]. destruct (b =? QUOTE); [done|]. destruct (b =? BACKSLASH).
  - destruct s as [|e s]; [done|]. apply (IH (length s)); [simpl; lia|done].
  - apply (IH (length s)); [simpl; lia|done].
Qed.
Lemma scan_literal_ends s : scan_literal s ≠ Starved.
Proof.
  unfold scan_literal. case_bool_decide; [done|]. destruct (match drop_while is_digit s with [] => _ | _ :: _ => _ end) as [sync s2].
  by repeat case_match.
Qed.
Lemma scan_ends fuel :
  (∀ b r, b ≠ 9 → b ≠ 32 → 9 ∉ r → (2 * length r + 3 ≤ fuel)%nat → scan_token fuel (b :: r) ≠ Starved) ∧
  (∀ s items, 9 ∉ s → (2 * length s + 2 ≤ fuel)%nat → scan_list fuel s items ≠ Starved).
Proof.
  induction fuel as [|fuel [IHt IHl]]; [split; intros; lia|]. split.
  - intros b r Hb9 Hb32 Hr Hf. cbn [scan_token]. destruct (b =? 40); [apply IHl; [done|lia]|].
    destruct (b =? QUOTE); [apply scan_quoted_ends|]. destruct (b =? 123); [apply scan_literal_ends|]. by destruct (b =? 41).
  - intros s items Hs Hf. cbn [scan_list]. destruct (drop_while_suffix (λ b, b =? 32) s) as [l El]. fold (skip_spaces s) in El.
    destruct (skip_spaces s) as [|b r] eqn:Ek; [done|]. pose proof (skip_spaces_head _ _ _ Ek) as H32.
    pose proof (no_tab_suffix s _ Hs (ex_intro _ l El)) as Hbr. pose proof Hbr as [H9 Hr]%not_elem_of_cons.
    assert (S (length r) ≤ length s)%nat as Hlen by (rewrite El, length_app; simpl; lia).
    destruct (b =? 41); [done|]. pose proof (IHt b r (not_eq_sym H9) H32 Hr) as Hne.
    destruct (scan_token fuel (b :: r)) as [t1 r1| |] eqn:Et; [|done|apply Hne; lia].
    apply scan_left in Et as Hleft; [|done..]. apply left_of_length in Hleft as Hl. simpl in Hl. apply IHl; [|lia].
    eapply no_tab_suffix; [exact Hbr|by apply left_of_suffix].
Qed.
Lemma scan_more fuel :
  (∀ fuel' s, (fuel ≤ fuel')%nat → scan_token fuel s ≠ Starved → scan_token fuel' s = scan_token fuel s) ∧
  (∀ fuel' s items, (fuel ≤ fuel')%nat → scan_list fuel s items ≠ Starved → scan_list fuel' s items = scan_list fuel s items).
Proof.
  induction fuel as [|fuel [IHt IHl]]; [by split|]. split.
  - intros [|fuel'] s Hf; [lia|]. cbn [scan_token]. destruct s as [|b r]; [done|]. repeat case_match; try done. apply IHl. lia.
  - intros [|fuel'] s items Hf; [lia|]. cbn [scan_list]. destruct (skip_spaces s) as [|b r]; [done|]. destruct (b =? 41); [done|].
    destruct (scan_token fuel (b :: r)) as [t1 r1|e|] eqn:Et; rewrite ?(IHt fuel' (b :: r)), ?Et by (lia || congruence); [apply IHl; lia|done|done].
Qed.
Lemma scan_tokens_ends fuel s out : 9 ∉ s → (2 * length s + 2 ≤ fuel)%nat → scan_tokens fuel s out ≠ Starved.
Proof.
  revert s out. induction fuel as [|fuel IH]; intros s out Hs Hf; [lia|]. cbn [scan_tokens].
  destruct (drop_while_suffix (λ b, b =? 32) s) as [l El]. fold (skip_spaces s) in El.
  destruct (skip_spaces s) as [|b r] eqn:Ek; [done|]. pose proof (skip_spaces_head _ _ _ Ek) as H32.
  pose proof (no_tab_suffix s _ Hs (ex_intro _ l El)) as Hbr. pose proof Hbr as [H9 Hr]%not_elem_of_cons.
  assert (S (length r) ≤ length s)%nat as Hlen by (rewrite El, length_app; simpl; lia).
  pose proof (proj1 (scan_ends fuel) b r (not_eq_sym H9) H32 Hr) as Hne.
  destruct (scan_token fuel (b :: r)) as [t1 r1| |] eqn:Et; [|done|by destruct Hne; [lia|]].
  apply scan_left in Et as Hleft; [|done..]. apply left_of_length in Hleft as Hl. simpl in Hl. apply IH; [|lia].
  eapply no_tab_suffix; [exact Hbr|by apply left_of_suffix].
Qed.
Lemma scan_tokens_more fuel fuel' s out : (fuel ≤ fuel')%nat → scan_tokens fuel s out ≠ Starved → scan_tokens fuel' s out = scan_tokens fuel s out.
Proof.
  revert fuel' s out. induction fuel as [|fuel IH]; intros [|fuel'] s out Hf; [done|done|lia|]. cbn [scan_tokens].
  destruct (skip_spaces s) as [|b r]; [done|].
  destruct (scan_token fuel (b :: r)) as [t1 r1|e|] eqn:Et; [| |done]; rewrite (proj1 (scan_more fuel) fuel' (b :: r)), Et by (lia || congruence);
    [apply IH; lia|done].
Qed.

(** A tab where a token is expected is never passed. *)
Lemma scan_token_tab fuel r : scan_token (S fuel) (9 :: r) = Scanned (TAtom []) (9 :: r).
Proof. done. Qed.
Lemma scan_tokens_tab fuel s r out : skip_spaces s = 9 :: r → scan_tokens fuel s out = Starved.
Proof.
  revert s out. induction fuel as [|fuel IH]; intros s out Hs; [done|]. cbn [scan_tokens]. rewrite Hs.
  destruct fuel as [|fuel]; [done|]. rewrite scan_token_tab. by apply IH.
Qed.

Lemma strip_one_cases b s : (∃ t, s = t ++ [b] ∧ strip_one b s = t) ∨ ((∀ t, s ≠ t ++ [b]) ∧ strip_one b s = s).
Proof.
  unfold strip_one. destruct (Text.strip_suffix [b] s) as [t|] eqn:E; [left|right].
  - apply strip_suffix_iff in E. by exists t.
  - split; [|done]. intros t ->. by rewrite strip_suffix_app in E.
Qed.
Lemma strip_one_tail b p c r : c ≠ b → strip_one b (p ++ c :: r) = p ++ c :: strip_one b r.
Proof.
  intros Hc. destruct (strip_one_cases b r) as [(t & -> & ->)|[Hno ->]].
  - rewrite app_comm_cons, app_assoc. unfold strip_one. by rewrite strip_suffix_app.
  - destruct (strip_one_cases b (p ++ c :: r)) as [(t & E & _)|[_ ->]]; [|done]. exfalso.
    destruct r as [|x r _] using rev_ind; [apply app_inj_2 in E as [_ E]; [congruence|done]|].
    rewrite app_comm_cons, app_assoc in E. apply app_inj_2 in E as [_ [= ->]]; [|done]. by apply (Hno r).
Qed.
Lemma strip_crlf_tail p c r : c ≠ CR → c ≠ LF → strip_crlf (p ++ c :: r) = p ++ c :: strip_crlf r.
Proof. intros ? ?. unfold strip_crlf. by rewrite !strip_one_tail. Qed.

(** ** Names as they are printed *)

Lemma scan_quoted_name name buf rest :
  scan_quoted (escape_bytes QUOTE [BACKSLASH; QUOTE] (escape_bytes BACKSLASH [BACKSLASH; BACKSLASH] name) ++ QUOTE :: rest) buf
  = Scanned (TQuoted (utf8_lossy (buf ++ name))) rest.
Proof.
  revert buf. induction name as [|b name IH]; intros buf; simpl; [by rewrite app_nil_r|].
  unfold escape_bytes in *. cbn [mbind list_bind]. destruct (Z.eqb_spec b BACKSLASH) as [->|H1].
  - simpl. rewrite IH, <-app_assoc. done.
  - simpl. destruct (Z.eqb_spec b QUOTE) as [->|H2]; simpl.
    + rewrite IH, <-app_assoc. done.
    + rewrite (proj2 (Z.eqb_neq b QUOTE)), (proj2 (Z.eqb_neq b BACKSLASH)) by done. rewrite IH, <-app_assoc. done.
Qed.
Lemma find_byte_app c p q : c ∉ p → find_byte c (p ++ c :: q) = Some (length p).
Proof.
  induction p as [|b p IH]; intros Hp; simpl; [by rewrite Z.eqb_refl|]. apply not_elem_of_cons in Hp as [Hb Hp].
  rewrite (proj2 (Z.eqb_neq b c)), IH by done. done.
Qed.
Lemma take_while_app (p : Z → bool) l c r : forallb p l = true → p c = false → take_while p (l ++ c :: r) = l.
Proof. induction l as [|b l IH]; simpl; [by intros _ ->|]. intros [-> Hl]%andb_true_iff Hc. by rewrite IH. Qed.
Lemma words_no_space l : 32 ∉ l → forallb (λ b, negb (b =? 32)) l = true.
Proof. intros Hl. apply forallb_forall. intros b Hb%list_elem_of_In. destruct (Z.eqb_spec b 32); [by subst|done]. Qed.

(** The line of a tagged command, cut into its parts. *)
Lemma parse_command_line fuel tag verb c args :
  tag ≠ [] → 32 ∉ tag → verb ≠ [] → 32 ∉ verb → c ≠ CR → c ≠ LF →
  parse_command fuel (tag ++ 32 :: verb ++ 32 :: c :: args)
  = match scan_tokens fuel (c :: strip_crlf args) [] with
    | Scanned ts rest => Scanned (mkCommand (utf8_lossy tag) (utf8_lossy verb) ts) rest
    | Malformed e => Malformed e
    | Starved => Starved
    end.
Proof.
  intros Ht Ht32 Hv Hv32 Hc1 Hc2. unfold parse_command.
  replace (tag ++ 32 :: verb ++ 32 :: c :: args) with ((tag ++ 32 :: verb ++ [32]) ++ c :: args) by (by rewrite <-app_assoc; simpl; rewrite <-app_assoc).
  rewrite strip_crlf_tail by done. rewrite bool_decide_false by (by destruct tag).
  replace ((tag ++ 32 :: verb ++ [32]) ++ c :: strip_crlf args) with (tag ++ 32 :: verb ++ 32 :: c :: strip_crlf args) by (by rewrite <-app_assoc; simpl; rewrite <-app_assoc).
  rewrite find_byte_app, take_app_length by done. rewrite bool_decide_false by done.
  rewrite drop_app, drop_ge, Nat.sub_succ_l, Nat.sub_diag by lia. simpl.
  destruct verb as [|v verb]; [done|]. apply not_elem_of_cons in Hv32 as [Hv0 Hv32]. simpl.
  rewrite skip_spaces_cons by done. rewrite bool_decide_false by done. simpl.
  rewrite (proj2 (Z.eqb_neq v 32)) by done. simpl. rewrite take_while_app by (done || by apply words_no_space).
  rewrite drop_app, drop_ge, Nat.sub_succ_l, Nat.sub_diag by lia. simpl.
  by destruct (scan_tokens fuel (c :: strip_crlf args) []).
Qed.

(** A line is refused before its arguments are read, or they are a part of it. *)
Definition with_args (tag verb : bytes) (r : scan (list Token)) : scan Command :=
  match r with
  | Scanned args rest => Scanned (mkCommand (utf8_lossy tag) (utf8_lossy verb) args) rest
  | Malformed e => Malformed e
  | Starved => Starved
  end.
Lemma strip_one_prefix b s : ∃ q, s = strip_one b s ++ q.
Proof. destruct (strip_one_cases b s) as [(t & -> & ->)|[_ ->]]; [by exists [b]|exists []; by rewrite app_nil_r]. Qed.
Lemma strip_crlf_prefix s : ∃ q, s = strip_crlf s ++ q.
Proof.
  destruct (strip_one_prefix LF s) as [q Eq], (strip_one_prefix CR (strip_one LF s)) as [q' Eq'].
  exists (q' ++ q). unfold strip_crlf. by rewrite app_assoc, <-Eq', <-Eq.
Qed.
Lemma parse_command_cases l :
  (∃ e, ∀ fuel, parse_command fuel l = Malformed e) ∨
  (∃ tag verb p s q, l = p ++ s ++ q ∧ ∀ fuel, parse_command fuel l = with_args tag verb (scan_tokens fuel s [])).
Proof.
  unfold parse_command. destruct (strip_crlf_prefix l) as [q Eq]. set (s := strip_crlf l) in *.
  case_bool_decide; [left; by eexists|]. destruct (find_byte 32 s) as [n|]; [|left; by eexists].
  case_bool_decide; [left; by eexists|]. case_bool_decide; [left; by eexists|]. right.
  set (r := skip_spaces (drop (S n) s)). set (name := take_while _ r). destruct (drop_while_suffix (λ b, b =? 32) (drop (S n) s)) as [k Ek].
  fold (skip_spaces (drop (S n) s)) in Ek. fold r in Ek.
  exists (take n s), name, (take (S n) s ++ k ++ take (S (length name)) r), (drop (S (length name)) r), q.
  split; [|done]. rewrite Eq, <-!app_assoc. rewrite (app_assoc _ _ q), (take_drop _ r), (app_assoc k), <-Ek, app_assoc, take_drop. done.
Qed.
Lemma no_tab_part (p s q : bytes) : 9 ∉ p ++ s ++ q → 9 ∉ s.
Proof. rewrite !elem_of_app. tauto. Qed.

(** ** The properties *)

(** A line without a tab is read to its end: [parse_command] neither loops
    nor depends on the fuel once it has twice the length of the line. *)
Theorem parse_command_ends l fuel :
  9 ∉ l → (line_fuel l ≤ fuel)%nat →
  parse_command fuel l ≠ Starved ∧ parse_command fuel l = parse_command (line_fuel l) l.
Proof.
  intros Hl Hf. destruct (parse_command_cases l) as [(e & He)|(tag & verb & p & s & q & E & Hs)]; [by rewrite !He|].
  assert (scan_tokens (line_fuel l) s [] ≠ Starved) as Hne.
  { apply scan_tokens_ends; [apply (no_tab_part p _ q); by rewrite <-E|]. unfold line_fuel. rewrite E, !length_app. lia. }
  rewrite !Hs, (scan_tokens_more (line_fuel l) fuel s []) by done. by destruct (scan_tokens (line_fuel l) s []).
Qed.
Definition search_line : bytes := bs "a1 SEARCH (OR SEEN (NOT FLAGGED)) {12}".
Lemma parse_command_ends_witness :
  parse_command 1000 search_line ≠ Starved ∧ parse_command 1000 search_line = parse_command (line_fuel search_line) search_line.
Proof. apply (parse_command_ends search_line 1000); [by apply (bool_decide_unpack _); vm_compute|]. apply Nat.leb_le. vm_compute. reflexivity. Defined.

(** A tab where an argument is expected is neither skipped nor taken: no
    amount of fuel reads the line [tag SP verb SP TAB ...] to an end, whatever
    follows the tab.  The loop of [Tokenizer::tokens] pushes an empty atom each
    time round. *)
Theorem tab_never_ends fuel tag verb rest :
  tag ≠ [] → 32 ∉ tag → verb ≠ [] → 32 ∉ verb →
  parse_command fuel (tag ++ 32 :: verb ++ 32 :: 9 :: rest) = Starved.
Proof. intros. rewrite parse_command_line by done. by rewrite (scan_tokens_tab _ _ (strip_crlf rest)). Qed.
Lemma tab_never_ends_witness : parse_command 500 (bs "a" ++ 32 :: bs "NOOP" ++ 32 :: 9 :: []) = Starved.
Proof. apply (tab_never_ends 500 (bs "a") (bs "NOOP") []); by apply (bool_decide_unpack _); vm_compute. Defined.

(** A name as LIST prints it, quoted, with its backslashes and quotes
    escaped, is read back as that name when a client sends it as an argument,
    whatever bytes it has. *)
Theorem quoted_name_roundtrip fuel tag verb name :
  tag ≠ [] → 32 ∉ tag → verb ≠ [] → 32 ∉ verb → utf8_valid tag = true → utf8_valid verb = true → utf8_valid name = true →
  (4 ≤ fuel)%nat →
  parse_command fuel (tag ++ 32 :: verb ++ 32 :: quoted name ++ [CR; LF]) = Scanned (mkCommand tag verb [TQuoted name]) [].
Proof.
  intros Ht Ht' Hv Hv' Ut Uv Un Hf. unfold quoted. simpl. rewrite parse_command_line by done.
  rewrite <-app_assoc. simpl. rewrite strip_crlf_tail by done.
  replace (strip_crlf [CR; LF]) with (@nil Z) by done. do 4 (destruct fuel as [|fuel]; [lia|]).
  cbn [scan_tokens]. rewrite skip_spaces_cons by done. cbn [scan_token]. simpl. rewrite scan_quoted_name. simpl.
  by rewrite !utf8_lossy_valid.
Qed.
Definition odd_name : bytes := bs "Work " ++ [BACKSLASH; QUOTE; 195; 169].
Lemma quoted_name_roundtrip_witness :
  parse_command 4 (bs "a1" ++ 32 :: bs "SELECT" ++ 32 :: quoted odd_name ++ [CR; LF]) = Scanned (mkCommand (bs "a1") (bs "SELECT") [TQuoted odd_name]) [].
Proof. apply (quoted_name_roundtrip 4 (bs "a1") (bs "SELECT") odd_name); [..|lia]; by apply (bool_decide_unpack _); vm_compute. Defined.
