(* ===== verification/ImapSequence.v ===== *)
(** * IMAP: sequence sets (crates/imap/src/cmd_fetch.rs, session.rs)

    Sets of sequence numbers or uids as the client writes them, the compressed
    form the server prints, and the ranges it builds for a saved search.  The
    theorem: the two compressions agree, the printed form is read back, and a
    number is in what is read exactly when it was in the list. *)

From S2P Require Import Prelude Bytes Text Fts Sieve ImapParser.
From stdpp Require Import base list strings sets sorting.
From Stdlib Require Import ZArith Lia.

Open Scope Z_scope.

Inductive SeqPoint : Type := Num (value : Z) | Star.
Record SeqRange : Type := mkSeq { sq_from : SeqPoint; sq_to : SeqPoint }.

Definition resolve (point : SeqPoint) (largest : Z) : Z := match point with Num value => value | Star => largest end.
(** [SeqRange::contains]. *)
Definition range_contains (r : SeqRange) (value largest : Z) : bool :=
  let lo := resolve (sq_from r) largest in
  let hi := resolve (sq_to r) largest in
  let '(lo, hi) := if lo <=? hi then (lo, hi) else (hi, lo) in
  (lo <=? value) && (value <=? hi).
Definition sequence_contains (ranges : list SeqRange) (value largest : Z) : bool :=
  existsb (λ r, range_contains r value largest) ranges.

Definition parse_point (s : bytes) : option SeqPoint :=
  if bool_decide (s = [42]) then Some Star
  else n ← parse_u32 s; if 0 <? n then Some (Num n) else None.
Definition parse_part (part : bytes) : option SeqRange :=
  if bool_decide (part = []) then None
  else
    match split_once 58 part with
    | Some (from, to) => from ← parse_point from; to ← parse_point to; Some (mkSeq from to)
    | None => point ← parse_point part; Some (mkSeq point point)
    end.
Fixpoint parse_parts (parts : list bytes) : option (list SeqRange) :=
  match parts with
  | [] => Some []
  | p :: parts => r ← parse_part p; rs ← parse_parts parts; Some (r :: rs)
  end.
Definition parse_sequence_set (s : bytes) : option (list SeqRange) :=
  ranges ← parse_parts (split_byte 44 s);
  if bool_decide (ranges = []) then None else Some ranges.

(** [Vec::dedup] drops the equal neighbours. *)
Fixpoint dedup (l : list Z) : list Z :=
  match l with
  | x :: ((y :: _) as r) => if x =? y then dedup r else x :: dedup r
  | _ => l
  end.
Definition sorted_dedup (values : list Z) : list Z := dedup (merge_sort Z.le values).

Definition render_run (start end_ : Z) : bytes :=
  if start =? end_ then fmt_dec start else fmt_dec start ++ [58] ++ fmt_dec end_.
Definition compress_step (acc : list bytes * option (Z * Z)) (value : Z) : list bytes * option (Z * Z) :=
  let '(parts, run) := acc in
  match run with
  | Some (start, end_) =>
      if value =? as_u32 (end_ + 1) then (parts, Some (start, value))
      else (parts ++ [render_run start end_], Some (value, value))
  | None => (parts, Some (value, value))
  end.
Definition compress_sequence (values : list Z) : bytes :=
  let '(parts, run) := foldl compress_step ([], None) (sorted_dedup values) in
  Sieve.join [44] (match run with Some (start, end_) => parts ++ [render_run start end_] | None => parts end).

(** [ranges.last_mut()] grows, or a new range is pushed. *)
Definition push_value (ranges : list SeqRange) (value : Z) : list SeqRange :=
  match last ranges with
  | Some (mkSeq from (Num end_)) =>
      if as_u32 (end_ + 1) =? value then take (length ranges - 1) ranges ++ [mkSeq from (Num value)]
      else ranges ++ [mkSeq (Num value) (Num value)]
  | _ => ranges ++ [mkSeq (Num value) (Num value)]
  end.
Definition ranges_from (values : list Z) : list SeqRange := foldl push_value [] (sorted_dedup values).
Definition uid_list (uids : list Z) : bytes := Sieve.join [44] (fmt_dec <$> uids).

(** ** Sorting and splitting *)

Lemma dedup_elem l v : v ∈ dedup l ↔ v ∈ l.
Proof.
  induction l as [|x l IH]; [done|]. cbn [dedup]. destruct l as [|y l]; [done|].
  destruct (Z.eqb_spec x y) as [->|Hne]; [rewrite IH, !elem_of_cons; tauto|].
  rewrite elem_of_cons, IH. symmetry. apply elem_of_cons.
Qed.
Lemma dedup_sorted l : StronglySorted Z.le l → StronglySorted Z.lt (dedup l).
Proof.
  induction 1 as [|x l Hl IH Hx]; [constructor|]. cbn [dedup]. destruct l as [|y l]; [by repeat constructor|].
  destruct (Z.eqb_spec x y) as [->|Hne]; [done|]. constructor; [done|].
  apply Forall_forall. intros v Hv. rewrite dedup_elem in Hv. apply StronglySorted_inv in Hl as [_ Hy].
  rewrite Forall_forall in Hx, Hy. pose proof (Hx y (list_elem_of_here _ _)).
  apply elem_of_cons in Hv as [->|Hv]; [lia|]. specialize (Hy v Hv). lia.
Qed.
Lemma sorted_dedup_elem l v : v ∈ sorted_dedup l ↔ v ∈ l.
Proof. unfold sorted_dedup. by rewrite dedup_elem, merge_sort_Permutation. Qed.
Lemma sorted_dedup_in l v : v ∈ sorted_dedup l → v ∈ l.
Proof. apply sorted_dedup_elem. Qed.
Lemma sorted_dedup_sorted l : StronglySorted Z.lt (sorted_dedup l).
Proof. apply dedup_sorted, StronglySorted_merge_sort; apply _. Qed.

Lemma split_byte_none c s : c ∉ s → split_byte c s = [s].
Proof.
  induction s as [|b s IH]; intros Hs; [done|]. apply not_elem_of_cons in Hs as [Hb Hs]. simpl.
  rewrite (proj2 (Z.eqb_neq b c)), IH by done. done.
Qed.
Lemma split_byte_first c s t : c ∉ s → split_byte c (s ++ c :: t) = s :: split_byte c t.
Proof.
  induction s as [|b s IH]; intros Hs; simpl; [by rewrite Z.eqb_refl|]. apply not_elem_of_cons in Hs as [Hb Hs].
  rewrite (proj2 (Z.eqb_neq b c)), IH by done. done.
Qed.
Lemma split_byte_join c l : l ≠ [] → Forall (λ s, c ∉ s) l → split_byte c (Sieve.join [c] l) = l.
Proof.
  intros Hl Hc. induction Hc as [|s l Hs Hc IH]; [done|]. destruct l as [|t l]; [by apply split_byte_none|].
  change (Sieve.join [c] (s :: t :: l)) with (s ++ c :: Sieve.join [c] (t :: l)). rewrite split_byte_first by done. by rewrite IH.
Qed.
Lemma split_once_none c s : c ∉ s → split_once c s = None.
Proof.
  induction s as [|b s IH]; intros Hs; [done|]. apply not_elem_of_cons in Hs as [Hb Hs]. simpl.
  rewrite (proj2 (Z.eqb_neq b c)), IH by done. done.
Qed.
Lemma split_once_app c s t : c ∉ s → split_once c (s ++ c :: t) = Some (s, t).
Proof.
  induction s as [|b s IH]; intros Hs; simpl; [by rewrite Z.eqb_refl|]. apply not_elem_of_cons in Hs as [Hb Hs].
  rewrite (proj2 (Z.eqb_neq b c)), IH by done. done.
Qed.
Lemma fmt_dec_no_mark c n : 0 ≤ n → is_digit c = false → c ∉ fmt_dec n.
Proof.
  intros Hn Hc Hin. pose proof (dec_digits_digit 20 n Hn) as Hd. rewrite forallb_forall in Hd.
  apply list_elem_of_In, Hd in Hin. congruence.
Qed.

(** ** Runs *)

(** The runs of a strictly increasing list. *)
Definition run_step (runs : list (Z * Z)) (v : Z) : list (Z * Z) :=
  match last runs with
  | Some (a, b) => if v =? b + 1 then take (length runs - 1) runs ++ [(a, v)] else runs ++ [(v, v)]
  | None => [(v, v)]
  end.
Definition runs_of (l : list Z) : list (Z * Z) := foldl run_step [] l.
Definition seq_of (r : Z * Z) : SeqRange := mkSeq (Num r.1) (Num r.2).

(** The runs cover the list, and end where it ends. *)
Definition covered (runs : list (Z * Z)) (x : Z) : Prop := ∃ r, r ∈ runs ∧ r.1 ≤ x ≤ r.2.
Lemma covered_snoc p a b x : covered (p ++ [(a, b)]) x ↔ covered p x ∨ a ≤ x ≤ b.
Proof.
  unfold covered. split.
  - intros (r & [Hr|Hr]%elem_of_app & Hx); [eauto|]. apply list_elem_of_singleton in Hr as ->. by right.
  - intros [(r & Hr & Hx)|Hx]; [exists r|exists (a, b)]; (split; [apply elem_of_app|done]); [by left|right; apply list_elem_of_here].
Qed.
Record covers (l : list Z) (runs : list (Z * Z)) : Prop := {
  cv_elem v : v ∈ l ↔ covered runs v;
  cv_order : Forall (λ r, r.1 ≤ r.2 ∧ r.1 ∈ l ∧ r.2 ∈ l) runs;
  cv_last : snd <$> last runs = last l;
}.
Lemma last_split {A} (l : list A) x : last l = Some x → l = take (length l - 1) l ++ [x].
Proof.
  destruct l as [|y l _] using rev_ind; [done|]. rewrite last_snoc. intros [= ->].
  rewrite length_app, Nat.add_sub, take_app_length. done.
Qed.
(** A new last run. *)
Lemma covers_push l p a v :
  (∀ x, x ∈ l ++ [v] ↔ covered p x ∨ a ≤ x ≤ v) → a ≤ v → a ∈ l ++ [v] →
  Forall (λ r, r.1 ≤ r.2 ∧ r.1 ∈ l ∧ r.2 ∈ l) p → covers (l ++ [v]) (p ++ [(a, v)]).
Proof.
  intros Hel Hav Ha Hp. split; [intros x; by rewrite covered_snoc| |by rewrite !last_snoc].
  apply Forall_app. split; [eapply Forall_impl; [exact Hp|]; simpl; intros r (? & ? & ?); rewrite !elem_of_app; auto|].
  constructor; [|done]. split_and!; [done|done|apply elem_of_app; right; apply list_elem_of_here].
Qed.
Lemma covers_step l runs v : covers l runs → Forall (λ x, x < v) l → covers (l ++ [v]) (run_step runs v).
Proof.
  intros [Hel Hord Hlast] Hlt. rewrite Forall_forall in Hlt. unfold run_step. destruct (last runs) as [[a b]|] eqn:El.
  - simpl in Hlast. apply last_split in El as Er. set (p := take (length runs - 1) runs) in *.
    assert (b ∈ l) as Hb by (apply last_Some_elem_of; done). pose proof (Hlt b Hb).
    assert (∀ x, x ∈ l ↔ covered p x ∨ a ≤ x ≤ b) as Hel' by (intros x; by rewrite Hel, Er, covered_snoc).
    pose proof Hord as Hord'. rewrite Er in Hord'. apply Forall_app in Hord' as [Hp [Hab _]%Forall_cons]. simpl in Hab.
    destruct (Z.eqb_spec v (b + 1)) as [->|Hne]; apply covers_push; rewrite ?elem_of_app, ?list_elem_of_singleton; try done; try lia.
    + intros x. rewrite elem_of_app, list_elem_of_singleton, Hel'. destruct Hab as [Hab _]. assert (a ≤ x ≤ b + 1 ↔ a ≤ x ≤ b ∨ x = b + 1) as -> by lia. tauto.
    + left. apply Hab.
    + intros x. rewrite elem_of_app, list_elem_of_singleton, Hel. assert (v ≤ x ≤ v ↔ x = v) as -> by lia. done.
  - simpl in Hlast. symmetry in Hlast. apply last_None in Hlast as ->. apply last_None in El as ->.
    apply (covers_push [] []); [|lia|apply list_elem_of_here|done].
    intros x. simpl. rewrite list_elem_of_singleton. unfold covered. split; [intros ->; right; lia|]. intros [(r & []%not_elem_of_nil & _)|]; lia.
Qed.
Lemma covers_runs l : StronglySorted Z.lt l → covers l (runs_of l).
Proof.
  intros Hl. induction l as [|v l IH] using rev_ind; [split; [intros v; split; [by intros ?%not_elem_of_nil|by intros (r & ?%not_elem_of_nil & _)]|done|done]|].
  unfold runs_of. rewrite foldl_app. apply StronglySorted_app in Hl as (Hlt & Hl & _). apply covers_step; [by apply IH|].
  apply Forall_forall. intros x Hx. apply Hlt; [done|apply list_elem_of_here].
Qed.

(** The two loops compute the runs. *)
Definition render (r : Z * Z) : bytes := render_run r.1 r.2.
Lemma last_of_runs l v r : StronglySorted Z.lt (l ++ [v]) → Forall is_u32 (l ++ [v]) → last (runs_of l) = Some r → as_u32 (r.2 + 1) = r.2 + 1.
Proof.
  intros Hl Hu Hr. apply StronglySorted_app in Hl as (Hlt & Hl & _). pose proof (cv_last _ _ (covers_runs l Hl)) as Hlast.
  rewrite Hr in Hlast. symmetry in Hlast. apply last_Some_elem_of in Hlast. simpl in Hlast. pose proof (Hlt _ v Hlast (list_elem_of_here _ _)).
  rewrite Forall_forall in Hu. pose proof (Hu r.2 ltac:(apply elem_of_app; by left)) as Hr2.
  pose proof (Hu v ltac:(apply elem_of_app; right; apply list_elem_of_here)) as Hv. apply as_u32_id. unfold is_u32 in *. lia.
Qed.
Lemma ranges_runs l : StronglySorted Z.lt l → Forall is_u32 l → foldl push_value [] l = seq_of <$> runs_of l.
Proof.
  intros Hl Hu. induction l as [|v l IH] using rev_ind; [done|]. unfold runs_of in *. rewrite !foldl_app.
  pose proof (λ r, last_of_runs l v r Hl Hu) as Hr. fold (runs_of l) in *.
  apply StronglySorted_app_1_l in Hl. apply Forall_app in Hu as [Hu _]. rewrite IH by done. simpl.
  unfold push_value, run_step. rewrite fmap_last. destruct (last (runs_of l)) as [[a b]|] eqn:El; [|by apply last_None in El as ->].
  cbn [fmap option_fmap option_map seq_of fst snd]. rewrite (Hr (a, b) eq_refl : as_u32 (b + 1) = b + 1), (Z.eqb_sym v).
  destruct (b + 1 =? v); rewrite fmap_app; [|done]. by rewrite length_fmap, fmap_take.
Qed.
Lemma compress_runs l : StronglySorted Z.lt l → Forall is_u32 l →
  foldl compress_step ([], None) l = (render <$> take (length (runs_of l) - 1) (runs_of l), last (runs_of l)).
Proof.
  intros Hl Hu. induction l as [|v l IH] using rev_ind; [done|]. unfold runs_of in *. rewrite !foldl_app.
  pose proof (λ r, last_of_runs l v r Hl Hu) as Hr. fold (runs_of l) in *.
  apply StronglySorted_app_1_l in Hl. apply Forall_app in Hu as [Hu _]. rewrite IH by done. simpl.
  unfold compress_step, run_step. destruct (last (runs_of l)) as [[a b]|] eqn:El; [|by apply last_None in El as ->].
  rewrite (Hr (a, b) eq_refl : as_u32 (b + 1) = b + 1). simpl. destruct (v =? b + 1).
  - rewrite last_snoc, length_app, Nat.add_sub, take_app_length. done.
  - rewrite last_snoc, length_app, Nat.add_sub, take_app_length. f_equal.
    apply last_split in El. rewrite El at 3. rewrite fmap_app. done.
Qed.

(** ** What is printed is read back *)

Lemma parse_point_dec n : 0 < n < 2 ^ 32 → parse_point (fmt_dec n) = Some (Num n).
Proof.
  intros Hn. unfold parse_point. rewrite bool_decide_false.
  - unfold parse_u32. rewrite parse_fmt_dec by (unfold U32_MAX; lia). cbn [mbind option_bind].
    by rewrite (proj2 (Z.ltb_lt 0 n)) by lia.
  - intros E. apply (fmt_dec_no_mark 42 n); [lia|done|]. rewrite E. apply list_elem_of_here.
Qed.
Lemma fmt_dec_nonempty n : 0 ≤ n → fmt_dec n ≠ [].
Proof. intros Hn E. destruct (dec_digits_cons 19 n Hn) as (d & l & E' & _). unfold fmt_dec in E. congruence. Qed.
Lemma parse_part_render r : 0 < r.1 < 2 ^ 32 → 0 < r.2 < 2 ^ 32 → parse_part (render r) = Some (seq_of r).
Proof.
  destruct r as [a b]. simpl. intros Ha Hb. unfold parse_part, render, render_run. simpl.
  assert (58 ∉ fmt_dec a) as H58 by (apply fmt_dec_no_mark; [lia|done]). pose proof (fmt_dec_nonempty a ltac:(lia)) as Hne.
  destruct (Z.eqb_spec a b) as [->|Hab].
  - rewrite bool_decide_false, split_once_none by done. by rewrite parse_point_dec.
  - rewrite bool_decide_false by (by intros [? _]%app_nil). rewrite split_once_app by done. rewrite !parse_point_dec by done. done.
Qed.
Lemma render_no_comma r : 0 < r.1 → 0 < r.2 → 44 ∉ render r.
Proof.
  intros H1 H2. unfold render, render_run. case_match; [apply fmt_dec_no_mark; [lia|done]|].
  rewrite !elem_of_app, list_elem_of_singleton. intros [Hin|[?|Hin]]; [by apply fmt_dec_no_mark in Hin; [|lia|]|lia|by apply fmt_dec_no_mark in Hin; [|lia|]].
Qed.
Lemma parse_parts_render runs : Forall (λ r, 0 < r.1 < 2 ^ 32 ∧ 0 < r.2 < 2 ^ 32) runs →
  parse_parts (render <$> runs) = Some (seq_of <$> runs).
Proof.
  induction 1 as [|r runs [H1 H2] Hr IH]; [done|]. rewrite fmap_cons. cbn [parse_parts]. rewrite parse_part_render by done.
  cbn [mbind option_bind]. by rewrite IH.
Qed.
Lemma ranges_contain runs v largest : Forall (λ r, r.1 ≤ r.2) runs →
  sequence_contains (seq_of <$> runs) v largest = true ↔ covered runs v.
Proof.
  intros Hr. unfold sequence_contains, covered. rewrite existsb_exists. split.
  - intros (x & (r & -> & Hin)%list_elem_of_In%list_elem_of_fmap & Hx). exists r. split; [done|].
    rewrite Forall_forall in Hr. specialize (Hr r Hin). unfold range_contains in Hx. simpl in Hx.
    rewrite (proj2 (Z.leb_le _ _) Hr) in Hx. lia.
  - intros (r & Hin & Hx). exists (seq_of r). split; [apply list_elem_of_In, list_elem_of_fmap; by exists r|].
    unfold range_contains. simpl. rewrite (proj2 (Z.leb_le r.1 r.2)) by lia. lia.
Qed.

(** Together. *)
Definition numbers (values : list Z) : Prop := Forall (λ n, 0 < n < 2 ^ 32) values.
Lemma runs_ok values : numbers values →
  let runs := runs_of (sorted_dedup values) in
  ranges_from values = seq_of <$> runs ∧ compress_sequence values = Sieve.join [44] (render <$> runs) ∧
  Forall (λ r, 0 < r.1 < 2 ^ 32 ∧ 0 < r.2 < 2 ^ 32) runs ∧ Forall (λ r, r.1 ≤ r.2) runs ∧ ∀ v, v ∈ values ↔ covered runs v.
Proof.
  intros Hn runs. pose proof (sorted_dedup_sorted values) as Hs. pose proof (covers_runs _ Hs) as [Hel Hord Hlast].
  unfold numbers in Hn. rewrite Forall_forall in Hn.
  assert (Forall is_u32 (sorted_dedup values)) as Hu.
  { apply Forall_forall. intros v Hv%sorted_dedup_in. specialize (Hn v Hv). unfold is_u32. lia. }
  split_and!.
  - by apply ranges_runs.
  - unfold compress_sequence. rewrite compress_runs by done. fold runs. destruct (last runs) as [r|] eqn:El.
    + destruct r as [a b]. apply last_split in El. rewrite El at 3. by rewrite fmap_app.
    + by apply last_None in El as ->.
  - eapply Forall_impl; [exact Hord|]. simpl. intros r (_ & H1%sorted_dedup_in%Hn & H2%sorted_dedup_in%Hn). done.
  - eapply Forall_impl; [exact Hord|]. by intros r (? & _).
  - intros v. unfold runs. rewrite <-(Hel v). symmetry. apply sorted_dedup_elem.
Qed.

(** Sequence sets are exact.  The ranges built for a saved search are the
    ones read from the compressed text printed for it, so the two ways a set
    travels agree; a number is among them exactly when it was listed, whatever
    the largest number in use is; and an empty list prints nothing that could
    be read as a set. *)
Theorem sequence_set_roundtrip values :
  numbers values →
  (values ≠ [] → parse_sequence_set (compress_sequence values) = Some (ranges_from values)) ∧
  (parse_sequence_set (compress_sequence []) = None) ∧
  ∀ v largest, sequence_contains (ranges_from values) v largest = true ↔ v ∈ values.
Proof.
  intros Hn. destruct (runs_ok values Hn) as (Hr & Hc & Hb & Ho & Hel). split_and!; [|done|].
  - intros Hne. unfold parse_sequence_set. rewrite Hc, split_byte_join.
    + rewrite parse_parts_render by done. cbn [mbind option_bind]. rewrite <-Hr. rewrite bool_decide_false; [done|].
      intros E. rewrite Hr in E. apply fmap_nil_inv in E. rewrite E in Hel. destruct values as [|v values]; [done|].
      destruct (proj1 (Hel v) (list_elem_of_here _ _)) as (r & []%not_elem_of_nil & _).
    + intros E%fmap_nil_inv. rewrite E in Hel. destruct values as [|v values]; [done|].
      destruct (proj1 (Hel v) (list_elem_of_here _ _)) as (r & []%not_elem_of_nil & _).
    + apply Forall_fmap. eapply Forall_impl; [exact Hb|]. intros r [H1 H2]. apply render_no_comma; lia.
  - intros v largest. rewrite Hr, ranges_contain by done. symmetry. apply Hel.
Qed.
Lemma sequence_set_roundtrip_witness :
  (parse_sequence_set (compress_sequence [9; 3; 4; 5; 3; 4294967295]) = Some (ranges_from [9; 3; 4; 5; 3; 4294967295])) ∧
  compress_sequence [9; 3; 4; 5; 3; 4294967295] = bs "3:5,9,4294967295" ∧
  sequence_contains (ranges_from [9; 3; 4; 5; 3; 4294967295]) 6 9 = false.
Proof.
  destruct (sequence_set_roundtrip [9; 3; 4; 5; 3; 4294967295]) as (Hp & _ & _); [repeat constructor|].
  split_and!; [by apply Hp|vm_compute; reflexivity|vm_compute; reflexivity].
Defined.
