(* ===== verification/ImapDate.v ===== *)
(** * IMAP: dates (crates/imap/src/internaldate.rs)

    The date a message was received as FETCH prints it and APPEND reads it,
    with the 64-bit arithmetic of the release build.  The theorem: every time
    that is printed is read back. *)

From S2P Require Import Prelude Bytes Text Fts Sieve ImapParser ImapSequence.
From stdpp Require Import base list strings.
From Stdlib Require Import ZArith Lia Zify.

Open Scope Z_scope.

Definition MONTHS : list bytes :=
  bs <$> ["Jan"; "Feb"; "Mar"; "Apr"; "May"; "Jun"; "Jul"; "Aug"; "Sep"; "Oct"; "Nov"; "Dec"]%string.

(** Division of [i64] truncates; the casts to [u32] are of small numbers. *)
Definition civil_from_days (days : Z) : Z * Z * Z :=
  let z := days + 719468 in
  let era := Z.quot (if 0 <=? z then z else z - 146096) 146097 in
  let doe := z - era * 146097 in
  let yoe := Z.quot (doe - Z.quot doe 1460 + Z.quot doe 36524 - Z.quot doe 146096) 365 in
  let year := yoe + era * 400 in
  let doy := doe - (365 * yoe + Z.quot yoe 4 - Z.quot yoe 100) in
  let mp := Z.quot (5 * doy + 2) 153 in
  let day := as_u32 (doy - Z.quot (153 * mp + 2) 5 + 1) in
  let month := as_u32 (if mp <? 10 then mp + 3 else mp - 9) in
  (if month <=? 2 then year + 1 else year, month, day).
Definition days_from_civil (year month day : Z) : Z :=
  let y := if month <=? 2 then year - 1 else year in
  let era := Z.quot (if 0 <=? y then y else y - 399) 400 in
  let yoe := y - era * 400 in
  let doy := Z.quot (153 * (if 2 <? month then month - 3 else month + 9) + 2) 5 + day - 1 in
  let doe := yoe * 365 + Z.quot yoe 4 - Z.quot yoe 100 + doy in
  as_i64 (era * 146097 + doe - 719468).

(** [{:04}] of a signed number. *)
Definition fmt_signed_pad (w : nat) (n : Z) : bytes :=
  if n <? 0 then 45 :: fmt_dec_pad (w - 1) (- n) else fmt_dec_pad w n.
Definition format_internaldate (received_at : Z) : bytes :=
  let secs := as_i64 received_at in
  let days := secs / 86400 in
  let tod := secs mod 86400 in
  let '(year, month, day) := civil_from_days days in
  let hour := Z.quot tod 3600 in
  let minute := Z.quot (Z.rem tod 3600) 60 in
  let second := Z.rem tod 60 in
  fmt_dec_pad 2 day ++ [45] ++ default [] (MONTHS !! Z.to_nat (month - 1)) ++ [45] ++ fmt_signed_pad 4 year ++ [32]
    ++ fmt_dec_pad 2 hour ++ [58] ++ fmt_dec_pad 2 minute ++ [58] ++ fmt_dec_pad 2 second ++ bs " +0000".

(** [str::parse] of an [i64]. *)
Definition parse_i64 (s : bytes) : option Z :=
  match s with
  | b :: ((_ :: _) as r) =>
      if b =? 45 then (if forallb is_digit r && (dec_value r <=? 2 ^ 63) then Some (- dec_value r) else None) else parse_uint I64_MAX s
  | _ => parse_uint I64_MAX s
  end.
Fixpoint position (f : bytes → bool) (l : list bytes) : option nat :=
  match l with [] => None | x :: l => if f x then Some 0%nat else S <$> position f l end.
Definition month_number (name : bytes) : option Z :=
  (λ i, Z.of_nat i + 1) <$> position (λ m, eq_ignore_ascii_case m name) MONTHS.

Definition parse_imap_date (value : bytes) : option Z :=
  match split_byte 45 (str_trim value) with
  | [d; m; y] =>
      day ← parse_u32 d; month ← month_number m; year ← parse_i64 y;
      if (day =? 0) || (31 <? day) then None else Some (as_i64 (days_from_civil year month day * 86400))
  | _ => None
  end.
Definition parse_clock (time : bytes) : option (Z * Z * Z) :=
  match split_byte 58 time with
  | [h; m; s] =>
      hour ← parse_u32 h; minute ← parse_u32 m; second ← parse_u32 s;
      if (23 <? hour) || (59 <? minute) || (60 <? second) then None else Some (hour, minute, second)
  | _ => None
  end.
Definition parse_zone (zone : bytes) : option Z :=
  match zone with
  | [] => None
  | c :: digits =>
      sign ← (if c =? 43 then Some 1 else if c =? 45 then Some (-1) else None);
      if negb (bool_decide (length digits = 4%nat)) || negb (forallb is_digit digits) then None
      else
        zone_hour ← parse_i64 (take 2 digits); zone_minute ← parse_i64 (drop 2 digits);
        if 59 <? zone_minute then None else Some (sign * (zone_hour * 3600 + zone_minute * 60))
  end.
Definition parse_internaldate (value : bytes) : option Z :=
  match filter (λ f, f ≠ []) (split_byte 32 (str_trim value)) with
  | [date; time; zone] =>
      date_secs ← parse_imap_date date;
      '(hour, minute, second) ← parse_clock time;
      offset ← parse_zone zone;
      let epoch := as_i64 (date_secs + hour * 3600 + minute * 60 + second - offset) in
      if epoch <? 0 then None else Some epoch
  | _ => None
  end.

(** ** The calendar *)

Ltac Zify.zify_post_hook ::= Z.to_euclidean_division_equations.

Definition day_of_era (doe : Z) : Z * Z :=
  let yoe := (doe - doe / 1460 + doe / 36524 - doe / 146096) / 365 in
  (yoe, doe - (365 * yoe + yoe / 4 - yoe / 100)).
Lemma day_of_era_bounds doe : 0 ≤ doe < 146097 → 0 ≤ (day_of_era doe).1 ≤ 399 ∧ 0 ≤ (day_of_era doe).2 ≤ 365.
Proof. intros H. unfold day_of_era. simpl. lia. Qed.
(** Month and day of a day of the year that starts in March. *)
Lemma month_of_day doy : 0 ≤ doy ≤ 365 → let mp := (5 * doy + 2) / 153 in 0 ≤ mp ≤ 11 ∧ 1 ≤ doy - (153 * mp + 2) / 5 + 1 ≤ 31.
Proof. intros H. simpl. lia. Qed.

Lemma civil_bounds days y m d : 0 ≤ days ≤ 2 ^ 60 → civil_from_days days = (y, m, d) →
  0 ≤ y ≤ 2 ^ 60 ∧ 1 ≤ m ≤ 12 ∧ 1 ≤ d ≤ 31 ∧ days_from_civil y m d = days.
Proof.
  intros Hd. unfold civil_from_days. rewrite (proj2 (Z.leb_le 0 (days + 719468))) by lia.
  rewrite (Z.quot_div_nonneg (days + 719468)) by lia. set (era := (days + 719468) / 146097).
  set (doe := days + 719468 - era * 146097). assert (0 ≤ doe < 146097) as Hdoe by (unfold doe, era; lia).
  rewrite !(Z.quot_div_nonneg doe) by lia. pose proof (day_of_era_bounds doe Hdoe) as [Hy Hdoy]. unfold day_of_era in Hy, Hdoy. simpl in Hy, Hdoy.
  rewrite (Z.quot_div_nonneg _ 365) by lia. set (yoe := (doe - doe / 1460 + doe / 36524 - doe / 146096) / 365) in *.
  rewrite !(Z.quot_div_nonneg yoe) by lia. set (doy := doe - (365 * yoe + yoe / 4 - yoe / 100)) in *.
  pose proof (month_of_day doy Hdoy) as [Hmp Hday]. simpl in Hmp, Hday. rewrite (Z.quot_div_nonneg (5 * doy + 2)) by lia.
  set (mp := (5 * doy + 2) / 153) in *. rewrite (Z.quot_div_nonneg (153 * mp + 2)) by lia.
  rewrite (as_u32_id (doy - _ + 1)) by (unfold is_u32; lia). rewrite as_u32_id by (unfold is_u32; case_match; lia). intros [= <- <- <-].
  assert (0 ≤ era ≤ 2 ^ 50) as Hera by (unfold era; lia).
  assert (days = era * 146097 + (yoe * 365 + yoe / 4 - yoe / 100 + doy) - 719468) as Hdays by (unfold doy, doe; lia).
  assert (0 ≤ (if (if mp <? 10 then mp + 3 else mp - 9) <=? 2 then yoe + era * 400 + 1 else yoe + era * 400)) as Hge.
  { clear -Hy Hera. case_match; lia. }
  split; [split; [done|clear -Hy Hera; case_match; lia]|]. split; [clear -Hmp; case_match; lia|]. split; [done|].
  unfold days_from_civil. clear Hge.
  assert ((if (if mp <? 10 then mp + 3 else mp - 9) <=? 2 then (if (if mp <? 10 then mp + 3 else mp - 9) <=? 2 then yoe + era * 400 + 1 else yoe + era * 400) - 1 else (if (if mp <? 10 then mp + 3 else mp - 9) <=? 2 then yoe + era * 400 + 1 else yoe + era * 400)) = yoe + era * 400) as -> by (destruct (_ <=? 2); lia).
  rewrite (proj2 (Z.leb_le 0 (yoe + era * 400))) by lia. rewrite (Z.quot_div_nonneg (yoe + era * 400)) by lia.
  assert ((yoe + era * 400) / 400 = era) as -> by (clear -Hy Hera; lia).
  replace (yoe + era * 400 - era * 400) with yoe by lia. rewrite !(Z.quot_div_nonneg yoe) by lia.
  assert ((if 2 <? (if mp <? 10 then mp + 3 else mp - 9) then (if mp <? 10 then mp + 3 else mp - 9) - 3 else (if mp <? 10 then mp + 3 else mp - 9) + 9) = mp) as ->.
  { clear -Hmp. destruct (Z.ltb_spec mp 10); case_match; lia. }
  rewrite (Z.quot_div_nonneg (153 * mp + 2)) by lia. rewrite as_i64_id; [clear -Hdays; lia|]. unfold is_i64. clear -Hdays Hd. lia.
Qed.

(** ** Printed numbers *)

Lemma parse_digits max s : s ≠ [] → forallb is_digit s = true → dec_value s ≤ max → parse_uint max s = Some (dec_value s).
Proof.
  intros Hs Hd Hv. unfold parse_uint. destruct s as [|d l]; [done|].
  assert (match d :: l with 43 :: ((_ :: _) as r) => r | _ => d :: l end = d :: l) as ->.
  { simpl in Hd. apply andb_true_iff in Hd as [Hd _]. unfold is_digit in Hd. destruct (Z.eq_dec d 43) as [->|]; [done|].
    repeat case_match; congruence. }
  by rewrite Hd, (proj2 (Z.leb_le _ _)).
Qed.
Lemma dec_value_pad k s : dec_value (replicate k 48 ++ s) = dec_value s.
Proof. induction k as [|k IH]; [done|]. unfold dec_value in *. by simpl. Qed.
Lemma padded_number w n : 0 ≤ n < 10 ^ 20 →
  fmt_dec_pad w n ≠ [] ∧ forallb is_digit (fmt_dec_pad w n) = true ∧ dec_value (fmt_dec_pad w n) = n.
Proof.
  intros Hn. unfold fmt_dec_pad, pad_left. split_and!.
  - intros [_ E]%app_nil. by apply fmt_dec_nonempty in E; [|lia].
  - rewrite forallb_app. apply andb_true_iff. split; [|apply dec_digits_digit; lia].
    generalize (w - length (fmt_dec n))%nat. intros k. by induction k.
  - rewrite dec_value_pad. by apply dec_value_digits.
Qed.
Lemma parse_padded w n : 0 ≤ n ≤ U32_MAX → parse_u32 (fmt_dec_pad w n) = Some n.
Proof.
  intros Hn. destruct (padded_number w n) as (H1 & H2 & H3); [unfold U32_MAX in Hn; lia|].
  unfold parse_u32. rewrite parse_digits by (done || by rewrite H3; lia). by rewrite H3.
Qed.
Lemma no_mark c s : forallb is_digit s = true → is_digit c = false → c ∉ s.
Proof. intros Hs Hc Hin. rewrite forallb_forall in Hs. apply list_elem_of_In, Hs in Hin. congruence. Qed.
Lemma padded_no_mark w c n : 0 ≤ n < 10 ^ 20 → is_digit c = false → c ∉ fmt_dec_pad w n.
Proof. intros Hn Hc. apply no_mark; [by apply padded_number|done]. Qed.
Lemma parse_year y : 0 ≤ y ≤ 2 ^ 60 → parse_i64 (fmt_signed_pad 4 y) = Some y.
Proof.
  intros Hy. unfold fmt_signed_pad. rewrite (proj2 (Z.ltb_ge y 0)) by lia. destruct (padded_number 4 y) as (H1 & H2 & H3); [lia|].
  assert (parse_uint I64_MAX (fmt_dec_pad 4 y) = Some y) as Hp.
  { rewrite parse_digits by (done || by rewrite H3; unfold I64_MAX; lia). by rewrite H3. }
  unfold parse_i64. destruct (fmt_dec_pad 4 y) as [|b [|c r]]; [done|done|].
  simpl in H2. apply andb_true_iff in H2 as [Hb _]. destruct (Z.eqb_spec b 45) as [->|]; done.
Qed.
Lemma month_name m : 1 ≤ m ≤ 12 → ∃ name, MONTHS !! Z.to_nat (m - 1) = Some name ∧ month_number name = Some m ∧
  Forall (λ b, 65 ≤ b ≤ 122) name.
Proof.
  intros Hm. assert (m ∈ [1; 2; 3; 4; 5; 6; 7; 8; 9; 10; 11; 12]) as Hin by (rewrite !elem_of_cons; lia). clear Hm.
  repeat (apply elem_of_cons in Hin as [->|Hin]; [eexists; split; [reflexivity|]; split; [vm_compute; reflexivity|apply (bool_decide_unpack _); vm_compute; exact I]|]).
  by apply not_elem_of_nil in Hin.
Qed.
Lemma not_in_name (c : Z) name : Forall (λ b, 65 ≤ b ≤ 122) name → c < 65 → c ∉ name.
Proof. intros Hf Hc Hin. rewrite Forall_forall in Hf. specialize (Hf c Hin). simpl in Hf. lia. Qed.

(** Text between ASCII marks that are no spaces is trimmed. *)
Lemma digits_plain s : forallb is_digit s = true → forallb plain s = true.
Proof. rewrite !forallb_forall. intros Hs b Hb. specialize (Hs b Hb). unfold is_digit, plain, is_space1 in *. lia. Qed.
(** ** The round trip *)

Lemma parse_imap_date_printed days y m d name :
  0 ≤ days ≤ 106751991167300 → civil_from_days days = (y, m, d) → MONTHS !! Z.to_nat (m - 1) = Some name →
  parse_imap_date (fmt_dec_pad 2 d ++ [45] ++ name ++ [45] ++ fmt_signed_pad 4 y) = Some (days * 86400) ∧
  32 ∉ fmt_dec_pad 2 d ++ [45] ++ name ++ [45] ++ fmt_signed_pad 4 y.
Proof.
  intros Hd Hc Hn. apply civil_bounds in Hc as (Hy & Hm & Hday & Hback); [|lia].
  destruct (month_name m Hm) as (name' & Hn' & Hnum & Hlet). rewrite Hn in Hn'. injection Hn' as <-.
  destruct (padded_number 2 d) as (H1 & H2 & _); [lia|]. destruct (padded_number 4 y) as (H3 & H4 & _); [lia|].
  assert (fmt_signed_pad 4 y = fmt_dec_pad 4 y) as Ey by (unfold fmt_signed_pad; by rewrite (proj2 (Z.ltb_ge y 0)) by lia).
  split.
  - unfold parse_imap_date. replace (fmt_dec_pad 2 d ++ [45] ++ name ++ [45] ++ fmt_signed_pad 4 y)
      with (fmt_dec_pad 2 d ++ ([45] ++ name ++ [45]) ++ fmt_signed_pad 4 y) by (by rewrite <-!app_assoc).
    rewrite trim_plain_ends by (rewrite ?Ey; done || by apply digits_plain). rewrite <-!app_assoc. cbn [app].
    rewrite !split_byte_first by first [by apply no_mark|by apply not_in_name].
    rewrite split_byte_none by (rewrite Ey; by apply no_mark). rewrite parse_padded by (unfold U32_MAX; lia).
    cbn [mbind option_bind]. rewrite Hnum. cbn [mbind option_bind]. rewrite parse_year by done. cbn [mbind option_bind].
    assert ((d =? 0) || (31 <? d) = false) as -> by (clear -Hday; lia). rewrite Hback, as_i64_id; [done|]. unfold is_i64. clear -Hd. lia.
  - rewrite Ey, !elem_of_app, !list_elem_of_singleton. intros [Hin|[Hin|[Hin|[Hin|Hin]]]]; try lia;
      [by apply no_mark in Hin|by apply not_in_name in Hin|by apply no_mark in Hin].
Qed.
Lemma parse_clock_printed h m s : 0 ≤ h ≤ 23 → 0 ≤ m ≤ 59 → 0 ≤ s ≤ 59 →
  parse_clock (fmt_dec_pad 2 h ++ [58] ++ fmt_dec_pad 2 m ++ [58] ++ fmt_dec_pad 2 s) = Some (h, m, s) ∧
  32 ∉ fmt_dec_pad 2 h ++ [58] ++ fmt_dec_pad 2 m ++ [58] ++ fmt_dec_pad 2 s.
Proof.
  intros Hh Hm Hs. split.
  - unfold parse_clock. cbn [app]. rewrite !split_byte_first by (apply padded_no_mark; [lia|done]).
    rewrite split_byte_none by (apply padded_no_mark; [lia|done]). rewrite !parse_padded by (unfold U32_MAX; lia). cbn [mbind option_bind].
    by assert ((23 <? h) || (59 <? m) || (60 <? s) = false) as -> by (clear -Hh Hm Hs; lia).
  - rewrite !elem_of_app, !list_elem_of_singleton. intros [Hin|[Hin|[Hin|[Hin|Hin]]]]; try lia; by apply padded_no_mark in Hin; [|lia|].
Qed.

(** Every internal date FETCH prints is read back by APPEND as the same
    time, for all times up to the largest the server can hold in a signed
    64-bit count of seconds. *)
Theorem internaldate_roundtrip received_at :
  0 ≤ received_at ≤ I64_MAX → parse_internaldate (format_internaldate received_at) = Some received_at.
Proof.
  unfold I64_MAX. intros Ht. unfold format_internaldate. rewrite (as_i64_id received_at) by (unfold is_i64; lia).
  set (days := received_at / 86400). set (tod := received_at mod 86400). assert (0 ≤ tod < 86400) as Htod by (unfold tod; lia).
  assert (0 ≤ days ≤ 106751991167300) as Hdays by (unfold days; lia).
  assert (received_at = days * 86400 + tod) as Et by (unfold days, tod; lia). clearbody days tod.
  destruct (civil_from_days days) as [[y m] d] eqn:Ec. pose proof (civil_bounds days y m d ltac:(lia) Ec) as (Hy & Hm & Hd & _).
  destruct (month_name m Hm) as (name & Hname & _ & _). rewrite Hname. cbn [default from_option id].
  rewrite Z.quot_div_nonneg, !Z.rem_mod_nonneg, Z.quot_div_nonneg by lia.
  destruct (parse_imap_date_printed days y m d name Hdays Ec Hname) as [Hdate Hsp1].
  destruct (parse_clock_printed (tod / 3600) (tod mod 3600 / 60) (tod mod 60)) as [Hclock Hsp2]; [lia..|].
  set (date := fmt_dec_pad 2 d ++ _) in *. set (clock := fmt_dec_pad 2 (tod / 3600) ++ _) in *.
  match goal with |- parse_internaldate ?x = _ => replace x with (date ++ ([32] ++ clock ++ [32]) ++ bs "+0000") by (unfold date, clock; by rewrite <-!app_assoc) end.
  unfold parse_internaldate. rewrite str_trim_id.
  2:{ destruct (padded_number 2 d) as (Hne & Hdig & _); [lia|]. destruct (fmt_dec_pad 2 d) as [|b p]; [done|].
      apply andb_true_iff in Hdig as [Hb _].
      apply (trimmed_ends b 48 (p ++ [45] ++ name ++ [45] ++ fmt_signed_pad 4 y ++ ([32] ++ clock ++ [32]) ++ bs "+000"));
        [unfold date; change (bs "+0000") with (bs "+000" ++ [48]); repeat (rewrite <-app_assoc || rewrite <-app_comm_cons); reflexivity|unfold plain, is_digit, is_space1 in *; lia|done]. }
  rewrite <-!app_assoc. cbn [app]. rewrite !split_byte_first by done. rewrite split_byte_none by (apply (bool_decide_unpack _); vm_compute; exact I).
  assert (date ≠ [] ∧ clock ≠ []) as [Hne1 Hne2].
  { unfold date, clock. split; intros [E _]%app_nil; by apply padded_number in E; [|lia]. }
  rewrite !filter_cons_True by done.
  rewrite Hdate. cbn [mbind option_bind]. rewrite Hclock. cbn [mbind option_bind].
  change (parse_zone (bs "+0000")) with (Some 0). cbn [mbind option_bind].
  replace (days * 86400 + tod / 3600 * 3600 + tod mod 3600 / 60 * 60 + tod mod 60 - 0) with received_at by lia.
  rewrite as_i64_id by (unfold is_i64; lia). by rewrite (proj2 (Z.ltb_ge received_at 0)) by lia.
Qed.
Lemma internaldate_roundtrip_witness :
  format_internaldate 1709251199 = bs "29-Feb-2024 23:59:59 +0000" ∧ parse_internaldate (format_internaldate 1709251199) = Some 1709251199.
Proof. split; [vm_compute; reflexivity|]. apply (internaldate_roundtrip 1709251199). unfold I64_MAX. lia. Defined.
