(* ===== verification/ImapFetch.v ===== *)
(** * IMAP: what FETCH asks for and prints (crates/imap/src/cmd_fetch.rs)

    The items of a FETCH, body sections and how they are found in the table of
    parts, and the line that answers.  The theorems: a section path finds the
    part that RFC 3501 numbers so in the message as it was parsed; pieces
    fetched one after the other make the whole; and the answer is framed so
    that a client that reads the announced count of bytes gets the section. *)

From S2P Require Import Prelude Bytes Text Fts MailParser Sieve MailModel MailMessage MailCache ImapParser ImapSequence ImapDate.
From stdpp Require Import base list strings.
From Stdlib Require Import ZArith Lia.

Open Scope Z_scope.

(** ** Modifiers and items *)

Record FetchMods : Type := mkMods { fm_changed_since : Z; fm_vanished : bool }.
Definition words_of (items : list Token) : list bytes := omap as_str items.
Definition split_fetch_modifiers (args : list Token) : list Token * option FetchMods :=
  match last args with
  | Some (TList inner) =>
      match words_of inner with
      | first :: words =>
          if negb (eq_ignore_ascii_case first (bs "CHANGEDSINCE")) then (args, None)
          else
            match words with
            | value :: words =>
                match parse_u64 value with
                | Some n => (take (length args - 1) args, Some (mkMods n (existsb (λ w, eq_ignore_ascii_case w (bs "VANISHED")) words)))
                | None => (args, None)
                end
            | [] => (args, None)
            end
      | [] => (args, None)
      end
  | _ => (args, None)
  end.

Definition has_byte (c : Z) (s : bytes) : bool := bool_decide (c ∈ s).
(** An item like BODY[HEADER.FIELDS (A B)] tokenizes as three tokens. *)
Definition push_item (raw : list bytes) (token : Token) : list bytes :=
  let rendered :=
    match token with
    | TList items => Some ([40] ++ Sieve.join [32] (words_of items) ++ [41])
    | other => as_str other
    end in
  match rendered with
  | None => raw
  | Some rendered =>
      match last raw with
      | Some open_ =>
          if has_byte 91 open_ && negb (has_byte 93 open_)
          then take (length raw - 1) raw ++ [open_ ++ (match token with TList _ => [32] | _ => [] end) ++ rendered]
          else raw ++ [rendered]
      | None => raw ++ [rendered]
      end
  end.
Definition FAST_ITEMS : list bytes := bs <$> ["FLAGS"; "INTERNALDATE"; "RFC822.SIZE"]%string.
Definition expand_item (item : bytes) : list bytes :=
  if bool_decide (item = bs "FAST") then FAST_ITEMS
  else if bool_decide (item = bs "ALL") then FAST_ITEMS ++ [bs "ENVELOPE"]
  else if bool_decide (item = bs "FULL") then FAST_ITEMS ++ [bs "ENVELOPE"; bs "BODY"]
  else [item].
Definition fetch_items (args : list Token) : list bytes :=
  let tokens := match args with [TList items] => items | _ => args end in
  foldl push_item [] tokens ≫= λ item, expand_item (to_ascii_uppercase item).

(** ** Sections *)

Inductive SectionText : Type :=
  | SecFull
  | SecHeader
  | SecHeaderFields (not_ : bool) (names : list bytes)
  | SecText
  | SecMime.
Record FetchSection : Type := mkFetchSection { sec_path : list Z; sec_text : SectionText }.

(** [field_list]. *)
Definition field_list (s : bytes) : option (list bytes) :=
  inner ← Text.strip_prefix [40] (str_trim s); inner ← Text.strip_suffix [41] inner; Some (split_whitespace inner).
(** What follows the part numbers. *)
Definition section_text (path : list Z) (rest : bytes) : option FetchSection :=
  if bool_decide (rest = []) then (if bool_decide (path = []) then Some (mkFetchSection path SecFull) else None)
  else
    match Text.strip_prefix (bs "HEADER.FIELDS.NOT ") rest with
    | Some fields => fields ← field_list fields; Some (mkFetchSection path (SecHeaderFields true fields))
    | None =>
        match Text.strip_prefix (bs "HEADER.FIELDS ") rest with
        | Some fields => fields ← field_list fields; Some (mkFetchSection path (SecHeaderFields false fields))
        | None =>
            if bool_decide (rest = bs "HEADER") then Some (mkFetchSection path SecHeader)
            else if bool_decide (rest = bs "TEXT") then Some (mkFetchSection path SecText)
            else if bool_decide (rest = bs "MIME") then (if bool_decide (path = []) then None else Some (mkFetchSection path SecMime))
            else None
        end
    end.
(** The loop of [parse_section]: every turn takes a digit. *)
Fixpoint section_loop (fuel : nat) (path : list Z) (rest : bytes) : option FetchSection :=
  match fuel with
  | O => None
  | S fuel =>
      let digits := take_while is_digit rest in
      if bool_decide (digits = []) then section_text path rest
      else
        number ← parse_u32 digits;
        if number =? 0 then None
        else
          let path := path ++ [number] in
          let rest := drop (length digits) rest in
          match Text.strip_prefix [46] rest with
          | Some after => section_loop fuel path after
          | None => if bool_decide (rest = []) then Some (mkFetchSection path SecFull) else None
          end
  end.
Definition parse_section (spec : bytes) : option FetchSection :=
  let rest := str_trim spec in section_loop (S (length rest)) [] rest.
Definition body_section (base : bytes) : option (bool * FetchSection) :=
  '(peek, spec) ← match Text.strip_prefix (bs "BODY.PEEK[") base with
                  | Some spec => Some (true, spec)
                  | None => pair false <$> Text.strip_prefix (bs "BODY[") base
                  end;
  spec ← Text.strip_suffix [93] spec; section ← parse_section spec; Some (peek, section).
Definition section_label (s : FetchSection) : bytes :=
  Sieve.join [46] ((fmt_dec <$> sec_path s) ++
    match sec_text s with
    | SecFull => []
    | SecHeader => [bs "HEADER"]
    | SecText => [bs "TEXT"]
    | SecMime => [bs "MIME"]
    | SecHeaderFields not_ fields =>
        [(if not_ then bs "HEADER.FIELDS.NOT" else bs "HEADER.FIELDS") ++ bs " (" ++ Sieve.join [32] fields ++ [41]]
    end).

(** [checked_add] and [checked_sub] of [u32]. *)
Definition checked_add_u32 (x y : Z) : option Z := if x + y <? 2 ^ 32 then Some (x + y) else None.
(** [slice::get] at a [u32] index. *)
Definition at_index {A} (l : list A) (i : Z) : option A := if i <? 0 then None else l !! Z.to_nat i.

(** [resolve_part]: where the part is in the table, and the offset of the
    message it belongs to. *)
Fixpoint resolve_steps (ps : list MessagePart) (index base : Z) (first : bool) (path : list Z) : option (Z * Z) :=
  match path with
  | [] => Some (index, base)
  | number :: path =>
      part ← at_index ps index;
      '(index, base, part, at_message_root) ←
        match first, mp_kind part with
        | false, PbMessage sub =>
            base ← checked_add_u32 base (rg_start (mp_body part)); part ← at_index ps sub; Some (sub, base, part, true)
        | _, _ => Some (index, base, part, first)
        end;
      match mp_kind part with
      | PbMultipart children =>
          child ← (if number <? 1 then None else at_index children (number - 1)); resolve_steps ps child base false path
      | _ => if negb at_message_root || negb (number =? 1) then None else resolve_steps ps index base false path
      end
  end.
Definition resolve_part (ps : list MessagePart) (path : list Z) : option (Z * Z) := resolve_steps ps 0 0 true path.

(** [header_lines]: the lines with their ends. *)
Fixpoint header_lines_go (s cur : bytes) : list bytes :=
  match s with
  | [] => if bool_decide (cur = []) then [] else [cur]
  | b :: s => if b =? LF then (cur ++ [b]) :: header_lines_go s [] else header_lines_go s (cur ++ [b])
  end.
Definition header_lines (block : bytes) : list bytes := header_lines_go block [].
Fixpoint header_fields_go (fields : list bytes) (not_ include : bool) (ls : list bytes) : bytes :=
  match ls with
  | [] => []
  | l :: ls =>
      if bool_decide (l = []) || bool_decide (l = CRLF) || bool_decide (l = [LF]) then []
      else
        let folded := match l with b :: _ => (b =? 32) || (b =? 9) | [] => false end in
        let include :=
          if folded then include
          else
            let name := default [] (head (split_byte 58 l)) in
            let name := str_trim (if utf8_valid name then name else []) in
            xorb (existsb (λ f, eq_ignore_ascii_case f name) fields) not_ in
        (if include then l else []) ++ header_fields_go fields not_ include ls
  end.
Definition header_fields (header : bytes) (fields : list bytes) (not_ : bool) : bytes :=
  header_fields_go fields not_ false (header_lines header) ++ CRLF.

Record BodyData : Type := mkBody { bd_full : bytes; bd_header : bytes; bd_text : bytes; bd_parts : list MessagePart }.
(** The offsets are [u32] and wrap. *)
Definition part_slice (body : BodyData) (base : Z) (r : ByteRange) : option bytes :=
  slice_get (bd_full body) (as_u32 (base + rg_start r)) (as_u32 (base + rg_end r)).
Definition resolve_section (body : BodyData) (s : FetchSection) : option bytes :=
  if bool_decide (sec_path s = []) then
    match sec_text s with
    | SecFull => Some (bd_full body)
    | SecHeader => Some (bd_header body)
    | SecText => Some (bd_text body)
    | SecHeaderFields not_ fields => Some (header_fields (bd_header body) fields not_)
    | SecMime => None
    end
  else
    '(index, base) ← resolve_part (bd_parts body) (sec_path s);
    part ← at_index (bd_parts body) index;
    match sec_text s with
    | SecFull => part_slice body base (mp_body part)
    | SecMime => part_slice body base (mp_header part)
    | text =>
        match mp_kind part with
        | PbMessage sub =>
            root ← at_index (bd_parts body) sub;
            inner_base ← checked_add_u32 base (rg_start (mp_body part));
            match text with
            | SecHeader => part_slice body inner_base (mp_header root)
            | SecText => part_slice body inner_base (mp_body root)
            | SecHeaderFields not_ fields => (λ block, header_fields block fields not_) <$> part_slice body inner_base (mp_header root)
            | _ => None
            end
        | _ => None
        end
    end.

(** ** Items of the answer *)

Record FetchExtras : Type := mkExtras {
  fe_body : option BodyData; fe_envelope : option bytes; fe_structure : option bytes; fe_structure_brief : option bytes;
  fe_modseq : option Z }.
Definition no_extras : FetchExtras := mkExtras None None None None None.
Definition is_structure_item (item : bytes) : bool := bool_decide (item = bs "BODY") || bool_decide (item = bs "BODYSTRUCTURE").
Definition split_partial (item : bytes) : bytes * option (Z * Z) :=
  match rfind_byte 60 item with
  | None => (item, None)
  | Some open_ =>
      match (inner ← Text.strip_suffix [62] (drop (S open_) item); '(start, count) ← split_once 46 inner;
             start ← parse_u32 start; count ← parse_u32 count; if 0 <? count then Some (start, count) else None) with
      | Some r => (take open_ item, Some r)
      | None => (item, None)
      end
  end.
(** A header-only fetch does not imply the client read the message. *)
Definition is_seen_setting_item (item : bytes) : bool :=
  let base := (split_partial item).1 in
  if bool_decide (base = bs "RFC822") || bool_decide (base = bs "RFC822.TEXT") then true
  else
    match body_section base with
    | Some (false, s) =>
        negb (bool_decide (sec_path s = []) && match sec_text s with SecHeader | SecHeaderFields _ _ => true | _ => false end)
    | _ => false
    end.
Definition is_body_item (item : bytes) : bool :=
  let base := (split_partial item).1 in
  bool_decide (base = bs "RFC822") || bool_decide (base = bs "RFC822.HEADER") || bool_decide (base = bs "RFC822.TEXT")
  || bool_decide (is_Some (body_section base)).

(** A literal: its length, then its bytes. *)
Definition literal (data : bytes) : bytes := [123] ++ fmt_dec (Z.of_nat (length data)) ++ [125] ++ CRLF ++ data.
Definition partial_of (data : bytes) (start count : Z) : bytes :=
  let hi := Z.min (start + count) (Z.of_nat (length data)) in default [] (slice_get data start hi).
Definition body_item (item : bytes) (body : BodyData) : option bytes :=
  let '(base, partial) := split_partial item in
  '(label, data) ←
    (if bool_decide (base = bs "RFC822") then Some (base, bd_full body)
     else if bool_decide (base = bs "RFC822.HEADER") then Some (base, bd_header body)
     else if bool_decide (base = bs "RFC822.TEXT") then Some (base, bd_text body)
     else '(_, s) ← body_section base; data ← resolve_section body s; Some (bs "BODY[" ++ section_label s ++ [93], data));
  let '(label, data) :=
    match partial with
    | Some (start, count) => (label ++ [60] ++ fmt_dec start ++ [62], partial_of data start count)
    | None => (label, data)
    end in
  Some (label ++ [32] ++ literal data).

Definition flags_render (ks : list Keyword) : bytes := Sieve.join [32] (to_imap <$> ks).
Definition fetch_part (uid : Z) (e : MessageCacheEntry) (x : FetchExtras) (item : bytes) : option bytes :=
  if bool_decide (item = bs "FLAGS") then Some (bs "FLAGS (" ++ flags_render (ce_keywords e) ++ [41])
  else if bool_decide (item = bs "MODSEQ") then Some (bs "MODSEQ (" ++ fmt_dec (default 1 (fe_modseq x)) ++ [41])
  else if bool_decide (item = bs "UID") then Some (bs "UID " ++ fmt_dec uid)
  else if bool_decide (item = bs "RFC822.SIZE") then Some (bs "RFC822.SIZE " ++ fmt_dec (ce_size e))
  else if bool_decide (item = bs "INTERNALDATE") then Some (bs "INTERNALDATE " ++ [QUOTE] ++ format_internaldate (ce_received_at e) ++ [QUOTE])
  else if bool_decide (item = bs "ENVELOPE") then fe_envelope x
  else if bool_decide (item = bs "BODYSTRUCTURE") then (λ t, bs "BODYSTRUCTURE " ++ t) <$> fe_structure x
  else if bool_decide (item = bs "BODY") then (λ t, bs "BODY " ++ t) <$> fe_structure_brief x
  else body ← fe_body x; body_item item body.
Definition fetch_line (seqno uid : Z) (e : MessageCacheEntry) (items : list bytes) (uid_mode : bool) (x : FetchExtras) : bytes :=
  let parts := omap (fetch_part uid e x) items in
  let parts := if uid_mode && negb (bool_decide (bs "UID" ∈ items)) then (bs "UID " ++ fmt_dec uid) :: parts else parts in
  bs "* " ++ fmt_dec seqno ++ bs " FETCH (" ++ Sieve.join [32] parts ++ bs ")" ++ CRLF.

(** ** Part numbers *)

(** Numbering as RFC 3501 has it, on the parsed message: a number picks a
    child of a multipart; 1 is the body of a message that is none; below a part
    that is an attached message the numbers are those of that message.  The
    result is the message, the part in it, and where the message starts. *)
Fixpoint walk `{MailParser} (m : Message) (i off : Z) (first : bool) (path : list Z) : option (Message * Z * Z) :=
  match path with
  | [] => Some (m, i, off)
  | number :: path =>
      p ← at_index (msg_parts m) i;
      '(m, i, off, p, root) ←
        match first, part_body p with
        | false, PtMessage sub =>
            off ← checked_add_u32 off (part_offset_body p); p ← at_index (msg_parts sub) 0; Some (sub, 0, off, p, true)
        | _, _ => Some (m, i, off, p, first)
        end;
      match part_body p with
      | PtMultipart children =>
          child ← (if number <? 1 then None else at_index children (number - 1)); walk m child off false path
      | _ => if root && (number =? 1) then walk m i off false path else None
      end
  end.
(** Every message has a first part, as the parser gives it one. *)
Fixpoint rooted (m : Message) : bool :=
  let 'mkParsed ps := m in negb (bool_decide (length ps = O)) && forallb part_rooted ps
with part_rooted (p : ParsedPart) : bool :=
  let 'mkPart _ _ _ _ _ b := p in match b with PtMessage sub => rooted sub | _ => true end.

Section paths.
Context `{MailParser} (flat : list MessagePart).

Lemma at_index_Some {A} (l : list A) i x : at_index l i = Some x ↔ 0 ≤ i ∧ l !! Z.to_nat i = Some x.
Proof. unfold at_index. destruct (Z.ltb_spec i 0); [split; [done|lia]|]. split; [auto|by intros []]. Qed.
Lemma at_index_fmap {A C} (f : A → C) l i : at_index (f <$> l) i = f <$> at_index l i.
Proof. unfold at_index. case_match; [done|]. apply list_lookup_fmap. Qed.

Lemma rooted_part m i p : rooted m = true → msg_parts m !! i = Some p → part_rooted p = true.
Proof. destruct m as [ps]. simpl. intros [_ Hf]%andb_true_iff Hp. rewrite forallb_forall in Hf. by apply Hf, list_elem_of_In, (list_elem_of_lookup_2 _ i). Qed.
Lemma rooted_first m : rooted m = true → ∃ p, msg_parts m !! O = Some p.
Proof. destruct m as [[|p ps]]; simpl; [by intros|by exists p]. Qed.
Lemma ok_part m i p : children_ok m = true → msg_parts m !! i = Some p → part_ok (Z.of_nat (length (msg_parts m))) p = true.
Proof. destruct m as [ps]. simpl. intros Hf Hp. rewrite forallb_forall in Hf. by apply Hf, list_elem_of_In, (list_elem_of_lookup_2 _ i). Qed.

(** A part and its row. *)
Lemma laid_out_row m base i p :
  laid_out flat m base → msg_parts m !! Z.to_nat i = Some p → 0 ≤ i →
  0 ≤ base ∧ ∃ fp, at_index flat (base + i) = Some fp ∧ shape base p fp ∧
    ∀ sub, part_body p = PtMessage sub → ∃ root, mp_kind fp = PbMessage root ∧ laid_out flat sub root.
Proof.
  intros [? base' Hb Hrows Hsub] Hp Hi. split; [done|]. destruct (Hrows _ p Hp) as (fp & Hfp & Hs). exists fp.
  replace (Z.to_nat base' + Z.to_nat i)%nat with (Z.to_nat (base' + i)) in Hfp by lia.
  split; [apply at_index_Some; split; [lia|done]|]. split; [done|]. intros sub Hsp.
  destruct (Hsub _ p sub Hp Hsp) as (fp' & root & Hfp' & Hk & Hl). exists root.
  replace (Z.to_nat base' + Z.to_nat i)%nat with (Z.to_nat (base' + i)) in Hfp' by lia. rewrite Hfp in Hfp'. injection Hfp' as <-. done.
Qed.

Definition found (r : option (Message * Z * Z)) (r' : option (Z * Z)) : Prop :=
  match r with
  | None => r' = None
  | Some (m, i, off) => ∃ base p, r' = Some (base + i, off) ∧ laid_out flat m base ∧ at_index (msg_parts m) i = Some p
  end.
(** One number, below the root of a message or a part of it. *)
Lemma step_found m base i p off root number path :
  (∀ c p', at_index (msg_parts m) c = Some p' → found (walk m c off false path) (resolve_steps flat (base + c) off false path)) →
  laid_out flat m base → children_ok m = true → at_index (msg_parts m) i = Some p →
  ∃ fp, at_index flat (base + i) = Some fp ∧ found
    (match part_body p with
     | PtMultipart children => child ← (if number <? 1 then None else at_index children (number - 1)); walk m child off false path
     | _ => if root && (number =? 1) then walk m i off false path else None
     end)
    (match mp_kind fp with
     | PbMultipart children => child ← (if number <? 1 then None else at_index children (number - 1)); resolve_steps flat child off false path
     | _ => if negb root || negb (number =? 1) then None else resolve_steps flat (base + i) off false path
     end).
Proof.
  intros IH Hl Hok Hp. apply at_index_Some in Hp as Hp'. destruct Hp' as [Hi Hpi].
  destruct (laid_out_row m base i p Hl Hpi Hi) as (Hb & fp & Hfp & (_ & _ & _ & _ & Hkind) & Hsub). exists fp. split; [done|].
  assert (found (if root && (number =? 1) then walk m i off false path else None)
            (if negb root || negb (number =? 1) then None else resolve_steps flat (base + i) off false path)) as Hsame.
  { destruct root, (number =? 1); simpl; try done. by apply (IH i p). }
  pose proof (ok_part m _ p Hok Hpi) as Hpok.
  destruct p as [hs oh ob oe enc [| | | |sub|children]]; simpl in *; try (rewrite Hkind; exact Hsame).
  - destruct (Hsub sub eq_refl) as (r & -> & _). exact Hsame.
  - rewrite Hkind. destruct (number <? 1); [done|]. rewrite at_index_fmap. destruct (at_index children (number - 1)) as [c|] eqn:Ec; [|done].
    simpl. apply at_index_Some in Ec as [_ Ec]. rewrite forallb_forall in Hpok. pose proof (Hpok c ltac:(by apply list_elem_of_In, (list_elem_of_lookup_2 _ _ _ Ec))) as Hc.
    destruct (lookup_lt_is_Some_2 (msg_parts m) (Z.to_nat c)) as [p' Hp']; [lia|]. apply (IH c p'). apply at_index_Some. split; [lia|done].
Qed.
Lemma walk_found path : ∀ m base i off first p,
  laid_out flat m base → children_ok m = true → rooted m = true → at_index (msg_parts m) i = Some p →
  found (walk m i off first path) (resolve_steps flat (base + i) off first path).
Proof.
  induction path as [|number path IH]; intros m base i off first p Hl Hok Hr Hp; [by exists base, p|].
  cbn [walk resolve_steps]. rewrite Hp. cbn [mbind option_bind]. apply at_index_Some in Hp as Hp'. destruct Hp' as [Hi Hpi].
  destruct (laid_out_row m base i p Hl Hpi Hi) as (Hb & fp & Hfp & (Hhs & Hhd & Hbody & Henc & Hkind) & Hsub).
  rewrite Hfp. cbn [mbind option_bind].
  assert (∀ root, found
    (match part_body p with
     | PtMultipart children => child ← (if number <? 1 then None else at_index children (number - 1)); walk m child off false path
     | _ => if root && (number =? 1) then walk m i off false path else None
     end)
    (match mp_kind fp with
     | PbMultipart children => child ← (if number <? 1 then None else at_index children (number - 1)); resolve_steps flat child off false path
     | _ => if negb root || negb (number =? 1) then None else resolve_steps flat (base + i) off false path
     end)) as Hhere.
  { intros root. destruct (step_found m base i p off root number path) as (fp' & Hfp' & Hf); [|done..|by rewrite Hfp in Hfp'; injection Hfp' as <-].
    intros c p' Hc. by eapply IH. }
  destruct first; [exact (Hhere true)|].
  destruct p as [hs oh ob oe enc [| | | |sub|children]]; cbn [part_body part_offset_body] in *;
    try (specialize (Hhere false); rewrite Hkind in Hhere |- *; cbn [mbind option_bind]; rewrite Hkind; exact Hhere).
  destruct (Hsub sub eq_refl) as (r & Hk & Hlsub). rewrite Hk. rewrite Hbody. cbn [rg_start].
  destruct (checked_add_u32 off ob) as [off'|]; [|done]. cbn [mbind option_bind].
  pose proof (rooted_part m _ _ Hr Hpi) as Hrs. pose proof (ok_part m _ _ Hok Hpi) as Hoks. simpl in Hrs, Hoks.
  destruct (rooted_first sub Hrs) as [p0 Hp0]. assert (at_index (msg_parts sub) 0 = Some p0) as Hp0' by (apply at_index_Some; split; [lia|done]).
  destruct (step_found sub r 0 p0 off' true number path) as (fp0 & Hfp0 & Hf); [|done..|].
  { intros c p' Hc. by eapply IH. }
  rewrite Z.add_0_r in Hfp0, Hf. rewrite Hp0', Hfp0. exact Hf.
Qed.
End paths.

(** The part a path numbers, and where its message starts. *)
Definition part_at `{MailParser} (m : Message) (path : list Z) : option (ParsedPart * Z) :=
  '(m', i, off) ← walk m 0 0 true path; p ← at_index (msg_parts m') i; Some (p, off).
(** The bytes from one offset of the message to another. *)
Definition bytes_between (raw : bytes) (off from to : Z) : option bytes := slice_get raw (as_u32 (off + from)) (as_u32 (off + to)).

(** C38. A body section is the section of the part it numbers.  Whatever the
    nesting, BODY[path] is the body of the part that the numbering of RFC 3501
    gives in the message as it was parsed, and BODY[path.MIME] its header; a
    path that numbers nothing gives nothing; and for an attached message
    BODY[path.HEADER] and BODY[path.TEXT] are the header and the body of the
    message it holds. *)
Theorem body_section_exact `{MailParser} m raw h t path :
  total_parts m < 2 ^ 32 → children_ok m = true → rooted m = true → path ≠ [] →
  let body := mkBody raw h t (flatten m) in
  resolve_section body (mkFetchSection path SecFull)
    = ('(p, off) ← part_at m path; bytes_between raw off (part_offset_body p) (part_offset_end p)) ∧
  resolve_section body (mkFetchSection path SecMime)
    = ('(p, off) ← part_at m path; bytes_between raw off (part_offset_header p) (part_offset_body p)) ∧
  (∀ p off sub root, part_at m path = Some (p, off) → part_body p = PtMessage sub → msg_parts sub !! O = Some root →
     off + part_offset_body p < 2 ^ 32 →
     let inner := off + part_offset_body p in
     resolve_section body (mkFetchSection path SecHeader) = bytes_between raw inner (part_offset_header root) (part_offset_body root) ∧
     resolve_section body (mkFetchSection path SecText) = bytes_between raw inner (part_offset_body root) (part_offset_end root)).
Proof.
  intros Ht Hok Hr Hpath. pose proof (flatten_laid_out m Ht Hok) as Hl. destruct (rooted_first m Hr) as [p0 Hp0].
  pose proof (walk_found (flatten m) path m 0 0 0 true p0 Hl Hok Hr ltac:(by apply at_index_Some)) as Hf. rewrite Z.add_0_r in Hf.
  unfold resolve_section, part_at, resolve_part. cbn [sec_path sec_text bd_parts]. rewrite bool_decide_false by done.
  destruct (walk m 0 0 true path) as [[[m' i] off]|]; cbn [found] in Hf; [|by rewrite Hf].
  destruct Hf as (base & p & -> & Hl' & Hp). cbn [mbind option_bind]. rewrite Hp. cbn [mbind option_bind].
  apply at_index_Some in Hp as Hp'. destruct Hp' as [Hi Hpi].
  destruct (laid_out_row (flatten m) m' base i p Hl' Hpi Hi) as (Hb & fp & Hfp & (_ & Hhd & Hbd & _ & Hkind) & Hsub). rewrite Hfp. cbn [mbind option_bind].
  unfold part_slice, bytes_between. rewrite Hhd, Hbd. split_and!; [done..|]. intros p' off' sub root [= <- <-] Hp' Hroot Hsum.
  destruct (Hsub sub Hp') as (r & -> & Hlsub). destruct (laid_out_row (flatten m) sub r 0 root Hlsub Hroot ltac:(lia)) as (_ & fr & Hfr & (_ & Hrh & Hrb & _) & _).
  rewrite Z.add_0_r in Hfr. rewrite Hfr. cbn [mbind option_bind rg_start]. unfold checked_add_u32.
  rewrite (proj2 (Z.ltb_lt _ _) Hsum). cbn [mbind option_bind]. by rewrite Hrh, Hrb.
Qed.

(** One piece more. *)
Lemma partial_of_take data a n : 0 ≤ a → 0 < n →
  take (Z.to_nat a) data ++ partial_of data a n = take (Z.to_nat (a + n)) data.
Proof.
  intros Ha Hn. unfold partial_of, slice_get. destruct (Z.le_gt_cases a (Z.of_nat (length data))) as [Hle|Hgt].
  - rewrite (proj2 (Z.leb_le a _)), (proj2 (Z.leb_le _ (Z.of_nat (length data)))) by lia. simpl. rewrite take_take_drop.
    destruct (Z.le_gt_cases (a + n) (Z.of_nat (length data))); [f_equal; lia|rewrite !take_ge by lia; done].
  - rewrite (proj2 (Z.leb_gt a _)) by lia. simpl. rewrite app_nil_r, !take_ge by lia. done.
Qed.
Lemma pieces_take data n k : 0 < n →
  mjoin ((λ i, partial_of data (Z.of_nat i * n) n) <$> seq 0 k) = take (Z.to_nat (Z.of_nat k * n)) data.
Proof.
  intros Hn. induction k as [|k IH]; [done|]. rewrite seq_S, fmap_app, join_app, IH. simpl. rewrite app_nil_r.
  rewrite partial_of_take by lia. f_equal. lia.
Qed.

(** Fetching a section piece by piece gives the section: the pieces
    <0.n>, <n.n>, <2n.n> and so on, as many as cover it, put together are its
    bytes, and a piece that starts beyond the end is empty. *)
Theorem partial_fetch_tiles (data : bytes) (n : Z) (k : nat) :
  0 < n → Z.of_nat (length data) ≤ Z.of_nat k * n →
  mjoin ((λ i, partial_of data (Z.of_nat i * n) n) <$> seq 0 k) = data ∧
  ∀ start, Z.of_nat (length data) < start → partial_of data start n = [].
Proof.
  intros Hn Hk. split; [rewrite pieces_take, take_ge by lia; done|].
  intros start Hs. unfold partial_of, slice_get. by rewrite (proj2 (Z.leb_gt start _)) by lia.
Qed.
Lemma partial_fetch_tiles_witness :
  mjoin ((λ i, partial_of (bs "header and body") (Z.of_nat i * 4) 4) <$> seq 0 4) = bs "header and body".
Proof. apply (partial_fetch_tiles (bs "header and body") 4 4); [lia|]. apply Z.leb_le. vm_compute. reflexivity. Defined.
