(* ===== verification/ImapEnvelope.v ===== *)
(** * IMAP: ENVELOPE and BODYSTRUCTURE (crates/imap/src/envelope.rs, bodystructure.rs)

    The two descriptions of a message FETCH prints, from what the mail parser
    says of its parts.  The multipart recursion follows indices into the part
    list, so it carries fuel; the parser lists a part before its children, and
    then the fuel is enough. *)

From S2P Require Import Prelude Bytes Text Fts MailParser Sieve MailModel MailMessage ImapParser ImapFetch.
From stdpp Require Import base list strings.
From Stdlib Require Import ZArith Lia.

Open Scope Z_scope.

(** What the two files read of a message beyond [MailParser]: the accessors of
    [Message] and [MimeHeaders] of the mail_parser library. *)
Record ContentType : Type := mkContentType {
  ct_type : bytes; ct_subtype : option bytes; ct_attributes : option (list (bytes * bytes)) }.
Class MimeView : Type := {
  msg_date_rfc822 : Message → option bytes;
  msg_sender : Message → option (list Addr);
  msg_reply_to : Message → option (list Addr);
  raw_message : Message → bytes;
  content_type : ParsedPart → option ContentType;
  content_id : ParsedPart → option bytes;
  content_description : ParsedPart → option bytes;
  content_transfer_encoding : ParsedPart → option bytes;
  content_disposition : ParsedPart → option ContentType;
  content_language : ParsedPart → option (list bytes);
  content_location : ParsedPart → option bytes;
}.

Definition NIL : bytes := bs "NIL".
(** [qstring] and [nstring]: the text in quotes, backslashes and quotes escaped. *)
Definition qstring (value : bytes) : bytes := quoted value.
Definition nstring (value : option bytes) : bytes := match value with Some v => qstring v | None => NIL end.
Definition bracket_id (id : bytes) : bytes :=
  let trimmed := str_trim id in if starts_with trimmed [60] then trimmed else [60] ++ trimmed ++ [62].
Definition format_address (a : Addr) : bytes :=
  let name := nstring (addr_name a) in
  let '(mailbox, host) :=
    match addr_address a with
    | Some value =>
        match rsplit_once 64 value with
        | Some (mailbox, host) => (nstring (Some mailbox), nstring (Some host))
        | None => (nstring (Some value), NIL)
        end
    | None => (NIL, NIL)
    end in
  [40] ++ name ++ bs " NIL " ++ mailbox ++ [32] ++ host ++ [41].
Definition address_list (a : option (list Addr)) : bytes :=
  match a with
  | None => NIL
  | Some l => let entries := l ≫= format_address in if bool_decide (entries = []) then NIL else [40] ++ entries ++ [41]
  end.

Section render.
Context `{MailParser} `{MimeView}.

Definition envelope_body (m : Message) : bytes :=
  let from := address_list (msg_from m) in
  let sender := match msg_sender m with Some _ => address_list (msg_sender m) | None => from end in
  let reply_to := match msg_reply_to m with Some _ => address_list (msg_reply_to m) | None => from end in
  [40] ++ Sieve.join [32]
    [nstring (msg_date_rfc822 m); nstring (msg_subject m); from; sender; reply_to; address_list (msg_to m);
     address_list (msg_cc m); address_list (msg_bcc m); nstring (bracket_id <$> value_as_text (in_reply_to m));
     nstring (bracket_id <$> msg_message_id m)] ++ [41].
Definition build_envelope (raw : bytes) : option bytes := (λ m, bs "ENVELOPE " ++ envelope_body m) <$> mp_parse raw.

Definition param_list (ct : option ContentType) : bytes :=
  match ct ≫= ct_attributes with
  | Some ((_ :: _) as attrs) => [40] ++ Sieve.join [32] ((λ a, qstring a.1 ++ [32] ++ qstring a.2) <$> attrs) ++ [41]
  | _ => NIL
  end.
Definition disposition (p : ParsedPart) : bytes :=
  match content_disposition p with
  | Some cd => [40] ++ qstring (ct_type cd) ++ [32] ++ param_list (Some cd) ++ [41]
  | None => NIL
  end.
Definition language (p : ParsedPart) : bytes :=
  match content_language p with
  | Some [one] => qstring one
  | Some ((_ :: _) as l) => [40] ++ Sieve.join [32] (qstring <$> l) ++ [41]
  | _ => NIL
  end.
Definition extension (p : ParsedPart) : bytes :=
  [32] ++ nstring None ++ [32] ++ disposition p ++ [32] ++ language p ++ [32] ++ nstring (content_location p).
Definition media_type (p : ParsedPart) (ct : option ContentType) : bytes * bytes :=
  let default_subtype := match part_body p with PtHtml => bs "html" | PtText => bs "plain" | _ => bs "octet-stream" end in
  let default_type := match part_body p with PtText | PtHtml => bs "text" | _ => bs "application" end in
  match ct with
  | Some ct => (ct_type ct, default default_subtype (ct_subtype ct))
  | None => (default_type, default_subtype)
  end.
Definition body_of_part (p : ParsedPart) (raw : bytes) : bytes :=
  default [] (slice_get raw (part_offset_body p) (part_offset_end p)).
Definition line_count (body : bytes) : Z := Z.of_nat (length (filter (λ b, b = LF) body)).
(** The fields single parts and attached messages share. *)
Definition basic_fields (p : ParsedPart) (body : bytes) : bytes :=
  param_list (content_type p) ++ [32] ++ nstring (bracket_id <$> content_id p) ++ [32] ++ nstring (content_description p)
    ++ [32] ++ qstring (default (bs "7bit") (content_transfer_encoding p)) ++ [32] ++ fmt_dec (Z.of_nat (length body)).
Definition single (p : ParsedPart) (raw : bytes) (extended : bool) : bytes :=
  let '(media, subtype) := media_type p (content_type p) in
  let body := body_of_part p raw in
  [40] ++ qstring media ++ [32] ++ qstring subtype ++ [32] ++ basic_fields p body
    ++ (if eq_ignore_ascii_case media (bs "text") then [32] ++ fmt_dec (line_count body) else [])
    ++ (if extended then extension p else []) ++ [41].
Definition message_part (p : ParsedPart) (nested : Message) (inner raw : bytes) (extended : bool) : bytes :=
  let body := body_of_part p raw in
  [40] ++ qstring (bs "message") ++ [32] ++ qstring (bs "rfc822") ++ [32] ++ basic_fields p body
    ++ [32] ++ envelope_body nested ++ [32] ++ inner ++ [32] ++ fmt_dec (line_count body)
    ++ (if extended then extension p else []) ++ [41].
Definition multipart (p : ParsedPart) (inner : bytes) (extended : bool) : bytes :=
  [40] ++ inner ++ [32] ++ qstring (default (bs "mixed") (content_type p ≫= ct_subtype))
    ++ (if extended then [32] ++ param_list (content_type p) ++ [32] ++ disposition p ++ [32] ++ language p ++ [32] ++ nstring (content_location p)
        else []) ++ [41].

(** [part_structure]; [None] is a recursion that has not ended. *)
Fixpoint part_structure (fuel : nat) (m : Message) (part_id : Z) (raw : bytes) (extended : bool) : option bytes :=
  match fuel with
  | O => None
  | S fuel =>
      match at_index (msg_parts m) part_id with
      | None => Some NIL
      | Some p =>
          match part_body p with
          | PtMultipart children =>
              inner ← mapM (λ c, part_structure fuel m c raw extended) children; Some (multipart p (mjoin inner) extended)
          | PtMessage nested =>
              inner ← part_structure fuel nested 0 (raw_message nested) extended; Some (message_part p nested inner raw extended)
          | _ => Some (single p raw extended)
          end
      end
  end.
(** As deep as the parts are many. *)
Definition structure_fuel (m : Message) : nat := S (Z.to_nat (total_parts m)).
Definition build_bodystructure (raw : bytes) (extended : bool) : option (option bytes) :=
  match mp_parse raw with
  | None => Some None
  | Some m => Some <$> part_structure (structure_fuel m) m 0 raw extended
  end.
End render.

(** ** The recursion ends *)

(** The parser lists the children of a part after it. *)
Fixpoint descending (m : Message) : bool :=
  let 'mkParsed ps := m in
  (fix go (i : Z) (ps : list ParsedPart) : bool := match ps with [] => true | p :: ps => part_descending i p && go (i + 1) ps end) 0 ps
with part_descending (i : Z) (p : ParsedPart) : bool :=
  let 'mkPart _ _ _ _ _ b := p in
  match b with
  | PtMultipart children => forallb (λ c, i <? c) children
  | PtMessage sub => descending sub
  | _ => true
  end.
(** The parts from an index on, with what is attached to them. *)
Definition weight (ps : list ParsedPart) : Z := foldr (λ p n, 1 + attached_parts p + n) 0 ps.
Lemma weight_drop_le ps i j : Forall (λ p, 0 ≤ attached_parts p) ps → (i ≤ j)%nat → weight (drop j ps) ≤ weight (drop i ps).
Proof.
  revert i j. induction ps as [|p ps IH]; intros i j Hps Hij; [by rewrite !drop_nil|]. inversion Hps; subst. destruct i as [|i], j as [|j]; simpl; try lia.
  - specialize (IH 0%nat j H2 ltac:(lia)). rewrite drop_0 in IH. lia.
  - apply IH; [done|lia].
Qed.
Lemma total_weight m : total_parts m = weight (msg_parts m).
Proof. destruct m as [ps]. cbn [total_parts msg_parts]. unfold weight. induction ps as [|p ps IH]; [done|]. cbn [length foldr]. lia. Qed.
Lemma attached_nonneg : ∀ p, 0 ≤ attached_parts p.
Proof.
  fix IH 1. intros [hs oh ob oe enc [| | | |[ps]|cs]]; cbn [attached_parts]; try lia. cbn [total_parts].
  enough (0 ≤ foldr (λ p, Z.add (attached_parts p)) 0 ps) by lia. induction ps as [|p ps IHps]; [done|]. cbn [foldr]. specialize (IH p). lia.
Qed.
Lemma weight_nonneg ps : 0 ≤ weight ps.
Proof. induction ps as [|p ps IH]; [done|]. unfold weight in *. cbn [foldr]. pose proof (attached_nonneg p). lia. Qed.
Lemma descending_part m i p : descending m = true → msg_parts m !! i = Some p → part_descending (Z.of_nat i) p = true.
Proof.
  destruct m as [ps]. cbn [descending msg_parts]. rewrite <-(Z.add_0_l (Z.of_nat i)). generalize 0 as k. revert i.
  induction ps as [|x ps IH]; intros i k; [done|]. intros [Hx Hps]%andb_true_iff. destruct i as [|i]; simpl; [intros [= <-]; by rewrite Z.add_0_r|].
  intros Hp. replace (k + Z.of_nat (S i)) with (k + 1 + Z.of_nat i) by lia. by apply IH.
Qed.

Section ends.
Context `{MailParser} `{MimeView}.
Lemma part_structure_ends fuel : ∀ m i raw extended, descending m = true → 0 ≤ i →
  weight (drop (Z.to_nat i) (msg_parts m)) < Z.of_nat fuel → is_Some (part_structure fuel m i raw extended).
Proof.
  induction fuel as [|fuel IH]; intros m i raw extended Hd Hi Hw; [pose proof (weight_nonneg (drop (Z.to_nat i) (msg_parts m))); lia|].
  cbn [part_structure]. destruct (at_index (msg_parts m) i) as [p|] eqn:Ep; [|by eexists]. apply at_index_Some in Ep as [_ Ep].
  rewrite (drop_S _ p) in Hw by done. unfold weight in Hw. cbn [foldr] in Hw. fold (weight (drop (S (Z.to_nat i)) (msg_parts m))) in Hw.
  pose proof (descending_part m _ p Hd Ep) as Hpd. destruct p as [hs oh ob oe enc [| | | |sub|children]]; cbn [part_body part_descending attached_parts] in *; try by eexists.
  - destruct (IH sub 0 (raw_message sub) extended Hpd) as [inner ->]; [lia| |by eexists].
    rewrite drop_0, <-total_weight. pose proof (weight_nonneg (drop (S (Z.to_nat i)) (msg_parts m))). lia.
  - destruct (mapM (λ c, part_structure fuel m c raw extended) children) as [inner|] eqn:E; [by eexists|]. exfalso.
    apply mapM_None in E. apply Exists_exists in E as (c & Hc & E). rewrite forallb_forall in Hpd.
    pose proof (Hpd c ltac:(by apply list_elem_of_In)) as Hlt. apply Z.ltb_lt in Hlt.
    destruct (IH m c raw extended Hd) as [x Ex]; [lia| |congruence].
    pose proof (weight_drop_le (msg_parts m) (S (Z.to_nat i)) (Z.to_nat c)) as Hle.
    assert (weight (drop (Z.to_nat c) (msg_parts m)) ≤ weight (drop (S (Z.to_nat i)) (msg_parts m))).
    { apply Hle; [apply Forall_forall; intros; apply attached_nonneg|lia]. }
    lia.
Qed.
(** What the parser lists in its order is described to the end. *)
Lemma bodystructure_ends raw extended :
  (∀ m, mp_parse raw = Some m → descending m = true) → is_Some (build_bodystructure raw extended).
Proof.
  intros Hd. unfold build_bodystructure. destruct (mp_parse raw) as [m|]; [|by eexists].
  destruct (part_structure_ends (structure_fuel m) m 0 raw extended) as [x ->]; [by apply Hd|lia| |by eexists].
  rewrite drop_0, <-total_weight. unfold structure_fuel. pose proof (weight_nonneg (msg_parts m)) as Hw. rewrite <-total_weight in Hw. lia.
Qed.

Lemma escape_crlf c x p q : c ≠ CR → c ≠ LF → escape_bytes c x (p ++ CRLF ++ q) = escape_bytes c x p ++ CRLF ++ escape_bytes c x q.
Proof.
  intros H1 H2. unfold escape_bytes. rewrite !bind_app. f_equal. unfold CRLF. cbn [mbind list_bind].
  by rewrite (proj2 (Z.eqb_neq CR c)), (proj2 (Z.eqb_neq LF c)).
Qed.

(** A subject with a line break in it breaks the answer to FETCH ENVELOPE:
    the quoted string escapes quotes and backslashes only, so the line break
    goes to the client as it is, with what follows it on a line of its own. *)
Theorem envelope_line_broken m p q :
  msg_subject m = Some (p ++ CRLF ++ q) → ∃ a b, envelope_body m = a ++ CRLF ++ b.
Proof.
  intros Hs. unfold envelope_body. rewrite Hs. unfold nstring at 2, qstring, quoted. rewrite !escape_crlf by done.
  set (e := escape_bytes QUOTE _). set (x := nstring (msg_date_rfc822 m)).
  eexists ([40] ++ x ++ [32] ++ [QUOTE] ++ e (escape_bytes BACKSLASH [BACKSLASH; BACKSLASH] p)), _.
  cbn [Sieve.join]. repeat rewrite <-app_assoc. reflexivity.
Qed.
End ends.
