(* ===== verification/ImapCommands.v ===== *)
(** * IMAP: commands and their answers (crates/imap/src/cmd_*.rs)

    The arguments of the commands as they are read from the tokens, and the
    lines that answer: LIST patterns, SELECT and STATUS, STORE, APPEND, SORT,
    THREAD, UID, LOGIN and AUTHENTICATE, ENABLE, CAPABILITY, QUOTA.  The
    theorem: a LIST pattern matches exactly the names its wildcards describe. *)

From S2P Require Import Prelude Bytes Text Fts MailParser Sieve MailModel MailMessage MailCache Pop3Commands ImapParser ImapSequence ImapDate ImapFetch.
From stdpp Require Import base list strings.
From Stdlib Require Import ZArith Lia.

Open Scope Z_scope.

(** [parsed.args.first().and_then(Token::as_str)] and the like. *)
Definition arg_str (args : list Token) (i : nat) : option bytes := args !! i ≫= as_str.
Definition arg_or_empty (args : list Token) (i : nat) : bytes := default [] (arg_str args i).
Definition quoted_slash : bytes := [QUOTE; 47; QUOTE].

(** ** cmd_list.rs *)

Record ListCommand : Type := mkList {
  lc_reference : bytes; lc_patterns : list bytes; lc_subscribed_only : bool; lc_special_use_only : bool;
  lc_recursive_match : bool; lc_ret_subscribed : bool; lc_ret_status : option (list bytes) }.
Inductive ListParse : Type := LpCommand (c : ListCommand) | LpBad (reason : bytes).
Definition is_word (w : bytes) (s : string) : bool := bool_decide (to_ascii_uppercase w = bs s).
(** The RETURN options: STATUS takes the token after it, whatever it is. *)
Fixpoint list_returns (tokens : list Token) (sub : bool) (status : option (list bytes)) : bool * option (list bytes) :=
  match tokens with
  | [] => (sub, status)
  | t :: tokens =>
      match as_str t with
      | None => list_returns tokens sub status
      | Some word =>
          if is_word word "SUBSCRIBED" then list_returns tokens true status
          else if is_word word "STATUS" then
            match tokens with
            | TList items :: tokens => list_returns tokens sub (Some (to_ascii_uppercase <$> words_of items))
            | _ :: tokens => list_returns tokens sub status
            | [] => (sub, status)
            end
          else list_returns tokens sub status
      end
  end.
Definition parse_list (args : list Token) : ListParse :=
  let '(subscribed, recursive, special, index) :=
    match args with
    | TList options :: _ =>
        let ws := words_of options in
        (existsb (λ w, is_word w "SUBSCRIBED") ws, existsb (λ w, is_word w "RECURSIVEMATCH") ws, existsb (λ w, is_word w "SPECIAL-USE") ws, 1%nat)
    | _ => (false, false, false, 0%nat)
    end in
  if recursive && negb subscribed then LpBad (bs "RECURSIVEMATCH requires SUBSCRIBED")
  else
    let reference := arg_or_empty args index in
    let patterns :=
      match args !! (index + 1)%nat with
      | Some (TList patterns) => words_of patterns
      | Some other => [default [] (as_str other)]
      | None => [[]]
      end in
    let '(ret_subscribed, ret_status) :=
      if match arg_str args (index + 2) with Some w => eq_ignore_ascii_case w (bs "RETURN") | None => false end
      then match args !! (index + 3)%nat with Some (TList options) => list_returns options false None | _ => (false, None) end
      else (false, None) in
    LpCommand (mkList reference patterns subscribed special recursive ret_subscribed ret_status).

Definition display_name (m : Mailbox) : bytes := if bool_decide (mb_role m = UseInbox) then bs "INBOX" else mb_name m.
(** [matches_pattern], by recursion on the pattern and, for a wildcard, on the name. *)
Fixpoint matches_pattern (pattern name : bytes) (delim : Z) : bool :=
  match pattern with
  | [] => bool_decide (name = [])
  | first :: pattern =>
      if first =? 42 then
        (fix star (name : bytes) : bool :=
           matches_pattern pattern name delim || match name with [] => false | _ :: name => star name end) name
      else if first =? 37 then
        (fix percent (name : bytes) : bool :=
           matches_pattern pattern name delim
           || match name with [] => false | c :: name => negb (c =? delim) && percent name end) name
      else match name with [] => false | c :: name => (c =? first) && matches_pattern pattern name delim end
  end.
Definition matched (pattern name : bytes) (role : SpecialUse) : bool :=
  if bool_decide (role = UseInbox) then matches_pattern (to_ascii_uppercase pattern) (to_ascii_uppercase name) 47
  else matches_pattern pattern name 47.
Definition attributes (m : Mailbox) (ms : list Mailbox) : bytes :=
  let prefix := display_name m ++ [47] in
  Sieve.join [32] ((match attribute (mb_role m) with Some special => [special] | None => [] end)
    ++ [if existsb (λ o, starts_with (display_name o) prefix) ms then bs "\HasChildren" else bs "\HasNoChildren"]).
Definition extended_line (m : Mailbox) (ms : list Mailbox) (subscribed : bool) : bytes :=
  bs "* LIST (" ++ attributes m ms ++ (if subscribed then bs " \Subscribed" else []) ++ bs ") " ++ quoted_slash ++ [32]
    ++ quoted (display_name m) ++ CRLF.
Definition childinfo_line (name : bytes) (exists_ : bool) : bytes :=
  bs "* LIST (" ++ (if exists_ then [] else bs "\NonExistent") ++ bs ") " ++ quoted_slash ++ [32] ++ quoted name
    ++ bs " (" ++ quoted (bs "CHILDINFO") ++ bs " (" ++ quoted (bs "SUBSCRIBED") ++ bs "))" ++ CRLF.
Definition noselect_line (label : bytes) : bytes :=
  bs "* " ++ label ++ bs " (\Noselect) " ++ quoted_slash ++ [32; QUOTE; QUOTE] ++ CRLF.
Definition list_responses (label : bytes) (ms : list Mailbox) (reference pattern : bytes) : list bytes :=
  let combined := reference ++ pattern in
  if bool_decide (combined = []) then [noselect_line label]
  else
    (λ m, bs "* " ++ label ++ bs " (" ++ attributes m ms ++ bs ") " ++ quoted_slash ++ [32] ++ quoted (display_name m) ++ CRLF)
      <$> filter (λ m, matched combined (display_name m) (mb_role m) = true) ms.
Definition lsub_responses (ms : list Mailbox) (reference pattern : bytes) : list bytes := list_responses (bs "LSUB") ms reference pattern.

(** ** cmd_status.rs, cmd_select.rs, cmd_examine.rs *)

Record StatusValues : Type := mkStatus {
  sv_messages : Z; sv_recent : Z; sv_uidnext : Z; sv_uidvalidity : Z; sv_unseen : Z; sv_highest_modseq : Z }.
Definition DEFAULT_ITEMS : list bytes := bs <$> ["MESSAGES"; "RECENT"; "UIDNEXT"; "UIDVALIDITY"]%string.
Definition requested_items (arg : option Token) : list bytes :=
  match arg ≫= as_list with
  | Some ((_ :: _) as items) => to_ascii_uppercase <$> words_of items
  | _ => DEFAULT_ITEMS
  end.
Definition status_value (v : StatusValues) (item : bytes) : option Z :=
  if bool_decide (item = bs "MESSAGES") then Some (sv_messages v)
  else if bool_decide (item = bs "RECENT") then Some (sv_recent v)
  else if bool_decide (item = bs "UIDNEXT") then Some (sv_uidnext v)
  else if bool_decide (item = bs "UIDVALIDITY") then Some (sv_uidvalidity v)
  else if bool_decide (item = bs "UNSEEN") then Some (sv_unseen v)
  else if bool_decide (item = bs "HIGHESTMODSEQ") then Some (Z.max (sv_highest_modseq v) 1)
  else None.
Definition status_line (name : bytes) (requested : list bytes) (v : StatusValues) : bytes :=
  bs "* STATUS " ++ quoted name ++ bs " ("
    ++ Sieve.join [32] (omap (λ item, (λ n, item ++ [32] ++ fmt_dec n) <$> status_value v item) requested) ++ bs ")" ++ CRLF.

Definition SYSTEM_FLAGS : bytes := bs "\Answered \Flagged \Deleted \Seen \Draft".
Record SelectView : Type := mkView {
  vw_exists : Z; vw_recent : Z; vw_unseen : option Z; vw_uidnext : Z; vw_uidvalidity : Z; vw_highest_modseq : Z }.
Record QresyncParam : Type := mkQresync { qr_uidvalidity : Z; qr_modseq : Z; qr_known_uids : option (list SeqRange) }.
Record SelectParams : Type := mkSelect { sp_condstore : bool; sp_qresync : option QresyncParam }.
Definition parse_qresync (inner : list Token) : option QresyncParam :=
  uidvalidity ← arg_str inner 0 ≫= parse_u32; modseq ← arg_str inner 1 ≫= parse_u64;
  Some (mkQresync uidvalidity modseq (arg_str inner 2 ≫= parse_sequence_set)).
Fixpoint select_options (tokens : list Token) (p : SelectParams) : SelectParams :=
  match tokens with
  | [] => p
  | t :: tokens =>
      match as_str t with
      | None => select_options tokens p
      | Some word =>
          if eq_ignore_ascii_case word (bs "CONDSTORE") then select_options tokens (mkSelect true (sp_qresync p))
          else if eq_ignore_ascii_case word (bs "QRESYNC") then
            match tokens with
            | TList inner :: tokens =>
                select_options tokens (match parse_qresync inner with Some q => mkSelect (sp_condstore p) (Some q) | None => p end)
            | _ :: tokens => select_options tokens p
            | [] => p
            end
          else select_options tokens p
      end
  end.
Definition parse_select_params (arg : option Token) : SelectParams :=
  match arg with Some (TList items) => select_options items (mkSelect false None) | _ => mkSelect false None end.
Definition select_responses (v : SelectView) (read_only : bool) : list bytes :=
  [bs "* " ++ fmt_dec (vw_exists v) ++ line " EXISTS"; bs "* " ++ fmt_dec (vw_recent v) ++ line " RECENT"]
  ++ (match vw_unseen v with Some n => [bs "* OK [UNSEEN " ++ fmt_dec n ++ line "] first unseen message"] | None => [] end)
  ++ [bs "* OK [UIDVALIDITY " ++ fmt_dec (vw_uidvalidity v) ++ line "] uid validity";
      bs "* OK [UIDNEXT " ++ fmt_dec (vw_uidnext v) ++ line "] predicted next uid";
      bs "* OK [HIGHESTMODSEQ " ++ fmt_dec (Z.max (vw_highest_modseq v) 1) ++ line "] highest mod-sequence";
      bs "* FLAGS (" ++ SYSTEM_FLAGS ++ line ")";
      if read_only then line "* OK [PERMANENTFLAGS ()] no permanent flags"
      else bs "* OK [PERMANENTFLAGS (" ++ SYSTEM_FLAGS ++ line " \*)] limited"].
Definition select_completion (tag command : bytes) (read_only : bool) : bytes :=
  tag ++ bs " OK [" ++ (if read_only then bs "READ-ONLY" else bs "READ-WRITE") ++ bs "] " ++ command ++ line " completed".

(** ** cmd_store.rs *)

Inductive StoreMode : Type := StReplace | StAdd | StRemove.
Record StoreOp : Type := mkStoreOp { so_mode : StoreMode; so_silent : bool; so_flags : list bytes }.
Definition parse_unchanged_since (token : option Token) : option Z :=
  match token with
  | Some (TList items) =>
      match words_of items with
      | first :: words => if eq_ignore_ascii_case first (bs "UNCHANGEDSINCE") then head words ≫= parse_u64 else None
      | [] => None
      end
  | _ => None
  end.
Definition parse_store (item : option bytes) (flags_arg : option Token) : option StoreOp :=
  item ← item;
  let item := to_ascii_uppercase item in
  let '(mode, rest) :=
    match Text.strip_prefix [43] item with
    | Some rest => (StAdd, rest)
    | None => match Text.strip_prefix [45] item with Some rest => (StRemove, rest) | None => (StReplace, item) end
    end in
  let '(silent, base) := match Text.strip_suffix (bs ".SILENT") rest with Some base => (true, base) | None => (false, rest) end in
  if negb (bool_decide (base = bs "FLAGS")) then None
  else
    flags ← match flags_arg with
            | Some (TList items) => Some (words_of items)
            | Some other => (λ f, [f]) <$> as_str other
            | None => None
            end;
    Some (mkStoreOp mode silent flags).

(** ** cmd_append.rs *)

Record AppendCommand : Type := mkAppendCommand {
  ap_mailbox : bytes; ap_flags : list bytes; ap_internaldate : option Z; ap_literal_len : Z; ap_sync : bool }.
Inductive AppendError : Type := ApMissingMailbox | ApMissingLiteral | ApBadDate (literal_len : Z) (sync : bool).
Record AppendGroup : Type := mkGroup { ag_flags : list bytes; ag_internaldate : option Z; ag_literal_len : Z; ag_sync : bool }.
Inductive Continuation : Type := CtEnd | CtGroup (g : AppendGroup) | CtBad (literal_len : Z) (sync : bool).
Definition first_list (args : list Token) : list bytes := default [] (words_of <$> head (omap as_list args)).
Definition first_quoted (args : list Token) : option bytes :=
  head (omap (λ t, match t with TQuoted v => Some v | _ => None end) args).
Definition parse_append (args : list Token) : AppendCommand + AppendError :=
  match arg_str args 0 with
  | None => inr ApMissingMailbox
  | Some mailbox =>
      match last args with
      | Some (TLiteral len sync) =>
          let flags := first_list args in
          match first_quoted (drop 1 (take (length args - 1) args)) with
          | None => inl (mkAppendCommand mailbox flags None len sync)
          | Some value =>
              match parse_internaldate value with
              | Some stamp => inl (mkAppendCommand mailbox flags (Some stamp) len sync)
              | None => inr (ApBadDate len sync)
              end
          end
      | _ => inr ApMissingLiteral
      end
  end.
Definition parse_continuation (tokens : list Token) : Continuation :=
  match last tokens with
  | Some (TLiteral len sync) =>
      let flags := first_list tokens in
      match first_quoted (take (length tokens - 1) tokens) with
      | None => CtGroup (mkGroup flags None len sync)
      | Some value =>
          match parse_internaldate value with
          | Some stamp => CtGroup (mkGroup flags (Some stamp) len sync)
          | None => CtBad len sync
          end
      end
  | _ => CtEnd
  end.
Definition APPEND_CONTINUE : bytes := line "+ ready for literal data".
Definition try_create (tag : bytes) : bytes := tag ++ line " NO [TRYCREATE] mailbox does not exist".
Definition append_bad (tag : bytes) : bytes := tag ++ line " BAD APPEND requires a mailbox and a message literal".
Definition too_big (tag : bytes) : bytes := tag ++ line " NO [TOOBIG] message exceeds the fixed limit".

(** ** cmd_sort.rs, cmd_thread.rs, cmd_uid.rs *)

Inductive SortKey : Type := SkArrival | SkDate | SkSize | SkFrom | SkTo | SkCc | SkSubject.
Record SortSpec : Type := mkSpec { ss_key : SortKey; ss_reverse : bool }.
Definition needs_headers (s : SortSpec) : bool := match ss_key s with SkFrom | SkTo | SkCc | SkSubject => true | _ => false end.
Definition sort_key (word : bytes) : option SortKey :=
  if is_word word "ARRIVAL" then Some SkArrival else if is_word word "DATE" then Some SkDate
  else if is_word word "SIZE" then Some SkSize else if is_word word "FROM" then Some SkFrom
  else if is_word word "TO" then Some SkTo else if is_word word "CC" then Some SkCc
  else if is_word word "SUBJECT" then Some SkSubject else None.
Fixpoint sort_specs (words : list bytes) (reverse : bool) (specs : list SortSpec) : option (list SortSpec) :=
  match words with
  | [] => if bool_decide (specs = []) || reverse then None else Some specs
  | w :: words =>
      if is_word w "REVERSE" then sort_specs words true specs
      else key ← sort_key w; sort_specs words false (specs ++ [mkSpec key reverse])
  end.
Definition parse_sort_keys (arg : option Token) : option (list SortSpec) :=
  match arg with Some (TList items) => sort_specs (words_of items) false [] | _ => None end.
(** Every turn takes a prefix away. *)
Fixpoint base_subject_go (fuel : nat) (current : bytes) : bytes :=
  match fuel with
  | O => current
  | S fuel =>
      let lower := to_ascii_lowercase current in
      match List.find (λ p, starts_with lower p) [bs "re:"; bs "fw:"; bs "fwd:"] with
      | Some prefix => base_subject_go fuel (str_trim_start (drop (length prefix) current))
      | None => current
      end
  end.
Definition base_subject (subject : bytes) : bytes :=
  let current := str_trim subject in to_ascii_lowercase (str_trim (base_subject_go (length current) current)).
Definition numbers_line (label : bytes) (ids : list Z) : bytes := label ++ (ids ≫= λ id, [32] ++ fmt_dec id).
Definition sort_response (ids : list Z) : bytes := numbers_line (bs "* SORT") ids ++ CRLF.
Inductive ThreadAlgorithm : Type := ThReferences | ThOrderedSubject.
Definition parse_algorithm (word : bytes) : option ThreadAlgorithm :=
  if is_word word "REFERENCES" then Some ThReferences else if is_word word "ORDEREDSUBJECT" then Some ThOrderedSubject else None.
Definition thread_response (groups : list (list Z)) : bytes :=
  bs "* THREAD" ++ (if bool_decide (groups = []) then [] else [32])
    ++ (groups ≫= λ g, [40] ++ Sieve.join [32] (fmt_dec <$> g) ++ [41]) ++ CRLF.
Inductive UidCommand : Type := UFetch | USearch | UStore | UCopy | UMove | UExpunge | USort | UThread | UUnknown.
Definition uid_command (name : bytes) : UidCommand :=
  if is_word name "FETCH" then UFetch else if is_word name "SEARCH" then USearch else if is_word name "STORE" then UStore
  else if is_word name "COPY" then UCopy else if is_word name "MOVE" then UMove else if is_word name "EXPUNGE" then UExpunge
  else if is_word name "SORT" then USort else if is_word name "THREAD" then UThread else UUnknown.
Definition uid_subcommand (args : list Token) : UidCommand * list Token :=
  match args with
  | [] => (UUnknown, [])
  | first :: rest => (match as_str first with Some w => uid_command w | None => UUnknown end, rest)
  end.

(** ** cmd_login.rs, cmd_authenticate.rs, cmd_enable.rs, cmd_capability.rs, cmd_quota.rs, cmd_idle.rs *)

Definition PRIVACY_REQUIRED : bytes := bs "[PRIVACYREQUIRED] LOGIN is disabled on a cleartext connection".
Definition AUTH_FAILED : bytes := bs "[AUTHENTICATIONFAILED] credentials rejected".
Definition THROTTLED : bytes := bs "[LIMIT] Too many failed authentication attempts".
Definition parse_login (args : list Token) : option Credentials :=
  username ← arg_str args 0; password ← arg_str args 1; Some (mkCredentials username password).

Inductive ImapStep : Type := IChallenge (text : bytes) | IResolved (c : Credentials) | IFailed (status text : bytes).
Inductive ImapStart : Type := IReply (status text : bytes) | IContinue (exchange : SaslExchange) (step : ImapStep).
Section sasl.
Context `{Base64}.
Definition bad_step (reason : string) : ImapStep := IFailed (bs "BAD") (bs reason).
Definition imap_advance (exchange : SaslExchange) (response : bytes) : ImapStep * SaslExchange :=
  match b64_decode (str_trim response) with
  | None => (bad_step "Invalid base64 in authentication response", exchange)
  | Some decoded =>
      match exchange with
      | PlainAwaitingResponse =>
          (match decode_plain decoded with Some c => IResolved c | None => bad_step "Malformed PLAIN authentication response" end,
           PlainAwaitingResponse)
      | LoginAwaitingUsername =>
          match from_utf8 decoded with
          | Some u => (IChallenge (b64_encode (bs "Password:")), LoginAwaitingPassword u)
          | None => (bad_step "Invalid username encoding", PlainAwaitingResponse)
          end
      | LoginAwaitingPassword u =>
          (match from_utf8 decoded with Some p => IResolved (mkCredentials u p) | None => bad_step "Invalid password encoding" end,
           PlainAwaitingResponse)
      end
  end.
Definition imap_begin_exchange (exchange : SaslExchange) (challenge : bytes) (initial : option bytes) : ImapStart :=
  match initial with
  | Some response => let '(step, exchange) := imap_advance exchange response in IContinue exchange step
  | None => IContinue exchange (IChallenge challenge)
  end.
Definition imap_sasl_begin (mechanism : Mechanism) (is_tls authenticated : bool) (initial : option bytes) : ImapStart :=
  if authenticated then IReply (bs "NO") (bs "Already authenticated")
  else if negb is_tls then IReply (bs "NO") (bs "[PRIVACYREQUIRED] AUTHENTICATE requires TLS")
  else
    match mechanism with
    | MPlain => imap_begin_exchange PlainAwaitingResponse [] initial
    | MLogin => imap_begin_exchange LoginAwaitingUsername (b64_encode (bs "Username:")) initial
    | MUnsupported => IReply (bs "NO") (bs "Unsupported authentication mechanism")
    end.
End sasl.

Definition parse_enable (args : list Token) : bool * bool :=
  let ws := words_of args in
  let qresync := existsb (λ w, eq_ignore_ascii_case w (bs "QRESYNC")) ws in
  (existsb (λ w, eq_ignore_ascii_case w (bs "CONDSTORE")) ws || qresync, qresync).
Definition enabled_line (args : list Token) : bytes :=
  bs "* ENABLED " ++ Sieve.join [32] (omap (λ w,
    if eq_ignore_ascii_case w (bs "CONDSTORE") then Some (bs "CONDSTORE")
    else if eq_ignore_ascii_case w (bs "QRESYNC") then Some (bs "QRESYNC") else None) (words_of args)) ++ CRLF.
Definition capability_codes (is_tls authenticated : bool) : bytes :=
  Sieve.join [32] (bs <$> (["IMAP4rev1"]%string ++ (if is_tls then [] else ["STARTTLS"; "LOGINDISABLED"]%string)
    ++ ["IDLE"; "UIDPLUS"; "MOVE"; "LITERAL+"; "NAMESPACE"; "SPECIAL-USE"; "CHILDREN"; "ID"; "UNSELECT"; "ENABLE"; "CONDSTORE"; "QRESYNC";
        "ESEARCH"; "SEARCHRES"; "MULTIAPPEND"; "QUOTA"; "LIST-EXTENDED"; "LIST-STATUS"; "SORT"; "THREAD=REFERENCES"; "THREAD=ORDEREDSUBJECT"]%string
    ++ (if is_tls && negb authenticated then ["AUTH=PLAIN"; "AUTH=LOGIN"; "SASL-IR"]%string else []))).
Definition capability_line (is_tls authenticated : bool) : bytes := bs "* CAPABILITY " ++ capability_codes is_tls authenticated ++ CRLF.

Record QuotaLimitsView : Type := mkQuotaView { qv_used_bytes : Z; qv_byte_limit : option Z; qv_used_messages : Z; qv_message_limit : option Z }.
Definition quotaroot_line (mailbox : bytes) : bytes := bs "* QUOTAROOT " ++ quoted mailbox ++ [32; QUOTE; QUOTE] ++ CRLF.
Definition quota_line (v : QuotaLimitsView) : bytes :=
  bs "* QUOTA " ++ [QUOTE; QUOTE] ++ bs " (" ++ Sieve.join [32]
    ((match qv_byte_limit v with Some limit => [bs "STORAGE " ++ fmt_dec (qv_used_bytes v / 1024) ++ [32] ++ fmt_dec (limit / 1024)] | None => [] end)
     ++ (match qv_message_limit v with Some limit => [bs "MESSAGE " ++ fmt_dec (qv_used_messages v) ++ [32] ++ fmt_dec limit] | None => [] end))
    ++ bs ")" ++ CRLF.

Inductive SubscribeOutcome : Type := SbSubscribed | SbAlready | SbMissing | SbFailed.
Definition subscribe_response (tag : bytes) (o : SubscribeOutcome) : bytes :=
  tag ++ match o with
         | SbSubscribed => line " OK SUBSCRIBE completed"
         | SbAlready => line " NO mailbox is already subscribed"
         | SbMissing => line " NO [NONEXISTENT] mailbox does not exist"
         | SbFailed => line " NO SUBSCRIBE failed"
         end.
Inductive UnsubscribeOutcome : Type := UnUnsubscribed | UnNotSubscribed | UnFailed.
Definition unsubscribe_response (tag : bytes) (o : UnsubscribeOutcome) : bytes :=
  tag ++ match o with
         | UnUnsubscribed => line " OK UNSUBSCRIBE completed"
         | UnNotSubscribed => line " NO mailbox is not subscribed"
         | UnFailed => line " NO UNSUBSCRIBE failed"
         end.
Definition NAMESPACE_LINE : bytes := bs "* NAMESPACE ((" ++ [QUOTE; QUOTE; 32] ++ quoted_slash ++ line ")) NIL NIL".
Definition IDLE_CONTINUE : bytes := line "+ idling".
Definition IDLE_TIMED_OUT : bytes := line "* BYE IDLE timed out".
Definition idle_done (l : bytes) : bool :=
  eq_ignore_ascii_case (take_while (λ b, negb ((b =? CR) || (b =? LF))) l) (bs "DONE").
Inductive StartTlsReply : Type := TlsReady | TlsAlreadySecure | TlsNotAvailable.
Definition starttls_reply (is_tls has_acceptor : bool) : StartTlsReply :=
  if is_tls then TlsAlreadySecure else if negb has_acceptor then TlsNotAvailable else TlsReady.
Definition starttls_status (r : StartTlsReply) : bytes :=
  match r with TlsReady => bs "OK" | TlsAlreadySecure => bs "BAD" | TlsNotAvailable => bs "NO" end.
Definition starttls_text (r : StartTlsReply) : bytes :=
  match r with TlsReady => bs "Begin TLS negotiation now" | TlsAlreadySecure => bs "TLS already active" | TlsNotAvailable => bs "TLS not available" end.

(** ** LIST patterns *)

(** What the wildcards of RFC 3501 (section 6.3.8) stand for. *)
Inductive described (delim : Z) : bytes → bytes → Prop :=
  | described_nil : described delim [] []
  | described_star p skipped name : described delim p name → described delim (42 :: p) (skipped ++ name)
  | described_percent p skipped name : delim ∉ skipped → described delim p name → described delim (37 :: p) (skipped ++ name)
  | described_char c p name : c ≠ 42 → c ≠ 37 → described delim p name → described delim (c :: p) (c :: name).

Lemma matches_star pattern name delim :
  matches_pattern (42 :: pattern) name delim = true ↔ ∃ skipped rest, name = skipped ++ rest ∧ matches_pattern pattern rest delim = true.
Proof.
  cbn [matches_pattern]. rewrite Z.eqb_refl. induction name as [|c name IH].
  - rewrite orb_false_r. split; [intros E; by exists [], []|]. intros (s & r & E & Hm). symmetry in E. apply app_nil in E as [-> ->]. done.
  - rewrite orb_true_iff, IH. split.
    + intros [E|(s & r & -> & E)]; [by exists [], (c :: name)|by exists (c :: s), r].
    + intros (s & r & E & Hm). destruct s as [|x s]; simpl in E; [subst r; by left|]. injection E as <- ->. right. by exists s, r.
Qed.
Lemma matches_percent pattern name delim :
  matches_pattern (37 :: pattern) name delim = true ↔
  ∃ skipped rest, name = skipped ++ rest ∧ delim ∉ skipped ∧ matches_pattern pattern rest delim = true.
Proof.
  cbn [matches_pattern]. rewrite Z.eqb_refl. cbn [Z.eqb Pos.eqb]. induction name as [|c name IH].
  - rewrite orb_false_r. split; [intros E; exists [], []; split_and!; [done|apply not_elem_of_nil|done]|].
    intros (s & r & E & _ & Hm). symmetry in E. apply app_nil in E as [-> ->]. done.
  - rewrite orb_true_iff, andb_true_iff, IH. split.
    + intros [E|[Hc (s & r & -> & Hs & E)]]; [exists [], (c :: name); split_and!; [done|apply not_elem_of_nil|done]|].
      exists (c :: s), r. split_and!; [done| |done]. apply not_elem_of_cons. split; [|done]. intros ->. by rewrite Z.eqb_refl in Hc.
    + intros (s & r & E & Hs & Hm). destruct s as [|x s]; simpl in E; [subst r; by left|]. injection E as <- ->.
      apply not_elem_of_cons in Hs as [Hx Hs]. right. split; [by rewrite (proj2 (Z.eqb_neq c delim))|]. by exists s, r.
Qed.
Lemma matches_char c pattern name delim : c ≠ 42 → c ≠ 37 →
  matches_pattern (c :: pattern) name delim = true ↔ ∃ rest, name = c :: rest ∧ matches_pattern pattern rest delim = true.
Proof.
  intros H1 H2. cbn [matches_pattern]. rewrite (proj2 (Z.eqb_neq c 42)), (proj2 (Z.eqb_neq c 37)) by done.
  destruct name as [|x name]; [split; [done|by intros (r & ? & _)]|]. rewrite andb_true_iff, Z.eqb_eq. split.
  - intros [-> E]. by exists name.
  - by intros (r & [= -> ->] & E).
Qed.

(** LIST matches exactly what its patterns describe: a star stands for any
    text, a percent sign for text within one level of the hierarchy, and every
    other character for itself. *)
Theorem list_pattern_exact pattern name delim : matches_pattern pattern name delim = true ↔ described delim pattern name.
Proof.
  split.
  - revert name. induction pattern as [|c pattern IH]; intros name.
    { simpl. intros ->%bool_decide_eq_true. constructor. }
    destruct (decide (c = 42)) as [->|H1]; [intros (s & r & -> & Hm)%matches_star; constructor; auto|].
    destruct (decide (c = 37)) as [->|H2]; [intros (s & r & -> & Hs & Hm)%matches_percent; constructor; auto|].
    intros (r & -> & Hm)%matches_char; [|done..]. constructor; auto.
  - induction 1 as [|p s name _ IH|p s name Hs _ IH|c p name H1 H2 _ IH]; [done| | |].
    + apply matches_star. eauto.
    + apply matches_percent. eauto.
    + apply matches_char; eauto.
Qed.
