(* ===== verification/ImapSearch.v ===== *)
(** * IMAP: SEARCH (crates/imap/src/cmd_search.rs, session.rs)

    The criteria as they are read from the tokens and evaluated over a
    mailbox.  A criterion is a set of documents; words are looked up in the
    full-text index and phrases checked in the text.  The theorem: on an
    account, a search finds exactly the messages of the mailbox that the
    criterion is true of. *)

From S2P Require Import Prelude Bytes Key Store ChangeLog Quota Text Fts Blobs MailParser Sieve MailModel MailMessage MailStore MailRep MailFile MailCache MailAdmin Pop3Commands ImapParser ImapSequence ImapDate ImapFetch ImapCommands.
From stdpp Require Import base gmap list strings sorting.
From Stdlib Require Import ZArith Lia.

Open Scope Z_scope.

(** ** The messages of a mailbox in order

    Every command numbers the messages of the selected mailbox by sorting the
    cache entries by uid.  On an account that order is the order of the uids
    and does not depend on the order the cache yields its entries in. *)

Abbreviation member := (Z * MessageCacheEntry)%type.

(** [sort_by_key] on the uid, a stable sort. *)
Fixpoint insert_member (e : member) (l : list member) : list member :=
  match l with
  | [] => [e]
  | x :: l => if e.1 <? x.1 then e :: x :: l else x :: insert_member e l
  end.
Definition sort_members (l : list member) : list member := foldl (λ acc e, insert_member e acc) [] l.
Section members.
Context (values_order : gmap Z MessageCacheEntry → list MessageCacheEntry).
(** [MessageStoreCache::in_mailbox], and the members with their uids. *)
Definition cache_in_mailbox (m : Z) (c : MessageStoreCache) : list MessageCacheEntry :=
  filter (λ e, entry_in_mailbox m e = true) (values_order (cache_entries c)).
Definition mailbox_members (m : Z) (c : MessageStoreCache) : list member :=
  sort_members (omap (λ e, (λ uid, (uid, e)) <$> entry_uid_in m e) (cache_in_mailbox m c)).
End members.

(** ** The order *)

Definition member_le (x y : member) : Prop := x.1 ≤ y.1.
Definition member_lt (x y : member) : Prop := x.1 < y.1.
Lemma insert_member_perm e l : insert_member e l ≡ₚ e :: l.
Proof. induction l as [|x l IH]; simpl; [done|]. case_match; [done|]. rewrite IH. apply Permutation_swap. Qed.
Lemma insert_member_sorted e l : StronglySorted member_le l → StronglySorted member_le (insert_member e l).
Proof.
  induction 1 as [|x l Hl IH Hx]; simpl; [by repeat constructor|]. destruct (Z.ltb_spec e.1 x.1) as [Hlt|Hge].
  - constructor; [by constructor|]. constructor; [unfold member_le; lia|]. eapply Forall_impl; [exact Hx|]. unfold member_le. lia.
  - constructor; [done|]. rewrite insert_member_perm. by constructor.
Qed.
Lemma sort_members_spec l : sort_members l ≡ₚ l ∧ StronglySorted member_le (sort_members l).
Proof.
  unfold sort_members. enough (∀ acc, StronglySorted member_le acc → foldl (λ acc e, insert_member e acc) acc l ≡ₚ acc ++ l ∧
    StronglySorted member_le (foldl (λ acc e, insert_member e acc) acc l)) as Hgen by (apply (Hgen []); constructor).
  induction l as [|e l IH]; intros acc Hacc; simpl; [by rewrite app_nil_r|].
  destruct (IH (insert_member e acc)) as [Hp Hs]; [by apply insert_member_sorted|]. split; [|done].
  by rewrite Hp, insert_member_perm, <-Permutation_middle.
Qed.
Lemma members_strict l : StronglySorted member_le l → NoDup l.*1 → StronglySorted member_lt l.
Proof.
  induction 1 as [|x l Hl IH Hx]; [constructor|]. rewrite fmap_cons. intros [Hnot Hnd]%NoDup_cons. constructor; [by apply IH|].
  rewrite Forall_forall in *. intros y Hy. specialize (Hx y Hy). unfold member_le, member_lt in *.
  enough (x.1 ≠ y.1) by lia. intros E. apply Hnot. apply list_elem_of_fmap. by exists y.
Qed.

(** ** On an account *)

(** A message and its uid in the mailbox. *)
Definition member_of (docs : maildrop) (m uid : Z) (e : MessageCacheEntry) : Prop :=
  ∃ x, docs !! ce_document_id e = Some x ∧ mkMailboxUid m uid ∈ mailboxes (st_data x) ∧ e = from_data (ce_document_id e) (st_data x).
(** The members, each once, by increasing uid. *)
Record members_at (docs : maildrop) (m : Z) (l : list member) : Prop := {
  ma_elem uid e : (uid, e) ∈ l ↔ member_of docs m uid e;
  ma_sorted : StronglySorted member_lt l;
  ma_docs : NoDup ((λ x, ce_document_id x.2) <$> l);
}.
Lemma sorted_members_unique l l' : StronglySorted member_lt l → StronglySorted member_lt l' → (∀ x, x ∈ l ↔ x ∈ l') → l = l'.
Proof.
  intros Hl. revert l'. induction Hl as [|x l Hl IH Hx]; intros l' Hl' Heq.
  - destruct l' as [|y l']; [done|]. exfalso. apply (not_elem_of_nil y), (Heq y), list_elem_of_here.
  - destruct Hl' as [|y l' Hl' Hy]; [exfalso; apply (not_elem_of_nil x), (Heq x), list_elem_of_here|].
    rewrite Forall_forall in Hx, Hy. unfold member_lt in *.
    assert (x = y) as ->.
    { pose proof (proj1 (Heq x) (list_elem_of_here _ _)) as [->|H1]%elem_of_cons; [done|].
      pose proof (proj2 (Heq y) (list_elem_of_here _ _)) as [->|H2]%elem_of_cons; [done|].
      specialize (Hx y H2). specialize (Hy x H1). lia. }
    f_equal. apply IH; [done|]. intros z. specialize (Heq z). rewrite !elem_of_cons in Heq. split; intros Hz.
    + destruct (proj1 Heq (or_intror Hz)) as [->|]; [|done]. specialize (Hx y Hz). lia.
    + destruct (proj2 Heq (or_intror Hz)) as [->|]; [|done]. specialize (Hy y Hz). lia.
Qed.
Lemma members_at_unique docs m l l' : members_at docs m l → members_at docs m l' → l = l'.
Proof. intros [H1 H2 _] [H3 H4 _]. apply sorted_members_unique; [done..|]. intros [uid e]. by rewrite H1, H3. Qed.

(** No more members than messages. *)
Lemma members_length docs m l : members_at docs m l → (length l ≤ size docs)%nat.
Proof.
  intros [Hel _ Hnd]. rewrite <-(length_fmap (λ x, ce_document_id x.2)), <-(size_list_to_set (C := gset Z)) by done.
  rewrite <-(size_dom (D := gset Z)). apply subseteq_size. intros d. rewrite elem_of_list_to_set, list_elem_of_fmap, elem_of_dom.
  intros ([uid e] & -> & (x & Hx & _)%Hel). by exists x.
Qed.

Section exact.
Context {S B R : Type} {store : Store S} {contract : StoreSpec S} `{Bitmap R} {laws : BitmapLaws R}.
Context `{BlobStore B} {blob_contract : BlobSpec B}.
Context `{Unicode} `{MailParser} `{MailCodec} {codec_laws : MailCodecLaws}.
Context (a : Z) (Ha : is_u32 a) (others : BlobHash → Z).
Context (values_order : gmap Z MessageCacheEntry → list MessageCacheEntry).
Context (values_order_perm : ∀ es, values_order es ≡ₚ (map_to_list es).*2).
Implicit Types (docs : maildrop).

Lemma mailbox_members_spec (w : MailWorld S B) docs n m :
  account_at (R := R) a others w docs → members_at docs m (mailbox_members values_order m (cache_of a docs n)).
Proof.
  intros (_ & _ & Hrep). destruct (cache_values a values_order values_order_perm docs n) as [Hnd Hin].
  set (es := values_order (cache_entries (cache_of a docs n))) in *.
  set (f := λ e, (λ uid, (uid, e)) <$> entry_uid_in m e). unfold mailbox_members, cache_in_mailbox. fold es f.
  set (l := omap f (filter (λ e, entry_in_mailbox m e = true) es)). destruct (sort_members_spec l) as [Hp Hs].
  assert (∀ uid e, (uid, e) ∈ l ↔ member_of docs m uid e) as Hel.
  { intros uid e. unfold l. rewrite list_elem_of_omap. split.
    - intros (e' & [_ (x & Hx & Ee)%Hin]%list_elem_of_filter & Hf). unfold f in Hf.
      destruct (entry_uid_in m e') as [u|] eqn:Eu; [|done]. injection Hf as -> ->.
      exists x. split_and!; [done| |done]. apply uid_in_spec; [by eapply rep_places|]. rewrite Ee in Eu. exact Eu.
    - intros (x & Hx & Hm & Ee). pose proof (proj2 (uid_in_spec _ _ _ (proj1 (rep_places _ _ _ _ _ Hrep _ x Hx))) Hm) as Eu.
      exists e. split; [|unfold f, entry_uid_in; rewrite Ee; simpl; by rewrite Eu].
      apply list_elem_of_filter. split; [unfold entry_in_mailbox; rewrite Ee; simpl; by eapply find_in_mailbox|]. apply Hin. by exists x. }
  assert (NoDup ((λ x, ce_document_id x.2) <$> l)) as Hdocs.
  { eapply sublist_NoDup; [exact Hnd|]. unfold l. clear. induction es as [|e es IH]; [constructor|].
    rewrite filter_cons. case_decide; [|by apply sublist_cons]. simpl. unfold f at 1. destruct (entry_uid_in m e); simpl; [|by apply sublist_cons].
    by apply sublist_skip. }
  split; [intros uid e; by rewrite Hp| |by rewrite Hp].
  apply members_strict; [done|]. rewrite Hp. apply NoDup_alt. intros i j u. rewrite !list_lookup_fmap.
  destruct (l !! i) as [[u1 e1]|] eqn:Ei; [|done]. destruct (l !! j) as [[u2 e2]|] eqn:Ej; [|done]. simpl. intros [= ->] [= ->].
  apply (NoDup_lookup _ i j (ce_document_id e1) Hdocs); rewrite list_lookup_fmap, ?Ei, ?Ej; [done|]. simpl. f_equal.
  apply list_elem_of_lookup_2, Hel in Ei as (x1 & H1' & H2' & _). apply list_elem_of_lookup_2, Hel in Ej as (x2 & H3' & H4' & _).
  apply (rep_unique _ _ _ _ _ Hrep _ _ (mkMailboxUid m u)); by eexists.
Qed.
End exact.

(** ** SEARCH *)

(** [str::to_lowercase], which knows the context a letter stands in. *)
Class LowerText : Type := { str_lowercase : bytes → bytes }.

Inductive SearchError : Type := SeBadCharset | SeInvalid.
Inductive SearchKey : Type :=
  | KAll
  | KNothing
  | KFlag (atom : bytes) (present : bool)
  | KLarger (size : Z)
  | KSmaller (size : Z)
  | KUid (ranges : list SeqRange)
  | KSequence (ranges : list SeqRange)
  | KText (text : bytes)
  | KFieldText (field : Field) (text : bytes)
  | KHeader (name needle : bytes)
  | KBefore (date : Z)
  | KOn (date : Z)
  | KSince (date : Z)
  | KSentBefore (date : Z)
  | KSentOn (date : Z)
  | KSentSince (date : Z)
  | KNot (key : SearchKey)
  | KOr (first second : SearchKey)
  | KAnd (keys : list SearchKey)
  | KModSeq (value : Z)
  | KSaved.

Record SearchReturn : Type := mkReturn { sr_min : bool; sr_max : bool; sr_all : bool; sr_count : bool; sr_save : bool }.
Definition wants_untagged (r : SearchReturn) : bool := sr_min r || sr_max r || sr_all r || sr_count r.
Definition split_return_options (tokens : list Token) : list Token * option SearchReturn :=
  match tokens with
  | first :: TList options :: rest =>
      if match as_str first with Some w => eq_ignore_ascii_case w (bs "RETURN") | None => false end then
        let asked s := existsb (λ w, is_word w s) (words_of options) in
        let ret := mkReturn (asked "MIN"%string) (asked "MAX"%string) (asked "ALL"%string) (asked "COUNT"%string) (asked "SAVE"%string) in
        (rest, Some (if wants_untagged ret || sr_save ret then ret else mkReturn false false true false false))
      else (tokens, None)
  | _ => (tokens, None)
  end.
Definition esearch_response (tag : bytes) (uid_mode : bool) (matches : list Z) (ret : SearchReturn) (modseq : option Z) : bytes :=
  bs "* ESEARCH (TAG " ++ [QUOTE] ++ tag ++ [QUOTE] ++ bs ")" ++ (if uid_mode then bs " UID" else [])
    ++ (if sr_count ret then bs " COUNT " ++ fmt_dec (Z.of_nat (length matches)) else [])
    ++ (match head matches with Some n => if sr_min ret then bs " MIN " ++ fmt_dec n else [] | None => [] end)
    ++ (match last matches with Some n => if sr_max ret then bs " MAX " ++ fmt_dec n else [] | None => [] end)
    ++ (if sr_all ret && negb (bool_decide (matches = [])) then bs " ALL " ++ compress_sequence matches else [])
    ++ (match modseq with Some n => bs " MODSEQ " ++ fmt_dec n | None => [] end) ++ CRLF.
Definition search_response (matches : list Z) (modseq : option Z) : bytes :=
  numbers_line (bs "* SEARCH") matches ++ (match modseq with Some n => bs " (MODSEQ " ++ fmt_dec n ++ bs ")" | None => [] end) ++ CRLF.
Fixpoint uses_modseq (k : SearchKey) : bool :=
  match k with
  | KModSeq _ => true
  | KNot inner => uses_modseq inner
  | KOr first second => uses_modseq first || uses_modseq second
  | KAnd keys => existsb uses_modseq keys
  | _ => false
  end.

(** ** Reading the criteria *)

(** A key and the tokens after it, no key, or a recursion that has not ended. *)
Inductive keyed (A : Type) : Type := Keyed (a : A) (rest : list Token) | Unkeyed | Endless.
Arguments Keyed {A} _ _.
Arguments Unkeyed {A}.
Arguments Endless {A}.
Definition keyed_bind {A C} (x : keyed A) (f : A → list Token → keyed C) : keyed C :=
  match x with Keyed a rest => f a rest | Unkeyed => Unkeyed | Endless => Endless end.
(** [cursor.next_str()?] and what is made of it. *)
Definition with_str {A} (tokens : list Token) (f : bytes → list Token → keyed A) : keyed A :=
  match tokens with t :: rest => match as_str t with Some s => f s rest | None => Unkeyed end | [] => Unkeyed end.
Definition keyed_opt {A} (o : option A) (rest : list Token) : keyed A := match o with Some a => Keyed a rest | None => Unkeyed end.
Definition str_key (f : bytes → option SearchKey) (tokens : list Token) : keyed SearchKey :=
  with_str tokens (λ s rest, keyed_opt (f s) rest).

Definition flag_keys : list (string * bytes * bool) :=
  [("SEEN", bs "\Seen", true); ("UNSEEN", bs "\Seen", false); ("ANSWERED", bs "\Answered", true); ("UNANSWERED", bs "\Answered", false);
   ("FLAGGED", bs "\Flagged", true); ("UNFLAGGED", bs "\Flagged", false); ("DELETED", bs "\Deleted", true);
   ("UNDELETED", bs "\Deleted", false); ("DRAFT", bs "\Draft", true); ("UNDRAFT", bs "\Draft", false)]%string.
(** The keys of one word, and those of one argument. *)
Definition word_key (w : bytes) : option SearchKey :=
  if is_word w "ALL" then Some KAll
  else
    match List.find (λ x, is_word w x.1.1) flag_keys with
    | Some x => Some (KFlag x.1.2 x.2)
    | None =>
        if is_word w "RECENT" || is_word w "NEW" then Some KNothing
        else if is_word w "OLD" then Some KAll else if is_word w "$" then Some KSaved else None
    end.
Definition date_key (f : Z → SearchKey) (s : bytes) : option SearchKey := f <$> parse_imap_date s.
Definition argument_key (w : bytes) : option (bytes → option SearchKey) :=
  if is_word w "KEYWORD" then Some (λ s, Some (KFlag s true))
  else if is_word w "UNKEYWORD" then Some (λ s, Some (KFlag s false))
  else if is_word w "LARGER" then Some (λ s, KLarger <$> parse_u32 s)
  else if is_word w "SMALLER" then Some (λ s, KSmaller <$> parse_u32 s)
  else if is_word w "UID" then Some (λ s, KUid <$> parse_sequence_set s)
  else if is_word w "TEXT" then Some (λ s, Some (KText s))
  else if is_word w "SUBJECT" then Some (λ s, Some (KFieldText Fts.Subject s))
  else if is_word w "BODY" then Some (λ s, Some (KFieldText Fts.Body s))
  else if is_word w "FROM" then Some (λ s, Some (KFieldText Fts.From s))
  else if is_word w "TO" then Some (λ s, Some (KFieldText Fts.To s))
  else if is_word w "CC" then Some (λ s, Some (KFieldText Fts.Cc s))
  else if is_word w "BCC" then Some (λ s, Some (KFieldText Fts.Bcc s))
  else if is_word w "BEFORE" then Some (date_key KBefore)
  else if is_word w "ON" then Some (date_key KOn)
  else if is_word w "SINCE" then Some (date_key KSince)
  else if is_word w "SENTBEFORE" then Some (date_key KSentBefore)
  else if is_word w "SENTON" then Some (date_key KSentOn)
  else if is_word w "SENTSINCE" then Some (date_key KSentSince)
  else None.

Fixpoint parse_key (fuel : nat) (tokens : list Token) : keyed SearchKey :=
  match fuel with
  | O => Endless
  | S fuel =>
      match tokens with
      | [] => Unkeyed
      | TList inner :: rest =>
          keyed_bind (parse_group fuel inner []) (λ keys _,
            Keyed (match keys with [key] => key | _ => KAnd keys end) rest)
      | token :: rest =>
          match as_str token with
          | None => Unkeyed
          | Some w =>
              match word_key w, argument_key w with
              | Some key, _ => Keyed key rest
              | None, Some f => str_key f rest
              | None, None =>
                  if is_word w "HEADER" then with_str rest (λ name rest, with_str rest (λ needle rest, Keyed (KHeader name needle) rest))
                  else if is_word w "MODSEQ" then
                    with_str rest (λ value rest,
                      if starts_with value [47] then with_str rest (λ _ rest, with_str rest (λ value rest, keyed_opt (KModSeq <$> parse_u64 value) rest))
                      else keyed_opt (KModSeq <$> parse_u64 value) rest)
                  else if is_word w "NOT" then keyed_bind (parse_key fuel rest) (λ key rest, Keyed (KNot key) rest)
                  else if is_word w "OR" then
                    keyed_bind (parse_key fuel rest) (λ first rest,
                      keyed_bind (parse_key fuel rest) (λ second rest, Keyed (KOr first second) rest))
                  else keyed_opt (KSequence <$> parse_sequence_set w) rest
              end
          end
      end
  end
with parse_group (fuel : nat) (tokens : list Token) (keys : list SearchKey) : keyed (list SearchKey) :=
  match fuel with
  | O => Endless
  | S fuel =>
      match tokens with
      | [] => Keyed keys []
      | _ => keyed_bind (parse_key fuel tokens) (λ key rest, parse_group fuel rest (keys ++ [key]))
      end
  end.
Definition SUPPORTED_CHARSETS : bytes := bs "US-ASCII UTF-8".
Definition charset_supported (name : bytes) : bool := existsb (λ c, eq_ignore_ascii_case c name) (split_byte 32 SUPPORTED_CHARSETS).
Definition check_charset (tokens : list Token) : list Token + SearchError :=
  match arg_str tokens 0 with
  | Some w =>
      if eq_ignore_ascii_case w (bs "CHARSET") then
        match arg_str tokens 1 with
        | None => inr SeInvalid
        | Some name => if charset_supported name then inl (drop 2 tokens) else inr SeBadCharset
        end
      else inl tokens
  | None => inl tokens
  end.
(** The size of what is read. *)
Fixpoint token_size (t : Token) : nat := match t with TList items => S (S (list_sum (token_size <$> items))) | _ => 2 end.
Definition tokens_fuel (tokens : list Token) : nat := S (list_sum (token_size <$> tokens)).
Definition parse_search (tokens : list Token) : option (SearchKey + SearchError) :=
  match check_charset tokens with
  | inr e => Some (inr e)
  | inl tokens =>
      match parse_group (tokens_fuel tokens) tokens [] with
      | Keyed [] _ => Some (inr SeInvalid)
      | Keyed [key] _ => Some (inl key)
      | Keyed keys _ => Some (inl (KAnd keys))
      | Unkeyed => Some (inr SeInvalid)
      | Endless => None
      end
  end.

(** Reading ends: the fuel covers the tokens. *)
Definition tokens_size (tokens : list Token) : nat := list_sum (token_size <$> tokens).
Lemma token_size_pos t : (2 ≤ token_size t)%nat.
Proof. destruct t; simpl; lia. Qed.
(** A key takes at least one token. *)
Definition takes {A} (n : nat) (x : keyed A) : Prop :=
  match x with Keyed _ rest => (tokens_size rest ≤ n)%nat | Unkeyed => True | Endless => False end.
Lemma takes_bind {A C} n (x : keyed A) (f : A → list Token → keyed C) :
  takes n x → (∀ a rest, (tokens_size rest ≤ n)%nat → takes n (f a rest)) → takes n (keyed_bind x f).
Proof. intros Hx Hf. destruct x; simpl in *; auto. Qed.
Lemma takes_opt {A} n (o : option A) rest : (tokens_size rest ≤ n)%nat → takes n (keyed_opt o rest).
Proof. by destruct o. Qed.
Lemma takes_str {A} n tokens (f : bytes → list Token → keyed A) :
  (tokens_size tokens ≤ n)%nat → (∀ s rest, (tokens_size rest ≤ n)%nat → takes n (f s rest)) → takes n (with_str tokens f).
Proof.
  intros Hn Hf. destruct tokens as [|t rest]; [done|]. cbn [with_str]. destruct (as_str t); [|done]. apply Hf.
  unfold tokens_size in *. rewrite fmap_cons in Hn. cbn [list_sum foldr] in Hn. unfold list_sum. lia.
Qed.
Lemma takes_mono {A} n n' (x : keyed A) : takes n x → (n ≤ n')%nat → takes n' x.
Proof. destruct x; simpl; [lia|done|done]. Qed.

Lemma parse_takes fuel :
  (∀ t rest, (token_size t + tokens_size rest ≤ fuel)%nat → takes (tokens_size rest) (parse_key fuel (t :: rest))) ∧
  (∀ tokens keys, (S (tokens_size tokens) ≤ fuel)%nat → takes 0 (parse_group fuel tokens keys)).
Proof.
  induction fuel as [|fuel [IHk IHg]]; [split; intros; [pose proof (token_size_pos t); lia|lia]|].
  assert (∀ n tokens, (tokens_size tokens ≤ n)%nat → (S n ≤ fuel)%nat → takes n (parse_key fuel tokens)) as Hkey.
  { intros n tokens Hn Hf. destruct tokens as [|t rest]; [destruct fuel; [lia|done]|]. unfold tokens_size in Hn. rewrite fmap_cons in Hn. cbn [list_sum foldr] in Hn.
    eapply takes_mono; [apply IHk|]; unfold tokens_size, list_sum in *; lia. }
  split.
  - intros t rest Hf. pose proof (token_size_pos t) as Hp.
    assert (takes (tokens_size rest) (match as_str t with
      | None => Unkeyed
      | Some w => match word_key w, argument_key w with
        | Some key, _ => Keyed key rest
        | None, Some f => str_key f rest
        | None, None =>
            if is_word w "HEADER" then with_str rest (λ name rest, with_str rest (λ needle rest, Keyed (KHeader name needle) rest))
            else if is_word w "MODSEQ" then
              with_str rest (λ value rest,
                if starts_with value [47] then with_str rest (λ _ rest, with_str rest (λ value rest, keyed_opt (KModSeq <$> parse_u64 value) rest))
                else keyed_opt (KModSeq <$> parse_u64 value) rest)
            else if is_word w "NOT" then keyed_bind (parse_key fuel rest) (λ key rest, Keyed (KNot key) rest)
            else if is_word w "OR" then
              keyed_bind (parse_key fuel rest) (λ first rest,
                keyed_bind (parse_key fuel rest) (λ second rest, Keyed (KOr first second) rest))
            else keyed_opt (KSequence <$> parse_sequence_set w) rest
        end end)) as Hword.
    { destruct (as_str t) as [w|]; [|done]. destruct (word_key w); [simpl; lia|]. destruct (argument_key w) as [f|].
      { apply takes_str; [lia|]. intros. apply takes_opt; lia. }
      destruct (is_word w "HEADER"); [apply takes_str; [lia|]; intros; apply takes_str; [lia|]; intros; simpl; lia|].
      destruct (is_word w "MODSEQ").
      { apply takes_str; [lia|]. intros s r Hr. destruct (starts_with s [47]); [|apply takes_opt; lia].
        apply takes_str; [lia|]. intros. apply takes_str; [lia|]. intros. apply takes_opt; lia. }
      destruct (is_word w "NOT"); [apply takes_bind; [apply Hkey; lia|intros; simpl; lia]|].
      destruct (is_word w "OR"); [|apply takes_opt; lia].
      apply takes_bind; [apply Hkey; lia|]. intros first r Hr. apply takes_bind; [apply Hkey; lia|intros; simpl; lia]. }
    destruct t as [v|v|items|len sync|o|]; cbn [parse_key]; try exact Hword.
    assert (takes 0 (parse_group fuel items [])) as Hg by (apply IHg; cbn [token_size] in Hf; unfold tokens_size in *; lia).
    destruct (parse_group fuel items []); cbn [keyed_bind takes] in *; [lia|done|done].
  - intros tokens keys Hf. cbn [parse_group]. destruct tokens as [|t rest]; [exact (le_n 0)|].
    unfold tokens_size in Hf. rewrite fmap_cons in Hf. cbn [list_sum foldr] in Hf.
    pose proof (token_size_pos t). assert (takes (tokens_size rest) (parse_key fuel (t :: rest))) as Hk by (apply IHk; unfold tokens_size, list_sum in *; lia).
    destruct (parse_key fuel (t :: rest)) as [key r| |]; simpl in *; [|done|done]. apply IHg. unfold tokens_size, list_sum in *. lia.
Qed.
Lemma parse_search_ends tokens : is_Some (parse_search tokens).
Proof.
  unfold parse_search. destruct (check_charset tokens) as [ts|e]; [|by eexists].
  pose proof (proj2 (parse_takes (tokens_fuel ts)) ts [] ltac:(unfold tokens_fuel, tokens_size; lia)) as Ht.
  destruct (parse_group (tokens_fuel ts) ts []) as [[|k [|? ?]] rest| |]; [by eexists..|done].
Qed.

(** ** Headers *)

(** [str::lines]. *)
Definition str_lines (s : bytes) : list bytes := text_lines_of (split_byte LF s).
Definition is_folded (l : bytes) : bool := starts_with l [32] || starts_with l [9].
(** The name and the value of a field, if the line is one with this name. *)
Definition field_value (name l : bytes) : option bytes :=
  '(field, rest) ← split_once 58 l; if eq_ignore_ascii_case field name then Some (str_trim_start rest) else None.
(** The loop of [header_matches]: the value being collected, if one is. *)
Definition value_has (needle value : bytes) : bool := bool_decide (needle = []) || str_contains (to_ascii_lowercase value) needle.
Fixpoint header_scan (name needle : bytes) (collecting : option bytes) (ls : list bytes) : bool :=
  match ls with
  | [] => match collecting with Some value => value_has needle value | None => false end
  | l :: ls =>
      if is_folded l then header_scan name needle ((λ v, v ++ [32] ++ str_trim l) <$> collecting) ls
      else if match collecting with Some value => value_has needle value | None => false end then true
      else header_scan name needle (field_value name l) ls
  end.
Definition header_matches (headers name needle : bytes) : bool :=
  header_scan name (to_ascii_lowercase needle) None (str_lines (utf8_lossy headers)).
(** [header_value]: the first field with this name. *)
Fixpoint value_scan (name : bytes) (collecting : option bytes) (ls : list bytes) : option bytes :=
  match ls with
  | [] => collecting
  | l :: ls =>
      if is_folded l then value_scan name ((λ v, v ++ [32] ++ str_trim l) <$> collecting) ls
      else match collecting with Some value => Some value | None => value_scan name (field_value name l) ls end
  end.
Definition header_value (headers name : bytes) : option bytes := value_scan name None (str_lines (utf8_lossy headers)).

(** ** Evaluating *)

Section eval.
Context {S B R : Type} `{Store S} `{BlobStore B} `{Bitmap R} `{Unicode} `{LowerText} `{MailParser} `{MailCodec}.
(** The mailbox in the order of its uids, and what the session knows. *)
Context (account_id : Z) (s : S) (blobs : option B) (members : list (Z * MessageCacheEntry)).
Context (modseqs : option (gmap Z Z)) (saved_uids : list Z).

Definition total : Z := as_u32 (Z.of_nat (length members)).
Definition uid_max : Z := default 0 (fst <$> last members).
Definition universe : list Z := (λ m, ce_document_id m.2) <$> members.
Definition members_where (f : Z * MessageCacheEntry → bool) : gset Z := list_to_set ((λ m, ce_document_id m.2) <$> filter (λ m, f m = true) members).
Definition date_filter (select : MessageCacheEntry → Z) (matches : Z → bool) : gset Z :=
  members_where (λ m, matches (as_i64 (select m.2))).
Definition modseq_of (d : Z) : Z := default 1 (modseqs ≫= λ m, m !! d).

Definition normalize_phrase (text : bytes) : bytes := Sieve.join [32] (split_whitespace (str_lowercase text)).
Definition phrase_spans (field : option Field) (t : MessageText) : list bytes :=
  match field with
  | Some Fts.Subject => [tx_subject t]
  | Some Fts.Body => [tx_body t]
  | Some Fts.From => [tx_from t]
  | Some Fts.To => [tx_to t]
  | Some Fts.Cc => [tx_cc t]
  | Some Fts.Bcc => [tx_bcc t]
  | Some Combined | None => [tx_subject t; tx_body t; tx_from t; tx_to t; tx_cc t; tx_bcc t]
  end.
Definition phrase_in (field : option Field) (needle raw : bytes) : bool :=
  match message_text raw with
  | Ok t => existsb (λ span, str_contains (normalize_phrase span) needle) (phrase_spans field t)
  | Err _ => false
  end.
Fixpoint phrase_filter (bl : B) (field : option Field) (needle : bytes) (candidates : list Z) : result (gset Z) :=
  match candidates with
  | [] => Ok ∅
  | d :: candidates =>
      m ← load_metadata account_id d s;
      match m with
      | None => phrase_filter bl field needle candidates
      | Some m =>
          raw ← blob_get_all (blob_hash m) bl;
          rest ← phrase_filter bl field needle candidates;
          Ok (match raw with Some raw => if phrase_in field needle raw then {[ d ]} ∪ rest else rest | None => rest end)
      end
  end.
(** The index has no positions: a query of several words is checked again in
    the text. *)
Definition phrase_restrict (candidates : list Z) (field : option Field) (text : bytes) : result (gset Z) :=
  if (length (tokenize text) <? 2)%nat then Ok (list_to_set candidates)
  else match blobs with None => Ok (list_to_set candidates) | Some bl => phrase_filter bl field (normalize_phrase text) candidates end.
Fixpoint header_filter (name needle : bytes) (ms : list (Z * MessageCacheEntry)) : result (gset Z) :=
  match ms with
  | [] => Ok ∅
  | (_, e) :: ms =>
      m ← load_metadata account_id (ce_document_id e) s;
      rest ← header_filter name needle ms;
      Ok (match m with
          | Some m => if header_matches (raw_headers m) name needle then {[ ce_document_id e ]} ∪ rest else rest
          | None => rest
          end)
  end.

Fixpoint eval_search (k : SearchKey) : result (gset Z) :=
  match k with
  | KAll => Ok (list_to_set universe)
  | KNothing => Ok ∅
  | KFlag atom present => Ok (members_where (λ m, Bool.eqb (entry_has_keyword (from_imap atom) m.2) present))
  | KLarger size => Ok (members_where (λ m, size <? ce_size m.2))
  | KSmaller size => Ok (members_where (λ m, ce_size m.2 <? size))
  | KUid ranges => Ok (members_where (λ m, sequence_contains ranges m.1 uid_max))
  | KSequence ranges =>
      Ok (list_to_set (omap id (imap (λ i m, if sequence_contains ranges (as_u32 (Z.of_nat i) + 1) total then Some (ce_document_id m.2) else None) members)))
  | KText text => found ← search (R := R) account_id Email (QTerm Combined text) universe s; phrase_restrict found None text
  | KFieldText field text => found ← search (R := R) account_id Email (QTerm field text) universe s; phrase_restrict found (Some field) text
  | KHeader name needle => header_filter name needle members
  | KBefore date => Ok (date_filter ce_received_at (λ ts, ts <? date))
  | KSince date => Ok (date_filter ce_received_at (λ ts, date <=? ts))
  | KOn date => Ok (date_filter ce_received_at (λ ts, (date <=? ts) && (ts <? as_i64 (date + 86400))))
  | KSentBefore date => Ok (date_filter ce_sent_at (λ ts, negb (ts =? 0) && (ts <? date)))
  | KSentSince date => Ok (date_filter ce_sent_at (λ ts, negb (ts =? 0) && (date <=? ts)))
  | KSentOn date => Ok (date_filter ce_sent_at (λ ts, negb (ts =? 0) && (date <=? ts) && (ts <? as_i64 (date + 86400))))
  | KNot inner => sub ← eval_search inner; Ok (list_to_set (filter (λ d, d ∉ sub) universe))
  | KOr first second => left ← eval_search first; right ← eval_search second; Ok (left ∪ right)
  | KAnd keys =>
      acc ← (fix go (acc : option (gset Z)) (keys : list SearchKey) : result (option (gset Z)) :=
               match keys with
               | [] => Ok acc
               | inner :: keys => next ← eval_search inner; go (Some (match acc with Some current => current ∩ next | None => next end)) keys
               end) None keys;
      Ok (match acc with Some found => found | None => list_to_set universe end)
  | KModSeq value => Ok (members_where (λ m, value <=? modseq_of (ce_document_id m.2)))
  | KSaved => Ok (members_where (λ m, bool_decide (m.1 ∈ saved_uids)))
  end.
End eval.

(** ** The numbers that answer *)

Section outcome.
Context (members : list member) (modseqs : option (gmap Z Z)) (matched : gset Z).
Definition matching : list (nat * member) := filter (λ x, ce_document_id x.2.2 ∈ matched) (imap pair members).
(** [SearchOutcome]: numbers or uids as asked, the uids, and the highest
    mod-sequence when the criteria look at one. *)
Definition outcome_ids (uid_mode : bool) : list Z :=
  merge_sort Z.le ((λ x, if uid_mode then x.2.1 else as_u32 (Z.of_nat x.1) + 1) <$> matching).
Definition outcome_uids : list Z := merge_sort Z.le ((λ x, x.2.1) <$> matching).
Definition outcome_modseq : option Z :=
  m ← modseqs; foldl (λ highest x, Some (Z.max (default 0 highest) (default 1 (m !! ce_document_id x.2.2)))) None matching.
End outcome.
Record SearchOutcome : Type := mkOutcomeOf { oc_ids : list Z; oc_uids : list Z; oc_modseq : option Z }.
Definition no_outcome : SearchOutcome := mkOutcomeOf [] [] None.

Section mailbox.
Context {S B R : Type} `{Store S} `{BlobStore B} `{Bitmap R} `{Unicode} `{LowerText} `{MailParser} `{MailCodec}.
Context (values_order : gmap Z MessageCacheEntry → list MessageCacheEntry).
(** [modseq_map]: the last change of each document. *)
Definition modseq_map (account_id : Z) (s : S) : result (gmap Z Z) :=
  es ← changes_since account_id Email 0 s;
  Ok (foldl (λ m e, <[ChangeLog.document_id e := change_id e]> m) ∅ es).
(** [search_matches], once the mailbox is known. *)
Definition search_mailbox (account_id : Z) (s : S) (blobs : option B) (mb : Z) (saved_uids : list Z) (k : SearchKey) (uid_mode : bool)
    : result SearchOutcome :=
  modseqs ← (if uses_modseq k then m ← modseq_map account_id s; Ok (Some m) else Ok None);
  c ← cache_build account_id s;
  let members := mailbox_members values_order mb c in
  matched ← eval_search (R := R) account_id s blobs members modseqs saved_uids k;
  Ok (mkOutcomeOf (outcome_ids members matched uid_mode) (outcome_uids members matched) (outcome_modseq members modseqs matched)).
End mailbox.
(** [saved_selection]: what SAVE keeps. *)
Definition saved_selection (uids : list Z) (ret : SearchReturn) : list Z :=
  if (sr_min ret || sr_max ret) && negb (sr_all ret) && negb (sr_count ret)
  then dedup ((if sr_min ret then option_list (head uids) else []) ++ (if sr_max ret then option_list (last uids) else []))
  else uids.

(** ** What the criteria mean *)

Section meaning.
Context `{Unicode} `{LowerText} `{MailParser}.
Context (docs : maildrop) (members : list member) (modseqs : option (gmap Z Z)) (saved_uids : list Z).

(** The words are in the field, and a phrase is in the text. *)
Definition text_holds (index : Field) (field : option Field) (text : bytes) (d : Z) : Prop :=
  tokenize text ≠ [] ∧ (∀ t, t ∈ tokenize text → has_term docs index t d) ∧
  ((2 ≤ length (tokenize text))%nat → ∃ x, docs !! d = Some x ∧ phrase_in field (normalize_phrase text) (st_raw x) = true).
(** The criterion is true of the [i]-th message. *)
Fixpoint holds (k : SearchKey) (i : nat) (m : member) : Prop :=
  let e := m.2 in
  let received := as_i64 (ce_received_at e) in
  let sent := as_i64 (ce_sent_at e) in
  match k with
  | KAll => True
  | KNothing => False
  | KFlag atom present => entry_has_keyword (from_imap atom) e = present
  | KLarger size => size < ce_size e
  | KSmaller size => ce_size e < size
  | KUid ranges => sequence_contains ranges m.1 (uid_max members) = true
  | KSequence ranges => sequence_contains ranges (Z.of_nat i + 1) (Z.of_nat (length members)) = true
  | KText text => text_holds Combined None text (ce_document_id e)
  | KFieldText field text => text_holds field (Some field) text (ce_document_id e)
  | KHeader name needle => ∃ x, docs !! ce_document_id e = Some x ∧ header_matches (raw_headers (st_metadata x)) name needle = true
  | KBefore date => received < date
  | KSince date => date ≤ received
  | KOn date => date ≤ received < as_i64 (date + 86400)
  | KSentBefore date => sent ≠ 0 ∧ sent < date
  | KSentSince date => sent ≠ 0 ∧ date ≤ sent
  | KSentOn date => sent ≠ 0 ∧ date ≤ sent < as_i64 (date + 86400)
  | KNot inner => ¬ holds inner i m
  | KOr first second => holds first i m ∨ holds second i m
  | KAnd keys => foldr (λ key rest, holds key i m ∧ rest) True keys
  | KModSeq value => value ≤ modseq_of modseqs (ce_document_id e)
  | KSaved => m.1 ∈ saved_uids
  end.
End meaning.

(** ** Search is exact *)

Section induction.
Context (P : SearchKey → Prop).
Context (Hleaf : ∀ k, match k with KNot _ | KOr _ _ | KAnd _ => True | _ => P k end).
Context (Hnot : ∀ k, P k → P (KNot k)) (Hor : ∀ k k', P k → P k' → P (KOr k k')) (Hand : ∀ ks, Forall P ks → P (KAnd ks)).
Fixpoint key_ind (k : SearchKey) : P k :=
  match k return P k with
  | KNot k => Hnot k (key_ind k)
  | KOr k k' => Hor k k' (key_ind k) (key_ind k')
  | KAnd ks => Hand ks ((fix go ks := match ks return Forall P ks with [] => Forall_nil_2 P | k :: ks => Forall_cons_2 P k ks (key_ind k) (go ks) end) ks)
  | k => Hleaf k
  end.
End induction.

Section exact.
Context {S B R : Type} {store : Store S} {contract : StoreSpec S} `{Bitmap R} {laws : BitmapLaws R}.
Context `{BlobStore B} {blob_contract : BlobSpec B}.
Context `{Unicode} `{LowerText} `{MailParser} `{MailCodec} {codec_laws : MailCodecLaws}.
Context (a : Z) (Ha : is_u32 a) (others : BlobHash → Z) (w : MailWorld S B) (docs : maildrop) (mb : Z) (members : list member).
Context (Hw : account_at (R := R) a others w docs) (Hm : members_at docs mb members) (Hlen : Z.of_nat (length members) < 2 ^ 32).
Context (modseqs : option (gmap Z Z)) (saved_uids : list Z).

Abbreviation doc m := (ce_document_id (snd m)).
Lemma member_unique i j m m' : members !! i = Some m → members !! j = Some m' → doc m = doc m' → i = j ∧ m = m'.
Proof.
  intros Hi Hj E. assert (i = j) as <-.
  { apply (NoDup_lookup _ i j (doc m) (ma_docs _ _ _ Hm)); rewrite list_lookup_fmap, ?Hi, ?Hj; simpl; congruence. }
  split; [done|congruence].
Qed.
Lemma members_where_spec f i m : members !! i = Some m → doc m ∈ members_where members f ↔ f m = true.
Proof.
  intros Hi. unfold members_where. rewrite elem_of_list_to_set, list_elem_of_fmap. split.
  - intros (m' & E & [Hf (j & Hj)%list_elem_of_lookup]%list_elem_of_filter). by destruct (member_unique i j m m' Hi Hj E) as [_ ->].
  - intros Hf. exists m. split; [done|]. apply list_elem_of_filter. split; [done|]. by eapply list_elem_of_lookup_2.
Qed.
Lemma universe_spec i m : members !! i = Some m → doc m ∈ universe members.
Proof. intros Hi. unfold universe. apply list_elem_of_fmap. exists m. split; [done|]. by eapply list_elem_of_lookup_2. Qed.
Lemma member_doc i m : members !! i = Some m → ∃ x, docs !! doc m = Some x ∧ is_u32 (doc m).
Proof.
  intros Hi. destruct m as [uid e]. apply list_elem_of_lookup_2, (ma_elem _ _ _ Hm) in Hi as (x & Hx & _). exists x. split; [done|].
  destruct Hw as (_ & _ & Hrep). by eapply rep_ids.
Qed.
Lemma member_metadata i m x : members !! i = Some m → docs !! doc m = Some x →
  load_metadata a (doc m) (mw_store w) = Ok (Some (st_metadata x)) ∧
  blob_get_all (blob_hash (st_metadata x)) (mw_blobs w) = Ok (Some (st_raw x)).
Proof.
  intros Hi Hx. destruct (member_doc i m Hi) as (_ & _ & Hu). rewrite (load_metadata_spec a others w docs _ Hw Hu), Hx. split; [done|].
  destruct Hw as (_ & Hb & Hrep). destruct (rep_bodies _ _ _ _ _ Hrep _ x Hx) as [-> (t & Ht)].
  rewrite blob_get_all_spec by done. by rewrite Ht.
Qed.

Definition exact_for (k : SearchKey) : Prop :=
  ∃ found, eval_search (R := R) a (mw_store w) (Some (mw_blobs w)) members modseqs saved_uids k = Ok found ∧
    ∀ i m, members !! i = Some m → doc m ∈ found ↔ holds docs members modseqs saved_uids k i m.

Lemma exact_where k f :
  eval_search (R := R) a (mw_store w) (Some (mw_blobs w)) members modseqs saved_uids k = Ok (members_where members f) →
  (∀ i m, members !! i = Some m → f m = true ↔ holds docs members modseqs saved_uids k i m) → exact_for k.
Proof. intros E Hf. exists (members_where members f). split; [done|]. intros i m Hi. rewrite (members_where_spec _ i) by done. by apply Hf. Qed.

(** A message of the account. *)
Lemma header_filter_spec name needle ms : Forall (λ m, m ∈ members) ms →
  ∃ found, header_filter a (mw_store w) name needle ms = Ok found ∧
    ∀ d, d ∈ found ↔ d ∈ ((λ m, doc m) <$> ms) ∧ ∃ x, docs !! d = Some x ∧ header_matches (raw_headers (st_metadata x)) name needle = true.
Proof.
  induction 1 as [|[uid e] ms (i & Hi)%list_elem_of_lookup Hms (found & E & Hf)]; [exists ∅; split; [done|]; intros d; simpl; set_solver|].
  destruct (member_doc i _ Hi) as (x & Hx & _). destruct (member_metadata i _ x Hi Hx) as [Hmeta _]. cbn [snd] in Hx, Hmeta.
  cbn [header_filter]. rewrite Hmeta, E. cbn [mbind result_bind]. eexists. split; [done|]. intros d. rewrite fmap_cons, elem_of_cons. cbn [snd].
  assert ((∃ x', docs !! ce_document_id e = Some x' ∧ header_matches (raw_headers (st_metadata x')) name needle = true) ↔
    header_matches (raw_headers (st_metadata x)) name needle = true) as Hhere by (rewrite Hx; naive_solver).
  destruct (header_matches (raw_headers (st_metadata x)) name needle).
  - rewrite elem_of_union, elem_of_singleton, Hf. split; [|naive_solver]. intros [->|[? ?]]; [split; [by left|by apply Hhere]|naive_solver].
  - rewrite Hf. split; [naive_solver|]. intros [[->|?] Hex]; [by apply Hhere in Hex|done].
Qed.
Lemma exact_header name needle : exact_for (KHeader name needle).
Proof.
  destruct (header_filter_spec name needle members) as (found & E & Hf); [by apply Forall_forall|].
  exists found. split; [done|]. intros i m Hi. cbn [holds]. rewrite Hf. split; [by intros [_ ?]|]. intros ?. split; [|done]. by apply (universe_spec i).
Qed.

Lemma phrase_filter_spec field needle ds : Forall (λ d, d ∈ universe members) ds →
  ∃ found, phrase_filter a (mw_store w) (mw_blobs w) field needle ds = Ok found ∧
    ∀ d, d ∈ found ↔ d ∈ ds ∧ ∃ x, docs !! d = Some x ∧ phrase_in field needle (st_raw x) = true.
Proof.
  induction 1 as [|d ds Hd Hds (found & E & Hf)]; [exists ∅; split; [done|]; intros d; simpl; set_solver|].
  apply list_elem_of_fmap in Hd as (m & -> & (i & Hi)%list_elem_of_lookup).
  destruct (member_doc i _ Hi) as (x & Hx & _). destruct (member_metadata i _ x Hi Hx) as [Hmeta Hblob].
  cbn [phrase_filter]. rewrite Hmeta. cbn [mbind result_bind]. rewrite Hblob, E. cbn [mbind result_bind]. eexists. split; [done|].
  intros d. rewrite elem_of_cons.
  assert ((∃ x', docs !! doc m = Some x' ∧ phrase_in field needle (st_raw x') = true) ↔ phrase_in field needle (st_raw x) = true) as Hhere by (rewrite Hx; naive_solver).
  destruct (phrase_in field needle (st_raw x)).
  - rewrite elem_of_union, elem_of_singleton, Hf. split; [|naive_solver]. intros [->|[? ?]]; [split; [by left|by apply Hhere]|naive_solver].
  - rewrite Hf. split; [naive_solver|]. intros [[->|?] Hex]; [by apply Hhere in Hex|done].
Qed.
Lemma text_exact index field text :
  ∃ found, (found ← search (R := R) a Email (QTerm index text) (universe members) (mw_store w);
            phrase_restrict a (mw_store w) (Some (mw_blobs w)) found field text) = Ok found ∧
    ∀ i m, members !! i = Some m → doc m ∈ found ↔ text_holds docs index field text (doc m).
Proof.
  destruct Hw as (Hs & _ & Hrep).
  destruct (search_spec a Email (mw_store w) (has_term docs) (QTerm index text) (universe members) Hs (rep_index _ _ _ _ _ Hrep)) as (found & -> & _ & Hf).
  cbn [mbind result_bind]. unfold phrase_restrict. destruct (Nat.ltb_spec (length (tokenize text)) 2) as [Hlt|Hge].
  - exists (list_to_set found). split; [done|]. intros i m Hi. rewrite elem_of_list_to_set, Hf. cbn [satisfies]. unfold text_holds.
    pose proof (universe_spec i m Hi). split; [intros (_ & ? & ?); split_and!; [done|done|lia]|by intros (? & ? & _)].
  - destruct (phrase_filter_spec field (normalize_phrase text) found) as (found' & -> & Hf'); [apply Forall_forall; by intros d [? _]%Hf|].
    exists found'. split; [done|]. intros i m Hi. rewrite Hf', Hf. cbn [satisfies]. unfold text_holds. pose proof (universe_spec i m Hi). tauto.
Qed.
Lemma exact_sequence ranges : exact_for (KSequence ranges).
Proof.
  unfold exact_for. cbn [eval_search]. eexists. split; [done|]. intros i m Hi. cbn [holds].
  assert (∀ j, (j < length members)%nat → as_u32 (Z.of_nat j) = Z.of_nat j) as Hj by (intros j ?; apply as_u32_id; unfold is_u32; lia).
  unfold total. rewrite (as_u32_id (Z.of_nat (length members))) by (unfold is_u32; lia).
  rewrite elem_of_list_to_set, list_elem_of_omap. split.
  - intros (o & Ho & E). unfold id in E. subst o. apply list_elem_of_lookup in Ho as (j & Hj'). rewrite list_lookup_imap in Hj'.
    destruct (members !! j) as [m'|] eqn:Em; [|done]. simpl in Hj'. destruct (sequence_contains _ _ _) eqn:Ec; [|done]. injection Hj' as E.
    destruct (member_unique j i m' m Em Hi E) as [<- <-]. rewrite Hj in Ec by (by eapply lookup_lt_Some). done.
  - intros Hc. exists (Some (doc m)). split; [|done]. apply (list_elem_of_lookup_2 _ i). rewrite list_lookup_imap, Hi. simpl.
    rewrite Hj by (by eapply lookup_lt_Some). by rewrite Hc.
Qed.
Definition within (d : Z) (acc : option (gset Z)) : Prop := match acc with Some found => d ∈ found | None => True end.
Lemma eval_search_exact k : exact_for k.
Proof.
  apply (key_ind exact_for); clear k.
  - intros k. destruct k; try done; try (eapply exact_where; [reflexivity|]; intros i m Hi; cbn [holds]; first [apply eqb_true_iff|lia|done]).
    + exists (list_to_set (universe members)). split; [done|]. intros i m Hi. cbn [holds]. rewrite elem_of_list_to_set. split; [done|]. intros _. by eapply universe_spec.
    + exists ∅. split; [done|]. intros i m Hi. cbn [holds]. set_solver.
    + apply exact_sequence.
    + apply (text_exact Combined None).
    + apply (text_exact field (Some field)).
    + apply exact_header.
    + eapply exact_where; [reflexivity|]. intros i m Hi. cbn [holds]. apply bool_decide_eq_true.
  - intros k (sub & E & Hs). exists (list_to_set (filter (λ d, d ∉ sub) (universe members))). cbn [eval_search]. rewrite E. split; [done|]. intros i m Hi. cbn [holds].
    rewrite elem_of_list_to_set, list_elem_of_filter, (Hs i m Hi). pose proof (universe_spec i m Hi). tauto.
  - intros k k' (f1 & E1 & H1') (f2 & E2 & H2'). exists (f1 ∪ f2). cbn [eval_search]. rewrite E1. cbn [mbind result_bind]. rewrite E2. split; [done|]. intros i m Hi. cbn [holds].
    by rewrite elem_of_union, (H1' i m Hi), (H2' i m Hi).
  - intros ks Hks. unfold exact_for. cbn [eval_search holds].
    match goal with |- ∃ _, (acc ← ?go None ks; _) = _ ∧ _ => set (and_all := go) end.
    assert (∀ acc, ∃ r, and_all acc ks = Ok r ∧ ∀ i m, members !! i = Some m →
      within (doc m) r ↔ within (doc m) acc ∧ foldr (λ key rest, holds docs members modseqs saved_uids key i m ∧ rest) True ks) as Hall.
    { induction Hks as [|k ks (f & E & Hf) Hks IH]; intros acc; [exists acc; split; [done|]; simpl; tauto|].
      cbn [and_all foldr]. rewrite E. cbn [mbind result_bind].
      destruct (IH (Some (match acc with Some current => current ∩ f | None => f end))) as (r & Er & Hr). exists r. split; [exact Er|].
      intros i m Hi. rewrite (Hr i m Hi), <-(Hf i m Hi). destruct acc; simpl; rewrite ?elem_of_intersection; tauto. }
    destruct (Hall None) as (r & -> & Hr). cbn [mbind result_bind]. eexists. split; [done|]. intros i m Hi.
    pose proof (Hr i m Hi) as Hr'. pose proof (universe_spec i m Hi). destruct r; simpl in Hr'; rewrite ?elem_of_list_to_set; tauto.
Qed.
End exact.

(** The numbers of a search are those of the matching members, in order. *)
Lemma elem_of_imap_pair (members : list member) i m : (i, m) ∈ imap pair members ↔ members !! i = Some m.
Proof.
  split.
  - intros (j & Hj)%list_elem_of_lookup. rewrite list_lookup_imap in Hj. destruct (members !! j) eqn:E; [|done]. injection Hj as <- <-. done.
  - intros Hi. apply (list_elem_of_lookup_2 _ i). by rewrite list_lookup_imap, Hi.
Qed.
Lemma matching_elem members matched i m : (i, m) ∈ matching members matched ↔ members !! i = Some m ∧ ce_document_id m.2 ∈ matched.
Proof. unfold matching. rewrite list_elem_of_filter, elem_of_imap_pair. simpl. tauto. Qed.
Lemma outcome_uids_elem members matched uid :
  uid ∈ outcome_uids members matched ↔ ∃ i e, members !! i = Some (uid, e) ∧ ce_document_id e ∈ matched.
Proof.
  unfold outcome_uids. rewrite merge_sort_Permutation, list_elem_of_fmap. split.
  - intros ([i [u e]] & -> & [Hi Hm]%matching_elem). by exists i, e.
  - intros (i & e & Hi & Hm). exists (i, (uid, e)). split; [done|]. by apply matching_elem.
Qed.
Lemma outcome_numbers_elem members matched n : Z.of_nat (length members) < 2 ^ 32 →
  n ∈ outcome_ids members matched false ↔ ∃ i m, n = Z.of_nat i + 1 ∧ members !! i = Some m ∧ ce_document_id m.2 ∈ matched.
Proof.
  intros Hlen. unfold outcome_ids. rewrite merge_sort_Permutation, list_elem_of_fmap.
  assert (∀ i m, members !! i = Some m → as_u32 (Z.of_nat i) = Z.of_nat i) as Hu by (intros i m ?%lookup_lt_Some; apply as_u32_id; unfold is_u32; lia).
  split.
  - intros ([i m] & -> & [Hi Hm]%matching_elem). exists i, m. cbn [fst]. by rewrite (Hu i m Hi).
  - intros (i & m & -> & Hi & Hm). exists (i, m). cbn [fst]. rewrite (Hu i m Hi). split; [done|]. by apply matching_elem.
Qed.

Section search.
Context {S B R : Type} {store : Store S} {contract : StoreSpec S} `{Bitmap R} {laws : BitmapLaws R}.
Context `{BlobStore B} {blob_contract : BlobSpec B}.
Context `{Unicode} `{LowerText} `{MailParser} `{MailCodec} {codec_laws : MailCodecLaws}.
Context (values_order : gmap Z MessageCacheEntry → list MessageCacheEntry).

(** C10. SEARCH is exact.  On an account, whatever the criteria, the search of a
    mailbox succeeds and answers with the uids, and without UID with the
    sequence numbers, of exactly the messages of the mailbox the criterion is
    true of: flags, sizes, dates and header fields as they are stored, words as
    they are in the indexed text and phrases as they are in the message, and
    NOT, OR and lists as logic has them, the uids in increasing order, whatever
    order the cache yields its entries in. *)
Theorem imap_search_exact a others (w : MailWorld S B) (docs : maildrop) mb saved_uids k uid_mode mods :
  is_u32 a → (∀ es, values_order es ≡ₚ (map_to_list es).*2) →
  account_at (R := R) a others w docs → byte_keys (view (mw_store w)) → Z.of_nat (size docs) < 2 ^ 32 →
  (uses_modseq k = true → modseq_map a (mw_store w) = Ok mods) →
  ∃ members out, members_at docs mb members ∧
    search_mailbox (R := R) values_order a (mw_store w) (Some (mw_blobs w)) mb saved_uids k uid_mode = Ok out ∧
    let modseqs := if uses_modseq k then Some mods else None in
    (∀ uid, uid ∈ oc_uids out ↔ ∃ i e, members !! i = Some (uid, e) ∧ holds docs members modseqs saved_uids k i (uid, e)) ∧
    (uid_mode = false → ∀ n, n ∈ oc_ids out ↔ ∃ i m, n = Z.of_nat i + 1 ∧ members !! i = Some m ∧ holds docs members modseqs saved_uids k i m) ∧
    (uid_mode = true → oc_ids out = oc_uids out) ∧ StronglySorted Z.le (oc_uids out).
Proof.
  intros Ha Hv Hw Hb Hsize Hmods. destruct (cache_build_spec a others w docs Hw Hb) as (n & _ & Ec).
  pose proof (mailbox_members_spec a others values_order Hv w docs n mb Hw) as Hm. unfold cache_of in Hm. set (members := mailbox_members _ _ _) in Hm.
  set (modseqs := if uses_modseq k then Some mods else None).
  assert ((if uses_modseq k then m ← modseq_map a (mw_store w); Ok (Some m) else Ok None) = Ok modseqs) as Em.
  { unfold modseqs. destruct (uses_modseq k); [by rewrite Hmods|done]. }
  assert (Z.of_nat (length members) < 2 ^ 32) as Hlen by (pose proof (members_length _ _ _ Hm); lia).
  destruct (eval_search_exact a Ha others w docs mb members Hw Hm Hlen modseqs saved_uids k) as (matched & E & Hf).
  exists members, (mkOutcomeOf (outcome_ids members matched uid_mode) (outcome_uids members matched) (outcome_modseq members modseqs matched)).
  split_and!; [done| |].
  - unfold search_mailbox. rewrite Em. cbn [mbind result_bind]. rewrite Ec. cbn [mbind result_bind]. fold members. by rewrite E.
  - cbn [oc_ids oc_uids]. split_and!.
    + intros uid. rewrite outcome_uids_elem. split; intros (i & e & Hi & Hd); exists i, e; (split; [done|]); by apply (Hf i (uid, e) Hi).
    + intros -> n'. rewrite outcome_numbers_elem by done. split; intros (i & m & -> & Hi & Hd); exists i, m; (split_and!; [done..|]); by apply (Hf i m Hi).
    + by intros ->.
    + apply (StronglySorted_merge_sort Z.le).
Qed.
End search.
