(* ===== verification/ImapMail.v ===== *)
(** * IMAP: what the commands do to a mailbox (crates/imap/src/session.rs)

    FETCH, STORE, COPY, MOVE, EXPUNGE, SORT, THREAD and the replay of a
    resynchronisation, once the selected mailbox is known: each takes the
    members of the mailbox by uid, selects by number or by uid, and changes the
    account through the message operations. *)

From S2P Require Import Prelude Bytes Key Store ChangeLog Quota Text Fts Blobs MailParser Sieve MailModel MailMessage MailStore MailRep MailFile MailCache MailAdmin Pop3Commands ImapParser ImapSequence ImapDate ImapFetch ImapEnvelope ImapCommands ImapSearch.
From stdpp Require Import base gmap list strings sorting.
From Stdlib Require Import ZArith Lia.

Open Scope Z_scope.

(** ** Keywords *)

(** [desired_keywords]. *)
Definition push_keyword (out : list Keyword) (k : Keyword) : list Keyword := if bool_decide (k ∈ out) then out else out ++ [k].
Definition desired_keywords (current : list Keyword) (op : StoreOp) : list Keyword :=
  let incoming := filter (λ k, k ≠ Recent) (from_imap <$> so_flags op) in
  match so_mode op with
  | StReplace => foldl push_keyword [] incoming
  | StAdd => foldl push_keyword current incoming
  | StRemove => filter (λ k, k ∉ incoming) current
  end.

(** The members with their numbers. *)
Definition numbered (ms : list member) : list (Z * member) := imap (λ i m, (as_u32 (Z.of_nat i) + 1, m)) ms.
Definition members_total (ms : list member) : Z := as_u32 (Z.of_nat (length ms)).
Definition members_uid_max (ms : list member) : Z := default 0 (fst <$> last ms).
(** Selection by number or by uid. *)
Definition selected_by (ranges : list SeqRange) (uid_mode : bool) (ms : list member) (x : Z * member) : bool :=
  if uid_mode then sequence_contains ranges x.2.1 (members_uid_max ms) else sequence_contains ranges x.1 (members_total ms).

(** ** SORT and THREAD *)

Record SortableEntry : Type := mkSortable {
  se_seqno : Z; se_uid : Z; se_size : Z; se_received_at : Z; se_sent_at : Z; se_thread_id : Z;
  se_subject : bytes; se_from : bytes; se_to : bytes; se_cc : bytes }.
Definition date_of (e : SortableEntry) : Z := if negb (se_sent_at e =? 0) then se_sent_at e else se_received_at e.
Definition compare_key (k : SortKey) (a b : SortableEntry) : comparison :=
  match k with
  | SkArrival => se_received_at a ?= se_received_at b
  | SkDate => date_of a ?= date_of b
  | SkSize => se_size a ?= se_size b
  | SkSubject => bytes_cmp (base_subject (se_subject a)) (base_subject (se_subject b))
  | SkFrom => bytes_cmp (to_ascii_lowercase (se_from a)) (to_ascii_lowercase (se_from b))
  | SkTo => bytes_cmp (to_ascii_lowercase (se_to a)) (to_ascii_lowercase (se_to b))
  | SkCc => bytes_cmp (to_ascii_lowercase (se_cc a)) (to_ascii_lowercase (se_cc b))
  end.
Fixpoint compare_entries (a b : SortableEntry) (specs : list SortSpec) : comparison :=
  match specs with
  | [] => se_uid a ?= se_uid b
  | spec :: specs =>
      let ord := compare_key (ss_key spec) a b in
      match (if ss_reverse spec then CompOpp ord else ord) with Eq => compare_entries a b specs | ord => ord end
  end.
(** [sort_by]: stable. *)
Fixpoint insert_entry (specs : list SortSpec) (e : SortableEntry) (l : list SortableEntry) : list SortableEntry :=
  match l with
  | [] => [e]
  | x :: l => match compare_entries e x specs with Lt => e :: x :: l | _ => x :: insert_entry specs e l end
  end.
Definition sort_entries (specs : list SortSpec) (l : list SortableEntry) : list SortableEntry :=
  foldl (λ acc e, insert_entry specs e acc) [] l.
Definition entry_id (uid_mode : bool) (e : SortableEntry) : Z := if uid_mode then se_uid e else se_seqno e.

(** Groups by key, in the order the keys come up; sorting by the first uid,
    which no two groups share, forgets that order. *)
Fixpoint add_to_group (key : bytes) (x : Z * Z) (groups : list (bytes * list (Z * Z))) : list (bytes * list (Z * Z)) :=
  match groups with
  | [] => [(key, [x])]
  | (k, g) :: groups => if bool_decide (k = key) then (k, g ++ [x]) :: groups else (k, g) :: add_to_group key x groups
  end.
Fixpoint insert_by_key {A} (key : A → Z) (e : A) (l : list A) : list A :=
  match l with
  | [] => [e]
  | x :: l => if key e <? key x then e :: x :: l else x :: insert_by_key key e l
  end.
Definition sort_by_key {A} (key : A → Z) (l : list A) : list A := foldl (λ acc e, insert_by_key key e acc) [] l.
Definition group_of (algorithm : ThreadAlgorithm) (e : SortableEntry) : bytes :=
  match algorithm with ThReferences => fmt_dec (se_thread_id e) | ThOrderedSubject => base_subject (se_subject e) end.
Definition thread_groups (algorithm : ThreadAlgorithm) (uid_mode : bool) (entries : list SortableEntry) : list (list Z) :=
  let by_key := foldl (λ m e, add_to_group (group_of algorithm e) (se_uid e, entry_id uid_mode e) m) [] entries in
  let groups := List.map (λ kg, sort_by_key fst kg.2) by_key in
  List.map (List.map snd) (sort_by_key (λ g, default 0 (option_map fst (head g))) groups).

(** ** EXPUNGE numbers *)

Definition expunge_line (n : Z) : bytes := bs "* " ++ fmt_dec n ++ bs " EXPUNGE" ++ CRLF.
(** Each number as it is when those before it are gone. *)
Definition expunge_numbers (seqnos : list Z) : list Z := imap (λ removed seqno, seqno - as_u32 (Z.of_nat removed)) seqnos.
Definition vanished_line (uids : list Z) : bytes := bs "* VANISHED " ++ compress_sequence uids ++ CRLF.
Definition vanished_earlier (uids : list Z) : list bytes :=
  if bool_decide (uids = []) then [] else [bs "* VANISHED (EARLIER) " ++ compress_sequence uids ++ CRLF].

Record CopyResult : Type := mkCopy { cr_expunges : list bytes; cr_src_uids : list Z; cr_dst_uids : list Z }.
Definition no_copy : CopyResult := mkCopy [] [] [].

Section operations.
Context {S B R : Type} `{Store S} `{BlobStore B} `{Bitmap R} `{Unicode} `{LowerText} `{MailParser} `{MimeView} `{MailCodec}.
Context (values_order : gmap Z MessageCacheEntry → list MessageCacheEntry).
Abbreviation W := (MailWorld S B).
Implicit Types (account_id mb : Z).

Definition count_unseen (c : MessageStoreCache) mb : Z :=
  as_u32 (Z.of_nat (length (filter (λ e, entry_has_keyword Seen e = false) (cache_in_mailbox values_order mb c)))).
(** [position] over the members by uid. *)
Fixpoint unseen_from (ms : list member) (i : nat) : option nat :=
  match ms with [] => None | m :: ms => if negb (entry_has_keyword Seen m.2) then Some i else unseen_from ms (Datatypes.S i) end.
Definition first_unseen_seqno (c : MessageStoreCache) mb : option Z :=
  (λ i, as_u32 (Z.of_nat i) + 1) <$> unseen_from (mailbox_members values_order mb c) 0.

(** [highest_modseq_value]: a failed read is zero. *)
Definition highest_modseq account_id (s : S) : Z :=
  Z.max (match latest_change_id account_id Email s with Ok n => n | Err _ => 0 end) 1.

(** *** Reading *)

Definition sortable_of account_id (with_headers : bool) (x : Z * member) (s : S) : result SortableEntry :=
  let '(seqno, (uid, e)) := x in
  let plain := mkSortable seqno uid (ce_size e) (ce_received_at e) (ce_sent_at e) (ce_thread_id e) [] [] [] [] in
  if with_headers then
    m ← load_metadata account_id (ce_document_id e) s;
    Ok (match m with
        | Some m =>
            let value name := default [] (header_value (raw_headers m) (bs name)) in
            mkSortable seqno uid (ce_size e) (ce_received_at e) (ce_sent_at e) (ce_thread_id e)
              (value "subject"%string) (value "from"%string) (value "to"%string) (value "cc"%string)
        | None => plain
        end)
  else Ok plain.
Fixpoint sortables account_id (with_headers : bool) (xs : list (Z * member)) (s : S) : result (list SortableEntry) :=
  match xs with
  | [] => Ok []
  | x :: xs => e ← sortable_of account_id with_headers x s; es ← sortables account_id with_headers xs s; Ok (e :: es)
  end.
(** [sortable_matches]. *)
Definition sortable_in account_id mb (blobs : option B) (saved_uids : list Z) (k : SearchKey) (with_headers : bool) (s : S)
    : result (list SortableEntry) :=
  modseqs ← (if uses_modseq k then m ← modseq_map account_id s; Ok (Some m) else Ok None);
  c ← cache_build account_id s;
  let members := mailbox_members values_order mb c in
  matched ← eval_search (R := R) account_id s blobs members modseqs saved_uids k;
  sortables account_id with_headers (filter (λ x, ce_document_id x.2.2 ∈ matched) (numbered members)) s.

(** The numbers [$] stands for. *)
Definition saved_numbers account_id mb (saved : list Z) (s : S) : result (list SeqRange) :=
  c ← cache_build account_id s;
  let uids := merge_sort Z.le (omap (entry_uid_in mb) (cache_in_mailbox values_order mb c)) in
  Ok (ranges_from (fst <$> filter (λ x, x.2 ∈ saved) (imap (λ i uid, (as_u32 (Z.of_nat i) + 1, uid)) uids))).

Definition vanished_in account_id mb (since : Z) (s : S) : result (list Z) :=
  es ← vanished_since account_id since s;
  Ok (List.map vanished_uid (List.filter (λ e, vanished_mailbox_id e =? mb) es)).
Definition max_of (l : list Z) : Z := foldr Z.max 0 l.

(** [qresync_replay], for the mailbox and the account. *)
Definition REPLAY_ITEMS : list bytes := bs <$> ["UID"; "FLAGS"; "MODSEQ"]%string.
Definition replay_in account_id (m : Mailbox) (q : QresyncParam) (s : S) : result (list bytes) :=
  vanished ← vanished_in account_id (mb_id m) (qr_modseq q) s;
  let vanished :=
    match qr_known_uids q with
    | Some known => filter (λ uid, sequence_contains known uid (max_of vanished) = true) vanished
    | None => vanished
    end in
  map ← modseq_map account_id s;
  c ← cache_build account_id s;
  Ok (vanished_earlier vanished
      ++ omap (λ '(seqno, (uid, e)),
           let modseq := default 1 (map !! ce_document_id e) in
           if modseq <=? qr_modseq q then None
           else Some (fetch_line seqno uid e REPLAY_ITEMS false (mkExtras None None None None (Some modseq))))
         (numbered (mailbox_members values_order (mb_id m) c))).
(** *** FETCH *)

Record LoadedBody : Type := mkLoaded { lb_raw : bytes; lb_header : ByteRange; lb_text : ByteRange; lb_metadata : MessageMetadata }.
Definition load_message_body account_id (blobs : bool) (document_id : Z) (w : W) : result (option LoadedBody) :=
  if negb blobs then Ok None
  else
    m ← load_metadata account_id document_id (mw_store w);
    match m with
    | None => Ok None
    | Some m =>
        raw ← blob_get_all (MailModel.blob_hash m) (mw_blobs w);
        Ok (match raw with
            | None => None
            | Some raw =>
                Some (match head (parts m) with
                      | Some root => mkLoaded raw (mp_header root) (mp_body root) m
                      | None => mkLoaded raw (mkRange 0 0) (mkRange 0 (Z.of_nat (length raw))) m
                      end)
            end)
    end.
(** A structure that has no end is a call that does not return. *)
Definition structure_of (wanted : bool) (raw : bytes) (extended : bool) : result (option bytes) :=
  if wanted then ok_or (build_bodystructure raw extended) (Internal "the loop has stopped") else Ok None.
Definition extras_of (items : list bytes) (loaded : option LoadedBody) (modseq : option Z) : result FetchExtras :=
  match loaded with
  | None => Ok (mkExtras None None None None modseq)
  | Some b =>
      let wants item := bool_decide (bs item ∈ items) in
      let piece r := default [] (slice_get (lb_raw b) (rg_start r) (rg_end r)) in
      structure ← structure_of (wants "BODYSTRUCTURE"%string) (lb_raw b) true;
      brief ← structure_of (wants "BODY"%string) (lb_raw b) false;
      Ok (mkExtras (Some (mkBody (lb_raw b) (piece (lb_header b)) (piece (lb_text b)) (parts (lb_metadata b))))
            (if wants "ENVELOPE"%string then build_envelope (lb_raw b) else None) structure brief modseq)
  end.
Definition entry_seen (e : MessageCacheEntry) : MessageCacheEntry :=
  mkCacheEntry (ce_document_id e) (ce_mailboxes e) (ce_keywords e ++ [Seen]) (ce_thread_id e) (ce_size e) (ce_received_at e) (ce_sent_at e).
Definition with_flags (items : list bytes) : list bytes := if bool_decide (bs "FLAGS" ∈ items) then items else items ++ [bs "FLAGS"].
Definition wants_message (items : list bytes) : bool :=
  existsb is_body_item items || bool_decide (bs "ENVELOPE" ∈ items) || existsb is_structure_item items.
Section fetch.
Context (account_id : Z) (blobs notifier read_only : bool) (items : list bytes) (uid_mode : bool).
Definition sets_seen : bool := negb read_only && existsb is_seen_setting_item items.
(** One message: its line, and the flag its reading sets. *)
Definition fetch_one (x : Z * member) (modseq : option Z) : M W bytes :=
  let '(seqno, (uid, e)) := x in
  loaded ← (if wants_message items then reads (load_message_body account_id blobs (ce_document_id e)) else mret None);
  extras ← lift (extras_of items loaded modseq);
  if sets_seen && negb (entry_has_keyword Seen e) && notifier then
    _ ← update_message account_id (ce_document_id e) (λ data, Ok (add_keyword Seen data).2);
    mret (fetch_line seqno uid (entry_seen e) (with_flags items) uid_mode extras)
  else mret (fetch_line seqno uid e items uid_mode extras).
Fixpoint fetch_each (modseqs : option (gmap Z Z)) (floor : option Z) (xs : list (Z * member)) : M W (list bytes) :=
  match xs with
  | [] => mret []
  | x :: xs =>
      let modseq := (λ m, default 1 (m !! ce_document_id x.2.2)) <$> modseqs in
      if (match floor with Some since => default 1 modseq <=? since | None => false end) then fetch_each modseqs floor xs
      else l ← fetch_one x modseq; ls ← fetch_each modseqs floor xs; mret (l :: ls)
  end.
(** [fetch_lines], for the mailbox and the account. *)
Definition fetch_in mb (ranges : list SeqRange) (mods : option FetchMods) : M W (list bytes) :=
  c ← ask_store (cache_build account_id);
  let members := mailbox_members values_order mb c in
  modseqs ← (if bool_decide (bs "MODSEQ" ∈ items) || bool_decide (is_Some mods)
             then m ← ask_store (modseq_map account_id); mret (Some m) else mret None);
  floor ← match mods return M W (option Z) with
          | Some m =>
              ok ← ask_store (can_calculate account_id Email (fm_changed_since m));
              mret (if (ok : bool) then Some (fm_changed_since m) else None)
          | None => mret None
          end;
  gone ← match mods return M W (list Z) with
         | Some m => if fm_vanished m then ask_store (vanished_in account_id mb (fm_changed_since m)) else mret []
         | None => mret []
         end;
  let largest := Z.max (members_uid_max members) (max_of gone) in
  ls ← fetch_each modseqs floor (filter (λ x, selected_by ranges uid_mode members x = true) (numbered members));
  mret (vanished_earlier (filter (λ uid, sequence_contains ranges uid largest = true) gone) ++ ls).
End fetch.

(** *** STORE *)

(** The messages to change, and those that were changed since. *)
Definition unchanged (modseqs : option (gmap Z Z)) (calculable : bool) (since : option Z) (x : Z * member) : bool :=
  match since with
  | Some since => calculable && (default 1 (modseqs ≫= λ m, m !! ce_document_id x.2.2) <=? since)
  | None => true
  end.
Definition store_line (op : StoreOp) (uid_mode report : bool) (modseqs : option (gmap Z Z)) (results : list UpdatedMessage)
    (x : Z * member) : option bytes :=
  let '(seqno, (uid, e)) := x in
  u ← List.find (λ u, up_document u =? ce_document_id e) results;
  let entry := mkCacheEntry (ce_document_id e) [] (keywords (up_data u)) 0 0 0 0 in
  Some (if report
        then fetch_line seqno uid entry [bs "FLAGS"; bs "MODSEQ"] uid_mode (mkExtras None None None None
               (Some (default (default 1 (modseqs ≫= λ m, m !! ce_document_id e)) (up_change u))))
        else fetch_line seqno uid entry [bs "FLAGS"] uid_mode no_extras).
Definition store_in account_id mb (ranges : list SeqRange) (op : StoreOp) (uid_mode : bool) (since : option Z) (condstore : bool)
    : M W (list bytes * list Z) :=
  c ← ask_store (cache_build account_id);
  let members := mailbox_members values_order mb c in
  let report := bool_decide (is_Some since) || condstore in
  modseqs ← (if report then m ← ask_store (modseq_map account_id); mret (Some m) else mret None);
  calculable ← match since return M W bool with
               | Some since => ask_store (can_calculate account_id Email since)
               | None => mret true
               end;
  let selected := filter (λ x, selected_by ranges uid_mode members x = true) (numbered members) in
  let targets := filter (λ x, unchanged modseqs calculable since x = true) selected in
  let modified := (λ x, if uid_mode then x.2.1 else x.1) <$> filter (λ x, unchanged modseqs calculable since x = false) selected in
  results ← update_messages account_id ((λ x, ce_document_id x.2.2) <$> targets)
              (λ _ data, Ok (with_keywords (desired_keywords (keywords data) op) data));
  mret (if so_silent op then [] else omap (store_line op uid_mode report modseqs results) targets, modified).

(** *** COPY and MOVE *)

Definition move_out (move_mode : bool) source (data : MessageData) : MessageData :=
  if move_mode then (remove_mailbox source data).2 else data.
(** One message: its uid in the target. *)
Definition copy_one account_id source (target : Mailbox) (move_mode : bool) (e : MessageCacheEntry) : M W Z :=
  match entry_uid_in (mb_id target) e return M W Z with
  | Some dst =>
      _ ← (if move_mode
           then _ ← update_message account_id (ce_document_id e) (λ data, Ok (remove_mailbox source data).2); mret tt
           else mret tt);
      mret dst
  | None =>
      dst ← in_store (next_uid target account_id);
      _ ← update_message account_id (ce_document_id e)
            (λ data, Ok (move_out move_mode source (add_mailbox (mb_id target) dst data).2));
      mret dst
  end.
Fixpoint copy_each account_id source (target : Mailbox) (move_mode : bool) (xs : list (Z * member)) : M W (list (Z * Z)) :=
  match xs with
  | [] => mret []
  | x :: xs =>
      dst ← copy_one account_id source target move_mode x.2.2;
      rest ← copy_each account_id source target move_mode xs;
      mret ((x.2.1, dst) :: rest)
  end.
Definition copy_in account_id source (target : Mailbox) (ranges : list SeqRange) (uid_mode move_mode : bool) : M W CopyResult :=
  c ← ask_store (cache_build account_id);
  let members := mailbox_members values_order source c in
  let selected := filter (λ x, selected_by ranges uid_mode members x = true) (numbered members) in
  uids ← copy_each account_id source target move_mode selected;
  mret (mkCopy (if move_mode then expunge_line <$> expunge_numbers (merge_sort Z.le selected.*1) else []) uids.*1 uids.*2).

(** *** EXPUNGE *)

Definition expunge_one account_id mb (e : MessageCacheEntry) : M W bool :=
  if (length (ce_mailboxes e) <=? 1)%nat then delete_message (R := R) account_id (ce_document_id e)
  else update_message account_id (ce_document_id e) (λ data, Ok (remove_keyword Deleted (remove_mailbox mb data).2).2).
Fixpoint expunge_each account_id mb (xs : list (Z * member)) : M W unit :=
  match xs with
  | [] => mret tt
  | x :: xs => _ ← expunge_one account_id mb x.2.2; expunge_each account_id mb xs
  end.
Definition expunge_selected (ranges : option (list SeqRange)) (ms : list member) : list (Z * member) :=
  filter (λ x, entry_has_keyword Deleted x.2.2
               && match ranges with Some ranges => sequence_contains ranges x.2.1 (members_uid_max ms) | None => true end = true) (numbered ms).
Definition expunge_lines (qresync : bool) (selected : list (Z * member)) : list bytes :=
  if qresync then (if bool_decide (selected = []) then [] else [vanished_line ((λ x, x.2.1) <$> selected)])
  else expunge_line <$> expunge_numbers selected.*1.
Definition expunge_in account_id mb (ranges : option (list SeqRange)) (qresync : bool) : M W (list bytes) :=
  c ← ask_store (cache_build account_id);
  let selected := expunge_selected ranges (mailbox_members values_order mb c) in
  _ ← expunge_each account_id mb selected;
  mret (expunge_lines qresync selected).
End operations.
