(* ===== verification/ImapExpunge.v ===== *)
(** * IMAP: EXPUNGE (crates/imap/src/session.rs)

    What EXPUNGE does to the account, and that a client that follows the
    numbers it is told ends up with the messages that are left. *)

From S2P Require Import Prelude Bytes Key Store ChangeLog Quota Text Fts Blobs MailParser Sieve MailModel MailMessage MailStore MailRep MailFile MailRemove MailHistory MailCache MailAdmin Pop3Commands ImapParser ImapSequence ImapFetch ImapEnvelope ImapCommands ImapSearch ImapMail.
From stdpp Require Import base gmap list strings sorting.
From Stdlib Require Import ZArith Lia.

Open Scope Z_scope.

(** ** The numbers *)

(** A client takes the numbered message out of its list for each line. *)
Definition client_removes {A} (numbers : list Z) (l : list A) : list A :=
  foldl (λ l n, base.delete (Z.to_nat (n - 1)) l) l numbers.

Lemma client_removes_go {A} (p : Z * A → Prop) `{∀ x, Decision (p x)} (ms kept : list A) (r : nat) :
  Z.of_nat (length kept + r + length ms) < 2 ^ 32 →
  let xs := imap (λ k m, (as_u32 (Z.of_nat (length kept + r + k)) + 1, m)) ms in
  client_removes (imap (λ removed seqno, seqno - as_u32 (Z.of_nat (r + removed))) (filter p xs).*1) (kept ++ ms)
  = kept ++ (filter (λ x, ¬ p x) xs).*2.
Proof.
  revert kept r. induction ms as [|m ms IH]; intros kept r Hlen xs; [done|]. simpl in Hlen. unfold xs. rewrite imap_cons. cbn [Nat.add].
  set (x := (as_u32 _ + 1, m)). set (rest := imap _ ms).
  assert (Hrest : rest = imap (λ k m, (as_u32 (Z.of_nat (length kept + Datatypes.S r + k)) + 1, m)) ms).
  { apply imap_ext. intros k m' _. simpl. do 4 f_equal. lia. }
  destruct (decide (p x)) as [Hp|Hp].
  - rewrite (filter_cons_True p) by done. rewrite (filter_cons_False (λ x, ¬ p x)) by tauto. rewrite fmap_cons, imap_cons.
    cbn [client_removes foldl]. replace (base.delete _ (kept ++ m :: ms)) with (kept ++ ms).
    + rewrite Hrest. rewrite <-(IH kept (Datatypes.S r)) by lia. unfold client_removes. f_equal. apply imap_ext.
      intros i n _. simpl. do 3 f_equal. lia.
    + unfold x. cbn [fst]. rewrite !as_u32_id by width.
      replace (Z.to_nat _) with (length kept) by lia. by rewrite delete_middle.
  - rewrite (filter_cons_False p) by done. rewrite (filter_cons_True (λ x, ¬ p x)) by done. rewrite fmap_cons. cbn [snd].
    assert (Hrest' : rest = imap (λ k m', (as_u32 (Z.of_nat (length (kept ++ [m]) + r + k)) + 1, m')) ms).
    { apply imap_ext. intros k m' _. simpl. do 4 f_equal. rewrite length_app. simpl. lia. }
    rewrite Hrest', (cons_middle m kept ms), app_assoc, (IH (kept ++ [m]) r) by (rewrite length_app; simpl; lia).
    by rewrite <-app_assoc.
Qed.

Lemma client_follows (p : Z * member → Prop) `{∀ x, Decision (p x)} ms :
  Z.of_nat (length ms) < 2 ^ 32 →
  client_removes (expunge_numbers (filter p (numbered ms)).*1) ms = (filter (λ x, ¬ p x) (numbered ms)).*2.
Proof. apply (client_removes_go p ms [] 0). Qed.

(** Numbered members. *)
Lemma numbered_elem ms x : x ∈ numbered ms → x.2 ∈ ms.
Proof.
  unfold numbered. intros (i & m & -> & Hi)%elem_of_lookup_imap_1. by eapply list_elem_of_lookup_2.
Qed.
Lemma numbered_snd ms : (numbered ms).*2 = ms.
Proof. unfold numbered. rewrite fmap_imap. apply list_eq. intros i. rewrite list_lookup_imap. by destruct (ms !! i). Qed.

Lemma numbered_documents (xs : list (Z * member)) :
  (λ x, ce_document_id x.2.2) <$> xs = (λ m, ce_document_id m.2) <$> xs.*2.
Proof. by rewrite <-list_fmap_compose. Qed.

(** ** The account *)

Definition expunge_from (mb : Z) (x : Stored) : option Stored :=
  if (length (mailboxes (st_data x)) <=? 1)%nat then None
  else Some (with_data x (remove_keyword Deleted (remove_mailbox mb (st_data x)).2).2).
(** A message with the flag and with a uid the command names. *)
Definition doomed_in (mb : Z) (named : Z → bool) (x : Stored) : bool :=
  has_keyword Deleted (st_data x) && existsb (λ e, (mu_mailbox e =? mb) && named (mu_uid e)) (mailboxes (st_data x)).
Definition expunge_docs (mb : Z) (named : Z → bool) (docs : maildrop) : maildrop :=
  omap (λ x, if doomed_in mb named x then expunge_from mb x else Some x) docs.
Definition named_by (ranges : option (list SeqRange)) (ms : list member) (uid : Z) : bool :=
  match ranges with Some ranges => sequence_contains ranges uid (members_uid_max ms) | None => true end.
(** The change ids it takes, at most. *)
Definition members_cost (ms : list member) : nat := list_sum ((λ m, length (ce_mailboxes m.2) + 1)%nat <$> ms).
Lemma members_cost_sublist l1 l2 : l1 `sublist_of` l2 → (members_cost l1 ≤ members_cost l2)%nat.
Proof.
  unfold members_cost. induction 1 as [|m l1 l2 _ IH|m l1 l2 _ IH]; [done| |]; rewrite ?fmap_cons; cbn [list_sum foldr];
    change (foldr Nat.add 0%nat) with list_sum; lia.
Qed.

Section expunge.
Context {S B R : Type} {store : Store S} {contract : StoreSpec S} `{Bitmap R} {laws : BitmapLaws R}.
Context `{BlobStore B} {blob_contract : BlobSpec B}.
Context `{Unicode} `{LowerText} `{MailParser} `{MailCodec} {codec_laws : MailCodecLaws} {digest_inj : Inj (=) (=) digest}.
Context (digest_nonempty : ∀ raw, digest raw ≠ []) (a : Z) (Ha : is_u32 a).
Context (values_order : gmap Z MessageCacheEntry → list MessageCacheEntry).
Context (values_order_perm : ∀ es, values_order es ≡ₚ (map_to_list es).*2).
Implicit Types (docs : maildrop) (others : BlobHash → Z).
Abbreviation W := (MailWorld S B).

Lemma expunge_one_spec others (w : W) docs mb d x :
  account_at (R := R) a others w docs → (∀ h, 0 ≤ others h) → docs !! d = Some x →
  (∀ n, counter_at (view (mw_store w)) a Email n → n + Z.of_nat (length (mailboxes (st_data x))) < I64_MAX) →
  ∃ r w', expunge_one (R := R) a mb (from_data d (st_data x)) w = (Ok r, w') ∧
    account_at (R := R) a others w' (partial_alter (λ o, o ≫= expunge_from mb) d docs) ∧
    ids_used a (view (mw_store w)) (view (mw_store w')) (length (mailboxes (st_data x)) + 1).
Proof.
  intros Hw Ho Hd Hn. pose proof Hw as (_ & _ & Hrep). unfold expunge_one. cbn [from_data ce_mailboxes ce_document_id].
  assert (∀ docs', docs' !! d = expunge_from mb x → (∀ d', d ≠ d' → docs' !! d' = docs !! d') →
    partial_alter (λ o, o ≫= expunge_from mb) d docs = docs') as Hdocs.
  { intros docs' E F. apply map_eq. intros d'. destruct (decide (d = d')) as [<-|]; [|by rewrite lookup_partial_alter_ne, F].
    by rewrite lookup_partial_alter_eq, Hd. }
  unfold expunge_from in Hdocs at 1. destruct (Nat.leb_spec (length (mailboxes (st_data x))) 1) as [Hl|Hl].
  - destruct (delete_message_spec digest_nonempty a Ha others w docs d Hw) as (w' & E & Hacc & _ & Hids);
      [by eapply rep_ids|intros y Hy; rewrite Hd in Hy; simplify_eq; by eapply removable_from|].
    eexists _, w'. split; [exact E|]. rewrite Hd in Hids. split; [|done].
    rewrite (Hdocs (base.delete d docs)); [done|by rewrite lookup_delete_eq|intros; by rewrite lookup_delete_ne].
  - set (data' := (remove_keyword Deleted (remove_mailbox mb (st_data x)).2).2) in *.
    destruct (update_message_spec a others w docs d x (λ data, Ok (remove_keyword Deleted (remove_mailbox mb data).2).2) data' Hw Hd eq_refl)
      as (w' & E & Hacc & _ & Hids); [eapply change_ok_fewer; try done; apply sublist_filter|].
    eexists _, w'. split; [exact E|]. split; [|done].
    rewrite (Hdocs (<[d := with_data x data']> docs)); [done|by rewrite lookup_insert_eq|intros; by rewrite lookup_insert_ne].
Qed.

Lemma expunge_each_spec others (w : W) docs mb (xs : list (Z * member)) n :
  account_at (R := R) a others w docs → (∀ h, 0 ≤ others h) → NoDup ((λ x, ce_document_id x.2.2) <$> xs) →
  (∀ x, x ∈ xs → ∃ y, docs !! ce_document_id x.2.2 = Some y ∧ x.2.2 = from_data (ce_document_id x.2.2) (st_data y)) →
  counter_at (view (mw_store w)) a Email n → n + Z.of_nat (members_cost xs.*2) < I64_MAX →
  ∃ w' docs', expunge_each (R := R) a mb xs w = (Ok tt, w') ∧ account_at (R := R) a others w' docs' ∧
    ∀ d, docs' !! d = if decide (d ∈ (λ x, ce_document_id x.2.2) <$> xs) then docs !! d ≫= expunge_from mb else docs !! d.
Proof.
  revert w docs n. induction xs as [|x xs IH]; intros w docs n Hw Ho Hnd Hin Hn Hmax.
  { exists w, docs. split_and!; [done|done|]. intros d. by rewrite decide_False by apply not_elem_of_nil. }
  destruct (Hin x) as (y & Hy & Ey); [apply list_elem_of_here|].
  unfold members_cost in Hmax. rewrite !fmap_cons in Hmax. cbn [list_sum foldr snd] in Hmax. rewrite Ey in Hmax at 1. cbn [ce_mailboxes from_data] in Hmax.
  rewrite fmap_cons in Hnd. apply NoDup_cons in Hnd as [Hnot Hnd]. set (d := ce_document_id x.2.2) in *.
  destruct (expunge_one_spec others w docs mb d y Hw Ho Hy) as (r & w1 & E & Hw1 & Hids & _).
  { intros n' Hn'. unfold counter_at in *. rewrite Hn in Hn'. simplify_eq. lia. }
  destruct (Hids n Hn) as (n1 & Hn1 & ?).
  destruct (IH w1 _ n1 Hw1 Ho Hnd) as (w' & docs' & E' & Hacc & Hdocs); [|done|unfold members_cost, list_sum; lia|].
  { intros x' Hx'. destruct (Hin x') as (y' & Hy' & ?); [by apply list_elem_of_further|]. exists y'. split; [|done].
    rewrite lookup_partial_alter_ne; [done|]. intros Ed. apply Hnot. rewrite Ed. by apply (list_elem_of_fmap_2 (λ x, ce_document_id x.2.2)). }
  exists w', docs'. split_and!; [|done|].
  - cbn [expunge_each]. unfold mbind, M_bind. rewrite Ey. by rewrite E.
  - intros d'. rewrite Hdocs, fmap_cons. fold d. destruct (decide (d' = d)) as [->|Hne].
    + rewrite decide_False by done. rewrite decide_True by apply list_elem_of_here. by rewrite lookup_partial_alter_eq.
    + rewrite lookup_partial_alter_ne by done. destruct (decide (d' ∈ _)) as [Hd'|Hd'].
      * by rewrite decide_True by (by apply list_elem_of_further).
      * by rewrite decide_False by (rewrite elem_of_cons; tauto).
Qed.

(** The messages that go are those with the flag, in the mailbox, that are named. *)
Lemma selected_doomed docs mb ranges ms d :
  members_at docs mb ms →
  d ∈ (λ x, ce_document_id x.2.2) <$> expunge_selected ranges ms ↔ ∃ y, docs !! d = Some y ∧ doomed_in mb (named_by ranges ms) y = true.
Proof.
  intros [Hel _ _]. unfold expunge_selected, doomed_in. rewrite list_elem_of_fmap. split.
  - intros (x & -> & [[Hk Hr]%andb_prop Hx]%list_elem_of_filter). apply numbered_elem in Hx. destruct x as [n [uid e]]. cbn [fst snd] in *.
    apply Hel in Hx as (y & Hy & Hm & Ee). exists y. split; [done|]. rewrite Ee in Hk. apply andb_true_intro. split; [done|].
    apply existsb_exists. exists (mkMailboxUid mb uid). split; [by apply list_elem_of_In|]. cbn [mu_mailbox mu_uid]. by rewrite Z.eqb_refl.
  - intros (y & Hy & [Hk ([m uid] & Hin%list_elem_of_In & [Em%Z.eqb_eq Hn]%andb_prop)%existsb_exists]%andb_prop). cbn [mu_uid mu_mailbox] in *. subst m.
    assert ((uid, from_data d (st_data y)) ∈ ms) as Hm by (apply Hel; by exists y).
    rewrite <-(numbered_snd ms) in Hm. apply list_elem_of_fmap in Hm as (x & Ex & Hx). exists x. rewrite <-Ex. split; [done|].
    apply list_elem_of_filter. rewrite <-Ex. cbn [fst snd]. split; [|done]. by apply andb_true_intro.
Qed.

Lemma numbered_inj docs mb ms x y :
  members_at docs mb ms → x ∈ numbered ms → y ∈ numbered ms → ce_document_id x.2.2 = ce_document_id y.2.2 → x = y.
Proof.
  intros Hms [i Hi]%list_elem_of_lookup_1 [j Hj]%list_elem_of_lookup_1 E. pose proof (ma_docs _ _ _ Hms) as Hnd.
  rewrite <-(numbered_snd ms), <-numbered_documents in Hnd.
  enough (i = j) as -> by congruence. apply (NoDup_lookup _ i j (ce_document_id x.2.2) Hnd); rewrite list_lookup_fmap, ?Hi, ?Hj; simpl; by rewrite ?E.
Qed.

(** What is left of the members. *)
Lemma members_left docs docs' mb ms (p : Z * member → Prop) `{∀ x, Decision (p x)} :
  members_at docs mb ms →
  (∀ uid e, member_of docs' mb uid e ↔ ∃ n, (n, (uid, e)) ∈ numbered ms ∧ ¬ p (n, (uid, e))) →
  members_at docs' mb (filter (λ x, ¬ p x) (numbered ms)).*2.
Proof.
  intros [Hel Hs Hnd] Hleft.
  assert ((filter (λ x, ¬ p x) (numbered ms)).*2 `sublist_of` ms) as Hsub by (rewrite <-(numbered_snd ms) at 2; apply fmap_sublist, sublist_filter).
  split.
  - intros uid e. rewrite Hleft, list_elem_of_fmap. split.
    + intros ([n m] & E & [Hp Hx]%list_elem_of_filter). simpl in E. subst m. by exists n.
    + intros (n & Hx & Hp). exists (n, (uid, e)). split; [done|]. by apply list_elem_of_filter.
  - clear -Hs Hsub. induction Hsub as [|m l1 l2 Hsub IH|m l1 l2 Hsub IH]; [constructor| |]; inversion Hs; subst; [|by apply IH].
    constructor; [by apply IH|]. rewrite Forall_forall in *. intros y Hy. eauto using elem_of_sublist.
  - eapply sublist_NoDup; [exact Hnd|]. by apply fmap_sublist.
Qed.

Lemma doomed_member mb named x uid :
  NoDup (mu_mailbox <$> mailboxes (st_data x)) → mkMailboxUid mb uid ∈ mailboxes (st_data x) →
  doomed_in mb named x = has_keyword Deleted (st_data x) && named uid.
Proof.
  intros Hnd Hin. unfold doomed_in. f_equal. apply eq_true_iff_eq. rewrite existsb_exists. split.
  - intros ([m u] & Hu%list_elem_of_In & [Em%Z.eqb_eq Hn]%andb_prop). cbn [mu_uid mu_mailbox] in *. subst m.
    apply (uid_in_spec _ mb u Hnd) in Hu. apply (uid_in_spec _ mb uid Hnd) in Hin. congruence.
  - intros Hn. exists (mkMailboxUid mb uid). split; [by apply list_elem_of_In|]. simpl. by rewrite Z.eqb_refl.
Qed.
Lemma expunge_from_gone mb x y uid : expunge_from mb x = Some y → mkMailboxUid mb uid ∉ mailboxes (st_data y).
Proof. unfold expunge_from. case_match; [done|]. intros [= <-]. simpl. intros [Hne _]%list_elem_of_filter. done. Qed.
Lemma expunged_members others c bodies docs mb named uid e :
  represents (R := R) a others c bodies docs →
  member_of (expunge_docs mb named docs) mb uid e ↔
  member_of docs mb uid e ∧ ¬ (entry_has_keyword Deleted e && named uid = true).
Proof.
  intros Hrep. unfold member_of, expunge_docs. split.
  - intros (y & Hy & Hm & Ee). rewrite lookup_omap in Hy. destruct (docs !! ce_document_id e) as [x|] eqn:Hx; [|done]. simpl in Hy.
    destruct (doomed_in mb named x) eqn:Ed; [by destruct (expunge_from_gone mb x y uid Hy)|]. injection Hy as ->.
    split; [by exists y|]. rewrite Ee. change (entry_has_keyword Deleted _) with (has_keyword Deleted (st_data y)).
    rewrite <-(doomed_member mb named y uid) by (done || by eapply rep_places). by rewrite Ed.
  - intros [(x & Hx & Hm & Ee) Hno]. exists x. split_and!; [|done|done]. rewrite lookup_omap, Hx. simpl.
    rewrite (doomed_member mb named x uid) by (done || by eapply rep_places). rewrite Ee in Hno.
    change (entry_has_keyword Deleted _) with (has_keyword Deleted (st_data x)) in Hno. by destruct (_ && _).
Qed.

Lemma selected_uids others c bodies docs mb ranges ms uid :
  represents (R := R) a others c bodies docs → members_at docs mb ms →
  uid ∈ (λ x, x.2.1) <$> expunge_selected ranges ms ↔
  ∃ d x, docs !! d = Some x ∧ mkMailboxUid mb uid ∈ mailboxes (st_data x) ∧ doomed_in mb (named_by ranges ms) x = true.
Proof.
  intros Hrep Hms. rewrite list_elem_of_fmap. split.
  - intros (x & -> & Hx). destruct (proj1 (selected_doomed docs mb ranges ms (ce_document_id x.2.2) Hms)) as (y & Hy & Hd).
    { by apply (list_elem_of_fmap_2 (λ x, ce_document_id x.2.2)). }
    exists (ce_document_id x.2.2), y. split_and!; [done| |done]. apply list_elem_of_filter in Hx as [_ Hx].
    destruct x as [k' [uid e]]. apply numbered_elem, (ma_elem _ _ _ Hms) in Hx as (y' & Hy' & Hm & _). cbn [fst snd] in *. congruence.
  - intros (d & x & Hd & Hm & Hx). pose proof (proj2 (selected_doomed docs mb ranges ms d Hms)) as Hin.
    apply list_elem_of_fmap in Hin as ([k' [uid' e]] & -> & Hs); [|by exists x]. exists (k', (uid', e)). split; [|done]. cbn [fst snd].
    apply list_elem_of_filter in Hs as [_ Hs]. apply numbered_elem, (ma_elem _ _ _ Hms) in Hs as (y & Hy & Hm' & _). cbn [fst snd] in *.
    rewrite Hd in Hy. simplify_eq. pose proof (proj1 (rep_places _ _ _ _ _ Hrep _ _ Hd)) as Hnd.
    apply (uid_in_spec _ mb uid Hnd) in Hm. apply (uid_in_spec _ mb uid' Hnd) in Hm'. congruence.
Qed.

(** C7. EXPUNGE removes what is marked and tells the client so.  On an account,
    EXPUNGE of a mailbox succeeds; the messages of the mailbox that have the
    \Deleted flag, and with UID EXPUNGE whose uid is named, leave it: those
    that are nowhere else are deleted, the others keep their other mailboxes
    and lose the flag, and every other message of the account is as it was.
    A client that takes the message with the number it is told out of its list,
    line by line, has the members that are left, in order; with QRESYNC it is
    told the uids of those that are gone. *)
Theorem expunge_refines others (w : W) docs mb ms ranges qresync n :
  account_at (R := R) a others w docs → (∀ h, 0 ≤ others h) → byte_keys (view (mw_store w)) →
  members_at docs mb ms → Z.of_nat (size docs) < 2 ^ 32 →
  counter_at (view (mw_store w)) a Email n → n + Z.of_nat (members_cost ms) < I64_MAX →
  ∃ lines w', let docs' := expunge_docs mb (named_by ranges ms) docs in
    expunge_in (R := R) values_order a mb ranges qresync w = (Ok lines, w') ∧ account_at (R := R) a others w' docs' ∧
    if qresync then ∃ uids, lines = (if bool_decide (uids = []) then [] else [vanished_line uids]) ∧
      ∀ uid, uid ∈ uids ↔ ∃ d x, docs !! d = Some x ∧ mkMailboxUid mb uid ∈ mailboxes (st_data x) ∧ doomed_in mb (named_by ranges ms) x = true
    else ∃ numbers, lines = expunge_line <$> numbers ∧ members_at docs' mb (client_removes numbers ms).
Proof.
  intros Hw Ho Hb Hms Hsize Hn Hmax. destruct (cache_build_spec a others w docs Hw Hb) as (k & _ & Ec). fold (cache_of a docs k) in Ec.
  pose proof (mailbox_members_spec a others values_order values_order_perm w docs k mb Hw) as Hms'.
  pose proof (members_at_unique _ _ _ _ Hms' Hms) as Ems. clear Hms'.
  pose proof Hw as (_ & _ & Hrep). set (sel := expunge_selected ranges ms).
  assert (sel.*2 `sublist_of` ms) as Hsub by (rewrite <-(numbered_snd ms); apply fmap_sublist, sublist_filter).
  destruct (expunge_each_spec others w docs mb sel n Hw Ho) as (w' & docs' & E & Hacc & Hdocs); [| |done| |].
  { eapply sublist_NoDup; [apply (ma_docs _ _ _ Hms)|].
    rewrite numbered_documents. by apply fmap_sublist. }
  { intros [k' [uid e]] [_ Hx]%list_elem_of_filter. apply numbered_elem, (ma_elem _ _ _ Hms) in Hx as (y & Hy & _ & Ee). by exists y. }
  { pose proof (members_cost_sublist _ _ Hsub). lia. }
  assert (docs' = expunge_docs mb (named_by ranges ms) docs) as ->.
  { apply map_eq. intros d. rewrite Hdocs. unfold expunge_docs. rewrite lookup_omap. pose proof (selected_doomed docs mb ranges ms d Hms) as Hsel.
    fold sel in Hsel. destruct (docs !! d) as [x|] eqn:Hd; [|by case_decide]. simpl. destruct (doomed_in mb _ x) eqn:Ed; case_decide as Hin; try done.
    - destruct Hin. apply Hsel. by exists x.
    - apply Hsel in Hin as (y & [= <-] & ?). congruence. }
  exists (expunge_lines qresync sel), w'. split_and!; [|done|].
  { unfold expunge_in. unfold mbind at 1, M_bind at 1, ask_store at 1. rewrite Ec, Ems. fold sel. cbv zeta. unfold mbind, M_bind. by rewrite E. }
  destruct qresync; cbn [expunge_lines].
  - exists ((λ x, x.2.1) <$> sel). split.
    { by destruct sel. }
    intros uid. by eapply selected_uids.
  - eexists. split; [done|]. unfold sel, expunge_selected. rewrite client_follows by (pose proof (members_length _ _ _ Hms); lia).
    apply (members_left docs); [done|]. intros uid e. rewrite (expunged_members others _ _ docs mb _ uid e Hrep), <-(ma_elem _ _ _ Hms). cbn [fst snd].
    rewrite <-(numbered_snd ms) at 1. rewrite list_elem_of_fmap. split.
    + intros [([k' m] & E' & Hx) Hno]. simpl in E'. subst m. by exists k'.
    + intros (k' & Hx & Hno). split; [by exists (k', (uid, e))|done].
Qed.
End expunge.
