(* ===== verification/ImapCopy.v ===== *)
(** * IMAP: COPY and MOVE (crates/imap/src/session.rs)

    What COPY and MOVE do to the account: the selected messages get a place in
    the target mailbox with a new uid, unless they have one, and with MOVE
    leave the selected mailbox. *)

From S2P Require Import Prelude Bytes Key Store ChangeLog Quota Text Fts Blobs MailParser Sieve MailModel MailMessage MailStore MailRep MailFile MailRemove MailHistory MailCache MailAdmin Pop3Commands ImapParser ImapSequence ImapFetch ImapEnvelope ImapCommands ImapSearch ImapMail ImapExpunge.
From stdpp Require Import base gmap list strings sorting.
From Stdlib Require Import ZArith Lia.

Open Scope Z_scope.

(** A message before and after: what it says and its flags stay, it is in the
    target under [dst], its other places stay but for the source of a move. *)
Record moved (source target : Z) (move_mode : bool) (x y : Stored) (dst : Z) : Prop := {
  mv_raw : st_raw y = st_raw x;
  mv_metadata : st_metadata y = st_metadata x;
  mv_keywords : keywords (st_data y) = keywords (st_data x);
  mv_target : mkMailboxUid target dst ∈ mailboxes (st_data y);
  mv_there : in_mailbox target (st_data x) = true → mkMailboxUid target dst ∈ mailboxes (st_data x);
  mv_other e : mu_mailbox e ≠ target → e ∈ mailboxes (st_data y) ↔ e ∈ mailboxes (st_data x) ∧ (move_mode = true → mu_mailbox e ≠ source);
}.

(** Numbers come in order. *)
Lemma numbered_sorted ms : Z.of_nat (length ms) < 2 ^ 32 → StronglySorted Z.le (numbered ms).*1.
Proof.
  intros Hlen. replace (numbered ms).*1 with ((λ i, Z.of_nat i + 1) <$> seq 0 (length ms)).
  - clear Hlen. generalize 0%nat. induction (length ms) as [|k IH]; intros i; simpl; [constructor|]. constructor; [apply IH|].
    apply Forall_fmap, Forall_forall. intros j [Hj _]%elem_of_seq. simpl. lia.
  - apply list_eq. intros i. unfold numbered. rewrite fmap_imap, list_lookup_fmap, list_lookup_imap.
    destruct (ms !! i) as [m|] eqn:Hi.
    + pose proof (lookup_lt_Some _ _ _ Hi). rewrite lookup_seq_lt by done. simpl. f_equal. by rewrite as_u32_id by width.
    + apply lookup_ge_None in Hi. by rewrite lookup_seq_ge.
Qed.
Lemma sorted_sublist l1 l2 : l1 `sublist_of` l2 → StronglySorted Z.le l2 → StronglySorted Z.le l1.
Proof.
  induction 1 as [|m l1 l2 Hsub IH|m l1 l2 Hsub IH]; intros Hs; [done| |]; inversion Hs; subst; [|by apply IH].
  constructor; [by apply IH|]. rewrite Forall_forall in *. eauto using elem_of_sublist.
Qed.
Lemma merge_sort_sorted l : StronglySorted Z.le l → merge_sort Z.le l = l.
Proof.
  intros Hl. apply (StronglySorted_unique Z.le); [apply StronglySorted_merge_sort; apply _|done|apply merge_sort_Permutation].
Qed.

Lemma in_mailbox_uid m data : in_mailbox m data = bool_decide (is_Some (mu_uid <$> List.find (λ u, mu_mailbox u =? m) (mailboxes data))).
Proof. unfold in_mailbox. induction (mailboxes data) as [|e l IH]; simpl; [done|]. destruct (mu_mailbox e =? m); [by rewrite bool_decide_true|done]. Qed.

Lemma moved_copied source target move_mode x dst :
  source ≠ mb_id target → in_mailbox (mb_id target) (st_data x) = false →
  moved source (mb_id target) move_mode x
    (with_data x (copied target (if move_mode then Some source else None) dst (st_data x))) dst.
Proof.
  intros Hne Hno. destruct (copied_places target (if move_mode then Some source else None) dst (st_data x) Hno) as [Hp _].
  split; try done; cbn [st_data with_data].
  - unfold copied, add_mailbox. rewrite Hno. by destruct move_mode.
  - rewrite Hp. apply list_elem_of_filter. cbn [mu_mailbox]. split; [destruct move_mode; congruence|]. apply elem_of_app. right. by apply list_elem_of_singleton.
  - by rewrite Hno.
  - intros e He. rewrite Hp, list_elem_of_filter, elem_of_app, list_elem_of_singleton. split.
    + intros [Hs [Hin| ->]]; [|done]. split; [done|]. intros ->. congruence.
    + intros [Hin Hs]. split; [|by left]. destruct move_mode; [|done]. intros [= E]. by apply Hs.
Qed.

Section copy.
Context {S B R : Type} {store : Store S} {contract : StoreSpec S} `{Bitmap R} {laws : BitmapLaws R}.
Context `{BlobStore B} {blob_contract : BlobSpec B}.
Context `{Unicode} `{MailParser} `{MailCodec} {codec_laws : MailCodecLaws} {digest_inj : Inj (=) (=) digest}.
Context (digest_nonempty : ∀ raw, digest raw ≠ []) (a : Z) (Ha : is_u32 a).
Context (values_order : gmap Z MessageCacheEntry → list MessageCacheEntry).
Context (values_order_perm : ∀ es, values_order es ≡ₚ (map_to_list es).*2).
Implicit Types (docs : maildrop) (others : BlobHash → Z).
Abbreviation W := (MailWorld S B).

(** The last uid of the target. *)
Definition last_given (w : W) (target : Mailbox) (n : Z) : Prop :=
  counter_value (view (mw_store w) !! uid_counter_key a (mb_id target)) = Some n ∧ 0 ≤ n.

Lemma copy_one_spec others (w : W) docs source target move_mode d x n u :
  account_at (R := R) a others w docs → docs !! d = Some x → mailbox_ok target → source ≠ mb_id target →
  last_given w target u → u < U32_MAX →
  counter_at (view (mw_store w)) a Email n → n + Z.of_nat (length (mailboxes (st_data x)) + 1) < I64_MAX →
  ∃ dst w' y u', ImapMail.copy_one a source target move_mode (from_data d (st_data x)) w = (Ok dst, w') ∧
    account_at (R := R) a others w' (<[d := y]> docs) ∧ moved source (mb_id target) move_mode x y dst ∧
    (in_mailbox (mb_id target) (st_data x) = false → u < dst ≤ u') ∧ last_given w' target u' ∧ u ≤ u' ≤ u + 1 ∧
    ids_used a (view (mw_store w)) (view (mw_store w')) (length (mailboxes (st_data x)) + 1).
Proof.
  intros Hw Hd Hok Hne [Hu Hu0] Hmax Hn Hroom. pose proof Hw as (_ & _ & Hrep).
  assert (∀ n', counter_at (view (mw_store w)) a Email n' → n' + Z.of_nat (length (mailboxes (st_data x))) < I64_MAX) as Hn'.
  { intros n' Hn'. unfold counter_at in *. rewrite Hn in Hn'. simplify_eq. lia. }
  unfold ImapMail.copy_one, entry_uid_in. cbn [from_data ce_mailboxes ce_document_id].
  pose proof (in_mailbox_uid (mb_id target) (st_data x)) as Hin.
  destruct (mu_uid <$> _) as [dst|] eqn:Ef.
  - rewrite bool_decide_true in Hin by done. apply (uid_in_spec _ _ _ (proj1 (rep_places _ _ _ _ _ Hrep d x Hd))) in Ef. destruct move_mode.
    + destruct (update_message_spec a others w docs d x (λ data, Ok (remove_mailbox source data).2) (remove_mailbox source (st_data x)).2 Hw Hd eq_refl)
        as (w' & E & Hacc & Hkept & Hids); [eapply change_ok_fewer; try done; apply sublist_filter|].
      exists dst, w', (with_data x (remove_mailbox source (st_data x)).2), u. split_and!; try done; try lia;
        [unfold mbind, M_bind; by rewrite E| |intros Hf; congruence|split; [by rewrite Hkept by apply Hok|done]].
      split; try done; cbn [st_data with_data remove_mailbox snd mailboxes with_mailboxes].
      * apply list_elem_of_filter. split; [simpl; congruence|done].
      * intros e He. rewrite list_elem_of_filter. naive_solver.
    + exists dst, w, x, u. rewrite insert_id by done. split_and!; try done; try lia; [|intros Hf; congruence|].
      * split; try done. intros e He. naive_solver.
      * split; [|done]. intros n0 Hn0. exists n0. split; [done|lia].
  - rewrite bool_decide_false in Hin by (by intros []).
    destruct (copy_message a others w docs target (if move_mode then Some source else None) d x Hw Hd) as (k & w1 & w' & E1 & E2 & Hacc & Hk & _ & Hk1 & _ & Hids).
    { split; try done; [by exists u|intros y; congruence|]. intros y k Hy. rewrite Hd in Hy. simplify_eq. apply Hn'. }
    rewrite Hu in Hk. injection Hk as <-. exists (u + 1), w', (with_data x (copied target (if move_mode then Some source else None) (u + 1) (st_data x))), (u + 1).
    split_and!; try done; try lia; [|by apply moved_copied|split; [done|lia]].
    unfold mbind, M_bind. rewrite E1. replace (λ data, Ok (move_out move_mode source (add_mailbox (mb_id target) (u + 1) data).2)) with
      (λ data : MessageData, Ok (copied target (if move_mode then Some source else None) (u + 1) data)); [by rewrite E2|by destruct move_mode].
Qed.

(** All the selected messages, in order. *)
Record all_moved (source target : Z) (move_mode : bool) (u : Z) docs docs' (xs : list (Z * member)) (dsts : list Z) : Prop := {
  am_same d : d ∉ (λ x, ce_document_id x.2.2) <$> xs → docs' !! d = docs !! d;
  am_length : length dsts = length xs;
  am_moved i x : xs !! i = Some x → ∃ y z dst, docs !! ce_document_id x.2.2 = Some y ∧ docs' !! ce_document_id x.2.2 = Some z ∧
    dsts !! i = Some dst ∧ moved source target move_mode y z dst ∧ (in_mailbox target (st_data y) = false → u < dst);
}.
Lemma copy_each_spec others (w : W) docs source target move_mode (xs : list (Z * member)) n u :
  account_at (R := R) a others w docs → mailbox_ok target → source ≠ mb_id target →
  NoDup ((λ x, ce_document_id x.2.2) <$> xs) →
  (∀ x, x ∈ xs → ∃ y, docs !! ce_document_id x.2.2 = Some y ∧ x.2.2 = from_data (ce_document_id x.2.2) (st_data y)) →
  last_given w target u → u + Z.of_nat (length xs) ≤ U32_MAX →
  counter_at (view (mw_store w)) a Email n → n + Z.of_nat (members_cost xs.*2) < I64_MAX →
  ∃ uids w' docs', copy_each a source target move_mode xs w = (Ok uids, w') ∧ account_at (R := R) a others w' docs' ∧
    uids.*1 = (λ x, x.2.1) <$> xs ∧ all_moved source (mb_id target) move_mode u docs docs' xs uids.*2.
Proof.
  intros Hw Hok Hne. revert w docs n u Hw. induction xs as [|x xs IH]; intros w docs n u Hw Hnd Hin Hu Hmax Hn Hroom.
  { by exists [], w, docs. }
  destruct (Hin x) as (y & Hy & Ey); [apply list_elem_of_here|]. cbn [length] in Hmax.
  unfold members_cost in Hroom. rewrite !fmap_cons in Hroom. cbn [list_sum foldr snd] in Hroom. rewrite Ey in Hroom at 1. cbn [ce_mailboxes from_data] in Hroom.
  change (foldr Nat.add 0%nat) with list_sum in Hroom. fold (members_cost xs.*2) in Hroom.
  rewrite fmap_cons in Hnd. apply NoDup_cons in Hnd as [Hnot Hnd]. set (d := ce_document_id x.2.2) in *.
  destruct (copy_one_spec others w docs source target move_mode d y n u Hw Hy Hok Hne Hu) as (dst & w1 & z & u1 & E & Hw1 & Hmv & Hnew & Hu1 & Hle & Hids & _);
    [lia|done|lia|]. destruct (Hids n Hn) as (n1 & Hn1 & ?).
  assert (∀ x', x' ∈ xs → ce_document_id x'.2.2 ≠ d) as Hdiff.
  { intros x' Hx' Ed. apply Hnot. rewrite <-Ed. by apply (list_elem_of_fmap_2 (λ x, ce_document_id x.2.2)). }
  destruct (IH w1 _ n1 u1 Hw1 Hnd) as (uids & w' & docs' & E' & Hacc & Huids & [Hsame Hlen Hmoved]); [|done|lia|done|lia|].
  { intros x' Hx'. destruct (Hin x') as (y' & Hy' & ?); [by apply list_elem_of_further|]. exists y'. split; [|done].
    rewrite lookup_insert_ne; [done|]. apply not_eq_sym. by apply Hdiff. }
  exists ((x.2.1, dst) :: uids), w', docs'. split_and!; [|done|by rewrite !fmap_cons, Huids|split].
  - cbn [copy_each]. unfold mbind, M_bind. rewrite Ey at 1. rewrite E, E'. done.
  - intros d'. rewrite fmap_cons. fold d. intros [Hd1 Hd2]%not_elem_of_cons. rewrite Hsame, lookup_insert_ne by done. done.
  - rewrite fmap_cons. simpl. by rewrite Hlen.
  - intros [|i] x'; simpl; [|].
    + intros [= <-]. exists y, z, dst. fold d. rewrite Hsame by done. rewrite lookup_insert_eq. split_and!; try done. intros Hf. specialize (Hnew Hf). lia.
    + intros Hi. destruct (Hmoved i x' Hi) as (y' & z' & dst' & Hy' & Hz' & Hd' & Hm' & Hn'). exists y', z', dst'.
      rewrite lookup_insert_ne in Hy' by (apply not_eq_sym, Hdiff; by eapply list_elem_of_lookup_2). split_and!; try done. intros Hf. specialize (Hn' Hf). lia.
Qed.

(** The members the selected mailbox has left after a move. *)
Lemma moved_members docs docs' source target u ms (p : Z * member → Prop) `{∀ x, Decision (p x)} dsts :
  members_at docs source ms → source ≠ target →
  all_moved source target true u docs docs' (filter p (numbered ms)) dsts →
  members_at docs' source (filter (λ x, ¬ p x) (numbered ms)).*2.
Proof.
  intros Hms Hne [Hsame _ Hmv]. apply (members_left docs); [done|]. intros uid e.
  assert (∀ n m, (n, m) ∈ numbered ms → ∃ y, docs !! ce_document_id m.2 = Some y ∧ mkMailboxUid source m.1 ∈ mailboxes (st_data y) ∧
    m.2 = from_data (ce_document_id m.2) (st_data y)) as Hthere.
  { intros n [uid' e'] Hx%numbered_elem. apply (ma_elem _ _ _ Hms) in Hx. exact Hx. }
  assert (∀ n m, (n, m) ∈ numbered ms → p (n, m) → ∃ z, docs' !! ce_document_id m.2 = Some z ∧ ∀ v, mkMailboxUid source v ∉ mailboxes (st_data z)) as Hgone.
  { intros n m Hx Hp. assert ((n, m) ∈ filter p (numbered ms)) as [i Hi]%list_elem_of_lookup_1 by (by apply list_elem_of_filter).
    destruct (Hmv i (n, m) Hi) as (y & z & dst & Hy & Hz & _ & Hm & _). exists z. split; [done|]. intros v Hin.
    apply (mv_other _ _ _ _ _ _ Hm) in Hin as [_ Hs]; [|done]. by apply Hs. }
  split.
  - intros (z & Hz & Hm & Ee). destruct (decide (ce_document_id e ∈ (λ x, ce_document_id x.2.2) <$> filter p (numbered ms))) as [Hin|Hin].
    + apply list_elem_of_fmap in Hin as ([n m] & Ed & [Hp Hx]%list_elem_of_filter). cbn [snd] in Ed. exfalso.
      destruct (Hgone n m Hx Hp) as (z' & Hz' & Hno). rewrite <-Ed, Hz in Hz'. injection Hz' as <-. by apply (Hno uid).
    + rewrite Hsame in Hz by done. assert ((uid, e) ∈ ms) as Hx by (apply (ma_elem _ _ _ Hms); by exists z).
      rewrite <-(numbered_snd ms) in Hx. apply list_elem_of_fmap in Hx as ([n m] & E & Hx). simpl in E. subst m. exists n. split; [done|].
      intros Hp. apply Hin. apply (list_elem_of_fmap_2 (λ x, ce_document_id x.2.2) _ (n, (uid, e))). by apply list_elem_of_filter.
  - intros (n & Hx & Hp). destruct (Hthere n _ Hx) as (y & Hy & Hm & Ee). cbn [fst snd] in *. exists y. split_and!; [|done|done].
    rewrite Hsame; [done|]. intros ([n' [uid' e']] & Ed & [Hp' Hx']%list_elem_of_filter)%list_elem_of_fmap. cbn [snd] in Ed.
    by rewrite (numbered_inj docs source ms (n, (uid, e)) (n', (uid', e')) Hms Hx Hx' Ed) in Hp.
Qed.

(** C9. COPY and MOVE.  On an account, a copy of the selected messages into
    another mailbox succeeds.  Every selected message is then in the target
    under the uid the answer pairs its own with, a uid above all that the
    target had given unless it was there before; what it says, its flags and
    its other mailboxes are as they were, except that a move takes it out of
    the selected mailbox; messages that were not selected are untouched.  After
    a move a client that takes out the messages with the numbers it is told has
    the members that are left. *)
Theorem copy_refines others (w : W) docs source target ms ranges uid_mode move_mode n u :
  account_at (R := R) a others w docs → byte_keys (view (mw_store w)) →
  members_at docs source ms → Z.of_nat (size docs) < 2 ^ 32 → mailbox_ok target → source ≠ mb_id target →
  last_given w target u → u + Z.of_nat (length ms) ≤ U32_MAX →
  counter_at (view (mw_store w)) a Email n → n + Z.of_nat (members_cost ms) < I64_MAX →
  let selected := filter (λ x, selected_by ranges uid_mode ms x = true) (numbered ms) in
  ∃ r w' docs', copy_in values_order a source target ranges uid_mode move_mode w = (Ok r, w') ∧ account_at (R := R) a others w' docs' ∧
    cr_src_uids r = (λ x, x.2.1) <$> selected ∧
    all_moved source (mb_id target) move_mode u docs docs' selected (cr_dst_uids r) ∧
    if move_mode then ∃ numbers, cr_expunges r = expunge_line <$> numbers ∧ members_at docs' source (client_removes numbers ms)
    else cr_expunges r = [].
Proof.
  intros Hw Hb Hms Hsize Hok Hne Hu Hmax Hn Hroom selected.
  destruct (cache_build_spec a others w docs Hw Hb) as (k & _ & Ec). fold (cache_of a docs k) in Ec.
  pose proof (mailbox_members_spec a others values_order values_order_perm w docs k source Hw) as Hms'.
  pose proof (members_at_unique _ _ _ _ Hms' Hms) as Ems. clear Hms'.
  assert (selected.*2 `sublist_of` ms) as Hsub by (rewrite <-(numbered_snd ms); apply fmap_sublist, sublist_filter).
  pose proof (members_length _ _ _ Hms) as Hlen.
  destruct (copy_each_spec others w docs source target move_mode selected n u Hw Hok Hne) as (uids & w' & docs' & E & Hacc & Huids & Hmv);
    [| |done| |done| |].
  { eapply sublist_NoDup; [apply (ma_docs _ _ _ Hms)|]. rewrite numbered_documents. by apply fmap_sublist. }
  { intros [k' [uid e]] [_ Hx]%list_elem_of_filter. apply numbered_elem, (ma_elem _ _ _ Hms) in Hx as (y & Hy & _ & Ee). by exists y. }
  { pose proof (sublist_length _ _ Hsub) as Hl. rewrite length_fmap in Hl. lia. }
  { pose proof (members_cost_sublist _ _ Hsub). lia. }
  eexists _, w', docs'. split_and!; [|done|..].
  - unfold copy_in. unfold mbind at 1, M_bind at 1, ask_store at 1. rewrite Ec, Ems. fold selected. cbv zeta. unfold mbind, M_bind. rewrite E. done.
  - done.
  - done.
  - destruct move_mode; [|done]. eexists. split; [done|].
    rewrite merge_sort_sorted by (eapply sorted_sublist; [apply fmap_sublist, sublist_filter|apply numbered_sorted; lia]).
    unfold selected in *. rewrite client_follows by lia. by eapply moved_members.
Qed.
End copy.
