(* ===== verification/ImapStore.v ===== *)
(** * IMAP: STORE (crates/imap/src/session.rs, crates/mail/src/read.rs)

    STORE changes the flags of many messages in one conditional batch
    ([update_messages]).  The theorems: the batch does to the account what
    changing the messages one by one would, and the flags a client is told are
    those that are stored. *)

From S2P Require Import Prelude Bytes Key Store ChangeLog Quota Text Fts Blobs MailParser Sieve MailModel MailMessage MailStore MailRep MailFile MailRemove MailHistory MailCache MailAdmin Pop3Commands ImapParser ImapSequence ImapFetch ImapEnvelope ImapCommands ImapSearch ImapMail ImapExpunge.
From stdpp Require Import base gmap list strings sorting.
From Stdlib Require Import ZArith Lia.

Open Scope Z_scope.

(** ** Writes that are pending *)

Abbreviation pair := (bytes * bytes)%type.
Definition set_op (kv : pair) : WriteOp := WSet kv.1 kv.2.
Definition write_all (kvs : list pair) (c : contents) : contents := foldl (λ c kv, <[kv.1 := kv.2]> c) c kvs.
Lemma apply_set_ops kvs c : apply_ops c (set_op <$> kvs) = Some (write_all kvs c).
Proof. revert c. induction kvs as [|kv kvs IH]; intros c; [done|]. apply IH. Qed.
Lemma write_all_other kvs c k : (∀ kv, kv ∈ kvs → kv.1 ≠ k) → write_all kvs c !! k = c !! k.
Proof.
  revert c. induction kvs as [|kv kvs IH]; intros c Hk; [done|]. cbn [write_all foldl]. change (foldl _ ?x kvs) with (write_all kvs x).
  rewrite IH by (intros; by apply Hk, list_elem_of_further). apply lookup_insert_ne, Hk, list_elem_of_here.
Qed.
Lemma write_all_insert kvs c k v : (∀ kv, kv ∈ kvs → kv.1 ≠ k) → write_all kvs (<[k := v]> c) = <[k := v]> (write_all kvs c).
Proof.
  revert c. induction kvs as [|kv kvs IH]; intros c Hk; [done|]. cbn [write_all foldl]. change (foldl _ ?x kvs) with (write_all kvs x).
  rewrite insert_insert_ne by apply Hk, list_elem_of_here. apply IH. intros; by apply Hk, list_elem_of_further.
Qed.
Lemma write_all_app kvs kvs' c : write_all (kvs ++ kvs') c = write_all kvs' (write_all kvs c).
Proof. apply foldl_app. Qed.

Lemma forall2_elem {A C} (P Q : A → C → Prop) l k : (∀ x y, x ∈ l → P x y → Q x y) → Forall2 P l k → Forall2 Q l k.
Proof.
  intros Himp HP. induction HP as [|x y l k Hxy HP IH]; constructor; [apply Himp; [apply list_elem_of_here|done]|].
  apply IH. intros; apply Himp; [by apply list_elem_of_further|done].
Qed.

(** A message with other flags. *)
Definition reflag (f : list Keyword → list Keyword) (x : Stored) : Stored := with_data x (with_keywords (f (keywords (st_data x))) (st_data x)).

Section update.
Context {S B R : Type} {store : Store S} {contract : StoreSpec S} `{Bitmap R} {laws : BitmapLaws R}.
Context `{BlobStore B} {blob_contract : BlobSpec B}.
Context `{Unicode} `{MailParser} `{MailCodec} {codec_laws : MailCodecLaws}.
Context (a : Z) (Ha : is_u32 a) (f : list Keyword → list Keyword).
Implicit Types (docs : maildrop) (others : BlobHash → Z).
Abbreviation W := (MailWorld S B).
Abbreviation mutate := (λ (_ : Z) data, Ok (with_keywords (f (keywords data)) data)).

(** What the plan has gathered so far, over the messages as they would be. *)
Record plan_ok others bodies docs (todo : list Z) (s : S) (acc : update_acc) (kvs : list pair) : Prop := {
  po_healthy : healthy s;
  po_ops : ua_ops acc = set_op <$> kvs;
  po_keys kv : kv ∈ kvs → known kv.1 ∧ kv.1 ≠ counter_key a Email ∧ ∀ d, d ∈ todo → kv.1 ≠ data_key a d;
  po_asserts x : x ∈ ua_asserts acc → view s !! assert_key x = assert_expected x ∧ ∃ d, assert_key x = data_key a d;
  po_account : represents (R := R) a others (write_all kvs (view s)) bodies docs;
}.
(** The results: the messages as they would be, in order. *)
Definition updated_as docs (d : Z) (u : UpdatedMessage) : Prop :=
  up_document u = d ∧ ∃ x, docs !! d = Some x ∧ up_data u = st_data (reflag f x).

Lemma vanished_none l s : vanished_ops a l l s = (Ok [], s).
Proof.
  enough (∀ l', l' ⊆ l → vanished_ops a l' l s = (Ok [], s)) as Hgen by (by apply Hgen). induction l' as [|e l' IH]; intros Hl; [done|].
  cbn [vanished_ops]. rewrite bool_decide_true by (apply Hl, list_elem_of_here). apply IH. intros x Hx. by apply Hl, list_elem_of_further.
Qed.

(** One message whose flags change. *)
Lemma plan_change others bodies docs d todo s acc kvs x n b b' :
  plan_ok others bodies docs (d :: todo) s acc kvs → d ∉ todo → is_u32 d → docs !! d = Some x → archive_data (st_data x) = Ok b →
  archive_data (st_data (reflag f x)) = Ok b' → counter_at (view s) a Email n → 0 ≤ n →
  n + 1 + Z.of_nat (length (mailboxes (st_data x))) < I64_MAX → Forall is_u32 todo →
  ∃ s1, record_op a Email d ChangeLog.Update s = (Ok (n + 1, WSet (entry_key a Email (n + 1)) (encode_value (mkEntry (n + 1) d ChangeLog.Update))), s1) ∧
    counter_at (view s1) a Email (n + 1) ∧
    plan_ok others bodies (<[d := reflag f x]> docs) todo s1
      (mkUpdates (ua_results acc ++ [mkUpdated d (Some (n + 1)) (st_data (reflag f x))])
         (ua_asserts acc ++ [mkAssert (data_key a d) (Some b)])
         (ua_ops acc ++ WSet (data_key a d) b' :: [] ++ [WSet (entry_key a Email (n + 1)) (encode_value (mkEntry (n + 1) d ChangeLog.Update))])
         (ua_changes acc ++ [n + 1]))
      (kvs ++ [(data_key a d, b'); (entry_key a Email (n + 1), encode_value (mkEntry (n + 1) d ChangeLog.Update))]).
Proof.
  intros [Hs Hops Hkeys Hasserts Hrep] Hnot Hd Hx Eb Eb' Hn Hn0 Hroom Htodo.
  destruct (allocate_spec a Email s n Hs Hn) as (s1 & E1 & Hs1 & Hv1); [lia|].
  assert (counter_at (view s1) a Email (n + 1)) as Hn1 by (unfold counter_at; rewrite Hv1, lookup_insert_eq; apply counter_value_i64_le; width).
  exists s1. split; [unfold record_op, mbind, M_bind; by rewrite E1|]. split; [done|].
  assert (∀ k, k ≠ counter_key a Email → view s1 !! k = view s !! k) as F by (intros; by rewrite Hv1, lookup_insert_ne).
  assert (∀ kv, kv ∈ kvs → kv.1 ≠ counter_key a Email) as Hck by (intros kv Hkv; by apply Hkeys).
  assert (counter_at (write_all kvs (view s)) a Email n) as Hnc by (unfold counter_at; by rewrite write_all_other).
  split; cbn [ua_ops ua_asserts].
  - done.
  - rewrite Hops, fmap_app. done.
  - intros kv [Hkv|Hkv]%elem_of_app.
    + destruct (Hkeys kv Hkv) as (? & ? & Hd'). split_and!; [done|done|]. intros d' ?. by apply Hd', list_elem_of_further.
    + apply elem_of_cons in Hkv as [->|Hkv%list_elem_of_singleton]; [|subst kv]; simpl; (split_and!; [apply known_key_encode|keys_differ|]).
      * intros d' Hd' E. apply data_key_inj in E; [by subst|done|]. by eapply Forall_forall in Htodo.
      * intros d' Hd'. keys_differ.
  - intros y [Hy|Hy%list_elem_of_singleton]%elem_of_app.
    + destruct (Hasserts y Hy) as [Ey [d' Hd']]. split; [|by exists d']. rewrite F; [done|]. rewrite Hd'. keys_differ.
    + subst y. simpl. split; [|by exists d]. rewrite F by keys_differ.
      rewrite <-(write_all_other kvs (view s)) by (intros kv Hkv; by apply Hkeys, list_elem_of_here).
      rewrite (rep_data _ _ _ _ _ Hrep d Hd), Hx. simpl. by rewrite Eb.
  - rewrite write_all_app, Hv1, write_all_insert by done. cbn [write_all foldl fst snd].
    eapply (represents_changed a others (write_all kvs (view s)) _ bodies docs d x (st_data (reflag f x)) b' n (n + 1) (n + 1)); try done.
    + eapply change_ok_fewer; try done. intros n' Hn'. unfold counter_at in *. rewrite Hnc in Hn'. injection Hn' as <-. lia.
    + rewrite lookup_insert_ne by keys_differ. apply lookup_insert_eq.
    + unfold counter_at. rewrite !lookup_insert_ne by keys_differ. rewrite lookup_insert_eq. apply counter_value_i64_le. width.
    + lia.
    + intros k ? ? ? ?. by rewrite !lookup_insert_ne by done.
Qed.

Lemma plan_updates_spec others bodies ids docs s acc kvs n :
  plan_ok others bodies docs ids s acc kvs → NoDup ids → Forall is_u32 ids → counter_at (view s) a Email n → 0 ≤ n →
  (∀ d, d ∈ ids → ∃ x, docs !! d = Some x ∧ n + Z.of_nat (length ids + length (mailboxes (st_data x))) < I64_MAX) →
  ∃ acc' s' kvs' docs' rs, plan_updates a mutate ids acc s = (Ok acc', s') ∧ plan_ok others bodies docs' [] s' acc' kvs' ∧
    (∀ d, docs' !! d = if decide (d ∈ ids) then reflag f <$> docs !! d else docs !! d) ∧
    ua_results acc' = ua_results acc ++ rs ∧ Forall2 (updated_as docs) ids rs.
Proof.
  revert docs s acc kvs n. induction ids as [|d ids IH]; intros docs s acc kvs n Hp Hnd Hu Hn Hn0 Hroom.
  { exists acc, s, kvs, docs, []. split_and!; [done|done| |by rewrite app_nil_r|constructor]. intros d. by rewrite decide_False by apply not_elem_of_nil. }
  apply NoDup_cons in Hnd as [Hnot Hnd]. apply Forall_cons in Hu as [Hd Hu]. destruct (Hroom d) as (x & Hx & Hx1); [apply list_elem_of_here|].
  pose proof (po_account _ _ _ _ _ _ _ Hp) as Hrep. destruct (archived_data (st_data x)) as [b Eb]. destruct (archived_data (st_data (reflag f x))) as [b' Eb'].
  assert (view s !! data_key a d = Some b) as Hb.
  { rewrite <-(write_all_other kvs) by (intros kv Hkv; by eapply po_keys, list_elem_of_here). rewrite (rep_data _ _ _ _ _ Hrep d Hd), Hx. simpl. by rewrite Eb. }
  enough (∃ s1 acc1 kvs1 n1 u, plan_updates a mutate (d :: ids) acc s = plan_updates a mutate ids acc1 s1 ∧
    plan_ok others bodies (<[d := reflag f x]> docs) ids s1 acc1 kvs1 ∧ counter_at (view s1) a Email n1 ∧ n ≤ n1 ≤ n + 1 ∧
    ua_results acc1 = ua_results acc ++ [u] ∧ updated_as docs d u) as (s1 & acc1 & kvs1 & n1 & u & E1 & Hp1 & Hn1 & Hle & Hr1 & Hu1).
  { destruct (IH _ s1 acc1 kvs1 n1 Hp1 Hnd Hu Hn1) as (acc' & s' & kvs' & docs' & rs & E' & Hp' & Hdocs & Hr & Hrs); [lia| |].
    { intros d' Hd'. destruct (Hroom d') as (y & Hy & Hy1); [by apply list_elem_of_further|]. exists y. simpl in Hy1.
      rewrite lookup_insert_ne by (by intros <-). split; [done|lia]. }
    exists acc', s', kvs', docs', (u :: rs). rewrite E1, E'. split_and!; [done|done| |by rewrite Hr, Hr1, <-app_assoc|].
    - intros d'. rewrite Hdocs. destruct (decide (d' = d)) as [->|Hne].
      + rewrite decide_False by done. rewrite decide_True by apply list_elem_of_here. by rewrite lookup_insert_eq, Hx.
      + rewrite lookup_insert_ne by done. destruct (decide (d' ∈ ids)) as [Hin|Hin].
        * by rewrite decide_True by (by apply list_elem_of_further).
        * by rewrite decide_False by (rewrite elem_of_cons; tauto).
    - constructor; [done|]. eapply forall2_elem; [|exact Hrs]. intros d' u' Hin [E (y & Hy & Ey)]. split; [done|]. exists y. split; [|done].
      by rewrite lookup_insert_ne in Hy by (by intros <-). }
  cbn [plan_updates]. unfold mbind at 1, M_bind at 1, reads at 1. rewrite get_spec by (apply (po_healthy _ _ _ _ _ _ _ Hp) || apply known_key_encode).
  rewrite Hb. unfold mbind at 1, M_bind at 1, lift at 1. rewrite (data_roundtrip _ _ Eb).
  unfold mbind at 1, M_bind at 1, lift at 1. unfold mbind at 1, M_bind at 1, lift at 1.
  change (archive_data (with_keywords _ _)) with (archive_data (st_data (reflag f x))). rewrite Eb'. case_bool_decide as Hsame.
  - subst b'. assert (reflag f x = x) as Ef.
    { apply data_roundtrip in Eb, Eb'. rewrite Eb in Eb'. injection Eb' as E. unfold reflag, with_data. destruct x as [data meta raw]. simpl in *. by rewrite <-E. }
    eexists s, _, kvs, n, _. split; [reflexivity|]. rewrite Ef, insert_id by done. split_and!; [|done|lia|lia|reflexivity|].
    + destruct Hp as [? ? Hk ? ?]. split; try done. intros kv Hkv. destruct (Hk kv Hkv) as (? & ? & Hd'). split_and!; [done|done|].
      intros d' ?. by apply Hd', list_elem_of_further.
    + split; [done|]. by exists x.
  - destruct (plan_change others bodies docs d ids s acc kvs x n b b' Hp) as (s1 & E1 & Hn1 & Hp1); try done; [simpl in Hx1; lia|].
    eexists s1, _, _, (n + 1), _. split; [|split; [exact Hp1|]].
    + unfold mbind at 1, M_bind at 1. change (mailboxes (with_keywords _ _)) with (mailboxes (st_data x)). rewrite vanished_none.
      unfold mbind at 1, M_bind at 1. rewrite E1. reflexivity.
    + split_and!; [done|lia|lia|reflexivity|]. split; [done|]. by exists x.
Qed.

Lemma notify_changes_spec ids (w : W) : ∃ l, notify_changes a ids w = (Ok tt, mkWorld (mw_store w) (mw_blobs w) l).
Proof.
  revert w. induction ids as [|id ids IH]; intros w; [exists (mw_notices w); by destruct w|]. cbn [notify_changes]. unfold mbind, M_bind, notify.
  destruct (IH (mkWorld (mw_store w) (mw_blobs w) (mw_notices w ++ [ChangeNotice a Email id]))) as [l E]. exists l. exact E.
Qed.

(** The batch takes effect at the first attempt, as if each message had been
    changed. *)
Lemma update_messages_spec others (w : W) docs ids n :
  account_at (R := R) a others w docs → NoDup ids → counter_at (view (mw_store w)) a Email n →
  (∀ d, d ∈ ids → ∃ x, docs !! d = Some x ∧ n + Z.of_nat (length ids + length (mailboxes (st_data x))) < I64_MAX) →
  ∃ rs w' docs', update_messages a ids mutate w = (Ok rs, w') ∧ account_at (R := R) a others w' docs' ∧
    (∀ d, docs' !! d = if decide (d ∈ ids) then reflag f <$> docs !! d else docs !! d) ∧ Forall2 (updated_as docs) ids rs.
Proof.
  intros (Hs & Hb & Hrep) Hnd Hn Hroom. destruct w as [s bl notices]. cbn [mw_store mw_blobs] in *.
  destruct (plan_updates_spec others (bview bl) ids docs s (mkUpdates [] [] [] []) [] n) as (acc & s1 & kvs & docs' & rs & E & [Hs1 Hops Hkeys Has Hrep1] & Hdocs & Hr & Hrs).
  { split; try done; [by intros kv ?%not_elem_of_nil|by intros x ?%not_elem_of_nil]. }
  { done. }
  { apply Forall_forall. intros d Hd. destruct (Hroom d Hd) as (x & Hx & _). by eapply rep_ids. }
  { done. }
  { by destruct (rep_changes _ _ _ _ _ Hrep) as (n0 & Hn0 & ? & _); unfold counter_at in *; rewrite Hn in Hn0; simplify_eq. }
  { done. }
  cbn [ua_results app] in Hr. unfold update_messages. change UPDATE_RACE_ATTEMPTS with (Datatypes.S 3). cbn [update_attempts].
  unfold mbind at 1, M_bind at 1, in_store at 1. cbn [mw_store mw_blobs mw_notices]. rewrite E. case_bool_decide as Hno.
  - exists rs, (mkWorld s1 bl notices), docs'. split; [by rewrite <-Hr|]. split; [|done]. split_and!; [done|done|].
    rewrite Hops in Hno. by destruct kvs.
  - assert (forallb (assert_holds (view s1)) (ua_asserts acc) = true) as Hall.
    { apply forallb_forall. intros x Hx%list_elem_of_In. apply bool_decide_eq_true. by apply Has. }
    destruct (batch_conditional_spec (ua_asserts acc) (ua_ops acc) s1 (write_all kvs (view s1)) Hs1) as (s2 & E2 & Hs2 & Hv2).
    { apply Forall_forall. intros x (_ & d & ->)%Has. apply known_key_encode. }
    { rewrite Hops. apply Forall_fmap, Forall_forall. intros kv Hkv. split; [by apply (Hkeys kv Hkv)|done]. }
    { by rewrite Hops, apply_set_ops. }
    rewrite Hall in E2, Hv2. destruct (notify_changes_spec (ua_changes acc) (mkWorld s2 bl notices)) as [l El].
    exists rs, (mkWorld s2 bl l), docs'. split; [|split; [split_and!; [done|done|]|done]].
    + unfold mbind at 1, M_bind at 1, in_store at 1. cbn [mw_store mw_blobs mw_notices]. rewrite E2.
      unfold mbind at 1, M_bind at 1. rewrite El. by rewrite <-Hr.
    + cbn [mw_store mw_blobs]. by rewrite Hv2.
Qed.
End update.

(** ** STORE *)

(** Whether a message has a flag after the command. *)
Definition named_flag (op : StoreOp) (k : Keyword) : Prop := k ≠ Recent ∧ ∃ flag, flag ∈ so_flags op ∧ k = from_imap flag.
Definition flags_after (op : StoreOp) (current : list Keyword) (k : Keyword) : Prop :=
  match so_mode op with
  | StReplace => named_flag op k
  | StAdd => k ∈ current ∨ named_flag op k
  | StRemove => k ∈ current ∧ ¬ named_flag op k
  end.
Lemma push_keywords_elem l out k : k ∈ foldl push_keyword out l ↔ k ∈ out ∨ k ∈ l.
Proof.
  revert out. induction l as [|x l IH]; intros out; simpl; [pose proof (not_elem_of_nil k); tauto|]. rewrite IH, elem_of_cons.
  unfold push_keyword. case_bool_decide; [|rewrite elem_of_app, list_elem_of_singleton]; naive_solver.
Qed.
Lemma desired_keywords_spec current op k : k ∈ desired_keywords current op ↔ flags_after op current k.
Proof.
  unfold desired_keywords, flags_after. set (incoming := filter _ _).
  assert (k ∈ incoming ↔ named_flag op k) as Hin.
  { unfold incoming, named_flag. rewrite list_elem_of_filter, list_elem_of_fmap. naive_solver. }
  destruct (so_mode op); rewrite ?push_keywords_elem, ?list_elem_of_filter, ?Hin; [|done|tauto].
  pose proof (not_elem_of_nil k). tauto.
Qed.

(** A message is among those that cost that much. *)
Lemma members_cost_elem ms m : m ∈ ms → (length ms + length (ce_mailboxes m.2) ≤ members_cost ms)%nat.
Proof.
  assert (∀ l, length l ≤ members_cost l)%nat as Hl.
  { intros l. unfold members_cost. induction l as [|x l IH]; [done|]. rewrite fmap_cons. cbn [length list_sum foldr].
    change (foldr Nat.add 0%nat) with list_sum. lia. }
  induction ms as [|x ms IH]; [by intros ?%not_elem_of_nil|]. unfold members_cost. rewrite fmap_cons. cbn [list_sum foldr length].
  change (foldr Nat.add 0%nat) with list_sum. fold (members_cost ms). intros [->|Hm]%elem_of_cons; [specialize (Hl ms); lia|]. specialize (IH Hm). lia.
Qed.

Section store.
Context {S B R : Type} {store : Store S} {contract : StoreSpec S} `{Bitmap R} {laws : BitmapLaws R}.
Context `{BlobStore B} {blob_contract : BlobSpec B}.
Context `{Unicode} `{MailParser} `{MailCodec} {codec_laws : MailCodecLaws}.
Context (a : Z) (Ha : is_u32 a).
Context (values_order : gmap Z MessageCacheEntry → list MessageCacheEntry).
Context (values_order_perm : ∀ es, values_order es ≡ₚ (map_to_list es).*2).
Implicit Types (docs : maildrop) (others : BlobHash → Z).
Abbreviation W := (MailWorld S B).

(** The line of a message that was changed shows its flags. *)
Definition flags_shown docs' (uid_mode : bool) (x : Z * member) (l : bytes) : Prop :=
  ∃ z entry items extras, docs' !! ce_document_id x.2.2 = Some z ∧ bs "FLAGS" ∈ items ∧ ce_keywords entry = keywords (st_data z) ∧
    l = fetch_line x.1 x.2.1 entry items uid_mode extras.

Lemma store_lines docs docs' op uid_mode report modseqs (xs : list (Z * member)) rs :
  NoDup ((λ x, ce_document_id x.2.2) <$> xs) →
  Forall2 (updated_as (λ cur, desired_keywords cur op) docs) ((λ x, ce_document_id x.2.2) <$> xs) rs →
  (∀ x, x ∈ xs → docs' !! ce_document_id x.2.2 = reflag (λ cur, desired_keywords cur op) <$> docs !! ce_document_id x.2.2) →
  Forall2 (flags_shown docs' uid_mode) xs (omap (store_line op uid_mode report modseqs rs) xs).
Proof.
  intros Hnd Hrs Hdocs.
  assert (∀ x, x ∈ xs → ∃ u y, List.find (λ u, up_document u =? ce_document_id x.2.2) rs = Some u ∧
    docs !! ce_document_id x.2.2 = Some y ∧ up_data u = st_data (reflag (λ cur, desired_keywords cur op) y)) as Hfind.
  { clear Hdocs. remember ((λ x, ce_document_id x.2.2) <$> xs) as ids eqn:Ei. revert xs Ei.
    induction Hrs as [|d u ids rs Hu Hrs IH]; intros xs Ei; [destruct xs; [by intros x ?%not_elem_of_nil|done]|].
    destruct xs as [|x0 xs]; [done|]. rewrite fmap_cons in Ei. injection Ei as -> Ei. apply NoDup_cons in Hnd as [Hnot Hnd].
    destruct Hu as [Ed (y & Hy & Eu)]. intros x [->|Hx]%elem_of_cons.
    - exists u, y. simpl. rewrite Ed, Z.eqb_refl. done.
    - destruct (IH Hnd xs Ei x Hx) as (u' & y' & Hf & ? & ?). exists u', y'. split_and!; try done. simpl. rewrite Ed.
      rewrite (proj2 (Z.eqb_neq _ _)); [done|]. intros E. apply Hnot. rewrite Ei, E. by apply (list_elem_of_fmap_2 (λ x, ce_document_id x.2.2)). }
  clear Hnd Hrs. induction xs as [|x xs IH]; [constructor|]. destruct (Hfind x) as (u & y & Hf & Hy & Eu); [apply list_elem_of_here|].
  cbn [omap list_omap]. unfold store_line at 1. destruct x as [seqno [uid e]]. cbn [fst snd] in *. rewrite Hf. cbn [mbind option_bind].
  constructor; [|apply IH; intros; [apply Hdocs|apply Hfind]; by apply list_elem_of_further].
  pose proof (Hdocs _ (list_elem_of_here _ _)) as Hz. cbn [fst snd] in Hz. rewrite Hy in Hz.
  destruct report; eexists _, _, _, _; (split; [exact Hz|]); (split; [|split; [|reflexivity]]); first [apply list_elem_of_here|simpl; by rewrite Eu].
Qed.

End store.
