(* ===== verification/ImapSession.v ===== *)
(** * The IMAP session (crates/imap/src/session.rs)

    One connection: the byte stream, the protocol state and the selected
    mailbox.  The session works on the store and the blobs of the mail side and
    logs in through the directory, which is kept in the same store.  A method
    is a state-passing function and an error ends the session, as a panic does;
    a loop of the parser that does not end is the error of [stopped]. *)

From S2P Require Import Prelude Bytes Key Store ChangeLog Quota Text Fts Ttl QueueModel QueueStore QueueDeliver SmtpVerdict SmtpCommands SmtpSubmit SmtpSession Blobs MailParser Sieve MailModel MailMessage MailStore MailRep MailFile MailCache MailAdmin Directory Login Pop3Commands Pop3 ImapParser ImapSequence ImapDate ImapFetch ImapEnvelope ImapCommands ImapSearch ImapMail.
From stdpp Require Import base gmap list strings sorting.
From Stdlib Require Import ZArith Lia.

Open Scope Z_scope.

Definition IMAP_MAX_LINE : nat := Z.to_nat 8192.
Definition MAX_APPEND_SIZE : Z := 25 * 1024 * 1024.
Definition FIRST_USER_MAILBOX_ID : Z := SPAM_ID + 1.

(** ** Command words *)

Inductive Verb : Type :=
  | VCapability | VNoop | VLogout | VStartTls | VLogin | VAuthenticate | VSelect | VExamine | VCreate | VDelete | VRename
  | VSubscribe | VUnsubscribe | VList | VLsub | VNamespace | VStatus | VAppend | VCheck | VClose | VExpunge | VSearch | VFetch
  | VStore | VCopy | VMove | VUid | VIdle | VId | VUnselect | VEnable | VSort | VThread | VGetQuota | VGetQuotaRoot | VUnknown.
Definition verbs : list (string * Verb) :=
  [("CAPABILITY", VCapability); ("NOOP", VNoop); ("LOGOUT", VLogout); ("STARTTLS", VStartTls); ("LOGIN", VLogin);
   ("AUTHENTICATE", VAuthenticate); ("SELECT", VSelect); ("EXAMINE", VExamine); ("CREATE", VCreate); ("DELETE", VDelete);
   ("RENAME", VRename); ("SUBSCRIBE", VSubscribe); ("UNSUBSCRIBE", VUnsubscribe); ("LIST", VList); ("LSUB", VLsub);
   ("NAMESPACE", VNamespace); ("STATUS", VStatus); ("APPEND", VAppend); ("CHECK", VCheck); ("CLOSE", VClose);
   ("EXPUNGE", VExpunge); ("SEARCH", VSearch); ("FETCH", VFetch); ("STORE", VStore); ("COPY", VCopy); ("MOVE", VMove);
   ("UID", VUid); ("IDLE", VIdle); ("ID", VId); ("UNSELECT", VUnselect); ("ENABLE", VEnable); ("SORT", VSort);
   ("THREAD", VThread); ("GETQUOTA", VGetQuota); ("GETQUOTAROOT", VGetQuotaRoot)]%string.
(** [Command::from_word]: at most twelve bytes. *)
Definition from_word (word : bytes) : Verb :=
  if (length word =? 0)%nat || (12 <? length word)%nat then VUnknown
  else default VUnknown (snd <$> List.find (λ v, bool_decide (bs v.1 = to_ascii_uppercase word)) verbs).

(** ** The session *)

Inductive ImapState : Type := NotAuthenticated | Authenticated | Selected.
#[global] Instance ImapState_eq_dec : EqDecision ImapState.
Proof. solve_decision. Defined.
Inductive ImapFlow : Type := FlClose | FlUpgrade.

(** What can end a wait of IDLE before a line is read. *)
Inductive IdleWake : Type :=
  | WakeNotice (collection : option Collection) | WakeUnsubscribed | WakeTimeout.

(** The protocol state. *)
Record ImapView : Type := mkImapView {
  iv_state : ImapState; iv_user : option bytes; iv_mailbox : option bytes; iv_is_tls : bool; iv_account : option Directory.Account;
  iv_last_exists : option Z; iv_read_only : bool; iv_condstore : bool; iv_qresync : bool; iv_saved : option (list Z) }.
Definition v_login (user : bytes) (a : Directory.Account) (v : ImapView) : ImapView :=
  mkImapView Authenticated (Some user) (iv_mailbox v) (iv_is_tls v) (Some a) (iv_last_exists v) (iv_read_only v) (iv_condstore v) (iv_qresync v) (iv_saved v).
Definition v_condstore (v : ImapView) : ImapView :=
  mkImapView (iv_state v) (iv_user v) (iv_mailbox v) (iv_is_tls v) (iv_account v) (iv_last_exists v) (iv_read_only v) true (iv_qresync v) (iv_saved v).
Definition v_enable (condstore qresync : bool) (v : ImapView) : ImapView :=
  mkImapView (iv_state v) (iv_user v) (iv_mailbox v) (iv_is_tls v) (iv_account v) (iv_last_exists v) (iv_read_only v)
    (iv_condstore v || condstore) (iv_qresync v || qresync) (iv_saved v).
Definition v_select (name : bytes) (read_only : bool) (exists_ : Z) (v : ImapView) : ImapView :=
  mkImapView Selected (iv_user v) (Some name) (iv_is_tls v) (iv_account v) (Some exists_) read_only (iv_condstore v) (iv_qresync v) None.
Definition v_unselect (v : ImapView) : ImapView :=
  mkImapView Authenticated (iv_user v) None (iv_is_tls v) (iv_account v) (iv_last_exists v) (iv_read_only v) (iv_condstore v) (iv_qresync v) None.
Definition v_exists (n : Z) (v : ImapView) : ImapView :=
  mkImapView (iv_state v) (iv_user v) (iv_mailbox v) (iv_is_tls v) (iv_account v) (Some n) (iv_read_only v) (iv_condstore v) (iv_qresync v) (iv_saved v).
Definition v_saved (uids : list Z) (v : ImapView) : ImapView :=
  mkImapView (iv_state v) (iv_user v) (iv_mailbox v) (iv_is_tls v) (iv_account v) (iv_last_exists v) (iv_read_only v) (iv_condstore v) (iv_qresync v) (Some uids).
Definition v_tls (v : ImapView) : ImapView :=
  mkImapView (iv_state v) (iv_user v) (iv_mailbox v) true (iv_account v) (iv_last_exists v) (iv_read_only v) (iv_condstore v) (iv_qresync v) (iv_saved v).

(** [im_wakes]: whether the coming waits of IDLE are cut short ([None]: a line
    is read first; none listed: so are all). [im_ticks]: readings of the clock. *)
Record Imap (S B : Type) : Type := mkImap {
  im_stream : Stream; im_ip : bytes; im_greet : bool; im_directory : bool; im_blobs : bool; im_notifier : bool;
  im_wakes : list (option IdleWake); im_ticks : nat; im_view : ImapView; im_backend : Backend S B }.
Arguments mkImap {S B} _ _ _ _ _ _ _ _ _ _.
Arguments im_stream {S B} _.
Arguments im_ip {S B} _.
Arguments im_greet {S B} _.
Arguments im_directory {S B} _.
Arguments im_blobs {S B} _.
Arguments im_notifier {S B} _.
Arguments im_wakes {S B} _.
Arguments im_ticks {S B} _.
Arguments im_view {S B} _.
Arguments im_backend {S B} _.

(** [read_line] with its own limit. *)
Fixpoint imap_read_go (end_ : option Error) (inp buf : bytes) : result (bool * bytes) * bytes :=
  match inp with
  | [] => (match end_ with None => Ok (negb (length buf =? 0)%nat, buf) | Some e => Err e end, [])
  | b :: inp =>
      if b =? LF then (Ok (true, buf), inp)
      else if (IMAP_MAX_LINE <=? length buf)%nat then (Err (Protocol "command line exceeds the maximum length"), inp)
      else imap_read_go end_ inp (buf ++ [b])
  end.
Definition imap_read_st : M Stream (bool * bytes) := λ st,
  let '(r, rest) := imap_read_go (at_end st) (input st) [] in (r, set_input rest st).
(** [read_literal]: on a short stream everything is consumed. *)
Definition read_literal_st (length_ : Z) : M Stream bytes := λ st,
  if Z.of_nat (length (input st)) <? length_
  then (Err (default (Io "early eof") (at_end st)), set_input [] st)
  else (Ok (take (Z.to_nat length_) (input st)), set_input (drop (Z.to_nat length_) (input st)) st).

(** [leading_tag]: the tag of a line that could not be read. *)
Definition leading_tag (l : bytes) : option bytes :=
  let l := strip_crlf l in
  end_ ← find_byte 32 l;
  if (end_ =? 0)%nat then None else from_utf8 (take end_ l).
Definition stopped : Error := Internal "the loop has stopped".
(** The account as delivery reads it. *)
Definition mail_account (a : Directory.Account) : MailModel.Account :=
  MailModel.mkAccount (ac_id a) (ac_created_at a) (ac_quota_bytes a) (ac_quota_messages a)
    (MailModel.mkForwarding (Directory.fw_destinations (ac_forwarding a)) (Directory.fw_keep_local_copy (ac_forwarding a))).

Section session.
Context {S B R : Type} `{Store S} `{BlobStore B} `{Bitmap R} `{Unicode} `{LowerText} `{MailParser} `{MimeView} `{MailCodec} `{MailboxJson}.
Context `{DirectoryJson} `{Argon2} `{Base64}.
Context (policy : ThrottlePolicy) (clk : nat → Z) (seconds : nat → Z).
Context (values_order : gmap Z MessageCacheEntry → list MessageCacheEntry).
(** The order in which a set of names yields them. *)
Context (names_order : list bytes → list bytes).
Abbreviation P := (Imap S B).
Implicit Types (s : P) (tag : bytes).

Definition i_set_stream (x : Stream) s : P :=
  mkImap x (im_ip s) (im_greet s) (im_directory s) (im_blobs s) (im_notifier s) (im_wakes s) (im_ticks s) (im_view s) (im_backend s).
Definition i_set_wakes (x : list (option IdleWake)) s : P :=
  mkImap (im_stream s) (im_ip s) (im_greet s) (im_directory s) (im_blobs s) (im_notifier s) x (im_ticks s) (im_view s) (im_backend s).
Definition i_set_ticks (x : nat) s : P :=
  mkImap (im_stream s) (im_ip s) (im_greet s) (im_directory s) (im_blobs s) (im_notifier s) (im_wakes s) x (im_view s) (im_backend s).
Definition i_set_view (x : ImapView) s : P :=
  mkImap (im_stream s) (im_ip s) (im_greet s) (im_directory s) (im_blobs s) (im_notifier s) (im_wakes s) (im_ticks s) x (im_backend s).
Definition i_set_backend (x : Backend S B) s : P :=
  mkImap (im_stream s) (im_ip s) (im_greet s) (im_directory s) (im_blobs s) (im_notifier s) (im_wakes s) (im_ticks s) (im_view s) x.

(** [Session::new] with the services the listener attaches, and [with_tls]. *)
Definition imap_new (st : Stream) (ip : bytes) (wakes : list (option IdleWake)) (be : Backend S B) : P :=
  mkImap st ip true true true true wakes 0 (mkImapView NotAuthenticated None None false None None false false false None) be.
Definition imap_with_tls s : P := i_set_view (v_tls (im_view s)) s.
Definition imap_without_greeting s : P :=
  mkImap (im_stream s) (im_ip s) false (im_directory s) (im_blobs s) (im_notifier s) (im_wakes s) (im_ticks s) (im_view s) (im_backend s).

Definition i_stream {A} (m : M Stream A) : M P A := λ s, let '(r, x) := m (im_stream s) in (r, i_set_stream x s).
Definition i_view (f : ImapView → ImapView) : M P unit := λ s, (Ok tt, i_set_view (f (im_view s)) s).
Definition i_mail {A} (m : M (MailWorld S B) A) : M P A := λ s,
  let '(r, x) := m (be_mail (im_backend s)) in (r, i_set_backend (mkBackend x (be_throttle (im_backend s))) s).
(** A call whose failure is handled. *)
Definition i_try {A} (m : M P A) : M P (result A) := λ s, let '(r, s) := m s in (Ok r, s).
Definition i_time : M P Z := λ s, (Ok (seconds (im_ticks s)), i_set_ticks (Datatypes.S (im_ticks s)) s).
(** The rest of a method in the state it is reached in. *)
Definition i_get {A} (f : P → M P A) : M P A := λ s, f s s.

Definition i_write (b : bytes) : M P unit := i_stream (write_st b).
Definition i_read_line : M P (bool * bytes) := i_stream imap_read_st.
Definition i_read_literal (n : Z) : M P bytes := i_stream (read_literal_st n).
Definition reply tag (status text : bytes) : M P unit := i_write (tag ++ [32] ++ status ++ [32] ++ text ++ CRLF).
Definition ok_reply tag (text : bytes) : M P unit := reply tag (bs "OK") text.
Definition no_reply tag (text : bytes) : M P unit := reply tag (bs "NO") text.
Definition bad_reply tag (text : bytes) : M P unit := reply tag (bs "BAD") text.
Fixpoint write_lines (ls : list bytes) : M P unit :=
  match ls with [] => mret tt | l :: ls => _ ← i_write l; write_lines ls end.
Definition refuse_read_only tag : M P unit := no_reply tag (bs "not permitted on a read-only mailbox").
Definition refuse_charset tag : M P unit := no_reply tag (bs "[BADCHARSET (" ++ SUPPORTED_CHARSETS ++ bs ")] charset is not supported").
Definition reject (l : bytes) (e : ParseError) : M P unit :=
  match leading_tag l with
  | Some tag => bad_reply tag (parse_error_text e)
  | None => i_write (bs "* BAD " ++ parse_error_text e ++ CRLF)
  end.

(** *** The account and its mailboxes *)

Definition imap_world s : MailWorld S B := be_mail (im_backend s).
Definition imap_store s : S := mw_store (imap_world s).
Definition imap_context s : option Z := if im_directory s then (λ a, as_u32 (ac_id a)) <$> iv_account (im_view s) else None.
Definition created_at s : Z := default 0 (ac_created_at <$> iv_account (im_view s)).
(** [mailboxes]: a list that cannot be read is empty. *)
Definition mailboxes_of s : list Mailbox :=
  MailModel.provision_mailboxes (created_at s)
  ++ match imap_context s with
     | Some account_id =>
         match load_mailboxes account_id (imap_store s) with
         | Ok persisted => filter (λ m, FIRST_USER_MAILBOX_ID ≤ mb_id m) persisted
         | Err _ => []
         end
     | None => []
     end.
Definition mailbox_named (name : bytes) s : option Mailbox :=
  List.find (λ m, bool_decide (display_name m = name)
                  || (eq_ignore_ascii_case (display_name m) (bs "INBOX") && eq_ignore_ascii_case name (bs "INBOX"))) (mailboxes_of s).
Definition subscribed_mailboxes s : result (list Mailbox) :=
  match imap_context s with
  | None => Ok (mailboxes_of s)
  | Some account_id =>
      subscribed ← subscriptions account_id (imap_store s);
      Ok (if bool_decide (subscribed = []) then mailboxes_of s else filter (λ m, display_name m ∈ subscribed) (mailboxes_of s))
  end.
(** The selected mailbox and the account, where a method needs both. *)
Definition selected_mailbox s : option Mailbox := iv_mailbox (im_view s) ≫= λ name, mailbox_named name s.
Definition selected_context s : option (Mailbox * Z) :=
  m ← selected_mailbox s; account_id ← imap_context s; Some (m, account_id).

Definition select_view (m : Mailbox) s : result SelectView :=
  match imap_context s with
  | None => Ok (mkView 0 0 None 1 (mb_uid_validity m) 0)
  | Some account_id =>
      c ← cache_build account_id (imap_store s);
      last ← last_uid m account_id (imap_store s);
      Ok (mkView (as_u32 (Z.of_nat (length (cache_in_mailbox values_order (mb_id m) c)))) 0 (first_unseen_seqno values_order c (mb_id m))
            (last + 1) (mb_uid_validity m) (highest_modseq account_id (imap_store s)))
  end.
Definition status_values_from (m : Mailbox) (c : MessageStoreCache) (account_id : Z) (st : S) : result StatusValues :=
  last ← last_uid m account_id st;
  Ok (mkStatus (as_u32 (Z.of_nat (length (cache_in_mailbox values_order (mb_id m) c)))) 0 (last + 1) (mb_uid_validity m)
        (count_unseen values_order c (mb_id m)) (highest_modseq account_id st)).
Definition status_values (m : Mailbox) s : result StatusValues :=
  match imap_context s with
  | None => Ok (mkStatus 0 0 1 (mb_uid_validity m) 0 0)
  | Some account_id => c ← cache_build account_id (imap_store s); status_values_from m c account_id (imap_store s)
  end.
Definition quota_view s : result QuotaLimitsView :=
  match imap_context s with
  | None => Ok (mkQuotaView 0 None 0 None)
  | Some account_id =>
      u ← usage account_id (imap_store s);
      Ok (mkQuotaView (used_bytes u) (iv_account (im_view s) ≫= byte_quota) (used_messages u) (iv_account (im_view s) ≫= message_quota))
  end.

(** [resolve_set]: [$] is the saved result. *)
Definition resolve_set (raw : option bytes) (uid_mode : bool) s : result (option (list SeqRange)) :=
  match raw with
  | None => Ok None
  | Some raw =>
      if negb (bool_decide (raw = [36])) then Ok (parse_sequence_set raw)
      else
        match iv_saved (im_view s) with
        | Some ((_ :: _) as saved) =>
            if uid_mode then Ok (Some (ranges_from saved))
            else
              match selected_context s with
              | None => Ok (Some [])
              | Some (m, account_id) =>
                  ranges ← saved_numbers values_order account_id (mb_id m) saved (imap_store s); Ok (Some ranges)
              end
        | _ => Ok (Some [])
        end
  end.

(** *** Logging in *)

Definition imap_resolve_login (c : Credentials) : M P Login.LoginAttempt := λ s,
  if im_directory s then
    let '(r, t) := Login.attempt_login policy clk (Some (im_ip s)) (cr_username c) (cr_password c) Login.Mail
                     (imap_store s) (be_throttle (im_backend s)) in
    (r, i_set_backend (mkBackend (imap_world s) t) s)
  else (Ok Login.Denied, s).
Definition is_authenticated (v : ImapView) : bool := negb (bool_decide (iv_state v = NotAuthenticated)).
Definition session_codes s : bytes := capability_codes (iv_is_tls (im_view s)) (is_authenticated (im_view s)).
(** What follows an attempt. *)
Definition login_outcome tag (c : Credentials) (label : bytes) (attempt : Login.LoginAttempt) : M P unit :=
  match attempt with
  | Login.Granted a _ =>
      _ ← i_view (v_login (cr_username c) a);
      i_get (λ s, ok_reply tag (bs "[CAPABILITY " ++ session_codes s ++ bs "] " ++ label))
  | Login.Denied => no_reply tag AUTH_FAILED
  | Login.Throttled => no_reply tag THROTTLED
  end.
Definition run_login tag (args : list Token) : M P unit := i_get (λ s,
  if negb (iv_is_tls (im_view s)) then no_reply tag PRIVACY_REQUIRED
  else if is_authenticated (im_view s) then no_reply tag (bs "Already authenticated")
  else
    match parse_login args with
    | None => bad_reply tag (bs "LOGIN expects a username and password")
    | Some c => attempt ← imap_resolve_login c; login_outcome tag c (bs "LOGIN completed") attempt
    end).
(** [read_auth_response]; [None] is a cancelled exchange. *)
Definition i_read_auth_response : M P (option bytes) :=
  '(more, l) ← i_read_line;
  if negb more then throw (Protocol "connection closed during AUTHENTICATE")
  else
    let response := str_trim (utf8_lossy (strip_crlf l)) in
    mret (if bool_decide (response = [42]) then None else Some response).
(** The loop of [run_authenticate]: at most two challenges. *)
Fixpoint imap_sasl_loop (fuel : nat) tag (exchange : SaslExchange) (step : ImapStep) : M P unit :=
  match fuel with
  | O => throw stopped
  | Datatypes.S fuel =>
      match step with
      | IChallenge challenge =>
          _ ← i_write (bs "+ " ++ challenge ++ CRLF);
          response ← i_read_auth_response;
          match response with
          | None => bad_reply tag (bs "authentication cancelled")
          | Some response => let '(step, exchange) := imap_advance exchange response in imap_sasl_loop fuel tag exchange step
          end
      | IFailed status text => reply tag status text
      | IResolved c => attempt ← imap_resolve_login c; login_outcome tag c (bs "AUTHENTICATE completed") attempt
      end
  end.
Definition run_authenticate tag (args : list Token) : M P unit := i_get (λ s,
  let mechanism := match arg_str args 0 with Some name => mechanism_parse name | None => MUnsupported end in
  match imap_sasl_begin mechanism (iv_is_tls (im_view s)) (is_authenticated (im_view s)) (arg_str args 1) with
  | IReply status text => reply tag status text
  | IContinue exchange step => imap_sasl_loop 3 tag exchange step
  end).

(** *** New mail, IDLE *)

Definition push_new_mail : M P unit := i_get (λ s,
  if negb (bool_decide (iv_state (im_view s) = Selected)) then mret tt
  else
    match selected_mailbox s with
    | None => mret tt
    | Some m =>
        view ← lift (select_view m s);
        if (match iv_last_exists (im_view s) with Some last => last <? vw_exists view | None => true end) then
          _ ← i_write (bs "* " ++ fmt_dec (vw_exists view) ++ bs " EXISTS" ++ CRLF);
          _ ← i_write (bs "* " ++ fmt_dec (vw_recent view) ++ bs " RECENT" ++ CRLF);
          i_view (v_exists (vw_exists view))
        else mret tt
    end).
(** The loop of [run_idle]: a turn reads a line or takes a wake. *)
Fixpoint idle_loop (fuel : nat) (subscribed : bool) : M P (option ImapFlow) :=
  match fuel with
  | O => throw stopped
  | Datatypes.S fuel => i_get (λ s,
      let wake := match im_wakes s with Some w :: _ => Some w | _ => None end in
      _ ← ((λ s, (Ok tt, i_set_wakes (tail (im_wakes s)) s)) : M P unit);
      match wake, subscribed with
      | Some WakeTimeout, _ => _ ← i_write IDLE_TIMED_OUT; mret (Some FlClose)
      | Some (WakeNotice (Some Email)), true | Some (WakeNotice None), true => _ ← push_new_mail; idle_loop fuel subscribed
      | Some (WakeNotice _), true => idle_loop fuel subscribed
      | Some WakeUnsubscribed, true => idle_loop fuel false
      | _, _ =>
          '(more, l) ← i_read_line;
          if negb more then mret (Some FlClose)
          else if idle_done l then mret None else idle_loop fuel subscribed
      end)
  end.
Definition run_idle tag : M P (option ImapFlow) := i_get (λ s,
  if negb (is_authenticated (im_view s)) then _ ← no_reply tag (bs "Authenticate first"); mret None
  else
    _ ← i_write IDLE_CONTINUE;
    flow ← i_get (λ s, idle_loop (Datatypes.S (length (input (im_stream s)) + length (im_wakes s)))
                         (im_notifier s && bool_decide (is_Some (iv_account (im_view s)))));
    match flow with
    | Some flow => mret (Some flow)
    | None => _ ← i_write (tag ++ bs " OK IDLE completed" ++ CRLF); mret None
    end).

(** *** APPEND *)

Inductive AppendResult : Type := ArStored (uid : Z) | ArOverQuota | ArFailed.
Definition append_one (m : Mailbox) (flags : list bytes) (internaldate : option Z) (message : bytes) : M P AppendResult := i_get (λ s,
  match imap_context s, iv_account (im_view s) with
  | Some account_id, Some account =>
      if im_notifier s && im_blobs s then
        document_id ← i_mail (in_store (allocate_document_id account_id));
        received ← match internaldate return M P Z with Some t => mret t | None => i_time end;
        clock ← i_time;
        outcome ← i_mail (append_message (R := R)
          (mkAppend (mail_account account) m (from_imap <$> flags) received document_id message) clock);
        mret (if ao_over_quota outcome then ArOverQuota else ArStored (ao_uid outcome))
      else mret ArFailed
  | _, _ => mret ArFailed
  end).
(** Literals in flight are read away: a turn that goes on reads a line. *)
Definition scanned {A} (x : ImapParser.scan A) : M P (option A) :=
  match x with Scanned a _ => mret (Some a) | Malformed _ => mret None | Starved => throw stopped end.
Definition tokens_of (l : bytes) : M P (option (list Token)) := scanned (tokenize_args (line_fuel l) l).
Fixpoint drain_loop (fuel : nat) (l : bytes) : M P unit :=
  match fuel with
  | O => throw stopped
  | Datatypes.S fuel =>
      tokens ← tokens_of l;
      match tokens ≫= last with
      | Some (TLiteral len sync) =>
          if sync || (MAX_APPEND_SIZE <? len) then mret tt
          else
            _ ← i_read_literal len;
            '(more, l) ← i_read_line;
            if (more : bool) then drain_loop fuel l else mret tt
      | _ => mret tt
      end
  end.
Definition drain_appends (l : bytes) : M P unit := i_get (λ s, drain_loop (Datatypes.S (length (input (im_stream s)))) l).
Definition BAD_DATE : bytes := bs "cannot parse the APPEND date-time".
(** A literal that is not waited for is in flight when its command is refused. *)
Definition refuse_date tag (len : Z) (sync drains : bool) : M P (option ImapFlow) :=
  if sync then _ ← bad_reply tag BAD_DATE; mret None
  else if MAX_APPEND_SIZE <? len then _ ← bad_reply tag BAD_DATE; mret (Some FlClose)
  else
    _ ← i_read_literal len;
    '(_, rest) ← i_read_line;
    _ ← (if drains then drain_appends rest else mret tt);
    _ ← bad_reply tag BAD_DATE; mret None.
Definition append_failed tag (text : bytes) : M P (option ImapFlow) :=
  '(_, trailing) ← i_read_line; _ ← drain_appends trailing; _ ← no_reply tag text; mret None.
(** The loop of [run_append] over the messages of one command. *)
Fixpoint append_loop (fuel : nat) tag (m : Mailbox) (g : AppendGroup) (uids : list Z) : M P (option ImapFlow) :=
  match fuel with
  | O => throw stopped
  | Datatypes.S fuel =>
      if MAX_APPEND_SIZE <? ag_literal_len g then _ ← i_write (too_big tag); mret (if ag_sync g then None else Some FlClose)
      else
        _ ← (if ag_sync g then i_write APPEND_CONTINUE else mret tt);
        message ← i_read_literal (ag_literal_len g);
        outcome ← append_one m (ag_flags g) (ag_internaldate g) message;
        match outcome with
        | ArOverQuota => append_failed tag (bs "[OVERQUOTA] not enough storage")
        | ArFailed => append_failed tag (bs "APPEND failed")
        | ArStored uid =>
            let uids := uids ++ [uid] in
            '(_, trailing) ← i_read_line;
            tokens ← tokens_of trailing;
            match parse_continuation (default [] tokens) with
            | CtGroup g => append_loop fuel tag m g uids
            | CtBad len sync => refuse_date tag len sync true
            | CtEnd =>
                _ ← ok_reply tag (bs "[APPENDUID " ++ fmt_dec (mb_uid_validity m) ++ [32] ++ compress_sequence uids ++ bs "] APPEND completed");
                mret None
            end
        end
  end.
Definition run_append tag (args : list Token) : M P (option ImapFlow) := i_get (λ s,
  if negb (is_authenticated (im_view s)) then _ ← no_reply tag (bs "Authenticate first"); mret None
  else
    match parse_append args with
    | inr (ApBadDate len sync) => refuse_date tag len sync false
    | inr _ => _ ← i_write (append_bad tag); mret None
    | inl c =>
        if MAX_APPEND_SIZE <? ap_literal_len c then _ ← i_write (too_big tag); mret (if ap_sync c then None else Some FlClose)
        else
          match mailbox_named (ImapCommands.ap_mailbox c) s with
          | None =>
              _ ← (if ap_sync c then mret tt else _ ← i_read_literal (ap_literal_len c); _ ← i_read_line; mret tt);
              _ ← i_write (try_create tag); mret None
          | Some m =>
              i_get (λ s, append_loop (Datatypes.S (length (input (im_stream s)))) tag m
                (mkGroup (ImapCommands.ap_flags c) (ap_internaldate c) (ap_literal_len c) (ap_sync c)) [])
          end
    end).

(** *** Mailboxes *)

Definition select_command (examine : bool) tag (args : list Token) : M P unit := i_get (λ s,
  if negb (is_authenticated (im_view s)) then no_reply tag (bs "Authenticate first")
  else
    match mailbox_named (arg_or_empty args 0) s with
    | None => no_reply tag (bs "mailbox does not exist")
    | Some m =>
        let params := parse_select_params (args !! 1%nat) in
        if bool_decide (is_Some (sp_qresync params)) && negb (iv_qresync (im_view s))
        then bad_reply tag (bs "QRESYNC has not been enabled")
        else
          _ ← (if sp_condstore params then i_view v_condstore else mret tt);
          i_get (λ s,
            view ← lift (select_view m s);
            _ ← write_lines (select_responses view examine);
            _ ← match sp_qresync params with
                | Some q =>
                    if negb (qr_uidvalidity q =? mb_uid_validity m) then mret tt
                    else
                      match imap_context s with
                      | None => mret tt
                      | Some account_id => ls ← i_mail (ask_store (replay_in values_order account_id m q)); write_lines ls
                      end
                | None => mret tt
                end;
            _ ← i_view (v_select (display_name m) examine (vw_exists view));
            i_write (select_completion tag (if examine then bs "EXAMINE" else bs "SELECT") examine))
    end).
Definition status_command tag (args : list Token) : M P unit := i_get (λ s,
  match mailbox_named (arg_or_empty args 0) s with
  | Some m =>
      values ← lift (status_values m s);
      _ ← i_write (status_line (display_name m) (requested_items (args !! 1%nat)) values);
      ok_reply tag (bs "STATUS completed")
  | None => no_reply tag (bs "mailbox does not exist")
  end).
Definition lsub_command tag (args : list Token) : M P unit := i_get (λ s,
  match subscribed_mailboxes s with
  | Ok ms => _ ← write_lines (lsub_responses ms (arg_or_empty args 0) (arg_or_empty args 1)); ok_reply tag (bs "LSUB completed")
  | Err _ => no_reply tag (bs "LSUB failed")
  end).
Definition subscribe_command tag (name : bytes) : M P unit := i_get (λ s,
  outcome ← match mailbox_named name s, imap_context s return M P SubscribeOutcome with
            | None, _ => mret SbMissing
            | Some _, None => mret SbFailed
            | Some m, Some account_id =>
                r ← i_try (i_mail (in_store (subscribe account_id (display_name m))));
                mret (match r with Ok true => SbSubscribed | Ok false => SbAlready | Err _ => SbFailed end)
            end;
  i_write (subscribe_response tag outcome)).
Definition unsubscribe_command tag (name : bytes) : M P unit := i_get (λ s,
  outcome ← match imap_context s return M P UnsubscribeOutcome with
            | None => mret UnFailed
            | Some account_id =>
                r ← i_try (i_mail (in_store (unsubscribe account_id name)));
                mret (match r with Ok true => UnUnsubscribed | Ok false => UnNotSubscribed | Err _ => UnFailed end)
            end;
  i_write (unsubscribe_response tag outcome)).
Definition run_create tag (name : bytes) : M P unit := i_get (λ s,
  if bool_decide (name = []) then bad_reply tag (bs "CREATE expects a mailbox name")
  else if bool_decide (is_Some (mailbox_named name s)) then no_reply tag (bs "mailbox already exists")
  else
    match imap_context s, im_notifier s with
    | Some account_id, true =>
        _ ← i_mail (create_mailbox account_id name (assign_uid_validity (created_at s)));
        ok_reply tag (bs "CREATE completed")
    | _, _ => no_reply tag (bs "mailbox store unavailable")
    end).
Definition run_delete tag (name : bytes) : M P unit := i_get (λ s,
  match mailbox_named name s with
  | None => no_reply tag (bs "mailbox does not exist")
  | Some m =>
      if mb_id m <? FIRST_USER_MAILBOX_ID then no_reply tag (bs "cannot delete a system mailbox")
      else
        match imap_context s, im_notifier s && im_blobs s with
        | Some account_id, true =>
            _ ← i_mail (delete_mailbox (R := R) values_order account_id (mb_id m) true);
            ok_reply tag (bs "DELETE completed")
        | _, _ => no_reply tag (bs "mailbox store unavailable")
        end
  end).
Definition run_rename tag (source target : bytes) : M P unit := i_get (λ s,
  match mailbox_named source s with
  | None => no_reply tag (bs "mailbox does not exist")
  | Some m =>
      if mb_id m <? FIRST_USER_MAILBOX_ID then no_reply tag (bs "cannot rename a system mailbox")
      else if bool_decide (target = []) then bad_reply tag (bs "RENAME expects a target name")
      else if bool_decide (is_Some (mailbox_named target s)) then no_reply tag (bs "target mailbox already exists")
      else
        match imap_context s, im_notifier s with
        | Some account_id, true => _ ← i_mail (rename_mailbox account_id (mb_id m) target); ok_reply tag (bs "RENAME completed")
        | _, _ => no_reply tag (bs "mailbox store unavailable")
        end
  end).

(** LIST: one line per mailbox that matches, and for RECURSIVEMATCH the parents
    of subscribed names. *)
Definition matches_any (combined : list bytes) (name : bytes) (role : SpecialUse) : bool := existsb (λ p, matched p name role) combined.
Definition list_wants (c : ListCommand) (combined subscribed : list bytes) (m : Mailbox) : bool :=
  negb (lc_special_use_only c && bool_decide (attribute (mb_role m) = None))
  && negb (lc_subscribed_only c && negb (bool_decide (display_name m ∈ subscribed)))
  && matches_any combined (display_name m) (mb_role m).
Fixpoint list_mailboxes (all : list Mailbox) (c : ListCommand) (combined subscribed : list bytes) (status : option (MessageStoreCache * Z))
    (ms : list Mailbox) : M P unit :=
  match ms with
  | [] => mret tt
  | m :: ms =>
      _ ← (if list_wants c combined subscribed m then
             _ ← i_write (extended_line m all ((lc_subscribed_only c || lc_ret_subscribed c) && bool_decide (display_name m ∈ subscribed)));
             match lc_ret_status c, status with
             | Some items, Some (cache, account_id) => i_get (λ s,
                 values ← lift (status_values_from m cache account_id (imap_store s));
                 i_write (status_line (display_name m) items values))
             | _, _ => mret tt
             end
           else mret tt);
      list_mailboxes all c combined subscribed status ms
  end.
Fixpoint name_parents (wanted : bytes → bool) (parts : list bytes) (prefix : bytes) (parents : list bytes) : list bytes :=
  match parts with
  | [] => parents
  | part :: parts =>
      if bool_decide (prefix = []) then name_parents wanted parts (prefix ++ part) parents
      else
        let parents := if wanted prefix && negb (bool_decide (prefix ∈ parents)) then parents ++ [prefix] else parents in
        name_parents wanted parts (prefix ++ [47] ++ part) parents
  end.
Definition run_list tag (c : ListCommand) : M P unit := i_get (λ s,
  let all := mailboxes_of s in
  let combined : list bytes := (λ p, lc_reference c ++ p) <$> lc_patterns c in
  if forallb (λ p : bytes, bool_decide (p = [])) combined then
    _ ← i_write (noselect_line (bs "LIST")); ok_reply tag (bs "LIST completed")
  else
    subscribed ← lift (if lc_subscribed_only c || lc_ret_subscribed c
                       then ms ← subscribed_mailboxes s; Ok (List.map display_name ms) else Ok []);
    status ← lift (match lc_ret_status c, imap_context s return result (option (MessageStoreCache * Z)) with
                   | Some _, Some account_id => cache ← cache_build account_id (imap_store s); Ok (Some (cache, account_id))
                   | _, _ => Ok None
                   end);
    _ ← list_mailboxes all c combined subscribed status all;
    _ ← (if lc_recursive_match c then
           let emitted := display_name <$> filter (λ m, list_wants c combined subscribed m = true) all in
           let wanted p := negb (bool_decide (p ∈ subscribed)) && negb (bool_decide (p ∈ emitted)) && matches_any combined p UseNone in
           let parents := foldl (λ acc name, name_parents wanted (split_byte 47 name) [] acc) [] (names_order subscribed) in
           write_lines ((λ p, childinfo_line p (existsb (λ m, bool_decide (display_name m = p)) all)) <$> parents)
         else mret tt);
    ok_reply tag (bs "LIST completed")).

(** *** The selected mailbox *)

Definition label_of (uid_mode : bool) (name : string) : bytes := if uid_mode then bs "UID " ++ bs name else bs name.
Definition blobs_of s : option B := if im_blobs s then Some (mw_blobs (imap_world s)) else None.
Definition saved_uids s : list Z := default [] (iv_saved (im_view s)).

Definition search_matches (k : SearchKey) (uid_mode : bool) s : result SearchOutcome :=
  match selected_context s with
  | None => Ok no_outcome
  | Some (m, account_id) => search_mailbox (R := R) values_order account_id (imap_store s) (blobs_of s) (mb_id m) (saved_uids s) k uid_mode
  end.
(** The criteria, or the refusal. *)
Definition with_criteria tag (label : bytes) (tokens : list Token) (f : SearchKey → M P unit) : M P unit :=
  match parse_search tokens with
  | None => throw stopped
  | Some (inr SeBadCharset) => refuse_charset tag
  | Some (inr SeInvalid) => bad_reply tag (bs "unsupported " ++ label ++ bs " criteria")
  | Some (inl k) => f k
  end.
Definition run_search tag (args : list Token) (uid_mode : bool) : M P unit :=
  let label := label_of uid_mode "SEARCH" in
  let '(rest, ret) := split_return_options args in
  with_criteria tag label rest (λ k, i_get (λ s,
    out ← lift (search_matches k uid_mode s);
    _ ← match ret with
        | Some ret =>
            _ ← (if sr_save ret then i_view (v_saved (saved_selection (oc_uids out) ret)) else mret tt);
            if wants_untagged ret then i_write (esearch_response tag uid_mode (oc_ids out) ret (oc_modseq out)) else mret tt
        | None => i_write (search_response (oc_ids out) (oc_modseq out))
        end;
    ok_reply tag (label ++ bs " completed"))).
Definition sortable_matches (k : SearchKey) (with_headers : bool) s : result (list SortableEntry) :=
  match selected_context s with
  | None => Ok []
  | Some (m, account_id) => sortable_in (R := R) values_order account_id (mb_id m) (blobs_of s) (saved_uids s) k with_headers (imap_store s)
  end.
(** The charset and the criteria of SORT and THREAD. *)
Definition with_charset tag (label : bytes) (args : list Token) (f : SearchKey → M P unit) : M P unit :=
  match arg_str args 1 with
  | None => bad_reply tag (label ++ bs " expects a charset")
  | Some charset => if negb (charset_supported charset) then refuse_charset tag else with_criteria tag label (drop 2 args) f
  end.
Definition run_sort tag (args : list Token) (uid_mode : bool) : M P unit :=
  let label := label_of uid_mode "SORT" in
  match parse_sort_keys (head args) with
  | None => bad_reply tag (label ++ bs " expects a sort key list")
  | Some specs =>
      with_charset tag label args (λ k, i_get (λ s,
        entries ← lift (sortable_matches k (existsb needs_headers specs) s);
        _ ← i_write (sort_response (entry_id uid_mode <$> sort_entries specs entries));
        ok_reply tag (label ++ bs " completed")))
  end.
Definition run_thread tag (args : list Token) (uid_mode : bool) : M P unit :=
  let label := label_of uid_mode "THREAD" in
  match arg_str args 0 ≫= parse_algorithm with
  | None => bad_reply tag (label ++ bs " expects an algorithm")
  | Some algorithm =>
      with_charset tag label args (λ k, i_get (λ s,
        entries ← lift (sortable_matches k (match algorithm with ThOrderedSubject => true | ThReferences => false end) s);
        _ ← i_write (thread_response (thread_groups algorithm uid_mode entries));
        ok_reply tag (label ++ bs " completed")))
  end.

Definition fetch_lines (ranges : list SeqRange) (items : list bytes) (uid_mode : bool) (mods : option FetchMods) : M P (list bytes) := i_get (λ s,
  match selected_context s with
  | None => mret []
  | Some (m, account_id) =>
      i_mail (fetch_in values_order account_id (im_blobs s) (im_notifier s) (iv_read_only (im_view s)) items uid_mode (mb_id m) ranges mods)
  end).
Definition run_fetch tag (args : list Token) (uid_mode : bool) : M P unit := i_get (λ s,
  let label := label_of uid_mode "FETCH" in
  let '(item_args, mods) := split_fetch_modifiers (drop 1 args) in
  set ← lift (resolve_set (arg_str args 0) uid_mode s);
  match set with
  | None => bad_reply tag (label ++ bs " expects a sequence set")
  | Some ranges =>
      let items := fetch_items item_args in
      if (match mods with Some m => fm_vanished m && (negb uid_mode || negb (iv_qresync (im_view s))) | None => false end)
      then bad_reply tag (bs "VANISHED requires QRESYNC and UID FETCH")
      else
        let items := if bool_decide (is_Some mods) && negb (bool_decide (bs "MODSEQ" ∈ items)) then items ++ [bs "MODSEQ"] else items in
        _ ← (if bool_decide (bs "MODSEQ" ∈ items) then i_view v_condstore else mret tt);
        ls ← fetch_lines ranges items uid_mode mods;
        _ ← write_lines ls;
        ok_reply tag (label ++ bs " completed")
  end).

Definition apply_store (ranges : list SeqRange) (op : StoreOp) (uid_mode : bool) (since : option Z) : M P (list bytes * list Z) := i_get (λ s,
  match selected_context s, im_notifier s with
  | Some (m, account_id), true => i_mail (store_in values_order account_id (mb_id m) ranges op uid_mode since (iv_condstore (im_view s)))
  | _, _ => mret ([], [])
  end).
Definition run_store tag (label : bytes) (ranges : list SeqRange) (op : StoreOp) (uid_mode : bool) (since : option Z) : M P unit :=
  _ ← (if bool_decide (is_Some since) then i_view v_condstore else mret tt);
  r ← i_try (apply_store ranges op uid_mode since);
  match r with
  | Ok (ls, modified) =>
      _ ← write_lines ls;
      ok_reply tag ((if bool_decide (modified = []) then [] else bs "[MODIFIED " ++ compress_sequence modified ++ bs "] ") ++ label ++ bs " completed")
  | Err _ => no_reply tag (label ++ bs " failed")
  end.
Definition store_command tag (args : list Token) (uid_mode : bool) : M P unit := i_get (λ s,
  let label := label_of uid_mode "STORE" in
  if iv_read_only (im_view s) then refuse_read_only tag
  else
    set ← lift (resolve_set (arg_str args 0) uid_mode s);
    let since := parse_unchanged_since (args !! 1%nat) in
    let shift := if since then 1%nat else 0%nat in
    match set, parse_store (arg_str args (1 + shift)) (args !! (2 + shift)%nat) with
    | Some ranges, Some op => run_store tag label ranges op uid_mode since
    | _, _ => bad_reply tag (label ++ bs " expects a sequence set, item and flags")
    end).

Definition copy_apply (ranges : list SeqRange) (target : Mailbox) (uid_mode move_mode : bool) : M P CopyResult := i_get (λ s,
  match selected_context s, im_notifier s with
  | Some (m, account_id), true => i_mail (copy_in values_order account_id (mb_id m) target ranges uid_mode move_mode)
  | _, _ => mret no_copy
  end).
Definition run_copy tag (args : list Token) (uid_mode move_mode : bool) : M P unit := i_get (λ s,
  let label := label_of uid_mode (if move_mode then "MOVE" else "COPY")%string in
  set ← lift (resolve_set (arg_str args 0) uid_mode s);
  match set with
  | None => bad_reply tag (label ++ bs " expects a sequence set and mailbox")
  | Some ranges =>
      match mailbox_named (arg_or_empty args 1) s with
      | None => no_reply tag (bs "[TRYCREATE] target mailbox does not exist")
      | Some target =>
          if (match selected_mailbox s with Some source => mb_id source =? mb_id target | None => false end)
          then no_reply tag (bs "[CANNOT] source and destination mailboxes are the same")
          else
            r ← copy_apply ranges target uid_mode move_mode;
            let code := if bool_decide (cr_src_uids r = []) then None
                        else Some (bs "[COPYUID " ++ fmt_dec (mb_uid_validity target) ++ [32] ++ uid_list (cr_src_uids r) ++ [32]
                                   ++ uid_list (cr_dst_uids r) ++ bs "]") in
            if move_mode then
              _ ← match code with Some code => i_write (bs "* OK " ++ code ++ bs " Copied UIDs" ++ CRLF) | None => mret tt end;
              _ ← write_lines (cr_expunges r);
              ok_reply tag (label ++ bs " completed")
            else ok_reply tag ((match code with Some code => code ++ [32] | None => [] end) ++ label ++ bs " completed")
      end
  end).
(** MOVE changes the selected mailbox. *)
Definition move_command tag (args : list Token) (uid_mode : bool) : M P unit := i_get (λ s,
  if iv_read_only (im_view s) then refuse_read_only tag else run_copy tag args uid_mode true).

Definition apply_expunge (ranges : option (list SeqRange)) : M P (list bytes) := i_get (λ s,
  match selected_context s, im_notifier s && im_blobs s with
  | Some (m, account_id), true => i_mail (expunge_in (R := R) values_order account_id (mb_id m) ranges (iv_qresync (im_view s)))
  | _, _ => mret []
  end).
Definition expunge_command tag : M P unit := i_get (λ s,
  if iv_read_only (im_view s) then refuse_read_only tag
  else ls ← apply_expunge None; _ ← write_lines ls; ok_reply tag (bs "EXPUNGE completed")).
Definition uid_expunge_command tag (args : list Token) : M P unit := i_get (λ s,
  if iv_read_only (im_view s) then refuse_read_only tag
  else
    set ← lift (resolve_set (arg_str args 0) true s);
    match set with
    | Some ranges => ls ← apply_expunge (Some ranges); _ ← write_lines ls; ok_reply tag (bs "UID EXPUNGE completed")
    | None => bad_reply tag (bs "UID EXPUNGE expects a sequence set")
    end).
Definition close_command tag : M P unit := i_get (λ s,
  _ ← (if iv_read_only (im_view s) then mret [] else apply_expunge None);
  _ ← i_view v_unselect;
  i_write (tag ++ bs " OK CLOSE completed" ++ CRLF)).
Definition uid_command_run tag (args : list Token) : M P unit :=
  let '(sub, rest) := uid_subcommand args in
  match sub with
  | UFetch => run_fetch tag rest true
  | USearch => run_search tag rest true
  | USort => run_sort tag rest true
  | UThread => run_thread tag rest true
  | UStore => store_command tag rest true
  | UCopy => run_copy tag rest true false
  | UMove => move_command tag rest true
  | UExpunge => uid_expunge_command tag rest
  | UUnknown => bad_reply tag (bs "Unsupported UID subcommand")
  end.

(** *** Commands *)

Definition when_authenticated tag (m : M P unit) : M P unit := i_get (λ s,
  if is_authenticated (im_view s) then m else no_reply tag (bs "Authenticate first")).
Definition when_selected tag (m : M P unit) : M P unit := i_get (λ s,
  if bool_decide (iv_state (im_view s) = Selected) then m else no_reply tag (bs "Select a mailbox first")).
Definition enable_command tag (args : list Token) : M P unit :=
  let '(condstore, qresync) := parse_enable args in
  _ ← i_view (v_enable condstore qresync);
  _ ← i_write (enabled_line args); ok_reply tag (bs "ENABLE completed").
Definition starttls_command tag : M P (option ImapFlow) := i_get (λ s,
  if negb (iv_is_tls (im_view s)) && is_authenticated (im_view s)
  then _ ← bad_reply tag (bs "STARTTLS not allowed now"); mret None
  else
    let r := starttls_reply (iv_is_tls (im_view s)) true in
    _ ← reply tag (starttls_status r) (starttls_text r);
    mret (match r with TlsReady => Some FlUpgrade | _ => None end)).
Definition getquota_command tag (args : list Token) : M P unit := i_get (λ s,
  if negb (bool_decide (default (bs "-") (arg_str args 0) = [])) then no_reply tag (bs "no such quota root")
  else view ← lift (quota_view s); _ ← i_write (quota_line view); ok_reply tag (bs "GETQUOTA completed")).
Definition getquotaroot_command tag (args : list Token) : M P unit := i_get (λ s,
  match mailbox_named (arg_or_empty args 0) s with
  | None => no_reply tag (bs "mailbox does not exist")
  | Some m =>
      view ← lift (quota_view s);
      _ ← i_write (quotaroot_line (display_name m)); _ ← i_write (quota_line view); ok_reply tag (bs "GETQUOTAROOT completed")
  end).
(** The version of the package. *)
Definition ID_LINE : bytes :=
  bs "* ID (" ++ quoted (bs "name") ++ [32] ++ quoted (bs "IRIXMAIL") ++ [32] ++ quoted (bs "version") ++ [32] ++ quoted (bs "0.1.6") ++ bs ")" ++ CRLF.
Definition BYE : bytes := bs "* BYE IRIXMAIL logging out" ++ CRLF.
Definition completion tag (name : string) : bytes := tag ++ bs " OK " ++ bs name ++ bs " completed" ++ CRLF.

Definition plain (m : M P unit) : M P (option ImapFlow) := _ ← m; mret None.
Definition imap_dispatch (c : ImapParser.Command) : M P (option ImapFlow) :=
  let tag := cmd_tag c in
  let args := cmd_args c in
  match from_word (cmd_name c) with
  | VCapability => plain (i_get (λ s, _ ← i_write (capability_line (iv_is_tls (im_view s)) (is_authenticated (im_view s)));
                                     ok_reply tag (bs "CAPABILITY completed")))
  | VNoop => plain (_ ← push_new_mail; i_write (completion tag "NOOP"))
  | VLogout => _ ← i_write BYE; _ ← i_write (completion tag "LOGOUT"); mret (Some FlClose)
  | VStartTls => starttls_command tag
  | VLogin => plain (run_login tag args)
  | VAuthenticate => plain (run_authenticate tag args)
  | VSelect => plain (select_command false tag args)
  | VExamine => plain (select_command true tag args)
  | VEnable => plain (when_authenticated tag (enable_command tag args))
  | VList => plain (when_authenticated tag (match parse_list args with LpBad reason => bad_reply tag reason | LpCommand l => run_list tag l end))
  | VLsub => plain (when_authenticated tag (lsub_command tag args))
  | VSubscribe => plain (when_authenticated tag (subscribe_command tag (arg_or_empty args 0)))
  | VUnsubscribe => plain (when_authenticated tag (unsubscribe_command tag (arg_or_empty args 0)))
  | VNamespace => plain (when_authenticated tag (_ ← i_write NAMESPACE_LINE; i_write (completion tag "NAMESPACE")))
  | VStatus => plain (when_authenticated tag (status_command tag args))
  | VCreate => plain (when_authenticated tag (run_create tag (arg_or_empty args 0)))
  | VDelete => plain (when_authenticated tag (run_delete tag (arg_or_empty args 0)))
  | VRename => plain (when_authenticated tag (run_rename tag (arg_or_empty args 0) (arg_or_empty args 1)))
  | VAppend => run_append tag args
  | VFetch => plain (when_selected tag (run_fetch tag args false))
  | VSearch => plain (when_selected tag (run_search tag args false))
  | VSort => plain (when_selected tag (run_sort tag args false))
  | VThread => plain (when_selected tag (run_thread tag args false))
  | VStore => plain (when_selected tag (store_command tag args false))
  | VCopy => plain (when_selected tag (run_copy tag args false false))
  | VMove => plain (when_selected tag (move_command tag args false))
  | VExpunge => plain (when_selected tag (expunge_command tag))
  | VClose => plain (when_selected tag (close_command tag))
  | VCheck => plain (when_selected tag (_ ← push_new_mail; i_write (completion tag "CHECK")))
  | VUid => plain (when_selected tag (uid_command_run tag args))
  | VIdle => run_idle tag
  | VId => plain (_ ← i_write ID_LINE; ok_reply tag (bs "ID completed"))
  | VUnselect => plain (when_selected tag (_ ← i_view v_unselect; ok_reply tag (bs "UNSELECT completed")))
  | VGetQuota => plain (when_authenticated tag (getquota_command tag args))
  | VGetQuotaRoot => plain (when_authenticated tag (getquotaroot_command tag args))
  | VUnknown => plain (bad_reply tag (bs "Command unrecognized"))
  end.

(** [resolve_literals]: a turn that goes on reads a line. *)
Inductive CommandRead : Type := CrReady (c : ImapParser.Command) | CrRejected | CrClosed.
Fixpoint literals_loop (fuel : nat) (tag name : bytes) (args resolved : list Token) : M P CommandRead :=
  match fuel with
  | O => throw stopped
  | Datatypes.S fuel =>
      match last args with
      | Some (TLiteral len sync) =>
          let resolved := resolved ++ take (length args - 1) args in
          if Z.of_nat IMAP_MAX_LINE <? len then _ ← bad_reply tag (bs "literal too long"); mret CrClosed
          else
            _ ← (if sync then i_write APPEND_CONTINUE else mret tt);
            octets ← i_read_literal len;
            '(more, l) ← i_read_line;
            if negb more then mret CrClosed
            else
              match tokenize_args (line_fuel l) l with
              | Starved => throw stopped
              | Malformed e => _ ← reject l e; mret CrRejected
              | Scanned tokens _ => literals_loop fuel tag name tokens (resolved ++ [TLiteralValue octets])
              end
      | _ => mret (CrReady (mkCommand tag name (resolved ++ args)))
      end
  end.
Definition resolve_literals (c : ImapParser.Command) : M P CommandRead :=
  if eq_ignore_ascii_case (cmd_name c) (bs "APPEND") then mret (CrReady c)
  else i_get (λ s, literals_loop (Datatypes.S (length (input (im_stream s)))) (cmd_tag c) (cmd_name c) (cmd_args c) []).

(** The loop of [run]: every turn reads at least one byte. *)
Fixpoint imap_loop (fuel : nat) : M P ImapFlow :=
  match fuel with
  | O => throw stopped
  | Datatypes.S fuel =>
      '(more, l) ← i_read_line;
      if negb more then mret FlClose
      else
        match ImapParser.parse_command (line_fuel l) l with
        | Starved => throw stopped
        | Malformed e => _ ← reject l e; imap_loop fuel
        | Scanned c _ =>
            read ← resolve_literals c;
            match read with
            | CrRejected => imap_loop fuel
            | CrClosed => mret FlClose
            | CrReady c =>
                flow ← imap_dispatch c;
                match flow with Some flow => mret flow | None => imap_loop fuel end
            end
        end
  end.
Definition imap_greeting s : bytes :=
  bs "* OK [CAPABILITY " ++ capability_codes (iv_is_tls (im_view s)) false ++ bs "] IRIXMAIL IMAP4rev1 ready" ++ CRLF.
Definition imap_run : M P ImapFlow :=
  _ ← i_get (λ s, if im_greet s then i_write (imap_greeting s) else mret tt);
  i_get (λ s, imap_loop (Datatypes.S (length (input (im_stream s))))).
End session.
