(* ===== verification/Footprint.v ===== *)
(** * What an operation writes

    A store that notes every key it is asked to write, whatever comes of the
    request.  [writes] says that a computation over such a store only asks for
    keys that are allowed, on its error paths too; the rules are in the hint
    database [writes].  The rest of the file is what the operations on mail
    write: rows of the account they are called for, and reference counts. *)

From S2P Require Import Prelude Bytes Key Store ChangeLog Quota Text Fts Blobs MailParser Sieve MailModel MailMessage MailStore MailCache MailAdmin.
From stdpp Require Import base gmap list strings.
From Stdlib Require Import ZArith Lia.

Open Scope Z_scope.

(** ** The store *)

Record Traced (S : Type) : Type := mkTraced { tr_store : S; tr_written : list bytes }.
Arguments mkTraced {S} _ _.
Arguments tr_store {S} _.
Arguments tr_written {S} _.
Definition noting {S A} (ks : list bytes) (m : M S A) : M (Traced S) A := λ t,
  let '(r, s) := m (tr_store t) in (r, mkTraced s (tr_written t ++ ks)).
#[global] Instance traced_store {S} `{Store S} : Store (Traced S) := {|
  st_get k t := st_get k (tr_store t);
  st_put k v := noting [k] (st_put k v);
  st_delete k := noting [k] (st_delete k);
  st_iterate A p visit acc t := st_iterate p visit acc (tr_store t);
  st_iterate_from A p start visit acc t := st_iterate_from p start visit acc (tr_store t);
  st_batch ops := noting (op_key <$> ops) (st_batch ops);
  st_batch_conditional asserts ops := noting (op_key <$> ops) (st_batch_conditional asserts ops);
  st_add_and_get k by_ := noting [k] (st_add_and_get k by_);
  st_counter k t := st_counter k (tr_store t);
|}.

(** ** The keys of an account *)

Definition touches (a : Z) (k : bytes) : Prop :=
  (∃ x, k = key_encode x ∧ key_account_id x = a) ∨ (∃ h, k = ref_count_key h) ∨ (∃ name, k = subscription_key a name).
Lemma touches_key x : touches (key_account_id x) (key_encode x).
Proof. left. by exists x. Qed.
Lemma touches_ref a h : touches a (ref_count_key h).
Proof. right; left. by exists h. Qed.
Lemma touches_subscription a name : touches a (subscription_key a name).
Proof. right; right. by exists name. Qed.
Definition op_touches (a : Z) (o : WriteOp) : Prop := touches a (op_key o).

(** ** Computations *)

Section writes.
Context {St : Type} (trace : St → list bytes) (ok : bytes → Prop).

Definition writes {A} (m : M St A) (Q : A → Prop) : Prop :=
  ∀ s, (∃ ks, trace (m s).2 = trace s ++ ks ∧ Forall ok ks) ∧ ∀ x, (m s).1 = Ok x → Q x.

Lemma writes_ret {A} (a : A) (Q : A → Prop) : Q a → writes (mret a) Q.
Proof. intros HQ s. split; [exists []; by rewrite app_nil_r|]. by intros x [= <-]. Qed.
Lemma writes_throw {A} e (Q : A → Prop) : writes (throw e) Q.
Proof. intros s. split; [exists []; by rewrite app_nil_r|]. by intros x [=]. Qed.
Lemma writes_reads {A} (f : St → result A) (Q : A → Prop) : (∀ s x, f s = Ok x → Q x) → writes (reads f) Q.
Proof. intros HQ s. split; [exists []; by rewrite app_nil_r|]. apply HQ. Qed.
Lemma writes_lift {A} (r : result A) (Q : A → Prop) : (∀ x, r = Ok x → Q x) → writes (lift r) Q.
Proof. intros HQ s. split; [exists []; by rewrite app_nil_r|]. apply HQ. Qed.
Lemma writes_bind {A C} (m : M St A) (k : A → M St C) (P : A → Prop) (Q : C → Prop) :
  writes m P → (∀ a, P a → writes (k a) Q) → writes (x ← m; k x) Q.
Proof.
  intros Hm Hk s. destruct (Hm s) as ((ks & E & Hks) & HP). unfold mbind, M_bind. destruct (m s) as [[a|e] s1]; simpl in *.
  - destruct (Hk a (HP a eq_refl) s1) as ((ks' & E' & Hks') & HQ). split; [|done]. exists (ks ++ ks'). rewrite E', E, <-app_assoc. split; [done|]. by apply Forall_app.
  - split; [by exists ks|done].
Qed.
Lemma writes_mono {A} (m : M St A) (P Q : A → Prop) : writes m P → (∀ a, P a → Q a) → writes m Q.
Proof. intros Hm HPQ s. destruct (Hm s) as [Hs HP]. split; [done|]. intros x Hx. by apply HPQ, HP. Qed.
(** Where the result does not matter. *)
Lemma writes_any {A} (m : M St A) (P : A → Prop) : writes m P → writes m (λ _, True).
Proof. intros Hm. by eapply writes_mono. Qed.
Lemma writes_then {A C} (m : M St A) (k : A → M St C) (Q : C → Prop) :
  writes m (λ _, True) → (∀ a, writes (k a) Q) → writes (x ← m; k x) Q.
Proof. intros Hm Hk. by eapply writes_bind. Qed.
End writes.
Create HintDb writes discriminated.
#[global] Hint Resolve writes_ret writes_throw writes_reads writes_lift writes_then : writes.

Section mail.
Context {S B R : Type} `{Store S} `{BlobStore B} `{Bitmap R} `{Unicode} `{MailParser} `{MailCodec} `{MailboxJson}.
Context (values_order : gmap Z MessageCacheEntry → list MessageCacheEntry) (a : Z).
Abbreviation T := (Traced S).
Abbreviation W := (MailWorld T B).
Definition world_trace (w : W) : list bytes := tr_written (mw_store w).
Abbreviation writes_t := (writes (St := T) tr_written (touches a)).
Abbreviation writes_w := (writes (St := W) world_trace (touches a)).

(** *** The store's operations *)

Lemma writes_noting {A} ks (m : M S A) : Forall (touches a) ks → writes_t (noting ks m) (λ _, True).
Proof. intros Hks t. unfold noting. destruct (m (tr_store t)) as [r s]. split; [|done]. by exists ks. Qed.
Lemma writes_add x by_ : key_account_id x = a → writes_t (st_add_and_get (key_encode x) by_) (λ _, True).
Proof. intros E. apply writes_noting, Forall_singleton. rewrite <-E. apply touches_key. Qed.
Lemma writes_batch ops : Forall (op_touches a) ops → writes_t (st_batch ops) (λ _, True).
Proof. intros Ho. apply writes_noting. by apply Forall_fmap. Qed.
Lemma writes_in_store {A} (m : M T A) (Q : A → Prop) : writes_t m Q → writes_w (in_store m) Q.
Proof. intros Hm w. unfold in_store. specialize (Hm (mw_store w)). by destruct (m (mw_store w)) as [r t]. Qed.
Lemma writes_in_blobs {A} (m : M B A) : writes_w (in_blobs m) (λ _, True).
Proof. intros w. unfold in_blobs. destruct (m (mw_blobs w)) as [r b]. split; [exists []; by rewrite app_nil_r|done]. Qed.
Lemma writes_ask {A} (f : T → result A) (Q : A → Prop) : (∀ s x, f s = Ok x → Q x) → writes_w (ask_store f) Q.
Proof. intros HQ w. split; [exists []; by rewrite app_nil_r|]. apply HQ. Qed.
Lemma writes_notify n : writes_w (notify n) (λ _, True).
Proof. intros w. split; [exists []; by rewrite app_nil_r|done]. Qed.
Hint Resolve writes_in_store writes_in_blobs writes_notify : writes.

(** *** Keys *)

Lemma touches_account x : key_account_id x = a → touches a (key_encode x).
Proof. intros E. rewrite <-E. apply touches_key. Qed.
Lemma set_touches x v : key_account_id x = a → op_touches a (WSet (key_encode x) v).
Proof. apply touches_account. Qed.
Hint Resolve touches_account set_touches touches_ref touches_subscription : writes.

(** *** The change log, the index, threads *)

Lemma writes_allocate c : writes_t (allocate_change_id a c) (λ _, True).
Proof. unfold allocate_change_id. apply writes_then; [by apply writes_add|]. intros n. by apply writes_ret. Qed.
Lemma writes_record_op c d k : writes_t (record_op a c d k) (λ x, op_touches a x.2).
Proof. unfold record_op. apply writes_then; [apply writes_allocate|]. intros id. apply writes_ret. by apply set_touches. Qed.
Lemma writes_record_vanished m u : writes_t (record_vanished_op a m u) (λ x, op_touches a x.2).
Proof. unfold record_vanished_op. apply writes_then; [apply writes_allocate|]. intros id. apply writes_ret. by apply set_touches. Qed.
Lemma writes_vanished before after : writes_t (vanished_ops a before after) (Forall (op_touches a)).
Proof.
  induction before as [|e before IH]; [by apply writes_ret|]. cbn [vanished_ops]. case_bool_decide; [done|].
  eapply writes_bind; [apply writes_record_vanished|]. intros x Hx. eapply writes_bind; [apply IH|].
  intros rest Hrest. apply writes_ret. by constructor.
Qed.
Lemma fts_ops_touch (op : bytes → R → list WriteOp) keys (s : T) ops :
  (∀ k r o, o ∈ op k r → op_key o = k) → Forall (touches a) keys → ops_for op keys s = Ok ops → Forall (op_touches a) ops.
Proof.
  intros Hop. revert ops. induction keys as [|k keys IH]; intros ops Hk; simpl; [by intros [= <-]|].
  apply Forall_cons in Hk as [Hk Hks]. destruct (read_bitmap k s) as [r|]; [|done]. simpl. destruct (ops_for op keys s) as [rest|]; [|done]. simpl.
  intros [= <-]. apply Forall_app. split; [|by apply IH]. apply Forall_forall. intros o Ho. unfold op_touches. by rewrite (Hop _ _ _ Ho).
Qed.
Lemma term_keys_touch c es : Forall (touches a) (term_keys a c es).
Proof. apply Forall_forall. intros k (f & t & _ & ->)%elem_of_term_keys. by apply touches_account. Qed.
Lemma index_ops_touch d t (s : T) ops : mail_index_ops (R := R) a d t s = Ok ops → Forall (op_touches a) ops.
Proof.
  apply fts_ops_touch; [|apply term_keys_touch]. intros k r o. unfold insert_op. destruct (rb_insert d r) as [[] r']; [|by intros ?%not_elem_of_nil].
  by intros ->%list_elem_of_singleton.
Qed.
Lemma unindex_ops_touch d t (s : T) ops : mail_unindex_ops (R := R) a d t s = Ok ops → Forall (op_touches a) ops.
Proof.
  apply fts_ops_touch; [|apply term_keys_touch]. intros k r o. unfold remove_op. destruct (rb_remove d r) as [[] r']; [|by intros ?%not_elem_of_nil].
  intros ->%list_elem_of_singleton. by destruct (rb_is_empty r').
Qed.
Lemma thread_ops_touch d raw (s : T) x : resolve_thread a d raw s = Ok x → Forall (op_touches a) (tr_ops x).
Proof.
  unfold resolve_thread. destruct (thread_lookups _ _ _) as [l|]; [|done]. intros [= <-]. simpl. apply Forall_fmap, Forall_forall.
  intros y _. simpl. by apply set_touches.
Qed.
Lemma adjust_ops_touch b m : Forall (op_touches a) (adjust_ops a b m).
Proof. unfold adjust_ops. apply Forall_app. split; case_match; [apply Forall_singleton; by apply touches_account|constructor|apply Forall_singleton; by apply touches_account|constructor]. Qed.

(** *** Messages *)

Lemma writes_update d mutate : writes_w (update_message a d mutate) (λ _, True).
Proof.
  unfold update_message. apply writes_then; [by apply writes_ask|]. intros [data|]; [|by apply writes_ret].
  apply writes_then; [by apply writes_lift|]. intros data'. apply writes_then; [by apply writes_lift|]. intros b.
  eapply writes_bind; [apply writes_in_store, writes_vanished|]. intros van Hvan.
  eapply writes_bind; [apply writes_in_store, writes_record_op|]. intros [id op] Hop.
  apply writes_then; [apply writes_in_store, writes_batch|].
  - constructor; [by apply set_touches|]. apply Forall_app. split; [done|]. by apply Forall_singleton.
  - intros _. apply writes_then; [apply writes_notify|]. intros _. by apply writes_ret.
Qed.
Lemma writes_plan mutate ids acc :
  Forall (op_touches a) (ua_ops acc) → writes_t (plan_updates a mutate ids acc) (λ acc, Forall (op_touches a) (ua_ops acc)).
Proof.
  revert acc. induction ids as [|d ids IH]; intros acc Hacc; [by apply writes_ret|]. cbn [plan_updates].
  apply writes_then; [by apply writes_reads|]. intros [original|]; [|by apply IH].
  apply writes_then; [by apply writes_lift|]. intros data. apply writes_then; [by apply writes_lift|]. intros data'.
  apply writes_then; [by apply writes_lift|]. intros updated. case_bool_decide; [by apply IH|].
  eapply writes_bind; [apply writes_vanished|]. intros van Hvan. eapply writes_bind; [apply writes_record_op|]. intros [id op] Hop.
  apply IH. simpl. apply Forall_app. split; [done|]. constructor; [by apply set_touches|]. apply Forall_app. split; [done|]. by apply Forall_singleton.
Qed.
Lemma writes_notify_changes ids : writes_w (notify_changes a ids) (λ _, True).
Proof. induction ids as [|id ids IH]; [by apply writes_ret|]. apply writes_then; [apply writes_notify|done]. Qed.
Lemma writes_updates ids mutate : writes_w (update_messages a ids mutate) (λ _, True).
Proof.
  unfold update_messages. generalize UPDATE_RACE_ATTEMPTS. induction n as [|n IH]; [apply writes_throw|]. cbn [update_attempts].
  eapply writes_bind; [apply writes_in_store, writes_plan; constructor|]. intros acc Hacc. case_bool_decide; [by apply writes_ret|].
  apply writes_then; [apply writes_in_store, writes_noting; by apply Forall_fmap|]. intros [|]; [|done].
  apply writes_then; [apply writes_notify_changes|]. intros _. by apply writes_ret.
Qed.
Lemma writes_delete d : writes_w (delete_message (R := R) a d) (λ _, True).
Proof.
  unfold delete_message. apply (writes_bind _ _ _ _ (λ plan, match plan with Some (_, ops, _) => Forall (op_touches a) ops | None => True end)).
  - unfold delete_plan. apply writes_then; [by apply writes_ask|]. intros [data|]; [|by apply writes_ret].
    apply writes_then; [by apply writes_ask|]. intros metadata.
    apply (writes_bind _ _ _ _ (Forall (op_touches a))).
    { destruct metadata as [m|]; [|apply writes_ret; constructor].
      apply (writes_bind _ _ _ _ (Forall (op_touches a))).
      - apply writes_reads. intros w ops. unfold unindex_ops_of. destruct (blob_get_all _ _) as [[raw|]|]; simpl; [|by intros [= <-]|done].
        destruct (message_text raw); [apply unindex_ops_touch|by intros [= <-]].
      - intros ops Hops. apply writes_ret. apply Forall_app. split; [done|]. apply Forall_singleton. by apply touches_account. }
    intros first Hfirst. eapply writes_bind; [apply writes_in_store, writes_vanished|]. intros van Hvan.
    eapply writes_bind; [apply writes_in_store, writes_record_op|]. intros [id op] Hop. apply writes_ret. cbn [snd].
    rewrite !Forall_app. split_and!; [done| |apply adjust_ops_touch|done|by apply Forall_singleton].
    constructor; [by apply touches_account|]. apply Forall_singleton. by apply touches_account.
  - intros [[[metadata ops] id]|] Hops; [|by apply writes_ret]. apply writes_then; [|intros _; by apply writes_ret].
    unfold delete_commit. apply writes_then; [by apply writes_in_store, writes_batch|]. intros _. apply writes_then; [|intros _; apply writes_notify].
    destruct metadata as [m|]; [|by apply writes_ret]. apply writes_then; [|intros _; by apply writes_ret].
    apply writes_in_store. unfold release_message. apply writes_then; [|intros n; by apply writes_ret].
    apply writes_noting, Forall_singleton, touches_ref.
Qed.
Lemma writes_next_uid m : writes_w (in_store (next_uid m a)) (λ _, True).
Proof. apply writes_in_store. unfold next_uid. apply writes_then; [by apply writes_add|]. intros n. by apply writes_ret. Qed.
Lemma writes_document : writes_w (in_store (allocate_document_id a)) (λ _, True).
Proof. apply writes_in_store. unfold allocate_document_id. apply writes_then; [by apply writes_add|]. intros n. by apply writes_ret. Qed.
Lemma writes_append rq clock : store_id (ap_account rq) = a → writes_w (append_message (R := R) rq clock) (λ _, True).
Proof.
  intros Ea. unfold append_message. rewrite Ea. apply writes_then; [by apply writes_lift|]. intros metadata.
  apply writes_then; [by apply writes_ask|]. intros u. case_match; [by apply writes_ret|].
  apply writes_then; [apply writes_in_blobs|]. intros hash. apply writes_then; [apply writes_next_uid|]. intros uid.
  eapply writes_bind; [apply writes_ask; intros s x; apply thread_ops_touch|]. intros threading Hth.
  apply writes_then; [|intros _; by apply writes_ret]. unfold commit_message.
  apply writes_then; [by apply writes_lift|]. intros meta. apply writes_then; [by apply writes_lift|]. intros db.
  eapply writes_bind; [apply writes_ask; intros s x; apply index_ops_touch|]. intros index Hindex.
  eapply writes_bind; [apply writes_in_store, writes_record_op|]. intros [id op] Hop.
  apply writes_then; [|intros _; apply writes_notify]. apply writes_in_store, writes_batch. unfold filing_ops. cbn [snd].
  rewrite !Forall_app. split_and!; [|done| |apply adjust_ops_touch|done|by apply Forall_singleton].
  - constructor; [by apply set_touches|]. apply Forall_singleton. by apply set_touches.
  - constructor; [apply touches_ref|]. apply Forall_singleton. by apply touches_account.
Qed.

(** *** Mailboxes and subscriptions *)

Lemma writes_commit_mailbox id ops k : Forall (op_touches a) ops → writes_w (commit_mailbox a id ops k) (λ _, True).
Proof.
  intros Hops. unfold commit_mailbox. eapply writes_bind; [apply writes_in_store, writes_record_op|]. intros [n op] Hop.
  apply writes_then; [|intros _; apply writes_notify]. apply writes_in_store, writes_batch. apply Forall_app. split; [done|]. by apply Forall_singleton.
Qed.
Lemma mailbox_ops_touch ms : Forall (op_touches a) (mailbox_ops a ms).
Proof. apply Forall_fmap, Forall_forall. intros m _. by apply set_touches. Qed.
Lemma writes_create_mailbox name v : writes_w (create_mailbox a name v) (λ _, True).
Proof.
  unfold create_mailbox. apply writes_then.
  - apply writes_in_store. unfold allocate_mailbox_id. apply writes_then; [by apply writes_add|]. intros n.
    apply writes_then; [by apply writes_reads|]. intros ms. case_match; [by apply writes_ret|].
    apply writes_then; [by apply writes_add|]. intros n'. by apply writes_ret.
  - intros id. apply writes_then; [apply writes_commit_mailbox, mailbox_ops_touch|]. intros _. by apply writes_ret.
Qed.
Lemma writes_rename_mailbox id name : writes_w (rename_mailbox a id name) (λ _, True).
Proof.
  unfold rename_mailbox. apply writes_then; [by apply writes_ask|]. intros ms. case_match; [|by apply writes_ret].
  apply writes_then; [apply writes_commit_mailbox, mailbox_ops_touch|]. intros _. by apply writes_ret.
Qed.
Lemma writes_delete_mailbox m e : writes_w (delete_mailbox (R := R) values_order a m e) (λ _, True).
Proof.
  unfold delete_mailbox. apply writes_then; [by apply writes_ask|]. intros c. cbv zeta. case_match; [by apply writes_ret|]. apply writes_then.
  - generalize (members_of values_order c m). intros l. induction l as [|[d k] l IH]; [by apply writes_ret|]. cbn [remove_members].
    apply writes_then; [|done]. case_match; [apply writes_delete|apply writes_update].
  - intros _. apply writes_then; [|intros _; by apply writes_ret]. apply writes_commit_mailbox, Forall_singleton. by apply touches_account.
Qed.
Lemma writes_subscribe name : writes_w (in_store (subscribe a name)) (λ _, True).
Proof.
  apply writes_in_store. unfold subscribe. apply writes_then; [by apply writes_reads|]. intros [|]; [by apply writes_ret|].
  apply writes_then; [|intros _; by apply writes_ret]. apply writes_noting, Forall_singleton, touches_subscription.
Qed.
Lemma writes_unsubscribe name : writes_w (in_store (unsubscribe a name)) (λ _, True).
Proof.
  apply writes_in_store. unfold unsubscribe. apply writes_then; [by apply writes_reads|]. intros [|]; [|by apply writes_ret].
  apply writes_then; [|intros _; by apply writes_ret]. apply writes_noting, Forall_singleton, touches_subscription.
Qed.
End mail.
