(* ===== verification/ImapSafety.v ===== *)
(** * IMAP: what a connection can do (crates/imap/src/session.rs)

    The session over a store that notes what it is asked to write: nothing
    before a login over TLS with a name and a secret the client sent, and after
    it only rows of that account.  A mailbox that was opened with EXAMINE is
    not changed by the commands that work on it. *)

From S2P Require Import Prelude Bytes Key Store ChangeLog Quota Text Fts Ttl QueueModel QueueStore QueueDeliver SmtpVerdict SmtpCommands SmtpSubmit SmtpSession Blobs MailParser Sieve MailModel MailMessage MailStore MailRep MailFile MailCache MailAdmin Directory Login Pop3Commands Pop3 Pop3Safety ImapParser ImapSequence ImapDate ImapFetch ImapEnvelope ImapCommands ImapSearch ImapMail ImapSession Footprint.
From stdpp Require Import base gmap list strings sorting.
From Stdlib Require Import ZArith Lia.

Open Scope Z_scope.

(** ** What the client sent *)

(** A token of a command line, of the rest of one, or a literal. *)
Inductive sent_token (inp : bytes) : Token → Prop :=
  | sent_argument l c rest t : sent inp l → ImapParser.parse_command (line_fuel l) l = Scanned c rest → t ∈ cmd_args c → sent_token inp t
  | sent_more l ts rest t : sent inp l → tokenize_args (line_fuel l) l = Scanned ts rest → t ∈ ts → sent_token inp t
  | sent_literal octets : sent inp octets → sent_token inp (TLiteralValue octets).
(** An answer in an exchange: a line, or the initial response. *)
Definition sent_answer (inp r : bytes) : Prop :=
  (∃ t, sent_token inp t ∧ as_str t = Some r) ∨ (∃ l, sent inp l ∧ r = str_trim (utf8_lossy (ImapParser.strip_crlf l))).
(** The name and the secret the client gave: LOGIN, AUTHENTICATE PLAIN, AUTHENTICATE LOGIN. *)
Inductive given `{Base64} (inp : bytes) : bytes → bytes → Prop :=
  | given_login tu tp u p : sent_token inp tu → as_str tu = Some u → sent_token inp tp → as_str tp = Some p → given inp u p
  | given_plain r payload c :
      sent_answer inp r → b64_decode (str_trim r) = Some payload → decode_plain payload = Some c → given inp (cr_username c) (cr_password c)
  | given_pair ru rp u p :
      sent_answer inp ru → b64_decode (str_trim ru) = Some u → sent_answer inp rp → b64_decode (str_trim rp) = Some p → given inp u p.

Lemma imap_read_go_sent e inp buf : ∃ q, inp = q ++ (imap_read_go e inp buf).2 ∧
  ∀ more l, (imap_read_go e inp buf).1 = Ok (more, l) → ∃ x y, inp = x ++ y ++ (imap_read_go e inp buf).2 ∧ l = buf ++ x.
Proof.
  revert buf. induction inp as [|b inp IH]; intros buf; cbn [imap_read_go].
  - exists []. split; [done|]. destruct e; intros more l [= <- <-]. exists [], []. split; [done|by rewrite app_nil_r].
  - destruct (b =? LF); [exists [b]; split; [done|]; intros more l [= <- <-]; exists [], [b]; split; [done|by rewrite app_nil_r]|].
    case_match; [by exists [b]|]. destruct (IH (buf ++ [b])) as (q & Eq & Hq). exists (b :: q). split; [by rewrite Eq at 1|].
    intros more l E. destruct (Hq more l E) as (x & y & Ei & ->). exists (b :: x), y. split; [by rewrite Ei at 1|by rewrite <-app_assoc].
Qed.
Lemma imap_read_sent st : ∃ p, input st = p ++ input (imap_read_st st).2 ∧
  ∀ more l, (imap_read_st st).1 = Ok (more, l) → sent (input st) l.
Proof.
  unfold imap_read_st. destruct (imap_read_go_sent (at_end st) (input st) []) as (q & Eq & Hq).
  destruct (imap_read_go _ _ _) as [r rest]. exists q. split; [done|]. intros more l E. simpl in *.
  destruct (Hq more l E) as (x & y & -> & ->). by exists [], (y ++ rest).
Qed.
Lemma read_literal_sent n st : ∃ p, input st = p ++ input (read_literal_st n st).2 ∧
  ∀ b, (read_literal_st n st).1 = Ok b → sent (input st) b.
Proof.
  unfold read_literal_st. case_match; simpl; [exists (input st); split; [by rewrite app_nil_r|done]|].
  exists (take (Z.to_nat n) (input st)). split; [by rewrite take_drop|]. intros b [= <-]. exists [], (drop (Z.to_nat n) (input st)). by rewrite take_drop.
Qed.

Lemma keeps_lift {X A} (Rel : X → X → Prop) {po : PreOrder Rel} (r : result A) : keeps Rel (lift r).
Proof. intros s. reflexivity. Qed.
#[local] Hint Resolve keeps_lift : hoare.

(** ** What the commands write *)

Section footprint.
Context {S B R : Type} `{Store S} `{BlobStore B} `{Bitmap R} `{Unicode} `{LowerText} `{MailParser} `{MimeView} `{MailCodec}.
Context (values_order : gmap Z MessageCacheEntry → list MessageCacheEntry) (a : Z).
Abbreviation W := (MailWorld (Traced S) B).
Abbreviation writes_w := (writes (St := W) world_trace (touches a)).

Lemma writes_fetch blobs notifier read_only items uid_mode mb ranges mods :
  writes_w (fetch_in values_order a blobs notifier read_only items uid_mode mb ranges mods) (λ _, True).
Proof.
  unfold fetch_in. apply writes_then; [by apply writes_ask|]. intros c. cbv zeta. apply writes_then.
  { case_match; [|by apply writes_ret]. apply writes_then; [by apply writes_ask|]. intros m. by apply writes_ret. }
  intros modseqs. apply writes_then.
  { case_match; [|by apply writes_ret]. apply writes_then; [by apply writes_ask|]. intros ok. by apply writes_ret. }
  intros floor. apply writes_then.
  { case_match; [|by apply writes_ret]. case_match; [by apply writes_ask|by apply writes_ret]. }
  intros gone. apply writes_then; [|intros ls; by apply writes_ret].
  generalize (filter (λ x, selected_by ranges uid_mode (mailbox_members values_order mb c) x = true) (numbered (mailbox_members values_order mb c))).
  induction l as [|x l IH]; [by apply writes_ret|]. cbn [fetch_each]. destruct (match floor with Some since => _ | None => false end); [done|].
  apply writes_then; [|intros b; apply writes_then; [done|intros ls; by apply writes_ret]].
  unfold fetch_one. destruct x as [seqno [uid e]]. apply writes_then; [case_match; [by apply writes_reads|by apply writes_ret]|].
  intros loaded. apply writes_then; [by apply writes_lift|]. intros extras. case_match; [|by apply writes_ret].
  apply writes_then; [apply writes_update|]. intros _. by apply writes_ret.
Qed.
Lemma writes_store mb ranges op uid_mode since condstore :
  writes_w (store_in values_order a mb ranges op uid_mode since condstore) (λ _, True).
Proof.
  unfold store_in. apply writes_then; [by apply writes_ask|]. intros c. cbv zeta. apply writes_then.
  { case_match; [|by apply writes_ret]. apply writes_then; [by apply writes_ask|]. intros m. by apply writes_ret. }
  intros modseqs. apply writes_then; [case_match; [by apply writes_ask|by apply writes_ret]|]. intros ok.
  apply writes_then; [apply writes_updates|]. intros rs. by apply writes_ret.
Qed.
Lemma writes_copy source target ranges uid_mode move_mode :
  writes_w (copy_in values_order a source target ranges uid_mode move_mode) (λ _, True).
Proof.
  unfold copy_in. apply writes_then; [by apply writes_ask|]. intros c. cbv zeta. apply writes_then; [|intros us; by apply writes_ret].
  generalize (filter (λ x, selected_by ranges uid_mode (mailbox_members values_order source c) x = true) (numbered (mailbox_members values_order source c))).
  induction l as [|x l IH]; [by apply writes_ret|]. cbn [copy_each].
  apply writes_then; [|intros b; apply writes_then; [done|intros ls; by apply writes_ret]].
  unfold copy_one. case_match.
  - apply writes_then; [|intros _; by apply writes_ret]. case_match; [|by apply writes_ret].
    apply writes_then; [apply writes_update|]. intros _. by apply writes_ret.
  - apply writes_then; [apply writes_next_uid|]. intros dst. apply writes_then; [apply writes_update|]. intros _. by apply writes_ret.
Qed.
Lemma writes_expunge mb ranges qresync : writes_w (expunge_in (R := R) values_order a mb ranges qresync) (λ _, True).
Proof.
  unfold expunge_in. apply writes_then; [by apply writes_ask|]. intros c. cbv zeta. apply writes_then; [|intros us; by apply writes_ret].
  generalize (expunge_selected ranges (mailbox_members values_order mb c)).
  induction l as [|x l IH]; [by apply writes_ret|]. cbn [expunge_each]. apply writes_then; [|done].
  unfold expunge_one. case_match; [apply writes_delete|apply writes_update].
Qed.
End footprint.

Section safety.
Context {S B R : Type} `{Store S} `{BlobStore B} `{Bitmap R} `{Unicode} `{LowerText} `{MailParser} `{MimeView} `{MailCodec} `{MailboxJson}.
Context `{DirectoryJson} `{Argon2} `{Base64}.
Context (policy : ThrottlePolicy) (clk seconds : nat → Z).
Context (values_order : gmap Z MessageCacheEntry → list MessageCacheEntry) (names_order : list bytes → list bytes).
Abbreviation P := (Imap (Traced S) B).
Implicit Types (s : P).

(** The name and the secret open the account, over TLS. *)
Definition entitled_to s0 (a : Directory.Account) : Prop :=
  iv_is_tls (im_view s0) = true ∧ im_directory s0 = true ∧
  ∃ username secret, given (input (im_stream s0)) username secret ∧ opened_by (imap_world s0) username secret a.

Section one.
Context (s0 : P).
Abbreviation inp := (input (im_stream s0)).

(** While the connection lasts. *)
Record going s : Prop := {
  go_tls : iv_is_tls (im_view s) = iv_is_tls (im_view s0);
  go_directory : im_directory s = im_directory s0;
  go_input : ∃ p, inp = p ++ input (im_stream s);
  go_before : iv_account (im_view s) = None → imap_world s = imap_world s0;
  go_after a : iv_account (im_view s) = Some a → entitled_to s0 a ∧ iv_state (im_view s) ≠ NotAuthenticated ∧
    ∃ ks, tr_written (imap_store s) = tr_written (imap_store s0) ++ ks ∧ Forall (touches (as_u32 (ac_id a))) ks;
}.
(** And the account, once it is known, stays. *)
Definition hold (c : option Z) s : Prop := going s ∧ ∀ c', c = Some c' → imap_context s = Some c'.
Definition steady (c : option Z) s s' : Prop := hold c s → hold c s'.
#[local] Instance steady_preorder c : PreOrder (steady c).
Proof. split; [by intros s Hs|]. intros s1 s2 s3 H1' H2' Hs. by apply H2', H1'. Qed.

(** Changes that touch neither the account nor the mail. *)
Lemma hold_view c f s : hold c s → iv_is_tls (f (im_view s)) = iv_is_tls (im_view s) → iv_account (f (im_view s)) = iv_account (im_view s) →
  (iv_state (im_view s) ≠ NotAuthenticated → iv_state (f (im_view s)) ≠ NotAuthenticated) → hold c (i_set_view (f (im_view s)) s).
Proof.
  intros [[Ht Hd Hi Hb Ha] Hc] Et Ea Es. split.
  - split; simpl; [by rewrite Et|done|done|by rewrite Ea|]. rewrite Ea. intros a E. destruct (Ha a E) as (? & ? & ?). split_and!; auto.
  - intros c' Ec. specialize (Hc c' Ec). unfold imap_context in *. simpl. by rewrite Ea.
Qed.
Lemma hold_stream c x s : hold c s → (∃ p, input (im_stream s) = p ++ input x) → hold c (i_set_stream x s).
Proof.
  intros [[Ht Hd [p Hp] Hb Ha] Hc] [q Hq]. split; [|exact Hc]. split; try done. simpl. exists (p ++ q). by rewrite Hp, Hq, <-app_assoc.
Qed.
Lemma stays_write c b : keeps (steady c) (i_write b).
Proof.
  intros s Hs. unfold i_write, i_stream. pose proof (write_keeps_input b (im_stream s)) as E.
  destruct (write_st b (im_stream s)) as [r x]. apply hold_stream; [done|]. exists []. simpl in E. by rewrite E.
Qed.
Lemma keeps_reply c tag status text : keeps (steady c) (reply tag status text).
Proof. apply stays_write. Qed.
Lemma stays_read_line c : keeps (steady c) i_read_line.
Proof.
  intros s Hs. unfold i_read_line, i_stream. destruct (imap_read_sent (im_stream s)) as (p & Hp & _).
  destruct (imap_read_st (im_stream s)) as [r x]. apply hold_stream; [done|]. by exists p.
Qed.
Lemma keeps_read_literal c n : keeps (steady c) (i_read_literal n).
Proof.
  intros s Hs. unfold i_read_literal, i_stream. destruct (read_literal_sent n (im_stream s)) as (p & Hp & _).
  destruct (read_literal_st n (im_stream s)) as [r x]. apply hold_stream; [done|]. by exists p.
Qed.
Lemma keeps_view c f : (∀ v, iv_is_tls (f v) = iv_is_tls v ∧ iv_account (f v) = iv_account v ∧ iv_state (f v) = iv_state v) → keeps (steady c) (i_view f).
Proof. intros Hf s Hs. destruct (Hf (im_view s)) as (? & ? & E). apply hold_view; try done. simpl. by rewrite E. Qed.
Lemma keeps_view_open c f :
  (∀ v, iv_is_tls (f v) = iv_is_tls v ∧ iv_account (f v) = iv_account v ∧ iv_state (f v) ≠ NotAuthenticated) → keeps (steady c) (i_view f).
Proof. intros Hf s Hs. destruct (Hf (im_view s)) as (? & ? & E). by apply hold_view. Qed.
Lemma keeps_time c : keeps (steady c) (i_time seconds).
Proof. intros s [[] Hc]. by split; [split|]. Qed.
Lemma keeps_get {A} (Rel : P → P → Prop) (f : P → M P A) : (∀ s, keeps Rel (f s)) → keeps Rel (i_get f).
Proof. intros Hf s. apply Hf. Qed.
Lemma keeps_try {A} c (m : M P A) : keeps (steady c) m → keeps (steady c) (i_try m).
Proof. intros Hm s. specialize (Hm s). unfold i_try. by destruct (m s). Qed.

(** Mail of the account. *)
Lemma keeps_mail {A} c (m : M (MailWorld (Traced S) B) A) (Q : A → Prop) :
  writes world_trace (touches c) m Q → keeps (steady (Some c)) (i_mail m).
Proof.
  intros Hm s [[Ht Hd Hi Hb Ha] Hc]. unfold i_mail. destruct (Hm (be_mail (im_backend s))) as ((ks & Ek & Hks) & _).
  destruct (m (be_mail (im_backend s))) as [r w]. split; [|exact Hc]. simpl in Ek. specialize (Hc c eq_refl). unfold imap_context in Hc.
  destruct (im_directory s) eqn:Ed; [|done]. destruct (iv_account (im_view s)) as [a|] eqn:Ea; [|done]. simpl in Hc. injection Hc as <-.
  split; simpl; try done; [congruence|congruence|]. intros a' Ea'. rewrite Ea in Ea'. injection Ea' as <-. destruct (Ha a eq_refl) as (He & Hst & ks0 & E0 & Hks0).
  split_and!; [done|done|]. exists (ks0 ++ ks). unfold imap_store, imap_world in *. simpl. unfold world_trace in Ek. rewrite Ek, E0, <-app_assoc.
  split; [done|]. by apply Forall_app.
Qed.
(** The rest of a method, in the state it is reached in: the account is the one of that state. *)
Lemma keeps_within {A} c (f : P → M P A) : (∀ s, keeps (steady (imap_context s)) (f s)) → keeps (steady c) (i_get f).
Proof.
  intros Hf s [Hg Hc]. specialize (Hf s s). unfold i_get. destruct (imap_context s) as [a|] eqn:Ea.
  - destruct Hf as [Hg' Hc']; [split; [done|congruence]|]. split; [done|]. intros c' Ec. specialize (Hc c' Ec). apply Hc'. congruence.
  - destruct Hf as [Hg' _]; [by split|]. split; [done|]. intros c' Ec. specialize (Hc c' Ec). congruence.
Qed.
Lemma selected_account s m a : selected_context s = Some (m, a) → imap_context s = Some a.
Proof. unfold selected_context. destruct (selected_mailbox s), (imap_context s); naive_solver. Qed.
Lemma keeps_ask {A} c (f : Traced S → result A) : keeps (steady c) (i_mail (ask_store f)).
Proof.
  intros s [[] Hc]. split; [|exact Hc]. by split.
Qed.
Create HintDb footprint discriminated.
#[local] Hint Resolve writes_fetch writes_store writes_copy writes_expunge writes_create_mailbox writes_rename_mailbox writes_delete_mailbox
  writes_subscribe writes_unsubscribe writes_document : footprint.
#[local] Hint Resolve stays_write keeps_reply stays_read_line keeps_read_literal keeps_time keeps_ask steady_preorder : hoare.

(** Methods that answer, and work on the mail of the account. *)
Ltac stay := repeat match goal with
  | |- ∀ _ : _, _ => intro
  | E : selected_context _ = Some (_, _) |- keeps _ (i_mail _) => apply selected_account in E
  | E : imap_context ?s = Some _ |- keeps (steady (imap_context ?s)) _ => rewrite E
  | |- keeps _ (i_mail (ask_store _)) => apply keeps_ask
  | |- keeps (steady (Some _)) (i_mail _) => eapply keeps_mail; solve [eauto with footprint nocore]
  | |- keeps _ (_ ≫= _) => apply keeps_bind; [apply _| |]
  | |- keeps _ (mret _) => apply keeps_ret, _
  | |- keeps _ (throw _) => apply keeps_throw, _
  | |- keeps _ (i_get _) => apply keeps_within
  | |- keeps _ (i_try _) => apply keeps_try
  | |- keeps _ (i_view _) => first [by apply keeps_view | by apply keeps_view_open]
  | |- keeps _ (let _ := _ in _) => cbv zeta
  | |- keeps _ _ => solve [auto with hoare nocore]
  | |- keeps _ (match _ with _ => _ end) => case_match; subst
  end.

Lemma keeps_lines c ls : keeps (steady c) (write_lines ls).
Proof. induction ls as [|l ls IH]; cbn [write_lines]; stay. Qed.
#[local] Hint Resolve keeps_lines : hoare.
Lemma keeps_reject c l e : keeps (steady c) (reject l e).
Proof. unfold reject, bad_reply. stay. Qed.
Lemma keeps_push c : keeps (steady c) (push_new_mail values_order).
Proof. unfold push_new_mail. stay. Qed.
Lemma keeps_tokens c l : keeps (steady c) (tokens_of l).
Proof. unfold tokens_of, scanned. stay. Qed.
#[local] Hint Resolve keeps_reject keeps_push keeps_tokens : hoare.

(** *** Commands on the mail of the account *)

Lemma keeps_select c examine tag args : keeps (steady c) (select_command values_order examine tag args).
Proof. unfold select_command, no_reply, bad_reply. stay. Qed.
Lemma keeps_fetch c tag args uid_mode : keeps (steady c) (run_fetch values_order tag args uid_mode).
Proof. unfold run_fetch, fetch_lines, bad_reply, ok_reply. stay. Qed.
Lemma keeps_search c tag args uid_mode : keeps (steady c) (run_search (R := R) values_order tag args uid_mode).
Proof. unfold run_search, with_criteria, refuse_charset, no_reply, bad_reply, ok_reply. stay. Qed.
Lemma keeps_sort c tag args uid_mode : keeps (steady c) (run_sort (R := R) values_order tag args uid_mode).
Proof. unfold run_sort, with_charset, with_criteria, refuse_charset, no_reply, bad_reply, ok_reply. stay. Qed.
Lemma keeps_thread c tag args uid_mode : keeps (steady c) (run_thread (R := R) values_order tag args uid_mode).
Proof. unfold run_thread, with_charset, with_criteria, refuse_charset, no_reply, bad_reply, ok_reply. stay. Qed.
Lemma keeps_store c tag args uid_mode : keeps (steady c) (store_command values_order tag args uid_mode).
Proof. unfold store_command, run_store, apply_store, refuse_read_only, no_reply, bad_reply, ok_reply. stay. Qed.
Lemma keeps_copy c tag args uid_mode move_mode : keeps (steady c) (run_copy values_order tag args uid_mode move_mode).
Proof. unfold run_copy, copy_apply, no_reply, bad_reply, ok_reply. stay. Qed.
#[local] Hint Resolve keeps_select keeps_fetch keeps_search keeps_sort keeps_thread keeps_store keeps_copy : hoare.
Lemma keeps_move c tag args uid_mode : keeps (steady c) (move_command values_order tag args uid_mode).
Proof. unfold move_command, refuse_read_only, no_reply. stay. Qed.
Lemma keeps_apply_expunge c ranges : keeps (steady c) (apply_expunge (R := R) values_order ranges).
Proof. unfold apply_expunge. stay. Qed.
#[local] Hint Resolve keeps_move keeps_apply_expunge : hoare.
Lemma keeps_expunge c tag : keeps (steady c) (expunge_command (R := R) values_order tag).
Proof. unfold expunge_command, refuse_read_only, no_reply, ok_reply. stay. Qed.
Lemma keeps_uid_expunge c tag args : keeps (steady c) (uid_expunge_command (R := R) values_order tag args).
Proof. unfold uid_expunge_command, refuse_read_only, no_reply, bad_reply, ok_reply. stay. Qed.
Lemma keeps_close c tag : keeps (steady c) (close_command (R := R) values_order tag).
Proof. unfold close_command. stay. Qed.
#[local] Hint Resolve keeps_expunge keeps_uid_expunge keeps_close : hoare.
Lemma keeps_uid c tag args : keeps (steady c) (uid_command_run (R := R) values_order tag args).
Proof. unfold uid_command_run, bad_reply. stay. Qed.

(** *** Mailboxes *)

Lemma keeps_create c tag name : keeps (steady c) (run_create tag name).
Proof. unfold run_create, no_reply, bad_reply, ok_reply. stay. Qed.
Lemma keeps_delete c tag name : keeps (steady c) (run_delete (R := R) values_order tag name).
Proof. unfold run_delete, no_reply, bad_reply, ok_reply. stay. Qed.
Lemma keeps_rename c tag source target : keeps (steady c) (run_rename tag source target).
Proof. unfold run_rename, no_reply, bad_reply, ok_reply. stay. Qed.
Lemma keeps_subscribe c tag name : keeps (steady c) (subscribe_command tag name).
Proof. unfold subscribe_command. stay. Qed.
Lemma keeps_unsubscribe c tag name : keeps (steady c) (unsubscribe_command tag name).
Proof. unfold unsubscribe_command. stay. Qed.
Lemma keeps_list_mailboxes c all l combined subscribed status ms : keeps (steady c) (list_mailboxes values_order all l combined subscribed status ms).
Proof. induction ms as [|m ms IH]; cbn [list_mailboxes]; stay. Qed.
#[local] Hint Resolve keeps_list_mailboxes : hoare.
Lemma keeps_list c tag l : keeps (steady c) (run_list values_order names_order tag l).
Proof. unfold run_list, ok_reply. stay. Qed.
#[local] Hint Resolve keeps_uid keeps_create keeps_delete keeps_rename keeps_subscribe keeps_unsubscribe keeps_list : hoare.

(** *** IDLE and APPEND *)

Lemma keeps_wakes c : keeps (steady c) ((λ s, (Ok tt, i_set_wakes (tail (im_wakes s)) s)) : M P unit).
Proof. intros s [[] Hc]. by split; [split|]. Qed.
#[local] Hint Resolve keeps_wakes : hoare.
Lemma keeps_idle_loop c fuel subscribed : keeps (steady c) (idle_loop values_order fuel subscribed).
Proof. revert c subscribed. induction fuel as [|fuel IH]; intros c subscribed; cbn [idle_loop]; stay. Qed.
#[local] Hint Resolve keeps_idle_loop : hoare.
Lemma keeps_idle c tag : keeps (steady c) (run_idle values_order tag).
Proof. unfold run_idle, no_reply. stay. Qed.
Lemma keeps_append_one c m flags internaldate message : keeps (steady c) (append_one (R := R) seconds m flags internaldate message).
Proof.
  apply keeps_within. intros s. destruct (imap_context s) as [a|] eqn:Ec; [|stay].
  destruct (iv_account (im_view s)) as [account|] eqn:Ea; [|stay].
  assert (store_id (mail_account account) = a) as Hid by (revert Ec; unfold imap_context; rewrite Ea; destruct (im_directory s); naive_solver).
  stay. eapply keeps_mail, writes_append. done.
Qed.
Lemma keeps_drain_loop c fuel l : keeps (steady c) (drain_loop fuel l).
Proof. revert l. induction fuel as [|fuel IH]; intros l; cbn [drain_loop]; stay. Qed.
#[local] Hint Resolve keeps_append_one keeps_drain_loop : hoare.
Lemma keeps_drain c l : keeps (steady c) (drain_appends l).
Proof. unfold drain_appends. stay. Qed.
#[local] Hint Resolve keeps_drain : hoare.
Lemma keeps_refuse_date c tag len sync drains : keeps (steady c) (refuse_date tag len sync drains).
Proof. unfold refuse_date, bad_reply. stay. Qed.
Lemma keeps_append_failed c tag text : keeps (steady c) (append_failed tag text).
Proof. unfold append_failed, no_reply. stay. Qed.
#[local] Hint Resolve keeps_refuse_date keeps_append_failed : hoare.
Lemma keeps_append_loop c fuel tag m g uids : keeps (steady c) (append_loop (R := R) seconds fuel tag m g uids).
Proof. revert g uids. induction fuel as [|fuel IH]; intros g uids; cbn [append_loop]; unfold ok_reply; stay. Qed.
#[local] Hint Resolve keeps_append_loop : hoare.
Lemma keeps_append c tag args : keeps (steady c) (run_append (R := R) seconds tag args).
Proof. unfold run_append, no_reply. stay. Qed.
#[local] Hint Resolve keeps_idle keeps_append : hoare.

(** *** Logging in *)

(** What is ensured when a call returns; when it fails the connection ends. *)
Definition leads {A} (m : M P A) (Q : A → P → Prop) s : Prop :=
  match m s with (Ok a, s') => Q a s' | (Err _, s') => going s' end.
Definition waiting s : Prop := going s ∧ iv_state (im_view s) = NotAuthenticated.

Lemma leads_bind {A C} (m : M P A) (k : A → M P C) (Q : C → P → Prop) s : leads m (λ a, leads (k a) Q) s → leads (x ← m; k x) Q s.
Proof. unfold leads, mbind, M_bind. by destruct (m s) as [[a|e] s1]. Qed.
Lemma leads_mono {A} (m : M P A) (Q Q' : A → P → Prop) s : leads m Q s → (∀ a s', Q a s' → Q' a s') → leads m Q' s.
Proof. unfold leads. destruct (m s) as [[a|e] s1]; auto. Qed.
Lemma leads_keeps {A} (m : M P A) s : keeps (steady None) m → going s → leads m (λ _, going) s.
Proof. intros Hm Hs. destruct (Hm s) as [Hg _]; [by split|]. unfold leads. by destruct (m s) as [[a|e] s1]. Qed.
Lemma keeps_leads {A} (m : M P A) : (∀ s, going s → leads m (λ _, going) s) → keeps (steady None) m.
Proof. intros Hm s [Hs _]. specialize (Hm s Hs). unfold leads in Hm. split; [|done]. by destruct (m s) as [[a|e] s1]. Qed.
Lemma going_sent s l : going s → sent (input (im_stream s)) l → sent inp l.
Proof. intros Hs Hl. destruct (go_input _ Hs) as [p ->]. by apply sent_suffix. Qed.

Lemma leads_write b s : waiting s → leads (i_write b) (λ _, waiting) s.
Proof.
  intros [Hs Hst]. pose proof (leads_keeps (i_write b) s (stays_write None b) Hs) as Hl. revert Hl. unfold leads, i_write, i_stream.
  destruct (write_st b (im_stream s)) as [[u|e] x]; [by split|done].
Qed.
Lemma leads_read_line s : going s → leads i_read_line (λ r s', going s' ∧ iv_state (im_view s') = iv_state (im_view s) ∧ sent inp r.2) s.
Proof.
  intros Hs. pose proof (leads_keeps i_read_line s (stays_read_line None) Hs) as Hl. revert Hl. unfold leads, i_read_line, i_stream.
  destruct (imap_read_sent (im_stream s)) as (p & _ & Hp). destruct (imap_read_st (im_stream s)) as [[[more l]|e] x]; [|done].
  intros Hg. split_and!; [done|done|]. apply (going_sent s); [done|]. by eapply Hp.
Qed.
Lemma leads_read_literal n s : going s → leads (i_read_literal n) (λ b s', going s' ∧ sent inp b) s.
Proof.
  intros Hs. pose proof (leads_keeps (i_read_literal n) s (keeps_read_literal None n) Hs) as Hl. revert Hl. unfold leads, i_read_literal, i_stream.
  destruct (read_literal_sent n (im_stream s)) as (p & _ & Hp). destruct (read_literal_st n (im_stream s)) as [[b|e] x]; [|done].
  intros Hg. split; [done|]. apply (going_sent s); [done|]. by apply Hp.
Qed.

Lemma leads_login tag u p label s : waiting s → iv_is_tls (im_view s0) = true → given inp u p →
  leads (attempt ← imap_resolve_login policy clk (mkCredentials u p); login_outcome tag (mkCredentials u p) label attempt) (λ _, going) s.
Proof.
  intros [Hs Hst] Htls Hg. assert (iv_account (im_view s) = None) as Ha.
  { destruct (iv_account (im_view s)) as [a|] eqn:Ea; [|done]. by destruct (go_after _ Hs a Ea) as (_ & ? & _). }
  apply leads_bind. unfold leads at 1, imap_resolve_login. destruct (im_directory s) eqn:Ed; [|by apply leads_keeps; [apply keeps_reply|]].
  destruct (Login.attempt_login _ _ _ _ _ _ _ _) as [r t] eqn:El.
  assert (going (i_set_backend (mkBackend (imap_world s) t) s)) as Hs' by by destruct Hs.
  destruct r as [[a by_| |]|e]; [|by apply leads_keeps; [apply keeps_reply|]..|done].
  apply leads_bind. unfold leads at 1, i_view. apply leads_keeps; [apply keeps_get; intros; apply keeps_reply|].
  assert (opened_by (imap_world s0) u p a) as Hop by (rewrite <-(go_before _ Hs Ha); by eapply attempt_opens).
  destruct Hs' as [Ht Hd Hi Hb _]. split; try done. intros a' [= <-]. split_and!; [|done|].
  - split_and!; [done|by rewrite <-(go_directory _ Hs)|by exists u, p].
  - exists []. rewrite app_nil_r. split; [|done]. unfold imap_store. by rewrite <-(go_before _ Hs Ha).
Qed.
Lemma arg_sent args i r : Forall (sent_token inp) args → arg_str args i = Some r → ∃ t, sent_token inp t ∧ as_str t = Some r.
Proof.
  intros Hargs. unfold arg_str. destruct (args !! i) as [t|] eqn:Et; [|done]. intros E. exists t. split; [by eapply Forall_lookup_1|done].
Qed.
Lemma keeps_login tag args : Forall (sent_token inp) args → keeps (steady None) (run_login policy clk tag args).
Proof.
  intros Hargs. apply keeps_leads. intros s Hs. unfold leads, run_login, i_get.
  destruct (iv_is_tls (im_view s)) eqn:Et; [|by apply leads_keeps; [apply keeps_reply|]]. cbn [negb]. rewrite (go_tls _ Hs) in Et.
  unfold is_authenticated. case_bool_decide as Hst; cbn [negb]; [|by apply leads_keeps; [apply keeps_reply|]].
  unfold parse_login. destruct (arg_str args 0) as [u|] eqn:Eu; [|by apply leads_keeps; [apply keeps_reply|]].
  destruct (arg_str args 1) as [p|] eqn:Ep; [|by apply leads_keeps; [apply keeps_reply|]]. simpl.
  apply leads_login; [by split|done|]. destruct (arg_sent _ _ _ Hargs Eu) as (tu & ? & ?), (arg_sent _ _ _ Hargs Ep) as (tp & ? & ?). by apply (given_login _ tu tp).
Qed.

(** What an exchange knows: the first answer of LOGIN. *)
Definition exchange_given (e : SaslExchange) : Prop :=
  match e with LoginAwaitingPassword u => ∃ r, sent_answer inp r ∧ b64_decode (str_trim r) = Some u | _ => True end.
Definition step_given (x : ImapStep) : Prop :=
  match x with IResolved c => given inp (cr_username c) (cr_password c) | _ => True end.
Lemma advance_given e r : exchange_given e → sent_answer inp r → step_given (imap_advance e r).1 ∧ exchange_given (imap_advance e r).2.
Proof.
  intros He Hr. unfold imap_advance. destruct (b64_decode (str_trim r)) as [payload|] eqn:Eb; [|done]. destruct e as [| |u]; simpl.
  - split; [|done]. destruct (decode_plain payload) as [c|] eqn:Ec; [|done]. by eapply given_plain.
  - destruct (from_utf8 payload) as [u|] eqn:Eu; [|done]. apply from_utf8_some in Eu as ->. simpl. eauto.
  - split; [|done]. destruct (from_utf8 payload) as [p|] eqn:Eu; [|done]. apply from_utf8_some in Eu as ->.
    destruct He as (ru & Hru & Eru). by eapply (given_pair inp ru r).
Qed.
Lemma leads_sasl fuel tag e x s : waiting s → iv_is_tls (im_view s0) = true → exchange_given e → step_given x →
  leads (imap_sasl_loop policy clk fuel tag e x) (λ _, going) s.
Proof.
  revert e x s. induction fuel as [|fuel IH]; intros e x s Hs Htls He Hx; [apply Hs|]. cbn [imap_sasl_loop].
  destruct x as [challenge|[u p]|status text]; [|by apply leads_login|by apply leads_keeps; [apply keeps_reply|apply Hs]].
  apply leads_bind. eapply leads_mono; [by apply leads_write|]. intros _ s1 [Hs1 Hst1]. apply leads_bind, leads_bind.
  eapply leads_mono; [by apply leads_read_line|]. intros [more l] s2 (Hs2 & Hst2 & Hl). destruct more; cbn [negb]; [|exact Hs2].
  unfold leads at 1. cbn [mret M_ret]. case_bool_decide; [by apply leads_keeps; [apply keeps_reply|]|].
  destruct (advance_given e (str_trim (utf8_lossy (ImapParser.strip_crlf l)))) as [Hx' He']; [done|by right; exists l|].
  destruct (imap_advance e _) as [x' e']. apply IH; try done. split; [done|congruence].
Qed.
Lemma keeps_authenticate tag args : Forall (sent_token inp) args → keeps (steady None) (run_authenticate policy clk tag args).
Proof.
  intros Hargs. apply keeps_leads. intros s Hs. unfold leads, run_authenticate, i_get, imap_sasl_begin.
  unfold is_authenticated. case_bool_decide as Hst; cbn [negb]; [|by apply leads_keeps; [apply keeps_reply|]].
  destruct (iv_is_tls (im_view s)) eqn:Et; cbn [negb]; [|by apply leads_keeps; [apply keeps_reply|]]. rewrite (go_tls _ Hs) in Et.
  assert (∀ e t, exchange_given e → ∃ e' x, imap_begin_exchange e t (arg_str args 1) = IContinue e' x ∧ exchange_given e' ∧ step_given x) as Hb.
  { intros e t He. unfold imap_begin_exchange. destruct (arg_str args 1) as [r|] eqn:Er; [|by eexists _, _].
    apply arg_sent in Er as (tr & ? & ?); [|done]. destruct (advance_given e r) as [Hx He']; [done|by left; exists tr|].
    destruct (imap_advance e r) as [x e']. by eexists _, _. }
  destruct (match arg_str args 0 with Some name => _ | None => _ end); [| |by apply leads_keeps; [apply keeps_reply|]].
  - destruct (Hb PlainAwaitingResponse []) as (e' & x & -> & ? & ?); [done|]. by apply leads_sasl.
  - destruct (Hb LoginAwaitingUsername (b64_encode (bs "Username:"))) as (e' & x & -> & ? & ?); [done|]. by apply leads_sasl.
Qed.

(** *** Commands *)

Lemma keeps_dispatch cmd : Forall (sent_token inp) (cmd_args cmd) →
  keeps (steady None) (imap_dispatch (R := R) policy clk seconds values_order names_order cmd).
Proof.
  intros Hargs. unfold imap_dispatch. pose proof (keeps_login (cmd_tag cmd) _ Hargs). pose proof (keeps_authenticate (cmd_tag cmd) _ Hargs).
  unfold plain, when_authenticated, when_selected, enable_command, starttls_command, getquota_command, getquotaroot_command,
    status_command, lsub_command, no_reply, bad_reply, ok_reply. stay.
Qed.
Lemma leads_literals fuel tag name args resolved s : going s → Forall (sent_token inp) args → Forall (sent_token inp) resolved →
  leads (literals_loop fuel tag name args resolved)
    (λ r s', going s' ∧ match r with CrReady c => Forall (sent_token inp) (cmd_args c) | _ => True end) s.
Proof.
  revert args resolved s. induction fuel as [|fuel IH]; intros args resolved s Hs Hargs Hres; [exact Hs|]. cbn [literals_loop].
  assert (leads (mret (CrReady (mkCommand tag name (resolved ++ args))))
    (λ r s', going s' ∧ match r with CrReady c => Forall (sent_token inp) (cmd_args c) | _ => True end) s) as Hready.
  { split; [done|]. by apply Forall_app. }
  destruct (last args) as [t|]; [|done]. destruct t as [| | |len sync| |]; try done. cbv zeta. case_match.
  { apply leads_bind. eapply leads_mono; [by apply leads_keeps; [apply keeps_reply|]|]. by intros ? s1 Hs1. }
  apply leads_bind. eapply leads_mono; [apply leads_keeps; [|exact Hs]; destruct sync; [apply stays_write|apply keeps_ret, _]|]. intros ? s1 Hs1.
  apply leads_bind. eapply leads_mono; [by apply leads_read_literal|]. intros octets s2 [Hs2 Ho].
  apply leads_bind. eapply leads_mono; [by apply leads_read_line|]. intros [more l] s3 (Hs3 & _ & Hl). destruct more; cbn [negb]; [|by split].
  destruct (tokenize_args (line_fuel l) l) as [ts rest| |] eqn:Et; [| |exact Hs3].
  - apply IH; [done| |].
    + apply Forall_forall. intros tok Ht. by eapply sent_more.
    + apply Forall_app. split; [apply Forall_app; split; [done|by apply Forall_take]|]. by apply Forall_singleton, sent_literal.
  - apply leads_bind. eapply leads_mono; [by apply leads_keeps; [apply keeps_reject|]|]. by intros ? s4 Hs4.
Qed.
Lemma leads_loop fuel s : going s → leads (imap_loop (R := R) policy clk seconds values_order names_order fuel) (λ _, going) s.
Proof.
  revert s. induction fuel as [|fuel IH]; intros s Hs; [exact Hs|]. cbn [imap_loop].
  apply leads_bind. eapply leads_mono; [by apply leads_read_line|]. intros [more l] s1 (Hs1 & _ & Hl). destruct more; cbn [negb]; [|exact Hs1].
  destruct (ImapParser.parse_command (line_fuel l) l) as [c rest| |] eqn:Ep; [| |exact Hs1].
  - assert (Forall (sent_token inp) (cmd_args c)) as Hargs by (apply Forall_forall; intros t Ht; by eapply sent_argument).
    apply leads_bind. eapply (leads_mono _ (λ r s', going s' ∧ match r with CrReady c => Forall (sent_token inp) (cmd_args c) | _ => True end)).
    { unfold resolve_literals. case_match; [by split|]. by apply leads_literals. }
    intros [c'| |] s2 [Hs2 Hc']; [|by apply IH|exact Hs2].
    apply leads_bind. eapply leads_mono; [by apply leads_keeps; [apply keeps_dispatch|]|]. intros [flow|] s3 Hs3; [exact Hs3|by apply IH].
  - apply leads_bind. eapply leads_mono; [by apply leads_keeps; [apply keeps_reject|]|]. intros ? s2 Hs2. by apply IH.
Qed.
End one.

(** C3. What a connection can change.  Whatever the client sends, when the
    connection is over the stores are as they were, or the connection was under
    TLS, the client sent in it a name and a secret, by LOGIN or AUTHENTICATE,
    where the name is that of an active account and the secret opens one of its
    credentials for mail, and every key the store was asked to write since
    belongs to that account, or is the reference count of a blob. *)
Theorem imap_session_safe s s' (r : result ImapFlow) :
  iv_account (im_view s) = None →
  imap_run (R := R) policy clk seconds values_order names_order s = (r, s') →
  imap_world s' = imap_world s ∨
  ∃ a ks, entitled_to s a ∧ tr_written (imap_store s') = tr_written (imap_store s) ++ ks ∧ Forall (touches (as_u32 (ac_id a))) ks.
Proof.
  intros Ha E. assert (going s s) as Hs by (split; [done|done|by exists []|done|congruence]).
  assert (leads s (imap_run (R := R) policy clk seconds values_order names_order) (λ _, going s) s) as Hf.
  { apply leads_bind. eapply leads_mono; [apply leads_keeps; [|done]|].
    - apply keeps_get. intros s1. case_match; [apply stays_write|apply keeps_ret, steady_preorder].
    - intros ? s1 Hs1. by apply (leads_loop s _ s1). }
  assert (going s s') as Hg by (unfold leads in Hf; rewrite E in Hf; by destruct r).
  destruct (iv_account (im_view s')) as [a|] eqn:Ea; [right|left; by apply (go_before _ _ Hg)].
  destruct (go_after _ _ Hg a Ea) as (He & _ & ks & Ek & Hks). by exists a, ks.
Qed.
End safety.

(** ** A mailbox opened with EXAMINE *)

Section examine.
Context {S B R : Type} `{Store S} `{BlobStore B} `{Bitmap R} `{Unicode} `{LowerText} `{MailParser} `{MimeView} `{MailCodec} `{MailboxJson}.
Context `{DirectoryJson} `{Argon2} `{Base64}.
Context (policy : ThrottlePolicy) (clk seconds : nat → Z).
Context (values_order : gmap Z MessageCacheEntry → list MessageCacheEntry) (names_order : list bytes → list bytes).
Abbreviation P := (Imap S B).
Implicit Types (s : P).

(** The commands on the selected mailbox, but for the copies, which file in another one. *)
Definition on_mailbox (c : ImapParser.Command) : bool :=
  match from_word (cmd_name c) with
  | VFetch | VSearch | VSort | VThread | VStore | VMove | VExpunge | VClose | VUnselect | VCheck | VNoop => true
  | VUid => match (uid_subcommand (cmd_args c)).1 with UCopy => false | _ => true end
  | _ => false
  end.

(** While the mailbox is read-only nothing is written. *)
Definition untouched s s' : Prop := iv_read_only (im_view s) = true → iv_read_only (im_view s') = true ∧ imap_world s' = imap_world s.
#[local] Instance untouched_preorder : PreOrder untouched.
Proof.
  split; [by intros s|]. intros s1 s2 s3 H12 H23 Hs. destruct (H12 Hs) as [Hr2 E2]. destruct (H23 Hr2) as [Hr3 E3]. split; [done|congruence].
Qed.
Lemma untouched_stream {A} (m : M Stream A) : keeps untouched (i_stream m).
Proof. intros s Hs. unfold i_stream. by destruct (m (im_stream s)). Qed.
Lemma untouched_view f : (∀ v, iv_read_only (f v) = iv_read_only v) → keeps untouched (i_view f).
Proof. intros Hf s Hs. simpl. by rewrite Hf. Qed.
(** Where the flag decides. *)
Lemma untouched_get {A} (f : P → M P A) : (∀ s, iv_read_only (im_view s) = true → keeps untouched (f s)) → keeps untouched (i_get f).
Proof. intros Hf s Hs. by apply Hf. Qed.
Lemma untouched_try {A} (m : M P A) : keeps untouched m → keeps untouched (i_try m).
Proof. intros Hm s. specialize (Hm s). unfold i_try. by destruct (m s). Qed.
Lemma untouched_reading {A} (m : M (MailWorld S B) A) : keeps eq m → keeps untouched (i_mail m).
Proof.
  intros Hm s Hs. specialize (Hm (be_mail (im_backend s))). unfold i_mail, imap_world. destruct (m (be_mail (im_backend s))) as [r w]. by rewrite Hm.
Qed.
Lemma untouched_lines ls : keeps untouched (write_lines ls).
Proof. induction ls as [|l ls IH]; cbn [write_lines]; [apply keeps_ret, _|]. apply keeps_bind; [apply _|apply untouched_stream|done]. Qed.

(** FETCH reads when the flag may not be set. *)
Lemma fetch_reads account_id blobs notifier items uid_mode mb ranges mods :
  keeps eq (fetch_in (B := B) values_order account_id blobs notifier true items uid_mode mb ranges mods).
Proof.
  assert (∀ A (f : S → result A), keeps eq (ask_store (B := B) f)) as Hask by by intros A f w.
  unfold fetch_in. apply keeps_bind; [apply _|done|]. intros c. cbv zeta.
  apply keeps_bind; [apply _|case_match; [apply keeps_bind; [apply _|done|by intros m w]|by intros w]|]. intros modseqs.
  apply keeps_bind; [apply _|case_match; [apply keeps_bind; [apply _|done|by intros ok w]|by intros w]|]. intros floor.
  apply keeps_bind; [apply _|repeat case_match; first [done|by intros w]|]. intros gone. apply keeps_bind; [apply _| |by intros ls w].
  generalize (filter (λ x, selected_by ranges uid_mode (mailbox_members values_order mb c) x = true) (numbered (mailbox_members values_order mb c))).
  induction l as [|x l IH]; [by intros w|]. cbn [fetch_each]. destruct (match floor with Some since => _ | None => false end); [done|].
  apply keeps_bind; [apply _| |intros b; apply keeps_bind; [apply _|done|by intros ls w]].
  unfold fetch_one. destruct x as [seqno [uid e]]. apply keeps_bind; [apply _|by case_match; intros w|]. intros loaded.
  apply keeps_bind; [apply _|by intros w|]. by intros extras w.
Qed.
#[local] Hint Resolve untouched_stream untouched_lines untouched_preorder keeps_lift : hoare.

Ltac leave := repeat match goal with
  | |- ∀ _ : _, _ => intro
  | E : iv_read_only (im_view ?s) = true |- context [iv_read_only (im_view ?s)] => rewrite E
  | |- keeps _ (i_mail (ask_store _)) => by apply untouched_reading
  | |- keeps _ (i_mail (fetch_in _ _ _ _ true _ _ _ _ _)) => apply untouched_reading, fetch_reads
  | |- keeps _ (_ ≫= _) => apply keeps_bind; [apply _| |]
  | |- keeps _ (mret _) => apply keeps_ret, _
  | |- keeps _ (throw _) => apply keeps_throw, _
  | |- keeps _ (i_get _) => apply untouched_get
  | |- keeps _ (i_view _) => by apply untouched_view
  | |- keeps _ (let _ := _ in _) => cbv zeta
  | |- keeps _ (if true then _ else _) => cbv iota
  | |- keeps _ _ => solve [auto with hoare nocore]
  | |- keeps _ (match _ with _ => _ end) => case_match
  end.
Ltac open_replies := unfold with_charset, with_criteria, refuse_read_only, refuse_charset, no_reply, bad_reply, ok_reply, reply, i_write.

Lemma untouched_fetch tag args uid_mode : keeps untouched (run_fetch values_order tag args uid_mode).
Proof. unfold run_fetch, fetch_lines. open_replies. leave. Qed.
Lemma untouched_search tag args uid_mode : keeps untouched (run_search (R := R) values_order tag args uid_mode).
Proof. unfold run_search. open_replies. leave. Qed.
Lemma untouched_sort tag args uid_mode : keeps untouched (run_sort (R := R) values_order tag args uid_mode).
Proof. unfold run_sort. open_replies. leave. Qed.
Lemma untouched_thread tag args uid_mode : keeps untouched (run_thread (R := R) values_order tag args uid_mode).
Proof. unfold run_thread. open_replies. leave. Qed.
#[local] Hint Resolve untouched_fetch untouched_search untouched_sort untouched_thread : hoare.

(** C39. A mailbox opened with EXAMINE is read-only: none of the commands that
    work on the selected mailbox, by number or by uid, changes the store or
    the blobs, whatever their arguments; fetching a body does not set \Seen
    and closing does not expunge. *)
Theorem examine_read_only s (c : ImapParser.Command) :
  iv_read_only (im_view s) = true → on_mailbox c = true →
  imap_world (imap_dispatch (R := R) policy clk seconds values_order names_order c s).2 = imap_world s.
Proof.
  intros Hs Hc. enough (keeps untouched (imap_dispatch (R := R) policy clk seconds values_order names_order c)) as Hk by by apply Hk.
  unfold on_mailbox in Hc. unfold imap_dispatch.
  destruct (from_word (cmd_name c)); try done; unfold plain, when_selected, store_command, move_command, expunge_command, close_command,
    uid_command_run, uid_expunge_command, store_command, move_command, push_new_mail; open_replies.
  all: try (destruct (uid_subcommand (cmd_args c)) as [[] rest]; try done). all: leave.
Qed.
End examine.
