(* ===== verification/ImapTermination.v ===== *)
(** * IMAP: the loops stop (crates/imap/src/session.rs)

    Each loop of the session takes input in every turn it goes on, so the turns
    it is given, one more than there is input left, are enough. *)

From S2P Require Import Prelude Bytes Key Store ChangeLog Quota Text Fts Ttl QueueModel QueueStore QueueDeliver SmtpVerdict SmtpCommands SmtpSubmit SmtpSession SmtpSafety Blobs MailParser Sieve MailModel MailMessage MailStore MailRep MailFile MailCache MailAdmin Directory Login Pop3Commands Pop3 ImapParser ImapSequence ImapDate ImapFetch ImapEnvelope ImapCommands ImapSearch ImapMail ImapSession.
From stdpp Require Import base gmap list strings sorting.
From Stdlib Require Import ZArith Lia.

Open Scope Z_scope.

(** ** Reading *)

Lemma imap_read_go_length e inp buf : (length (imap_read_go e inp buf).2 ≤ length inp)%nat ∧
  ∀ more l, (imap_read_go e inp buf).1 = Ok (more, l) → (more = true ∧ buf = []) ∨ (l ≠ [] ∧ buf = []) → (length (imap_read_go e inp buf).2 < length inp)%nat.
Proof.
  assert (∀ inp buf, (length (imap_read_go e inp buf).2 ≤ length inp)%nat) as Hle.
  { clear. intros inp. induction inp as [|b inp IH]; intros buf; cbn [imap_read_go]; [done|].
    repeat case_match; simpl; [lia|lia|]. specialize (IH (buf ++ [b])). lia. }
  split; [apply Hle|]. intros more l. destruct inp as [|b inp]; cbn [imap_read_go].
  - destruct e; [done|]. intros [= <- <-] [[? ->]|[? ->]]; done.
  - specialize (Hle inp (buf ++ [b])). repeat case_match; simpl; lia.
Qed.
Lemma consumes_imap_read : consumes imap_read_st.
Proof.
  intros st. unfold imap_read_st. pose proof (imap_read_go_length (at_end st) (input st) []) as [Hle _].
  by destruct (imap_read_go _ _ _).
Qed.
Lemma imap_read_consumes st more l st' : imap_read_st st = (Ok (more, l), st') → more = true ∨ l ≠ [] → (length (input st') < length (input st))%nat.
Proof.
  unfold imap_read_st. destruct (imap_read_go_length (at_end st) (input st) []) as [_ Hlt].
  destruct (imap_read_go _ _ _) as [r rest]. intros [= -> <-] Hl. apply (Hlt more l); [done|]. naive_solver.
Qed.
Lemma consumes_literal n : consumes (read_literal_st n).
Proof. intros st. unfold read_literal_st. case_match; simpl; [lia|]. rewrite length_drop. lia. Qed.

Section termination.
Context {S B R : Type} `{Store S} `{BlobStore B} `{Bitmap R} `{Unicode} `{LowerText} `{MailParser} `{MimeView} `{MailCodec} `{MailboxJson}.
Context `{DirectoryJson} `{Argon2} `{Base64}.
Context (policy : ThrottlePolicy) (clk seconds : nat → Z).
Context (values_order : gmap Z MessageCacheEntry → list MessageCacheEntry) (names_order : list bytes → list bytes).
Abbreviation P := (Imap S B).
Implicit Types (s : P).

Definition left_of s : nat := length (input (im_stream s)).
(** No call puts input back, nor a wake. *)
Definition spends s s' : Prop := (left_of s' ≤ left_of s)%nat ∧ (length (im_wakes s') ≤ length (im_wakes s))%nat.
#[local] Instance spends_preorder : PreOrder spends.
Proof. unfold spends. split; [intros s; split; lia|]. intros s1 s2 s3 [] []. split; lia. Qed.

Lemma spends_same s s' : im_stream s' = im_stream s → im_wakes s' = im_wakes s → spends s s'.
Proof. unfold spends, left_of. intros -> ->. split; lia. Qed.
Lemma spends_stream {A} (m : M Stream A) : consumes m → keeps spends (i_stream m).
Proof. intros Hm s. unfold i_stream. specialize (Hm (im_stream s)). destruct (m (im_stream s)). split; [done|apply Nat.le_refl]. Qed.
Lemma spends_view f : keeps spends (i_view f).
Proof. intros s. by apply spends_same. Qed.
Lemma spends_mail {A} (m : M (MailWorld S B) A) : keeps spends (i_mail m).
Proof. intros s. unfold i_mail. destruct (m _). by apply spends_same. Qed.
Lemma spends_try {A} (m : M P A) : keeps spends m → keeps spends (i_try m).
Proof. intros Hm s. specialize (Hm s). unfold i_try. by destruct (m s). Qed.
Lemma spends_time : keeps spends (i_time seconds).
Proof. intros s. by apply spends_same. Qed.
Lemma spends_get {A} (f : P → M P A) : (∀ s, keeps spends (f s)) → keeps spends (i_get f).
Proof. intros Hf s. apply Hf. Qed.
Lemma spends_lift {A} (r : result A) : keeps spends (lift r).
Proof. intros s. reflexivity. Qed.
Lemma spends_wakes : keeps spends ((λ s, (Ok tt, i_set_wakes (tail (im_wakes s)) s)) : M P unit).
Proof. intros s. split; [apply Nat.le_refl|]. simpl. destruct (im_wakes s); simpl; lia. Qed.
Lemma spends_resolve c : keeps spends (imap_resolve_login policy clk c).
Proof. intros s. unfold imap_resolve_login. repeat case_match; by apply spends_same. Qed.
Lemma spends_write b : keeps spends (i_write b).
Proof. apply spends_stream, consumes_write. Qed.
Lemma spends_read_line : keeps spends i_read_line.
Proof. apply spends_stream, consumes_imap_read. Qed.
Lemma spends_literal n : keeps spends (i_read_literal n).
Proof. apply spends_stream, consumes_literal. Qed.
#[local] Hint Resolve spends_view spends_mail spends_time spends_lift spends_wakes spends_resolve spends_write spends_read_line spends_literal
  spends_preorder : hoare.

Ltac spend := repeat match goal with
  | |- ∀ _ : _, _ => intro
  | |- keeps _ (_ ≫= _) => apply keeps_bind; [apply _| |]
  | |- keeps _ (mret _) => apply keeps_ret, _
  | |- keeps _ (throw _) => apply keeps_throw, _
  | |- keeps _ (i_get _) => apply spends_get
  | |- keeps _ (i_try _) => apply spends_try
  | |- keeps _ (let _ := _ in _) => cbv zeta
  | |- keeps _ _ => solve [auto with hoare nocore]
  | |- keeps _ (match _ with _ => _ end) => case_match
  end.
Ltac open_methods := unfold plain, when_authenticated, when_selected, enable_command, starttls_command, getquota_command, getquotaroot_command,
  status_command, lsub_command, select_command, subscribe_command, unsubscribe_command, run_create, run_delete, run_rename, run_list,
  run_login, run_authenticate, login_outcome, run_search, run_sort, run_thread, run_fetch, fetch_lines, uid_command_run, store_command, run_store,
  apply_store, run_copy, copy_apply, move_command, apply_expunge, expunge_command, uid_expunge_command, close_command,
  run_append, append_failed, refuse_date, append_one, drain_appends, run_idle, push_new_mail, i_read_auth_response, tokens_of, scanned, reject,
  with_charset, with_criteria, refuse_read_only, refuse_charset, no_reply, bad_reply, ok_reply, reply.

Lemma spends_lines ls : keeps spends (write_lines ls).
Proof. induction ls as [|l ls IH]; cbn [write_lines]; spend. Qed.
Lemma spends_sasl fuel tag e x : keeps spends (imap_sasl_loop policy clk fuel tag e x).
Proof. revert e x. induction fuel as [|fuel IH]; intros e x; cbn [imap_sasl_loop]; open_methods; spend. Qed.
Lemma spends_list_mailboxes all l combined subscribed status ms : keeps spends (list_mailboxes values_order all l combined subscribed status ms).
Proof. induction ms as [|m ms IH]; cbn [list_mailboxes]; spend. Qed.
Lemma spends_idle_loop fuel subscribed : keeps spends (idle_loop values_order fuel subscribed).
Proof. revert subscribed. induction fuel as [|fuel IH]; intros subscribed; cbn [idle_loop]; open_methods; spend. Qed.
Lemma spends_drain_loop fuel l : keeps spends (drain_loop fuel l).
Proof. revert l. induction fuel as [|fuel IH]; intros l; cbn [drain_loop]; open_methods; spend. Qed.
#[local] Hint Resolve spends_lines spends_sasl spends_list_mailboxes spends_idle_loop spends_drain_loop : hoare.
Lemma spends_append_loop fuel tag m g uids : keeps spends (append_loop (R := R) seconds fuel tag m g uids).
Proof. revert g uids. induction fuel as [|fuel IH]; intros g uids; cbn [append_loop]; open_methods; spend. Qed.
Lemma spends_literals_loop fuel tag name args resolved : keeps spends (literals_loop fuel tag name args resolved).
Proof. revert args resolved. induction fuel as [|fuel IH]; intros args resolved; cbn [literals_loop]; open_methods; spend. Qed.
#[local] Hint Resolve spends_append_loop spends_literals_loop : hoare.
Lemma spends_dispatch c : keeps spends (imap_dispatch (R := R) policy clk seconds values_order names_order c).
Proof. unfold imap_dispatch. do 3 open_methods. spend. Qed.
Lemma spends_resolve_literals c : keeps spends (resolve_literals c).
Proof. unfold resolve_literals. spend. Qed.

(** *** Enough turns *)

(** A line that was read, or text of one, has taken input. *)
Lemma read_line_spends s more l s' : i_read_line s = (Ok (more, l), s') → more = true ∨ l ≠ [] →
  (left_of s' < left_of s)%nat ∧ im_wakes s' = im_wakes s.
Proof.
  unfold i_read_line, i_stream. destruct (imap_read_st (im_stream s)) as [r st] eqn:E. intros [= -> <-] Hl. split; [|done].
  by eapply imap_read_consumes.
Qed.
Lemma spent {A} (m : M P A) s r s' : keeps spends m → m s = (r, s') → (left_of s' ≤ left_of s)%nat.
Proof. intros Hm E. specialize (Hm s). rewrite E in Hm. apply Hm. Qed.

Lemma literals_enough fuel fuel' tag name args resolved s : (left_of s < fuel)%nat → (left_of s < fuel')%nat →
  literals_loop fuel tag name args resolved s = literals_loop fuel' tag name args resolved s.
Proof.
  revert fuel' args resolved s. induction fuel as [|fuel IH]; intros fuel' args resolved s Hf Hf'; [lia|]. destruct fuel' as [|fuel']; [lia|].
  cbn [literals_loop]. destruct (last args) as [[| | |len sync| |]|]; try done. cbv zeta. case_match; [done|].
  apply bind_ext. intros ? s1 E1. apply bind_ext. intros octets s2 E2. apply bind_ext. intros [[] l] s3 E3; [|done]. cbn [negb].
  apply spent in E1; [|destruct sync; [apply spends_write|apply keeps_ret, _]]. apply spent in E2; [|apply spends_literal].
  apply read_line_spends in E3 as [? _]; [|by left]. case_match; [|done|done]. apply IH; lia.
Qed.
Lemma drain_enough fuel fuel' l s : (left_of s < fuel)%nat → (left_of s < fuel')%nat → drain_loop fuel l s = drain_loop fuel' l s.
Proof.
  revert fuel' l s. induction fuel as [|fuel IH]; intros fuel' l s Hf Hf'; [lia|]. destruct fuel' as [|fuel']; [lia|].
  cbn [drain_loop]. apply bind_ext. intros tokens s1 E1. apply spent in E1; [|open_methods; spend].
  destruct (tokens ≫= last) as [[| | |len sync| |]|]; try done. case_match; [done|].
  apply bind_ext. intros octets s2 E2. apply spent in E2; [|apply spends_literal]. apply bind_ext. intros [[] l'] s3 E3; [|done].
  apply read_line_spends in E3 as [? _]; [|by left]. apply IH; lia.
Qed.
(** A line without text announces nothing. *)
Lemma continuation_of_nothing : tokenize_args (line_fuel []) [] = Scanned [] [].
Proof. done. Qed.
Lemma append_enough fuel fuel' tag m g uids s : (left_of s < fuel)%nat → (left_of s < fuel')%nat →
  append_loop (R := R) seconds fuel tag m g uids s = append_loop (R := R) seconds fuel' tag m g uids s.
Proof.
  revert fuel' g uids s. induction fuel as [|fuel IH]; intros fuel' g uids s Hf Hf'; [lia|]. destruct fuel' as [|fuel']; [lia|].
  cbn [append_loop]. case_match; [done|]. apply bind_ext. intros ? s1 E1. apply spent in E1; [|case_match; [apply spends_write|apply keeps_ret, _]].
  apply bind_ext. intros message s2 E2. apply spent in E2; [|apply spends_literal].
  apply bind_ext. intros outcome s3 E3. apply spent in E3; [|open_methods; spend]. destruct outcome as [uid| |]; [|done|done]. cbv zeta.
  apply bind_ext. intros [more trailing] s4 E4. apply bind_ext. intros tokens s5 E5. pose proof (spent _ _ _ _ spends_read_line E4) as Hs4.
  destruct (parse_continuation (default [] tokens)) as [|g'|] eqn:Ec; [done| |done].
  assert (trailing ≠ []) as Hl.
  { intros ->. revert E5 Ec. unfold tokens_of. rewrite continuation_of_nothing. by intros [= <- _]. }
  apply read_line_spends in E4 as [? _]; [|by right]. apply spent in E5; [|open_methods; spend]. apply IH; lia.
Qed.
Lemma idle_enough fuel fuel' subscribed s : (left_of s + length (im_wakes s) < fuel)%nat → (left_of s + length (im_wakes s) < fuel')%nat →
  idle_loop values_order fuel subscribed s = idle_loop values_order fuel' subscribed s.
Proof.
  revert fuel' subscribed s. induction fuel as [|fuel IH]; intros fuel' subscribed s Hf Hf'; [lia|]. destruct fuel' as [|fuel']; [lia|].
  cbn [idle_loop]. unfold i_get. cbv zeta.
  assert (∀ s1, (left_of s1 ≤ left_of s)%nat → (length (im_wakes s1) < length (im_wakes s))%nat → ∀ b,
    idle_loop values_order fuel b s1 = idle_loop values_order fuel' b s1) as Hwake by (intros; apply IH; lia).
  assert (∀ s1, spends s s1 → ('(more, l) ← i_read_line; if negb more then mret (Some FlClose)
     else if idle_done l then mret None else idle_loop values_order fuel subscribed) s1
   = ('(more, l) ← i_read_line; if negb more then mret (Some FlClose)
     else if idle_done l then mret None else idle_loop values_order fuel' subscribed) s1) as Hread.
  { intros s1 [? ?]. apply bind_ext. intros [[] l] s2 E; [|done]. cbn [negb]. case_match; [done|].
    apply read_line_spends in E as [? Ewk]; [|by left]. apply IH; rewrite ?Ewk; lia. }
  apply bind_ext. intros ? s1 [= _ <-]. destruct (im_wakes s) as [|[w|] wakes] eqn:Ew; [by apply Hread, spends_same| |
    by apply Hread; split; [apply Nat.le_refl|simpl; rewrite Ew; simpl; lia]].
  assert (∀ b, idle_loop values_order fuel b (i_set_wakes wakes s) = idle_loop values_order fuel' b (i_set_wakes wakes s)) as Hb.
  { apply Hwake; [done|simpl; lia]. }
  assert (∀ b, (_ ← push_new_mail values_order; idle_loop values_order fuel b) (i_set_wakes wakes s)
   = (_ ← push_new_mail values_order; idle_loop values_order fuel' b) (i_set_wakes wakes s)) as Hp.
  { intros b. apply bind_ext. intros ? s2 E. assert (keeps spends (push_new_mail values_order)) as Hk by (open_methods; spend).
    specialize (Hk (i_set_wakes wakes s)). rewrite E in Hk. destruct Hk as [Hl Hw]. simpl in Hl, Hw. apply Hwake; [done|simpl; lia]. }
  assert (spends s (i_set_wakes wakes s)) as Hsp by (split; [apply Nat.le_refl|simpl; rewrite Ew; simpl; lia]).
  destruct w as [[[]|]| |], subscribed; first [by apply Hp|by apply Hb|by apply Hread|done].
Qed.
Lemma imap_loop_enough fuel fuel' s : (left_of s < fuel)%nat → (left_of s < fuel')%nat →
  imap_loop (R := R) policy clk seconds values_order names_order fuel s = imap_loop (R := R) policy clk seconds values_order names_order fuel' s.
Proof.
  revert fuel' s. induction fuel as [|fuel IH]; intros fuel' s Hf Hf'; [lia|]. destruct fuel' as [|fuel']; [lia|].
  cbn [imap_loop]. apply bind_ext. intros [[] l] s1 E1; [|done]. cbn [negb]. apply read_line_spends in E1 as [? _]; [|by left].
  case_match; [| |done].
  - apply bind_ext. intros read s2 E2. apply spent in E2; [|apply spends_resolve_literals]. destruct read as [c| |]; [|apply IH; lia|done].
    apply bind_ext. intros [flow|] s3 E3; [done|]. apply spent in E3; [|apply spends_dispatch]. apply IH; lia.
  - apply bind_ext. intros ? s2 E2. apply spent in E2; [|open_methods; spend]. apply IH; lia.
Qed.

End termination.
