(* ===== verification/ImapDemo.v ===== *)
(** * IMAP: the theorems at work

    Commands on the account of the mail demonstration, whole connections to a
    server in memory, and two things clients would not expect: the contents of
    a message that run as commands, and uids that are given twice. *)

From S2P Require Import Prelude Bytes Key Store ChangeLog Quota Text Fts Ttl QueueModel QueueStore QueueDeliver SmtpVerdict SmtpCommands SmtpSubmit SmtpSession Blobs MailParser Sieve MailModel MailMessage MailStore MailRep MailFile MailRemove MailHistory MailCache MailAdmin MailDemo Directory DirectoryHistory Login DirectoryDemo Pop3Commands Pop3 Pop3Safety Pop3Maildrop ImapParser ImapSequence ImapDate ImapFetch ImapEnvelope ImapCommands ImapSearch ImapMail ImapExpunge ImapCopy ImapStore ImapSession Footprint ImapSafety.
From stdpp Require Import base gmap list sorting strings.
From Stdlib Require Import ZArith Lia.

Open Scope Z_scope.
Import SetBitmap Demo DirectoryInstances.

(** ** Instances *)

#[global] Instance plain_view : MimeView := {|
  msg_date_rfc822 _ := None; msg_sender _ := None; msg_reply_to _ := None; raw_message _ := []; content_type _ := None;
  content_id _ := None; content_description _ := None; content_transfer_encoding _ := None; content_disposition _ := None;
  content_language _ := None; content_location _ := None |}.
#[global] Instance ascii_lower : LowerText := {| str_lowercase := to_ascii_lowercase |}.
Definition role_code (u : SpecialUse) : Z :=
  match u with UseNone => 0 | UseInbox => 1 | UseSent => 2 | UseDrafts => 3 | UseTrash => 4 | UseJunk => 5 | UseArchive => 6 end.
Definition role_of (z : Z) : SpecialUse :=
  match z with 1 => UseInbox | 2 => UseSent | 3 => UseDrafts | 4 => UseTrash | 5 => UseJunk | 6 => UseArchive | _ => UseNone end.
#[global] Instance plain_rows : MailboxJson := {|
  mailbox_to_json m := mb_id m :: mb_uid_validity m :: role_code (mb_role m) :: mb_name m;
  mailbox_of_json b := match b with i :: v :: r :: n => inr (mkMailbox i n (role_of r) v) | _ => inl "row"%string end |}.

(** ** Commands on one message *)

Definition entry_one (x : Stored) : member := (1, from_data 1 (st_data x)).
Lemma members_one x : mailboxes (st_data x) = [mkMailboxUid 1 1] → members_at {[ 1 := x ]} 1 [entry_one x].
Proof.
  intros Hm. split.
  - intros uid e. unfold member_of, entry_one. rewrite list_elem_of_singleton. split.
    + intros [= -> ->]. exists x. rewrite lookup_singleton_eq, Hm. split; [reflexivity|]. split; [apply list_elem_of_here|reflexivity].
    + intros (y & [<- <-]%lookup_singleton_Some & Hin & ->). rewrite Hm in Hin. apply list_elem_of_singleton in Hin. injection Hin as ->. reflexivity.
  - repeat constructor.
  - apply NoDup_singleton.
Qed.
Lemma cost_one x : mailboxes (st_data x) = [mkMailboxUid 1 1] → members_cost [entry_one x] = 2%nat.
Proof. intros Hm. unfold members_cost, entry_one. simpl. by rewrite Hm. Qed.
(** All messages, by their numbers. *)
Definition all_of : list SeqRange := [mkSeq (Num 1) Star].

(** Messages with a word. *)
Lemma imap_search_exact_witness :
  search_mailbox (R := gset Z) demo_order 7 (mw_store demo_one) (Some (mw_blobs demo_one)) 1 [] (KText (bs "hello")) false
    = Ok (mkOutcomeOf [1] [1] None) ∧
  ∃ docs members i m, members_at docs 1 members ∧ members !! i = Some m ∧ holds docs members None [] (KText (bs "hello")) i m.
Proof.
  destruct bob_at_one as (x & Hw & Hraw & Hm).
  destruct (imap_search_exact (R := gset Z) demo_order 7 no_others demo_one {[ 1 := x ]} 1 [] (KText (bs "hello")) false ∅ ltac:(width)
    (λ _, reflexivity _) Hw demo_byte_keys ltac:(by vm_compute) ltac:(done)) as (members & out & Hms & E & _ & Hids & _).
  assert (search_mailbox (R := gset Z) demo_order 7 (mw_store demo_one) (Some (mw_blobs demo_one)) 1 [] (KText (bs "hello")) false
    = Ok (mkOutcomeOf [1] [1] None)) as E' by (vm_compute; reflexivity).
  split; [exact E'|]. rewrite E' in E. injection E as <-.
  destruct (proj1 (Hids eq_refl 1) (list_elem_of_here _ _)) as (i & m & _ & Hi & Hh). exists {[ 1 := x ]}, members, i, m. split; [exact Hms|].
  split; [exact Hi|exact Hh].
Defined.
Lemma demo_counter_one : counter_at (view (mw_store demo_one)) 7 Email 2.
Proof. by vm_compute. Qed.

(** The message is marked. *)
Definition mark_op : StoreOp := mkStoreOp StAdd false [bs "\Deleted"].

(** It is copied into a second mailbox, or moved there. *)
Definition demo_archive : Mailbox := mkMailbox 9 (bs "Archive") UseArchive 1.
Lemma copy_refines_witness :
  ∃ x r w' docs', members_at {[ 1 := x ]} 1 [entry_one x] ∧ demo_at w' docs' ∧
    copy_in demo_order 7 1 demo_archive all_of false true demo_one = (Ok r, w') ∧ cr_src_uids r = [1] ∧
    ∃ numbers, cr_expunges r = expunge_line <$> numbers ∧ members_at docs' 1 (client_removes numbers [entry_one x]).
Proof.
  destruct bob_at_one as (x & Hw & Hraw & Hm).
  destruct (copy_refines (R := gset Z) 7 demo_order (λ _, reflexivity _) no_others demo_one {[ 1 := x ]} 1 demo_archive [entry_one x] all_of
    false true 2 0 Hw demo_byte_keys (members_one x Hm)) as (r & w' & docs' & E & Hw' & Hsrc & _ & Hnum).
  - by vm_compute.
  - split; width.
  - discriminate.
  - split; [by vm_compute|lia].
  - by vm_compute.
  - exact demo_counter_one.
  - rewrite (cost_one x Hm). by vm_compute.
  - exists x, r, w', docs'. split; [exact (members_one x Hm)|]. split; [exact Hw'|]. split; [exact E|]. split; [exact Hsrc|exact Hnum].
Defined.

(** A message that is marked goes. *)
Definition mark_deleted (data : MessageData) : result MessageData := Ok (add_keyword Deleted data).2.
Definition demo_marked : demo_world := first (update_message 7 1 mark_deleted) demo_one.
Lemma demo_marked_at : ∃ y, demo_at demo_marked {[ 1 := y ]} ∧ mailboxes (st_data y) = [mkMailboxUid 1 1] ∧ Deleted ∈ keywords (st_data y).
Proof.
  destruct bob_at_one as (x & Hw & Hraw & Hm). pose proof Hw as (_ & _ & Hrep).
  destruct (update_message_spec (R := gset Z) 7 no_others demo_one {[ 1 := x ]} 1 x mark_deleted _ Hw (lookup_singleton_eq _ _) eq_refl)
    as (w' & E & Hw' & _).
  { eapply change_ok_fewer; [exact Hrep|apply lookup_singleton_eq|by unfold add_keyword; case_match|by unfold add_keyword; case_match|].
    intros n Hn. rewrite Hm. unfold counter_at in Hn. vm_compute in Hn. injection Hn as <-. by vm_compute. }
  assert (w' = demo_marked) as -> by (unfold demo_marked, first; by rewrite E).
  rewrite insert_singleton_eq in Hw'. eexists. split; [exact Hw'|]. simpl. unfold add_keyword, has_keyword. case_bool_decide; simpl; [by split|].
  split; [exact Hm|]. apply elem_of_app. right. apply list_elem_of_here.
Qed.
Lemma expunge_refines_witness :
  ∃ y lines w', expunge_in (R := gset Z) demo_order 7 1 None false demo_marked = (Ok lines, w') ∧
    demo_at w' (expunge_docs 1 (named_by None [entry_one y]) {[ 1 := y ]}) ∧ doomed_in 1 (named_by None [entry_one y]) y = true ∧
    lines = [expunge_line 1].
Proof.
  destruct demo_marked_at as (y & Hw & Hm & Hk).
  destruct (expunge_refines (R := gset Z) demo_digest 7 ltac:(width) demo_order (λ _, reflexivity _) no_others demo_marked {[ 1 := y ]} 1 [entry_one y]
    None false 3 Hw demo_nonneg) as (lines & w' & E & Hw' & _).
  - apply byte_keys_by_check. by vm_compute.
  - exact (members_one y Hm).
  - by vm_compute.
  - by vm_compute.
  - rewrite (cost_one y Hm). by vm_compute.
  - exists y, lines, w'. split; [exact E|]. split; [exact Hw'|].
    assert ((expunge_in (R := gset Z) demo_order 7 1 None false demo_marked).1 = Ok [expunge_line 1]) as El by (vm_compute; reflexivity).
    rewrite E in El. injection El as El. split; [|exact El]. unfold doomed_in, named_by. rewrite Hm. simpl.
    apply andb_true_iff. split; [|reflexivity]. apply bool_decide_true. exact Hk.
Defined.

(** A section of a part: a multipart message whose second part is a message. *)
Lemma body_section_exact_witness :
  let inner := mkParsed [mkPart [] 0 0 5 EncNone PtText] in
  let m := mkParsed [mkPart [] 0 2 40 EncNone (PtMultipart [1; 2]); mkPart [] 2 4 9 EncNone PtText; mkPart [] 9 11 16 EncNone (PtMessage inner)] in
  let body := mkBody (bs "h-h-alpham-innerrest") [] [] (flatten m) in
  resolve_section body (mkFetchSection [1] SecFull) = Some (bs "alpha") ∧ resolve_section body (mkFetchSection [2] SecText) = Some (bs "inner").
Proof.
  intros inner m body.
  destruct (body_section_exact m (bs "h-h-alpham-innerrest") [] [] [1]) as (E1 & _); [by vm_compute|by vm_compute|by vm_compute|discriminate|].
  destruct (body_section_exact m (bs "h-h-alpham-innerrest") [] [] [2]) as (_ & _ & E2); [by vm_compute|by vm_compute|by vm_compute|discriminate|].
  split; [unfold body; rewrite E1; by vm_compute|].
  destruct (E2 (mkPart [] 9 11 16 EncNone (PtMessage inner)) 0 inner (mkPart [] 0 0 5 EncNone PtText)) as [_ E]; [by vm_compute|reflexivity|reflexivity|by vm_compute|].
  unfold body. rewrite E. by vm_compute.
Defined.

(** ** Connections *)

(** The server of the POP3 demonstration, with its store noting what it writes. *)
Definition noted : MailWorld (Traced MemStore) MemBlobs := mkWorld (mkTraced (mw_store served) []) (mw_blobs served) (mw_notices served).
Definition calling {S} (input : bytes) (w : MailWorld S MemBlobs) : Imap S MemBlobs :=
  imap_with_tls (imap_new (mkStream input None [] []) (bs "192.0.2.1") [] (mkBackend w (mkThrottle ∅ 0))).
Abbreviation serve := (imap_run (R := gset Z) (B := MemBlobs) default_policy Z.of_nat Z.of_nat demo_order (λ l, l)).
Definition session_one : bytes := line "a LOGIN bob@example.org secret" ++ line "b CREATE Work" ++ line "c LOGOUT".
Definition done_one : result ImapFlow * Imap (Traced MemStore) MemBlobs := serve (calling session_one noted).
Lemma done_one_run : serve (calling session_one noted) = (done_one.1, done_one.2).
Proof. unfold done_one. apply surjective_pairing. Qed.
Lemma done_one_wrote : length (tr_written (imap_store done_one.2)) = 5%nat.
Proof. vm_compute. reflexivity. Qed.

Lemma imap_session_safe_witness :
  ∃ a ks, entitled_to (calling session_one noted) a ∧ tr_written (imap_store done_one.2) = ks ∧ Forall (touches (as_u32 (ac_id a))) ks ∧ length ks = 5%nat.
Proof.
  destruct (imap_session_safe (R := gset Z) default_policy Z.of_nat Z.of_nat demo_order (λ l, l) (calling session_one noted) done_one.2 done_one.1
    eq_refl done_one_run) as [Hw|(a & ks & He & Ek & Hks)].
  - exfalso. pose proof done_one_wrote as Hlen. unfold imap_store in Hlen. rewrite Hw in Hlen. vm_compute in Hlen. discriminate Hlen.
  - exists a, ks. split; [exact He|]. split; [exact Ek|]. split; [exact Hks|]. pose proof done_one_wrote as Hlen. rewrite Ek in Hlen. exact Hlen.
Defined.

(** The inbox, opened with EXAMINE: a body is fetched and stays unseen. *)
Definition examining (w : demo_world) : Imap MemStore MemBlobs :=
  mkImap (mkStream [] None [] []) [] true true true true [] 0
    (mkImapView Selected (Some (bs "bob@example.org")) (Some (bs "INBOX")) true (Some bob) (Some 1) true false false None) (mkBackend w (mkThrottle ∅ 0)).
Lemma examine_read_only_witness :
  imap_world (imap_dispatch (R := gset Z) default_policy Z.of_nat Z.of_nat demo_order (λ l, l)
    (mkCommand (bs "a") (bs "FETCH") [TAtom (bs "1"); TAtom (bs "BODY[]")]) (examining served)).2 = served.
Proof.
  exact (examine_read_only (R := gset Z) default_policy Z.of_nat Z.of_nat demo_order (λ l, l) (examining served)
    (mkCommand (bs "a") (bs "FETCH") [TAtom (bs "1"); TAtom (bs "BODY[]")]) eq_refl eq_refl).
Defined.

(** ** Findings *)

Definition answers (input : bytes) : bytes := output (im_stream (serve (calling input served)).2).
Definition opening : bytes := answers (line "a LOGIN bob@example.org secret" ++ line "b CREATE Work").

(** The text of a message runs as commands.  A client that sends two
    messages with APPEND, without waiting, to a mailbox that does not exist is
    refused; only the first message is read away, and the lines of the second
    are taken for commands: here they delete a mailbox. *)
Theorem append_contents_run :
  answers (line "a LOGIN bob@example.org secret" ++ line "b CREATE Work"
    ++ line "c APPEND Missing {5+}" ++ bs "first" ++ line " {15+}" ++ line "d DELETE Work" ++ line "")
  = opening ++ line "c NO [TRYCREATE] mailbox does not exist" ++ line "d OK DELETE completed" ++ line "* BAD empty command line".
Proof. vm_compute. reflexivity. Qed.

(** A uid names two messages.  When a mailbox is deleted and created again
    under its name, the new one has the UIDVALIDITY of the old one and its uids
    start at 1 again: a client that kept the first message finds the second
    under its uid. *)
Theorem uid_given_twice :
  answers (line "a LOGIN bob@example.org secret" ++ line "b CREATE Work"
    ++ line "c APPEND Work {3+}" ++ line "one" ++ line "d DELETE Work" ++ line "e CREATE Work" ++ line "f APPEND Work {3+}" ++ line "two")
  = opening ++ line "c OK [APPENDUID 1704067200 1] APPEND completed" ++ line "d OK DELETE completed" ++ line "e OK CREATE completed"
    ++ line "f OK [APPENDUID 1704067200 1] APPEND completed".
Proof. vm_compute. reflexivity. Qed.
