(* ===== verification/DavXml.v ===== *)
(** * The XML of CalDAV and CardDAV (crates/dav/src/proto/)

    Property names, the bodies of requests and the text of replies.  The reader
    of quick-xml is a parameter: the events it reads from a body, with the
    namespaces resolved.  Why a body is refused is not kept, since the handlers
    only ask whether it was understood. *)

From S2P Require Import Prelude Bytes Text.
From stdpp Require Import base gmap list strings.
From Stdlib Require Import ZArith Lia.

Open Scope Z_scope.

(** ** element.rs *)

Definition NS_DAV : bytes := bs "DAV:".
Definition NS_CALDAV : bytes := bs "urn:ietf:params:xml:ns:caldav".
Definition NS_CARDDAV : bytes := bs "urn:ietf:params:xml:ns:carddav".
Definition NS_CALENDARSERVER : bytes := bs "http://calendarserver.org/ns/".
Definition NS_APPLE_ICAL : bytes := bs "http://apple.com/ns/ical/".

Inductive Namespace : Type := NsDav | NsCalDav | NsCardDav | NsCalendarServer | NsAppleICal | NsOther (uri : bytes).
#[global] Instance Namespace_eq_dec : EqDecision Namespace.
Proof. solve_decision. Defined.
Definition ns_uri (n : Namespace) : bytes :=
  match n with
  | NsDav => NS_DAV | NsCalDav => NS_CALDAV | NsCardDav => NS_CARDDAV | NsCalendarServer => NS_CALENDARSERVER | NsAppleICal => NS_APPLE_ICAL
  | NsOther uri => uri
  end.
Definition from_uri (uri : bytes) : Namespace :=
  if bool_decide (uri = NS_DAV) then NsDav
  else if bool_decide (uri = NS_CALDAV) then NsCalDav
  else if bool_decide (uri = NS_CARDDAV) then NsCardDav
  else if bool_decide (uri = NS_CALENDARSERVER) then NsCalendarServer
  else if bool_decide (uri = NS_APPLE_ICAL) then NsAppleICal
  else NsOther uri.

Record PropName : Type := mkProp { pn_ns : Namespace; pn_name : bytes }.
#[global] Instance PropName_eq_dec : EqDecision PropName.
Proof. solve_decision. Defined.
(** [PropName::is]. *)
Definition is_prop (p : PropName) (ns : Namespace) (name : string) : bool := bool_decide (pn_ns p = ns) && bool_decide (pn_name p = bs name).

(** ** request.rs: the tree *)

(** The events of quick-xml.  The text of an event is [None] when it does not
    decode, an attribute when it is malformed. *)
Record XmlAttr : Type := mkAttr { xa_qname : bytes; xa_local : bytes; xa_value : option bytes }.
Inductive XmlRef : Type := RefBad | RefChar (c : bytes) | RefName (name : option bytes).
Inductive XmlEvent : Type :=
  | XStart (local : bytes) (attrs : list (option XmlAttr)) | XEmpty (local : bytes) (attrs : list (option XmlAttr)) | XEnd
  | XText (text : option bytes) | XRef (r : XmlRef) | XCData (text : option bytes) | XOther.
(** The events up to the end, each with the namespace it is bound to, or [None]
    where the reader fails; and the entities every document has. *)
Class XmlReader : Type := {
  xml_events : bytes → list (option (option bytes * XmlEvent));
  predefined_entity : bytes → option bytes;
}.

Inductive Node : Type := mkNode (name : PropName) (attrs : list (bytes * bytes)) (text : bytes) (children : list Node).
Definition nd_name (n : Node) : PropName := let 'mkNode x _ _ _ := n in x.
Definition nd_attrs (n : Node) : list (bytes * bytes) := let 'mkNode _ x _ _ := n in x.
Definition nd_children (n : Node) : list Node := let 'mkNode _ _ _ x := n in x.
Definition node_is (ns : Namespace) (name : string) (n : Node) : bool := is_prop (nd_name n) ns name.
Definition nd_attr (n : Node) (key : string) : option bytes := snd <$> List.find (λ x, bool_decide (x.1 = bs key)) (nd_attrs n).
Definition nd_child (n : Node) (ns : Namespace) (name : string) : option Node := List.find (node_is ns name) (nd_children n).
Definition children_named (n : Node) (ns : Namespace) (name : string) : list Node := List.filter (node_is ns name) (nd_children n).
(** [Node::find], the first in document order. *)
Fixpoint nd_find (n : Node) (ns : Namespace) (name : string) : option Node :=
  let 'mkNode _ _ _ children := n in
  (fix go (l : list Node) : option Node :=
     match l with
     | [] => None
     | c :: l => if node_is ns name c then Some c else match nd_find c ns name with Some x => Some x | None => go l end
     end) children.
Fixpoint write_text (n : Node) : bytes := let 'mkNode _ _ text children := n in text ++ mjoin (write_text <$> children).
Definition deep_text (n : Node) : bytes := str_trim (write_text n).

(** [resolve]. *)
Definition resolve_ns (bound : option bytes) : option Namespace :=
  match bound with Some ns => if utf8_valid ns then Some (from_uri ns) else None | None => None end.
Fixpoint node_attrs (attrs : list (option XmlAttr)) : option (list (bytes * bytes)) :=
  match attrs with
  | [] => Some []
  | None :: _ => None
  | Some x :: attrs =>
      if negb (utf8_valid (xa_qname x)) then None
      else if bool_decide (xa_qname x = bs "xmlns") || starts_with (xa_qname x) (bs "xmlns:") then node_attrs attrs
      else if negb (utf8_valid (xa_local x)) then None
      else value ← xa_value x; rest ← node_attrs attrs; Some ((xa_local x, value) :: rest)
  end.
(** [node]. *)
Definition new_node (ns : option Namespace) (local : bytes) (attrs : list (option XmlAttr)) : option Node :=
  if negb (utf8_valid local) then None
  else collected ← node_attrs attrs; Some (mkNode (mkProp (default (NsOther []) ns) local) collected [] []).
(** The open elements, the innermost first, and the root once it is closed. *)
Definition attach (stack : list Node) (root : option Node) (n : Node) : option (list Node * option Node) :=
  match stack with
  | mkNode name attrs text children :: stack => Some (mkNode name attrs text (children ++ [n]) :: stack, root)
  | [] => match root with Some _ => None | None => Some ([], Some n) end
  end.
Definition push_text (stack : list Node) (t : option bytes) : option (list Node) :=
  match stack with
  | mkNode name attrs text children :: stack => t ← t; Some (mkNode name attrs (text ++ t) children :: stack)
  | [] => Some []
  end.

Section reader.
Context `{XmlReader}.
Definition ref_text (r : XmlRef) : option bytes :=
  match r with RefBad => None | RefChar c => Some c | RefName name => name ← name; predefined_entity name end.
Definition xml_step (st : list Node * option Node) (x : option bytes * XmlEvent) : option (list Node * option Node) :=
  let '(stack, root) := st in
  let ns := resolve_ns x.1 in
  match x.2 with
  | XStart local attrs => n ← new_node ns local attrs; Some (n :: stack, root)
  | XEmpty local attrs => n ← new_node ns local attrs; attach stack root n
  | XEnd => match stack with n :: stack => attach stack root n | [] => None end
  | XText t | XCData t => stack ← push_text stack t; Some (stack, root)
  | XRef r => stack ← push_text stack (ref_text r); Some (stack, root)
  | XOther => Some (stack, root)
  end.
Fixpoint xml_loop (events : list (option (option bytes * XmlEvent))) (st : list Node * option Node) : option (list Node * option Node) :=
  match events with
  | [] => Some st
  | None :: _ => None
  | Some x :: events => st ← xml_step st x; xml_loop events st
  end.
Definition root_element (body : bytes) : option Node :=
  '(stack, root) ← xml_loop (xml_events body) ([], None);
  match stack with [] => root | _ => None end.
End reader.

(** ** request.rs: the bodies *)

Inductive PropRequest : Type := AllProp | PropNames | Named (names : list PropName).
Record PropertyUpdate : Type := mkUpdate { pu_set : list (PropName * bytes); pu_remove : list PropName }.
Record MkCol : Type := mkMkCol { mk_display_name : option bytes; mk_color : option bytes; mk_description : option bytes }.
Record SyncCollection : Type := mkSync { sy_token : option bytes; sy_limit : option nat; sy_props : PropRequest }.
Record CalendarQuery : Type := mkCalendarQuery { cq_props : PropRequest; cq_time_range : option (option Z * option Z) }.
Record Multiget : Type := mkMultiget { mg_props : PropRequest; mg_hrefs : list bytes }.
Record TextFilter : Type := mkTextFilter { tf_prop : bytes; tf_value : bytes }.
Record AddressbookQuery : Type := mkBookQuery { aq_props : PropRequest; aq_filters : list TextFilter; aq_limit : option nat }.
Inductive Report : Type :=
  | RSyncCollection (r : SyncCollection) | RCalendarQuery (r : CalendarQuery) | RCalendarMultiget (r : Multiget)
  | RAddressbookQuery (r : AddressbookQuery) | RAddressbookMultiget (r : Multiget).

(** [days_from_civil] and [utc_basic_to_epoch]: [yyyymmddThhmmssZ]. *)
Definition days_from_civil (year month day : Z) : Z :=
  let year := if month <=? 2 then year - 1 else year in
  let era := Z.quot (if 0 <=? year then year else year - 399) 400 in
  let year_of_era := year - era * 400 in
  let shifted := Z.rem (month + 9) 12 in
  let day_of_year := Z.quot (153 * shifted + 2) 5 + day - 1 in
  let day_of_era := year_of_era * 365 + Z.quot year_of_era 4 - Z.quot year_of_era 100 + day_of_year in
  era * 146097 + day_of_era - 719468.
Definition utc_basic_to_epoch (value : bytes) : option Z :=
  let field (from to : nat) : Z := dec_value (take (to - from) (drop from value)) in
  if negb (length value =? 16)%nat || negb (nth 8 value 0 =? 84) || negb (nth 15 value 0 =? 90) then None
  else if negb (forallb is_digit (take 8 value) && forallb is_digit (take 6 (drop 9 value))) then None
  else
    let year := field 0%nat 4%nat in let month := field 4%nat 6%nat in let day := field 6%nat 8%nat in
    let hour := field 9%nat 11%nat in let minute := field 11%nat 13%nat in let second := field 13%nat 15%nat in
    if negb ((1 <=? month) && (month <=? 12)) || negb ((1 <=? day) && (day <=? 31)) then None
    else if (23 <? hour) || (59 <? minute) || (60 <? second) then None
    else Some (days_from_civil year month day * 86400 + hour * 3600 + minute * 60 + second).

Definition is_blank (body : bytes) : bool := forallb is_ascii_whitespace body.
Definition limit_of (root : Node) : option nat :=
  limit ← List.find (λ c, bool_decide (pn_name (nd_name c) = bs "limit")
                          && (bool_decide (pn_ns (nd_name c) = NsDav) || bool_decide (pn_ns (nd_name c) = NsCardDav))) (nd_children root);
  results ← List.find (λ c, bool_decide (pn_name (nd_name c) = bs "nresults")) (nd_children limit);
  n ← parse_u64 (str_trim (deep_text results)); Some (Z.to_nat n).
Fixpoint prop_request_of (children : list Node) (default_ : PropRequest) : PropRequest :=
  match children with
  | [] => default_
  | c :: rest =>
      if node_is NsDav "allprop" c then AllProp
      else if node_is NsDav "propname" c then PropNames
      else if node_is NsDav "prop" c then Named (nd_name <$> nd_children c)
      else prop_request_of rest default_
  end.
Definition prop_request (root : Node) (default_ : PropRequest) : PropRequest := prop_request_of (nd_children root) default_.
Definition multiget_of (root : Node) : Multiget :=
  mkMultiget (prop_request root (Named [])) (deep_text <$> children_named root NsDav "href").

(** The properties under [set] or [remove], in the order of the body. *)
Definition props_under (section : Node) : list Node := mjoin (nd_children <$> children_named section NsDav "prop").
Definition update_section (u : PropertyUpdate) (section : Node) : PropertyUpdate :=
  if node_is NsDav "set" section
  then mkUpdate (pu_set u ++ ((λ e, (nd_name e, deep_text e)) <$> props_under section)) (pu_remove u)
  else if node_is NsDav "remove" section then mkUpdate (pu_set u) (pu_remove u ++ (nd_name <$> props_under section))
  else u.
Definition mkcol_entry (m : MkCol) (e : Node) : MkCol :=
  let value := deep_text e in
  if node_is NsDav "displayname" e then mkMkCol (Some value) (mk_color m) (mk_description m)
  else if node_is NsAppleICal "calendar-color" e then mkMkCol (mk_display_name m) (Some value) (mk_description m)
  else if node_is NsCalDav "calendar-description" e || node_is NsCardDav "addressbook-description" e
  then mkMkCol (mk_display_name m) (mk_color m) (Some value)
  else m.
Definition text_filter (entry : Node) : option TextFilter :=
  name ← nd_attr entry "name"; m ← nd_child entry NsCardDav "text-match"; Some (mkTextFilter (to_ascii_uppercase name) (deep_text m)).

Section bodies.
Context `{XmlReader}.
Definition parse_propfind (body : bytes) : option PropRequest :=
  if is_blank body then Some AllProp
  else root ← root_element body; if node_is NsDav "propfind" root then Some (prop_request root AllProp) else None.
Definition parse_propertyupdate (body : bytes) : option PropertyUpdate :=
  root ← root_element body;
  if node_is NsDav "propertyupdate" root then Some (foldl update_section (mkUpdate [] []) (nd_children root)) else None.
Definition parse_mkcol (body : bytes) : option MkCol :=
  if is_blank body then Some (mkMkCol None None None)
  else
    root ← root_element body;
    if negb (node_is NsCalDav "mkcalendar" root) && negb (node_is NsDav "mkcol" root) then None
    else Some (foldl mkcol_entry (mkMkCol None None None) (mjoin (props_under <$> children_named root NsDav "set"))).
Definition parse_report (body : bytes) : option Report :=
  root ← root_element body;
  let props := prop_request root (Named []) in
  if node_is NsDav "sync-collection" root then
    let token := deep_text <$> nd_child root NsDav "sync-token" in
    Some (RSyncCollection (mkSync (if bool_decide (token = Some []) then None else token) (limit_of root) props))
  else if node_is NsCalDav "calendar-query" root then
    let range := f ← nd_child root NsCalDav "filter"; nd_find f NsCalDav "time-range" in
    Some (RCalendarQuery (mkCalendarQuery props
      ((λ r, (v ← nd_attr r "start"; utc_basic_to_epoch v, v ← nd_attr r "end"; utc_basic_to_epoch v)) <$> range)))
  else if node_is NsCardDav "addressbook-query" root then
    let filters := match nd_child root NsCardDav "filter" with Some f => omap text_filter (children_named f NsCardDav "prop-filter") | None => [] end in
    Some (RAddressbookQuery (mkBookQuery props filters (limit_of root)))
  else if node_is NsCalDav "calendar-multiget" root then Some (RCalendarMultiget (multiget_of root))
  else if node_is NsCardDav "addressbook-multiget" root then Some (RAddressbookMultiget (multiget_of root))
  else None.
End bodies.

(** ** response.rs *)

(** A quotation mark around a constant. *)
Definition in_quotes (s : string) : bytes := [34] ++ bs s ++ [34].
Definition XML_DECL : bytes := bs "<?xml version=" ++ in_quotes "1.0" ++ bs " encoding=" ++ in_quotes "utf-8" ++ bs "?>".
Definition ROOT_NAMESPACES : bytes :=
  bs "xmlns:D=" ++ in_quotes "DAV:" ++ bs " xmlns:C=" ++ in_quotes "urn:ietf:params:xml:ns:caldav"
  ++ bs " xmlns:B=" ++ in_quotes "urn:ietf:params:xml:ns:carddav" ++ bs " xmlns:CS=" ++ in_quotes "http://calendarserver.org/ns/"
  ++ bs " xmlns:IC=" ++ in_quotes "http://apple.com/ns/ical/".

Inductive Prefix : Type := PD | PC | PB.
Definition prefix_str (p : Prefix) : bytes := match p with PD => bs "D" | PC => bs "C" | PB => bs "B" end.
Inductive ResourceType : Type := RtCollection | RtCalendar | RtAddressBook | RtPrincipal.
Definition resource_tag (r : ResourceType) : bytes :=
  match r with
  | RtCollection => bs "<D:collection/>" | RtCalendar => bs "<C:calendar/>" | RtAddressBook => bs "<B:addressbook/>"
  | RtPrincipal => bs "<D:principal/>"
  end.
Inductive PropValue : Type :=
  | PText (name : PropName) (value : bytes) | PEmpty (name : PropName) | PResourceTypes (kinds : list ResourceType)
  | PHref (name : PropName) (href : bytes) | PHrefSet (name : PropName) (hrefs : list bytes)
  | PSupportedReports (reports : list (Prefix * bytes)) | PSupportedComponents (comps : list bytes)
  | PCalendarData (data : bytes) | PAddressData (data : bytes).
Record PropStat : Type := mkPropStat { ps_status : Z; ps_props : list PropValue }.
Record DavResponse : Type := mkResponse { re_href : bytes; re_propstats : list PropStat; re_status : option Z }.
Record MultiStatus : Type := mkMulti { ms_responses : list DavResponse; ms_sync_token : option bytes }.

Definition xml_escape_byte (b : Z) : bytes :=
  if b =? 38 then bs "&amp;" else if b =? 60 then bs "&lt;" else if b =? 62 then bs "&gt;" else if b =? 34 then bs "&quot;" else [b].
(** A text with none of the four is given back as it is, which the loop also
    does. *)
Definition xml_escape (text : bytes) : bytes := text ≫= xml_escape_byte.
Definition reason (status : Z) : bytes :=
  match status with
  | 200 => bs "OK" | 201 => bs "Created" | 204 => bs "No Content" | 400 => bs "Bad Request" | 403 => bs "Forbidden"
  | 404 => bs "Not Found" | 409 => bs "Conflict" | 412 => bs "Precondition Failed" | 423 => bs "Locked"
  | 424 => bs "Failed Dependency" | 507 => bs "Insufficient Storage" | _ => bs "Status"
  end.
Definition status_line (status : Z) : bytes := bs "HTTP/1.1 " ++ fmt_dec status ++ bs " " ++ reason status.
Definition prefix_of (ns : Namespace) : option bytes :=
  match ns with
  | NsDav => Some (bs "D") | NsCalDav => Some (bs "C") | NsCardDav => Some (bs "B") | NsCalendarServer => Some (bs "CS")
  | NsAppleICal => Some (bs "IC") | NsOther _ => None
  end.
(** The start of an element without its closing bracket. *)
Definition element_start (name : PropName) : bytes :=
  match prefix_of (pn_ns name) with
  | Some prefix => bs "<" ++ prefix ++ bs ":" ++ pn_name name
  | None => bs "<x:" ++ pn_name name ++ bs " xmlns:x=" ++ [34] ++ xml_escape (ns_uri (pn_ns name)) ++ [34]
  end.
Definition open_tag (name : PropName) : bytes := element_start name ++ bs ">".
Definition empty_tag (name : PropName) : bytes := element_start name ++ bs "/>".
Definition close_tag (name : PropName) : bytes :=
  match prefix_of (pn_ns name) with
  | Some prefix => bs "</" ++ prefix ++ bs ":" ++ pn_name name ++ bs ">"
  | None => bs "</x:" ++ pn_name name ++ bs ">"
  end.
Definition href_element (href : bytes) : bytes := bs "<D:href>" ++ xml_escape href ++ bs "</D:href>".
Definition prop_xml (p : PropValue) : bytes :=
  match p with
  | PText name value => open_tag name ++ xml_escape value ++ close_tag name
  | PEmpty name => empty_tag name
  | PResourceTypes kinds =>
      let name := mkProp NsDav (bs "resourcetype") in open_tag name ++ mjoin (resource_tag <$> kinds) ++ close_tag name
  | PHref name href => open_tag name ++ href_element href ++ close_tag name
  | PHrefSet name hrefs => open_tag name ++ mjoin (href_element <$> hrefs) ++ close_tag name
  | PSupportedReports reports =>
      bs "<D:supported-report-set>"
      ++ mjoin ((λ x : Prefix * bytes, bs "<D:supported-report><D:report><" ++ prefix_str x.1 ++ bs ":" ++ x.2 ++ bs "/></D:report></D:supported-report>") <$> reports)
      ++ bs "</D:supported-report-set>"
  | PSupportedComponents comps =>
      bs "<C:supported-calendar-component-set>" ++ mjoin ((λ c, bs "<C:comp name=" ++ [34] ++ xml_escape c ++ [34] ++ bs "/>") <$> comps)
      ++ bs "</C:supported-calendar-component-set>"
  | PCalendarData data => bs "<C:calendar-data>" ++ xml_escape data ++ bs "</C:calendar-data>"
  | PAddressData data => bs "<B:address-data>" ++ xml_escape data ++ bs "</B:address-data>"
  end.
Definition propstat_xml (p : PropStat) : bytes :=
  bs "<D:propstat><D:prop>" ++ mjoin (prop_xml <$> ps_props p) ++ bs "</D:prop><D:status>" ++ status_line (ps_status p)
  ++ bs "</D:status></D:propstat>".
Definition response_xml (r : DavResponse) : bytes :=
  bs "<D:response>" ++ href_element (re_href r)
  ++ match re_status r with
     | Some status => bs "<D:status>" ++ status_line status ++ bs "</D:status>"
     | None => mjoin (propstat_xml <$> re_propstats r)
     end
  ++ bs "</D:response>".
Definition multistatus_xml (m : MultiStatus) : bytes :=
  XML_DECL ++ bs "<D:multistatus " ++ ROOT_NAMESPACES ++ bs ">" ++ mjoin (response_xml <$> ms_responses m)
  ++ match ms_sync_token m with Some token => bs "<D:sync-token>" ++ xml_escape token ++ bs "</D:sync-token>" | None => [] end
  ++ bs "</D:multistatus>".
Definition error_body (prefix : Prefix) (condition : string) : bytes :=
  XML_DECL ++ bs "<D:error xmlns:D=" ++ in_quotes "DAV:" ++ bs " xmlns:C=" ++ in_quotes "urn:ietf:params:xml:ns:caldav"
  ++ bs " xmlns:B=" ++ in_quotes "urn:ietf:params:xml:ns:carddav" ++ bs "><" ++ prefix_str prefix ++ bs ":" ++ bs condition ++ bs "/></D:error>".
