(* ===== verification/Dav.v ===== *)
(** * CalDAV and CardDAV (crates/dav/src/storage.rs, model.rs, handler/)

    Calendars and address books with their objects as rows of the store, the
    paths of the protocol, the requests that read and change objects, and the
    synchronisation of a collection.  The records' JSON, the parsers of
    calendars and cards, the hash and the reader of XML are parameters. *)

From S2P Require Import Prelude Bytes Key Store ChangeLog Text DavXml.
From stdpp Require Import base gmap list strings sorting.
From Stdlib Require Import ZArith Lia.

Open Scope Z_scope.

(** ** model.rs and parse.rs *)

Record DeadProperty : Type := mkDead { dp_ns : bytes; dp_name : bytes; dp_value : bytes }.
Record CalendarCollection : Type := mkCalendar {
  ca_id : Z; ca_name : bytes; ca_display_name : bytes; ca_color : option bytes; ca_order : Z; ca_description : option bytes;
  ca_time_zone : option bytes; ca_dead_properties : list DeadProperty; ca_created : Z; ca_modified : Z }.
Record CalendarEventRecord : Type := mkEvent {
  ev_id : Z; ev_calendar_id : Z; ev_name : bytes; ev_uid : bytes; ev_ics : bytes; ev_etag : bytes; ev_starts_min : Z; ev_ends_max : Z;
  ev_size : Z; ev_created : Z; ev_modified : Z }.
Record AddressBookCollection : Type := mkBook {
  bo_id : Z; bo_name : bytes; bo_display_name : bytes; bo_description : option bytes; bo_dead_properties : list DeadProperty;
  bo_created : Z; bo_modified : Z }.
Record ContactCardRecord : Type := mkCard {
  cd_id : Z; cd_book_id : Z; cd_name : bytes; cd_uid : option bytes; cd_vcf : bytes; cd_etag : bytes; cd_full_name : bytes;
  cd_emails : list bytes; cd_size : Z; cd_created : Z; cd_modified : Z }.
Record Tombstone : Type := mkTombstone { ts_change_id : Z; ts_parent_id : Z; ts_name : bytes }.
Record IcsInfo : Type := mkIcs { ics_uid : bytes; ics_starts_min : Z; ics_ends_max : Z }.
Record VcfInfo : Type := mkVcf { vcf_uid : option bytes; vcf_full_name : bytes; vcf_emails : list bytes }.

(** The JSON of one kind of record. *)
Class RowJson (R : Type) : Type := { row_encode : R → result bytes; row_decode : bytes → result R }.
(** What is read back is what was written. *)
Class RowJsonLaws (R : Type) `{RowJson R} : Prop := {
  row_round r : ∃ b, row_encode r = Ok b ∧ row_decode b = Ok r }.
(** The calcard library, blake3, and [to_lowercase] of the standard library
    with its tables. *)
Class DavLibrary : Type := {
  parse_ics : bytes → option IcsInfo;
  parse_vcf : bytes → option VcfInfo;
  content_etag : bytes → bytes;
  dav_lowercase : bytes → bytes;
}.
Class DavJson : Type := {
  json_calendar :: RowJson CalendarCollection;
  json_event :: RowJson CalendarEventRecord;
  json_book :: RowJson AddressBookCollection;
  json_card :: RowJson ContactCardRecord;
  json_tombstone :: RowJson Tombstone;
}.

(** ** storage.rs *)

Definition DEFAULT_CALENDAR_NAME : bytes := bs "calendar".
Definition DEFAULT_ADDRESS_BOOK_NAME : bytes := bs "contacts".
Definition ID_COUNTER : Z := 1.
Definition TOMBSTONE_SUFFIX : bytes := bs "tomb".

Definition record_key (a : Z) (c : Collection) (id : Z) : bytes := key_encode (key_new Property a c id).
Definition tombstone_key (a : Z) (c : Collection) (id : Z) : bytes := key_encode (with_suffix (key_new Index a c id) TOMBSTONE_SUFFIX).
Definition id_key (a : Z) (c : Collection) : bytes := key_encode (key_new Counter a c ID_COUNTER).

(** [sort_by_key], which is stable. *)
Definition key_le {A} (f : A → Z) (x y : A) : Prop := f x ≤ f y.
#[global] Instance key_le_dec {A} (f : A → Z) (x y : A) : Decision (key_le f x y).
Proof. unfold key_le. apply _. Defined.
Definition sort_by_key {A} (f : A → Z) (l : list A) : list A := merge_sort (key_le f) l.

Section storage.
Context {S : Type} `{Store S}.

Definition allocate_id (a : Z) (c : Collection) : M S Z := n ← st_add_and_get (id_key a c) 1; mret (as_u32 n).

Section rows.
Context {R : Type} `{RowJson R}.
(** The closure of [load_all] with the records so far and the error. *)
Definition load_visit (acc : list R * option Error) (key value : bytes) : result (list R * option Error * Flow) :=
  match row_decode value with
  | Ok r => Ok ((acc.1 ++ [r], acc.2), Continue)
  | Err e => Ok ((acc.1, Some e), Stop)
  end.
Definition load_all (a : Z) (c : Collection) (s : S) : result (list R) :=
  acc ← st_iterate (kp_collection Property a c) load_visit ([], None) s;
  match acc.2 with Some e => Err e | None => Ok acc.1 end.
Definition write_record (a : Z) (c : Collection) (id : Z) (r : R) (kind : ChangeKind) : M S unit :=
  value ← lift (row_encode r);
  '(_, change_op) ← record_op a c id kind;
  st_batch [WSet (record_key a c id) value; change_op].
End rows.

Definition delete_record `{RowJson Tombstone} (a : Z) (c : Collection) (id parent_id : Z) (name : bytes) : M S unit :=
  '(change_id, change_op) ← record_op a c id ChangeLog.Delete;
  value ← lift (row_encode (mkTombstone change_id parent_id name));
  st_batch [WDelete (record_key a c id); WSet (tombstone_key a c id) value; change_op].

Definition tombstone `{RowJson Tombstone} (a : Z) (c : Collection) (document_id : Z) (s : S) : result (option Tombstone) :=
  v ← st_get (tombstone_key a c document_id) s;
  match v with Some b => t ← row_decode b; Ok (Some t) | None => Ok None end.
Definition dav_state (a : Z) (c : Collection) (s : S) : result Z := latest_change_id a c s.
End storage.

(** Rows that belong to a collection by a name: events and cards. *)
Class Member (R : Type) : Type := { mb_collection : Collection; mb_id : R → Z; mb_parent : R → Z; mb_name : R → bytes }.
#[global] Instance event_member : Member CalendarEventRecord :=
  {| mb_collection := CalendarEvent; mb_id := ev_id; mb_parent := ev_calendar_id; mb_name := ev_name |}.
#[global] Instance card_member : Member ContactCardRecord :=
  {| mb_collection := ContactCard; mb_id := cd_id; mb_parent := cd_book_id; mb_name := cd_name |}.

Section members.
Context {S : Type} `{Store S} {R : Type} `{RowJson R} `{Member R} `{RowJson Tombstone}.

(** [list_events] and [list_cards]. *)
Definition list_members (a : Z) (parent : option Z) (s : S) : result (list R) :=
  l ← load_all a (mb_collection (R := R)) s;
  let l := match parent with Some p => filter (λ r, mb_parent r = p) l | None => l end in
  Ok (sort_by_key mb_id l).
(** [event_by_name] and [card_by_name]. *)
Definition member_by_name (a parent : Z) (name : bytes) (s : S) : result (option R) :=
  l ← list_members a (Some parent) s; Ok (List.find (λ r, bool_decide (mb_name r = name)) l).
(** [delete_event] and [delete_card]. *)
Definition delete_member (a parent : Z) (name : bytes) : M S bool :=
  r ← reads (member_by_name a parent name);
  match r with
  | Some r => _ ← delete_record a (mb_collection (R := R)) (mb_id r) parent name; mret true
  | None => mret false
  end.
(** The id of a new record or of the one it replaces, when that was created,
    and the kind of change. *)
Definition upsert_slot (a parent : Z) (name : bytes) (created : R → Z) (now : Z) : M S (Z * Z * ChangeKind) :=
  existing ← reads (member_by_name a parent name);
  match existing with
  | Some r => mret (mb_id r, created r, ChangeLog.Update)
  | None => id ← allocate_id a (mb_collection (R := R)); mret (id, now, ChangeLog.Insert)
  end.
Fixpoint delete_members (a parent : Z) (l : list R) : M S unit :=
  match l with
  | [] => mret tt
  | r :: l => _ ← delete_record a (mb_collection (R := R)) (mb_id r) parent (mb_name r); delete_members a parent l
  end.
End members.

Section collections.
Context {S : Type} `{Store S} `{DavJson} `{DavLibrary}.

Definition list_calendars (a : Z) (s : S) : result (list CalendarCollection) :=
  l ← load_all a Calendar s; Ok (sort_by_key ca_id l).
Definition list_address_books (a : Z) (s : S) : result (list AddressBookCollection) :=
  l ← load_all a AddressBook s; Ok (sort_by_key bo_id l).
Definition calendar_by_id (a id : Z) (s : S) : result (option CalendarCollection) :=
  l ← list_calendars a s; Ok (List.find (λ x, ca_id x =? id) l).
Definition address_book_by_id (a id : Z) (s : S) : result (option AddressBookCollection) :=
  l ← list_address_books a s; Ok (List.find (λ x, bo_id x =? id) l).
Definition create_calendar (a : Z) (name display_name : bytes) (now : Z) : M S CalendarCollection :=
  id ← allocate_id a Calendar;
  let calendar := mkCalendar id name display_name None 0 None None [] now now in
  _ ← write_record a Calendar id calendar ChangeLog.Insert; mret calendar.
Definition create_address_book (a : Z) (name display_name : bytes) (now : Z) : M S AddressBookCollection :=
  id ← allocate_id a AddressBook;
  let book := mkBook id name display_name None [] now now in
  _ ← write_record a AddressBook id book ChangeLog.Insert; mret book.
Definition save_calendar (a : Z) (x : CalendarCollection) (now : Z) : M S unit :=
  write_record a Calendar (ca_id x)
    (mkCalendar (ca_id x) (ca_name x) (ca_display_name x) (ca_color x) (ca_order x) (ca_description x) (ca_time_zone x)
       (ca_dead_properties x) (ca_created x) now) ChangeLog.Update.
Definition save_address_book (a : Z) (x : AddressBookCollection) (now : Z) : M S unit :=
  write_record a AddressBook (bo_id x)
    (mkBook (bo_id x) (bo_name x) (bo_display_name x) (bo_description x) (bo_dead_properties x) (bo_created x) now) ChangeLog.Update.
Definition delete_calendar (a id : Z) : M S bool :=
  calendar ← reads (calendar_by_id a id);
  match calendar with
  | None => mret false
  | Some calendar =>
      events ← reads (list_members (R := CalendarEventRecord) a (Some id));
      _ ← delete_members a id events;
      _ ← delete_record a Calendar (ca_id calendar) 0 (ca_name calendar); mret true
  end.
Definition delete_address_book (a id : Z) : M S bool :=
  book ← reads (address_book_by_id a id);
  match book with
  | None => mret false
  | Some book =>
      cards ← reads (list_members (R := ContactCardRecord) a (Some id));
      _ ← delete_members a id cards;
      _ ← delete_record a AddressBook (bo_id book) 0 (bo_name book); mret true
  end.
Definition ensure_defaults (a now : Z) : M S unit :=
  calendars ← reads (list_calendars a);
  _ ← (if bool_decide (calendars = []) then _ ← create_calendar a DEFAULT_CALENDAR_NAME (bs "Calendar") now; mret tt else mret tt);
  books ← reads (list_address_books a);
  if bool_decide (books = []) then _ ← create_address_book a DEFAULT_ADDRESS_BOOK_NAME (bs "Contacts") now; mret tt else mret tt.

Definition upsert_event (a calendar_id : Z) (name ics : bytes) (info : IcsInfo) (now : Z) : M S (CalendarEventRecord * bool) :=
  '(id, created_at, kind) ← upsert_slot (R := CalendarEventRecord) a calendar_id name ev_created now;
  let record := mkEvent id calendar_id name (ics_uid info) ics (content_etag ics) (ics_starts_min info) (ics_ends_max info)
                  (as_u32 (Z.of_nat (length ics))) created_at now in
  _ ← write_record a CalendarEvent id record kind; mret (record, bool_decide (kind = ChangeLog.Insert)).
Definition upsert_card (a book_id : Z) (name vcf : bytes) (info : VcfInfo) (now : Z) : M S (ContactCardRecord * bool) :=
  '(id, created_at, kind) ← upsert_slot (R := ContactCardRecord) a book_id name cd_created now;
  let record := mkCard id book_id name (vcf_uid info) vcf (content_etag vcf) (vcf_full_name info) (vcf_emails info)
                  (as_u32 (Z.of_nat (length vcf))) created_at now in
  _ ← write_record a ContactCard id record kind; mret (record, bool_decide (kind = ChangeLog.Insert)).
End collections.

(** ** handler/path.rs *)

Inductive Family : Type := Cal | Card.
#[global] Instance Family_eq_dec : EqDecision Family.
Proof. solve_decision. Defined.
Definition segment (f : Family) : bytes := match f with Cal => bs "cal" | Card => bs "card" end.

Inductive Target : Type :=
  | Root | Service (f : Family) | Principal | Home (f : Family) | InCollection (f : Family) (collection : bytes)
  | Object (f : Family) (collection name : bytes).

Definition hex_value (b : Z) : option Z :=
  if (48 <=? b) && (b <=? 57) then Some (b - 48)
  else if (97 <=? b) && (b <=? 102) then Some (b - 97 + 10)
  else if (65 <=? b) && (b <=? 70) then Some (b - 65 + 10)
  else None.
(** The loop of [percent_decode]; an escape needs two digits. *)
Fixpoint percent_bytes (s : bytes) : bytes :=
  match s with
  | [] => []
  | b :: r =>
      match r with
      | h :: l :: r' =>
          match (if b =? 37 then h' ← hex_value h; l' ← hex_value l; Some (h' * 16 + l') else None) with
          | Some x => x :: percent_bytes r'
          | None => b :: percent_bytes r
          end
      | _ => b :: percent_bytes r
      end
  end.
Definition percent_decode (s : bytes) : bytes := utf8_lossy (percent_bytes s).
Definition is_path_safe (b : Z) : bool :=
  is_ascii_upper b || is_ascii_lower b || is_digit b || bool_decide (b ∈ bs "-._~!$&'()*+,;=:@").
(** [%{byte:02X}]. *)
Definition hex_upper (d : Z) : Z := if d <? 10 then 48 + d else 55 + d.
Definition percent_byte (b : Z) : bytes := if is_path_safe b then [b] else [37; hex_upper (b / 16); hex_upper (b mod 16)].
Definition percent_encode (s : bytes) : bytes := s ≫= percent_byte.
Definition segments (path : bytes) : list bytes := percent_decode <$> filter (λ s, s ≠ []) (split_byte 47 path).

Definition family_of (s : bytes) : option Family :=
  if bool_decide (s = bs "cal") then Some Cal else if bool_decide (s = bs "card") then Some Card else None.
(** The status of a refusal is the left side. *)
Definition owned (username user : bytes) (t : Target) : Z + Target := if eq_ignore_ascii_case user username then inr t else inl 403.
Definition in_family (service : bytes) (k : Family → Z + Target) : Z + Target :=
  match family_of service with Some f => k f | None => inl 404 end.
Definition parse_target (path username : bytes) : Z + Target :=
  match segments path with
  | dav :: rest =>
      if bool_decide (dav = bs "dav") then
        match rest with
        | [] => inr Root
        | [service] => if bool_decide (service = bs "principal") then inl 404 else in_family service (λ f, inr (Service f))
        | [service; user] =>
            if bool_decide (service = bs "principal") then owned username user Principal
            else in_family service (λ f, owned username user (Home f))
        | [service; user; collection] => in_family service (λ f, owned username user (InCollection f collection))
        | [service; user; collection; object] => in_family service (λ f, owned username user (Object f collection object))
        | _ => inl 404
        end
      else inl 404
  | [] => inl 404
  end.
Definition principal_href (username : bytes) : bytes := bs "/dav/principal/" ++ percent_encode username ++ bs "/".
Definition home_href (f : Family) (username : bytes) : bytes := bs "/dav/" ++ segment f ++ bs "/" ++ percent_encode username ++ bs "/".
Definition collection_href (f : Family) (username collection : bytes) : bytes :=
  home_href f username ++ percent_encode collection ++ bs "/".
Definition object_href (f : Family) (username collection object : bytes) : bytes :=
  collection_href f username collection ++ percent_encode object.
Definition strip_origin (destination : bytes) : bytes :=
  match find_sub (bs "://") destination with
  | None => destination
  | Some i =>
      let rest := drop (i + 3) destination in
      match find_byte 47 rest with Some j => drop j rest | None => bs "/" end
  end.

(** ** handler/view.rs *)

Record CollectionView : Type := mkCollectionView {
  cv_id : Z; cv_name : bytes; cv_display_name : bytes; cv_color : option bytes; cv_order : Z; cv_description : option bytes;
  cv_time_zone : option bytes; cv_dead : list DeadProperty; cv_created : Z }.
Record ObjectView : Type := mkObjectView {
  ov_id : Z; ov_parent : Z; ov_name : bytes; ov_uid : option bytes; ov_data : bytes; ov_etag : bytes; ov_size : Z;
  ov_starts_min : Z; ov_ends_max : Z; ov_full_name : bytes; ov_emails : list bytes }.
Inductive Parsed : Type := Ics (info : IcsInfo) | Vcf (info : VcfInfo).
Definition parsed_uid (p : Parsed) : option bytes := match p with Ics i => Some (ics_uid i) | Vcf v => vcf_uid v end.
Definition parse_object `{DavLibrary} (f : Family) (raw : bytes) : option Parsed :=
  match f with Cal => Ics <$> parse_ics raw | Card => Vcf <$> parse_vcf raw end.
Definition calendar_view (r : CalendarCollection) : CollectionView :=
  mkCollectionView (ca_id r) (ca_name r) (ca_display_name r) (ca_color r) (ca_order r) (ca_description r) (ca_time_zone r)
    (ca_dead_properties r) (ca_created r).
Definition book_view (r : AddressBookCollection) : CollectionView :=
  mkCollectionView (bo_id r) (bo_name r) (bo_display_name r) None 0 (bo_description r) None (bo_dead_properties r) (bo_created r).
Definition event_view (r : CalendarEventRecord) : ObjectView :=
  mkObjectView (ev_id r) (ev_calendar_id r) (ev_name r) (Some (ev_uid r)) (ev_ics r) (ev_etag r) (ev_size r) (ev_starts_min r)
    (ev_ends_max r) [] [].
Definition card_view (r : ContactCardRecord) : ObjectView :=
  mkObjectView (cd_id r) (cd_book_id r) (cd_name r) (cd_uid r) (cd_vcf r) (cd_etag r) (cd_size r) 0 0 (cd_full_name r) (cd_emails r).
Definition content_type (f : Family) : bytes :=
  match f with Cal => bs "text/calendar; charset=utf-8" | Card => bs "text/vcard; charset=utf-8" end.
Definition object_collection (f : Family) : Collection := match f with Cal => CalendarEvent | Card => ContactCard end.

(** The records of a result as the handlers see them. *)
Definition viewed {A B} (view_of : A → B) (r : result (list A)) : result (list B) :=
  match r with Ok l => Ok (view_of <$> l) | Err e => Err e end.

Section context.
Context {S : Type} `{Store S} `{DavJson} `{DavLibrary}.

Definition collections (a : Z) (f : Family) (s : S) : result (list CollectionView) :=
  match f with
  | Cal => viewed calendar_view (list_calendars a s)
  | Card => viewed book_view (list_address_books a s)
  end.
Definition collection (a : Z) (f : Family) (name : bytes) (s : S) : result (option CollectionView) :=
  l ← collections a f s; Ok (List.find (λ v, bool_decide (cv_name v = name)) l).
(** The objects of one collection, or of all. *)
Definition object_views (a : Z) (f : Family) (parent : option Z) (s : S) : result (list ObjectView) :=
  match f with
  | Cal => viewed event_view (list_members a parent s)
  | Card => viewed card_view (list_members a parent s)
  end.
Definition objects (a : Z) (f : Family) (parent : Z) (s : S) : result (list ObjectView) := object_views a f (Some parent) s.
Definition object (a : Z) (f : Family) (parent : Z) (name : bytes) (s : S) : result (option ObjectView) :=
  l ← objects a f parent s; Ok (List.find (λ v, bool_decide (ov_name v = name)) l).
Definition object_by_id (a : Z) (f : Family) (id : Z) (s : S) : result (option ObjectView) :=
  l ← object_views a f None s; Ok (List.find (λ v, ov_id v =? id) l).
Definition create_collection (a : Z) (f : Family) (name display_name : bytes) (color description : option bytes) (now : Z) : M S unit :=
  match f with
  | Cal =>
      x ← create_calendar a name display_name now;
      if bool_decide (is_Some color) || bool_decide (is_Some description) then
        save_calendar a (mkCalendar (ca_id x) (ca_name x) (ca_display_name x) color (ca_order x) description (ca_time_zone x)
          (ca_dead_properties x) (ca_created x) (ca_modified x)) now
      else mret tt
  | Card =>
      x ← create_address_book a name display_name now;
      if bool_decide (is_Some description) then
        save_address_book a (mkBook (bo_id x) (bo_name x) (bo_display_name x) description (bo_dead_properties x) (bo_created x)
          (bo_modified x)) now
      else mret tt
  end.
Definition save_collection (a : Z) (f : Family) (v : CollectionView) (now : Z) : M S unit :=
  match f with
  | Cal =>
      save_calendar a (mkCalendar (cv_id v) (cv_name v) (cv_display_name v) (cv_color v) (cv_order v) (cv_description v) (cv_time_zone v)
        (cv_dead v) (cv_created v) now) now
  | Card => save_address_book a (mkBook (cv_id v) (cv_name v) (cv_display_name v) (cv_description v) (cv_dead v) (cv_created v) now) now
  end.
Definition delete_collection (a : Z) (f : Family) (id : Z) : M S bool :=
  match f with Cal => delete_calendar a id | Card => delete_address_book a id end.
Definition upsert (a : Z) (f : Family) (parent : Z) (name raw : bytes) (parsed : Parsed) (now : Z) : M S (ObjectView * bool) :=
  match f, parsed with
  | Cal, Ics info => '(r, created) ← upsert_event a parent name raw info now; mret (event_view r, created)
  | Card, Vcf info => '(r, created) ← upsert_card a parent name raw info now; mret (card_view r, created)
  | _, _ => throw (InvalidInput "object does not match its collection")
  end.
Definition delete_object (a : Z) (f : Family) (parent : Z) (name : bytes) : M S bool :=
  match f with
  | Cal => delete_member (R := CalendarEventRecord) a parent name
  | Card => delete_member (R := ContactCardRecord) a parent name
  end.
End context.

(** ** handler/mod.rs, object.rs and collection.rs *)

Record DavRequest : Type := mkRequest {
  dr_method : bytes; dr_path : bytes; dr_depth : option Z; dr_if_match : option bytes; dr_if_none_match : option bytes;
  dr_destination : option bytes; dr_overwrite : bool; dr_body : bytes }.
Record DavReply : Type := mkDavReply { rp_status : Z; rp_content_type : option bytes; rp_etag : option bytes; rp_body : bytes }.
Definition XML_CONTENT_TYPE : bytes := bs "application/xml; charset=utf-8".
(** [DavReply::status], [xml] and [error]. *)
Definition status (code : Z) : DavReply := mkDavReply code None None [].
Definition xml_reply (code : Z) (body : bytes) : DavReply := mkDavReply code (Some XML_CONTENT_TYPE) None body.
Definition error_reply (code : Z) (prefix : Prefix) (condition : string) : DavReply := xml_reply code (error_body prefix condition).
Definition invalid_data (f : Family) : DavReply :=
  match f with Cal => error_reply 403 PC "valid-calendar-data" | Card => error_reply 403 PB "valid-address-data" end.
Definition uid_conflict (f : Family) : DavReply :=
  match f with Cal => error_reply 409 PC "no-uid-conflict" | Card => error_reply 409 PB "no-uid-conflict" end.

(** [trim_matches] of the quote. *)
Definition is_quote (b : Z) : bool := b =? 34.
Definition unquote (value : bytes) : bytes :=
  let value := str_trim value in
  let value := default value (Text.strip_prefix (bs "W/") value) in
  reverse (drop_while is_quote (reverse (drop_while is_quote value))).

Section handlers.
Context {S : Type} `{Store S} `{DavJson} `{DavLibrary} `{XmlReader}.

Definition get (a : Z) (t : Target) (req : DavRequest) (s : S) : result DavReply :=
  match t with
  | Object f c name =>
      parent ← collection a f c s;
      match parent with
      | None => Ok (status 404)
      | Some parent =>
          o ← object a f (cv_id parent) name s;
          match o with
          | None => Ok (status 404)
          | Some o => Ok (mkDavReply 200 (Some (content_type f)) (Some (ov_etag o)) (if bool_decide (dr_method req = bs "HEAD") then [] else ov_data o))
          end
      end
  | _ => Ok (status 405)
  end.

(** The preconditions of a PUT, by the object that is there. *)
Definition if_none_match_fails (req : DavRequest) (existing : option ObjectView) : bool :=
  bool_decide (unquote <$> dr_if_none_match req = Some (bs "*")) && bool_decide (is_Some existing).
Definition if_match_fails (req : DavRequest) (existing : option ObjectView) : bool :=
  match unquote <$> dr_if_match req with
  | None => false
  | Some condition =>
      negb match existing with
           | Some o => bool_decide (condition = bs "*") || bool_decide (ov_etag o = condition)
           | None => false
           end
  end.
Definition uid_clashes (name uid : bytes) (l : list ObjectView) : bool :=
  existsb (λ o, negb (bool_decide (ov_name o = name)) && bool_decide (ov_uid o = Some uid)) l.
Definition stored (o : ObjectView) (created : bool) : DavReply := mkDavReply (if created then 201 else 204) None (Some (ov_etag o)) [].
Definition put (a : Z) (t : Target) (req : DavRequest) (now : Z) : M S DavReply :=
  match t with
  | Object f c name =>
      parent ← reads (collection a f c);
      match parent with
      | None => mret (status 404)
      | Some parent =>
          if negb (utf8_valid (dr_body req)) then mret (invalid_data f)
          else
            match parse_object f (dr_body req) with
            | None => mret (invalid_data f)
            | Some parsed =>
                existing ← reads (object a f (cv_id parent) name);
                if if_none_match_fails req existing then mret (status 412)
                else if if_match_fails req existing then mret (status 412)
                else
                  clash ← (match parsed_uid parsed with
                           | Some uid => others ← reads (objects a f (cv_id parent)); mret (uid_clashes name uid others)
                           | None => mret false
                           end : M S bool);
                  if (clash : bool) then mret (uid_conflict f)
                  else '(o, created) ← upsert a f (cv_id parent) name (dr_body req) parsed now; mret (stored o created)
            end
      end
  | _ => mret (status 405)
  end.

Definition copy_or_move (a : Z) (username : bytes) (t : Target) (req : DavRequest) (now : Z) : M S DavReply :=
  match t, dr_destination req with
  | Object f c name, Some destination =>
      match parse_target (strip_origin destination) username with
      | inr (Object f' c' name') =>
          if negb (bool_decide (f' = f)) then mret (status 403)
          else
            parent ← reads (collection a f c);
            match parent with
            | None => mret (status 404)
            | Some parent =>
                o ← reads (object a f (cv_id parent) name);
                match o with
                | None => mret (status 404)
                | Some o =>
                    parent' ← reads (collection a f' c');
                    match parent' with
                    | None => mret (status 409)
                    | Some parent' =>
                        existing ← reads (object a f' (cv_id parent') name');
                        if bool_decide (is_Some existing) && negb (dr_overwrite req) then mret (status 412)
                        else
                          match parse_object f (ov_data o) with
                          | None => mret (invalid_data f)
                          | Some parsed =>
                              '(_, created) ← upsert a f' (cv_id parent') name' (ov_data o) parsed now;
                              _ ← (if bool_decide (dr_method req = bs "MOVE")
                                      && negb (bool_decide (cv_id parent' = cv_id parent) && bool_decide (name' = name))
                                   then delete_object a f (cv_id parent) name else mret false);
                              mret (status (if (created : bool) then 201 else 204))
                          end
                    end
                end
            end
      | _ => mret (status 403)
      end
  | Object _ _ _, None => mret (status 400)
  | _, _ => mret (status 403)
  end.

Definition mkcol (a : Z) (t : Target) (req : DavRequest) (now : Z) : M S DavReply :=
  match t with
  | InCollection f name =>
      existing ← reads (collection a f name);
      if bool_decide (is_Some existing) then mret (status 405)
      else
        match parse_mkcol (dr_body req) with
        | None => mret (status 400)
        | Some b =>
            _ ← create_collection a f name (default name (mk_display_name b)) (mk_color b) (mk_description b) now;
            mret (status 201)
        end
  | _ => mret (status 403)
  end.
Definition delete (a : Z) (t : Target) : M S DavReply :=
  match t with
  | Object f c name =>
      parent ← reads (collection a f c);
      match parent with
      | None => mret (status 404)
      | Some parent => deleted ← delete_object a f (cv_id parent) name; mret (status (if (deleted : bool) then 204 else 404))
      end
  | InCollection f name =>
      all ← reads (collections a f);
      match List.find (λ v, bool_decide (cv_name v = name)) all with
      | None => mret (status 404)
      | Some v =>
          if (length all <=? 1)%nat then mret (status 403)
          else _ ← delete_collection a f (cv_id v); mret (status 204)
      end
  | _ => mret (status 403)
  end.
End handlers.

(** ** The tokens of handler/sync.rs *)

Definition SYNC_TOKEN_PREFIX : bytes := bs "urn:irixmail:davsync:".
Definition sync_token (change_id : Z) : bytes := SYNC_TOKEN_PREFIX ++ fmt_hex change_id.

(** ** handler/props.rs *)

Definition dav (name : string) : PropName := mkProp NsDav (bs name).
Definition caldav (name : string) : PropName := mkProp NsCalDav (bs name).
Definition carddav (name : string) : PropName := mkProp NsCardDav (bs name).
Definition calendar_server (name : string) : PropName := mkProp NsCalendarServer (bs name).
Definition apple (name : string) : PropName := mkProp NsAppleICal (bs name).
Definition name_of (v : PropValue) : PropName :=
  match v with
  | PText name _ | PEmpty name | PHref name _ | PHrefSet name _ => name
  | PResourceTypes _ => dav "resourcetype"
  | PSupportedReports _ => dav "supported-report-set"
  | PSupportedComponents _ => caldav "supported-calendar-component-set"
  | PCalendarData _ => caldav "calendar-data"
  | PAddressData _ => carddav "address-data"
  end.
Definition is_data (name : PropName) : bool := is_prop name NsCalDav "calendar-data" || is_prop name NsCardDav "address-data".
Definition find_prop (available : list PropValue) (name : PropName) : option PropValue :=
  List.find (λ v, bool_decide (name_of v = name)) available.
Definition respond (href : bytes) (request : PropRequest) (available : list PropValue) : DavResponse :=
  mkResponse href
    match request with
    | AllProp => [mkPropStat 200 (List.filter (λ v, negb (is_data (name_of v))) available)]
    | PropNames => [mkPropStat 200 (PEmpty <$> List.filter (λ n, negb (is_data n)) (name_of <$> available))]
    | Named names =>
        let found := omap (find_prop available) names in
        let missing := PEmpty <$> List.filter (λ n, negb (bool_decide (is_Some (find_prop available n)))) names in
        (if negb (bool_decide (found = [])) || bool_decide (missing = []) then [mkPropStat 200 found] else [])
        ++ (if negb (bool_decide (missing = [])) then [mkPropStat 404 missing] else [])
    end None.
Definition with_default_etag (request : PropRequest) : PropRequest :=
  match request with Named [] => Named [dav "getetag"] | other => other end.

Definition service_root_props (username : bytes) : list PropValue :=
  [PResourceTypes [RtCollection]; PHref (dav "current-user-principal") (principal_href username);
   PHref (dav "principal-URL") (principal_href username)].
Definition principal_props (username : bytes) : list PropValue :=
  [PResourceTypes [RtCollection; RtPrincipal]; PText (dav "displayname") username;
   PHref (dav "current-user-principal") (principal_href username); PHref (dav "principal-URL") (principal_href username);
   PHrefSet (caldav "calendar-home-set") [home_href Cal username]; PHrefSet (carddav "addressbook-home-set") [home_href Card username];
   PHrefSet (caldav "calendar-user-address-set") [bs "mailto:" ++ username]; PText (caldav "calendar-user-type") (bs "INDIVIDUAL");
   PSupportedReports []].
Definition home_props (f : Family) (username : bytes) : list PropValue :=
  [PResourceTypes [RtCollection]; PText (dav "displayname") match f with Cal => bs "Calendars" | Card => bs "Address Books" end;
   PHref (dav "current-user-principal") (principal_href username); PHref (dav "owner") (principal_href username)].
Definition supported_reports (f : Family) : list (Prefix * bytes) :=
  match f with
  | Cal => [(PD, bs "sync-collection"); (PC, bs "calendar-query"); (PC, bs "calendar-multiget")]
  | Card => [(PD, bs "sync-collection"); (PB, bs "addressbook-query"); (PB, bs "addressbook-multiget")]
  end.
(** The first value of each name is kept. *)
Fixpoint dedupe_from (seen : list PropName) (props : list PropValue) : list PropValue :=
  match props with
  | [] => []
  | p :: props => if bool_decide (name_of p ∈ seen) then dedupe_from seen props else p :: dedupe_from (seen ++ [name_of p]) props
  end.
Definition dedupe (props : list PropValue) : list PropValue := dedupe_from [] props.
Definition dead_value (d : DeadProperty) : PropValue := PText (mkProp (from_uri (dp_ns d)) (dp_name d)) (dp_value d).
(** A property that is there only when it has a value. *)
Definition maybe (name : PropName) (v : option bytes) : list PropValue := match v with Some v => [PText name v] | None => [] end.
Definition collection_props (f : Family) (username : bytes) (v : CollectionView) (state : Z) : list PropValue :=
  dedupe
    ((dead_value <$> cv_dead v)
     ++ [PResourceTypes [RtCollection; match f with Cal => RtCalendar | Card => RtAddressBook end];
         PText (dav "displayname") (cv_display_name v); PText (calendar_server "getctag") (fmt_dec state);
         PText (dav "sync-token") (sync_token state); PSupportedReports (supported_reports f);
         PHref (dav "owner") (principal_href username); PHref (dav "current-user-principal") (principal_href username)]
     ++ match f with
        | Cal =>
            [PSupportedComponents [bs "VEVENT"]; PText (apple "calendar-order") (fmt_dec (cv_order v))]
            ++ maybe (apple "calendar-color") (cv_color v) ++ maybe (caldav "calendar-description") (cv_description v)
            ++ maybe (caldav "calendar-timezone") (cv_time_zone v)
        | Card => maybe (carddav "addressbook-description") (cv_description v)
        end).
Definition object_props (f : Family) (o : ObjectView) : list PropValue :=
  [PText (dav "getetag") ([34] ++ ov_etag o ++ [34]); PText (dav "getcontenttype") (content_type f);
   PText (dav "getcontentlength") (fmt_dec (ov_size o)); PResourceTypes [];
   match f with Cal => PCalendarData (ov_data o) | Card => PAddressData (ov_data o) end].

(** ** handler/sync.rs *)

(** [u64::from_str_radix] to base 16, which allows a plus sign. *)
Definition hex_number (s : bytes) : option Z :=
  foldl (λ acc b, n ← acc; d ← hex_value b; let n := n * 16 + d in if n <=? U64_MAX then Some n else None) (Some 0) s.
Definition parse_hex_u64 (s : bytes) : option Z :=
  let digits := match s with 43 :: r => r | _ => s end in if bool_decide (digits = []) then None else hex_number digits.
Definition parse_sync_token (token : option bytes) : option Z :=
  t ← token; value ← Text.strip_prefix SYNC_TOKEN_PREFIX (str_trim t); parse_hex_u64 value.

Record Coalesced : Type := mkCoalesced { co_change_id : Z; co_document_id : Z; co_deleted : bool }.
(** The latest change, whether the document was inserted, and whether it is
    deleted. *)
Definition coalesce_step (seen : gmap Z (Z * bool * bool)) (e : ChangeLogEntry) : gmap Z (Z * bool * bool) :=
  let '(c, inserted, deleted) := default (0, false, false) (seen !! document_id e) in
  let c := Z.max c (change_id e) in
  <[document_id e := match kind e with
                     | ChangeLog.Insert => (c, true, false)
                     | ChangeLog.Update => (c, inserted, false)
                     | ChangeLog.Delete => (c, inserted, true)
                     end]> seen.
Definition coalesce (changes : list ChangeLogEntry) : list Coalesced :=
  let seen := sort_by_key fst (map_to_list (foldl coalesce_step ∅ changes)) in
  sort_by_key co_change_id
    ((λ x : Z * (Z * bool * bool), mkCoalesced x.2.1.1 x.1 x.2.2)
       <$> filter (λ x : Z * (Z * bool * bool), x.2.1.2 && x.2.2 = false) seen).

(** A row of a synchronisation: an object as it is, or one that is gone. *)
Inductive SyncRow : Type := Present (href : bytes) (view : ObjectView) | Gone (href : bytes).

Section sync.
Context {S : Type} `{Store S} `{DavJson} `{DavLibrary}.

(** [object_response]. *)
Definition shown (username : bytes) (f : Family) (v : CollectionView) (o : ObjectView) : SyncRow :=
  Present (object_href f username (cv_name v) (ov_name o)) o.
(** One row of the report, if it concerns the collection. *)
Definition sync_row (a : Z) (username : bytes) (f : Family) (v : CollectionView) (row : Coalesced) (s : S)
  : result (option (Z * SyncRow)) :=
  if co_deleted row then
    t ← tombstone a (object_collection f) (co_document_id row) s;
    Ok match t with
       | Some t =>
           if ts_parent_id t =? cv_id v then Some (co_change_id row, Gone (object_href f username (cv_name v) (ts_name t))) else None
       | None => None
       end
  else
    o ← object_by_id a f (co_document_id row) s;
    Ok match o with
       | Some o =>
           if ov_parent o =? cv_id v
           then Some (co_change_id row, shown username f v o) else None
       | None => None
       end.
Fixpoint sync_rows (a : Z) (username : bytes) (f : Family) (v : CollectionView) (rows : list Coalesced) (s : S)
  : result (list (Z * SyncRow)) :=
  match rows with
  | [] => Ok []
  | row :: rows => r ← sync_row a username f v row s; rs ← sync_rows a username f v rows s; Ok (option_list r ++ rs)
  end.
Definition max_change (changes : list ChangeLogEntry) : option Z :=
  match changes with [] => None | e :: l => Some (foldl Z.max (change_id e) (change_id <$> l)) end.
(** No more rows than the client wants; it is then up to the last of them. *)
Definition cut (limit : option nat) (since token : Z) (included : list (Z * SyncRow)) : list SyncRow * Z :=
  match limit with
  | Some limit =>
      if (limit <? length included)%nat then (snd <$> take limit included, default since (fst <$> last (take limit included)))
      else (snd <$> included, token)
  | None => (snd <$> included, token)
  end.
(** The rows and the change the client is then up to. *)
Definition report_rows (a : Z) (username : bytes) (f : Family) (v : CollectionView) (req : SyncCollection) (s : S)
  : result (list SyncRow * Z) :=
  match parse_sync_token (sy_token req) with
  | None =>
      l ← objects a f (cv_id v) s;
      token ← dav_state a (object_collection f) s;
      Ok (shown username f v <$> (l : list ObjectView), token)
  | Some since =>
      changes ← changes_since a (object_collection f) since s;
      included ← sync_rows a username f v (coalesce changes) s;
      token ← (match max_change changes with Some latest => Ok latest | None => dav_state a (object_collection f) s end : result Z);
      Ok (cut (sy_limit req) since token included)
  end.
Definition row_response (f : Family) (props : PropRequest) (r : SyncRow) : DavResponse :=
  match r with
  | Present href o => respond href props (object_props f o)
  | Gone href => mkResponse href [] (Some 404)
  end.
(** [report] of sync.rs. *)
Definition sync_report (a : Z) (username : bytes) (f : Family) (v : CollectionView) (req : SyncCollection) (s : S) : result DavReply :=
  '(rows, token) ← report_rows a username f v req s;
  Ok (xml_reply 207 (multistatus_xml (mkMulti (row_response f (with_default_etag (sy_props req)) <$> (rows : list SyncRow)) (Some (sync_token token))))).
End sync.

(** ** proppatch of handler/collection.rs *)

Definition drop_dead (v : CollectionView) (p : PropName) : CollectionView :=
  mkCollectionView (cv_id v) (cv_name v) (cv_display_name v) (cv_color v) (cv_order v) (cv_description v) (cv_time_zone v)
    (List.filter (λ e, negb (bool_decide (dp_ns e = ns_uri (pn_ns p)) && bool_decide (dp_name e = pn_name p))) (cv_dead v)) (cv_created v).
Definition set_dead (v : CollectionView) (p : PropName) (value : bytes) : CollectionView :=
  let v := drop_dead v p in
  mkCollectionView (cv_id v) (cv_name v) (cv_display_name v) (cv_color v) (cv_order v) (cv_description v) (cv_time_zone v)
    (cv_dead v ++ [mkDead (ns_uri (pn_ns p)) (pn_name p) value]) (cv_created v).
Definition set_display_name (v : CollectionView) (x : bytes) : CollectionView :=
  mkCollectionView (cv_id v) (cv_name v) x (cv_color v) (cv_order v) (cv_description v) (cv_time_zone v) (cv_dead v) (cv_created v).
Definition set_color (v : CollectionView) (x : option bytes) : CollectionView :=
  mkCollectionView (cv_id v) (cv_name v) (cv_display_name v) x (cv_order v) (cv_description v) (cv_time_zone v) (cv_dead v) (cv_created v).
Definition set_order (v : CollectionView) (x : Z) : CollectionView :=
  mkCollectionView (cv_id v) (cv_name v) (cv_display_name v) (cv_color v) x (cv_description v) (cv_time_zone v) (cv_dead v) (cv_created v).
Definition set_description (v : CollectionView) (x : option bytes) : CollectionView :=
  mkCollectionView (cv_id v) (cv_name v) (cv_display_name v) (cv_color v) (cv_order v) x (cv_time_zone v) (cv_dead v) (cv_created v).
Definition set_time_zone (v : CollectionView) (x : option bytes) : CollectionView :=
  mkCollectionView (cv_id v) (cv_name v) (cv_display_name v) (cv_color v) (cv_order v) (cv_description v) x (cv_dead v) (cv_created v).
Definition apply_set (v : CollectionView) (p : PropName) (value : bytes) : CollectionView :=
  if is_prop p NsDav "displayname" then set_display_name v value
  else if is_prop p NsAppleICal "calendar-color" then set_color v (Some value)
  else if is_prop p NsAppleICal "calendar-order" then
    match parse_u32 (str_trim value) with Some order => drop_dead (set_order v order) p | None => set_dead v p value end
  else if is_prop p NsCalDav "calendar-description" || is_prop p NsCardDav "addressbook-description" then set_description v (Some value)
  else if is_prop p NsCalDav "calendar-timezone" then set_time_zone v (Some value)
  else set_dead v p value.
Definition apply_remove (v : CollectionView) (p : PropName) : CollectionView :=
  drop_dead
    (if is_prop p NsDav "displayname" then set_display_name v []
     else if is_prop p NsAppleICal "calendar-color" then set_color v None
     else if is_prop p NsAppleICal "calendar-order" then set_order v 0
     else if is_prop p NsCalDav "calendar-description" || is_prop p NsCardDav "addressbook-description" then set_description v None
     else if is_prop p NsCalDav "calendar-timezone" then set_time_zone v None
     else v) p.
Definition apply_update (v : CollectionView) (u : PropertyUpdate) : CollectionView :=
  foldl apply_remove (foldl (λ v (x : PropName * bytes), apply_set v x.1 x.2) v (pu_set u)) (pu_remove u).

(** ** handler/propfind.rs, report.rs and the dispatch of mod.rs *)

Section requests.
Context {S : Type} `{Store S} `{DavJson} `{DavLibrary} `{XmlReader}.

Definition proppatch (a : Z) (username : bytes) (t : Target) (req : DavRequest) (now : Z) : M S DavReply :=
  match t with
  | InCollection f name =>
      v ← reads (collection a f name);
      match v with
      | None => mret (status 404)
      | Some v =>
          match parse_propertyupdate (dr_body req) with
          | None => mret (status 400)
          | Some u =>
              let touched := PEmpty <$> (fst <$> pu_set u) ++ pu_remove u in
              let v := apply_update v u in
              _ ← save_collection a f v now;
              mret (xml_reply 207 (multistatus_xml (mkMulti [mkResponse (collection_href f username (cv_name v)) [mkPropStat 200 touched] None] None)))
          end
      end
  | _ => mret (status 403)
  end.

(** The rows of a PROPFIND, or the status that ends it. *)
Definition propfind_rows (a : Z) (username : bytes) (t : Target) (request : PropRequest) (depth : Z) (s : S) : result (Z + list DavResponse) :=
  match t with
  | Root => Ok (inr [respond (bs "/dav/") request (service_root_props username)])
  | Service f => Ok (inr [respond (bs "/dav/" ++ segment f ++ bs "/") request (service_root_props username)])
  | Principal => Ok (inr [respond (principal_href username) request (principal_props username)])
  | Home f =>
      let own := respond (home_href f username) request (home_props f username) in
      if 1 <=? depth then
        state ← dav_state a (object_collection f) s;
        l ← collections a f s;
        Ok (inr (own :: ((λ v, respond (collection_href f username (cv_name v)) request (collection_props f username v state)) <$> (l : list CollectionView))))
      else Ok (inr [own])
  | InCollection f name =>
      v ← collection a f name s;
      match v with
      | None => Ok (inl 404)
      | Some v =>
          state ← dav_state a (object_collection f) s;
          let own := respond (collection_href f username (cv_name v)) request (collection_props f username v state) in
          if 1 <=? depth then
            l ← objects a f (cv_id v) s;
            Ok (inr (own :: ((λ o, respond (object_href f username (cv_name v) (ov_name o)) request (object_props f o)) <$> (l : list ObjectView))))
          else Ok (inr [own])
      end
  | Object f c name =>
      parent ← collection a f c s;
      match parent with
      | None => Ok (inl 404)
      | Some parent =>
          o ← object a f (cv_id parent) name s;
          match o with
          | None => Ok (inl 404)
          | Some o => Ok (inr [respond (object_href f username (cv_name parent) (ov_name o)) request (object_props f o)])
          end
      end
  end.
Definition multistatus (responses : list DavResponse) : DavReply := xml_reply 207 (multistatus_xml (mkMulti responses None)).
Definition propfind (a : Z) (username : bytes) (t : Target) (req : DavRequest) (s : S) : result DavReply :=
  match parse_propfind (dr_body req) with
  | None => Ok (status 400)
  | Some request =>
      let depth := default 1 (dr_depth req) in
      if 1 <? depth then Ok (status 403)
      else
        rows ← propfind_rows a username t request depth s;
        Ok match rows with inl code => status code | inr rows => multistatus rows end
  end.

Definition object_response (username : bytes) (f : Family) (v : CollectionView) (props : PropRequest) (o : ObjectView) : DavResponse :=
  respond (object_href f username (cv_name v) (ov_name o)) props (object_props f o).
Definition in_time_range (range : option (option Z * option Z)) (o : ObjectView) : bool :=
  match range with
  | Some (start, stop) => (ov_starts_min o <? default I64_MAX stop) && (default (- 2 ^ 63) start <? ov_ends_max o)
  | None => true
  end.
Definition calendar_query (a : Z) (username : bytes) (v : CollectionView) (q : CalendarQuery) (s : S) : result DavReply :=
  l ← objects a Cal (cv_id v) s;
  Ok (multistatus (object_response username Cal v (with_default_etag (cq_props q)) <$> List.filter (in_time_range (cq_time_range q)) l)).
Definition text_matches (t : TextFilter) (o : ObjectView) : bool :=
  let has (s : bytes) := bool_decide (is_Some (find_sub (dav_lowercase (tf_value t)) (dav_lowercase s))) in
  if bool_decide (tf_prop t = bs "EMAIL") then existsb has (ov_emails o) else has (ov_full_name o).
Definition addressbook_query (a : Z) (username : bytes) (v : CollectionView) (q : AddressbookQuery) (s : S) : result DavReply :=
  l ← objects a Card (cv_id v) s;
  let responses :=
    object_response username Card v (with_default_etag (aq_props q)) <$> List.filter (λ o, forallb (λ t, text_matches t o) (aq_filters q)) l in
  Ok (multistatus match aq_limit q with Some n => take n responses | None => responses end).
Definition multiget_row (a : Z) (username : bytes) (f : Family) (v : CollectionView) (props : PropRequest) (href : bytes) (s : S)
  : result DavResponse :=
  resolved ← (match parse_target (strip_origin href) username with
              | inr (Object f' c name) =>
                  if bool_decide (f' = f) && bool_decide (c = cv_name v) then object a f (cv_id v) name s else Ok None
              | _ => Ok None
              end : result (option ObjectView));
  Ok match resolved with Some o => object_response username f v props o | None => mkResponse href [] (Some 404) end.
Fixpoint multiget_rows (a : Z) (username : bytes) (f : Family) (v : CollectionView) (props : PropRequest) (hrefs : list bytes) (s : S)
  : result (list DavResponse) :=
  match hrefs with
  | [] => Ok []
  | h :: hrefs => r ← multiget_row a username f v props h s; rs ← multiget_rows a username f v props hrefs s; Ok (r :: rs)
  end.
Definition multiget (a : Z) (username : bytes) (f : Family) (v : CollectionView) (q : Multiget) (s : S) : result DavReply :=
  rows ← multiget_rows a username f v (with_default_etag (mg_props q)) (mg_hrefs q) s; Ok (multistatus rows).
(** [handle] of report.rs. *)
Definition report (a : Z) (username : bytes) (t : Target) (req : DavRequest) (s : S) : result DavReply :=
  match t with
  | InCollection f name =>
      v ← collection a f name s;
      match v with
      | None => Ok (status 404)
      | Some v =>
          match parse_report (dr_body req), f with
          | None, _ => Ok (status 400)
          | Some (RSyncCollection q), _ => sync_report a username f v q s
          | Some (RCalendarQuery q), Cal => calendar_query a username v q s
          | Some (RCalendarMultiget q), Cal => multiget a username Cal v q s
          | Some (RAddressbookQuery q), Card => addressbook_query a username v q s
          | Some (RAddressbookMultiget q), Card => multiget a username Card v q s
          | _, _ => Ok (status 403)
          end
      end
  | _ => Ok (status 403)
  end.

Definition is_method (req : DavRequest) (m : string) : bool := bool_decide (dr_method req = bs m).
Definition run (a : Z) (username : bytes) (req : DavRequest) (now : Z) : M S DavReply :=
  if is_method req "OPTIONS" then mret (status 200)
  else
    _ ← ensure_defaults a now;
    match parse_target (dr_path req) username with
    | inl code => mret (status code)
    | inr t =>
        if is_method req "PROPFIND" then reads (propfind a username t req)
        else if is_method req "PROPPATCH" then proppatch a username t req now
        else if is_method req "MKCALENDAR" || is_method req "MKCOL" then mkcol a t req now
        else if is_method req "GET" || is_method req "HEAD" then reads (get a t req)
        else if is_method req "PUT" then put a t req now
        else if is_method req "DELETE" then delete a t
        else if is_method req "COPY" || is_method req "MOVE" then copy_or_move a username t req now
        else if is_method req "REPORT" then reads (report a username t req)
        else mret (status 405)
    end.
Definition handle (a : Z) (username : bytes) (req : DavRequest) (now : Z) (s : S) : DavReply * S :=
  let '(r, s') := run a username req now s in (match r with Ok reply => reply | Err _ => status 500 end, s').
End requests.

(** ** What PROPPATCH sets, PROPFIND finds *)

Lemma ns_uri_from u : ns_uri (from_uri u) = u.
Proof. unfold from_uri. repeat case_bool_decide; by subst. Qed.
Lemma find_dedupe_from seen l n : n ∉ seen → find_prop (dedupe_from seen l) n = find_prop l n.
Proof.
  revert seen. induction l as [|x l IH]; intros seen Hn; [done|]. cbn [dedupe_from]. unfold find_prop in *. cbn [List.find].
  destruct (decide (name_of x ∈ seen)) as [Hs|Hs]; [rewrite (bool_decide_eq_true_2 (name_of x ∈ seen)) by done|rewrite (bool_decide_eq_false_2 (name_of x ∈ seen)) by done].
  - rewrite (bool_decide_eq_false_2 (name_of x = n)) by congruence. by apply IH.
  - cbn [List.find]. destruct (decide (name_of x = n)) as [E|E]; [by rewrite bool_decide_eq_true_2|]. rewrite bool_decide_eq_false_2 by done.
    apply IH. rewrite elem_of_app, list_elem_of_singleton. naive_solver.
Qed.
Lemma find_app_none {X} (g : X → bool) l1 l2 : List.find g l1 = None → List.find g (l1 ++ l2) = List.find g l2.
Proof. induction l1 as [|x l1 IH]; [done|]. cbn. by destruct (g x). Qed.
(** The properties [apply_set] has a field for. *)
Definition has_field (p : PropName) : bool :=
  is_prop p NsDav "displayname" || is_prop p NsAppleICal "calendar-color" || is_prop p NsAppleICal "calendar-order"
  || is_prop p NsCalDav "calendar-description" || is_prop p NsCardDav "addressbook-description" || is_prop p NsCalDav "calendar-timezone".
(** A property without a field that a client sets is what the collection
    answers for that name afterwards, whichever name it is: also one of the
    properties the server computes. *)
Theorem set_property_found f username v uri name value state :
  has_field (mkProp (from_uri uri) name) = false →
  find_prop (collection_props f username (apply_set v (mkProp (from_uri uri) name) value) state) (mkProp (from_uri uri) name)
  = Some (PText (mkProp (from_uri uri) name) value).
Proof.
  set (p := mkProp (from_uri uri) name). intros Hno. unfold has_field in Hno. repeat apply orb_false_iff in Hno as [Hno ?].
  assert (apply_set v p value = set_dead v p value) as ->.
  { unfold apply_set. by repeat match goal with H : is_prop p _ _ = false |- _ => rewrite H; clear H end. }
  unfold collection_props, dedupe. rewrite find_dedupe_from by apply not_elem_of_nil.
  cbn [set_dead cv_dead]. rewrite fmap_app, <-app_assoc. unfold find_prop. rewrite find_app_none.
  - cbn [fmap list_fmap app List.find]. assert (dead_value (mkDead (ns_uri (pn_ns p)) (pn_name p) value) = PText p value) as ->
      by (unfold dead_value; cbn; by rewrite ns_uri_from). by rewrite bool_decide_eq_true_2.
  - destruct (List.find _ _) as [x|] eqn:F; [|done]. apply find_some in F as [Hin%list_elem_of_In Hx%bool_decide_eq_true].
    apply list_elem_of_fmap in Hin as (d & -> & Hd). cbn [drop_dead cv_dead] in Hd. apply list_elem_of_In, filter_In in Hd as [_ Hd]. exfalso.
    cbn [dead_value name_of] in Hx. unfold p in Hx. injection Hx as Hns Hnm. apply (f_equal ns_uri) in Hns. rewrite !ns_uri_from in Hns.
    cbn in Hd. rewrite !ns_uri_from, Hns, Hnm in Hd. by rewrite !bool_decide_eq_true_2 in Hd.
Qed.
