(* ===== verification/DavSync.v ===== *)
(** * CalDAV and CardDAV: synchronisation is exact (crates/dav/src/handler/sync.rs)

    A client keeps a copy of a collection and a token; the server answers with
    what has changed since.  First the abstract machine: objects that come,
    change and go, each change numbered, and what it means that a client is
    behind by no more than the changes after its token.  Every change of the
    server keeps this; every answer, cut or whole, keeps it for the new token;
    and a whole answer makes the copy the collection.  Then the rows of the
    store and the code of the report refine this machine. *)

From S2P Require Import Prelude Bytes Key Store ChangeLog Text Dav.
From stdpp Require Import base gmap list strings sorting.
From Stdlib Require Import ZArith Lia.

Open Scope Z_scope.

(** ** The machine *)

(** The objects by id, the names of those that are gone, when each came and
    was changed last, the number of the last change and the last id. *)
Record dstate : Type := mkDstate {
  d_objs : gmap Z ObjectView; d_tombs : gmap Z Tombstone; d_born : gmap Z Z; d_last : gmap Z Z; d_clock : Z; d_next : Z }.

Definition same_name (o o' : ObjectView) : Prop := ov_parent o = ov_parent o' ∧ ov_name o = ov_name o'.
Definition name_free (A : dstate) (o : ObjectView) : Prop := ∀ i o', d_objs A !! i = Some o' → ¬ same_name o o'.
Definition stamped (A : dstate) (id : Z) (k : ChangeKind) : ChangeLogEntry := mkEntry (d_clock A + 1) id k.

Record dinv (A : dstate) : Prop := {
  di_alive i o : d_objs A !! i = Some o → ov_id o = i ∧ is_Some (d_last A !! i);
  di_born i b : d_born A !! i = Some b → ∃ l, d_last A !! i = Some l ∧ b ≤ l;
  di_last i l : d_last A !! i = Some l → is_Some (d_born A !! i) ∧ 0 < l ≤ d_clock A ∧ 1 ≤ i ≤ d_next A;
  di_tomb i t : d_tombs A !! i = Some t → d_objs A !! i = None ∧ d_last A !! i = Some (ts_change_id t);
  di_dead i l : d_last A !! i = Some l → d_objs A !! i = None → ∃ t, d_tombs A !! i = Some t;
  di_names i j o o' : d_objs A !! i = Some o → d_objs A !! j = Some o' → same_name o o' → i = j;
  di_order i j o t l :
    d_objs A !! i = Some o → d_tombs A !! j = Some t → ts_parent_id t = ov_parent o → ts_name t = ov_name o →
    d_last A !! i = Some l → ts_change_id t < l;
  di_clock : 0 ≤ d_clock A ∧ 0 ≤ d_next A;
}.

Lemma dinv_fresh A i :
  dinv A → d_next A < i → d_last A !! i = None ∧ d_objs A !! i = None ∧ d_tombs A !! i = None ∧ d_born A !! i = None.
Proof.
  intros HA Hi. assert (d_last A !! i = None) as Hl.
  { destruct (d_last A !! i) as [l|] eqn:E; [|done]. apply (di_last A HA) in E as (_ & _ & ?). lia. }
  split_and!; [done|..].
  - destruct (d_objs A !! i) as [o|] eqn:E; [|done]. apply (di_alive A HA) in E as [_ [? ?]]. congruence.
  - destruct (d_tombs A !! i) as [t|] eqn:E; [|done]. apply (di_tomb A HA) in E as [_ ?]. congruence.
  - destruct (d_born A !! i) as [b|] eqn:E; [|done]. apply (di_born A HA) in E as (? & ? & _). congruence.
Qed.

Ltac map_cases :=
  repeat match goal with
  | H : (<[_ := _]> _) !! _ = Some _ |- _ => apply lookup_insert_Some in H as [[? ?]|[? H]]; simplify_eq
  | H : base.delete _ _ !! _ = Some _ |- _ => apply lookup_delete_Some in H as [? H]
  end.

Definition inserted (A : dstate) (o : ObjectView) : dstate :=
  mkDstate (<[ov_id o := o]> (d_objs A)) (d_tombs A) (<[ov_id o := d_clock A + 1]> (d_born A))
    (<[ov_id o := d_clock A + 1]> (d_last A)) (d_clock A + 1) (ov_id o).
Definition updated (A : dstate) (o : ObjectView) : dstate :=
  mkDstate (<[ov_id o := o]> (d_objs A)) (d_tombs A) (d_born A) (<[ov_id o := d_clock A + 1]> (d_last A)) (d_clock A + 1) (d_next A).
Definition removed (A : dstate) (o : ObjectView) : dstate :=
  mkDstate (base.delete (ov_id o) (d_objs A)) (<[ov_id o := mkTombstone (d_clock A + 1) (ov_parent o) (ov_name o)]> (d_tombs A))
    (d_born A) (<[ov_id o := d_clock A + 1]> (d_last A)) (d_clock A + 1) (d_next A).
Inductive dstep (A : dstate) : ChangeLogEntry → dstate → Prop :=
  | d_insert o : d_next A < ov_id o → name_free A o → dstep A (stamped A (ov_id o) ChangeLog.Insert) (inserted A o)
  | d_update o o0 :
      d_objs A !! ov_id o = Some o0 → same_name o o0 → dstep A (stamped A (ov_id o) ChangeLog.Update) (updated A o)
  | d_delete o : d_objs A !! ov_id o = Some o → dstep A (stamped A (ov_id o) ChangeLog.Delete) (removed A o).

Lemma dinv_insert A o : dinv A → d_next A < ov_id o → name_free A o → dinv (inserted A o).
Proof.
  intros HA Hid Hfree. destruct (dinv_fresh A _ HA Hid) as (Fl & Fo & Ft & Fb). pose proof (di_clock A HA).
  split; cbn [inserted updated removed d_objs d_tombs d_born d_last d_clock d_next].
  - intros i o' Hi. map_cases; [by rewrite lookup_insert_eq|]. rewrite lookup_insert_ne by done. by apply (di_alive A HA).
  - intros i b Hi. map_cases; [rewrite lookup_insert_eq; eexists; by split|]. rewrite lookup_insert_ne by done. by apply (di_born A HA).
  - intros i l Hi. map_cases; [rewrite lookup_insert_eq; split; [done|lia]|]. rewrite lookup_insert_ne by done.
    apply (di_last A HA) in Hi as (? & ? & ?). split_and!; [done|lia..].
  - intros i t Hi. pose proof (di_tomb A HA i t Hi) as [Ho Hl]. assert (i ≠ ov_id o) by congruence.
    rewrite !lookup_insert_ne by done. done.
  - intros i l Hi Ho. apply lookup_insert_None in Ho as [Ho ?]. map_cases; try done. by apply (di_dead A HA i l).
  - intros i j o1 o2 Hi Hj Hs. map_cases; try done.
    + destruct (Hfree _ _ Hi). destruct Hs. by split.
    + by destruct (Hfree _ _ Hj).
    + by apply (di_names A HA i j o1 o2).
  - intros i j o1 t l Hi Hj Hp Hn Hl. pose proof (di_tomb A HA j t Hj) as [_ Hlj]. apply (di_last A HA) in Hlj as (_ & ? & _).
    map_cases; [lia|]. by eapply (di_order A HA).
  - lia.
Qed.
Lemma dinv_update A o o0 : dinv A → d_objs A !! ov_id o = Some o0 → same_name o o0 → dinv (updated A o).
Proof.
  intros HA Ho Hsame.
  destruct (di_alive A HA _ _ Ho) as [_ [l0 Hl0]]. pose proof (di_last A HA _ _ Hl0) as (Hb0 & ? & ?). pose proof (di_clock A HA).
  split; cbn [inserted updated removed d_objs d_tombs d_born d_last d_clock d_next].
  - intros i o' Hi. map_cases; [by rewrite lookup_insert_eq|]. rewrite lookup_insert_ne by done. by apply (di_alive A HA).
  - intros i b Hi. destruct (di_born A HA i b Hi) as (l & Hl & Hle). destruct (decide (ov_id o = i)) as [<-|].
    + rewrite lookup_insert_eq. eexists. split; [done|]. apply (di_last A HA) in Hl as (_ & ? & _). lia.
    + rewrite lookup_insert_ne by done. eauto.
  - intros i l Hi. map_cases; [split_and!; [done|lia..]|]. apply (di_last A HA) in Hi as (? & ? & ?). split_and!; [done|lia..].
  - intros i t Hi. pose proof (di_tomb A HA i t Hi) as [Hn Hl]. assert (ov_id o ≠ i) by congruence. by rewrite !lookup_insert_ne by done.
  - intros i l Hi Hn. apply lookup_insert_None in Hn as [Hn ?]. map_cases; try done. by apply (di_dead A HA i l).
  - destruct Hsame as [Hp Hn]. intros i j o1 o2 Hi Hj Hs'. map_cases; try done.
    + apply (di_names A HA _ _ o1 o0 Hi Ho). destruct Hs'. split; congruence.
    + apply (di_names A HA _ _ o0 o2 Ho Hj). destruct Hs'. split; congruence.
    + by apply (di_names A HA i j o1 o2).
  - intros i j o1 t l Hi Hj Hp Hn Hl. pose proof (di_tomb A HA j t Hj) as [_ Hlj]. apply (di_last A HA) in Hlj as (_ & ? & _).
    map_cases; try done; [lia|]. by eapply (di_order A HA).
  - lia.
Qed.
Lemma dinv_delete A o : dinv A → d_objs A !! ov_id o = Some o → dinv (removed A o).
Proof.
  intros HA Ho.
  destruct (di_alive A HA _ _ Ho) as [_ [l0 Hl0]]. pose proof (di_last A HA _ _ Hl0) as (Hb0 & ? & ?). pose proof (di_clock A HA).
  split; cbn [inserted updated removed d_objs d_tombs d_born d_last d_clock d_next].
  - intros i o' Hi. map_cases. rewrite lookup_insert_ne by done. by apply (di_alive A HA).
  - intros i b Hi. destruct (di_born A HA i b Hi) as (l & Hl & Hle). destruct (decide (ov_id o = i)) as [<-|].
    + rewrite lookup_insert_eq. eexists. split; [done|]. apply (di_last A HA) in Hl as (_ & ? & _). lia.
    + rewrite lookup_insert_ne by done. eauto.
  - intros i l Hi. map_cases; [split_and!; [done|lia..]|]. apply (di_last A HA) in Hi as (? & ? & ?). split_and!; [done|lia..].
  - intros i t Hi. map_cases; [by rewrite lookup_delete_eq, lookup_insert_eq|]. rewrite lookup_delete_ne, lookup_insert_ne by done. by apply (di_tomb A HA).
  - intros i l Hi Hn. destruct (decide (ov_id o = i)) as [<-|]; [rewrite lookup_insert_eq; eauto|].
    rewrite lookup_insert_ne in Hi by done. rewrite lookup_delete_ne in Hn by done.
    destruct (di_dead A HA i l Hi Hn) as [t Ht]. exists t. by rewrite lookup_insert_ne.
  - intros i j o1 o2 Hi Hj Hs'. map_cases. by apply (di_names A HA i j o1 o2).
  - intros i j o1 t l Hi Hj Hp Hn Hl. map_cases; cbn in *; try done.
    + exfalso. destruct (di_names A HA _ _ _ _ Ho Hi); [by split|done].
    + by eapply (di_order A HA).
  - lia.
Qed.
Lemma dinv_step A e A' : dinv A → dstep A e A' → dinv A'.
Proof. intros HA []; [by apply dinv_insert|by eapply dinv_update|by apply dinv_delete]. Qed.

(** ** The client *)

(** A row with the change it comes from, on a copy kept by name. *)
Inductive row : Type := Shown (o : ObjectView) | Vanished (name : bytes).
Definition row_name (y : row) : bytes := match y with Shown o => ov_name o | Vanished x => x end.

Section client.
(** Where the client keeps an object of the collection [p] of that name. *)
Context (key : bytes → bytes) `{!Inj (=) (=) key} (p : Z).
Implicit Types (m : gmap bytes ObjectView) (A : dstate) (l : list (Z * row)).

Definition apply_row m (y : Z * row) : gmap bytes ObjectView :=
  match y.2 with Shown o => <[key (ov_name o) := o]> m | Vanished x => base.delete (key x) m end.
Abbreviation apply_rows := (foldl apply_row).

(** The object of that name. *)
Definition owns A (x : bytes) (i : Z) (o : ObjectView) : Prop := d_objs A !! i = Some o ∧ ov_parent o = p ∧ ov_name o = x.
Definition mirrors A m : Prop := ∀ h o, m !! h = Some o ↔ ∃ x i, h = key x ∧ owns A x i o.
(** The client is behind by the changes after [t] only: it has every object
    that was last changed before, and a name it has was there at [t]: the
    object is there still, or gone since. *)
Definition was_there A (t : Z) (x : bytes) : Prop :=
  (∃ i o b, owns A x i o ∧ d_born A !! i = Some b ∧ b ≤ t) ∨
  (∃ j d b, d_tombs A !! j = Some d ∧ ts_parent_id d = p ∧ ts_name d = x ∧ t < ts_change_id d ∧ d_born A !! j = Some b ∧ b ≤ t).
Record agrees A (t : Z) m : Prop := {
  ag_has x i o z : owns A x i o → d_last A !! i = Some z → z ≤ t → m !! key x = Some o;
  ag_there h : is_Some (m !! h) → ∃ x, h = key x ∧ was_there A t x;
}.
(** A row of an answer for the changes after [t], and the rows for the
    changes up to [t'], in their order. *)
Definition concerns A (t : Z) (c : Z) (y : row) : Prop :=
  t < c ∧ match y with
  | Shown o => ∃ i, owns A (ov_name o) i o ∧ d_last A !! i = Some c
  | Vanished x => ∃ j d b, d_tombs A !! j = Some d ∧ ts_parent_id d = p ∧ ts_name d = x ∧ ts_change_id d = c ∧ d_born A !! j = Some b ∧ b ≤ t
  end.
Definition answer A (t t' : Z) l : Prop :=
  StronglySorted (λ y z : Z * row, y.1 < z.1) l ∧ ∀ c y, (c, y) ∈ l ↔ concerns A t c y ∧ c ≤ t'.

(** The changes of the server. *)
Lemma was_there_step A e A' t x : dinv A → t ≤ d_clock A → was_there A t x → dstep A e A' → was_there A' t x.
Proof.
  intros HA Ht Hw.
  destruct 1 as [o Hid Hfree|o o0 Ho [Hp0 Hn0]|o Ho]; destruct Hw as [(i & o' & b & (Hi & Hp & Hn) & Hb & ?)|(j & d & b & Hj & ? & ? & ? & Hb & ?)].
  - destruct (dinv_fresh A _ HA Hid) as (_ & ? & _ & ?). left. exists i, o', b. unfold owns. cbn. rewrite !lookup_insert_ne by congruence. done.
  - destruct (dinv_fresh A _ HA Hid) as (_ & _ & _ & ?). right. exists j, d, b. cbn. rewrite lookup_insert_ne by congruence. done.
  - left. destruct (decide (ov_id o = i)) as [<-|Hne].
    + exists (ov_id o), o, b. unfold owns. cbn. rewrite lookup_insert_eq. split_and!; congruence.
    + exists i, o', b. unfold owns. cbn. rewrite lookup_insert_ne by done. done.
  - right. by exists j, d, b.
  - destruct (decide (ov_id o = i)) as [<-|Hne].
    + right. exists (ov_id o), (mkTombstone (d_clock A + 1) (ov_parent o) (ov_name o)), b. cbn. rewrite lookup_insert_eq.
      assert (o' = o) as -> by congruence. split_and!; [done|done|done|lia|done|done].
    + left. exists i, o', b. unfold owns. cbn. rewrite lookup_delete_ne by done. done.
  - right. exists j, d, b. cbn. rewrite lookup_insert_ne; [done|]. intros <-. apply (di_tomb A HA) in Hj as [? _]. congruence.
Qed.
Lemma agrees_step A e A' t m : dinv A → t ≤ d_clock A → agrees A t m → dstep A e A' → agrees A' t m.
Proof.
  intros HA Ht [Hhas Hgone] Hd. split; [|intros h Hh; destruct (Hgone h Hh) as (x & -> & Hx); exists x; split; [done|by eapply was_there_step]].
  intros x i o' z (Hi & Hp & Hx) Hl Hle. destruct Hd as [o Hid Hfree|o o0 Ho Hsame|o Ho]; cbn in *; map_cases; try lia; try done; by eapply Hhas.
Qed.

(** What a name is after some rows: what the last row of the name says. *)
Lemma apply_rows_lookup l m h :
  ((∀ y, y ∈ l → key (row_name y.2) ≠ h) ∧ apply_rows m l !! h = m !! h) ∨
  ∃ l1 c y l2, l = l1 ++ (c, y) :: l2 ∧ key (row_name y) = h ∧ (∀ z, z ∈ l2 → key (row_name z.2) ≠ h) ∧
    apply_rows m l !! h = match y with Shown o => Some o | Vanished _ => None end.
Proof.
  induction l as [|[c y] l IH] using rev_ind; [left; split; [by intros ? ?%not_elem_of_nil|done]|]. rewrite foldl_snoc.
  destruct (decide (key (row_name y) = h)) as [Ey|Ney].
  - right. exists l, c, y, []. split_and!; [done|done|by intros ? ?%not_elem_of_nil|].
    destruct y as [o|x]; cbn in *; subst h; [apply lookup_insert_eq|apply lookup_delete_eq].
  - assert (apply_row (apply_rows m l) (c, y) !! h = apply_rows m l !! h) as ->.
    { destruct y as [o|x]; cbn in *; [by apply lookup_insert_ne|by apply lookup_delete_ne]. }
    destruct IH as [[Hno E]|(l1 & c' & y' & l2 & -> & Ek & Hno & E)].
    + left. split; [|done]. intros z [?| ->%list_elem_of_singleton]%elem_of_app; [by apply Hno|done].
    + right. exists l1, c', y', (l2 ++ [(c, y)]). split_and!; [by rewrite <-app_assoc|done| |done].
      intros z [?| ->%list_elem_of_singleton]%elem_of_app; [by apply Hno|done].
Qed.

(** An answer takes the client from [t] to [t']. *)
Lemma agrees_answer A t t' l m : dinv A → t ≤ t' → agrees A t m → answer A t t' l → agrees A t' (apply_rows m l).
Proof.
  intros HA Ht [Hhas Hthere] [Hs Hl]. split.
  - intros x i o z Hown Hz Hle. pose proof Hown as (Ho & Hp & Hx).
    assert (∀ c y, (c, y) ∈ l → key (row_name y) = key x → y = Shown o ∧ c = z ∨ (∃ x', y = Vanished x') ∧ c < z) as Hrow.
    { intros c y [[_ Hc] _]%Hl E%(inj key). destruct y as [o'|x'].
      - destruct Hc as (i' & (Ho' & Hp' & _) & Hz'). left. assert (i' = i) as -> by (apply (di_names A HA i' i o' o); [done..|split; cbn in *; congruence]).
        split; congruence.
      - destruct Hc as (j & d & b & Hd & ? & ? & <- & _). right. split; [by eexists|]. eapply (di_order A HA i j o d); cbn in *; try done; congruence. }
    destruct (apply_rows_lookup l m (key x)) as [[Hno ->]|(l1 & c & y & l2 & El & Ek & Hno & ->)].
    + destruct (decide (z ≤ t)); [by eapply Hhas|]. exfalso. apply (Hno (z, Shown o)); [|cbn; by rewrite Hx].
      apply Hl. split; [|done]. split; [lia|]. exists i. by rewrite Hx.
    + destruct (Hrow c y) as [[-> _]|[[x' ->] Hc]]; [rewrite El; set_solver|done|done|]. exfalso.
      assert ((z, Shown o) ∈ l) as Hin.
      { apply Hl. split; [|done]. assert ((c, Vanished x') ∈ l) as [[? _] _]%Hl by (rewrite El; set_solver). split; [lia|]. exists i. by rewrite Hx. }
      rewrite El in Hin. apply elem_of_app in Hin as [Hin|[[=]|Hin]%elem_of_cons]; [|apply (Hno _ Hin); cbn; by rewrite Hx].
      rewrite El in Hs. eapply StronglySorted_app_1_elem_of in Hs; [|exact Hin|by left]. cbn in Hs. lia.
  - intros h Hh. destruct (apply_rows_lookup l m h) as [[Hno E]|(l1 & c & y & l2 & El & <- & Hno & E)]; rewrite E in Hh.
    + destruct (Hthere h Hh) as (x & -> & Hx). exists x. split; [done|].
      destruct Hx as [(i & o & b & ? & ? & ?)|(j & d & b & Hj & Hp & Hn & Hd & Hb & ?)]; [left; exists i, o, b; split_and!; try done; lia|].
      right. exists j, d, b. split_and!; try done; [|lia]. apply Z.nle_gt. intros Hle. apply (Hno (ts_change_id d, Vanished x)); [|done].
      apply Hl. split; [|done]. split; [done|]. by exists j, d, b.
    + destruct y as [o|x]; [|by destruct Hh]. exists (ov_name o). split; [done|]. left.
      assert ((c, Shown o) ∈ l) as [[_ (i & Hown & Hz)] Hle]%Hl by (rewrite El; set_solver).
      destruct (di_last A HA i c Hz) as ([b Hb] & _). destruct (di_born A HA i b Hb) as (z & ? & ?).
      exists i, o, b. split_and!; try done. assert (z = c) by congruence. lia.
Qed.

(** Nothing is after [t]: the client has the collection. *)
Definition covers A (t : Z) : Prop := ∀ i z, d_last A !! i = Some z → z ≤ t.
Lemma owns_unique A x i j o o' : dinv A → owns A x i o → owns A x j o' → i = j ∧ o = o'.
Proof.
  intros HA (Hi & ? & ?) (Hj & ? & ?). assert (i = j) as <- by (apply (di_names A HA i j o o'); [done..|split; congruence]). split; congruence.
Qed.
Lemma agrees_mirrors A t m : dinv A → covers A t → agrees A t m → mirrors A m.
Proof.
  intros HA Ht [Hhas Hthere]. assert (∀ x i o, owns A x i o → m !! key x = Some o) as Hown.
  { intros x i o Hx. pose proof Hx as (Hi & _). destruct (di_alive A HA _ _ Hi) as [_ [z Hz]]. by eapply Hhas, Ht. }
  intros h o. split; [|intros (x & i & -> & Hx); by eapply Hown]. intros Hm. destruct (Hthere h) as (x & -> & Hx); [by eexists|].
  destruct Hx as [(i & o' & b & Hx & _)|(j & d & b & Hj & _ & _ & Hlt & _)].
  - exists x, i. split; [done|]. by rewrite (Hown _ _ _ Hx) in Hm; simplify_eq.
  - apply (di_tomb A HA) in Hj as [_ ?%Ht]. lia.
Qed.
Lemma mirrors_agrees A t m : dinv A → covers A t → mirrors A m → agrees A t m.
Proof.
  intros HA Ht Hm. split.
  - intros x i o z Hx _ _. apply Hm. by exists x, i.
  - intros h [o (x & i & -> & Hx)%Hm]. exists x. split; [done|]. left. pose proof Hx as (Hi & _).
    destruct (di_alive A HA _ _ Hi) as [_ [z Hz]]. destruct (di_last A HA _ _ Hz) as [[b Hb] _].
    destruct (di_born A HA _ _ Hb) as (z' & Hz' & ?). exists i, o, b. split_and!; [done..|]. apply Ht in Hz'. lia.
Qed.
End client.

(** ** The log and what the report makes of it *)

(** The log of the machine: every change it made. *)
Record dhist (A : dstate) (H : list ChangeLogEntry) : Prop := {
  dh_last e : e ∈ H → ∃ z, d_last A !! document_id e = Some z ∧ change_id e ≤ z;
  dh_top i z : d_last A !! i = Some z → ∃ k, mkEntry z i k ∈ H ∧ (k = ChangeLog.Delete ↔ d_objs A !! i = None);
  dh_born i b : d_born A !! i = Some b ↔ mkEntry b i ChangeLog.Insert ∈ H;
}.

Lemma dhist_step A e A' H : dinv A → dhist A H → dstep A e A' → dhist A' (e :: H).
Proof.
  intros HA [Hlast Htop Hborn] Hd.
  assert (∀ i z, d_last A !! i = Some z → z ≤ d_clock A) as Hclk by (intros i z ?%(di_last A HA); lia).
  split.
  - intros e' [->|He']%elem_of_cons; [destruct Hd; cbn; rewrite lookup_insert_eq; eexists; (split; [done|lia])|].
    destruct (Hlast e' He') as (z & Hz & ?). pose proof (Hclk _ _ Hz).
    destruct Hd; cbn; destruct (decide (ov_id o = document_id e')) as [->|];
      rewrite ?lookup_insert_eq, ?lookup_insert_ne by done; eexists; split; done || lia.
  - intros i z Hz. destruct Hd as [o Hid Hfree|o o0 Ho Hsame|o Ho]; cbn in *; (apply lookup_insert_Some in Hz as [[<- <-]|[Hne Hz]];
      [eexists; split; [left|]|destruct (Htop i z Hz) as (k & ? & Hk); exists k; split; [by right|]]).
    + by rewrite lookup_insert_eq.
    + by rewrite lookup_insert_ne.
    + by rewrite lookup_insert_eq.
    + by rewrite lookup_insert_ne.
    + by rewrite lookup_delete_eq.
    + by rewrite lookup_delete_ne.
  - intros i b. rewrite elem_of_cons, <-Hborn. destruct Hd as [o Hid Hfree|o o0 Ho Hsame|o Ho]; cbn; unfold stamped.
    + rewrite lookup_insert_Some. split; [intros [[<- <-]|[? ?]]; eauto|intros [[= -> ->]|Hb]; eauto]. right. split; [|done].
      destruct (dinv_fresh A _ HA Hid) as (_ & _ & _ & ?). congruence.
    + split; [auto|intros [[=]|?]; done].
    + split; [auto|intros [[=]|?]; done].
Qed.

Abbreviation entries_of i l := (filter (λ e, document_id e = i) l).
Definition is_insert (e : ChangeLogEntry) : bool := bool_decide (kind e = ChangeLog.Insert).
Definition is_delete (e : ChangeLogEntry) : bool := bool_decide (kind e = ChangeLog.Delete).

Lemma coalesce_seen l i :
  entries_sorted l → Forall (λ e, 0 < change_id e) l →
  foldl coalesce_step ∅ l !! i = (λ e, (change_id e, existsb is_insert (entries_of i l), is_delete e)) <$> last (entries_of i l).
Proof.
  induction l as [|e l IH] using rev_ind; [done|]. intros Hs Hp. rewrite foldl_snoc, filter_app.
  apply Forall_app in Hp as [Hp He%Forall_inv]. specialize (IH (StronglySorted_app_1_l _ _ _ Hs) Hp).
  unfold coalesce_step at 1. destruct (decide (document_id e = i)) as [Ei|Ni].
  - rewrite filter_cons_True by done; rewrite filter_nil, last_snoc, existsb_app. cbn. rewrite Ei, IH.
    assert (∀ e', last (entries_of i l) = Some e' → change_id e' < change_id e) as Hlt.
    { intros e' [_ Hin]%last_Some_elem_of%list_elem_of_filter. eapply StronglySorted_app_1_elem_of in Hs; [exact Hs|done|by left]. }
    destruct (last (entries_of i l)) as [e'|] eqn:E; cbn.
    + specialize (Hlt e' eq_refl). rewrite Z.max_r by lia. rewrite lookup_insert_eq. unfold is_insert, is_delete.
      destruct (kind e); cbn; rewrite ?orb_true_r, ?orb_false_r; done.
    + apply last_None in E. rewrite E. cbn. rewrite Z.max_r by lia. rewrite lookup_insert_eq. unfold is_insert, is_delete. by destruct (kind e).
  - rewrite filter_cons_False by done; rewrite filter_nil, app_nil_r, <-IH. destruct (default _ _) as [[c b1] b2]. by apply lookup_insert_ne.
Qed.

(** The rows of [coalesce]: the documents by their last change, but those that
    came and went. *)
Lemma elem_of_coalesce l c i d :
  entries_sorted l → Forall (λ e, 0 < change_id e) l →
  mkCoalesced c i d ∈ coalesce l ↔
  ∃ e, last (entries_of i l) = Some e ∧ c = change_id e ∧ d = is_delete e ∧ (d = true → ∀ e', e' ∈ entries_of i l → kind e' ≠ ChangeLog.Insert).
Proof.
  intros Hs Hp. unfold coalesce, sort_by_key. rewrite merge_sort_Permutation, list_elem_of_fmap.
  assert (∀ e', existsb is_insert (entries_of i l) && is_delete e' = false ↔
    (is_delete e' = true → ∀ e', e' ∈ entries_of i l → kind e' ≠ ChangeLog.Insert)) as Hdrop.
  { intros e'. destruct (is_delete e'); rewrite ?andb_true_r, ?andb_false_r; [|done]. rewrite <-not_true_iff_false, existsb_exists. unfold is_insert.
    setoid_rewrite bool_decide_eq_true. setoid_rewrite <-list_elem_of_In. naive_solver. }
  split.
  - intros ([i' [[c' ins] del]] & [= -> -> ->] & Hin). apply list_elem_of_filter in Hin as [Hf Hin]. cbn in *.
    rewrite merge_sort_Permutation, elem_of_map_to_list, coalesce_seen in Hin by done. apply fmap_Some in Hin as (e & He & [= -> -> ->]).
    exists e. split_and!; [done|done|done|by apply Hdrop].
  - intros (e & He & -> & -> & Hd). exists (i, (change_id e, existsb is_insert (entries_of i l), is_delete e)). split; [done|].
    apply list_elem_of_filter. split; [by apply Hdrop|]. rewrite merge_sort_Permutation, elem_of_map_to_list, coalesce_seen by done. by rewrite He.
Qed.

Lemma StronglySorted_inj {B} (f : B → Z) (l : list B) x y :
  StronglySorted (λ x y, f x < f y) l → x ∈ l → y ∈ l → f x = f y → x = y.
Proof.
  induction 1 as [|z l Hl IH Hz]; [by intros ?%not_elem_of_nil|]. rewrite Forall_forall in Hz.
  intros [->|Hx]%elem_of_cons [->|Hy]%elem_of_cons E; [done| | |by apply IH]; [specialize (Hz _ Hy)|specialize (Hz _ Hx)]; lia.
Qed.
Lemma sort_by_key_strict {B} (f : B → Z) (l : list B) : NoDup (f <$> l) → StronglySorted (λ x y, f x < f y) (sort_by_key f l).
Proof.
  intros Hn. unfold sort_by_key. assert (StronglySorted (key_le f) (merge_sort (key_le f) l)) as Hs.
  { apply StronglySorted_merge_sort; [|intros ??; unfold key_le; lia]. intros ???. unfold key_le. lia. }
  rewrite <-(merge_sort_Permutation (key_le f)) in Hn. induction Hs as [|x l' Hl IH Hx]; [constructor|].
  apply NoDup_cons in Hn as [Hni Hn]. constructor; [by apply IH|]. rewrite Forall_forall in *. intros y Hy. specialize (Hx y Hy). unfold key_le in Hx.
  assert (f x ≠ f y); [|lia]. intros E. apply Hni. cbn. rewrite E. by apply list_elem_of_fmap_2.
Qed.
Lemma last_entry l i e : entries_sorted l → last (entries_of i l) = Some e → ∀ e', e' ∈ l → document_id e' = i → change_id e' ≤ change_id e.
Proof.
  intros Hs (l' & El)%last_Some e' He' Hi. assert (e' ∈ entries_of i l) as Hin by (by apply list_elem_of_filter).
  apply (StronglySorted_filter _ (λ e, document_id e = i)) in Hs. rewrite El in Hin, Hs.
  apply elem_of_app in Hin as [Hin| ->%list_elem_of_singleton]; [|done]. eapply StronglySorted_app_1_elem_of in Hs; [|done|by left]. lia.
Qed.
Lemma coalesce_sorted l :
  entries_sorted l → Forall (λ e, 0 < change_id e) l → StronglySorted (λ x y, co_change_id x < co_change_id y) (coalesce l).
Proof.
  intros Hs Hp. unfold coalesce. apply sort_by_key_strict. rewrite <-list_fmap_compose. apply NoDup_fmap_2_strong.
  - assert (∀ x, x ∈ filter (λ x : Z * (Z * bool * bool), x.2.1.2 && x.2.2 = false) (sort_by_key fst (map_to_list (foldl coalesce_step ∅ l))) →
      foldl coalesce_step ∅ l !! x.1 = Some x.2 ∧ ∃ e, e ∈ l ∧ document_id e = x.1 ∧ change_id e = x.2.1.1) as Hx.
    { intros [i [[c ins] del]] [_ Hin]%list_elem_of_filter. unfold sort_by_key in Hin. rewrite merge_sort_Permutation, elem_of_map_to_list in Hin.
      split; [done|]. rewrite coalesce_seen in Hin by done. apply fmap_Some in Hin as (e & [? ?]%last_Some_elem_of%list_elem_of_filter & [= -> -> ->]). eauto. }
    intros [i v] [j w] (Hi & e1 & ? & Ei & E1)%Hx (Hj & e2 & ? & Ej & E2)%Hx E. cbn in *.
    assert (e1 = e2) as -> by (apply (StronglySorted_inj change_id l); [done..|congruence]). congruence.
  - apply NoDup_filter. unfold sort_by_key. rewrite merge_sort_Permutation. apply NoDup_map_to_list.
Qed.

Section log.
Context (A : dstate) (H : list ChangeLogEntry) (HA : dinv A) (HH : dhist A H) (Hpos : Forall (λ e, 0 < change_id e) H).
Context (t : Z) (l : list ChangeLogEntry) (Hs : entries_sorted l) (Hl : ∀ e, e ∈ l ↔ e ∈ H ∧ t < change_id e).

Lemma since_pos : Forall (λ e, 0 < change_id e) l.
Proof using Hpos Hl. apply Forall_forall. rewrite Forall_forall in Hpos. intros e [? _]%Hl. by apply Hpos. Qed.

Lemma last_since i e :
  last (entries_of i l) = Some e ↔ d_last A !! i = Some (change_id e) ∧ t < change_id e ∧ document_id e = i ∧ e ∈ H.
Proof using HH Hs Hl.
  assert (∀ e, last (entries_of i l) = Some e → d_last A !! i = Some (change_id e) ∧ t < change_id e ∧ document_id e = i ∧ e ∈ H) as Hone.
  { intros e' He. pose proof He as [Hi Hin]%last_Some_elem_of%list_elem_of_filter. pose proof Hin as [Hin' Ht]%Hl. split_and!; try done.
    destruct (dh_last A H HH e' Hin') as (z & Hz & Hle). rewrite Hi in Hz. destruct (dh_top A H HH i z Hz) as (k & Hk & _).
    assert (z ≤ change_id e') by (apply (last_entry l i e' Hs He (mkEntry z i k)); [apply Hl; cbn; split; [done|lia]|done]).
    rewrite Hz. f_equal. lia. }
  split; [apply Hone|]. intros (Hz & Ht & Hi & Hin). assert (e ∈ entries_of i l) as Hf by (apply list_elem_of_filter; split; [done|by apply Hl]).
  destruct (last (entries_of i l)) as [e'|] eqn:E; [|apply last_None in E; rewrite E in Hf; by apply not_elem_of_nil in Hf].
  destruct (Hone e' eq_refl) as (Hz' & ? & ? & ?). f_equal. apply (StronglySorted_inj change_id l); [done|by apply Hl|by apply Hl|congruence].
Qed.

Lemma coalesce_since c i d :
  mkCoalesced c i d ∈ coalesce l ↔
  d_last A !! i = Some c ∧ t < c ∧ d = bool_decide (d_objs A !! i = None) ∧ (d = true → ∃ b, d_born A !! i = Some b ∧ b ≤ t).
Proof using All.
  rewrite elem_of_coalesce by (done || apply since_pos). assert (∀ e, d_last A !! i = Some (change_id e) → t < change_id e → document_id e = i → e ∈ H →
    is_delete e = bool_decide (d_objs A !! i = None)) as Hdel.
  { intros e Hz Ht Hi He. destruct (dh_top A H HH i _ Hz) as (k & Hk & Hiff). assert (e = mkEntry (change_id e) i k) as E.
    { apply (StronglySorted_inj change_id l); [done|by apply Hl|by apply Hl|done]. }
    unfold is_delete. apply bool_decide_ext. rewrite <-Hiff. by rewrite E. }
  assert (d_last A !! i = Some c → (∀ e', e' ∈ entries_of i l → kind e' ≠ ChangeLog.Insert) ↔ ∃ b, d_born A !! i = Some b ∧ b ≤ t) as Hborn.
  { intros Hz. destruct (di_last A HA i c Hz) as ([b Hb] & _). split.
    - intros Hno. exists b. split; [done|]. apply Z.nlt_ge. intros Hlt. apply (Hno (mkEntry b i ChangeLog.Insert)); [|done].
      apply list_elem_of_filter. split; [done|]. apply Hl. split; [by apply (dh_born A H HH)|done].
    - intros (b' & Hb' & Hle) [c' i' k'] [Hi [He' Ht]%Hl]%list_elem_of_filter E. cbn in *. subst i' k'. apply (dh_born A H HH) in He'. assert (c' = b') by congruence. lia. }
  split.
  - intros (e & (Hz & Ht & Hi & He)%last_since & -> & -> & Hd). split_and!; [done|done|by apply Hdel|]. intros E. by apply Hborn, Hd.
  - intros (Hz & Ht & Hd & Hb). destruct (dh_top A H HH i c Hz) as (k & Hk & _). exists (mkEntry c i k).
    split_and!; [by apply last_since|done|rewrite Hd; symmetry; by apply Hdel|]. intros E. by apply Hborn, Hb.
Qed.
End log.
