(* ===== verification/DavServe.v ===== *)
(** * CalDAV and CardDAV: the server refines the machine of [DavSync]
    (crates/dav/src/handler/)

    The rows a collection's objects are kept in, and that every request of
    [Dav] takes them from one state of the machine to a later one; the report
    answers for the machine; and so a client that follows the protocol, from
    the first synchronisation on and however its answers are cut, has the
    collection whenever an answer was whole. *)

From S2P Require Import Prelude Bytes Key Store ChangeLog Text DavXml Dav DavSync.
From stdpp Require Import base gmap list strings sorting relations.
From Stdlib Require Import ZArith Lia.

Open Scope Z_scope.

(** ** Keys *)

(** Keys of one account differ in what they are for. *)
Lemma key_encode_ne k1 k2 :
  key_subspace k1 ≠ key_subspace k2 ∨ key_collection k1 ≠ key_collection k2 ∨ key_suffix k1 ≠ key_suffix k2 → key_encode k1 ≠ key_encode k2.
Proof.
  intros Hne (Es & _ & Ec & _ & Ex)%key_encode_split. apply (inj subspace_as_byte) in Es. apply (inj collection_as_byte) in Ec. tauto.
Qed.
Lemma collection_prefix s a c k :
  prefix_encode (kp_collection s a c) `prefix_of` key_encode k → key_subspace k = s ∧ key_collection k = c.
Proof.
  unfold prefix_encode, key_encode. cbn. rewrite prefix_cons_iff, prefix_app_same_length, prefix_cons_iff by (by rewrite !length_u32_be).
  intros (E & _ & E' & _). by apply (inj subspace_as_byte) in E; apply (inj collection_as_byte) in E'.
Qed.
Lemma collection_prefix_ne s a c k :
  key_subspace k ≠ s ∨ key_collection k ≠ c → ¬ prefix_encode (kp_collection s a c) `prefix_of` key_encode k.
Proof. intros Hne [? ?]%collection_prefix. tauto. Qed.
Lemma record_key_prefix a c i : prefix_encode (kp_collection Property a c) `prefix_of` record_key a c i.
Proof. unfold record_key, key_encode, prefix_encode. cbn. apply prefix_cons, prefix_app, prefix_cons, prefix_nil. Qed.
Lemma record_key_inj a c i j : is_u32 i → is_u32 j → record_key a c i = record_key a c j → i = j.
Proof. intros ?? (_ & _ & _ & Ed & _)%key_encode_split. by apply u32_be_inj in Ed. Qed.
Lemma tombstone_key_inj a c i j : is_u32 i → is_u32 j → tombstone_key a c i = tombstone_key a c j → i = j.
Proof. intros ?? (_ & _ & _ & Ed & _)%key_encode_split. by apply u32_be_inj in Ed. Qed.

Lemma id_key_not_counter a c : id_key a c ≠ counter_key a c.
Proof. intros (_ & _ & _ & Ed & _)%key_encode_split. discriminate Ed. Qed.
Ltac keys_differ :=
  match goal with
  | |- id_key _ _ ≠ counter_key _ _ => apply id_key_not_counter
  | |- counter_key _ _ ≠ id_key _ _ => apply not_eq_sym, id_key_not_counter
  | |- _ ≠ _ => apply key_encode_ne; cbn; (left; done) || (right; right; done)
  end.

(** The cells that count changes and ids. *)
Definition cell (a : Z) (c : Collection) (n : Z) : bytes := key_encode (key_new Counter a c n).
Definition cells_ok (a : Z) (m : contents) : Prop := ∀ c n, n = 0 ∨ n = 1 → ∃ z, counter_value (m !! cell a c n) = Some z.

Lemma cells_ok_cell a m k z : is_i64 z → cells_ok a m → cells_ok a (<[k := i64_le z]> m).
Proof.
  intros Hz Hm c n Hn. destruct (decide (k = cell a c n)) as [->|Hne].
  - rewrite lookup_insert_eq, counter_value_i64_le by done. eauto.
  - rewrite lookup_insert_ne by done. by apply Hm.
Qed.
Definition no_cell (k : bytes) : Prop := ∃ x, k = key_encode x ∧ (key_subspace x ≠ Counter ∨ key_suffix x ≠ []).
Lemma no_cell_ne k a c n : no_cell k → k ≠ cell a c n.
Proof. intros (x & -> & Hx). apply key_encode_ne. cbn. tauto. Qed.
Lemma cells_ok_insert a m k v : no_cell k → cells_ok a m → cells_ok a (<[k := v]> m).
Proof. intros Hk Hm c n Hn. rewrite lookup_insert_ne by (by apply no_cell_ne). by apply Hm. Qed.
Lemma cells_ok_delete a m k : no_cell k → cells_ok a m → cells_ok a (base.delete k m).
Proof. intros Hk Hm c n Hn. rewrite lookup_delete_ne by (by apply no_cell_ne). by apply Hm. Qed.
Lemma no_cell_record a c i : no_cell (record_key a c i).
Proof. eexists. split; [done|]. by left. Qed.
Lemma no_cell_tombstone a c i : no_cell (tombstone_key a c i).
Proof. eexists. split; [done|]. by left. Qed.
Lemma no_cell_entry a c i : no_cell (entry_key a c i).
Proof. eexists. split; [done|]. by left. Qed.
#[global] Hint Resolve no_cell_record no_cell_tombstone no_cell_entry : keys.

(** ** Writes *)

Section writes.
Context {S : Type} {store : Store S} {contract : StoreSpec S}.
Implicit Types s : S.

Definition next_change (n : Z) : Z := as_u64 (Z.max (wrapping_add_i64 n 1) FIRST_CHANGE_ID).
Lemma next_change_small n : 0 ≤ n < I64_MAX → next_change n = n + 1.
Proof.
  intros Hn. unfold next_change, FIRST_CHANGE_ID. rewrite wrapping_add_i64_id by width. rewrite Z.max_l by lia. apply Z.mod_small. width.
Qed.
Lemma record_op_spec a c doc k s n :
  healthy s → counter_at (view s) a c n →
  ∃ s1, record_op a c doc k s = (Ok (next_change n, WSet (entry_key a c (next_change n)) (encode_value (mkEntry (next_change n) doc k))), s1) ∧
    healthy s1 ∧ view s1 = <[counter_key a c := i64_le (wrapping_add_i64 n 1)]> (view s).
Proof.
  intros Hs Hn. destruct (add_and_get_spec (counter_key a c) 1 s n) as (s1 & E & Hs1 & Hv); [done|auto with keys|done|].
  exists s1. unfold record_op, allocate_change_id, mbind, M_bind. by rewrite E.
Qed.

(** A change as it is made: the counter, and then the rows with the entry. *)
Definition counted (a : Z) (c : Collection) (n : Z) (m : contents) : contents := <[counter_key a c := i64_le (wrapping_add_i64 n 1)]> m.
Definition changed (a : Z) (c : Collection) (n : Z) (e : ChangeLogEntry) (m : contents) s s' : Prop :=
  (∃ s1, healthy s1 ∧ view s1 = counted a c n (view s)) ∧ healthy s' ∧ view s' = <[entry_key a c (change_id e) := encode_value e]> m.

Lemma entry_op_ok a c e : op_ok (WSet (entry_key a c (change_id e)) (encode_value e)).
Proof. split; [apply entry_key_known|done]. Qed.
Lemma set_op_ok k v : op_ok (WSet (key_encode k) v).
Proof. split; [apply known_key_encode|done]. Qed.
Lemma delete_op_ok k : op_ok (WDelete (key_encode k)).
Proof. split; [apply known_key_encode|done]. Qed.

Lemma write_record_spec {R} `{RowJsonLaws R} a c id (r : R) k s n :
  healthy s → counter_at (view s) a c n →
  ∃ v s', row_decode v = Ok r ∧ write_record a c id r k s = (Ok tt, s') ∧
    changed a c n (mkEntry (next_change n) id k) (<[record_key a c id := v]> (counted a c n (view s))) s s'.
Proof.
  intros Hs Hn. destruct (row_round r) as (v & Ev & Dv). destruct (record_op_spec a c id k s n) as (s1 & E1 & Hs1 & Hv1); [done..|].
  destruct (batch_spec [WSet (record_key a c id) v; WSet (entry_key a c (next_change n)) (encode_value (mkEntry (next_change n) id k))] s1
    (<[entry_key a c (next_change n) := encode_value (mkEntry (next_change n) id k)]> (<[record_key a c id := v]> (view s1)))) as (s' & E & Hs' & Hv).
  { done. } { apply Forall_cons; split; [apply set_op_ok|]. apply Forall_singleton, (entry_op_ok a c (mkEntry _ _ _)). } { done. }
  exists v, s'. split; [done|]. split.
  - unfold write_record, lift, mbind, M_bind. by rewrite Ev, E1, E.
  - split; [by exists s1|]. split; [done|]. by rewrite Hv, Hv1.
Qed.
Lemma delete_record_spec `{RowJsonLaws Tombstone} a c id parent name s n :
  healthy s → counter_at (view s) a c n →
  ∃ v s', row_decode v = Ok (mkTombstone (next_change n) parent name) ∧ delete_record a c id parent name s = (Ok tt, s') ∧
    changed a c n (mkEntry (next_change n) id ChangeLog.Delete)
      (<[tombstone_key a c id := v]> (base.delete (record_key a c id) (counted a c n (view s)))) s s'.
Proof.
  intros Hs Hn. destruct (row_round (mkTombstone (next_change n) parent name)) as (v & Ev & Dv).
  destruct (record_op_spec a c id ChangeLog.Delete s n) as (s1 & E1 & Hs1 & Hv1); [done..|].
  set (op := WSet (entry_key a c (next_change n)) (encode_value (mkEntry (next_change n) id ChangeLog.Delete))) in *.
  destruct (batch_spec [WDelete (record_key a c id); WSet (tombstone_key a c id) v; op] s1
    (<[entry_key a c (next_change n) := encode_value (mkEntry (next_change n) id ChangeLog.Delete)]>
       (<[tombstone_key a c id := v]> (base.delete (record_key a c id) (view s1))))) as (s' & E & Hs' & Hv).
  { done. } { apply Forall_cons; split; [apply delete_op_ok|]. apply Forall_cons; split; [apply set_op_ok|]. apply Forall_singleton, (entry_op_ok a c (mkEntry _ _ _)). } { done. }
  exists v, s'. split; [done|]. split.
  - unfold delete_record, lift, mbind, M_bind. by rewrite E1, Ev, E.
  - split; [by exists s1|]. split; [done|]. by rewrite Hv, Hv1.
Qed.
Lemma allocate_id_spec a c s n :
  healthy s → counter_value (view s !! id_key a c) = Some n →
  ∃ s', allocate_id a c s = (Ok (as_u32 (wrapping_add_i64 n 1)), s') ∧ healthy s' ∧ view s' = <[id_key a c := i64_le (wrapping_add_i64 n 1)]> (view s).
Proof.
  intros Hs Hn. destruct (add_and_get_spec (id_key a c) 1 s n) as (s1 & E & Hs1 & Hv); [done|apply mergeable_key_encode; by left|done|].
  exists s1. unfold allocate_id, mbind, M_bind. by rewrite E.
Qed.

(** The log of the collection after a change of it. *)
Lemma changed_log a c n e m s s' H :
  log_inv a c (mkHistory s H []) → counter_at (view s) a c n → 0 ≤ n < I64_MAX → is_u32 (document_id e) → change_id e = n + 1 →
  log_agree a c (counted a c n (view s)) m → m !! counter_key a c = counted a c n (view s) !! counter_key a c →
  changed a c n e m s s' → log_inv a c (mkHistory s' (e :: H) []).
Proof.
  intros HL Hn Hr Hd Hid Hag Hc ((s1 & Hs1 & Hv1) & Hs' & Hv').
  assert (log_inv a c (mkHistory s1 H [e])) as HL1.
  { apply (log_inv_alloc a c s s1 H [] n e); [done..| | |done].
    - rewrite Hv1. unfold counted. by rewrite wrapping_add_i64_id by width.
    - split; [rewrite Hid; width|done]. }
  apply (log_inv_write a c s1 s' H [] e [] m HL1); rewrite ?Hv1; done.
Qed.
End writes.

(** ** The rows of the objects *)

(** A kind of member as the handlers see it. *)
Class Seen (R : Type) `{Member R} : Type := {
  view_of : R → ObjectView;
  view_id r : ov_id (view_of r) = mb_id r;
  view_parent r : ov_parent (view_of r) = mb_parent r;
  view_name r : ov_name (view_of r) = mb_name r;
}.
#[global] Instance seen_event : Seen CalendarEventRecord.
Proof. refine {| view_of := event_view |}; done. Defined.
#[global] Instance seen_card : Seen ContactCardRecord.
Proof. refine {| view_of := card_view |}; done. Defined.

Section rep.
Context {S : Type} {store : Store S} {contract : StoreSpec S} (R : Type) {json : RowJson R} {laws : RowJsonLaws R} {mem : Member R} {seen : Seen R}.
Context {tjson : RowJson Tombstone} {tlaws : RowJsonLaws Tombstone} (a : Z).
Implicit Types (s : S) (A : dstate) (H : list ChangeLogEntry).
Abbreviation C := (mb_collection (R := R)).
Abbreviation rows_prefix := (prefix_encode (kp_collection Property a C)).

Definition stored_as (v : bytes) (o : ObjectView) : Prop := ∃ r : R, row_decode v = Ok r ∧ view_of r = o.
(** The keys that matter. *)
Definition ours (k : bytes) : Prop :=
  rows_prefix `prefix_of` k ∨ log_prefix a C `prefix_of` k ∨ (∃ i, k = tombstone_key a C i) ∨ k = id_key a C ∨ k = counter_key a C ∨ k = floor_key a C.
Record drep s A H : Prop := {
  dr_log : log_inv a C (mkHistory s H []);
  dr_inv : dinv A;
  dr_hist : dhist A H;
  dr_clock : counter_at (view s) a C (d_clock A);
  dr_next : ∃ n, counter_value (view s !! id_key a C) = Some n ∧ d_next A ≤ n ≤ U32_MAX;
  dr_rows k v : view s !! k = Some v → rows_prefix `prefix_of` k → ∃ i o, k = record_key a C i ∧ stored_as v o ∧ d_objs A !! i = Some o;
  dr_objs i o : d_objs A !! i = Some o → ∃ v, view s !! record_key a C i = Some v ∧ stored_as v o;
  dr_tombs i d : d_tombs A !! i = Some d → ∃ v, view s !! tombstone_key a C i = Some v ∧ row_decode v = Ok d;
  dr_cells : cells_ok a (view s);
}.

Lemma drep_healthy s A H : drep s A H → healthy s.
Proof. intros Hr. apply (li_healthy _ _ _ (dr_log _ _ _ Hr)). Qed.
Lemma not_ours x : key_collection x ≠ C → ¬ ours (key_encode x).
Proof.
  intros Hne [Hp|[Hp|[[i E]|[E|[E|E]]]]]; [by apply collection_prefix in Hp as [_ ?]..| | | |];
    apply key_encode_split in E as (_ & _ & Ec & _); by apply (inj collection_as_byte) in Ec.
Qed.

(** The last id given. *)
Definition next_at s (n : Z) : Prop := counter_value (view s !! id_key a C) = Some n.
Definition next_same s s' : Prop := view s' !! id_key a C = view s !! id_key a C.

(** Writes elsewhere. *)
Lemma drep_frame s s' A H :
  drep s A H → healthy s' → (∀ k, ours k → view s' !! k = view s !! k) → cells_ok a (view s') → drep s' A H.
Proof.
  intros [HL HA HH Hc Hn Hrows Hobjs Htombs _] Hs' Hk Hcells.
  assert (view s' !! counter_key a C = view s !! counter_key a C) as Ec by (apply Hk; unfold ours; tauto).
  split; [|done|done|..|done].
  - apply (log_inv_frame a C s); [done|done| |].
    + split; [apply Hk; unfold ours; tauto|]. intros k ?. apply Hk. unfold ours. tauto.
    + intros n ? ?. exists n. unfold counter_at. by rewrite Ec.
  - unfold counter_at. by rewrite Ec.
  - rewrite Hk by (unfold ours; tauto). done.
  - intros k v Hv Hp. rewrite Hk in Hv by (by left). by apply Hrows.
  - intros i o. rewrite Hk by (left; apply record_key_prefix). apply Hobjs.
  - intros i d. rewrite Hk by (right; right; left; eauto). apply Htombs.
Qed.
Lemma cells_counted c n m : cells_ok a m → cells_ok a (counted a c n m).
Proof. apply cells_ok_cell, as_i64_range. Qed.
#[local] Hint Resolve cells_counted cells_ok_insert cells_ok_delete : keys.
Lemma changed_cells c n e k v m s s' :
  no_cell k → cells_ok a m → changed a c n e (<[k := v]> m) s s' → cells_ok a (view s').
Proof. intros ? ? (_ & _ & ->). auto with keys. Qed.

Lemma write_foreign {R'} {json' : RowJson R'} {laws' : RowJsonLaws R'} c id (r : R') k s A H :
  c ≠ C → drep s A H → ∃ s', write_record a c id r k s = (Ok tt, s') ∧ drep s' A H ∧ next_same s s'.
Proof.
  intros Hne Hr. pose proof (dr_cells _ _ _ Hr) as Hcells. destruct (Hcells c 0) as [n Hn]; [by left|].
  destruct (write_record_spec a c id r k s n) as (v & s' & _ & E & Hch); [by eapply drep_healthy|done|].
  exists s'. split; [done|]. pose proof Hch as (_ & Hs' & Hv').
  assert (∀ k', ours k' → view s' !! k' = view s !! k') as Hk.
  { intros k' Hk'. rewrite Hv'. unfold counted. rewrite !lookup_insert_ne; [done|..]; intros <-; by eapply not_ours in Hk'. }
  split; [|apply Hk; unfold ours; tauto]. apply (drep_frame s); [done|done|done|eapply changed_cells; [| |exact Hch]; auto with keys].
Qed.
Lemma delete_foreign c id parent name s A H :
  c ≠ C → drep s A H → ∃ s', delete_record a c id parent name s = (Ok tt, s') ∧ drep s' A H ∧ next_same s s'.
Proof.
  intros Hne Hr. pose proof (dr_cells _ _ _ Hr) as Hcells. destruct (Hcells c 0) as [n Hn]; [by left|].
  destruct (delete_record_spec a c id parent name s n) as (v & s' & _ & E & Hch); [by eapply drep_healthy|done|].
  exists s'. split; [done|]. pose proof Hch as (_ & Hs' & Hv').
  assert (∀ k', ours k' → view s' !! k' = view s !! k') as Hk.
  { intros k' Hk'. rewrite Hv'. unfold counted.
    rewrite lookup_insert_ne, lookup_insert_ne, lookup_delete_ne, lookup_insert_ne; [done|..]; intros <-; by eapply not_ours in Hk'. }
  split; [|apply Hk; unfold ours; tauto]. apply (drep_frame s); [done|done|done|eapply changed_cells; [| |exact Hch]; auto with keys].
Qed.
Lemma allocate_foreign c s A H :
  c ≠ C → drep s A H → ∃ id s', allocate_id a c s = (Ok id, s') ∧ drep s' A H ∧ next_same s s'.
Proof.
  intros Hne Hr. pose proof (dr_cells _ _ _ Hr) as Hcells. destruct (Hcells c 1) as [n Hn]; [by right|].
  destruct (allocate_id_spec a c s n) as (s' & E & Hs' & Hv'); [by eapply drep_healthy|done|]. do 2 eexists. split; [done|].
  assert (∀ k', ours k' → view s' !! k' = view s !! k') as Hk.
  { intros k' Hk'. rewrite Hv'. rewrite lookup_insert_ne; [done|]. intros <-; by eapply not_ours in Hk'. }
  split; [|apply Hk; unfold ours; tauto]. apply (drep_frame s); [done|done|done|rewrite Hv'; apply cells_ok_cell; [apply as_i64_range|done]].
Qed.

(** Writes of the objects. *)
Lemma under_rows k x : rows_prefix `prefix_of` k → key_subspace x ≠ Property → key_encode x ≠ k.
Proof. intros Hp Hx <-. apply collection_prefix in Hp as [? _]. done. Qed.
Lemma under_log k x : log_prefix a C `prefix_of` k → key_subspace x ≠ Key.ChangeLog → key_encode x ≠ k.
Proof. intros Hp Hx <-. apply collection_prefix in Hp as [? _]. done. Qed.
Lemma dstep_clock A e A' : dstep A e A' → d_clock A' = d_clock A + 1 ∧ e = stamped A (document_id e) (kind e) ∧ d_next A ≤ d_next A'.
Proof. destruct 1; (split_and!; [done|done|cbn; lia]). Qed.
Lemma drep_room s A H : drep s A H → 0 ≤ d_clock A.
Proof. intros Hr. apply (di_clock A (dr_inv _ _ _ Hr)). Qed.
Lemma drep_id s A H i o : drep s A H → d_objs A !! i = Some o → is_u32 i ∧ ov_id o = i.
Proof.
  intros Hr Hi. destruct (di_alive A (dr_inv _ _ _ Hr) _ _ Hi) as [? [l Hl]]. split; [|done].
  apply (di_last A (dr_inv _ _ _ Hr)) in Hl as (_ & _ & ?). destruct (dr_next _ _ _ Hr) as (n & _ & ?). width.
Qed.

(** A change of the objects that leaves the other rows as they are: the part
    that both kinds of change share. *)
Lemma change_own e m s s' A H A' :
  drep s A H → dstep A e A' → d_clock A < I64_MAX → is_u32 (document_id e) → (∃ n, counter_value (view s !! id_key a C) = Some n ∧ d_next A' ≤ n ≤ U32_MAX) →
  changed a C (d_clock A) e m s s' → cells_ok a m →
  (∀ k, log_prefix a C `prefix_of` k ∨ k = id_key a C ∨ k = counter_key a C ∨ k = floor_key a C → m !! k = counted a C (d_clock A) (view s) !! k) →
  (∀ k v, m !! k = Some v → rows_prefix `prefix_of` k → ∃ i o, k = record_key a C i ∧ stored_as v o ∧ d_objs A' !! i = Some o) →
  (∀ i o, d_objs A' !! i = Some o → ∃ v, m !! record_key a C i = Some v ∧ stored_as v o) →
  (∀ i d, d_tombs A' !! i = Some d → ∃ v, m !! tombstone_key a C i = Some v ∧ row_decode v = Ok d) →
  drep s' A' (e :: H).
Proof.
  intros Hr Hd Hclk Hu Hnext Hch Hcells Hm Hrows Hobjs Htombs. pose proof (drep_room _ _ _ Hr). pose proof Hch as (_ & Hs' & Hv').
  destruct (dstep_clock _ _ _ Hd) as (Ec & Ee & _). assert (change_id e = d_clock A + 1) as Eid by (by rewrite Ee).
  split; rewrite ?Hv'.
  - eapply changed_log; [apply (dr_log _ _ _ Hr)|apply (dr_clock _ _ _ Hr)|lia|done|done| |apply Hm; tauto|exact Hch].
    split; [apply Hm; tauto|]. intros k Hk. apply Hm. tauto.
  - eapply dinv_step; [apply (dr_inv _ _ _ Hr)|done].
  - eapply dhist_step; [apply (dr_inv _ _ _ Hr)|apply (dr_hist _ _ _ Hr)|done].
  - unfold counter_at. rewrite lookup_insert_ne by keys_differ. rewrite Hm by tauto. unfold counted.
    rewrite lookup_insert_eq, wrapping_add_i64_id, counter_value_i64_le by width. by rewrite Ec.
  - rewrite lookup_insert_ne by keys_differ. rewrite Hm by tauto. unfold counted. by rewrite lookup_insert_ne by keys_differ.
  - intros k v Hk Hp. rewrite lookup_insert_ne in Hk by (by eapply under_rows). by apply Hrows.
  - intros i o Ho. rewrite lookup_insert_ne by keys_differ. by apply Hobjs.
  - intros i d Hd'. rewrite lookup_insert_ne by keys_differ. by apply Htombs.
  - by apply cells_ok_insert; auto with keys.
Qed.

Lemma counted_ne n m k : k ≠ counter_key a C → counted a C n m !! k = m !! k.
Proof. intros Hk. unfold counted. by rewrite lookup_insert_ne. Qed.
Lemma rows_not_counter k : rows_prefix `prefix_of` k → k ≠ counter_key a C.
Proof. intros Hp. apply not_eq_sym. by eapply under_rows. Qed.

Lemma write_own (r : R) k s A H A' :
  drep s A H → dstep A (stamped A (mb_id r) k) A' → d_objs A' = <[mb_id r := view_of r]> (d_objs A) → d_tombs A' = d_tombs A →
  d_clock A < I64_MAX → is_u32 (mb_id r) → (∃ n, counter_value (view s !! id_key a C) = Some n ∧ d_next A' ≤ n ≤ U32_MAX) →
  ∃ s', write_record a C (mb_id r) r k s = (Ok tt, s') ∧ drep s' A' (stamped A (mb_id r) k :: H) ∧ next_same s s'.
Proof.
  intros Hr Hd Eo Et Hclk Hu Hnext. pose proof (drep_room _ _ _ Hr).
  destruct (write_record_spec a C (mb_id r) r k s (d_clock A)) as (v & s' & Dv & E & Hch); [by eapply drep_healthy|apply (dr_clock _ _ _ Hr)|].
  rewrite next_change_small in Hch by lia. exists s'. split; [done|].
  split; [|unfold next_same; rewrite (proj2 (proj2 Hch)); unfold counted; rewrite !lookup_insert_ne by keys_differ; done]. eapply change_own; [done|done|done|done|done|exact Hch|..].
  - apply cells_ok_insert; [auto with keys|]. apply cells_counted, (dr_cells _ _ _ Hr).
  - intros k' Hk'. apply lookup_insert_ne. destruct Hk' as [Hk'|[->|[->| ->]]]; [by eapply under_log|keys_differ..].
  - intros k' v' [[<- <-]|[Hne Hk']]%lookup_insert_Some Hp; rewrite Eo.
    + exists (mb_id r), (view_of r). split_and!; [done|by exists r|apply lookup_insert_eq].
    + rewrite counted_ne in Hk' by (by apply rows_not_counter). destruct (dr_rows _ _ _ Hr k' v') as (i & o & -> & ? & ?); [done..|].
      exists i, o. split_and!; [done..|]. rewrite lookup_insert_ne; [done|]. congruence.
  - intros i o. rewrite Eo. intros [[<- <-]|[Hne Hi]]%lookup_insert_Some.
    + exists v. rewrite lookup_insert_eq. split; [done|]. by exists r.
    + destruct (drep_id _ _ _ _ _ Hr Hi) as [? _]. rewrite lookup_insert_ne by (by intros ?%record_key_inj).
      rewrite counted_ne by keys_differ. by apply (dr_objs _ _ _ Hr).
  - intros i d. rewrite Et. intros Hi. rewrite lookup_insert_ne by keys_differ. rewrite counted_ne by keys_differ. by apply (dr_tombs _ _ _ Hr).
Qed.

Lemma delete_own o s A H :
  drep s A H → d_objs A !! ov_id o = Some o → d_clock A < I64_MAX →
  ∃ s', delete_record a C (ov_id o) (ov_parent o) (ov_name o) s = (Ok tt, s') ∧ drep s' (removed A o) (stamped A (ov_id o) ChangeLog.Delete :: H) ∧ next_same s s'.
Proof.
  intros Hr Ho Hclk. pose proof (drep_room _ _ _ Hr). destruct (drep_id _ _ _ _ _ Hr Ho) as [Hu _].
  destruct (delete_record_spec a C (ov_id o) (ov_parent o) (ov_name o) s (d_clock A)) as (v & s' & Dv & E & Hch); [by eapply drep_healthy|apply (dr_clock _ _ _ Hr)|].
  rewrite next_change_small in Hch, Dv by lia. exists s'. split; [done|].
  split; [|unfold next_same; rewrite (proj2 (proj2 Hch)); unfold counted;
    rewrite lookup_insert_ne, lookup_insert_ne, lookup_delete_ne, lookup_insert_ne by keys_differ; done].
  eapply change_own; [done|by apply d_delete|done|done|apply (dr_next _ _ _ Hr)|exact Hch|..].
  - apply cells_ok_insert; [auto with keys|]. apply cells_ok_delete; [auto with keys|]. apply cells_counted, (dr_cells _ _ _ Hr).
  - intros k' Hk'. rewrite lookup_insert_ne, lookup_delete_ne; [done|..]; destruct Hk' as [Hk'|[->|[->| ->]]]; (by eapply under_log) || keys_differ.
  - intros k' v' Hk' Hp. rewrite lookup_insert_ne in Hk' by (by eapply under_rows). apply lookup_delete_Some in Hk' as [Hne Hk'].
    rewrite counted_ne in Hk' by (by apply rows_not_counter). destruct (dr_rows _ _ _ Hr k' v') as (i & o' & -> & ? & ?); [done..|].
    exists i, o'. split_and!; [done..|]. cbn. rewrite lookup_delete_ne; [done|]. congruence.
  - cbn [removed d_objs]. intros i o' [Hne Hi]%lookup_delete_Some. destruct (drep_id _ _ _ _ _ Hr Hi) as [? _]. rewrite lookup_insert_ne by keys_differ.
    rewrite lookup_delete_ne by (by intros ?%record_key_inj). rewrite counted_ne by keys_differ. by apply (dr_objs _ _ _ Hr).
  - cbn [removed d_tombs]. intros i d [[<- <-]|[Hne Hi]]%lookup_insert_Some; [exists v; by rewrite lookup_insert_eq|].
    assert (is_u32 i). { destruct (di_tomb A (dr_inv _ _ _ Hr) _ _ Hi) as [_ (_ & _ & ?)%(di_last A (dr_inv _ _ _ Hr))]. destruct (dr_next _ _ _ Hr) as (n & _ & ?). width. }
    rewrite lookup_insert_ne by (by intros ?%tombstone_key_inj). rewrite lookup_delete_ne by keys_differ. rewrite counted_ne by keys_differ. by apply (dr_tombs _ _ _ Hr).
Qed.

(** Reads. *)
Lemma scan_load (rs : list (bytes * bytes)) (acc : list R) :
  Forall (λ x, ∃ r : R, row_decode x.2 = Ok r) rs →
  ∃ l, scan load_visit rs (acc, None) = Ok (acc ++ l, None) ∧ Forall2 (λ x r, row_decode x.2 = Ok r) rs l.
Proof.
  intros Hrs. revert acc. induction Hrs as [|[k v] rs [r Hr] Hrs IH]; intros acc; [exists []; by rewrite app_nil_r|].
  cbn [scan]. unfold load_visit at 1. cbn in Hr. rewrite Hr. cbn. destruct (IH (acc ++ [r])) as (l & -> & Hl). exists (r :: l).
  rewrite <-app_assoc. split; [done|]. by constructor.
Qed.

Definition within (parent : option Z) (o : ObjectView) : Prop := match parent with Some p => ov_parent o = p | None => True end.
(** The members of a collection, each once. *)
Record lists (parent : option Z) A (l : list R) : Prop := {
  ls_once : NoDup (mb_id <$> l);
  ls_sound r : r ∈ l → d_objs A !! mb_id r = Some (view_of r) ∧ within parent (view_of r);
  ls_all i o : d_objs A !! i = Some o → within parent o → ∃ r, r ∈ l ∧ view_of r = o;
}.
Lemma lists_Permutation parent A l l' : l ≡ₚ l' → lists parent A l → lists parent A l'.
Proof. intros E [H1 H2 H3]. split; [by rewrite <-E|intros r; rewrite <-E; apply H2|setoid_rewrite <-E; apply H3]. Qed.
Lemma lists_filter p A (l : list R) : lists None A l → lists (Some p) A (filter (λ r, mb_parent r = p) l).
Proof.
  intros [H1 H2 H3]. split.
  - clear -H1. induction l as [|r l IH]; [constructor|]. apply NoDup_cons in H1 as [Hn H1]. rewrite filter_cons. case_decide; [|by apply IH].
    constructor; [|by apply IH]. intros (r' & E & [_ ?]%list_elem_of_filter)%list_elem_of_fmap. apply Hn. cbn in E. rewrite E. by apply list_elem_of_fmap_2.
  - intros r [Hp Hr]%list_elem_of_filter. split; [by apply H2|]. cbn. by rewrite view_parent.
  - intros i o Hi Hw. destruct (H3 i o Hi I) as (r & Hr & E). exists r. split; [|done]. apply list_elem_of_filter. split; [|done].
    rewrite <-view_parent, E. done.
Qed.
Lemma rows_of_members (P : R → Prop) (rs : list (bytes * bytes)) l :
  Forall2 (λ x r, row_decode x.2 = Ok r) rs l → (∀ k v, (k, v) ∈ rs → ∃ r, k = record_key a C (mb_id r) ∧ row_decode v = Ok r ∧ P r) →
  rs.*1 = ((λ r, record_key a C (mb_id r)) <$> l) ∧ Forall P l.
Proof.
  induction 1 as [|[k v] r rs l Hr Hl IH]; intros Hrow; [done|].
  destruct IH as [IH1 IH2]; [intros k' v' ?; apply Hrow; by right|]. destruct (Hrow k v) as (r' & -> & Hr' & HP); [by left|]. cbn in *.
  assert (r' = r) as -> by congruence. split; [by rewrite IH1|by constructor].
Qed.
Lemma load_all_lists s A H : drep s A H → ∃ l, load_all a C s = Ok l ∧ lists None A l.
Proof.
  intros Hr. unfold load_all. rewrite iterate_spec, rows_from_prefix by (by eapply drep_healthy). set (rs := filter _ _).
  assert (∀ k v, (k, v) ∈ rs → ∃ r : R, k = record_key a C (mb_id r) ∧ row_decode v = Ok r ∧ d_objs A !! mb_id r = Some (view_of r)) as Hrow.
  { intros k v [Hp Hk%elem_of_rows]%list_elem_of_filter. destruct (dr_rows _ _ _ Hr k v Hk Hp) as (i & o & -> & (r & Dr & <-) & Hi).
    destruct (drep_id _ _ _ _ _ Hr Hi) as [_ Eid]. rewrite view_id in Eid. exists r. by rewrite Eid. }
  destruct (scan_load rs []) as (l & -> & Hl); [apply Forall_forall; intros [k v] (r & _ & ? & _)%Hrow; by exists r|].
  exists l. split; [done|]. destruct (rows_of_members _ rs l Hl Hrow) as [Ek HP]. rewrite Forall_forall in HP. split.
  - apply (NoDup_fmap_1 (λ i, record_key a C i)). rewrite <-list_fmap_compose. change (_ ∘ _) with (λ r : R, record_key a C (mb_id r)).
    rewrite <-Ek. apply (NoDup_fmap_2_strong fst); [|apply NoDup_filter, (NoDup_fmap_1 fst), NoDup_fst_rows].
    intros [k v] [k' v'] [_ H1%elem_of_rows]%list_elem_of_filter [_ H2%elem_of_rows]%list_elem_of_filter E. cbn in *. congruence.
  - intros r Hin. split; [by apply HP|done].
  - intros i o Hi _. destruct (dr_objs _ _ _ Hr i o Hi) as (v & Hv & r & Dr & <-). exists r. split; [|done].
    assert ((record_key a C i, v) ∈ rs) as (j & Hj)%list_elem_of_lookup by (apply list_elem_of_filter; split; [apply record_key_prefix|by apply elem_of_rows]).
    destruct (Forall2_lookup_l _ _ _ _ _ Hl Hj) as (r' & Hr' & Dr'). cbn in Dr'. assert (r' = r) as -> by congruence. by eapply list_elem_of_lookup_2.
Qed.
Lemma list_members_lists parent s A H : drep s A H → ∃ l, list_members a parent s = Ok l ∧ lists parent A l.
Proof.
  intros Hr. destruct (load_all_lists s A H Hr) as (l & E & Hl). unfold list_members. rewrite E. eexists. split; [done|].
  eapply lists_Permutation; [symmetry; apply merge_sort_Permutation|]. destruct parent as [p|]; [by apply lists_filter|done].
Qed.
(** The member of that name, if there is one. *)
Lemma member_by_name_spec p name s A H :
  drep s A H →
  (∃ r, member_by_name a p name s = Ok (Some r) ∧ owns p A name (mb_id r) (view_of r)) ∨
  (member_by_name (R := R) a p name s = Ok None ∧ ∀ i o, ¬ owns p A name i o).
Proof.
  intros Hr. destruct (list_members_lists (Some p) s A H Hr) as (l & E & [_ Hl1 Hl2]). unfold member_by_name. rewrite E. cbn.
  destruct (List.find _ l) as [r|] eqn:F.
  - left. exists r. split; [done|]. apply find_some in F as [Hin%list_elem_of_In Hn%bool_decide_eq_true]. destruct (Hl1 r Hin) as [? Hw].
    split_and!; [done|done|]. by rewrite view_name.
  - right. split; [done|]. intros i o (Hi & Hp & Hn). destruct (Hl2 i o Hi Hp) as (r & Hin & <-).
    pose proof (find_none _ _ F r (proj1 (list_elem_of_In _ _) Hin)) as Hf. apply bool_decide_eq_false in Hf. apply Hf. by rewrite <-view_name.
Qed.

(** *** The operations *)

(** The computation takes the rows on by at most [k] changes and gives at most
    [j] ids, whatever its result. *)
Definition dsteps : dstate → dstate → Prop := rtc (λ A A', ∃ e, dstep A e A').
Definition goes A (k j : Z) {X} (m : M S X) s : Prop :=
  ∃ A' H', drep (m s).2 A' H' ∧ dsteps A A' ∧ d_clock A' ≤ d_clock A + k ∧ ∀ n, next_at s n → ∃ n', next_at (m s).2 n' ∧ n' ≤ n + j.

Lemma goes_to {X} A A' H' k j (m : M S X) s s' x :
  m s = (x, s') → drep s' A' H' → dsteps A A' → d_clock A' ≤ d_clock A + k → 0 ≤ j → next_same s s' → goes A k j m s.
Proof.
  intros E Hr Hd Hc Hj Hn. exists A', H'. rewrite E. split_and!; [done|done|lia|]. intros n Hat. exists n. unfold next_at, next_same in *. cbn [snd]. rewrite Hn. split; [done|lia].
Qed.
Lemma goes_stays {X} A H k j (m : M S X) s : drep s A H → 0 ≤ k → 0 ≤ j → (m s).2 = s → goes A k j m s.
Proof. intros Hr Hk Hj E. destruct (m s) as [x s'] eqn:Em. cbn in E. subst s'. eapply goes_to; [exact Em|done|by apply rtc_refl|lia|done|done]. Qed.
Lemma goes_reads {X Y} A H k j (f : S → result X) (g : X → M S Y) s :
  drep s A H → 0 ≤ k → 0 ≤ j → (∀ x, f s = Ok x → goes A k j (g x) s) → goes A k j (reads f ≫= g) s.
Proof.
  intros Hr Hk Hj Hg. destruct (f s) as [x|e] eqn:E.
  - destruct (Hg x eq_refl) as (A' & H' & ?). exists A', H'. unfold mbind, M_bind, reads. by rewrite E.
  - apply (goes_stays A H); [done|done|done|]. unfold mbind, M_bind, reads. by rewrite E.
Qed.
Lemma goes_bind {X Y} A k1 k2 j1 j2 (m : M S X) (g : X → M S Y) s :
  goes A k1 j1 m s → 0 ≤ k2 → 0 ≤ j2 →
  (∀ x s' A' H', m s = (Ok x, s') → drep s' A' H' → d_clock A' ≤ d_clock A + k1 →
     (∀ n, next_at s n → ∃ n', next_at s' n' ∧ n' ≤ n + j1) → goes A' k2 j2 (g x) s') → goes A (k1 + k2) (j1 + j2) (m ≫= g) s.
Proof.
  intros (A1 & H1 & Hr1 & Hd1 & Hc1 & Hn1) Hk2 Hj2 Hg. unfold goes, mbind, M_bind. destruct (m s) as [[x|e] s1] eqn:E; cbn in *.
  - destruct (Hg x s1 A1 H1 eq_refl Hr1 Hc1 Hn1) as (A2 & H2 & ? & ? & ? & Hn2). exists A2, H2. split_and!; [done|by etrans|lia|].
    intros n (n1 & (n2 & ? & ?)%Hn2 & ?)%Hn1. exists n2. split; [done|lia].
  - exists A1, H1. split_and!; [done|done|lia|]. intros n (n1 & ? & ?)%Hn1. exists n1. split; [done|lia].
Qed.
Lemma goes_then {X Y} A A1 k1 k2 j (m : M S X) (g : X → M S Y) s s1 x :
  m s = (Ok x, s1) → dsteps A A1 → d_clock A1 ≤ d_clock A + k1 → next_same s s1 → goes A1 k2 j (g x) s1 → goes A (k1 + k2) j (m ≫= g) s.
Proof.
  intros E Hd Hc Hns (A2 & H2 & ? & ? & ? & Hn). exists A2, H2. unfold mbind, M_bind. rewrite E. split_and!; [done|by etrans|lia|].
  intros n Hat. apply Hn. unfold next_at, next_same in *. by rewrite Hns.
Qed.
Lemma goes_mono {X} A k k' j j' (m : M S X) s : k ≤ k' → j ≤ j' → goes A k j m s → goes A k' j' m s.
Proof.
  intros Hk Hj (A' & H' & ? & ? & ? & Hn). exists A', H'. split_and!; [done|done|lia|]. intros n (n' & ? & ?)%Hn. exists n'. split; [done|lia].
Qed.
Lemma goes_write_foreign {R'} {json' : RowJson R'} {laws' : RowJsonLaws R'} c id (r : R') k s A H :
  c ≠ C → drep s A H → goes A 0 0 (write_record a c id r k) s.
Proof.
  intros Hc Hr. destruct (write_foreign c id r k s A H Hc Hr) as (s' & E & Hr' & Hn). eapply goes_to; [exact E|done|by apply rtc_refl|lia|done|done].
Qed.
Lemma goes_delete_foreign c id parent name s A H : c ≠ C → drep s A H → goes A 0 0 (delete_record a c id parent name) s.
Proof.
  intros Hc Hr. destruct (delete_foreign c id parent name s A H Hc Hr) as (s' & E & Hr' & Hn).
  eapply goes_to; [exact E|done|by apply rtc_refl|lia|done|done].
Qed.
Lemma goes_allocate_foreign c s A H : c ≠ C → drep s A H → goes A 0 0 (allocate_id a c) s.
Proof.
  intros Hc Hr. destruct (allocate_foreign c s A H Hc Hr) as (id & s' & E & Hr' & Hn). eapply goes_to; [exact E|done|by apply rtc_refl|lia|done|done].
Qed.

Definition upsert_with (parent : Z) (name : bytes) (created : R → Z) (mk : Z → Z → R) (now : Z) : M S (R * bool) :=
  '(id, created_at, kind) ← upsert_slot a parent name created now;
  _ ← write_record a C id (mk id created_at) kind; mret (mk id created_at, bool_decide (kind = ChangeLog.Insert)).
Lemma drep_allocate s A H : drep s A H → (∀ n, next_at s n → n < U32_MAX) → ∃ n s',
  next_at s n ∧ allocate_id a C s = (Ok (n + 1), s') ∧ drep s' A H ∧ d_next A ≤ n < U32_MAX ∧ next_at s' (n + 1).
Proof.
  intros Hr Hlt'. destruct (dr_next _ _ _ Hr) as (n & Hn & Hle). specialize (Hlt' n Hn) as Hlt.
  pose proof (proj2 (di_clock A (dr_inv _ _ _ Hr))). destruct (allocate_id_spec a C s n) as (s' & E & Hs' & Hv'); [by eapply drep_healthy|done|].
  rewrite wrapping_add_i64_id in E, Hv' by width. unfold as_u32 in E. rewrite Z.mod_small in E by width.
  assert (counter_value (view s' !! id_key a C) = Some (n + 1)) as Hc by (rewrite Hv', lookup_insert_eq; apply counter_value_i64_le; width).
  exists n, s'. split_and!; [done|done| |lia|done|done].
  pose proof Hr as [HL HA HH Hck _ Hrows Hobjs Htombs Hcells]. split; rewrite ?Hv'; try done.
  - apply (log_inv_frame a C s); [done|done| |].
    + rewrite Hv'. split; [by rewrite lookup_insert_ne by keys_differ|]. intros k Hk. apply lookup_insert_ne. by eapply under_log.
    + intros z Hz _. exists z. unfold counter_at. rewrite Hv', lookup_insert_ne by keys_differ. split; [done|lia].
  - unfold counter_at. by rewrite lookup_insert_ne by keys_differ.
  - exists (n + 1). rewrite <-Hv', Hc. split; [done|lia].
  - intros k v Hk Hp. rewrite lookup_insert_ne in Hk by (by eapply under_rows). by apply Hrows.
  - intros i o. rewrite lookup_insert_ne by keys_differ. apply Hobjs.
  - intros i d. rewrite lookup_insert_ne by keys_differ. apply Htombs.
  - apply cells_ok_cell; [width|done].
Qed.
Lemma upsert_goes parent name created mk now s A H :
  (∀ id at_, mb_id (mk id at_) = id ∧ mb_parent (mk id at_) = parent ∧ mb_name (mk id at_) = name) →
  drep s A H → d_clock A < I64_MAX → (∀ n, next_at s n → n < U32_MAX) → goes A 1 1 (upsert_with parent name created mk now) s.
Proof.
  intros Hmk Hr Hclk Hid. unfold goes, upsert_with, upsert_slot, mbind, M_bind, reads.
  destruct (member_by_name_spec parent name s A H Hr) as [(r & -> & Hown & Hp & Hn)|(-> & Hfree)].
  - destruct (Hmk (mb_id r) (created r)) as (Ei & Ep & En). set (r' := mk (mb_id r) (created r)) in *.
    destruct (drep_id _ _ _ _ _ Hr Hown) as [Hu _]. assert (ov_id (view_of r') = mb_id r) as Ev by (by rewrite view_id).
    assert (same_name (view_of r') (view_of r)) as Hsame by (split; rewrite ?view_parent, ?view_name in *; congruence).
    pose proof (d_update A (view_of r') (view_of r)) as Hd. rewrite Ev in Hd. specialize (Hd Hown Hsame).
    destruct (write_own r' ChangeLog.Update s A H (updated A (view_of r'))) as (s' & E & Hr' & Hns); rewrite ?Ei; try done; [|apply (dr_next _ _ _ Hr)|].
    { cbn. by rewrite Ev. }
    rewrite Ei in E. subst r'. cbn. rewrite E. cbn. do 2 eexists. split_and!; [exact Hr'|by eapply rtc_once; eexists|cbn; lia|].
    intros n Hn'. exists n. unfold next_at, next_same in *. rewrite Hns. split; [done|lia].
  - pose proof (proj2 (di_clock A (dr_inv _ _ _ Hr))). destruct (drep_allocate s A H Hr Hid) as (n & s1 & Hn0 & E1 & Hr1 & Hn & Hc1). unfold mbind, M_bind. rewrite E1. cbn.
    destruct (Hmk (n + 1) now) as (Ei & Ep & En). set (r' := mk (n + 1) now) in *. assert (ov_id (view_of r') = n + 1) as Ev by (by rewrite view_id).
    assert (name_free A (view_of r')) as Hf.
    { intros i o Hi [E1' E2']. rewrite view_parent, Ep in E1'. rewrite view_name, En in E2'. by apply (Hfree i o). }
    pose proof (d_insert A (view_of r')) as Hd. rewrite Ev in Hd. specialize (Hd ltac:(lia) Hf).
    destruct (write_own r' ChangeLog.Insert s1 A H (inserted A (view_of r'))) as (s' & E & Hr' & Hns); rewrite ?Ei; try done; [|width| |].
    { cbn. by rewrite Ev. }
    { exists (n + 1). cbn. rewrite Ev. split; [done|lia]. }
    rewrite Ei in E. subst r'. rewrite E. cbn. do 2 eexists. split_and!; [exact Hr'|by eapply rtc_once; eexists|cbn; lia|].
    intros n' Hn'. exists (n + 1). unfold next_at, next_same in *. rewrite Hns. split; [done|]. assert (n' = n) by congruence. lia.
Qed.
Lemma delete_found (r : R) s A H :
  drep s A H → d_objs A !! mb_id r = Some (view_of r) → d_clock A < I64_MAX →
  ∃ s', delete_record a C (mb_id r) (mb_parent r) (mb_name r) s = (Ok tt, s') ∧
    drep s' (removed A (view_of r)) (stamped A (mb_id r) ChangeLog.Delete :: H) ∧ dsteps A (removed A (view_of r)) ∧ next_same s s'.
Proof.
  intros Hr Ho Hclk. rewrite <-view_id in Ho. destruct (delete_own (view_of r) s A H Hr Ho Hclk) as (s' & E & Hr' & Hn).
  rewrite view_parent, view_name, view_id in E. rewrite view_id in Hr'. exists s'. split_and!; [done|done| |done]. eapply rtc_once. eexists. by apply d_delete.
Qed.
Lemma delete_member_goes parent name s A H : drep s A H → d_clock A < I64_MAX → goes A 1 0 (delete_member (R := R) a parent name) s.
Proof.
  intros Hr Hclk. apply (goes_reads A H); [done|lia|done|]. intros x Ex.
  destruct (member_by_name_spec parent name s A H Hr) as [(r & E & Hown & Hp & Hn)|(E & Hfree)]; rewrite E in Ex; injection Ex as <-.
  - destruct (delete_found r s A H Hr Hown Hclk) as (s' & E' & Hr' & Hd & Hns). rewrite view_parent in Hp. rewrite view_name in Hn. rewrite Hp, Hn in E'.
    eapply goes_to; [unfold mbind, M_bind; rewrite E'; reflexivity|exact Hr'|done|cbn; lia|done|done].
  - apply (goes_stays A H); done || lia.
Qed.
(** The members of a collection go one by one. *)
Lemma delete_members_goes p (l : list R) s A H :
  drep s A H → NoDup (mb_id <$> l) → (∀ r, r ∈ l → d_objs A !! mb_id r = Some (view_of r) ∧ mb_parent r = p) →
  d_clock A + Z.of_nat (length l) ≤ I64_MAX → goes A (Z.of_nat (length l)) 0 (delete_members a p l) s.
Proof.
  revert s A H. induction l as [|r l IH]; intros s A H Hr Hnd Hl Hclk; [apply (goes_stays A H); done || lia|].
  destruct (Hl r) as [Ho Hp]; [by left|]. rewrite length_cons in *. apply NoDup_cons in Hnd as [Hni Hnd].
  destruct (delete_found r s A H Hr Ho) as (s' & E & Hr' & Hd & Hns); [lia|]. rewrite Hp in E.
  replace (Z.of_nat (Datatypes.S (length l))) with (1 + Z.of_nat (length l)) by lia.
  apply (goes_then A (removed A (view_of r)) 1 _ 0 _ _ s s' tt); [done|done|cbn; lia|done|].
  apply (IH s' _ _ Hr' Hnd); [|cbn; lia].
  intros r' Hin. destruct (Hl r') as [Ho' Hp']; [by right|]. split; [|done]. cbn. rewrite lookup_delete_ne; [done|].
  rewrite view_id. intros Eid. apply Hni. rewrite Eid. by apply list_elem_of_fmap_2.
Qed.
End rep.

(** ** The requests *)

Definition member_type (f : Family) : Type := match f with Cal => CalendarEventRecord | Card => ContactCardRecord end.
Class DavJsonLaws `{DavJson} : Prop := {
  laws_calendar :: RowJsonLaws CalendarCollection;
  laws_event :: RowJsonLaws CalendarEventRecord;
  laws_book :: RowJsonLaws AddressBookCollection;
  laws_card :: RowJsonLaws ContactCardRecord;
  laws_tombstone :: RowJsonLaws Tombstone;
}.
#[global] Instance member_json `{DavJson} f : RowJson (member_type f) :=
  match f with Cal => json_event | Card => json_card end.
#[global] Instance member_laws `{DavJsonLaws} f : RowJsonLaws (member_type f) :=
  match f with Cal => laws_event | Card => laws_card end.
#[global] Instance member_member f : Member (member_type f) := match f with Cal => event_member | Card => card_member end.
#[global] Instance member_seen f : Seen (member_type f) := match f with Cal => seen_event | Card => seen_card end.

Section serve.
Context {S : Type} {store : Store S} {contract : StoreSpec S} {dj : DavJson} {djl : DavJsonLaws} {lib : DavLibrary} {xml : XmlReader}.
Context (a : Z).
Implicit Types (f : Family) (s : S) (A : dstate) (H : list ChangeLogEntry).
Abbreviation rep f := (drep (member_type f) a).
Abbreviation go f := (goes (member_type f) a).
Definition ids_left f s : Prop := ∀ n, next_at (member_type f) a s n → n < U32_MAX.

Lemma go_foreign_upsert f c {R} {json : RowJson R} {laws : RowJsonLaws R} {mem : Member R} parent name created mk now s A H :
  mb_collection (R := R) = c → c ≠ mb_collection (R := member_type f) → rep f s A H →
  go f A 0 0 (upsert_with R a parent name created mk now) s.
Proof.
  intros <- Hc Hr. unfold upsert_with. apply (goes_bind _ _ A 0 0 0 0); [|done|done|].
  - unfold upsert_slot. apply (goes_reads _ _ A H); [done..|]. intros [r|] _; [apply (goes_stays _ _ A H); done|].
    apply (goes_bind _ _ A 0 0 0 0); [by eapply goes_allocate_foreign|done|done|]. intros. by eapply goes_stays.
  - intros [[id at_] kind] s' A' H' _ Hr' _ _. apply (goes_bind _ _ A' 0 0 0 0); [by eapply goes_write_foreign|done|done|]. intros. by eapply goes_stays.
Qed.
(** First something that leaves the objects as they are. *)
Lemma go_bind0 f {X Y} A H k j (m : M S X) (g : X → M S Y) s :
  rep f s A H → go f A 0 0 m s → 0 ≤ k → 0 ≤ j →
  (∀ x s' A' H', m s = (Ok x, s') → rep f s' A' H' → d_clock A' ≤ d_clock A → (ids_left f s → ids_left f s') → go f A' k j (g x) s') → go f A k j (m ≫= g) s.
Proof.
  intros Hr Hm Hk Hj Hg. replace k with (0 + k) by lia. replace j with (0 + j) by lia. apply (goes_bind _ _ A 0 k 0 j); [done..|].
  intros x s' A' H' E Hr' Hc Hn. apply (Hg x s' A' H'); [done|done|lia|]. intros Hl n Hat.
  destruct (dr_next _ _ _ _ _ Hr) as (n0 & Hn0 & _). destruct (Hn n0 Hn0) as (n1 & Hn1 & ?). specialize (Hl n0 Hn0).
  unfold next_at in *. assert (n1 = n) by congruence. lia.
Qed.
Lemma go_then_pure f {X Y} A k j (m : M S X) (g : X → M S Y) s : go f A k j m s → (∀ x s', (g x s').2 = s') → go f A k j (m ≫= g) s.
Proof.
  intros Hm Hg. replace k with (k + 0) by lia. replace j with (j + 0) by lia. apply (goes_bind _ _ A k 0 j 0); [done..|].
  intros. by eapply goes_stays.
Qed.
Lemma go_upsert f f' parent name raw parsed now s A H :
  rep f s A H → d_clock A < I64_MAX → ids_left f s → go f A 1 1 (upsert a f' parent name raw parsed now) s.
Proof.
  intros Hr Hclk Hid. unfold ids_left in Hid. destruct f', parsed as [info|info]; try (apply (goes_stays _ _ A H); done || lia);
    (apply go_then_pure; [|by intros [] ?]).
  - set (mk := λ id at_, mkEvent id parent name (ics_uid info) raw (content_etag raw) (ics_starts_min info) (ics_ends_max info)
                           (as_u32 (Z.of_nat (length raw))) at_ now).
    change (upsert_event a parent name raw info now) with (upsert_with CalendarEventRecord a parent name ev_created mk now). destruct f.
    + by apply (upsert_goes CalendarEventRecord a parent name ev_created mk now s A H).
    + eapply goes_mono; [| |by eapply (go_foreign_upsert Card CalendarEvent)]; lia.
  - set (mk := λ id at_, mkCard id parent name (vcf_uid info) raw (content_etag raw) (vcf_full_name info) (vcf_emails info)
                           (as_u32 (Z.of_nat (length raw))) at_ now).
    change (upsert_card a parent name raw info now) with (upsert_with ContactCardRecord a parent name cd_created mk now). destruct f.
    + eapply goes_mono; [| |by eapply (go_foreign_upsert Cal ContactCard)]; lia.
    + by apply (upsert_goes ContactCardRecord a parent name cd_created mk now s A H).
Qed.
Lemma go_foreign_delete f {R} {json : RowJson R} {mem : Member R} parent name s A H :
  mb_collection (R := R) ≠ mb_collection (R := member_type f) → rep f s A H → go f A 0 0 (delete_member (R := R) a parent name) s.
Proof.
  intros Hc Hr. apply (goes_reads _ _ A H); [done..|]. intros [r|] _; [|by apply (goes_stays _ _ A H)].
  apply go_then_pure; [|done]. by apply (goes_delete_foreign (member_type f) a _ _ _ _ s A H).
Qed.
Lemma go_delete_object f f' parent name s A H : rep f s A H → d_clock A < I64_MAX → go f A 1 0 (delete_object a f' parent name) s.
Proof.
  intros Hr Hclk. destruct f'; cbn [delete_object]; destruct f.
  - by apply (delete_member_goes CalendarEventRecord a parent name s A H).
  - eapply goes_mono; [| |by eapply go_foreign_delete]; lia.
  - eapply goes_mono; [| |by eapply go_foreign_delete]; lia.
  - by apply (delete_member_goes ContactCardRecord a parent name s A H).
Qed.
Lemma go_foreign_delete_members f {R} {mem : Member R} parent (l : list R) s A H :
  mb_collection (R := R) ≠ mb_collection (R := member_type f) → rep f s A H → go f A 0 0 (delete_members (R := R) a parent l) s.
Proof.
  intros Hc. revert s A H. induction l as [|r l IH]; intros s A H Hr; [by apply (goes_stays _ _ A H)|].
  eapply go_bind0; [done|by apply (goes_delete_foreign (member_type f) a _ _ _ _ s A H)|done|done|]. intros. by eapply IH.
Qed.

(** There are fewer members than ids. *)
Lemma lists_short f parent (l : list (member_type f)) s A H : rep f s A H → lists (member_type f) parent A l → Z.of_nat (length l) ≤ U32_MAX.
Proof.
  intros Hr [Hnd Hin _]. rewrite <-(length_fmap mb_id). assert (mb_id <$> l ⊆+ seqZ 1 U32_MAX) as Hsub.
  { apply NoDup_submseteq; [done|]. intros i (r & -> & Hl)%list_elem_of_fmap. apply elem_of_seqZ. destruct (Hin r Hl) as [Ho _].
    destruct (di_alive A (dr_inv _ _ _ _ _ Hr) _ _ Ho) as [_ [z Hz]]. apply (di_last A (dr_inv _ _ _ _ _ Hr)) in Hz as (_ & _ & ?).
    destruct (dr_next _ _ _ _ _ Hr) as (n & _ & ?). lia. }
  apply submseteq_length in Hsub. rewrite length_seqZ in Hsub. revert Hsub. unfold U32_MAX. lia.
Qed.
Lemma go_delete_members f p s A H (l : list (member_type f)) :
  rep f s A H → lists (member_type f) (Some p) A l → d_clock A + U32_MAX ≤ I64_MAX → go f A U32_MAX 0 (delete_members a p l) s.
Proof.
  intros Hr Hl Hclk. pose proof (lists_short f _ l s A H Hr Hl). destruct Hl as [Hnd Hin _].
  eapply goes_mono; [done|done|]. apply (delete_members_goes (member_type f) a p l s A H); [done|done| |lia].
  intros r Hrl. destruct (Hin r Hrl) as [? Hw]. split; [done|]. by rewrite <-view_parent.
Qed.
(** The parent goes last. *)
Lemma go_then_delete f {X} A k (m : M S unit) c id name (x : X) s :
  c ≠ mb_collection (R := member_type f) → 0 ≤ k → go f A k 0 m s → go f A k 0 (_ ← m; _ ← delete_record a c id 0 name; mret x) s.
Proof.
  intros Hc Hk Hm. replace k with (k + 0) by lia. apply (goes_bind _ _ A k 0 0 0); [done..|]. intros [] s' A' H' _ Hr' _ _.
  apply go_then_pure; [|done]. by apply (goes_delete_foreign (member_type f) a _ _ _ _ s' A' H').
Qed.
Lemma go_delete_collection f f' id s A H :
  rep f s A H → d_clock A + U32_MAX ≤ I64_MAX → go f A U32_MAX 0 (delete_collection a f' id) s.
Proof.
  intros Hr Hclk. assert (0 ≤ U32_MAX) by width. destruct f'; cbn [delete_collection];
    (apply (goes_reads _ _ A H); [done..|]; intros [x|] _; [|by apply (goes_stays _ _ A H)]; apply (goes_reads _ _ A H); [done..|]; intros l El;
     destruct f; (apply go_then_delete; [done|done|])).
  - destruct (list_members_lists CalendarEventRecord a (Some id) s A H Hr) as (l' & El' & Hl).
    assert (Ok l' = Ok l) as [= ->] by (etrans; [symmetry; exact El'|exact El]).
    by apply (go_delete_members Cal id s A H).
  - eapply goes_mono; [| |by eapply (go_foreign_delete_members Card)]; lia.
  - eapply goes_mono; [| |by eapply (go_foreign_delete_members Cal)]; lia.
  - destruct (list_members_lists ContactCardRecord a (Some id) s A H Hr) as (l' & El' & Hl).
    assert (Ok l' = Ok l) as [= ->] by (etrans; [symmetry; exact El'|exact El]).
    by apply (go_delete_members Card id s A H).
Qed.

(** Collections. *)
Lemma calendars_foreign f : Calendar ≠ mb_collection (R := member_type f) ∧ AddressBook ≠ mb_collection (R := member_type f).
Proof. by destruct f. Qed.
Lemma go_create_calendar f name display now s A H : rep f s A H → go f A 0 0 (create_calendar a name display now) s.
Proof.
  intros Hr. destruct (calendars_foreign f) as [Hc _]. eapply go_bind0; [done|by eapply goes_allocate_foreign|done|done|]. intros id s' A' H' _ Hr' _ _.
  apply go_then_pure; [|done]. by apply (goes_write_foreign (member_type f) a _ _ _ _ s' A' H').
Qed.
Lemma go_create_book f name display now s A H : rep f s A H → go f A 0 0 (create_address_book a name display now) s.
Proof.
  intros Hr. destruct (calendars_foreign f) as [_ Hc]. eapply go_bind0; [done|by eapply goes_allocate_foreign|done|done|]. intros id s' A' H' _ Hr' _ _.
  apply go_then_pure; [|done]. by apply (goes_write_foreign (member_type f) a _ _ _ _ s' A' H').
Qed.
Lemma go_save_calendar f x now s A H : rep f s A H → go f A 0 0 (save_calendar a x now) s.
Proof. intros Hr. apply (goes_write_foreign (member_type f) a _ _ _ _ s A H); [apply (calendars_foreign f)|done]. Qed.
Lemma go_save_book f x now s A H : rep f s A H → go f A 0 0 (save_address_book a x now) s.
Proof. intros Hr. apply (goes_write_foreign (member_type f) a _ _ _ _ s A H); [apply (calendars_foreign f)|done]. Qed.
Lemma go_create_collection f f' name display color description now s A H :
  rep f s A H → go f A 0 0 (create_collection a f' name display color description now) s.
Proof.
  intros Hr. destruct f'; cbn [create_collection].
  - eapply go_bind0; [done|by eapply go_create_calendar|done|done|]. intros x s' A' H' _ Hr' _ _.
    case_match; [by eapply go_save_calendar|by eapply goes_stays].
  - eapply go_bind0; [done|by eapply go_create_book|done|done|]. intros x s' A' H' _ Hr' _ _.
    case_match; [by eapply go_save_book|by eapply goes_stays].
Qed.
Lemma go_save_collection f f' v now s A H : rep f s A H → go f A 0 0 (save_collection a f' v now) s.
Proof. intros Hr. destruct f'; [by eapply go_save_calendar|by eapply go_save_book]. Qed.
Lemma go_ensure_defaults f now s A H : rep f s A H → go f A 0 0 (ensure_defaults a now) s.
Proof.
  intros Hr. apply (goes_reads _ _ A H); [done..|]. intros l _. eapply go_bind0; [done| |done|done|].
  - case_match; [|by eapply goes_stays]. apply go_then_pure; [by eapply go_create_calendar|done].
  - intros [] s' A' H' _ Hr' _ _. apply (goes_reads _ _ A' H'); [done..|]. intros l' _.
    case_match; [|by eapply goes_stays]. apply go_then_pure; [by eapply go_create_book|done].
Qed.

(** Requests. *)
Ltac go_reads A H := apply (goes_reads _ _ A H); [done|width|done|].
Ltac go_stays A H := apply (goes_stays _ _ A H); done || width.

Lemma go_put f t req now s A H : rep f s A H → d_clock A < I64_MAX → ids_left f s → go f A 1 1 (put a t req now) s.
Proof.
  intros Hr Hclk Hid. destruct t as [| | | | |f' c name]; try go_stays A H. cbn [put].
  go_reads A H. intros [parent|] _; [|go_stays A H]. case_match; [go_stays A H|]. case_match; [|go_stays A H].
  go_reads A H. intros existing _. case_match; [go_stays A H|]. case_match; [go_stays A H|].
  eapply go_bind0; [exact Hr| |lia|lia|].
  - destruct (parsed_uid _) as [uid|]; [|go_stays A H]. go_reads A H. intros. go_stays A H.
  - intros clash s' A' H' _ Hr' Hc Hl. case_match; [go_stays A' H'|]. apply go_then_pure; [|by intros [] ?].
    apply (go_upsert f f' _ _ _ _ _ s' A' H'); [done|lia|by apply Hl].
Qed.
Lemma go_copy_or_move f username t req now s A H :
  rep f s A H → d_clock A + 1 < I64_MAX → ids_left f s → go f A 2 1 (copy_or_move a username t req now) s.
Proof.
  intros Hr Hclk Hid. unfold copy_or_move. destruct t as [| | | | |f1 c name]; try go_stays A H. destruct (dr_destination req) as [dest|]; [|go_stays A H].
  destruct (parse_target _ _) as [?|[| | | | |f2 c' name']]; try go_stays A H. case_match; [go_stays A H|].
  go_reads A H. intros [parent|] _; [|go_stays A H]. go_reads A H. intros [o|] _; [|go_stays A H].
  go_reads A H. intros [parent'|] _; [|go_stays A H]. go_reads A H. intros existing _. case_match; [go_stays A H|].
  destruct (parse_object _ _) as [parsed|]; [|go_stays A H]. apply (goes_bind _ _ A 1 1 1 0); [by eapply go_upsert; [done|lia|]|lia|lia|].
  intros [o' created] s' A' H' _ Hr' Hc _. apply go_then_pure; [|done]. case_match; [|go_stays A' H'].
  by apply (go_delete_object f f1 _ _ s' A' H'); [|lia].
Qed.
Lemma go_delete f t s A H : rep f s A H → d_clock A + U32_MAX ≤ I64_MAX → go f A U32_MAX 0 (Dav.delete a t) s.
Proof.
  intros Hr Hclk. destruct t as [| | | |f1 c|f1 c name]; try go_stays A H; cbn [Dav.delete]; go_reads A H.
  - intros all _. destruct (List.find _ all) as [v|]; [|go_stays A H]. case_match; [go_stays A H|]. apply go_then_pure; [|done]. by eapply go_delete_collection.
  - intros [parent|] _; [|go_stays A H]. apply go_then_pure; [|done]. apply (goes_mono _ _ A 1 U32_MAX 0 0); [width|done|].
    apply (go_delete_object f f1 _ _ s A H); [done|width].
Qed.
Lemma go_mkcol f t req now s A H : rep f s A H → go f A 0 0 (mkcol a t req now) s.
Proof.
  intros Hr. destruct t as [| | | |f1 name|]; try go_stays A H. cbn [mkcol]. go_reads A H. intros existing _.
  case_match; [go_stays A H|]. case_match; [|go_stays A H]. apply go_then_pure; [|done]. by eapply go_create_collection.
Qed.
Lemma go_proppatch f username t req now s A H : rep f s A H → go f A 0 0 (proppatch a username t req now) s.
Proof.
  intros Hr. destruct t as [| | | |f1 name|]; try go_stays A H. cbn [proppatch]. go_reads A H. intros [v|] _; [|go_stays A H].
  case_match; [|go_stays A H]. apply go_then_pure; [|done]. by eapply go_save_collection.
Qed.
(** Every request. *)
Lemma go_run f username req now s A H :
  rep f s A H → d_clock A + U32_MAX ≤ I64_MAX → ids_left f s → go f A U32_MAX 1 (run a username req now) s.
Proof.
  intros Hr Hclk Hid. unfold run. case_match; [go_stays A H|]. eapply go_bind0; [exact Hr|by eapply go_ensure_defaults|width|width|].
  intros [] s' A' H' _ Hr' Hc Hl. destruct (parse_target _ _) as [code|t]; [go_stays A' H'|].
  assert (U32_MAX + 2 ≤ I64_MAX) by width. assert (0 ≤ d_clock A') by (apply (drep_room _ _ _ _ _ Hr')).
  repeat case_match; try (go_stays A' H').
  - eapply (goes_mono _ _ A' 0 U32_MAX 0 1); [width|width|]. by eapply go_proppatch.
  - eapply (goes_mono _ _ A' 0 U32_MAX 0 1); [width|width|]. by eapply go_mkcol.
  - eapply (goes_mono _ _ A' 1 U32_MAX 1 1); [width|width|]. apply (go_put f t req now s' A' H'); [done|width|by apply Hl].
  - eapply (goes_mono _ _ A' U32_MAX U32_MAX 0 1); [width|width|]. apply (go_delete f t s' A' H'); [done|lia].
  - eapply (goes_mono _ _ A' 2 U32_MAX 1 1); [width|width|]. apply (go_copy_or_move f username t req now s' A' H'); [done|width|by apply Hl].
Qed.
End serve.

(** ** The report *)

(** Names, paths and tokens are written so that they can be told apart. *)
Lemma hex_upper_inj x y : hex_upper x = hex_upper y → x = y.
Proof. unfold hex_upper. repeat case_match; lia. Qed.
Lemma percent_byte_cons b : ∃ c l, percent_byte b = c :: l ∧ (c = 37 ↔ is_path_safe b = false).
Proof.
  unfold percent_byte. destruct (is_path_safe b) eqn:E; do 2 eexists; (split; [done|]); [|done]. split; [intros ->; done|done].
Qed.
#[global] Instance percent_encode_inj : Inj (=) (=) percent_encode.
Proof.
  intros x. induction x as [|b x IH]; intros [|c y]; [done|..].
  - intros E. destruct (percent_byte_cons c) as (? & ? & Ec & _). cbn in E. rewrite Ec in E. done.
  - intros E. destruct (percent_byte_cons b) as (? & ? & Eb & _). cbn in E. rewrite Eb in E. done.
  - change (percent_byte b ++ percent_encode x = percent_byte c ++ percent_encode y → b :: x = c :: y).
    unfold percent_byte.
    destruct (is_path_safe b) eqn:Eb, (is_path_safe c) eqn:Ec; cbn.
    + intros [= -> E]. by rewrite (IH y E).
    + intros [= -> _]. done.
    + intros [= <- _]. done.
    + intros [= E1%hex_upper_inj E2%hex_upper_inj E]. rewrite (IH y E). f_equal.
      rewrite (Z.div_mod b 16), (Z.div_mod c 16) by lia. congruence.
Qed.
#[global] Instance object_href_inj f username c : Inj (=) (=) (object_href f username c).
Proof. intros x y E. unfold object_href in E. by apply (inj (app _)), (inj percent_encode) in E. Qed.

Lemma hex_value_char d : 0 ≤ d < 16 → hex_value (hex_char d) = Some d.
Proof. intros Hd. unfold hex_value, hex_char. repeat case_match; f_equal; lia. Qed.
Lemma hex_number_snoc l b :
  hex_number (l ++ [b]) = (n ← hex_number l; d ← hex_value b; let n := n * 16 + d in if n <=? U64_MAX then Some n else None).
Proof. unfold hex_number. by rewrite foldl_snoc. Qed.
Lemma hex_number_digits fuel n : 0 ≤ n ≤ U64_MAX → n < 16 ^ Z.of_nat fuel → hex_number (hex_digits fuel n) = Some n.
Proof.
  revert n. induction fuel as [|fuel IH]; intros n Hn Hlt.
  - change (n < 1) in Hlt. assert (n = 0) as -> by lia. done.
  - rewrite Nat2Z.inj_succ, Z.pow_succ_r in Hlt by lia. cbn [hex_digits]. rewrite hex_number_snoc.
    pose proof (Z.mod_pos_bound n 16 ltac:(lia)). pose proof (Z.div_mod n 16 ltac:(lia)).
    assert (hex_number (if n <? 16 then [] else hex_digits fuel (n / 16)) = Some (n / 16)) as ->.
    { destruct (Z.ltb_spec n 16); [by rewrite Z.div_small by lia|]. apply IH; [|apply Z.div_lt_upper_bound; lia]. split; [apply Z.div_pos; lia|].
      assert (n / 16 ≤ n) by (apply Z.div_le_upper_bound; lia). lia. }
    cbn. rewrite hex_value_char by done. cbn. rewrite (proj2 (Z.leb_le _ _)) by lia. f_equal. lia.
Qed.
Definition hex_plain (b : Z) : bool := plain b && negb (b =? 43).
Lemma hex_digits_plain fuel n : 0 ≤ n → forallb hex_plain (hex_digits fuel n) = true.
Proof.
  revert n. induction fuel as [|fuel IH]; intros n Hn; [done|]. cbn [hex_digits]. rewrite forallb_app.
  pose proof (Z.mod_pos_bound n 16 ltac:(lia)). assert (0 ≤ n / 16) by (apply Z.div_pos; lia). apply andb_true_iff. split; [case_match; [done|by apply IH]|].
  cbn [forallb]. rewrite andb_true_r. unfold hex_plain, plain, is_space1, hex_char. case_match; lia.
Qed.
Lemma sync_token_parses t : 0 ≤ t ≤ U64_MAX → parse_sync_token (Some (sync_token t)) = Some t.
Proof.
  intros Ht. unfold parse_sync_token, sync_token. cbn [mbind option_bind]. pose proof (hex_digits_plain 16 t (proj1 Ht)) as Hp. fold (fmt_hex t) in Hp.
  assert (fmt_hex t ≠ []) as Hne by (unfold fmt_hex; cbn [hex_digits]; by intros [_ ?]%app_eq_nil).
  assert (hex_number (fmt_hex t) = Some t) as Hv by (apply hex_number_digits; [done|change (16 ^ Z.of_nat 16) with (2 ^ 64); width]).
  rewrite <-(app_nil_l (fmt_hex t)) at 1. rewrite trim_plain_ends; [|done|done|vm_compute; done|].
  2: { rewrite forallb_forall in *. intros b Hb. specialize (Hp b Hb). unfold hex_plain in Hp. by apply andb_true_iff in Hp as [? _]. }
  unfold Text.strip_prefix. rewrite app_nil_l, starts_with_self, drop_app_length. cbn [mbind option_bind]. unfold parse_hex_u64.
  destruct (fmt_hex t) as [|b l]; [done|]. cbn [forallb] in Hp. apply andb_true_iff in Hp as [Hb _].
  assert (match b :: l with 43 :: r => r | _ => b :: l end = b :: l) as ->.
  { destruct (Z.eq_dec b 43) as [->|]; [done|]. repeat case_match; congruence. }
  by rewrite bool_decide_eq_false_2.
Qed.

Lemma StronglySorted_omap {X Y} (g : X → option Y) (f : X → Z) (h : Y → Z) l :
  (∀ x y, g x = Some y → h y = f x) → StronglySorted (λ x y, f x < f y) l → StronglySorted (λ x y, h x < h y) (omap g l).
Proof.
  intros Hg. induction 1 as [|x l Hl IH Hx]; [constructor|]. cbn. destruct (g x) as [y|] eqn:E; [|done]. constructor; [done|].
  apply Forall_forall. rewrite Forall_forall in Hx. intros z (x' & Hx' & E')%list_elem_of_omap. rewrite (Hg _ _ E), (Hg _ _ E'). by apply Hx.
Qed.

Lemma foldl_max (l : list Z) x : (foldl Z.max x l = x ∨ foldl Z.max x l ∈ l) ∧ x ≤ foldl Z.max x l ∧ ∀ y, y ∈ l → y ≤ foldl Z.max x l.
Proof.
  revert x. induction l as [|z l IH]; intros x; cbn [foldl]; [split_and!; [by left|lia|by intros ? ?%not_elem_of_nil]|].
  destruct (IH (Z.max x z)) as (Hin & Hle & Hall). split_and!.
  - destruct Hin as [->|?]; [|right; by right]. destruct (Z.max_spec x z) as [[_ ->]|[_ ->]]; [right; by left|by left].
  - lia.
  - intros y [->|?]%elem_of_cons; [lia|by apply Hall].
Qed.
Lemma max_change_spec l z : max_change l = Some z → (∃ e, e ∈ l ∧ change_id e = z) ∧ ∀ e, e ∈ l → change_id e ≤ z.
Proof.
  destruct l as [|e l]; [done|]. intros [= <-]. destruct (foldl_max (change_id <$> l) (change_id e)) as (Hin & Hle & Hall). split.
  - destruct Hin as [->|(e' & -> & ?)%list_elem_of_fmap]; [exists e; by split; [left|]|exists e'; by split; [right|]].
  - intros e' [->|?]%elem_of_cons; [done|]. apply Hall. by apply list_elem_of_fmap_2.
Qed.

Section report.
Context {S : Type} {store : Store S} {contract : StoreSpec S} {dj : DavJson} {djl : DavJsonLaws} {lib : DavLibrary} {xml : XmlReader}.
Context (a : Z) (f : Family).
Implicit Types (s : S) (A : dstate) (H : list ChangeLogEntry).
Abbreviation frep := (drep (member_type f) a).
Abbreviation fC := (mb_collection (R := member_type f)).

Lemma object_collection_member : object_collection f = fC.
Proof. by destruct f. Qed.

(** What the views of the objects are. *)
Lemma object_views_spec parent s A H :
  frep s A H → ∃ l, object_views a f parent s = Ok l ∧ ∀ o, o ∈ l ↔ (∃ i, d_objs A !! i = Some o) ∧ within parent o.
Proof.
  intros Hr. destruct (list_members_lists (member_type f) a parent s A H Hr) as (l & E & [_ Hs Ha]).
  exists (view_of <$> l).
  assert (object_views a f parent s = viewed view_of (list_members (R := member_type f) a parent s)) as -> by (by destruct f). split; [by rewrite E|].
  intros o. rewrite list_elem_of_fmap. split.
  - intros (r & -> & Hin). destruct (Hs r Hin). eauto.
  - intros [[i Hi] Hw]. destruct (Ha i o Hi Hw) as (r & ? & <-). eauto.
Qed.
Lemma object_by_id_spec i s A H : frep s A H → object_by_id a f i s = Ok (d_objs A !! i).
Proof.
  intros Hr. destruct (object_views_spec None s A H Hr) as (l & E & Hl). unfold object_by_id. rewrite E. cbn. f_equal.
  destruct (List.find _ l) as [o|] eqn:F.
  - apply find_some in F as [Hin%list_elem_of_In Hi%Z.eqb_eq]. apply Hl in Hin as [[j Hj] _]. destruct (drep_id _ _ _ _ _ _ _ Hr Hj) as [_ Ej]. congruence.
  - destruct (d_objs A !! i) as [o|] eqn:Eo; [|done]. exfalso.
    assert (o ∈ l) as Hin by (apply Hl; split; [by exists i|done]). apply list_elem_of_In in Hin. pose proof (find_none _ _ F o Hin) as Hf.
    destruct (drep_id _ _ _ _ _ _ _ Hr Eo) as [_ Ej]. cbv beta in Hf. by rewrite Ej, Z.eqb_refl in Hf.
Qed.
Lemma tombstone_found i d s A H : frep s A H → d_tombs A !! i = Some d → tombstone a (object_collection f) i s = Ok (Some d).
Proof.
  intros Hr Hd. destruct (dr_tombs _ _ _ _ _ Hr i d Hd) as (v & Hv & Dv). unfold tombstone. rewrite get_spec by (by eapply drep_healthy || apply known_key_encode).
  rewrite object_collection_member, Hv. cbn. by rewrite Dv.
Qed.

Context (username : bytes) (v : CollectionView).
Abbreviation p := (cv_id v).
Abbreviation key := (object_href f username (cv_name v)).
Definition row_sync (y : row) : SyncRow := match y with Shown o => Present (key (ov_name o)) o | Vanished x => Gone (key x) end.
(** The row of the machine for a row of [coalesce]. *)
Definition machine_row A (x : Coalesced) : option (Z * row) :=
  if co_deleted x then d ← d_tombs A !! co_document_id x; if ts_parent_id d =? p then Some (co_change_id x, Vanished (ts_name d)) else None
  else o ← d_objs A !! co_document_id x; if ov_parent o =? p then Some (co_change_id x, Shown o) else None.
Definition real_row A (x : Coalesced) : Prop := co_deleted x = true → is_Some (d_tombs A !! co_document_id x).
Lemma sync_rows_spec s A H l :
  frep s A H → Forall (real_row A) l → sync_rows a username f v l s = Ok (prod_map id row_sync <$> omap (machine_row A) l).
Proof.
  intros Hr. induction 1 as [|[c i d] l Hx _ IH]; [done|]. cbn [sync_rows]. unfold sync_row, machine_row in *. cbn [co_deleted co_document_id co_change_id omap list_omap] in *.
  destruct d; cbn.
  - destruct Hx as [d Hd]; [done|]. cbn in Hd. rewrite (tombstone_found i d s A H Hr Hd). cbn. rewrite IH. rewrite Hd. cbn. by destruct (ts_parent_id d =? p).
  - rewrite (object_by_id_spec i s A H Hr). cbn. rewrite IH. cbn. destruct (d_objs A !! i) as [o|]; cbn; [|done]. by destruct (ov_parent o =? p).
Qed.
Lemma machine_rows_answer A H t l T :
  dinv A → dhist A H → Forall (λ e, 0 < change_id e) H → entries_sorted l → (∀ e, e ∈ l ↔ e ∈ H ∧ t < change_id e) → covers A T →
  answer p A t T (omap (machine_row A) (coalesce l)) ∧ Forall (real_row A) (coalesce l).
Proof.
  intros HA HH Hpos Hs Hl HT. pose proof (coalesce_since A H HA HH Hpos t l Hs Hl) as Hco. split; [split|].
  - apply (StronglySorted_omap _ co_change_id); [|apply coalesce_sorted; [done|by eapply since_pos]].
    intros x y. unfold machine_row. destruct (co_deleted x); intros (z & _ & E)%bind_Some; case_match; by simplify_eq.
  - intros c y. rewrite list_elem_of_omap. split.
    + intros ([c' i d] & (Hz & Ht & -> & Hb)%Hco & E). unfold machine_row in E. cbn in E. destruct (d_objs A !! i) as [o|] eqn:Eo; cbn in E.
      * destruct (Z.eqb_spec (ov_parent o) p); [|done]. simplify_eq. split; [|by eapply HT]. split; [done|]. exists i. done.
      * destruct (d_tombs A !! i) as [d|] eqn:Ed; [|done]. cbn in E. destruct (Z.eqb_spec (ts_parent_id d) p); [|done]. simplify_eq.
        destruct Hb as (b & ? & ?); [done|]. split; [|by eapply HT]. split; [done|]. exists i, d, b. destruct (di_tomb A HA i d Ed) as [_ Hz']. split_and!; try done. congruence.
    + intros [[Ht Hy] _]. destruct y as [o|x].
      * destruct Hy as (i & (Ho & Hp & _) & Hz). exists (mkCoalesced c i false). split; [apply Hco; rewrite Ho; split_and!; done|].
        unfold machine_row. cbn. rewrite Ho. cbn. by rewrite Hp, Z.eqb_refl.
      * destruct Hy as (i & d & b & Hd & Hp & <- & <- & Hb & Hle). destruct (di_tomb A HA i d Hd) as [Hn Hz]. exists (mkCoalesced (ts_change_id d) i true).
        split; [apply Hco; rewrite Hn; split_and!; [done|done|done|by exists b]|]. unfold machine_row. cbn. rewrite Hd. cbn. by rewrite Hp, Z.eqb_refl.
  - apply Forall_forall. intros [c i d] (Hz & _ & Hd & _)%Hco E. cbn in E. subst d. apply bool_decide_eq_true in E. by apply (di_dead A HA i c).
Qed.
(** The first rows of an answer are the answer up to the last of them. *)
Lemma answer_take A t T l n :
  answer p A t T l → let l' := take n l in answer p A t (default t (fst <$> last l')) l' ∧ t ≤ default t (fst <$> last l') ≤ Z.max t T.
Proof.
  intros [Hs Hl] l'. assert (∀ c y, (c, y) ∈ l' → t < c ∧ c ≤ T) as Hin.
  { intros c y [z Hz]%list_elem_of_lookup. apply lookup_take_Some in Hz as [Hz _]. apply list_elem_of_lookup_2, Hl in Hz as [[? _] ?]. lia. }
  destruct (last l') as [[c0 y0]|] eqn:E; cbn.
  - assert ((c0, y0) ∈ l') as Hc0 by (by apply last_Some_elem_of). specialize (Hin _ _ Hc0) as Hc. split; [|lia].
    rewrite <-(take_drop n l) in Hs. fold l' in Hs. split; [by apply StronglySorted_app_1_l in Hs|]. intros c y.
    apply last_Some in E as [l0 E]. split.
    + intros Hcy. assert (c ≤ c0) as Hle.
      { rewrite E in Hcy. apply elem_of_app in Hcy as [Hcy|[= -> ->]%list_elem_of_singleton]; [|done]. rewrite E, <-app_assoc in Hs.
        eapply StronglySorted_app_1_elem_of in Hs; [|exact Hcy|by left]. cbn in Hs. lia. }
      split; [|done]. apply Hl. rewrite <-(take_drop n l). apply elem_of_app. by left.
    + intros [Hco Hle]. assert ((c, y) ∈ l) as Hcy by (apply Hl; split; [done|lia]). rewrite <-(take_drop n l) in Hcy.
      apply elem_of_app in Hcy as [?|Hcy]; [done|]. eapply StronglySorted_app_1_elem_of in Hs; [|exact Hc0|exact Hcy]. cbn in Hs. lia.
  - apply last_None in E. rewrite E in *. split; [|lia]. split; [constructor|]. intros c y. split; [by intros ?%not_elem_of_nil|]. intros [[? _] ?]. lia.
Qed.

(** The changes of the log since [t], and the last of them. *)
Lemma since_log t s A H :
  frep s A H → 0 ≤ t ≤ d_clock A → floor_value (view s) a fC ≤ t →
  ∃ l T, changes_since a (object_collection f) t s = Ok l ∧ entries_sorted l ∧ (∀ e, e ∈ l ↔ e ∈ H ∧ t < change_id e) ∧
    (match max_change l with Some latest => Ok latest | None => dav_state a (object_collection f) s end) = Ok T ∧ t ≤ T ≤ d_clock A ∧ covers A T.
Proof.
  intros Hr Ht Hf. pose proof (dr_log _ _ _ _ _ Hr) as [Hs Hwf (n & Hn & Hn0 & Hids & _) _ Hso Hco]. cbn in *.
  assert (n = d_clock A) as -> by (pose proof (dr_clock _ _ _ _ _ Hr); unfold counter_at in *; congruence).
  pose proof (counter_value_range _ _ Hn). rewrite object_collection_member.
  destruct (changes_since_spec a fC t s) as (l & E & Hsort & Hl); [done|done|width|].
  assert (∀ e, e ∈ l ↔ e ∈ H ∧ t < change_id e) as Hl'.
  { intros e. rewrite Hl. split; intros [He Hlt]; (split; [|done]); [by apply Hso|apply Hco; [done|lia]]. }
  assert (∀ i z, d_last A !! i = Some z → z ≤ d_clock A ∧ (t < z → ∃ e, e ∈ l ∧ change_id e = z)) as Hlast.
  { intros i z Hz. split; [apply (di_last A (dr_inv _ _ _ _ _ Hr)) in Hz as (_ & ? & _); lia|]. intros Hlt.
    destruct (dh_top A H (dr_hist _ _ _ _ _ Hr) i z Hz) as (k & Hk & _). exists (mkEntry z i k). split; [by apply Hl'|done]. }
  destruct (max_change l) as [T|] eqn:Em.
  - apply max_change_spec in Em as Hmax. destruct Hmax as [(e & He & Eid) Hall]. rewrite <-Eid in *. exists l, (change_id e). rewrite Em. split_and!; try done.
    + apply Hl' in He as [_ ?]. lia.
    + apply Hl' in He as [He _]. rewrite Forall_forall in Hids. apply (Hids e). apply elem_of_app. by left.
    + intros i z Hz. destruct (Hlast i z Hz) as [_ Hlt]. destruct (decide (t < z)) as [Hd|Hd].
      * destruct (Hlt Hd) as (e' & ? & <-). by apply Hall.
      * apply Hl' in He as [_ ?]. lia.
  - exists l, (d_clock A). unfold dav_state. rewrite Em. erewrite latest_spec by done. split_and!; try done; [lia|]. intros i z Hz. apply (Hlast i z Hz).
Qed.
(** Where the log has been cut, [can_calculate] says so. *)
Definition not_cut s (t : Z) : Prop := can_calculate a (object_collection f) t s = Ok true.
(** An answer is not cut by the client's limit. *)
Definition whole {X} (limit : option nat) (rows : list X) : Prop := ∀ n, limit = Some n → (length rows < n)%nat.

Lemma report_since t limit props s A H :
  frep s A H → 0 ≤ t ≤ d_clock A → not_cut s t →
  ∃ l t', report_rows a username f v (mkSync (Some (sync_token t)) limit props) s = Ok (row_sync <$> l.*2, t') ∧ answer p A t t' l ∧
    t ≤ t' ≤ d_clock A ∧ (whole limit l → covers A t').
Proof.
  intros Hr Ht Hcut. unfold not_cut in Hcut. rewrite object_collection_member, can_calculate_spec in Hcut by (by eapply drep_healthy). injection Hcut as Hf%Z.leb_le.
  destruct (since_log t s A H Hr Ht Hf) as (es & T & E & Hsort & Hes & ET & HT & Hcov). pose proof (dr_log _ _ _ _ _ Hr) as [_ _ (n & Hn & _ & Hids & _) _ _ _]. cbn [h_committed h_pending h_store] in *.
  destruct (machine_rows_answer A H t es T) as [Ha Hreal]; [apply (dr_inv _ _ _ _ _ Hr)|apply (dr_hist _ _ _ _ _ Hr)| |done|done|done|].
  { rewrite app_nil_r in Hids. eapply Forall_impl; [exact Hids|]. intros e [_ ?]. lia. }
  set (l := omap (machine_row A) (coalesce es)) in *. pose proof (counter_value_range _ _ (dr_clock _ _ _ _ _ Hr)).
  unfold report_rows. cbn [sy_token sy_limit]. rewrite sync_token_parses by width. cbn [mbind result_bind].
  rewrite E. cbn [mbind result_bind]. rewrite (sync_rows_spec s A H (coalesce es) Hr Hreal). cbn [mbind result_bind]. fold l. rewrite ET. cbn [mbind result_bind].
  unfold cut. rewrite length_fmap. destruct limit as [k|].
  - destruct (Nat.ltb_spec k (length l)) as [Hk|Hk].
    + exists (take k l), (default t (fst <$> last (take k l))). destruct (answer_take A t T l k Ha) as [Ha' Hle]. split_and!; [|done|lia|lia|].
      * rewrite <-!fmap_take. f_equal. f_equal; [by rewrite <-!list_fmap_compose|]. rewrite fmap_last. by destruct (last (take k l)) as [[]|].
      * intros Hw. specialize (Hw k eq_refl). rewrite length_take in Hw. lia.
    + exists l, T. split_and!; [by rewrite <-!list_fmap_compose|done|lia|lia|done].
  - exists l, T. split_and!; [by rewrite <-!list_fmap_compose|done|lia|lia|done].
Qed.
End report.

(** ** A client over time *)

Lemma dsteps_keep A A' : dinv A → dsteps A A' → dinv A' ∧ d_clock A ≤ d_clock A'.
Proof.
  intros HA Hd. induction Hd as [A|A A1 A' [e He] _ IH]; [done|]. destruct IH as [? ?]; [by eapply dinv_step|]. split; [done|].
  destruct (dstep_clock _ _ _ He) as (? & _). lia.
Qed.
Lemma dsteps_agrees key p A A' t m : dinv A → t ≤ d_clock A → dsteps A A' → agrees key p A t m → agrees key p A' t m.
Proof.
  intros HA Ht Hd. induction Hd as [A|A A1 A' [e He] _ IH]; [done|]. intros Hag. destruct (dstep_clock _ _ _ He) as (Hc & _).
  apply IH; [by eapply dinv_step|lia|by eapply agrees_step].
Qed.

Section world.
Context {S : Type} {store : Store S} {contract : StoreSpec S} {dj : DavJson} {djl : DavJsonLaws} {lib : DavLibrary} {xml : XmlReader}.
(** The account, the family, and the user and the collection of the client. *)
Context (a : Z) (f : Family) (username : bytes) (v : CollectionView).
Implicit Types (s : S) (m : gmap bytes ObjectView).
Abbreviation wrep := (drep (member_type f) a).
Abbreviation wkey := (object_href f username (cv_name v)).

Record sync_world : Type := mkSyncWorld { w_store : S; w_copy : gmap bytes ObjectView; w_token : option bytes }.
(** What a client does with the rows; without a token it starts afresh. *)
Definition client_row m (r : SyncRow) : gmap bytes ObjectView :=
  match r with Present h o => <[h := o]> m | Gone h => base.delete h m end.
Definition client_apply (token : option bytes) m (rows : list SyncRow) : gmap bytes ObjectView :=
  foldl client_row (match token with None => ∅ | Some _ => m end) rows.

(** Changes and ids can still be numbered. *)
Definition dav_room s : Prop := (∃ n, counter_at (view s) a (object_collection f) n ∧ n + U32_MAX ≤ I64_MAX) ∧ ids_left a f s.
(** The log goes back to the token. *)
Definition usable s (token : option bytes) : Prop := ∀ t, parse_sync_token token = Some t → not_cut a f s t.
(** A store without objects of the family. *)
Definition dav_fresh s : Prop :=
  ChangeLog.fresh a (object_collection f) s ∧ view s !! id_key a (object_collection f) = None ∧
  (∀ k, prefix_encode (kp_collection Property a (object_collection f)) `prefix_of` k → view s !! k = None) ∧ cells_ok a (view s).

Inductive sync_step : sync_world → sync_world → Prop :=
  | step_request user req now reply s s' m token :
      dav_room s → handle a user req now s = (reply, s') → sync_step (mkSyncWorld s m token) (mkSyncWorld s' m token)
  | step_prune_log keep_last n s s' m token :
      prune a (object_collection f) keep_last s = (Ok n, s') → sync_step (mkSyncWorld s m token) (mkSyncWorld s' m token)
  | step_sync limit props rows t s m token :
      usable s token → report_rows a username f v (mkSync token limit props) s = Ok (rows, t) →
      sync_step (mkSyncWorld s m token) (mkSyncWorld s (client_apply token m rows) (Some (sync_token t))).

Definition world_inv (w : sync_world) : Prop :=
  ∃ A H, wrep (w_store w) A H ∧
    match w_token w with
    | None => True
    | Some token => ∃ t, token = sync_token t ∧ 0 ≤ t ≤ d_clock A ∧ agrees wkey (cv_id v) A t (w_copy w)
    end.

Lemma fresh_world s : dav_fresh s → wrep s (mkDstate ∅ ∅ ∅ ∅ 0 0) [].
Proof.
  unfold dav_fresh. rewrite object_collection_member. intros (Hf & Hid & Hrows & Hcells). pose proof Hf as (_ & Hc & _). split.
  - by apply log_inv_fresh.
  - split; cbn; try (intros *; rewrite !lookup_empty; done). done.
  - split; cbn; [by intros e ?%not_elem_of_nil|intros i z; by rewrite lookup_empty|]. intros i b. rewrite lookup_empty. split; [done|by intros ?%not_elem_of_nil].
  - unfold counter_at. by rewrite Hc.
  - exists 0. rewrite Hid. split; [done|width].
  - intros k x Hk Hp. rewrite Hrows in Hk; done.
  - intros i o. cbn. by rewrite lookup_empty.
  - intros i d. cbn. by rewrite lookup_empty.
  - done.
Qed.
Lemma prune_world keep_last n s s' A H : wrep s A H → prune a (object_collection f) keep_last s = (Ok n, s') → wrep s' A H.
Proof.
  rewrite object_collection_member. intros Hr E. assert (counter_source (mb_collection (R := member_type f)) = mb_collection (R := member_type f)) as Hsrc by (by destruct f).
  pose proof Hr as [HL HA HH Hck Hnext Hrows Hobjs Htombs Hcells].
  pose proof (log_inv_prune a _ s s' H [] keep_last n Hsrc HL E) as HL'. pose proof HL as [Hs Hwf (k & Hk & Hk0 & _ & Hfl) _ _ _]. cbn in Hs, Hwf, Hk, Hfl.
  pose proof (counter_value_range _ _ Hk).
  destruct (prune_spec a (mb_collection (R := member_type f)) keep_last s k) as (s1 & n1 & E1 & _ & Hother & _); [done|done|by rewrite Hsrc|done|width|].
  rewrite E in E1. injection E1 as <- <-.
  assert (∀ x, key_subspace x ≠ Key.ChangeLog → key_suffix x ≠ bs "changelog-floor" → view s' !! key_encode x = view s !! key_encode x) as Hkeep.
  { intros x Hx Hsuf. apply Hother; [apply collection_prefix_ne; by left|]. apply key_encode_ne. by right; right. }
  split; [done|done|done|..].
  - unfold counter_at, counter_key. by rewrite Hkeep.
  - unfold id_key. by rewrite Hkeep.
  - intros k' x Hx Hp. apply Hrows; [|done]. rewrite <-Hother; [done| |].
    + intros Hp'. destruct Hp as [r1 ->], Hp' as [r2 E2]. by injection E2.
    + intros ->. apply collection_prefix in Hp as [? _]. done.
  - intros i o. unfold record_key. rewrite Hkeep by done. apply Hobjs.
  - intros i d. unfold tombstone_key. rewrite Hkeep by done. apply Htombs.
  - intros c z Hz. unfold cell. rewrite Hkeep by done. by apply Hcells.
Qed.

(** The client's rows are the rows of the machine. *)
Lemma client_rows m l : foldl client_row m (row_sync f username v <$> l.*2) = foldl (apply_row wkey) m l.
Proof. revert m. induction l as [|[c [o|x]] l IH]; intros m; cbn [fmap list_fmap foldl]; [done|apply IH..]. Qed.
(** The first synchronisation. *)
Lemma report_first limit props s A H :
  wrep s A H → ∃ l, report_rows a username f v (mkSync None limit props) s = Ok (shown username f v <$> l, d_clock A) ∧
    mirrors wkey (cv_id v) A (foldl client_row ∅ (shown username f v <$> l)).
Proof.
  intros Hr. destruct (object_views_spec a f (Some (cv_id v)) s A H Hr) as (l & E & Hl). exists l. pose proof (dr_inv _ _ _ _ _ Hr) as HA. split.
  - unfold report_rows. cbn [sy_token parse_sync_token mbind option_bind]. unfold objects. rewrite E. cbn [mbind result_bind]. unfold dav_state.
    rewrite object_collection_member. erewrite latest_spec; [done|apply (drep_healthy _ _ _ _ _ Hr)|apply (dr_clock _ _ _ _ _ Hr)|apply (drep_room _ _ _ _ _ Hr)].
  - assert (shown username f v <$> l = row_sync f username v <$> (((λ o, (0, Shown o)) <$> l) : list (Z * DavSync.row)).*2) as -> by (by rewrite <-!list_fmap_compose).
    rewrite client_rows. intros h o. set (l' := (λ o, (0, Shown o)) <$> l).
    assert (∀ y, y ∈ l' → ∃ o, y = (0, Shown o) ∧ o ∈ l) as Hl' by (intros y (o' & -> & ?)%list_elem_of_fmap; eauto).
    destruct (apply_rows_lookup wkey l' ∅ h) as [[Hno ->]|(l1 & c & y & l2 & El & <- & _ & ->)].
    + rewrite lookup_empty. split; [done|]. intros (x & i & -> & Hi & Hp & Hx). exfalso. apply (Hno (0, Shown o)); [|cbn; by rewrite Hx].
      apply list_elem_of_fmap. exists o. split; [done|]. apply Hl. split; [by exists i|done].
    + destruct (Hl' (c, y)) as (o' & [= -> ->] & [[i Hi] Hp]%Hl); [rewrite El; set_solver|]. split.
      * intros [= <-]. exists (ov_name o'), i. done.
      * intros (x & j & Ex%(inj wkey) & Hown). cbn in Ex. f_equal. by destruct (owns_unique (cv_id v) A x i j o' o HA) as [_ ?].
Qed.
(** What an answer makes of a client that keeps to the protocol. *)
Lemma sync_world_step w limit props :
  world_inv w → usable (w_store w) (w_token w) →
  ∃ A H rows t, wrep (w_store w) A H ∧ report_rows a username f v (mkSync (w_token w) limit props) (w_store w) = Ok (rows, t) ∧
    0 ≤ t ≤ d_clock A ∧ agrees wkey (cv_id v) A t (client_apply (w_token w) (w_copy w) rows) ∧ (w_token w = None ∨ whole limit rows → covers A t).
Proof.
  destruct w as [s m token]. intros (A & H & Hr & Hag) Hu. cbn in *. pose proof (dr_inv _ _ _ _ _ Hr) as HA. exists A, H. destruct token as [token|].
  - destruct Hag as (t & -> & Ht & Hag). pose proof (counter_value_range _ _ (dr_clock _ _ _ _ _ Hr)).
    destruct (report_since a f username v t limit props s A H Hr Ht) as (l & t' & E & Hans & Ht' & Hcov).
    { apply Hu, sync_token_parses. width. }
    exists (row_sync f username v <$> l.*2), t'. split_and!; [done|done|lia|lia| |].
    + unfold client_apply. rewrite client_rows. eapply (agrees_answer wkey (cv_id v) A t t'); [done|lia|done|done].
    + intros [?|Hw]; [done|]. apply Hcov. unfold whole in *. by rewrite !length_fmap in Hw.
  - destruct (report_first limit props s A H Hr) as (l & E & Hmir). exists (shown username f v <$> l), (d_clock A).
    assert (covers A (d_clock A)) by (intros i z (_ & ? & _)%(di_last A HA); lia). pose proof (drep_room _ _ _ _ _ Hr).
    split_and!; [done|done|lia|lia| |done]. by apply mirrors_agrees.
Qed.
Lemma world_inv_step w w' : world_inv w → sync_step w w' → world_inv w'.
Proof.
  intros Hw Hs. destruct Hs as [user req now reply s s' m token [(n & Hn & Hroom) Hids] E|keep_last n s s' m token E|limit props rows t s m token Hu E].
  - destruct Hw as (A & H & Hr & Hag). cbn in *. rewrite object_collection_member in Hn.
    assert (n = d_clock A) as -> by (pose proof (dr_clock _ _ _ _ _ Hr); unfold counter_at in *; congruence).
    destruct (go_run a f user req now s A H Hr Hroom Hids) as (A' & H' & Hr' & Hd & _ & _). unfold handle in E. destruct (run a user req now s) as [r s1]. injection E as <- <-.
    exists A', H'. split; [done|]. cbn. pose proof (dr_inv _ _ _ _ _ Hr) as HA. destruct (dsteps_keep A A' HA Hd) as [_ Hc].
    destruct token as [token|]; [|done]. destruct Hag as (t & -> & Ht & Hag). exists t. split_and!; [done|lia|lia|]. eapply dsteps_agrees; [done| |done|done]. lia.
  - destruct Hw as (A & H & Hr & Hag). exists A, H. split; [by eapply prune_world|done].
  - destruct (sync_world_step _ limit props Hw Hu) as (A & H & rows' & t' & Hr & E' & Ht & Hag & _). cbn in *. rewrite E in E'. injection E' as <- <-.
    exists A, H. split; [done|]. cbn. by exists t.
Qed.
Lemma world_inv_run w w' : world_inv w → rtc sync_step w w' → world_inv w'.
Proof. intros Hw Hrun. induction Hrun; [done|]. eauto using world_inv_step. Qed.

(** C5. Synchronisation is exact.  Start from a store without objects of the
    family, and let come in any order: requests of the account, whatever their
    methods, paths and bodies and whether they succeed; prunes of the change
    log; and synchronisations of one client, which applies every answer to its
    copy, keeps the token and may limit how many rows it wants.  Then at every
    moment the report answers, unless the log was cut after the client's token;
    and when the answer is whole, the client's copy is the collection: it has
    every object under its path and nothing else. *)
Theorem dav_sync_exact s w limit props :
  dav_fresh s → rtc sync_step (mkSyncWorld s ∅ None) w → usable (w_store w) (w_token w) →
  ∃ rows t l, report_rows a username f v (mkSync (w_token w) limit props) (w_store w) = Ok (rows, t) ∧
    objects a f (cv_id v) (w_store w) = Ok l ∧
    (w_token w = None ∨ whole limit rows →
     ∀ h o, client_apply (w_token w) (w_copy w) rows !! h = Some o ↔ o ∈ l ∧ h = object_href f username (cv_name v) (ov_name o)).
Proof.
  intros Hf Hrun Hu. assert (world_inv w) as Hw.
  { eapply world_inv_run; [|done]. eexists _, []. split; [by apply fresh_world|done]. }
  destruct (sync_world_step w limit props Hw Hu) as (A & H & rows & t & Hr & E & _ & Hag & Hcov).
  destruct (object_views_spec a f (Some (cv_id v)) (w_store w) A H Hr) as (l & El & Hl). exists rows, t, l. split_and!; [done|done|].
  intros Hw' h o. rewrite (agrees_mirrors wkey (cv_id v) A t _ (dr_inv _ _ _ _ _ Hr) (Hcov Hw') Hag h o). rewrite Hl. split.
  - intros (x & i & -> & Hi & Hp & <-). split; [split; [by exists i|done]|done].
  - intros [[[i Hi] Hp] ->]. exists (ov_name o), i. done.
Qed.
End world.

(** *** One client, by evaluation *)

(** Any encoding that can be read back will do for the records. *)
Definition coded_json {R} `{Countable R} : RowJson R := {|
  row_encode r := Ok [Zpos (encode r)];
  row_decode b := match b with [Zpos x] => ok_or (decode x) (Serialize "record") | _ => Err (Serialize "record") end;
|}.
Lemma coded_laws {R} `{Countable R} : @RowJsonLaws R coded_json.
Proof. constructor. intros r. exists [Zpos (encode r)]. split; [done|]. cbn. by rewrite decode_encode. Qed.

#[global] Instance DeadProperty_eq_dec : EqDecision DeadProperty.
Proof. solve_decision. Defined.
#[global] Instance CalendarCollection_eq_dec : EqDecision CalendarCollection.
Proof. solve_decision. Defined.
#[global] Instance CalendarEventRecord_eq_dec : EqDecision CalendarEventRecord.
Proof. solve_decision. Defined.
#[global] Instance AddressBookCollection_eq_dec : EqDecision AddressBookCollection.
Proof. solve_decision. Defined.
#[global] Instance ContactCardRecord_eq_dec : EqDecision ContactCardRecord.
Proof. solve_decision. Defined.
#[global] Instance Tombstone_eq_dec : EqDecision Tombstone.
Proof. solve_decision. Defined.
#[global] Instance DeadProperty_countable : Countable DeadProperty.
Proof. refine (inj_countable' (λ r, (dp_ns r, dp_name r, dp_value r)) (λ '(x, y, z), mkDead x y z) _). by intros []. Defined.
#[global] Instance CalendarCollection_countable : Countable CalendarCollection.
Proof.
  refine (inj_countable' (λ r, (ca_id r, ca_name r, ca_display_name r, ca_color r, ca_order r, ca_description r, ca_time_zone r, ca_dead_properties r, ca_created r, ca_modified r))
    (λ '(a, b, c, d, e, f, g, h, i, j), mkCalendar a b c d e f g h i j) _). by intros [].
Defined.
#[global] Instance CalendarEventRecord_countable : Countable CalendarEventRecord.
Proof.
  refine (inj_countable' (λ r, (ev_id r, ev_calendar_id r, ev_name r, ev_uid r, ev_ics r, ev_etag r, ev_starts_min r, ev_ends_max r, ev_size r, ev_created r, ev_modified r))
    (λ '(a, b, c, d, e, f, g, h, i, j, k), mkEvent a b c d e f g h i j k) _). by intros [].
Defined.
#[global] Instance AddressBookCollection_countable : Countable AddressBookCollection.
Proof.
  refine (inj_countable' (λ r, (bo_id r, bo_name r, bo_display_name r, bo_description r, bo_dead_properties r, bo_created r, bo_modified r))
    (λ '(a, b, c, d, e, f, g), mkBook a b c d e f g) _). by intros [].
Defined.
#[global] Instance ContactCardRecord_countable : Countable ContactCardRecord.
Proof.
  refine (inj_countable' (λ r, (cd_id r, cd_book_id r, cd_name r, cd_uid r, cd_vcf r, cd_etag r, cd_full_name r, cd_emails r, cd_size r, cd_created r, cd_modified r))
    (λ '(a, b, c, d, e, f, g, h, i, j, k), mkCard a b c d e f g h i j k) _). by intros [].
Defined.
#[global] Instance Tombstone_countable : Countable Tombstone.
Proof. refine (inj_countable' (λ r, (ts_change_id r, ts_parent_id r, ts_name r)) (λ '(x, y, z), mkTombstone x y z) _). by intros []. Defined.

Module DavDemo.
#[local] Instance demo_json : DavJson :=
  {| json_calendar := coded_json; json_event := coded_json; json_book := coded_json; json_card := coded_json; json_tombstone := coded_json |}.
#[local] Instance demo_laws : DavJsonLaws.
Proof. split; apply coded_laws. Qed.
(** Calendars whose text is their UID; no request here has an XML body. *)
#[local] Instance demo_library : DavLibrary :=
  {| parse_ics b := Some (mkIcs b 0 0); parse_vcf b := None; content_etag b := b; dav_lowercase := to_ascii_lowercase |}.
#[local] Instance demo_xml : XmlReader := {| xml_events _ := []; predefined_entity _ := None |}.

Definition user : bytes := bs "ann".
Definition work : CollectionView := mkCollectionView 1 (bs "calendar") (bs "Calendar") None 0 None None [] 5.
Definition ask (method : string) (name : string) (body : string) : DavRequest :=
  mkRequest (bs method) (object_href Cal user (bs "calendar") (bs name)) None None None None true (bs body).
Definition served (req : DavRequest) (s : MemStore) : MemStore := (handle 7 user req 5 s).2.
Definition start : MemStore := mkMem ∅.
Definition s1 : MemStore := served (ask "PUT" "a b" "A") start.
Definition s2 : MemStore := served (ask "PUT" "c" "C") s1.
Definition s3 : MemStore := served (ask "DELETE" "a b" "") s2.
Definition first_rows : list SyncRow := match report_rows 7 user Cal work (mkSync None None (Named [])) s1 with Ok x => x.1 | Err _ => [] end.
Definition copy : gmap bytes ObjectView := client_apply None ∅ first_rows.

Lemma demo_room : dav_room 7 Cal start ∧ dav_room 7 Cal s1 ∧ dav_room 7 Cal s2.
Proof.
  assert (∀ s n k, counter_value (view s !! counter_key 7 CalendarEvent) = Some n → counter_value (view s !! id_key 7 CalendarEvent) = Some k →
    n < 10 → k < 10 → dav_room 7 Cal s) as Hroom.
  { intros s n k Hn Hk ? ?. split; [exists n; split; [done|width]|]. intros k' Hk'. unfold next_at in Hk'. cbn [member_type member_member mb_collection event_member] in Hk'.
    assert (k' = k) by congruence. width. }
  split_and!; eapply Hroom; [vm_compute; reflexivity|vm_compute; reflexivity|done|done|vm_compute; reflexivity|vm_compute; reflexivity|done|done|vm_compute; reflexivity|vm_compute; reflexivity|done|done].
Qed.
Lemma demo_run : rtc (sync_step 7 Cal user work) (mkSyncWorld start ∅ None) (mkSyncWorld s3 copy (Some (sync_token 1))).
Proof.
  destruct demo_room as (R0 & R1 & R2).
  eapply rtc_l; [by eapply (step_request 7 Cal user work user (ask "PUT" "a b" "A") 5); [|apply surjective_pairing]|].
  eapply rtc_l; [eapply (step_sync 7 Cal user work None (Named []) first_rows 1); [by intros t|vm_compute; reflexivity]|].
  eapply rtc_l; [by eapply (step_request 7 Cal user work user (ask "PUT" "c" "C") 5); [|apply surjective_pairing]|].
  eapply rtc_l; [by eapply (step_request 7 Cal user work user (ask "DELETE" "a b" "") 5); [|apply surjective_pairing]|].
  apply rtc_refl.
Qed.
(** The answer names the object that came and the one that went. *)
Example demo_answer :
  report_rows 7 user Cal work (mkSync (Some (sync_token 1)) None (Named [])) s3 =
  Ok ([Present (bs "/dav/cal/ann/calendar/c") (mkObjectView 2 1 (bs "c") (Some (bs "C")) (bs "C") (bs "C") 1 0 0 [] []);
       Gone (bs "/dav/cal/ann/calendar/a%20b")], 3).
Proof. vm_compute. reflexivity. Qed.
Lemma demo_fresh : dav_fresh 7 Cal start.
Proof. split_and!; try done. intros c n _. by exists 0. Qed.
Lemma dav_sync_exact_witness :
  ∃ rows t l, report_rows 7 user Cal work (mkSync (Some (sync_token 1)) None (Named [])) s3 = Ok (rows, t) ∧ objects 7 Cal 1 s3 = Ok l ∧
    ∀ h o, client_apply (Some (sync_token 1)) copy rows !! h = Some o ↔ o ∈ l ∧ h = object_href Cal user (bs "calendar") (ov_name o).
Proof.
  destruct (dav_sync_exact 7 Cal user work start (mkSyncWorld s3 copy (Some (sync_token 1))) None (Named []) demo_fresh demo_run) as (rows & t & l & E & El & Hall).
  { intros t Ht. vm_compute in Ht. injection Ht as <-. vm_compute. reflexivity. }
  exists rows, t, l. split; [exact E|]. split; [exact El|]. apply Hall. right. intros n [=].
Defined.
End DavDemo.
